(* ===== verification/_CoqProject ===== *)
-Q . S2P
Prelude.v
Utf8.v
Text.v
Conversation.v
LockProtocol.v
LockWorker.v
Coordination.v
CoordinationProofs.v
Ordering.v
OutputSelection.v
SessionLock.v
LockRuntime.v
LockHandover.v
LockExit.v
Container.v
ContainerWalk.v
Heic.v
HeicColor.v
HeicColorProofs.v
HeicPlist.v
HeicPlistProofs.v
DynamicModel.v
HeicMetadata.v
HeicMetadataProofs.v
HeicFrame.v
Playback.v
HeicFrameProofs.v
PlaybackProofs.v
HeicRelay.v
HeicRelayProofs.v
Wallpaper.v
WallpaperProofs.v
WallpaperState.v
HeicWorker.v
HeicWorkerProofs.v
Sessions.v
Accounts.v
Auth.v
Greeter.v
GreeterRuns.v
GreeterSafety.v
Solar.v
Geoclue.v
DesktopSurface.v
DesktopSurfaceProofs.v
Desktop.v
DesktopProofs.v
DesktopRuns.v
DesktopLocation.v
LockerDraw.v
LockerDrawProofs.v
Locker.v
LockerProofs.v
LockerSecrecy.v
LockerEndToEnd.v
Launcher.v
LauncherProofs.v
LockDraw.v
LockDrawProofs.v
LockPixels.v
LockScreen.v
CommandLine.v
CommandLineProofs.v
GreeterView.v
GreeterViewProofs.v
GreeterTile.v
GreeterPreview.v
LockPreview.v
LockPreviewProofs.v
Keys.v
