(* ===== verification/Prelude.v ===== *)
(** * Genkan: a verification development

    Genkan is a Wayland greeter for greetd and a Wayland screen locker.  One
    binary, [genkan], shows the greeter ([src/app/]) or the locker
    ([src/locker/]); the locker's PAM conversation runs in a private worker
    process ([crates/lock-auth]); its surfaces are driven by
    [crates/session-lock]; both frontends show wallpapers that may be dynamic
    HEIC files ([src/dynamic_wallpaper/]).  Source names in this development
    are relative to the repository, and a definition bears the name of the Rust
    item it models wherever Rocq allows it.

    ** The files and what they model

    - [Prelude], [Utf8], [Text], [Ordering]: results, machine arithmetic, bytes,
      strings, numbers in text, string orders, the stable sorts; the notations, tactics and the
      [genkan] hint database the other files use.
    - [Conversation]: [src/conversation.rs], the prompt/response state that the
      greeter and the locker share.
    - [Auth]: [src/auth.rs], the client of greetd.  [Accounts]:
      [src/accounts.rs].  [Sessions]: [src/sessions.rs].
    - [Greeter]: [src/app/mod.rs], [src/app/auth_flow.rs], [src/app/focus.rs],
      the greeter's [update] with its focus.  [GreeterRuns]: its runs, a step
      relation in which background tasks complete in any order between the
      user's messages.  [GreeterSafety]: the properties of the runs.
    - [GreeterView], [GreeterTile]: [src/app/view.rs],
      [src/app/account_tile.rs], [src/app/modal.rs], the tree of the greeter's
      widgets with what each shows and sends, and the gesture that presses a
      tile.  [GreeterViewProofs]: the proofs that relate the screen to the
      keyboard.  [GreeterPreview]: [src/app/preview.rs], the fixtures of
      the preview, and what a preview may start.
    - [Keys]: the listeners of the greeter ([src/app/focus.rs],
      [src/app/mod.rs]) and the key symbols of the locker ([runtime.rs]).
    - [CommandLine]: [src/main.rs], the options and what each subcommand is run
      with, over a parameter for the clap library, the class [Clap] with its
      documented laws [ClapLaws].  [CommandLineProofs]: a grammar that keeps
      these laws, and the command lines that the program writes for its own
      processes.
    - [OutputSelection]: [crates/output-selection], [src/outputs.rs], which
      output presents authentication.
    - [LockProtocol]: [crates/lock-auth/src/lib.rs], the protocol between the
      locker and its worker, down to partial and interrupted reads.
    - [LockWorker]: [crates/lock-auth/src/main.rs], the worker itself over any
      PAM stack, and the reader of [src/locker/auth.rs] that turns its messages
      into events.
    - [Coordination]: [src/locker/coordination.rs], the lease, the socket and the
      processes that enter one compositor's lock.  [CoordinationProofs]: the
      proofs about their interleavings.
    - [SessionLock]: [crates/session-lock/src/lib.rs], the lock's lifecycle and
      the [Presentation] interface, a type class.  [LockRuntime]:
      [crates/session-lock/src/runtime.rs], the event handlers and the main
      loop, over any instance of that class.  [LockDraw]: the same file, what
      is drawn into a buffer, down to the pixels.  [LockHandover], [LockExit],
      [LockDrawProofs], [LockPixels]: the proofs about them.
    - [Container]: [src/dynamic_wallpaper/container.rs], the preflight of
      untrusted HEIF files.  [ContainerWalk]: the proofs about it.
    - [Heic], [HeicPlist], [HeicColor], [HeicMetadata], [HeicFrame]:
      [src/dynamic_wallpaper/heic.rs] (the limits and the errors, the property
      list preflight, the color profile preflight, XMP and schedules, opening,
      decoding and packing) and [src/stable_file.rs].  [HeicPlistProofs],
      [HeicColorProofs], [HeicMetadataProofs], [HeicFrameProofs]: the proofs
      about them.
    - [DynamicModel]: [src/dynamic_wallpaper.rs], schedules, metadata and the
      civil clock.  [Playback]: [src/dynamic_wallpaper/playback.rs].
      [PlaybackProofs]: the proofs about it.
    - [HeicRelay], [HeicWorker], [Wallpaper], [WallpaperState]:
      [src/wallpaper.rs] (the frames on the pipe with the worker's supervisor
      and the player's owner as a step relation; the loop of the worker process
      over [Playback]; the video player's shared state, loop, monitor and
      attempts; the wallpaper state of the frontends).  [HeicRelayProofs],
      [HeicWorkerProofs], [WallpaperProofs]: the proofs about them.
    - [Solar]: [src/dynamic_wallpaper/solar.rs].  [Geoclue]: [src/geoclue.rs].
    - [DesktopSurface], [Desktop]: [src/desktop_wallpaper.rs] (when and how a
      surface is drawn; the scheduler, the two threads with their channels, the
      event handlers and the main loop).  [DesktopSurfaceProofs],
      [DesktopProofs], [DesktopRuns], [DesktopLocation]: the proofs about the
      drawing, the scheduler, the runs of the loop and the location service.
    - [LockerDraw]: the drawing of the authentication overlay in
      [src/locker/mod.rs], down to the pixels, over any text shaping library.
      [Locker]: the client of the worker in [src/locker/auth.rs] and the
      presentation of [src/locker/mod.rs], an instance of
      [SessionLock.Presentation].  [LockerDrawProofs], [LockerProofs]: the
      proofs about them; [LockerSecrecy]: what a screen can say about what was
      typed; [LockerEndToEnd]: the presentation in [LockRuntime] with
      [LockWorker] behind it; [LockScreen]: the presentation in [LockRuntime]
      with [LockDraw] before it.
    - [LockPreview]: [src/locker/preview.rs], the window of the lock's preview.
      [LockPreviewProofs]: the proofs about it.
    - [Launcher]: [src/locker/identity.rs], [src/locker/launcher.rs], the spawn
      of the worker in [src/locker/auth.rs], and the foreground locker of
      [src/locker/mod.rs] from its descriptors to its exit.  [LauncherProofs]:
      the proofs about it.

    ** How state and operations correspond to the code

    A Rust struct is a record, an enum an inductive type with its variants, a
    [&mut self] method a function that returns the new state, a [Result] or
    [Option] a [result] or [option].  An integer is a [Z] whose width is
    enforced where the code's arithmetic depends on it: wrapping for attempts
    and generations, checked or saturating as the code writes it, and a panic
    value of the model where an unchecked overflow would panic.  An [f64] is
    the Standard Library's IEEE 754 specification; the trigonometric functions
    are a parameter.  A [String] is the list of its
    characters, with the UTF-8 codec in [Utf8].

    What the program asks of the outside is an argument or a parameter: time,
    the compositor's events, greetd's answers, the file system, the
    desktop-entry parser, the Unicode category table.  What it does to the
    outside is a value: the trace of [LockRuntime], the log of [Auth], the tasks
    of [Greeter].  Interleavings are step relations or lists of events, and the
    invariants are proved for all of them.

    ** What the theorems show

    - [Conversation]: every reachable conversation is well formed and
      never leaves a typed secret in a reallocated buffer; answers to an old
      attempt are dropped; what is submitted is what was typed.
    - [LockProtocol] (C27): round trip under every split of the byte
      stream, exactness of decoding, the bytes a receive consumes.
    - [OutputSelection]: the documented preference order,
      independence from enumeration order, the region lies in its layout.
    - [SessionLock]: the lifecycle unlocks only what was confirmed,
      once; frame constructors accept exactly well-formed frames.
    - [LockHandover], [LockExit], [LockRuntime] (C2, C6): the password
      overlay is on at most one output in every run; the locker reports
      readiness at most once and unlocks only a confirmed lock; overlay
      geometry stays on its output.
    - [LockDrawProofs], [LockPixels], [LockScreen] (C5, C10, C11, C12, C13): a drawing never panics,
      leaves nothing of what was there, and shows the conversation on one
      output only; redrawing a part and the cache of the scaled overlay give
      what drawing everything gives; so in every run a committed buffer holds
      the drawing of the present frame, and with the locker behind it every
      buffer of a turn holds the conversation and the wallpaper of the state
      the locker has come to in that turn.
    - [ContainerWalk] (C18, C19): the preflight always ends, never overflows
      and never slices or indexes out of range (each slice and index of the code
      panics in the model where it would there); what it accepts is a tree within the budget
      and bounds what the native parser loads.
    - [HeicPlistProofs], [HeicColorProofs], [HeicMetadataProofs], [HeicFrameProofs] (C38, C39):
      no file makes the checks read out of range, overflow or loop; what they
      accept stays within the budgets once the libraries expand it; an XMP
      packet whose Apple properties hold text is read as the tree it is; accepted metadata names images that exist; decoded
      pixels, their rounding and their alpha.
    - [DynamicModel]: the UTC time line follows the calendar;
      metadata insertion and its conflicts.
    - [PlaybackProofs] (C40): boundary seconds and wake-ups, well-formed
      frames in every run, of one size in a dissolve, superseded decodes are ignored, the arithmetic of a
      dissolve.
    - [HeicRelayProofs], [HeicWorkerProofs] (C20, C21):
      the worker's process is killed only alive and always reaped, one failure
      is told and nothing after it; what the worker has written last is what its
      playback shows, and the frames it wrote are those that the greeter
      publishes; a suspend is seen once.
    - [WallpaperProofs], [WallpaperState]:
      nothing is shown after the terminal failure; the dissolve at the loop;
      at most two attempts; stalls; the background is never lost; the
      handshake with the renderer.
    - [Solar], [Geoclue]:
      where authored solar points land in a day; what a location request may ask
      and return.
    - [DesktopSurfaceProofs], [DesktopProofs], [DesktopRuns], [DesktopLocation] (C22, C23, C24, C25):
      the picture covers its surface; the scheduler is never late while the civil
      clock runs in step, from its start and from each jump of the clock that it
      notices; the loop never fails in any interleaving with its threads, a
      dissolve is seen through on the surfaces that can be drawn, memory is
      bounded; when the location service is asked, and that it is not asked
      again after a refusal.
    - [Sessions]: the strict [Exec] check accepts a grammar; what
      discovery returns; offered sessions can be run.
    - [Accounts]: which accounts are offered and preselected.
    - [Auth]: a restart cancels or recovers before it creates one session.
    - [GreeterSafety] (C14, C15, C29, C30, C31): which requests are outstanding in every run;
      the greeter is never stuck until it has ended or the machine stops;
      responses go to the shown user's connection;
      sessions start, the program exits and power requests are made only
      through their gates; closing is final; focus walks in a circle.
    - [GreeterViewProofs], [GreeterTile] (C33, C34, C35, C37):
      the keyboard reaches the controls that the screen shows, in their order,
      and a press does what the keyboard does; a dialog or a closing greeter
      leaves nothing else to press; what controls send is admitted; what is typed is shown in the input only,
      hidden when it is a secret; a tile is pressed by a click or a tap alone.
    - [Keys]:
      a key that the input has used does nothing else, and what it types into
      the locker holds no control character.
    - [GreeterPreview] (C36):
      a preview only simulates: among the greeter's own steps its tasks are the
      toolkit's alone, so no service is asked and none answers.
    - [CommandLineProofs] (C32):
      the child of a daemonized lock and the worker of a HEIC wallpaper read
      back what their parent wrote, for every output but one whose name starts
      with a hyphen; what an accepted login command line runs.
    - [LockPreviewProofs]:
      the preview of the lock shows its frame at its size, within the budget,
      and ends well only when it is closed.
    - [LockWorker] (C28): the grammar of everything the worker says; the
      events the locker's reader makes of it; a success that the locker hears
      comes from an attempt of that life which PAM accepted for the worker's own
      user and nobody cancelled ([accepted_attempt]).
    - [LockerProofs], [LockerSecrecy], [LockerEndToEnd] (C1, C4, C7, C8, C9):
      the locker always shows the present conversation over the present picture
      and never panics; its workers come one after the other and each answer
      goes once to the worker that asked; once the lock is confirmed there is
      always a key that leads on; of what is typed only the length is on the
      screen; and an unlock means that a worker that the locker started, and
      heard, had PAM accept the locker's own user ([proved_by_pam]).
    - [LockerDrawProofs]: what drawing a pixel does; the fitting of lines; every
      line of a long text is on a page.
    - [LauncherProofs] (C3, C26): what both child processes inherit; what a launch reports;
      the readiness descriptor is adopted or closed; the identity; the locker
      exits well only after another process told it of a confirmed lock, or as
      the owner of the lease after reporting, proving the user and unlocking.
    - [CoordinationProofs] (C16, C17): one owner at most; nobody joins a lock the
      compositor has not confirmed; who saw an owner never becomes one; every
      waiter is answered; what [enter] refuses; the name of a compositor.

    ** Fuel and bounds

    The recursion and the loops of [Container] take fuel;
    [ContainerWalk.preflight_total] shows that the fuel [preflight] gives is
    never exhausted.
    [Sessions.strict_units] is given one more than the characters it reads and
    every turn consumes one; [strict_exec_is_grammar] is an equivalence, so the
    fuel never makes it refuse.  [Playback.boundary_search] halves its
    range of the seconds of a day, and eighteen steps are enough
    ([boundary_second_switch] holds without a condition).  [HeicPlist.expand]
    is given two turns more than the objects it may count
    ([plist_preflight_sound]), [HeicColor.mluc_records] one more than the bytes
    of its tag, of which every record takes twelve
    ([icc_preflight_bounds]).  [Greeter.update] calls itself once at most, for the
    message a focused target stands for: [update_depth_enough] shows that two
    levels are as good as any number.  The run of a schedule of read events in
    [LockProtocol] is structural.  [HeicRelay.supervise] takes a number of
    steps, and [cancelled_worker_dies] shows that [turns] of them end a
    cancelled supervisor.  [Desktop.SOLAR_FUEL] is more than the answers the
    location thread can have ([receive_solar_enough]).  [LockWorker.nss_fuel] lets the name service's
    buffer double up to its last size ([nss_fuel_enough]); the loop of attempts
    has one turn more than there are messages to receive, and each turn but
    the last receives one.  [LockerDraw.fit_search] halves the length of the text
    ([fit_search_spec]); [LockerDraw.FIT_FUEL] is enough for the sizes of fonts
    that are asked for ([shrinks]); [Launcher.RESOLVE_FUEL] for the doubling of
    the buffer ([resolved_identity]).  The loop around [posix_spawn] makes ten
    calls at most, as the code bounds it.

    ** What is not modelled

    Colours, fonts, the sizes that only arrange the greeter's widgets, and the
    toolkit that lays them out and delivers their events ([src/theme.rs], iced);
    the shaping and the rasterization of text, which is the parameter
    [LockerDraw.Typeface]; seats and their keyboards ([runtime.rs]); the grammar of the
    command line, which is the parameter [CommandLine.Clap]; the Wayland, D-Bus,
    PAM, NSS and process plumbing; the GStreamer pipeline of MOV wallpapers;
    libheif, the XML, base64, property-list and color libraries; failures to
    allocate memory, except where the code recovers from them; the greeter's
    wallpaper and its query of the renderer, which [Greeter] and
    [GreeterPreview] leave out of their states ([WallpaperState] models the
    wallpaper itself); the hooks and
    the options that only the tests compile.  These are calls into libraries
    and into the system that the sources only arrange: a definition for them
    would be made up. *)

From Stdlib Require Export ZArith Lia.
From Stdlib Require Export Strings.Byte.
From stdpp Require Export base tactics option list numbers strings sets gmap.

#[export] Set Default Goal Selector "!".

Declare Scope genkan_scope.
Delimit Scope genkan_scope with genkan.
#[global] Open Scope genkan_scope.
#[global] Open Scope Z_scope.

(** ** Results: Rust's [Result<A, E>] *)

Inductive result (E A : Type) : Type :=
| Ok (val : A)
| Err (err : E).
Arguments Ok {E A} _.
Arguments Err {E A} _.

#[export] Instance result_ret {E} : MRet (result E) := λ A x, Ok x.
#[export] Instance result_bind {E} : MBind (result E) :=
  λ A B f r, match r with Ok x => f x | Err e => Err e end.
#[export] Instance result_fmap {E} : FMap (result E) :=
  λ A B f r, match r with Ok x => Ok (f x) | Err e => Err e end.
#[export] Instance result_eq_dec {E A} `{EqDecision E, EqDecision A} :
  EqDecision (result E A).
Proof. solve_decision. Defined.

(** [ok_or(e)] on an option. *)
Definition ok_or {E A} (e : E) (o : option A) : result E A :=
  match o with Some x => Ok x | None => Err e end.

(** An [if !b { return Err(e) }] guard. *)
Definition ensure {E} (b : bool) (e : E) : result E unit :=
  if b then Ok tt else Err e.

Definition is_ok {E A} (r : result E A) : bool :=
  match r with Ok _ => true | Err _ => false end.

Lemma bind_Ok {E A B} (m : result E A) (f : A → result E B) (b : B) :
  (m ≫= f) = Ok b ↔ ∃ a, m = Ok a ∧ f a = Ok b.
Proof. destruct m; cbn; naive_solver. Qed.

Lemma ok_or_Ok {E A} (e : E) (o : option A) (x : A) :
  ok_or e o = Ok x ↔ o = Some x.
Proof. destruct o; cbn; naive_solver. Qed.

Lemma ensure_Ok {E} (b : bool) (e : E) (u : unit) :
  ensure b e = Ok u ↔ b = true.
Proof. destruct b, u; cbn; naive_solver. Qed.

Lemma fmap_Ok {E A B} (m : result E A) (f : A → B) (b : B) :
  f <$> m = Ok b ↔ ∃ a, m = Ok a ∧ f a = b.
Proof. destruct m; cbn; naive_solver. Qed.

(** The only error a computation may end in. *)
Definition fails_with {E A} (e : E) (r : result E A) : Prop := ∀ e', r = Err e' → e' = e.

Lemma fails_with_Ok {E A} (e : E) (x : A) : fails_with e (Ok x).
Proof. by intros e'. Qed.
Lemma fails_with_ok_or {E A} (e : E) (o : option A) : fails_with e (ok_or e o).
Proof. intros e'. destruct o; cbn; congruence. Qed.
Lemma fails_with_ensure {E} b (e : E) : fails_with e (ensure b e).
Proof. intros e'. destruct b; cbn; congruence. Qed.
Lemma fails_with_bind {E A B} (e : E) (m : result E A) (f : A → result E B) :
  fails_with e m → (∀ x, m = Ok x → fails_with e (f x)) → fails_with e (m ≫= f).
Proof. intros Hm Hf e'. destruct m as [x|e0]; cbn; [by apply Hf | intros [= <-]; by apply Hm]. Qed.

(** ** Boolean reflection used by [simp_bool] *)

Ltac simp_bool :=
  repeat match goal with
  | H : (_ && _)%bool = true |- _ => apply andb_true_iff in H as [? ?]
  | H : (_ || _)%bool = false |- _ => apply orb_false_iff in H as [? ?]
  | H : negb _ = true |- _ => apply negb_true_iff in H
  | H : negb _ = false |- _ => apply negb_false_iff in H
  | H : (_ <=? _)%Z = true |- _ => apply Z.leb_le in H
  | H : (_ <=? _)%Z = false |- _ => apply Z.leb_gt in H
  | H : (_ <? _)%Z = true |- _ => apply Z.ltb_lt in H
  | H : (_ <? _)%Z = false |- _ => apply Z.ltb_ge in H
  | H : (_ =? _)%Z = true |- _ => apply Z.eqb_eq in H
  | H : (_ =? _)%Z = false |- _ => apply Z.eqb_neq in H
  | H : bool_decide _ = true |- _ => apply bool_decide_eq_true in H
  | H : bool_decide _ = false |- _ => apply bool_decide_eq_false in H
  end.

(** Walk down a successful monadic computation, naming nothing. *)
Ltac inv_ok :=
  repeat match goal with
  | H : mbind _ _ = Ok _ |- _ => apply bind_Ok in H as (? & ? & ?)
  | H : fmap _ _ = Ok _ |- _ => apply fmap_Ok in H as (? & ? & ?)
  | H : ok_or _ _ = Ok _ |- _ => apply ok_or_Ok in H
  | H : ensure _ _ = Ok _ |- _ => apply ensure_Ok in H
  | H : Ok _ = Ok _ |- _ => injection H as H; subst
  | H : Err _ = Ok _ |- _ => discriminate H
  | H : mret _ = Ok _ |- _ => unfold mret, result_ret in H
  end.

(** ** Machine-width unsigned arithmetic on [Z] *)

Definition fits (w x : Z) : bool := (0 <=? x) && (x <? 2 ^ w).

Definition checked_add (w a b : Z) : option Z :=
  if a + b <? 2 ^ w then Some (a + b) else None.
Definition checked_sub (a b : Z) : option Z :=
  if b <=? a then Some (a - b) else None.
Definition checked_mul (w a b : Z) : option Z :=
  if a * b <? 2 ^ w then Some (a * b) else None.
Definition wrapping_add (w a b : Z) : Z := (a + b) mod 2 ^ w.
Definition saturating_sub (a b : Z) : Z := Z.max 0 (a - b).

Lemma fits_iff w x : fits w x = true ↔ 0 ≤ x < 2 ^ w.
Proof. unfold fits. rewrite andb_true_iff, Z.leb_le, Z.ltb_lt. done. Qed.

Lemma checked_add_Some w a b c :
  checked_add w a b = Some c ↔ c = a + b ∧ a + b < 2 ^ w.
Proof.
  unfold checked_add. destruct (Z.ltb_spec (a + b) (2 ^ w)); split; intros; 
    simplify_eq; try lia; destruct_and?; by subst.
Qed.

Lemma checked_mul_Some w a b c :
  checked_mul w a b = Some c ↔ c = a * b ∧ a * b < 2 ^ w.
Proof.
  unfold checked_mul. destruct (Z.ltb_spec (a * b) (2 ^ w)); split; intros; 
    simplify_eq; try lia; destruct_and?; by subst.
Qed.

Lemma checked_sub_Some a b c : checked_sub a b = Some c ↔ c = a - b ∧ b ≤ a.
Proof.
  unfold checked_sub. destruct (Z.leb_spec b a); split; intros; 
    simplify_eq; try lia; destruct_and?; by subst.
Qed.

Lemma wrapping_add_range w a b : 0 ≤ w → 0 ≤ wrapping_add w a b < 2 ^ w.
Proof. intros. apply Z.mod_pos_bound. lia. Qed.

(** ** Bytes and big-endian integers *)

Abbreviation byte := Byte.byte.

#[export] Instance byte_eq_dec : EqDecision byte.
Proof. intros x y. apply Byte.byte_eq_dec. Defined.

Definition u8 (b : byte) : Z := Z.of_N (Byte.to_N b).
Definition to_u8 (z : Z) : byte :=
  default Byte.x00 (Byte.of_N (Z.to_N (z mod 256))).

(** [from_be_bytes] and [to_be_bytes]. *)
Definition be_value (bs : list byte) : Z :=
  foldl (λ acc b, acc * 256 + u8 b) 0 bs.
Fixpoint be_bytes (n : nat) (z : Z) : list byte :=
  match n with
  | O => []
  | S n => be_bytes n (z / 256) ++ [to_u8 z]
  end.

Lemma u8_range b : 0 ≤ u8 b < 256.
Proof.
  unfold u8. pose proof (Byte.to_N_bounded b). lia.
Qed.

Lemma u8_to_u8 z : u8 (to_u8 z) = z mod 256.
Proof.
  unfold u8, to_u8. pose proof (Z.mod_pos_bound z 256 eq_refl).
  destruct (Byte.of_N (Z.to_N (z mod 256))) eqn:Hb; cbn.
  - apply Byte.to_of_N in Hb. rewrite Hb. lia.
  - apply Byte.of_N_None_iff in Hb. lia.
Qed.

Lemma u8_inj a b : u8 a = u8 b → a = b.
Proof.
  unfold u8. intros H%N2Z.inj. 
  pose proof (Byte.of_to_N a). pose proof (Byte.of_to_N b). congruence.
Qed.

Lemma to_u8_u8 b : to_u8 (u8 b) = b.
Proof.
  apply u8_inj. rewrite u8_to_u8. apply Z.mod_small, u8_range.
Qed.

Lemma be_value_snoc bs b : be_value (bs ++ [b]) = be_value bs * 256 + u8 b.
Proof. unfold be_value. by rewrite foldl_app. Qed.

Lemma length_be_bytes n z : length (be_bytes n z) = n.
Proof.
  revert z. induction n as [|n IH]; intros z; cbn; [done|].
  rewrite length_app, IH. cbn. lia.
Qed.

Lemma be_value_cons b bs :
  be_value (b :: bs) = u8 b * 256 ^ Z.of_nat (length bs) + be_value bs.
Proof.
  induction bs as [|c bs IH] using rev_ind; [unfold be_value; cbn; lia|].
  change (b :: bs ++ [c]) with ((b :: bs) ++ [c]).
  rewrite !be_value_snoc, IH, length_app, Nat.add_comm. cbn [length Nat.add].
  rewrite Nat2Z.inj_succ, Z.pow_succ_r by lia. lia.
Qed.

Lemma be_value_bytes n z :
  0 ≤ z < 256 ^ Z.of_nat n → be_value (be_bytes n z) = z.
Proof.
  revert z. induction n as [|n IH]; intros z Hz.
  - change (256 ^ Z.of_nat 0) with 1 in Hz. cbn. lia.
  - cbn [be_bytes]. rewrite be_value_snoc, u8_to_u8, IH.
    + pose proof (Z.div_mod z 256). lia.
    + rewrite Nat2Z.inj_succ, Z.pow_succ_r in Hz by lia.
      split; [apply Z.div_pos; lia | apply Z.div_lt_upper_bound; lia].
Qed.

Lemma be_value_range bs : 0 ≤ be_value bs < 256 ^ Z.of_nat (length bs).
Proof.
  induction bs as [|b bs IH] using rev_ind; [done|].
  rewrite be_value_snoc, length_app, Nat.add_comm. cbn [length Nat.add].
  rewrite Nat2Z.inj_succ, Z.pow_succ_r by lia.
  pose proof (u8_range b). lia.
Qed.

Lemma be_bytes_value bs : be_bytes (length bs) (be_value bs) = bs.
Proof.
  induction bs as [|b bs IH] using rev_ind; [done|].
  rewrite length_app, Nat.add_comm. cbn [length Nat.add be_bytes].
  rewrite be_value_snoc. pose proof (u8_range b). f_equal.
  - rewrite Z.div_add_l, Z.div_small, Z.add_0_r by lia. done.
  - f_equal. apply u8_inj. rewrite u8_to_u8.
    rewrite Z.add_comm, Z.mod_add by lia. by apply Z.mod_small.
Qed.

#[global] Arguments be_bytes : simpl never.
#[global] Arguments be_value : simpl never.
#[global] Arguments u8 : simpl never.
#[global] Arguments to_u8 : simpl never.

Create HintDb genkan.
#[export] Hint Resolve fails_with_Ok fails_with_ok_or fails_with_ensure fails_with_bind : genkan.
#[export] Hint Resolve u8_range be_value_range wrapping_add_range : genkan.
#[export] Hint Rewrite length_be_bytes @length_app @length_take @length_drop : genkan.

(** A byte string literal [b"..."]. *)
Definition bytes_of (s : string) : list byte := String.list_byte_of_string s.

(** ** Lists *)

(** [&bytes[a..b]] for indices already known to be in range. *)
Definition slice {A} (a b : nat) (l : list A) : list A := take (b - a) (drop a l).

Lemma length_slice {A} a b (l : list A) :
  (b ≤ length l)%nat → length (slice a b l) = (b - a)%nat.
Proof. intros. unfold slice. rewrite length_take, length_drop. lia. Qed.

Lemma take_app_length' {A} n (l k : list A) : n = length l → take n (l ++ k) = l.
Proof. intros ->. by rewrite take_app_length. Qed.

Lemma drop_app_length' {A} n (l k : list A) : n = length l → drop n (l ++ k) = k.
Proof. intros ->. by rewrite drop_app_length. Qed.

Lemma cons_eq {A} (x y : A) l k : x = y → l = k → x :: l = y :: k.
Proof. by intros -> ->. Qed.

Lemma foldl_min_le (l : list Z) (x : Z) : foldl Z.min x l ≤ x ∧ Forall (λ y, foldl Z.min x l ≤ y) l.
Proof.
  revert x. induction l as [|y l IH]; intros x; cbn; [done|].
  destruct (IH (Z.min x y)) as [H1 H2]. split; [lia|]. constructor; [lia|done].
Qed.

Lemma filter_nil_iff {A} (p : A → bool) l : List.filter p l = [] ↔ Forall (λ x, p x = false) l.
Proof.
  induction l as [|x l IH]; cbn; [done|]. rewrite Forall_cons, <- IH. destruct (p x); naive_solver.
Qed.

Lemma filter_singleton {A} (p : A → bool) l a : List.filter p l = [a] ↔
  ∃ pre post, l = pre ++ a :: post ∧ p a = true ∧ Forall (λ x, p x = false) (pre ++ post).
Proof.
  split.
  - induction l as [|x l IH]; cbn; [done|]. destruct (p x) eqn:E.
    + intros [= -> Hl%filter_nil_iff]. by exists [], l.
    + intros (pre & post & -> & ? & ?)%IH. exists (x :: pre), post. cbn. auto.
  - intros (pre & post & -> & Ha & [Hpre Hpost]%Forall_app).
    rewrite List.filter_app. cbn. rewrite Ha.
    by rewrite (proj2 (filter_nil_iff _ _) Hpre), (proj2 (filter_nil_iff _ _) Hpost).
Qed.
