(* ===== verification/Utf8.v ===== *)
(** * Rust strings: characters, UTF-8 and the [str] helpers the code uses

    A [char] is a Unicode scalar value, a [String] the list of its
    characters; [str::len] is the length of the UTF-8 encoding.  The encoder
    and the decoder below are those of the Rust standard library
    ([char::encode_utf8], [String::from_utf8]); the rest of the file models
    the handful of [str] methods the sources call. *)

From S2P Require Export Prelude.

Abbreviation char := Z (only parsing).
Abbreviation rstring := (list Z) (only parsing).

(** A string literal. *)
Definition str (s : string) : list Z := u8 <$> bytes_of s.

Definition is_scalar (c : char) : bool :=
  ((0 <=? c) && (c <? 55296)) || ((57344 <=? c) && (c <? 1114112)).
Abbreviation wf_string s := (Forall (λ c, is_scalar c = true) s).

(** [char::len_utf8]. *)
Definition len_utf8 (c : char) : Z :=
  if c <? 128 then 1 else if c <? 2048 then 2 else if c <? 65536 then 3 else 4.

(** [str::len]. *)
Definition str_len (s : rstring) : Z := foldr (λ c n, len_utf8 c + n) 0 s.

(** [char::encode_utf8]. *)
Definition encode_char (c : char) : list byte :=
  if c <? 128 then [to_u8 c]
  else if c <? 2048 then [to_u8 (192 + c / 64); to_u8 (128 + c mod 64)]
  else if c <? 65536 then
    [to_u8 (224 + c / 4096); to_u8 (128 + c / 64 mod 64); to_u8 (128 + c mod 64)]
  else
    [to_u8 (240 + c / 262144); to_u8 (128 + c / 4096 mod 64);
     to_u8 (128 + c / 64 mod 64); to_u8 (128 + c mod 64)].

(** [str::as_bytes]. *)
Definition encode (s : rstring) : list byte := s ≫= encode_char.

Definition is_cont (b : byte) : bool := (128 <=? u8 b) && (u8 b <? 192).
Definition low6 (b : byte) : Z := u8 b - 128.

(** [String::from_utf8]: shortest forms only, no surrogates, nothing past
    U+10FFFF. *)
Fixpoint decode (bs : list byte) : option rstring :=
  match bs with
  | [] => Some []
  | b0 :: r0 =>
    let x := u8 b0 in
    if x <? 128 then cons x <$> decode r0 else
    match r0 with
    | [] => None
    | b1 :: r1 =>
      if negb (is_cont b1) then None else
      if (194 <=? x) && (x <? 224) then
        cons ((x - 192) * 64 + low6 b1) <$> decode r1 else
      match r1 with
      | [] => None
      | b2 :: r2 =>
        if negb (is_cont b2) then None else
        if (224 <=? x) && (x <? 240) then
          let c := (x - 224) * 4096 + low6 b1 * 64 + low6 b2 in
          if (2048 <=? c) && is_scalar c then cons c <$> decode r2 else None
        else
        match r2 with
        | [] => None
        | b3 :: r3 =>
          if negb (is_cont b3) then None else
          if (240 <=? x) && (x <? 245) then
            let c := (x - 240) * 262144 + low6 b1 * 4096 + low6 b2 * 64 + low6 b3 in
            if (65536 <=? c) && is_scalar c then cons c <$> decode r3 else None
          else None
        end
      end
    end
  end.

(** [char::is_whitespace]: the Unicode property [White_Space]. *)
Definition is_whitespace (c : char) : bool :=
  ((9 <=? c) && (c <=? 13)) || (c =? 32) || (c =? 133) || (c =? 160) ||
  (c =? 5760) || ((8192 <=? c) && (c <=? 8202)) || (c =? 8232) ||
  (c =? 8233) || (c =? 8239) || (c =? 8287) || (c =? 12288).

Fixpoint drop_while {A} (p : A → bool) (l : list A) : list A :=
  match l with
  | [] => []
  | x :: r => if p x then drop_while p r else l
  end.
Definition trim_start_matches (p : char → bool) (s : rstring) : rstring := drop_while p s.
Definition trim_end_matches (p : char → bool) (s : rstring) : rstring :=
  reverse (drop_while p (reverse s)).
(** [str::trim]. *)
Definition trim (s : rstring) : rstring :=
  trim_end_matches is_whitespace (trim_start_matches is_whitespace s).

#[global] Arguments len_utf8 : simpl never.
#[global] Arguments encode_char : simpl never.
#[global] Arguments is_scalar : simpl never.
#[global] Arguments is_whitespace : simpl never.

(** ** The codec is a bijection between scalar strings and valid UTF-8 *)

Lemma len_utf8_range c : 1 ≤ len_utf8 c ≤ 4.
Proof. unfold len_utf8. repeat case_match; lia. Qed.

Lemma str_len_app s t : str_len (s ++ t) = str_len s + str_len t.
Proof. unfold str_len. induction s as [|c s IH]; simpl; lia. Qed.

Lemma str_len_cons c s : str_len (c :: s) = len_utf8 c + str_len s.
Proof. done. Qed.

Lemma str_len_bounds s :
  Z.of_nat (length s) ≤ str_len s ≤ 4 * Z.of_nat (length s).
Proof.
  induction s as [|c s IH]; [done|].
  rewrite str_len_cons. cbn [length]. pose proof (len_utf8_range c). lia.
Qed.

Lemma length_encode_char c : Z.of_nat (length (encode_char c)) = len_utf8 c.
Proof. unfold encode_char, len_utf8. repeat case_match; done. Qed.

Lemma length_encode s : Z.of_nat (length (encode s)) = str_len s.
Proof.
  induction s as [|c s IH]; [done|].
  change (encode (c :: s)) with (encode_char c ++ encode s).
  by rewrite length_app, Nat2Z.inj_add, length_encode_char, IH.
Qed.

Lemma encode_app s t : encode (s ++ t) = encode s ++ encode t.
Proof. unfold encode. apply bind_app. Qed.

Ltac kill_if :=
  repeat match goal with
  | |- context [if ?b then _ else _] =>
    let E := fresh "E" in destruct b eqn:E;
    try (exfalso; unfold is_cont, is_scalar, low6 in *; rewrite ?u8_to_u8 in *; lia)
  end.

Lemma decode_encode_char c r :
  is_scalar c = true → decode (encode_char c ++ r) = cons c <$> decode r.
Proof.
  intros Hc. unfold is_scalar in Hc.
  assert (0 ≤ c < 1114112) as Hr by lia.
  pose proof (Z.div_mod c 64). pose proof (Z.mod_pos_bound c 64).
  pose proof (Z.div_mod (c / 64) 64). pose proof (Z.mod_pos_bound (c / 64) 64).
  pose proof (Z.div_mod (c / 4096) 64). pose proof (Z.mod_pos_bound (c / 4096) 64).
  assert (c / 64 / 64 = c / 4096) by (rewrite Z.div_div by lia; done).
  assert (c / 4096 / 64 = c / 262144) by (rewrite Z.div_div by lia; done).
  assert (∀ k, 0 ≤ k < 256 → k mod 256 = k) as Hm by (intros; apply Z.mod_small; lia).
  unfold encode_char.
  destruct (Z.ltb_spec c 128); [|destruct (Z.ltb_spec c 2048);
    [|destruct (Z.ltb_spec c 65536)]]; cbn [app decode];
    unfold is_cont, low6; rewrite !u8_to_u8, !Hm by lia; kill_if;
    match goal with |- cons ?x <$> _ = _ => replace x with c by lia end; done.
Qed.

Lemma decode_encode s : wf_string s → decode (encode s) = Some s.
Proof.
  induction 1 as [|c s Hc _ IH]; [done|].
  change (encode (c :: s)) with (encode_char c ++ encode s).
  by rewrite decode_encode_char, IH.
Qed.

Lemma decode_app s r : wf_string s → decode (encode s ++ r) = app s <$> decode r.
Proof.
  induction 1 as [|c s Hc _ IH]; [cbn; by destruct (decode r)|].
  change (encode (c :: s)) with (encode_char c ++ encode s).
  rewrite <- app_assoc, decode_encode_char, IH by done. by destruct (decode r).
Qed.

(** Induction on the length, for functions that consume several bytes. *)
Lemma bytes_ind (P : list byte → Prop) :
  (∀ bs, (∀ bs', (length bs' < length bs)%nat → P bs') → P bs) → ∀ bs, P bs.
Proof.
  intros H bs. remember (length bs) as n eqn:Hn.
  revert bs Hn. induction n as [n IHn] using lt_wf_ind. intros bs ->.
  apply H. intros bs' Hlt. by apply (IHn (length bs')).
Qed.

Lemma to_u8_eq b x : x = u8 b → to_u8 x = b.
Proof. intros ->. apply to_u8_u8. Qed.

Lemma encode_char_1 b : u8 b < 128 → encode_char (u8 b) = [b].
Proof.
  intros. unfold encode_char. rewrite (proj2 (Z.ltb_lt _ 128)) by lia.
  by rewrite to_u8_u8.
Qed.

Lemma encode_char_2 b0 b1 :
  194 ≤ u8 b0 < 224 → is_cont b1 = true →
  encode_char ((u8 b0 - 192) * 64 + low6 b1) = [b0; b1].
Proof.
  unfold is_cont, low6, encode_char. intros ? ?. simp_bool.
  rewrite (proj2 (Z.ltb_ge _ 128)), (proj2 (Z.ltb_lt _ 2048)) by lia.
  rewrite Z.div_add_l, Z.div_small, (Z.add_comm (_ * 64)), Z.mod_add, Z.mod_small by lia.
  repeat (apply cons_eq; [apply to_u8_eq; lia|]). done.
Qed.

Lemma encode_char_3 b0 b1 b2 (c := (u8 b0 - 224) * 4096 + low6 b1 * 64 + low6 b2) :
  224 ≤ u8 b0 < 240 → is_cont b1 = true → is_cont b2 = true → 2048 ≤ c →
  encode_char c = [b0; b1; b2].
Proof.
  unfold is_cont, encode_char, low6 in *. intros ? ? ? Hc. simp_bool.
  assert (c = (u8 b0 - 224) * 4096 + (u8 b1 - 128) * 64 + (u8 b2 - 128)) as Hce by done.
  clearbody c.
  rewrite (proj2 (Z.ltb_ge _ 128)), (proj2 (Z.ltb_ge _ 2048)),
    (proj2 (Z.ltb_lt _ 65536)) by lia.
  assert (c / 64 = (u8 b0 - 224) * 64 + (u8 b1 - 128)) as ->
    by (symmetry; apply (Z.div_unique _ _ _ (u8 b2 - 128)); lia).
  assert (c / 4096 = u8 b0 - 224) as ->
    by (symmetry; apply (Z.div_unique _ _ _ ((u8 b1 - 128) * 64 + (u8 b2 - 128))); lia).
  assert (c mod 64 = u8 b2 - 128) as -> by (symmetry; apply (Z.mod_unique _ _ ((u8 b0 - 224) * 64 + (u8 b1 - 128))); lia).
  rewrite (Z.add_comm (_ * 64)), Z.mod_add, Z.mod_small by lia.
  repeat (apply cons_eq; [apply to_u8_eq; lia|]). done.
Qed.

Lemma encode_char_4 b0 b1 b2 b3
    (c := (u8 b0 - 240) * 262144 + low6 b1 * 4096 + low6 b2 * 64 + low6 b3) :
  240 ≤ u8 b0 < 245 → is_cont b1 = true → is_cont b2 = true → is_cont b3 = true →
  65536 ≤ c → encode_char c = [b0; b1; b2; b3].
Proof.
  unfold is_cont, encode_char, low6 in *. intros ? ? ? ? Hc. simp_bool.
  assert (c = (u8 b0 - 240) * 262144 + (u8 b1 - 128) * 4096 + (u8 b2 - 128) * 64
    + (u8 b3 - 128)) as Hce by done.
  clearbody c.
  rewrite (proj2 (Z.ltb_ge _ 128)), (proj2 (Z.ltb_ge _ 2048)),
    (proj2 (Z.ltb_ge _ 65536)) by lia.
  assert (c / 64 = ((u8 b0 - 240) * 64 + (u8 b1 - 128)) * 64 + (u8 b2 - 128)) as ->
    by (symmetry; apply (Z.div_unique _ _ _ (u8 b3 - 128)); lia).
  assert (c / 4096 = (u8 b0 - 240) * 64 + (u8 b1 - 128)) as ->
    by (symmetry; apply (Z.div_unique _ _ _ ((u8 b2 - 128) * 64 + (u8 b3 - 128))); lia).
  assert (c / 262144 = u8 b0 - 240) as ->
    by (symmetry; apply (Z.div_unique _ _ _ ((u8 b1 - 128) * 4096 + (u8 b2 - 128) * 64
      + (u8 b3 - 128))); lia).
  assert (c mod 64 = u8 b3 - 128) as -> by (symmetry; apply (Z.mod_unique _ _
    (((u8 b0 - 240) * 64 + (u8 b1 - 128)) * 64 + (u8 b2 - 128))); lia).
  rewrite !(Z.add_comm (_ * 64)), !Z.mod_add, !Z.mod_small by lia.
  repeat (apply cons_eq; [apply to_u8_eq; lia|]). done.
Qed.

(** A decoded string re-encodes to the very bytes it came from, and holds
    scalar values only. *)
Lemma decode_sound bs s : decode bs = Some s → encode s = bs ∧ wf_string s.
Proof.
  revert s. induction bs as [bs IH] using bytes_ind. intros s H.
  destruct bs as [|b0 r0]; [by simplify_eq/=|].
  pose proof (u8_range b0) as H0.
  assert (Hstep : ∀ c r pre, (length r < length (b0 :: r0))%nat →
    cons c <$> decode r = Some s → is_scalar c = true →
    encode_char c = pre → b0 :: r0 = pre ++ r →
    encode s = b0 :: r0 ∧ wf_string s).
  { intros c r pre Hl Hd Hs <- ->. destruct (decode r) as [s'|] eqn:Hr; simplify_eq/=.
    destruct (IH r Hl s' Hr) as [<- ?]. split; [done|by constructor]. }
  clear IH. cbn [decode] in H.
  destruct (Z.ltb_spec (u8 b0) 128).
  { eapply (Hstep _ r0); [cbn; lia| exact H | unfold is_scalar; lia | by apply encode_char_1 | done]. }
  destruct r0 as [|b1 r1]; [done|].
  destruct (is_cont b1) eqn:Hb1; [|done]. cbn [negb] in H.
  destruct (_ && _) eqn:E2 in H; simp_bool.
  { eapply (Hstep _ r1); [cbn; lia| exact H | | by apply encode_char_2 | done].
    unfold is_cont, is_scalar, low6 in *; lia. }
  destruct r1 as [|b2 r2]; [done|].
  destruct (is_cont b2) eqn:Hb2; [|done]. cbn [negb] in H.
  destruct ((224 <=? u8 b0) && _) eqn:E3 in H; simp_bool.
  { destruct (_ && _) eqn:E in H; [simp_bool|done].
    eapply (Hstep _ r2); [cbn; lia| exact H | done | by apply encode_char_3 | done]. }
  destruct r2 as [|b3 r3]; [done|].
  destruct (is_cont b3) eqn:Hb3; [|done]. cbn [negb] in H.
  destruct ((240 <=? u8 b0) && _) eqn:E4 in H; [|done].
  destruct ((65536 <=? _) && _) eqn:E in H; [simp_bool|done].
  eapply (Hstep _ r3); [cbn; lia| exact H | done | by apply encode_char_4 | done].
Qed.

#[export] Hint Resolve len_utf8_range str_len_bounds decode_encode : genkan.
#[export] Hint Rewrite str_len_app length_encode encode_app : genkan.

(** ** Trimming *)

Lemma drop_while_suffix {A} (p : A → bool) l : drop_while p l `suffix_of` l.
Proof.
  induction l as [|x l IH]; cbn; [done|].
  destruct (p x); [by apply suffix_cons_r | done].
Qed.

Lemma drop_while_head {A} (p : A → bool) l x r :
  drop_while p l = x :: r → p x = false.
Proof. induction l as [|y l IH]; cbn; [done|]. destruct (p y) eqn:?; naive_solver. Qed.
