(* ===== verification/Text.v ===== *)
(** * Numbers and words in text

    The parsing and printing of integers of the Rust standard library
    ([str::parse], the [{}] and [{:x}] formats) and the functions that cut a
    [str] into pieces. *)

From S2P Require Import Prelude Utf8.

(** ** Printing *)

(** The digit of a value below 16: [0-9a-f]. *)
Definition digit_char (d : Z) : char := if d <? 10 then 48 + d else 87 + d.

Fixpoint show_fuel (fuel : nat) (radix n : Z) (acc : rstring) : rstring :=
  match fuel with
  | O => acc
  | S fuel =>
    let acc := digit_char (n mod radix) :: acc in
    if n <? radix then acc else show_fuel fuel radix (n / radix) acc
  end.

(** Every turn divides by the radix, at least two. *)
Definition show_radix (radix n : Z) : rstring :=
  show_fuel (S (Z.to_nat (Z.log2 n))) radix n [].

(** [{}] and [{:x}] of an unsigned integer. *)
Definition show_dec (n : Z) : rstring := show_radix 10 n.
Definition show_hex (n : Z) : rstring := show_radix 16 n.

(** ** Parsing *)

(** [char::to_digit]. *)
Definition to_digit (radix : Z) (c : char) : option Z :=
  let d :=
    if (48 <=? c) && (c <=? 57) then c - 48
    else if (97 <=? c) && (c <=? 122) then c - 87
    else if (65 <=? c) && (c <=? 90) then c - 55
    else radix in
  if d <? radix then Some d else None.

Fixpoint digits_value (radix acc : Z) (s : rstring) : option Z :=
  match s with
  | [] => Some acc
  | c :: s => d ← to_digit radix c; digits_value radix (acc * radix + d) s
  end.

(** The sign that [from_str_radix] accepts, alone or not. *)
Definition PLUS : char := 43.
Definition MINUS : char := 45.

Definition digits (s : rstring) : option Z :=
  match s with [] => None | _ => digits_value 10 0 s end.

(** [str::parse] of a [w]-bit unsigned integer. *)
Definition parse_unsigned (w : Z) (s : rstring) : option Z :=
  n ← digits (match s with c :: r => if c =? PLUS then r else s | [] => s end);
  if n <? 2 ^ w then Some n else None.

(** [str::parse] of a [w]-bit signed integer. *)
Definition parse_signed (w : Z) (s : rstring) : option Z :=
  n ← match s with
      | c :: r =>
        if c =? MINUS then Z.opp <$> digits r
        else digits (if c =? PLUS then r else s)
      | [] => None
      end;
  if (- 2 ^ (w - 1) <=? n) && (n <? 2 ^ (w - 1)) then Some n else None.

(** ** Cutting a string *)

(** [str::split_whitespace]. *)
Fixpoint split_whitespace_from (word : rstring) (s : rstring) : list rstring :=
  let flush := if bool_decide (word = []) then [] else [word] in
  match s with
  | [] => flush
  | c :: s =>
    if is_whitespace c then flush ++ split_whitespace_from [] s
    else split_whitespace_from (word ++ [c]) s
  end.
Definition split_whitespace (s : rstring) : list rstring := split_whitespace_from [] s.

(** [str::strip_prefix] and [starts_with] for a string pattern. *)
Fixpoint strip_prefix {A} `{EqDecision A} (p s : list A) : option (list A) :=
  match p, s with
  | [], _ => Some s
  | a :: p, b :: s => if bool_decide (a = b) then strip_prefix p s else None
  | _ :: _, [] => None
  end.
Definition starts_with {A} `{EqDecision A} (p s : list A) : bool :=
  bool_decide (is_Some (strip_prefix p s)).

(** [str::split_once] for a string pattern: the first occurrence. *)
Fixpoint split_once_str {A} `{EqDecision A} (p s : list A) : option (list A * list A) :=
  match strip_prefix p s with
  | Some r => Some ([], r)
  | None =>
    match s with
    | [] => None
    | c :: s => '(a, b) ← split_once_str p s; Some (c :: a, b)
    end
  end.

(** [str::rsplit_once] for a string pattern: the last occurrence. *)
Fixpoint rsplit_once {A} `{EqDecision A} (p s : list A) : option (list A * list A) :=
  match s with
  | [] => None
  | c :: s' =>
    match rsplit_once p s' with
    | Some (a, b) => Some (c :: a, b)
    | None => ([],.) <$> strip_prefix p s
    end
  end.

(** [char::is_control]: the Unicode category [Cc]. *)
Definition is_control (c : char) : bool :=
  ((0 <=? c) && (c <=? 31)) || ((127 <=? c) && (c <=? 159)).

(** [str::eq_ignore_ascii_case]. *)
Definition to_ascii_lowercase (c : char) : char :=
  if (65 <=? c) && (c <=? 90) then c + 32 else c.
Definition eq_ignore_ascii_case (s t : rstring) : bool :=
  bool_decide (to_ascii_lowercase <$> s = to_ascii_lowercase <$> t).

(** ** What is printed parses back *)

Lemma to_digit_digit_char radix d :
  0 ≤ d < radix → radix ≤ 36 → (radix ≤ 10 ∨ 10 < radix) → to_digit radix (digit_char d) = Some d.
Proof.
  intros Hd Hr _. unfold digit_char, to_digit. destruct (Z.ltb_spec d 10).
  - replace ((48 <=? 48 + d) && (48 + d <=? 57)) with true by lia.
    replace (48 + d - 48) with d by lia. rewrite (proj2 (Z.ltb_lt d radix)) by lia. done.
  - replace ((48 <=? 87 + d) && (87 + d <=? 57)) with false by lia.
    replace ((97 <=? 87 + d) && (87 + d <=? 122)) with true by lia.
    replace (87 + d - 87) with d by lia. rewrite (proj2 (Z.ltb_lt d radix)) by lia. done.
Qed.

Lemma digits_value_app radix acc s t :
  digits_value radix acc (s ++ t) = digits_value radix acc s ≫= λ n, digits_value radix n t.
Proof.
  revert acc. induction s as [|c s IH]; intros acc; [done|]. cbn.
  destruct (to_digit radix c); cbn; [apply IH | done].
Qed.

Section Radix.
Context (radix : Z) (Hradix : 2 ≤ radix ≤ 36).

Lemma show_fuel_value fuel n acc :
  0 ≤ n < 2 ^ Z.of_nat fuel →
  digits_value radix 0 (show_fuel fuel radix n acc) = digits_value radix n acc.
Proof using Hradix.
  revert n acc. induction fuel as [|fuel IH]; intros n acc Hn.
  { change (2 ^ Z.of_nat 0) with 1 in Hn. assert (n = 0) as -> by lia. done. }
  rewrite Nat2Z.inj_succ, Z.pow_succ_r in Hn by lia.
  pose proof (Z.mod_pos_bound n radix). pose proof (Z.div_mod n radix).
  cbn [show_fuel]. destruct (Z.ltb_spec n radix).
  - cbn [digits_value]. rewrite to_digit_digit_char by lia. cbn.
    rewrite Z.mod_small by lia. f_equal.
  - rewrite IH.
    + cbn [digits_value]. rewrite to_digit_digit_char by lia. cbn. f_equal. lia.
    + split; [apply Z.div_pos; lia|]. apply Z.div_lt_upper_bound; [lia|]. nia.
Qed.

Lemma show_radix_value n : 0 ≤ n → digits_value radix 0 (show_radix radix n) = Some n.
Proof using Hradix.
  intros Hn. unfold show_radix. rewrite show_fuel_value; [done|].
  split; [done|]. destruct (decide (n = 0)) as [->|]; [done|].
  rewrite Nat2Z.inj_succ, Z2Nat.id by apply Z.log2_nonneg. apply Z.log2_spec. lia.
Qed.

Lemma show_radix_inj n m : 0 ≤ n → 0 ≤ m → show_radix radix n = show_radix radix m → n = m.
Proof using Hradix.
  intros Hn Hm E. pose proof (show_radix_value n Hn) as H. rewrite E, show_radix_value in H by done.
  congruence.
Qed.

Lemma show_fuel_Forall (P : char → Prop) fuel n acc :
  (∀ d, 0 ≤ d < radix → P (digit_char d)) → Forall P acc → Forall P (show_fuel fuel radix n acc).
Proof using Hradix.
  intros HP. revert n acc. induction fuel as [|fuel IH]; intros n acc Hacc; [done|]. cbn.
  assert (Forall P (digit_char (n mod radix) :: acc)).
  { constructor; [|done]. apply HP, Z.mod_pos_bound. lia. }
  destruct (n <? radix); [done | by apply IH].
Qed.

Lemma show_fuel_nonempty fuel n acc : acc ≠ [] → show_fuel fuel radix n acc ≠ [].
Proof using.
  revert n acc. induction fuel as [|fuel IH]; intros n acc Hacc; [done|]. cbn.
  destruct (n <? radix); [done | by apply IH].
Qed.

Lemma show_radix_nonempty n : show_radix radix n ≠ [].
Proof using.
  unfold show_radix. cbn. destruct (n <? radix); [done | by apply show_fuel_nonempty].
Qed.
End Radix.

(** The characters printed are digits: no sign, no space, no punctuation. *)
Definition is_digit16 (c : char) : Prop := (48 ≤ c ≤ 57) ∨ (97 ≤ c ≤ 102).

Lemma show_hex_digits n : Forall is_digit16 (show_hex n).
Proof.
  apply show_fuel_Forall; [lia| |done]. intros d Hd. unfold digit_char, is_digit16.
  destruct (Z.ltb_spec d 10); lia.
Qed.

Lemma show_dec_digits n : Forall (λ c, 48 ≤ c ≤ 57) (show_dec n).
Proof.
  apply show_fuel_Forall; [lia| |done]. intros d Hd. unfold digit_char.
  destruct (Z.ltb_spec d 10); lia.
Qed.

Lemma digits_show_dec n : 0 ≤ n → digits (show_dec n) = Some n.
Proof.
  intros Hn. unfold digits. pose proof (show_radix_nonempty 10 n) as Hne.
  unfold show_dec in *. rewrite <- (show_radix_value 10) by lia.
  by destruct (show_radix 10 n).
Qed.

Lemma parse_unsigned_show w n :
  0 ≤ n < 2 ^ w → parse_unsigned w (show_dec n) = Some n.
Proof.
  intros Hn. unfold parse_unsigned. pose proof (show_dec_digits n) as Hd.
  pose proof (digits_show_dec n) as Hs. destruct (show_dec n) as [|c r].
  - rewrite Hs by lia. cbn. rewrite (proj2 (Z.ltb_lt _ _)) by lia. done.
  - apply Forall_cons in Hd as [Hc _]. rewrite (proj2 (Z.eqb_neq c PLUS)) by (unfold PLUS; lia).
    rewrite Hs by lia. cbn. rewrite (proj2 (Z.ltb_lt _ _)) by lia. done.
Qed.

Lemma parse_unsigned_bound w s n : parse_unsigned w s = Some n → n < 2 ^ w.
Proof.
  unfold parse_unsigned. destruct (digits _) as [m|]; cbn; [|done].
  destruct (Z.ltb_spec m (2 ^ w)); [by intros [= <-] | done].
Qed.

Lemma to_digit_range radix c d : 2 ≤ radix → to_digit radix c = Some d → 0 ≤ d < radix.
Proof.
  unfold to_digit. intros Hr.
  destruct ((48 <=? c) && _) eqn:E1; [|destruct ((97 <=? c) && _) eqn:E2;
    [|destruct ((65 <=? c) && _) eqn:E3]]; simp_bool;
    match goal with |- context [if ?x then _ else _] => destruct x eqn:E end;
    simp_bool; intros [= <-]; lia.
Qed.

Lemma digits_value_nonneg radix acc s n :
  2 ≤ radix → 0 ≤ acc → digits_value radix acc s = Some n → 0 ≤ n.
Proof.
  intros Hr. revert acc. induction s as [|c s IH]; cbn; intros acc Ha; [by intros [= <-]|].
  destruct (to_digit radix c) as [d|] eqn:E; cbn; [|done].
  apply to_digit_range in E; [|done]. apply IH. nia.
Qed.

Lemma parse_unsigned_range w s n : parse_unsigned w s = Some n → 0 ≤ n < 2 ^ w.
Proof.
  intros H. split; [|by eapply parse_unsigned_bound]. unfold parse_unsigned, digits in H.
  match type of H with context [match ?l with [] => None | _ => _ end] => destruct l; [done|] end.
  cbn -[digits_value] in H.
  destruct (digits_value _ _ _) as [m|] eqn:Hm; cbn in H; [|done].
  apply digits_value_nonneg in Hm; [|lia..]. destruct (_ <? _); by simplify_eq.
Qed.

(** ** Cutting *)

Lemma strip_prefix_Some {A} `{EqDecision A} (p s r : list A) : strip_prefix p s = Some r ↔ s = p ++ r.
Proof.
  revert s. induction p as [|a p IH]; intros [|b s]; cbn; try naive_solver.
  case_bool_decide; naive_solver.
Qed.

Lemma starts_with_iff {A} `{EqDecision A} (p s : list A) : starts_with p s = true ↔ p `prefix_of` s.
Proof.
  unfold starts_with. rewrite bool_decide_eq_true. unfold is_Some, prefix.
  by setoid_rewrite strip_prefix_Some.
Qed.

Lemma rsplit_once_app {A} `{EqDecision A} (p s r : list A) :
  p ≠ [] → rsplit_once p r = None → rsplit_once p (p ++ r) = Some ([], r) →
  rsplit_once p (s ++ p ++ r) = Some (s, r).
Proof.
  intros Hp Hr Hpr. induction s as [|c s IH]; [done|]. cbn. by rewrite IH.
Qed.

Lemma split_whitespace_word w s rest :
  Forall (λ c, is_whitespace c = false) s →
  split_whitespace_from w (s ++ rest) = split_whitespace_from (w ++ s) rest.
Proof.
  revert w. induction s as [|c s IH]; intros w; [by rewrite app_nil_r|].
  intros [Hc Hs]%Forall_cons. cbn. rewrite Hc, IH by done. by rewrite <- app_assoc.
Qed.

Lemma split_whitespace_cons w c rest :
  w ≠ [] → Forall (λ c, is_whitespace c = false) w → is_whitespace c = true →
  split_whitespace (w ++ c :: rest) = w :: split_whitespace rest.
Proof.
  intros Hw Hf Hc. unfold split_whitespace. rewrite split_whitespace_word by done.
  cbn. rewrite Hc, bool_decide_false by done. done.
Qed.

Lemma split_whitespace_last w :
  w ≠ [] → Forall (λ c, is_whitespace c = false) w → split_whitespace w = [w].
Proof.
  intros Hw Hf. unfold split_whitespace.
  rewrite <- (app_nil_r w) at 1. rewrite split_whitespace_word by done. cbn.
  by rewrite bool_decide_false.
Qed.

Lemma app_sep_inj {A} (x : A) (a a' b b' : list A) :
  x ∉ a → x ∉ a' → a ++ x :: b = a' ++ x :: b' → a = a' ∧ b = b'.
Proof.
  revert a'. induction a as [|y a IH]; intros [|y' a'] Ha Ha' E; cbn in E.
  - by injection E as <-.
  - injection E as <- _. set_solver.
  - injection E as -> _. set_solver.
  - injection E as -> E. destruct (IH a') as [-> ->]; set_solver.
Qed.

#[export] Hint Resolve show_hex_digits show_dec_digits : genkan.
