(* ===== verification/Conversation.v ===== *)
(** * The authentication conversation ([src/conversation.rs])

    The state shared by the greeter and the locker while a user answers
    prompts.  The response buffer is modelled with its capacity and with the
    number of times [String] had to move its contents to a larger allocation,
    because the code sizes it so that a typed secret is never left behind in
    freed memory. *)

From S2P Require Import Prelude Utf8.

Definition MAX_TEXT_CHARS : nat := 512.
Definition MAX_INPUT_BYTES : Z := 512 * 4.

(** ** The response buffer *)

(** [moves] counts the reallocations that copied a non-empty buffer. *)
Record buffer := Buffer { text : rstring; capacity : Z; moves : nat }.

(** [response_buffer()]: [String::with_capacity(MAX_INPUT_BYTES)]. *)
Definition response_buffer : buffer := Buffer [] MAX_INPUT_BYTES 0.

(** [String::push]: amortised growth doubles the capacity when it is full. *)
Definition push (b : buffer) (c : char) : buffer :=
  let need := str_len (text b) + len_utf8 c in
  if need <=? capacity b then Buffer (text b ++ [c]) (capacity b) (moves b)
  else Buffer (text b ++ [c]) (Z.max (2 * capacity b) need)
         (match text b with [] => moves b | _ => S (moves b) end).

(** The loop of [append_bounded]; [characters] is its local counter. *)
Fixpoint append_bounded_loop (characters : nat) (target : buffer) (value : rstring) : buffer :=
  match value with
  | [] => target
  | c :: rest =>
    if Nat.eqb characters MAX_TEXT_CHARS
       || (MAX_INPUT_BYTES <? str_len (text target) + len_utf8 c)
    then target
    else append_bounded_loop (S characters) (push target c) rest
  end.

Definition append_bounded (target : buffer) (value : rstring) : buffer :=
  append_bounded_loop (length (text target)) target value.

(** ** Display texts *)

Definition ellipsis : char := 8230.

(** [bounded_text]: [take] the first [MAX_TEXT_CHARS] characters; when more
    remain, replace the last of them by an ellipsis. *)
Definition bounded_text (value : rstring) : rstring :=
  let bounded := take MAX_TEXT_CHARS value in
  match drop MAX_TEXT_CHARS value with
  | [] => bounded
  | _ => take (length bounded - 1) bounded ++ [ellipsis]
  end.

Definition clean_prompt (prompt : rstring) : rstring :=
  let prompt := trim (trim_end_matches (Z.eqb 58) (trim prompt)) in
  bounded_text (match prompt with [] => str "Password" | _ => prompt end).

(** ** The state *)

Inductive Status := Waiting | Submitting | Succeeded | Failed.
#[export] Instance Status_eq_dec : EqDecision Status.
Proof. solve_decision. Defined.

Inductive Response :=
| Prompt (secret : bool) (message : rstring)
| Notice (error : bool) (message : rstring)
| Success
| Failure (message : rstring).

Inductive Effect := EPrompt | ENotice | EAuthenticated | EFailed.
#[export] Instance Effect_eq_dec : EqDecision Effect.
Proof. solve_decision. Defined.

Record Conversation := mkConversation {
  input : buffer;
  prompt : rstring;
  message : option rstring;
  message_is_error : bool;
  secret : bool;
  status : Status;
  attempt : Z;
}.

(** [Attempt::next]: [u64::wrapping_add]. *)
Definition next_attempt (a : Z) : Z := wrapping_add 64 a 1.

Definition new : Conversation :=
  mkConversation response_buffer (str "Password") None false true Submitting 1.

(** [String::zeroize] empties the buffer in place; [clear_response] then
    tops the capacity up, on an empty buffer. *)
Definition clear_response (c : Conversation) : Conversation :=
  let cap := capacity (input c) in
  mkConversation
    (Buffer [] (if cap <? MAX_INPUT_BYTES then cap + (MAX_INPUT_BYTES - cap) else cap)
       (moves (input c)))
    (prompt c) (message c) (message_is_error c) (secret c) (status c) (attempt c).

Definition set_notice (msg : rstring) (error : bool) (c : Conversation) : Conversation :=
  mkConversation (input c) (prompt c) (Some (bounded_text msg)) error
    (secret c) (status c) (attempt c).

Definition clear_notice (c : Conversation) : Conversation :=
  mkConversation (input c) (prompt c) None false (secret c) (status c) (attempt c).

Definition set_input (b : buffer) (c : Conversation) : Conversation :=
  mkConversation b (prompt c) (message c) (message_is_error c) (secret c) (status c) (attempt c).
Definition set_prompt (p : rstring) (s : bool) (c : Conversation) : Conversation :=
  mkConversation (input c) p (message c) (message_is_error c) s (status c) (attempt c).
Definition set_status (st : Status) (c : Conversation) : Conversation :=
  mkConversation (input c) (prompt c) (message c) (message_is_error c) (secret c) st (attempt c).
Definition set_attempt (a : Z) (c : Conversation) : Conversation :=
  mkConversation (input c) (prompt c) (message c) (message_is_error c) (secret c) (status c) a.

Definition accepts (c : Conversation) (a : Z) : bool := a =? attempt c.

Definition begin_attempt (c : Conversation) : Conversation * Z :=
  let c := set_attempt (next_attempt (attempt c)) c in
  let c := set_status Submitting (clear_notice (clear_response c)) in
  (c, attempt c).

Definition invalidate_attempt (c : Conversation) : Conversation :=
  clear_response (set_attempt (next_attempt (attempt c)) c).

Definition for_preview (inp pr : rstring) (msg : option rstring)
    (msg_err sec : bool) (st : Status) : Conversation :=
  mkConversation (append_bounded response_buffer inp) (clean_prompt pr)
    (bounded_text <$> msg) msg_err sec st 1.

Definition update_input (value : rstring) (c : Conversation) : Conversation * bool :=
  if negb (bool_decide (status c = Waiting)) then (c, false)
  else
    let c := clear_response c in
    (set_input (append_bounded (input c) value) c, true).

Definition push_input (value : rstring) (c : Conversation) : Conversation * bool :=
  if negb (bool_decide (status c = Waiting)) then (c, false)
  else
    let previous := str_len (text (input c)) in
    let c := set_input (append_bounded (input c) value) c in
    (c, negb (str_len (text (input c)) =? previous)).

(** [truncate] after the last character's bytes were zeroized. *)
Definition pop_input (c : Conversation) : Conversation * bool :=
  if negb (bool_decide (status c = Waiting)) then (c, false)
  else
    let b := input c in
    match text b with
    | [] => (c, false)
    | t => (set_input (Buffer (take (length t - 1) t) (capacity b) (moves b)) c, true)
    end.

Definition submit (c : Conversation) : Conversation * option (Z * rstring) :=
  if negb (bool_decide (status c = Waiting)) then (c, None)
  else
    let c := set_status Submitting c in
    let response := text (input c) in
    (set_input (Buffer [] MAX_INPUT_BYTES (moves (input c))) c,
     Some (attempt c, response)).

Definition receive (a : Z) (response : Response) (c : Conversation) :
    Conversation * option Effect :=
  if negb (accepts c a) then (c, None)
  else
    match response with
    | Prompt sec msg =>
      (set_status Waiting (set_prompt (clean_prompt msg) sec (clear_response c)),
       Some EPrompt)
    | Notice err msg => (set_notice msg err c, Some ENotice)
    | Success =>
      (set_status Succeeded (clear_notice (clear_response c)), Some EAuthenticated)
    | Failure msg =>
      (set_status Failed
         (set_notice msg true (set_prompt (str "Password") true (clear_response c))),
       Some EFailed)
    end.

Definition fail (msg : rstring) (c : Conversation) : Conversation :=
  fst (receive (attempt c) (Failure msg) c).

(** ** Every way the two frontends drive a conversation *)

Inductive op :=
| OBegin | OInvalidate | OUpdate (s : rstring) | OPush (s : rstring) | OPop | OSubmit
| OReceive (a : Z) (r : Response) | OFail (s : rstring)
| ONotice (s : rstring) (error : bool) | OClearNotice | OClearResponse.

Definition apply_op (o : op) (c : Conversation) : Conversation :=
  match o with
  | OBegin => fst (begin_attempt c)
  | OInvalidate => invalidate_attempt c
  | OUpdate s => fst (update_input s c)
  | OPush s => fst (push_input s c)
  | OPop => fst (pop_input c)
  | OSubmit => fst (submit c)
  | OReceive a r => fst (receive a r c)
  | OFail s => fail s c
  | ONotice s e => set_notice s e c
  | OClearNotice => clear_notice c
  | OClearResponse => clear_response c
  end.

Inductive reachable : Conversation → Prop :=
| reach_new : reachable new
| reach_op c o : reachable c → reachable (apply_op o c).

(** The well-formedness invariant: bounded texts, a response buffer that holds
    at most [MAX_TEXT_CHARS] characters in a full-size allocation that was
    never moved, a [u64] attempt. *)
Record wf (c : Conversation) : Prop := mkWf {
  wf_chars : (length (text (input c)) ≤ MAX_TEXT_CHARS)%nat;
  wf_capacity : MAX_INPUT_BYTES ≤ capacity (input c);
  wf_moves : moves (input c) = 0%nat;
  wf_prompt : (length (prompt c) ≤ MAX_TEXT_CHARS)%nat;
  wf_message : from_option (λ m, (length m ≤ MAX_TEXT_CHARS)%nat) True (message c);
  wf_attempt : 0 ≤ attempt c < 2 ^ 64;
}.

(** Nothing typed outlives the prompt it answers. *)
Definition idle_empty (c : Conversation) : Prop :=
  status c ≠ Waiting → text (input c) = [].

(** ** Lemmas *)

Section Bounded.

Lemma length_bounded_text v : (length (bounded_text v) ≤ MAX_TEXT_CHARS)%nat.
Proof.
  unfold bounded_text. destruct (drop _ v) eqn:E.
  - rewrite length_take. lia.
  - rewrite length_app, !length_take. cbn [length]. unfold MAX_TEXT_CHARS. lia.
Qed.

Lemma push_fits b c :
  str_len (text b) + len_utf8 c ≤ capacity b →
  push b c = Buffer (text b ++ [c]) (capacity b) (moves b).
Proof. intros. unfold push. by rewrite (proj2 (Z.leb_le _ _)). Qed.

(** The byte bound never binds: [MAX_TEXT_CHARS] characters always fit. *)
Lemma append_bounded_loop_spec value : ∀ t cap mv,
  (length t ≤ MAX_TEXT_CHARS)%nat → MAX_INPUT_BYTES ≤ cap →
  append_bounded_loop (length t) (Buffer t cap mv) value
  = Buffer (t ++ take (MAX_TEXT_CHARS - length t) value) cap mv.
Proof.
  induction value as [|c value IH]; intros t cap mv Ht Hcap; cbn [append_bounded_loop].
  { by rewrite take_nil, app_nil_r. }
  pose proof (str_len_bounds t). pose proof (len_utf8_range c).
  unfold MAX_TEXT_CHARS, MAX_INPUT_BYTES in *.
  destruct (Nat.eqb_spec (length t) 512) as [E|E]; cbn [orb].
  { rewrite E. cbn. by rewrite app_nil_r. }
  rewrite (proj2 (Z.ltb_ge _ _)) by (cbn [text]; lia).
  rewrite push_fits by (cbn [text capacity]; lia). cbn [text capacity moves].
  replace (S (length t)) with (length (t ++ [c])) by (rewrite length_app; cbn; lia).
  rewrite IH by (rewrite ?length_app; cbn; lia).
  rewrite <- app_assoc, length_app. cbn [length app].
  replace (512 - length t)%nat with (S (512 - (length t + 1))) by lia. done.
Qed.

Lemma append_bounded_wf_spec b value :
  (length (text b) ≤ MAX_TEXT_CHARS)%nat → MAX_INPUT_BYTES ≤ capacity b →
  append_bounded b value =
  Buffer (text b ++ take (MAX_TEXT_CHARS - length (text b)) value) (capacity b) (moves b).
Proof. destruct b. apply append_bounded_loop_spec. Qed.

End Bounded.

#[export] Hint Resolve length_bounded_text : genkan.

Lemma length_clean_prompt v : (length (clean_prompt v) ≤ MAX_TEXT_CHARS)%nat.
Proof. apply length_bounded_text. Qed.
#[export] Hint Resolve length_clean_prompt : genkan.

(** Solves the fields of [wf] that an operation leaves or resets. *)
Ltac wf_fields :=
  constructor; cbn [input prompt message attempt text capacity moves from_option
    set_input set_prompt set_status set_attempt set_notice clear_notice clear_response];
  eauto with genkan; try lia.

Lemma wf_new : wf new.
Proof. constructor; unfold MAX_TEXT_CHARS; cbn; lia. Qed.

Lemma wf_clear_response c : wf c → wf (clear_response c).
Proof.
  intros []. wf_fields; cbn; [unfold MAX_TEXT_CHARS; lia|].
  destruct (Z.ltb_spec (capacity (input c)) MAX_INPUT_BYTES); lia.
Qed.
Lemma wf_set_notice m e c : wf c → wf (set_notice m e c).
Proof. intros []. wf_fields. Qed.
Lemma wf_clear_notice c : wf c → wf (clear_notice c).
Proof. intros []. wf_fields. Qed.
Lemma wf_set_status s c : wf c → wf (set_status s c).
Proof. intros []. wf_fields. Qed.
Lemma wf_set_prompt p s c : (length p ≤ MAX_TEXT_CHARS)%nat → wf c → wf (set_prompt p s c).
Proof. intros ? []. wf_fields. Qed.
Lemma wf_next_attempt c : wf c → wf (set_attempt (next_attempt (attempt c)) c).
Proof.
  intros []. wf_fields. apply wrapping_add_range. lia.
Qed.
Lemma wf_append v c : wf c → wf (set_input (append_bounded (input c) v) c).
Proof.
  intros []. rewrite append_bounded_wf_spec by done. wf_fields.
  rewrite length_app, length_take. lia.
Qed.
Lemma wf_pop t c :
  text (input c) = t → wf c →
  wf (set_input (Buffer (take (length t - 1) t) (capacity (input c)) (moves (input c))) c).
Proof. intros <- []. wf_fields. rewrite length_take. lia. Qed.
Lemma wf_taken c : wf c → wf (set_input (Buffer [] MAX_INPUT_BYTES (moves (input c))) c).
Proof. intros []. wf_fields. cbn. lia. Qed.

#[export] Hint Resolve wf_new wf_clear_response wf_set_notice wf_clear_notice wf_set_status
  wf_set_prompt wf_next_attempt wf_append wf_pop wf_taken : genkan.

Lemma length_password : (length (str "Password") ≤ MAX_TEXT_CHARS)%nat.
Proof. vm_compute. lia. Qed.
#[export] Hint Resolve length_password : genkan.

Lemma wf_receive a r c : wf c → wf (fst (receive a r c)).
Proof.
  intros H. unfold receive. destruct (accepts c a); cbn [negb]; [|done].
  destruct r; cbn [fst]; auto 7 with genkan.
Qed.

Lemma wf_apply_op o c : wf c → wf (apply_op o c).
Proof.
  intros H. destruct o; cbn [apply_op]; try apply wf_receive; auto with genkan.
  - unfold begin_attempt. cbn [fst]. auto with genkan.
  - unfold invalidate_attempt. auto with genkan.
  - unfold update_input. case_match; cbn [fst]; auto with genkan.
  - unfold push_input. case_match; cbn [fst]; auto with genkan.
  - unfold pop_input. case_match; cbn [fst]; auto. 
    destruct (text (input c)) eqn:E; cbn [fst]; auto. rewrite <- E. auto with genkan.
  - unfold submit. case_match; cbn [fst]; auto with genkan.
Qed.

Lemma idle_empty_apply_op o c : idle_empty c → idle_empty (apply_op o c).
Proof.
  intros H. unfold idle_empty in *.
  destruct o; cbn [apply_op]; try done;
    unfold fail, update_input, push_input, pop_input, submit, receive;
    repeat case_match; simp_bool; cbn in *; try done; try (intros []; done).
  all: by destruct (text (input c)).
Qed.

(** ** Properties *)

(** The conversation's invariant: whatever the daemon and the user do,
    in any order, a reachable conversation has bounded texts, its response
    buffer never overflowed its allocation (so a secret is never copied to a
    new block and left in a freed one), and outside the [Waiting] status the
    buffer holds no response. *)
Theorem reachable_wf c : reachable c → wf c ∧ idle_empty c.
Proof.
  induction 1 as [|c o _ [IH1 IH2]].
  - split; [apply wf_new | by intros _].
  - split; [by apply wf_apply_op | by apply idle_empty_apply_op].
Qed.

Lemma reachable_wf_witness :
  let c := apply_op (OPush (str "hunter2")) (apply_op (OReceive 1 (Prompt true (str "Password: "))) new) in
  text (input c) = str "hunter2" ∧ prompt c = str "Password" ∧ wf c ∧ idle_empty c.
Proof.
  cbn zeta. split_and!; [vm_compute; reflexivity | vm_compute; reflexivity | |];
    apply reachable_wf; repeat constructor.
Defined.

(** Attempts: how many operations of a trace move to a new one. *)
Definition advances (o : op) : nat :=
  match o with OBegin | OInvalidate => 1 | _ => 0 end.
Fixpoint count_advances (os : list op) : nat :=
  match os with [] => 0 | o :: os => (advances o + count_advances os)%nat end.
Definition run_ops (os : list op) (c : Conversation) : Conversation :=
  foldl (λ c o, apply_op o c) c os.

Lemma attempt_apply_op o c : 0 ≤ attempt c < 2 ^ 64 →
  attempt (apply_op o c) = (attempt c + Z.of_nat (advances o)) mod 2 ^ 64.
Proof.
  intros H. destruct o; cbn [apply_op advances];
    unfold fail, update_input, push_input, pop_input, submit, receive;
    try (cbn; rewrite Z.add_0_r, Z.mod_small; done);
    try reflexivity.
  all: repeat case_match; cbn; rewrite Z.add_0_r, Z.mod_small; done.
Qed.

Lemma attempt_run_ops os c : 0 ≤ attempt c < 2 ^ 64 →
  attempt (run_ops os c) = (attempt c + Z.of_nat (count_advances os)) mod 2 ^ 64.
Proof.
  revert c. induction os as [|o os IH]; intros c H; cbn [run_ops foldl count_advances].
  { by rewrite Z.add_0_r, Z.mod_small. }
  fold (run_ops os (apply_op o c)).
  rewrite IH; rewrite attempt_apply_op by done.
  - rewrite Z.add_mod_idemp_l by lia. f_equal. lia.
  - apply Z.mod_pos_bound. lia.
Qed.

(** Stale answers are dropped: once the conversation has moved to a new
    attempt (by a retry or a cancellation, up to [2^64 - 1] of them, the wrap
    of the [u64] counter included), whatever arrives for the old attempt
    changes nothing and reports nothing. *)
Theorem stale_attempt_ignored c os r :
  wf c → (0 < Z.of_nat (count_advances os) < 2 ^ 64)%Z →
  receive (attempt c) r (run_ops os c) = (run_ops os c, None).
Proof.
  intros [] Hn. unfold receive, accepts. rewrite attempt_run_ops by done.
  set (n := Z.of_nat (count_advances os)) in *.
  destruct (Z.eqb_spec (attempt c) ((attempt c + n) mod 2 ^ 64)) as [E|]; [|done].
  exfalso. pose proof (Z.div_mod (attempt c + n) (2 ^ 64)).
  assert (0 ≤ (attempt c + n) / 2 ^ 64 ≤ 1) by
    (split; [apply Z.div_pos | apply Z.lt_succ_r, Z.div_lt_upper_bound]; lia).
  nia.
Qed.

Lemma stale_attempt_ignored_witness :
  receive 1 Success (run_ops [OPush (str "x"); OInvalidate; OBegin] new)
  = (run_ops [OPush (str "x"); OInvalidate; OBegin] new, None).
Proof. apply (stale_attempt_ignored new); [apply wf_new | cbn; lia]. Defined.

Lemma push_all_waiting vs : ∀ c, wf c → status c = Waiting →
  let c' := foldl (λ c v, fst (push_input v c)) c vs in
  wf c' ∧ status c' = Waiting ∧ attempt c' = attempt c ∧
  text (input c') = take MAX_TEXT_CHARS (text (input c) ++ mjoin vs).
Proof.
  induction vs as [|v vs IH]; intros c Hwf Hs; cbn zeta.
  - cbn [foldl mjoin list_join]. rewrite app_nil_r. destruct Hwf. 
    rewrite take_ge by done. split_and!; by try constructor.
  - cbn [foldl mjoin list_join].
    assert (fst (push_input v c) = set_input (append_bounded (input c) v) c) as ->.
    { unfold push_input. by rewrite bool_decide_eq_true_2. }
    destruct (IH (set_input (append_bounded (input c) v) c)) as (H1 & H2 & H3 & H4);
      [by apply wf_append | done |].
    split_and!; [done | done | done |]. rewrite H4.
    destruct Hwf. cbn [input set_input]. rewrite append_bounded_wf_spec by done.
    cbn [text]. set (t := text (input c)) in *.
    rewrite !take_app, take_take, Nat.min_id, <- app_assoc, length_app, length_take.
    do 3 f_equal. lia.
Qed.

(** What is submitted is what was typed: from a waiting conversation, the
    text of any sequence of key events, cut at 512 characters, is handed out
    exactly once, under the current attempt, and leaves nothing behind; a
    second submit yields nothing. *)
Theorem submit_typed c vs :
  wf c → status c = Waiting →
  let c1 := foldl (λ c v, fst (push_input v c)) c vs in
  let '(c2, out) := submit c1 in
  out = Some (attempt c, take MAX_TEXT_CHARS (text (input c) ++ mjoin vs))
  ∧ text (input c2) = [] ∧ status c2 = Submitting ∧ snd (submit c2) = None.
Proof.
  intros Hwf Hs. cbn zeta.
  destruct (push_all_waiting vs c Hwf Hs) as (_ & Hs' & Ha & Ht). cbn zeta in *.
  unfold submit at 1. rewrite (bool_decide_eq_true_2 _ Hs'). cbn [negb].
  split_and!; [| done | done | done].
  change (attempt (set_status Submitting ?c)) with (attempt c). cbn [input set_status].
  by rewrite Ha, Ht.
Qed.

Lemma submit_typed_witness :
  let c := fst (receive 1 (Prompt true (str "PIN:")) new) in
  let '(c2, out) := submit (foldl (λ c v, fst (push_input v c)) c [str "12"; str "34"]) in
  out = Some (1, str "1234") ∧ text (input c2) = [] ∧ status c2 = Submitting
  ∧ snd (submit c2) = None.
Proof.
  exact (submit_typed (fst (receive 1 (Prompt true (str "PIN:")) new))
    [str "12"; str "34"] (wf_receive _ _ _ wf_new) eq_refl).
Defined.
