(* ===== verification/LockProtocol.v ===== *)
(** * The locker/worker wire protocol ([crates/lock-auth/src/lib.rs])

    Messages between the locker and its private PAM worker: a ten-byte header
    (magic, version, kind, big-endian payload length) and a bounded payload.
    The reading side is modelled down to [read_exact_or_closed]: the kernel
    may split the byte stream anywhere, interrupt a read, fail it, or let a
    deadline pass, as a schedule of [tick]s says. *)

From S2P Require Import Prelude Utf8.

Definition MAGIC : list byte := bytes_of "GNKA".
Definition VERSION : Z := 2.
Definition HEADER_BYTES : nat := 10.
Definition MAX_PAYLOAD_BYTES : Z := 16 * 1024.
Definition MAX_RESPONSE_BYTES : Z := 8 * 1024.
Definition MAX_MESSAGE_BYTES : Z := 4 * 1024.
Definition MAX_MESSAGES : Z := 128.

Definition READY : Z := 1.
Definition PROMPT : Z := 2.
Definition INFO : Z := 3.
Definition ERROR : Z := 4.
Definition SUCCESS : Z := 5.
Definition FAILURE : Z := 6.
Definition RESPONSE : Z := 7.
Definition CANCEL : Z := 8.
Definition RETRY : Z := 9.
Definition BEGIN : Z := 10.

Inductive io_error := TimedOut | OtherIo (code : Z).
Inductive ProtocolError := Io (e : io_error) | InvalidPayload | Closed.
#[export] Instance io_error_eq_dec : EqDecision io_error.
Proof. solve_decision. Defined.
#[export] Instance ProtocolError_eq_dec : EqDecision ProtocolError.
Proof. solve_decision. Defined.

(** A [Secret] is a byte string that [Secret::new] accepted. *)
Definition blen (bs : list byte) : Z := Z.of_nat (length bs).
Definition contains_nul (bs : list byte) : bool := existsb (λ b, u8 b =? 0) bs.
Definition secret_new (value : list byte) : result ProtocolError (list byte) :=
  if (MAX_RESPONSE_BYTES <? blen value) || contains_nul value
  then Err InvalidPayload else Ok value.

Inductive Message :=
| Ready (uid : Z) (username : rstring)
| Prompt (id : Z) (secret : bool) (text : rstring)
| Info (text : rstring)
| Error (text : rstring)
| Success
| Failure
| Response (id : Z) (value : list byte)
| Cancel
| Retry
| Begin.
#[export] Instance Message_eq_dec : EqDecision Message.
Proof. solve_decision. Defined.

(** ** Encoding and decoding of one payload *)

Definition push_text (payload : list byte) (text : rstring) (maximum : Z) :
    result ProtocolError (list byte) :=
  if maximum <? str_len text then Err InvalidPayload else Ok (payload ++ encode text).

Definition text_payload (text : rstring) : result ProtocolError (list byte) :=
  if MAX_MESSAGE_BYTES <? str_len text then Err InvalidPayload else Ok (encode text).

Definition decode_text (payload : list byte) (maximum : Z) : result ProtocolError rstring :=
  if (maximum <? blen payload) || contains_nul payload then Err InvalidPayload
  else ok_or InvalidPayload (decode payload).

Definition encode_message (m : Message) : result ProtocolError (Z * list byte) :=
  match m with
  | Ready uid username =>
    p ← push_text (be_bytes 4 uid) username MAX_MESSAGE_BYTES; Ok (READY, p)
  | Prompt id secret text =>
    p ← push_text (be_bytes 8 id ++ [to_u8 (Z.b2z secret)]) text MAX_MESSAGE_BYTES;
    Ok (PROMPT, p)
  | Info text => p ← text_payload text; Ok (INFO, p)
  | Error text => p ← text_payload text; Ok (ERROR, p)
  | Success => Ok (SUCCESS, [])
  | Failure => Ok (FAILURE, [])
  | Response id value => Ok (RESPONSE, be_bytes 8 id ++ value)
  | Cancel => Ok (CANCEL, [])
  | Retry => Ok (RETRY, [])
  | Begin => Ok (BEGIN, [])
  end.

(** The match on the kind with its guards; [payload[a..]] is [drop a]. *)
Definition decode_message (kind : Z) (payload : list byte) : result ProtocolError Message :=
  let len := blen payload in
  let empty := bool_decide (payload = []) in
  if (kind =? READY) && (4 <=? len) then
    username ← decode_text (drop 4 payload) MAX_MESSAGE_BYTES;
    Ok (Ready (be_value (take 4 payload)) username)
  else if (kind =? PROMPT) && (9 <=? len) && (be_value (slice 8 9 payload) <=? 1) then
    text ← decode_text (drop 9 payload) MAX_MESSAGE_BYTES;
    Ok (Prompt (be_value (take 8 payload)) (be_value (slice 8 9 payload) =? 1) text)
  else if kind =? INFO then t ← decode_text payload MAX_MESSAGE_BYTES; Ok (Info t)
  else if kind =? ERROR then t ← decode_text payload MAX_MESSAGE_BYTES; Ok (Error t)
  else if (kind =? SUCCESS) && empty then Ok Success
  else if (kind =? FAILURE) && empty then Ok Failure
  else if (kind =? RESPONSE) && (8 <=? len) && (len <=? 8 + MAX_RESPONSE_BYTES)
          && negb (contains_nul (drop 8 payload)) then
    value ← secret_new (drop 8 payload);
    Ok (Response (be_value (take 8 payload)) value)
  else if (kind =? CANCEL) && empty then Ok Cancel
  else if (kind =? RETRY) && empty then Ok Retry
  else if (kind =? BEGIN) && empty then Ok Begin
  else Err InvalidPayload.

(** ** The sending side *)

(** A socket that accepts [room] more bytes before failing ([None]: it never
    fails). *)
Record writer := Writer { written : list byte; room : option nat }.

Definition write_all (bs : list byte) (w : writer) : result ProtocolError unit * writer :=
  match room w with
  | None => (Ok tt, Writer (written w ++ bs) None)
  | Some k =>
    if (length bs <=? k)%nat
    then (Ok tt, Writer (written w ++ bs) (Some (k - length bs)%nat))
    else (Err (Io (OtherIo 32)), Writer (written w ++ take k bs) (Some 0%nat))
  end.

Definition frame_header (kind : Z) (payload : list byte) : list byte :=
  MAGIC ++ [to_u8 VERSION; to_u8 kind] ++ be_bytes 4 (blen payload).

Definition send (m : Message) (w : writer) : result ProtocolError unit * writer :=
  match encode_message m with
  | Err e => (Err e, w)
  | Ok (kind, payload) =>
    if MAX_PAYLOAD_BYTES <? blen payload then (Err InvalidPayload, w)
    else
      match write_all (frame_header kind payload) w with
      | (Ok _, w) => write_all payload w
      | (Err e, w) => (Err e, w)
      end
  end.

(** ** The receiving side *)

(** What one iteration of the read loop meets: the clock, whether
    [set_read_timeout] worked, and what [read] does.  [Deliver n] makes at
    most [S n] of the available bytes available to that call. *)
Inductive io_event := Deliver (n : nat) | Interrupted | Fault (code : Z).
Record tick := Tick { now : Z; timeout_set : bool; event : io_event }.

(** [incoming]: all the bytes the peer still has for us before it closes. *)
Record stream := Stream { incoming : list byte; sched : list tick }.

(** [Instant::checked_duration_since] and the [filter]. *)
Definition deadline_passed (deadline : option Z) (t : tick) : bool :=
  match deadline with Some d => d <=? now t | None => false end.
Definition timeout_failed (deadline : option Z) (t : tick) : bool :=
  match deadline with Some _ => negb (timeout_set t) | None => false end.

(** [read_exact_or_closed]; [None]: the schedule ended while blocked. *)
Fixpoint read_loop (deadline : option Z) (need : nat) (acc inc : list byte) (ts : list tick) :
    option (result ProtocolError (list byte) * stream) :=
  match need, ts with
  | O, _ => Some (Ok acc, Stream inc ts)
  | S _, [] => None
  | S _, t :: ts =>
    if deadline_passed deadline t then Some (Err (Io TimedOut), Stream inc ts)
    else if timeout_failed deadline t then Some (Err (Io (OtherIo 22)), Stream inc ts)
    else
      match event t with
      | Deliver n =>
        let count := Nat.min need (Nat.min (S n) (length inc)) in
        match count with
        | O => Some (Err Closed, Stream inc ts)
        | _ => read_loop deadline (need - count) (acc ++ take count inc) (drop count inc) ts
        end
      | Interrupted => read_loop deadline need acc inc ts
      | Fault c => Some (Err (Io (OtherIo c)), Stream inc ts)
      end
  end.

Definition read_exact_or_closed (deadline : option Z) (need : nat) (s : stream) :=
  read_loop deadline need [] (incoming s) (sched s).

Definition receive_before (deadline : option Z) (s : stream) :
    option (result ProtocolError Message * stream) :=
  match read_exact_or_closed deadline HEADER_BYTES s with
  | None => None
  | Some (Err e, s) => Some (Err e, s)
  | Some (Ok header, s) =>
    if negb (bool_decide (take 4 header = MAGIC))
       || negb (be_value (slice 4 5 header) =? VERSION)
    then Some (Err InvalidPayload, s)
    else
      let len := be_value (drop 6 header) in
      if MAX_PAYLOAD_BYTES <? len then Some (Err InvalidPayload, s)
      else
        match read_exact_or_closed deadline (Z.to_nat len) s with
        | None => None
        | Some (Err e, s) => Some (Err e, s)
        | Some (Ok payload, s) =>
          Some (decode_message (be_value (slice 5 6 header)) payload, s)
        end
  end.

Definition receive (s : stream) := receive_before None s.
Definition receive_with_deadline (d : Z) (s : stream) := receive_before (Some d) s.

(** [n] messages in a row, stopping at the first failure. *)
Fixpoint receive_n (n : nat) (s : stream) : option (result ProtocolError (list Message) * stream) :=
  match n with
  | O => Some (Ok [], s)
  | S n =>
    match receive s with
    | None => None
    | Some (Err e, s) => Some (Err e, s)
    | Some (Ok m, s) =>
      match receive_n n s with
      | None => None
      | Some (Err e, s) => Some (Err e, s)
      | Some (Ok ms, s) => Some (Ok (m :: ms), s)
      end
    end
  end.

(** ** What the protocol promises *)

(** Texts the receiver accepts: scalar values, no NUL, bounded. *)
Definition clean_text (t : rstring) : Prop :=
  wf_string t ∧ contains_nul (encode t) = false ∧ str_len t ≤ MAX_MESSAGE_BYTES.

(** The values of the Rust type [Message] whose texts are clean. *)
Definition clean (m : Message) : Prop :=
  match m with
  | Ready uid username => 0 ≤ uid < 2 ^ 32 ∧ clean_text username
  | Prompt id _ text => 0 ≤ id < 2 ^ 64 ∧ clean_text text
  | Info t | Error t => clean_text t
  | Response id value => 0 ≤ id < 2 ^ 64 ∧ secret_new value = Ok value
  | _ => True
  end.

Definition frame (m : Message) : list byte :=
  match encode_message m with
  | Ok (kind, payload) => frame_header kind payload ++ payload
  | Err _ => []
  end.

(** ** Lemmas: payloads *)

Lemma be_value_single b : be_value [b] = u8 b.
Proof. done. Qed.

Lemma decode_text_Ok p M t :
  decode_text p M = Ok t ↔
  encode t = p ∧ wf_string t ∧ contains_nul p = false ∧ str_len t ≤ M.
Proof.
  unfold decode_text, blen. split.
  - destruct (_ || _) eqn:E; [done|]. rewrite ok_or_Ok. intros [He Hw]%decode_sound.
    simp_bool. rewrite <- length_encode, He. done.
  - intros (<- & Hw & -> & Hl). rewrite length_encode.
    rewrite (proj2 (Z.ltb_ge _ _)) by done. cbn. by rewrite decode_encode.
Qed.

Lemma push_text_Ok p t M q : push_text p t M = Ok q ↔ q = p ++ encode t ∧ str_len t ≤ M.
Proof. unfold push_text. destruct (Z.ltb_spec M (str_len t)); naive_solver lia. Qed.

Lemma text_payload_Ok t q : text_payload t = Ok q ↔ q = encode t ∧ str_len t ≤ MAX_MESSAGE_BYTES.
Proof. unfold text_payload. destruct (Z.ltb_spec MAX_MESSAGE_BYTES (str_len t)); naive_solver lia. Qed.

Lemma secret_new_Ok v w :
  secret_new v = Ok w ↔ w = v ∧ contains_nul v = false ∧ blen v ≤ MAX_RESPONSE_BYTES.
Proof.
  unfold secret_new. destruct (Z.ltb_spec MAX_RESPONSE_BYTES (blen v)), (contains_nul v);
    cbn; naive_solver lia.
Qed.

Lemma split_at {A} n (l : list A) : (n ≤ length l)%nat → take n l ++ drop n l = l.
Proof. intros. apply take_drop. Qed.

Lemma be_bytes_take n p : (n ≤ length p)%nat → be_bytes n (be_value (take n p)) = take n p.
Proof.
  intros. rewrite <- (be_bytes_value (take n p)) at 2. by rewrite length_take, Nat.min_l.
Qed.

Lemma be_value_take_range n p k :
  k = 256 ^ Z.of_nat n → (n ≤ length p)%nat → 0 ≤ be_value (take n p) < k.
Proof. intros -> ?. pose proof (be_value_range (take n p)) as H'. by rewrite length_take, Nat.min_l in H'. Qed.

Lemma slice_flag p (v := be_value (slice 8 9 p)) : (9 <= length p)%nat → v ≤ 1 →
  take 8 p ++ [to_u8 (Z.b2z (v =? 1))] ++ drop 9 p = p.
Proof.
  intros Hl. unfold v, slice.
  destruct (drop 8 p) as [|b r] eqn:E.
  { apply (f_equal length) in E. rewrite length_drop in E. cbn in E. lia. }
  cbn [take Nat.sub]. rewrite be_value_single. intros Hb. pose proof (u8_range b).
  assert (to_u8 (Z.b2z (u8 b =? 1)) = b) as ->.
  { apply to_u8_eq. destruct (Z.eqb_spec (u8 b) 1); cbn; lia. }
  replace (drop 9 p) with r.
  { change ([b] ++ r) with (b :: r). by rewrite <- E, take_drop. }
  replace 9%nat with (8 + 1)%nat by lia. by rewrite <- drop_drop, E.
Qed.

Lemma is_nil_iff {A} (l : list A) `{EqDecision A} : bool_decide (l = []) = true ↔ l = [].
Proof. apply bool_decide_eq_true. Qed.

Lemma decode_message_sound kind p m :
  decode_message kind p = Ok m → encode_message m = Ok (kind, p) ∧ clean m.
Proof.
  unfold decode_message, blen. intros H.
  repeat (match type of H with (if ?b then _ else _) = _ => destruct b eqn:?E end);
    simp_bool; subst; inv_ok; cbn [encode_message clean];
    repeat match goal with
    | H : decode_text _ _ = Ok _ |- _ => apply decode_text_Ok in H as (He & Hw & Hn & Hl)
    | H : secret_new _ = Ok _ |- _ => apply secret_new_Ok in H as (-> & ? & ?)
    end;
    try (split; [|done]; subst; reflexivity).
  - unfold push_text. rewrite (proj2 (Z.ltb_ge _ _)) by done. cbn [mbind result_bind].
    rewrite be_bytes_take by lia. rewrite He, take_drop.
    split; [done|]. split; [apply be_value_take_range; [done|lia]|].
    unfold clean_text. by rewrite He.
  - unfold push_text. rewrite (proj2 (Z.ltb_ge _ _)) by done. cbn [mbind result_bind].
    rewrite be_bytes_take by lia. rewrite He, <- app_assoc, slice_flag by lia.
    split; [done|]. split; [apply be_value_take_range; [done|lia]|].
    unfold clean_text. by rewrite He.
  - unfold text_payload. rewrite (proj2 (Z.ltb_ge _ _)) by done. cbn. unfold clean_text.
    by rewrite He.
  - unfold text_payload. rewrite (proj2 (Z.ltb_ge _ _)) by done. cbn. unfold clean_text.
    by rewrite He.
  - rewrite be_bytes_take by lia. rewrite take_drop. split; [done|].
    split; [apply be_value_take_range; [done|lia] | by apply secret_new_Ok].
Qed.

#[local] Opaque be_bytes.

Lemma contains_nul_app a b : contains_nul (a ++ b) = contains_nul a || contains_nul b.
Proof. unfold contains_nul. apply existsb_app. Qed.

Lemma slice_mid {A} n (l k r : list A) : n = length l → length k = 1%nat →
  slice n (n + 1) (l ++ k ++ r) = k.
Proof.
  intros -> Hk. unfold slice. rewrite drop_app_length.
  replace (length l + 1 - length l)%nat with (length k) by lia. by rewrite take_app_length.
Qed.

Lemma u8_b2z b : u8 (to_u8 (Z.b2z b)) = Z.b2z b.
Proof. by destruct b. Qed.

Lemma decode_message_complete kind p m :
  encode_message m = Ok (kind, p) → clean m → decode_message kind p = Ok m.
Proof.
  intros He Hc.
  destruct m as [uid u|id sec t|t|t| | |id v| | |]; cbn [encode_message clean] in *; inv_ok;
    repeat match goal with
    | H : push_text _ _ _ = Ok _ |- _ => apply push_text_Ok in H as [-> ?]
    | H : text_payload _ = Ok _ |- _ => apply text_payload_Ok in H as [-> ?]
    end; try reflexivity; unfold decode_message, blen; simplify_eq;
    cbn [Z.eqb Pos.eqb READY PROMPT INFO ERROR SUCCESS FAILURE RESPONSE andb].
  - destruct Hc as [Hu (?&?&?)]. rewrite length_app, length_be_bytes.
    rewrite (proj2 (Z.leb_le _ _)) by lia.
    rewrite (drop_app_length' 4), (take_app_length' 4) by (by rewrite length_be_bytes).
    rewrite (proj2 (decode_text_Ok _ _ u)) by done. cbn. by rewrite be_value_bytes.
  - destruct Hc as [Hu (?&?&?)]. rewrite !length_app, length_be_bytes.
    rewrite (proj2 (Z.leb_le 9 _)) by (cbn [length]; lia).
    rewrite <- app_assoc, (slice_mid 8) by (by rewrite ?length_be_bytes).
    rewrite be_value_single, u8_b2z.
    rewrite (proj2 (Z.leb_le _ _)) by (by destruct sec). cbn [andb].
    rewrite (take_app_length' 8) by (by rewrite length_be_bytes).
    rewrite app_assoc, (drop_app_length' 9) by (by rewrite length_app, length_be_bytes).
    rewrite (proj2 (decode_text_Ok _ _ t)) by done. cbn.
    rewrite be_value_bytes by done. by destruct sec.
  - destruct Hc as (?&?&?). by rewrite (proj2 (decode_text_Ok _ _ t)).
  - destruct Hc as (?&?&?). by rewrite (proj2 (decode_text_Ok _ _ t)).
  - destruct Hc as [Hu Hv]. pose proof Hv as (_ & Hn & Hl)%secret_new_Ok.
    unfold blen, MAX_RESPONSE_BYTES in *. rewrite length_app, length_be_bytes.
    rewrite (proj2 (Z.leb_le 8 _)), (proj2 (Z.leb_le _ (8 + _))) by lia.
    rewrite (drop_app_length' 8), (take_app_length' 8) by (by rewrite length_be_bytes).
    rewrite Hn, Hv. cbn. by rewrite be_value_bytes.
Qed.

#[local] Transparent be_bytes.

(** ** Lemmas: framing *)

Definition is_deliver (t : tick) : bool :=
  match event t with Deliver _ => true | _ => false end.
Definition delivers (ts : list tick) : nat := length (filter is_deliver ts).
(** A schedule on which no read fails. *)
Definition healthy (ts : list tick) : Prop :=
  Forall (λ t, match event t with Fault _ => False | _ => True end) ts.

Lemma read_loop_spec ts : ∀ need acc inc,
  healthy ts → (need ≤ length inc)%nat → (need ≤ delivers ts)%nat →
  ∃ ts', read_loop None need acc inc ts = Some (Ok (acc ++ take need inc), Stream (drop need inc) ts')
    ∧ healthy ts' ∧ (delivers ts ≤ delivers ts' + need)%nat.
Proof.
  induction ts as [|t ts IH]; intros need acc inc Hh Hi Hd.
  - destruct need as [|need]; [|cbn in Hd; lia].
    exists []. rewrite app_nil_r. by cbn.
  - destruct need as [|need].
    { exists (t :: ts). rewrite app_nil_r. cbn. split_and!; [done|done|lia]. }
    inversion Hh as [|? ? Ht Hts]; subst.
    cbn [read_loop deadline_passed timeout_failed].
    unfold delivers in Hd |- *. rewrite filter_cons in Hd |- *. 
    destruct (event t) as [n| |c] eqn:Ev.
    + assert (is_deliver t) as Hdel by (unfold is_deliver; by rewrite Ev).
      rewrite decide_True in Hd |- * by done. cbn [length] in Hd |- *.
      set (count := Nat.min (S need) (Nat.min (S n) (length inc))).
      assert (1 ≤ count ≤ S need)%nat as Hc by lia.
      destruct count as [|k] eqn:Ek; [lia|]. rewrite <- Ek in *. clear Ek.
      destruct (IH (S need - count)%nat (acc ++ take count inc) (drop count inc))
        as (ts' & -> & ? & ?); [done| rewrite length_drop; lia | unfold delivers; lia |].
      exists ts'. rewrite <- app_assoc, drop_drop.
      replace (count + (S need - count))%nat with (S need) by lia.
      rewrite take_take_drop.
      replace (count + (S need - count))%nat with (S need) by lia.
      unfold delivers in *. split_and!; [done|done|lia].
    + assert (¬ is_deliver t) as Hdel by (unfold is_deliver; rewrite Ev; by intros []).
      rewrite decide_False in Hd |- * by done.
      destruct (IH (S need) acc inc) as (ts' & -> & ? & ?); [done..|].
      exists ts'. by unfold delivers in *.
    + done.
Qed.

Lemma read_exact_spec need inc rest ts :
  healthy ts → length inc = need → (need ≤ delivers ts)%nat →
  ∃ ts', read_exact_or_closed None need (Stream (inc ++ rest) ts) = Some (Ok inc, Stream rest ts')
    ∧ healthy ts' ∧ (delivers ts ≤ delivers ts' + need)%nat.
Proof.
  intros Hh <- Hd.
  destruct (read_loop_spec ts (length inc) [] (inc ++ rest)) as (ts' & H & ? & ?);
    [done | rewrite length_app; lia | done |].
  rewrite take_app_length, drop_app_length in H. eauto.
Qed.

Lemma length_frame_header k p : length (frame_header k p) = HEADER_BYTES.
Proof. done. Qed.

Lemma blen_encode_le kind p m : encode_message m = Ok (kind, p) → clean m →
  0 ≤ kind < 256 ∧ blen p ≤ MAX_PAYLOAD_BYTES.
Proof.
  unfold blen, MAX_PAYLOAD_BYTES. intros He Hc.
  destruct m as [uid u|id sec t|t|t| | |id v| | |]; cbn [encode_message clean] in *; inv_ok;
    repeat match goal with
    | H : push_text _ _ _ = Ok _ |- _ => apply push_text_Ok in H as [-> ?]
    | H : text_payload _ = Ok _ |- _ => apply text_payload_Ok in H as [-> ?]
    | H : _ ∧ secret_new _ = Ok _ |- _ => destruct H as [? (_ & _ & ?)%secret_new_Ok]
    end; simplify_eq; (split; [done|]);
    unfold MAX_MESSAGE_BYTES, MAX_RESPONSE_BYTES, blen in *;
    rewrite ?length_app, ?length_be_bytes, ?Nat2Z.inj_add, ?length_encode; cbn [length]; lia.
Qed.

(** The header of a frame parses back to the kind and the length. *)
Lemma frame_header_fields kind p : 0 ≤ kind < 256 → blen p ≤ MAX_PAYLOAD_BYTES →
  take 4 (frame_header kind p) = MAGIC ∧ be_value (slice 4 5 (frame_header kind p)) = VERSION
  ∧ be_value (slice 5 6 (frame_header kind p)) = kind
  ∧ be_value (drop 6 (frame_header kind p)) = blen p.
Proof.
  intros Hk Hp. unfold MAX_PAYLOAD_BYTES, blen in *. split_and!; try done.
  - change (be_value [to_u8 kind] = kind).
    rewrite be_value_single, u8_to_u8. by apply Z.mod_small.
  - change (be_value (be_bytes 4 (Z.of_nat (length p))) = Z.of_nat (length p)).
    apply be_value_bytes. lia.
Qed.

Lemma receive_frame kind p m rest ts d :
  encode_message m = Ok (kind, p) → clean m → d = None →
  healthy ts → (HEADER_BYTES + length p ≤ delivers ts)%nat →
  ∃ ts', receive_before d (Stream (frame_header kind p ++ p ++ rest) ts)
         = Some (Ok m, Stream rest ts')
    ∧ healthy ts' ∧ (delivers ts ≤ delivers ts' + (HEADER_BYTES + length p))%nat.
Proof.
  intros He Hc -> Hh Hd.
  destruct (blen_encode_le _ _ _ He Hc) as [Hk Hl].
  destruct (frame_header_fields kind p Hk Hl) as (F1 & F2 & F3 & F4).
  unfold receive_before.
  destruct (read_exact_spec HEADER_BYTES (frame_header kind p) (p ++ rest) ts)
    as (ts1 & -> & Hh1 & Hd1); [done|apply length_frame_header|lia|].
  rewrite F1, F2, F3, F4. rewrite bool_decide_eq_true_2, Z.eqb_refl by done. cbn [negb orb].
  rewrite (proj2 (Z.ltb_ge _ _)) by done. unfold blen. rewrite Nat2Z.id.
  destruct (read_exact_spec (length p) p rest ts1) as (ts2 & -> & Hh2 & Hd2); [done|done|lia|].
  exists ts2. split_and!; [|done|lia]. by rewrite (decode_message_complete _ _ _ He Hc).
Qed.

(** The sender on a healthy socket. *)
Fixpoint send_n (ms : list Message) (w : writer) : result ProtocolError unit * writer :=
  match ms with
  | [] => (Ok tt, w)
  | m :: ms =>
    match send m w with
    | (Ok _, w) => send_n ms w
    | (Err e, w) => (Err e, w)
    end
  end.

Lemma clean_encodes m : clean m → ∃ kind p, encode_message m = Ok (kind, p).
Proof.
  destruct m as [uid u|id sec t|t|t| | |id v| | |]; cbn [encode_message clean]; eauto;
    unfold push_text, text_payload, clean_text; intros; destruct_and?;
    rewrite (proj2 (Z.ltb_ge _ _)) by done; cbn; eauto.
Qed.

Lemma send_clean m w : clean m → room w = None →
  send m w = (Ok tt, Writer (written w ++ frame m) None).
Proof.
  intros Hc Hr. destruct (clean_encodes m Hc) as (kind & p & He).
  destruct (blen_encode_le _ _ _ He Hc) as [_ Hl].
  unfold send, frame, write_all. rewrite He, (proj2 (Z.ltb_ge _ _)), Hr by done.
  cbn [room written]. by rewrite <- app_assoc.
Qed.

Lemma length_frame m kind p :
  encode_message m = Ok (kind, p) → length (frame m) = (HEADER_BYTES + length p)%nat.
Proof. intros He. unfold frame. by rewrite He, length_app, length_frame_header. Qed.

Lemma receive_n_frames ms : ∀ rest ts,
  Forall clean ms → healthy ts → (length (ms ≫= frame) ≤ delivers ts)%nat →
  ∃ ts', receive_n (length ms) (Stream ((ms ≫= frame) ++ rest) ts) = Some (Ok ms, Stream rest ts').
Proof.
  induction ms as [|m ms IH]; intros rest ts Hc Hh Hd; cbn [receive_n length].
  { by exists ts. }
  inversion Hc as [|? ? Hm Hms]; subst. destruct (clean_encodes m Hm) as (kind & p & He).
  change ((m :: ms) ≫= frame) with (frame m ++ (ms ≫= frame)) in *.
  rewrite length_app, (length_frame _ _ _ He) in Hd.
  destruct (receive_frame kind p m ((ms ≫= frame) ++ rest) ts None) as (ts1 & Hr & Hh1 & Hd1);
    [done..|lia|].
  unfold receive. rewrite <- app_assoc. unfold frame at 1. rewrite He, <- app_assoc, Hr.
  destruct (IH rest ts1) as (ts2 & ->); [done|done|lia|]. by exists ts2.
Qed.

Lemma send_n_clean ms : ∀ w, Forall clean ms → room w = None →
  send_n ms w = (Ok tt, Writer (written w ++ (ms ≫= frame)) None).
Proof.
  induction ms as [|m ms IH]; intros w Hc Hr.
  { destruct w; cbn in *; subst. by rewrite app_nil_r. }
  inversion Hc; subst. cbn [send_n]. rewrite send_clean, IH by done.
  cbn [written mbind list_bind]. by rewrite <- app_assoc.
Qed.

(** ** Properties *)

(** C27.  Wire round trip: any sequence of clean messages written by [send] is
    read back by [receive], in order and unchanged, whatever way the kernel
    splits the byte stream and however often it interrupts the reader, as long
    as no read fails and the bytes do arrive; bytes that follow are left alone. *)
Theorem protocol_roundtrip ms rest ts :
  Forall clean ms → healthy ts → (length (ms ≫= frame) ≤ delivers ts)%nat →
  ∃ w ts', send_n ms (Writer [] None) = (Ok tt, w)
    ∧ receive_n (length ms) (Stream (written w ++ rest) ts) = Some (Ok ms, Stream rest ts').
Proof.
  intros Hc Hh Hd. destruct (receive_n_frames ms rest ts) as (ts' & Hr); [done..|].
  exists (Writer (ms ≫= frame) None), ts'. split; [by rewrite send_n_clean|done].
Qed.

Lemma protocol_roundtrip_witness :
  let ms := [Begin; Prompt 1 true (str "Password: "); Response 1 (bytes_of "hunter2")] in
  let ts := replicate 80 (Tick 0 true (Deliver 2)) in
  ∃ w ts', send_n ms (Writer [] None) = (Ok tt, w)
    ∧ receive_n (length ms) (Stream (written w ++ bytes_of "GN") ts)
      = Some (Ok ms, Stream (bytes_of "GN") ts').
Proof.
  intros ms ts. apply (protocol_roundtrip ms (bytes_of "GN") ts).
  - repeat constructor; cbn; try lia; vm_compute; try done; intros [=].
  - apply Forall_replicate. done.
  - vm_compute. lia.
Defined.

(** Canonical decoding: [decode] accepts a kind and a payload exactly when
    they are the encoding of a clean message, and then returns that message;
    so no two payloads of a kind denote the same message, and everything a
    peer can say is bounded, NUL-free UTF-8. *)
Theorem decode_exact kind payload m :
  decode_message kind payload = Ok m ↔ encode_message m = Ok (kind, payload) ∧ clean m.
Proof.
  split; [apply decode_message_sound | intros [? ?]; by apply decode_message_complete].
Qed.

Lemma read_loop_consumes d ts : ∀ need acc inc r s,
  read_loop d need acc inc ts = Some (r, s) →
  ∃ used, inc = used ++ incoming s ∧ (length used ≤ need)%nat
    ∧ (∀ out, r = Ok out → out = acc ++ used ∧ length used = need).
Proof.
  induction ts as [|t ts IH]; intros need acc inc r s H; destruct need as [|need];
    cbn [read_loop] in H; simplify_eq.
  1,2: exists []; rewrite app_nil_r; naive_solver.
  destruct (deadline_passed d t); [simplify_eq; exists []; naive_solver lia|].
  destruct (timeout_failed d t); [simplify_eq; exists []; naive_solver lia|].
  destruct (event t) as [n| |c]; [| by apply IH in H | simplify_eq; exists []; naive_solver lia].
  set (count := Nat.min _ _) in H. destruct count as [|k] eqn:Ek.
  { simplify_eq; exists []; naive_solver lia. }
  assert (count ≤ S need ∧ count ≤ length inc)%nat as Hk by lia. rewrite <- Ek in H. clear Ek.
  apply IH in H as (used & Hu & Hl & Hr).
  exists (take count inc ++ used). rewrite <- app_assoc, <- Hu, take_drop.
  rewrite length_app, length_take. split_and!; [done|lia|].
  intros out ->. destruct (Hr out eq_refl) as [-> ?]. split; [by rewrite app_assoc|lia].
Qed.

Lemma header_eq h : length h = HEADER_BYTES → take 4 h = MAGIC →
  be_value (slice 4 5 h) = VERSION →
  h = MAGIC ++ [to_u8 VERSION; to_u8 (be_value (slice 5 6 h))] ++ be_bytes 4 (be_value (drop 6 h)).
Proof.
  intros Hl Hm Hv. rewrite <- (take_drop 4 h) at 1. rewrite Hm. f_equal.
  do 10 (destruct h as [|?b h]; [done|]). destruct h; [|done].
  change (slice 4 5 _) with [b3] in Hv. change (slice 5 6 _) with [b4].
  change (drop 4 _) with [b3; b4; b5; b6; b7; b8]. change (drop 6 _) with [b5; b6; b7; b8].
  rewrite be_value_single in *.
  rewrite to_u8_u8, <- Hv, to_u8_u8. change 4%nat with (length [b5; b6; b7; b8]).
  by rewrite be_bytes_value.
Qed.

(** Receiving is bounded and exact: whatever bytes, errors and deadlines
    it meets, one [receive] takes at most a header and [MAX_PAYLOAD_BYTES]
    bytes off the stream, and when it returns a message those bytes are
    precisely that message's frame. *)
Theorem receive_consumes_frame d s r s' :
  receive_before d s = Some (r, s') →
  ∃ used, incoming s = used ++ incoming s'
    ∧ Z.of_nat (length used) ≤ Z.of_nat HEADER_BYTES + MAX_PAYLOAD_BYTES
    ∧ (∀ m, r = Ok m → used = frame m ∧ clean m).
Proof.
  unfold receive_before, read_exact_or_closed. intros H.
  destruct (read_loop d HEADER_BYTES [] (incoming s) (sched s)) as [[[h|e] s1]|] eqn:E1; [| |done].
  2: { simplify_eq. apply read_loop_consumes in E1 as (u & ? & ? & _). exists u.
       unfold MAX_PAYLOAD_BYTES. naive_solver lia. }
  apply read_loop_consumes in E1 as (u & Hu & Hlu & Hr). 
  destruct (Hr h eq_refl) as [-> Hl]. cbn [app] in H. clear Hr.
  destruct (negb _ || _) eqn:Em.
  { simplify_eq. exists u. unfold MAX_PAYLOAD_BYTES. naive_solver lia. }
  simp_bool. pose proof (be_value_range (drop 6 u)) as [Hpos _].
  destruct (Z.ltb_spec MAX_PAYLOAD_BYTES (be_value (drop 6 u))) as [|Hmax].
  { simplify_eq. exists u. unfold MAX_PAYLOAD_BYTES. naive_solver lia. }
  destruct (read_loop _ _ _ _ _) as [[[p|e] s2]|] eqn:E2 in H; [| |done]; simplify_eq;
    apply read_loop_consumes in E2 as (v & Hv & Hlv & Hr); exists (u ++ v);
    rewrite Hu, Hv, length_app, <- app_assoc; (split_and!; [done|lia|]).
  - destruct (Hr p eq_refl) as [-> Hlen]. intros m [He Hc]%decode_message_sound.
    split; [|done]. unfold frame. rewrite He. cbn [app]. f_equal.
    rewrite (header_eq u) at 1 by done. unfold frame_header, blen.
    by rewrite Hlen, Z2Nat.id by done.
  - done.
Qed.

Lemma receive_consumes_frame_witness :
  ∃ used, bytes_of "GNKA" ++ [to_u8 2; to_u8 10; to_u8 0; to_u8 0; to_u8 0; to_u8 0; to_u8 9]
          = used ++ [to_u8 9]
    ∧ Z.of_nat (length used) ≤ Z.of_nat HEADER_BYTES + MAX_PAYLOAD_BYTES
    ∧ (∀ m, (Ok Begin : result ProtocolError Message) = Ok m → used = frame m ∧ clean m).
Proof.
  apply (receive_consumes_frame (Some 5)
    (Stream (bytes_of "GNKA" ++ [to_u8 2; to_u8 10; to_u8 0; to_u8 0; to_u8 0; to_u8 0; to_u8 9])
       (replicate 4 (Tick 1 true (Deliver 3))))
    (Ok Begin) (Stream [to_u8 9] (replicate 1 (Tick 1 true (Deliver 3))))).
  vm_compute. reflexivity.
Defined.
