(* ===== verification/LockWorker.v ===== *)
(** * The private PAM worker and its client
    ([crates/lock-auth/src/main.rs], [src/locker/auth.rs])

    The worker's conversation callback and its loop of attempts, and the
    reader with which the locker turns the worker's messages into events.  A
    connection carries whole messages here; [LockProtocol] models their bytes.

    PAM is a parameter: what a stack does in one [pam_authenticate] is a tree
    of calls of the conversation callback, each with its own arguments and
    memory allocations, that ends in a status; [pam_start], [pam_get_user],
    [pam_end], the name service and the socket are parameters too. *)

From S2P Require Import Prelude Utf8 LockProtocol.

(** ** [String::from_utf8_lossy] *)

Definition REPLACEMENT : char := 65533.

(** The character that starts a byte string, and its length. *)
Definition utf8_try (bs : list byte) (k : nat) : option (char * nat) :=
  if (k <=? length bs)%nat then
    match decode (take k bs) with Some [c] => Some (c, k) | _ => None end
  else None.
Definition utf8_first (bs : list byte) : option (char * nat) :=
  head (omap (utf8_try bs) [1; 2; 3; 4]%nat).

(** How many bytes of an ill-formed sequence one replacement stands for. *)
Definition invalid_length (bs : list byte) : nat :=
  match bs with
  | b0 :: b1 :: rest =>
    let x := u8 b0 in
    let within lo hi := (lo <=? u8 b1) && (u8 b1 <=? hi) in
    let three :=
      ((x =? 224) && within 160 191) || ((225 <=? x) && (x <=? 236) && within 128 191)
      || ((x =? 237) && within 128 159) || ((238 <=? x) && (x <=? 239) && within 128 191) in
    let four :=
      ((x =? 240) && within 144 191) || ((241 <=? x) && (x <=? 243) && within 128 191)
      || ((x =? 244) && within 128 143) in
    if three then 2%nat
    else if four then
      match rest with b2 :: _ => if is_cont b2 then 3%nat else 2%nat | [] => 2%nat end
    else 1%nat
  | _ => 1%nat
  end.

Fixpoint lossy (fuel : nat) (bs : list byte) : rstring :=
  match fuel, bs with
  | O, _ | _, [] => []
  | S fuel, _ =>
    match utf8_first bs with
    | Some (c, k) => c :: lossy fuel (drop k bs)
    | None => REPLACEMENT :: lossy fuel (drop (invalid_length bs) bs)
    end
  end.
(** Every turn consumes a byte. *)
Definition from_utf8_lossy (bs : list byte) : rstring := lossy (length bs) bs.

(** ** The worker's connection *)

Inductive io := Sent (m : Message) | Received (m : Message).

(** [inbox]: what [receive] returns, in order, an error as [None], and an
    error for ever after; [outcomes]: whether each write works. *)
Record Connection := mkConnection {
  inbox : list (option Message);
  outcomes : list bool;
  trace : list io;
}.

(** A message [Connection::send] does not refuse by itself. *)
Definition sendable (m : Message) : bool :=
  match encode_message m with Ok (_, p) => blen p <=? MAX_PAYLOAD_BYTES | Err _ => false end.

Definition send (m : Message) (c : Connection) : Connection * bool :=
  if negb (sendable m) then (c, false)
  else
    match outcomes c with
    | false :: os => (mkConnection (inbox c) os (trace c), false)
    | os => (mkConnection (inbox c) (tail os) (trace c ++ [Sent m]), true)
    end.

Definition receive (c : Connection) : Connection * option Message :=
  match inbox c with
  | Some m :: ms => (mkConnection ms (outcomes c) (trace c ++ [Received m]), Some m)
  | None :: ms => (mkConnection ms (outcomes c) (trace c), None)
  | [] => (c, None)
  end.

(** ** The conversation callback *)

Record PamConversation := mkPam { connection : Connection; next_id : Z; cancelled : bool }.

Definition prompt (text : rstring) (secret : bool) (v : PamConversation) :
    PamConversation * option (list byte) :=
  if MAX_MESSAGES <? next_id v then (v, None)
  else
    let id := next_id v in
    let '(c, sent) := send (Prompt id secret text) (connection v) in
    let v := mkPam c (id + 1) (cancelled v) in
    if negb sent then (v, None)
    else
      let '(c, message) := receive (connection v) in
      match message with
      | Some (Response response_id value) =>
        (mkPam c (next_id v) (cancelled v), if response_id =? id then Some value else None)
      | Some Cancel => (mkPam c (next_id v) true, None)
      | _ => (mkPam c (next_id v) (cancelled v), None)
      end.

Definition notice (text : rstring) (error : bool) (v : PamConversation) : PamConversation :=
  let '(c, _) := send (if error then Error text else Info text) (connection v) in
  mkPam c (next_id v) (cancelled v).

Definition PAM_SUCCESS : Z := 0.
Definition PAM_CONV_ERR : Z := 19.
Definition PAM_PROMPT_ECHO_OFF : Z := 1.
Definition PAM_PROMPT_ECHO_ON : Z := 2.
Definition PAM_ERROR_MSG : Z := 3.
Definition PAM_TEXT_INFO : Z := 4.
Definition PAM_MAX_NUM_MSG : Z := 32.

(** A C string, up to its terminator. *)
Fixpoint c_string (bs : list byte) : list byte :=
  match bs with
  | [] => []
  | b :: bs => if u8 b =? 0 then [] else b :: c_string bs
  end.

(** [bounded_message]: [strnlen], a lossy conversion, and characters popped
    until the bound holds. *)
Fixpoint pop_while_long (fuel : nat) (s : rstring) : rstring :=
  match fuel with
  | O => s
  | S fuel =>
    if MAX_MESSAGE_BYTES <? str_len s then pop_while_long fuel (take (length s - 1) s) else s
  end.
Definition bounded_message (message : list byte) : option rstring :=
  let bytes := c_string message in
  if MAX_MESSAGE_BYTES <? blen bytes then None
  else let s := from_utf8_lossy bytes in Some (pop_while_long (length s) s).

(** [pam_message]; a null pointer is [None]. *)
Record PamMessage := mkMessage { msg : option (list byte); msg_style : Z }.
(** A [pam_response]'s text, with its terminator. *)
Abbreviation PamResponse := (option (list byte)) (only parsing).

(** The arguments of one callback, and what its allocations meet. *)
Record Call := mkCall {
  count : Z;
  messages : option (list (option PamMessage));
  responses_null : bool;
  data_null : bool;
  calloc : bool;
  mallocs : list bool;
}.

(** The loop over the messages; [slots] are the responses filled so far. *)
Fixpoint answer (ms : list (option PamMessage)) (mallocs : list bool) (v : PamConversation)
    (slots : list PamResponse) : PamConversation * option (list PamResponse) :=
  match ms with
  | [] => (v, Some slots)
  | Some (mkMessage (Some text) style) :: ms =>
    match bounded_message text with
    | None => (v, None)
    | Some text =>
      if (style =? PAM_PROMPT_ECHO_ON) || (style =? PAM_PROMPT_ECHO_OFF) then
        let '(v, secret) := prompt text (style =? PAM_PROMPT_ECHO_OFF) v in
        match secret, mallocs with
        | None, _ | Some _, false :: _ => (v, None)
        | Some secret, _ => answer ms (tail mallocs) v (slots ++ [Some (secret ++ [Byte.x00])])
        end
      else if style =? PAM_TEXT_INFO then answer ms mallocs (notice text false v) (slots ++ [None])
      else if style =? PAM_ERROR_MSG then answer ms mallocs (notice text true v) (slots ++ [None])
      else (v, None)
    end
  | _ => (v, None)
  end.

(** [pam_conversation] and [pam_conversation_inner]: the status and what is
    stored through [responses]; a call that fails stores a null pointer. *)
Definition pam_conversation (c : Call) (v : PamConversation) :
    PamConversation * (Z * option (list PamResponse)) :=
  match messages c with
  | Some ms =>
    if (count c <=? 0) || (PAM_MAX_NUM_MSG <? count c) || responses_null c || data_null c
       || negb (calloc c)
    then (v, (PAM_CONV_ERR, None))
    else
      let '(v, slots) := answer (take (Z.to_nat (count c)) ms) (mallocs c) v [] in
      match slots with
      | Some slots => (v, (PAM_SUCCESS, Some slots))
      | None => (v, (PAM_CONV_ERR, None))
      end
  | None => (v, (PAM_CONV_ERR, None))
  end.

(** What a PAM stack does: calls of the callback, then a status. *)
Inductive pam :=
| PamReturn (status : Z)
| PamConverse (c : Call) (k : Z * option (list PamResponse) → pam).

Fixpoint pam_authenticate (p : pam) (v : PamConversation) : PamConversation * Z :=
  match p with
  | PamReturn status => (v, status)
  | PamConverse c k => let '(v, r) := pam_conversation c v in pam_authenticate (k r) v
  end.

(** ** The name service *)

Definition INITIAL_NSS_BUFFER : Z := 1024.
Definition MAX_NSS_BUFFER : Z := 1024 * 1024.
Definition MAX_USERNAME_BYTES : Z := 256 * 4.
Definition ERANGE : Z := 34.

Definition next_nss_buffer (status size : Z) : option Z :=
  if (status =? ERANGE) && (size <? MAX_NSS_BUFFER) then Some (Z.min (size * 2) MAX_NSS_BUFFER)
  else None.

(** The loop of [username_for_uid] and [username_uid]; [call] is the lookup
    with a buffer of a size: its status and its entry. *)
Fixpoint nss_loop {A} (fuel : nat) (call : Z → Z * option A) (size : Z) : option A :=
  match fuel with
  | O => None
  | S fuel =>
    let '(status, entry) := call size in
    match next_nss_buffer status size with
    | Some next => nss_loop fuel call next
    | None => if negb (status =? 0) then None else entry
    end
  end.
(** The buffer doubles ten times from its first to its last size. *)
Definition nss_fuel : nat := 11.

Section Worker.
(** [getpwnam_r] and [getpwuid_r]. *)
Context (getpwnam : list byte → Z → Z * option Z) (getpwuid : Z → Z → Z * option (list byte)).

Definition username_uid (username : list byte) : option Z :=
  if contains_nul username then None else nss_loop nss_fuel (getpwnam username) INITIAL_NSS_BUFFER.

Definition username_for_uid (uid : Z) : option rstring :=
  nss_loop nss_fuel (getpwuid uid) INITIAL_NSS_BUFFER ≫= λ name, decode (c_string name).

(** What [pam_start], the stack, [pam_get_user] and [pam_end] do in an
    attempt. *)
Record PamAttempt := mkAttempt {
  started : bool;
  stack : pam;
  pam_user : option (list byte);
  ended : Z;
}.

Definition bounded_username (username : list byte) : option (list byte) :=
  let bytes := c_string username in
  if MAX_USERNAME_BYTES <? blen bytes then None else Some bytes.

Definition pam_uid (t : PamAttempt) : option Z :=
  pam_user t ≫= λ username, bounded_username username ≫= username_uid.

Definition authenticate (username : rstring) (uid : Z) (t : PamAttempt) (v : PamConversation) :
    PamConversation * bool :=
  if contains_nul (encode username) || negb (started t) then (v, false)
  else
    let '(v, status) := pam_authenticate (stack t) v in
    let same_user := (status =? PAM_SUCCESS) && bool_decide (pam_uid t = Some uid) in
    (v, same_user && (ended t =? PAM_SUCCESS)).

(** The loop of [run]; [attempts n] is what PAM does in the [n]th attempt.
    Every turn but the last consumes a message. *)
Context (attempts : nat → PamAttempt).

Fixpoint attempt_loop (fuel n : nat) (username : rstring) (uid : Z) (c : Connection) :
    Connection * bool :=
  match fuel with
  | O => (c, false)
  | S fuel =>
    let '(v, ok) := authenticate username uid (attempts n) (mkPam c 1 false) in
    if ok && negb (cancelled v) then send Success (connection v)
    else
      let '(c, sent) := send Failure (connection v) in
      if negb sent then (c, false)
      else
        let '(c, message) := receive c in
        match message with
        | Some Retry => attempt_loop fuel (S n) username uid c
        | Some Cancel => (c, true)
        | _ => (c, false)
        end
  end.

Definition await_begin (c : Connection) : Connection * bool :=
  let '(c, message) := receive c in (c, bool_decide (message = Some Begin)).

(** [run]; [prepared]: the arguments, the parent, the descriptors and the
    real and effective identities are as they must be. *)
Definition run (prepared : bool) (uid : Z) (c : Connection) : Connection * bool :=
  if negb prepared then (c, false)
  else
    match username_for_uid uid with
    | None => (c, false)
    | Some username =>
      let '(c, sent) := send (Ready uid username) c in
      if negb sent then (c, false)
      else
        let '(c, begun) := await_begin c in
        if negb begun then (c, false)
        else attempt_loop (S (length (inbox c))) 0 username uid c
    end.

End Worker.

(** ** The client's reader *)

Inductive Event :=
| EventPrompt (id : Z) (secret : bool) (text : rstring)
| EventNotice (error : bool) (text : rstring)
| EventSuccess
| EventFailure.

(** [read_worker] and [send_terminal]: [incoming] is what [receive] returns,
    [accepted] whether the event channel still takes each event, [clean_exit]
    what waiting for the worker reports.  The events sent, and whether the
    worker was killed before it was reaped. *)
Fixpoint read_worker (incoming : list (option Message)) (accepted : list bool) (clean_exit : bool)
    (events : list Event) : list Event * bool :=
  let publish e := match accepted with false :: _ => None | _ => Some (events ++ [e]) end in
  let stop := (match accepted with false :: _ => events | _ => events ++ [EventFailure] end, true) in
  let dropped := (events, true) in
  match incoming with
  | Some (Prompt id secret text) :: incoming =>
    match publish (EventPrompt id secret text) with
    | Some events => read_worker incoming (tail accepted) clean_exit events
    | None => dropped
    end
  | Some (Info text) :: incoming =>
    match publish (EventNotice false text) with
    | Some events => read_worker incoming (tail accepted) clean_exit events
    | None => dropped
    end
  | Some (Error text) :: incoming =>
    match publish (EventNotice true text) with
    | Some events => read_worker incoming (tail accepted) clean_exit events
    | None => dropped
    end
  | Some Failure :: incoming =>
    match publish EventFailure with
    | Some events => read_worker incoming (tail accepted) clean_exit events
    | None => dropped
    end
  | Some Success :: _ =>
    (match publish (if clean_exit then EventSuccess else EventFailure) with
     | Some events => events
     | None => events
     end, false)
  | _ => stop
  end.

(** *** The name service's buffer *)

Lemma nss_loop_last {A} (call : Z → Z * option A) fuel size : MAX_NSS_BUFFER ≤ size →
  nss_loop (S fuel) call size = nss_loop 1 call size.
Proof.
  intros H. cbn [nss_loop]. destruct (call size) as [status entry]. unfold next_nss_buffer.
  by rewrite (proj2 (Z.ltb_ge _ _)), andb_false_r by done.
Qed.

Lemma nss_loop_step {A} (call : Z → Z * option A) fuel fuel' size :
  nss_loop fuel call (Z.min (size * 2) MAX_NSS_BUFFER) = nss_loop fuel' call (Z.min (size * 2) MAX_NSS_BUFFER) →
  nss_loop (S fuel) call size = nss_loop (S fuel') call size.
Proof.
  intros H. cbn [nss_loop]. destruct (call size) as [status entry]. unfold next_nss_buffer.
  by destruct (_ && _).
Qed.

(** More fuel changes nothing: the last size is reached first. *)
Lemma nss_fuel_enough {A} (call : Z → Z * option A) fuel :
  nss_loop (nss_fuel + fuel) call INITIAL_NSS_BUFFER = nss_loop nss_fuel call INITIAL_NSS_BUFFER.
Proof.
  unfold nss_fuel. cbn [Nat.add].
  do 10 (apply nss_loop_step; match goal with
    |- context [Z.min ?a ?b] => let z := eval vm_compute in (Z.min a b) in change (Z.min a b) with z end).
  rewrite !nss_loop_last; done.
Qed.

(** ** The grammar of a worker's conversation *)

Definition cancels (e : io) : bool := match e with Received Cancel => true | _ => false end.

(** An attempt's messages from prompt number [k] on: notices, and prompts
    numbered one after the other, each followed by what was received; a prompt
    that could not be sent uses its number up. *)
Inductive dialog : Z → list io → Z → Prop :=
| dialog_done k : dialog k [] k
| dialog_info k text es k' : clean_text text → dialog k es k' → dialog k (Sent (Info text) :: es) k'
| dialog_error k text es k' : clean_text text → dialog k es k' → dialog k (Sent (Error text) :: es) k'
| dialog_lost k es k' : k ≤ MAX_MESSAGES → dialog (k + 1) es k' → dialog k es k'
| dialog_prompt k secret text reply es k' :
  k ≤ MAX_MESSAGES → clean_text text → dialog (k + 1) es k' →
  dialog k (Sent (Prompt k secret text) :: (Received <$> option_list reply) ++ es) k'.

Section Grammar.
Context (getpwnam : list byte → Z → Z * option Z) (getpwuid : Z → Z → Z * option (list byte))
  (attempts : nat → PamAttempt) (uid : Z).

(** PAM accepted the user in an attempt that began with connection [c] and
    left the conversation in [v]: it was started, the stack returned success
    after this conversation, the user it authenticated is the worker's own, and
    it ended in success. *)
Definition accepts (t : PamAttempt) (c : Connection) (v : PamConversation) : Prop :=
  started t = true ∧ pam_authenticate (stack t) (mkPam c 1 false) = (v, PAM_SUCCESS)
  ∧ pam_uid getpwnam t = Some uid ∧ ended t = PAM_SUCCESS.
Definition granted (t : PamAttempt) (es : list io) : Prop :=
  ∃ c v, accepts t c v ∧ trace (connection v) = trace c ++ es.

(** The connection of a worker that has greeted and was told to begin. *)
Definition begun (c : Connection) (username : rstring) (c0 : Connection) : Prop :=
  username_for_uid getpwuid uid = Some username
  ∧ ∃ c1, send (Ready uid username) c = (c1, true) ∧ receive c1 = (c0, Some Begin).

(** The connection with which attempt number [n] begins: the attempts before
    it failed or were cancelled, and the locker asked for another one. *)
Inductive begins (username : rstring) (c0 : Connection) : nat → Connection → Prop :=
| begins_first : begins username c0 0 c0
| begins_next n c v ok c1 c2 :
  begins username c0 n c →
  authenticate getpwnam username uid (attempts n) (mkPam c 1 false) = (v, ok) →
  ok && negb (cancelled v) = false →
  send Failure (connection v) = (c1, true) → receive c1 = (c2, Some Retry) →
  begins username c0 (S n) c2.

(** The life of a worker from connection [c] to connection [final] came to an
    attempt, number [n], that PAM accepted and nobody cancelled, and reporting
    it was the last thing the worker did. *)
Definition accepted_attempt (c : Connection) (n : nat) (final : Connection) : Prop :=
  ∃ username c0 cn v es, begun c username c0 ∧ begins username c0 n cn
    ∧ accepts (attempts n) cn v
    ∧ trace (connection v) = trace cn ++ es ∧ existsb cancels es = false
    ∧ send Success (connection v) = (final, true).

(** The attempts from number [n] on, and whether the worker ends well. *)
Inductive attempts_trace : nat → list io → bool → Prop :=
| trace_success n es k :
  dialog 1 es k → existsb cancels es = false → granted (attempts n) es →
  attempts_trace n (es ++ [Sent Success]) true
| trace_lost n es k : dialog 1 es k → attempts_trace n es false
| trace_retry n es k rest ok :
  dialog 1 es k → attempts_trace (S n) rest ok →
  attempts_trace n (es ++ Sent Failure :: Received Retry :: rest) ok
| trace_cancel n es k :
  dialog 1 es k → attempts_trace n (es ++ [Sent Failure; Received Cancel]) true
| trace_stop n es k reply :
  dialog 1 es k → reply ≠ Some Retry → reply ≠ Some Cancel →
  attempts_trace n (es ++ Sent Failure :: (Received <$> option_list reply)) false.

(** The whole life of a worker. *)
Inductive worker_trace : list io → bool → Prop :=
| worker_unready : worker_trace [] false
| worker_unwanted username reply :
  username_for_uid getpwuid uid = Some username → reply ≠ Some Begin →
  worker_trace (Sent (Ready uid username) :: (Received <$> option_list reply)) false
| worker_begun username es ok :
  username_for_uid getpwuid uid = Some username → attempts_trace 0 es ok →
  worker_trace (Sent (Ready uid username) :: Received Begin :: es) ok.

(** *** Texts *)

Lemma utf8_first_Some bs c k : utf8_first bs = Some (c, k) →
  is_scalar c = true ∧ encode_char c = take k bs.
Proof using.
  unfold utf8_first. intros H. assert ((c, k) ∈ omap (utf8_try bs) [1; 2; 3; 4]%nat) as Hin.
  { destruct (omap _ _) as [|x l]; [discriminate H|]. injection H as ->. by left. }
  apply list_elem_of_omap in Hin as (j & _ & Hj). unfold utf8_try in Hj.
  destruct (j <=? length bs)%nat; [|done]. destruct (decode (take j bs)) as [[|x []]|] eqn:E; try done.
  injection Hj as -> ->. apply decode_sound in E as [E Hx]. apply Forall_cons in Hx as [Hx _].
  split; [done|]. rewrite <- E. cbn. by rewrite app_nil_r.
Qed.

Lemma contains_nul_suffix a b : contains_nul (a ++ b) = contains_nul a || contains_nul b.
Proof using. unfold contains_nul. apply existsb_app. Qed.

Lemma contains_nul_take_drop n bs : contains_nul bs = false →
  contains_nul (take n bs) = false ∧ contains_nul (drop n bs) = false.
Proof using. rewrite <- (take_drop n bs) at 1. rewrite contains_nul_suffix. by intros [??]%orb_false_iff. Qed.

Lemma lossy_clean fuel : ∀ bs, contains_nul bs = false →
  wf_string (lossy fuel bs) ∧ contains_nul (encode (lossy fuel bs)) = false.
Proof using.
  induction fuel as [|fuel IH]; intros bs Hb; [by split|]. cbn [lossy].
  destruct bs as [|b bs']; [by split|]. set (bs := b :: bs') in *.
  assert (∀ c s, wf_string s ∧ contains_nul (encode s) = false → is_scalar c = true →
    contains_nul (encode_char c) = false → wf_string (c :: s) ∧ contains_nul (encode (c :: s)) = false) as Hcons.
  { intros c s [Hw Hn] Hc Hnc. split; [by constructor|].
    change (encode (c :: s)) with (encode_char c ++ encode s). by rewrite contains_nul_suffix, Hnc, Hn. }
  destruct (utf8_first bs) as [[c k]|] eqn:E.
  - apply utf8_first_Some in E as [Hc E]. destruct (contains_nul_take_drop k bs Hb) as [? Hd].
    apply Hcons; [by apply IH|done|by rewrite E].
  - destruct (contains_nul_take_drop (invalid_length bs) bs Hb) as [_ Hd].
    apply Hcons; [by apply IH|by vm_compute|by vm_compute].
Qed.

Lemma c_string_clean bs : contains_nul (c_string bs) = false.
Proof using.
  induction bs as [|b bs IH]; [done|]. cbn [c_string]. destruct (u8 b =? 0) eqn:E; [done|].
  unfold contains_nul in *. cbn [existsb]. by rewrite E.
Qed.

Lemma pop_while_long_spec fuel : ∀ s, (length s ≤ fuel)%nat →
  pop_while_long fuel s `prefix_of` s ∧ str_len (pop_while_long fuel s) ≤ MAX_MESSAGE_BYTES.
Proof using.
  induction fuel as [|fuel IH]; intros s Hs; cbn [pop_while_long].
  - destruct s; [split; [done|vm_compute; congruence]|cbn in Hs; lia].
  - destruct (Z.ltb_spec MAX_MESSAGE_BYTES (str_len s)); [|by split].
    destruct (IH (take (length s - 1) s)) as [Hp Hl].
    { rewrite length_take. destruct s; cbn in *; [vm_compute in H; congruence|lia]. }
    split; [|done]. etransitivity; [exact Hp|]. apply prefix_take.
Qed.

Lemma bounded_message_clean m text : bounded_message m = Some text → clean_text text.
Proof using.
  unfold bounded_message. destruct (_ <? _); [done|]. intros [= <-].
  destruct (lossy_clean (length (c_string m)) (c_string m) (c_string_clean m)) as [Hw Hn].
  fold (from_utf8_lossy (c_string m)) in Hw, Hn. set (s := from_utf8_lossy (c_string m)) in *.
  destruct (pop_while_long_spec (length s) s ltac:(lia)) as [[r E] Hl]. rewrite E in Hw, Hn at 1.
  rewrite encode_app, contains_nul_suffix in Hn. apply Forall_app in Hw as [Hw _].
  apply orb_false_iff in Hn as [Hn _]. done.
Qed.

(** *** One conversation *)

(** A step of the conversation says [es] and reads part of the inbox. *)
Definition talks (v v' : PamConversation) : Prop :=
  ∃ es, trace (connection v') = trace (connection v) ++ es
    ∧ dialog (next_id v) es (next_id v')
    ∧ cancelled v' = cancelled v || existsb cancels es
    ∧ inbox (connection v') `suffix_of` inbox (connection v).

Lemma dialog_app k es k' es' k'' : dialog k es k' → dialog k' es' k'' → dialog k (es ++ es') k''.
Proof using.
  induction 1; intros Hd; cbn [app]; rewrite <- ?app_assoc.
  - done.
  - apply dialog_info; auto.
  - apply dialog_error; auto.
  - apply dialog_lost; auto.
  - apply dialog_prompt; auto.
Qed.

Lemma talks_refl v : talks v v.
Proof using. exists []. rewrite app_nil_r, orb_false_r. split_and!; try done. constructor. Qed.

Lemma talks_trans v1 v2 v3 : talks v1 v2 → talks v2 v3 → talks v1 v3.
Proof using.
  intros (es & E & Hd & Hc & Hi) (es' & E' & Hd' & Hc' & Hi'). exists (es ++ es').
  rewrite E', E, <- app_assoc, existsb_app, Hc', Hc, <- orb_assoc. split_and!; try done.
  - by eapply dialog_app.
  - by etransitivity.
Qed.

Lemma send_trace m c : let '(c', sent) := send m c in
  trace c' = trace c ++ (if sent then [Sent m] else []) ∧ inbox c' = inbox c.
Proof using.
  unfold send. destruct (sendable m); cbn; [|by rewrite app_nil_r].
  destruct (outcomes c) as [|[] os]; cbn; by rewrite ?app_nil_r.
Qed.

Lemma receive_trace c : let '(c', message) := receive c in
  trace c' = trace c ++ (Received <$> option_list message) ∧ inbox c' `suffix_of` inbox c
  ∧ (∀ m, message = Some m → (length (inbox c') < length (inbox c))%nat).
Proof using.
  unfold receive. destruct (inbox c) as [|[m|] ms] eqn:E; cbn; rewrite ?E, ?app_nil_r.
  - by split_and!.
  - split_and!; [done|by apply suffix_cons_r|intros; cbn; lia].
  - split_and!; [done|by apply suffix_cons_r|done].
Qed.

Lemma notice_talks text error v : clean_text text → talks v (notice text error v).
Proof using.
  intros Ht. unfold notice. pose proof (send_trace (if error then Error text else Info text) (connection v)) as H.
  destruct (send _ _) as [c sent]. destruct H as [E Ei].
  exists (if sent then [Sent (if error then Error text else Info text)] else []). cbn.
  split_and!; [done| | |by rewrite Ei].
  - destruct sent; [|apply dialog_done].
    destruct error; [apply dialog_error|apply dialog_info]; (done || apply dialog_done).
  - destruct sent, error; by rewrite orb_false_r.
Qed.

Lemma prompt_talks text secret v : clean_text text → talks v (fst (prompt text secret v)).
Proof using.
  intros Ht. unfold prompt. destruct (Z.ltb_spec MAX_MESSAGES (next_id v)); [apply talks_refl|].
  pose proof (send_trace (Prompt (next_id v) secret text) (connection v)) as Hs.
  destruct (send _ _) as [c sent]. destruct Hs as [E Ei]. destruct sent; cbn [negb].
  2: { exists []. cbn. rewrite orb_false_r, E. split_and!; [done| |done|by rewrite Ei].
       apply dialog_lost; [done|constructor]. }
  cbn [connection]. pose proof (receive_trace c) as Hr. destruct (receive c) as [c' message].
  destruct Hr as (E' & Hi & _).
  assert (talks v (mkPam c' (next_id v + 1) (cancelled v || existsb cancels (Received <$> option_list message)))) as Htalk.
  { exists (Sent (Prompt (next_id v) secret text) :: (Received <$> option_list message) ++ []). cbn.
    rewrite app_nil_r. split_and!.
    - by rewrite E', E, <- app_assoc.
    - rewrite <- (app_nil_r (Received <$> _)). apply dialog_prompt; [done|done|constructor].
    - done.
    - by rewrite <- Ei. }
  destruct message as [[]|]; cbn [fst] in *; rewrite ?orb_false_r, ?orb_true_r in Htalk; exact Htalk.
Qed.

Lemma answer_talks ms : ∀ mallocs v slots, talks v (fst (answer ms mallocs v slots)).
Proof using.
  induction ms as [|[[[text|] style]|] ms IH]; intros mallocs v slots; cbn [answer]; try apply talks_refl.
  destruct (bounded_message text) as [t|] eqn:E; [|apply talks_refl].
  apply bounded_message_clean in E. destruct (_ || _).
  - pose proof (prompt_talks t (style =? PAM_PROMPT_ECHO_OFF) v E) as Hp.
    destruct (prompt _ _ _) as [v' [secret|]]; [|exact Hp]. cbn [fst] in Hp.
    destruct mallocs as [|[] mallocs]; cbn [tail]; try exact Hp; by eapply talks_trans.
  - destruct (_ =? _); [eapply talks_trans; [by apply notice_talks|apply IH]|].
    destruct (_ =? _); [eapply talks_trans; [by apply notice_talks|apply IH]|]. apply talks_refl.
Qed.

Lemma conversation_talks c v : talks v (fst (pam_conversation c v)).
Proof using.
  unfold pam_conversation. destruct (messages c) as [ms|]; [|apply talks_refl].
  destruct (_ || _); [apply talks_refl|].
  pose proof (answer_talks (take (Z.to_nat (count c)) ms) (mallocs c) v []) as H.
  by destruct (answer _ _ _ _) as [v' [slots|]].
Qed.

Lemma pam_talks p : ∀ v, talks v (fst (pam_authenticate p v)).
Proof using.
  induction p as [status|c k IH]; intros v; cbn [pam_authenticate]; [apply talks_refl|].
  pose proof (conversation_talks c v) as H. destruct (pam_conversation c v) as [v' r].
  eapply talks_trans; [exact H|apply IH].
Qed.

(** *** One attempt *)

Lemma authenticate_talks username t c :
  let '(v, ok) := authenticate getpwnam username uid t (mkPam c 1 false) in
  ∃ es, trace (connection v) = trace c ++ es
    ∧ dialog 1 es (next_id v) ∧ cancelled v = existsb cancels es
    ∧ inbox (connection v) `suffix_of` inbox c ∧ (ok = true → accepts t c v).
Proof using.
  unfold authenticate. destruct (contains_nul (encode username) || negb (started t)) eqn:Es.
  { destruct (talks_refl (mkPam c 1 false)) as (es & ? & ? & ? & ?). by exists es. }
  pose proof (pam_talks (stack t) (mkPam c 1 false)) as H.
  destruct (pam_authenticate (stack t) _) as [v status] eqn:E. destruct H as (es & Et & ? & ? & ?).
  exists es. split_and!; try done. intros Hok. simp_bool. by split_and!; subst.
Qed.

(** *** The loop of attempts *)

Lemma attempt_loop_trace username fuel : ∀ n c,
  let '(c', ok) := attempt_loop getpwnam attempts fuel n username uid c in
  (length (inbox c) < fuel)%nat → ∃ es, trace c' = trace c ++ es ∧ attempts_trace n es ok.
Proof using.
  induction fuel as [|fuel IH]; intros n c; [intros H; lia|]. cbn [attempt_loop].
  pose proof (authenticate_talks username (attempts n) c) as Ha.
  destruct (authenticate _ _ _ _ _) as [v ok]. destruct Ha as (es & Et & Hd & Hc & Hi & Hg).
  destruct (ok && negb (cancelled v)) eqn:Eok.
  - simp_bool. pose proof (send_trace Success (connection v)) as Hs.
    destruct (send Success _) as [c' sent]. destruct Hs as [E' _]. intros _.
    rewrite Hc in *. destruct sent.
    + exists (es ++ [Sent Success]). rewrite E', Et, app_assoc. split; [done|]. eapply trace_success; [done|done|by exists c, v; auto].
    + exists es. rewrite E', Et, app_nil_r. split; [done|]. by eapply trace_lost.
  - clear Eok Hg. pose proof (send_trace Failure (connection v)) as Hs.
    destruct (send Failure _) as [c1 sent]. destruct Hs as [E1 Ei1]. destruct sent; cbn [negb].
    2: { intros _. exists es. rewrite E1, Et, app_nil_r. split; [done|]. by eapply trace_lost. }
    pose proof (receive_trace c1) as Hr. destruct (receive c1) as [c2 message]. destruct Hr as (E2 & _ & Hlt).
    assert (trace c2 = trace c ++ es ++ Sent Failure :: (Received <$> option_list message)) as E.
    { by rewrite E2, E1, Et, <- !app_assoc. }
    assert (message ≠ Some Retry → message ≠ Some Cancel → (length (inbox c) < S fuel)%nat →
      ∃ es', trace c2 = trace c ++ es' ∧ attempts_trace n es' false) as Hstop.
    { intros H1 H2 _. eexists. split; [exact E|]. by eapply trace_stop. }
    destruct message as [[]|]; try (apply Hstop; discriminate).
    + intros _. eexists. split; [exact E|]. by eapply trace_cancel.
    + specialize (IH (S n) c2). destruct (attempt_loop _ _ _ _ _ _ _) as [c' ok'].
      intros Hf. destruct IH as (rest & Er & Ha).
      { specialize (Hlt Retry eq_refl). apply suffix_length in Hi. rewrite Ei1 in Hlt. lia. }
      eexists. split; [by rewrite Er, E, <- app_assoc|]. cbn. rewrite <- app_assoc. cbn.
      by eapply trace_retry.
Qed.

Lemma run_trace prepared c : trace c = [] →
  worker_trace (trace (fst (run getpwnam getpwuid attempts prepared uid c)))
    (snd (run getpwnam getpwuid attempts prepared uid c)).
Proof using.
  intros Hc. unfold run. destruct prepared; cbn [negb fst snd]; [|rewrite Hc; constructor].
  destruct (username_for_uid getpwuid uid) as [username|] eqn:Eu; [|cbn; rewrite Hc; constructor].
  pose proof (send_trace (Ready uid username) c) as Hs. destruct (send _ c) as [c1 sent].
  destruct Hs as [E1 _]. rewrite Hc in E1. destruct sent; cbn [negb]; [|cbn; rewrite E1; constructor].
  unfold await_begin. pose proof (receive_trace c1) as Hr. destruct (receive c1) as [c2 message].
  destruct Hr as (E2 & _ & _). rewrite E1 in E2. case_bool_decide as Em; cbn [negb].
  - subst message. pose proof (attempt_loop_trace username (S (length (inbox c2))) 0 c2) as H.
    destruct (attempt_loop _ _ _ _ _ _ _) as [c3 ok]. destruct (H ltac:(lia)) as (es & E3 & Ha).
    cbn [fst snd]. rewrite E3, E2. by apply worker_begun.
  - cbn [fst snd]. rewrite E2. by apply worker_unwanted.
Qed.

End Grammar.

(** ** Success *)

Lemma dialog_no_success k es k' : dialog k es k' → Sent Success ∉ es.
Proof.
  induction 1 as [| | | |k secret text reply es k' _ _ _ IH]; rewrite ?not_elem_of_cons; try done.
  - by apply not_elem_of_nil.
  - split; [done|]. rewrite not_elem_of_app. split; [|done]. destruct reply; cbn; [|by apply not_elem_of_nil].
    by intros ?%list_elem_of_singleton.
Qed.

(** The event of a message that does not end the reader. *)
Definition event_of (m : Message) : option Event :=
  match m with
  | Prompt id secret text => Some (EventPrompt id secret text)
  | Info text => Some (EventNotice false text)
  | Error text => Some (EventNotice true text)
  | Failure => Some EventFailure
  | _ => None
  end.

Lemma read_worker_success incoming clean : ∀ accepted events,
  EventSuccess ∈ fst (read_worker incoming accepted clean events) →
  EventSuccess ∈ events ∨ clean = true ∧ Some Success ∈ incoming.
Proof.
  assert (∀ (l : list Event) e, EventSuccess ∈ l ++ [e] → EventSuccess ∈ l ∨ e = EventSuccess) as Hsnoc.
  { intros l e [H|H%list_elem_of_singleton]%elem_of_app; auto. }
  induction incoming as [|o incoming IH]; intros accepted events; cbn [read_worker].
  - destruct accepted as [|[] ?]; cbn; auto; intros [?|?]%Hsnoc; auto; done.
  - assert (∀ e, e ≠ EventSuccess → EventSuccess ∈ fst
      match (match accepted with false :: _ => None | _ => Some (events ++ [e]) end) with
      | Some events => read_worker incoming (tail accepted) clean events
      | None => (events, true)
      end → EventSuccess ∈ events ∨ clean = true ∧ Some Success ∈ o :: incoming) as Hgo.
    { intros e He. destruct accepted as [|[] accepted]; cbn [tail]; try (by left);
        (intros [H|[? H]]%IH; [apply Hsnoc in H as [H|H]; [by left|done]|right; split; [done|by right]]). }
    assert (EventSuccess ∈ fst (match accepted with false :: _ => events | _ => events ++ [EventFailure] end, true) →
      EventSuccess ∈ events ∨ clean = true ∧ Some Success ∈ o :: incoming) as Hstop.
    { destruct accepted as [|[] accepted]; cbn; auto; intros [?|?]%Hsnoc; auto; done. }
    destruct o as [[]|]; try exact Hstop; try (by apply Hgo).
    cbn [fst]. destruct accepted as [|[] accepted]; cbn; auto; intros [?|E]%Hsnoc; auto;
      destruct clean; try done; right; (split; [done|by left]).
Qed.

(** ** Properties *)

(** C28.  The worker keeps to its protocol whatever PAM and the locker do: it
    first names its own user and waits to be told to begin; every attempt
    numbers its prompts from one, at most [MAX_MESSAGES] of them, and all texts
    it sends are clean, so that they are encoded and decoded unchanged; a
    failure is followed by another attempt only on a retry; success ends it. *)
Theorem worker_follows_protocol getpwnam getpwuid attempts prepared uid inbox outcomes :
  worker_trace getpwnam getpwuid attempts uid
    (trace (fst (run getpwnam getpwuid attempts prepared uid (mkConnection inbox outcomes []))))
    (snd (run getpwnam getpwuid attempts prepared uid (mkConnection inbox outcomes []))).
Proof. by apply run_trace. Qed.

(** The locker's reader turns what the worker says into events in order
    and ends with exactly one verdict: success if the worker reported it and
    then exited cleanly, failure in every other case, the worker being killed
    when it broke the protocol or went away. *)
Theorem read_worker_events talk rest clean :
  Forall (λ m, is_Some (event_of m)) talk →
  (∀ m l, rest = Some m :: l → event_of m = None) →
  read_worker ((Some <$> talk) ++ rest) [] clean []
  = (omap event_of talk ++ [if bool_decide (head rest = Some (Some Success)) && clean then EventSuccess
                            else EventFailure],
     negb (bool_decide (head rest = Some (Some Success)))).
Proof.
  intros Ht Hr.
  assert (∀ events, read_worker ((Some <$> talk) ++ rest) [] clean events
    = (events ++ omap event_of talk ++ [if bool_decide (head rest = Some (Some Success)) && clean then EventSuccess
         else EventFailure], negb (bool_decide (head rest = Some (Some Success))))) as H; [|apply H].
  induction talk as [|m talk IH]; intros events.
  - cbn [fmap list_fmap omap list_omap app]. destruct rest as [|[m|] l]; [done| |done].
    specialize (Hr m l eq_refl). destruct m; try discriminate Hr; by cbn; destruct clean.
  - apply Forall_cons in Ht as [Hm Ht]. specialize (IH Ht).
    destruct m; try (by destruct Hm); cbn; rewrite IH; cbn; by rewrite <- app_assoc.
Qed.

Lemma read_worker_events_witness :
  read_worker [Some (Info (str "hi")); Some (Prompt 1 true (str "PIN")); Some Success] [] true []
  = ([EventNotice false (str "hi"); EventPrompt 1 true (str "PIN"); EventSuccess], false).
Proof.
  refine (read_worker_events [Info (str "hi"); Prompt 1 true (str "PIN")] [Some Success] true _ _).
  - repeat constructor; by eexists.
  - by intros m l [= <- _].
Defined.

Definition sent_messages (es : list io) : list Message :=
  omap (λ e, match e with Sent m => Some m | Received _ => None end) es.

(** The events of a reader that is fed with a worker's messages after the
    greeting, and with its exit. *)
Definition heard (r : Connection * bool) (accepted : list bool) : list Event :=
  fst (read_worker (Some <$> sent_messages (drop 1 (trace (fst r)))) accepted (snd r) []).

Lemma heard_success r accepted : EventSuccess ∈ heard r accepted → Sent Success ∈ trace (fst r).
Proof.
  unfold heard. intros [Hin|[_ Hin]]%read_worker_success; [by apply elem_of_nil in Hin|].
  apply list_elem_of_fmap in Hin as (m & [= <-] & Hin).
  apply list_elem_of_omap in Hin as ([m|m] & Hin & [= ->]).
  rewrite <- (take_drop 1 (trace (fst r))). apply elem_of_app. by right.
Qed.

Section Accepted.
Context (getpwnam : list byte → Z → Z * option Z) (getpwuid : Z → Z → Z * option (list byte))
  (attempts : nat → PamAttempt) (uid : Z).

Lemma attempt_loop_accepted username c0 fuel : ∀ n c,
  begins getpwnam attempts uid username c0 n c →
  let '(c', _) := attempt_loop getpwnam attempts fuel n username uid c in
  Sent Success ∈ trace c' → Sent Success ∈ trace c
  ∨ ∃ m cm v es, begins getpwnam attempts uid username c0 m cm ∧ accepts getpwnam uid (attempts m) cm v
      ∧ trace (connection v) = trace cm ++ es ∧ existsb cancels es = false
      ∧ send Success (connection v) = (c', true).
Proof using.
  induction fuel as [|fuel IH]; intros n c Hb; cbn [attempt_loop]; [by left|].
  pose proof (authenticate_talks getpwnam uid username (attempts n) c) as Ha.
  destruct (authenticate _ _ _ _ _) as [v ok] eqn:Eauth. destruct Ha as (es & Et & Hd & Hc & _ & Hg).
  assert (∀ m l, Sent Success ∈ trace (connection v) ++ m :: l → m ≠ Sent Success → Sent Success ∉ l →
    Sent Success ∈ trace c) as Hold.
  { rewrite Et. intros m l [[H|H]%elem_of_app|[H|H]%elem_of_cons]%elem_of_app Hm Hl; try done.
    by apply (dialog_no_success _ _ _ Hd) in H. }
  destruct (ok && negb (cancelled v)) eqn:Eok.
  - simp_bool. destruct (send Success (connection v)) as [c' []] eqn:Es.
    + intros _. right. rewrite Hc in *. by exists n, c, v, es; split_and!; [|apply Hg| | |].
    + pose proof (send_trace Success (connection v)) as Hs. rewrite Es, app_nil_r in Hs. destruct Hs as [-> _].
      intros Hin. left. apply (Hold (Sent Failure) []); [|done|by apply not_elem_of_nil].
      apply elem_of_app. by left.
  - pose proof (send_trace Failure (connection v)) as Hs.
    destruct (send Failure (connection v)) as [c1 []] eqn:Ef; destruct Hs as [E1 _]; cbn [negb].
    2: { rewrite E1, app_nil_r. intros H. left. apply (Hold (Sent Failure) []); [|done|by apply not_elem_of_nil].
         apply elem_of_app. by left. }
    pose proof (receive_trace c1) as Hr. destruct (receive c1) as [c2 message] eqn:Er. destruct Hr as (E2 & _).
    assert (Sent Success ∈ trace c2 → Sent Success ∈ trace c) as Hc2.
    { rewrite E2, E1, <- app_assoc. cbn. intros H. apply (Hold _ _ H); [done|].
      destruct message; cbn; [by intros ?%list_elem_of_singleton|by apply not_elem_of_nil]. }
    destruct message as [[]|]; try (intros H; left; by apply Hc2).
    specialize (IH (S n) c2). destruct (attempt_loop _ _ _ _ _ _ _) as [c' ok'].
    intros H. destruct IH as [H'|H']; [by eapply begins_next|done|left; by apply Hc2|by right].
Qed.

(** From PAM to the locker: if the reader, fed with what a worker sends
    after its greeting and with that worker's exit, reports success, then in
    one of the worker's attempts, after the conversation that this worker held
    up to there, the stack returned success, the user it authenticated has the
    worker's own user id, PAM ended without an error, and nobody cancelled the
    attempt; the report was the worker's last word. *)
Theorem unlock_needs_pam prepared inbox outcomes r accepted :
  run getpwnam getpwuid attempts prepared uid (mkConnection inbox outcomes []) = r →
  EventSuccess ∈ heard r accepted →
  ∃ n, accepted_attempt getpwnam getpwuid attempts uid (mkConnection inbox outcomes []) n (fst r).
Proof using.
  intros <- Hin%heard_success. revert Hin. unfold run.
  destruct prepared; cbn [negb fst]; [|by intros ?%elem_of_nil].
  destruct (username_for_uid getpwuid uid) as [username|] eqn:Eu; [|by intros ?%elem_of_nil].
  pose proof (send_trace (Ready uid username) (mkConnection inbox outcomes [])) as Hs.
  destruct (send _ _) as [c1 []] eqn:Es; destruct Hs as [E1 _]; cbn [negb fst].
  2: { rewrite E1. by intros ?%elem_of_nil. }
  unfold await_begin. pose proof (receive_trace c1) as Hr. destruct (receive c1) as [c2 message] eqn:Er.
  destruct Hr as (E2 & _). rewrite E1 in E2. cbn in E2.
  assert (Sent Success ∉ trace c2) as Hno.
  { rewrite E2. intros [|H]%elem_of_cons; [done|]. destruct message; cbn in H;
      [by apply list_elem_of_singleton in H|by apply elem_of_nil in H]. }
  case_bool_decide as Em; cbn [negb fst]; [|done]. subst message.
  pose proof (attempt_loop_accepted username c2 (S (length (LockWorker.inbox c2))) 0 c2
    (begins_first _ _ _ _ _)) as H.
  destruct (attempt_loop _ _ _ _ _ _ _) as [c3 ok]. intros Hin.
  destruct (H Hin) as [?|(n & cm & v & es & Hb & Ha & Et & Hc & Hsend)]; [done|].
  exists n, username, c2, cm, v, es. split_and!; try done. split; [done|]. by exists c1.
Qed.

End Accepted.

(** An attempt in which the user is asked for a password. *)
Definition example_stack : pam :=
  PamConverse (mkCall 1 (Some [Some (mkMessage (Some (bytes_of "Password: ")) PAM_PROMPT_ECHO_OFF)])
                 false false true [])
    (λ r, PamReturn (match snd r with
                     | Some [Some answer] =>
                       if bool_decide (answer = bytes_of "sesame" ++ [Byte.x00]) then PAM_SUCCESS else 7
                     | _ => PAM_CONV_ERR
                     end)).
Definition example_attempt : PamAttempt := mkAttempt true example_stack (Some (bytes_of "ada")) PAM_SUCCESS.
Definition example_getpwnam (name : list byte) (size : Z) : Z * option Z :=
  if bool_decide (name = bytes_of "ada") then if size <? 4096 then (ERANGE, None) else (0, Some 1000)
  else (0, None).
Definition example_getpwuid (uid size : Z) : Z * option (list byte) :=
  if uid =? 1000 then (0, Some (bytes_of "ada")) else (0, None).

(** A wrong password, a retry, and the right one. *)
Lemma unlock_needs_pam_witness :
  let r := run example_getpwnam example_getpwuid (λ _, example_attempt) true 1000
    (mkConnection [Some Begin; Some (Response 1 (bytes_of "mellon")); Some Retry;
                   Some (Response 1 (bytes_of "sesame"))] [] []) in
  heard r [] = [EventPrompt 1 true (str "Password: "); EventFailure; EventPrompt 1 true (str "Password: "); EventSuccess]
  ∧ ∃ n, accepted_attempt example_getpwnam example_getpwuid (λ _, example_attempt) 1000
      (mkConnection [Some Begin; Some (Response 1 (bytes_of "mellon")); Some Retry;
                     Some (Response 1 (bytes_of "sesame"))] [] []) n (fst r).
Proof.
  cbn zeta. split; [vm_compute; reflexivity|].
  refine (unlock_needs_pam example_getpwnam example_getpwuid (λ _, example_attempt) 1000 true _ [] _ [] eq_refl _).
  vm_compute. do 3 right. left.
Defined.
