(* ===== verification/Coordination.v ===== *)
(** * One locker per compositor ([src/locker/coordination.rs])

    The identity of a compositor's lock, and the processes that enter it: a
    lease file decides who owns the lock, the owner's socket tells the others
    when the compositor has confirmed it.

    What the system calls return is data of the events.  The kernel's part that
    the protocol rests on is state: the holder of the lease's [flock], the
    socket file, the connections.  A process is where it is in [enter_paths],
    in its life as an owner, or in the drop of its [Active]; [exec] runs one
    system call, one turn of the coordinator's [poll] loop, or a crash, and
    the events of different processes come in any order. *)

From S2P Require Import Prelude Utf8 Text.

(** ** Errors and file metadata *)

Inductive IoError := NotFound | ConnectionRefused | AddrInUse | InvalidData | OtherError.
#[export] Instance IoError_eq_dec : EqDecision IoError.
Proof. solve_decision. Defined.

Inductive Error :=
| RuntimeDirectory
| WaylandConnection
| Io (e : IoError)
| ExistingLockerFailed.
#[export] Instance Error_eq_dec : EqDecision Error.
Proof. solve_decision. Defined.

Inductive FileType := Directory | Regular | Socket | OtherType.
#[export] Instance FileType_eq_dec : EqDecision FileType.
Proof. solve_decision. Defined.

Record Metadata := mkMetadata {
  file_type : FileType;
  uid : Z;
  mode : Z;
  dev : Z;
  ino : Z;
  ctime : Z;
  ctime_nsec : Z;
}.

(** [?] on an [io::Result], and on any other kind of failure. *)
Definition io {A} (r : result IoError A) : result Error A :=
  match r with Ok a => Ok a | Err e => Err (Io e) end.
Definition or_error {A B} (e : Error) (r : result A B) : result Error B :=
  match r with Ok b => Ok b | Err _ => Err e end.

(** ** The environment and the connection to the compositor *)

Abbreviation path := (list byte) (only parsing).
Abbreviation environment := (gmap rstring (list byte)) (only parsing).

Definition is_absolute (p : path) : bool := starts_with (bytes_of "/") p.

(** [Path::join]. *)
Definition join (base p : path) : path :=
  if is_absolute p then p
  else if bool_decide (last base = Some "/"%byte) then base ++ p else base ++ bytes_of "/" ++ p.

Fixpoint split_slash (piece p : path) : list path :=
  match p with
  | [] => [piece]
  | c :: p => if bool_decide (c = "/"%byte) then piece :: split_slash [] p else split_slash (piece ++ [c]) p
  end.
(** [Path::components] of a relative path: no empty pieces, and a dot only
    at the start. *)
Definition components (p : path) : list path :=
  let named := List.filter (λ s, negb (bool_decide (s = [])) && negb (bool_decide (s = bytes_of "."))) in
  match split_slash [] p with
  | first :: rest => (if bool_decide (first = bytes_of ".") then [first] else named [first]) ++ named rest
  | [] => []
  end.

(** The answers of the system calls that concern one connection. *)
Record Host := mkHost {
  getuid : Z;
  getfd : Z → option Z;
  setfd : Z → bool;
  proc_fd_metadata : Z → option Metadata;
  metadata_before : path → option Metadata;
  connects : path → option Z;
  metadata_after : path → option Metadata;
  symlink_metadata : path → option Metadata;
  getsockopt_peercred : Z → result IoError (Z * Z);
  read_proc_stat : Z → result IoError rstring;
}.

Section Environment.
Context (h : Host).

Definition runtime_directory (env : environment) : result Error path :=
  p ← ok_or RuntimeDirectory (env !! str "XDG_RUNTIME_DIR");
  _ ← ensure (is_absolute p) RuntimeDirectory;
  m ← ok_or RuntimeDirectory (symlink_metadata h p);
  _ ← ensure (bool_decide (file_type m = Directory) && (uid m =? getuid h)
              && (Z.land (mode m) 63 =? 0)) RuntimeDirectory;
  Ok p.

Definition wayland_socket_fd (value : list byte) : result Error Z :=
  ok_or WaylandConnection
    (text ← decode value; fd ← parse_signed 32 text; if 0 <=? fd then Some fd else None).

Definition adopt_wayland_socket (raw_fd : Z) : result Error (Z * Metadata) :=
  flags ← ok_or WaylandConnection (getfd h raw_fd);
  _ ← ensure (setfd h (Z.lor flags 1)) WaylandConnection;
  m ← ok_or WaylandConnection (proc_fd_metadata h raw_fd);
  _ ← ensure (bool_decide (file_type m = Socket)) WaylandConnection;
  Ok (raw_fd, m).

Definition socket_metadata (m : Metadata) : Z * Z * Z * Z := (dev m, ino m, ctime m, ctime_nsec m).

Definition connect_wayland (display : path) : result Error (Z * Metadata) :=
  before ← ok_or WaylandConnection (metadata_before h display);
  _ ← ensure (bool_decide (file_type before = Socket)) WaylandConnection;
  wayland ← ok_or WaylandConnection (connects h display);
  after ← ok_or WaylandConnection (metadata_after h display);
  _ ← ensure (bool_decide (socket_metadata before = socket_metadata after)) WaylandConnection;
  Ok (wayland, after).

Definition wayland_socket (env : environment) (runtime : path) : result Error path :=
  display ← ok_or WaylandConnection (env !! str "WAYLAND_DISPLAY");
  if is_absolute display then Ok display
  else if bool_decide (length (components display) = 1%nat) then Ok (join runtime display)
  else Err WaylandConnection.

(** With the environment it leaves behind. *)
Definition wayland_connection (env : environment) (runtime : path) :
    environment * result Error (Z * Metadata) :=
  match env !! str "WAYLAND_SOCKET" with
  | Some raw_fd =>
    match wayland_socket_fd raw_fd with
    | Ok raw_fd => (delete (str "WAYLAND_SOCKET") env, adopt_wayland_socket raw_fd)
    | Err e => (env, Err e)
    end
  | None => (env, display ← wayland_socket env runtime; connect_wayland display)
  end.

Definition UCRED_SIZE : Z := 12.

Definition peer_identity (wayland : Z) : result IoError (Z * Z) :=
  '(length, pid) ← getsockopt_peercred h wayland;
  _ ← ensure (length =? UCRED_SIZE) InvalidData;
  _ ← ensure (0 <? pid) InvalidData;
  stat ← read_proc_stat h pid;
  '(_, fields) ← ok_or InvalidData (rsplit_once (str ") ") stat);
  field ← ok_or InvalidData (split_whitespace fields !! 19%nat);
  start_time ← ok_or InvalidData (parse_unsigned 64 field);
  Ok (pid, start_time).

(** [{:x}] prints an [i32] as its 32-bit pattern. *)
Definition coordination_stem (peer_pid peer_start_time : Z) : rstring :=
  str "genkan-lock-" ++ show_hex (peer_pid mod 2 ^ 32) ++ str "-" ++ show_hex peer_start_time.

Definition coordination_stem_for (wayland : Z) : result IoError rstring :=
  '(peer_pid, peer_start_time) ← peer_identity wayland;
  Ok (coordination_stem peer_pid peer_start_time).

(** What [enter] hands to [enter_paths]: the lease, the socket and the
    connection. *)
Definition enter (env : environment) : environment * result Error (path * path * Z) :=
  match runtime_directory env with
  | Err e => (env, Err e)
  | Ok runtime =>
    let '(env, connection) := wayland_connection env runtime in
    (env,
     '(wayland, _) ← connection;
     stem ← io (coordination_stem_for wayland);
     Ok (join runtime (encode (stem ++ str ".lease")), join runtime (encode (stem ++ str ".sock")),
         wayland))
  end.
End Environment.

(** ** Processes *)

Definition READY : list byte := bytes_of "READY" ++ [to_u8 10].
Definition MAX_WAITERS : nat := 64.

Abbreviation pid := nat (only parsing).

(** The state of [coordinate]'s loop, and the other ends of its pipes: what
    was written to [ready] and not read yet, whether its writer is closed, and
    whether [stop] was written. *)
Record Coordinator := mkCoordinator {
  waiters : list pid;
  confirmed : bool;
  backlog : list pid;
}.
Record Active := mkActive {
  thread : option Coordinator;
  ready : list byte;
  ready_closed : bool;
  stopped : bool;
}.

(** Where a process is.  A listener is represented by the connections it has
    not accepted. *)
Inductive Control :=
| Opening
| Locking
| Removing
| Binding
| Permitting (backlog : list pid)
| Unblocking (backlog : list pid)
| Owning (backlog : list pid)
| Running (active : Active)
| Dropping (active : Active)
| Unlinking
| Releasing
| Connecting
| Reading
| Retrying
| Condemned
| Joined (server : pid)
| Failed (e : Error)
| Gone.

(** The server's end of the connection that a process made. *)
Record Stream := mkStream { server : pid; data : list byte; closed : bool }.

Inductive SocketFile := Stale | Bound (p : pid).

(** [announced] is history: the lockers that wrote [READY] to their own
    coordinator, which they do when the compositor has confirmed the lock. *)
Record World := mkWorld {
  lease : option pid;
  socket_file : option SocketFile;
  streams : gmap pid Stream;
  procs : gmap pid Control;
  announced : list pid;
}.

Definition set_lease l w := mkWorld l (socket_file w) (streams w) (procs w) (announced w).
Definition set_socket_file f w := mkWorld (lease w) f (streams w) (procs w) (announced w).
Definition set_streams s w := mkWorld (lease w) (socket_file w) s (procs w) (announced w).
Definition set_proc (p : pid) (c : Control) w :=
  mkWorld (lease w) (socket_file w) (streams w) (<[p := c]> (procs w)) (announced w).
Definition announce p w := mkWorld (lease w) (socket_file w) (streams w) (procs w) (p :: announced w).

(** Closing the lease file releases its lock. *)
Definition release (p : pid) (w : World) : World :=
  if bool_decide (lease w = Some p) then set_lease None w else w.

(** Dropping a server's end of a connection. *)
Definition close_stream (s : gmap pid Stream) (q : pid) : gmap pid Stream :=
  alter (λ x, mkStream (server x) (data x) true) q s.
Definition close_streams (qs : list pid) (s : gmap pid Stream) : gmap pid Stream :=
  foldl close_stream s qs.

(** [write_all(READY)] of which [n] bytes were written, and the drop. *)
Definition write_ready (s : gmap pid Stream) (q : pid) (n : nat) : gmap pid Stream :=
  alter (λ x, mkStream (server x) (data x ++ take n READY) true) q s.

(** *** The coordinator's thread *)

Inductive Poll := Interrupted | PollFailed | Revents (listener ready stop : bool).

(** What one turn meets: [poll]'s result, whether [read_exact] fails on its
    own, how much each write writes, how many connections are accepted. *)
Record Turn := mkTurn {
  poll : Poll;
  read_fails : bool;
  written : list nat;
  accepts : nat;
}.

Definition next_write (t : list nat) : nat * list nat :=
  match t with n :: t => (n, t) | [] => (length READY, []) end.

(** The [while let Ok(_) = listener.accept()] loop, until an accept fails. *)
Fixpoint accept_loop (n : nat) (t : list nat) (c : Coordinator) (s : gmap pid Stream) :
    Coordinator * gmap pid Stream :=
  match n, backlog c with
  | S n, q :: rest =>
    let c := mkCoordinator (waiters c) (confirmed c) rest in
    if confirmed c then
      let '(k, t) := next_write t in accept_loop n t c (write_ready s q k)
    else if bool_decide (length (waiters c) < MAX_WAITERS)%nat then
      accept_loop n t (mkCoordinator (waiters c ++ [q]) (confirmed c) rest) s
    else accept_loop n t c (close_stream s q)
  | _, _ => (c, s)
  end.

(** [for mut waiter in waiters.drain(..)]. *)
Fixpoint confirm_loop (qs : list pid) (t : list nat) (s : gmap pid Stream) :
    gmap pid Stream * list nat :=
  match qs with
  | [] => (s, t)
  | q :: qs => let '(k, t) := next_write t in confirm_loop qs t (write_ready s q k)
  end.

(** The end of the thread: its waiters and its listener are dropped. *)
Definition thread_returns (c : Coordinator) (a : Active) (s : gmap pid Stream) :
    Active * gmap pid Stream :=
  (mkActive None (ready a) (ready_closed a) (stopped a), close_streams (waiters c ++ backlog c) s).

(** One turn of the loop of [coordinate]; [None] while [read_exact] blocks. *)
Definition coordinate (t : Turn) (c : Coordinator) (a : Active) (s : gmap pid Stream) :
    option (Active * gmap pid Stream) :=
  match poll t with
  | Interrupted => Some (a, s)
  | PollFailed => Some (thread_returns c a s)
  | Revents listener_in ready_in stop_in =>
    if stop_in then Some (thread_returns c a s)
    else
      let accept c a s w :=
        if listener_in then
          let '(c, s) := accept_loop (accepts t) w c s in
          Some (mkActive (Some c) (ready a) (ready_closed a) (stopped a), s)
        else Some (mkActive (Some c) (ready a) (ready_closed a) (stopped a), s) in
      if ready_in && negb (confirmed c) then
        if read_fails t then Some (thread_returns c a s)
        else if (length (ready a) <? length READY)%nat then
          if ready_closed a then Some (thread_returns c a s) else None
        else
          let message := take (length READY) (ready a) in
          let a := mkActive (thread a) (drop (length READY) (ready a)) (ready_closed a) (stopped a) in
          if bool_decide (message ≠ READY) then Some (thread_returns c a s)
          else
            let '(s, w) := confirm_loop (waiters c) (written t) s in
            accept (mkCoordinator [] true (backlog c)) a s w
      else accept c a s (written t)
  end.

(** *** One event *)

(** The result of a call with no value: nothing, or an error. *)
Abbreviation outcome := (option IoError) (only parsing).

Inductive Event :=
| Arrive (p : pid)
| Open (p : pid) (r : result IoError Metadata)
| TryLock (p : pid) (r : outcome)
| RemoveSocket (p : pid) (r : outcome)
| Bind (p : pid) (r : outcome)
| SetPermissions (p : pid) (r : outcome)
| SetNonblocking (p : pid) (r : outcome)
| Activate (p : pid) (r : outcome)
| Connect (p : pid) (r : outcome)
| ReadToEnd (p : pid) (r : outcome)
| WriteReady (p : pid) (bs : list byte)
| CloseReady (p : pid)
| CoordinatorTurn (p : pid) (t : Turn)
| DropActive (p : pid)
| Join (p : pid)
| RemoveOwn (p : pid) (r : outcome)
| CloseLease (p : pid)
| Crash (p : pid).

(** Everything a process has open is closed when it leaves. *)
Definition server_ends (c : Control) : list pid :=
  match c with
  | Permitting b | Unblocking b | Owning b => b
  | Running a | Dropping a =>
    match thread a with Some c => waiters c ++ backlog c | None => [] end
  | _ => []
  end.
Definition leave (p : pid) (from to : Control) (w : World) : World :=
  set_proc p to (release p (set_streams (close_streams (server_ends from) (streams w)) w)).

(** A connection waits at the listener until it is accepted. *)
Definition enqueue (q : pid) (c : Control) : option Control :=
  match c with
  | Permitting b => Some (Permitting (b ++ [q]))
  | Unblocking b => Some (Unblocking (b ++ [q]))
  | Owning b => Some (Owning (b ++ [q]))
  | Running (mkActive (Some c) r rc st) =>
    Some (Running (mkActive (Some (mkCoordinator (waiters c) (confirmed c) (backlog c ++ [q]))) r rc st))
  | Dropping (mkActive (Some c) r rc st) =>
    Some (Dropping (mkActive (Some (mkCoordinator (waiters c) (confirmed c) (backlog c ++ [q]))) r rc st))
  | _ => None
  end.

Section Exec.
(** The user who runs the processes. *)
Context (me : Z).

Definition open_lease (p : pid) (r : result IoError Metadata) (w : World) : World :=
  match r with
  | Err e => set_proc p (Failed (Io e)) w
  | Ok m =>
    if negb (bool_decide (file_type m = Regular)) || negb (uid m =? me) then
      set_proc p (Failed RuntimeDirectory) w
    else set_proc p Locking w
  end.

(** The two calls of [try_lock]. *)
Definition lock_lease (p : pid) (taken refused : Control) (r : outcome) (w : World) : World :=
  match r with
  | Some e => set_proc p (Failed (Io e)) w
  | None =>
    match lease w with
    | None => set_proc p taken (set_lease (Some p) w)
    | Some _ => set_proc p refused w
    end
  end.

Definition connect_socket (p : pid) (r : outcome) (w : World) : option World :=
  match r with
  | Some NotFound | Some ConnectionRefused => Some (set_proc p Retrying w)
  | Some e => Some (set_proc p (Failed (Io e)) w)
  | None =>
    match socket_file w with
    | Some (Bound o) =>
      c ← procs w !! o;
      c ← enqueue p c;
      Some (set_proc p Reading (set_proc o c
        (set_streams (<[p := mkStream o [] false]> (streams w)) w)))
    | _ => None
    end
  end.

Definition read_answer (p : pid) (r : outcome) (w : World) : option World :=
  match r with
  | Some e => Some (set_proc p (Failed (Io e)) w)
  | None =>
    s ← streams w !! p;
    if closed s then
      Some (set_proc p (if bool_decide (data s = READY) then Joined (server s)
                        else Failed ExistingLockerFailed) w)
    else None
  end.

Definition write_pipe (p : pid) (bs : list byte) (a : Active) (w : World) : option World :=
  if ready_closed a then None
  else
    let w := if bool_decide (take (length READY) (ready a ++ bs) = READY) then announce p w else w in
    Some (set_proc p (Running (mkActive (thread a) (ready a ++ bs) false (stopped a))) w).

Definition thread_turn (p : pid) (t : Turn) (wrap : Active → Control) (a : Active) (w : World) :
    option World :=
  c ← thread a;
  '(a, s) ← coordinate t c a (streams w);
  Some (set_proc p (wrap a) (set_streams s w)).

Definition exec (e : Event) (w : World) : option World :=
  match e with
  | Arrive p =>
    match procs w !! p with None => Some (set_proc p Opening w) | Some _ => None end
  | Open p r =>
    match procs w !! p with Some Opening => Some (open_lease p r w) | _ => None end
  | TryLock p r =>
    match procs w !! p with
    | Some Locking => Some (lock_lease p Removing Connecting r w)
    | Some Retrying => Some (lock_lease p Condemned Connecting r w)
    | _ => None
    end
  | RemoveSocket p r =>
    match procs w !! p with
    | Some Removing =>
      Some match r with
           | None => set_proc p Binding (set_socket_file None w)
           | Some NotFound => set_proc p Binding w
           | Some e => leave p Removing (Failed (Io e)) w
           end
    | _ => None
    end
  | Bind p r =>
    match procs w !! p, r, socket_file w with
    | Some Binding, Some e, _ => Some (leave p Binding (Failed (Io e)) w)
    | Some Binding, None, None => Some (set_proc p (Permitting []) (set_socket_file (Some (Bound p)) w))
    | _, _, _ => None
    end
  | SetPermissions p r =>
    match procs w !! p, r with
    | Some (Permitting b), None => Some (set_proc p (Unblocking b) w)
    | Some (Permitting b), Some e => Some (leave p (Permitting b) (Failed (Io e)) w)
    | _, _ => None
    end
  | SetNonblocking p r =>
    match procs w !! p, r with
    | Some (Unblocking b), None => Some (set_proc p (Owning b) w)
    | Some (Unblocking b), Some e => Some (leave p (Unblocking b) (Failed (Io e)) w)
    | _, _ => None
    end
  | Activate p r =>
    match procs w !! p, r with
    | Some (Owning b), None =>
      Some (set_proc p (Running (mkActive (Some (mkCoordinator [] false b)) [] false false)) w)
    | Some (Owning b), Some e => Some (leave p (Owning b) (Failed (Io e)) w)
    | _, _ => None
    end
  | Connect p r =>
    match procs w !! p with Some Connecting => connect_socket p r w | _ => None end
  | ReadToEnd p r =>
    match procs w !! p with Some Reading => read_answer p r w | _ => None end
  | WriteReady p bs =>
    match procs w !! p with Some (Running a) => write_pipe p bs a w | _ => None end
  | CloseReady p =>
    match procs w !! p with
    | Some (Running a) => Some (set_proc p (Running (mkActive (thread a) (ready a) true (stopped a))) w)
    | _ => None
    end
  | CoordinatorTurn p t =>
    match procs w !! p with
    | Some (Running a) => thread_turn p t Running a w
    | Some (Dropping a) => thread_turn p t Dropping a w
    | _ => None
    end
  | DropActive p =>
    match procs w !! p with
    | Some (Running a) => Some (set_proc p (Dropping (mkActive (thread a) (ready a) (ready_closed a) true)) w)
    | _ => None
    end
  | Join p =>
    match procs w !! p with
    | Some (Dropping a) =>
      match thread a with None => Some (set_proc p Unlinking w) | Some _ => None end
    | _ => None
    end
  | RemoveOwn p r =>
    match procs w !! p with
    | Some Unlinking =>
      Some (set_proc p Releasing match r with None => set_socket_file None w | Some _ => w end)
    | _ => None
    end
  | CloseLease p =>
    match procs w !! p with
    | Some Releasing => Some (leave p Releasing Gone w)
    | Some Condemned => Some (leave p Condemned (Failed ExistingLockerFailed) w)
    | _ => None
    end
  | Crash p => c ← procs w !! p; Some (leave p c Gone w)
  end.

(** Any number of processes over an old socket file or none. *)
Definition initial (f : option SocketFile) : World := mkWorld None f ∅ ∅ [].

Inductive reachable : World → Prop :=
| reach_initial f : (∀ p, f ≠ Some (Bound p)) → reachable (initial f)
| reach_exec w e w' : reachable w → exec e w = Some w' → reachable w'.

Fixpoint run (es : list Event) (w : World) : option World :=
  match es with
  | [] => Some w
  | e :: es => w ← exec e w; run es w
  end.
End Exec.
