(* ===== verification/CoordinationProofs.v ===== *)
(** * One locker per compositor: proofs

    The invariant of every interleaving of the processes of [Coordination],
    and what follows: one owner at most, nobody joins a lock the compositor
    has not confirmed, an observer never becomes an owner, no waiter is left
    behind; and the name that identifies a compositor. *)

From S2P Require Import Prelude Utf8 Text Coordination.

(** ** Serving connections

    From [s] to [s'] the connections [Q] are served down to [Q']: those that
    remain are untouched, the others are closed after some of [READY], any of
    it only if [ann]. *)

Record served (ann : Prop) (Q Q' : list nat) (s s' : gmap nat Stream) : Prop := {
  served_subset : ∀ q, q ∈ Q' → q ∈ Q;
  served_NoDup : NoDup Q → NoDup Q';
  served_same : ∀ q, q ∈ Q' ∨ q ∉ Q → s' !! q = s !! q;
  served_closed : ∀ q x, q ∈ Q → q ∉ Q' → s !! q = Some x → closed x = false →
    ∃ k, s' !! q = Some (mkStream (server x) (data x ++ take k READY) true) ∧ (k ≠ 0%nat → ann);
}.

Lemma served_refl ann Q s : served ann Q Q s s.
Proof. split; naive_solver. Qed.

Lemma served_trans ann Q1 Q2 Q3 s1 s2 s3 :
  served ann Q1 Q2 s1 s2 → served ann Q2 Q3 s2 s3 → served ann Q1 Q3 s1 s3.
Proof.
  intros [A1 B1 C1 D1] [A2 B2 C2 D2]. split; [auto..| |].
  - intros q Hq. rewrite C2, C1; [done|naive_solver..].
  - intros q x Hq Hn Hx Hc. destruct (decide (q ∈ Q2)) as [H2|H2].
    + apply D2; [done..| |done]. rewrite C1 by auto. done.
    + rewrite C2 by auto. by apply D1.
Qed.

Lemma served_one (ann : Prop) Q1 q Q2 s k :
  (k ≠ 0%nat → ann) → NoDup (Q1 ++ q :: Q2) →
  served ann (Q1 ++ q :: Q2) (Q1 ++ Q2) s (write_ready s q k).
Proof.
  intros Hk Hnd. assert (q ∉ Q1 ++ Q2) as Hq.
  { rewrite Permutation_middle in Hnd || apply NoDup_app in Hnd.
    set_unfold. destruct Hnd as (_ & H1 & H2). apply NoDup_cons in H2. naive_solver. }
  split.
  - set_solver.
  - intros _. apply NoDup_app in Hnd as (? & ? & Hnd). apply NoDup_cons in Hnd as [? ?].
    apply NoDup_app. set_solver.
  - intros q' Hq'. unfold write_ready. apply lookup_alter_ne. set_solver.
  - intros q' x Hin Hout Hx _. assert (q' = q) as -> by set_solver.
    exists k. unfold write_ready. rewrite lookup_alter_eq, Hx. done.
Qed.

Lemma close_is_write s q : close_stream s q = write_ready s q 0.
Proof. unfold close_stream, write_ready. apply alter_ext. intros [] _. cbn. by rewrite app_nil_r. Qed.

Lemma served_close ann Q1 q Q2 s : NoDup (Q1 ++ q :: Q2) →
  served ann (Q1 ++ q :: Q2) (Q1 ++ Q2) s (close_stream s q).
Proof. intros. rewrite close_is_write. apply served_one; done. Qed.

Lemma served_close_all ann Q s : NoDup Q → served ann Q [] s (close_streams Q s).
Proof.
  revert s. induction Q as [|q Q IH]; intros s Hnd; [apply served_refl|].
  eapply served_trans; [apply (served_close _ [] q Q); done|].
  apply NoDup_cons in Hnd as [_ Hnd]. by apply IH.
Qed.

Lemma accept_loop_served (ann : Prop) n t c s c' s' :
  (confirmed c = true → ann) → NoDup (waiters c ++ backlog c) →
  accept_loop n t c s = (c', s') →
  served ann (waiters c ++ backlog c) (waiters c' ++ backlog c') s s' ∧
  confirmed c' = confirmed c ∧ (length (waiters c) ≤ MAX_WAITERS → length (waiters c') ≤ MAX_WAITERS)%nat ∧
  (confirmed c = true → waiters c' = waiters c).
Proof.
  revert t c s. induction n as [|n IH]; intros t [ws conf q] s Hann Hnd; cbn.
  { intros [= <- <-]. eauto using served_refl. }
  destruct q as [|q rest]; cbn in *; [intros [= <- <-]; eauto using served_refl|].
  pose proof Hnd as (Hw & Hd & [Hq Hr]%NoDup_cons)%NoDup_app.
  assert (NoDup (ws ++ rest)) as Hnd' by (apply NoDup_app; set_solver).
  destruct conf; [|case_bool_decide].
  - destruct (next_write t) as [k t'] eqn:Ek. intros E%IH; [|done..]. cbn in E.
    destruct E as (Hs & ? & ? & ?). split; [|by auto].
    eapply served_trans; [apply served_one; auto | done].
  - intros E%IH; [|done|cbn; by rewrite <- app_assoc]. cbn in E. rewrite <- app_assoc in E.
    destruct E as (Hs & ? & Hl & ?). split; [done|]. split; [done|]. split; [|done].
    intros _. apply Hl. rewrite length_app. cbn. lia.
  - intros E%IH; [|done..]. cbn in E. destruct E as (Hs & ? & ? & ?). split; [|by auto].
    eapply served_trans; [by apply served_close | done].
Qed.

Lemma confirm_loop_served (ann : Prop) ws Q t s s' t' :
  ann → NoDup (ws ++ Q) → confirm_loop ws t s = (s', t') → served ann (ws ++ Q) Q s s'.
Proof.
  intros Hann. revert t s. induction ws as [|q ws IH]; cbn; intros t s Hnd.
  { intros [= <- <-]. apply served_refl. }
  destruct (next_write t) as [k t1]. intros E%IH; [|by apply NoDup_cons in Hnd as [_ ?]].
  eapply served_trans; [apply (served_one _ [] q (ws ++ Q) s k); auto | done].
Qed.

(** ** One turn of the coordinator *)

Record thread_ok (ann : Prop) (a : Active) (c : Coordinator) : Prop := {
  thread_confirmed : confirmed c = true → ann ∧ waiters c = [];
  thread_ready : confirmed c = false → take (length READY) (ready a) = READY → ann;
  thread_waiters : (length (waiters c) ≤ MAX_WAITERS)%nat;
}.
Definition active_ok (ann : Prop) (a : Active) : Prop := ∀ c, thread a = Some c → thread_ok ann a c.

Definition thread_ends (a : Active) : list nat :=
  match thread a with Some c => waiters c ++ backlog c | None => [] end.

Lemma thread_returns_ok ann c a s :
  NoDup (waiters c ++ backlog c) →
  served ann (waiters c ++ backlog c) (thread_ends (thread_returns c a s).1) s
    (thread_returns c a s).2 ∧ active_ok ann (thread_returns c a s).1.
Proof. intros. split; [by apply served_close_all | done]. Qed.

Lemma coordinate_ok (ann : Prop) t c a s a' s' :
  thread a = Some c → thread_ok ann a c → NoDup (waiters c ++ backlog c) →
  coordinate t c a s = Some (a', s') →
  served ann (waiters c ++ backlog c) (thread_ends a') s s' ∧ active_ok ann a'.
Proof.
  intros Ha Hok Hnd.
  assert (∀ b s1 a2 s2, Some (thread_returns c b s1) = Some (a2, s2) → s1 = s →
    served ann (waiters c ++ backlog c) (thread_ends a2) s s2 ∧ active_ok ann a2) as Hreturn.
  { intros b s1 a2 s2 [= <- <-] ->. by apply (thread_returns_ok ann c b s). }
  assert (∀ (l : bool) w c1 b s1 a2 s2,
    served ann (waiters c ++ backlog c) (waiters c1 ++ backlog c1) s s1 →
    (confirmed c1 = true → ann ∧ waiters c1 = []) → (length (waiters c1) ≤ MAX_WAITERS)%nat →
    (confirmed c1 = false → take (length READY) (ready b) = READY → ann) →
    (if l then let '(c2, s2) := accept_loop (accepts t) w c1 s1 in
       Some (mkActive (Some c2) (ready b) (ready_closed b) (stopped b), s2)
     else Some (mkActive (Some c1) (ready b) (ready_closed b) (stopped b), s1)) = Some (a2, s2) →
    served ann (waiters c ++ backlog c) (thread_ends a2) s s2 ∧ active_ok ann a2) as Haccept.
  { intros l w c1 b s1 a2 s2 Hs1 Hc1 Hl1 Hr1. destruct l.
    - destruct (accept_loop _ _ _ _) as [c2 s3] eqn:E. intros [= <- <-].
      apply (accept_loop_served ann) in E; [|naive_solver|by apply (served_NoDup _ _ _ _ _ Hs1)].
      destruct E as (Hs2 & Ec & Hl & Hw). split; [by eapply served_trans|].
      intros c' [= <-]. split; rewrite ?Ec; [|done|by apply Hl].
      intros E1. destruct (Hc1 E1) as [? Ew]. rewrite <- Ew. auto.
    - intros [= <- <-]. split; [done|]. intros c' [= <-]. by split. }
  destruct Hok as [Hc Hr Hl].
  unfold coordinate. destruct (poll t) as [| |li ri si]; cbn zeta.
  { intros [= <- <-]. unfold thread_ends. rewrite Ha. split; [apply served_refl|].
    intros c' E. rewrite Ha in E. injection E as <-. by split. }
  { intros E. by apply Hreturn in E. }
  destruct si; [intros E; by apply Hreturn in E|].
  destruct (ri && negb (confirmed c)) eqn:Eri.
  2: { intros E. refine (Haccept _ _ _ _ _ _ _ _ _ _ _ E); [apply served_refl|done..]. }
  destruct (read_fails t); [intros E; by apply Hreturn in E|].
  destruct (_ <? _)%nat; [destruct (ready_closed a); [intros E; by apply Hreturn in E|done]|].
  case_bool_decide as Em; [intros E; by apply Hreturn in E|].
  simp_bool. assert ann as Hann by auto.
  destruct (confirm_loop _ _ _) as [s1 w] eqn:E1.
  intros E. refine (Haccept _ _ _ _ _ _ _ _ _ _ _ E); [|done|cbn; lia|done].
  eapply confirm_loop_served; done.
Qed.

(** ** The invariant of the world *)

(** The process holds the lease's lock. *)
Definition holding (c : Control) : bool :=
  match c with
  | Removing | Binding | Permitting _ | Unblocking _ | Owning _ | Running _ | Dropping _
  | Unlinking | Releasing | Condemned => true
  | _ => false
  end.
(** The process is a waiter that has connected. *)
Definition client (c : Control) : bool :=
  match c with Reading | Joined _ | Failed _ | Gone => true | _ => false end.

Definition control_ok (w : World) (p : nat) (c : Control) : Prop :=
  match c with
  | Running a | Dropping a => active_ok (p ∈ announced w) a
  | Joined o => o ∈ announced w ∧ o ≠ p
  | Reading => is_Some (streams w !! p)
  | _ => True
  end.

Lemma control_ok_mono w w' p c :
  (∀ q, q ∈ announced w → q ∈ announced w') →
  (∀ q, is_Some (streams w !! q) → is_Some (streams w' !! q)) → control_ok w p c → control_ok w' p c.
Proof.
  intros Hann Hst. assert (∀ a, active_ok (p ∈ announced w) a → active_ok (p ∈ announced w') a) as Ha.
  { intros a H c1 Hc1. destruct (H c1 Hc1) as [Hc Hr Hl]. split; auto.
    intros E. split; [apply Hann|]; by apply Hc. }
  destruct c; cbn; auto. intros [? ?]. auto.
Qed.

Record stream_ok (w : World) (q : nat) (x : Stream) : Prop := {
  stream_data : data x `prefix_of` READY;
  stream_announced : data x ≠ [] → server x ∈ announced w;
  stream_server : server x ≠ q;
  stream_client : ∃ c, procs w !! q = Some c ∧ client c = true;
  stream_open : closed x = false → data x = [] ∧
    ∃ c, procs w !! server x = Some c ∧ q ∈ server_ends c;
}.

Record inv (w : World) : Prop := {
  inv_lease p : lease w = Some p ↔ ∃ c, procs w !! p = Some c ∧ holding c = true;
  inv_control p c : procs w !! p = Some c → control_ok w p c;
  inv_ends p c : procs w !! p = Some c → NoDup (server_ends c);
  inv_queue p c q : procs w !! p = Some c → q ∈ server_ends c →
    streams w !! q = Some (mkStream p [] false);
  inv_stream q x : streams w !! q = Some x → stream_ok w q x;
}.

(** How the lease may change when process [p] goes from [c] to [c']. *)
Definition lease_step (p : nat) (c c' : Control) (l l' : option nat) : Prop :=
  (l' = l ∧ holding c' = holding c) ∨
  (l = None ∧ l' = Some p ∧ holding c' = true) ∨
  (l' = (if bool_decide (l = Some p) then None else l) ∧ holding c' = false).

(** One process moves, and serves some of its connections. *)
Lemma inv_step w p c c' l' f' s' ann' :
  inv w → procs w !! p = Some c →
  lease_step p c c' (lease w) l' → (client c = true → client c' = true) →
  (∀ q, q ∈ announced w → q ∈ ann') →
  served (p ∈ announced w) (server_ends c) (server_ends c') (streams w) s' →
  let w' := mkWorld l' f' s' (<[p := c']> (procs w)) ann' in
  control_ok w' p c' → inv w'.
Proof.
  intros [Hlease Hctl Hends Hqueue Hstream] Hp Hl Hcl Hann [Hsub Hnd Hsame Hclosed] w' Hc'.
  assert (∀ q x, streams w !! q = Some x → q ∈ server_ends c → x = mkStream p [] false) as Hmine.
  { intros q x Hx Hq. specialize (Hqueue _ _ _ Hp Hq). congruence. }
  assert (∀ q, is_Some (streams w !! q) → is_Some (s' !! q)) as Hsome.
  { intros q [x Hx]. destruct (decide (q ∈ server_ends c)) as [Hin|]; [|rewrite Hsame by auto; eauto].
    destruct (decide (q ∈ server_ends c')); [rewrite Hsame by auto; eauto|].
    rewrite (Hmine q x Hx Hin) in Hx. destruct (Hclosed _ _ Hin n Hx eq_refl) as (k & -> & _). eauto. }
  split; cbn.
  - intros p'. destruct (decide (p' = p)) as [->|Hne].
    + rewrite lookup_insert_eq. pose proof (Hlease p) as Hlp. rewrite Hp in Hlp.
      destruct Hl as [[-> E]|[(El & -> & E)|[-> E]]].
      * rewrite Hlp. naive_solver.
      * naive_solver.
      * case_bool_decide; naive_solver congruence.
    + rewrite lookup_insert_ne by done. rewrite <- Hlease.
      destruct Hl as [[-> E]|[(El & -> & E)|[-> E]]]; [done|naive_solver|].
      case_bool_decide; naive_solver.
  - intros p' c1. destruct (decide (p' = p)) as [->|Hne].
    + rewrite lookup_insert_eq. by intros [= <-].
    + rewrite lookup_insert_ne by done. intros H1%Hctl. apply (control_ok_mono w); [done| |done].
      intros q [x Hx]. apply Hsome. eauto.
  - intros p' c1. destruct (decide (p' = p)) as [->|Hne].
    + rewrite lookup_insert_eq. intros [= <-]. eauto.
    + rewrite lookup_insert_ne by done. eauto.
  - intros p' c1 q. destruct (decide (p' = p)) as [->|Hne].
    + rewrite lookup_insert_eq. intros [= <-] Hq. rewrite Hsame by auto. eauto.
    + rewrite lookup_insert_ne by done. intros H1 Hq. rewrite Hsame; [eauto|].
      right. intros Hin. specialize (Hqueue _ _ _ H1 Hq) as E1.
      apply Hmine in E1; [|done]. by injection E1.
  - intros q x' Hx'.
    assert (∀ c1, procs w !! q = Some c1 → client c1 = true →
      ∃ c2, <[p:=c']> (procs w) !! q = Some c2 ∧ client c2 = true) as Hclient.
    { intros c1 H1 H2. destruct (decide (q = p)) as [->|]; [|rewrite lookup_insert_ne by done; eauto].
      rewrite lookup_insert_eq. naive_solver. }
    destruct (decide (q ∈ server_ends c ∧ q ∉ server_ends c')) as [[Hin Hout]|Hkeep].
    + specialize (Hqueue _ _ _ Hp Hin). destruct (Hstream _ _ Hqueue) as [? ? ? (? & ? & ?) _].
      destruct (Hclosed q _ Hin Hout Hqueue eq_refl) as (k & Hk & Hka). rewrite Hx' in Hk.
      injection Hk as ->. split; cbn; [apply prefix_take| |done|eauto|done].
      intros Hne. apply Hann, Hka. intros ->. done.
    + assert (q ∈ server_ends c' ∨ q ∉ server_ends c) as Hor by (destruct (decide (q ∈ server_ends c')); naive_solver).
      rewrite Hsame in Hx' by done. destruct (Hstream _ _ Hx') as [? ? ? (? & ? & ?) Hopen].
      split; cbn; [done|auto|done|eauto|]. intros Ho. destruct (Hopen Ho) as (? & c1 & H1 & Hin).
      split; [done|]. destruct (decide (server x' = p)) as [E|]; [|rewrite lookup_insert_ne by done; eauto].
      rewrite E, lookup_insert_eq. rewrite E, Hp in H1. injection H1 as <-. naive_solver.
Qed.

(** *** The ways a process moves *)

Lemma inv_socket_file f w : inv w → inv (set_socket_file f w).
Proof. intros [A B C D E]. split; [done..|]. intros q x Hx. by destruct (E q x Hx). Qed.

Lemma inv_move w p c c' :
  inv w → procs w !! p = Some c → holding c' = holding c → (client c = true → client c' = true) →
  server_ends c' = server_ends c → control_ok w p c' → inv (set_proc p c' w).
Proof.
  intros Hi Hp Hh Hc He Hok.
  apply (inv_step w p c c' _ (socket_file w) (streams w) (announced w)); auto.
  - by left.
  - rewrite He. apply served_refl.
Qed.

Lemma inv_leave w p c c' :
  inv w → procs w !! p = Some c → client c' = true → holding c' = false →
  server_ends c' = [] → (∀ w', control_ok w' p c') → inv (leave p c c' w).
Proof.
  intros Hi Hp Hc Hh He Hok. unfold leave, release, set_proc, set_lease, set_streams. cbn.
  assert (∀ l', lease_step p c c' (lease w) l' →
    inv (mkWorld l' (socket_file w) (close_streams (server_ends c) (streams w))
      (<[p:=c']> (procs w)) (announced w))) as H.
  { intros l' Hl. apply (inv_step w p c c'); auto.
    rewrite He. apply served_close_all. by eapply inv_ends. }
  case_bool_decide as E; apply H; right; right; (split; [|done]).
  - by rewrite bool_decide_true.
  - by rewrite bool_decide_false.
Qed.

Lemma inv_take w p c c' :
  inv w → procs w !! p = Some c → lease w = None → holding c' = true →
  client c = false → server_ends c = [] → server_ends c' = [] → control_ok w p c' →
  inv (set_proc p c' (set_lease (Some p) w)).
Proof.
  intros Hi Hp Hl Hh Hc He He' Hok.
  apply (inv_step w p c c' _ (socket_file w) (streams w) (announced w)); auto.
  - right. left. done.
  - by rewrite Hc.
  - rewrite He, He'. apply served_refl.
Qed.

Lemma inv_arrive w p : inv w → procs w !! p = None → inv (set_proc p Opening w).
Proof.
  intros [Hl Hctl Hnd Hq Hs] Hp.
  assert (∀ p' c, procs w !! p' = Some c → <[p := Opening]> (procs w) !! p' = Some c) as Hkeep.
  { intros p' c H. rewrite lookup_insert_ne; [done|congruence]. }
  assert (∀ p' c, <[p := Opening]> (procs w) !! p' = Some c →
    (p' = p ∧ c = Opening) ∨ procs w !! p' = Some c) as Hnew.
  { intros p' c. destruct (decide (p' = p)) as [->|].
    - rewrite lookup_insert_eq. naive_solver.
    - rewrite lookup_insert_ne by done. auto. }
  split; cbn.
  - intros p'. rewrite Hl. split; [naive_solver|]. intros (c & [[-> ->]|H]%Hnew & Hh); [done|eauto].
  - intros p' c [[-> ->]|H]%Hnew; [done | by apply Hctl in H].
  - intros p' c [[-> ->]|H]%Hnew; [constructor | eauto].
  - intros p' c q [[-> ->]|H]%Hnew; [set_solver | eauto].
  - intros q x Hx. destruct (Hs q x Hx) as [? ? ? (c & ? & ?) Ho]. split; cbn; eauto.
    intros E. destruct (Ho E) as (? & c1 & ? & ?). eauto.
Qed.

(** A listener accepts one more connection, of a process that had none. *)
Lemma enqueue_Some q c c' : enqueue q c = Some c' →
  Permutation (server_ends c') (q :: server_ends c) ∧ holding c' = holding c ∧ holding c = true ∧
  client c' = client c ∧ (∀ w p, control_ok w p c → control_ok w p c').
Proof.
  assert (∀ ws bl, Permutation (ws ++ bl ++ [q]) (q :: ws ++ bl)) as HP.
  { intros. rewrite app_assoc. symmetry. apply Permutation_cons_append. }
  destruct c as [| | | |b|b|b|[[[ws cf bl]|] r rc st]|[[[ws cf bl]|] r rc st]| | | | | | | | |];
    cbn; intros [= <-]; cbn; (split; [first [apply (HP []) | apply HP]|]); (split; [done|]);
    (split; [done|]); (split; [done|]); try done;
    intros w p H c [= <-]; destruct (H _ eq_refl) as [A B C]; by split.
Qed.

Lemma inv_connect w p o c c' :
  inv w → procs w !! p = Some Connecting → procs w !! o = Some c → enqueue p c = Some c' →
  inv (set_proc p Reading (set_proc o c' (set_streams (<[p := mkStream o [] false]> (streams w)) w))).
Proof.
  intros [Hl Hctl Hnd Hq Hs] Hp Ho (HP & Hh & Hh1 & Hcl & Hok)%enqueue_Some.
  assert (o ≠ p) as Hne by (intros ->; rewrite Hp in Ho; by injection Ho as <-).
  assert (streams w !! p = None) as Hfresh.
  { destruct (streams w !! p) as [x|] eqn:E; [|done]. apply Hs in E as [_ _ _ (c1 & H1 & H2) _].
    rewrite Hp in H1. by injection H1 as <-. }
  assert (∀ p' c1, procs w !! p' = Some c1 → p ∉ server_ends c1) as Hp'.
  { intros p' c1 H Hin. rewrite (Hq _ _ _ H Hin) in Hfresh. done. }
  set (procs' := <[p:=Reading]> (<[o:=c']> (procs w))).
  assert (∀ p' c1, procs' !! p' = Some c1 ↔ (p' = p ∧ c1 = Reading) ∨ (p' = o ∧ c1 = c') ∨
    (p' ≠ p ∧ p' ≠ o ∧ procs w !! p' = Some c1)) as Hlook.
  { intros p' c1. unfold procs'. destruct (decide (p' = p)) as [->|H1].
    - rewrite lookup_insert_eq. split; [intros [= <-]; auto|].
      intros [[_ ->]|[[? _]|(? & _)]]; congruence.
    - rewrite lookup_insert_ne by done. destruct (decide (p' = o)) as [->|H2].
      + rewrite lookup_insert_eq. split; [intros [= <-]; auto|].
        intros [[? _]|[[_ ->]|(_ & ? & _)]]; congruence.
      + rewrite lookup_insert_ne by done. naive_solver. }
  unfold set_proc, set_streams. cbn. fold procs'. split; cbn.
  - intros p'. rewrite Hl. setoid_rewrite Hlook. split.
    + intros (c1 & H1 & H2). destruct (decide (p' = o)) as [->|]; [exists c'; split; [auto|congruence]|].
      exists c1. split; [|done]. right. right. split; [|done]. intros ->. rewrite Hp in H1. by injection H1 as <-.
    + intros (c1 & [[-> ->]|[[-> ->]|(? & ? & ?)]] & H2); [done| |eauto]. exists c. by rewrite <- Hh.
  - assert (∀ q x, is_Some (streams w !! q) → is_Some (<[p := x]> (streams w) !! q)) as Hsome.
    { intros q x Hx. destruct (decide (q = p)) as [->|]; [rewrite lookup_insert_eq; by eexists | by rewrite lookup_insert_ne]. }
    intros p' c1 [[-> ->]|[[-> ->]|(? & ? & H)]]%Hlook.
    + cbn. rewrite lookup_insert_eq. by eexists.
    + apply (control_ok_mono w); cbn; auto.
    + apply (control_ok_mono w); cbn; auto.
  - intros p' c1 [[-> ->]|[[-> ->]|(? & ? & H)]]%Hlook; [constructor| |eauto].
    rewrite HP. apply NoDup_cons. eauto.
  - intros p' c1 q [[-> ->]|[[-> ->]|(? & ? & H)]]%Hlook.
    + intros Hin. by apply elem_of_nil in Hin.
    + rewrite HP, elem_of_cons. intros [->|Hin]; [apply lookup_insert_eq|].
      rewrite lookup_insert_ne; [eauto|]. intros ->. by apply Hp' in Ho.
    + intros Hin. rewrite lookup_insert_ne; [eauto|]. intros ->. by apply Hp' in H.
  - intros q x. destruct (decide (q = p)) as [->|Hqp].
    + rewrite lookup_insert_eq. intros [= <-]. split; cbn; [apply prefix_nil|done|done| |].
      * exists Reading. rewrite Hlook. auto.
      * intros _. split; [done|]. exists c'. rewrite Hlook. split; [auto|]. rewrite HP. set_solver.
    + rewrite lookup_insert_ne by done. intros Hx. destruct (Hs q x Hx) as [? ? ? (c1 & H1 & H2) Hopen].
      split; cbn; [done..| |].
      * destruct (decide (q = o)) as [->|]; [|exists c1; split; [apply Hlook; auto 6|done]].
        exists c'. rewrite Hlook, Hcl. split; [auto|]. congruence.
      * intros E. destruct (Hopen E) as (? & c2 & H3 & H4). split; [done|].
        destruct (decide (server x = o)) as [E1|].
        { exists c'. rewrite Hlook. split; [auto|]. rewrite HP. rewrite E1, Ho in H3. set_solver. }
        exists c2. rewrite Hlook. split; [|done]. right. right. split; [|done]. intros E1.
        rewrite E1, Hp in H3. injection H3 as <-. by apply elem_of_nil in H4.
Qed.

(** *** Every event keeps the invariant *)

Section Runs.
Context (me : Z).

Lemma inv_lock_lease w p c taken refused r :
  inv w → procs w !! p = Some c → holding c = false → client c = false → server_ends c = [] →
  holding taken = true → server_ends taken = [] → control_ok w p taken →
  holding refused = false → server_ends refused = [] → control_ok w p refused →
  inv (lock_lease p taken refused r w).
Proof using.
  intros Hi Hp H1 H2 H3 H4 H5 H6 H7 H8 H9. unfold lock_lease. destruct r as [e|].
  { apply (inv_move w p c); try done; cbn; congruence. }
  destruct (lease w) as [o|] eqn:E.
  - apply (inv_move w p c); try done; cbn; congruence.
  - by apply (inv_take w p c).
Qed.

Lemma inv_thread_turn w p t wrap a w' :
  (∀ b, holding (wrap b) = true) → (∀ b, server_ends (wrap b) = thread_ends b) →
  (∀ b, client (wrap b) = false) →
  (∀ v b, control_ok v p (wrap b) ↔ active_ok (p ∈ announced v) b) →
  inv w → procs w !! p = Some (wrap a) → thread_turn p t wrap a w = Some w' → inv w'.
Proof using.
  intros Hh Hse Hcl Hok Hi Hp. unfold thread_turn. destruct (thread a) as [c|] eqn:Ha; cbn; [|done].
  destruct (coordinate t c a (streams w)) as [[a' s']|] eqn:Ec; cbn; [|done]. intros [= <-].
  pose proof (inv_control w Hi p _ Hp) as Hctl. apply Hok in Hctl.
  pose proof (inv_ends w Hi p _ Hp) as Hnd. rewrite Hse in Hnd. unfold thread_ends in Hnd. rewrite Ha in Hnd.
  apply (coordinate_ok (p ∈ announced w)) in Ec as [Hserved Hact]; [|done|by apply Hctl|done].
  apply (inv_step w p (wrap a) (wrap a') _ (socket_file w) s' (announced w)); auto.
  - left. by rewrite !Hh.
  - by rewrite Hcl.
  - rewrite !Hse. unfold thread_ends at 1. by rewrite Ha.
  - by apply Hok.
Qed.

Lemma inv_write_pipe w p bs a w' :
  inv w → procs w !! p = Some (Running a) → write_pipe p bs a w = Some w' → inv w'.
Proof using.
  intros Hi Hp. unfold write_pipe. destruct (ready_closed a); [done|]. intros [= <-].
  pose proof (inv_control w Hi p _ Hp) as Hctl. cbn in Hctl.
  set (a' := mkActive _ _ _ _).
  assert (∀ ann', (∀ q, q ∈ announced w → q ∈ ann') →
    (take (length READY) (ready a ++ bs) = READY → p ∈ ann') →
    inv (mkWorld (lease w) (socket_file w) (streams w) (<[p := Running a']> (procs w)) ann')) as H.
  { intros ann' Hsub Hin. apply (inv_step w p (Running a) (Running a')); auto.
    - by left.
    - apply served_refl.
    - intros c Hc. destruct (Hctl c Hc) as [A B C]. split; [|auto|done].
      intros E. split; [apply Hsub|]; by apply A. }
  case_bool_decide as E; apply H; cbn; set_solver.
Qed.

Lemma inv_exec w e w' : inv w → exec me e w = Some w' → inv w'.
Proof using.
  intros Hi. destruct e as [p|p r|p r|p r|p r|p r|p r|p r|p r|p r|p bs|p|p t|p|p|p r|p|p]; cbn;
    destruct (procs w !! p) as [c|] eqn:Hp; try done;
    try (intros [= <-]; by apply inv_arrive); try (intros [= <-]; by apply (inv_leave w p c));
    try (destruct c; try done).
  - intros [= <-]. unfold open_lease. destruct r as [m|]; [destruct (negb _ || negb _)|];
      by apply (inv_move w p Opening).
  - intros [= <-]. by apply (inv_lock_lease w p Locking).
  - intros [= <-]. by apply (inv_lock_lease w p Retrying).
  - intros [= <-]. destruct r as [[]|]; try (by apply (inv_leave w p Removing));
      [by apply (inv_move w p Removing)|].
    apply (inv_move _ p Removing); try done. by apply inv_socket_file.
  - destruct r as [e|]; [|destruct (socket_file w); [done|]]; intros [= <-].
    + by apply (inv_leave w p Binding).
    + apply (inv_move _ p Binding); try done. by apply inv_socket_file.
  - destruct r; intros [= <-]; [by eapply inv_leave | by eapply inv_move].
  - destruct r; intros [= <-]; [by eapply inv_leave | by eapply inv_move].
  - destruct r; intros [= <-]; [by eapply inv_leave|]. eapply inv_move; try done.
    intros c' [= <-]. split; cbn; [done|done|lia].
  - unfold connect_socket. destruct r as [[]|]; try (intros [= <-]; by apply (inv_move w p Connecting)).
    destruct (socket_file w) as [[|o]|]; try done. destruct (procs w !! o) as [co|] eqn:Ho; cbn; [|done].
    destruct (enqueue p co) as [co'|] eqn:Eq; cbn; [|done]. intros [= <-]. by apply (inv_connect w p o co).
  - unfold read_answer. destruct r; [intros [= <-]; by apply (inv_move w p Reading)|].
    destruct (streams w !! p) as [x|] eqn:Ex; cbn; [|done]. destruct (closed x); [|done].
    intros [= <-]. case_bool_decide as Ed; [|by apply (inv_move w p Reading)].
    apply (inv_move w p Reading); try done. cbn.
    destruct (inv_stream w Hi p x Ex) as [_ Ha Hs _ _]. split; [apply Ha; by rewrite Ed|done].
  - by apply inv_write_pipe.
  - intros [= <-]. eapply inv_move; try done. pose proof (inv_control w Hi p _ Hp) as Hctl.
    intros c Hc. destruct (Hctl c Hc). by split.
  - by apply (inv_thread_turn w p t Running).
  - by apply (inv_thread_turn w p t Dropping).
  - intros [= <-]. eapply inv_move; try done. pose proof (inv_control w Hi p _ Hp) as Hctl.
    intros c Hc. destruct (Hctl c Hc). by split.
  - destruct (thread active) eqn:Et; [done|]. intros [= <-]. eapply inv_move; try done.
    cbn. by rewrite Et.
  - intros [= <-]. apply (inv_move _ p Unlinking); try done; destruct r; try done. by apply inv_socket_file.
  - intros [= <-]. by apply (inv_leave w p Releasing).
  - intros [= <-]. by apply (inv_leave w p Condemned).
Qed.

Lemma inv_reachable w : reachable me w → inv w.
Proof using.
  induction 1 as [f Hf|w e w' _ IH He]; [|by eapply inv_exec].
  split; cbn; [|naive_solver..]. intros p. split; [done|]. naive_solver.
Qed.

(** ** At most one owner *)

(** Connections can be made to the process's listener. *)
Definition listening (c : Control) : bool := bool_decide (is_Some (enqueue 0%nat c)).

Lemma listening_holding c : listening c = true → holding c = true.
Proof using.
  unfold listening. rewrite bool_decide_eq_true. intros [c' H]. by apply enqueue_Some in H as (_ & _ & ? & _).
Qed.

(** C16.  In every interleaving, two processes that are past [try_lock] and
    have not released the lease are the same process: there is never a second
    owner, and any socket that can be connected to is the lease holder's, so
    the removal of a socket file never takes another owner's away. *)
Theorem single_owner w p q c d :
  reachable me w → procs w !! p = Some c → procs w !! q = Some d →
  holding c = true ∨ listening c = true → holding d = true ∨ listening d = true →
  p = q ∧ lease w = Some p.
Proof using.
  intros Hr%inv_reachable Hp Hq Hc Hd.
  assert (∀ p c, procs w !! p = Some c → holding c = true ∨ listening c = true → lease w = Some p) as H.
  { intros p' c' H1 H2. apply (inv_lease w Hr). exists c'. split; [done|].
    destruct H2; [done | by apply listening_holding]. }
  pose proof (H p c Hp Hc) as H1. pose proof (H q d Hq Hd) as H2. split; congruence.
Qed.

(** ** Joining *)

Lemma run_app es fs w : run me (es ++ fs) w = run me es w ≫= run me fs.
Proof using.
  revert w. induction es as [|e es IH]; intros w; cbn; [done|].
  destruct (exec me e w); cbn; [apply IH | done].
Qed.

Lemma run_reachable es w w' : reachable me w → run me es w = Some w' → reachable me w'.
Proof using.
  revert w. induction es as [|e es IH]; cbn; intros w Hw; [by intros [= <-]|].
  destruct (exec me e w) as [w1|] eqn:E; cbn; [|done]. apply IH. by eapply reach_exec.
Qed.

(** The writes that [announced] records. *)
Definition announces (p : nat) (e : Event) (w : World) : Prop :=
  ∃ bs a, e = WriteReady p bs ∧ procs w !! p = Some (Running a) ∧
    take (length READY) (ready a ++ bs) = READY.

Lemma announced_release p w : announced (release p w) = announced w.
Proof using. unfold release. by case_bool_decide. Qed.

Lemma announced_exec e w w' p :
  exec me e w = Some w' → p ∈ announced w' → p ∈ announced w ∨ announces p e w.
Proof using.
  intros He. destruct e as [o|o r|o r|o r|o r|o r|o r|o r|o r|o r|o bs|o|o t|o|o|o r|o|o];
    cbn in He; destruct (procs w !! o) as [c|] eqn:Ho; try done; cbn in He;
    try (destruct c; try done); cbn in He;
    try (destruct r as [[]|]); unfold open_lease, lock_lease, connect_socket, read_answer, thread_turn in He;
    repeat (simplify_option_eq || case_match);
    try (cbn; rewrite ?announced_release; by left).
  unfold write_pipe in He. destruct (ready_closed active); [done|]. injection He as <-.
  case_bool_decide as E; cbn; [|by left]. rewrite elem_of_cons. intros [->|?]; [|by left].
  right. by exists bs, active.
Qed.

Lemma announced_run es w w' p :
  run me es w = Some w' → p ∈ announced w' →
  p ∈ announced w ∨
  ∃ pre e post w1, es = pre ++ e :: post ∧ run me pre w = Some w1 ∧ announces p e w1.
Proof using.
  revert w. induction es as [|e es IH]; cbn; intros w; [intros [= <-]; auto|].
  destruct (exec me e w) as [w1|] eqn:He; cbn; [|done].
  intros Hrun Hp. destruct (IH w1 Hrun Hp) as [H|(pre & e' & post & w2 & -> & H1 & H2)].
  - destruct (announced_exec _ _ _ _ He H) as [?|?]; [auto|]. right.
    by exists [], e, es, w.
  - right. exists (e :: pre), e', post, w2. cbn. by rewrite He.
Qed.

Lemma joined_announced es f w p q :
  (∀ o, f ≠ Some (Bound o)) → run me es (initial f) = Some w →
  procs w !! q = Some (Joined p) →
  p ≠ q ∧ ∃ pre e post w1,
    es = pre ++ e :: post ∧ run me pre (initial f) = Some w1 ∧ announces p e w1.
Proof using.
  intros Hf Hrun Hq. assert (inv w) as Hi.
  { eapply inv_reachable, run_reachable; [|done]. by apply reach_initial. }
  destruct (inv_control w Hi q _ Hq) as [Hp Hne]. split; [done|].
  destruct (announced_run _ _ _ _ Hrun Hp) as [H|H]; [by apply elem_of_nil in H | done].
Qed.

Lemma owning_lease es f w q b :
  (∀ o, f ≠ Some (Bound o)) → run me es (initial f) = Some w →
  procs w !! q = Some (Owning b) → lease w = Some q.
Proof using.
  intros Hf Hrun Hq. assert (inv w) as Hi.
  { eapply inv_reachable, run_reachable; [|done]. by apply reach_initial. }
  apply (inv_lease w Hi). by exists (Owning b).
Qed.

(** C17.  A process joins a lock only after the very locker whose socket it
    waited at, another process, wrote the whole of [READY] to its coordinator,
    which is how it reports the compositor's confirmation: whatever the order
    of events, no one is told that a screen is locked before it is. *)
Theorem joined_after_confirmation es f w p q :
  (∀ o, f ≠ Some (Bound o)) → run me es (initial f) = Some w →
  procs w !! q = Some (Joined p) →
  p ≠ q ∧ ∃ pre e post w1,
    es = pre ++ e :: post ∧ run me pre (initial f) = Some w1 ∧ announces p e w1.
Proof using. apply joined_announced. Qed.

(** ** Observers *)

(** Where a process can be once it has found the lease taken. *)
Definition observer (c : Control) : bool :=
  match c with
  | Connecting | Reading | Retrying | Condemned | Joined _ | Failed _ | Gone => true
  | _ => false
  end.

Lemma observer_exec e w w' p c :
  exec me e w = Some w' → procs w !! p = Some c → observer c = true →
  ∃ c', procs w' !! p = Some c' ∧ observer c' = true.
Proof using.
  intros He Hp Ho.
  assert (∀ o d m, m = procs w → (o = p → observer d = true) →
    ∃ c', <[o := d]> m !! p = Some c' ∧ observer c' = true) as Hset.
  { intros o d m -> Hd. destruct (decide (o = p)) as [->|].
    - rewrite lookup_insert_eq. eauto.
    - rewrite lookup_insert_ne by done. eauto. }
  assert (∀ o d, procs (release o d) = procs d) as Hrel.
  { intros o d. unfold release. by case_bool_decide. }
  destruct e as [o|o r|o r|o r|o r|o r|o r|o r|o r|o r|o bs|o|o t|o|o|o r|o|o];
    cbn in He; destruct (procs w !! o) as [d|] eqn:Hd; try done; cbn in He;
    try (destruct d; try done); cbn in He;
    try (destruct r as [[]|]);
    unfold open_lease, lock_lease, connect_socket, read_answer, thread_turn, write_pipe in He;
    repeat (simplify_option_eq || case_match);
    try (cbn; apply (Hset o); [by rewrite ?Hrel|]; intros ->;
         (done || (rewrite Hp in Hd; done) || (rewrite Hp in Hd; injection Hd as ->; done))).
  cbn. destruct (decide (o = p)) as [->|Hne].
  { rewrite lookup_insert_eq. eauto. }
  rewrite lookup_insert_ne by done. eapply Hset; [done|]. intros ->.
  simplify_option_eq. by match goal with H : enqueue _ ?d = Some _ |- _ => destruct d end.
Qed.

(** A process that has once found the lease taken never owns the lock,
    whatever happens to the owner it saw: it ends as joined or failed (or is
    killed), and until then it waits. *)
Theorem observer_never_owns es w w' p c :
  run me es w = Some w' → procs w !! p = Some c → observer c = true →
  ∃ c', procs w' !! p = Some c' ∧ observer c' = true ∧ listening c' = false.
Proof using.
  revert w c. induction es as [|e es IH]; cbn; intros w c.
  - intros [= <-] Hp Hc. exists c. split; [done|]. split; [done|]. by destruct c.
  - destruct (exec me e w) as [w1|] eqn:He; cbn; [|done]. intros Hrun Hp Hc.
    destruct (observer_exec _ _ _ _ _ He Hp Hc) as (c1 & H1 & H2). by eapply IH.
Qed.

(** ** Waiters are answered *)

Lemma confirm_loop_full qs s : NoDup qs →
  (∀ q, q ∈ qs → ∃ o, s !! q = Some (mkStream o [] false)) →
  ∃ s', confirm_loop qs [] s = (s', []) ∧
    (∀ q, q ∉ qs → s' !! q = s !! q) ∧
    (∀ q o, q ∈ qs → s !! q = Some (mkStream o [] false) → s' !! q = Some (mkStream o READY true)).
Proof using.
  revert s. induction qs as [|q qs IH]; cbn -[READY Nat.ltb]; intros s Hnd Hs.
  { exists s. set_solver. }
  apply NoDup_cons in Hnd as [Hq Hnd].
  destruct (IH (write_ready s q (length READY))) as (s' & -> & Hout & Hin); [done| |].
  { intros q' Hq'. unfold write_ready. rewrite lookup_alter_ne by set_solver. set_solver. }
  exists s'. split; [done|]. split.
  - intros q' Hn. rewrite Hout by set_solver. apply lookup_alter_ne. set_solver.
  - intros q' o [->|Hq']%elem_of_cons E.
    + rewrite Hout by done. unfold write_ready. by rewrite lookup_alter_eq, E.
    + apply Hin; [done|]. unfold write_ready. rewrite lookup_alter_ne; [done|set_solver].
Qed.

Lemma crash_answers w p c q :
  inv w → procs w !! p = Some c → q ∈ server_ends c → procs w !! q = Some Reading → p ≠ q →
  ∃ w1, exec me (Crash p) w = Some w1 ∧
    exec me (ReadToEnd q None) w1 = Some (set_proc q (Failed ExistingLockerFailed) w1).
Proof using.
  intros Hi Hp Hin Hq Hne. cbn -[READY Nat.ltb]. rewrite Hp. cbn -[READY Nat.ltb]. eexists. split; [done|].
  unfold leave. cbn -[READY Nat.ltb]. rewrite lookup_insert_ne by done.
  assert (∀ d, procs (release p d) = procs d ∧ streams (release p d) = streams d) as Hrel.
  { intros d. unfold release. by case_bool_decide. }
  rewrite (proj1 (Hrel _)). cbn -[READY Nat.ltb]. rewrite Hq. unfold read_answer. cbn -[READY Nat.ltb].
  rewrite (proj2 (Hrel _)). cbn -[READY Nat.ltb].
  destruct (served_close_all False (server_ends c) (streams w) (inv_ends w Hi p c Hp)) as [_ _ _ Hcl].
  pose proof (inv_queue w Hi p c q Hp Hin) as Hx.
  destruct (Hcl q _ Hin (not_elem_of_nil q) Hx eq_refl) as (k & -> & Hk).
  destruct k as [|k]; [done|]. by destruct Hk.
Qed.

Lemma confirmation_answers w p a c q :
  inv w → procs w !! p = Some (Running a) → thread a = Some c → q ∈ waiters c →
  take (length READY) (ready a) = READY → procs w !! q = Some Reading → p ≠ q →
  ∃ w1, exec me (CoordinatorTurn p (mkTurn (Revents false true false) false [] 0)) w = Some w1 ∧
    exec me (ReadToEnd q None) w1 = Some (set_proc q (Joined p) w1).
Proof using.
  intros Hi Hp Ha Hin Hr Hq Hne.
  pose proof (inv_ends w Hi p _ Hp) as Hnd. cbn in Hnd. rewrite Ha in Hnd.
  assert (∀ q', q' ∈ waiters c → streams w !! q' = Some (mkStream p [] false)) as Hws.
  { intros q' Hq'. apply (inv_queue w Hi p _ q' Hp). cbn. rewrite Ha. set_solver. }
  assert (confirmed c = false) as Hc.
  { destruct (confirmed c) eqn:E; [|done].
    destruct (thread_confirmed _ _ _ (inv_control w Hi p _ Hp c Ha) E) as [_ Hw].
    rewrite Hw in Hin. by apply elem_of_nil in Hin. }
  destruct (confirm_loop_full (waiters c) (streams w)) as (s' & Es & _ & Hs').
  { by apply NoDup_app in Hnd as (? & _). }
  { eauto. }
  cbn -[READY Nat.ltb]. rewrite Hp. unfold thread_turn. rewrite Ha. cbn -[READY Nat.ltb]. unfold coordinate. cbn -[READY Nat.ltb].
  rewrite Hc. cbn -[READY Nat.ltb]. rewrite (proj2 (Nat.ltb_ge _ _)).
  2: { rewrite <- Hr, length_take. lia. }
  rewrite bool_decide_false by (intros E; by apply E). rewrite Es. cbn -[READY Nat.ltb].
  eexists. split; [done|]. cbn -[READY Nat.ltb]. rewrite lookup_insert_ne by done. rewrite Hq.
  unfold read_answer. cbn -[READY Nat.ltb]. rewrite (Hs' q p Hin (Hws q Hin)). cbn -[READY Nat.ltb].
  by rewrite bool_decide_true.
Qed.

(** No waiter is left behind.  A process that is reading its answer has
    a connection that is either closed, so that the read returns, or waits at
    a process that holds the lease and still runs its coordinator; when that
    coordinator reads [READY], one turn answers every waiter and each of them
    joins; and if that process dies first, the read fails with
    [ExistingLockerFailed]. *)
Theorem waiter_is_answered w q :
  reachable me w → procs w !! q = Some Reading →
  ∃ x, streams w !! q = Some x ∧
    (closed x = true →
     exec me (ReadToEnd q None) w =
       Some (set_proc q (if bool_decide (data x = READY) then Joined (server x)
                         else Failed ExistingLockerFailed) w)) ∧
    (closed x = false →
     lease w = Some (server x) ∧
     (∃ w1, exec me (Crash (server x)) w = Some w1 ∧
        exec me (ReadToEnd q None) w1 = Some (set_proc q (Failed ExistingLockerFailed) w1)) ∧
     (∀ a c, procs w !! server x = Some (Running a) → thread a = Some c →
        q ∈ waiters c → take (length READY) (ready a) = READY →
        ∃ w1, exec me (CoordinatorTurn (server x) (mkTurn (Revents false true false) false [] 0)) w = Some w1 ∧
          exec me (ReadToEnd q None) w1 = Some (set_proc q (Joined (server x)) w1))).
Proof using.
  intros Hr Hq.
  pose proof (inv_reachable w Hr) as Hi.
  destruct (inv_control w Hi q _ Hq) as [x Hx]. exists x. split; [done|].
  destruct (inv_stream w Hi q x Hx) as [_ _ Hne _ Hopen]. split; intros Hcl.
  { cbn -[READY]. rewrite Hq. unfold read_answer. rewrite Hx. cbn -[READY]. by rewrite Hcl. }
  destruct (Hopen Hcl) as (_ & c & Hc & Hin). split; [|split].
  - apply (inv_lease w Hi). exists c. split; [done|]. destruct c; try done; by apply elem_of_nil in Hin.
  - by apply (crash_answers w _ c).
  - intros a c1 Ha Hc1 Hw Hready. by apply (confirmation_answers w _ a c1).
Qed.
End Runs.

(** ** What [enter] refuses *)

(** A directory that the locker trusts with its lease. *)
Definition private_directory (h : Host) (env : gmap rstring (list byte)) (p : list byte) : Prop :=
  env !! str "XDG_RUNTIME_DIR" = Some p ∧ is_absolute p = true ∧
  ∃ m, symlink_metadata h p = Some m ∧ file_type m = Directory ∧ uid m = getuid h ∧
    Z.land (mode m) 63 = 0.

Lemma runtime_directory_Ok h env p :
  runtime_directory h env = Ok p ↔ private_directory h env p.
Proof.
  unfold runtime_directory, private_directory. split.
  - intros H. inv_ok. simp_bool. naive_solver.
  - intros (-> & Ha & m & Hm & H1 & H2 & H3). cbn. rewrite Ha. cbn. rewrite Hm. cbn.
    rewrite bool_decide_true by done. by rewrite H2, Z.eqb_refl, H3.
Qed.

Lemma runtime_directory_fails h env : fails_with RuntimeDirectory (runtime_directory h env).
Proof. unfold runtime_directory. auto 20 with genkan. Qed.

Lemma adopt_fails h fd : fails_with WaylandConnection (adopt_wayland_socket h fd).
Proof. unfold adopt_wayland_socket. auto 20 with genkan. Qed.

Lemma connect_fails h d : fails_with WaylandConnection (connect_wayland h d).
Proof. unfold connect_wayland. auto 20 with genkan. Qed.

Lemma wayland_connection_fails h env runtime :
  fails_with WaylandConnection (wayland_connection h env runtime).2.
Proof.
  unfold wayland_connection. destruct (env !! _) as [v|].
  - destruct (wayland_socket_fd v) as [fd|e] eqn:E; cbn; [apply adopt_fails|].
    intros e' [= <-]. revert E. apply fails_with_ok_or.
  - cbn. apply fails_with_bind; [|intros; apply connect_fails]. unfold wayland_socket.
    apply fails_with_bind; [auto with genkan|]. intros d _ e'.
    repeat (case_match; try congruence).
Qed.

(** The connection the locker would use, and who is at its other end. *)
Definition compositor (h : Host) (env : gmap rstring (list byte)) (runtime : list byte)
    (fd pid start : Z) : Prop :=
  (∃ m, (wayland_connection h env runtime).2 = Ok (fd, m)) ∧ peer_identity h fd = Ok (pid, start).

(** [enter] gives up with [RuntimeDirectory] exactly when there is no
    private runtime directory of the user's own; with [WaylandConnection]
    exactly when there is one but no connection; with an I/O error exactly when
    the compositor cannot be identified; [ExistingLockerFailed] is not its
    own.  Otherwise the lease and the socket lie in that directory and are
    named after the compositor's process. *)
Theorem enter_outcome h env :
  match (enter h env).2 with
  | Err RuntimeDirectory => ¬ ∃ p, private_directory h env p
  | Err WaylandConnection =>
    ∃ p, private_directory h env p ∧ ∃ e, (wayland_connection h env p).2 = Err e
  | Err (Io e) =>
    ∃ p fd m, private_directory h env p ∧ (wayland_connection h env p).2 = Ok (fd, m) ∧
      peer_identity h fd = Err e
  | Err ExistingLockerFailed => False
  | Ok (lease, socket, fd) =>
    ∃ p pid start, private_directory h env p ∧ compositor h env p fd pid start ∧
      lease = join p (encode (coordination_stem pid start ++ str ".lease")) ∧
      socket = join p (encode (coordination_stem pid start ++ str ".sock"))
  end.
Proof.
  unfold enter. destruct (runtime_directory h env) as [p|e] eqn:Er.
  - apply runtime_directory_Ok in Er. pose proof (wayland_connection_fails h env p) as Hw.
    unfold compositor. destruct (wayland_connection h env p) as [env' [[fd m]|e]] eqn:Ew; cbn in *.
    + unfold coordination_stem_for. destruct (peer_identity h fd) as [[pid start]|e] eqn:Ep; cbn.
      * exists p, pid, start. rewrite Ew. cbn. eauto 10.
      * exists p, fd, m. by rewrite Ew.
    + rewrite (Hw e eq_refl). exists p. rewrite Ew. cbn. eauto.
  - rewrite (runtime_directory_fails _ _ _ Er). cbn. intros [p Hp]. apply runtime_directory_Ok in Hp. congruence.
Qed.

(** ** The identity of a compositor *)

Definition join_words (ws : list (list Z)) : list Z := ws ≫= λ w, w ++ [32].

(** A line of [/proc/<pid>/stat]: the name may hold anything. *)
Definition stat_line (pid : Z) (comm : list Z) (fields : list (list Z)) : list Z :=
  show_dec pid ++ str " (" ++ comm ++ str ") " ++ join_words fields.

Definition plain_word (w : list Z) : Prop :=
  w ≠ [] ∧ Forall (λ c, is_whitespace c = false ∧ c ≠ 41) w.

Lemma split_join_words ws : Forall plain_word ws → split_whitespace (join_words ws) = ws.
Proof.
  induction 1 as [|w ws [Hw Hf] _ IH]; [done|]. cbn. rewrite <- app_assoc. cbn.
  rewrite split_whitespace_cons; [by f_equal|done| |done].
  eapply Forall_impl; [exact Hf|]. by intros c [? _].
Qed.

Lemma rsplit_no_paren s : Forall (λ c, c ≠ 41) s → rsplit_once (str ") ") s = None.
Proof.
  change (str ") ") with [41; 32].
  induction 1 as [|c s Hc _ IH]; [done|]. cbn in *. rewrite IH.
  by rewrite bool_decide_false by congruence.
Qed.

Lemma join_words_no_paren ws : Forall plain_word ws → Forall (λ c, c ≠ 41) (join_words ws).
Proof.
  induction 1 as [|w ws [_ Hf] _ IH]; [constructor|]. cbn. apply Forall_app. split; [|done].
  apply Forall_app. split; [|by constructor]. eapply Forall_impl; [exact Hf|]. by intros c [_ ?].
Qed.

Lemma rsplit_stat_line pid comm fields : Forall plain_word fields →
  rsplit_once (str ") ") (stat_line pid comm fields) =
    Some (show_dec pid ++ str " (" ++ comm, join_words fields).
Proof.
  intros Hf. unfold stat_line.
  replace (show_dec pid ++ str " (" ++ comm ++ str ") " ++ join_words fields)
    with ((show_dec pid ++ str " (" ++ comm) ++ str ") " ++ join_words fields)
    by (by rewrite <- !app_assoc).
  pose proof (rsplit_no_paren _ (join_words_no_paren _ Hf)) as Hn.
  apply rsplit_once_app; [done|done|]. change (str ") ") with [41; 32] in *. cbn in *. by rewrite Hn.
Qed.

(** The kernel tells whose the other end of [fd] is: its process, started at
    [start], whatever the process calls itself. *)
Record identifies (h : Host) (fd pid : Z) (comm : list Z) (fields : list (list Z)) (start : Z) : Prop := {
  peer_pid : getsockopt_peercred h fd = Ok (UCRED_SIZE, pid) ∧ 0 < pid < 2 ^ 31;
  peer_stat : read_proc_stat h pid = Ok (stat_line pid comm fields) ∧ Forall plain_word fields;
  peer_start : fields !! 19%nat = Some (show_dec start) ∧ 0 ≤ start < 2 ^ 64;
}.

Lemma peer_identity_identifies h fd pid comm fields start :
  identifies h fd pid comm fields start → peer_identity h fd = Ok (pid, start).
Proof.
  intros [[Hg Hp] [Hs Hf] [Ht Hr]]. unfold peer_identity. rewrite Hg. cbn -[rsplit_once stat_line str].
  rewrite (proj2 (Z.ltb_lt 0 pid)) by lia. cbn -[rsplit_once stat_line str]. rewrite Hs. cbn -[rsplit_once stat_line str].
  rewrite rsplit_stat_line by done. cbn -[rsplit_once stat_line str]. rewrite split_join_words by done. rewrite Ht.
  cbn -[parse_unsigned show_dec]. by rewrite parse_unsigned_show.
Qed.

Lemma hyphen_not_hex n : 45 ∉ show_hex n.
Proof.
  intros Hin. pose proof (show_hex_digits n) as H. rewrite Forall_forall in H.
  specialize (H 45 Hin). unfold is_digit16 in H. lia.
Qed.

Lemma coordination_stem_inj pid pid' start start' :
  0 < pid < 2 ^ 31 → 0 < pid' < 2 ^ 31 → 0 ≤ start → 0 ≤ start' →
  coordination_stem pid start = coordination_stem pid' start' → pid = pid' ∧ start = start'.
Proof.
  intros Hp Hp' Hs Hs' E. unfold coordination_stem in E. apply app_inv_head in E.
  apply (app_sep_inj 45) in E as [E1 E2]; [|apply hyphen_not_hex..].
  apply show_radix_inj in E1; [|lia|apply Z.mod_pos_bound; lia..].
  apply show_radix_inj in E2; [|lia..]. rewrite !Z.mod_small in E1 by lia. done.
Qed.

(** Two connections get the same coordination name exactly when the
    same process, of the same start time, is at their other ends, whatever the
    processes are called: a reused process id or a name that looks like the
    fields of [/proc/<pid>/stat] cannot join or split a lock. *)
Theorem compositor_identity h h' fd fd' pid pid' comm comm' fields fields' start start' :
  identifies h fd pid comm fields start → identifies h' fd' pid' comm' fields' start' →
  ∃ stem stem', coordination_stem_for h fd = Ok stem ∧ coordination_stem_for h' fd' = Ok stem' ∧
    (stem = stem' ↔ pid = pid' ∧ start = start').
Proof.
  intros H H'. unfold coordination_stem_for.
  rewrite (peer_identity_identifies _ _ _ _ _ _ H), (peer_identity_identifies _ _ _ _ _ _ H'). cbn.
  do 2 eexists. split; [done|]. split; [done|]. split; [|by intros [-> ->]].
  destruct H as [[_ ?] _ [_ ?]], H' as [[_ ?] _ [_ ?]]. apply coordination_stem_inj; lia.
Qed.

(** A waiter too many is turned away while the owner lives. *)
Lemma overflow_is_refused t c s q :
  confirmed c = false → length (waiters c) = MAX_WAITERS → backlog c = [q] →
  accept_loop 1 t c s = (mkCoordinator (waiters c) false [], close_stream s q).
Proof. destruct c as [ws cf bl]. cbn. intros -> -> ->. done. Qed.

(** ** Concrete runs *)

Definition lease_file : Metadata := mkMetadata Regular 1000 384 1 2 3 4.
Definition enters (p : nat) : list Event := [Arrive p; Open p (Ok lease_file); TryLock p None].
Definition activates (p : nat) : list Event :=
  [RemoveSocket p (Some NotFound); Bind p None; SetPermissions p None; SetNonblocking p None; Activate p None].
Definition accepts_one : Turn := mkTurn (Revents true false false) false [] 1.
Definition reads_ready : Turn := mkTurn (Revents false true false) false [] 0.
(** The owner 1 and the waiter 2, up to the read of the answer. *)
Definition waiting_run : list Event :=
  enters 1 ++ activates 1 ++ enters 2 ++ [Connect 2 None; CoordinatorTurn 1 accepts_one; WriteReady 1 READY].
Definition joining_run : list Event := waiting_run ++ [CoordinatorTurn 1 reads_ready; ReadToEnd 2 None].
Definition after (es : list Event) : World := default (initial None) (run 1000 es (initial None)).

Lemma reachable_after es : run 1000 es (initial None) = Some (after es) → reachable 1000 (after es).
Proof. intros H. eapply run_reachable; [|exact H]. by apply reach_initial. Qed.

Lemma single_owner_witness : ∃ a,
  procs (after joining_run) !! 1%nat = Some (Running a) ∧ lease (after joining_run) = Some 1%nat.
Proof.
  eexists. split; [vm_compute; reflexivity|].
  refine (proj2 (single_owner 1000 (after joining_run) 1 1 _ _ _ eq_refl eq_refl (or_introl eq_refl) (or_introl eq_refl))).
  apply reachable_after. vm_compute. reflexivity.
Defined.

Lemma joined_after_confirmation_witness :
  procs (after joining_run) !! 2%nat = Some (Joined 1) ∧ 1%nat ≠ 2%nat.
Proof.
  split; [vm_compute; reflexivity|].
  refine (proj1 (joined_after_confirmation 1000 joining_run None (after joining_run) 1 2 _ _ _));
    [done | vm_compute; reflexivity | vm_compute; reflexivity].
Defined.

(** The owner dies, another process becomes the owner, and the one that saw
    the first owner does not. *)
Definition succession : list Event :=
  [Crash 1] ++ [TryLock 2 None; CloseLease 2] ++ enters 3 ++ activates 3.
Definition refused_run : list Event := enters 1 ++ enters 2 ++ [Connect 2 (Some NotFound)].

Lemma observer_never_owns_witness :
  procs (after refused_run) !! 2%nat = Some Retrying ∧
  ∃ w c', run 1000 succession (after refused_run) = Some w ∧
    procs w !! 2%nat = Some c' ∧ observer c' = true ∧ listening c' = false.
Proof.
  split; [vm_compute; reflexivity|].
  destruct (run 1000 succession (after refused_run)) as [w|] eqn:E;
    [|vm_compute in E; discriminate E].
  destruct (observer_never_owns 1000 _ _ w 2 Retrying E) as (c' & H);
    [vm_compute; reflexivity | reflexivity | ].
  exists w, c'. split; [reflexivity | exact H].
Defined.

Lemma waiter_is_answered_witness : ∃ x,
  procs (after waiting_run) !! 2%nat = Some Reading ∧ streams (after waiting_run) !! 2%nat = Some x ∧
  closed x = false ∧ lease (after waiting_run) = Some (server x).
Proof.
  destruct (waiter_is_answered 1000 (after waiting_run) 2) as (x & Hx & _ & Hopen);
    [apply reachable_after; vm_compute; reflexivity | vm_compute; reflexivity |].
  exists x. split; [vm_compute; reflexivity|]. split; [exact Hx|].
  assert (closed x = false) as Hc by (vm_compute in Hx; injection Hx as <-; reflexivity).
  split; [exact Hc | exact (proj1 (Hopen Hc))].
Defined.

Definition example_fields : list (list Z) :=
  str "S" :: repeat (str "0") 18 ++ [show_dec 4711; str "7"].
(** A process that calls itself [") R 1 2 3"]. *)
Definition example_host : Host :=
  mkHost 1000 (λ _, None) (λ _, true) (λ _, None) (λ _, None) (λ _, None) (λ _, None) (λ _, None)
    (λ _, Ok (UCRED_SIZE, 42)) (λ _, Ok (stat_line 42 (str ") R 1 2 3") example_fields)).

Lemma example_identifies : identifies example_host 5 42 (str ") R 1 2 3") example_fields 4711.
Proof.
  split; [by split|split; [done|] |by split].
  repeat (constructor; [by split; [|repeat constructor]|]). constructor.
Qed.

Lemma compositor_identity_witness : ∃ stem stem',
  coordination_stem_for example_host 5 = Ok stem ∧ coordination_stem_for example_host 6 = Ok stem' ∧
  (stem = stem' ↔ 42 = 42 ∧ 4711 = 4711).
Proof.
  refine (compositor_identity example_host example_host 5 6 42 42 (str ") R 1 2 3") (str ") R 1 2 3")
    example_fields example_fields 4711 4711 example_identifies _).
  destruct example_identifies. split; assumption.
Defined.
