(* ===== verification/Ordering.v ===== *)
(** * Orders on strings and the stable sorts by them

    [str::cmp] is the lexicographic order on the UTF-8 bytes.  Sessions and
    accounts are both sorted by two string keys, with [sort_by], which is
    stable: the sort is written once here, for any pair of keys. *)

From Stdlib Require Export Sorting.Sorted.
From S2P Require Import Prelude Utf8.

(** [str::cmp] on bytes: the strict order. *)
Fixpoint bytes_lt (a b : list byte) : bool :=
  match a, b with
  | [], [] => false
  | [], _ :: _ => true
  | _ :: _, [] => false
  | x :: a, y :: b => (u8 x <? u8 y) || ((u8 x =? u8 y) && bytes_lt a b)
  end.
Definition str_lt (a b : rstring) : bool := bytes_lt (encode a) (encode b).

(** [left.k1.cmp(&right.k1).then_with(|| left.k2.cmp(&right.k2))]. *)
Definition key_lt {A} (k1 k2 : A → rstring) (a b : A) : bool :=
  str_lt (k1 a) (k1 b) || (negb (str_lt (k1 b) (k1 a)) && str_lt (k2 a) (k2 b)).

(** [slice::sort_by], which is stable. *)
Fixpoint insert_by {A} (lt : A → A → bool) (x : A) (l : list A) : list A :=
  match l with
  | [] => [x]
  | y :: l => if lt y x then y :: insert_by lt x l else x :: y :: l
  end.
Definition sort_by {A} (lt : A → A → bool) (l : list A) : list A := foldr (insert_by lt) [] l.

(** ** Lemmas *)

Lemma bytes_lt_irrefl a : bytes_lt a a = false.
Proof. induction a as [|x a IH]; cbn; [done|]. rewrite IH, Z.ltb_irrefl, Z.eqb_refl. done. Qed.

Lemma bytes_lt_trans a : ∀ b c, bytes_lt a b = true → bytes_lt b c = true → bytes_lt a c = true.
Proof.
  induction a as [|x a IH]; intros [|y b] [|z c]; cbn; try done.
  rewrite !orb_true_iff, !andb_true_iff, !Z.ltb_lt, !Z.eqb_eq.
  intros [?|[? H1]] [?|[? H2]]; try (left; lia). right. split; [lia|eauto].
Qed.

Lemma bytes_lt_total a : ∀ b, bytes_lt a b = false → bytes_lt b a = false → a = b.
Proof.
  induction a as [|x a IH]; intros [|y b]; cbn; try done.
  rewrite !orb_false_iff, !andb_false_iff, !Z.ltb_ge, !Z.eqb_neq.
  intros [? [?|H1]] [? [?|H2]]; try lia.
  assert (x = y) as -> by (apply u8_inj; lia). f_equal. eauto.
Qed.

Lemma str_lt_irrefl a : str_lt a a = false.
Proof. apply bytes_lt_irrefl. Qed.

Lemma str_lt_trans a b c : str_lt a b = true → str_lt b c = true → str_lt a c = true.
Proof. apply bytes_lt_trans. Qed.

Lemma bytes_not_lt_trans a b c :
  bytes_lt b a = false → bytes_lt c b = false → bytes_lt c a = false.
Proof.
  intros H1 H2. destruct (bytes_lt c a) eqn:E; [|done]. destruct (bytes_lt a b) eqn:E2.
  - by rewrite (bytes_lt_trans c a b E E2) in H2.
  - rewrite (bytes_lt_total _ _ E2 H1) in E. congruence.
Qed.

Lemma str_not_lt_trans a b c :
  str_lt b a = false → str_lt c b = false → str_lt c a = false.
Proof. apply bytes_not_lt_trans. Qed.

(** An order whose negation is transitive and total sorts. *)
Class SortOrder {A} (lt : A → A → bool) : Prop := {
  lt_not_trans a b c : lt b a = false → lt c b = false → lt c a = false;
  lt_asym a b : lt a b = true → lt b a = false;
}.

#[export] Instance key_lt_order {A} (k1 k2 : A → rstring) : SortOrder (key_lt k1 k2).
Proof.
  assert (∀ a b, key_lt k1 k2 b a = false ↔ str_lt (k1 b) (k1 a) = false
    ∧ (str_lt (k1 a) (k1 b) = false → str_lt (k2 b) (k2 a) = false)) as Spec.
  { intros a b. unfold key_lt. rewrite orb_false_iff, andb_false_iff, negb_false_iff.
    destruct (str_lt (k1 a) (k1 b)); naive_solver. }
  split.
  - intros a b c. rewrite !Spec. intros [H1 H2] [H3 H4]. split; [by eapply str_not_lt_trans|].
    intros H. apply (str_not_lt_trans _ (k2 b)); [apply H2|apply H4].
    + destruct (str_lt (k1 a) (k1 b)) eqn:E; [|done].
      by rewrite (str_not_lt_trans _ _ _ H3 H) in E.
    + destruct (str_lt (k1 b) (k1 c)) eqn:E; [|done].
      by rewrite (str_not_lt_trans _ _ _ H H1) in E.
  - intros a b H. apply Spec. unfold key_lt in H.
    assert (∀ s t, str_lt s t = true → str_lt t s = false) as Asym.
    { intros s t Hst. destruct (str_lt t s) eqn:E; [|done].
      pose proof (str_lt_trans _ _ _ Hst E). by rewrite str_lt_irrefl in *. }
    apply orb_true_iff in H as [H|H]; [split; [by apply Asym|congruence]|].
    simp_bool. auto.
Qed.

Section SortBy.
Context {A} (lt : A → A → bool) `{!SortOrder lt}.

(** [a] may stand before [b]. *)
Definition ordered (a b : A) : Prop := lt b a = false.

Lemma insert_by_perm x l : insert_by lt x l ≡ₚ x :: l.
Proof using.
  induction l as [|y l IH]; cbn; [done|]. destruct (lt y x); [|done].
  rewrite IH. apply Permutation_swap.
Qed.

Lemma insert_by_sorted x l : StronglySorted ordered l → StronglySorted ordered (insert_by lt x l).
Proof using All.
  induction 1 as [|y l Hs IH Hy]; cbn; [repeat constructor|]. destruct (lt y x) eqn:E.
  - constructor; [done|]. rewrite insert_by_perm. constructor; [by apply lt_asym|done].
  - constructor; [by constructor|]. constructor; [done|]. eapply Forall_impl; [exact Hy|].
    intros z. by apply lt_not_trans.
Qed.

Lemma sort_by_spec l : sort_by lt l ≡ₚ l ∧ StronglySorted ordered (sort_by lt l).
Proof using All.
  unfold sort_by. induction l as [|x l [IH1 IH2]]; cbn [foldr]; [split; [done|constructor]|].
  split; [by rewrite insert_by_perm, IH1|by apply insert_by_sorted].
Qed.
End SortBy.
