(* ===== verification/OutputSelection.v ===== *)
(** * Choosing the output that presents authentication
    ([crates/output-selection/src/lib.rs], [src/outputs.rs])

    [select] is shared by the greeter, which turns the chosen output into a
    layout region, and by the lock runtime.  Names are compared as Rust
    compares [&str]: lexicographically on the UTF-8 bytes. *)

From S2P Require Import Prelude Utf8 Ordering.

Definition INTERNAL_FALLBACK : rstring := str "eDP-1".

(** [Iterator::min_by_key] on the name: the first of the least ones. *)
Fixpoint min_by_name {A} (best : rstring * A) (l : list (rstring * A)) : rstring * A :=
  match l with
  | [] => best
  | x :: l => min_by_name (if str_lt (fst x) (fst best) then x else best) l
  end.
Definition min_by_key {A} (l : list (rstring * A)) : option A :=
  match l with [] => None | x :: l => Some (snd (min_by_name x l)) end.

(** The [filter_map] of [select]. *)
Definition external {T} (o : T * option rstring) : option (rstring * T) :=
  match snd o with
  | Some n => if bool_decide (n = INTERNAL_FALLBACK) then None else Some (n, fst o)
  | None => None
  end.
Definition named_as {T} (n : rstring) (o : T * option rstring) : bool :=
  bool_decide (snd o = Some n).

Definition or_else {A} (a b : option A) : option A :=
  match a with Some x => Some x | None => b end.

Definition select {T} (outputs : list (T * option rstring)) (requested : option rstring) :
    option T :=
  match requested ≫= λ r, List.find (named_as r) outputs with
  | Some o => Some (fst o)
  | None =>
    or_else (min_by_key (omap external outputs))
      (or_else (fst <$> List.find (named_as INTERNAL_FALLBACK) outputs)
               (fst <$> head outputs))
  end.

(** ** The greeter's region ([src/outputs.rs])

    Coordinates are kept as the [i32] values the code computes before it
    casts them to [f32]; [position.0 - min_x] is plain subtraction, so the
    model also says when it overflows an [i32] (a panic in debug builds). *)

Record Output := mkOutput {
  name : option rstring;
  position : Z * Z;
  size : Z * Z;
}.

Record Region := mkRegion {
  x : Z; y : Z; width : Z; height : Z; layout_width : Z; layout_height : Z;
}.
#[export] Instance Region_eq_dec : EqDecision Region.
Proof. solve_decision. Defined.

Definition I32_MIN : Z := -2147483648.
Definition I32_MAX : Z := 2147483647.
Definition saturating_add_i32 (a b : Z) : Z := Z.max I32_MIN (Z.min I32_MAX (a + b)).

(** [Iterator::min]/[max] over integers. *)
Definition min_list (l : list Z) : option Z :=
  match l with [] => None | z :: l => Some (foldl Z.min z l) end.
Definition max_list (l : list Z) : option Z :=
  match l with [] => None | z :: l => Some (foldl Z.max z l) end.

Definition select_region (outputs : list Output) (requested : option rstring) : option Region :=
  selected ← select (imap (λ i o, (i, name o)) outputs) requested;
  min_x ← min_list ((λ o, fst (position o)) <$> outputs);
  min_y ← min_list ((λ o, snd (position o)) <$> outputs);
  max_x ← max_list ((λ o, saturating_add_i32 (fst (position o)) (fst (size o))) <$> outputs);
  max_y ← max_list ((λ o, saturating_add_i32 (snd (position o)) (snd (size o))) <$> outputs);
  output ← outputs !! selected;
  Some (mkRegion (fst (position output) - min_x) (snd (position output) - min_y)
          (fst (size output)) (snd (size output)) (max_x - min_x) (max_y - min_y)).

(** [Discovery::outputs]: what the compositor reported, without the outputs
    that have no logical geometry yet. *)
Record OutputInfo := mkInfo {
  info_name : option rstring;
  logical_position : option (Z * Z);
  logical_size : option (Z * Z);
}.
Definition discovered (infos : list OutputInfo) : list Output :=
  List.filter (λ o, (0 <? fst (size o)) && (0 <? snd (size o)))
    (omap (λ i, p ← logical_position i; s ← logical_size i; Some (mkOutput (info_name i) p s)) infos).

(** [publish_region]: the shared region and the watch channel's sequence. *)
Record Shared := mkShared { region : option Region; sequence : Z }.
Definition publish_region (outputs : list Output) (requested : option rstring) (s : Shared) :
    Shared * bool :=
  let r := select_region outputs requested in
  if bool_decide (region s = r) then (s, false)
  else (mkShared r (wrapping_add 64 (sequence s) 1), true).

(** ** Lemmas: the order on names *)

Lemma encode_inj a b : wf_string a → wf_string b → encode a = encode b → a = b.
Proof.
  intros Ha Hb He. apply (f_equal decode) in He.
  rewrite !decode_encode in He by done. congruence.
Qed.

(** [min_by_name] returns an element no other element is below. *)
Lemma min_by_name_spec {A} (l : list (rstring * A)) : ∀ best,
  let m := min_by_name best l in
  m ∈ best :: l ∧ Forall (λ y, str_lt (fst y) (fst m) = false) (best :: l).
Proof.
  induction l as [|y l IH]; intros best; cbn zeta; cbn [min_by_name].
  { split; [by left|]. constructor; [apply bytes_lt_irrefl|constructor]. }
  destruct (str_lt (fst y) (fst best)) eqn:E.
  - destruct (IH y) as [Hin Hall]. split; [by right|]. constructor; [|done].
    inversion Hall as [|? ? Hy _]; subst.
    destruct (str_lt (fst best) _) eqn:E2; [|done].
    by rewrite (str_lt_trans _ _ _ E E2) in Hy.
  - destruct (IH best) as [Hin Hall]. inversion Hall as [|? ? Hb Hl]; subst.
    split; [set_solver|]. constructor; [done|]. constructor; [|done].
    destruct (str_lt (fst y) (fst (min_by_name best l))) eqn:E2; [|done].
    exfalso. destruct (str_lt (fst (min_by_name best l)) (fst best)) eqn:E3.
    + by rewrite (str_lt_trans _ _ _ E2 E3) in E.
    + pose proof (bytes_lt_total _ _ E3 Hb) as Heq. unfold str_lt in *. congruence.
Qed.

(** ** Lemmas: what [select] returns *)

Lemma find_Some_first {A} (p : A → bool) l x :
  List.find p l = Some x → x ∈ l ∧ p x = true.
Proof. intros [? ?]%List.find_some. by rewrite list_elem_of_In. Qed.

Lemma find_None_all {A} (p : A → bool) l x :
  List.find p l = None → x ∈ l → p x = false.
Proof. intros H ?. eapply List.find_none; [done|]. by apply list_elem_of_In. Qed.

Lemma min_by_key_spec {A} (l : list (rstring * A)) :
  match min_by_key l with
  | None => l = []
  | Some v => ∃ n, (n, v) ∈ l ∧ Forall (λ y, str_lt (fst y) n = false) l
  end.
Proof.
  destruct l as [|x l]; cbn [min_by_key]; [done|].
  destruct (min_by_name_spec l x) as [Hin Hall]. cbn zeta in *.
  destruct (min_by_name x l) as [n v]. by exists n.
Qed.

Lemma named_as_true {T} n (o : T * option rstring) : named_as n o = true ↔ snd o = Some n.
Proof. apply bool_decide_eq_true. Qed.

Lemma elem_of_external {T} (outputs : list (T * option rstring)) n v :
  (n, v) ∈ omap external outputs ↔ (v, Some n) ∈ outputs ∧ n ≠ INTERNAL_FALLBACK.
Proof.
  rewrite list_elem_of_omap. split.
  - intros ([t [m|]] & Hin & He); unfold external in He; cbn in He; [|done].
    case_bool_decide; naive_solver.
  - intros [Hin Hn]. exists (v, Some n). split; [done|].
    unfold external. cbn. by rewrite bool_decide_eq_false_2.
Qed.

(** The reference: what the documentation of [select] promises. *)
Inductive chosen {T} (outputs : list (T * option rstring)) (requested : option rstring) : T → Prop :=
| chosen_requested r v :
    requested = Some r → (v, Some r) ∈ outputs → chosen outputs requested v
| chosen_external n v :
    (∀ r w, requested = Some r → (w, Some r) ∉ outputs) →
    (v, Some n) ∈ outputs → n ≠ INTERNAL_FALLBACK →
    (∀ n' w, (w, Some n') ∈ outputs → n' ≠ INTERNAL_FALLBACK → str_lt n' n = false) →
    chosen outputs requested v
| chosen_internal v :
    (∀ r w, requested = Some r → (w, Some r) ∉ outputs) →
    (∀ n' w, (w, Some n') ∈ outputs → n' = INTERNAL_FALLBACK) →
    (v, Some INTERNAL_FALLBACK) ∈ outputs → chosen outputs requested v
| chosen_unnamed v :
    (∀ n' w, (w, Some n') ∉ outputs) → (v, None) ∈ outputs → chosen outputs requested v.

Lemma requested_find {T} (outputs : list (T * option rstring)) requested :
  (requested ≫= λ r, List.find (named_as r) outputs) = None →
  ∀ r w, requested = Some r → (w, Some r) ∉ outputs.
Proof.
  intros H r w -> Hin. cbn in H.
  pose proof (find_None_all _ _ _ H Hin) as Hf.
  apply not_true_iff_false in Hf. by rewrite named_as_true in Hf.
Qed.

Lemma find_named_fst {T} n (outputs : list (T * option rstring)) o :
  List.find (named_as n) outputs = Some o → (fst o, Some n) ∈ outputs.
Proof.
  intros [Hin Hn%named_as_true]%find_Some_first. destruct o; cbn in *; by subst.
Qed.

Lemma select_chosen {T} (outputs : list (T * option rstring)) requested v :
  select outputs requested = Some v → chosen outputs requested v.
Proof.
  unfold select. destruct (requested ≫= _) as [o|] eqn:Hr.
  { intros [= <-]. destruct requested as [r|]; [|done].
    by apply (chosen_requested _ _ r); [|apply find_named_fst]. }
  pose proof (requested_find _ _ Hr) as Hno.
  pose proof (min_by_key_spec (omap external outputs)) as Hm.
  destruct (min_by_key _) as [w|]; cbn [or_else].
  { intros [= <-]. destruct Hm as (n & [Hin Hn]%elem_of_external & Hall).
    apply (chosen_external _ _ n); [done..|].
    intros n' w' Hin' Hn'. rewrite Forall_forall in Hall.
    apply (Hall (n', w')). by apply elem_of_external. }
  assert (∀ n' w, (w, Some n') ∈ outputs → n' = INTERNAL_FALLBACK) as Hint.
  { intros n' w Hin. destruct (decide (n' = INTERNAL_FALLBACK)) as [|Hne]; [done|].
    pose proof (proj2 (elem_of_external _ _ _) (conj Hin Hne)) as H. rewrite Hm in H. set_solver. }
  destruct (List.find _ _) as [o|] eqn:Hf; cbn [or_else fmap option_fmap option_map].
  { intros [= <-]. by apply chosen_internal; [..|apply find_named_fst]. }
  destruct outputs as [|[t m] outputs']; cbn [head fmap option_fmap option_map]; [done|].
  intros [= <-]. apply chosen_unnamed.
  - intros n' w Hin. pose proof (Hint _ _ Hin); subst n'.
    pose proof (find_None_all _ _ _ Hf Hin) as Hff. 
    apply not_true_iff_false in Hff. by rewrite named_as_true in Hff.
  - destruct m as [n|]; [|by left]. exfalso.
    assert (n = INTERNAL_FALLBACK) as -> by (apply (Hint n t); by left). cbn in Hf.
    unfold named_as at 1 in Hf. cbn in Hf. by rewrite bool_decide_eq_true_2 in Hf.
Qed.

Lemma select_total {T} (outputs : list (T * option rstring)) requested :
  outputs ≠ [] → is_Some (select outputs requested).
Proof.
  intros Hne. unfold select. destruct (requested ≫= _); [done|].
  destruct (min_by_key _); [done|]. destruct (List.find _ _); [done|].
  by destruct outputs.
Qed.

Lemma chosen_perm {T} (o1 o2 : list (T * option rstring)) requested v :
  o1 ≡ₚ o2 → chosen o2 requested v → chosen o1 requested v.
Proof.
  intros Hp Hv. assert (∀ x, x ∈ o2 ↔ x ∈ o1) as Hin by (intros; by rewrite Hp).
  destruct Hv; [eapply chosen_requested|eapply chosen_external|eapply chosen_internal
    |eapply chosen_unnamed]; try setoid_rewrite <- Hin; eauto.
Qed.

(** Two of the promises cannot both apply. *)
Ltac chosen_clash :=
  match goal with
  | H : ∀ r w, Some ?r0 = Some r → _ ∉ ?o, Hi : (?v, Some ?r0) ∈ ?o |- _ =>
    destruct (H r0 v eq_refl Hi)
  | H : ∀ n w, (w, Some n) ∉ ?o, Hi : (?v, Some ?n) ∈ ?o |- _ => destruct (H n v Hi)
  | H : ∀ n w, (w, Some n) ∈ ?o → n = INTERNAL_FALLBACK, Hi : (?v, Some ?n) ∈ ?o,
    Hne : ?n ≠ INTERNAL_FALLBACK |- _ => destruct (Hne (H n v Hi))
  end.

Lemma chosen_unique {T} (o : list (T * option rstring)) requested v w :
  Forall (λ o, from_option (λ n, wf_string n) True (snd o)) o →
  (∀ n t t', (t, Some n) ∈ o → (t', Some n) ∈ o → t = t') →
  (∃ n t, (t, Some n) ∈ o) →
  chosen o requested v → chosen o requested w → v = w.
Proof.
  intros Hwf Hu (n0 & t0 & H0) Hv Hw. rewrite Forall_forall in Hwf.
  destruct Hv as [r v Hr Hi|n v Hno Hi Hne Hmin|v Hno Hall Hi|v Hno Hi];
    destruct Hw as [r' w Hr' Hi'|n' w Hno' Hi' Hne' Hmin'|w Hno' Hall' Hi'|w Hno' Hi'];
    simplify_eq; try chosen_clash; try (by eauto).
  assert (n = n') as <-; [|by eauto].
  apply encode_inj; [apply (Hwf (v, Some n) Hi) | apply (Hwf (w, Some n') Hi') |].
  apply bytes_lt_total; [by apply (Hmin' n v)|by apply (Hmin n' w)].
Qed.

(** ** Lemmas: the region *)

Lemma foldl_max_ge l : ∀ z, z ≤ foldl Z.max z l ∧ Forall (λ y, y ≤ foldl Z.max z l) l.
Proof.
  induction l as [|y l IH]; intros z; cbn; [by split|].
  destruct (IH (Z.max z y)) as [H1 H2]. split; [lia|]. constructor; [lia|done].
Qed.

Lemma min_list_le l m y : min_list l = Some m → y ∈ l → m ≤ y.
Proof.
  destruct l as [|z l]; [done|]. intros [= <-]. destruct (foldl_min_le l z) as [H1 H2].
  rewrite Forall_forall in H2. rewrite elem_of_cons. intros [->|?]; [done|by apply H2].
Qed.
Lemma max_list_ge l m y : max_list l = Some m → y ∈ l → y ≤ m.
Proof.
  destruct l as [|z l]; [done|]. intros [= <-]. destruct (foldl_max_ge l z) as [H1 H2].
  rewrite Forall_forall in H2. rewrite elem_of_cons. intros [->|?]; [done|by apply H2].
Qed.

(** ** Properties *)

(** [select] implements its documented policy: a requested connector wins
    when present; otherwise the least-named external one; otherwise the
    internal panel; otherwise, when nothing is named, any output.  It fails
    only when there is no output at all. *)
Theorem select_policy {T} (outputs : list (T * option rstring)) requested :
  match select outputs requested with
  | Some v => chosen outputs requested v
  | None => outputs = []
  end.
Proof.
  destruct (select outputs requested) as [v|] eqn:E; [by apply select_chosen|].
  destruct outputs as [|o outputs]; [done|].
  destruct (select_total (o :: outputs) requested) as [w Hw]; [done|congruence].
Qed.

(** The choice is deterministic: connector names being distinct, two
    enumerations of the same outputs, at least one of them named, yield the
    same output whatever order the compositor announced them in. *)
Theorem select_deterministic {T} (o1 o2 : list (T * option rstring)) requested :
  o1 ≡ₚ o2 →
  Forall (λ o, from_option (λ n, wf_string n) True (snd o)) o1 →
  (∀ n t t', (t, Some n) ∈ o1 → (t', Some n) ∈ o1 → t = t') →
  (∃ n t, (t, Some n) ∈ o1) →
  select o1 requested = select o2 requested.
Proof.
  intros Hp Hwf Hu Hn.
  assert (o1 ≠ []) as Hne1 by (destruct Hn as (? & ? & Hn); intros ->; set_solver).
  assert (o2 ≠ []) as Hne2.
  { intros ->. apply Permutation_nil_r in Hp. done. }
  destruct (select_total o1 requested Hne1) as [v Hv], (select_total o2 requested Hne2) as [w Hw].
  rewrite Hv, Hw. f_equal.
  apply (chosen_unique o1 requested); [done..| by apply select_chosen |].
  by eapply chosen_perm; [|apply select_chosen].
Qed.

Lemma select_deterministic_witness :
  select [(0%nat, Some (str "DP-2")); (1%nat, Some (str "eDP-1"))] None
  = select [(1%nat, Some (str "eDP-1")); (0%nat, Some (str "DP-2"))] None.
Proof.
  apply select_deterministic.
  - apply Permutation_swap.
  - repeat constructor.
  - intros n t t'. rewrite !elem_of_cons, !elem_of_nil. intros [[= -> ->]|[[= -> ->]|[]]] [Hb|[Hb|[]]];
      first [congruence | exfalso; apply (f_equal snd) in Hb; vm_compute in Hb; discriminate].
  - exists (str "DP-2"), 0%nat. by left.
Defined.

(** The region lies inside its layout: with positive sizes whose extents
    fit an [i32], the chosen output's rectangle is within the bounding box of
    all of them. *)
Theorem select_region_inside outputs requested r :
  Forall (λ o, 0 < fst (size o) ∧ 0 < snd (size o)
    ∧ I32_MIN ≤ fst (position o) ∧ fst (position o) + fst (size o) ≤ I32_MAX
    ∧ I32_MIN ≤ snd (position o) ∧ snd (position o) + snd (size o) ≤ I32_MAX) outputs →
  select_region outputs requested = Some r →
  0 ≤ x r ∧ 0 < width r ∧ x r + width r ≤ layout_width r
  ∧ 0 ≤ y r ∧ 0 < height r ∧ y r + height r ≤ layout_height r.
Proof.
  intros Hf. unfold select_region.
  intros (i & _ & (mx & E1 & (my & E2 & (Mx & E3 & (My & E4 & (o & Ho & [= <-])
    %bind_Some)%bind_Some)%bind_Some)%bind_Some)%bind_Some)%bind_Some. cbn.
  apply list_elem_of_lookup_2 in Ho. rewrite Forall_forall in Hf. specialize (Hf o Ho).
  apply (min_list_le _ _ (fst (position o))) in E1; [|by apply (list_elem_of_fmap_2 (λ o, fst (position o)))].
  apply (min_list_le _ _ (snd (position o))) in E2; [|by apply (list_elem_of_fmap_2 (λ o, snd (position o)))].
  apply (max_list_ge _ _ (saturating_add_i32 (fst (position o)) (fst (size o)))) in E3;
    [|by apply (list_elem_of_fmap_2 (λ o, saturating_add_i32 (fst (position o)) (fst (size o))))].
  apply (max_list_ge _ _ (saturating_add_i32 (snd (position o)) (snd (size o)))) in E4;
    [|by apply (list_elem_of_fmap_2 (λ o, saturating_add_i32 (snd (position o)) (snd (size o))))].
  unfold saturating_add_i32, I32_MIN, I32_MAX in *. lia.
Qed.

Lemma select_region_inside_witness :
  let r := mkRegion 1920 0 2560 1440 4480 1440 in
  select_region [mkOutput (Some (str "eDP-1")) (0, 0) (1920, 1080);
                 mkOutput (Some (str "DP-1")) (1920, 0) (2560, 1440)] None = Some r
  ∧ 0 ≤ x r ∧ 0 < width r ∧ x r + width r ≤ layout_width r
  ∧ 0 ≤ y r ∧ 0 < height r ∧ y r + height r ≤ layout_height r.
Proof.
  cbn zeta. split; [vm_compute; reflexivity|].
  apply (select_region_inside
    [mkOutput (Some (str "eDP-1")) (0, 0) (1920, 1080);
     mkOutput (Some (str "DP-1")) (1920, 0) (2560, 1440)] None).
  - repeat constructor; cbn; unfold I32_MIN, I32_MAX; lia.
  - vm_compute. reflexivity.
Defined.
