(* ===== verification/SessionLock.v ===== *)
(** * The session-lock crate's interface ([crates/session-lock/src/lib.rs])

    The frames a presentation hands to the lock runtime, the [Presentation]
    trait as a type class, and the lock's lifecycle machine. *)

From S2P Require Import Prelude Utf8.

(** ** Frames *)

Record RgbaFrame := mkRgba { fwidth : Z; fheight : Z; pixels : list byte }.
#[export] Instance RgbaFrame_eq_dec : EqDecision RgbaFrame.
Proof. solve_decision. Defined.

(** [RgbaFrame::new]: both products are checked [u32] multiplications. *)
Definition rgba_new (width height : Z) (pixels : list byte) : option RgbaFrame :=
  area ← checked_mul 32 width height;
  expected ← checked_mul 32 area 4;
  if (0 <? width) && (0 <? height) && (Z.of_nat (length pixels) =? expected)
  then Some (mkRgba width height pixels) else None.

Record PresentationFrame := mkFrame {
  pwidth : Z; pheight : Z;
  background : option RgbaFrame;
  overlay : RgbaFrame;
  overlay_x : Z; overlay_y : Z;
}.

(** [PresentationFrame::new]; the two [?] return [None] on [u32] overflow and
    are only evaluated when the earlier operands of [||] are false. *)
Definition frame_new (width height : Z) (background : option RgbaFrame) (overlay : RgbaFrame)
    (overlay_x overlay_y : Z) : option PresentationFrame :=
  if (width =? 0) || (height =? 0) then None
  else
    right ← checked_add 32 overlay_x (fwidth overlay);
    if width <? right then None
    else
      bottom ← checked_add 32 overlay_y (fheight overlay);
      if height <? bottom then None
      else Some (mkFrame width height background overlay overlay_x overlay_y).

(** What the constructors guarantee, for [u32] arguments. *)
Definition wf_rgba (f : RgbaFrame) : Prop :=
  0 < fwidth f < 2 ^ 32 ∧ 0 < fheight f < 2 ^ 32
  ∧ Z.of_nat (length (pixels f)) = fwidth f * fheight f * 4
  ∧ fwidth f * fheight f * 4 < 2 ^ 32.
Definition wf_frame (f : PresentationFrame) : Prop :=
  0 < pwidth f < 2 ^ 32 ∧ 0 < pheight f < 2 ^ 32 ∧ wf_rgba (overlay f)
  ∧ 0 ≤ overlay_x f ∧ overlay_x f + fwidth (overlay f) ≤ pwidth f
  ∧ 0 ≤ overlay_y f ∧ overlay_y f + fheight (overlay f) ≤ pheight f.

(** ** The presentation trait *)

Inductive Refresh := Unchanged | RFrame | ROverlay | RFailed.
#[export] Instance Refresh_eq_dec : EqDecision Refresh.
Proof. solve_decision. Defined.

Inductive Input := Text (s : rstring) | Backspace | Submit | Cancel | NextPage.

Class Presentation (P : Type) := {
  receive_latest : P → P * Refresh;
  receive_deferred : P → P * Refresh;
  frame : P → option PresentationFrame;
  lock_confirmed : P → P;
  give_input : Input → P → P * bool;
  take_authorization : P → P * bool;
}.

(** ** The lifecycle *)

Inductive Lifecycle := Requesting | Locked | Denied | Aborted | Unlocking.
#[export] Instance Lifecycle_eq_dec : EqDecision Lifecycle.
Proof. solve_decision. Defined.

Inductive Event := LockConfirmed | LockFinished | RuntimeFailed | PresentationFailed.

Inductive Action := ANone | ReportReady | Abort | UnlockAndSynchronize.
#[export] Instance Action_eq_dec : EqDecision Action.
Proof. solve_decision. Defined.

Record State := mkState { lifecycle : Lifecycle; presentation_failed : bool }.

Definition state_new : State := mkState Requesting false.

Definition update (e : Event) (s : State) : State * Action :=
  match e with
  | LockConfirmed =>
    if bool_decide (lifecycle s = Requesting)
    then (mkState Locked (presentation_failed s), ReportReady) else (s, ANone)
  | LockFinished =>
    if bool_decide (lifecycle s = Requesting)
    then (mkState Denied (presentation_failed s), Abort)
    else (mkState Aborted (presentation_failed s), Abort)
  | RuntimeFailed => (mkState Aborted (presentation_failed s), Abort)
  | PresentationFailed => (mkState (lifecycle s) true, ANone)
  end.

Definition authorize_unlock (s : State) : State * Action :=
  if negb (bool_decide (lifecycle s = Locked)) then (s, ANone)
  else (mkState Unlocking (presentation_failed s), UnlockAndSynchronize).

(** ** Lemmas *)

Lemma rgba_new_Some w h px f : 0 ≤ w → 0 ≤ h →
  rgba_new w h px = Some f ↔ f = mkRgba w h px ∧ wf_rgba f.
Proof.
  intros Hw Hh. unfold rgba_new, wf_rgba. split.
  - intros (a & [-> Ha]%checked_mul_Some & (e & [-> He]%checked_mul_Some & Hf)%bind_Some)%bind_Some.
    destruct (_ && _) eqn:E; [|done]. simp_bool. simplify_eq. cbn.
    split; [done|]. split_and!; try lia; nia.
  - intros [-> H]. cbn in H. destruct H as (? & ? & ? & ?). 
    rewrite (proj2 (checked_mul_Some 32 w h (w * h))) by nia. cbn [mbind option_bind].
    rewrite (proj2 (checked_mul_Some 32 (w * h) 4 (w * h * 4))) by nia. cbn [mbind option_bind].
    rewrite !(proj2 (Z.ltb_lt _ _)), (proj2 (Z.eqb_eq _ _)) by lia. done.
Qed.

Lemma frame_new_Some w h bg ov x y f :
  0 ≤ w < 2 ^ 32 → 0 ≤ h < 2 ^ 32 → 0 ≤ x → 0 ≤ y → wf_rgba ov →
  frame_new w h bg ov x y = Some f ↔ f = mkFrame w h bg ov x y ∧ wf_frame f.
Proof.
  intros Hw Hh Hx Hy Hov. unfold frame_new, wf_frame. split.
  - destruct (_ || _) eqn:E; [done|]. simp_bool.
    intros (r & [-> Hr]%checked_add_Some & Hf)%bind_Some.
    destruct (Z.ltb_spec w (x + fwidth ov)); [done|].
    apply bind_Some in Hf as (b & [-> Hb]%checked_add_Some & Hf).
    destruct (Z.ltb_spec h (y + fheight ov)); [done|]. simplify_eq. cbn.
    split; [done|]. split_and!; try done; lia.
  - intros [-> H]. cbn in H. destruct H as (? & ? & ? & ? & ? & ? & ?).
    rewrite !(proj2 (Z.eqb_neq _ _)) by lia. cbn [orb].
    rewrite (proj2 (checked_add_Some 32 x _ (x + fwidth ov))) by lia. cbn [mbind option_bind].
    rewrite (proj2 (Z.ltb_ge _ _)) by lia.
    rewrite (proj2 (checked_add_Some 32 y _ (y + fheight ov))) by lia. cbn [mbind option_bind].
    by rewrite (proj2 (Z.ltb_ge _ _)) by lia.
Qed.

(** ** The lifecycle as a labelled transition system *)

Inductive lifecycle_step (s : State) : State → Action → Prop :=
| step_update e : lifecycle_step s (fst (update e s)) (snd (update e s))
| step_authorize : lifecycle_step s (fst (authorize_unlock s)) (snd (authorize_unlock s)).

(** Runs from the initial state with the actions they requested, oldest first. *)
Inductive lifecycle_run : State → list Action → Prop :=
| run_start : lifecycle_run state_new []
| run_step s acts s' a : lifecycle_run s acts → lifecycle_step s s' a →
    lifecycle_run s' (acts ++ [a]).

Definition visible (acts : list Action) : list Action := filter (λ a, a ≠ ANone) acts.

(** The specification of the lock client: nothing, or ready at most once and
    then at most one unlock, and aborts only at the end. *)
Inductive lock_trace : list Action → Prop :=
| trace_aborted n : lock_trace (replicate n Abort)
| trace_ready n : lock_trace (ReportReady :: replicate n Abort)
| trace_unlocked n : lock_trace (ReportReady :: UnlockAndSynchronize :: replicate n Abort).

(** What the trace looks like in each state. *)
Definition trace_of (l : Lifecycle) (tr : list Action) : Prop :=
  match l with
  | Requesting => tr = []
  | Locked => tr = [ReportReady]
  | Unlocking => tr = [ReportReady; UnlockAndSynchronize]
  | Denied | Aborted => lock_trace tr
  end.

Lemma lock_trace_abort tr : lock_trace tr → lock_trace (tr ++ [Abort]).
Proof.
  intros [n|n|n]; cbn; rewrite <- replicate_cons_app;
    [apply (trace_aborted (S n))|apply (trace_ready (S n))|apply (trace_unlocked (S n))].
Qed.
Lemma trace_of_lock_trace l tr : trace_of l tr → lock_trace tr.
Proof.
  destruct l; cbn; try done; intros ->.
  - apply (trace_aborted 0).
  - apply (trace_ready 0).
  - apply (trace_unlocked 0).
Qed.

Lemma trace_of_step s s' a tr : lifecycle_step s s' a → trace_of (lifecycle s) tr →
  trace_of (lifecycle s') (tr ++ visible [a]).
Proof.
  intros Hstep Htr. pose proof (trace_of_lock_trace _ _ Htr) as Hl. destruct s as [l pf].
  destruct Hstep as [[]|]; unfold update, authorize_unlock; destruct l; cbn in *; subst;
    rewrite ?app_nil_r; try done; by apply lock_trace_abort.
Qed.

Lemma trace_of_run s acts : lifecycle_run s acts → trace_of (lifecycle s) (visible acts).
Proof.
  induction 1 as [|s acts s' a _ IH Hstep]; [done|].
  unfold visible. rewrite filter_app. by eapply trace_of_step.
Qed.

(** ** Properties *)

(** The lock's lifecycle fails closed: in every run, whatever order the
    compositor, the runtime and the authentication worker produce their
    events in, readiness is reported at most once, the unlock is requested at
    most once and only after the compositor confirmed the lock and before any
    failure, and the state says which of these happened. *)
Theorem lifecycle_fail_closed s acts :
  lifecycle_run s acts → lock_trace (visible acts) ∧ trace_of (lifecycle s) (visible acts).
Proof.
  intros H%trace_of_run. split; [by eapply trace_of_lock_trace|done].
Qed.

Lemma lifecycle_fail_closed_witness :
  let acts := [ReportReady; ANone; UnlockAndSynchronize; Abort] in
  lock_trace (visible acts) ∧ trace_of Aborted (visible acts).
Proof.
  apply (lifecycle_fail_closed (mkState Aborted true)).
  apply (run_step (mkState Unlocking true) [ReportReady; ANone; UnlockAndSynchronize] _ Abort);
    [|exact (step_update (mkState Unlocking true) RuntimeFailed)].
  apply (run_step (mkState Locked true) [ReportReady; ANone]);
    [|exact (step_authorize (mkState Locked true))].
  apply (run_step (mkState Locked false) [ReportReady]);
    [|exact (step_update (mkState Locked false) PresentationFailed)].
  apply (run_step state_new []); [apply run_start|exact (step_update state_new LockConfirmed)].
Defined.

(** Frames are sound by construction: the constructors accept exactly the
    well-formed arguments, so a frame's pixel buffer has four bytes per pixel
    without [u32] overflow and an overlay never reaches outside its canvas. *)
Theorem frames_sound w h bg ow oh px x y :
  0 ≤ w < 2 ^ 32 → 0 ≤ h < 2 ^ 32 → 0 ≤ ow → 0 ≤ oh → 0 ≤ x → 0 ≤ y →
  ∀ f, (ov ← rgba_new ow oh px; frame_new w h bg ov x y) = Some f ↔
       f = mkFrame w h bg (mkRgba ow oh px) x y ∧ wf_frame f.
Proof.
  intros Hw Hh How Hoh Hx Hy f. rewrite bind_Some. split.
  - intros (ov & [-> Hov]%rgba_new_Some & Hf); [|done..].
    by apply frame_new_Some in Hf.
  - intros [-> Hf]. pose proof Hf as (_ & _ & Hov & _). cbn in Hov.
    exists (mkRgba ow oh px). split; [by apply rgba_new_Some|by apply frame_new_Some].
Qed.

Lemma frames_sound_witness :
  (ov ← rgba_new 1 1 (replicate 4 Byte.x00); frame_new 3 2 None ov 2 1)
  = Some (mkFrame 3 2 None (mkRgba 1 1 (replicate 4 Byte.x00)) 2 1).
Proof.
  apply (frames_sound 3 2 None 1 1 (replicate 4 Byte.x00) 2 1); try lia.
  split; [done|]. unfold wf_frame, wf_rgba. cbn. lia.
Defined.
