(* ===== verification/LockRuntime.v ===== *)
(** * The lock runtime ([crates/session-lock/src/runtime.rs])

    The event handlers and the main loop of the locker as functions on the
    [Runtime] record: lock lifecycle, redraw scheduling, buffer reuse, and the
    hand-over of the authentication overlay between outputs.

    What the compositor and the kernel decide is an argument of the function
    that asks: the current time, whether a buffer was released, whether an
    allocation, an attach or a write worked, the identity of a presentation
    feedback object.  What the runtime does to the outside is appended to
    [trace].  A buffer's pixels are the drawings made on it, [b_calls], which
    [LockDraw] executes; [b_painted] says that they may show the authentication
    overlay. *)

From S2P Require Import Prelude Utf8 SessionLock.
From S2P Require OutputSelection.

Definition NANOS : Z := 1000000000.
Definition MAX_SURFACE_PIXELS : Z := 16384 * 16384.
Definition MAX_SURFACE_DIMENSION : Z := 16384.
Definition BUFFER_COUNT : nat := 2.
Definition MAX_BUFFER_BYTES : Z := 256 * 1024 * 1024.
Definition AUTHENTICATION_RETIREMENT_TIMEOUT : Z := NANOS.

Inductive RuntimeError :=
| Connect | MissingProtocol | RuntimeFailure (what : string) | ELockFinished.

(** ** Authentication retirement *)

Inductive AuthenticationRetirement :=
| AwaitingCommit (deadline : Z)
| AwaitingPresentation (deadline : Z).

Definition retirement_begin (now : Z) : AuthenticationRetirement :=
  AwaitingCommit (now + AUTHENTICATION_RETIREMENT_TIMEOUT).
Definition retirement_committed (r : AuthenticationRetirement) : AuthenticationRetirement :=
  match r with AwaitingCommit d => AwaitingPresentation d | _ => r end.
Definition retirement_discarded (r : AuthenticationRetirement) : AuthenticationRetirement :=
  match r with AwaitingPresentation d => AwaitingCommit d | _ => r end.
Definition accepts_presentation (r : AuthenticationRetirement) : bool :=
  match r with AwaitingPresentation _ => true | _ => false end.
Definition expired (r : AuthenticationRetirement) (now : Z) : bool :=
  match r with AwaitingCommit d | AwaitingPresentation d => d <=? now end.

(** ** Redraw scheduling *)

Inductive RedrawKind := KOverlay | KFull.
#[export] Instance RedrawKind_eq_dec : EqDecision RedrawKind.
Proof. solve_decision. Defined.

Inductive OverlayProgress := PNone | PPartial | PFull | PBlocked.
#[export] Instance OverlayProgress_eq_dec : EqDecision OverlayProgress.
Proof. solve_decision. Defined.

Record RedrawState := mkRedraw {
  frame_pending : bool;
  redraw_pending : option RedrawKind;
  geometry_pending : bool;
  role_pending : bool;
}.

Definition request (kind : RedrawKind) (r : RedrawState) : RedrawState * bool :=
  let p := if bool_decide (redraw_pending r = Some KFull) then redraw_pending r else Some kind in
  (mkRedraw (frame_pending r) p (geometry_pending r) (role_pending r), negb (frame_pending r)).
Definition request_geometry (r : RedrawState) : RedrawState :=
  mkRedraw (frame_pending r) (Some KFull) true (role_pending r).
Definition request_role_change (r : RedrawState) : RedrawState :=
  mkRedraw (frame_pending r) (Some KFull) true true.
Definition request_media (r : RedrawState) : RedrawState * bool :=
  if bool_decide (redraw_pending r = Some KOverlay) then (r, false) else request KFull r.

Definition redraw_can_progress (current_buffer_count : nat) (reusable : bool) : bool :=
  reusable || (current_buffer_count <? BUFFER_COUNT)%nat.
Definition should_render (r : RedrawState) (count : nat) (reusable : bool) : bool :=
  bool_decide (is_Some (redraw_pending r))
  && (geometry_pending r || (negb (frame_pending r) && redraw_can_progress count reusable)).
Definition request_frame_callback (r : RedrawState) : bool := negb (frame_pending r).
Definition redraw_committed (requested : bool) (r : RedrawState) : RedrawState :=
  mkRedraw (frame_pending r || requested) None false false.
Definition frame_done (r : RedrawState) : RedrawState :=
  mkRedraw false (redraw_pending r) (geometry_pending r) (role_pending r).

Definition overlay_progress (r : RedrawState) (count : nat)
    (reusable current_background_reusable include_pending_full : bool) : OverlayProgress :=
  match redraw_pending r with
  | Some KFull =>
    if include_pending_full then if should_render r count reusable then PFull else PBlocked
    else PNone
  | None => PNone
  | Some KOverlay =>
    if negb (should_render r count reusable) then PBlocked
    else if geometry_pending r || negb current_background_reusable then PFull
    else PPartial
  end.

Record OverlayProgressSummary := mkSummary {
  partial : bool; full : bool; blocked : bool; unblocked : bool }.
Definition summary_default : OverlayProgressSummary := mkSummary false false false false.

Definition should_poll_deferred (priority : Refresh) (p : OverlayProgressSummary) : bool :=
  match priority with
  | Unchanged => if blocked p then unblocked p else negb (partial p) || full p
  | ROverlay => full p || (blocked p && unblocked p)
  | RFrame | RFailed => false
  end.
Definition should_allow_overlay_full (poll_deferred : bool) (p : OverlayProgressSummary) : bool :=
  poll_deferred || full p.

Definition select_reusable_buffer (requested : RedrawKind) (background_generation : Z)
    (reusable : list (nat * Z)) : option nat :=
  if bool_decide (requested = KOverlay) then
    OutputSelection.or_else
      (fst <$> List.find (λ '(_, g), g =? background_generation) reusable)
      (fst <$> head reusable)
  else fst <$> head reusable.

(** ** Geometry *)

Record Region := mkRegion { rx : Z; ry : Z; rwidth : Z; rheight : Z }.
#[export] Instance Region_eq_dec : EqDecision Region.
Proof. solve_decision. Defined.
Record FrameGeometry := mkGeometry { canvas : Z * Z; overlay_at : Region }.
#[export] Instance FrameGeometry_eq_dec : EqDecision FrameGeometry.
Proof. solve_decision. Defined.

Definition region_full (w h : Z) : Region := mkRegion 0 0 w h.

Definition frame_geometry (f : option PresentationFrame) : option FrameGeometry :=
  f ← f;
  Some (mkGeometry (pwidth f, pheight f)
    (mkRegion (overlay_x f) (overlay_y f) (fwidth (overlay f)) (fheight (overlay f)))).

Definition overlay_redraw_kind (previous current : option FrameGeometry) : RedrawKind :=
  if bool_decide (previous = current) then KOverlay else KFull.

(** The products are [u32]s: [<=? 0] is the code's [== 0]. *)
Definition buffer_size (width height scale : Z) : result RuntimeError (Z * Z) :=
  match checked_mul 32 width scale, checked_mul 32 height scale with
  | Some w, Some h =>
    if (w <=? 0) || (h <=? 0) then Err (RuntimeFailure "empty lock surface")
    else if (MAX_SURFACE_DIMENSION <? w) || (MAX_SURFACE_DIMENSION <? h)
    then Err (RuntimeFailure "lock-surface dimensions exceed the limit")
    else Ok (w, h)
  | _, _ => Err (RuntimeFailure "lock-surface dimensions overflow")
  end.

(** [(bytes + 63) & !63] with the addition checked in [usize]. *)
Definition aligned_buffer_capacity (bytes : Z) : result RuntimeError Z :=
  match checked_add 64 bytes 63 with
  | Some c => Ok (Z.land c (2 ^ 64 - 1 - 63))
  | None => Err (RuntimeFailure "lock buffer capacity overflow")
  end.

Definition saturating_add_u32 (a b : Z) : Z := Z.min (2 ^ 32 - 1) (a + b).
Definition try_u32 (z : Z) : option Z := if z <? 2 ^ 32 then Some z else None.

Definition intersect (a b : Region) : option Region :=
  let left := Z.max (rx a) (rx b) in
  let top := Z.max (ry a) (ry b) in
  let right := Z.min (saturating_add_u32 (rx a) (rwidth a)) (saturating_add_u32 (rx b) (rwidth b)) in
  let bottom := Z.min (saturating_add_u32 (ry a) (rheight a)) (saturating_add_u32 (ry b) (rheight b)) in
  if (left <? right) && (top <? bottom)
  then Some (mkRegion left top (right - left) (bottom - top)) else None.

Definition div_ceil_u128 (numerator denominator : Z) : option Z :=
  d ← checked_sub denominator 1;
  n ← checked_add 128 numerator d;
  try_u32 (n / denominator).

(** [overlay_geometry]: the canvas fitted inside the buffer, and the overlay's
    rectangle on it, rounded outwards. *)
Definition overlay_geometry (f : PresentationFrame) (width height : Z) : option Region :=
  let sw := pwidth f in
  let sh := pheight f in
  if (sw =? 0) || (sh =? 0) || (width =? 0) || (height =? 0) then None
  else
    fitted ← (if width * sh <=? sw * height
              then h ← try_u32 (sh * width / sw); Some (width, h)
              else w ← try_u32 (sw * height / sh); Some (w, height));
    let '(cw, ch) := fitted in
    if (cw =? 0) || (ch =? 0) then None
    else
      let cx := (width - cw) / 2 in
      let cy := (height - ch) / 2 in
      l ← try_u32 (overlay_x f * cw / sw);
      t ← try_u32 (overlay_y f * ch / sh);
      r ← div_ceil_u128 ((overlay_x f + fwidth (overlay f)) * cw) sw;
      b ← div_ceil_u128 ((overlay_y f + fheight (overlay f)) * ch) sh;
      Some (mkRegion (cx + l) (cy + t)
              (saturating_sub (cx + r) (cx + l)) (saturating_sub (cy + b) (cy + t))).

Definition overlay_region (f : option PresentationFrame) (width height : Z) : option Region :=
  f ← f; overlay_geometry f width height.

Definition redraw_region (kind : RedrawKind) (rendered current : Z)
    (f : option PresentationFrame) (width height : Z) : Region :=
  if bool_decide (kind = KOverlay) && (rendered =? current)
  then default (region_full width height) (overlay_region f width height)
  else region_full width height.

(** ** Surfaces *)

(** A drawing on a buffer: what [draw_opaque_region_cached] is called for. *)
Record DrawCall := mkDraw {
  d_frame : option PresentationFrame;
  d_authentication : bool;
  d_region : Region;
}.

Record SurfaceBuffer := mkBuffer {
  b_size : Z * Z;
  b_geometry_generation : Z;
  b_role_generation : Z;
  b_background_generation : Z;
  b_released : bool;   (** [pool.canvas(buffer).is_some()] *)
  b_painted : bool;    (** its pixels may show the authentication overlay *)
  b_calls : list DrawCall;  (** what was drawn on it since it was allocated *)
}.

Record Surface := mkSurface {
  s_output : Z;
  s_output_name : option rstring;
  s_wl : Z;
  s_size : option (Z * Z);
  s_scale : Z;
  s_geometry_generation : Z;
  s_role_generation : Z;
  s_buffers : list SurfaceBuffer;
  s_authentication : bool;
  s_redraw : RedrawState;
  s_first_presented : bool;
  s_shown : bool;      (** [b_painted] of the last committed buffer *)
}.

Definition with_redraw (f : RedrawState → RedrawState) (s : Surface) : Surface :=
  mkSurface (s_output s) (s_output_name s) (s_wl s) (s_size s) (s_scale s)
    (s_geometry_generation s) (s_role_generation s) (s_buffers s) (s_authentication s)
    (f (s_redraw s)) (s_first_presented s) (s_shown s).
Definition with_buffers (f : list SurfaceBuffer → list SurfaceBuffer) (s : Surface) : Surface :=
  mkSurface (s_output s) (s_output_name s) (s_wl s) (s_size s) (s_scale s)
    (s_geometry_generation s) (s_role_generation s) (f (s_buffers s)) (s_authentication s)
    (s_redraw s) (s_first_presented s) (s_shown s).
Definition with_name (n : option rstring) (s : Surface) : Surface :=
  mkSurface (s_output s) n (s_wl s) (s_size s) (s_scale s)
    (s_geometry_generation s) (s_role_generation s) (s_buffers s) (s_authentication s)
    (s_redraw s) (s_first_presented s) (s_shown s).
(** Assign size and scale, bumping the geometry generation. *)
Definition with_geometry (size : option (Z * Z)) (scale : Z) (s : Surface) : Surface :=
  mkSurface (s_output s) (s_output_name s) (s_wl s) size scale
    (wrapping_add 64 (s_geometry_generation s) 1) (s_role_generation s) (s_buffers s)
    (s_authentication s) (request_geometry (s_redraw s)) (s_first_presented s) (s_shown s).

(** The body shared by [set_authentication] and the recovery in [render]. *)
Definition with_role (authentication : bool) (s : Surface) : Surface :=
  mkSurface (s_output s) (s_output_name s) (s_wl s) (s_size s) (s_scale s)
    (s_geometry_generation s) (wrapping_add 64 (s_role_generation s) 1) (s_buffers s)
    authentication (s_redraw s) (s_first_presented s) (s_shown s).

Definition new_surface (output : Z) (name : option rstring) (wl : Z) : Surface :=
  mkSurface output name wl None 1 0 0 [] false (mkRedraw false (Some KFull) false false) false false.

Fixpoint position {A} (p : A → bool) (l : list A) : option nat :=
  match l with
  | [] => None
  | x :: l => if p x then Some 0%nat else S <$> position p l
  end.

(** [select_authentication_index] over (name, configured, authenticating). *)
Definition candidate : Type := option rstring * bool * bool.
Definition is_configured (c : candidate) : bool := snd (fst c).

Definition select_authentication_index (outputs : list candidate)
    (requested : option rstring) : option nat :=
  let named := imap (λ i (o : candidate), (i, fst (fst o))) outputs in
  let desired := OutputSelection.select named requested in
  match desired ≫= (λ i : nat,
          o ← (outputs !! i : option candidate); if is_configured o then Some i else None) with
  | Some i => Some i
  | None =>
    OutputSelection.or_else
      (position (λ o, is_configured o && snd o) outputs)
      (OutputSelection.select
        (omap (λ x, x) (imap (λ i (o : candidate),
           if is_configured o then Some (i, fst (fst o)) else None) outputs)) requested)
  end.

(** ** The runtime *)

(** What is committed: the buffer with its drawings, at the frame that the
    presentation has and the role that the surface has at that moment. *)
Record Commit := mkCommit {
  c_size : Z * Z;
  c_calls : list DrawCall;
  c_frame : option PresentationFrame;
  c_authentication : bool;
}.

Inductive Effect :=
| EReady (fd : Z)                       (** READY written to a descriptor *)
| EUnlock                               (** unlock_and_destroy requested *)
| ERole (output : Z) (authentication : bool)  (** a surface changed role *)
| ECommit (output : Z) (painted : bool) (c : Commit).

Record Runtime (P : Type) := mkRuntime {
  surfaces : list Surface;
  state : State;
  presentation : P;
  presentation_geometry : option FrameGeometry;
  background_generation : Z;
  authentication_output : option rstring;
  retiring_authentication : option Z;
  authentication_retirement : option AuthenticationRetirement;
  retirement_feedback : option Z;
  ready : list Z;
  session_lock : bool;
  failure : option RuntimeError;
  terminate : bool;
  trace : list Effect;
}.
Arguments mkRuntime {P}.
Arguments surfaces {P}. Arguments state {P}. Arguments presentation {P}.
Arguments presentation_geometry {P}. Arguments background_generation {P}.
Arguments authentication_output {P}. Arguments retiring_authentication {P}.
Arguments authentication_retirement {P}. Arguments retirement_feedback {P}.
Arguments ready {P}. Arguments session_lock {P}. Arguments failure {P}.
Arguments terminate {P}. Arguments trace {P}.

(** What the outside answers while a surface is rendered. *)
Record RenderEnv := mkRenderEnv {
  alloc_ok : bool;           (** the pool and the buffer could be created *)
  feedback : option Z;       (** the presentation feedback object, if any *)
  attach_ok : bool;
}.
(** What the outside answers to an [Action]. *)
Record ApplyEnv := mkApplyEnv { write_ok : Z → bool; roundtrip_ok : bool }.

Section Handlers.
Context {P : Type} `{!Presentation P}.
Implicit Types rt : Runtime P.

Definition set_surfaces (l : list Surface) rt : Runtime P :=
  mkRuntime l (state rt) (presentation rt) (presentation_geometry rt)
    (background_generation rt) (authentication_output rt) (retiring_authentication rt)
    (authentication_retirement rt) (retirement_feedback rt) (ready rt) (session_lock rt)
    (failure rt) (terminate rt) (trace rt).
Definition upd_surface (i : nat) (f : Surface → Surface) rt : Runtime P :=
  set_surfaces (alter f i (surfaces rt)) rt.
Definition set_state (s : State) rt : Runtime P :=
  mkRuntime (surfaces rt) s (presentation rt) (presentation_geometry rt)
    (background_generation rt) (authentication_output rt) (retiring_authentication rt)
    (authentication_retirement rt) (retirement_feedback rt) (ready rt) (session_lock rt)
    (failure rt) (terminate rt) (trace rt).
Definition set_presentation (p : P) rt : Runtime P :=
  mkRuntime (surfaces rt) (state rt) p (presentation_geometry rt)
    (background_generation rt) (authentication_output rt) (retiring_authentication rt)
    (authentication_retirement rt) (retirement_feedback rt) (ready rt) (session_lock rt)
    (failure rt) (terminate rt) (trace rt).
Definition set_background (g : option FrameGeometry) (b : Z) rt : Runtime P :=
  mkRuntime (surfaces rt) (state rt) (presentation rt) g
    b (authentication_output rt) (retiring_authentication rt)
    (authentication_retirement rt) (retirement_feedback rt) (ready rt) (session_lock rt)
    (failure rt) (terminate rt) (trace rt).
Definition set_retirement (o : option Z) (r : option AuthenticationRetirement) (f : option Z) rt :
    Runtime P :=
  mkRuntime (surfaces rt) (state rt) (presentation rt) (presentation_geometry rt)
    (background_generation rt) (authentication_output rt) o r f (ready rt) (session_lock rt)
    (failure rt) (terminate rt) (trace rt).
Definition set_ready (l : list Z) rt : Runtime P :=
  mkRuntime (surfaces rt) (state rt) (presentation rt) (presentation_geometry rt)
    (background_generation rt) (authentication_output rt) (retiring_authentication rt)
    (authentication_retirement rt) (retirement_feedback rt) l (session_lock rt)
    (failure rt) (terminate rt) (trace rt).
Definition set_exit (lock : bool) (f : option RuntimeError) (t : bool) rt : Runtime P :=
  mkRuntime (surfaces rt) (state rt) (presentation rt) (presentation_geometry rt)
    (background_generation rt) (authentication_output rt) (retiring_authentication rt)
    (authentication_retirement rt) (retirement_feedback rt) (ready rt) lock f t (trace rt).
Definition emit (e : Effect) rt : Runtime P :=
  mkRuntime (surfaces rt) (state rt) (presentation rt) (presentation_geometry rt)
    (background_generation rt) (authentication_output rt) (retiring_authentication rt)
    (authentication_retirement rt) (retirement_feedback rt) (ready rt) (session_lock rt)
    (failure rt) (terminate rt) (trace rt ++ [e]).

(** [fail] keeps the first error. *)
Definition fail (e : RuntimeError) rt : Runtime P :=
  let rt := set_state (fst (update RuntimeFailed (state rt))) rt in
  set_exit (session_lock rt) (OutputSelection.or_else (failure rt) (Some e)) true rt.

Definition set_authentication (i : nat) (authentication : bool) rt : Runtime P :=
  match surfaces rt !! i with
  | None => rt
  | Some s =>
    if bool_decide (s_authentication s = authentication) then rt
    else
      emit (ERole (s_output s) authentication)
        (upd_surface i (λ s,
           let s := with_role authentication s in
           if bool_decide (is_Some (s_size s)) then with_redraw request_role_change s else s) rt)
  end.

Definition refresh_authentication_output (now : Z) rt : Runtime P :=
  let candidates :=
    (λ s, (s_output_name s, bool_decide (is_Some (s_size s)), s_authentication s)) <$> surfaces rt in
  let selected := select_authentication_index candidates (authentication_output rt) in
  if bool_decide (is_Some (retiring_authentication rt)) then rt
  else
    let current := position s_authentication (surfaces rt) in
    if bool_decide (current = selected) then rt
    else
      match current, selected with
      | Some c, _ =>
        let rt := set_retirement (s_output <$> surfaces rt !! c)
                    (Some (retirement_begin now)) None rt in
        set_authentication c false rt
      | None, Some i => set_authentication i true rt
      | None, None => rt
      end.

Definition expire_authentication_retirement (now : Z) rt : Runtime P :=
  match authentication_retirement rt with
  | Some r =>
    if expired r now then
      let retiring := retiring_authentication rt in
      let rt := set_retirement None None None rt in
      match retiring ≫= λ o,
              position (λ s, (s_output s =? o) && bool_decide (is_Some (s_size s))) (surfaces rt) with
      | Some i => set_authentication i true rt
      | None => refresh_authentication_output now rt
      end
    else rt
  | None => rt
  end.

Definition configured (s : Surface) : bool := bool_decide (is_Some (s_size s)).

Definition redraw_media rt : Runtime P :=
  if terminate rt then rt
  else set_surfaces ((λ s, if configured s then with_redraw (λ r, fst (request_media r)) s else s)
                       <$> surfaces rt) rt.

Definition redraw_all_surfaces (kind : RedrawKind) rt : Runtime P :=
  set_surfaces ((λ s, if configured s && (bool_decide (kind = KFull) || s_authentication s)
                      then with_redraw (λ r, fst (request kind r)) s else s) <$> surfaces rt) rt.

Definition record_full_frame rt : Runtime P :=
  set_background (frame_geometry (frame (presentation rt)))
    (wrapping_add 64 (background_generation rt) 1) rt.

Definition classify_overlay_redraw rt : Runtime P * RedrawKind :=
  let current := frame_geometry (frame (presentation rt)) in
  let kind := overlay_redraw_kind (presentation_geometry rt) current in
  (if bool_decide (kind = KFull)
   then set_background current (wrapping_add 64 (background_generation rt) 1) rt else rt, kind).

Definition apply_refresh (r : Refresh) rt : Runtime P :=
  match r with
  | Unchanged => rt
  | RFrame => redraw_media (record_full_frame rt)
  | ROverlay => let '(rt, kind) := classify_overlay_redraw rt in redraw_all_surfaces kind rt
  | RFailed => redraw_media (record_full_frame rt)
  end.

(** [ReadySignal::apply] on [ReportReady]: drain the descriptors; an error
    drops the rest. *)
Fixpoint drain_ready (write_ok : Z → bool) (fds : list Z) rt : Runtime P * bool :=
  match fds with
  | [] => (set_ready [] rt, true)
  | fd :: fds =>
    if write_ok fd then drain_ready write_ok fds (emit (EReady fd) rt)
    else (set_ready [] rt, false)
  end.

Definition apply (a : Action) (env : ApplyEnv) rt : Runtime P :=
  match a with
  | ANone => rt
  | ReportReady =>
    let '(rt, ok) := drain_ready (write_ok env) (ready rt) rt in
    let rt := if ok then rt else fail (RuntimeFailure "could not report lock readiness") rt in
    if terminate rt then rt
    else
      let rt := set_presentation (lock_confirmed (presentation rt)) rt in
      redraw_all_surfaces KFull (record_full_frame rt)
  | Abort => fail ELockFinished rt
  | UnlockAndSynchronize =>
    let rt :=
      if session_lock rt then
        let rt := emit EUnlock (set_exit false (failure rt) (terminate rt) rt) in
        if roundtrip_ok env then rt
        else fail (RuntimeFailure "could not synchronize authorized unlock") rt
      else rt in
    set_exit (session_lock rt) (failure rt) true rt
  end.

Definition lock_confirmation_action (blocked : bool) (s : State) : State * Action :=
  if blocked then (s, ANone) else update LockConfirmed s.

(** *** Rendering one surface *)

Definition keep_buffer (size : Z * Z) (s : Surface) (b : SurfaceBuffer) : bool :=
  bool_decide (b_size b = size)
  && (b_geometry_generation b =? s_geometry_generation s)
  && (b_role_generation b =? s_role_generation s).
Definition retain_buffers (size : Z * Z) (s : Surface) : Surface :=
  with_buffers (List.filter (keep_buffer size s)) s.

Definition surface_bytes (bw bh : Z) : result RuntimeError Z :=
  match checked_mul 32 bw bh with
  | Some px =>
    if px <=? MAX_SURFACE_PIXELS then
      match checked_mul 64 px 4 with
      | Some bytes =>
        if MAX_BUFFER_BYTES <? bytes then Err (RuntimeFailure "lock buffer over budget") else Ok bytes
      | None => Err (RuntimeFailure "unsafe lock-surface size")
      end
    else Err (RuntimeFailure "unsafe lock-surface size")
  | None => Err (RuntimeFailure "unsafe lock-surface size")
  end.

(** Draw into a reusable buffer: a full redraw replaces its contents, a
    partial one repaints the overlay's region. *)
Definition redraw_buffer (size : Z * Z) (requested : RedrawKind) (background : Z)
    (f : option PresentationFrame) (authentication : bool) (b : SurfaceBuffer) : SurfaceBuffer :=
  let '(width, height) := size in
  if bool_decide (requested = KFull) || negb (b_background_generation b =? background)
  then mkBuffer (b_size b) (b_geometry_generation b) (b_role_generation b) background
         (b_released b) authentication
         (b_calls b ++ [mkDraw f authentication (region_full width height)])
  else mkBuffer (b_size b) (b_geometry_generation b) (b_role_generation b)
         (b_background_generation b) (b_released b) (b_painted b || authentication)
         (b_calls b ++ [mkDraw f authentication
            (redraw_region requested (b_background_generation b) background f width height)]).

Definition attach_buffer (b : SurfaceBuffer) : SurfaceBuffer :=
  mkBuffer (b_size b) (b_geometry_generation b) (b_role_generation b)
    (b_background_generation b) false (b_painted b) (b_calls b).

(** [wl_surface.commit()] and the bookkeeping that follows it. *)
Definition commit_surface (bi : nat) (painted : bool) (s : Surface) : Surface :=
  mkSurface (s_output s) (s_output_name s) (s_wl s) (s_size s) (s_scale s)
    (s_geometry_generation s) (s_role_generation s) (alter attach_buffer bi (s_buffers s))
    (s_authentication s)
    (redraw_committed (request_frame_callback (s_redraw s)) (s_redraw s)) true painted.

Definition released_buffers (s : Surface) : list (nat * Z) :=
  omap (λ x, x) (imap (λ i b, if b_released b then Some (i, b_background_generation b) else None)
    (s_buffers s)).

(** The buffer to present, drawn: [None] when both are still in use. *)
Definition draw (size : Z * Z) (bytes : Z) (background : Z) (f : option PresentationFrame)
    (alloc_ok : bool) (s : Surface) :
    result RuntimeError (option (Surface * nat)) :=
  let requested := default KFull (redraw_pending (s_redraw s)) in
  match select_reusable_buffer requested background (released_buffers s) with
  | Some bi =>
    Ok (Some (with_buffers (alter (redraw_buffer size requested background f (s_authentication s)) bi) s, bi))
  | None =>
    if (BUFFER_COUNT <=? length (s_buffers s))%nat then Ok None
    else
      _ ← aligned_buffer_capacity bytes;
      if negb alloc_ok then Err (RuntimeFailure "could not allocate lock buffer")
      else
        let b := mkBuffer size (s_geometry_generation s) (s_role_generation s) background true
                   (s_authentication s)
                   [mkDraw f (s_authentication s) (region_full (fst size) (snd size))] in
        Ok (Some (with_buffers (λ l, l ++ [b]) s, length (s_buffers s)))
  end.

Definition is_retiring (s : Surface) rt : bool :=
  role_pending (s_redraw s) && negb (s_authentication s)
  && bool_decide (retiring_authentication rt = Some (s_output s)).

Definition commit_of (s : Surface) (bi : nat) rt : Commit :=
  match s_buffers s !! bi with
  | Some b => mkCommit (b_size b) (b_calls b) (frame (presentation rt)) (s_authentication s)
  | None => mkCommit (0, 0) [] (frame (presentation rt)) false
  end.

(** From the drawn buffer to the commit. *)
Definition present (index : nat) (s : Surface) (bi : nat) (env : RenderEnv) rt :
    Runtime P * result RuntimeError unit :=
  let retiring := is_retiring s rt in
  let rt := upd_surface index (λ _, s) rt in
  match retiring, feedback env with
  | true, None =>
    let rt := emit (ERole (s_output s) true)
                (upd_surface index (λ s, with_redraw request_role_change (with_role true s)) rt) in
    (set_retirement None None None rt, Ok tt)
  | _, _ =>
    let rt := if retiring
              then set_retirement (retiring_authentication rt) (authentication_retirement rt)
                     (feedback env) rt
              else rt in
    if negb (attach_ok env) then (rt, Err (RuntimeFailure "could not attach lock buffer"))
    else
      let painted := from_option b_painted false (s_buffers s !! bi) in
      let rt := emit (ECommit (s_output s) painted (commit_of s bi rt))
                  (upd_surface index (commit_surface bi painted) rt) in
      let rt := if retiring
                then set_retirement (retiring_authentication rt)
                       (retirement_committed <$> authentication_retirement rt)
                       (retirement_feedback rt) rt
                else rt in
      (rt, Ok tt)
  end.

Definition render (index : nat) (env : RenderEnv) rt : Runtime P * result RuntimeError unit :=
  match surfaces rt !! index with
  | None => (rt, Err (RuntimeFailure "index out of bounds"))
  | Some s =>
    match s_size s with
    | None => (rt, Err (RuntimeFailure "attempted to render an unconfigured surface"))
    | Some (w, h) =>
      match ('(bw, bh) ← buffer_size w h (Z.max 1 (s_scale s));
             bytes ← surface_bytes bw bh; Ok (bw, bh, bytes)) with
      | Err e => (rt, Err e)
      | Ok (bw, bh, bytes) =>
        let s := retain_buffers (bw, bh) s in
        match draw (bw, bh) bytes (background_generation rt) (frame (presentation rt)) (alloc_ok env) s with
        | Err e => (upd_surface index (λ _, s) rt, Err e)
        | Ok None => (upd_surface index (λ _, s) rt, Ok tt)
        | Ok (Some (s, bi)) => present index s bi env rt
        end
      end
    end
  end.

(** [self.render(index, qh)?] over a list of indices. *)
Fixpoint render_all (indices : list nat) (env : nat → RenderEnv) rt :
    Runtime P * result RuntimeError unit :=
  match indices with
  | [] => (rt, Ok tt)
  | i :: rest =>
    match render i (env i) rt with
    | (rt, Err e) => (rt, Err e)
    | (rt, Ok _) => render_all rest env rt
    end
  end.

(** The loop head shared by [maintain_surfaces] and
    [commit_partial_overlays]: drop outdated buffers, then look at the
    released ones. *)
Definition configured_size (s : Surface) : option (result RuntimeError (Z * Z)) :=
  '(w, h) ← s_size s; Some (buffer_size w h (Z.max 1 (s_scale s))).
Definition has_reusable (s : Surface) : bool := existsb b_released (s_buffers s).
Definition has_current (background : Z) (s : Surface) : bool :=
  existsb (λ b, b_released b && (b_background_generation b =? background)) (s_buffers s).
Definition progress_of (background : Z) (include_pending_full : bool) (s : Surface) : OverlayProgress :=
  overlay_progress (s_redraw s) (length (s_buffers s)) (has_reusable s)
    (has_current background s) include_pending_full.

(** Walk the surfaces; [f] classifies each configured one.  An error keeps
    the buffers already dropped, as the code's early return does. *)
Fixpoint scan_surfaces {A} (f : Surface → A) (l : list Surface) :
    list Surface * result RuntimeError (list (option A)) :=
  match l with
  | [] => ([], Ok [])
  | s :: l =>
    match configured_size s with
    | None =>
      let '(l, r) := scan_surfaces f l in (s :: l, cons None <$> r)
    | Some (Err e) => (s :: l, Err e)
    | Some (Ok size) =>
      let s := retain_buffers size s in
      let '(l, r) := scan_surfaces f l in (s :: l, cons (Some (f s)) <$> r)
    end
  end.

Definition indices_where {A} (p : A → bool) (l : list (option A)) : list nat :=
  omap (λ x, x) (imap (λ i o, match o with
                              | Some a => if p a then Some i else None | None => None end) l).

(** [sort_by_key(authentication)]: stable, [false] first. *)
Definition sort_by_role (l : list Surface) (indices : list nat) : list nat :=
  let auth i := from_option s_authentication false (l !! i) in
  List.filter (λ i, negb (auth i)) indices ++ List.filter auth indices.

Definition maintain_surfaces (allow_overlay_full : bool) (env : nat → RenderEnv) rt :
    Runtime P * result RuntimeError unit :=
  let classify s :=
    should_render (s_redraw s) (length (s_buffers s)) (has_reusable s)
    && (allow_overlay_full
        || negb (bool_decide (progress_of (background_generation rt) false s = PFull))) in
  match scan_surfaces classify (surfaces rt) with
  | (l, Err e) => (set_surfaces l rt, Err e)
  | (l, Ok flags) =>
    render_all (sort_by_role l (indices_where id flags)) env (set_surfaces l rt)
  end.

Definition summarize (l : list (option OverlayProgress)) : OverlayProgressSummary :=
  foldl (λ a o, match o with
    | None => a
    | Some PNone => mkSummary (partial a) (full a) (blocked a) true
    | Some PPartial => mkSummary true (full a) (blocked a) true
    | Some PFull => mkSummary (partial a) true (blocked a) true
    | Some PBlocked => mkSummary (partial a) (full a) true (unblocked a)
    end) summary_default l.

Definition commit_partial_overlays (env : nat → RenderEnv) rt :
    Runtime P * result RuntimeError OverlayProgressSummary :=
  match scan_surfaces (progress_of (background_generation rt) true) (surfaces rt) with
  | (l, Err e) => (set_surfaces l rt, Err e)
  | (l, Ok ps) =>
    match render_all (indices_where (λ p, bool_decide (p = PPartial)) ps) env (set_surfaces l rt) with
    | (rt, Err e) => (rt, Err e)
    | (rt, Ok _) => (rt, Ok (summarize ps))
    end
  end.

(** *** Outputs and compositor events *)

Definition add_surface (output : Z) (name : option rstring) (wl now : Z) rt :
    Runtime P * result RuntimeError unit :=
  if existsb (λ s, s_output s =? output) (surfaces rt) then (rt, Ok tt)
  else if negb (session_lock rt)
  then (rt, Err (RuntimeFailure "lock surface requested without a lock"))
  else (refresh_authentication_output now
          (set_surfaces (surfaces rt ++ [new_surface output name wl]) rt), Ok tt).

Definition fail_on (r : Runtime P * result RuntimeError unit) : Runtime P :=
  match r with (rt, Ok _) => rt | (rt, Err e) => fail e rt end.

Inductive WlEvent :=
| EvLocked
| EvFinished
| EvConfigure (wl : Z) (size : Z * Z)
| EvScale (wl scale : Z)
| EvFrame (wl : Z)
| EvNewOutput (output : Z) (name : option rstring) (wl : Z)
| EvUpdateOutput (output : Z) (name : option rstring)
| EvOutputDestroyed (output : Z)
| EvPresented (fb : Z)
| EvDiscarded (fb wl : Z)
| EvRelease (wl : Z) (buffer : nat)
| EvKey (input : option Input).

Definition rename_output (output : Z) (name : option rstring) (l : list Surface) : list Surface :=
  match position (λ s, s_output s =? output) l with
  | Some i => alter (with_name name) i l
  | None => l
  end.

Definition by_wl (wl : Z) rt : option nat := position (λ s, s_wl s =? wl) (surfaces rt).

Definition on_locked (env : ApplyEnv) rt : Runtime P :=
  let '(s, a) := lock_confirmation_action
                   (bool_decide (is_Some (failure rt)) || terminate rt) (state rt) in
  apply a env (set_state s rt).

Definition on_finished (env : ApplyEnv) rt : Runtime P :=
  let '(s, a) := update LockFinished (state rt) in apply a env (set_state s rt).

Definition on_configure (wl : Z) (size : Z * Z) (now : Z) rt : Runtime P :=
  match by_wl wl rt with
  | None => fail (RuntimeFailure "configured an unknown lock surface") rt
  | Some i =>
    let rt := upd_surface i (λ s,
                if bool_decide (s_size s = Some size) then s
                else with_geometry (Some size) (s_scale s) s) rt in
    refresh_authentication_output now rt
  end.

Definition on_scale (wl scale : Z) rt : Runtime P :=
  match by_wl wl rt with
  | None => rt
  | Some i =>
    let scale := Z.max 1 scale in
    upd_surface i (λ s, if s_scale s =? scale then s else with_geometry (s_size s) scale s) rt
  end.

Definition on_frame (wl : Z) rt : Runtime P :=
  if terminate rt then rt
  else match by_wl wl rt with
       | None => rt
       | Some i => upd_surface i (with_redraw frame_done) rt
       end.

Definition on_new_output (output : Z) (name : option rstring) (wl now : Z) rt : Runtime P :=
  if session_lock rt && negb (terminate rt) then
    if existsb (λ s, s_output s =? output) (surfaces rt)
    then refresh_authentication_output now
           (set_surfaces (rename_output output name (surfaces rt)) rt)
    else fail_on (add_surface output name wl now rt)
  else rt.

Definition on_update_output (output : Z) (name : option rstring) (now : Z) rt : Runtime P :=
  refresh_authentication_output now
    (set_surfaces (rename_output output name (surfaces rt)) rt).

Definition on_output_destroyed (output now : Z) rt : Runtime P :=
  let rt := if bool_decide (retiring_authentication rt = Some output)
            then set_retirement None None None rt else rt in
  let rt := set_surfaces (List.filter (λ s, negb (s_output s =? output)) (surfaces rt)) rt in
  refresh_authentication_output now rt.

Definition on_presented (fb now : Z) rt : Runtime P :=
  if bool_decide (retirement_feedback rt = Some fb)
     && from_option accepts_presentation false (authentication_retirement rt)
  then refresh_authentication_output now (set_retirement None None None rt)
  else rt.

Definition on_discarded (fb wl : Z) rt : Runtime P :=
  if bool_decide (retirement_feedback rt = Some fb) then
    let rt := set_retirement (retiring_authentication rt)
                (retirement_discarded <$> authentication_retirement rt) None rt in
    match by_wl wl rt with
    | Some i => upd_surface i (with_redraw request_role_change) rt
    | None => rt
    end
  else rt.

(** The compositor released a buffer: not a handler, the pool sees it. *)
Definition on_release (wl : Z) (buffer : nat) rt : Runtime P :=
  match by_wl wl rt with
  | Some i => upd_surface i (with_buffers (alter (λ b,
      mkBuffer (b_size b) (b_geometry_generation b) (b_role_generation b)
        (b_background_generation b) true (b_painted b) (b_calls b)) buffer)) rt
  | None => rt
  end.

(** [handle_key], once the keysym was translated to an [Input]. *)
Definition handle_key (input : option Input) rt : Runtime P :=
  match input with
  | None => rt
  | Some i =>
    let '(p, changed) := give_input i (presentation rt) in
    let rt := set_presentation p rt in
    if changed : bool then
      let '(rt, kind) := classify_overlay_redraw rt in redraw_all_surfaces kind rt
    else rt
  end.

Definition handle_event (ev : WlEvent) (now : Z) (env : ApplyEnv) rt : Runtime P :=
  match ev with
  | EvLocked => on_locked env rt
  | EvFinished => on_finished env rt
  | EvConfigure wl size => on_configure wl size now rt
  | EvScale wl scale => on_scale wl scale rt
  | EvFrame wl => on_frame wl rt
  | EvNewOutput output name wl => on_new_output output name wl now rt
  | EvUpdateOutput output name => on_update_output output name now rt
  | EvOutputDestroyed output => on_output_destroyed output now rt
  | EvPresented fb => on_presented fb now rt
  | EvDiscarded fb wl => on_discarded fb wl rt
  | EvRelease wl buffer => on_release wl buffer rt
  | EvKey input => handle_key input rt
  end.

(** *** The main loop *)

Definition record_presentation_failure (r : Refresh) (s : State) : State :=
  if bool_decide (r = RFailed) then fst (update PresentationFailed s) else s.

Definition refresh_priority rt : Runtime P * Refresh :=
  let '(p, r) := receive_latest (presentation rt) in
  (set_state (record_presentation_failure r (state rt)) (set_presentation p rt), r).
Definition refresh_presentation rt : Runtime P * Refresh :=
  let '(p, r) := receive_deferred (presentation rt) in
  (set_state (record_presentation_failure r (state rt)) (set_presentation p rt), r).

(** One [dispatch] delivers events; the rest of the iteration follows. *)
Record IterEnv := mkIterEnv {
  events : list (WlEvent * Z);       (** with the time each is handled *)
  dispatch_ok : bool;
  outputs : list (Z * option rstring * Z);
  now : Z;
  apply_env : ApplyEnv;
  overlay_env : nat → RenderEnv;
  surface_env : nat → RenderEnv;
}.

Definition dispatch (env : IterEnv) rt : Runtime P :=
  foldl (λ rt '(ev, t), handle_event ev t (apply_env env) rt) rt (events env).

Fixpoint add_surfaces (l : list (Z * option rstring * Z)) (now : Z) rt :
    Runtime P * result RuntimeError unit :=
  match l with
  | [] => (rt, Ok tt)
  | (o, n, wl) :: l =>
    match add_surface o n wl now rt with
    | (rt, Err e) => (rt, Err e)
    | (rt, Ok _) => add_surfaces l now rt
    end
  end.

Definition reconcile_outputs (env : IterEnv) rt : Runtime P * result RuntimeError unit :=
  if terminate rt then (rt, Ok tt) else add_surfaces (outputs env) (now env) rt.

Definition authorize (env : IterEnv) rt : Runtime P :=
  let '(p, granted) := take_authorization (presentation rt) in
  let rt := set_presentation p rt in
  if granted : bool then
    let '(s, a) := authorize_unlock (state rt) in
    apply a (apply_env env) (set_state s rt)
  else rt.

(** From [apply_refresh(priority)] to the end of the iteration. *)
Definition redraw_phase (env : IterEnv) (priority : Refresh) rt : Runtime P :=
  match commit_partial_overlays (overlay_env env) (apply_refresh priority rt) with
  | (rt, Err e) => fail e rt
  | (rt, Ok progress) =>
    let poll := should_poll_deferred priority progress in
    let rt := if poll then let '(rt, r) := refresh_presentation rt in apply_refresh r rt else rt in
    fail_on (maintain_surfaces (should_allow_overlay_full poll progress) (surface_env env) rt)
  end.

(** The body of [while !runtime.terminate]. *)
Definition iterate (env : IterEnv) rt : Runtime P :=
  let rt := dispatch env rt in
  if negb (dispatch_ok env) then fail (RuntimeFailure "dispatch") rt
  else if terminate rt then rt
  else
    match reconcile_outputs env rt with
    | (rt, Err e) => fail e rt
    | (rt, Ok _) =>
      let rt := expire_authentication_retirement (now env) rt in
      let '(rt, priority) := refresh_priority rt in
      let rt := authorize env rt in
      if terminate rt then rt else redraw_phase env priority rt
    end.

(** [run]: the state once the lock was requested, and the loop over what
    happens next; it stops as soon as [terminate] is set. *)
Definition initial (fds : list Z) (requested : option rstring) (p : P) : Runtime P :=
  mkRuntime [] state_new p (frame_geometry (frame p)) 1 requested None None None fds true
    None false [].
Fixpoint run (envs : list IterEnv) rt : Runtime P :=
  match envs with
  | [] => rt
  | env :: envs => if terminate rt then rt else run envs (iterate env rt)
  end.

(** [run], from the lock request: a surface per output that is there, then the
    loop.  An error before the loop ends the locker without one. *)
Definition locker_run (fds : list Z) (requested : option rstring) (p : P)
    (outs : list (Z * option rstring * Z)) (now : Z) (envs : list IterEnv) :
    result RuntimeError (Runtime P) :=
  match outs with
  | [] => Err MissingProtocol
  | _ =>
    match add_surfaces outs now (initial fds requested p) with
    | (rt, Ok _) => Ok (run envs rt)
    | (_, Err e) => Err e
    end
  end.

End Handlers.

(** ** Lemmas *)

Lemma div_ceil_u128_Some n d q :
  0 ≤ n → 0 < d → div_ceil_u128 n d = Some q → 0 ≤ q ∧ n ≤ q * d ∧ ∀ m, n ≤ m * d → q ≤ m.
Proof.
  unfold div_ceil_u128, try_u32. intros Hn Hd.
  intros (d1 & [-> _]%checked_sub_Some & H)%bind_Some.
  apply bind_Some in H as (x & [-> _]%checked_add_Some & H). destruct (_ <? _); [|done].
  injection H as <-. pose proof (Z.div_mod (n + (d - 1)) d). 
  pose proof (Z.mod_pos_bound (n + (d - 1)) d Hd). split; [apply Z.div_pos; lia|]. split; [nia|].
  intros m Hm. apply Z.lt_succ_r, Z.div_lt_upper_bound; nia.
Qed.

(** A point of the canvas, scaled down and up, stays on the fitted canvas. *)
Lemma scaled_span x len total fitted l r :
  0 ≤ x → 0 ≤ len → x + len ≤ total → 0 < total → 0 ≤ fitted →
  try_u32 (x * fitted / total) = Some l →
  div_ceil_u128 ((x + len) * fitted) total = Some r → 0 ≤ l ∧ l ≤ r ∧ r ≤ fitted.
Proof.
  intros Hx Hl Hle Ht Hf Hl' Hr. unfold try_u32 in Hl'. destruct (_ <? _); [|done].
  injection Hl' as <-. apply div_ceil_u128_Some in Hr as (H0 & H1 & H2); [|nia|done].
  pose proof (Z.div_pos (x * fitted) total). pose proof (Z.mul_div_le (x * fitted) total Ht).
  split; [nia|]. split; [|apply H2; nia]. 
  apply Z.div_le_upper_bound; [done|]. nia.
Qed.

Lemma centered_span total fitted l r :
  0 ≤ fitted ≤ total → 0 ≤ l ≤ r → r ≤ fitted →
  let c := (total - fitted) / 2 in
  0 ≤ c + l ∧ c + l + saturating_sub (c + r) (c + l) ≤ total.
Proof.
  intros Hf Hl Hr c. unfold saturating_sub.
  assert (0 ≤ c) by (apply Z.div_pos; lia).
  assert (c + fitted ≤ total) by (pose proof (Z.mul_div_le (total - fitted) 2); lia).
  lia.
Qed.

(** ** Properties *)

(** The overlay's rectangle lies inside the buffer it is drawn into: for
    every well-formed frame and buffer size, whatever the aspect ratios, the
    rectangle that is scaled from the canvas does not reach outside, so the
    pixel loops over it index in range. *)
Theorem overlay_geometry_inside f width height r :
  wf_frame f → 0 ≤ width → 0 ≤ height → overlay_geometry f width height = Some r →
  0 ≤ rx r ∧ 0 ≤ ry r ∧ 0 ≤ rwidth r ∧ 0 ≤ rheight r
  ∧ rx r + rwidth r ≤ width ∧ ry r + rheight r ≤ height.
Proof.
  intros Hwf Hw Hh H. unfold wf_frame, wf_rgba in Hwf. destruct Hwf as (Hx & Hy & Ho & Hwf).
  unfold overlay_geometry in H. destruct (_ || _) eqn:E in H; [done|]. simp_bool.
  apply bind_Some in H as ([cw ch] & Hfit & H).
  assert (0 ≤ cw ≤ width ∧ 0 ≤ ch ≤ height) as [Hcw Hch].
  { unfold try_u32 in Hfit. destruct (Z.leb_spec (width * pheight f) (pwidth f * height)).
    - destruct (_ <? _); [|done]. cbn in Hfit. injection Hfit as <- <-. split; [lia|].
      split; [apply Z.div_pos; nia|apply Z.div_le_upper_bound; nia].
    - destruct (_ <? _); [|done]. cbn in Hfit. injection Hfit as <- <-. split; [|lia].
      split; [apply Z.div_pos; nia|apply Z.div_le_upper_bound; nia]. }
  clear Hfit. destruct (_ || _) in H; [done|].
  apply bind_Some in H as (l & Hl & H). apply bind_Some in H as (t & Ht & H).
  apply bind_Some in H as (r' & Hr & H). apply bind_Some in H as (b & Hb & H).
  injection H as <-. cbn.
  eapply (scaled_span (overlay_x f) (fwidth (overlay f))) in Hl; eauto; try lia.
  eapply (scaled_span (overlay_y f) (fheight (overlay f))) in Ht; eauto; try lia.
  pose proof (centered_span width cw l r'). pose proof (centered_span height ch t b).
  cbn in *. unfold saturating_sub in *. lia.
Qed.

Lemma overlay_geometry_inside_witness :
  let f := mkFrame 4 2 None (mkRgba 2 1 (replicate 8 Byte.x00)) 1 1 in
  let r := mkRegion 480 600 960 480 in
  overlay_geometry f 1920 1200 = Some r
  ∧ rx r + rwidth r ≤ 1920 ∧ ry r + rheight r ≤ 1200.
Proof.
  cbv zeta.
  assert (overlay_geometry (mkFrame 4 2 None (mkRgba 2 1 (replicate 8 Byte.x00)) 1 1) 1920 1200
          = Some (mkRegion 480 600 960 480)) as H by (vm_compute; reflexivity).
  split; [exact H|].
  refine (proj2 (proj2 (proj2 (proj2 (overlay_geometry_inside _ 1920 1200 _ _ _ _ H))))); [|lia..].
  unfold wf_frame, wf_rgba. cbn. lia.
Defined.
