(* ===== verification/LockHandover.v ===== *)
(** * Safety of the authentication hand-over

    Proofs about [LockRuntime]: the overlay that takes the user's password is
    on at most one output, in the runtime's own bookkeeping and in what was
    committed to the compositor, through hot-plug, discarded frames, feedback
    failures and time-outs; and the unlock is requested only by a runtime that
    reported a confirmed lock. *)

From S2P Require Import Prelude Utf8 SessionLock LockRuntime.

Section Handover.
Context {P : Type} `{!Presentation P}.
Implicit Types rt : Runtime P.

(** How often a surface changed role: the generations below are [u64]s that
    start at zero, so they are exact as long as this stays under [2^64]. *)
Definition is_role (e : Effect) : bool := match e with ERole _ _ => true | _ => false end.
Definition role_changes rt : Z := Z.of_nat (length (List.filter is_role (trace rt))).

Record surface_ok (c : Z) (s : Surface) : Prop := mkSurfaceOk {
  so_role : 0 ≤ s_role_generation s ≤ c;
  so_buffers : Forall (λ b, b_role_generation b ≤ s_role_generation s
    ∧ (b_role_generation b = s_role_generation s → b_painted b = true → s_authentication s = true))
    (s_buffers s);
  so_configured : s_authentication s = true → configured s = true;
}.

(** The hand-over invariant.  The holder of the overlay is the authenticating
    surface or, while there is none, the retiring one. *)
Record inv rt : Prop := mkInv {
  inv_nodup : NoDup (s_output <$> surfaces rt);
  inv_surfaces : Forall (surface_ok (role_changes rt)) (surfaces rt);
  inv_idle : ∀ s, s ∈ surfaces rt → s_authentication s = true → retiring_authentication rt = None;
  inv_unique : ∀ s s', s ∈ surfaces rt → s' ∈ surfaces rt → s_authentication s = true →
    s_authentication s' = true → s_output s = s_output s';
  inv_shown : ∀ s, s ∈ surfaces rt → s_shown s = true →
    s_authentication s = true ∨ retiring_authentication rt = Some (s_output s);
  inv_retiring : ∀ o, retiring_authentication rt = Some o →
    ∃ s, s ∈ surfaces rt ∧ s_output s = o ∧ configured s = true;
  inv_presented : ∀ s d, s ∈ surfaces rt → retiring_authentication rt = Some (s_output s) →
    authentication_retirement rt = Some (AwaitingPresentation d) → s_shown s = false;
}.

(** ** Steps that leave the roles alone *)

Definition tame_surface (s s' : Surface) : Prop :=
  s_output s' = s_output s ∧ s_authentication s' = s_authentication s ∧ s_shown s' = s_shown s
  ∧ (configured s = true → configured s' = true)
  ∧ (∀ c, surface_ok c s → surface_ok c s').

Lemma tame_surface_refl s : tame_surface s s.
Proof. done. Qed.
Hint Resolve tame_surface_refl : core.

Lemma tame_surface_trans s1 s2 s3 :
  tame_surface s1 s2 → tame_surface s2 s3 → tame_surface s1 s3.
Proof.
  intros (A1 & A2 & A3 & A4 & A5) (B1 & B2 & B3 & B4 & B5).
  unfold tame_surface. rewrite B1, B2, B3. split_and!; auto.
Qed.

(** Other buffers, same identity: each comes from an old one, or is drawn for
    the current role. *)
Lemma tame_surface_buffers s s' :
  s_output s' = s_output s → s_role_generation s' = s_role_generation s →
  s_authentication s' = s_authentication s → s_shown s' = s_shown s →
  (configured s = true → configured s' = true) →
  Forall (λ b', (∃ b, b ∈ s_buffers s ∧ b_role_generation b' = b_role_generation b
                   ∧ (b_painted b' = true → b_painted b = true ∨ s_authentication s = true))
                ∨ (b_role_generation b' = s_role_generation s
                   ∧ b_painted b' = s_authentication s)) (s_buffers s') →
  tame_surface s s'.
Proof.
  intros E1 E2 E3 E4 Hcf Hbs. unfold tame_surface. split_and!; try done.
  intros c [Hr Hb Hc]. constructor.
  - by rewrite E2.
  - rewrite E2, E3. rewrite Forall_forall in Hb. eapply Forall_impl; [exact Hbs|].
    intros b' [(b & Hin & Hg & Hp)|[Hg Hp]].
    + destruct (Hb b Hin) as [H1 H2]. rewrite Hg. split; [done|].
      intros Hg' Hp'. destruct (Hp Hp'); auto.
    + rewrite Hg, Hp. split; [lia|done].
  - rewrite E3. auto.
Qed.

(** Same buffers and identity, whatever else changed. *)
Lemma tame_surface_same s s' :
  s_output s' = s_output s → s_role_generation s' = s_role_generation s →
  s_authentication s' = s_authentication s → s_shown s' = s_shown s →
  (configured s = true → configured s' = true) → s_buffers s' = s_buffers s → tame_surface s s'.
Proof.
  intros E1 E2 E3 E4 Hcf E5. apply tame_surface_buffers; try done. rewrite E5.
  apply Forall_forall. intros b Hb. left. exists b. auto.
Qed.

Record tame rt rt' : Prop := mkTame {
  tame_surfaces : Forall2 tame_surface (surfaces rt) (surfaces rt');
  tame_retiring : retiring_authentication rt' = retiring_authentication rt;
  tame_retirement : ∀ d, authentication_retirement rt' = Some (AwaitingPresentation d) →
    authentication_retirement rt = Some (AwaitingPresentation d);
  tame_roles : role_changes rt' = role_changes rt;
}.

Lemma Forall2_elem_r {A B} (R : A → B → Prop) l k y :
  Forall2 R l k → y ∈ k → ∃ x, x ∈ l ∧ R x y.
Proof.
  intros HR Hy. apply list_elem_of_lookup in Hy as [i Hi].
  destruct (Forall2_lookup_r _ _ _ _ _ HR Hi) as (x & Hx & ?).
  exists x. split; [by eapply list_elem_of_lookup_2|done].
Qed.
Lemma Forall2_elem_l {A B} (R : A → B → Prop) l k x :
  Forall2 R l k → x ∈ l → ∃ y, y ∈ k ∧ R x y.
Proof.
  intros HR Hy. apply list_elem_of_lookup in Hy as [i Hi].
  destruct (Forall2_lookup_l _ _ _ _ _ HR Hi) as (y & Hy & ?).
  exists y. split; [by eapply list_elem_of_lookup_2|done].
Qed.

Lemma tame_outputs l l' : Forall2 tame_surface l l' → s_output <$> l' = s_output <$> l.
Proof. induction 1 as [|s s' l l' (E & _) _ IH]; cbn; [done|]. by rewrite E, IH. Qed.

Lemma inv_tame rt rt' : inv rt → tame rt rt' → inv rt'.
Proof.
  intros [] [Hs Hr Ht Hc].
  pose proof (λ s', Forall2_elem_r _ _ _ s' Hs) as Hback.
  constructor; rewrite ?Hr, ?Hc.
  - by rewrite (tame_outputs _ _ Hs).
  - apply Forall_forall. intros s' (s & Hin & Ht')%Hback.
    rewrite Forall_forall in inv_surfaces0. apply Ht'. auto.
  - intros s' (s & Hin & _ & -> & _)%Hback. eauto.
  - intros s1 s2 (t1 & T1 & -> & -> & _)%Hback (t2 & T2 & -> & -> & _)%Hback. eauto.
  - intros s' (s & Hin & -> & -> & -> & _)%Hback. eauto.
  - intros o Ho. destruct (inv_retiring0 o Ho) as (s & Hin & <- & Hcf).
    destruct (Forall2_elem_l _ _ _ _ Hs Hin) as (s' & Hin' & E & _ & _ & Hc' & _). eauto.
  - intros s' d (s & Hin & -> & _ & -> & _)%Hback ? ?%Ht. eauto.
Qed.

Lemma tame_refl rt : tame rt rt.
Proof. constructor; try done. apply Forall2_same_length_lookup_2; [done|]. intros; simplify_eq. done. Qed.

Lemma tame_upd rt i f :
  (∀ s, surfaces rt !! i = Some s → tame_surface s (f s)) → tame rt (upd_surface i f rt).
Proof.
  intros H. constructor; try done. cbn.
  apply Forall2_same_length_lookup_2; [by rewrite length_alter|].
  intros j s s' Hs Hs'. rewrite list_lookup_alter in Hs'.
  case_decide; subst; rewrite Hs in Hs'; simplify_eq/=; auto.
Qed.

Lemma tame_map rt f :
  (∀ s, s ∈ surfaces rt → tame_surface s (f s)) → tame rt (set_surfaces (f <$> surfaces rt) rt).
Proof.
  intros H. constructor; try done. cbn. apply Forall2_fmap_r, Forall2_same_length_lookup_2; [done|].
  intros j s s' Hs Hs'. simplify_eq. apply H. by eapply list_elem_of_lookup_2.
Qed.

Lemma role_changes_emit e rt :
  role_changes (emit e rt) = role_changes rt + (if is_role e then 1 else 0).
Proof.
  unfold role_changes. cbn. rewrite List.filter_app, length_app. cbn.
  destruct (is_role e); cbn; lia.
Qed.

Lemma tame_configured_with s f : (∀ s, s_size (f s) = s_size s) →
  configured s = true → configured (f s) = true.
Proof. intros H. unfold configured. by rewrite H. Qed.

(** ** Steps that change one surface's role *)

Lemma alter_cases (l : list Surface) (i : nat) (f : Surface → Surface) s s' :
  l !! i = Some s → NoDup (s_output <$> l) → s' ∈ alter f i l →
  s' = f s ∨ (s' ∈ l ∧ s_output s' ≠ s_output s).
Proof.
  intros Hi Hnd [j Hj]%list_elem_of_lookup. rewrite list_lookup_alter in Hj.
  case_decide as Hij; [subst; rewrite Hi in Hj; simplify_eq/=; by left|].
  right. split; [by eapply list_elem_of_lookup_2|]. intros E. apply Hij.
  eapply (NoDup_lookup (s_output <$> l)); [done| |].
  - rewrite list_lookup_fmap, Hi. done.
  - rewrite list_lookup_fmap, Hj. cbn. by rewrite E.
Qed.

Lemma alter_same (l : list Surface) (i : nat) (f : Surface → Surface) s : l !! i = Some s → f s ∈ alter f i l.
Proof.
  intros Hi. apply (list_elem_of_lookup_2 _ i). rewrite list_lookup_alter, decide_True by done.
  by rewrite Hi.
Qed.

Lemma alter_other (l : list Surface) (i : nat) (f : Surface → Surface) (s t : Surface) :
  l !! i = Some s → t ∈ l → s_output t ≠ s_output s → t ∈ alter f i l.
Proof.
  intros Hi [j Hj]%list_elem_of_lookup Hne. apply (list_elem_of_lookup_2 _ j).
  rewrite list_lookup_alter, decide_False; [done|]. intros ->. congruence.
Qed.

Lemma alter_outputs (l : list Surface) (i : nat) (f : Surface → Surface) :
  (∀ s, s_output (f s) = s_output s) → s_output <$> alter f i l = s_output <$> l.
Proof.
  intros H. apply list_eq. intros j. rewrite !list_lookup_fmap, list_lookup_alter.
  case_decide; [|done]. subst. destruct (l !! j); cbn; [by rewrite H|done].
Qed.

Lemma output_inj (l : list Surface) (s t : Surface) :
  NoDup (s_output <$> l) → s ∈ l → t ∈ l → s_output s = s_output t → s = t.
Proof.
  intros Hnd [i Hi]%list_elem_of_lookup [j Hj]%list_elem_of_lookup E.
  assert (i = j) as ->; [|congruence].
  eapply (NoDup_lookup (s_output <$> l)); [done| |].
  - by rewrite list_lookup_fmap, Hi.
  - rewrite list_lookup_fmap, Hj. cbn. by rewrite E.
Qed.

(** The update of [set_authentication]. *)
Definition role_upd (a : bool) (s : Surface) : Surface :=
  let s := with_role a s in
  if bool_decide (is_Some (s_size s)) then with_redraw request_role_change s else s.

Lemma role_upd_facts a s :
  s_output (role_upd a s) = s_output s ∧ s_buffers (role_upd a s) = s_buffers s
  ∧ s_role_generation (role_upd a s) = wrapping_add 64 (s_role_generation s) 1
  ∧ s_authentication (role_upd a s) = a ∧ s_shown (role_upd a s) = s_shown s
  ∧ configured (role_upd a s) = configured s.
Proof. unfold role_upd. cbn zeta. case_bool_decide; done. Qed.

Lemma set_authentication_eq i a s rt :
  surfaces rt !! i = Some s → s_authentication s ≠ a →
  set_authentication i a rt = emit (ERole (s_output s) a) (upd_surface i (role_upd a) rt).
Proof. intros Hi Ha. unfold set_authentication. rewrite Hi, bool_decide_eq_false_2 by done. done. Qed.

Lemma surface_ok_weaken c c' s : surface_ok c s → c ≤ c' → surface_ok c' s.
Proof. intros [] ?. constructor; [lia|done|done]. Qed.

(** A surface whose role was just bumped: its old buffers are of no account. *)
Lemma surface_ok_bump c s s' :
  surface_ok c s → c + 1 < 2 ^ 64 → s_buffers s' = s_buffers s →
  s_role_generation s' = wrapping_add 64 (s_role_generation s) 1 →
  (s_authentication s' = true → configured s' = true) → surface_ok (c + 1) s'.
Proof.
  intros [Hr Hb Hc] Hlt Eb Er Hcf.
  assert (s_role_generation s' = s_role_generation s + 1) as E.
  { rewrite Er. apply Z.mod_small. lia. }
  constructor; [lia| |done]. rewrite Eb, E. eapply Forall_impl; [exact Hb|].
  intros b [? _]. cbn. split; [lia|]. lia.
Qed.

(** What is needed before a surface may take the overlay. *)
Record vacant (o : Z) rt : Prop := mkVacant {
  v_nodup : NoDup (s_output <$> surfaces rt);
  v_surfaces : Forall (surface_ok (role_changes rt)) (surfaces rt);
  v_auth : ∀ s, s ∈ surfaces rt → s_authentication s = false;
  v_shown : ∀ s, s ∈ surfaces rt → s_shown s = true → s_output s = o;
  v_retiring : retiring_authentication rt = None;
}.

Section Bump.
Variables (rt : Runtime P) (i : nat) (s : Surface) (f : Surface → Surface).
Hypothesis Hi : surfaces rt !! i = Some s.
Hypothesis Hnd : NoDup (s_output <$> surfaces rt).
Hypothesis Hok : Forall (surface_ok (role_changes rt)) (surfaces rt).
Hypothesis Hout : ∀ s, s_output (f s) = s_output s.
Hypothesis Hbuf : s_buffers (f s) = s_buffers s.
Hypothesis Hrole : s_role_generation (f s) = wrapping_add 64 (s_role_generation s) 1.
Hypothesis Hconf : s_authentication (f s) = true → configured (f s) = true.
Hypothesis Hlt : role_changes rt + 1 < 2 ^ 64.

Lemma bump_surfaces : Forall (surface_ok (role_changes rt + 1)) (alter f i (surfaces rt)).
Proof using Hi Hnd Hok Hout Hbuf Hrole Hconf Hlt.
  rewrite Forall_forall in *. intros s' Hin.
  destruct (alter_cases _ _ _ _ _ Hi Hnd Hin) as [->|[Hin' _]].
  - eapply surface_ok_bump; eauto. apply Hok. by eapply list_elem_of_lookup_2.
  - eapply surface_ok_weaken; [by apply Hok|lia].
Qed.
End Bump.

(** [f] gives the surface its role and touches nothing else that matters. *)
Definition grants (f : Surface → Surface) : Prop := ∀ s,
  s_output (f s) = s_output s ∧ s_buffers (f s) = s_buffers s
  ∧ s_role_generation (f s) = wrapping_add 64 (s_role_generation s) 1
  ∧ s_authentication (f s) = true ∧ s_shown (f s) = s_shown s
  ∧ configured (f s) = configured s.

Lemma inv_grant_with f rt i s :
  grants f → surfaces rt !! i = Some s → configured s = true → vacant (s_output s) rt →
  role_changes rt + 1 < 2 ^ 64 → inv (emit (ERole (s_output s) true) (upd_surface i f rt)).
Proof.
  intros Hf Hi Hc [Hnd Hok Ha Hsh Hr] Hlt.
  assert (s ∈ surfaces rt) as Hin by (by eapply list_elem_of_lookup_2).
  destruct (Hf s) as (F1 & F2 & F3 & F4 & F5 & F6).
  pose proof (λ s', alter_cases _ _ f _ s' Hi Hnd) as Hcases.
  constructor; cbn [surfaces emit upd_surface set_surfaces retiring_authentication
    authentication_retirement]; rewrite ?Hr.
  - rewrite alter_outputs; [done|]. intros t. apply Hf.
  - rewrite role_changes_emit. cbn [is_role].
    match goal with |- context [role_changes ?r + 1] => change (role_changes r) with (role_changes rt) end.
    eapply (bump_surfaces _ _ s); eauto; first [by rewrite F6|intros t; apply Hf].
  - done.
  - intros s1 s2 [->|[H1 _]]%Hcases [->|[H2 _]]%Hcases A1 A2; try done;
      [rewrite Ha in A2 by done|rewrite Ha in A1 by done|rewrite Ha in A1 by done]; done.
  - intros s' [->|[H1 Hne]]%Hcases Hs; [by left|]. by destruct (Hne (Hsh _ H1 Hs)).
  - done.
  - done.
Qed.

Lemma inv_grant rt i s :
  surfaces rt !! i = Some s → configured s = true → vacant (s_output s) rt →
  role_changes rt + 1 < 2 ^ 64 → inv (set_authentication i true rt).
Proof.
  intros Hi Hc Hv Hlt.
  assert (s_authentication s = false) as Ha by (by eapply (v_auth _ _ Hv), list_elem_of_lookup_2).
  rewrite (set_authentication_eq _ _ s) by congruence.
  apply inv_grant_with; try done. intros t. apply role_upd_facts.
Qed.

Lemma inv_retire rt i s now :
  inv rt → surfaces rt !! i = Some s → s_authentication s = true →
  role_changes rt + 1 < 2 ^ 64 →
  inv (set_authentication i false
         (set_retirement (Some (s_output s)) (Some (retirement_begin now)) None rt)).
Proof.
  intros [Hnd Hok Hidle Huniq Hsh Hret Hpres] Hi Ha Hlt.
  assert (s ∈ surfaces rt) as Hin by (by eapply list_elem_of_lookup_2).
  destruct (role_upd_facts false s) as (F1 & F2 & F3 & F4 & F5 & F6).
  rewrite (set_authentication_eq _ _ s) by (cbn; congruence).
  pose proof (λ s', alter_cases _ _ (role_upd false) _ s' Hi Hnd) as Hcases.
  assert (∀ t, t ∈ surfaces rt → s_output t ≠ s_output s → s_authentication t = false) as Hothers.
  { intros t Ht Hne. destruct (s_authentication t) eqn:E; [|done]. by destruct Hne; apply Huniq. }
  assert (configured s = true) as Hcs.
  { rewrite Forall_forall in Hok. by apply (so_configured _ _ (Hok s Hin)). }
  constructor; cbn [surfaces emit upd_surface set_surfaces set_retirement retiring_authentication
    authentication_retirement].
  - rewrite alter_outputs; [done|]. intros t. apply role_upd_facts.
  - rewrite role_changes_emit. cbn [is_role].
    match goal with |- context [role_changes ?r + 1] => change (role_changes r) with (role_changes rt) end.
    eapply (bump_surfaces _ _ s); eauto; first [by rewrite F4|intros t; apply role_upd_facts].
  - intros s' [->|[H1 Hne]]%Hcases A1; [by rewrite F4 in A1|by rewrite Hothers in A1].
  - intros s1 s2 [->|[H1 Hne]]%Hcases _ A1; [by rewrite F4 in A1|by rewrite Hothers in A1].
  - intros s' [->|[H1 Hne]]%Hcases Hs; [right; by rewrite F1|].
    destruct (Hsh _ H1 Hs) as [A1|A1]; [by rewrite Hothers in A1|].
    rewrite (Hidle s Hin Ha) in A1. done.
  - intros o [= <-]. exists (role_upd false s). split; [by apply alter_same|]. by rewrite F1, F6.
  - done.
Qed.


(** ** Composing steps *)

(** A step that keeps the invariant as long as the role generations have not
    wrapped around; the count of role changes never decreases. *)
Definition safe rt rt' : Prop :=
  role_changes rt ≤ role_changes rt' ∧ (inv rt → role_changes rt' < 2 ^ 64 → inv rt').

#[local] Instance safe_preorder : PreOrder safe.
Proof.
  split; [by intros rt|]. intros rt1 rt2 rt3 [H1 H2] [H3 H4]. split; [lia|].
  intros Hi Hlt. apply H4; [apply H2; [done|lia]|done].
Qed.

Lemma tame_safe rt rt' : tame rt rt' → safe rt rt'.
Proof. intros H. split; [by rewrite (tame_roles _ _ H)|]. intros Hi _. by eapply inv_tame. Qed.

(** Nothing the invariant looks at changed. *)
Lemma same_tame rt rt' :
  surfaces rt' = surfaces rt → retiring_authentication rt' = retiring_authentication rt →
  authentication_retirement rt' = authentication_retirement rt →
  role_changes rt' = role_changes rt → tame rt rt'.
Proof. intros Es ? E ?. constructor; [|done| |done]; [rewrite Es; apply tame_refl|by rewrite E]. Qed.

Lemma same_safe rt rt' :
  surfaces rt' = surfaces rt → retiring_authentication rt' = retiring_authentication rt →
  authentication_retirement rt' = authentication_retirement rt →
  role_changes rt' = role_changes rt → safe rt rt'.
Proof. intros. by apply tame_safe, same_tame. Qed.

Lemma fail_safe e rt : safe rt (fail e rt).
Proof. by apply same_safe. Qed.

Lemma set_authentication_mono i a rt : role_changes rt ≤ role_changes (set_authentication i a rt).
Proof.
  unfold set_authentication. destruct (surfaces rt !! i) as [s|]; [|done].
  case_bool_decide; [done|]. rewrite role_changes_emit. cbn [is_role].
  match goal with |- context [role_changes ?r + 1] => change (role_changes r) with (role_changes rt) end.
  lia.
Qed.

Lemma set_authentication_count i a s rt :
  surfaces rt !! i = Some s → s_authentication s ≠ a →
  role_changes (set_authentication i a rt) = role_changes rt + 1.
Proof. intros. by rewrite (set_authentication_eq _ _ s), role_changes_emit. Qed.

(** ** Selecting and moving the overlay *)

Lemma select_elem {T} (l : list (T * option rstring)) r v :
  OutputSelection.select l r = Some v → ∃ n, (v, n) ∈ l.
Proof. intros H%OutputSelection.select_chosen. destruct H; eauto. Qed.

Lemma position_Some {A} (p : A → bool) (l : list A) i :
  position p l = Some i → ∃ x, l !! i = Some x ∧ p x = true.
Proof.
  revert i. induction l as [|x l IH]; intros i; cbn; [done|].
  destruct (p x) eqn:E; [intros [= <-]; eauto|].
  destruct (position p l) as [j|]; [|done]. intros [= <-]. apply IH. done.
Qed.
Lemma position_None {A} (p : A → bool) (l : list A) x :
  position p l = None → x ∈ l → p x = false.
Proof.
  induction l as [|y l IH]; cbn; [by intros _ ?%elem_of_nil|].
  destruct (p y) eqn:E; [done|]. destruct (position p l); [done|].
  intros _ [->|?]%elem_of_cons; auto.
Qed.

(** The selected index is that of a configured output. *)
Lemma select_authentication_configured l r i :
  select_authentication_index l r = Some i → ∃ o, l !! i = Some o ∧ is_configured o = true.
Proof.
  unfold select_authentication_index. destruct (_ ≫= _) as [j|] eqn:E.
  { intros [= <-]. apply bind_Some in E as (k & _ & E). apply bind_Some in E as (o & Ho & E).
    destruct (is_configured o) eqn:Hc; [|done]. injection E as ->. eauto. }
  clear E. unfold OutputSelection.or_else. destruct (position _ l) as [j|] eqn:Ep.
  { intros [= <-]. apply position_Some in Ep as (o & Ho & Hc). simp_bool. eauto. }
  intros (n & Hin)%select_elem.
  apply list_elem_of_omap in Hin as (x & Hin & ->).
  apply elem_of_lookup_imap in Hin as (k & o & Hx & Hk).
  destruct (is_configured o) eqn:Hc; [|done]. injection Hx as -> _. eauto.
Qed.

Lemma refresh_authentication_output_safe now rt :
  safe rt (refresh_authentication_output now rt).
Proof.
  unfold refresh_authentication_output. case_bool_decide as Hr; [done|].
  assert (retiring_authentication rt = None) as Hn.
  { destruct (retiring_authentication rt); [|done]. by destruct Hr. }
  case_bool_decide as Hcs; [done|]. destruct (position _ _) as [c|] eqn:Ec.
  - apply position_Some in Ec as (s & Hs & Ha). rewrite Hs.
    split; [etrans; [|apply set_authentication_mono]; done|]. intros Hi Hlt.
    rewrite (set_authentication_count _ _ s) in Hlt by (cbn; congruence). by apply inv_retire.
  - destruct (select_authentication_index _ _) as [i|] eqn:Ei; [|done].
    split; [apply set_authentication_mono|]. intros Hi Hlt.
    apply select_authentication_configured in Ei as (o & Ho & Hc).
    rewrite list_lookup_fmap in Ho. destruct (surfaces rt !! i) as [s|] eqn:Hs; [|done].
    injection Ho as <-. 
    assert (∀ s, s ∈ surfaces rt → s_authentication s = false) as Hall.
    { intros t Ht. by eapply position_None in Ec. }
    assert (s_authentication s = false) as Hs' by (by eapply Hall, list_elem_of_lookup_2).
    rewrite (set_authentication_count _ _ s) in Hlt by congruence.
    eapply inv_grant; eauto. destruct Hi as [Hnd Hok _ _ Hsh _ _]. constructor; try done.
    intros t Ht [E|E]%Hsh; [by rewrite Hall in E|congruence|done].
Qed.

(** The retiring output gets the overlay back. *)
Lemma vacant_retiring rt o :
  inv rt → retiring_authentication rt = Some o → vacant o (set_retirement None None None rt).
Proof.
  intros [Hnd Hok Hidle _ Hsh _ _] Ho.
  assert (∀ s, s ∈ surfaces rt → s_authentication s = false) as Hall.
  { intros s Hs. destruct (s_authentication s) eqn:E; [|done]. apply Hidle in E; [congruence|done]. }
  constructor; try done. intros s Hs [E|E]%Hsh; [by rewrite Hall in E|congruence|done].
Qed.

Lemma clear_retirement_safe rt :
  (∀ s, inv rt → s ∈ surfaces rt → s_shown s = true → retiring_authentication rt ≠ Some (s_output s)) →
  safe rt (set_retirement None None None rt).
Proof.
  intros Hno. split; [done|]. intros Hi _. pose proof Hi as [Hnd Hok Hidle Huniq Hsh Hret Hpres].
  constructor; try done. intros s Hs Hs'. destruct (Hsh s Hs Hs') as [?|E]; [by left|].
  by destruct (Hno s Hi Hs Hs').
Qed.

Lemma expire_safe now rt : safe rt (expire_authentication_retirement now rt).
Proof.
  unfold expire_authentication_retirement. destruct (authentication_retirement rt) as [r|]; [|done].
  destruct (expired r now); [|done].
  destruct (retiring_authentication rt) as [o|] eqn:Hr.
  - change (Some o ≫= ?f) with (f o). cbv beta. destruct (position _ _) as [i|] eqn:Ep.
    + split; [etrans; [|apply set_authentication_mono]; done|]. intros Hi Hlt.
      apply position_Some in Ep as (s & Hs & Hp). simp_bool. subst o.
      pose proof (vacant_retiring _ _ Hi Hr) as Hv.
      assert (s_authentication s = false) as Ha by (by eapply (v_auth _ _ Hv), list_elem_of_lookup_2).
      rewrite (set_authentication_count _ _ s) in Hlt by first [exact Hs|congruence].
      eapply inv_grant; eauto. by apply bool_decide_eq_true.
    + split.
      { etrans; [|apply (refresh_authentication_output_safe now)]. done. }
      intros Hi. pose proof (inv_retiring _ Hi o Hr) as (s & Hs & <- & Hc).
      eapply position_None in Ep; [|exact Hs]. cbn in Ep. rewrite Z.eqb_refl in Ep.
      unfold configured in Hc. by rewrite Hc in Ep.
  - change (None ≫= _) with (@None nat). cbv iota.
    etrans; [|apply refresh_authentication_output_safe].
    apply clear_retirement_safe. intros s _ _ _. by rewrite Hr.
Qed.

(** ** Requests for redraws and the actions of the lifecycle *)

Lemma with_redraw_tame f s : tame_surface s (with_redraw f s).
Proof. by apply tame_surface_same. Qed.
Hint Resolve with_redraw_tame : core.

Lemma redraw_media_safe rt : safe rt (redraw_media rt).
Proof.
  unfold redraw_media. destruct (terminate rt); [done|].
  apply tame_safe, tame_map. intros s _. by destruct (configured s).
Qed.

Lemma redraw_all_safe k rt : safe rt (redraw_all_surfaces k rt).
Proof. apply tame_safe, tame_map. intros s _. by destruct (_ && _). Qed.

Lemma record_full_frame_safe rt : safe rt (record_full_frame rt).
Proof. by apply same_safe. Qed.

Lemma classify_safe rt : safe rt (fst (classify_overlay_redraw rt)).
Proof. unfold classify_overlay_redraw. cbn. case_bool_decide; [by apply same_safe|done]. Qed.

Lemma redraw_overlay_safe rt :
  safe rt (let '(rt, kind) := classify_overlay_redraw rt in redraw_all_surfaces kind rt).
Proof.
  pose proof (classify_safe rt) as H. destruct (classify_overlay_redraw rt) as [rt' k]. cbn in H.
  etrans; [exact H|apply redraw_all_safe].
Qed.

Lemma apply_refresh_safe r rt : safe rt (apply_refresh r rt).
Proof.
  destruct r; cbn [apply_refresh]; try done;
    try (etrans; [apply record_full_frame_safe|apply redraw_media_safe]).
  apply redraw_overlay_safe.
Qed.

Lemma drain_ready_safe ok fds rt : safe rt (fst (drain_ready ok fds rt)).
Proof.
  revert rt. induction fds as [|fd fds IH]; intros rt; cbn [drain_ready].
  { by apply same_safe. }
  destruct (ok fd); [|by apply same_safe].
  etrans; [|apply IH]. apply same_safe; try done. rewrite role_changes_emit. cbn. lia.
Qed.

Lemma apply_safe a env rt : safe rt (apply a env rt).
Proof.
  destruct a; cbn [apply]; [done| |apply fail_safe|].
  - pose proof (drain_ready_safe (write_ok env) (ready rt) rt) as H.
    destruct (drain_ready _ _ rt) as [rt' ok]. cbn in H.
    set (rt2 := if ok then rt' else _).
    assert (safe rt rt2) as H2 by (subst rt2; destruct ok; [done|etrans; [exact H|apply fail_safe]]).
    clearbody rt2. destruct (terminate rt2); [done|].
    etrans; [exact H2|]. etrans; [|apply redraw_all_safe]. by apply same_safe.
  - destruct (session_lock rt); [|by apply same_safe].
    destruct (roundtrip_ok env); (apply same_safe; try done);
      match goal with |- role_changes ?r = _ =>
        change (role_changes r) with (role_changes (emit EUnlock rt)) end;
      rewrite role_changes_emit; cbn; lia.
Qed.

(** ** Rendering *)

(** After [retain_buffers] every buffer was drawn for the current role. *)
Definition current_buffers (s : Surface) : Prop :=
  Forall (λ b, b_role_generation b = s_role_generation s) (s_buffers s).

Lemma retain_buffers_tame size s : tame_surface s (retain_buffers size s).
Proof.
  apply tame_surface_buffers; try done. cbn. apply Forall_forall.
  intros b [Hb _]%list_elem_of_In%List.filter_In. left. exists b.
  rewrite list_elem_of_In. split_and!; auto.
Qed.

Lemma retain_buffers_current size s : current_buffers (retain_buffers size s).
Proof.
  apply Forall_forall. intros b [_ Hb]%list_elem_of_In%List.filter_In.
  unfold keep_buffer in Hb. by simp_bool.
Qed.

Lemma elem_of_alter {A} (f : A → A) i (l : list A) y :
  y ∈ alter f i l → y ∈ l ∨ ∃ x, x ∈ l ∧ y = f x.
Proof.
  intros [j Hj]%list_elem_of_lookup. rewrite list_lookup_alter in Hj. case_decide.
  - subst. destruct (l !! j) as [x|] eqn:E; [|done]. injection Hj as <-.
    right. exists x. split; [by eapply list_elem_of_lookup_2|done].
  - left. by eapply list_elem_of_lookup_2.
Qed.

Lemma redraw_buffer_facts size k bg f a b :
  b_role_generation (redraw_buffer size k bg f a b) = b_role_generation b
  ∧ (b_painted (redraw_buffer size k bg f a b) = true → b_painted b = true ∨ a = true).
Proof.
  unfold redraw_buffer. destruct size. destruct (_ || _); cbn; [auto|]. by rewrite orb_true_iff.
Qed.

Lemma draw_facts size bytes bg f ok s s' bi :
  draw size bytes bg f ok s = Ok (Some (s', bi)) → current_buffers s →
  tame_surface s s' ∧ current_buffers s'.
Proof.
  intros H Hcur. unfold draw in H. destruct (select_reusable_buffer _ _ _) as [i|].
  - injection H as <- <-. unfold current_buffers in *. rewrite Forall_forall in *.
    split; [apply tame_surface_buffers; try done; cbn; apply Forall_forall|];
      intros b [Hb|(b0 & Hb & ->)]%elem_of_alter; cbn [s_role_generation s_authentication with_buffers].
    + left. exists b. auto.
    + left. exists b0. split; [done|]. apply redraw_buffer_facts.
    + auto.
    + rewrite (proj1 (redraw_buffer_facts _ _ _ _ _ _)). auto.
  - destruct (_ <=? _)%nat; [done|]. inv_ok. destruct ok; [|done]. cbn in H0. injection H0 as <- <-.
    unfold current_buffers in *. split; [apply tame_surface_buffers; try done; cbn|cbn].
    + apply Forall_app. split; [|by repeat constructor; right]. apply Forall_forall. intros b Hb. left.
      exists b. auto.
    + apply Forall_app. split; [done|by repeat constructor].
Qed.

Lemma commit_ok c bi painted s : surface_ok c s → surface_ok c (commit_surface bi painted s).
Proof.
  intros [Hr Hb Hc]. constructor; [done| |done]. cbn. rewrite Forall_forall in *.
  intros b [H|(b0 & H & ->)]%elem_of_alter; [auto|]. apply (Hb b0 H).
Qed.

(** A commit: what it shows is what the buffer holds. *)
Lemma inv_commit rt i s bi painted c r fb :
  inv rt → surfaces rt !! i = Some s → (painted = true → s_authentication s = true) →
  (r = authentication_retirement rt ∨ retiring_authentication rt = Some (s_output s)) →
  inv (set_retirement (retiring_authentication rt) r fb
         (emit (ECommit (s_output s) painted c) (upd_surface i (commit_surface bi painted) rt))).
Proof.
  intros [Hnd Hok Hidle Huniq Hsh Hret Hpres] Hi Hp Hr.
  assert (s ∈ surfaces rt) as Hin by (by eapply list_elem_of_lookup_2).
  pose proof (λ s', alter_cases _ _ (commit_surface bi painted) _ s' Hi Hnd) as Hcases.
  constructor; cbn [surfaces emit upd_surface set_surfaces set_retirement retiring_authentication
    authentication_retirement].
  - by rewrite alter_outputs.
  - match goal with |- context [surface_ok (role_changes ?r)] =>
      change (role_changes r) with (role_changes (emit (ECommit (s_output s) painted c) rt)) end.
    rewrite role_changes_emit. cbn [is_role]. rewrite Z.add_0_r. rewrite Forall_forall in *.
    intros s' [->|[H1 _]]%Hcases; [apply commit_ok|]; auto.
  - intros s' [->|[H1 _]]%Hcases; cbn; eauto.
  - intros s1 s2 [->|[H1 _]]%Hcases [->|[H2 _]]%Hcases; cbn; eauto.
  - intros s' [->|[H1 _]]%Hcases; cbn; eauto.
  - intros o (t & Ht & <- & Hc)%Hret.
    destruct (decide (s_output t = s_output s)) as [E|E].
    + exists (commit_surface bi painted s). split; [by apply alter_same|]. split; [done|].
      by rewrite <- (output_inj _ t s Hnd Ht Hin E).
    + exists t. split; [by eapply alter_other|done].
  - intros s' d [->|[H1 Hne]]%Hcases H2 H3; cbn in *.
    + destruct painted; [|done]. rewrite (Hidle s Hin (Hp eq_refl)) in H2. done.
    + destruct Hr as [->|Hr]; [by eapply Hpres|congruence].
Qed.

Lemma upd_surface_lookup rt i s s0 :
  surfaces rt !! i = Some s0 → surfaces (upd_surface i (λ _, s) rt) !! i = Some s.
Proof. intros H. cbn. by rewrite list_lookup_alter, decide_True, H. Qed.

Lemma painted_current c s bi :
  surface_ok c s → current_buffers s → from_option b_painted false (s_buffers s !! bi) = true →
  s_authentication s = true.
Proof.
  intros [_ Hb _] Hcur. destruct (s_buffers s !! bi) as [b|] eqn:E; [|done]. cbn.
  apply list_elem_of_lookup_2 in E. rewrite Forall_forall in Hb. unfold current_buffers in Hcur.
  rewrite Forall_forall in Hcur.
  intros Hp. by apply (Hb b E); [apply Hcur|].
Qed.

Lemma commit_safe rt i s bi c r fb :
  let painted := from_option b_painted false (s_buffers s !! bi) in
  surfaces rt !! i = Some s → current_buffers s →
  (r = authentication_retirement rt ∨ retiring_authentication rt = Some (s_output s)) →
  safe rt (set_retirement (retiring_authentication rt) r fb
             (emit (ECommit (s_output s) painted c) (upd_surface i (commit_surface bi painted) rt))).
Proof.
  intros painted Hi Hcur Hr.
  assert (role_changes (set_retirement (retiring_authentication rt) r fb
            (emit (ECommit (s_output s) painted c) (upd_surface i (commit_surface bi painted) rt)))
          = role_changes rt) as E.
  { etrans; [apply (role_changes_emit (ECommit (s_output s) painted c) rt)|]. apply Z.add_0_r. }
  split; [by rewrite E|]. intros Hinv _. apply inv_commit; try done. intros Hp.
  pose proof (inv_surfaces _ Hinv) as Hok. rewrite Forall_forall in Hok.
  eapply painted_current; eauto. apply Hok. by eapply list_elem_of_lookup_2.
Qed.

(** Presenting a drawn buffer: without a feedback object a retiring surface
    takes the overlay back instead. *)
Lemma present_safe i s0 s bi env rt :
  surfaces rt !! i = Some s0 → tame_surface s0 s → current_buffers s → configured s = true →
  safe rt (fst (present i s bi env rt)).
Proof.
  intros Hi Ht Hcur Hc. unfold present.
  set (rt1 := upd_surface i (λ _, s) rt).
  assert (safe rt rt1) as H1.
  { apply tame_safe, tame_upd. intros t. rewrite Hi. by intros [= <-]. }
  assert (surfaces rt1 !! i = Some s) as Hi1 by (by eapply upd_surface_lookup).
  assert (is_retiring s rt = is_retiring s rt1) as -> by done.
  clearbody rt1. clear Hi Ht s0. etrans; [exact H1|]. clear H1 rt.
  destruct (is_retiring s rt1) eqn:Hret.
  - unfold is_retiring in Hret. simp_bool.
    destruct (feedback env) as [fb|].
    + destruct (attach_ok env); cbn [negb fst]; [|by apply same_safe].
      etrans; [by apply (same_safe rt1
        (set_retirement (retiring_authentication rt1) (authentication_retirement rt1) (Some fb) rt1))|].
      apply (commit_safe (set_retirement (retiring_authentication rt1)
        (authentication_retirement rt1) (Some fb) rt1)); auto.
    + cbn [fst].
      split.
      { match goal with |- _ ≤ role_changes ?r =>
          change (role_changes r) with (role_changes (emit (ERole (s_output s) true) rt1)) end.
        rewrite role_changes_emit. cbn. lia. }
      intros Hinv Hlt.
      refine (inv_grant_with (λ s, with_redraw request_role_change (with_role true s))
        (set_retirement None None None rt1) i s _ Hi1 Hc _ _); [done|by apply vacant_retiring|].
      change (role_changes (emit (ERole (s_output s) true) rt1) < 2 ^ 64) in Hlt.
      by rewrite role_changes_emit in Hlt.
  - cbn [fst]. destruct (feedback env); (destruct (attach_ok env); cbn [negb fst]; [|done]);
      (etrans; [apply (commit_safe rt1 i s bi (commit_of s bi rt1) (authentication_retirement rt1)
                  (retirement_feedback rt1)); auto|by apply same_safe]).
Qed.

Lemma upd_tame_safe rt i s s' :
  surfaces rt !! i = Some s → tame_surface s s' → safe rt (upd_surface i (λ _, s') rt).
Proof. intros Hi Ht. apply tame_safe, tame_upd. intros t. rewrite Hi. by intros [= <-]. Qed.

Lemma render_safe i env rt : safe rt (fst (render i env rt)).
Proof.
  unfold render. destruct (surfaces rt !! i) as [s|] eqn:Hi; [|done].
  destruct (s_size s) as [[w h]|] eqn:Hsz; [|done].
  destruct (buffer_size _ _ _ ≫= _) as [[[bw bh] bytes]|e]; [|done].
  pose proof (retain_buffers_tame (bw, bh) s) as Ht.
  pose proof (retain_buffers_current (bw, bh) s) as Hc.
  assert (configured s = true) as Hcs by (unfold configured; by rewrite Hsz).
  destruct (draw _ _ _ _ _ _) as [[[s' bi]|]|e] eqn:Hd; cbn [fst]; try by eapply upd_tame_safe.
  apply draw_facts in Hd as [Ht' Hc']; [|done].
  eapply present_safe; [done| |done|].
  - by eapply tame_surface_trans.
  - apply Ht', Ht, Hcs.
Qed.

Lemma render_all_safe env l rt : safe rt (fst (render_all l env rt)).
Proof.
  revert rt. induction l as [|i l IH]; intros rt; cbn [render_all]; [done|].
  pose proof (render_safe i (env i) rt) as H. destruct (render i (env i) rt) as [rt' [u|e]]; [|done].
  etrans; [exact H|apply IH].
Qed.

Lemma scan_surfaces_tame {A} (f : Surface → A) l :
  Forall2 tame_surface l (fst (scan_surfaces f l)).
Proof.
  assert (∀ l, Forall2 tame_surface l l) as Hrefl by (intros k; by induction k; constructor).
  induction l as [|s l IH]; cbn [scan_surfaces]; [constructor|].
  destruct (configured_size s) as [[size|e]|]; [| by constructor|];
    destruct (scan_surfaces f l) as [l' r]; cbn in *; constructor; try done.
  apply retain_buffers_tame.
Qed.

Lemma scan_safe {A} (f : Surface → A) rt :
  safe rt (set_surfaces (fst (scan_surfaces f (surfaces rt))) rt).
Proof. apply tame_safe. constructor; [apply scan_surfaces_tame|done..]. Qed.

Lemma maintain_surfaces_safe allow env rt : safe rt (fst (maintain_surfaces allow env rt)).
Proof.
  unfold maintain_surfaces. pose proof (λ A f, @scan_safe A f rt) as H.
  match goal with |- context [scan_surfaces ?f ?l] =>
    specialize (H _ f); destruct (scan_surfaces f l) as [l' [fl|e]] end; cbn in *; [|done].
  etrans; [exact H|apply render_all_safe].
Qed.

Lemma commit_partial_overlays_safe env rt : safe rt (fst (commit_partial_overlays env rt)).
Proof.
  unfold commit_partial_overlays. pose proof (λ A f, @scan_safe A f rt) as H.
  match goal with |- context [scan_surfaces ?f ?l] =>
    specialize (H _ f); destruct (scan_surfaces f l) as [l' [ps|e]] end; cbn in *; [|done].
  match goal with |- context [render_all ?l ?e ?r] =>
    pose proof (render_all_safe e l r) as H2; destruct (render_all l e r) as [rt' [u|er]] end;
    (etrans; [exact H|exact H2]).
Qed.

(** ** Outputs and events *)

Lemma add_surface_safe o n wl now rt : safe rt (fst (add_surface o n wl now rt)).
Proof.
  unfold add_surface. destruct (existsb _ _) eqn:E; [done|].
  destruct (session_lock rt); [|done]. cbn [negb fst].
  etrans; [|apply refresh_authentication_output_safe]. split; [done|].
  intros [Hnd Hok Hidle Huniq Hsh Hret Hpres] _.
  assert (∀ s, s ∈ surfaces rt ++ [new_surface o n wl] →
            s ∈ surfaces rt ∨ s = new_surface o n wl) as Hin.
  { intros s [?|?%list_elem_of_singleton]%elem_of_app; auto. }
  constructor; cbn [surfaces set_surfaces retiring_authentication authentication_retirement].
  - rewrite fmap_app. apply NoDup_app. split; [done|]. split; [|by apply NoDup_singleton].
    intros x Hx Ho%list_elem_of_singleton. cbn in Ho. subst x. apply list_elem_of_fmap in Hx as (s & Hx & Hs).
    apply not_true_iff_false in E. apply E, existsb_exists. exists s.
    split; [by apply list_elem_of_In|]. by apply Z.eqb_eq.
  - apply Forall_app. split; [exact Hok|]. repeat constructor; cbn; try done.
    unfold role_changes. cbn. lia.
  - intros s [H| ->]%Hin; cbn; eauto; done.
  - intros s s' [H| ->]%Hin [H'| ->]%Hin; cbn; eauto; done.
  - intros s [H| ->]%Hin; cbn; eauto; done.
  - intros x (s & Hs & ? & ?)%Hret. exists s. split; [|done]. apply elem_of_app. auto.
  - intros s d [H| ->]%Hin; cbn; eauto; done.
Qed.

Lemma rename_output_safe o n rt : safe rt (set_surfaces (rename_output o n (surfaces rt)) rt).
Proof.
  unfold rename_output. destruct (position _ _) as [i|]; [|by apply same_safe].
  apply tame_safe, tame_upd. intros s _. by apply tame_surface_same.
Qed.

Lemma fail_on_safe rt r : safe rt (fst r) → safe rt (fail_on r).
Proof. destruct r as [rt' [u|e]]; cbn; [done|]. intros H. etrans; [exact H|apply fail_safe]. Qed.

Lemma with_geometry_tame size scale s :
  (configured s = true → is_Some size) → tame_surface s (with_geometry size scale s).
Proof. intros H. apply tame_surface_same; try done. intros Hc. apply bool_decide_eq_true, H, Hc. Qed.

Lemma on_configure_safe wl size now rt : safe rt (on_configure wl size now rt).
Proof.
  unfold on_configure. destruct (by_wl wl rt) as [i|]; [|apply fail_safe].
  etrans; [|apply refresh_authentication_output_safe]. apply tame_safe, tame_upd.
  intros s _. case_bool_decide; [done|]. by apply with_geometry_tame.
Qed.

Lemma on_scale_safe wl scale rt : safe rt (on_scale wl scale rt).
Proof.
  unfold on_scale. destruct (by_wl wl rt) as [i|]; [|done]. apply tame_safe, tame_upd.
  intros s _. destruct (_ =? _); [done|]. apply with_geometry_tame. apply bool_decide_eq_true.
Qed.

Lemma on_frame_safe wl rt : safe rt (on_frame wl rt).
Proof.
  unfold on_frame. destruct (terminate rt); [done|]. destruct (by_wl wl rt); [|done].
  by apply tame_safe, tame_upd.
Qed.

Lemma on_new_output_safe o n wl now rt : safe rt (on_new_output o n wl now rt).
Proof.
  unfold on_new_output. destruct (_ && _); [|done]. destruct (existsb _ _).
  - etrans; [apply rename_output_safe|apply refresh_authentication_output_safe].
  - apply fail_on_safe, add_surface_safe.
Qed.

(** Unplugging the retiring output releases the overlay with it. *)
Lemma on_output_destroyed_safe o now rt : safe rt (on_output_destroyed o now rt).
Proof.
  unfold on_output_destroyed. etrans; [|apply refresh_authentication_output_safe].
  split; [by case_bool_decide|].
  intros [Hnd Hok Hidle Huniq Hsh Hret Hpres] _.
  assert (∀ s, s ∈ List.filter (λ s, negb (s_output s =? o)) (surfaces rt) ↔
            s ∈ surfaces rt ∧ s_output s ≠ o) as Hin.
  { intros s. rewrite list_elem_of_In, List.filter_In, <- list_elem_of_In.
    by rewrite negb_true_iff, Z.eqb_neq. }
  assert (NoDup (s_output <$> List.filter (λ s, negb (s_output s =? o)) (surfaces rt))) as Hnd'.
  { clear -Hnd. induction (surfaces rt) as [|s l IH]; [done|]. cbn in *.
    apply NoDup_cons in Hnd as [Hs Hnd]. destruct (negb _); [|by apply IH]. cbn.
    apply NoDup_cons. split; [|by apply IH]. contradict Hs.
    apply list_elem_of_fmap in Hs as (t & E & Ht). apply list_elem_of_fmap. exists t.
    split; [done|]. by apply list_elem_of_In, List.filter_In, proj1, list_elem_of_In in Ht. }
  assert (∀ c, Forall (surface_ok c) (surfaces rt) →
    Forall (surface_ok c) (List.filter (λ s, negb (s_output s =? o)) (surfaces rt))) as Hok'.
  { intros c. rewrite !Forall_forall. intros H s [Hs _]%Hin. auto. }
  case_bool_decide as E.
  - constructor; cbn; try done; auto; setoid_rewrite Hin.
    + intros s s' [? _] [? _]. eauto.
    + intros s [Hs Hne] [?|?]%Hsh; [by left|congruence|done].
  - constructor; cbn; try done; auto; setoid_rewrite Hin.
    + intros s [Hs _]. eauto.
    + intros s s' [? _] [? _]. eauto.
    + intros s [Hs _]. eauto.
    + intros x Hx. destruct (Hret x Hx) as (s & Hs & <- & Hc). exists s. split; [|done].
      split; [done|]. congruence.
    + intros s d [Hs _]. eauto.
Qed.

Lemma on_presented_safe fb now rt : safe rt (on_presented fb now rt).
Proof.
  unfold on_presented. destruct (_ && _) eqn:E; [|done]. simp_bool.
  etrans; [|apply refresh_authentication_output_safe]. apply clear_retirement_safe.
  intros s Hinv Hs Hsh Hr. destruct (authentication_retirement rt) as [[d|d]|] eqn:Ea; try done.
  rewrite (inv_presented _ Hinv s d Hs Hr Ea) in Hsh. done.
Qed.

Lemma on_discarded_safe fb wl rt : safe rt (on_discarded fb wl rt).
Proof.
  unfold on_discarded. case_bool_decide; [|done].
  set (rt1 := set_retirement _ _ None rt).
  assert (safe rt rt1) as H1.
  { apply tame_safe. constructor; try done; [apply (tame_surfaces _ _ (tame_refl rt))|].
    cbn. intros d. by destruct (authentication_retirement rt) as [[]|]. }
  clearbody rt1. etrans; [exact H1|]. destruct (by_wl wl rt1); [|done]. by apply tame_safe, tame_upd.
Qed.

Lemma on_release_safe wl b rt : safe rt (on_release wl b rt).
Proof.
  unfold on_release. destruct (by_wl wl rt); [|done]. apply tame_safe, tame_upd. intros s _.
  apply tame_surface_buffers; try done. apply Forall_forall. cbn.
  intros x [Hx|(x0 & Hx & ->)]%elem_of_alter; left; [exists x|exists x0]; cbn; auto.
Qed.

Lemma handle_key_safe input rt : safe rt (handle_key input rt).
Proof.
  destruct input as [i|]; [|done]. cbn [handle_key].
  destruct (give_input i (presentation rt)) as [p []]; [|by apply same_safe].
  etrans; [|apply redraw_overlay_safe]. by apply same_safe.
Qed.

Lemma handle_event_safe ev now env rt : safe rt (handle_event ev now env rt).
Proof.
  destruct ev; cbn [handle_event].
  - unfold on_locked. destruct (lock_confirmation_action _ _) as [s a].
    etrans; [|apply apply_safe]. by apply same_safe.
  - unfold on_finished. destruct (update _ _) as [s a].
    etrans; [|apply apply_safe]. by apply same_safe.
  - apply on_configure_safe.
  - apply on_scale_safe.
  - apply on_frame_safe.
  - apply on_new_output_safe.
  - unfold on_update_output.
    etrans; [apply rename_output_safe|apply refresh_authentication_output_safe].
  - apply on_output_destroyed_safe.
  - apply on_presented_safe.
  - apply on_discarded_safe.
  - apply on_release_safe.
  - apply handle_key_safe.
Qed.

(** ** The main loop *)

Lemma dispatch_safe env rt : safe rt (dispatch env rt).
Proof.
  unfold dispatch. generalize (events env). intros l. revert rt.
  induction l as [|[ev t] l IH]; intros rt; cbn [foldl]; [done|].
  etrans; [apply handle_event_safe|apply IH].
Qed.

Lemma add_surfaces_safe l now rt : safe rt (fst (add_surfaces l now rt)).
Proof.
  revert rt. induction l as [|[[o n] wl] l IH]; intros rt; cbn [add_surfaces]; [done|].
  pose proof (add_surface_safe o n wl now rt) as H.
  destruct (add_surface o n wl now rt) as [rt' [u|e]]; [|done]. etrans; [exact H|apply IH].
Qed.

Lemma authorize_safe env rt : safe rt (authorize env rt).
Proof.
  unfold authorize. destruct (take_authorization _) as [p []]; [|by apply same_safe].
  destruct (authorize_unlock _) as [s a]. etrans; [|apply apply_safe]. by apply same_safe.
Qed.

Lemma redraw_phase_safe env r rt : safe rt (redraw_phase env r rt).
Proof.
  unfold redraw_phase. pose proof (commit_partial_overlays_safe (overlay_env env) (apply_refresh r rt)) as H.
  destruct (commit_partial_overlays _ _) as [rt1 [pr|e]]; cbn in H.
  - etrans; [apply (apply_refresh_safe r)|]. etrans; [exact H|].
    etrans; [|apply fail_on_safe, maintain_surfaces_safe].
    destruct (should_poll_deferred r pr); [|done].
    unfold refresh_presentation. destruct (receive_deferred _) as [p q].
    etrans; [|apply apply_refresh_safe]. by apply same_safe.
  - etrans; [apply (apply_refresh_safe r)|]. etrans; [exact H|apply fail_safe].
Qed.

Lemma iterate_safe env rt : safe rt (iterate env rt).
Proof.
  unfold iterate. etrans; [apply (dispatch_safe env)|]. generalize (dispatch env rt). clear rt.
  intros rt. destruct (dispatch_ok env); [|apply fail_safe]. cbn [negb].
  destruct (terminate rt) eqn:Et; [done|]. unfold reconcile_outputs. rewrite Et.
  pose proof (add_surfaces_safe (outputs env) (now env) rt) as H.
  destruct (add_surfaces _ _ rt) as [rt1 [u|e]]; cbn in H; (etrans; [exact H|]); [|apply fail_safe].
  etrans; [apply (expire_safe (now env))|]. generalize (expire_authentication_retirement (now env) rt1).
  clear. intros rt. unfold refresh_priority. destruct (receive_latest _) as [p r].
  match goal with |- safe _ (if terminate (authorize _ ?r) then _ else _) =>
    assert (safe rt (authorize env r)) as H
      by (etrans; [|apply authorize_safe]; by apply same_safe) end.
  destruct (terminate _); [done|]. etrans; [exact H|apply redraw_phase_safe].
Qed.

Lemma run_safe envs rt : safe rt (run envs rt).
Proof.
  revert rt. induction envs as [|env envs IH]; intros rt; cbn [run]; [done|].
  destruct (terminate rt); [done|]. etrans; [apply iterate_safe|apply IH].
Qed.

Lemma inv_initial fds requested (p : P) : inv (initial fds requested p).
Proof.
  constructor; cbn; try done; try apply NoDup_nil_2; intros;
    match goal with H : _ ∈ [] |- _ => by apply elem_of_nil in H end.
Qed.

Lemma inv_locker_run fds requested (p : P) outs now envs rt :
  locker_run fds requested p outs now envs = Ok rt → role_changes rt < 2 ^ 64 → inv rt.
Proof.
  unfold locker_run. pose proof (add_surfaces_safe outs now (initial fds requested p)) as H.
  destruct outs as [|o outs]; [done|].
  destruct (add_surfaces _ _ _) as [rt1 [u|e]]; [|done]. cbn in H.
  intros [= <-] Hlt. apply (run_safe envs rt1); [|done]. apply H; [apply inv_initial|].
  pose proof (run_safe envs rt1) as [? _]. lia.
Qed.

(** A surface that has the overlay, or whose last committed buffer shows it. *)
Definition holds_overlay (s : Surface) : Prop := s_authentication s = true ∨ s_shown s = true.

Lemma inv_single rt s s' :
  inv rt → s ∈ surfaces rt → s' ∈ surfaces rt → holds_overlay s → holds_overlay s' → s = s'.
Proof.
  intros Hinv Hs Hs' H H'. apply (output_inj (surfaces rt)); [apply Hinv|done|done|].
  assert (∀ t, t ∈ surfaces rt → holds_overlay t →
    s_authentication t = true ∨ retiring_authentication rt = Some (s_output t)) as Hh.
  { intros t Ht [?|?]; [by left|by apply Hinv]. }
  destruct (Hh s Hs H) as [A|A], (Hh s' Hs' H') as [B|B].
  - by apply Hinv.
  - by rewrite (inv_idle _ Hinv s Hs A) in B.
  - by rewrite (inv_idle _ Hinv s' Hs' B) in A.
  - congruence.
Qed.

(** C6.  The overlay that takes the password is on one output at most: in
    every run of the locker, through hot-plug, reconfiguration, discarded
    frames, missing presentation feedback and time-outs, at most one surface
    has the authentication role or last committed a buffer that may show the
    overlay.  (The role generations are [u64]s; the run has fewer than [2^64]
    role changes.) *)
Theorem single_overlay fds requested (p : P) outs now envs rt s s' :
  locker_run fds requested p outs now envs = Ok rt → role_changes rt < 2 ^ 64 →
  s ∈ surfaces rt → s' ∈ surfaces rt → holds_overlay s → holds_overlay s' → s = s'.
Proof. intros H Hlt. apply inv_single. by eapply inv_locker_run. Qed.

End Handover.

(** A presentation with a fixed frame, for the witnesses. *)
#[local] Instance fixed_presentation : Presentation bool := {
  receive_latest p := (p, Unchanged);
  receive_deferred p := (p, Unchanged);
  frame p := None;
  lock_confirmed p := p;
  give_input i p := (true, false);
  take_authorization p := (p, p);
}.

Definition quiet_iteration (evs : list (WlEvent * Z)) (now : Z) : IterEnv :=
  mkIterEnv evs true [] now (mkApplyEnv (λ _, true) true)
    (λ _, mkRenderEnv true (Some 7) true) (λ _, mkRenderEnv true (Some 7) true).

(** Two outputs; the lock is confirmed, both are configured, and the first,
    whose name was not asked for, hands the overlay over to the second. *)
Definition two_outputs : list IterEnv :=
  [quiet_iteration [(EvLocked, 0); (EvConfigure 10 (640, 480), 1)] 1;
   quiet_iteration [(EvConfigure 20 (800, 600), 2)] 2;
   quiet_iteration [(EvFrame 10, 3)] 3;
   quiet_iteration [(EvPresented 7, 4)] 4].

Lemma single_overlay_witness :
  match locker_run [3] (Some (str "DP-2")) false [(1, Some (str "DP-1"), 10); (2, Some (str "DP-2"), 20)]
          0 two_outputs with
  | Ok rt => ∃ s, (filter (λ s, s_authentication s = true) (surfaces rt)) = [s]
                  ∧ s_output s = 2 ∧ s_shown s = true
                  ∧ (∀ s', s' ∈ surfaces rt → holds_overlay s' → s = s')
  | Err _ => False
  end.
Proof.
  destruct (locker_run _ _ _ _ _ _) as [rt|e] eqn:E; [|vm_compute in E; discriminate E].
  pose proof E as E'. vm_compute in E'. injection E' as <-.
  eexists. split; [reflexivity|]. split; [reflexivity|]. split; [reflexivity|].
  intros s' Hs' Hh. refine (single_overlay [3] _ _ _ _ _ _ _ _ E _ _ Hs' _ Hh).
  - vm_compute. reflexivity.
  - right; left.
  - left. reflexivity.
Defined.
