(* ===== verification/LockExit.v ===== *)
(** * How the locker ends

    Proofs about [LockRuntime]: what the locker tells the outside (readiness on
    the descriptors it was given, the unlock request) over a whole run, and what
    a successful exit means. *)

From S2P Require Import Prelude Utf8 SessionLock LockRuntime.

Section Exit.
Context {P : Type} `{!Presentation P}.
Implicit Types rt : Runtime P.

(** The effects that matter to the caller of the locker. *)
Definition reported (e : Effect) : bool :=
  match e with EReady _ | EUnlock => true | ERole _ _ | ECommit _ _ _ => false end.
Definition reports rt : list Effect := List.filter reported (trace rt).

#[local] Arguments reports : simpl never.

(** What the exit of the locker depends on. *)
Definition core rt : Lifecycle * list Z * bool * option RuntimeError * bool * list Effect * P :=
  (lifecycle (state rt), ready rt, session_lock rt, failure rt, terminate rt, reports rt, presentation rt).

Lemma reports_emit e rt : reports (emit e rt) = reports rt ++ (if reported e then [e] else []).
Proof. unfold reports. cbn. rewrite List.filter_app. cbn. by destruct (reported e). Qed.

Lemma core_emit e rt : reported e = false → core (emit e rt) = core rt.
Proof. intros H. unfold core. rewrite reports_emit, H, app_nil_r. done. Qed.

(** ** Steps that leave the core alone *)

Lemma core_set_authentication i a rt : core (set_authentication i a rt) = core rt.
Proof.
  unfold set_authentication. destruct (surfaces rt !! i); [|done]. case_bool_decide; [done|].
  by rewrite core_emit.
Qed.
Hint Rewrite core_set_authentication : core.

Lemma core_refresh_authentication_output now rt :
  core (refresh_authentication_output now rt) = core rt.
Proof.
  unfold refresh_authentication_output. case_bool_decide; [done|]. case_bool_decide; [done|].
  destruct (position _ _), (select_authentication_index _ _); autorewrite with core; done.
Qed.
Hint Rewrite core_refresh_authentication_output : core.

Lemma core_expire now rt : core (expire_authentication_retirement now rt) = core rt.
Proof.
  unfold expire_authentication_retirement. destruct (authentication_retirement rt); [|done].
  destruct (expired _ _); [|done]. destruct (_ ≫= _); by autorewrite with core.
Qed.

Lemma core_redraw_media rt : core (redraw_media rt) = core rt.
Proof. unfold redraw_media. by destruct (terminate rt) eqn:E. Qed.
Lemma core_redraw_all k rt : core (redraw_all_surfaces k rt) = core rt.
Proof. done. Qed.
Lemma core_record_full_frame rt : core (record_full_frame rt) = core rt.
Proof. done. Qed.
Hint Rewrite core_expire core_redraw_media core_redraw_all core_record_full_frame : core.

Lemma core_redraw_overlay rt :
  core (let '(rt, kind) := classify_overlay_redraw rt in redraw_all_surfaces kind rt) = core rt.
Proof. unfold classify_overlay_redraw. by case_bool_decide. Qed.

Lemma core_apply_refresh r rt : core (apply_refresh r rt) = core rt.
Proof.
  destruct r; cbn [apply_refresh]; autorewrite with core; try done. apply core_redraw_overlay.
Qed.
Hint Rewrite core_redraw_overlay core_apply_refresh : core.

Lemma core_present i s bi env rt : core (fst (present i s bi env rt)) = core rt.
Proof.
  unfold present. destruct (is_retiring s rt), (feedback env);
    (try (etrans; [apply (core_emit (ERole (s_output s) true) rt)|]; done));
    destruct (attach_ok env); try done;
    etrans; try apply (core_emit (ECommit (s_output s) (from_option b_painted false (s_buffers s !! bi)) (commit_of s bi rt)) rt); done.
Qed.

Lemma core_render i env rt : core (fst (render i env rt)) = core rt.
Proof.
  unfold render. destruct (surfaces rt !! i) as [s|]; [|done].
  destruct (s_size s) as [[w h]|]; [|done]. destruct (_ ≫= _) as [[[bw bh] bytes]|e]; [|done].
  destruct (draw _ _ _ _ _ _) as [[[s' bi]|]|e]; try done. apply core_present.
Qed.

Lemma core_render_all env l rt : core (fst (render_all l env rt)) = core rt.
Proof.
  revert rt. induction l as [|i l IH]; intros rt; cbn [render_all]; [done|].
  pose proof (core_render i (env i) rt) as H. destruct (render i (env i) rt) as [rt' [u|e]]; [|done].
  by rewrite IH.
Qed.

Lemma core_maintain allow env rt : core (fst (maintain_surfaces allow env rt)) = core rt.
Proof.
  unfold maintain_surfaces. destruct (scan_surfaces _ _) as [l [fl|e]]; [|done].
  by rewrite core_render_all.
Qed.

Lemma core_commit_partial env rt : core (fst (commit_partial_overlays env rt)) = core rt.
Proof.
  unfold commit_partial_overlays. destruct (scan_surfaces _ _) as [l [ps|e]]; [|done].
  match goal with |- context [render_all ?l ?e ?r] =>
    pose proof (core_render_all e l r) as H; destruct (render_all l e r) as [rt' [u|er]] end; done.
Qed.

Lemma core_add_surface o n wl now rt : core (fst (add_surface o n wl now rt)) = core rt.
Proof.
  unfold add_surface. destruct (existsb _ _); [done|]. destruct (session_lock rt); [|done].
  cbn [negb fst]. by autorewrite with core.
Qed.

Lemma core_add_surfaces l now rt : core (fst (add_surfaces l now rt)) = core rt.
Proof.
  revert rt. induction l as [|[[o n] wl] l IH]; intros rt; cbn [add_surfaces]; [done|].
  pose proof (core_add_surface o n wl now rt) as H.
  destruct (add_surface o n wl now rt) as [rt' [u|e]]; [|done]. by rewrite IH.
Qed.

(** ** The exit invariant *)

(** An invariant of the presentation, which all that the runtime asks of it
    preserves. *)
Record preserved (I : P → Prop) : Prop := {
  keeps_latest p : I p → I (fst (receive_latest p));
  keeps_deferred p : I p → I (fst (receive_deferred p));
  keeps_confirmed p : I p → I (lock_confirmed p);
  keeps_input i p : I p → I (fst (give_input i p));
  keeps_authorization p : I p → I (fst (take_authorization p));
}.

Context (I : P → Prop) (HI : preserved I).

(** A presentation in which the invariant holds grants the unlock. *)
Definition grantable : Prop := ∃ p : P, I p ∧ snd (take_authorization p) = true.

Definition unlocked (fds : list Z) (effects : list Effect) : Prop :=
  effects = (EReady <$> fds) ++ [EUnlock] ∧ grantable.

Definition exit_of (fds : list Z)
    (c : Lifecycle * list Z * bool * option RuntimeError * bool * list Effect * P) : Prop :=
  let '(l, rdy, lock, err, term, effects, p) := c in
  (I p ∧ (term = true → is_Some err ∨ lock = false)) ∧
  match l with
  | Requesting => effects = [] ∧ rdy = fds ∧ lock = true ∧ err = None ∧ term = false
  | Locked => effects = EReady <$> fds ∧ lock = true ∧ err = None ∧ term = false
  | Unlocking => unlocked fds effects ∧ lock = false
  | Denied | Aborted =>
    (lock = true ∧ ∃ k, effects = EReady <$> take k fds) ∨ (lock = false ∧ unlocked fds effects)
  end.

Definition exit_inv (fds : list Z) rt : Prop := exit_of fds (core rt).

Lemma exit_core fds rt rt' : core rt' = core rt → exit_inv fds rt → exit_inv fds rt'.
Proof. unfold exit_inv. by intros ->. Qed.

Lemma exit_presentation fds p rt : I p → exit_inv fds rt → exit_inv fds (set_presentation p rt).
Proof using Type.
  intros Hp [[_ Ht] H]. split; [by split|]. exact H.
Qed.
Lemma exit_keeps fds rt : exit_inv fds rt → I (presentation rt).
Proof using Type. by intros [[H _] _]. Qed.

Lemma all_ready fds : EReady <$> fds = EReady <$> take (length fds) fds.
Proof. by rewrite take_ge. Qed.

Lemma fail_exit fds e rt : exit_inv fds rt → exit_inv fds (fail e rt).
Proof.
  unfold exit_inv, core. intros [[Hp _] H]. split.
  { split; [done|]. intros _. left. cbn. unfold OutputSelection.or_else. by destruct (failure rt). }
  change (reports (fail e rt)) with (reports rt). cbn. destruct (lifecycle (state rt)); cbn in *.
  - left. destruct H as (-> & _ & -> & _). split; [done|]. by exists 0%nat.
  - left. destruct H as (-> & -> & _). split; [done|]. exists (length fds). apply all_ready.
  - done.
  - done.
  - right. by destruct H.
Qed.

Lemma fail_on_exit fds r rt :
  exit_inv fds rt → core (fst r) = core rt → exit_inv fds (fail_on r).
Proof.
  destruct r as [rt' [u|e]]; cbn; intros H E; [|apply fail_exit]; by eapply exit_core.
Qed.

Lemma drain_ready_reports ok fds rt :
  ∃ k, reports (fst (drain_ready ok fds rt)) = reports rt ++ (EReady <$> take k fds)
    ∧ (snd (drain_ready ok fds rt) = true → take k fds = fds).
Proof.
  revert rt. induction fds as [|fd fds IH]; intros rt; cbn [drain_ready].
  - exists 0%nat. by rewrite app_nil_r.
  - destruct (ok fd).
    + destruct (IH (emit (EReady fd) rt)) as (k & E & Hk). exists (S k).
      rewrite E, reports_emit. cbn. rewrite <- app_assoc. split; [done|]. intros H. by rewrite Hk.
    + exists 0%nat. cbn. by rewrite app_nil_r.
Qed.

Lemma drain_ready_rest ok fds rt :
  let rt' := fst (drain_ready ok fds rt) in
  state rt' = state rt ∧ session_lock rt' = session_lock rt ∧ failure rt' = failure rt
  ∧ terminate rt' = terminate rt ∧ presentation rt' = presentation rt.
Proof.
  revert rt. induction fds as [|fd fds IH]; intros rt; cbn [drain_ready]; [done|].
  destruct (ok fd); [|done]. apply (IH (emit (EReady fd) rt)).
Qed.

(** The lock is confirmed: the descriptors are written, all or until one fails. *)
Lemma report_ready_exit fds env rt b :
  exit_inv fds rt → lifecycle (state rt) = Requesting →
  exit_inv fds (apply ReportReady env (set_state (mkState Locked b) rt)).
Proof.
  intros [[Hp _] H] El. rewrite El in H. destruct H as (Hr & Hfds & Hlock & Hf & Ht).
  cbn [apply]. set (rt1 := set_state (mkState Locked b) rt).
  destruct (drain_ready_reports (write_ok env) (ready rt1) rt1) as (k & Ek & Hk).
  pose proof (drain_ready_rest (write_ok env) (ready rt1) rt1) as (E1 & E2 & E3 & E4 & E5).
  destruct (drain_ready _ _ rt1) as [rt2 ok]. cbn in *.
  change (presentation rt1) with (presentation rt) in E5.
  change (reports rt1) with (reports rt) in Ek. rewrite Hr, Hfds in Ek. rewrite Hfds in Hk.
  destruct ok; cbn.
  - assert (exit_inv fds rt2) as H2.
    { unfold exit_inv, core. rewrite E1, E2, E3, E4, E5, Hlock, Hf, Ht, Ek, Hk by done. done. }
    rewrite E4, Ht. apply (exit_presentation _ _ rt2); [|done]. by apply (keeps_confirmed _ HI), (exit_keeps fds).
  - unfold exit_inv, core. change (reports (fail ?e rt2)) with (reports rt2). cbn. rewrite E2, E5, Hlock. split; [|left; split; [done|by exists k]].
    split; [done|]. intros _. left. unfold OutputSelection.or_else. by destruct (failure rt2).
Qed.

Lemma unlock_exit fds env rt b :
  exit_inv fds rt → lifecycle (state rt) = Locked → grantable →
  exit_inv fds (apply UnlockAndSynchronize env (set_state (mkState Unlocking b) rt)).
Proof.
  intros [[Hp _] H] El Hg. rewrite El in H. destruct H as (Hr & Hlock & Hf & Ht).
  cbn [apply]. cbn [session_lock set_state]. rewrite Hlock.
  assert (∀ rt', reports rt' = reports (emit EUnlock rt) → unlocked fds (reports rt')) as Hu.
  { intros rt' ->. rewrite reports_emit, Hr. done. }
  destruct (roundtrip_ok env); unfold exit_inv, core; cbn.
  - split; [split; [done|by right]|]. split; [by apply Hu|done].
  - split; [split; [done|by right]|]. right. split; [done|by apply Hu].
Qed.

Lemma on_locked_exit fds env rt : exit_inv fds rt → exit_inv fds (on_locked env rt).
Proof.
  intros H. unfold on_locked, lock_confirmation_action. destruct (_ || _); [done|].
  cbn [update]. case_bool_decide as El; [|by eapply exit_core; [|exact H]].
  by apply report_ready_exit.
Qed.

Lemma on_finished_exit fds env rt : exit_inv fds rt → exit_inv fds (on_finished env rt).
Proof.
  intros H%(fail_exit _ ELockFinished). unfold on_finished. cbn [update]. by case_bool_decide.
Qed.

Lemma authorize_exit fds env rt : exit_inv fds rt → exit_inv fds (authorize env rt).
Proof.
  intros H. unfold authorize. pose proof (exit_keeps _ _ H) as Hp.
  pose proof (keeps_authorization _ HI _ Hp) as Hp'.
  destruct (take_authorization (presentation rt)) as [p []] eqn:Eg; cbn [fst] in Hp';
    [|by apply exit_presentation].
  unfold authorize_unlock. cbn [state set_presentation]. case_bool_decide as El; cbn [negb].
  - apply (unlock_exit _ _ (set_presentation p rt)); [by apply exit_presentation|done|].
    exists (presentation rt). by rewrite Eg.
  - apply (exit_presentation _ _ rt); done.
Qed.

Lemma handle_event_exit fds ev now env rt :
  exit_inv fds rt → exit_inv fds (handle_event ev now env rt).
Proof.
  intros H. destruct ev; cbn [handle_event]; [by apply on_locked_exit|by apply on_finished_exit|..].
  - unfold on_configure. destruct (by_wl wl rt); [|by apply fail_exit].
    eapply exit_core, H. by autorewrite with core.
  - unfold on_scale. by destruct (by_wl wl rt); [eapply exit_core, H|].
  - unfold on_frame. destruct (terminate rt) eqn:E; [done|].
    by destruct (by_wl wl rt); [eapply exit_core, H|].
  - unfold on_new_output. destruct (_ && _); [|done]. destruct (existsb _ _).
    + eapply exit_core, H. by autorewrite with core.
    + eapply fail_on_exit; [exact H|apply core_add_surface].
  - eapply exit_core, H. unfold on_update_output. by autorewrite with core.
  - eapply exit_core, H. unfold on_output_destroyed. autorewrite with core. by case_bool_decide.
  - eapply exit_core, H. unfold on_presented. destruct (_ && _); [|done]. by autorewrite with core.
  - eapply exit_core, H. unfold on_discarded. case_bool_decide; [|done]. by destruct (by_wl _ _).
  - eapply exit_core, H. unfold on_release. by destruct (by_wl _ _).
  - destruct input as [i|]; [|by eapply exit_core, H]. cbn [handle_key].
    pose proof (keeps_input _ HI i _ (exit_keeps _ _ H)) as Hp.
    apply (exit_presentation _ (fst (give_input i (presentation rt)))) in H; [|done].
    destruct (give_input i (presentation rt)) as [p []]; [|by eapply exit_core, H].
    eapply exit_core, H. by rewrite core_redraw_overlay.
Qed.

Lemma dispatch_exit fds env rt : exit_inv fds rt → exit_inv fds (dispatch env rt).
Proof.
  unfold dispatch. generalize (events env). intros l. revert rt.
  induction l as [|[ev t] l IH]; intros rt H; cbn [foldl]; [done|]. by apply IH, handle_event_exit.
Qed.

Lemma redraw_phase_exit fds env r rt : exit_inv fds rt → exit_inv fds (redraw_phase env r rt).
Proof.
  intros H. unfold redraw_phase.
  pose proof (core_commit_partial (overlay_env env) (apply_refresh r rt)) as E.
  rewrite core_apply_refresh in E. destruct (commit_partial_overlays _ _) as [rt1 [pr|e]]; cbn in E.
  - eapply fail_on_exit; [|apply core_maintain]. apply (exit_core _ _ rt1) in H; [|by rewrite E].
    destruct (should_poll_deferred r pr); [|done]. unfold refresh_presentation.
    pose proof (keeps_deferred _ HI _ (exit_keeps _ _ H)) as Hp.
    apply (exit_presentation _ (fst (receive_deferred (presentation rt1)))) in H; [|done].
    destruct (receive_deferred _) as [p q]. eapply exit_core, H. rewrite core_apply_refresh.
    unfold record_presentation_failure. by case_bool_decide.
  - apply fail_exit. by eapply exit_core.
Qed.

Lemma iterate_exit fds env rt : exit_inv fds rt → exit_inv fds (iterate env rt).
Proof.
  intros H. unfold iterate. apply (dispatch_exit _ env) in H. revert H. generalize (dispatch env rt).
  clear rt. intros rt H. destruct (dispatch_ok env); [|by apply fail_exit]. cbn [negb].
  destruct (terminate rt) eqn:Et; [done|]. unfold reconcile_outputs. rewrite Et.
  pose proof (core_add_surfaces (outputs env) (now env) rt) as E.
  destruct (add_surfaces _ _ rt) as [rt1 [u|e]]; cbn in E; [|apply fail_exit; by eapply exit_core].
  apply (exit_core _ _ (expire_authentication_retirement (now env) rt1)) in H; [|by rewrite core_expire, E].
  unfold refresh_priority. pose proof (keeps_latest _ HI _ (exit_keeps _ _ H)) as Hp.
  apply (exit_presentation _ (fst (receive_latest (presentation (expire_authentication_retirement (now env) rt1))))) in H; [|done].
  destruct (receive_latest _) as [p r].
  match goal with |- context [authorize env ?r] =>
    assert (exit_inv fds (authorize env r)) as H2 end.
  { apply authorize_exit. eapply exit_core, H.
    unfold record_presentation_failure. by case_bool_decide. }
  match goal with |- exit_inv _ (if ?b then _ else _) => destruct b end; [done|].
  by apply redraw_phase_exit.
Qed.

Lemma run_exit fds envs rt : exit_inv fds rt → exit_inv fds (run envs rt).
Proof.
  revert rt. induction envs as [|env envs IH]; intros rt H; cbn [run]; [done|].
  destruct (terminate rt); [done|]. by apply IH, iterate_exit.
Qed.

Lemma exit_locker_run fds requested (p : P) outs now envs rt : I p →
  locker_run fds requested p outs now envs = Ok rt → exit_inv fds rt.
Proof using HI.
  intros Hp. unfold locker_run. pose proof (core_add_surfaces outs now (initial fds requested p)) as E.
  destruct outs as [|o outs]; [done|].
  destruct (add_surfaces _ _ _) as [rt1 [u|e]]; [|done]. intros [= <-]. apply run_exit.
  by eapply exit_core; [exact E|].
Qed.

(** What the invariant says of the reports and the exit. *)
Lemma exit_reports fds rt : exit_inv fds rt →
  ((∃ k, reports rt = EReady <$> take k fds) ∨ unlocked fds (reports rt))
  ∧ (terminate rt = true → failure rt = None → unlocked fds (reports rt)).
Proof using Type.
  unfold exit_inv, core. intros [[_ Hterm] H]. split.
  - destruct (lifecycle (state rt)).
    + destruct H as [-> _]. left. by exists 0%nat.
    + destruct H as [-> _]. left. exists (length fds). apply all_ready.
    + destruct H as [[_ ?]|[_ ?]]; auto.
    + destruct H as [[_ ?]|[_ ?]]; auto.
    + destruct H as [? _]. auto.
  - intros Ht Hf. destruct (Hterm Ht) as [[e E]|E]; [congruence|].
    destruct (lifecycle (state rt)).
    + destruct H as (_ & _ & H & _). congruence.
    + destruct H as (_ & H & _). congruence.
    + destruct H as [[H _]|[_ H]]; [congruence|done].
    + destruct H as [[H _]|[_ H]]; [congruence|done].
    + apply H.
Qed.

(** ** The presentation that was granted the unlock *)

(** Everything but the unlock keeps the lock; the unlock ends the run. *)
Definition granted_last (q : P) : Prop :=
  ∃ p, I p ∧ snd (take_authorization p) = true ∧ fst (take_authorization p) = q.

Lemma core_lock rt rt' : core rt' = core rt → session_lock rt' = session_lock rt.
Proof using Type. unfold core. congruence. Qed.

Lemma apply_lock a env rt : a ≠ UnlockAndSynchronize → session_lock (apply a env rt) = session_lock rt.
Proof using Type.
  destruct a; cbn [apply]; intros H; try done.
  pose proof (drain_ready_rest (write_ok env) (ready rt) rt) as (_ & E & _).
  destruct (drain_ready _ _ _) as [rt' []]; cbn [fst] in E; [|done]. by destruct (terminate rt').
Qed.

Lemma handle_event_lock ev now env rt : session_lock (handle_event ev now env rt) = session_lock rt.
Proof using Type.
  destruct ev; cbn [handle_event].
  - unfold on_locked, lock_confirmation_action. destruct (_ || _); [done|].
    cbn [update]. case_bool_decide; [|done].
    etrans; [by apply (apply_lock ReportReady)|done].
  - unfold on_finished. cbn [update]. by case_bool_decide.
  - unfold on_configure. destruct (by_wl wl rt); [|done]. apply core_lock. by autorewrite with core.
  - unfold on_scale. by destruct (by_wl wl rt).
  - unfold on_frame. destruct (terminate rt); [done|]. by destruct (by_wl wl rt).
  - unfold on_new_output. destruct (_ && _); [|done]. destruct (existsb _ _).
    + apply core_lock. by autorewrite with core.
    + pose proof (core_lock _ _ (core_add_surface output name wl now rt)) as E.
      by destruct (add_surface _ _ _ _ rt) as [rt' []].
  - apply core_lock. unfold on_update_output. by autorewrite with core.
  - apply core_lock. unfold on_output_destroyed. autorewrite with core. by case_bool_decide.
  - apply core_lock. unfold on_presented. destruct (_ && _); [|done]. by autorewrite with core.
  - unfold on_discarded. case_bool_decide; [|done]. by destruct (by_wl _ _).
  - unfold on_release. by destruct (by_wl _ _).
  - destruct input as [i|]; [|done]. cbn [handle_key].
    destruct (give_input i (presentation rt)) as [p []]; [|done].
    etrans; [apply core_lock, core_redraw_overlay|done].
Qed.

Lemma redraw_phase_lock env r rt : session_lock (redraw_phase env r rt) = session_lock rt.
Proof using Type.
  unfold redraw_phase. pose proof (core_commit_partial (overlay_env env) (apply_refresh r rt)) as E.
  rewrite core_apply_refresh in E. apply core_lock in E.
  destruct (commit_partial_overlays _ _) as [rt1 [pr|e]]; cbn in E; [|done]. rewrite <- E.
  match goal with |- session_lock (fail_on (maintain_surfaces ?a ?e ?r)) = _ =>
    transitivity (session_lock r);
      [pose proof (core_lock _ _ (core_maintain a e r)) as E2; by destruct (maintain_surfaces a e r) as [? []]|] end.
  destruct (should_poll_deferred r pr); [|done]. unfold refresh_presentation.
  destruct (receive_deferred _) as [p q]. etrans; [apply core_lock, core_apply_refresh|].
  unfold record_presentation_failure. by case_bool_decide.
Qed.

Lemma authorize_lock fds env rt : exit_inv fds rt → session_lock rt = true →
  session_lock (authorize env rt) = true
  ∨ terminate (authorize env rt) = true ∧ granted_last (presentation (authorize env rt)).
Proof using Type.
  intros H Hl. unfold authorize. pose proof (exit_keeps _ _ H) as Hp.
  destruct (take_authorization (presentation rt)) as [p []] eqn:Eg; [|by left].
  unfold authorize_unlock. cbn [state set_presentation]. case_bool_decide; cbn [negb]; [right|by left].
  assert (granted_last p) as Hg by (exists (presentation rt); by rewrite Eg).
  cbn [apply session_lock set_state set_presentation]. rewrite Hl. by destruct (roundtrip_ok _).
Qed.

Lemma iterate_lock fds env rt : exit_inv fds rt → session_lock rt = true →
  session_lock (iterate env rt) = true
  ∨ terminate (iterate env rt) = true ∧ granted_last (presentation (iterate env rt)).
Proof using HI.
  intros H Hl. unfold iterate. assert (session_lock (dispatch env rt) = true) as Hd.
  { unfold dispatch. generalize (events env). intros l. revert rt H Hl.
    induction l as [|[ev t] l IH]; intros rt H Hl; [done|].
    apply IH; [by apply handle_event_exit|by rewrite handle_event_lock]. }
  apply (dispatch_exit _ env) in H. clear Hl. generalize dependent (dispatch env rt). clear rt. intros rt H Hl.
  destruct (dispatch_ok env); [|by left]. destruct (terminate rt) eqn:Et; [by left|]. cbn [negb].
  unfold reconcile_outputs. rewrite Et. pose proof (core_add_surfaces (outputs env) (now env) rt) as E.
  destruct (add_surfaces _ _ rt) as [rt1 [u|e]]; cbn in E; [|left; cbn; by rewrite (core_lock _ _ E)].
  rewrite <- (core_expire (now env)) in E. apply (exit_core _ _ _ E) in H. rewrite <- (core_lock _ _ E) in Hl.
  clear E. generalize dependent (expire_authentication_retirement (now env) rt1). clear rt1 Et. intros rt1 H Hl.
  unfold refresh_priority. pose proof (keeps_latest _ HI _ (exit_keeps _ _ H)) as Hp.
  apply (exit_presentation _ (fst (receive_latest (presentation rt1)))) in H; [|done].
  destruct (receive_latest _) as [p r].
  match goal with |- context [authorize env ?t] =>
    assert (exit_inv fds t) as H2; [eapply exit_core, H; unfold record_presentation_failure; by case_bool_decide|];
    assert (session_lock t = true) as Hl2; [unfold record_presentation_failure; by case_bool_decide|];
    pose proof (authorize_lock fds env t H2 Hl2) as Ha; generalize dependent (authorize env t) end.
  intros t2 [Ha|[Ht Hg]]; [|rewrite Ht; by right].
  left. destruct (terminate t2); [done|]. by rewrite redraw_phase_lock.
Qed.

Lemma run_lock fds envs rt : exit_inv fds rt → session_lock rt = true →
  session_lock (run envs rt) = true ∨ granted_last (presentation (run envs rt)).
Proof using HI.
  revert rt. induction envs as [|env envs IH]; intros rt H Hl; cbn [run]; [by left|].
  destruct (terminate rt); [by left|].
  destruct (iterate_lock fds env rt H Hl) as [Hl'|[Ht Hg]]; [by apply IH; [apply iterate_exit|]|].
  right. destruct envs; cbn [run]; [done|]. by rewrite Ht.
Qed.

(** When the unlock was requested, the presentation is the one that granted it,
    with the authorization taken. *)
Lemma unlock_granted fds requested (p : P) outs now envs rt : I p →
  locker_run fds requested p outs now envs = Ok rt → EUnlock ∈ trace rt → granted_last (presentation rt).
Proof using HI.
  intros Hp Hrun Hin. pose proof (exit_locker_run _ _ _ _ _ _ _ Hp Hrun) as H. unfold locker_run in Hrun.
  pose proof (core_add_surfaces outs now (initial fds requested p)) as E.
  destruct outs as [|o outs]; [done|]. destruct (add_surfaces _ _ _) as [rt1 [u|e]]; [|done].
  injection Hrun as <-. cbn [fst] in E.
  destruct (run_lock fds envs rt1) as [Hl|Hg]; [by eapply exit_core; [exact E|]|by rewrite (core_lock _ _ E)| |done].
  exfalso. assert (EUnlock ∈ reports (run envs rt1)) as Hrep.
  { apply list_elem_of_In, List.filter_In. split; [by apply list_elem_of_In|done]. }
  destruct H as [_ H]. rewrite Hl in H.
  assert (∀ k l, EUnlock ∉ EReady <$> take k l) as Hno by (intros k l (fd & ? & _)%list_elem_of_fmap; done).
  destruct (lifecycle _).
  - destruct H as [E2 _]. rewrite E2 in Hrep. by apply elem_of_nil in Hrep.
  - destruct H as [E2 _]. rewrite E2, all_ready in Hrep. by apply Hno in Hrep.
  - destruct H as [[_ [k E2]]|[? _]]; [|done]. rewrite E2 in Hrep. by apply Hno in Hrep.
  - destruct H as [[_ [k E2]]|[? _]]; [|done]. rewrite E2 in Hrep. by apply Hno in Hrep.
  - by destruct H.
Qed.

End Exit.

(** C2.  The locker fails closed.  In every run, what it reports is a prefix
    of the readiness descriptors it was given, in order and each once, or all
    of them followed by a single unlock request; it unlocks only when the
    presentation grants an authorization in a state that it can have come to,
    by any invariant of it; and it ends without an error, which its callers
    read as success, only if it requested the unlock. *)
Theorem locker_fails_closed {P} `{!Presentation P} (I : P → Prop) fds requested (p : P) outs now envs rt :
  preserved I → I p → locker_run fds requested p outs now envs = Ok rt →
  ((∃ k, reports rt = EReady <$> take k fds) ∨ unlocked I fds (reports rt))
  ∧ (terminate rt = true → failure rt = None → unlocked I fds (reports rt)).
Proof. intros HI Hp H. by eapply exit_reports, exit_locker_run. Qed.

(** A presentation that grants the unlock once the session is locked. *)
#[local] Instance granting_presentation : Presentation bool := {
  receive_latest p := (p, Unchanged);
  receive_deferred p := (p, Unchanged);
  frame p := None;
  lock_confirmed p := true;
  give_input i p := (p, false);
  take_authorization p := (p, p);
}.

Lemma locker_fails_closed_witness :
  let env evs := mkIterEnv evs true [] 0 (mkApplyEnv (λ _, true) true)
    (λ _, mkRenderEnv true None true) (λ _, mkRenderEnv true None true) in
  match locker_run [3; 4] None false [(1, None, 10)] 0 [env []; env [(EvLocked, 1)]; env []] with
  | Ok rt => terminate rt = true ∧ failure rt = None ∧ unlocked (λ _, True) [3; 4] (reports rt)
  | Err _ => False
  end.
Proof.
  intros env. destruct (locker_run _ _ _ _ _ _) as [rt|e] eqn:E; [|vm_compute in E; discriminate E].
  pose proof E as E'. vm_compute in E'. injection E' as E'.
  assert (terminate rt = true) as Ht by (by rewrite <- E').
  assert (failure rt = None) as Hf by (by rewrite <- E').
  split; [exact Ht|]. split; [exact Hf|].
  refine (proj2 (locker_fails_closed (λ _, True) _ _ _ _ _ _ _ _ _ E) Ht Hf); [by split|done].
Defined.
