(* ===== verification/Container.v ===== *)
(** * Preflight of untrusted HEIF containers ([src/dynamic_wallpaper/container.rs])

    The walk over a container's boxes that runs before the native parser sees
    the file, as functions in a state-and-error monad.  Offsets are [usize]s;
    an unchecked [+] or [-] that would overflow, an index or a slice out of
    range and a failed [expect] are the error [Panic] of the model.
    The recursion through nested boxes takes fuel, and so does the loop over
    the boxes of a range: running out is the error [Fuel].  Neither is an error
    of the code, and [preflight_total] shows that neither happens. *)

From S2P Require Import Prelude.

Inductive Error :=
| EContainer (what : string)
| ELimit (what : string)
| Panic
| Fuel.
#[export] Instance Error_eq_dec : EqDecision Error.
Proof. solve_decision. Defined.

Record Budget := mkBudget {
  max_container_items : Z;
  max_container_associations : Z;
  max_metadata_items : Z;
  max_metadata_bytes : Z;
  max_container_boxes : Z;
  max_container_depth : Z;
  max_item_extents : Z;
}.

Record Totals := mkTotals {
  items : Z;
  iloc_records : Z;
  iref_references : Z;
  ipma_entries : Z;
  ipma_associations : Z;
}.
Definition totals_default : Totals := mkTotals 0 0 0 0 0.

Record Extent := mkExtent { extent_id : Z; extent_bytes : Z }.

Record Header := mkHeader {
  hkind : list byte;
  body_start : Z;
  body_end : Z;
  next : Z;
}.

(** [Walk], without the bytes and the budget it borrows. *)
Record Walk := mkWalk {
  totals : Totals;
  boxes : Z;
  metadata_items : list Z;
  extents : list Extent;
  saw_meta : bool;
  saw_mini : bool;
  sequence_brand : bool;
}.
Definition walk_default : Walk := mkWalk totals_default 0 [] [] false false false.

Definition set_totals (t : Totals) (w : Walk) : Walk :=
  mkWalk t (boxes w) (metadata_items w) (extents w) (saw_meta w) (saw_mini w) (sequence_brand w).
Definition set_boxes (n : Z) (w : Walk) : Walk :=
  mkWalk (totals w) n (metadata_items w) (extents w) (saw_meta w) (saw_mini w) (sequence_brand w).
Definition push_metadata (id : Z) (w : Walk) : Walk :=
  mkWalk (totals w) (boxes w) (metadata_items w ++ [id]) (extents w) (saw_meta w) (saw_mini w)
    (sequence_brand w).
Definition push_extent (e : Extent) (w : Walk) : Walk :=
  mkWalk (totals w) (boxes w) (metadata_items w) (extents w ++ [e]) (saw_meta w) (saw_mini w)
    (sequence_brand w).
Definition set_saw (meta mini seq : bool) (w : Walk) : Walk :=
  mkWalk (totals w) (boxes w) (metadata_items w) (extents w) meta mini seq.

(** ** The monad: [&mut self] and [?] *)

Definition W (A : Type) : Type := Walk → result Error (A * Walk).
#[export] Instance W_ret : MRet W := λ A a w, Ok (a, w).
#[export] Instance W_bind : MBind W := λ A B f m w,
  match m w with Ok (a, w) => f a w | Err e => Err e end.
Definition err {A} (e : Error) : W A := λ _, Err e.
Definition guard_err (b : bool) (e : Error) : W unit := if b then err e else mret tt.
Definition lift {A} (r : result Error A) : W A := λ w,
  match r with Ok a => Ok (a, w) | Err e => Err e end.
Definition get : W Walk := λ w, Ok (w, w).
Definition modify (f : Walk → Walk) : W unit := λ w, Ok (tt, f w).

(** Unchecked [usize] arithmetic. *)
Definition uadd (a b : Z) : W Z := lift (ok_or Panic (checked_add 64 a b)).
Definition usub (a b : Z) : result Error Z := ok_or Panic (checked_sub a b).

(** [&bs[a..b]], [bs[i]], and [try_into().expect(..)] into an array of [n]. *)
Definition slice_at (a b : Z) (bs : list byte) : result Error (list byte) :=
  if (0 <=? a) && (a <=? b) && (b <=? Z.of_nat (length bs))
  then Ok (slice (Z.to_nat a) (Z.to_nat b) bs) else Err Panic.
Definition byte_at (i : nat) (bs : list byte) : result Error byte := ok_or Panic (bs !! i).
Definition expect_array (n : nat) (bs : list byte) : result Error (list byte) :=
  if (length bs =? n)%nat then Ok bs else Err Panic.

(** [checked_add] on a counter, then the check against its ceiling. *)
Definition charge (counter : Totals → Z) (set : Z → Totals → Totals) (n ceiling : Z) (e : Error) :
    W unit :=
  w ← get;
  n ← lift (ok_or e (checked_add 32 (counter (totals w)) n));
  modify (λ w, set_totals (set n (totals w)) w);;
  guard_err (ceiling <? n) e.

Definition set_items n t := mkTotals n (iloc_records t) (iref_references t) (ipma_entries t) (ipma_associations t).
Definition set_iloc n t := mkTotals (items t) n (iref_references t) (ipma_entries t) (ipma_associations t).
Definition set_iref n t := mkTotals (items t) (iloc_records t) n (ipma_entries t) (ipma_associations t).
Definition set_entries n t := mkTotals (items t) (iloc_records t) (iref_references t) n (ipma_associations t).
Definition set_associations n t := mkTotals (items t) (iloc_records t) (iref_references t) (ipma_entries t) n.

(** [for _ in 0..n]. *)
Fixpoint repeatM {A} (n : nat) (body : A → W A) (a : A) : W A :=
  match n with
  | O => mret a
  | S n => a ← body a; repeatM n body a
  end.

(** ** Box types *)

Definition one_of (kinds : list string) (k : list byte) : bool :=
  existsb (λ s, bool_decide (k = bytes_of s)) kinds.

Definition is_container : list byte → bool :=
  one_of ["iprp"; "ipco"; "dinf"; "grpl"; "moov"; "trak"; "mdia"; "minf"; "stbl"; "edts"; "j2kH"]%string.
Definition is_visual_sample_entry : list byte → bool :=
  one_of ["hvc1"; "av01"; "vvc1"; "avc1"; "mjpg"; "j2ki"]%string.
Definition is_sequence_brand : list byte → bool :=
  one_of ["msf1"; "isom"; "mp41"; "mp42"]%string.
Definition is_image_item (item_type content_type : list byte) : bool :=
  one_of ["hvc1"; "av01"; "grid"; "tili"; "iden"; "iovl"; "avc1"; "unci"; "vvc1"; "jpeg"; "j2k1";
          "mski"]%string item_type
  || (one_of ["mime"]%string item_type && bool_decide (content_type = bytes_of "image/jpeg")).

Definition VISUAL_SAMPLE_ENTRY_PREFIX : Z := 78.
Definition VISUAL_SAMPLE_ENTRY_NAME_LENGTH : nat := 42.

Definition truncated : Error := EContainer "box is truncated".
Definition offset_overflow : Error := EContainer "box offset overflow".

Section Walk.
Context (bytes : list byte) (budget : Budget).

(** ** Reading *)

Definition len : Z := Z.of_nat (length bytes).

Definition read (offset length end_ : Z) : result Error (list byte) :=
  stop ← ok_or offset_overflow (checked_add 64 offset length);
  if (end_ <? stop) || (len <? stop) then Err truncated
  else slice_at offset stop bytes.

Definition advance (offset length end_ : Z) : result Error Z :=
  stop ← ok_or offset_overflow (checked_add 64 offset length);
  if end_ <? stop then Err truncated else Ok stop.

(** [read_u8], [read_u16], [read_u32]: [n] bytes, each indexed, big-endian. *)
Definition read_be (n : Z) (offset end_ : Z) : result Error Z :=
  bs ← read offset n end_;
  _ ← byte_at (Z.to_nat n - 1) bs;
  Ok (be_value (take (Z.to_nat n) bs)).
Definition read_u8 := read_be 1.
Definition read_u16 := read_be 2.
Definition read_u32 := read_be 4.
Definition read_fourcc (offset end_ : Z) : result Error (list byte) :=
  bs ← read offset 4 end_; _ ← byte_at 3 bs; Ok (take 4 bs).

Definition read_uint (offset width end_ : Z) : W Z :=
  if width =? 0 then mret 0
  else if width =? 4 then lift (read_u32 offset end_)
  else if width =? 8 then
    high ← lift (read_u32 offset end_);
    o ← uadd offset 4;
    low ← lift (read_u32 o end_);
    mret (Z.lor (Z.shiftl high 32) low)
  else err (EContainer "unsupported integer width").

(** The value and the new offset. *)
Fixpoint find_zero (bs : list byte) : option nat :=
  match bs with
  | [] => None
  | b :: bs => if u8 b =? 0 then Some O else S <$> find_zero bs
  end.
Definition read_cstring (offset end_ : Z) : W (list byte * Z) :=
  if (end_ <? offset) || (len <? end_) then err truncated
  else
    rest ← lift (slice_at offset end_ bytes);
    match find_zero rest with
    | Some l =>
      value ← lift (slice_at 0 (Z.of_nat l) rest);
      o ← uadd offset (Z.of_nat l); o ← uadd o 1; mret (value, o)
    | None =>
      if bool_decide (rest = []) then mret (rest, end_)
      else
        last ← lift (usub (Z.of_nat (length rest)) 1);
        value ← lift (slice_at 0 last rest); mret (value, end_)
    end.

Definition read_header (offset limit : Z) : result Error Header :=
  h ← read offset 8 limit;
  _ ← byte_at 7 h;
  let size := be_value (take 4 h) in
  let kind := take 4 (drop 4 h) in
  '(box_length, header_length) ←
    (if size =? 0 then rest ← usub limit offset; Ok (rest, 8)
     else if size =? 1 then
       start ← ok_or offset_overflow (checked_add 64 offset 8);
       large ← read start 8 limit;
       large ← expect_array 8 large;
       Ok (be_value large, 16)
     else Ok (size, 8));
  let header_length := if one_of ["uuid"]%string kind then header_length + 16 else header_length in
  if box_length <? header_length then Err (EContainer "box is smaller than its header")
  else
    body_start ← ok_or offset_overflow (checked_add 64 offset header_length);
    body_end ← ok_or offset_overflow (checked_add 64 offset box_length);
    if limit <? body_end then Err (EContainer "box extends past its parent")
    else Ok (mkHeader kind body_start body_end body_end).

(** The box's whole body. *)
Definition read_body (h : Header) : result Error (list byte) :=
  n ← usub (body_end h) (body_start h); read (body_start h) n (body_end h).

(** ** The boxes without children *)

Fixpoint any_brand (fuel : nat) (bs : list byte) : bool :=
  match fuel with
  | O => false
  | S fuel =>
    if (length bs <? 4)%nat then false
    else is_sequence_brand (take 4 bs) || any_brand fuel (drop 4 bs)
  end.

Definition parse_ftyp (h : Header) : W unit :=
  body ← lift (read_body h);
  guard_err (length body <? 8)%nat (EContainer "file type box is truncated");;
  major ← lift (slice_at 0 4 body);
  rest ← lift (slice_at 8 (Z.of_nat (length body)) body);
  modify (λ w, set_saw (saw_meta w) (saw_mini w)
    (is_sequence_brand major || any_brand (length body) rest) w).

Definition parse_colr (h : Header) : W unit :=
  body ← lift (read_body h);
  guard_err (length body <? 4)%nat (EContainer "colour information box is truncated");;
  type ← lift (slice_at 0 4 body);
  guard_err (one_of ["prof"; "rICC"]%string type && (length body =? 4)%nat)
    (EContainer "embedded colour profile is empty").

(** The fields of an item information entry that matter. *)
Definition parse_infe_fields (h : Header) : W (Z * list byte * list byte) :=
  version ← lift (read_u8 (body_start h) (body_end h));
  guard_err (3 <? version) (EContainer "unsupported item info version");;
  o ← uadd (body_start h) 4;
  if version <=? 1 then
    id ← lift (read_u16 o (body_end h));
    o ← uadd o 2;
    o ← uadd o 2;
    '(_, o) ← read_cstring o (body_end h);
    '(content_type, o) ← read_cstring o (body_end h);
    '(_, o) ← read_cstring o (body_end h);
    mret (id, replicate 4 Byte.x00, content_type)
  else
    id ← lift (if version =? 2 then read_u16 o (body_end h) else read_u32 o (body_end h));
    o ← uadd o (if version =? 2 then 2 else 4);
    o ← uadd o 2;
    item_type ← lift (read_fourcc o (body_end h));
    o ← uadd o 4;
    '(_, o) ← read_cstring o (body_end h);
    '(content_type, o) ← (if one_of ["mime"]%string item_type then read_cstring o (body_end h)
                          else mret ([], o));
    '(_, o) ← (if one_of ["uri "]%string item_type then read_cstring o (body_end h)
               else mret ([], o));
    mret (id, item_type, content_type).

Definition parse_infe (h : Header) : W unit :=
  '(id, item_type, content_type) ← parse_infe_fields h;
  charge items set_items 1 (max_container_items budget) (ELimit "container item count");;
  if is_image_item item_type content_type && negb (one_of ["mime"]%string item_type) then mret tt
  else
    w ← get;
    if bool_decide (id ∈ metadata_items w) then mret tt
    else
      guard_err (max_metadata_items budget <=? Z.of_nat (length (metadata_items w)) mod 2 ^ 32)
        (ELimit "metadata item count");;
      modify (push_metadata id).

Definition field_width_ok (w : Z) : bool := (w =? 0) || (w =? 4) || (w =? 8).

(** One extent of an [iloc] record: the offset and the sum so far. *)
Definition parse_extent (end_ index_size offset_size length_size : Z) (st : Z * Z) : W (Z * Z) :=
  let '(o, total) := st in
  o ← lift (advance o index_size end_);
  o ← lift (advance o offset_size end_);
  n ← read_uint o length_size end_;
  total ← lift (ok_or (ELimit "item extent bytes") (checked_add 64 total n));
  o ← lift (advance o length_size end_);
  mret (o, total).

Definition parse_iloc_record (end_ version index_size offset_size base_offset_size length_size : Z)
    (o : Z) : W Z :=
  id ← lift (if version <? 2 then read_u16 o end_ else read_u32 o end_);
  o ← uadd o (if version <? 2 then 2 else 4);
  o ← (if 1 <=? version then uadd o 2 else mret o);
  o ← uadd o 2;
  o ← lift (advance o base_offset_size end_);
  extent_count ← lift (read_u16 o end_);
  o ← uadd o 2;
  guard_err (max_item_extents budget <? extent_count) (ELimit "item extent count");;
  '(o, total) ← repeatM (Z.to_nat extent_count) (parse_extent end_ index_size offset_size length_size)
                  (o, 0);
  modify (push_extent (mkExtent id total));;
  mret o.

Definition parse_iloc (h : Header) : W unit :=
  version ← lift (read_u8 (body_start h) (body_end h));
  guard_err (2 <? version) (EContainer "unsupported item location version");;
  o ← uadd (body_start h) 4;
  widths ← lift (read_u16 o (body_end h));
  o ← uadd o 2;
  let offset_size := Z.land (Z.shiftr widths 12) 15 in
  let length_size := Z.land (Z.shiftr widths 8) 15 in
  let base_offset_size := Z.land (Z.shiftr widths 4) 15 in
  let index_size := if 1 <=? version then Z.land widths 15 else 0 in
  guard_err (negb (forallb field_width_ok [offset_size; length_size; base_offset_size; index_size]))
    (EContainer "unsupported item location field width");;
  item_count ← lift (if version <? 2 then read_u16 o (body_end h) else read_u32 o (body_end h));
  o ← uadd o (if version <? 2 then 2 else 4);
  charge iloc_records set_iloc item_count (max_container_items budget)
    (ELimit "item location record count");;
  _ ← repeatM (Z.to_nat item_count)
    (parse_iloc_record (body_end h) version index_size offset_size base_offset_size length_size) o;
  mret tt.

Definition parse_ipma_entry (end_ version : Z) (wide : bool) (o : Z) : W Z :=
  o ← lift (advance o (if version <? 1 then 2 else 4) end_);
  associations ← lift (read_u8 o end_);
  o ← uadd o 1;
  charge ipma_associations set_associations associations (max_container_associations budget)
    (ELimit "property association count");;
  lift (advance o (associations * (if wide then 2 else 1)) end_).

Definition parse_ipma (h : Header) : W unit :=
  version ← lift (read_u8 (body_start h) (body_end h));
  guard_err (1 <? version) (EContainer "unsupported property association version");;
  o ← uadd (body_start h) 3;
  flags ← lift (read_u8 o (body_end h));
  let wide := negb (Z.land flags 1 =? 0) in
  o ← uadd (body_start h) 4;
  entry_count ← lift (read_u32 o (body_end h));
  o ← uadd o 4;
  charge ipma_entries set_entries entry_count (max_container_items budget)
    (ELimit "property association count");;
  _ ← repeatM (Z.to_nat entry_count) (parse_ipma_entry (body_end h) version wide) o;
  mret tt.

(** ** Loops over the boxes of a range *)

(** [while offset < end], each turn consuming one box with [body]. *)
Fixpoint scan (fuel : nat) (body : Z → W Header) (offset end_ : Z) : W unit :=
  match fuel with
  | O => err Fuel
  | S fuel =>
    if offset <? end_ then h ← body offset; scan fuel body (next h) end_ else mret tt
  end.

Definition scan_fuel : nat := S (length bytes).

Definition parse_iref_child (end_ id_size : Z) (offset : Z) : W Header :=
  child ← lift (read_header offset end_);
  o ← uadd (body_start child) id_size;
  count ← lift (read_u16 o (body_end child));
  guard_err (count =? 0) (EContainer "reference list is empty");;
  charge iref_references set_iref count (max_container_items budget) (ELimit "reference count");;
  expected ← lift (ok_or (ELimit "reference count")
                     (checked_add 64 (body_start child) (id_size + 2 + count * id_size)));
  guard_err (negb (expected =? body_end child)) (EContainer "reference list does not fill its box");;
  mret child.

Definition parse_iref (h : Header) : W unit :=
  head ← lift (read (body_start h) 4 (body_end h));
  version ← lift (u8 <$> byte_at 0 head);
  guard_err (1 <? version) (EContainer "unsupported reference version");;
  let id_size := if version =? 0 then 2 else 4 in
  o ← uadd (body_start h) 4;
  scan scan_fuel (parse_iref_child (body_end h) id_size) o (body_end h).

Definition parse_tref_child (end_ : Z) (offset : Z) : W Header :=
  declared ← lift (read offset 4 end_ ≫= expect_array 4);
  guard_err (be_value declared =? 0) (EContainer "track reference list has an unspecified size");;
  child ← lift (read_header offset end_);
  length ← lift (usub (body_end child) (body_start child));
  guard_err ((length <? 4) || negb (length mod 4 =? 0))
    (EContainer "track reference list has an invalid size");;
  count ← lift (ok_or (ELimit "reference count")
                  (if length / 4 <? 2 ^ 32 then Some (length / 4) else None));
  charge iref_references set_iref count (max_container_items budget) (ELimit "reference count");;
  mret child.

Definition parse_tref (h : Header) : W unit :=
  scan scan_fuel (parse_tref_child (body_end h)) (body_start h) (body_end h).

(** ** The walk *)

(** [depth + 1], unchecked in [u32]. *)
Definition deeper (depth : Z) : W Z := lift (ok_or Panic (checked_add 32 depth 1)).

(** A box of a range: its header, then what its type asks for. *)
Definition child (visit : Header → W unit) (end_ offset : Z) : W Header :=
  h ← lift (read_header offset end_); visit h;; mret h.

Definition walk (visit : Header → W unit) (start end_ : Z) : W unit :=
  guard_err (end_ <? start) truncated;;
  scan scan_fuel (child visit end_) start end_.

(** The children of a box are visited one level deeper. *)
Definition visit_below (visit : Header → Z → W unit) (depth : Z) (h : Header) : W unit :=
  depth ← deeper depth; visit h depth.
Definition walk_below (visit : Header → Z → W unit) (depth start end_ : Z) : W unit :=
  depth ← deeper depth; walk (λ h, visit h depth) start end_.

Definition walk_visual_sample_entry (visit : Header → Z → W unit) (depth : Z) (h : Header) : W unit :=
  prefix ← lift (read (body_start h) VISUAL_SAMPLE_ENTRY_PREFIX (body_end h));
  name_length ← lift (byte_at VISUAL_SAMPLE_ENTRY_NAME_LENGTH prefix);
  guard_err (31 <? u8 name_length)
    (EContainer "sample entry compressor name is too long");;
  o ← uadd (body_start h) VISUAL_SAMPLE_ENTRY_PREFIX;
  walk_below visit depth o (body_end h).

(** The loop of [parse_iinf], with the number of entries seen. *)
Fixpoint scan_entries (fuel : nat) (visit : Header → W unit) (offset end_ seen : Z) : W Z :=
  match fuel with
  | O => err Fuel
  | S fuel =>
    if offset <? end_ then
      h ← child visit end_ offset;
      seen ← lift (ok_or (ELimit "container item count") (checked_add 32 seen 1));
      scan_entries fuel visit (next h) end_ seen
    else mret seen
  end.

Definition parse_iinf (visit : Header → W unit) (h : Header) : W unit :=
  version ← lift (read_u8 (body_start h) (body_end h));
  o ← uadd (body_start h) 4;
  declared ← lift (if version =? 0 then read_u16 o (body_end h) else read_u32 o (body_end h));
  o ← uadd o (if version =? 0 then 2 else 4);
  seen ← scan_entries scan_fuel visit o (body_end h) 0;
  guard_err (negb (seen =? declared))
    (EContainer "item information count does not match its entries").

Definition parse_stsd (visit : Header → W unit) (h : Header) : W unit :=
  version ← lift (read_u8 (body_start h) (body_end h));
  guard_err (negb (version =? 0)) (EContainer "unsupported sample description version");;
  o ← uadd (body_start h) 4;
  count ← lift (read_u32 o (body_end h));
  o ← uadd o 4;
  _ ← repeatM (Z.to_nat count) (λ o,
    guard_err (body_end h <=? o) (EContainer "sample description is truncated");;
    c ← child visit (body_end h) o;
    mret (next c)) o;
  mret tt.

Fixpoint visit (fuel : nat) (h : Header) (depth : Z) : W unit :=
  match fuel with
  | O => err Fuel
  | S fuel =>
    guard_err (max_container_depth budget <? depth) (ELimit "box nesting depth");;
    w ← get;
    n ← lift (ok_or (ELimit "box count") (checked_add 32 (boxes w) 1));
    modify (set_boxes n);;
    guard_err (max_container_boxes budget <? n) (ELimit "box count");;
    let kind_is s := one_of [s] (hkind h) in
    if kind_is "meta"%string then
      modify (λ w, set_saw true (saw_mini w) (sequence_brand w) w);;
      o ← uadd (body_start h) 4; walk_below (visit fuel) depth o (body_end h)
    else if kind_is "iinf"%string then parse_iinf (visit_below (visit fuel) depth) h
    else if kind_is "infe"%string then parse_infe h
    else if kind_is "iloc"%string then parse_iloc h
    else if kind_is "iref"%string then parse_iref h
    else if kind_is "ipma"%string then parse_ipma h
    else if kind_is "stsd"%string then parse_stsd (visit_below (visit fuel) depth) h
    else if kind_is "dref"%string || kind_is "urim"%string then
      o ← uadd (body_start h) 8; walk_below (visit fuel) depth o (body_end h)
    else if kind_is "tref"%string then parse_tref h
    else if kind_is "ftyp"%string then parse_ftyp h
    else if kind_is "colr"%string then parse_colr h
    else if kind_is "mini"%string then modify (λ w, set_saw (saw_meta w) true (sequence_brand w) w)
    else if is_container (hkind h) then walk_below (visit fuel) depth (body_start h) (body_end h)
    else if is_visual_sample_entry (hkind h) then walk_visual_sample_entry (visit fuel) depth h
    else mret tt
  end.

(** [check_metadata_bytes] *)
Definition largest (id : Z) (l : list Extent) : Z :=
  foldl (λ m e, if extent_id e =? id then Z.max m (extent_bytes e) else m) 0 l.
Fixpoint sum_largest (ids : list Z) (l : list Extent) (total : Z) : result Error Z :=
  match ids with
  | [] => Ok total
  | id :: ids =>
    total ← ok_or (ELimit "metadata extent bytes") (checked_add 64 total (largest id l));
    sum_largest ids l total
  end.
Definition check_metadata_bytes (w : Walk) : result Error unit :=
  total ← sum_largest (metadata_items w) (extents w) 0;
  if max_metadata_bytes budget <? total then Err (ELimit "metadata extent bytes") else Ok tt.

(** Boxes nest at most [max_container_depth] deep, so this is enough. *)
Definition depth_fuel : nat := S (S (Z.to_nat (max_container_depth budget))).

Definition run : result Error Walk :=
  '(_, w) ← walk (λ h, visit depth_fuel h 0) 0 len walk_default;
  if negb (saw_meta w) && negb (saw_mini w) && negb (sequence_brand w)
  then Err (EContainer "no metadata box")
  else _ ← check_metadata_bytes w; Ok w.

Definition preflight : result Error unit := _ ← run; Ok tt.

End Walk.
