(* ===== verification/ContainerWalk.v ===== *)
(** * What the container preflight guarantees

    Proofs about [Container]: the walk never overflows, never indexes out of
    range and always ends; what it accepts is a tree of boxes within the budget;
    and the bytes the native parser loads eagerly are bounded however it picks
    among duplicate records. *)

From S2P Require Import Prelude Container.

(** ** Weakest preconditions *)

(** [m] from [w] ends in [Q], or with one of the code's own errors. *)
Definition wp {A} (m : W A) (w : Walk) (Q : A → Walk → Prop) : Prop :=
  match m w with
  | Ok (a, w') => Q a w'
  | Err e => e ≠ Panic ∧ e ≠ Fuel
  end.

(** Errors the code itself returns. *)
Definition own (e : Error) : Prop := e ≠ Panic ∧ e ≠ Fuel.

Lemma wp_ret {A} (a : A) w Q : Q a w → wp (mret a) w Q.
Proof. done. Qed.
Lemma wpm_bind {A B} (m : W A) (f : A → W B) w Q :
  wp m w (λ a w, wp (f a) w Q) → wp (m ≫= f) w Q.
Proof. unfold wp, mbind, W_bind. by destruct (m w) as [[a w']|e]. Qed.
Lemma wpm_mono {A} (m : W A) w (Q Q' : A → Walk → Prop) :
  wp m w Q → (∀ a w', Q a w' → Q' a w') → wp m w Q'.
Proof. unfold wp. destruct (m w) as [[a w']|e]; auto. Qed.
Lemma wp_err {A} e w (Q : A → Walk → Prop) : own e → wp (err e) w Q.
Proof. done. Qed.
Lemma wp_guard b e w Q : own e → (b = false → Q tt w) → wp (guard_err b e) w Q.
Proof. destruct b; cbn; auto. Qed.
Lemma wp_lift {A} (r : result Error A) w Q :
  (∀ a, r = Ok a → Q a w) → (∀ e, r = Err e → own e) → wp (lift r) w Q.
Proof. unfold wp, lift. destruct r as [a|e]; intros H1 H2; [by apply H1|by apply H2]. Qed.
Lemma wp_get w Q : Q w w → wp get w Q.
Proof. done. Qed.
Lemma wp_modify f w Q : Q tt (f w) → wp (modify f) w Q.
Proof. done. Qed.
Lemma wpm_uadd a b w Q : a + b < 2 ^ 64 → Q (a + b) w → wp (uadd a b) w Q.
Proof. intros H HQ. unfold uadd. by rewrite (proj2 (checked_add_Some 64 a b (a + b))). Qed.
Lemma wpm_ok_or {A} e (o : option A) w Q :
  own e → (∀ a, o = Some a → Q a w) → wp (lift (ok_or e o)) w Q.
Proof. intros He H. destruct o as [a|]; [by apply H|done]. Qed.

(** The same for computations that do not touch the walk. *)
Definition wpr {A} (r : result Error A) (Q : A → Prop) : Prop :=
  match r with Ok a => Q a | Err e => own e end.
Lemma wpr_bind {A B} (r : result Error A) (f : A → result Error B) Q :
  wpr r (λ a, wpr (f a) Q) → wpr (r ≫= f) Q.
Proof. by destruct r. Qed.
Lemma wpr_ok_or {A} e (o : option A) Q : own e → (∀ a, o = Some a → Q a) → wpr (ok_or e o) Q.
Proof. intros He H. destruct o as [a|]; [by apply H|done]. Qed.
Lemma wpr_mono {A} (r : result Error A) (Q Q' : A → Prop) :
  wpr r Q → (∀ a, Q a → Q' a) → wpr r Q'.
Proof. destruct r; cbn; auto. Qed.

Lemma wp_pure {A} (r : result Error A) w Q : wpr r (λ a, Q a w) → wp (lift r) w Q.
Proof. unfold wp, lift. by destruct r. Qed.

(** Slices and indices in range. *)
Lemma wpr_slice_at a b bs (Q : list byte → Prop) :
  0 ≤ a ≤ b → b ≤ Z.of_nat (length bs) →
  (∀ v, slice_at a b bs = Ok v → Z.of_nat (length v) = b - a → Q v) → wpr (slice_at a b bs) Q.
Proof.
  intros Ha Hb HQ. assert (slice_at a b bs = Ok (slice (Z.to_nat a) (Z.to_nat b) bs)) as E.
  { unfold slice_at. rewrite !(proj2 (Z.leb_le _ _)) by lia. done. }
  rewrite E. apply HQ; [done|]. rewrite length_slice; lia.
Qed.
Lemma wpr_byte_at i bs (Q : byte → Prop) :
  (i < length bs)%nat → (∀ b, bs !! i = Some b → Q b) → wpr (byte_at i bs) Q.
Proof.
  intros Hi HQ. unfold byte_at. destruct (lookup_lt_is_Some_2 bs i Hi) as [b E]. rewrite E. by apply HQ.
Qed.
Lemma wpr_expect n bs (Q : list byte → Prop) : length bs = n → Q bs → wpr (expect_array n bs) Q.
Proof. intros <- HQ. unfold expect_array. by rewrite Nat.eqb_refl. Qed.
Lemma wpr_usub a b (Q : Z → Prop) : b ≤ a → Q (a - b) → wpr (usub a b) Q.
Proof. intros H HQ. unfold usub. by rewrite (proj2 (checked_sub_Some a b (a - b))). Qed.
Lemma wp_deeper d w (Q : Z → Walk → Prop) : d + 1 < 2 ^ 32 → Q (d + 1) w → wp (deeper d) w Q.
Proof. intros H HQ. unfold deeper. by rewrite (proj2 (checked_add_Some 32 d 1 (d + 1))). Qed.

Lemma wp_repeat {A} (I : nat → A → Walk → Prop) (body : A → W A) n a w Q :
  (∀ k a w, I (S k) a w → wp (body a) w (I k)) →
  I n a w → (∀ a w, I 0%nat a w → Q a w) → wp (repeatM n body a) w Q.
Proof.
  intros Hb. revert a w. induction n as [|n IH]; intros a w Ha HQ; cbn [repeatM].
  { by apply wp_ret, HQ. }
  apply wpm_bind. eapply wpm_mono; [by apply Hb|]. intros a' w' Ha'. by apply IH.
Qed.

Lemma lor_bound n a b : 0 < n → 0 ≤ a < 2 ^ n → 0 ≤ b < 2 ^ n → 0 ≤ Z.lor a b < 2 ^ n.
Proof.
  intros Hn Ha Hb. assert (0 ≤ Z.lor a b) as H0 by (apply Z.lor_nonneg; lia). split; [done|].
  destruct (decide (Z.lor a b = 0)) as [->|Hne]; [lia|]. apply Z.log2_lt_pow2; [lia|].
  rewrite Z.log2_lor by lia.
  assert (∀ x, 0 ≤ x < 2 ^ n → Z.log2 x < n) as H.
  { intros x Hx. destruct (decide (x ≤ 0)) as [?|?]; [rewrite Z.log2_nonpos; lia|].
    apply Z.log2_lt_pow2; lia. }
  apply Z.max_lub_lt; auto.
Qed.

(** ** Reading *)

Section Proofs.
Context (bytes : list byte) (budget : Budget).
Local Notation len := (len bytes).
(** A slice is at most [isize::MAX] bytes. *)
Hypothesis Hlen : len < 2 ^ 63.

Lemma read_Ok o n e bs :
  0 ≤ o → 0 ≤ n → read bytes o n e = Ok bs →
  o + n ≤ e ∧ o + n ≤ len ∧ Z.of_nat (length bs) = n.
Proof using.
  clear Hlen. intros Ho Hn H. unfold read in H. inv_ok. apply checked_add_Some in H as [-> _].
  destruct (_ || _) eqn:E; [done|]. simp_bool. unfold slice_at in H0.
  destruct (_ && _) in H0; [|done]. injection H0 as <-.
  unfold Container.len in *. rewrite length_slice; lia.
Qed.

Lemma wpr_read o n e Q :
  0 ≤ o → 0 ≤ n →
  (∀ bs, o + n ≤ e → o + n ≤ len → Z.of_nat (length bs) = n → Q bs) → wpr (read bytes o n e) Q.
Proof using.
  clear Hlen. intros Ho Hn HQ. unfold read. apply wpr_bind, wpr_ok_or; [done|].
  intros st [-> _]%checked_add_Some. destruct (_ || _) eqn:E; [done|]. simp_bool. unfold Container.len in *.
  apply wpr_slice_at; [lia|lia|]. intros v _ Hv. apply HQ; lia.
Qed.
Lemma read_own o n e err : 0 ≤ o → 0 ≤ n → read bytes o n e = Err err → own err.
Proof using.
  clear Hlen. intros Ho Hn E. pose proof (wpr_read o n e (λ _, True) Ho Hn ltac:(done)) as H. by rewrite E in H.
Qed.

Lemma wp_read o n e w Q :
  0 ≤ o → 0 ≤ n →
  (∀ bs, o + n ≤ e → o + n ≤ len → Z.of_nat (length bs) = n → read bytes o n e = Ok bs → Q bs w) →
  wp (lift (read bytes o n e)) w Q.
Proof using.
  clear Hlen. intros Ho Hn HQ. apply wp_lift; [|intros ?; by apply read_own]. intros bs H.
  destruct (read_Ok _ _ _ _ Ho Hn H) as (? & ? & ?). auto.
Qed.

Lemma wpm_read_be n o e w Q :
  0 ≤ o → 0 < n →
  (∀ v, o + n ≤ e → o + n ≤ len → 0 ≤ v < 256 ^ n → read_be bytes n o e = Ok v → Q v w) →
  wp (lift (read_be bytes n o e)) w Q.
Proof using.
  clear Hlen. intros Ho Hn HQ.
  assert (wpr (read_be bytes n o e) (λ v, o + n ≤ e ∧ o + n ≤ len ∧ 0 ≤ v < 256 ^ n)) as H.
  { apply wpr_bind, wpr_read; [lia..|]. intros bs H1 H2 El. apply wpr_bind, wpr_byte_at; [lia|]. intros b _.
    cbn. split; [done|]. split; [done|]. rewrite take_ge by lia. rewrite <- El. apply be_value_range. }
  apply wp_lift; [intros v E; rewrite E in H|intros err E; by rewrite E in H].
  destruct H as (? & ? & ?). by apply HQ.
Qed.

Lemma be_nonneg n o e v : read_be bytes n o e = Ok v → 0 ≤ v.
Proof using. clear. intros (bs & _ & (b & _ & [= <-])%bind_Ok)%bind_Ok. apply be_value_range. Qed.

Lemma wp_advance o n e w Q :
  (o + n ≤ e → Q (o + n) w) → wp (lift (advance o n e)) w Q.
Proof using.
  clear Hlen. intros HQ. unfold advance. apply wp_lift.
  - intros a H. inv_ok. apply checked_add_Some in H as [-> _].
    destruct (_ <? _) eqn:E; [done|]. simp_bool. injection H0 as <-. auto.
  - intros err. destruct (checked_add 64 o n); cbn; [|by intros [= <-]].
    destruct (_ <? _); [by intros [= <-]|done].
Qed.

Lemma wp_read_uint o n e w Q :
  0 ≤ o → e ≤ len → (∀ v, 0 ≤ v < 2 ^ 64 → Q v w) → wp (read_uint bytes o n e) w Q.
Proof.
  intros Ho He HQ. unfold read_uint. destruct (n =? 0); [apply wp_ret, HQ; lia|].
  destruct (n =? 4).
  { apply wpm_read_be; [lia..|]. intros v _ _ Hv _. apply HQ. lia. }
  destruct (n =? 8); [|by apply wp_err].
  apply wpm_bind, wpm_read_be; [lia..|]. intros h H1 _ Hh _. apply wpm_bind, wpm_uadd; [lia|].
  apply wpm_bind, wpm_read_be; [lia..|]. intros l _ _ Hl _. apply wp_ret, HQ.
  apply lor_bound; rewrite ?Z.shiftl_mul_pow2 by lia; lia.
Qed.

Lemma wp_read_header o limit w Q :
  0 ≤ o → limit ≤ len →
  (∀ h, read_header bytes o limit = Ok h → o + 8 ≤ body_start h → body_start h ≤ body_end h →
     body_end h ≤ limit → next h = body_end h → Q h w) →
  wp (lift (read_header bytes o limit)) w Q.
Proof using.
  clear Hlen. intros Ho Hl HQ.
  assert (wpr (read_header bytes o limit) (λ h, o + 8 ≤ body_start h ∧ body_start h ≤ body_end h
    ∧ body_end h ≤ limit ∧ next h = body_end h)) as H.
  2:{ apply wp_lift; [intros h E; rewrite E in H|intros e E; by rewrite E in H]. cbn in H.
      destruct H as (? & ? & ? & ?). auto. }
  unfold read_header. apply wpr_bind, wpr_read; [lia..|]. intros hd Hl1 _ Hhd.
  apply wpr_bind, wpr_byte_at; [lia|]. intros _ _. cbv zeta. set (kind := take 4 (drop 4 hd)).
  apply wpr_bind. eapply (wpr_mono _ (λ '(_, hl), 8 ≤ hl)).
  { destruct (_ =? 0); [apply wpr_bind, wpr_usub; [lia|]; cbn; lia|]. destruct (_ =? 1); [|cbn; lia].
    apply wpr_bind, wpr_ok_or; [done|]. intros st [-> _]%checked_add_Some.
    apply wpr_bind, wpr_read; [lia..|]. intros lg _ _ Hlg. apply wpr_bind, wpr_expect; [lia|]. cbn. lia. }
  intros [bl hl] Hhl.
  assert (8 ≤ (if one_of ["uuid"]%string kind then hl + 16 else hl)) as Hhl' by (destruct (one_of _ _); lia).
  revert Hhl'. generalize (if one_of ["uuid"]%string kind then hl + 16 else hl).
  clear Hhl. intros hl' Hhl'. cbv zeta. destruct (_ <? _) eqn:E; [done|]. simp_bool.
  apply wpr_bind, wpr_ok_or; [done|]. intros bs [-> _]%checked_add_Some.
  apply wpr_bind, wpr_ok_or; [done|]. intros be [-> _]%checked_add_Some.
  destruct (_ <? _) eqn:E2; [done|]. simp_bool. cbn. lia.
Qed.

Lemma find_zero_lt bs l : find_zero bs = Some l → (l < length bs)%nat.
Proof using.
  clear. revert l. induction bs as [|b bs IH]; cbn; [done|]. intros l.
  destruct (u8 b =? 0); [intros [= <-]; lia|]. destruct (find_zero bs); [|done].
  intros [= <-]. specialize (IH n eq_refl). lia.
Qed.

Lemma wp_read_cstring o e w (Q : list byte * Z → Walk → Prop) :
  0 ≤ o → (∀ v o', o ≤ o' → o' ≤ len → Q (v, o') w) → wp (read_cstring bytes o e) w Q.
Proof using Hlen.
  intros Ho HQ. unfold read_cstring. destruct (_ || _) eqn:E; [by apply wp_err|]. simp_bool.
  apply wpm_bind, wp_pure, wpr_slice_at; [lia|done|]. intros rest _ Hrest.
  destruct (find_zero _) as [l|] eqn:Hl.
  - apply find_zero_lt in Hl. apply wpm_bind, wp_pure, wpr_slice_at; [lia..|]. intros v _ _.
    apply wpm_bind, wpm_uadd; [lia|]. apply wpm_bind, wpm_uadd; [lia|]. apply wp_ret, HQ; lia.
  - case_bool_decide as Er; [apply wp_ret, HQ; lia|].
    assert (length rest ≠ 0%nat) by (by destruct rest).
    apply wpm_bind, wp_pure, wpr_usub; [lia|]. apply wpm_bind, wp_pure, wpr_slice_at; [lia..|]. intros v _ _.
    apply wp_ret, HQ; lia.
Qed.

(** ** The walker's counters *)

(** Every counter is within its ceiling, the eagerly loaded items are distinct,
    and the retained extents were charged ([k] records are still to come). *)
Record good (k : Z) (w : Walk) : Prop := mkGood {
  g_items : 0 ≤ items (totals w) ≤ max_container_items budget;
  g_iloc : 0 ≤ iloc_records (totals w) ≤ max_container_items budget;
  g_iref : 0 ≤ iref_references (totals w) ≤ max_container_items budget;
  g_entries : 0 ≤ ipma_entries (totals w) ≤ max_container_items budget;
  g_associations : 0 ≤ ipma_associations (totals w) ≤ max_container_associations budget;
  g_boxes : 0 ≤ boxes w ≤ max_container_boxes budget;
  g_metadata : Z.of_nat (length (metadata_items w)) ≤ max_metadata_items budget;
  g_nodup : NoDup (metadata_items w);
  g_extents : Z.of_nat (length (extents w)) + k ≤ iloc_records (totals w);
  g_bytes : Forall (λ e, 0 ≤ extent_bytes e < 2 ^ 64) (extents w);
}.

(** A box without children: [n] items are charged, no box is visited. *)
Definition leaf (k n : Z) (w w' : Walk) : Prop :=
  good k w' ∧ boxes w' = boxes w ∧ items (totals w') = items (totals w) + n.

Lemma leaf_refl k w : good k w → leaf k 0 w w.
Proof using. clear Hlen. unfold leaf. auto with lia. Qed.
Lemma leaf_trans k n w1 w2 w3 : leaf k 0 w1 w2 → leaf k n w2 w3 → leaf k n w1 w3.
Proof using. clear Hlen. unfold leaf. intros (? & -> & E) (? & ? & E2). rewrite E2, E. auto with lia. Qed.

Lemma wpm_charge c st n ceiling e w Q :
  own e →
  (c (totals w) + n ≤ ceiling → Q tt (set_totals (st (c (totals w) + n) (totals w)) w)) →
  wp (charge c st n ceiling e) w Q.
Proof using.
  clear Hlen. intros He HQ. unfold charge. apply wpm_bind, wp_get. apply wpm_bind, wpm_ok_or; [done|].
  intros m [-> _]%checked_add_Some. apply wpm_bind, wp_modify. apply wp_guard; [done|].
  intros H. simp_bool. auto.
Qed.

Lemma wp_body h w Q : 0 ≤ body_start h ≤ body_end h → (∀ bs, Q bs w) → wp (lift (read_body bytes h)) w Q.
Proof using.
  clear Hlen. intros Hb HQ. apply wp_pure. unfold read_body. apply wpr_bind, wpr_usub; [lia|].
  apply wpr_read; [lia..|]. auto.
Qed.

Lemma wp_parse_ftyp h w :
  good 0 w → 0 ≤ body_start h ≤ body_end h → wp (parse_ftyp bytes h) w (λ _, leaf 0 0 w).
Proof using.
  clear Hlen. intros Hg Hb. apply wpm_bind, wp_body; [lia|]. intros bs.
  apply wpm_bind, wp_guard; [done|]. intros Hl%Nat.ltb_ge.
  do 2 (apply wpm_bind, wp_pure, wpr_slice_at; [lia..|]; intros ???). apply wp_modify.
  split; [by destruct Hg|]. cbn. lia.
Qed.

Lemma wp_parse_colr h w :
  good 0 w → 0 ≤ body_start h ≤ body_end h → wp (parse_colr bytes h) w (λ _, leaf 0 0 w).
Proof using.
  clear Hlen. intros Hg Hb. apply wpm_bind, wp_body; [lia|]. intros bs.
  apply wpm_bind, wp_guard; [done|]. intros Hl%Nat.ltb_ge.
  apply wpm_bind, wp_pure, wpr_slice_at; [lia..|]. intros ty _ _.
  apply wp_guard; [done|]. intros _. by apply leaf_refl.
Qed.

Lemma wp_fourcc o e w Q :
  0 ≤ o → (∀ bs, o + 4 ≤ len → Q bs w) → wp (lift (read_fourcc bytes o e)) w Q.
Proof using.
  clear Hlen. intros Ho HQ. apply wp_pure. unfold read_fourcc. apply wpr_bind, wpr_read; [lia..|].
  intros bs _ ? Hl. apply wpr_bind, wpr_byte_at; [lia|]. intros _ _. by apply HQ.
Qed.

Lemma wp_parse_infe_fields h w (Q : Z * list byte * list byte → Walk → Prop) :
  0 ≤ body_start h → body_end h ≤ len → (∀ r, Q r w) → wp (parse_infe_fields bytes h) w Q.
Proof using Hlen.
  intros Hb He HQ. unfold parse_infe_fields.
  apply wpm_bind, wpm_read_be; [lia..|]. intros v Hv1 _ _ _. apply wpm_bind, wp_guard; [done|]. intros _.
  apply wpm_bind, wpm_uadd; [lia|]. destruct (v <=? 1).
  - apply wpm_bind, wpm_read_be; [lia..|]. intros id ? _ _ _.
    do 2 (apply wpm_bind, wpm_uadd; [lia|]).
    do 3 (apply wpm_bind, wp_read_cstring; [lia|]; intros ????). apply wp_ret, HQ.
  - apply wpm_bind. eapply (wpm_mono _ _ (λ _ w', w' = w ∧ body_start h + 6 ≤ len)).
    { destruct (v =? 2); (apply wpm_read_be; [lia..|]); intros; (split; [done|lia]). }
    intros id w' [-> ?]. apply wpm_bind, wpm_uadd; [destruct (v =? 2); lia|].
    assert (0 ≤ body_start h + 4 + (if v =? 2 then 2 else 4) ≤ len + 2) as Ho by (destruct (v =? 2); lia).
    revert Ho. generalize (body_start h + 4 + (if v =? 2 then 2 else 4)). intros o Ho.
    apply wpm_bind, wpm_uadd; [lia|]. apply wpm_bind, wp_fourcc; [lia|]. intros ty ?.
    apply wpm_bind, wpm_uadd; [lia|]. apply wpm_bind, wp_read_cstring; [lia|]. intros _ o1 ??.
    apply wpm_bind. eapply (wpm_mono _ _ (λ '(_, o') w', w' = w ∧ 0 ≤ o')).
    { destruct (one_of ["mime"]%string ty); [apply wp_read_cstring; [lia|]; intros|apply wp_ret]; (split; [done|lia]). }
    intros [ct o2] w' [-> ?].
    apply wpm_bind. eapply (wpm_mono _ _ (λ _ w', w' = w)).
    { destruct (one_of ["uri "]%string ty); [by apply wp_read_cstring; [lia|]|by apply wp_ret]. }
    intros [? ?] w' ->. apply wp_ret, HQ.
Qed.

Hypothesis Hbudget : max_metadata_items budget < 2 ^ 32.
Hypothesis Hboxes : max_container_boxes budget < 2 ^ 32.

Lemma wp_parse_infe h w :
  good 0 w → 0 ≤ body_start h → body_end h ≤ len → wp (parse_infe bytes budget h) w (λ _, leaf 0 1 w).
Proof using Hlen Hbudget.
  intros Hg Hb He. apply wpm_bind, wp_parse_infe_fields; [done..|]. intros [[id ty] ct].
  apply wpm_bind, wpm_charge; [done|]. intros Hc.
  set (w1 := set_totals _ w).
  assert (leaf 0 1 w w1) as Hl by (split; [destruct Hg; constructor; cbn in *; try done; lia|done]).
  destruct (_ && _); [by apply wp_ret|]. apply wpm_bind, wp_get.
  case_bool_decide; [by apply wp_ret|]. apply wpm_bind, wp_guard; [done|]. intros Hm. simp_bool.
  apply wp_modify. destruct Hl as ([] & Hb1 & Hi1).
  rewrite Z.mod_small in Hm by lia. clearbody w1. split; [|done]. constructor; cbn; try done.
  - rewrite length_app. cbn. lia.
  - apply NoDup_app. split; [done|]. split; [|apply NoDup_singleton].
    intros x Hx ->%list_elem_of_singleton. done.
Qed.

(** Charging a counter other than [items] is a leaf step. *)
Ltac charge_leaf Hg := split; [destruct Hg; constructor; cbn in *; try done; lia|cbn; lia].

Lemma leaf_good k n w w' : leaf k n w w' → good k w'.
Proof using. by intros [? _]. Qed.

Lemma wp_parse_extent e isz osz lsz o total w (Q : Z * Z → Walk → Prop) :
  0 ≤ o → 0 ≤ isz → 0 ≤ osz → 0 ≤ lsz → e ≤ len → 0 ≤ total →
  (∀ o' t, 0 ≤ o' → 0 ≤ t < 2 ^ 64 → Q (o', t) w) →
  wp (parse_extent bytes e isz osz lsz (o, total)) w Q.
Proof using Hlen.
  intros Ho Hi Hos Hl He Ht HQ. cbn [parse_extent].
  apply wpm_bind, wp_advance. intros _. apply wpm_bind, wp_advance. intros _.
  apply wpm_bind, wp_read_uint; [lia..|]. intros v Hv.
  apply wpm_bind, wpm_ok_or; [done|]. intros t [-> ?]%checked_add_Some.
  apply wpm_bind, wp_advance. intros _. apply wp_ret, HQ; lia.
Qed.

Lemma wp_parse_iloc_record e v isz osz bsz lsz k o w :
  good (k + 1) w → 0 ≤ o → e ≤ len → 0 ≤ isz → 0 ≤ osz → 0 ≤ bsz → 0 ≤ lsz →
  wp (parse_iloc_record bytes budget e v isz osz bsz lsz o) w (λ o' w', 0 ≤ o' ∧ leaf k 0 w w').
Proof using Hlen.
  intros Hg Ho He Hi Hos Hbs Hl. unfold parse_iloc_record.
  apply wpm_bind. eapply (wpm_mono _ _ (λ _ w', w' = w ∧ o + 2 ≤ len)).
  { destruct (v <? 2); (apply wpm_read_be; [lia..|]); intros; (split; [done|lia]). }
  intros id w' [-> ?]. apply wpm_bind, wpm_uadd; [destruct (v <? 2); lia|].
  apply wpm_bind. eapply (wpm_mono _ _ (λ o' w', w' = w ∧ 0 ≤ o' ≤ len + 8)).
  { destruct (1 <=? v); [apply wpm_uadd; [destruct (v <? 2); lia|]|apply wp_ret];
      (split; [done|]); destruct (v <? 2); lia. }
  intros o1 w' [-> ?]. apply wpm_bind, wpm_uadd; [lia|]. apply wpm_bind, wp_advance. intros ?.
  apply wpm_bind, wpm_read_be; [lia..|]. intros n ? _ _ _. apply wpm_bind, wpm_uadd; [lia|].
  apply wpm_bind, wp_guard; [done|]. intros _.
  apply wpm_bind. eapply (wp_repeat (λ _ st w', w' = w ∧ 0 ≤ fst st ∧ 0 ≤ snd st < 2 ^ 64)).
  - intros _ [o2 t] w' (-> & ? & ?). apply wp_parse_extent; cbn in *; try lia; auto.
  - cbn. split; [done|lia].
  - intros [o2 t] w' (-> & ? & ?). apply wpm_bind, wp_modify, wp_ret. split; [done|].
    destruct Hg. split; [|cbn; lia]. constructor; cbn; try done.
    + rewrite length_app. cbn. lia.
    + apply Forall_app. split; [done|]. by apply Forall_singleton.
Qed.

Lemma land15 x : 0 ≤ x → 0 ≤ Z.land x 15.
Proof using. clear. intros. apply Z.land_nonneg. auto. Qed.

Lemma wp_parse_iloc h w :
  good 0 w → 0 ≤ body_start h → body_end h ≤ len →
  wp (parse_iloc bytes budget h) w (λ _, leaf 0 0 w).
Proof using Hlen.
  intros Hg Hb He. unfold parse_iloc.
  apply wpm_bind, wpm_read_be; [lia..|]. intros v ? _ _ _. apply wpm_bind, wp_guard; [done|]. intros _.
  apply wpm_bind, wpm_uadd; [lia|]. apply wpm_bind, wpm_read_be; [lia..|]. intros wd ? _ Hwd _.
  apply wpm_bind, wpm_uadd; [lia|]. cbv zeta. apply wpm_bind, wp_guard; [done|]. intros _.
  apply wpm_bind. eapply (wpm_mono _ _ (λ n w', w' = w ∧ 0 ≤ n ∧ body_start h + 8 ≤ len)).
  { destruct (v <? 2); (apply wpm_read_be; [lia..|]); intros; (split; [done|lia]). }
  intros n w' (-> & ? & ?). apply wpm_bind, wpm_uadd; [destruct (v <? 2); lia|].
  apply wpm_bind, wpm_charge; [done|]. intros Hc. set (w1 := set_totals _ w).
  assert (leaf n 0 w w1) as Hl by charge_leaf Hg. clearbody w1.
  assert (∀ k, 0 ≤ Z.land (Z.shiftr wd k) 15) as Hw by (intros; apply land15, Z.shiftr_nonneg; lia).
  apply wpm_bind. eapply (wp_repeat (λ k o w', 0 ≤ o ∧ leaf (Z.of_nat k) 0 w w')).
  - intros k o w' [Ho Hl']. rewrite Nat2Z.inj_succ in Hl'.
    eapply wpm_mono; [apply (wp_parse_iloc_record _ _ _ _ _ _ (Z.of_nat k)); try done; try apply Hw|].
    + apply Hl'.
    + destruct (1 <=? v); [apply land15; lia|done].
    + intros o' w2 [? Hl2]. split; [done|]. destruct Hl' as (_ & E1 & E2), Hl2 as (? & E3 & E4).
      split; [done|lia].
  - rewrite Z2Nat.id by done. split; [destruct (v <? 2); lia|done].
  - intros o w' [_ Hl']. apply wp_ret. exact Hl'.
Qed.

Lemma wp_parse_ipma h w :
  good 0 w → 0 ≤ body_start h → body_end h ≤ len →
  wp (parse_ipma bytes budget h) w (λ _, leaf 0 0 w).
Proof using Hlen.
  intros Hg Hb He. unfold parse_ipma.
  apply wpm_bind, wpm_read_be; [lia..|]. intros v ? _ _ _. apply wpm_bind, wp_guard; [done|]. intros _.
  apply wpm_bind, wpm_uadd; [lia|]. apply wpm_bind, wpm_read_be; [lia..|]. intros fl _ _ _ _. cbv zeta.
  apply wpm_bind, wpm_uadd; [lia|]. apply wpm_bind, wpm_read_be; [lia..|]. intros n ? _ ? _.
  apply wpm_bind, wpm_uadd; [lia|]. apply wpm_bind, wpm_charge; [done|]. intros Hc.
  set (w1 := set_totals _ w). assert (leaf 0 0 w w1) as Hl by charge_leaf Hg. clearbody w1.
  apply wpm_bind. eapply (wp_repeat (λ _ o w', 0 ≤ o ∧ leaf 0 0 w w')).
  - intros _ o w' [Ho Hl']. unfold parse_ipma_entry.
    apply wpm_bind, wp_advance. intros ?.
    assert (0 ≤ o + (if v <? 1 then 2 else 4)) as Ho' by (destruct (v <? 1); lia).
    apply wpm_bind, wpm_read_be; [lia..|]. intros a ? _ Ha _. apply wpm_bind, wpm_uadd; [lia|].
    apply wpm_bind, wpm_charge; [done|]. intros Hc'. apply wp_advance. intros _.
    split; [destruct (negb _); lia|]. eapply leaf_trans; [exact Hl'|].
    apply leaf_good in Hl'. charge_leaf Hl'.
  - split; [lia|done].
  - intros o w' [_ Hl']. by apply wp_ret.
Qed.

(** ** Loops over boxes *)

Lemma wp_scan (I : Z → Walk → Prop) fuel body o e w Q :
  (∀ o w, I o w → o < e → wp (body o) w (λ h w', o + 8 ≤ next h ≤ e ∧ I (next h) w')) →
  I o w → Z.max 0 (e - o) < Z.of_nat fuel →
  (∀ o w, e ≤ o → I o w → Q tt w) → wp (scan fuel body o e) w Q.
Proof using.
  clear. intros Hb. revert o w. induction fuel as [|fuel IH]; intros o w Hi Hf HQ; [lia|].
  cbn [scan]. destruct (Z.ltb_spec o e); [|by eapply HQ].
  apply wpm_bind. eapply wpm_mono; [by apply Hb|]. intros h w' [Hn Hi']. apply IH; [done|lia|done].
Qed.

Lemma wp_scan_entries (I : Z → Walk → Prop) fuel visit o e seen w Q :
  (∀ o w, I o w → o < e → wp (child bytes visit e o) w (λ h w', o + 8 ≤ next h ≤ e ∧ I (next h) w')) →
  I o w → Z.max 0 (e - o) < Z.of_nat fuel →
  (∀ n o w, e ≤ o → I o w → Q n w) → wp (scan_entries bytes fuel visit o e seen) w Q.
Proof using.
  clear. intros Hb. revert o seen w. induction fuel as [|fuel IH]; intros o seen w Hi Hf HQ; [lia|].
  cbn [scan_entries]. destruct (Z.ltb_spec o e); [|by eapply HQ].
  apply wpm_bind. eapply wpm_mono; [by apply Hb|]. intros h w' [Hn Hi'].
  apply wpm_bind, wpm_ok_or; [done|]. intros n _. apply IH; [done|lia|done].
Qed.

Lemma scan_fuel_enough o e : 0 ≤ o → e ≤ len → Z.max 0 (e - o) < Z.of_nat (scan_fuel bytes).
Proof using. clear. unfold scan_fuel, Container.len. lia. Qed.

Lemma wp_parse_iref h w :
  good 0 w → 0 ≤ body_start h → body_end h ≤ len →
  wp (parse_iref bytes budget h) w (λ _, leaf 0 0 w).
Proof using Hlen.
  intros Hg Hb He. unfold parse_iref.
  apply wpm_bind, wp_read; [lia..|]. intros hd ? _ Hhd _.
  apply wpm_bind. eapply (wpm_mono _ _ (λ _ w', w' = w)).
  { apply wp_pure. unfold byte_at. destruct (lookup_lt_is_Some_2 hd 0 ltac:(lia)) as [b ->]. done. }
  intros ver w' ->. cbv zeta. apply wpm_bind, wp_guard; [done|]. intros _. apply wpm_bind, wpm_uadd; [lia|].
  assert (0 ≤ (if ver =? 0 then 2 else 4) ≤ 4) as Hi by (destruct (_ =? 0); lia).
  revert Hi. generalize (if ver =? 0 then 2 else 4). intros isz Hi.
  apply (wp_scan (λ o w', 0 ≤ o ∧ leaf 0 0 w w')).
  - intros o w' [Ho Hl] Hoe. unfold parse_iref_child.
    apply wpm_bind, wp_read_header; [lia..|]. intros c _ ? ? ? ?.
    apply wpm_bind, wpm_uadd; [lia|]. apply wpm_bind, wpm_read_be; [lia..|]. intros n ? _ _ Hrd.
    apply wpm_bind, wp_guard; [done|]. intros _. apply wpm_bind, wpm_charge; [done|]. intros Hc.
    apply wpm_bind, wpm_ok_or; [done|]. intros x _. apply wpm_bind, wp_guard; [done|]. intros _.
    apply wp_ret. split; [lia|]. split; [lia|]. eapply leaf_trans; [exact Hl|].
    apply leaf_good in Hl. assert (0 ≤ n) as Hn by (eapply be_nonneg; eauto). charge_leaf Hl.
  - split; [lia|by apply leaf_refl].
  - apply scan_fuel_enough; lia.
  - by intros o w' _ [_ ?].
Qed.

Lemma wp_parse_tref h w :
  good 0 w → 0 ≤ body_start h → body_end h ≤ len →
  wp (parse_tref bytes budget h) w (λ _, leaf 0 0 w).
Proof using Hlen.
  intros Hg Hb He. unfold parse_tref.
  apply (wp_scan (λ o w', 0 ≤ o ∧ leaf 0 0 w w')).
  - intros o w' [Ho Hl] Hoe. unfold parse_tref_child.
    apply wpm_bind, wp_pure, wpr_bind, wpr_read; [lia..|]. intros hd _ _ Hhd. apply wpr_expect; [lia|].
    apply wpm_bind, wp_guard; [done|]. intros _.
    apply wpm_bind, wp_read_header; [lia..|]. intros c _ ? ? ? ?. apply wpm_bind, wp_pure, wpr_usub; [lia|].
    apply wpm_bind, wp_guard; [done|]. intros _. apply wpm_bind, wpm_ok_or; [done|]. intros n Hn.
    apply wpm_bind, wpm_charge; [done|]. intros Hc. apply wp_ret. split; [lia|]. split; [lia|].
    eapply leaf_trans; [exact Hl|]. apply leaf_good in Hl.
    assert (0 ≤ n) by (destruct (_ <? _); [injection Hn as <-; apply Z.div_pos; lia|done]).
    charge_leaf Hl.
  - split; [lia|by apply leaf_refl].
  - apply scan_fuel_enough; lia.
  - by intros o w' _ [_ ?].
Qed.

(** ** The tree of boxes *)

(** Where the children of a box start, and how many are read at most; [None]
    for a box the walk does not descend into. *)
Definition children (h : Header) : option (option nat * Z) :=
  let kind_is s := one_of [s] (hkind h) in
  if kind_is "meta"%string then Some (None, body_start h + 4)
  else if kind_is "iinf"%string then
    match read_u8 bytes (body_start h) (body_end h) with
    | Ok v => Some (None, body_start h + (if v =? 0 then 6 else 8))
    | Err _ => None
    end
  else if one_of ["infe"; "iloc"; "iref"; "ipma"; "tref"; "ftyp"; "colr"; "mini"]%string (hkind h)
  then None
  else if kind_is "stsd"%string then
    match read_u32 bytes (body_start h + 4) (body_end h) with
    | Ok n => Some (Some (Z.to_nat n), body_start h + 8)
    | Err _ => None
    end
  else if kind_is "dref"%string || kind_is "urim"%string then Some (None, body_start h + 8)
  else if is_container (hkind h) then Some (None, body_start h)
  else if is_visual_sample_entry (hkind h) then Some (None, body_start h + VISUAL_SAMPLE_ENTRY_PREFIX)
  else None.

(** [box d h hs]: the box with header [h] at nesting depth [d], where [hs] are
    the headers of its tree in document order; [range d n o e hs]: the boxes
    that tile [o, e), or the first [n] of them. *)
Inductive box (d : Z) : Header → list Header → Prop :=
| box_leaf h : d ≤ max_container_depth budget → children h = None → box d h [h]
| box_node h n start hs : d ≤ max_container_depth budget → children h = Some (n, start) →
    range (d + 1) n start (body_end h) hs → box d h (h :: hs)
with range (d : Z) : option nat → Z → Z → list Header → Prop :=
| range_end e : range d None e e []
| range_count o e : range d (Some 0%nat) o e []
| range_cons n o e h hs hs' : o < e → n ≠ Some 0%nat → read_header bytes o e = Ok h →
    box d h hs → range d (pred <$> n) (next h) e hs' → range d n o e (hs ++ hs').

Definition is_infe (h : Header) : bool := one_of ["infe"]%string (hkind h).
Definition count_items (hs : list Header) : Z := Z.of_nat (length (List.filter is_infe hs)).

(** The walk visited exactly [hs]. *)
Definition walked (hs : list Header) (w w' : Walk) : Prop :=
  good 0 w' ∧ boxes w' = boxes w + Z.of_nat (length hs)
  ∧ items (totals w') = items (totals w) + count_items hs.

Lemma walked_app hs hs' w1 w2 w3 : walked hs w1 w2 → walked hs' w2 w3 → walked (hs ++ hs') w1 w3.
Proof using.
  clear. intros (_ & B1 & I1) (G & B2 & I2). unfold walked, count_items in *.
  rewrite List.filter_app, !length_app. split; [done|lia].
Qed.
Lemma walked_nil w : good 0 w → walked [] w w.
Proof using. clear. unfold walked, count_items. cbn. auto with lia. Qed.

(** While a range is scanned: the boxes before [o] are in the tree. *)
Definition scanned (d : Z) (n0 : option nat) (o0 e : Z) (w0 : Walk)
    (n : option nat) (o : Z) (w : Walk) : Prop :=
  0 ≤ o ≤ e ∧ ∃ hs, (∀ hs', range d n o e hs' → range d n0 o0 e (hs ++ hs')) ∧ walked hs w0 w.

Lemma scanned_start d n o e w : good 0 w → 0 ≤ o ≤ e → scanned d n o e w n o w.
Proof using. clear. intros. split; [done|]. exists []. split; [done|by apply walked_nil]. Qed.

Lemma scanned_done d n0 o0 e w0 n o w :
  scanned d n0 o0 e w0 n o w → (n = None ∧ e ≤ o ∨ n = Some 0%nat) →
  ∃ hs, range d n0 o0 e hs ∧ walked hs w0 w.
Proof using.
  clear. intros (Ho & hs & Hr & Hw) Hn. exists hs. split; [|done]. rewrite <- (app_nil_r hs). apply Hr.
  destruct Hn as [[-> ?]| ->]; [|constructor]. replace o with e by lia. constructor.
Qed.

(** A box was counted: [w1] is [w] with one box more. *)
Definition counted (w w1 : Walk) : Prop :=
  good 0 w1 ∧ boxes w1 = boxes w + 1 ∧ items (totals w1) = items (totals w).

Lemma walked_leaf h w w1 w' :
  counted w w1 → leaf 0 (if is_infe h then 1 else 0) w1 w' → walked [h] w w'.
Proof using.
  clear. intros (_ & B1 & I1) (G & B2 & I2). unfold walked, count_items. cbn [List.filter].
  destruct (is_infe h); cbn [length]; (split; [done|lia]).
Qed.
Lemma walked_node h hs w w1 w' :
  is_infe h = false → counted w w1 → walked hs w1 w' → walked (h :: hs) w w'.
Proof using.
  clear. intros Hi (_ & B1 & I1) (G & B2 & I2). unfold walked, count_items in *. cbn [List.filter length].
  rewrite Hi.
  split; [done|lia].
Qed.

Section Visit.
(** The visitor of one nesting level, already known to be right; at level [d]
    at least that many boxes were counted. *)
Context (d : Z) (visit : Header → W unit).
Hypothesis Hvisit : ∀ h w, 0 ≤ body_start h ≤ body_end h → body_end h ≤ len → good 0 w → d ≤ boxes w →
  wp (visit h) w (λ _ w', ∃ hs, box d h hs ∧ walked hs w w').

Lemma wp_child n0 o0 e w0 n o w :
  e ≤ len → d ≤ boxes w0 → scanned d n0 o0 e w0 n o w → o < e → n ≠ Some 0%nat →
  wp (child bytes visit e o) w
    (λ h w', o + 8 ≤ next h ≤ e ∧ scanned d n0 o0 e w0 (pred <$> n) (next h) w').
Proof using Hvisit.
  clear Hlen Hbudget. intros He Hd (Ho & hs & Hr & Hw) Hoe Hn. unfold child.
  apply wpm_bind, wp_read_header; [lia..|]. intros h Hh ????.
  apply wpm_bind. eapply wpm_mono; [apply Hvisit; [lia|lia|apply Hw|destruct Hw as (_ & ? & _); lia]|].
  intros _ w' (hs1 & Hbox & Hw1). apply wp_ret. split; [lia|]. split; [lia|].
  exists (hs ++ hs1). split; [|by eapply walked_app]. intros hs' Hr'. rewrite <- app_assoc.
  apply Hr. by eapply range_cons.
Qed.

Lemma wp_walk o e w :
  0 ≤ o → e ≤ len → good 0 w → d ≤ boxes w →
  wp (walk bytes visit o e) w (λ _ w', ∃ hs, range d None o e hs ∧ walked hs w w').
Proof using Hvisit.
  clear Hlen Hbudget. intros Ho He Hg Hd. unfold walk. apply wpm_bind, wp_guard; [done|]. intros Hoe. simp_bool.
  apply (wp_scan (scanned d None o e w None)).
  - intros o' w' Hs Hlt. by apply (wp_child None o e w None).
  - by apply scanned_start.
  - by apply scan_fuel_enough.
  - intros o' w' Hend Hs. eapply scanned_done; eauto.
Qed.

Lemma wp_parse_iinf h w :
  0 ≤ body_start h → body_end h ≤ len → good 0 w → d ≤ boxes w →
  wp (parse_iinf bytes visit h) w (λ _ w', ∃ v hs, read_u8 bytes (body_start h) (body_end h) = Ok v
    ∧ range d None (body_start h + (if v =? 0 then 6 else 8)) (body_end h) hs ∧ walked hs w w').
Proof using Hlen Hvisit.
  clear Hbudget. intros Hb He Hg Hd. unfold parse_iinf.
  apply wpm_bind, wpm_read_be; [lia..|]. intros v ? _ _ Hv. apply wpm_bind, wpm_uadd; [lia|].
  apply wpm_bind. eapply (wpm_mono _ _ (λ _ w', w' = w ∧
    body_start h + (if v =? 0 then 6 else 8) ≤ body_end h)).
  { destruct (v =? 0); (apply wpm_read_be; [lia..|]); intros; (split; [done|lia]). }
  intros dcl w' [-> ?]. 
  apply wpm_bind, wpm_uadd; [destruct (v =? 0); lia|].
  replace (body_start h + 4 + (if v =? 0 then 2 else 4)) with
    (body_start h + (if v =? 0 then 6 else 8)) by (destruct (v =? 0); lia).
  set (st := body_start h + (if v =? 0 then 6 else 8)) in *.
  assert (0 ≤ st) by (subst st; destruct (v =? 0); lia).
  apply wpm_bind. apply (wp_scan_entries (scanned d None st (body_end h) w None)).
  - intros o' w' Hs Hlt. by apply (wp_child None st (body_end h) w None).
  - by apply scanned_start.
  - by apply scan_fuel_enough.
  - intros sn o' w' Hend Hs. apply wp_guard; [done|]. intros _. exists v.
    destruct (scanned_done _ _ _ _ _ _ _ _ Hs) as (hs & ? & ?); eauto.
Qed.

Lemma wp_parse_stsd h w :
  0 ≤ body_start h → body_end h ≤ len → good 0 w → d ≤ boxes w →
  wp (parse_stsd bytes visit h) w (λ _ w', ∃ n hs, read_u32 bytes (body_start h + 4) (body_end h) = Ok n
    ∧ range d (Some (Z.to_nat n)) (body_start h + 8) (body_end h) hs ∧ walked hs w w').
Proof using Hlen Hvisit.
  clear Hbudget. intros Hb He Hg Hd. unfold parse_stsd.
  apply wpm_bind, wpm_read_be; [lia..|]. intros v ? _ _ _. apply wpm_bind, wp_guard; [done|]. intros _.
  apply wpm_bind, wpm_uadd; [lia|]. apply wpm_bind, wpm_read_be; [lia..|]. intros n ? _ _ Hn.
  apply wpm_bind, wpm_uadd; [lia|].
  replace (body_start h + 4 + 4) with (body_start h + 8) by lia.
  apply wpm_bind. eapply (wp_repeat
    (λ k o w', scanned d (Some (Z.to_nat n)) (body_start h + 8) (body_end h) w (Some k) o w')).
  - intros k o w' Hs. apply wpm_bind, wp_guard; [done|]. intros Hlt. simp_bool.
    apply wpm_bind. eapply wpm_mono; [by eapply wp_child|]. intros c w2 [_ Hs']. by apply wp_ret.
  - apply scanned_start; [done|lia].
  - intros o w' Hs. apply wp_ret. exists n.
    destruct (scanned_done _ _ _ _ _ _ _ _ Hs) as (hs & ? & ?); eauto.
Qed.

End Visit.

(** One level deeper. *)
Section Below.
Context (depth : Z) (visit : Header → Z → W unit).
Hypothesis Hvisit : ∀ h w, 0 ≤ body_start h ≤ body_end h → body_end h ≤ len → good 0 w → depth + 1 ≤ boxes w →
  wp (visit h (depth + 1)) w (λ _ w', ∃ hs, box (depth + 1) h hs ∧ walked hs w w').

Lemma wp_next_depth w Q : good 0 w → depth + 1 ≤ boxes w → Q (depth + 1) w → wp (deeper depth) w Q.
Proof using Hboxes. intros [] Hd HQ. apply wp_deeper; [lia|done]. Qed.

Lemma wp_walk_below o e w :
  0 ≤ o → e ≤ len → good 0 w → depth + 1 ≤ boxes w →
  wp (walk_below bytes visit depth o e) w (λ _ w', ∃ hs, range (depth + 1) None o e hs ∧ walked hs w w').
Proof using Hvisit Hboxes.
  intros Ho He Hg Hd. apply wpm_bind, wp_next_depth; [done..|]. by apply wp_walk.
Qed.

Lemma wp_visit_below h w :
  0 ≤ body_start h ≤ body_end h → body_end h ≤ len → good 0 w → depth + 1 ≤ boxes w →
  wp (visit_below visit depth h) w (λ _ w', ∃ hs, box (depth + 1) h hs ∧ walked hs w w').
Proof using Hvisit Hboxes.
  intros Hb He Hg Hd. apply wpm_bind, wp_next_depth; [done..|]. by apply Hvisit.
Qed.

Lemma wp_visual h w :
  0 ≤ body_start h → body_end h ≤ len → good 0 w → depth + 1 ≤ boxes w →
  wp (walk_visual_sample_entry bytes visit depth h) w (λ _ w', ∃ hs,
    range (depth + 1) None (body_start h + VISUAL_SAMPLE_ENTRY_PREFIX) (body_end h) hs ∧ walked hs w w').
Proof using Hlen Hvisit Hboxes.
  clear Hbudget. intros Hb He Hg Hd. unfold walk_visual_sample_entry, VISUAL_SAMPLE_ENTRY_PREFIX.
  apply wpm_bind, wp_read; [lia..|]. intros bs ? _ Hbs _.
  apply wpm_bind, wp_pure, wpr_byte_at; [unfold VISUAL_SAMPLE_ENTRY_NAME_LENGTH; lia|]. intros nl _.
  apply wpm_bind, wp_guard; [done|]. intros _.
  apply wpm_bind, wpm_uadd; [lia|]. by apply wp_walk_below; [lia|..].
Qed.
End Below.

(** Settle a test on the kind of a box from the tests already made. *)
Ltac kinds := unfold children, is_infe, one_of in *; cbn [existsb] in *;
  repeat rewrite orb_false_r in *;
  repeat match goal with
  | H : bool_decide _ = true |- _ => apply bool_decide_eq_true in H; rewrite H; clear H
  | H : bool_decide _ = false |- _ => rewrite H; clear H
  | H : (_ || _) = true |- _ => apply orb_true_iff in H as [H|H]
  | H : (_ || _) = false |- _ => apply orb_false_iff in H as [? ?]
  end; try reflexivity.

(** The dispatch on a counted box, its children visited by a visitor that is
    right for their depth. *)
Section Dispatch.
Context (d : Z) (vis : Header → Z → W unit) (h : Header) (w w1 : Walk).
Hypothesis Hvis : ∀ h w, 0 ≤ body_start h ≤ body_end h → body_end h ≤ len → good 0 w → d + 1 ≤ boxes w →
  wp (vis h (d + 1)) w (λ _ w', ∃ hs, box (d + 1) h hs ∧ walked hs w w').
Hypothesis Hlow : d ≤ boxes w.
Hypothesis Hd : d ≤ max_container_depth budget.
Hypothesis Hb : 0 ≤ body_start h ≤ body_end h.
Hypothesis He : body_end h ≤ len.
Hypothesis Hw1 : counted w w1.

Local Notation goal := (λ (_ : unit) w', ∃ hs, box d h hs ∧ walked hs w w').

Lemma low_counted : d + 1 ≤ boxes w1.
Proof using Hlow Hw1. clear -Hlow Hw1. destruct Hw1 as (_ & -> & _). lia. Qed.

Lemma dispatch_leaf m :
  wp m w1 (λ _, leaf 0 (if is_infe h then 1 else 0) w1) → children h = None → wp m w1 goal.
Proof using Hd Hw1.
  clear -Hd Hw1. intros Hm Hc. eapply wpm_mono; [exact Hm|]. intros u x Hl. exists [h].
  split; [by constructor|by eapply walked_leaf].
Qed.

Lemma dispatch_node m n st :
  wp m w1 (λ _ w', ∃ hs, range (d + 1) n st (body_end h) hs ∧ walked hs w1 w') →
  children h = Some (n, st) → is_infe h = false → wp m w1 goal.
Proof using Hd Hw1.
  clear -Hd Hw1. intros Hm Hc Hi. eapply wpm_mono; [exact Hm|]. intros u x (hs & Hr & Hw).
  exists (h :: hs). split; [by eapply box_node|by eapply walked_node].
Qed.

Lemma dispatch_walk k :
  0 ≤ k < 128 → children h = Some (None, body_start h + k) → is_infe h = false →
  wp (o ← uadd (body_start h) k; walk_below bytes vis d o (body_end h)) w1 goal.
Proof using Hlen Hvis Hd Hb He Hw1 Hlow Hboxes.
  intros Hk Hc Hi. eapply dispatch_node; [|done..]. apply wpm_bind, wpm_uadd; [lia|].
  apply wp_walk_below; [done|lia|done|apply Hw1|apply low_counted].
Qed.

Lemma dispatch_iinf :
  is_infe h = false → one_of ["iinf"]%string (hkind h) = true →
  wp (parse_iinf bytes (visit_below vis d) h) w1 goal.
Proof using Hlen Hvis Hd Hb He Hw1 Hlow Hboxes.
  intros Hi Hk. eapply wpm_mono; [apply (wp_parse_iinf (d + 1)); [by apply wp_visit_below|lia|done|apply Hw1|apply low_counted]|].
  intros _ w' (v & hs & Hv & Hr & Hw). exists (h :: hs). split; [|by eapply walked_node].
  eapply box_node; [done| |exact Hr]. unfold children. rewrite Hk, Hv.
  by kinds.
Qed.

Lemma dispatch_stsd :
  is_infe h = false → one_of ["stsd"]%string (hkind h) = true →
  wp (parse_stsd bytes (visit_below vis d) h) w1 goal.
Proof using Hlen Hvis Hd Hb He Hw1 Hlow Hboxes.
  intros Hi Hk. eapply wpm_mono; [apply (wp_parse_stsd (d + 1)); [by apply wp_visit_below|lia|done|apply Hw1|apply low_counted]|].
  intros _ w' (v & hs & Hv & Hr & Hw). exists (h :: hs). split; [|by eapply walked_node].
  eapply box_node; [done| |exact Hr]. unfold children. rewrite Hk, Hv.
  by kinds.
Qed.
End Dispatch.

Lemma counted_saw w w1 a b c : counted w w1 → counted w (set_saw a b c w1).
Proof using. clear. intros ([] & E1 & E2). split; [by constructor|done]. Qed.

Lemma wp_visit fuel h d w :
  Z.max 0 (max_container_depth budget + 1 - d) < Z.of_nat fuel →
  0 ≤ body_start h ≤ body_end h → body_end h ≤ len → good 0 w → d ≤ boxes w →
  wp (visit bytes budget fuel h d) w (λ _ w', ∃ hs, box d h hs ∧ walked hs w w').
Proof using Hlen Hbudget Hboxes.
  revert h d w. induction fuel as [|fuel IH]; intros h d w Hf Hb He Hg Hlow; [lia|].
  cbn [visit]. apply wpm_bind, wp_guard; [done|]. intros Hd. simp_bool.
  apply wpm_bind, wp_get. apply wpm_bind, wpm_ok_or; [done|]. intros n [-> _]%checked_add_Some.
  apply wpm_bind, wp_modify. apply wpm_bind, wp_guard; [done|]. intros Hn. simp_bool.
  assert (counted w (set_boxes (boxes w + 1) w)) as Hw1.
  { split; [|done]. destruct Hg. constructor; cbn [set_boxes totals boxes metadata_items extents];
      try done; lia. }
  revert Hw1. generalize (set_boxes (boxes w + 1) w). intros w1 Hw1.
  pose proof (proj1 Hw1) as Hg1. cbv zeta.
  pose proof (low_counted d w w1 Hlow Hw1) as Hlow1.
  assert (∀ h w, 0 ≤ body_start h ≤ body_end h → body_end h ≤ len → good 0 w → d + 1 ≤ boxes w →
    wp (visit bytes budget fuel h (d + 1)) w (λ _ w', ∃ hs, box (d + 1) h hs ∧ walked hs w w')) as Hv.
  { intros. apply IH; [lia|done..]. }
  clear IH Hf Hg Hn.
  destruct (one_of ["meta"]%string (hkind h)) eqn:E1.
  { apply wpm_bind, wp_modify. apply dispatch_walk; try done; [by apply counted_saw|by kinds..]. }
  destruct (one_of ["iinf"]%string (hkind h)) eqn:E2.
  { by apply dispatch_iinf; try done; kinds. }
  destruct (one_of ["infe"]%string (hkind h)) eqn:E3.
  { apply dispatch_leaf; try done; [|by kinds]. replace (is_infe h) with true. by apply wp_parse_infe; [|lia|]. }
  destruct (one_of ["iloc"]%string (hkind h)) eqn:E4.
  { apply dispatch_leaf; try done; [|by kinds]. replace (is_infe h) with false.
    by apply wp_parse_iloc; [|lia|]. }
  destruct (one_of ["iref"]%string (hkind h)) eqn:E5.
  { apply dispatch_leaf; try done; [|by kinds]. replace (is_infe h) with false.
    by apply wp_parse_iref; [|lia|]. }
  destruct (one_of ["ipma"]%string (hkind h)) eqn:E6.
  { apply dispatch_leaf; try done; [|by kinds]. replace (is_infe h) with false.
    by apply wp_parse_ipma; [|lia|]. }
  destruct (one_of ["stsd"]%string (hkind h)) eqn:E7; [by apply dispatch_stsd|].
  destruct (one_of ["dref"]%string (hkind h) || one_of ["urim"]%string (hkind h)) eqn:E8.
  { apply dispatch_walk; try done. by kinds. }
  destruct (one_of ["tref"]%string (hkind h)) eqn:E9.
  { apply dispatch_leaf; try done; [|by kinds]. replace (is_infe h) with false.
    by apply wp_parse_tref; [|lia|]. }
  destruct (one_of ["ftyp"]%string (hkind h)) eqn:E10.
  { apply dispatch_leaf; try done; [|by kinds]. replace (is_infe h) with false.
    by apply wp_parse_ftyp; [|lia]. }
  destruct (one_of ["colr"]%string (hkind h)) eqn:E11.
  { apply dispatch_leaf; try done; [|by kinds]. replace (is_infe h) with false.
    by apply wp_parse_colr; [|lia]. }
  destruct (one_of ["mini"]%string (hkind h)) eqn:E12.
  { apply dispatch_leaf; try done; [|by kinds]. replace (is_infe h) with false.
    apply wp_modify. split; [|cbn; lia]. by apply (counted_saw w). }
  destruct (is_container (hkind h)) eqn:E13.
  { eapply dispatch_node; try done; [by apply wp_walk_below; [|lia|..]|].
    unfold children. rewrite E13. by kinds. }
  destruct (is_visual_sample_entry (hkind h)) eqn:E14.
  { eapply dispatch_node; try done; [by apply wp_visual; [|lia|..]|].
    unfold children. rewrite E13, E14. by kinds. }
  apply dispatch_leaf; try done.
  - replace (is_infe h) with false. by apply wp_ret, leaf_refl.
  - unfold children. rewrite E13, E14. by kinds.
Qed.

End Proofs.

(** ** The preflight *)

(** The budget's fields are [u32]s and a [u64]. *)
Definition wf_budget (b : Budget) : Prop :=
  0 ≤ max_container_items b < 2 ^ 32 ∧ 0 ≤ max_container_associations b < 2 ^ 32
  ∧ 0 ≤ max_metadata_items b < 2 ^ 32 ∧ 0 ≤ max_metadata_bytes b < 2 ^ 64
  ∧ 0 ≤ max_container_boxes b < 2 ^ 32 ∧ 0 ≤ max_container_depth b < 2 ^ 32
  ∧ 0 ≤ max_item_extents b < 2 ^ 32.

Lemma good_default b : wf_budget b → good b 0 walk_default.
Proof.
  intros (? & ? & ? & ? & ? & ? & ?). constructor; cbn; try lia; [apply NoDup_nil_2|constructor].
Qed.

Lemma wp_walk_all bytes b :
  wf_budget b → len bytes < 2 ^ 63 →
  wp (walk bytes (λ h, visit bytes b (depth_fuel b) h 0) 0 (len bytes)) walk_default
    (λ _ w, ∃ hs, range bytes b 0 None 0 (len bytes) hs ∧ walked b hs walk_default w).
Proof.
  intros Hb Hl. apply wp_walk; try done; [|by apply good_default].
  intros h w H1 H2 Hg Hlow. apply wp_visit; try done; [apply Hb|apply Hb|].
  unfold depth_fuel. destruct Hb as (_ & _ & _ & _ & _ & ? & _). lia.
Qed.

Lemma sum_largest_own ids l t e : sum_largest ids l t = Err e → own e.
Proof.
  revert t. induction ids as [|id ids IH]; intros t; cbn [sum_largest]; [done|].
  destruct (checked_add 64 t (largest id l)); cbn; [apply IH|by intros [= <-]].
Qed.

Lemma largest_ge id l e : e ∈ l → extent_id e = id → extent_bytes e ≤ largest id l.
Proof.
  unfold largest. intros Hin Hid.
  assert (∀ l m, m ≤ foldl (λ m e, if extent_id e =? id then Z.max m (extent_bytes e) else m) m l) as Hm.
  { clear. induction l as [|e l IH]; intros m; cbn; [done|]. etrans; [|apply IH]. destruct (_ =? _); lia. }
  generalize 0. induction l as [|x l IH]; intros m; [by apply elem_of_nil in Hin|].
  apply elem_of_cons in Hin as [->|Hin]; cbn; [|by apply IH].
  rewrite Hid, Z.eqb_refl. etrans; [|apply Hm]. lia.
Qed.

Lemma largest_nonneg id l : 0 ≤ largest id l.
Proof.
  unfold largest.
  assert (∀ m, 0 ≤ m → 0 ≤ foldl (λ m e, if extent_id e =? id then Z.max m (extent_bytes e) else m) m l)
    as H; [|by apply H].
  induction l as [|e l IH]; intros m Hm; cbn; [done|]. apply IH. destruct (_ =? _); lia.
Qed.

(** The bytes read for [ids] when the record of each is chosen by [pick]. *)
Definition eager_bytes (pick : Z → option Extent) (ids : list Z) : Z :=
  foldr (λ id n, from_option extent_bytes 0 (pick id) + n) 0 ids.

Lemma sum_largest_ge pick ids l t total :
  (∀ id e, pick id = Some e → e ∈ l ∧ extent_id e = id) →
  sum_largest ids l t = Ok total → t + eager_bytes pick ids ≤ total.
Proof.
  intros Hp. revert t. induction ids as [|id ids IH]; intros t; cbn [sum_largest eager_bytes foldr].
  { intros [= <-]. lia. }
  intros (t' & [-> _]%ok_or_Ok%checked_add_Some & Hs)%bind_Ok. apply IH in Hs. unfold eager_bytes in Hs.
  assert (from_option extent_bytes 0 (pick id) ≤ largest id l); [|lia].
  destruct (pick id) as [e|] eqn:E; cbn; [|apply largest_nonneg].
  apply Hp in E as [??]. by apply largest_ge.
Qed.

(** ** Properties *)

(** C18.  The preflight is total and panic-free: on any bytes that fit in
    memory, whatever lengths and counts they declare, the walk over them ends
    with its own verdict.  It does not run out of the fuel of the model (so the
    loops and the recursion of the code terminate); no unchecked addition or
    subtraction of offsets overflows, nor the [u32] of the nesting depth; and no
    index, no slice and no [expect] fails, each of which the model checks where
    the code does. *)
Theorem preflight_total bytes b e :
  wf_budget b → len bytes < 2 ^ 63 → preflight bytes b = Err e → e ≠ Panic ∧ e ≠ Fuel.
Proof.
  intros Hb Hl He. pose proof (wp_walk_all bytes b Hb Hl) as H. unfold wp in H.
  unfold preflight, run in He. destruct (walk _ _ _ _ _) as [[u w]|e']; [|by injection He as <-].
  cbn in He. destruct (_ && _) in He; [by injection He as <-|].
  unfold check_metadata_bytes in He. destruct (sum_largest _ _ _) as [t|e'] eqn:Es; cbn in He.
  - destruct (_ <? t) in He; [by injection He as <-|done].
  - injection He as <-. by eapply sum_largest_own.
Qed.

(** C19.  What the preflight accepts is a tree of boxes within the budget: the
    whole file is tiled by boxes, without gap or remainder, and so is the
    payload of every box the native parser descends into; the tree has at most
    [max_container_boxes] boxes, nested at most [max_container_depth] deep (the
    bound is part of [box]), of which at most [max_container_items] declare
    items, and at most [max_metadata_items] distinct items are loaded eagerly. *)
Theorem accepted_tree bytes b w :
  wf_budget b → len bytes < 2 ^ 63 → run bytes b = Ok w →
  ∃ hs, range bytes b 0 None 0 (len bytes) hs
    ∧ Z.of_nat (length hs) ≤ max_container_boxes b
    ∧ count_items hs ≤ max_container_items b
    ∧ NoDup (metadata_items w) ∧ Z.of_nat (length (metadata_items w)) ≤ max_metadata_items b
    ∧ Z.of_nat (length (extents w)) ≤ max_container_items b.
Proof.
  intros Hb Hl He. pose proof (wp_walk_all bytes b Hb Hl) as H. unfold wp in H.
  unfold run in He. destruct (walk _ _ _ _ _) as [[u w']|e']; [|done]. cbn in He.
  destruct (_ && _) in He; [done|]. apply bind_Ok in He as (_ & _ & [= ->]).
  destruct H as (hs & Hr & [] & Hbx & Hit). exists hs. cbn in Hbx, Hit. split; [done|]. repeat split; try done; lia.
Qed.

(** The eager loads are bounded: whichever of the duplicate location
    records the native parser settles on for each metadata item of an accepted
    file, the extents it reads sum to at most [max_metadata_bytes]. *)
Theorem eager_bytes_bounded bytes b w pick :
  run bytes b = Ok w → (∀ id e, pick id = Some e → e ∈ extents w ∧ extent_id e = id) →
  eager_bytes pick (metadata_items w) ≤ max_metadata_bytes b.
Proof.
  intros He Hp. unfold run in He. apply bind_Ok in He as ([u w'] & _ & He).
  destruct (_ && _) in He; [done|]. apply bind_Ok in He as (? & Hc & [= ->]).
  apply bind_Ok in Hc as (t & Hs & Hc). destruct (_ <? t) eqn:E in Hc; [done|]. simp_bool.
  apply (sum_largest_ge pick) in Hs; [lia|done].
Qed.

(** *** A container with one image and one metadata item *)

Definition be (n : nat) (z : Z) : list byte := be_bytes n z.
Definition boxed (kind : string) (body : list byte) : list byte :=
  be 4 (Z.of_nat (length body) + 8) ++ bytes_of kind ++ body.
Definition full_box (kind : string) (version flags : Z) (body : list byte) : list byte :=
  boxed kind (be 1 version ++ be 3 flags ++ body).
Definition infe (id : Z) (item_type : string) : list byte :=
  full_box "infe" 2 0 (be 2 id ++ be 2 0 ++ bytes_of item_type ++ bytes_of "item" ++ be 1 0).
Definition sample : list byte :=
  boxed "ftyp" (bytes_of "heic" ++ be 4 0 ++ bytes_of "mif1")
  ++ full_box "meta" 0 0
       (full_box "iinf" 0 0 (be 2 2 ++ infe 1 "hvc1" ++ infe 2 "Exif")
        ++ full_box "iloc" 0 0 (be 2 17408 ++ be 2 1 ++ be 2 2 ++ be 2 0 ++ be 2 1 ++ be 4 0 ++ be 4 100)).
Definition sample_budget : Budget := mkBudget 8 8 1 100 8 4 4.

(** An item entry that ends before its name: the string would start past the
    end of its box. *)
Definition short_entry : list byte := full_box "meta" 0 0 (full_box "infe" 0 0 (be 2 1)).

Lemma preflight_total_witness :
  preflight short_entry sample_budget = Err truncated ∧ truncated ≠ Panic ∧ truncated ≠ Fuel.
Proof.
  assert (preflight short_entry sample_budget = Err truncated) as H by (vm_compute; reflexivity).
  split; [exact H|]. apply (preflight_total _ _ _) in H; [exact H| |vm_compute; reflexivity].
  unfold wf_budget. cbn. lia.
Defined.

Lemma accepted_tree_witness :
  ∃ hs, range sample sample_budget 0 None 0 (len sample) hs ∧ Z.of_nat (length hs) ≤ 8
    ∧ count_items hs ≤ 8.
Proof.
  destruct (run sample sample_budget) as [w|e] eqn:E; [|vm_compute in E; discriminate E].
  destruct (accepted_tree sample sample_budget w) as (hs & Hr & Hl & Hc & _);
    [unfold wf_budget; cbn; lia|vm_compute; reflexivity|exact E|].
  exists hs. split; [exact Hr|]. split; [exact Hl|exact Hc].
Defined.

Lemma eager_bytes_bounded_witness :
  match run sample sample_budget with
  | Ok w => metadata_items w = [2]
            ∧ eager_bytes (λ id, List.find (λ e, extent_id e =? id) (extents w)) [2] ≤ 100
  | Err _ => False
  end.
Proof.
  destruct (run sample sample_budget) as [w|e] eqn:E; [|vm_compute in E; discriminate E].
  assert (metadata_items w = [2]) as Hm by (vm_compute in E; injection E as <-; reflexivity).
  split; [exact Hm|]. rewrite <- Hm. apply (eager_bytes_bounded sample sample_budget w); [exact E|].
  intros id e' [H1 H2]%List.find_some. split; [by apply list_elem_of_In|by apply Z.eqb_eq].
Defined.
