(* ===== verification/Heic.v ===== *)
(** * HEIC wallpapers: resource limits and errors
    ([src/dynamic_wallpaper/heic.rs])

    The ceilings that [Document::open] applies, the errors of the module, and
    the checked reads of untrusted bytes that its parsers share.  An index out
    of range or an unchecked addition that overflows is the error [Panic] of
    the model; a loop that runs out of fuel ends in [Fuel].  Neither is an error
    of the code, and each parser's theorem shows that neither happens. *)

From S2P Require Import Prelude.

Record Limits := mkLimits {
  max_source_bytes : Z;
  max_container_items : Z;
  max_container_associations : Z;
  max_container_boxes : Z;
  max_container_depth : Z;
  max_item_extents : Z;
  max_metadata_items : Z;
  max_top_level_images : Z;
  max_metadata_blocks : Z;
  max_tiles : Z;
  max_width : Z;
  max_height : Z;
  max_pixels : Z;
  max_metadata_block_bytes : Z;
  max_metadata_bytes : Z;
  max_color_profile_bytes : Z;
  max_color_profile_tags : Z;
  max_color_profile_text_bytes : Z;
  max_color_profile_text_records : Z;
  max_xml_depth : Z;
  max_xml_events : Z;
  max_plist_bytes : Z;
  max_plist_objects : Z;
  max_expanded_plist_objects : Z;
  max_expanded_plist_bytes : Z;
  max_plist_depth : Z;
  max_schedule_points : Z;
  max_output_bytes : Z;
  max_libheif_memory_bytes : Z;
}.

Definition default_limits : Limits := {|
  max_source_bytes := 128 * 1024 * 1024;
  max_container_items := 4096;
  max_container_associations := 32768;
  max_container_boxes := 16384;
  max_container_depth := 16;
  max_item_extents := 32;
  max_metadata_items := 64;
  max_top_level_images := 64;
  max_metadata_blocks := 64;
  max_tiles := 4096;
  max_width := 16384;
  max_height := 16384;
  max_pixels := 64 * 1024 * 1024;
  max_metadata_block_bytes := 1024 * 1024;
  max_metadata_bytes := 4 * 1024 * 1024;
  max_color_profile_bytes := 1024 * 1024;
  max_color_profile_tags := 64;
  max_color_profile_text_bytes := 4 * 1024 * 1024;
  max_color_profile_text_records := 1024;
  max_xml_depth := 32;
  max_xml_events := 4096;
  max_plist_bytes := 512 * 1024;
  max_plist_objects := 1024;
  max_expanded_plist_objects := 4096;
  max_expanded_plist_bytes := 16 * 1024 * 1024;
  max_plist_depth := 32;
  max_schedule_points := 256;
  max_output_bytes := 256 * 1024 * 1024;
  max_libheif_memory_bytes := 512 * 1024 * 1024;
|}.

Inductive Error :=
| EOpen (what : string)
| SourceTooLarge
| EContainer (what : string)
| ELimit (what : string)
| EMetadata (what : string)
| MissingImage
| UnsupportedColor (what : string)
| EDecode (what : string)
| Panic
| Fuel.
#[export] Instance Error_eq_dec : EqDecision Error.
Proof. solve_decision. Defined.

(** [len()]. *)
Definition blen {A} (bs : list A) : Z := Z.of_nat (length bs).

(** Unchecked [usize] arithmetic. *)
Definition uadd (a b : Z) : result Error Z := ok_or Panic (checked_add 64 a b).
Definition umul (a b : Z) : result Error Z := ok_or Panic (checked_mul 64 a b).

(** [bytes[i]]. *)
Definition at_ (bs : list byte) (i : Z) : result Error Z :=
  ok_or Panic (u8 <$> bs !! Z.to_nat i).
(** [bytes[a..b]]. *)
Definition sub (bs : list byte) (a b : Z) : result Error (list byte) :=
  if (a <=? b) && (b <=? blen bs) then Ok (slice (Z.to_nat a) (Z.to_nat b) bs) else Err Panic.
(** [bytes.get(a..b)]. *)
Definition get_range (bs : list byte) (a b : Z) : option (list byte) :=
  if (a <=? b) && (b <=? blen bs) then Some (slice (Z.to_nat a) (Z.to_nat b) bs) else None.
(** [u32::from_be_bytes([bytes[i], bytes[i + 1], bytes[i + 2], bytes[i + 3]])]. *)
Definition be32 (bs : list byte) (i : Z) : result Error Z := be_value <$> sub bs i (i + 4).

(** ** Partial correctness with safety

    [wp r Q]: the computation ends in a value that satisfies [Q], or in an
    error of the code: never in one of the model's own. *)

Definition wp {A} (r : result Error A) (Q : A → Prop) : Prop :=
  match r with Ok a => Q a | Err e => e ≠ Panic ∧ e ≠ Fuel end.

Lemma wp_Ok {A} (x : A) (Q : A → Prop) : Q x → wp (Ok x) Q.
Proof. done. Qed.
Lemma wp_Err {A} e (Q : A → Prop) : e ≠ Panic → e ≠ Fuel → wp (Err e) Q.
Proof. by split. Qed.
Lemma wp_bind {A B} (m : result Error A) (f : A → result Error B) Q :
  wp m (λ x, wp (f x) Q) → wp (m ≫= f) Q.
Proof. by destruct m. Qed.
Lemma wp_fmap {A B} (m : result Error A) (f : A → B) Q : wp m (λ x, Q (f x)) → wp (f <$> m) Q.
Proof. by destruct m. Qed.
Lemma wp_mono {A} (m : result Error A) (Q R : A → Prop) : wp m Q → (∀ x, Q x → R x) → wp m R.
Proof. destruct m; cbn; auto. Qed.
Lemma wp_and {A} (m : result Error A) (Q : A → Prop) : wp m Q → wp m (λ x, m = Ok x ∧ Q x).
Proof. destruct m; cbn; auto. Qed.
Lemma wp_ensure b e (Q : unit → Prop) : e ≠ Panic → e ≠ Fuel → (b = true → Q tt) → wp (ensure b e) Q.
Proof. destruct b; cbn; auto. Qed.
Lemma wp_ok_or {A} e (o : option A) (Q : A → Prop) :
  e ≠ Panic → e ≠ Fuel → (∀ x, o = Some x → Q x) → wp (ok_or e o) Q.
Proof. destruct o; cbn; auto. Qed.
Lemma wp_if {A} (b : bool) (m n : result Error A) Q :
  (b = true → wp m Q) → (b = false → wp n Q) → wp (if b then m else n) Q.
Proof. destruct b; auto. Qed.

Lemma wp_uadd a b (Q : Z → Prop) : a + b < 2 ^ 64 → Q (a + b) → wp (uadd a b) Q.
Proof. intros. unfold uadd, checked_add. by rewrite (proj2 (Z.ltb_lt _ _)) by lia. Qed.
Lemma wp_umul a b (Q : Z → Prop) : a * b < 2 ^ 64 → Q (a * b) → wp (umul a b) Q.
Proof. intros. unfold umul, checked_mul. by rewrite (proj2 (Z.ltb_lt _ _)) by lia. Qed.

Lemma blen_nonneg {A} (bs : list A) : 0 ≤ blen bs.
Proof. unfold blen. lia. Qed.

(** The bytes of a range, and the number they spell. *)
Definition range (bs : list byte) (a b : Z) : list byte := slice (Z.to_nat a) (Z.to_nat b) bs.
Definition field (n : Z) (bs : list byte) (i : Z) : Z := be_value (range bs i (i + n)).

Lemma blen_range bs a b : 0 ≤ a ≤ b → b ≤ blen bs → blen (range bs a b) = b - a.
Proof. unfold blen, range. intros. rewrite length_slice; lia. Qed.

Lemma field_range n bs i : 0 ≤ n → 0 ≤ i → i + n ≤ blen bs → 0 ≤ field n bs i < 256 ^ n.
Proof.
  intros. unfold field. pose proof (be_value_range (range bs i (i + n))) as H2.
  pose proof (blen_range bs i (i + n)) as H3. unfold blen in *.
  replace (Z.of_nat (length (range bs i (i + n)))) with n in H2 by lia. done.
Qed.

Lemma wp_at bs i (Q : Z → Prop) :
  0 ≤ i < blen bs → (∀ x, 0 ≤ x < 256 → x = field 1 bs i → Q x) → wp (at_ bs i) Q.
Proof.
  unfold blen, at_. intros Hi HQ. destruct (lookup_lt_is_Some_2 bs (Z.to_nat i)) as [b Hb]; [lia|].
  rewrite Hb. cbn. apply HQ; [apply u8_range|]. unfold field, range, slice.
  rewrite (drop_S _ _ _ Hb). replace (Z.to_nat (i + 1) - Z.to_nat i)%nat with 1%nat by lia.
  reflexivity.
Qed.
Lemma wp_sub bs a b (Q : list byte → Prop) :
  a ≤ b → b ≤ blen bs → Q (range bs a b) → wp (sub bs a b) Q.
Proof.
  intros. unfold sub. by rewrite (proj2 (Z.leb_le a b)), (proj2 (Z.leb_le b _)) by lia.
Qed.
Lemma wp_be32 bs i (Q : Z → Prop) :
  0 ≤ i → i + 4 ≤ blen bs → (0 ≤ field 4 bs i < 2 ^ 32 → Q (field 4 bs i)) → wp (be32 bs i) Q.
Proof.
  intros ? ? HQ. apply wp_fmap, wp_sub; [lia..|]. apply HQ.
  change (2 ^ 32) with (256 ^ 4). apply field_range; lia.
Qed.
Lemma get_range_spec bs a b : 0 ≤ a → a ≤ b →
  get_range bs a b = if b <=? blen bs then Some (range bs a b) else None.
Proof. intros. unfold get_range. by rewrite (proj2 (Z.leb_le a b)) by lia. Qed.

(** A field of a range. *)
Lemma field_sub n bs a b i : 0 ≤ a → 0 ≤ i → 0 ≤ n → i + n ≤ b - a →
  field n (range bs a b) i = field n bs (a + i).
Proof.
  intros. unfold field. f_equal. unfold range, slice.
  rewrite (skipn_firstn_comm (Z.to_nat i)), take_take, drop_drop. f_equal; [lia|]. f_equal. lia.
Qed.

#[export] Hint Resolve wp_Ok blen_nonneg : genkan.
#[export] Hint Extern 1 (wp (Err _) _) => apply wp_Err; discriminate : genkan.

(** One step of a computation. *)
Ltac wp_step :=
  lazymatch goal with
  | |- wp (mbind _ _) _ => apply wp_bind
  | |- wp (ensure _ _) _ => apply wp_ensure; [discriminate..|intros ?; simp_bool]
  | |- wp (ok_or _ _) _ => apply wp_ok_or; [discriminate..|intros ? ?]
  | |- wp (if _ then _ else _) _ => apply wp_if; intros ?; simp_bool
  | |- wp (Err _) _ => apply wp_Err; discriminate
  | |- wp (Ok _) _ => apply wp_Ok
  end.
