(* ===== verification/HeicColor.v ===== *)
(** * HEIC color profiles ([src/dynamic_wallpaper/heic.rs])

    The structural preflight of an embedded ICC profile, which bounds what the
    profile parser may materialize, and the checks on an item's color. *)

From S2P Require Import Prelude Utf8 LockWorker Heic.

Definition malformed : Error := UnsupportedColor "malformed embedded ICC profile".

(** ** The preflight *)

Definition utf16_text_bound (bytes : Z) : Z := Z.min (2 ^ 64 - 1) (bytes * 3) / 2.
Definition lossy_text_bound (bytes : Z) : Z := Z.min (2 ^ 64 - 1) (bytes * 3).

Definition HEADER_BYTES : Z := 128.
Definition TAG_ENTRY_BYTES : Z := 12.
Definition ICC_TEXT_TYPES : list (list byte) := [bytes_of "mluc"; bytes_of "desc"; bytes_of "text"].

Section Preflight.
Context (l : Limits).

(** [&mut usize] totals of decoded text and of records. *)
Record Charges := mkCharges { text : Z; records : Z }.

Definition charge_icc_text_bytes (decoded : Z) (c : Charges) : result Error Charges :=
  total ← ok_or (UnsupportedColor "embedded ICC profile text size") (checked_add 64 (text c) decoded);
  _ ← ensure (total <=? max_color_profile_text_bytes l) (UnsupportedColor "embedded ICC profile text size");
  Ok (mkCharges total (records c)).

Definition count_record (c : Charges) : result Error Charges :=
  let n := Z.min (2 ^ 64 - 1) (records c + 1) in
  _ ← ensure (n <=? max_color_profile_text_records l) (UnsupportedColor "embedded ICC profile text records");
  Ok (mkCharges (text c) n).

(** Whether the parser would read the record. *)
Definition charge_icc_record (tag : list byte) (offset length : Z) (c : Charges) :
    result Error (bool * Charges) :=
  match checked_add 64 offset length with
  | Some e =>
    if blen tag <? e then Ok (false, c)
    else
      c ← count_record c;
      c ← charge_icc_text_bytes (utf16_text_bound length) c;
      Ok (true, c)
  | None => Ok (false, c)
  end.

(** [for record in 1..count], from [record] on.  A record that is read takes
    twelve bytes of the tag. *)
Fixpoint mluc_records (fuel : nat) (tag : list byte) (count record : Z) (c : Charges) :
    result Error Charges :=
  match fuel with
  | O => Err Fuel
  | S fuel =>
    if record <? count then
      match checked_add 64 28 (Z.min (2 ^ 64 - 1) (saturating_sub record 1 * 12)) with
      | None => Ok c
      | Some start =>
        e ← uadd start 12;
        match get_range tag start e with
        | None => Ok c
        | Some header =>
          offset ← be32 header 8;
          length ← be32 header 4;
          '(more, c) ← charge_icc_record tag offset length c;
          if (more : bool) then mluc_records fuel tag count (record + 1) c else Ok c
        end
      end
    else Ok c
  end.

Definition charge_mluc (tag : list byte) (c : Charges) : result Error Charges :=
  if blen tag <? 28 then Ok c
  else
    count ← be32 tag 8;
    offset ← be32 tag 24;
    length ← be32 tag 20;
    '(more, c) ← charge_icc_record tag offset length c;
    if (more : bool) then mluc_records (S (Datatypes.length tag)) tag count 1 c else Ok c.

Definition charge_desc (tag : list byte) (c : Charges) : result Error Charges :=
  if blen tag <? 12 then Ok c
  else
    ascii ← be32 tag 8;
    match checked_add 64 12 ascii with
    | None => Ok c
    | Some ascii_end =>
      if blen tag <? ascii_end then Ok c
      else
        c ← charge_icc_text_bytes (lossy_text_bound ascii) c;
        e ← uadd ascii_end 8;
        match get_range tag ascii_end e with
        | None => Ok c
        | Some header =>
          c ← count_record c;
          units ← be32 header 4;
          match checked_mul 64 units 2 with
          | None => Ok c
          | Some encoded =>
            match start ← checked_add 64 ascii_end 8; checked_add 64 start encoded with
            | Some e =>
              if blen tag <? e then Ok c else charge_icc_text_bytes (utf16_text_bound encoded) c
            | None => Ok c
            end
          end
        end
    end.

Definition charge_icc_text (tag : list byte) (c : Charges) : result Error Charges :=
  kind ← sub tag 0 4;
  if bool_decide (kind = bytes_of "mluc") then charge_mluc tag c
  else if bool_decide (kind = bytes_of "desc") then charge_desc tag c
  else charge_icc_text_bytes (lossy_text_bound (saturating_sub (blen tag) 8)) c.

(** The range of the tag whose entry is at [entry]. *)
Definition tag_range (bytes : list byte) (entry : Z) : result Error (Z * Z) :=
  offset ← (p ← uadd entry 4; be32 bytes p);
  size ← (p ← uadd entry 8; be32 bytes p);
  end_ ← (if size =? 0 then Ok (blen bytes) else ok_or malformed (checked_add 64 offset size));
  _ ← ensure (negb ((blen bytes <? offset) || (blen bytes <? end_))) malformed;
  Ok (offset, end_).

Definition is_text_tag (tag : list byte) : bool :=
  existsb (λ kind, bool_decide (take 4 tag = kind)) ICC_TEXT_TYPES.

(** [for index in 0..tag_count], from [index] on. *)
Fixpoint icc_tags (n : nat) (bytes : list byte) (index : Z) (c : Charges) : result Error Charges :=
  match n with
  | O => Ok c
  | S n =>
    entry ← (o ← umul index TAG_ENTRY_BYTES; uadd (HEADER_BYTES + 4) o);
    '(offset, end_) ← tag_range bytes entry;
    tag ← sub bytes offset end_;
    c ← (if is_text_tag tag then charge_icc_text tag c else Ok c);
    icc_tags n bytes (index + 1) c
  end.

Definition preflight_icc_profile (bytes : list byte) : result Error unit :=
  _ ← ensure (negb (blen bytes <? HEADER_BYTES + 4)) malformed;
  declared ← be32 bytes 0;
  _ ← ensure (declared =? blen bytes) (UnsupportedColor "embedded ICC profile extent");
  tag_count ← be32 bytes HEADER_BYTES;
  _ ← ensure (negb (max_color_profile_tags l <? tag_count)) (UnsupportedColor "embedded ICC profile tag count");
  table_end ← ok_or malformed (n ← checked_mul 64 tag_count TAG_ENTRY_BYTES; checked_add 64 (HEADER_BYTES + 4) n);
  _ ← ensure (negb (blen bytes <? table_end)) malformed;
  _ ← icc_tags (Z.to_nat tag_count) bytes 0 (mkCharges 0 0);
  Ok tt.
End Preflight.

(** ** The color of an item

    A parsed profile and its transform come from the color library. *)

Inductive ColorPrimaries := ITU_R_BT_709_5 | UnspecifiedPrimaries | OtherPrimaries.
Inductive TransferCharacteristics := IEC_61966_2_1 | UnspecifiedTransfer | OtherTransfer.

Definition validate_nclx_encoding (p : ColorPrimaries) (t : TransferCharacteristics) : result Error unit :=
  _ ← ensure match p with OtherPrimaries => false | _ => true end (UnsupportedColor "non-sRGB color primaries");
  ensure match t with OtherTransfer => false | _ => true end (UnsupportedColor "non-sRGB transfer function").

Section Color.
(** [moxcms]: what a profile parses to, whether its space is RGB, and the
    transform to sRGB of a row of pixels. *)
Context {Profile Transform : Type}.
Context (new_from_slice : list byte → option Profile).
Context (is_rgb : Profile → bool).
Context (create_transform : Profile → option Transform).
Context (l : Limits).

Definition IccTransform_new (bytes : list byte) : result Error Transform :=
  _ ← ensure (negb (bool_decide (bytes = []) || (max_color_profile_bytes l <? blen bytes)))
        (UnsupportedColor "embedded ICC profile size");
  _ ← preflight_icc_profile l bytes;
  source ← ok_or malformed (new_from_slice bytes);
  _ ← ensure (is_rgb source) (UnsupportedColor "non-RGB embedded ICC profile");
  ok_or (UnsupportedColor "unconvertible embedded ICC profile") (create_transform source).

(** The color metadata of an image handle. *)
Record ColorInfo := mkColorInfo {
  luma_bits : Z;
  chroma_bits : Z;
  raw_profile : option (list byte);
  nclx : option (ColorPrimaries * TransferCharacteristics);
}.

Definition validate_nclx (o : option (ColorPrimaries * TransferCharacteristics)) : result Error unit :=
  match o with Some (p, t) => validate_nclx_encoding p t | None => Ok tt end.

Definition validate_color (h : ColorInfo) : result Error (option Transform) :=
  _ ← ensure (negb ((8 <? luma_bits h) || (8 <? chroma_bits h))) (UnsupportedColor "HDR bit depth");
  color ← match raw_profile h with
          | Some p => Some <$> IccTransform_new p
          | None => Ok None
          end;
  _ ← validate_nclx (nclx h);
  Ok color.
End Color.
