(* ===== verification/HeicColorProofs.v ===== *)
(** * HEIC color profiles: proofs

    What an accepted ICC profile can make a reader of its texts materialize,
    and that the preflight never reads out of range. *)

From S2P Require Import Prelude Utf8 LockWorker Heic HeicColor.

(** ** What a reader decodes

    The texts of a tag, read the way a reader reads them: localized UTF-16
    records until one runs past the tag, the two sections of a description,
    the whole of a text. *)

Fixpoint utf16_units (bs : list byte) : list Z :=
  match bs with
  | b0 :: b1 :: rest => be_value [b0; b1] :: utf16_units rest
  | _ => []
  end.
Definition is_high (u : Z) : bool := (55296 <=? u) && (u <? 56320).
Definition is_low (u : Z) : bool := (56320 <=? u) && (u <? 57344).
(** [String::from_utf16_lossy]. *)
Fixpoint decode_utf16 (us : list Z) : list Z :=
  match us with
  | [] => []
  | u :: rest =>
    if is_high u then
      match rest with
      | v :: rest' =>
        if is_low v then (u - 55296) * 1024 + (v - 56320) + 65536 :: decode_utf16 rest'
        else REPLACEMENT :: decode_utf16 rest
      | [] => [REPLACEMENT]
      end
    else if is_low u then REPLACEMENT :: decode_utf16 rest
    else u :: decode_utf16 rest
  end.

Inductive Payload := Utf16 (bs : list byte) | LossyUtf8 (bs : list byte).
Definition decoded (p : Payload) : list Z :=
  match p with Utf16 bs => decode_utf16 (utf16_units bs) | LossyUtf8 bs => from_utf8_lossy bs end.
(** UTF-8 bytes, and localization records. *)
Definition text_size (ps : list Payload) : Z := foldr (λ p n, str_len (decoded p) + n) 0 ps.
Definition record_count (ps : list Payload) : Z :=
  foldr (λ p n, match p with Utf16 _ => 1 + n | LossyUtf8 _ => n end) 0 ps.

(** Record [r] of a multi-localized text. *)
Definition record_payload (tag : list byte) (r : Z) : option (list byte) :=
  if blen tag <? 28 + r * 12 then None
  else
    let length := field 4 tag (20 + r * 12) in
    let offset := field 4 tag (24 + r * 12) in
    if blen tag <? offset + length then None else Some (range tag offset (offset + length)).
Fixpoint records_from (n : nat) (tag : list byte) (r : Z) : list Payload :=
  match n with
  | O => []
  | S n =>
    match record_payload tag r with
    | Some p => Utf16 p :: records_from n tag (r + 1)
    | None => []
    end
  end.
Definition mluc_texts (tag : list byte) : list Payload :=
  if blen tag <? 28 then [] else records_from (Z.to_nat (Z.max 1 (field 4 tag 8))) tag 0.

Definition desc_texts (tag : list byte) : list Payload :=
  if blen tag <? 12 then []
  else
    let ascii_end := 12 + field 4 tag 8 in
    if blen tag <? ascii_end then []
    else LossyUtf8 (range tag 12 ascii_end) ::
      if blen tag <? ascii_end + 8 then []
      else
        let encoded := field 4 tag (ascii_end + 4) * 2 in
        if blen tag <? ascii_end + 8 + encoded then []
        else [Utf16 (range tag (ascii_end + 8) (ascii_end + 8 + encoded))].

Definition tag_texts (tag : list byte) : list Payload :=
  if bool_decide (take 4 tag = bytes_of "mluc") then mluc_texts tag
  else if bool_decide (take 4 tag = bytes_of "desc") then desc_texts tag
  else if bool_decide (take 4 tag = bytes_of "text") then [LossyUtf8 (drop 8 tag)]
  else [].

(** The tags of a profile. *)
Definition tag_count (bytes : list byte) : Z := field 4 bytes 128.
Definition tag_start (bytes : list byte) (i : Z) : Z := field 4 bytes (136 + i * 12).
Definition tag_end (bytes : list byte) (i : Z) : Z :=
  let size := field 4 bytes (140 + i * 12) in
  if size =? 0 then blen bytes else tag_start bytes i + size.
Definition tag_bytes (bytes : list byte) (i : Z) : list byte :=
  range bytes (tag_start bytes i) (tag_end bytes i).
Fixpoint texts_from (n : nat) (bytes : list byte) (i : Z) : list Payload :=
  match n with
  | O => []
  | S n => tag_texts (tag_bytes bytes i) ++ texts_from n bytes (i + 1)
  end.
Definition profile_texts (bytes : list byte) : list Payload :=
  texts_from (Z.to_nat (tag_count bytes)) bytes 0.

(** ** How large a decoded text is *)

Lemma len_utf8_3 c : c < 65536 → len_utf8 c ≤ 3.
Proof. intros. unfold len_utf8. repeat case_match; lia. Qed.

Lemma length_utf16_units bs : Z.of_nat (length (utf16_units bs)) ≤ blen bs / 2.
Proof.
  assert (∀ n bs, (length bs ≤ n)%nat → 2 * Z.of_nat (length (utf16_units bs)) ≤ blen bs) as H.
  { induction n as [|n IH]; intros [|b0 [|b1 r]] Hl; unfold blen in *; cbn in *; try lia.
    specialize (IH r). lia. }
  specialize (H (length bs) bs (Nat.le_refl _)). apply Z.div_le_lower_bound; lia.
Qed.

Lemma utf16_units_range bs : Forall (λ u, 0 ≤ u < 65536) (utf16_units bs).
Proof.
  assert (∀ n bs, (length bs ≤ n)%nat → Forall (λ u, 0 ≤ u < 65536) (utf16_units bs)) as H.
  { induction n as [|n IH]; intros [|b0 [|b1 r]] Hl; cbn in *; try constructor; try lia.
    - apply (be_value_range [b0; b1]).
    - apply IH. lia. }
  by apply (H (length bs)).
Qed.

Lemma decode_utf16_size us :
  Forall (λ u, 0 ≤ u < 65536) us → str_len (decode_utf16 us) ≤ 3 * Z.of_nat (length us).
Proof.
  assert (∀ n us, (length us ≤ n)%nat → Forall (λ u, 0 ≤ u < 65536) us →
    str_len (decode_utf16 us) ≤ 3 * Z.of_nat (length us)) as H.
  { induction n as [|n IH]; intros [|u r] Hl Hf; cbn [decode_utf16]; try (cbn in *; lia).
    cbn in Hl. apply Forall_cons in Hf as [Hu Hr].
    assert (str_len (decode_utf16 r) ≤ 3 * Z.of_nat (length r)) as Hrest by (apply IH; [lia|done]).
    assert (len_utf8 REPLACEMENT = 3) as E3 by done. assert (len_utf8 u ≤ 3) by (apply len_utf8_3; lia).
    rewrite length_cons, Nat2Z.inj_succ.
    destruct (is_high u); [|destruct (is_low u); rewrite str_len_cons; lia].
    destruct r as [|v r']; [rewrite str_len_cons; cbn; lia|].
    destruct (is_low v); [|rewrite str_len_cons; lia].
    apply Forall_cons in Hr as [_ Hr]. cbn in Hl. rewrite length_cons, Nat2Z.inj_succ, str_len_cons.
    assert (str_len (decode_utf16 r') ≤ 3 * Z.of_nat (length r')) by (apply IH; [lia|done]).
    pose proof (len_utf8_range ((u - 55296) * 1024 + (v - 56320) + 65536)). lia. }
  intros. by apply (H (length us)).
Qed.

Lemma utf8_first_len bs c k : utf8_first bs = Some (c, k) →
  len_utf8 c = Z.of_nat k ∧ (1 ≤ k ≤ length bs)%nat.
Proof.
  unfold utf8_first.
  assert (∀ j, utf8_try bs j = Some (c, k) → len_utf8 c = Z.of_nat k ∧ j = k ∧ (k ≤ length bs)%nat) as H.
  { intros j. unfold utf8_try. destruct (Nat.leb_spec j (length bs)) as [Hle|]; [|done].
    destruct (decode (take j bs)) as [[|c' [|]]|] eqn:E; try done. intros [= -> ->].
    apply decode_sound in E as [E _]. pose proof (length_encode_char c) as Hl.
    assert (encode_char c = take k bs) as Ec by (rewrite <- E; cbn; by rewrite app_nil_r).
    rewrite Ec, length_take in Hl. split; [lia|]. split; [done|lia]. }
  pose proof (len_utf8_range c). cbn [omap list_omap].
  destruct (utf8_try bs 1) as [x|] eqn:E1; [intros [= ->]; apply H in E1; lia|].
  destruct (utf8_try bs 2) as [x|] eqn:E2; [intros [= ->]; apply H in E2; lia|].
  destruct (utf8_try bs 3) as [x|] eqn:E3; [intros [= ->]; apply H in E3; lia|].
  destruct (utf8_try bs 4) as [x|] eqn:E4; [intros [= ->]; apply H in E4; lia|]. done.
Qed.

Lemma invalid_length_pos bs : (1 ≤ invalid_length bs)%nat.
Proof. unfold invalid_length. repeat case_match; lia. Qed.

Lemma lossy_size n bs : str_len (lossy n bs) ≤ 3 * blen bs.
Proof.
  revert bs. induction n as [|n IH]; intros bs; [cbn; unfold blen; lia|].
  assert (∀ k, (1 ≤ k)%nat → (k ≤ length bs)%nat → 3 * Z.of_nat k + str_len (lossy n (drop k bs)) ≤ 3 * blen bs) as H.
  { intros k H1 H2. specialize (IH (drop k bs)). unfold blen in *. rewrite length_drop in IH. lia. }
  destruct bs as [|b r]; [unfold blen; cbn; lia|]. cbn [lossy].
  destruct (utf8_first (b :: r)) as [[c k]|] eqn:E; rewrite str_len_cons.
  - apply utf8_first_len in E as [Ec Hk]. specialize (H k). lia.
  - pose proof (invalid_length_pos (b :: r)) as Hp. change (len_utf8 REPLACEMENT) with 3.
    destruct (decide (invalid_length (b :: r) ≤ length (b :: r))%nat) as [Hle|Hgt]; [specialize (H _ Hp Hle); lia|].
    rewrite (drop_ge (b :: r)) by lia. assert (lossy n [] = []) as -> by (by destruct n).
    unfold blen. rewrite length_cons. cbn [str_len foldr]. lia.
Qed.

(** The bounds that the preflight charges are bounds. *)
Lemma utf16_bound bs : blen bs < 2 ^ 62 → str_len (decoded (Utf16 bs)) ≤ utf16_text_bound (blen bs).
Proof.
  intros Hb. pose proof (decode_utf16_size _ (utf16_units_range bs)) as H.
  pose proof (length_utf16_units bs) as Hl. unfold utf16_text_bound. cbn [decoded].
  rewrite Z.min_r by lia. apply Z.div_le_lower_bound; [lia|].
  pose proof (Z.mul_div_le (blen bs) 2). lia.
Qed.

Lemma lossy_bound bs : blen bs < 2 ^ 62 → str_len (decoded (LossyUtf8 bs)) ≤ lossy_text_bound (blen bs).
Proof. intros Hb. pose proof (lossy_size (length bs) bs). unfold lossy_text_bound, decoded, from_utf8_lossy. lia. Qed.

Lemma text_size_app a b : text_size (a ++ b) = text_size a + text_size b.
Proof. unfold text_size. induction a as [|p a IH]; cbn; lia. Qed.
Lemma record_count_app a b : record_count (a ++ b) = record_count a + record_count b.
Proof. unfold record_count. induction a as [|[] a IH]; cbn; lia. Qed.

(** ** What is charged covers what is read *)

Section Charges.
Context (l : Limits).
Context (Htext : 0 ≤ max_color_profile_text_bytes l < 2 ^ 62).
Context (Hrecords : 0 ≤ max_color_profile_text_records l < 2 ^ 62).

Definition within (c : Charges) : Prop :=
  0 ≤ text c ≤ max_color_profile_text_bytes l ∧ 0 ≤ records c ≤ max_color_profile_text_records l.
Record charged (c : Charges) (ts : list Payload) (c' : Charges) : Prop := {
  charged_text : text c + text_size ts ≤ text c';
  charged_records : records c + record_count ts ≤ records c';
  charged_within : within c';
}.

Lemma charged_nil c : within c → charged c [] c.
Proof using. split; cbn; [lia..|done]. Qed.

Lemma charged_app c1 c2 c3 a b : charged c1 a c2 → charged c2 b c3 → charged c1 (a ++ b) c3.
Proof using.
  intros [H1 H2 H3] [H4 H5 H6]. split; [rewrite text_size_app; lia | rewrite record_count_app; lia | done].
Qed.

Lemma wp_charge_text d c Q :
  within c → 0 ≤ d →
  (∀ c', text c' = text c + d → records c' = records c → within c' → Q c') →
  wp (charge_icc_text_bytes l d c) Q.
Proof using.
  intros [Ht Hr] Hd HQ. unfold charge_icc_text_bytes. do 2 wp_step.
  match goal with H : checked_add _ _ _ = Some _ |- _ => apply checked_add_Some in H as [-> _] end.
  do 3 wp_step. apply HQ; [done..|]. split; cbn; lia.
Qed.

Lemma wp_count_record c Q :
  within c → (∀ c', text c' = text c → records c' = records c + 1 → within c' → Q c') →
  wp (count_record l c) Q.
Proof using Hrecords.
  intros [Ht Hr] HQ. unfold count_record. do 3 wp_step. apply HQ; cbn; [done|lia|]. split; cbn; lia.
Qed.

Lemma wp_charge_record tag offset length c Q :
  within c → 0 ≤ offset < 2 ^ 32 → 0 ≤ length < 2 ^ 32 →
  (blen tag < offset + length → Q (false, c)) →
  (∀ c', offset + length ≤ blen tag →
     charged c [Utf16 (range tag offset (offset + length))] c' → Q (true, c')) →
  wp (charge_icc_record l tag offset length c) Q.
Proof using Hrecords.
  intros Hw Ho Hl Hf Ht. unfold charge_icc_record, checked_add.
  rewrite (proj2 (Z.ltb_lt _ _)) by lia. wp_step; [wp_step; auto|].
  wp_step. apply wp_count_record; [done|]. intros c1 Ht1 Hr1 Hw1. wp_step.
  apply wp_charge_text; [done|unfold utf16_text_bound; apply Z.div_pos; lia|].
  intros c2 Ht2 Hr2 Hw2. wp_step. apply Ht; [done|].
  pose proof (blen_range tag offset (offset + length)) as Hb.
  pose proof (utf16_bound (range tag offset (offset + length))) as Hd. rewrite Hb in Hd by lia.
  replace (offset + length - offset) with length in Hd by lia.
  split; cbn [text_size record_count foldr]; [lia..|done].
Qed.

Lemma wp_mluc_records fuel tag count r c Q :
  within c → 1 ≤ r → 0 ≤ count < 2 ^ 32 → blen tag < 2 ^ 62 →
  blen tag < Z.of_nat fuel * 12 + 12 * r + 16 → (1 ≤ fuel)%nat →
  (∀ c', charged c (records_from (Z.to_nat (count - r)) tag r) c' → Q c') →
  wp (mluc_records l fuel tag count r c) Q.
Proof using Hrecords.
  revert r c. induction fuel as [|fuel IH]; intros r c Hw Hr Hc Hb Hf Hf1 HQ; [lia|].
  cbn [mluc_records]. wp_step.
  2: { wp_step. apply HQ. replace (Z.to_nat (count - r)) with 0%nat by lia. by apply charged_nil. }
  replace (Z.to_nat (count - r)) with (S (Z.to_nat (count - (r + 1)))) in HQ by lia.
  cbn [records_from] in HQ. unfold saturating_sub, checked_add.
  rewrite (Z.max_r 0), (Z.min_r (2 ^ 64 - 1)), (proj2 (Z.ltb_lt _ _)) by lia.
  wp_step. apply wp_uadd; [lia|]. rewrite get_range_spec by lia. unfold record_payload in HQ.
  destruct (Z.leb_spec (28 + (r - 1) * 12 + 12) (blen tag)) as [Hle|Hgt].
  2: { rewrite (proj2 (Z.ltb_lt _ _)) in HQ by lia. wp_step. by apply HQ, charged_nil. }
  rewrite (proj2 (Z.ltb_ge _ _)) in HQ by lia.
  pose proof (blen_range tag (28 + (r - 1) * 12) (28 + (r - 1) * 12 + 12)) as Hh.
  wp_step. apply wp_be32; [lia|lia|]. intros Hoff. wp_step. apply wp_be32; [lia|lia|]. intros Hlen.
  rewrite !field_sub in * by lia.
  replace (28 + (r - 1) * 12 + 8) with (24 + r * 12) in * by lia.
  replace (28 + (r - 1) * 12 + 4) with (20 + r * 12) in * by lia.
  wp_step. apply wp_charge_record; [done..| |].
  - intros Hgt. rewrite (proj2 (Z.ltb_lt _ _)) in HQ by lia. by apply wp_Ok, HQ, charged_nil.
  - intros c' Hin Hch. rewrite (proj2 (Z.ltb_ge _ _)) in HQ by lia.
    apply IH; [apply Hch|lia..|]. intros c2 Hc2. apply HQ. by apply (charged_app _ c' _ [_]).
Qed.

Lemma wp_charge_mluc tag c Q :
  within c → blen tag < 2 ^ 62 → (∀ c', charged c (mluc_texts tag) c' → Q c') → wp (charge_mluc l tag c) Q.
Proof using Hrecords.
  intros Hw Hb HQ. unfold charge_mluc, mluc_texts in *.
  destruct (Z.ltb_spec (blen tag) 28); [wp_step; by apply HQ, charged_nil|].
  wp_step. apply wp_be32; [lia..|]. intros Hcount.
  wp_step. apply wp_be32; [lia..|]. intros Hoff. wp_step. apply wp_be32; [lia..|]. intros Hlen.
  replace (Z.to_nat (Z.max 1 (field 4 tag 8))) with (S (Z.to_nat (field 4 tag 8 - 1))) in HQ by lia.
  cbn [records_from] in HQ. unfold record_payload in HQ. rewrite (proj2 (Z.ltb_ge _ _)) in HQ by lia.
  change (24 + 0 * 12) with 24 in HQ. change (20 + 0 * 12) with 20 in HQ.
  wp_step. apply wp_charge_record; [done..| |].
  - intros Hgt. rewrite (proj2 (Z.ltb_lt _ _)) in HQ by lia. by apply wp_Ok, HQ, charged_nil.
  - intros c' Hin Hch. rewrite (proj2 (Z.ltb_ge _ _)) in HQ by lia.
    apply wp_mluc_records; [apply Hch|lia|lia|done|unfold blen; lia|lia|].
    intros c2 Hc2. apply HQ. by apply (charged_app _ c' _ [_]).
Qed.

Lemma wp_charge_desc tag c Q :
  within c → blen tag < 2 ^ 62 → (∀ c', charged c (desc_texts tag) c' → Q c') → wp (charge_desc l tag c) Q.
Proof using Hrecords.
  intros Hw Hb HQ. unfold charge_desc, desc_texts in *.
  destruct (Z.ltb_spec (blen tag) 12); [wp_step; by apply HQ, charged_nil|].
  wp_step. apply wp_be32; [lia..|]. intros Hascii. unfold checked_add.
  rewrite (proj2 (Z.ltb_lt (12 + _) _)) by lia.
  destruct (Z.ltb_spec (blen tag) (12 + field 4 tag 8)); [wp_step; by apply HQ, charged_nil|].
  set (e := 12 + field 4 tag 8) in *.
  wp_step. apply wp_charge_text; [done|unfold lossy_text_bound; lia|]. intros c1 Ht1 Hr1 Hw1.
  assert (charged c [LossyUtf8 (range tag 12 e)] c1) as Hc1.
  { pose proof (blen_range tag 12 e) as Hl. pose proof (lossy_bound (range tag 12 e)) as Hd.
    rewrite Hl in Hd by lia. replace (e - 12) with (field 4 tag 8) in Hd by lia.
    split; cbn [text_size record_count foldr]; [lia..|done]. }
  wp_step. apply wp_uadd; [lia|]. rewrite get_range_spec by lia.
  rewrite (Z.ltb_antisym (e + 8) (blen tag)) in HQ. destruct (Z.leb_spec (e + 8) (blen tag)) as [Hle|Hgt]; cbn [negb] in HQ.
  2: { wp_step. by apply HQ. }
  wp_step. apply wp_count_record; [done|]. intros c2 Ht2 Hr2 Hw2.
  pose proof (blen_range tag e (e + 8)) as Hh.
  wp_step. apply wp_be32; [lia|lia|]. intros Hunits. rewrite field_sub in * by lia.
  unfold checked_mul. rewrite (proj2 (Z.ltb_lt (_ * 2) _)) by lia. cbn [mbind option_bind].
  rewrite (proj2 (Z.ltb_lt (e + 8) _)) by lia. cbn [mbind option_bind]. rewrite (proj2 (Z.ltb_lt _ _)) by lia.
  set (n := field 4 tag (e + 4) * 2) in *.
  destruct (Z.ltb_spec (blen tag) (e + 8 + n)).
  { wp_step. apply HQ. destruct Hc1. split; [cbn in *; lia..|done]. }
  apply wp_charge_text; [done|unfold utf16_text_bound; apply Z.div_pos; lia|]. intros c3 Ht3 Hr3 Hw3.
  apply HQ. pose proof (blen_range tag (e + 8) (e + 8 + n)) as Hl.
  pose proof (utf16_bound (range tag (e + 8) (e + 8 + n))) as Hd. rewrite Hl in Hd by lia.
  replace (e + 8 + n - (e + 8)) with n in Hd by lia.
  apply (charged_app c c1 c3 [_] [_]); [done|]. split; cbn [text_size record_count foldr]; [lia..|done].
Qed.

(** A tag as the walk treats it. *)
Lemma wp_charge_tag tag c Q :
  within c → blen tag < 2 ^ 62 → (∀ c', charged c (tag_texts tag) c' → Q c') →
  wp (if is_text_tag tag then charge_icc_text l tag c else Ok c) Q.
Proof using Hrecords.
  intros Hw Hb HQ. unfold is_text_tag, ICC_TEXT_TYPES, tag_texts in *. cbn [existsb].
  assert (∀ k, length k = 4%nat → take 4 tag = k → 4 ≤ blen tag) as Hlen.
  { intros k Hk E. rewrite <- E, length_take in Hk. unfold blen. lia. }
  assert (take 4 tag = range tag 0 4) as Hr by done.
  assert (∀ k, length k = 4%nat → bool_decide (take 4 tag = k) = true → 4 ≤ blen tag) as Hlen'.
  { intros k Hk E%bool_decide_eq_true. by eapply Hlen. }
  unfold charge_icc_text.
  destruct (bool_decide (take 4 tag = bytes_of "mluc")) eqn:E1;
    [|destruct (bool_decide (take 4 tag = bytes_of "desc")) eqn:E2;
      [|destruct (bool_decide (take 4 tag = bytes_of "text")) eqn:E3]];
    cbn [orb]; [| | |wp_step; by apply HQ, charged_nil];
    (wp_step; apply wp_sub; [lia|by eapply Hlen'; [|eassumption]|]; rewrite <- Hr, ?E1, ?E2).
  - by apply wp_charge_mluc.
  - by apply wp_charge_desc.
  - assert (4 ≤ blen tag) by (by eapply Hlen'; [|eassumption]).
    apply wp_charge_text; [done|unfold lossy_text_bound, saturating_sub; lia|]. intros c' Ht' Hr' Hw'.
    apply HQ. pose proof (lossy_bound (drop 8 tag)) as Hd.
    assert (blen (drop 8 tag) = saturating_sub (blen tag) 8) as Hl.
    { unfold blen, saturating_sub. rewrite length_drop. lia. }
    rewrite Hl in Hd. unfold saturating_sub in *. split; cbn [text_size record_count foldr]; [lia..|done].
Qed.

(** Tag [i] lies in the profile. *)
Definition tag_inside (bytes : list byte) (i : Z) : Prop :=
  0 ≤ tag_start bytes i ≤ tag_end bytes i ∧ tag_end bytes i ≤ blen bytes.

Lemma wp_icc_tags n bytes i c Q :
  within c → 0 ≤ i → 132 + (i + Z.of_nat n) * 12 ≤ blen bytes → blen bytes < 2 ^ 62 →
  (∀ c', charged c (texts_from n bytes i) c' → (∀ j, i ≤ j < i + Z.of_nat n → tag_inside bytes j) → Q c') →
  wp (icc_tags l n bytes i c) Q.
Proof using Hrecords.
  revert i c. induction n as [|n IH]; intros i c Hw Hi Hn Hb HQ; cbn [icc_tags texts_from] in *.
  { wp_step. apply HQ; [by apply charged_nil|lia]. }
  unfold TAG_ENTRY_BYTES, HEADER_BYTES. do 2 wp_step. apply wp_umul; [lia|]. apply wp_uadd; [lia|].
  wp_step. unfold tag_range. do 2 wp_step. apply wp_uadd; [lia|]. apply wp_be32; [lia..|]. intros Hoff.
  do 2 wp_step. apply wp_uadd; [lia|]. apply wp_be32; [lia..|]. intros Hsize.
  replace (128 + 4 + i * 12 + 4) with (136 + i * 12) in * by lia.
  replace (128 + 4 + i * 12 + 8) with (140 + i * 12) in * by lia.
  wp_step. assert (∀ P : Z → Prop, (∀ e, e = tag_end bytes i → P e) → wp (if field 4 bytes (140 + i * 12) =? 0
      then Ok (blen bytes) else ok_or malformed (checked_add 64 (field 4 bytes (136 + i * 12)) (field 4 bytes (140 + i * 12)))) P) as Hend.
  { intros P HP. unfold tag_end, tag_start in HP. destruct (_ =? 0) eqn:E; [by apply wp_Ok, HP|].
    wp_step. apply HP. match goal with H : checked_add _ _ _ = Some _ |- _ => apply checked_add_Some in H as [-> _] end. done. }
  apply Hend. intros e He. do 4 wp_step.
  assert (tag_inside bytes i) as Hin.
  { unfold tag_inside. fold (tag_start bytes i) in *. rewrite He in *. unfold tag_end in *.
    destruct (_ =? 0) eqn:E; simp_bool; lia. }
  rewrite He. fold (tag_start bytes i). destruct Hin as [[Hs0 Hs1] Hs2].
  apply wp_sub; [lia..|]. fold (tag_bytes bytes i).
  wp_step. apply wp_charge_tag; [done| |].
  { unfold tag_bytes. rewrite blen_range by lia. lia. }
  intros c1 Hc1. apply IH; [apply Hc1|lia|lia|done|]. intros c2 Hc2 Hall.
  apply HQ; [by eapply charged_app|]. intros j Hj. destruct (decide (j = i)) as [->|]; [done|]. apply Hall. lia.
Qed.
End Charges.

Lemma wp_preflight bytes (Q : () → Prop) :
  blen bytes < 2 ^ 62 →
  (field 4 bytes 0 = blen bytes → tag_count bytes ≤ 64 → (∀ i, 0 ≤ i < tag_count bytes → tag_inside bytes i) →
   text_size (profile_texts bytes) ≤ 4 * 1024 * 1024 → record_count (profile_texts bytes) ≤ 1024 → Q ()) →
  wp (preflight_icc_profile default_limits bytes) Q.
Proof.
  intros Hb HQ. unfold preflight_icc_profile, HEADER_BYTES. do 2 wp_step.
  wp_step. apply wp_be32; [lia..|]. intros Hdecl. do 2 wp_step.
  wp_step. apply wp_be32; [lia..|]. intros Hcount. do 4 wp_step.
  fold (tag_count bytes) in *. cbn in *|-.
  match goal with H : (_ ← checked_mul _ _ _; _) = Some _ |- _ =>
    apply bind_Some in H as (m & [-> _]%checked_mul_Some & [-> _]%checked_add_Some) end.
  do 3 wp_step. unfold TAG_ENTRY_BYTES, HEADER_BYTES in *.
  apply wp_icc_tags; [cbn; lia|split; cbn; lia|lia|lia|done|].
  intros c' [Ht Hr [Hwt Hwr]] Hall. wp_step. cbn in Ht, Hr, Hwt, Hwr.
  apply HQ; [done..|intros i Hi; apply Hall; lia| |]; unfold profile_texts; lia.
Qed.

(** The preflight of any profile, of any declared sizes, ends without reading
    out of range or overflowing; and what it accepts declares its own length,
    has at most 64 tags, every one inside the profile, and reads as at most
    1024 localization records and 4 MiB of text, however many records share
    the same bytes. *)
Theorem icc_preflight_bounds bytes :
  blen bytes < 2 ^ 62 →
  wp (preflight_icc_profile default_limits bytes) (λ _,
    field 4 bytes 0 = blen bytes ∧ tag_count bytes ≤ 64 ∧
    (∀ i, 0 ≤ i < tag_count bytes → tag_inside bytes i) ∧
    text_size (profile_texts bytes) ≤ 4 * 1024 * 1024 ∧
    record_count (profile_texts bytes) ≤ 1024).
Proof. intros Hb. by apply wp_preflight. Qed.

(** A profile of one localized description. *)
Definition example_profile : list byte :=
  be_bytes 4 174 ++ repeat (to_u8 0) 124 ++ be_bytes 4 1 ++
  bytes_of "desc" ++ be_bytes 4 144 ++ be_bytes 4 30 ++
  bytes_of "mluc" ++ be_bytes 4 0 ++ be_bytes 4 1 ++ be_bytes 4 12 ++ bytes_of "enUS" ++
  be_bytes 4 2 ++ be_bytes 4 28 ++ be_bytes 2 65.

Lemma icc_preflight_bounds_witness :
  preflight_icc_profile default_limits example_profile = Ok tt ∧
  profile_texts example_profile = [Utf16 (be_bytes 2 65)] ∧
  text_size (profile_texts example_profile) ≤ 4 * 1024 * 1024.
Proof.
  split; [vm_compute; reflexivity|]. split; [vm_compute; reflexivity|].
  assert (blen example_profile < 2 ^ 62) as H by (vm_compute; reflexivity).
  pose proof (icc_preflight_bounds example_profile H) as Hwp.
  assert (preflight_icc_profile default_limits example_profile = Ok tt) as E by (vm_compute; reflexivity).
  rewrite E in Hwp. exact (proj1 (proj2 (proj2 (proj2 Hwp)))).
Defined.
