(* ===== verification/HeicPlist.v ===== *)
(** * HEIC property lists: the preflights ([src/dynamic_wallpaper/heic.rs])

    The walk over the object graph of a binary property list that runs before
    the library expands it.  The [while let] loop takes fuel; [expand] is given
    two turns more than the objects it may count, and [plist_preflight_sound]
    shows that this is enough. *)

From S2P Require Import Prelude Utf8 Heic.

Definition metadata_error (what : string) : Error := EMetadata what.

(** ** Big-endian integers of any width *)

Definition checked_range (start length end_ : Z) : result Error unit :=
  match checked_add 64 start length with
  | Some v => ensure (v <=? end_) (EMetadata "truncated property list object")
  | None => Err (EMetadata "truncated property list object")
  end.

(** [checked_shl(8)] keeps the low 64 bits. *)
Fixpoint read_be_loop (s : list byte) (value : Z) : result Error Z :=
  match s with
  | [] => Ok value
  | b :: s =>
    v ← ok_or (EMetadata "property list integer overflow")
          (checked_add 64 (value * 256 mod 2 ^ 64) (u8 b));
    read_be_loop s v
  end.
Definition read_be (bytes : list byte) (start length : Z) : result Error Z :=
  end_ ← ok_or (EMetadata "integer offset overflow") (checked_add 64 start length);
  s ← ok_or (EMetadata "truncated property list integer") (get_range bytes start end_);
  read_be_loop s 0.

(** ** Binary property lists *)

Section Binary.
Context (l : Limits).

Definition charge_expanded_bytes (total amount : Z) : result Error Z :=
  total ← ok_or (ELimit "expanded property list memory") (checked_add 64 total amount);
  _ ← ensure (total <=? max_expanded_plist_bytes l) (ELimit "expanded property list memory");
  Ok total.

(** The length of an object and where its payload starts. *)
Definition object_length (bytes : list byte) (object_offset info end_ : Z) : result Error (Z * Z) :=
  if info <? 15 then
    start ← uadd object_offset 1;
    Ok (info, start)
  else
    next ← uadd object_offset 1;
    _ ← checked_range next 1 end_;
    marker ← at_ bytes next;
    _ ← ensure (negb (negb (Z.shiftr marker 4 =? 1) || (3 <? Z.land marker 15)))
          (EMetadata "invalid extended object length");
    let width := Z.shiftl 1 (Z.land marker 15) in
    start ← uadd object_offset 2;
    length ← read_be bytes start width;
    _ ← checked_range start width end_;
    payload ← uadd start width;
    Ok (length, payload).

(** What the trailer says. *)
Record Trailer := mkTrailer {
  reference_size : Z;
  object_count : Z;
  root : Z;
  table_offset : Z;
  offsets : list Z;
}.

(** [for index in 0..object_count], from [index] on. *)
Fixpoint read_offsets (n : nat) (bytes : list byte) (table_offset offset_size index : Z) :
    result Error (list Z) :=
  match n with
  | O => Ok []
  | S n =>
    position ← (o ← umul index offset_size; uadd table_offset o);
    offset ← read_be bytes position offset_size;
    _ ← ensure ((8 <=? offset) && (offset <? table_offset)) (EMetadata "invalid object offset");
    rest ← read_offsets n bytes table_offset offset_size (index + 1);
    Ok (offset :: rest)
  end.

Definition read_trailer (bytes : list byte) : result Error Trailer :=
  _ ← ensure (negb ((blen bytes <? 40) || negb (bool_decide (take 8 bytes = bytes_of "bplist00"))))
        (EMetadata "property is not a binary property list");
  let trailer := blen bytes - 32 in
  offset_size ← (i ← uadd trailer 6; at_ bytes i);
  reference_size ← (i ← uadd trailer 7; at_ bytes i);
  _ ← ensure ((1 <=? offset_size) && (offset_size <=? 8) && (1 <=? reference_size) && (reference_size <=? 8))
        (EMetadata "invalid property list integer width");
  object_count ← (i ← uadd trailer 8; read_be bytes i 8);
  root ← (i ← uadd trailer 16; read_be bytes i 8);
  table_offset ← (i ← uadd trailer 24; read_be bytes i 8);
  _ ← ensure (negb ((object_count =? 0) || (max_plist_objects l <? object_count)))
        (ELimit "property list object count");
  _ ← ensure (root <? object_count) (EMetadata "invalid root object");
  table_bytes ← ok_or (EMetadata "invalid offset table") (checked_mul 64 object_count offset_size);
  _ ← ensure (negb ((table_offset <? 8)
                    || negb (bool_decide (checked_add 64 table_offset table_bytes = Some trailer))))
        (EMetadata "invalid offset table");
  offsets ← read_offsets (Z.to_nat object_count) bytes table_offset offset_size 0;
  Ok (mkTrailer reference_size object_count root table_offset offsets).

(** The walk's counters, and its stack: its last element is its head here. *)
Record Expansion := mkExpansion {
  expanded : Z;
  expanded_bytes : Z;
  stack : list (Z * Z);
}.

(** [for index in 0..reference_count]: the children, pushed one by one. *)
Fixpoint push_children (n : nat) (bytes : list byte) (t : Trailer) (start depth index : Z)
    (stack : list (Z * Z)) : result Error (list (Z * Z)) :=
  match n with
  | O => Ok stack
  | S n =>
    position ← (o ← umul index (reference_size t); uadd start o);
    child ← read_be bytes position (reference_size t);
    _ ← ensure (child <? object_count t) (EMetadata "invalid object reference");
    next ← uadd depth 1;
    push_children n bytes t start depth (index + 1) ((child, next) :: stack)
  end.

(** A collection: its references are in range, paid for, planned and pushed. *)
Definition expand_collection (bytes : list byte) (t : Trailer) (offset kind info depth : Z)
    (e : Expansion) : result Error Expansion :=
  '(length, start) ← object_length bytes offset info (table_offset t);
  reference_count ← (if kind =? 13 then ok_or (EMetadata "invalid dictionary") (checked_mul 64 length 2)
                     else Ok length);
  size ← ok_or (EMetadata "invalid reference list") (checked_mul 64 reference_count (reference_size t));
  _ ← checked_range start size (table_offset t);
  collection_bytes ← ok_or (ELimit "expanded property list memory") (checked_mul 64 reference_count 16);
  total ← charge_expanded_bytes (expanded_bytes e) collection_bytes;
  planned ← ok_or (ELimit "expanded property list object count")
              (n ← checked_add 64 (expanded e) (blen (stack e)); checked_add 64 n reference_count);
  _ ← ensure (planned <=? max_expanded_plist_objects l) (ELimit "expanded property list object count");
  stack ← push_children (Z.to_nat reference_count) bytes t start depth 0 (stack e);
  Ok (mkExpansion (expanded e) total stack).

(** Data and strings. *)
Definition expand_data (bytes : list byte) (t : Trailer) (offset kind info : Z) (e : Expansion) :
    result Error Expansion :=
  '(length, start) ← object_length bytes offset info (table_offset t);
  size ← ok_or (EMetadata "invalid data object") (checked_mul 64 length (if kind =? 6 then 2 else 1));
  _ ← checked_range start size (table_offset t);
  expanded_size ← ok_or (ELimit "expanded property list memory")
                    (if kind =? 6 then checked_mul 64 length 3 else Some length);
  total ← charge_expanded_bytes (expanded_bytes e) expanded_size;
  Ok (mkExpansion (expanded e) total (stack e)).

(** An object popped from the stack.  [1usize.checked_shl(info)] is defined
    for the four bits of [info]. *)
Definition expand_object (bytes : list byte) (t : Trailer) (reference depth : Z) (e : Expansion) :
    result Error Expansion :=
  offset ← ok_or Panic (offsets t !! Z.to_nat reference);
  marker ← at_ bytes offset;
  let kind := Z.shiftr marker 4 in
  let info := Z.land marker 15 in
  if kind =? 0 then
    _ ← ensure ((info =? 0) || (info =? 8) || (info =? 9)) (EMetadata "unsupported property list primitive");
    Ok e
  else if (kind =? 1) || (kind =? 2) then
    p ← uadd offset 1;
    _ ← checked_range p (Z.shiftl 1 info) (table_offset t);
    Ok e
  else if kind =? 3 then
    _ ← ensure (info =? 3) (EMetadata "invalid date object");
    p ← uadd offset 1;
    _ ← checked_range p 8 (table_offset t);
    Ok e
  else if (4 <=? kind) && (kind <=? 6) then expand_data bytes t offset kind info e
  else if kind =? 8 then
    size ← uadd info 1;
    p ← uadd offset 1;
    _ ← checked_range p size (table_offset t);
    Ok e
  else if (kind =? 10) || (kind =? 12) || (kind =? 13) then
    expand_collection bytes t offset kind info depth e
  else Err (EMetadata "unsupported property list object").

(** [while let Some((reference, depth)) = stack.pop()]. *)
Fixpoint expand (fuel : nat) (bytes : list byte) (t : Trailer) (e : Expansion) : result Error Expansion :=
  match fuel with
  | O => Err Fuel
  | S fuel =>
    match stack e with
    | [] => Ok e
    | (reference, depth) :: rest =>
      n ← uadd (expanded e) 1;
      _ ← ensure (n <=? max_expanded_plist_objects l) (ELimit "expanded property list object count");
      total ← charge_expanded_bytes (expanded_bytes e) 64;
      _ ← ensure (depth <=? max_plist_depth l) (ELimit "property list nesting depth");
      e ← expand_object bytes t reference depth (mkExpansion n total rest);
      expand fuel bytes t e
    end
  end.

(** A turn more than the objects that may be expanded, and the last. *)
Definition preflight_binary_plist (bytes : list byte) : result Error unit :=
  t ← read_trailer bytes;
  _ ← expand (Z.to_nat (max_expanded_plist_objects l) + 2) bytes t (mkExpansion 0 0 [(root t, 1)]);
  Ok tt.
End Binary.
