(* ===== verification/HeicPlistProofs.v ===== *)
(** * HEIC property lists: proofs

    What an accepted binary property list expands to: a finite tree within the
    budgets, although its objects may be shared and its references may form any
    graph. *)

From S2P Require Import Prelude Utf8 Heic HeicPlist.

(** ** The expansion of an object graph *)

Section Spec.
Context (bytes : list byte) (t : Trailer).

Definition object_offset (r : Z) : Z := default 0 (offsets t !! Z.to_nat r).
Definition object_kind (r : Z) : Z := Z.shiftr (field 1 bytes (object_offset r)) 4.
Definition object_info (r : Z) : Z := Z.land (field 1 bytes (object_offset r)) 15.
(** The declared length and the payload's position. *)
Definition object_payload (r : Z) : Z * Z :=
  match object_length bytes (object_offset r) (object_info r) (table_offset t) with
  | Ok p => p
  | Err _ => (0, 0)
  end.

Definition is_collection (r : Z) : bool :=
  (object_kind r =? 10) || (object_kind r =? 12) || (object_kind r =? 13).
Definition is_data (r : Z) : bool := (4 <=? object_kind r) && (object_kind r <=? 6).

(** The objects that an object holds, in order. *)
Fixpoint references (n : nat) (start index : Z) : list Z :=
  match n with
  | O => []
  | S n => field (reference_size t) bytes (start + index * reference_size t) :: references n start (index + 1)
  end.
Definition children (r : Z) : list Z :=
  if is_collection r then
    let '(length, start) := object_payload r in
    let count := if object_kind r =? 13 then length * 2 else length in
    references (Z.to_nat count) start 0
  else [].

(** What it costs beside its own value: its text or data, its references. *)
Definition object_cost (r : Z) : Z :=
  if is_collection r then 16 * Z.of_nat (length (children r))
  else if is_data r then (if object_kind r =? 6 then (object_payload r).1 * 3 else (object_payload r).1)
  else 0.

Inductive Tree := Node (r : Z) (kids : list Tree).

Inductive expands : Z → Tree → Prop :=
| expands_node r kids : Forall2 expands (children r) kids → expands r (Node r kids).

Fixpoint tree_size (x : Tree) : Z :=
  let '(Node _ kids) := x in 1 + foldr (λ k n, tree_size k + n) 0 kids.
Fixpoint tree_height (x : Tree) : Z :=
  let '(Node _ kids) := x in 1 + foldr (λ k n, Z.max (tree_height k) n) 0 kids.
Fixpoint tree_memory (x : Tree) : Z :=
  let '(Node r kids) := x in 64 + object_cost r + foldr (λ k n, tree_memory k + n) 0 kids.

Definition total (f : Tree → Z) (xs : list Tree) : Z := foldr (λ k n, f k + n) 0 xs.
Lemma total_app f xs ys : total f (xs ++ ys) = total f xs + total f ys.
Proof using. unfold total. induction xs as [|x xs IH]; cbn; lia. Qed.
Lemma total_reverse f xs : total f (reverse xs) = total f xs.
Proof using.
  induction xs as [|x xs IH]; [done|]. rewrite reverse_cons, total_app, IH. unfold total. cbn. lia.
Qed.
Lemma tree_height_pos x : 1 ≤ tree_height x.
Proof using.
  destruct x as [r kids]. cbn. assert (0 ≤ foldr (λ k n, Z.max (tree_height k) n) 0 kids); [|lia].
  induction kids as [|k kids IH]; cbn [foldr]; lia.
Qed.
End Spec.

(** ** Reading integers *)

Lemma read_be_loop_value s v : 0 ≤ v → (v + 1) * 256 ^ Z.of_nat (length s) ≤ 2 ^ 64 →
  read_be_loop s v = Ok (v * 256 ^ Z.of_nat (length s) + be_value s).
Proof.
  revert v. induction s as [|b s IH]; intros v Hv Hb; cbn [read_be_loop].
  { unfold be_value. cbn. f_equal. lia. }
  rewrite be_value_cons. rewrite length_cons, Nat2Z.inj_succ, Z.pow_succ_r in * by lia.
  pose proof (u8_range b). assert (1 ≤ 256 ^ Z.of_nat (length s)) by (apply (Z.pow_le_mono_r 256 0); lia).
  rewrite Z.mod_small by nia. unfold checked_add. rewrite (proj2 (Z.ltb_lt _ _)) by nia.
  cbn [mbind result_bind ok_or]. rewrite IH by nia. f_equal. lia.
Qed.

Lemma wp_read_be bytes start length (Q : Z → Prop) :
  0 ≤ start → 0 ≤ length ≤ 8 →
  (start + length ≤ blen bytes → 0 ≤ field length bytes start < 256 ^ length → Q (field length bytes start)) →
  wp (read_be bytes start length) Q.
Proof.
  intros Hs Hl HQ. unfold read_be. do 2 wp_step.
  match goal with H : checked_add _ _ _ = Some _ |- _ => apply checked_add_Some in H as [-> _] end.
  do 2 wp_step. match goal with H : get_range _ _ _ = Some _ |- _ => rename H into Hg end.
  rewrite get_range_spec in Hg by lia. destruct (Z.leb_spec (start + length) (blen bytes)); [|done].
  injection Hg as <-. pose proof (blen_range bytes start (start + length)) as Hb. unfold blen in Hb.
  replace (start + length - start) with length in Hb by lia.
  rewrite read_be_loop_value; [|lia|].
  - apply wp_Ok. rewrite Z.mul_0_l, Z.add_0_l. apply HQ; [lia|]. apply field_range; lia.
  - rewrite Hb by (unfold blen in *; lia). change (2 ^ 64) with (256 ^ 8). rewrite Z.mul_1_l.
    apply Z.pow_le_mono_r; lia.
Qed.

Lemma wp_checked_range start length end_ (Q : unit → Prop) :
  (start + length ≤ end_ → Q tt) → wp (checked_range start length end_) Q.
Proof.
  intros HQ. unfold checked_range, checked_add. destruct (_ <? _); [|wp_step].
  apply wp_ensure; [done..|]. rewrite Z.leb_le. auto.
Qed.

Lemma low_bits x k : 0 ≤ k → 0 ≤ Z.land x (2 ^ k - 1) < 2 ^ k.
Proof.
  intros Hk. replace (2 ^ k - 1) with (Z.ones k) by (rewrite Z.ones_equiv; lia).
  rewrite Z.land_ones by done. apply Z.mod_pos_bound. lia.
Qed.

(** ** The walk *)

Section Walk.
Context (l : Limits).
Context (Hbytes : 0 ≤ max_expanded_plist_bytes l < 2 ^ 62).
Context (Hobjects : 0 ≤ max_expanded_plist_objects l < 2 ^ 62).
Context (Hdepth : 0 ≤ max_plist_depth l < 2 ^ 62).
Context (bytes : list byte) (Hlen : blen bytes < 2 ^ 62).

Lemma wp_charge total amount Q :
  (total + amount ≤ max_expanded_plist_bytes l → Q (total + amount)) →
  wp (charge_expanded_bytes l total amount) Q.
Proof using.
  intros HQ. unfold charge_expanded_bytes. do 2 wp_step.
  match goal with H : checked_add _ _ _ = Some _ |- _ => apply checked_add_Some in H as [-> _] end.
  do 3 wp_step. by apply HQ.
Qed.

Lemma wp_object_length offset info end_ Q :
  0 ≤ offset < end_ → end_ ≤ blen bytes → 0 ≤ info < 16 →
  (∀ length start, object_length bytes offset info end_ = Ok (length, start) →
     0 ≤ length < 2 ^ 64 → offset < start ≤ end_ + 16 → Q (length, start)) →
  wp (object_length bytes offset info end_) Q.
Proof using Hlen.
  intros Ho He Hi HQ. apply (wp_mono _ (λ p, object_length bytes offset info end_ = Ok p ∧
    0 ≤ p.1 < 2 ^ 64 ∧ offset < p.2 ≤ end_ + 16)); [|intros [a b] (? & ? & ?); by apply HQ].
  apply wp_and. unfold object_length. wp_step.
  { wp_step. apply wp_uadd; [lia|]. wp_step. cbn. lia. }
  wp_step. apply wp_uadd; [lia|]. wp_step. apply wp_checked_range. intros Hr0.
  wp_step. apply wp_at; [lia|]. intros marker Hm _. do 2 wp_step.
  pose proof (low_bits marker 4) as Hlow. change (2 ^ 4 - 1) with 15 in Hlow. change (2 ^ 4) with 16 in Hlow.
  assert (1 ≤ Z.shiftl 1 (Z.land marker 15) ≤ 8) as Hw.
  { rewrite Z.shiftl_mul_pow2 by lia. assert (Z.land marker 15 ≤ 3) by lia.
    pose proof (Z.pow_le_mono_r 2 0 (Z.land marker 15)). pose proof (Z.pow_le_mono_r 2 (Z.land marker 15) 3). lia. }
  wp_step. apply wp_uadd; [lia|]. wp_step. apply wp_read_be; [lia|lia|]. intros Hr1 Hr2.
  wp_step. apply wp_checked_range. intros Hr3. wp_step. apply wp_uadd; [lia|]. wp_step. cbn.
  pose proof (Z.pow_le_mono_r 256 (Z.shiftl 1 (Z.land marker 15)) 8). change (256 ^ 8) with (2 ^ 64) in *. lia.
Qed.

Record trailer_ok (t : Trailer) : Prop := {
  ok_reference_size : 1 ≤ reference_size t ≤ 8;
  ok_root : 0 ≤ root t < object_count t;
  ok_offsets : Z.of_nat (length (offsets t)) = object_count t;
  ok_inside : Forall (λ o, 8 ≤ o < table_offset t) (offsets t);
  ok_table : table_offset t + 32 ≤ blen bytes;
}.

Section Trailer.
Context (t : Trailer) (Ht : trailer_ok t).
Local Abbreviation valid := (λ r, 0 ≤ r < object_count t).

Lemma wp_push_children n start depth index st Q :
  0 ≤ start → 0 ≤ index → 0 ≤ depth < 2 ^ 62 →
  start + (index + Z.of_nat n) * reference_size t ≤ blen bytes →
  (Forall valid (references bytes t n start index) →
   Q (reverse ((λ r, (r, depth + 1)) <$> references bytes t n start index) ++ st)) →
  wp (push_children n bytes t start depth index st) Q.
Proof using Hlen Ht.
  destruct Ht as [Hrs _ _ _ _].
  revert index st Q. induction n as [|n IH]; intros index st Q Hs Hi Hd Hb HQ; cbn [push_children references] in *.
  { wp_step. by apply HQ. }
  do 2 wp_step. apply wp_umul; [nia|]. apply wp_uadd; [nia|].
  wp_step. apply wp_read_be; [nia|lia|]. intros Hr Hv. do 2 wp_step. wp_step. apply wp_uadd; [lia|].
  apply IH; [lia..|nia|]. intros Hall. rewrite fmap_cons, reverse_cons, <- app_assoc in HQ.
  apply HQ. constructor; [lia|done].
Qed.

Lemma offset_of r : valid r → ∃ o, offsets t !! Z.to_nat r = Some o ∧ object_offset t r = o ∧ 8 ≤ o < table_offset t.
Proof using Ht.
  destruct Ht as [_ _ Hl Hin _]. intros Hr.
  destruct (lookup_lt_is_Some_2 (offsets t) (Z.to_nat r)) as [o Ho]; [lia|].
  exists o. unfold object_offset. rewrite Ho. split; [done|]. split; [done|].
  rewrite Forall_lookup in Hin. by apply (Hin _ _ Ho).
Qed.

(** What expanding an object adds. *)
Definition expanded_to (r depth : Z) (e e' : Expansion) : Prop :=
  expanded e' = expanded e ∧
  expanded_bytes e' = expanded_bytes e + object_cost bytes t r ∧
  expanded_bytes e ≤ expanded_bytes e' ≤ Z.max (expanded_bytes e) (max_expanded_plist_bytes l) ∧
  Forall valid (children bytes t r) ∧
  stack e' = reverse ((λ c, (c, depth + 1)) <$> children bytes t r) ++ stack e.

Lemma wp_expand_collection r depth e Q :
  valid r → is_collection bytes t r = true → 0 ≤ depth < 2 ^ 62 →
  (∀ e', expanded_to r depth e e' → Q e') →
  wp (expand_collection l bytes t (object_offset t r) (object_kind bytes t r) (object_info bytes t r) depth e) Q.
Proof using Hbytes Hlen Ht.
  intros Hr Hk Hd HQ. destruct (offset_of r Hr) as (o & _ & Eo & Ho). rewrite Eo.
  pose proof (ok_table t Ht). pose proof (ok_reference_size t Ht).
  unfold expand_collection. wp_step.
  apply wp_object_length; [lia|lia|apply (low_bits _ 4); lia|]. intros length start El Hl Hst. cbn beta iota.
  wp_step. assert (∀ P : Z → Prop, (∀ c, c = (if object_kind bytes t r =? 13 then length * 2 else length) → P c) →
    wp (if object_kind bytes t r =? 13 then ok_or (EMetadata "invalid dictionary") (checked_mul 64 length 2)
        else Ok length) P) as Hcount.
  { intros P HP. destruct (_ =? 13); [|by apply wp_Ok, HP]. wp_step.
    match goal with H : checked_mul _ _ _ = Some _ |- _ => apply checked_mul_Some in H as [-> _] end. by apply HP. }
  apply Hcount. intros count Ecount. do 2 wp_step.
  match goal with H : checked_mul _ _ _ = Some _ |- _ => apply checked_mul_Some in H as [-> _] end.
  wp_step. apply wp_checked_range. intros Hrange. do 2 wp_step.
  match goal with H : checked_mul _ _ 16 = Some _ |- _ => apply checked_mul_Some in H as [-> _] end.
  wp_step. apply wp_charge. intros Hmem. do 4 wp_step.
  assert (0 ≤ count) by (subst count; destruct (_ =? 13); lia).
  assert (children bytes t r = references bytes t (Z.to_nat count) start 0) as Ech.
  { unfold children. rewrite Hk. unfold object_payload. rewrite Eo, El, <- Ecount. done. }
  wp_step. apply wp_push_children; [lia|lia|lia| |].
  { rewrite Z2Nat.id by lia. nia. }
  rewrite <- Ech. intros Hall. wp_step. apply HQ. split; [done|]. cbn.
  assert (object_cost bytes t r = count * 16) as Ecost.
  { unfold object_cost. rewrite Hk, Ech.
    assert (∀ n i, Datatypes.length (references bytes t n start i) = n) as -> by (induction n; cbn; auto). lia. }
  rewrite Ecost. split; [done|]. split; [lia|]. done.
Qed.

Lemma wp_expand_data r depth e Q :
  valid r → is_data bytes t r = true → is_collection bytes t r = false →
  (∀ e', expanded_to r depth e e' → Q e') →
  wp (expand_data l bytes t (object_offset t r) (object_kind bytes t r) (object_info bytes t r) e) Q.
Proof using Hbytes Hlen Ht.
  intros Hr Hk Hc HQ. destruct (offset_of r Hr) as (o & _ & Eo & Ho). rewrite Eo.
  pose proof (ok_table t Ht). unfold expand_data. wp_step.
  apply wp_object_length; [lia|lia|apply (low_bits _ 4); lia|]. intros length start El Hl Hst. cbn beta iota.
  do 2 wp_step. wp_step. apply wp_checked_range. intros _. do 2 wp_step. wp_step. apply wp_charge. intros Hmem.
  wp_step. apply HQ. split; [done|]. cbn.
  assert (object_payload bytes t r = (length, start)) as Ep by (unfold object_payload; by rewrite Eo, El).
  assert (0 ≤ x0).
  { destruct (object_kind bytes t r =? 6); [|simplify_eq; lia].
    match goal with H : checked_mul _ _ 3 = Some _ |- _ => apply checked_mul_Some in H as [-> _] end. lia. }
  assert (object_cost bytes t r = x0) as ->.
  { unfold object_cost. rewrite Hc, Hk, Ep. cbn [fst]. destruct (object_kind bytes t r =? 6).
    - match goal with H : checked_mul _ _ 3 = Some _ |- _ => apply checked_mul_Some in H as [-> _] end. done.
    - congruence. }
  split; [done|]. split; [lia|]. unfold children. rewrite Hc. by split; [constructor|].
Qed.

Lemma leaf r depth e :
  is_collection bytes t r = false → is_data bytes t r = false → expanded_to r depth e e.
Proof using.
  intros Hc Hd. unfold expanded_to, object_cost, children. rewrite Hc, Hd.
  split; [done|]. split; [lia|]. split; [lia|]. by split; [constructor|].
Qed.

Lemma wp_expand_object r depth e Q :
  valid r → 0 ≤ depth < 2 ^ 62 → (∀ e', expanded_to r depth e e' → Q e') →
  wp (expand_object l bytes t r depth e) Q.
Proof using Hbytes Hlen Ht.
  intros Hr Hd HQ. destruct (offset_of r Hr) as (o & Hl & Eo & Ho). pose proof (ok_table t Ht).
  unfold expand_object. rewrite Hl. cbn [ok_or mbind result_bind]. wp_step. apply wp_at; [lia|].
  intros marker Hm ->. rewrite <- Eo. fold (object_kind bytes t r) (object_info bytes t r).
  assert (is_collection bytes t r = false → is_data bytes t r = false → wp (Ok e) Q) as Hleaf.
  { intros. by apply wp_Ok, HQ, leaf. }
  assert (is_data bytes t r = (4 <=? object_kind bytes t r) && (object_kind bytes t r <=? 6)) as Ed by done.
  assert (is_collection bytes t r = (object_kind bytes t r =? 10) || (object_kind bytes t r =? 12) || (object_kind bytes t r =? 13)) as Ec by done.
  assert (0 ≤ object_info bytes t r < 16) as Hi by (apply (low_bits _ 4); lia).
  set (kind := object_kind bytes t r) in *. set (info := object_info bytes t r) in *.
  rewrite <- Ed. rewrite <- Ec.
  destruct (kind =? 0) eqn:E0; [do 2 wp_step; apply Hleaf; rewrite ?Ec, ?Ed; lia|].
  destruct ((kind =? 1) || (kind =? 2)) eqn:E12.
  { wp_step. apply wp_uadd; [lia|]. wp_step. apply wp_checked_range. intros _. apply Hleaf; rewrite ?Ec, ?Ed; lia. }
  destruct (kind =? 3) eqn:E3.
  { do 2 wp_step. wp_step. apply wp_uadd; [lia|]. wp_step. apply wp_checked_range. intros _. apply Hleaf; rewrite ?Ec, ?Ed; lia. }
  destruct (is_data bytes t r) eqn:E46.
  { apply (wp_expand_data r depth e Q); [done|done|rewrite Ec; lia|done]. }
  destruct (kind =? 8) eqn:E8.
  { wp_step. apply wp_uadd; [lia|]. wp_step. apply wp_uadd; [lia|]. wp_step. apply wp_checked_range.
    intros _. apply Hleaf; [rewrite Ec; lia|done]. }
  destruct (is_collection bytes t r) eqn:Ecoll; [|wp_step].
  by apply wp_expand_collection.
Qed.

(** The trees of the objects on the stack. *)
Definition unfolds (d : Z * Z) (x : Tree) : Prop :=
  expands bytes t d.1 x ∧ d.2 + tree_height x ≤ max_plist_depth l + 1.

Lemma wp_expand fuel e Q :
  Forall (λ d, valid d.1 ∧ 1 ≤ d.2 ≤ max_plist_depth l + 1) (stack e) →
  0 ≤ expanded e ≤ max_expanded_plist_objects l → 0 ≤ expanded_bytes e ≤ max_expanded_plist_bytes l →
  max_expanded_plist_objects l - expanded e + 1 < Z.of_nat fuel →
  (∀ e' xs, Forall2 unfolds (stack e) xs →
     expanded e + total tree_size xs ≤ max_expanded_plist_objects l →
     expanded_bytes e + total (tree_memory bytes t) xs ≤ max_expanded_plist_bytes l → Q e') →
  wp (expand l fuel bytes t e) Q.
Proof using Hbytes Hdepth Hlen Hobjects Ht.
  revert e Q. induction fuel as [|fuel IH]; intros e Q Hst He Hb Hf HQ; [lia|]. cbn [expand].
  destruct (stack e) as [|[r d] rest] eqn:Es.
  { apply wp_Ok, (HQ e []); [constructor|cbn; lia..]. }
  apply Forall_cons in Hst as [[Hr Hd] Hrest]. cbn [fst snd] in *.
  wp_step. apply wp_uadd; [lia|]. do 2 wp_step. wp_step. apply wp_charge. intros Hm. do 2 wp_step.
  wp_step. apply wp_expand_object; [done|lia|]. intros e1 (E1 & E2 & E3 & Hall & E4). cbn in E1, E2, E3, E4.
  assert (Forall (λ d, valid d.1 ∧ 1 ≤ d.2 ≤ max_plist_depth l + 1) (stack e1)) as Hst1.
  { rewrite E4. apply Forall_app. split; [|done]. apply Forall_reverse, Forall_fmap.
    eapply Forall_impl; [exact Hall|]. cbn. lia. }
  apply IH; [done|lia| |lia|].
  { lia. }
  intros e2 xs Hxs Hsize Hmem. rewrite E4 in Hxs. apply Forall2_app_inv_l in Hxs as (ks & zs & Hks & Hzs & ->).
  apply Forall2_reverse in Hks. rewrite reverse_involutive, Forall2_fmap_l in Hks.
  set (kids := reverse ks) in *. rewrite !total_app in *.
  assert (total tree_size ks = total tree_size kids ∧
    total (tree_memory bytes t) ks = total (tree_memory bytes t) kids) as [Et1 Et2].
  { unfold kids. by rewrite !total_reverse. }
  apply (HQ e2 (Node r kids :: zs)).
  - constructor; [|done]. split; cbn [fst snd].
    + constructor. eapply Forall2_impl; [exact Hks|]. by intros ? ? [? _].
    + cbn [tree_height]. enough (foldr (λ k n, Z.max (tree_height k) n) 0 kids ≤ max_plist_depth l - d) by lia.
      clear -Hks Hdepth H0 . assert (0 ≤ max_plist_depth l - d) by lia.
      induction Hks as [|c k cs kids [_ Hk] _ IHk]; cbn in *; lia.
  - cbn [total foldr tree_size]. fold (total tree_size kids) (total tree_size zs). lia.
  - cbn [total foldr tree_memory].
    fold (total (tree_memory bytes t) kids) (total (tree_memory bytes t) zs). lia.
Qed.
End Trailer.

Lemma wp_read_offsets n table size index Q :
  0 ≤ table → 0 ≤ index → 1 ≤ size ≤ 8 → table + (index + Z.of_nat n) * size ≤ blen bytes →
  (∀ os, length os = n → Forall (λ o, 8 ≤ o < table) os → Q os) →
  wp (read_offsets n bytes table size index) Q.
Proof using Hlen.
  revert index Q. induction n as [|n IH]; intros index Q Ht Hi Hs Hb HQ; cbn [read_offsets].
  { apply wp_Ok, HQ; [done|constructor]. }
  do 2 wp_step. apply wp_umul; [nia|]. apply wp_uadd; [nia|].
  wp_step. apply wp_read_be; [nia|lia|]. intros _ _. do 2 wp_step. wp_step.
  apply IH; [lia..|]. intros os Hl Hf. wp_step. apply HQ; [cbn; lia | by constructor].
Qed.

Lemma wp_read_trailer Q :
  (∀ t, trailer_ok t → read_trailer l bytes = Ok t → Q t) → wp (read_trailer l bytes) Q.
Proof using Hlen.
  intros HQ. apply (wp_mono _ (λ t, read_trailer l bytes = Ok t ∧ trailer_ok t)); [|intros t [? ?]; by apply HQ].
  apply wp_and. unfold read_trailer. do 2 wp_step.
  do 2 wp_step. apply wp_uadd; [lia|]. apply wp_at; [lia|]. intros osz _ _.
  do 2 wp_step. apply wp_uadd; [lia|]. apply wp_at; [lia|]. intros rsz _ _. do 2 wp_step.
  do 2 wp_step. apply wp_uadd; [lia|]. apply wp_read_be; [lia..|]. intros _ Hcount.
  do 2 wp_step. apply wp_uadd; [lia|]. apply wp_read_be; [lia..|]. intros _ Hroot.
  do 2 wp_step. apply wp_uadd; [lia|]. apply wp_read_be; [lia..|]. intros _ Htable.
  do 6 wp_step. do 2 wp_step.
  match goal with H : checked_mul _ _ _ = Some _ |- _ => apply checked_mul_Some in H as [-> _] end.
  match goal with H : checked_add _ _ _ = Some _ |- _ => apply checked_add_Some in H as [Hsum _] end.
  wp_step. apply wp_read_offsets; [lia|lia|lia| |].
  { rewrite Z2Nat.id by lia. lia. }
  intros os Hl Hf. wp_step. split; cbn; [lia|lia|lia|done|nia].
Qed.
End Walk.

(** C38.  The preflight of any bytes ends without reading out of range, overflowing
    or running out of its bound on turns; and what it accepts unfolds, from the
    root along the references, into a finite tree of at most 4096 objects,
    nested at most 32 deep, whose values, texts and references take at most
    16 MiB.  So a graph with a cycle, or one whose sharing explodes, is
    refused. *)
Theorem plist_preflight_sound bytes :
  blen bytes < 2 ^ 62 →
  wp (preflight_binary_plist default_limits bytes) (λ _, ∃ t x,
    read_trailer default_limits bytes = Ok t ∧ expands bytes t (root t) x ∧
    tree_size x ≤ 4096 ∧ tree_height x ≤ 32 ∧ tree_memory bytes t x ≤ 16 * 1024 * 1024).
Proof.
  intros Hb. unfold preflight_binary_plist. wp_step. apply wp_read_trailer; [done|].
  intros t Ht Et. pose proof (ok_root _ _ Ht). wp_step.
  apply wp_expand; [cbn; lia..|done|done| |cbn; lia|cbn; lia|cbn; lia|].
  { constructor; [|constructor]. cbn. lia. }
  intros e' xs Hxs Hsize Hmem. wp_step. cbn [stack] in Hxs.
  apply Forall2_cons_inv_l in Hxs as (x & ys & [Hx Hh] & Hys & ->). apply Forall2_nil_inv_l in Hys as ->.
  cbn in Hsize, Hmem, Hh, Hx. exists t, x. split; [done|]. split; [done|].
  change (foldr _ 0 []) with 0 in *. lia.
Qed.

(** The property list [{"i": [7, 7]}], whose number is shared, and one whose
    array holds itself. *)
Definition plist_trailer (count table : Z) : list byte :=
  repeat (to_u8 0) 6 ++ [to_u8 1; to_u8 1] ++ be_bytes 8 count ++ be_bytes 8 0 ++ be_bytes 8 table.
Definition shared_plist : list byte :=
  bytes_of "bplist00" ++ [to_u8 209; to_u8 1; to_u8 2] ++ [to_u8 81] ++ bytes_of "i" ++
  [to_u8 162; to_u8 3; to_u8 3] ++ [to_u8 16; to_u8 7] ++
  [to_u8 8; to_u8 11; to_u8 13; to_u8 16] ++ plist_trailer 4 18.
Definition cyclic_plist : list byte :=
  bytes_of "bplist00" ++ [to_u8 161; to_u8 0] ++ [to_u8 8] ++ plist_trailer 1 10.

Lemma plist_preflight_sound_witness :
  preflight_binary_plist default_limits shared_plist = Ok tt ∧
  preflight_binary_plist default_limits cyclic_plist = Err (ELimit "property list nesting depth") ∧
  ∃ t x, expands shared_plist t (root t) x ∧ tree_size x ≤ 4096.
Proof.
  split; [vm_compute; reflexivity|]. split; [vm_compute; reflexivity|].
  assert (blen shared_plist < 2 ^ 62) as H by (vm_compute; reflexivity).
  pose proof (plist_preflight_sound shared_plist H) as Hwp.
  assert (preflight_binary_plist default_limits shared_plist = Ok tt) as E by (vm_compute; reflexivity).
  rewrite E in Hwp. destruct Hwp as (t & x & _ & Hx & Hs & _). exists t, x. exact (conj Hx Hs).
Defined.
