(* ===== verification/DynamicModel.v ===== *)
(** * The dynamic wallpaper model ([src/dynamic_wallpaper.rs])

    Schedules, metadata and clock snapshots.  An [f64] is a [spec_float] of the
    Standard Library's specification of IEEE 754 binary64: comparisons with a
    NaN are false, and [-0.0] equals [0.0], as in Rust. *)

From Stdlib Require Export Floats.SpecFloat.
From S2P Require Import Prelude Utf8.

(** ** Binary64 *)

Abbreviation f64 := spec_float.
Definition is_finite (x : f64) : bool :=
  match x with S754_zero _ | S754_finite _ _ _ => true | S754_infinity _ | S754_nan => false end.
(** The nearest [f64] to an integer; exact below [2^53]. *)
Definition f64_of (z : Z) : f64 := binary_normalize 53 1024 z 0 false.
Definition f64_le (x y : f64) : bool := SFleb x y.
Definition f64_lt (x y : f64) : bool := SFltb x y.
Definition f64_eq (x y : f64) : bool := SFeqb x y.
Definition f64_div (x y : f64) : f64 := SFdiv 53 1024 x y.

(** [(a..b).contains(&x)] and [(a..=b).contains(&x)]. *)
Definition in_range (a b x : f64) : bool := f64_le a x && f64_lt x b.
Definition in_range_incl (a b x : f64) : bool := f64_le a x && f64_le x b.

(** ** The model *)

Definition APPLE_DESKTOP_NAMESPACE : rstring := str "http://ns.apple.com/namespace/1.0/".
Definition SECONDS_PER_DAY : Z := 86400.

Inductive AppleProperty := PTime | PSolar | PAppearance.
#[export] Instance AppleProperty_eq_dec : EqDecision AppleProperty.
Proof. solve_decision. Defined.

Definition from_expanded_name (namespace local_name : rstring) : option AppleProperty :=
  if negb (bool_decide (namespace = APPLE_DESKTOP_NAMESPACE)) then None
  else if bool_decide (local_name = str "h24") then Some PTime
  else if bool_decide (local_name = str "solar") then Some PSolar
  else if bool_decide (local_name = str "apr") then Some PAppearance
  else None.

Inductive ModelError :=
| DuplicateProperty (p : AppleProperty)
| EmptySchedule | InvalidCivilDate | InvalidCivilTime | InvalidLatitude | InvalidLongitude
| InvalidNanosecond | InvalidNormalizedTime | InvalidSolarAltitude | InvalidSolarAzimuth
| InvalidUtcOffset | PropertyTypeMismatch.

(** [ImageReference]: a position in the file's top-level images, which are
    [HeifItemId]s. *)
Definition ImageReference : Type := Z.
Definition HeifItemId : Type := Z.
Definition TopLevelImages : Type := list HeifItemId.
Definition resolve (images : TopLevelImages) (reference : ImageReference) : option HeifItemId :=
  images !! Z.to_nat reference.

Definition NormalizedTime : Type := f64.
Definition normalized_time_new (value : f64) : result ModelError NormalizedTime :=
  if is_finite value && in_range (f64_of 0) (f64_of 1) value then Ok value
  else Err InvalidNormalizedTime.

Record SolarPosition := mkSolarPosition { altitude_degrees : f64; azimuth_degrees : f64 }.
Definition solar_position_new (altitude azimuth : f64) : result ModelError SolarPosition :=
  if negb (is_finite altitude) || negb (in_range_incl (f64_of (-90)) (f64_of 90) altitude)
  then Err InvalidSolarAltitude
  else if negb (is_finite azimuth) || negb (in_range (f64_of 0) (f64_of 360) azimuth)
  then Err InvalidSolarAzimuth
  else Ok (mkSolarPosition altitude azimuth).

Record Location := mkLocation { latitude_degrees : f64; longitude_degrees : f64 }.
Definition location_new (latitude longitude : f64) : result ModelError Location :=
  if negb (is_finite latitude) || negb (in_range_incl (f64_of (-90)) (f64_of 90) latitude)
  then Err InvalidLatitude
  else if negb (is_finite longitude) || negb (in_range_incl (f64_of (-180)) (f64_of 180) longitude)
  then Err InvalidLongitude
  else Ok (mkLocation latitude longitude).

Record Appearance := mkAppearance { light : ImageReference; dark : ImageReference }.
#[export] Instance Appearance_eq_dec : EqDecision Appearance.
Proof. solve_decision. Defined.
Record TimePoint := mkTimePoint { tp_image : ImageReference; tp_time : NormalizedTime }.
Record SolarPoint := mkSolarPoint { sp_image : ImageReference; sp_position : SolarPosition }.

Record Schedule (T : Type) := mkSchedule { points : list T; s_appearance : option Appearance }.
Arguments mkSchedule {T}. Arguments points {T}. Arguments s_appearance {T}.
Definition schedule_new {T} (points : list T) (appearance : option Appearance) :
    result ModelError (Schedule T) :=
  match points with [] => Err EmptySchedule | _ => Ok (mkSchedule points appearance) end.

(** Rust's derived [PartialEq]: [f64] fields compare as numbers. *)
Class PartialEq (T : Type) := eqb : T → T → bool.
#[export] Instance eq_appearance : PartialEq Appearance := λ a b, bool_decide (a = b).
#[export] Instance eq_time_point : PartialEq TimePoint := λ a b,
  (tp_image a =? tp_image b) && f64_eq (tp_time a) (tp_time b).
#[export] Instance eq_solar_point : PartialEq SolarPoint := λ a b,
  (sp_image a =? sp_image b)
  && f64_eq (altitude_degrees (sp_position a)) (altitude_degrees (sp_position b))
  && f64_eq (azimuth_degrees (sp_position a)) (azimuth_degrees (sp_position b)).
Fixpoint eq_list {T} `{PartialEq T} (a b : list T) : bool :=
  match a, b with
  | [], [] => true
  | x :: a, y :: b => eqb x y && eq_list a b
  | _, _ => false
  end.
#[export] Instance eq_schedule {T} `{PartialEq T} : PartialEq (Schedule T) := λ a b,
  eq_list (points a) (points b) && bool_decide (s_appearance a = s_appearance b).

Inductive PropertyValue :=
| VTime (s : Schedule TimePoint)
| VSolar (s : Schedule SolarPoint)
| VAppearance (a : Appearance).
Definition property (v : PropertyValue) : AppleProperty :=
  match v with VTime _ => PTime | VSolar _ => PSolar | VAppearance _ => PAppearance end.

Inductive PropertyState (T : Type) := Missing | Valid (v : T) | Conflicted.
Arguments Missing {T}. Arguments Valid {T}. Arguments Conflicted {T}.
Definition value {T} (s : PropertyState T) : option T :=
  match s with Valid v => Some v | Missing | Conflicted => None end.

Record Metadata := mkMetadata {
  m_time : PropertyState (Schedule TimePoint);
  m_solar : PropertyState (Schedule SolarPoint);
  m_appearance : PropertyState Appearance;
}.
Definition metadata_default : Metadata := mkMetadata Missing Missing Missing.

(** The new state and the result: a conflict is recorded and reported. *)
Definition insert_property {T} `{PartialEq T} (state : PropertyState T) (p : AppleProperty) (v : T) :
    PropertyState T * result ModelError unit :=
  match state with
  | Missing => (Valid v, Ok tt)
  | Valid existing =>
    if eqb existing v then (Valid existing, Ok tt) else (Conflicted, Err (DuplicateProperty p))
  | Conflicted => (Conflicted, Err (DuplicateProperty p))
  end.

Definition insert (m : Metadata) (p : AppleProperty) (v : PropertyValue) :
    Metadata * result ModelError unit :=
  if negb (bool_decide (property v = p)) then (m, Err PropertyTypeMismatch)
  else match v with
  | VTime s => let '(st, r) := insert_property (m_time m) p s in
               (mkMetadata st (m_solar m) (m_appearance m), r)
  | VSolar s => let '(st, r) := insert_property (m_solar m) p s in
                (mkMetadata (m_time m) st (m_appearance m), r)
  | VAppearance a => let '(st, r) := insert_property (m_appearance m) p a in
                     (mkMetadata (m_time m) (m_solar m) st, r)
  end.

Definition insert_expanded (m : Metadata) (namespace local_name : rstring) (v : PropertyValue) :
    Metadata * result ModelError bool :=
  match from_expanded_name namespace local_name with
  | None => (m, Ok false)
  | Some p => let '(m, r) := insert m p v in (m, const true <$> r)
  end.

Inductive AppearancePreference := Automatic | Light | Dark.
#[export] Instance AppearancePreference_eq_dec : EqDecision AppearancePreference.
Proof. solve_decision. Defined.

Inductive Selection :=
| SelSolar (s : Schedule SolarPoint)
| SelTime (s : Schedule TimePoint)
| SelStatic (i : ImageReference)
| SelPrimary.

Definition or_else {A} (a b : option A) : option A := match a with Some _ => a | None => b end.

Definition fallback_appearance (m : Metadata) : option Appearance :=
  or_else (value (m_appearance m))
    (or_else (s ← value (m_time m); s_appearance s) (s ← value (m_solar m); s_appearance s)).

Definition select (m : Metadata) (appearance : AppearancePreference)
    (solar_enabled location_available : bool) : Selection :=
  match appearance with
  | Automatic =>
    match (if solar_enabled && location_available then value (m_solar m) else None) with
    | Some s => SelSolar s
    | None =>
      match value (m_time m) with
      | Some s => SelTime s
      | None => from_option (λ a, SelStatic (light a)) SelPrimary (fallback_appearance m)
      end
    end
  | Light => from_option (λ a, SelStatic (light a)) SelPrimary (fallback_appearance m)
  | Dark => from_option (λ a, SelStatic (dark a)) SelPrimary (fallback_appearance m)
  end.

Definition permits_solar (a : AppearancePreference) : bool :=
  match a with Automatic => true | _ => false end.

(** ** Civil time *)

Record CivilDate := mkDate { year : Z; month : Z; day : Z }.

(** Rust's [%] truncates. *)
Definition is_leap_year (y : Z) : bool :=
  (Z.rem y 4 =? 0) && (negb (Z.rem y 100 =? 0) || (Z.rem y 400 =? 0)).

Definition days_in_month (y m : Z) : option Z :=
  if existsb (Z.eqb m) [1; 3; 5; 7; 8; 10; 12] then Some 31
  else if existsb (Z.eqb m) [4; 6; 9; 11] then Some 30
  else if (m =? 2) && is_leap_year y then Some 29
  else if m =? 2 then Some 28
  else None.

Definition civil_date_new (y m d : Z) : result ModelError CivilDate :=
  match days_in_month y m with
  | None => Err InvalidCivilDate
  | Some days => if (d =? 0) || (days <? d) then Err InvalidCivilDate else Ok (mkDate y m d)
  end.

Record CivilTime := mkTime { hour : Z; minute : Z; second : Z }.
Definition civil_time_new (h m s : Z) : result ModelError CivilTime :=
  if (h <? 24) && (m <? 60) && (s <? 60) then Ok (mkTime h m s) else Err InvalidCivilTime.

Record ClockSnapshot := mkClock {
  date : CivilDate;
  time : CivilTime;
  nanosecond : Z;
  utc_offset_seconds : Z;
}.
Definition new_with_nanosecond (d : CivilDate) (t : CivilTime) (ns offset : Z) :
    result ModelError ClockSnapshot :=
  if 1000000000 <=? ns then Err InvalidNanosecond
  else if negb ((-86399 <=? offset) && (offset <=? 86399)) then Err InvalidUtcOffset
  else Ok (mkClock d t ns offset).
Definition clock_new (d : CivilDate) (t : CivilTime) (offset : Z) : result ModelError ClockSnapshot :=
  new_with_nanosecond d t 0 offset.

(** [div_euclid] by a positive constant is [Z.div]. *)
Definition day_number (d : CivilDate) : Z :=
  let adjustment := (14 - month d) / 12 in
  let y := year d + 4800 - adjustment in
  let m := month d + 12 * adjustment - 3 in
  day d + (153 * m + 2) / 5 + 365 * y + y / 4 - y / 100 + y / 400 - 32045.

Definition seconds_of_day (c : ClockSnapshot) : Z :=
  hour (time c) * 3600 + minute (time c) * 60 + second (time c).

Definition utc_nanoseconds (c : ClockSnapshot) : Z :=
  ((day_number (date c) - 2440588) * 86400 + seconds_of_day c - utc_offset_seconds c) * 1000000000
  + nanosecond c.

(** ** Lemmas *)

(** The dates [CivilDate::new] accepts. *)
Definition valid_date (d : CivilDate) : Prop :=
  ∃ days, days_in_month (year d) (month d) = Some days ∧ 1 ≤ day d ≤ days.

Lemma civil_date_new_Ok y m d c :
  0 ≤ d → civil_date_new y m d = Ok c ↔ c = mkDate y m d ∧ valid_date c.
Proof.
  intros Hd. unfold civil_date_new, valid_date. split.
  - destruct (days_in_month y m) as [n|] eqn:E; [|done]. destruct (_ || _) eqn:E2; [done|]. simp_bool.
    intros [= <-]. split; [done|]. exists n. cbn. split; [done|lia].
  - intros [-> (n & E & Hn)]. cbn in *. rewrite E.
    rewrite (proj2 (Z.eqb_neq _ _)), (proj2 (Z.ltb_ge _ _)) by lia. done.
Qed.

(** The calendar's successor. *)
Definition next_date (d : CivilDate) : CivilDate :=
  if bool_decide (days_in_month (year d) (month d) = Some (day d)) then
    if month d =? 12 then mkDate (year d + 1) 1 1 else mkDate (year d) (month d + 1) 1
  else mkDate (year d) (month d) (day d + 1).

Lemma is_leap_year_spec y :
  is_leap_year y = true ↔ y mod 4 = 0 ∧ (y mod 100 ≠ 0 ∨ y mod 400 = 0).
Proof.
  assert (∀ n, 0 < n → Z.rem y n = 0 ↔ y mod n = 0) as H.
  { intros n Hn. rewrite Z.rem_divide, Z.mod_divide by lia. done. }
  unfold is_leap_year. rewrite andb_true_iff, orb_true_iff, negb_true_iff, !Z.eqb_eq, Z.eqb_neq.
  rewrite !H by lia. done.
Qed.

Lemma days_in_month_cases y m n :
  days_in_month y m = Some n →
  (m ∈ [1; 3; 5; 7; 8; 10; 12] ∧ n = 31) ∨ (m ∈ [4; 6; 9; 11] ∧ n = 30)
  ∨ (m = 2 ∧ n = 29 ∧ is_leap_year y = true) ∨ (m = 2 ∧ n = 28 ∧ is_leap_year y = false).
Proof.
  assert (∀ l, existsb (Z.eqb m) l = true → m ∈ l) as Hin.
  { intros l (x & Hx & ->%Z.eqb_eq)%existsb_exists. by apply list_elem_of_In. }
  unfold days_in_month. intros H. repeat case_match; simplify_eq; simp_bool; subst; auto 10.
Qed.

Lemma day_number_alt y m d :
  1 ≤ m ≤ 12 →
  day_number (mkDate y m d)
  = let y' := if m <=? 2 then y + 4799 else y + 4800 in
    let m' := if m <=? 2 then m + 9 else m - 3 in
    d + (153 * m' + 2) / 5 + 365 * y' + y' / 4 - y' / 100 + y' / 400 - 32045.
Proof.
  intros Hm. unfold day_number. cbn [year month day].
  assert ((14 - m) / 12 = if m <=? 2 then 1 else 0) as ->.
  { destruct (Z.leb_spec m 2); symmetry; [apply (Z.div_unique _ _ _ (2 - m))|apply (Z.div_unique _ _ _ (14 - m))]; lia. }
  destruct (m <=? 2); cbv zeta; repeat f_equal; lia.
Qed.

Lemma month_range y m n : days_in_month y m = Some n → 1 ≤ m ≤ 12 ∧ 28 ≤ n ≤ 31.
Proof.
  intros [[H ->]|[[H ->]|[(-> & -> & _)|(-> & -> & _)]]]%days_in_month_cases; try lia;
    repeat (apply elem_of_cons in H as [->|H]; [lia|]); by apply elem_of_nil in H.
Qed.

(** A year's length in days is right. *)
Lemma leap_days y :
  let l z := z / 4 - z / 100 + z / 400 in
  l y - l (y - 1) = if is_leap_year y then 1 else 0.
Proof.
  cbv zeta. pose proof (is_leap_year_spec y) as H.
  assert (∀ k, 0 < k → y / k - (y - 1) / k = if y mod k =? 0 then 1 else 0) as Hk.
  { intros k Hk. pose proof (Z.div_mod y k). pose proof (Z.mod_pos_bound y k Hk).
    destruct (Z.eqb_spec (y mod k) 0).
    - assert ((y - 1) / k = y / k - 1); [|lia]. symmetry. apply (Z.div_unique _ _ _ (k - 1)); nia.
    - assert ((y - 1) / k = y / k); [|lia]. symmetry. apply (Z.div_unique _ _ _ (y mod k - 1)); nia. }
  pose proof (Hk 4 eq_refl) as K4. pose proof (Hk 100 eq_refl) as K100.
  pose proof (Hk 400 eq_refl) as K400.
  assert (y mod 400 = 0 → y mod 100 = 0) as D400.
  { rewrite !Z.mod_divide by lia. intros [q ->]. exists (q * 4). lia. }
  assert (y mod 100 = 0 → y mod 4 = 0) as D100.
  { rewrite !Z.mod_divide by lia. intros [q ->]. exists (q * 25). lia. }
  destruct (is_leap_year y).
  - destruct (proj1 H eq_refl) as [E [E1|E1]].
    + rewrite E, Z.eqb_refl in K4. destruct (Z.eqb_spec (y mod 100) 0); [done|].
      destruct (Z.eqb_spec (y mod 400) 0); [tauto|]. lia.
    + rewrite E, Z.eqb_refl in K4. rewrite E1, Z.eqb_refl in K400.
      rewrite (D400 E1), Z.eqb_refl in K100. lia.
  - destruct (Z.eqb_spec (y mod 4) 0), (Z.eqb_spec (y mod 100) 0), (Z.eqb_spec (y mod 400) 0);
      try lia; exfalso; try tauto; by assert (false = true) by tauto.
Qed.

(** Compute the parts of [day_number] that depend on a known month only. *)
Ltac known_month :=
  repeat match goal with
  | |- context [?a <=? 2] => let v := eval vm_compute in (a <=? 2) in change (a <=? 2) with v
  end; cbv iota zeta;
  repeat match goal with
  | |- context [(153 * ?e + 2) / 5] =>
    let v := eval vm_compute in ((153 * e + 2) / 5) in change ((153 * e + 2) / 5) with v
  end.

Lemma next_date_day_number d :
  valid_date d → valid_date (next_date d) ∧ day_number (next_date d) = day_number d + 1.
Proof.
  destruct d as [y m dd]. intros (n & Hn & Hd). cbn in *. unfold next_date. cbn.
  pose proof (month_range _ _ _ Hn) as [Hm Hr]. case_bool_decide as E.
  2:{ split; [exists n; cbn; split; [done|]|unfold day_number; cbn; lia].
      assert (dd ≠ n) by congruence. lia. }
  assert (dd = n) as -> by congruence. clear E Hd.
  destruct (Z.eqb_spec m 12) as [->|Hne].
  { split; [by exists 31|]. rewrite !day_number_alt by lia. injection Hn as <-.
    known_month. replace (y + 1 + 4799) with (y + 4800) by lia. lia. }
  split.
  { assert (∃ n', days_in_month y (m + 1) = Some n') as [n' E].
    { assert (m = 1 ∨ m = 2 ∨ m = 3 ∨ m = 4 ∨ m = 5 ∨ m = 6 ∨ m = 7 ∨ m = 8 ∨ m = 9 ∨ m = 10
              ∨ m = 11) as Hc by lia.
      destruct Hc as [->|[->|[->|[->|[->|[->|[->|[->|[->|[->| ->]]]]]]]]]];
        unfold days_in_month; cbn; eauto. destruct (is_leap_year y); eauto. }
    exists n'. cbn. split; [done|]. apply month_range in E. lia. }
  rewrite !day_number_alt by lia.
  pose proof (leap_days (y + 4800)) as Hl. cbv zeta in Hl.
  replace (y + 4800 - 1) with (y + 4799) in Hl by lia.
  assert (is_leap_year (y + 4800) = is_leap_year y) as Hper.
  { apply eq_iff_eq_true. rewrite !is_leap_year_spec.
    replace (y + 4800) with (y + 1200 * 4) at 1 by lia. rewrite Z.mod_add by lia.
    replace (y + 4800) with (y + 48 * 100) at 1 by lia. rewrite Z.mod_add by lia.
    replace (y + 4800) with (y + 12 * 400) at 1 by lia. by rewrite Z.mod_add by lia. }
  rewrite Hper in Hl.
  apply days_in_month_cases in Hn as [[H ->]|[[H ->]|[(-> & -> & Hy)|(-> & -> & Hy)]]].
  - repeat (apply elem_of_cons in H as [->|H]; [by known_month; lia|]). by apply elem_of_nil in H.
  - repeat (apply elem_of_cons in H as [->|H]; [by known_month; lia|]). by apply elem_of_nil in H.
  - rewrite Hy in Hl. known_month. lia.
  - rewrite Hy in Hl. known_month. lia.
Qed.

(** *** Metadata *)

(** What a property's values, oldest first, amount to. *)
Definition verdict {T} `{PartialEq T} (vs : list T) : PropertyState T :=
  match vs with
  | [] => Missing
  | v :: vs => if forallb (eqb v) vs then Valid v else Conflicted
  end.

Definition time_of (v : PropertyValue) : option (Schedule TimePoint) :=
  match v with VTime s => Some s | _ => None end.
Definition solar_of (v : PropertyValue) : option (Schedule SolarPoint) :=
  match v with VSolar s => Some s | _ => None end.
Definition appearance_of (v : PropertyValue) : option Appearance :=
  match v with VAppearance a => Some a | _ => None end.

(** The values of a file's properties inserted one by one. *)
Definition insert_all (vs : list PropertyValue) (m : Metadata) : Metadata :=
  foldl (λ m v, fst (insert m (property v) v)) m vs.

Lemma insert_property_verdict {T} `{PartialEq T} (vs : list T) p v :
  insert_property (verdict vs) p v
  = (verdict (vs ++ [v]),
     match verdict (vs ++ [v]) with Conflicted => Err (DuplicateProperty p) | _ => Ok tt end).
Proof.
  destruct vs as [|x vs]; cbn; [done|]. rewrite forallb_app. cbn. rewrite andb_true_r.
  destruct (forallb (eqb x) vs); cbn; [|done]. by destruct (eqb x v).
Qed.

Lemma insert_verdict vs v :
  let state vs := mkMetadata (verdict (omap time_of vs)) (verdict (omap solar_of vs))
                    (verdict (omap appearance_of vs)) in
  fst (insert (state vs) (property v) v) = state (vs ++ [v]).
Proof.
  cbn zeta. unfold insert. rewrite bool_decide_true by done. cbn [negb].
  destruct v; cbn [m_time m_solar m_appearance]; rewrite insert_property_verdict, !omap_app; cbn;
    by rewrite ?app_nil_r.
Qed.

(** ** Properties *)

(** Snapshots are placed on the UTC time line exactly: the epoch is at
    zero, and from any valid date the calendar's next day (through month ends,
    leap years of the Gregorian rule and negative years) is a valid date that
    lies one day of nanoseconds later, so the number of every date is fixed;
    a larger UTC offset means an earlier instant. *)
Theorem utc_nanoseconds_calendar d t ns offset :
  valid_date d →
  utc_nanoseconds (mkClock (mkDate 1970 1 1) (mkTime 0 0 0) 0 0) = 0
  ∧ valid_date (next_date d)
  ∧ utc_nanoseconds (mkClock (next_date d) t ns offset)
    = utc_nanoseconds (mkClock d t ns offset) + 86400 * 1000000000
  ∧ utc_nanoseconds (mkClock d t ns offset)
    = utc_nanoseconds (mkClock d t ns 0) - offset * 1000000000.
Proof.
  intros [Hv Hn]%next_date_day_number. split; [reflexivity|]. split; [done|].
  unfold utc_nanoseconds, seconds_of_day. cbn [date time nanosecond utc_offset_seconds].
  rewrite Hn. lia.
Qed.

Lemma utc_nanoseconds_calendar_witness :
  utc_nanoseconds (mkClock (mkDate 2024 3 1) (mkTime 0 0 0) 0 0)
  = utc_nanoseconds (mkClock (mkDate 2024 2 29) (mkTime 0 0 0) 0 0) + 86400 * 1000000000.
Proof.
  apply (utc_nanoseconds_calendar (mkDate 2024 2 29) (mkTime 0 0 0) 0 0).
  exists 29. split; [reflexivity|cbn; lia].
Defined.

(** Duplicate properties are resolved the same way however they are
    spread over a file: after any sequence of insertions each property is
    missing, or valid with its first value when all its values are equal, or
    conflicted for good; the properties do not influence each other; and an
    insertion fails exactly when it leaves its property conflicted. *)
Theorem metadata_insertions vs v :
  let m := insert_all vs metadata_default in
  m = mkMetadata (verdict (omap time_of vs)) (verdict (omap solar_of vs))
        (verdict (omap appearance_of vs))
  ∧ (is_ok (snd (insert m (property v) v)) = false ↔
     match v with
     | VTime _ => m_time (fst (insert m (property v) v)) = Conflicted
     | VSolar _ => m_solar (fst (insert m (property v) v)) = Conflicted
     | VAppearance _ => m_appearance (fst (insert m (property v) v)) = Conflicted
     end).
Proof.
  cbn zeta. assert (insert_all vs metadata_default
    = mkMetadata (verdict (omap time_of vs)) (verdict (omap solar_of vs))
        (verdict (omap appearance_of vs))) as E.
  { induction vs as [|x vs IH] using rev_ind; [done|]. unfold insert_all in *.
    rewrite foldl_app. cbn [foldl]. rewrite IH. apply insert_verdict. }
  split; [exact E|]. rewrite E. unfold insert. rewrite bool_decide_true by done. cbn [negb].
  destruct v; cbn [m_time m_solar m_appearance]; rewrite insert_property_verdict;
    destruct (verdict (_ ++ _)); cbn; split; congruence.
Qed.
