(* ===== verification/HeicMetadata.v ===== *)
(** * HEIC metadata: XMP, property lists and schedules
    ([src/dynamic_wallpaper/heic.rs])

    From the metadata blocks of the primary image to the schedules of
    [DynamicModel].  The XML reader, the Base64 engine and the property-list
    parser are third-party libraries: the first yields the events of a text, the
    others are functions from bytes to an optional value. *)

From S2P Require Import Prelude Utf8 Text Heic HeicPlist.
From S2P Require Import DynamicModel.

(** ** Events of the XML reader

    Names come resolved: [None] is a name without a known namespace.  A
    [None] event, attribute or value is one the reader refuses. *)

Record QName := mkQName { namespace : option rstring; local : rstring }.
Record Attribute := mkAttribute { a_key : QName; a_value : option rstring }.
Inductive Event :=
| EStart (name : QName) (attributes : list (option Attribute))
| EEmpty (name : QName) (attributes : list (option Attribute))
| EText (s : rstring)
| ECData (s : rstring)
| EEnd
| EDocType
| EGeneralRef (c : option (option char))
| EComment
| EPI
| EDecl
| EEof.

(** ** The preflight of an XML property list *)

Section XmlPlist.
Context (l : Limits).

Definition plist_elements : list rstring :=
  [str "dict"; str "array"; str "data"; str "date"; str "integer"; str "real"; str "string";
   str "true"; str "false"; str "key"].

Definition charge_plist_element (local : rstring) (objects bytes : Z) : result Error (Z * Z) :=
  if negb (bool_decide (local ∈ plist_elements)) then Ok (objects, bytes)
  else
    objects ← ok_or (ELimit "expanded property list object count") (checked_add 64 objects 1);
    _ ← ensure (objects <=? max_expanded_plist_objects l) (ELimit "expanded property list object count");
    bytes ← charge_expanded_bytes l bytes 64;
    Ok (objects, bytes).

Record XmlWalk := mkXmlWalk {
  x_objects : Z;
  x_bytes : Z;
  x_depth : Z;
  x_events : Z;
  x_root : bool;
}.

(** The loop over the reader's events; a reader with none left is at its end. *)
Fixpoint xml_plist_loop (events : list (option Event)) (w : XmlWalk) : result Error XmlWalk :=
  n ← uadd (x_events w) 1;
  _ ← ensure (n <=? max_xml_events l) (ELimit "property list event count");
  match events with
  | [] | Some EEof :: _ => Ok (mkXmlWalk (x_objects w) (x_bytes w) (x_depth w) n (x_root w))
  | None :: _ => Err (EMetadata "invalid XML property list")
  | Some (EStart name _) :: events =>
    depth ← uadd (x_depth w) 1;
    _ ← ensure (depth <=? max_plist_depth l) (ELimit "property list nesting depth");
    '(objects, bytes) ← charge_plist_element (local name) (x_objects w) (x_bytes w);
    xml_plist_loop events (mkXmlWalk objects bytes depth n true)
  | Some (EEmpty name _) :: events =>
    depth ← uadd (x_depth w) 1;
    _ ← ensure (depth <=? max_plist_depth l) (ELimit "property list nesting depth");
    '(objects, bytes) ← charge_plist_element (local name) (x_objects w) (x_bytes w);
    xml_plist_loop events (mkXmlWalk objects bytes (x_depth w) n true)
  | Some EEnd :: events =>
    depth ← ok_or (EMetadata "unbalanced XML property list") (checked_sub (x_depth w) 1);
    xml_plist_loop events (mkXmlWalk (x_objects w) (x_bytes w) depth n (x_root w))
  | Some _ :: events =>
    xml_plist_loop events (mkXmlWalk (x_objects w) (x_bytes w) (x_depth w) n (x_root w))
  end.

Definition is_ascii_whitespace (c : Z) : bool :=
  (c =? 9) || (c =? 10) || (c =? 12) || (c =? 13) || (c =? 32).
Definition BOM : list byte := [to_u8 239; to_u8 187; to_u8 191].

Definition preflight_xml_plist (xml_events : list byte → list (option Event)) (bytes : list byte) :
    result Error unit :=
  _ ← ensure (blen bytes <=? max_plist_bytes l) (ELimit "property list size");
  let content := default bytes (strip_prefix BOM bytes) in
  first ← ok_or (EMetadata "property is not a property list")
            (head (drop_while (λ b, is_ascii_whitespace (u8 b)) content));
  _ ← ensure (bool_decide (first = "<"%byte)) (EMetadata "property is not a property list");
  w ← xml_plist_loop (xml_events bytes) (mkXmlWalk 0 0 0 0 false);
  ensure (negb (negb (x_depth w =? 0) || negb (x_root w))) (EMetadata "unbalanced XML property list").
End XmlPlist.

(** ** XMP *)

Inductive PropertyName := H24 | Solar | Apr.
#[export] Instance PropertyName_eq_dec : EqDecision PropertyName.
Proof. solve_decision. Defined.

Definition property_name (q : QName) : option PropertyName :=
  if negb (bool_decide (namespace q = Some APPLE_DESKTOP_NAMESPACE)) then None
  else if bool_decide (local q = str "h24") then Some H24
  else if bool_decide (local q = str "solar") then Some Solar
  else if bool_decide (local q = str "apr") then Some Apr
  else None.

Section Xmp.
Context (l : Limits).
(** [STANDARD.decode]. *)
Context (base64 : rstring → option (list byte)).

Definition decode_plist_base64 (value : rstring) : result Error (list byte) :=
  let compact := List.filter (λ c, negb (is_ascii_whitespace c)) value in
  encoded_limit ← ok_or (ELimit "property list size")
    (n ← checked_add 64 (max_plist_bytes l) 2; checked_mul 64 (n / 3) 4);
  _ ← ensure (str_len compact <=? encoded_limit) (ELimit "property list size");
  decoded ← ok_or (EMetadata "invalid Base64 property") (base64 compact);
  _ ← ensure (blen decoded <=? max_plist_bytes l) (ELimit "property list size");
  Ok decoded.

Abbreviation properties := (list (PropertyName * list byte)) (only parsing).

(** [for attribute in start.attributes().with_checks(true)]. *)
Fixpoint push_attributes (attributes : list (option Attribute)) (ps : properties) :
    result Error properties :=
  match attributes with
  | [] => Ok ps
  | None :: _ => Err (EMetadata "invalid attribute")
  | Some a :: attributes =>
    match property_name (a_key a) with
    | Some name =>
      value ← ok_or (EMetadata "invalid attribute value") (a_value a);
      decoded ← decode_plist_base64 value;
      push_attributes attributes (ps ++ [(name, decoded)])
    | None => push_attributes attributes ps
    end
  end.

(** [active]: the open property element, its depth and its text so far. *)
Record Xmp := mkXmp {
  depth : Z;
  events_read : Z;
  active : option (PropertyName * Z * rstring);
  found : properties;
}.

Definition append_text (s : rstring) (a : option (PropertyName * Z * rstring)) :
    option (PropertyName * Z * rstring) :=
  match a with Some (name, d, value) => Some (name, d, value ++ s) | None => None end.

Definition xmp_start (name : QName) (attributes : list (option Attribute)) (n : Z) (x : Xmp) :
    result Error Xmp :=
  d ← uadd (depth x) 1;
  _ ← ensure (d <=? max_xml_depth l) (ELimit "XMP nesting depth");
  _ ← ensure (bool_decide (active x = None)) (EMetadata "nested markup in Apple property");
  ps ← push_attributes attributes (found x);
  Ok (mkXmp d n ((λ p, (p, d, [])) <$> property_name name) ps).

Definition xmp_empty (name : QName) (attributes : list (option Attribute)) (n : Z) (x : Xmp) :
    result Error Xmp :=
  _ ← ensure match checked_add 64 (depth x) 1 with Some d => d <=? max_xml_depth l | None => false end
        (ELimit "XMP nesting depth");
  _ ← ensure (bool_decide (active x = None)) (EMetadata "nested markup in Apple property");
  ps ← push_attributes attributes (found x);
  match property_name name with
  | Some p =>
    decoded ← decode_plist_base64 [];
    Ok (mkXmp (depth x) n (active x) (ps ++ [(p, decoded)]))
  | None => Ok (mkXmp (depth x) n (active x) ps)
  end.

Definition xmp_end (n : Z) (x : Xmp) : result Error Xmp :=
  '(a, ps) ← match active x with
             | Some (name, d, value) =>
               if d =? depth x then
                 decoded ← decode_plist_base64 value;
                 Ok (None, found x ++ [(name, decoded)])
               else Ok (active x, found x)
             | None => Ok (None, found x)
             end;
  d ← ok_or (EMetadata "unbalanced XMP") (checked_sub (depth x) 1);
  Ok (mkXmp d n a ps).

Definition xmp_event (e : Event) (n : Z) (x : Xmp) : result Error Xmp :=
  match e with
  | EStart name attributes => xmp_start name attributes n x
  | EEmpty name attributes => xmp_empty name attributes n x
  | EText s | ECData s => Ok (mkXmp (depth x) n (append_text s (active x)) (found x))
  | EEnd => xmp_end n x
  | EDocType => Err (EMetadata "XMP DTD is not allowed")
  | EGeneralRef c =>
    if bool_decide (is_Some (active x)) then
      c ← ok_or (EMetadata "invalid character reference") c;
      c ← ok_or (EMetadata "entity in Apple property") c;
      Ok (mkXmp (depth x) n (append_text [c] (active x)) (found x))
    else Ok (mkXmp (depth x) n (active x) (found x))
  | EComment | EPI =>
    if bool_decide (is_Some (active x)) then Err (EMetadata "markup in Apple property")
    else Ok (mkXmp (depth x) n (active x) (found x))
  | EDecl | EEof => Ok (mkXmp (depth x) n (active x) (found x))
  end.

Fixpoint xmp_loop (events : list (option Event)) (x : Xmp) : result Error Xmp :=
  n ← uadd (events_read x) 1;
  _ ← ensure (n <=? max_xml_events l) (ELimit "XMP event count");
  match events with
  | [] | Some EEof :: _ => Ok x
  | None :: _ => Err (EMetadata "invalid XMP")
  | Some e :: events => x ← xmp_event e n x; xmp_loop events x
  end.

Definition parse_xmp (events : list (option Event)) : result Error properties :=
  x ← xmp_loop events (mkXmp 0 0 None []);
  _ ← ensure (negb (negb (depth x =? 0) || bool_decide (is_Some (active x)))) (EMetadata "unbalanced XMP");
  Ok (found x).
End Xmp.

(** ** Property values *)

(** What the module inspects of a [plist::Value]. *)
Inductive Value :=
| VArray (vs : list Value)
| VDictionary (kvs : list (rstring * Value))
| VReal (x : f64)
| VInteger (n : Z)
| VOther.
Abbreviation Dictionary := (list (rstring * Value)) (only parsing).

Definition get (d : Dictionary) (key : string) : option Value :=
  snd <$> List.find (λ kv, bool_decide (kv.1 = str key)) d.
Definition as_array (v : Value) : option (list Value) := match v with VArray vs => Some vs | _ => None end.
Definition as_dictionary (v : Value) : option Dictionary :=
  match v with VDictionary d => Some d | _ => None end.
(** [plist::Integer] holds an [i64] or a [u64]. *)
Definition as_signed (n : Z) : option Z := if (- 2 ^ 63 <=? n) && (n <? 2 ^ 63) then Some n else None.
Definition as_unsigned (n : Z) : option Z := if (0 <=? n) && (n <? 2 ^ 64) then Some n else None.

(** [ModelError]'s [Debug] text, in its [Display]. *)
Definition model_error_name (e : ModelError) : string :=
  match e with
  | DuplicateProperty PTime => "DuplicateProperty(Time)"
  | DuplicateProperty PSolar => "DuplicateProperty(Solar)"
  | DuplicateProperty PAppearance => "DuplicateProperty(Appearance)"
  | EmptySchedule => "EmptySchedule"
  | InvalidCivilDate => "InvalidCivilDate"
  | InvalidCivilTime => "InvalidCivilTime"
  | InvalidLatitude => "InvalidLatitude"
  | InvalidLongitude => "InvalidLongitude"
  | InvalidNanosecond => "InvalidNanosecond"
  | InvalidNormalizedTime => "InvalidNormalizedTime"
  | InvalidSolarAltitude => "InvalidSolarAltitude"
  | InvalidSolarAzimuth => "InvalidSolarAzimuth"
  | InvalidUtcOffset => "InvalidUtcOffset"
  | PropertyTypeMismatch => "PropertyTypeMismatch"
  end.
Definition model {A} (r : result ModelError A) : result Error A :=
  match r with
  | Ok a => Ok a
  | Err e => Err (EMetadata ("invalid dynamic wallpaper model: " ++ model_error_name e))
  end.

Definition required_array (d : Dictionary) (key : string) : result Error (list Value) :=
  ok_or (EMetadata (key ++ " is not an array")) (v ← get d key; as_array v).
Definition required_dictionary (v : Value) (label : string) : result Error Dictionary :=
  ok_or (EMetadata (label ++ " is not a dictionary")) (as_dictionary v).

Definition exact_u64 (v : Value) : option Z := match v with VInteger n => as_unsigned n | _ => None end.

Definition image_reference (d : Dictionary) (key : string) (images : TopLevelImages) :
    result Error ImageReference :=
  index ← ok_or (EMetadata (key ++ " is not a valid image index")) (v ← get d key; exact_u64 v);
  _ ← ensure (bool_decide (is_Some (resolve images index))) (EMetadata (key ++ " references a missing image"));
  Ok index.

Definition number (d : Dictionary) (key : string) : result Error f64 :=
  v ← ok_or (EMetadata ("missing " ++ key)) (get d key);
  x ← match v with
      | VReal x => Ok x
      | VInteger n =>
        ok_or (EMetadata (key ++ " is outside its numeric domain"))
          (or_else (f64_of <$> as_signed n) (f64_of <$> as_unsigned n))
      | _ => Err (EMetadata (key ++ " is not numeric"))
      end;
  _ ← ensure (is_finite x) (EMetadata (key ++ " is not finite"));
  Ok x.

Definition parse_appearance (d : Dictionary) (images : TopLevelImages) : result Error Appearance :=
  dark ← image_reference d "d" images;
  light ← image_reference d "l" images;
  Ok (mkAppearance light dark).

Definition optional_appearance (d : Dictionary) (images : TopLevelImages) :
    result Error (option Appearance) :=
  match get d "ap" with
  | None => Ok None
  | Some v => d ← required_dictionary v "ap"; Some <$> parse_appearance d images
  end.

Definition parse_apr (d : Dictionary) (images : TopLevelImages) : result Error (AppleProperty * PropertyValue) :=
  a ← parse_appearance d images; Ok (PAppearance, VAppearance a).

Section Property.
Context (l : Limits).

(** [for point in points], in order. *)
Fixpoint each_point {A} (f : Value → result Error A) (points : list Value) : result Error (list A) :=
  match points with
  | [] => Ok []
  | v :: vs => a ← f v; rest ← each_point f vs; Ok (a :: rest)
  end.

Definition time_point (images : TopLevelImages) (v : Value) : result Error TimePoint :=
  point ← required_dictionary v "h24 point";
  image ← image_reference point "i" images;
  t ← number point "t";
  t ← model (normalized_time_new t);
  Ok (mkTimePoint image t).

Definition parse_h24 (d : Dictionary) (images : TopLevelImages) : result Error (AppleProperty * PropertyValue) :=
  points ← required_array d "ti";
  _ ← ensure (negb (bool_decide (points = []) || (max_schedule_points l <? blen points)))
        (EMetadata "invalid h24 point count");
  parsed ← each_point (time_point images) points;
  appearance ← optional_appearance d images;
  schedule ← model (schedule_new parsed appearance);
  Ok (PTime, VTime schedule).

Definition solar_point (images : TopLevelImages) (v : Value) : result Error SolarPoint :=
  point ← required_dictionary v "solar point";
  image ← image_reference point "i" images;
  a ← number point "a";
  z ← number point "z";
  position ← model (solar_position_new a z);
  Ok (mkSolarPoint image position).

Definition parse_solar (d : Dictionary) (images : TopLevelImages) : result Error (AppleProperty * PropertyValue) :=
  points ← required_array d "si";
  _ ← ensure (negb (bool_decide (points = []) || (max_schedule_points l <? blen points)))
        (EMetadata "invalid solar point count");
  parsed ← each_point (solar_point images) points;
  appearance ← optional_appearance d images;
  schedule ← model (schedule_new parsed appearance);
  Ok (PSolar, VSolar schedule).

(** The property-list library, and the XML reader under it. *)
Record Library := mkLibrary {
  xml_events : list byte → list (option Event);
  binary_plist : list byte → option Value;
  xml_plist : list byte → option Value;
  base64_decode : rstring → option (list byte);
}.
Context (lib : Library).

Definition property_list (bytes : list byte) : result Error Value :=
  if starts_with (bytes_of "bplist00") bytes then
    _ ← preflight_binary_plist l bytes;
    ok_or (EMetadata "invalid binary property list") (binary_plist lib bytes)
  else
    _ ← preflight_xml_plist l (xml_events lib) bytes;
    ok_or (EMetadata "invalid XML property list") (xml_plist lib bytes).

Definition parse_property (name : PropertyName) (bytes : list byte) (images : TopLevelImages) :
    result Error (AppleProperty * PropertyValue) :=
  v ← property_list bytes;
  d ← ok_or (EMetadata "property list root is not a dictionary") (as_dictionary v);
  match name with
  | H24 => parse_h24 d images
  | Solar => parse_solar d images
  | Apr => parse_apr d images
  end.

(** ** The metadata of the primary image *)

Definition insert_metadata_property (m : Metadata) (name : AppleProperty) (v : PropertyValue) :
    result Error Metadata :=
  match insert m name v with
  | (m, Ok _) | (m, Err (DuplicateProperty _)) => Ok m
  | (_, Err e) => model (Err e)
  end.

Record Block := mkBlock {
  b_size : Z;
  b_type : rstring;
  b_content_type : rstring;
  b_data : option (list byte);
}.

Fixpoint insert_properties (ps : list (PropertyName * list byte)) (images : TopLevelImages) (m : Metadata) :
    result Error Metadata :=
  match ps with
  | [] => Ok m
  | (name, bytes) :: ps =>
    '(name, v) ← parse_property name bytes images;
    m ← insert_metadata_property m name v;
    insert_properties ps images m
  end.

Fixpoint read_blocks (blocks : list Block) (images : TopLevelImages) (total : Z) (m : Metadata) :
    result Error Metadata :=
  match blocks with
  | [] => Ok m
  | b :: blocks =>
    _ ← ensure (b_size b <=? max_metadata_block_bytes l) (ELimit "metadata block size");
    total ← ok_or (ELimit "total metadata size") (checked_add 64 total (b_size b));
    _ ← ensure (total <=? max_metadata_bytes l) (ELimit "total metadata size");
    if negb (bool_decide (b_type b = str "mime"))
       || negb (bool_decide (b_content_type b = str "application/rdf+xml"))
    then read_blocks blocks images total m
    else
      bytes ← ok_or (EContainer "metadata") (b_data b);
      ps ← parse_xmp l (base64_decode lib) (xml_events lib bytes);
      m ← insert_properties ps images m;
      read_blocks blocks images total m
  end.

(** [count]: what the native library says; [blocks]: what it enumerates. *)
Definition read_metadata (count : Z) (blocks : list Block) (images : TopLevelImages) : result Error Metadata :=
  let count := Z.max count 0 in
  _ ← ensure (count <=? max_metadata_blocks l) (ELimit "metadata block count");
  _ ← ensure (blen blocks =? count) (EContainer "could not enumerate metadata blocks");
  read_blocks blocks images 0 metadata_default.
End Property.
