(* ===== verification/HeicMetadataProofs.v ===== *)
(** * HEIC metadata: proofs

    The XMP parser refines a reading of the document as a tree; what the
    preflight of an XML property list bounds; every image that accepted metadata
    can name exists. *)

From S2P Require Import Prelude Utf8 Text Heic HeicPlist DynamicModel HeicMetadata.

(** ** Sequencing results *)

Lemma result_bind_assoc {E A B C} (m : result E A) (f : A → result E B) (g : B → result E C) :
  (m ≫= f) ≫= g = m ≫= λ a, f a ≫= g.
Proof. by destruct m. Qed.

Lemma result_bind_ext {E A B} (m : result E A) (f g : A → result E B) :
  (∀ a, f a = g a) → m ≫= f = m ≫= g.
Proof. intros H. destruct m; cbn; auto. Qed.

Lemma mapM_app_result {E A B} (f : A → result E B) xs ys :
  mapM f (xs ++ ys) = mapM f xs ≫= λ a, mapM f ys ≫= λ b, Ok (a ++ b).
Proof.
  induction xs as [|x xs IH]; cbn.
  - by destruct (mapM f ys).
  - rewrite IH, result_bind_assoc. apply result_bind_ext. intros y. cbn.
    rewrite !result_bind_assoc. apply result_bind_ext. intros k. cbn.
    rewrite result_bind_assoc. by apply result_bind_ext.
Qed.

(** ** XMP as a tree *)

(** [XRef None] is a reference that is no valid character, [XRef (Some None)]
    one to an entity. *)
Inductive Xml :=
| XElem (name : QName) (attributes : list (QName * rstring)) (kids : list Xml)
| XEmpty (name : QName) (attributes : list (QName * rstring))
| XText (s : rstring)
| XCData (s : rstring)
| XRef (c : option (option char))
| XComment
| XPI
| XDecl.

Definition xml_attributes (attributes : list (QName * rstring)) : list (option Attribute) :=
  (λ a, Some (mkAttribute a.1 (Some a.2))) <$> attributes.

(** The events of a document that holds the tree. *)
Fixpoint events_of (x : Xml) : list (option Event) :=
  match x with
  | XElem name attributes kids =>
    Some (EStart name (xml_attributes attributes)) ::
      foldr (λ k es, events_of k ++ es) [] kids ++ [Some EEnd]
  | XEmpty name attributes => [Some (EEmpty name (xml_attributes attributes))]
  | XText s => [Some (EText s)]
  | XCData s => [Some (ECData s)]
  | XRef c => [Some (EGeneralRef c)]
  | XComment => [Some EComment]
  | XPI => [Some EPI]
  | XDecl => [Some EDecl]
  end.
Definition forest_events (xs : list Xml) : list (option Event) := foldr (λ k es, events_of k ++ es) [] xs.

Fixpoint xml_height (x : Xml) : Z :=
  match x with
  | XElem _ _ kids => 1 + foldr (λ k n, Z.max (xml_height k) n) 0 kids
  | XEmpty _ _ => 1
  | _ => 0
  end.
Definition forest_height (xs : list Xml) : Z := foldr (λ k n, Z.max (xml_height k) n) 0 xs.

Definition text_of (x : Xml) : rstring :=
  match x with XText s | XCData s => s | XRef (Some (Some c)) => [c] | _ => [] end.
Definition is_text (x : Xml) : bool :=
  match x with XText _ | XCData _ | XRef (Some (Some _)) | XDecl => true | _ => false end.

(** A property's element holds text, character data and characters only. *)
Fixpoint well_formed (x : Xml) : bool :=
  match x with
  | XElem name _ kids =>
    if bool_decide (property_name name = None) then forallb well_formed kids else forallb is_text kids
  | _ => true
  end.

Definition attribute_properties (attributes : list (QName * rstring)) : list (PropertyName * rstring) :=
  omap (λ a, (., a.2) <$> property_name a.1) attributes.

(** Apple's properties in document order: as attributes, and as elements. *)
Fixpoint properties_of (x : Xml) : list (PropertyName * rstring) :=
  match x with
  | XElem name attributes kids =>
    attribute_properties attributes ++
      match property_name name with
      | Some p => [(p, kids ≫= text_of)]
      | None => foldr (λ k ps, properties_of k ++ ps) [] kids
      end
  | XEmpty name attributes =>
    attribute_properties attributes ++
      match property_name name with Some p => [(p, [])] | None => [] end
  | _ => []
  end.
Definition forest_properties (xs : list Xml) : list (PropertyName * rstring) :=
  foldr (λ k ps, properties_of k ++ ps) [] xs.

Section Xmp.
Context (l : Limits) (base64 : rstring → option (list byte)).
Context (Hevents : 0 ≤ max_xml_events l < 2 ^ 62) (Hdepth : 0 ≤ max_xml_depth l < 2 ^ 62).

Definition decode_property (p : PropertyName * rstring) : result Error (PropertyName * list byte) :=
  bs ← decode_plist_base64 l base64 p.2; Ok (p.1, bs).

Lemma decode_property_pair p v :
  decode_property (p, v) = decode_plist_base64 l base64 v ≫= λ bs, Ok (p, bs).
Proof using. done. Qed.

Lemma push_attributes_spec attributes ps :
  push_attributes l base64 (xml_attributes attributes) ps =
    qs ← mapM decode_property (attribute_properties attributes); Ok (ps ++ qs).
Proof using.
  revert ps. induction attributes as [|[k v] attributes IH]; intros ps; cbn; [by rewrite app_nil_r|].
  unfold attribute_properties in *. cbn. destruct (property_name k) as [p|]; cbn; [|apply IH].
  rewrite decode_property_pair, !result_bind_assoc. apply result_bind_ext. intros bs. cbn.
  rewrite IH, result_bind_assoc. apply result_bind_ext. intros qs. cbn. by rewrite <- app_assoc.
Qed.

(** One turn of the loop, within the ceiling on events. *)
Lemma xmp_turn e events x :
  e ≠ EEof → 0 ≤ events_read x < max_xml_events l →
  xmp_loop l base64 (Some e :: events) x =
    xmp_event l base64 e (events_read x + 1) x ≫= xmp_loop l base64 events.
Proof using Hevents.
  intros He Hn. cbn [xmp_loop]. unfold uadd, checked_add.
  rewrite (proj2 (Z.ltb_lt _ _)) by lia. cbn. rewrite (proj2 (Z.leb_le _ _)) by lia. cbn. by destruct e.
Qed.

Lemma xmp_end_of_input x :
  0 ≤ events_read x < max_xml_events l → xmp_loop l base64 [] x = Ok x.
Proof using Hevents.
  intros Hn. cbn [xmp_loop]. unfold uadd, checked_add.
  rewrite (proj2 (Z.ltb_lt _ _)) by lia. cbn. by rewrite (proj2 (Z.leb_le _ _)) by lia.
Qed.

Lemma xmp_start_ok name attributes n d m ps :
  0 ≤ d < max_xml_depth l →
  xmp_start l base64 name (xml_attributes attributes) n (mkXmp d m None ps) =
    qs ← mapM decode_property (attribute_properties attributes);
    Ok (mkXmp (d + 1) n ((λ p, (p, d + 1, [])) <$> property_name name) (ps ++ qs)).
Proof using Hdepth.
  intros Hd. unfold xmp_start, uadd, checked_add. cbn [depth].
  rewrite (proj2 (Z.ltb_lt _ _)) by lia. cbn. rewrite (proj2 (Z.leb_le _ _)) by lia. cbn.
  by rewrite push_attributes_spec, result_bind_assoc.
Qed.

Lemma events_of_nonempty x : (0 < length (events_of x))%nat.
Proof using. destruct x; cbn; lia. Qed.

(** The text of a property's element. *)
Lemma xmp_text kids rest p d n v ps :
  forallb is_text kids = true → 0 ≤ n → n + blen (forest_events kids) < max_xml_events l →
  xmp_loop l base64 (forest_events kids ++ rest) (mkXmp d n (Some (p, d, v)) ps) =
  xmp_loop l base64 rest
    (mkXmp d (n + blen (forest_events kids)) (Some (p, d, v ++ (kids ≫= text_of))) ps).
Proof using Hevents.
  revert n v. induction kids as [|k kids IH]; intros n v Hk Hn Hm.
  { cbn. by rewrite app_nil_r, Z.add_0_r. }
  cbn in Hk. simp_bool. unfold forest_events in *. cbn [foldr] in *.
  assert (∀ s, length (events_of k) = 1%nat → text_of k = s → (∀ es, xmp_loop l base64 (events_of k ++ es) (mkXmp d n (Some (p, d, v)) ps) =
    xmp_loop l base64 es (mkXmp d (n + 1) (Some (p, d, v ++ s)) ps)) →
    xmp_loop l base64 ((events_of k ++ foldr (λ k es, events_of k ++ es) [] kids) ++ rest) (mkXmp d n (Some (p, d, v)) ps) =
    xmp_loop l base64 rest (mkXmp d (n + blen (events_of k ++ foldr (λ k es, events_of k ++ es) [] kids))
      (Some (p, d, v ++ ((k :: kids) ≫= text_of))) ps)) as Hstep.
  { intros s Hl <- Ht. unfold blen in *. rewrite length_app in *. rewrite <- app_assoc, Ht, IH by (done || lia).
    cbn. rewrite <- app_assoc. do 2 f_equal. lia. }
  assert (n < max_xml_events l).
  { unfold blen in Hm. rewrite length_app in Hm. lia. }
  destruct k as [| | | |[[c|]|]| | |]; try done; (eapply Hstep; [done|done|]); intros es; cbn [app events_of];
    (rewrite xmp_turn; [|done|cbn; lia]); cbn [text_of]; by rewrite ?app_nil_r.
Qed.

(** One element and what it holds, then the rest. *)
Lemma xmp_element name attributes kids rest d n ps :
  (∀ rest n ps, 0 ≤ n → n + blen (forest_events kids) < max_xml_events l →
     property_name name = None →
     xmp_loop l base64 (forest_events kids ++ rest) (mkXmp (d + 1) n None ps) =
       qs ← mapM decode_property (forest_properties kids);
       xmp_loop l base64 rest (mkXmp (d + 1) (n + blen (forest_events kids)) None (ps ++ qs))) →
  well_formed (XElem name attributes kids) = true → 0 ≤ d < max_xml_depth l → 0 ≤ n →
  n + blen (events_of (XElem name attributes kids)) < max_xml_events l →
  xmp_loop l base64 (events_of (XElem name attributes kids) ++ rest) (mkXmp d n None ps) =
    qs ← mapM decode_property (properties_of (XElem name attributes kids));
    xmp_loop l base64 rest (mkXmp d (n + blen (events_of (XElem name attributes kids))) None (ps ++ qs)).
Proof using Hdepth Hevents.
  intros IH Hwf Hd Hn Hm. cbn [events_of properties_of] in *. fold (forest_events kids) in *.
  assert (blen (Some (EStart name (xml_attributes attributes)) :: forest_events kids ++ [Some EEnd]) =
    blen (forest_events kids) + 2) as El.
  { unfold blen. rewrite length_cons, length_app. cbn [length]. lia. }
  pose proof (blen_nonneg (forest_events kids)). rewrite El in *.
  rewrite mapM_app_result, result_bind_assoc. cbn [app]. rewrite <- app_assoc.
  rewrite xmp_turn by (done || (cbn; lia)). cbn [xmp_event events_read].
  rewrite xmp_start_ok by lia. rewrite result_bind_assoc. apply result_bind_ext. intros as_.
  rewrite result_bind_assoc. cbn [mbind result_bind]. cbn in Hwf.
  destruct (property_name name) as [p|] eqn:Ep; cbn [fmap option_fmap option_map].
  - rewrite bool_decide_false in Hwf by done.
    rewrite (xmp_text kids _ p (d + 1) (n + 1) []) by (done || lia). cbn [app].
    rewrite xmp_turn by (done || (cbn; lia)). cbn [xmp_event xmp_end events_read active depth found mapM].
    unfold xmp_end. cbn [active depth found]. rewrite Z.eqb_refl. cbn [mbind result_bind].
    rewrite decode_property_pair, !result_bind_assoc. apply result_bind_ext. intros bs. cbn [mbind result_bind].
    unfold checked_sub. rewrite (proj2 (Z.leb_le _ _)) by lia. cbn.
    rewrite <- app_assoc. f_equal. f_equal; lia.
  - rewrite bool_decide_true in Hwf by done. fold (forest_properties kids).
    rewrite IH by (done || lia). apply result_bind_ext. intros qs.
    cbn [app]. rewrite xmp_turn by (done || (cbn; lia)). cbn [xmp_event]. unfold xmp_end. cbn [active depth found mbind result_bind].
    unfold checked_sub. rewrite (proj2 (Z.leb_le _ _)) by lia. cbn. rewrite <- app_assoc. f_equal. f_equal; lia.
Qed.

Lemma xml_induction (P : Xml → Prop) :
  (∀ name attributes kids, Forall P kids → P (XElem name attributes kids)) →
  (∀ x, (∀ name attributes kids, x ≠ XElem name attributes kids) → P x) → ∀ x, P x.
Proof using.
  intros He Hl. fix IH 1. intros [name attributes kids|name attributes|s|s|c| | |]; [|by apply Hl..].
  apply He. induction kids as [|k kids IHk]; constructor; [apply IH | exact IHk].
Qed.

Definition tree_spec (x : Xml) : Prop := ∀ rest d n ps,
  well_formed x = true → 0 ≤ d → d + xml_height x ≤ max_xml_depth l → 0 ≤ n →
  n + blen (events_of x) < max_xml_events l →
  xmp_loop l base64 (events_of x ++ rest) (mkXmp d n None ps) =
    qs ← mapM decode_property (properties_of x);
    xmp_loop l base64 rest (mkXmp d (n + blen (events_of x)) None (ps ++ qs)).

Lemma forest_spec xs rest d n ps : Forall tree_spec xs →
  forallb well_formed xs = true → 0 ≤ d → d + forest_height xs ≤ max_xml_depth l → 0 ≤ n →
  n + blen (forest_events xs) < max_xml_events l →
  xmp_loop l base64 (forest_events xs ++ rest) (mkXmp d n None ps) =
    qs ← mapM decode_property (forest_properties xs);
    xmp_loop l base64 rest (mkXmp d (n + blen (forest_events xs)) None (ps ++ qs)).
Proof using.
  intros Hall. revert n ps. induction Hall as [|x xs Hx _ IH]; intros n ps Hwf Hd Hh Hn Hm.
  { cbn. by rewrite app_nil_r, Z.add_0_r. }
  unfold forest_events, forest_height, forest_properties in *. cbn [foldr] in *. cbn [forallb] in Hwf.
  simp_bool.
  assert (blen (events_of x ++ foldr (λ k es, events_of k ++ es) [] xs) =
    blen (events_of x) + blen (foldr (λ k es, events_of k ++ es) [] xs)) as El.
  { unfold blen. rewrite length_app. lia. }
  rewrite El in *. pose proof (blen_nonneg (events_of x)).
  pose proof (blen_nonneg (foldr (λ k es, events_of k ++ es) [] xs)).
  rewrite <- app_assoc, (Hx _ d n ps) by (done || lia).
  rewrite mapM_app_result, result_bind_assoc. apply result_bind_ext. intros qs.
  rewrite IH by (done || lia). rewrite result_bind_assoc. apply result_bind_ext. intros qs'. cbn.
  rewrite <- app_assoc. do 2 f_equal. lia.
Qed.

Lemma xmp_empty_ok name attributes n d m ps :
  0 ≤ d < max_xml_depth l →
  xmp_empty l base64 name (xml_attributes attributes) n (mkXmp d m None ps) =
    qs ← mapM decode_property (properties_of (XEmpty name attributes)); Ok (mkXmp d n None (ps ++ qs)).
Proof using Hdepth.
  intros Hd. unfold xmp_empty, checked_add. cbn [depth active found].
  rewrite (proj2 (Z.ltb_lt _ _)) by lia. cbn [mbind result_bind].
  rewrite (proj2 (Z.leb_le _ _)) by lia. cbn [ensure mbind result_bind bool_decide].
  rewrite bool_decide_true by done. cbn [ensure mbind result_bind].
  rewrite push_attributes_spec, result_bind_assoc. cbn [properties_of].
  rewrite mapM_app_result, result_bind_assoc. apply result_bind_ext. intros as_. cbn [mbind result_bind].
  destruct (property_name name) as [p|]; cbn [mapM].
  - rewrite decode_property_pair, !result_bind_assoc. apply result_bind_ext. intros bs. cbn.
    by rewrite <- app_assoc.
  - cbn. by rewrite app_nil_r.
Qed.

Lemma tree_ok x : tree_spec x.
Proof using Hdepth Hevents.
  induction x as [name attributes kids IH|x Hx] using xml_induction; intros rest d n ps Hwf Hd Hh Hn Hm.
  - cbn [xml_height] in Hh. fold (forest_height kids) in Hh.
    assert (0 ≤ forest_height kids) by (clear; unfold forest_height; induction kids as [|k ks IHk]; cbn [foldr]; lia).
    apply xmp_element; [|done|lia|done|done]. intros rest' n' ps' Hn' Hm' Hp.
    apply forest_spec; [done| |lia|lia|done|done].
    cbn in Hwf. by rewrite bool_decide_true in Hwf by done.
  - destruct x as [name attributes kids|name attributes|s|s|c| | |]; [by destruct (Hx name attributes kids)|..];
      cbn [events_of app blen length] in *; unfold blen in *; cbn [length] in *;
      (rewrite xmp_turn; [|done|cbn; lia]); cbn [xmp_event events_read]; [|cbn; by rewrite app_nil_r..].
    cbn [xml_height] in Hh. rewrite xmp_empty_ok by lia. rewrite result_bind_assoc.
    by apply result_bind_ext.
Qed.
End Xmp.

(** C39.  Parsing an XMP packet reads its tree: on the events of any document
    (declaration, processing instructions and comments, elements whose attributes
    can be read, text, references) of at most 4095 events, nested at most 32
    deep, and without a DTD, in which the elements of Apple's properties hold
    only text, character data and character references, the parser decodes the
    attributes and elements that are Apple's properties, in document order, and
    nothing else; it fails exactly when one does not decode, with the first such
    error. *)
Theorem parse_xmp_reads_the_tree base64 xs :
  forallb well_formed xs = true → forest_height xs ≤ 32 → blen (forest_events xs) < 4096 →
  parse_xmp default_limits base64 (forest_events xs) =
    mapM (decode_property default_limits base64) (forest_properties xs).
Proof.
  intros Hwf Hh Hm. unfold parse_xmp. rewrite <- (app_nil_r (forest_events xs)).
  assert (Forall (tree_spec default_limits base64) xs) as Hall.
  { apply Forall_true. intros x. apply tree_ok; cbn; lia. }
  rewrite (forest_spec default_limits base64 xs [] 0 0 []) by (done || (cbn; lia)).
  rewrite result_bind_assoc. destruct (mapM _ _) as [qs|e]; [|done]. cbn [mbind result_bind app].
  pose proof (blen_nonneg (forest_events xs)).
  rewrite xmp_end_of_input by (cbn; lia). done.
Qed.

Definition apple (s : string) : QName := mkQName (Some APPLE_DESKTOP_NAMESPACE) (str s).
(** A packet as it stands in a file, in its wrapper. *)
Definition example_xmp : list Xml :=
  [XDecl; XPI; XText (str " ");
   XElem (mkQName None (str "RDF")) []
     [XRef (Some None); XEmpty (mkQName None (str "Description")) [(apple "h24", str "AA==")]; XComment;
      XElem (apple "solar") [] [XText (str "AQ"); XCData (str "="); XRef (Some (Some 61)); XText (str " ")]];
   XText (str " "); XPI].
(** A decoder that knows two texts. *)
Definition two_texts (s : list Z) : option (list byte) :=
  if bool_decide (s = str "AA==") then Some [to_u8 0]
  else if bool_decide (s = str "AQ==") then Some [to_u8 1] else None.

Lemma parse_xmp_reads_the_tree_witness :
  parse_xmp default_limits two_texts (forest_events example_xmp) =
    Ok [(H24, [to_u8 0]); (Solar, [to_u8 1])].
Proof.
  rewrite (parse_xmp_reads_the_tree two_texts example_xmp);
    [vm_compute; reflexivity | vm_compute; reflexivity | vm_compute; discriminate | vm_compute; reflexivity].
Defined.

(** ** Accepted schedules *)

Section Images.
Context (images : TopLevelImages).

Definition present (i : ImageReference) : Prop := is_Some (resolve images i).
Definition appearance_ok (a : Appearance) : Prop := present (light a) ∧ present (dark a).
Definition time_point_ok (p : TimePoint) : Prop :=
  present (tp_image p) ∧ is_finite (tp_time p) = true ∧ in_range (f64_of 0) (f64_of 1) (tp_time p) = true.
Definition solar_point_ok (p : SolarPoint) : Prop :=
  present (sp_image p) ∧
  in_range_incl (f64_of (-90)) (f64_of 90) (altitude_degrees (sp_position p)) = true ∧
  in_range (f64_of 0) (f64_of 360) (azimuth_degrees (sp_position p)) = true.
Definition schedule_ok {T} (ok : T → Prop) (n : Z) (s : Schedule T) : Prop :=
  1 ≤ blen (points s) ≤ n ∧ Forall ok (points s) ∧
  ∀ a, s_appearance s = Some a → appearance_ok a.
Definition value_ok (n : Z) (v : PropertyValue) : Prop :=
  match v with
  | VTime s => schedule_ok time_point_ok n s
  | VSolar s => schedule_ok solar_point_ok n s
  | VAppearance a => appearance_ok a
  end.

Lemma image_reference_Ok d key i : image_reference d key images = Ok i → present i.
Proof using.
  unfold image_reference. intros H. inv_ok. simp_bool. done.
Qed.

Lemma parse_appearance_Ok d a : parse_appearance d images = Ok a → appearance_ok a.
Proof using.
  unfold parse_appearance. intros H. inv_ok. split; by eapply image_reference_Ok.
Qed.

Lemma optional_appearance_Ok d o a : optional_appearance d images = Ok o → o = Some a → appearance_ok a.
Proof using.
  unfold optional_appearance. destruct (get d "ap") as [v|]; [|congruence]. intros H ->. inv_ok.
  simplify_eq. by eapply parse_appearance_Ok.
Qed.

Lemma model_Ok {A} (r : result ModelError A) a : model r = Ok a → r = Ok a.
Proof using. destruct r; cbn; congruence. Qed.

Lemma each_point_Ok {A} (f : Value → result Error A) (P : A → Prop) vs xs :
  (∀ v a, f v = Ok a → P a) → each_point f vs = Ok xs → Forall P xs ∧ blen xs = blen vs.
Proof using.
  intros Hf. revert xs. induction vs as [|v vs IH]; cbn; intros xs H.
  - inv_ok. by split; [constructor|].
  - inv_ok. match goal with H : each_point f vs = Ok _ |- _ => destruct (IH _ H) as [? Hl] end. split; [constructor; eauto|].
    unfold blen in *. cbn. lia.
Qed.

Lemma time_point_Ok v p : time_point images v = Ok p → time_point_ok p.
Proof using.
  unfold time_point. intros H. inv_ok.
  match goal with H : model _ = Ok _ |- _ => apply model_Ok in H; unfold normalized_time_new in H end.
  destruct (_ && _) eqn:E; [|done]. simp_bool. simplify_eq.
  split; [by eapply image_reference_Ok | done].
Qed.

Lemma solar_point_Ok v p : solar_point images v = Ok p → solar_point_ok p.
Proof using.
  unfold solar_point. intros H. inv_ok.
  match goal with H : model _ = Ok _ |- _ => apply model_Ok in H; unfold solar_position_new in H end.
  repeat case_match; simplify_eq. simp_bool.
  split; [by eapply image_reference_Ok | done].
Qed.

Lemma schedule_new_Ok {T} (ps : list T) a s : model (schedule_new ps a) = Ok s → s = mkSchedule ps a.
Proof using. intros H%model_Ok. destruct ps; cbn in H; congruence. Qed.

(** A parsed property is of its own kind and names images that exist. *)
Lemma parse_property_Ok l lib name bytes k v :
  parse_property l lib name bytes images = Ok (k, v) →
  property v = k ∧ value_ok (max_schedule_points l) v.
Proof using.
  unfold parse_property. intros H. inv_ok. destruct name.
  - match goal with H : parse_h24 _ _ _ = Ok _ |- _ => unfold parse_h24 in H end. inv_ok. simplify_eq.
    match goal with H : model (schedule_new _ _) = Ok _ |- _ => apply schedule_new_Ok in H as -> end.
    match goal with H : each_point (time_point _) ?vs = Ok _ |- _ =>
      destruct (each_point_Ok _ time_point_ok _ _ time_point_Ok H) as [Hf Hl]; destruct vs; [done|] end.
    split; [done|]. simp_bool. split; cbn; [|split; [done|]].
    + rewrite Hl. unfold blen in *. cbn [length] in *. lia.
    + intros a Ha. by eapply optional_appearance_Ok.
  - match goal with H : parse_solar _ _ _ = Ok _ |- _ => unfold parse_solar in H end. inv_ok. simplify_eq.
    match goal with H : model (schedule_new _ _) = Ok _ |- _ => apply schedule_new_Ok in H as -> end.
    match goal with H : each_point (solar_point _) ?vs = Ok _ |- _ =>
      destruct (each_point_Ok _ solar_point_ok _ _ solar_point_Ok H) as [Hf Hl]; destruct vs; [done|] end.
    split; [done|]. simp_bool. split; cbn; [|split; [done|]].
    + rewrite Hl. unfold blen in *. cbn [length] in *. lia.
    + intros a Ha. by eapply optional_appearance_Ok.
  - match goal with H : parse_apr _ _ = Ok _ |- _ => unfold parse_apr in H end. inv_ok. simplify_eq. split; [done|]. by eapply parse_appearance_Ok.
Qed.
End Images.

Record metadata_ok (images : TopLevelImages) (n : Z) (m : Metadata) : Prop := {
  time_ok s : m_time m = Valid s → schedule_ok images (time_point_ok images) n s;
  solar_ok s : m_solar m = Valid s → schedule_ok images (solar_point_ok images) n s;
  appearance_state_ok a : m_appearance m = Valid a → appearance_ok images a;
}.

Lemma insert_property_Valid {T} `{PartialEq T} (P : T → Prop) st p v st' r :
  (∀ x, st = Valid x → P x) → P v → insert_property st p v = (st', r) → ∀ x, st' = Valid x → P x.
Proof.
  intros Hst Hv. unfold insert_property. destruct st as [|e|]; [|destruct (eqb e v)|];
    intros [= <- <-] x [= <-]; auto.
Qed.

Lemma insert_metadata_ok images n m p v m' :
  metadata_ok images n m → value_ok images n v → insert_metadata_property m p v = Ok m' →
  metadata_ok images n m'.
Proof.
  intros [Ht Hs Ha] Hv. unfold insert_metadata_property.
  destruct (insert m p v) as [m1 r] eqn:E. intros H.
  assert (m' = m1) as -> by (destruct r as [|[]]; cbn in H; congruence). clear H. unfold insert in E.
  destruct (negb _); [by simplify_eq|]. destruct v as [s|s|a]; cbn in Hv;
    destruct (insert_property _ _ _) as [st r'] eqn:Ei; injection E as <- <-; split; cbn; auto;
    by eapply insert_property_Valid.
Qed.

Lemma read_blocks_ok l lib images blocks total m m' :
  metadata_ok images (max_schedule_points l) m → read_blocks l lib blocks images total m = Ok m' →
  metadata_ok images (max_schedule_points l) m'.
Proof.
  assert (∀ ps m m', metadata_ok images (max_schedule_points l) m →
    insert_properties l lib ps images m = Ok m' → metadata_ok images (max_schedule_points l) m') as Hins.
  { induction ps as [|[name bytes] ps IH]; cbn; intros m1 m2 Hm H; [by simplify_eq|].
    apply bind_Ok in H as ([k v] & Hp & H). inv_ok. apply parse_property_Ok in Hp as [_ Hv].
    eapply IH; [|done]. by eapply insert_metadata_ok. }
  revert total m. induction blocks as [|b blocks IH]; cbn [read_blocks]; intros total m Hm H; [by simplify_eq|].
  inv_ok. destruct (_ || _); [by eapply IH|]. inv_ok. eapply IH; [|done]. by eapply Hins.
Qed.

(** Whatever a file's metadata holds and however its property lists were
    crafted: every image that can be selected from accepted metadata, under any
    preference, with or without a location, is an image of the file, and a
    schedule has between 1 and 256 points, with times in the day and positions
    on the sky. *)
Theorem metadata_images_present lib count blocks images m appearance solar located :
  read_metadata default_limits lib count blocks images = Ok m →
  match select m appearance solar located with
  | SelTime s => schedule_ok images (time_point_ok images) 256 s
  | SelSolar s => schedule_ok images (solar_point_ok images) 256 s
  | SelStatic i => present images i
  | SelPrimary => True
  end.
Proof.
  unfold read_metadata. intros H. inv_ok.
  match goal with H : read_blocks _ _ _ _ _ _ = Ok _ |- _ => apply read_blocks_ok in H as [Ht Hs Ha]; [|by split] end.
  assert (∀ f : Appearance → ImageReference, (∀ a, appearance_ok images a → present images (f a)) →
    ∀ a, fallback_appearance m = Some a → present images (f a)) as Hf.
  { intros f Hp a Hfall. apply Hp. unfold fallback_appearance in Hfall.
    destruct (m_appearance m) as [|v|] eqn:Ea; cbn in Hfall;
      [|simplify_eq; by apply Ha|];
      (destruct (m_time m) as [|s|] eqn:Et; cbn in Hfall;
       [|destruct (s_appearance s) eqn:Es; [simplify_eq; cbn in *; simplify_eq; by apply (Ht s)|]|]);
      cbn in Hfall; destruct (m_solar m) as [|s'|] eqn:Eso; cbn in Hfall; try done; by apply (Hs s'). }
  assert (∀ f : Appearance → ImageReference, (∀ a, appearance_ok images a → present images (f a)) →
    match from_option (λ a, SelStatic (f a)) SelPrimary (fallback_appearance m) with
    | SelTime s => schedule_ok images (time_point_ok images) 256 s
    | SelSolar s => schedule_ok images (solar_point_ok images) 256 s
    | SelStatic i => present images i
    | SelPrimary => True
    end) as Hfall.
  { intros f Hp. destruct (fallback_appearance m) eqn:E; cbn; [by eapply Hf|done]. }
  unfold select. destruct appearance; [|by apply Hfall; intros a []..].
  assert (∀ o, value (m_solar m) = o → ∀ s, (if solar && located then o else None) = Some s →
    schedule_ok images (solar_point_ok images) 256 s) as Hsolar.
  { intros o <- s. destruct (_ && _); [|done]. destruct (m_solar m); cbn; intros; simplify_eq; by apply Hs. }
  destruct (if solar && located then _ else _) as [s|] eqn:E; [by eapply Hsolar|].
  destruct (m_time m) as [|s|] eqn:Et; cbn; [|by apply Ht|]; by apply Hfall; intros a [].
Qed.

(** A library in which every list is the dictionary [{"d": 1, "l": 0}]. *)
Definition two_image_library : Library :=
  mkLibrary (λ _, forest_events
      [XElem (apple "apr") [] [XText (str "AA==")]])
    (λ _, None) (λ _, Some (VDictionary [(str "d", VInteger 1); (str "l", VInteger 0)]))
    (λ _, Some (bytes_of "<")).
Definition xmp_block : Block := mkBlock 10 (str "mime") (str "application/rdf+xml") (Some []).

Lemma metadata_images_present_witness :
  read_metadata default_limits two_image_library 1 [xmp_block] [7; 9] =
    Ok (mkMetadata Missing Missing (Valid (mkAppearance 0 1))) ∧
  present [7; 9] 1.
Proof.
  assert (read_metadata default_limits two_image_library 1 [xmp_block] [7; 9] =
    Ok (mkMetadata Missing Missing (Valid (mkAppearance 0 1)))) as E by (vm_compute; reflexivity).
  split; [exact E|].
  exact (metadata_images_present two_image_library 1 [xmp_block] [7; 9] _ Dark false false E).
Defined.

(** ** What the XML preflight bounds *)

(** The events up to the reader's end. *)
Fixpoint before_end (es : list (option Event)) : list (option Event) :=
  match es with
  | [] | Some EEof :: _ => []
  | e :: es => e :: before_end es
  end.
(** Open elements, counting an empty one as open at its own place. *)
Definition opens (e : option Event) : Z :=
  match e with Some (EStart _ _) => 1 | Some EEnd => -1 | _ => 0 end.
Definition level (es : list (option Event)) : Z := foldr (λ e n, opens e + n) 0 es.
Definition own_level (e : option Event) : Z := match e with Some (EEmpty _ _) => 1 | _ => 0 end.
Definition value_element (e : option Event) : bool :=
  match e with
  | Some (EStart name _) | Some (EEmpty name _) => bool_decide (local name ∈ plist_elements)
  | _ => false
  end.
Definition value_elements (es : list (option Event)) : Z := blen (List.filter value_element es).

Section XmlPlist.
Context (l : Limits) (Hdepth : 0 ≤ max_plist_depth l < 2 ^ 62) (Hevents : 0 ≤ max_xml_events l < 2 ^ 62).

Lemma wp_charge_element name objects bytes Q :
  (∀ objects' bytes',
     objects' = objects + (if bool_decide (name ∈ plist_elements) then 1 else 0) →
     objects' ≤ Z.max objects (max_expanded_plist_objects l) → Q (objects', bytes')) →
  wp (charge_plist_element l name objects bytes) Q.
Proof using.
  intros HQ. unfold charge_plist_element. destruct (bool_decide _); cbn [negb]; [|wp_step; apply HQ; lia].
  do 2 wp_step. match goal with H : checked_add _ _ _ = Some _ |- _ => apply checked_add_Some in H as [-> _] end.
  do 2 wp_step. wp_step. unfold charge_expanded_bytes. do 4 wp_step. wp_step. wp_step. apply HQ; lia.
Qed.

(** Every place of the rest of the document is within the depth. *)
Definition levels_ok (d : Z) (es : list (option Event)) : Prop :=
  ∀ pre e post, es = pre ++ e :: post →
    0 ≤ d + level pre ∧ d + level pre + Z.max (opens e) (own_level e) ≤ max_plist_depth l.

Lemma levels_cons d e es :
  0 ≤ d → d + Z.max (opens e) (own_level e) ≤ max_plist_depth l → levels_ok (d + opens e) es →
  levels_ok d (e :: es).
Proof using.
  intros H0 H1 Hes [|e' pre] e2 post E; cbn in E; injection E as -> E.
  - cbn. lia.
  - cbn. destruct (Hes pre e2 post E). unfold level in *. lia.
Qed.

Lemma wp_xml_plist_loop es w Q :
  0 ≤ x_depth w ≤ max_plist_depth l → 0 ≤ x_events w ≤ max_xml_events l →
  (∀ w', levels_ok (x_depth w) (before_end es) →
     x_depth w' = x_depth w + level (before_end es) →
     x_objects w' = x_objects w + value_elements (before_end es) →
     x_objects w' ≤ Z.max (x_objects w) (max_expanded_plist_objects l) →
     x_events w + blen (before_end es) < max_xml_events l → Q w') →
  wp (xml_plist_loop l es w) Q.
Proof using Hdepth Hevents.
  assert (∀ e es', value_elements (e :: es') = (if value_element e then 1 else 0) + value_elements es') as Hv.
  { intros. unfold value_elements. cbn. destruct (value_element e); unfold blen; cbn [length]; lia. }
  assert (∀ (e : option Event) es', blen (e :: es') = 1 + blen es') as Hl.
  { intros. unfold blen. cbn [length]. lia. }
  assert (∀ e es', level (e :: es') = opens e + level es') as Hlv by done.
  assert (∀ d, levels_ok d []) as Hnil.
  { intros d [|? ?] ? ? ?; discriminate. }
  revert w Q. induction es as [|e es IH]; intros w Q Hd Hn HQ; cbn [xml_plist_loop];
    (wp_step; apply wp_uadd; [lia|]; do 2 wp_step).
  { wp_step. apply HQ; unfold value_elements, blen; cbn; try done; lia. }
  assert (0 ≤ blen (before_end es)) by apply blen_nonneg.
  destruct e as [e|]; [|wp_step].
  destruct e as [name at_|name at_|s|s| | |c| | | |];
    try (wp_step; apply HQ; unfold value_elements, blen; cbn; try done; lia);
    try (apply IH; cbn [x_depth x_events x_objects]; [done|lia|]; intros w' L1 L2 L3 L4 L5; apply HQ; cbn [before_end];
         rewrite ?Hv, ?Hl, ?Hlv; cbn [opens value_element]; [apply levels_cons; cbn; [lia..|by rewrite Z.add_0_r]|lia..]).
  - wp_step. apply wp_uadd; [lia|]. do 2 wp_step. wp_step. apply wp_charge_element. intros objects bytes Ho Hm.
    apply IH; cbn [x_depth x_events x_objects]; [lia|lia|]. intros w' L1 L2 L3 L4 L5. apply HQ; cbn [before_end];
      rewrite ?Hv, ?Hl, ?Hlv; cbn [opens value_element]; [apply levels_cons; cbn; [lia|lia|done]|lia|lia|lia|lia].
  - wp_step. apply wp_uadd; [lia|]. do 2 wp_step. wp_step. apply wp_charge_element. intros objects bytes Ho Hm.
    apply IH; cbn [x_depth x_events x_objects]; [lia|lia|]. intros w' L1 L2 L3 L4 L5. apply HQ; cbn [before_end];
      rewrite ?Hv, ?Hl, ?Hlv; cbn [opens value_element]; [apply levels_cons; cbn; [lia|lia|by rewrite Z.add_0_r]|lia|lia|lia|lia].
  - do 2 wp_step. match goal with H : checked_sub _ _ = Some _ |- _ => apply checked_sub_Some in H as [-> ?] end.
    apply IH; cbn [x_depth x_events x_objects]; [lia|lia|]. intros w' L1 L2 L3 L4 L5. apply HQ; cbn [before_end];
      rewrite ?Hv, ?Hl, ?Hlv; cbn [opens value_element]; [apply levels_cons; cbn; [lia|lia|]|lia..].
    by replace (x_depth w + -1) with (x_depth w - 1) by lia.
Qed.
End XmlPlist.

(** The preflight of an XML property list, whatever events its bytes yield,
    neither overflows nor loops; and what it accepts has at most 512 KiB and
    4095 events, closes every element it opens, is nowhere nested deeper than
    32, and has at most 4096 elements that become values. *)
Theorem xml_preflight_sound xml_events bytes :
  wp (preflight_xml_plist default_limits xml_events bytes) (λ _,
    let es := before_end (xml_events bytes) in
    blen bytes ≤ 512 * 1024 ∧ blen es < 4096 ∧ level es = 0 ∧
    levels_ok default_limits 0 es ∧ value_elements es ≤ 4096).
Proof.
  unfold preflight_xml_plist. do 6 wp_step. wp_step.
  apply wp_xml_plist_loop; [cbn; lia..|]. intros w L1 L2 L3 L4 L5. cbn in L2, L3, L4, L5.
  apply wp_ensure; [done..|]. intros Hd. simp_bool. cbn in *. split; [done|]. split; [lia|]. split; [lia|].
  split; [done|]. lia.
Qed.
