(* ===== verification/HeicFrame.v ===== *)
(** * HEIC documents: opening and decoding ([src/dynamic_wallpaper/heic.rs],
      [src/stable_file.rs])

    What happens between the file and a frame: the checks before the native
    parser runs, those on what it yields, and the conversion of a decoded plane
    to packed, opaque RGBA.  libheif, the color library and the file system are
    parameters. *)

From S2P Require Import Prelude Utf8 Heic HeicColor HeicMetadata DynamicModel.
From S2P Require Container.

(** ** Stable file reads *)

Inductive OpenError := Unavailable | MetadataError | NotRegular | Reopen.

(** The answers of the calls in order: the path descriptor, whether it is a
    regular file, the reopened descriptor. *)
Definition open_regular {A} (bound : bool) (is_file : option bool) (reopened : option A) : result OpenError A :=
  _ ← ensure bound Unavailable;
  f ← ok_or MetadataError is_file;
  _ ← ensure f NotRegular;
  ok_or Reopen reopened.

(** ** Packing a plane *)

Fixpoint chunks_fuel {A} (fuel n : nat) (s : list A) : list (list A) :=
  match fuel, s with
  | S fuel, _ :: _ => take n s :: chunks_fuel fuel n (drop n s)
  | _, _ => []
  end.
(** [chunks(n)] and [chunks_mut(n)], for a positive [n]: every chunk takes at
    least one element. *)
Definition chunks {A} (n : nat) (s : list A) : list (list A) := chunks_fuel (length s) n s.

(** A pixel is four channels; [chunks_exact_mut(4)] leaves a rest alone. *)
Fixpoint map_pixels (f : byte → byte → byte → byte → list byte) (px : list byte) : list byte :=
  match px with
  | r :: g :: b :: a :: px => f r g b a ++ map_pixels f px
  | _ => px
  end.

(** One channel of [unpremultiply], in [u16]. *)
Definition divide_alpha (alpha : Z) (c : byte) : byte :=
  to_u8 (Z.min ((u8 c * 255 + alpha / 2) / alpha) 255).
Definition unpremultiply_pixel (r g b a : byte) : list byte :=
  let alpha := u8 a in
  if alpha =? 255 then [r; g; b; a]
  else if alpha =? 0 then [to_u8 0; to_u8 0; to_u8 0; a]
  else [divide_alpha alpha r; divide_alpha alpha g; divide_alpha alpha b; a].
Definition unpremultiply : list byte → list byte := map_pixels unpremultiply_pixel.

(** One channel of [composite_over_black], in [u16]. *)
Definition over_black (alpha : Z) (c : byte) : byte := to_u8 ((u8 c * alpha + 127) / 255).
Definition composite_pixel (premultiplied_alpha : bool) (r g b a : byte) : list byte :=
  let alpha := u8 a in
  if premultiplied_alpha then [r; g; b; to_u8 255]
  else [over_black alpha r; over_black alpha g; over_black alpha b; to_u8 255].
Definition composite_over_black (premultiplied_alpha : bool) : list byte → list byte :=
  map_pixels (composite_pixel premultiplied_alpha).

Definition ICC_CONVERSION_CHUNK_BYTES : Z := 1024 * 1024.

Section Convert.
(** A transform fills a scratch slice of the chunk's length, or fails. *)
Context (transform : list byte → option (list byte)).

Fixpoint convert_chunks (cs : list (list byte)) : result Error (list byte) :=
  match cs with
  | [] => Ok []
  | c :: cs =>
    scratch ← ok_or (UnsupportedColor "embedded ICC profile conversion failed") (transform c);
    rest ← convert_chunks cs;
    Ok (scratch ++ rest)
  end.
Definition convert_to_srgb (px : list byte) : result Error (list byte) :=
  convert_chunks (chunks (Z.to_nat ICC_CONVERSION_CHUNK_BYTES) px).
End Convert.

Record RgbaFrame := mkFrame { width : Z; height : Z; pixels : list byte }.

(** [for row in source.chunks(stride).take(height)]. *)
Fixpoint pack_rows (rows : list (list byte)) (row_bytes : Z) : result Error (list byte) :=
  match rows with
  | [] => Ok []
  | row :: rows => p ← sub row 0 row_bytes; rest ← pack_rows rows row_bytes; Ok (p ++ rest)
  end.

(** The checks, and the rows without their padding. *)
Definition pack_plane (l : Limits) (source : list byte) (stride width height : Z) : result Error (list byte) :=
  row_bytes ← ok_or (ELimit "decoded image memory") (checked_mul 64 width 4);
  output_bytes ← ok_or (ELimit "decoded image memory") (checked_mul 64 row_bytes height);
  _ ← ensure (output_bytes <=? max_output_bytes l) (ELimit "decoded image memory");
  _ ← ensure (row_bytes <=? stride) (EDecode "decoded row stride is too short");
  required ← ok_or (EDecode "decoded plane size overflow") (checked_mul 64 stride height);
  _ ← ensure (required <=? blen source) (EDecode "decoded plane is truncated");
  _ ← ensure (0 <? stride) Panic;
  pack_rows (take (Z.to_nat height) (chunks (Z.to_nat stride) source)) row_bytes.

Definition pack_rgba (l : Limits) (source : list byte) (stride width height : Z)
    (premultiplied_alpha : bool) (color : option (list byte → option (list byte))) :
    result Error RgbaFrame :=
  px ← pack_plane l source stride width height;
  px ← match color with
       | Some transform =>
         convert_to_srgb transform (if premultiplied_alpha then unpremultiply px else px)
       | None => Ok px
       end;
  Ok (mkFrame width height
        (composite_over_black (premultiplied_alpha && bool_decide (color = None)) px)).

(** ** Documents *)

(** What libheif shows of an image, and what it decodes it to. *)
Record Plane := mkPlane {
  plane_data : list byte;
  plane_stride : Z;
  plane_width : Z;
  plane_height : Z;
  bits_per_pixel : Z;
  storage_bits_per_pixel : Z;
}.
Record Decoded := mkDecoded {
  d_has_raw_profile : bool;
  d_nclx : option (ColorPrimaries * TransferCharacteristics);
  d_premultiplied : bool;
  d_plane : option Plane;
}.
Record Handle := mkHandle {
  h_width : Z;
  h_height : Z;
  h_item : Z;
  h_color : ColorInfo;
  h_block_count : Z;
  h_blocks : list Block;
  h_decoded : result string Decoded;
}.
(** [limits_relaxed]: the answer to the last [set_security_limits]. *)
Record Context := mkContext {
  image_ids : list Z;
  primary_handle : result string Handle;
  image_handle : Z → result string Handle;
  limits_relaxed : result string unit;
}.

(** [map_err(container_error)] and [map_err(decode_error)]. *)
Definition container_result {A} (r : result string A) : result Error A :=
  match r with Ok a => Ok a | Err e => Err (EContainer e) end.
Definition decode_result {A} (r : result string A) : result Error A :=
  match r with Ok a => Ok a | Err e => Err (EDecode e) end.

Definition validate_dimensions (l : Limits) (h : Handle) : result Error unit :=
  px ← ok_or (ELimit "image dimensions") (checked_mul 64 (h_width h) (h_height h));
  ensure (negb ((h_width h =? 0) || (h_height h =? 0) || (max_width l <? h_width h)
                || (max_height l <? h_height h) || (max_pixels l <? px)))
    (ELimit "image dimensions").

(** [item_ids.iter().position(..)]. *)
Fixpoint position_of (id : Z) (ids : list Z) (i : Z) : option Z :=
  match ids with
  | [] => None
  | x :: ids => if x =? id then Some i else position_of id ids (i + 1)
  end.

Record Document := mkDocument {
  context : Context;
  images : TopLevelImages;
  primary : ImageReference;
  metadata : Metadata;
}.

(** [path.is_absolute()], the opened file, its length, the rewind, what is read
    of it. *)
Record Source := mkSource {
  absolute : bool;
  opened : result OpenError unit;
  source_len : option Z;
  rewound : bool;
  contents : option (list byte);
  snapshot_made : bool;
}.

Definition container_budget (l : Limits) : Container.Budget :=
  Container.mkBudget (max_container_items l) (max_container_associations l)
    (Z.min (2 ^ 32 - 1) (max_metadata_items l)) (max_metadata_bytes l) (max_container_boxes l)
    (max_container_depth l) (max_item_extents l).
Definition container_error (e : Container.Error) : Error :=
  match e with
  | Container.EContainer s => EContainer s
  | Container.ELimit s => ELimit s
  | Container.Panic => Panic
  | Container.Fuel => Fuel
  end.

Section Document.
Context (l : Limits) (lib : Library).
(** libheif's parser, of the bytes of the snapshot, under its own limits. *)
Context (heif_read : list byte → result string Context).
Context {Profile : Type} (new_from_slice : list byte → option Profile) (is_rgb : Profile → bool)
  (create_transform : Profile → option (list byte → option (list byte))).

Definition open_message (e : OpenError) : string :=
  match e with
  | Unavailable => "file is unavailable"
  | MetadataError => "file metadata is unavailable"
  | NotRegular => "path is not a regular file"
  | Reopen => "stable file could not be reopened"
  end.

(** What is known to the preflight and to the parser is the same bytes. *)
Definition checked_source (s : Source) : result Error (list byte) :=
  _ ← ensure (absolute s) (EOpen "path is not absolute");
  _ ← match opened s with Ok _ => Ok tt | Err e => Err (EOpen (open_message e)) end;
  n ← ok_or (EOpen "file metadata is unavailable") (source_len s);
  _ ← ensure (n <=? max_source_bytes l) SourceTooLarge;
  _ ← ensure (rewound s) (EOpen "file could not be rewound");
  bytes ← ok_or (EOpen "file could not be read") (contents s);
  let bytes := take (Z.to_nat n) bytes in
  _ ← match Container.preflight bytes (container_budget l) with
      | Ok _ => Ok tt
      | Err e => Err (container_error e)
      end;
  _ ← ensure (snapshot_made s) (EOpen "anonymous source could not be created");
  Ok bytes.

Definition open_with_limits (s : Source) : result Error Document :=
  bytes ← checked_source s;
  c ← container_result (heif_read bytes);
  _ ← ensure (negb (bool_decide (image_ids c = []))) (EContainer "no top-level images");
  _ ← ensure (blen (image_ids c) <=? max_top_level_images l) (ELimit "top-level item count");
  h ← container_result (primary_handle c);
  _ ← validate_dimensions l h;
  primary ← ok_or (EContainer "primary image is not top-level") (position_of (h_item h) (image_ids c) 0);
  m ← read_metadata l lib (h_block_count h) (h_blocks h) (image_ids c);
  _ ← container_result (limits_relaxed c);
  Ok (mkDocument c (image_ids c) primary m).

Definition decode (d : Document) (image : ImageReference) : result Error RgbaFrame :=
  id ← ok_or MissingImage (resolve (images d) image);
  h ← container_result (image_handle (context d) id);
  _ ← validate_dimensions l h;
  color ← validate_color new_from_slice is_rgb create_transform l (h_color h);
  image ← decode_result (h_decoded h);
  _ ← ensure (negb (bool_decide (color = None) && d_has_raw_profile image))
        (UnsupportedColor "decoded ICC profile");
  _ ← validate_nclx (d_nclx image);
  plane ← ok_or (EDecode "decoder returned no interleaved plane") (d_plane image);
  _ ← ensure ((plane_width plane =? h_width h) && (plane_height plane =? h_height h))
        (EDecode "decoded dimensions do not match the item");
  _ ← ensure ((bits_per_pixel plane =? 8) && (storage_bits_per_pixel plane =? 32))
        (EDecode "decoder returned an unexpected RGBA representation");
  pack_rgba l (plane_data plane) (plane_stride plane) (plane_width plane) (plane_height plane)
    (d_premultiplied image) color.
End Document.
