(* ===== verification/Playback.v ===== *)
(** * Playback of a time schedule ([src/dynamic_wallpaper/playback.rs])

    Selection of the image for the time of day, decode requests with
    generations, and dissolves.  A [Duration] is its number of nanoseconds.
    The process-wide generation counter is passed in and out; the allocation of
    a blend buffer is an argument, the capacity obtained or [None].  A [None]
    result of the constructors and of [synchronize_inner] is the panic of
    [selected_point] on an empty schedule. *)

From S2P Require Import Prelude Utf8 DynamicModel.

Definition NANOS : Z := 1000000000.
Definition from_secs (s : Z) : Z := s * NANOS.
(** [Duration::MAX], and the operations that respect it. *)
Definition DURATION_END : Z := 2 ^ 64 * NANOS.
Definition duration_checked_add (a b : Z) : option Z :=
  if a + b <? DURATION_END then Some (a + b) else None.

Definition RESYNCHRONIZE_AFTER : Z := from_secs 60.
Definition DISSOLVE_DURATION : Z := from_secs 2.
Definition CLOCK_TOLERANCE_NANOSECONDS : Z := 1000000000.
Definition MAX_FRAME_BYTES : Z := 256 * 1024 * 1024.

Record RgbaFrame := mkFrame { width : Z; height : Z; pixels : list byte; capacity : Z }.

Record DecodeRequest := mkRequest { generation : Z; image : ImageReference }.
#[export] Instance DecodeRequest_eq_dec : EqDecision DecodeRequest.
Proof. solve_decision. Defined.

Inductive DecodeOutcome := Ignored | Failed | Rejected | Presented | Transitioning.
#[export] Instance DecodeOutcome_eq_dec : EqDecision DecodeOutcome.
Proof. solve_decision. Defined.

Record SynchronizeOutcome := mkSync {
  selection_changed : bool; discontinuity : bool; presentation_changed : bool }.

Inductive Mode := Static | Time (points : list TimePoint).

Record PendingDecode := mkPending {
  request : DecodeRequest;
  transition_started_at : option Z;
  dispatched : bool;
}.

Record Transition := mkTransition {
  from : RgbaFrame;
  to : RgbaFrame;
  blended : RgbaFrame;
  to_image : ImageReference;
  started_at : Z;
}.

Record Playback := mkPlayback {
  mode : Mode;
  primary : ImageReference;
  reduced_motion : bool;
  selected : ImageReference;
  p_generation : Z;
  pending : option PendingDecode;
  presented : option RgbaFrame;
  presented_image : option ImageReference;
  transition : option Transition;
  retry_not_before : option Z;
  last_clock : ClockSnapshot;
  last_monotonic : Z;
}.

(** ** Time of day *)

(** The binary search of [effective_boundary_second]; each turn halves the
    range, so [fuel] 18 is enough for [SECONDS_PER_DAY]. *)
Definition before_boundary (time : f64) (second : Z) : bool :=
  f64_le time (f64_div (f64_of second) (f64_of SECONDS_PER_DAY)).
Fixpoint boundary_search (fuel : nat) (time : f64) (low high : Z) : option Z :=
  match fuel with
  | O => None
  | S fuel =>
    if low <? high then
      let middle := low + (high - low) / 2 in
      if before_boundary time middle then boundary_search fuel time low middle
      else boundary_search fuel time (middle + 1) high
    else Some low
  end.
Definition effective_boundary_second (time : f64) : Z :=
  default 0 (boundary_search 18 time 0 SECONDS_PER_DAY).

Definition time_of_day (c : ClockSnapshot) : Z := from_secs (seconds_of_day c) + nanosecond c.

(** [partial_cmp(..).unwrap_or(Equal)], and a stable sort by it. *)
Definition time_gt (a b : TimePoint) : bool :=
  match SFcompare (tp_time a) (tp_time b) with Some Gt => true | _ => false end.
Fixpoint insert_sorted (x : TimePoint) (l : list TimePoint) : list TimePoint :=
  match l with
  | [] => [x]
  | y :: l => if time_gt x y then y :: insert_sorted x l else x :: y :: l
  end.
Definition sorted_time_points (l : list TimePoint) : list TimePoint := foldr insert_sorted [] l.

Definition boundary_of (p : TimePoint) : Z := effective_boundary_second (tp_time p).

Definition selected_point (l : list TimePoint) (c : ClockSnapshot) : option TimePoint :=
  let now := seconds_of_day c in
  or_else (List.find (λ p, boundary_of p <=? now) (rev l)) (last l).

Definition boundary_start (l : list TimePoint) (c : ClockSnapshot) (monotonic : Z) : option Z :=
  s ← selected_point l c;
  let now := time_of_day c in
  let boundary := from_secs (boundary_of s) in
  let elapsed := if boundary <=? now then now - boundary
                 else if boundary =? from_secs SECONDS_PER_DAY then now
                 else from_secs SECONDS_PER_DAY - boundary + now in
  checked_sub monotonic elapsed.

Definition clock_discontinuity (previous_clock : ClockSnapshot) (previous_monotonic : Z)
    (clock : ClockSnapshot) (monotonic : Z) : bool :=
  if negb (utc_offset_seconds clock =? utc_offset_seconds previous_clock)
     || (monotonic <? previous_monotonic) then true
  else
    let wall_delta := utc_nanoseconds clock - utc_nanoseconds previous_clock in
    let monotonic_delta := saturating_sub monotonic previous_monotonic in
    CLOCK_TOLERANCE_NANOSECONDS <? Z.abs (wall_delta - monotonic_delta).

(** ** Frames *)

Fixpoint opaque (px : list byte) : bool :=
  match px with
  | _ :: _ :: _ :: a :: px => (u8 a =? 255) && opaque px
  | _ => true
  end.

(** [usize] is 64 bits and the sides are [u32]s. *)
Definition valid_frame_with_limit (f : RgbaFrame) (max_frame_bytes : Z) : bool :=
  match (row ← checked_mul 64 (width f) 4; checked_mul 64 row (height f)) with
  | None => false
  | Some bytes =>
    (0 <? width f) && (0 <? height f) && (bytes <=? max_frame_bytes)
    && (Z.of_nat (length (pixels f)) =? bytes) && (capacity f <=? max_frame_bytes)
    && opaque (pixels f)
  end.
Definition valid_frame (f : RgbaFrame) : bool := valid_frame_with_limit f MAX_FRAME_BYTES.

Definition same_dimensions (a b : RgbaFrame) : bool :=
  (width a =? width b) && (height a =? height b).

(** One channel of a blend, in [u16]. *)
Definition mix (to_weight : Z) (a b : byte) : byte :=
  to_u8 ((u8 a * (256 - to_weight) + u8 b * to_weight + 128) / 256).

Definition blend (a b : RgbaFrame) (to_weight max_output_bytes : Z) (alloc : option Z) :
    option RgbaFrame :=
  if max_output_bytes <? Z.of_nat (length (pixels b)) then None
  else cap ← alloc; Some (mkFrame (width b) (height b) (zip_with (mix to_weight) (pixels a) (pixels b)) cap).

(** The new blend, and whether a byte of it changed. *)
Fixpoint blend_pixels (out a b : list byte) (to_weight : Z) : list byte * bool :=
  match out, a, b with
  | o :: out, x :: a, y :: b =>
    let v := mix to_weight x y in
    let '(rest, changed) := blend_pixels out a b to_weight in
    (v :: rest, negb (bool_decide (o = v)) || changed)
  | out, _, _ => (out, false)
  end.
Definition blend_into (a b out : RgbaFrame) (to_weight : Z) : RgbaFrame * bool :=
  let '(px, changed) := blend_pixels (pixels out) (pixels a) (pixels b) to_weight in
  (mkFrame (width out) (height out) px (capacity out), changed).

(** ** Operations *)

(** [NEXT_GENERATION.fetch_add(1)]: the new counter and the old value. *)
Definition next_generation (counter : Z) : Z * Z := (wrapping_add 64 counter 1, counter).

Definition with_solar (metadata : Metadata) (primary : ImageReference)
    (appearance : AppearancePreference) (clock : ClockSnapshot) (monotonic : Z)
    (reduced_motion : bool) (solar : option (list TimePoint)) (counter : Z) : option (Z * Playback) :=
  let of_points l :=
    let l := sorted_time_points l in
    s ← selected_point l clock; Some (Time l, tp_image s) in
  '(mode, selected) ←
    match solar, appearance with
    | Some l, Automatic => of_points l
    | _, _ =>
      match select metadata appearance false false with
      | SelTime schedule => of_points (points schedule)
      | SelStatic i => Some (Static, i)
      | SelPrimary => Some (Static, primary)
      | SelSolar _ => None
      end
    end;
  let '(counter, g) := next_generation counter in
  Some (counter, mkPlayback mode primary reduced_motion selected g
    (Some (mkPending (mkRequest g selected) None false)) None None None None clock monotonic).

Definition new (metadata : Metadata) (primary : ImageReference) (appearance : AppearancePreference)
    (clock : ClockSnapshot) (monotonic : Z) (reduced_motion : bool) (counter : Z) :
    option (Z * Playback) :=
  with_solar metadata primary appearance clock monotonic reduced_motion None counter.

Definition frame (p : Playback) : option RgbaFrame :=
  or_else (blended <$> transition p) (presented p).
Definition is_transitioning (p : Playback) : bool := bool_decide (is_Some (const tt <$> transition p)).

Definition set_pending (x : option PendingDecode) (p : Playback) : Playback :=
  mkPlayback (mode p) (primary p) (reduced_motion p) (selected p) (p_generation p) x (presented p)
    (presented_image p) (transition p) (retry_not_before p) (last_clock p) (last_monotonic p).
Definition set_mode (m : Mode) (p : Playback) : Playback :=
  mkPlayback m (primary p) (reduced_motion p) (selected p) (p_generation p) (pending p) (presented p)
    (presented_image p) (transition p) (retry_not_before p) (last_clock p) (last_monotonic p).
Definition set_retry (r : option Z) (p : Playback) : Playback :=
  mkPlayback (mode p) (primary p) (reduced_motion p) (selected p) (p_generation p) (pending p) (presented p)
    (presented_image p) (transition p) r (last_clock p) (last_monotonic p).
Definition set_clock (c : ClockSnapshot) (m : Z) (p : Playback) : Playback :=
  mkPlayback (mode p) (primary p) (reduced_motion p) (selected p) (p_generation p) (pending p) (presented p)
    (presented_image p) (transition p) (retry_not_before p) c m.
Definition set_selected (i : ImageReference) (p : Playback) : Playback :=
  mkPlayback (mode p) (primary p) (reduced_motion p) i (p_generation p) (pending p) (presented p)
    (presented_image p) (transition p) (retry_not_before p) (last_clock p) (last_monotonic p).
(** The three fields that say what is on screen. *)
Definition set_shown (f : option RgbaFrame) (i : option ImageReference) (t : option Transition)
    (p : Playback) : Playback :=
  mkPlayback (mode p) (primary p) (reduced_motion p) (selected p) (p_generation p) (pending p) f i t
    (retry_not_before p) (last_clock p) (last_monotonic p).

(** A fresh generation, requested for [image]. *)
Definition queue (i : ImageReference) (started : option Z) (counter : Z) (p : Playback) : Z * Playback :=
  let '(counter, g) := next_generation counter in
  (counter, mkPlayback (mode p) (primary p) (reduced_motion p) (selected p) g
     (Some (mkPending (mkRequest g i) started false)) (presented p) (presented_image p)
     (transition p) (retry_not_before p) (last_clock p) (last_monotonic p)).

Definition take_decode_request (p : Playback) : Playback * option DecodeRequest :=
  match pending p with
  | None => (p, None)
  | Some d =>
    if dispatched d then (p, None)
    else (set_pending (Some (mkPending (request d) (transition_started_at d) true)) p,
          Some (request d))
  end.

Definition retry_due (monotonic : Z) (p : Playback) : bool :=
  match retry_not_before p with None => true | Some t => t <=? monotonic end.

Definition is_none {A} (o : option A) : bool := match o with None => true | Some _ => false end.

Definition synchronize_inner (clock : ClockSnapshot) (monotonic : Z) (force : bool)
    (counter : Z) (p : Playback) : option (Z * Playback * SynchronizeOutcome) :=
  let disc := force || clock_discontinuity (last_clock p) (last_monotonic p) clock monotonic in
  selection ← match mode p with
              | Static => Some (selected p)
              | Time l => tp_image <$> selected_point l clock
              end;
  let changed := negb (selection =? selected p) in
  let start := match mode p with Time l => boundary_start l clock monotonic | Static => None end in
  let '(counter, p, visible) :=
    if changed then
      let p := match transition p with
               | Some t => set_shown (Some (blended t)) None None p
               | None => p
               end in
      let p := set_retry None (set_selected selection p) in
      let '(counter, p) := queue selection (if disc || reduced_motion p then None else start) counter p in
      (counter, p, false)
    else if disc then
      let '(p, visible) :=
        match transition p with
        | Some t => (set_shown (Some (to t)) (Some (to_image t)) None p,
                     negb (bool_decide (pixels (blended t) = pixels (to t))))
        | None => (p, false)
        end in
      let in_flight := from_option (λ d, image (request d) =? selection) false (pending p) in
      if in_flight then
        let '(counter, p) := queue selection None counter p in (counter, p, visible)
      else if is_none (pending p) && negb (bool_decide (presented_image p = Some selection))
              && retry_due monotonic p then
        let '(counter, p) := queue selection None counter p in (counter, set_retry None p, visible)
      else (counter, p, visible)
    else if is_none (pending p) && is_none (transition p)
            && negb (bool_decide (presented_image p = Some selection)) && retry_due monotonic p then
      let '(counter, p) := queue selection (if reduced_motion p then None else start) counter p in
      (counter, set_retry None p, false)
    else (counter, p, false) in
  Some (counter, set_clock clock monotonic p, mkSync changed disc visible).

Definition synchronize clock monotonic counter p := synchronize_inner clock monotonic false counter p.
Definition resynchronize_after_discontinuity clock monotonic counter p :=
  synchronize_inner clock monotonic true counter p.
Definition set_solar_schedule (l : list TimePoint) clock monotonic counter p :=
  synchronize_inner clock monotonic false counter (set_mode (Time (sorted_time_points l)) p).

Definition until_boundary (now : Z) (second : Z) : Z :=
  let boundary := from_secs second in
  if now <? boundary then boundary - now else from_secs SECONDS_PER_DAY - now + boundary.
Definition minimum (l : list Z) : option Z :=
  match l with [] => None | x :: l => Some (foldl Z.min x l) end.

Definition next_wake (clock : ClockSnapshot) (monotonic : Z) (p : Playback) : option Z :=
  let now := time_of_day clock in
  let boundary := match mode p with
                  | Time l => minimum ((λ q, until_boundary now (boundary_of q)) <$> l)
                  | Static => None
                  end in
  let retry := if is_none (pending p) && is_none (transition p)
                  && negb (bool_decide (presented_image p = Some (selected p)))
               then (λ deadline, saturating_sub deadline monotonic) <$> retry_not_before p else None in
  if is_none boundary && is_none retry then None
  else Some (foldl Z.min RESYNCHRONIZE_AFTER (option_list boundary ++ option_list retry)).

Definition queue_primary_fallback (failed : ImageReference) (counter : Z) (p : Playback) : Z * Playback :=
  if negb (is_none (presented p)) || (failed =? primary p) then (counter, p)
  else queue (primary p) None counter p.

Definition advance_transition (monotonic : Z) (p : Playback) : Playback * bool :=
  match transition p with
  | None => (p, false)
  | Some t =>
    let elapsed := saturating_sub monotonic (started_at t) in
    if DISSOLVE_DURATION <=? elapsed then
      (set_shown (Some (to t)) (Some (to_image t)) None p,
       negb (bool_decide (pixels (blended t) = pixels (to t))))
    else
      let weight := Z.min (elapsed * 256 / DISSOLVE_DURATION) 256 in
      let '(b, changed) := blend_into (from t) (to t) (blended t) weight in
      (set_shown (presented p) (presented_image p)
         (Some (mkTransition (from t) (to t) b (to_image t) (started_at t))) p, changed)
  end.

(** The frame replaces what is shown. *)
Definition present_now (f : RgbaFrame) (i : ImageReference) (p : Playback) : Playback :=
  set_shown (Some f) (Some i) None p.

Definition complete_decode_with_limit (r : DecodeRequest) (result : option RgbaFrame) (monotonic : Z)
    (max_blend_bytes : Z) (alloc : option Z) (counter : Z) (p : Playback) :
    Z * Playback * DecodeOutcome :=
  match pending p with
  | None => (counter, p, Ignored)
  | Some d =>
    if negb (bool_decide (request d = r)) || negb (dispatched d) then (counter, p, Ignored)
    else
      let p := set_pending None p in
      let failed p := queue_primary_fallback (image r) counter
                        (set_retry (duration_checked_add monotonic RESYNCHRONIZE_AFTER) p) in
      match result with
      | None => (failed p, Failed)
      | Some f =>
        if negb (valid_frame f) then (failed p, Rejected)
        else
          let p := if image r =? selected p then set_retry None p else p in
          match presented p, transition_started_at d with
          | None, _ | _, None => (counter, present_now f (image r) p, Presented)
          | Some previous, Some started =>
            if (DISSOLVE_DURATION <=? saturating_sub monotonic started)
               || negb (same_dimensions previous f)
            then (counter, present_now f (image r) p, Presented)
            else match blend previous f 0 max_blend_bytes alloc with
            | None => (counter, present_now f (image r) p, Presented)
            | Some b =>
              let p := set_shown None None
                         (Some (mkTransition previous f b (image r) started)) p in
              let p := fst (advance_transition monotonic p) in
              (counter, p, if is_transitioning p then Transitioning else Presented)
            end
          end
      end
  end.

Definition complete_decode (r : DecodeRequest) (result : option RgbaFrame) (monotonic : Z)
    (alloc : option Z) (counter : Z) (p : Playback) : Z * Playback * DecodeOutcome :=
  complete_decode_with_limit r result monotonic MAX_FRAME_BYTES alloc counter p.
