(* ===== verification/HeicFrameProofs.v ===== *)
(** * HEIC documents: proofs

    What packing a plane yields, pixel by pixel; that a converted frame is
    treated like an unconverted one; that every decoded frame is one the
    playback accepts. *)

From S2P Require Import Prelude Utf8 Heic HeicColor HeicColorProofs HeicMetadata HeicFrame.
From S2P Require Playback DynamicModel.

(** ** Chunks *)

Lemma take_chunks {A} fuel n h (s : list A) :
  (0 < n)%nat → (h * n ≤ length s)%nat → (length s ≤ fuel)%nat →
  take h (chunks_fuel fuel n s) = (λ y, take n (drop (y * n) s)) <$> seq 0 h.
Proof.
  intros Hn. revert s fuel. induction h as [|h IH]; intros s fuel Hs Hf; [done|].
  destruct fuel as [|fuel], s as [|x s]; cbn [length] in *; try lia.
  change (take (S h) (chunks_fuel (S fuel) n (x :: s)))
    with (take n (x :: s) :: take h (chunks_fuel fuel n (drop n (x :: s)))).
  rewrite IH; [|rewrite length_drop; cbn [length]; lia..].
  change (seq 0 (S h)) with (0%nat :: seq 1 h). rewrite fmap_cons. f_equal.
  rewrite <- fmap_S_seq, <- list_fmap_compose. apply list_fmap_ext. intros i y _.
  cbn. rewrite drop_drop. f_equal.
Qed.

Lemma concat_chunks {A} fuel n (s : list A) :
  (0 < n)%nat → (length s ≤ fuel)%nat → concat (chunks_fuel fuel n s) = s.
Proof.
  intros Hn. revert s. induction fuel as [|fuel IH]; intros [|x s] Hf; cbn [length] in *; try lia; [done..|].
  change (chunks_fuel (S fuel) n (x :: s)) with (take n (x :: s) :: chunks_fuel fuel n (drop n (x :: s))).
  cbn [concat]. rewrite IH; [apply take_drop|]. rewrite length_drop. cbn [length]. lia.
Qed.

(** The rows of a plane without their padding. *)
Definition packed (source : list byte) (stride row_bytes : Z) (h : nat) : list byte :=
  seq 0 h ≫= λ y, range source (Z.of_nat y * stride) (Z.of_nat y * stride + row_bytes).

Lemma range_take bs a b c : 0 ≤ a → 0 ≤ c ≤ b → range (take (Z.to_nat b) (drop (Z.to_nat a) bs)) 0 c = range bs a (a + c).
Proof.
  intros Ha Hc. unfold range, slice. rewrite drop_0, take_take. f_equal; lia.
Qed.

Lemma wp_pack_rows rows row_bytes Q :
  0 ≤ row_bytes → Forall (λ r, row_bytes ≤ blen r) rows → Q (rows ≫= λ r, range r 0 row_bytes) →
  wp (pack_rows rows row_bytes) Q.
Proof.
  intros Hr Hall. revert Q. induction Hall as [|r rows Hl _ IH]; intros Q HQ; cbn [pack_rows]; [by apply wp_Ok|].
  wp_step. apply wp_sub; [done..|]. wp_step. apply IH. by apply wp_Ok.
Qed.

Lemma length_packed source stride row_bytes h :
  0 ≤ row_bytes ≤ stride → Z.of_nat h * stride ≤ blen source →
  blen (packed source stride row_bytes h) = Z.of_nat h * row_bytes.
Proof.
  intros Hr Hs. unfold packed.
  assert (∀ k s, (s + k ≤ h)%nat →
    blen (seq s k ≫= λ y, range source (Z.of_nat y * stride) (Z.of_nat y * stride + row_bytes)) = Z.of_nat k * row_bytes) as H.
  { induction k as [|k IH]; intros s Hk; [done|]. cbn. unfold blen in *. rewrite length_app, Nat2Z.inj_add, IH by lia.
    pose proof (blen_range source (Z.of_nat s * stride) (Z.of_nat s * stride + row_bytes)) as Hb.
    unfold blen in Hb. rewrite Hb by nia. lia. }
  by apply H.
Qed.

(** ** Pixels *)

(** A frame's bytes are whole pixels. *)
Inductive whole : list byte → Prop :=
| whole_nil : whole []
| whole_cons r g b a px : whole px → whole (r :: g :: b :: a :: px).

Lemma whole_length px n : blen px = 4 * n → whole px.
Proof.
  revert px. assert (∀ k px, length px = (4 * k)%nat → whole px) as H.
  { induction k as [|k IH]; intros [|r [|g [|b [|a px]]]] Hl; cbn in Hl; try lia; constructor.
    apply IH. lia. }
  intros px Hl. unfold blen in Hl. apply (H (Z.to_nat n)). lia.
Qed.

Lemma length_map_pixels f px :
  (∀ r g b a, length (f r g b a) = 4%nat) → length (map_pixels f px) = length px.
Proof.
  intros Hf. assert (∀ n px, (length px ≤ n)%nat → length (map_pixels f px) = length px) as H.
  { induction n as [|n IH]; intros [|r [|g [|b [|a q]]]] Hl; cbn in *; try lia; try done.
    rewrite length_app, Hf, IH by lia. done. }
  by apply (H (length px)).
Qed.

Lemma whole_map_pixels f px :
  (∀ r g b a, length (f r g b a) = 4%nat) → whole px → whole (map_pixels f px).
Proof.
  intros Hf. induction 1 as [|r g b a px _ IH]; [constructor|]. cbn.
  specialize (Hf r g b a). destruct (f r g b a) as [|? [|? [|? [|? [|]]]]]; cbn in Hf; try lia.
  by constructor.
Qed.

Lemma map_pixels_app f p px : length p = 4%nat → map_pixels f (p ++ px) = map_pixels f p ++ map_pixels f px.
Proof.
  destruct p as [|r [|g [|b [|a [|]]]]]; cbn; intros; try lia. by rewrite app_nil_r.
Qed.

Lemma length_composite p px : length (composite_over_black p px) = length px.
Proof. apply length_map_pixels. intros. by destruct p. Qed.
Lemma length_unpremultiply px : length (unpremultiply px) = length px.
Proof. apply length_map_pixels. intros. unfold unpremultiply_pixel. by repeat case_match. Qed.

Lemma opaque_composite p px : whole px → Playback.opaque (composite_over_black p px) = true.
Proof. induction 1 as [|r g b a px _ IH]; [done|]. by destruct p. Qed.

(** Channel [c] of pixel [i]. *)
Lemma lookup_map_pixels f px i : whole px → (4 * i < length px)%nat →
  ∃ r g b a, px !! (4 * i)%nat = Some r ∧ px !! (4 * i + 1)%nat = Some g ∧ px !! (4 * i + 2)%nat = Some b ∧
    px !! (4 * i + 3)%nat = Some a ∧
    ((∀ r g b a, length (f r g b a) = 4%nat) →
     ∀ c, (c < 4)%nat → map_pixels f px !! (4 * i + c)%nat = f r g b a !! c).
Proof.
  intros Hw. revert i. induction Hw as [|r g b a px _ IH]; intros i Hi; [cbn in Hi; lia|].
  destruct i as [|i].
  - exists r, g, b, a. do 4 (split; [done|]). intros Hf c Hc. cbn [map_pixels Nat.mul Nat.add].
    apply lookup_app_l. rewrite Hf. lia.
  - cbn [length] in Hi. destruct (IH i) as (r' & g' & b' & a' & E1 & E2 & E3 & E4 & E5); [lia|].
    exists r', g', b', a'.
    replace (4 * S i)%nat with (4 + 4 * i)%nat by lia. do 4 (split; [done|]).
    intros Hf c Hc. cbn [map_pixels]. rewrite <- Nat.add_assoc, lookup_app_r by (rewrite Hf; lia).
    rewrite Hf. replace (4 + (4 * i + c) - 4)%nat with (4 * i + c)%nat by lia. by apply E5.
Qed.

(** The rounding of one composited channel. *)
Lemma over_black_value alpha c : 0 ≤ alpha ≤ 255 →
  u8 (over_black alpha c) = (u8 c * alpha + 127) / 255 ∧
  -127 ≤ 255 * u8 (over_black alpha c) - u8 c * alpha ≤ 127.
Proof.
  intros Ha. pose proof (u8_range c). unfold over_black. rewrite u8_to_u8.
  assert (0 ≤ (u8 c * alpha + 127) / 255 < 256) as Hr.
  { split; [apply Z.div_pos; nia | apply Z.div_lt_upper_bound; nia]. }
  rewrite Z.mod_small by done. split; [done|].
  pose proof (Z.div_mod (u8 c * alpha + 127) 255). pose proof (Z.mod_pos_bound (u8 c * alpha + 127) 255). lia.
Qed.

(** Dividing alpha out and compositing with it again gives the channel back. *)
Lemma divide_then_composite alpha c :
  0 < alpha < 255 → u8 c ≤ alpha → over_black alpha (divide_alpha alpha c) = c.
Proof.
  intros Ha Hc. apply u8_inj. pose proof (u8_range c).
  destruct (over_black_value alpha (divide_alpha alpha c)) as [-> _]; [lia|].
  unfold divide_alpha. rewrite u8_to_u8. set (q := (u8 c * 255 + alpha / 2) / alpha).
  pose proof (Z.div_mod (u8 c * 255 + alpha / 2) alpha). pose proof (Z.mod_pos_bound (u8 c * 255 + alpha / 2) alpha).
  pose proof (Z.div_mod alpha 2). pose proof (Z.mod_pos_bound alpha 2). fold q in H0.
  assert (0 ≤ q ≤ 255) as Hq.
  { unfold q. split; [apply Z.div_pos; lia|]. apply Z.lt_succ_r, Z.div_lt_upper_bound; [lia|]. nia. }
  rewrite Z.min_l, Z.mod_small by lia. symmetry. apply (Z.div_unique _ _ _ (q * alpha + 127 - 255 * u8 c)); nia.
Qed.

(** ** Packing *)

Lemma lookup_range bs a b j : 0 ≤ a → 0 ≤ j < b - a → range bs a b !! Z.to_nat j = bs !! Z.to_nat (a + j).
Proof.
  intros Ha Hj. unfold range, slice. rewrite lookup_take_lt, lookup_drop by lia. f_equal. lia.
Qed.

Lemma lookup_packed source stride row h y j :
  0 ≤ row ≤ stride → Z.of_nat h * stride ≤ blen source → 0 ≤ y < Z.of_nat h → 0 ≤ j < row →
  packed source stride row h !! Z.to_nat (y * row + j) = source !! Z.to_nat (y * stride + j).
Proof.
  intros Hr Hs Hy Hj. unfold packed.
  assert (∀ k s y, (s + k ≤ h)%nat → 0 ≤ y < Z.of_nat k →
    (seq s k ≫= λ y, range source (Z.of_nat y * stride) (Z.of_nat y * stride + row)) !! Z.to_nat (y * row + j) =
    source !! Z.to_nat ((Z.of_nat s + y) * stride + j)) as H.
  { induction k as [|k IH]; intros s z Hk Hz; [lia|]. cbn.
    pose proof (blen_range source (Z.of_nat s * stride) (Z.of_nat s * stride + row)) as Hb.
    unfold blen in *. destruct (decide (z = 0)) as [->|].
    - rewrite lookup_app_l by nia. rewrite Z.mul_0_l, Z.add_0_l, lookup_range by nia. f_equal. lia.
    - rewrite lookup_app_r by nia. 
      replace (Z.to_nat (z * row + j) - length (range source (Z.of_nat s * stride) (Z.of_nat s * stride + row)))%nat
        with (Z.to_nat ((z - 1) * row + j)) by nia.
      rewrite IH by lia. f_equal. nia. }
  by rewrite H by lia.
Qed.

Lemma wp_convert transform px Q :
  (∀ c c', transform c = Some c' → length c' = length c) →
  (∀ px', convert_to_srgb transform px = Ok px' → length px' = length px → Q px') →
  wp (convert_to_srgb transform px) Q.
Proof.
  intros Ht HQ. apply (wp_mono _ (λ px', convert_to_srgb transform px = Ok px' ∧ length px' = length px));
    [|naive_solver]. apply wp_and. unfold convert_to_srgb, chunks.
  set (n := Z.to_nat ICC_CONVERSION_CHUNK_BYTES).
  assert (∀ cs, wp (convert_chunks transform cs) (λ px', length px' = length (concat cs))) as H.
  { induction cs as [|c cs IH]; [done|]. cbn [convert_chunks concat].
    do 2 wp_step. match goal with H : transform _ = Some _ |- _ => apply Ht in H end.
    wp_step. eapply wp_mono; [exact IH|]. intros rest Hrest. cbn in Hrest. apply wp_Ok. rewrite !length_app. lia. }
  eapply wp_mono; [apply H|]. intros px' ->. rewrite concat_chunks; [done| |done]. unfold n, ICC_CONVERSION_CHUNK_BYTES. lia.
Qed.

Lemma wp_pack_plane l source stride w h Q :
  0 < w < 2 ^ 32 → 0 < h < 2 ^ 32 → blen source < 2 ^ 62 →
  (w * 4 ≤ stride → h * stride ≤ blen source → w * 4 * h ≤ max_output_bytes l →
   blen (packed source stride (w * 4) (Z.to_nat h)) = 4 * (w * h) →
   Q (packed source stride (w * 4) (Z.to_nat h))) →
  wp (pack_plane l source stride w h) Q.
Proof.
  intros Hw Hh Hs HQ. unfold pack_plane. do 2 wp_step.
  match goal with H : checked_mul _ w 4 = Some _ |- _ => apply checked_mul_Some in H as [-> _] end.
  do 2 wp_step. match goal with H : checked_mul _ _ h = Some _ |- _ => apply checked_mul_Some in H as [-> _] end.
  do 6 wp_step. match goal with H : checked_mul _ stride h = Some _ |- _ => apply checked_mul_Some in H as [-> _] end.
  do 2 wp_step. rewrite (proj2 (Z.ltb_lt _ _)) by lia. cbn [ensure mbind result_bind].
  assert (Z.of_nat (Z.to_nat h) * stride ≤ blen source) as Hb by (rewrite Z2Nat.id; lia).
  pose proof (length_packed source stride (w * 4) (Z.to_nat h)) as Hl. rewrite Z2Nat.id in Hl by lia.
  unfold chunks. rewrite take_chunks; [|lia| |done].
  2: { unfold blen in *. nia. }
  apply wp_pack_rows; [lia| |].
  { apply Forall_fmap, Forall_seq. intros y Hy. unfold blen in *. cbn.
    rewrite length_take, length_drop. nia. }
  assert (((λ y, take (Z.to_nat stride) (drop (y * Z.to_nat stride) source)) <$> seq 0 (Z.to_nat h)) ≫=
    (λ r, range r 0 (w * 4)) = packed source stride (w * 4) (Z.to_nat h)) as ->.
  { unfold packed. rewrite list_fmap_bind. apply list_bind_ext; [|done]. intros y. cbn.
    rewrite <- range_take with (b := stride) by nia. do 3 f_equal. nia. }
  apply HQ; lia.
Qed.

(** The steps up to the compositing. *)
Lemma wp_pack l source stride w h (p : bool) (color : option (list byte → option (list byte))) Q :
  0 < w < 2 ^ 32 → 0 < h < 2 ^ 32 → blen source < 2 ^ 62 →
  (∀ transform, color = Some transform → ∀ c c' : list byte, transform c = Some c' → length c' = length c) →
  (∀ px : list byte, let base := packed source stride (w * 4) (Z.to_nat h) in
     w * 4 ≤ stride → h * stride ≤ blen source → w * 4 * h ≤ max_output_bytes l →
     match color with
     | Some transform => convert_to_srgb transform (if p then unpremultiply base else base) = Ok px
     | None => px = base
     end →
     blen px = 4 * (w * h) → Q (mkFrame w h (composite_over_black (p && bool_decide (color = None)) px))) →
  wp (pack_rgba l source stride w h p color) Q.
Proof.
  intros Hw Hh Hs Ht HQ. unfold pack_rgba. wp_step. apply wp_pack_plane; [done..|]. intros H1 H2 H3 Hl.
  wp_step. destruct color as [transform|].
  - apply wp_convert; [by apply Ht|]. intros px Epx Elen. apply wp_Ok, HQ; [lia..|done|].
    assert (∀ q, length (if p then unpremultiply q else q) = length q) as Hp
      by (intros; destruct p; [apply length_unpremultiply|done]).
    rewrite Hp in Elen. unfold blen in *. lia.
  - apply wp_Ok, wp_Ok, HQ; [lia..|done|]. lia.
Qed.

(** A decoded plane, whatever its stride and padding, packs into exactly the
    pixels of its item: row by row, every color channel either as the decoder
    premultiplied it or composited over black, rounded to the nearest value,
    and every alpha opaque.  A short stride, a truncated plane or a frame above
    the budget is an error, and nothing is read out of range. *)
Theorem packed_frame l source stride w h premultiplied :
  0 < w < 2 ^ 32 → 0 < h < 2 ^ 32 → blen source < 2 ^ 62 →
  wp (pack_rgba l source stride w h premultiplied None) (λ f,
    width f = w ∧ height f = h ∧ blen (pixels f) = 4 * (w * h) ∧ blen (pixels f) ≤ max_output_bytes l ∧
    ∀ x y, 0 ≤ x < w → 0 ≤ y < h →
      let o := Z.to_nat (y * stride + 4 * x) in
      let i := (4 * Z.to_nat (y * w + x))%nat in
      ∃ r g b a, source !! o = Some r ∧ source !! (o + 1)%nat = Some g ∧ source !! (o + 2)%nat = Some b ∧
        source !! (o + 3)%nat = Some a ∧
        let shown c := if premultiplied then c else over_black (u8 a) c in
        pixels f !! i = Some (shown r) ∧ pixels f !! (i + 1)%nat = Some (shown g) ∧
        pixels f !! (i + 2)%nat = Some (shown b) ∧ pixels f !! (i + 3)%nat = Some (to_u8 255)).
Proof.
  intros Hw Hh Hs. apply wp_pack; [done..|]. intros px base Hst Hbytes Hout -> Hlen.
  cbn [width height pixels]. rewrite bool_decide_true, andb_true_r by done.
  assert (∀ b, blen (composite_over_black b base) = blen base) as Hc
    by (intros; unfold blen; by rewrite length_composite).
  rewrite Hc, Hlen. do 3 (split; [done|]). split; [lia|]. intros x y Hx Hy.
  set (o := Z.to_nat (y * stride + 4 * x)). set (i := (4 * Z.to_nat (y * w + x))%nat).
  pose proof (whole_length base (w * h) Hlen) as Hwhole.
  set (f := composite_pixel premultiplied).
  destruct (lookup_map_pixels f base (Z.to_nat (y * w + x)) Hwhole) as (r & g & b & a & E0 & E1 & E2 & E3 & E4).
  { unfold blen in Hlen. nia. }
  assert (∀ c, 0 ≤ c < 4 → base !! (i + Z.to_nat c)%nat = source !! (o + Z.to_nat c)%nat) as Hbase.
  { intros c Hc'. unfold base, i, o.
    replace (4 * Z.to_nat (y * w + x) + Z.to_nat c)%nat with (Z.to_nat (y * (w * 4) + (4 * x + c))) by nia.
    rewrite lookup_packed; [f_equal; nia|lia|rewrite Z2Nat.id; lia|rewrite Z2Nat.id; lia|lia]. }
  assert (∀ r g b a, length (f r g b a) = 4%nat) as Hf by (intros; by destruct premultiplied).
  specialize (E4 Hf). exists r, g, b, a. fold i in E0, E1, E2, E3, E4.
  pose proof (Hbase 0) as B0. pose proof (Hbase 1) as B1. pose proof (Hbase 2) as B2. pose proof (Hbase 3) as B3.
  rewrite !Nat.add_0_r in B0. change (Z.to_nat 1) with 1%nat in B1. change (Z.to_nat 2) with 2%nat in B2.
  change (Z.to_nat 3) with 3%nat in B3. rewrite <- B0, <- B1, <- B2, <- B3 by lia.
  do 4 (split; [done|]). cbv zeta. unfold composite_over_black. fold f.
  pose proof (E4 0%nat) as F0. rewrite Nat.add_0_r in F0.
  rewrite F0, (E4 1%nat), (E4 2%nat), (E4 3%nat) by lia. unfold f. by destruct premultiplied.
Qed.

(** No channel of a premultiplied pixel exceeds its alpha. *)
Inductive premultiplied : list byte → Prop :=
| premultiplied_nil : premultiplied []
| premultiplied_cons r g b a px :
  u8 r ≤ u8 a → u8 g ≤ u8 a → u8 b ≤ u8 a → premultiplied px → premultiplied (r :: g :: b :: a :: px).

Lemma over_black_opaque c : over_black 255 c = c.
Proof.
  apply u8_inj. destruct (over_black_value 255 c) as [-> _]; [lia|].
  symmetry. apply (Z.div_unique _ _ _ 127); lia.
Qed.

Lemma composite_unpremultiplied px :
  premultiplied px → composite_over_black false (unpremultiply px) = composite_over_black true px.
Proof.
  induction 1 as [|r g b a px Hr Hg Hb _ IH]; [done|].
  pose proof (u8_range a). pose proof (u8_range r). pose proof (u8_range g). pose proof (u8_range b).
  unfold unpremultiply, composite_over_black in *.
  enough (map_pixels (composite_pixel false) (unpremultiply_pixel r g b a) = composite_pixel true r g b a ∧
    length (unpremultiply_pixel r g b a) = 4%nat) as [HF HG].
  { change (map_pixels unpremultiply_pixel (r :: g :: b :: a :: px))
      with (unpremultiply_pixel r g b a ++ map_pixels unpremultiply_pixel px).
    by rewrite map_pixels_app, HF, IH. }
  unfold unpremultiply_pixel. destruct (u8 a =? 255) eqn:E255; [|destruct (u8 a =? 0) eqn:E0]; simp_bool;
    (split; [|done]); cbn [map_pixels composite_pixel app]; unfold composite_pixel.
  - by rewrite E255, !over_black_opaque.
  - assert (∀ c, u8 c ≤ u8 a → to_u8 0 = c) as Hz.
    { intros c Hc. apply u8_inj. rewrite u8_to_u8. pose proof (u8_range c). change (0 mod 256) with 0. lia. }
    rewrite E0. change (over_black 0 (to_u8 0)) with (to_u8 0).
    by rewrite <- (Hz r Hr), <- (Hz g Hg), <- (Hz b Hb).
  - by rewrite !divide_then_composite by lia.
Qed.

Lemma convert_neutral px : convert_to_srgb Some px = Ok px.
Proof.
  unfold convert_to_srgb, chunks. set (n := Z.to_nat ICC_CONVERSION_CHUNK_BYTES).
  assert (∀ cs, convert_chunks Some cs = Ok (concat cs)) as ->.
  { induction cs as [|c cs IH]; [done|]. cbn. by rewrite IH. }
  rewrite concat_chunks; [done| |done]. unfold n, ICC_CONVERSION_CHUNK_BYTES. lia.
Qed.

(** Converting a premultiplied frame with a profile that changes nothing
    shows the very frame that no conversion shows: dividing the alpha out for
    the transform and compositing with it again loses nothing, in any of the
    256 alphas, and the errors are the same. *)
Theorem neutral_profile_shows_the_same l source stride w h :
  0 < w < 2 ^ 32 → 0 < h < 2 ^ 32 → blen source < 2 ^ 62 →
  premultiplied (packed source stride (w * 4) (Z.to_nat h)) →
  pack_rgba l source stride w h true (Some Some) = pack_rgba l source stride w h true None.
Proof.
  intros Hw Hh Hs Hp.
  assert (wp (pack_plane l source stride w h) (λ px, premultiplied px)) as H by (by apply wp_pack_plane).
  unfold pack_rgba. destruct (pack_plane l source stride w h) as [px|e]; [|done]. cbn in H |- *.
  rewrite convert_neutral. cbn.
  by rewrite composite_unpremultiplied.
Qed.

(** ** Decoding *)

Section Decode.
Context {Profile : Type} (new_from_slice : list byte → option Profile) (is_rgb : Profile → bool)
  (create_transform : Profile → option (list byte → option (list byte))).
(** A transform fills a slice as long as its input. *)
Context (Htransform : ∀ p t c c', create_transform p = Some t → t c = Some c' → length c' = length c).

Lemma wp_validate_dimensions l h Q :
  0 ≤ h_width h → 0 ≤ h_height h → 
  (0 < h_width h ≤ max_width l → 0 < h_height h ≤ max_height l → h_width h * h_height h ≤ max_pixels l → Q ()) →
  wp (validate_dimensions l h) Q.
Proof.
  intros Hw Hh HQ. unfold validate_dimensions. do 2 wp_step.
  match goal with H : checked_mul _ _ _ = Some _ |- _ => apply checked_mul_Some in H as [-> _] end.
  wp_step. apply HQ; lia.
Qed.

Lemma wp_validate_nclx o (Q : () → Prop) : Q () → wp (validate_nclx o) Q.
Proof. destruct o as [[[] []]|]; cbn; auto. Qed.

Lemma wp_validate_color h (Q : option (list byte → option (list byte)) → Prop) :
  (∀ p, raw_profile h = Some p → blen p < 2 ^ 62) →
  (∀ color, (∀ t, color = Some t → ∀ c c', t c = Some c' → length c' = length c) →
    (color = None ↔ raw_profile h = None) → Q color) →
  wp (validate_color new_from_slice is_rgb create_transform default_limits h) Q.
Proof using Htransform.
  intros Hp HQ. unfold validate_color. do 3 wp_step.
  destruct (raw_profile h) as [p|].
  - apply wp_fmap. unfold IccTransform_new. do 3 wp_step. apply wp_preflight; [by apply Hp|]. intros _ _ _ _ _.
    do 5 wp_step. wp_step. apply wp_validate_nclx. wp_step. apply HQ; [|done].
    intros t [= <-] c c'. by eapply Htransform.
  - wp_step. wp_step. apply wp_validate_nclx. wp_step. by apply HQ.
Qed.

(** The machine's own bounds: [u32] sides and slices that exist in memory. *)
Record machine_sized (h : Handle) : Prop := {
  sized_width : 0 ≤ h_width h;
  sized_height : 0 ≤ h_height h;
  sized_profile p : raw_profile (h_color h) = Some p → blen p < 2 ^ 62;
  sized_plane d pl : h_decoded h = Ok d → d_plane d = Some pl → blen (plane_data pl) < 2 ^ 62;
}.

(** The frame as the playback keeps it. *)
Definition playback_frame (f : RgbaFrame) (capacity : Z) : Playback.RgbaFrame :=
  Playback.mkFrame (width f) (height f) (pixels f) capacity.

(** Every frame a document decodes to is of the item the reference resolves
    to, has exactly its dimensions, and is one that the playback accepts: not
    empty, of four bytes a pixel, within 256 MiB and opaque.  Whatever libheif
    and the color library answer, decoding never indexes out of range,
    overflows or divides by zero. *)
Theorem decoded_frame_valid d image :
  (∀ id h, image_handle (context d) id = Ok h → machine_sized h) →
  wp (decode default_limits new_from_slice is_rgb create_transform d image) (λ f,
    ∃ id h, DynamicModel.resolve (images d) image = Some id ∧ image_handle (context d) id = Ok h ∧
      width f = h_width h ∧ height f = h_height h ∧
      ∀ capacity, blen (pixels f) ≤ capacity ≤ Playback.MAX_FRAME_BYTES →
        Playback.valid_frame (playback_frame f capacity) = true).
Proof using Htransform.
  intros Hsized. unfold decode. do 2 wp_step. wp_step.
  destruct (image_handle (context d) x) as [h|e] eqn:Eh; [|by apply wp_Err]. cbn.
  destruct (Hsized _ _ Eh) as [Hw Hh Hp Hpl].
  wp_step. apply wp_validate_dimensions; [done..|]. cbn [max_width max_height max_pixels default_limits]. intros Lw Lh Lp.
  wp_step. apply wp_validate_color; [done|]. intros color Ht Hnone.
  destruct (h_decoded h) as [img|e] eqn:Ed; [|by apply wp_bind, wp_Err]. cbn [decode_result mbind result_bind].
  do 2 wp_step. wp_step. apply wp_validate_nclx. do 2 wp_step.
  match goal with H : d_plane img = Some ?pl |- _ => rename pl into plane; pose proof (Hpl _ _ eq_refl H) end.
  do 4 wp_step.
  match goal with H : plane_width _ = _ |- _ => rewrite H end.
  match goal with H : plane_height _ = _ |- _ => rewrite H end.
  apply wp_pack; [lia..|done|done|]. intros px _ _ _ _ _ Hlen.
  exists x, h. do 4 (split; [done|]). intros capacity Hc.
  unfold Playback.valid_frame, Playback.valid_frame_with_limit. cbn [playback_frame Playback.width Playback.height Playback.pixels Playback.capacity width height pixels] in *.
  assert (blen (composite_over_black (d_premultiplied img && bool_decide (color = None)) px) = blen px) as Hcl
    by (unfold blen; by rewrite length_composite).
  rewrite Hcl in Hc. change Playback.MAX_FRAME_BYTES with (256 * 1024 * 1024) in *.
  unfold checked_mul. rewrite (proj2 (Z.ltb_lt (h_width h * 4) _)) by lia. cbn [mbind option_bind].
  rewrite (proj2 (Z.ltb_lt (h_width h * 4 * h_height h) _)) by nia.
  unfold blen in Hcl, Hlen, Hc. rewrite Hcl, opaque_composite by (by eapply whole_length).
  rewrite !(proj2 (Z.ltb_lt _ _)), !(proj2 (Z.leb_le _ _)), (proj2 (Z.eqb_eq _ _)) by lia. done.
Qed.
End Decode.

(** Two pixels in rows of 12 bytes, one half transparent and one opaque. *)
Definition example_rows : list byte :=
  to_u8 <$> [100; 64; 0; 128; 10; 20; 30; 255; 7; 7; 7; 7].

Lemma packed_frame_witness :
  pack_rgba default_limits example_rows 12 2 1 false None =
    Ok (mkFrame 2 1 (to_u8 <$> [50; 32; 0; 255; 10; 20; 30; 255])) ∧
  pack_rgba default_limits example_rows 7 2 1 false None = Err (EDecode "decoded row stride is too short") ∧
  ∃ f, pack_rgba default_limits example_rows 12 2 1 false None = Ok f ∧ blen (pixels f) ≤ 256 * 1024 * 1024.
Proof.
  split; [vm_compute; reflexivity|]. split; [vm_compute; reflexivity|].
  assert (blen example_rows < 2 ^ 62) as H by (vm_compute; reflexivity).
  pose proof (packed_frame default_limits example_rows 12 2 1 false ltac:(lia) ltac:(lia) H) as Hf.
  destruct (pack_rgba default_limits example_rows 12 2 1 false None) as [f|e] eqn:E.
  - exists f. split; [done|]. exact (proj1 (proj2 (proj2 (proj2 Hf)))).
  - exfalso. vm_compute in E. discriminate.
Defined.

Lemma neutral_profile_shows_the_same_witness :
  pack_rgba default_limits example_rows 12 2 1 true (Some Some) =
  pack_rgba default_limits example_rows 12 2 1 true None.
Proof.
  apply (neutral_profile_shows_the_same default_limits example_rows 12 2 1); [lia|lia|vm_compute; reflexivity|].
  assert (packed example_rows 12 (2 * 4) (Z.to_nat 1) = to_u8 <$> [100; 64; 0; 128; 10; 20; 30; 255]) as ->
    by (vm_compute; reflexivity).
  cbn [fmap list_fmap]. repeat constructor; vm_compute; congruence.
Defined.

(** A color library that knows one profile, and inverts what it converts. *)
Definition example_transform (c : list byte) : option (list byte) := Some ((λ b, to_u8 (255 - u8 b)) <$> c).
Definition example_item : Handle :=
  mkHandle 2 1 7 (mkColorInfo 8 8 (Some example_profile) None) 0 []
    (Ok (mkDecoded true None false (Some (mkPlane example_rows 12 2 1 8 32)))).
Definition example_document : Document :=
  mkDocument (mkContext [7] (Ok example_item) (λ id, if id =? 7 then Ok example_item else Err "no item") (Ok tt))
    [7] 0 DynamicModel.metadata_default.

Lemma decoded_frame_valid_witness :
  ∃ f, decode default_limits Some (λ _, true) (λ _, Some example_transform) example_document 0 = Ok f ∧
    Playback.valid_frame (playback_frame f 8) = true.
Proof.
  eassert (wp (decode default_limits Some (λ _, true) (λ _, Some example_transform) example_document 0) _) as Hd.
  { apply (decoded_frame_valid Some (λ _, true) (λ _, Some example_transform)).
    - intros p t c c' [= <-]. unfold example_transform. intros [= <-]. apply length_fmap.
    - intros id h. cbn. destruct (id =? 7); [|done]. intros [= <-]. split; cbn; [lia|lia| |].
      + intros p [= <-]. vm_compute. reflexivity.
      + intros d pl [= <-]. intros [= <-]. vm_compute. reflexivity. }
  destruct (decode default_limits Some (λ _, true) (λ _, Some example_transform) example_document 0) as [f|e] eqn:E;
    [|exfalso; vm_compute in E; discriminate].
  exists f. split; [done|]. destruct Hd as (id & h & _ & _ & _ & _ & Hv). apply Hv.
  vm_compute in E. injection E as <-. vm_compute. split; discriminate.
Defined.
