(* ===== verification/PlaybackProofs.v ===== *)
(** * Properties of playback

    Proofs about [Playback]: the boundaries of a schedule and the scheduler's
    wake-ups, the arithmetic of a dissolve, and the frames and decode requests
    over whole runs, in which other playbacks of the process draw generations
    from the same counter. *)

From S2P Require Import Prelude Utf8 DynamicModel Playback.

(** ** Boundaries *)

Lemma boundary_search_spec fuel time low high :
  0 ≤ low ≤ high → high ≤ SECONDS_PER_DAY → high - low < 2 ^ (Z.of_nat fuel - 1) →
  (low = 0 ∨ before_boundary time (low - 1) = false) →
  (high = SECONDS_PER_DAY ∨ before_boundary time high = true) →
  ∃ s, boundary_search fuel time low high = Some s ∧ low ≤ s ≤ high
    ∧ (s = 0 ∨ before_boundary time (s - 1) = false)
    ∧ (s = SECONDS_PER_DAY ∨ before_boundary time s = true).
Proof.
  revert low high. induction fuel as [|fuel IH]; intros low high Hlh Hday Hf Hl Hh.
  { change (2 ^ (Z.of_nat 0 - 1)) with 0 in Hf. lia. }
  cbn [boundary_search]. destruct (Z.ltb_spec low high).
  2:{ exists low. assert (low = high) as -> by lia. split; [done|]. split; [lia|done]. }
  assert (0 < Z.of_nat fuel) as Hpos.
  { destruct fuel; [|lia]. change (2 ^ (Z.of_nat 1 - 1)) with 1 in Hf. lia. }
  replace (Z.of_nat (S fuel) - 1) with (Z.succ (Z.of_nat fuel - 1)) in Hf by lia.
  rewrite Z.pow_succ_r in Hf by lia.
  pose proof (Z.div_mod (high - low) 2). pose proof (Z.mod_pos_bound (high - low) 2).
  cbv zeta. destruct (before_boundary time (low + (high - low) / 2)) eqn:E.
  - destruct (IH low (low + (high - low) / 2)) as (s & ? & ? & ? & ?); [lia|lia|lia|done|by right|].
    exists s. split; [done|]. split; [lia|done].
  - destruct (IH (low + (high - low) / 2 + 1) high) as (s & ? & ? & ? & ?); [lia|lia|lia| |done|].
    { right. by replace (low + (high - low) / 2 + 1 - 1) with (low + (high - low) / 2) by lia. }
    exists s. split; [done|]. split; [lia|done].
Qed.

Lemma boundary_second_spec time :
  let s := effective_boundary_second time in
  0 ≤ s ≤ SECONDS_PER_DAY
  ∧ (s = 0 ∨ before_boundary time (s - 1) = false)
  ∧ (s = SECONDS_PER_DAY ∨ before_boundary time s = true).
Proof.
  cbn zeta. unfold effective_boundary_second.
  destruct (boundary_search_spec 18 time 0 SECONDS_PER_DAY) as (s & -> & Hs);
    [by unfold SECONDS_PER_DAY; lia|done|reflexivity|by left|by left|exact Hs].
Qed.

Lemma boundary_search_Some time :
  boundary_search 18 time 0 SECONDS_PER_DAY = Some (effective_boundary_second time).
Proof.
  unfold effective_boundary_second.
  destruct (boundary_search_spec 18 time 0 SECONDS_PER_DAY) as (s & -> & Hs);
    [by unfold SECONDS_PER_DAY; lia|done|reflexivity|by left|by left|done].
Qed.

#[local] Opaque effective_boundary_second.

Lemma boundary_of_range p : 0 ≤ boundary_of p ≤ SECONDS_PER_DAY.
Proof. apply boundary_second_spec. Qed.

(** Clock snapshots as their constructor makes them. *)
Definition wf_clock (c : ClockSnapshot) : Prop :=
  0 ≤ hour (time c) < 24 ∧ 0 ≤ minute (time c) < 60 ∧ 0 ≤ second (time c) < 60
  ∧ 0 ≤ nanosecond c < NANOS.

Lemma seconds_of_day_range c : wf_clock c → 0 ≤ seconds_of_day c < SECONDS_PER_DAY.
Proof. unfold wf_clock, seconds_of_day, SECONDS_PER_DAY. lia. Qed.

Lemma foldl_min_in (l : list Z) x : foldl Z.min x l = x ∨ foldl Z.min x l ∈ l.
Proof.
  revert x. induction l as [|y l IH]; intros x; cbn; [by left|].
  destruct (IH (Z.min x y)) as [->|?]; [|right; by right].
  destruct (Z.min_spec x y) as [[_ ->]|[_ ->]]; [by left|right; left].
Qed.
Lemma minimum_spec l : match minimum l with Some m => m ∈ l ∧ Forall (Z.le m) l | None => l = [] end.
Proof.
  destruct l as [|x l]; cbn; [done|]. destruct (foldl_min_le l x) as [H1 H2]. split.
  - destruct (foldl_min_in l x) as [->|?]; [left|by right].
  - by constructor.
Qed.

Lemma until_boundary_pos c b : wf_clock c → 0 ≤ b → 0 < until_boundary (time_of_day c) b.
Proof.
  intros Hc Hb. pose proof (seconds_of_day_range c Hc). destruct Hc as (_ & _ & _ & ?).
  unfold until_boundary, time_of_day, from_secs, SECONDS_PER_DAY, NANOS in *.
  destruct (Z.ltb_spec (seconds_of_day c * 1000000000 + nanosecond c) (b * 1000000000)); lia.
Qed.

Lemma find_ext {A} (p q : A → bool) l : (∀ x, x ∈ l → p x = q x) → List.find p l = List.find q l.
Proof.
  induction l as [|x l IH]; intros H; cbn; [done|]. rewrite (H x) by left.
  destruct (q x); [done|]. apply IH. intros y Hy. apply H. by right.
Qed.

(** Until the next boundary is reached the selection does not change. *)
Lemma selected_point_until l c c' :
  wf_clock c → wf_clock c' → time_of_day c ≤ time_of_day c' →
  (∀ p, p ∈ l → time_of_day c' < time_of_day c + until_boundary (time_of_day c) (boundary_of p)) →
  selected_point l c' = selected_point l c.
Proof.
  intros Hc Hc' Hle H. unfold selected_point. f_equal. apply find_ext. intros p Hp.
  apply list_elem_of_In, List.in_rev, list_elem_of_In in Hp. specialize (H p Hp).
  pose proof (boundary_of_range p) as Hb.
  pose proof (seconds_of_day_range c Hc). pose proof (seconds_of_day_range c' Hc').
  destruct Hc as (_ & _ & _ & ?), Hc' as (_ & _ & _ & ?).
  unfold until_boundary, time_of_day, from_secs, SECONDS_PER_DAY, NANOS in *.
  apply eq_iff_eq_true. rewrite !Z.leb_le.
  destruct (Z.ltb_spec (seconds_of_day c * 1000000000 + nanosecond c) (boundary_of p * 1000000000)) in H; lia.
Qed.

(** ** Frames *)

Definition wf_pixels (f : RgbaFrame) : Prop :=
  0 < width f ∧ 0 < height f ∧ Z.of_nat (length (pixels f)) = width f * 4 * height f
  ∧ width f * 4 * height f ≤ MAX_FRAME_BYTES ∧ opaque (pixels f) = true.

Lemma valid_frame_wf f : valid_frame f = true → wf_pixels f.
Proof.
  unfold valid_frame, valid_frame_with_limit. destruct (_ ≫= _) as [b|] eqn:E; [|done].
  apply bind_Some in E as (r & [-> _]%checked_mul_Some & [-> _]%checked_mul_Some).
  intros H. simp_bool. by repeat split.
Qed.

Lemma mix_bounds w a b :
  0 ≤ w ≤ 256 →
  0 ≤ u8 a * (256 - w) + u8 b * w + 128 < 2 ^ 16
  ∧ u8 (mix w a b) = (u8 a * (256 - w) + u8 b * w + 128) / 256
  ∧ Z.min (u8 a) (u8 b) ≤ u8 (mix w a b) ≤ Z.max (u8 a) (u8 b).
Proof.
  intros Hw. pose proof (u8_range a). pose proof (u8_range b).
  assert (Z.min (u8 a) (u8 b) * 256 ≤ u8 a * (256 - w) + u8 b * w ≤ Z.max (u8 a) (u8 b) * 256) as Hs by nia.
  unfold mix. rewrite u8_to_u8. set (n := u8 a * (256 - w) + u8 b * w) in *.
  assert (Z.min (u8 a) (u8 b) ≤ (n + 128) / 256 ≤ Z.max (u8 a) (u8 b)) as Hd.
  { split; [apply Z.div_le_lower_bound; lia|]. apply Z.lt_succ_r, Z.div_lt_upper_bound; lia. }
  rewrite Z.mod_small by lia. lia.
Qed.

Lemma length_blend_pixels out a b w : length (fst (blend_pixels out a b w)) = length out.
Proof.
  revert a b. induction out as [|o out IH]; intros [|x a] [|y b]; cbn; try done.
  specialize (IH a b). destruct (blend_pixels out a b w). cbn in *. by rewrite IH.
Qed.

(** When the three have the same length, every byte is the mix. *)
Lemma blend_pixels_zip out a b w :
  length out = length b → length a = length b →
  fst (blend_pixels out a b w) = zip_with (mix w) a b.
Proof.
  revert a b. induction out as [|o out IH]; intros [|x a] [|y b]; cbn; try done.
  intros [= H1] [= H2]. specialize (IH a b H1 H2). destruct (blend_pixels out a b w). cbn in *. by rewrite IH.
Qed.

Lemma mix_opaque w a b : 0 ≤ w ≤ 256 → u8 a = 255 → u8 b = 255 → u8 (mix w a b) = 255.
Proof. intros Hw Ha Hb. destruct (mix_bounds w a b Hw) as (_ & _ & H). lia. Qed.

Lemma pixels_ind (P : list byte → list byte → Prop) :
  (∀ a b, (length a < 4)%nat → P a b) →
  (∀ r g b x a r' g' b' x' a', P a a' → P (r :: g :: b :: x :: a) (r' :: g' :: b' :: x' :: a')) →
  ∀ a b, length a = length b → P a b.
Proof.
  intros Hs Hc. fix IH 1. intros [|r [|g [|bl [|x a]]]] b' Hlen; try (apply Hs; cbn; lia).
  destruct b' as [|r' [|g' [|b2 [|x' a']]]]; try (cbn in Hlen; lia). apply Hc, IH. cbn in Hlen. lia.
Qed.

Lemma opaque_zip w a b :
  0 ≤ w ≤ 256 → length a = length b → opaque a = true → opaque b = true →
  opaque (zip_with (mix w) a b) = true.
Proof.
  intros Hw Hlen. revert a b Hlen. apply (pixels_ind (λ a b, opaque a = true → opaque b = true →
    opaque (zip_with (mix w) a b) = true)).
  - intros [|? [|? [|? [|]]]] [|? [|? [|? ?]]] ?; cbn in *; try done; lia.
  - cbn. intros r g b x a r' g' b' x' a' IH H1 H2. simp_bool.
    apply andb_true_iff. split; [apply Z.eqb_eq; by apply mix_opaque|auto].
Qed.

(** ** Runs *)

(** A dissolve: three well-formed frames of one size. *)
Record wf_transition (t : Transition) : Prop := mkWfTransition {
  wt_from : wf_pixels (from t);
  wt_to : wf_pixels (to t);
  wt_blended : wf_pixels (blended t);
  wt_from_size : width (from t) = width (to t) ∧ height (from t) = height (to t);
  wt_blended_size : width (blended t) = width (to t) ∧ height (blended t) = height (to t);
}.

(** [counter] is the process-wide generation counter. *)
Record inv (counter : Z) (p : Playback) : Prop := mkInv {
  i_presented : ∀ f, presented p = Some f → wf_pixels f;
  i_transition : ∀ t, transition p = Some t →
    presented p = None ∧ presented_image p = None ∧ wf_transition t;
  i_pending : ∀ d, pending p = Some d → generation (request d) = p_generation p;
  i_generation : p_generation p < counter;
}.

(** What a step asks to decode is what was asked before, or new. *)
Definition fresh (counter : Z) (p p' : Playback) : Prop := ∀ d', pending p' = Some d' →
  (∃ d, pending p = Some d ∧ request d = request d') ∨ counter ≤ generation (request d').

Definition ok_step (c : Z) (p : Playback) (c' : Z) (p' : Playback) : Prop :=
  c ≤ c' ∧ inv c' p' ∧ fresh c p p'.

Lemma fresh_same c p p' : pending p' = pending p → fresh c p p'.
Proof. intros E d' Hd. left. exists d'. by rewrite <- E. Qed.

(** What is on screen changes, to something well formed. *)
Lemma set_shown_inv c f i t p :
  inv c p → (∀ g, f = Some g → wf_pixels g) →
  (∀ t', t = Some t' → f = None ∧ i = None ∧ wf_transition t') → inv c (set_shown f i t p).
Proof. intros [] ??. by constructor. Qed.

Lemma present_now_inv c f i p : inv c p → wf_pixels f → inv c (present_now f i p).
Proof. intros. apply set_shown_inv; [done| |done]. by intros g [= <-]. Qed.

Lemma queue_ok i st c p c' p' :
  inv c p → c + 1 < 2 ^ 64 → 0 ≤ c → queue i st c p = (c', p') →
  c' = c + 1 ∧ inv c' p' ∧ (∀ d', pending p' = Some d' → c ≤ generation (request d')).
Proof.
  intros [] Hlt Hc. unfold queue, next_generation, wrapping_add. rewrite Z.mod_small by lia.
  intros [= <- <-]. split; [done|]. split; [constructor; cbn; try done|].
  - by intros d [= <-].
  - lia.
  - by intros d [= <-].
Qed.

Lemma set_retry_inv c r p : inv c p → inv c (set_retry r p).
Proof. intros []. by constructor. Qed.
Lemma set_clock_inv c k m p : inv c p → inv c (set_clock k m p).
Proof. intros []. by constructor. Qed.
Lemma set_selected_inv c i p : inv c p → inv c (set_selected i p).
Proof. intros []. by constructor. Qed.
Lemma set_mode_inv c m p : inv c p → inv c (set_mode m p).
Proof. intros []. by constructor. Qed.
Lemma set_pending_None_inv c p : inv c p → inv c (set_pending None p).
Proof. intros []. by constructor. Qed.
Hint Resolve set_retry_inv set_clock_inv set_selected_inv set_mode_inv set_pending_None_inv
  present_now_inv : core.

(** Interrupting a dissolve leaves one of its frames on screen. *)
Lemma interrupt_inv c f i t p :
  inv c p → transition p = Some t → f = blended t ∨ f = to t → inv c (set_shown (Some f) i None p).
Proof.
  intros Hi Ht Hf. destruct (i_transition _ _ Hi t Ht) as (_ & _ & []).
  apply set_shown_inv; [done| |done]. intros g [= <-]. by destruct Hf as [->| ->].
Qed.

Lemma synchronize_inner_ok clock m force c p c' p' o :
  inv c p → 0 ≤ c → c + 1 < 2 ^ 64 → synchronize_inner clock m force c p = Some (c', p', o) →
  ok_step c p c' p'.
Proof.
  intros Hi Hc Hlt H. unfold synchronize_inner in H.
  apply bind_Some in H as (sel & _ & H). cbv zeta in H.
  match type of H with context [let '(_, _) := ?x in _] => destruct x as [[c1 p1] v] eqn:E end.
  injection H as <- <- <-.
  assert (ok_step c p c1 p1) as (H1 & H2 & H3); [|by split_and!; auto].
  destruct (negb (sel =? selected p)).
  - destruct (queue _ _ _ _) as [c2 p2] eqn:Eq in E. injection E as <- <- <-.
    apply queue_ok in Eq as (-> & ? & Hp); [|destruct (transition p) eqn:Et; eauto using interrupt_inv|done..].
    split; [lia|]. split; [done|]. intros d' Hd. right. auto.
  - destruct (force || _).
    + set (q := match transition p with Some t => set_shown (Some (to t)) (Some (to_image t)) None p | None => p end).
      assert (inv c q) as Hq by (unfold q; destruct (transition p) eqn:Et; eauto using interrupt_inv).
      assert (pending q = pending p) as Ep by (unfold q; by destruct (transition p)).
      assert ((match transition p with
        | Some t => (set_shown (Some (to t)) (Some (to_image t)) None p,
             negb (bool_decide (pixels (blended t) = pixels (to t))))
        | None => (p, false) end) = (q, match transition p with
        | Some t => negb (bool_decide (pixels (blended t) = pixels (to t))) | None => false end)) as Eq
        by (unfold q; by destruct (transition p)).
      rewrite Eq in E. clear Eq. clearbody q.
      destruct (from_option _ false (pending q)); [|destruct (_ && _)].
      * destruct (queue _ _ _ _) as [c2 p2] eqn:Eq in E. injection E as <- <- <-.
        apply queue_ok in Eq as (-> & ? & Hp); [|done..]. split; [lia|]. split; [done|]. intros d' Hd. right. auto.
      * destruct (queue _ _ _ _) as [c2 p2] eqn:Eq in E. injection E as <- <- <-.
        apply queue_ok in Eq as (-> & ? & Hp); [|done..]. split; [lia|]. split; [auto|]. intros d' Hd. right. auto.
      * injection E as <- <- <-. split; [done|]. split; [done|]. by apply fresh_same.
    + destruct (_ && _).
      * destruct (queue _ _ _ _) as [c2 p2] eqn:Eq in E. injection E as <- <- <-.
        apply queue_ok in Eq as (-> & ? & Hp); [|done..]. split; [lia|]. split; [auto|]. intros d' Hd. right. auto.
      * injection E as <- <- <-. split; [done|]. split; [done|]. by apply fresh_same.
Qed.

Lemma take_ok c p : inv c p → ok_step c p c (fst (take_decode_request p)).
Proof.
  intros Hi. unfold take_decode_request. destruct (pending p) as [d|] eqn:Ed; [|by split_and!; auto using fresh_same].
  destruct (dispatched d); [by split_and!; auto using fresh_same|]. split; [done|]. destruct Hi. split.
  - constructor; cbn; try done. intros d' [= <-]. cbn. auto.
  - intros d' [= <-]. left. exists d. auto.
Qed.

(** A dissolve stays well formed as it advances. *)
Lemma blend_into_wf t w :
  wf_transition t → 0 ≤ w ≤ 256 →
  wf_transition (mkTransition (from t) (to t) (fst (blend_into (from t) (to t) (blended t) w))
                   (to_image t) (started_at t))
  ∧ pixels (fst (blend_into (from t) (to t) (blended t) w)) = zip_with (mix w) (pixels (from t)) (pixels (to t)).
Proof.
  intros [Hf Ht Hb Hfs Hbs] Hw. unfold blend_into.
  assert (length (pixels (from t)) = length (pixels (to t))) as E1.
  { destruct Hf as (_ & _ & E & _), Ht as (_ & _ & E' & _), Hfs as [Ew Eh]. rewrite Ew, Eh in E. lia. }
  assert (length (pixels (blended t)) = length (pixels (to t))) as E2.
  { destruct Hb as (_ & _ & E & _), Ht as (_ & _ & E' & _), Hbs as [Ew Eh]. rewrite Ew, Eh in E. lia. }
  pose proof (blend_pixels_zip _ _ _ w E2 E1) as Ez.
  destruct (blend_pixels _ _ _ w) as [px ch]. cbn in Ez. subst px. cbn [fst pixels]. split; [|done].
  constructor; cbn [from to blended]; try done.
  destruct Hb as (? & ? & E & ? & _), Hf as (_ & _ & _ & _ & ?), Ht as (_ & _ & _ & _ & ?).
  split; [done|]. split; [done|]. cbn [pixels width height]. 
  rewrite length_zip_with, E1, Nat.min_id, <- E2. split; [done|]. split; [done|]. by apply opaque_zip.
Qed.

Lemma weight_bounds m t :
  saturating_sub m t < DISSOLVE_DURATION → 0 ≤ Z.min (saturating_sub m t * 256 / DISSOLVE_DURATION) 256 ≤ 256.
Proof.
  intros _. assert (0 ≤ saturating_sub m t * 256 / DISSOLVE_DURATION); [|lia].
  apply Z.div_pos; [unfold saturating_sub; lia|done].
Qed.

Lemma advance_ok c m p : inv c p → ok_step c p c (fst (advance_transition m p)).
Proof.
  intros Hi. unfold advance_transition.
  destruct (transition p) as [t|] eqn:Et; [|by split_and!; auto using fresh_same].
  destruct (i_transition _ _ Hi t Et) as (E1 & E2 & Ht).
  cbv zeta. destruct (Z.leb_spec DISSOLVE_DURATION (saturating_sub m (started_at t))) as [?|Hlt].
  - split; [done|]. split; [|by apply fresh_same]. eapply interrupt_inv; eauto.
  - destruct (blend_into_wf t _ Ht (weight_bounds _ _ Hlt)) as [Hw _].
    destruct (blend_into _ _ _ _) as [b ch]. cbn [fst] in *. split; [done|].
    split; [|by apply fresh_same]. apply set_shown_inv; [done|apply Hi|].
    intros t' [= <-]. auto.
Qed.

Lemma queue_primary_ok i c p c' p' :
  inv c p → 0 ≤ c → c + 1 < 2 ^ 64 → queue_primary_fallback i c p = (c', p') → ok_step c p c' p'.
Proof.
  intros Hi Hc Hlt. unfold queue_primary_fallback. destruct (_ || _).
  - intros [= <- <-]. by split_and!; auto using fresh_same.
  - intros Eq. apply queue_ok in Eq as (-> & ? & Hp); [|done..].
    split; [lia|]. split; [done|]. intros d' Hd. right. auto.
Qed.

Lemma blend_wf a b f cap :
  wf_pixels a → wf_pixels b → same_dimensions a b = true → blend a b 0 MAX_FRAME_BYTES cap = Some f →
  wf_pixels f ∧ width f = width b ∧ height f = height b.
Proof.
  intros Ha Hb Hs H. unfold same_dimensions in Hs. simp_bool. unfold blend in H.
  destruct (_ <? _); [done|]. apply bind_Some in H as (x & _ & [= <-]). split; [|done].
  destruct Ha as (_ & _ & Ea & _ & Oa), Hb as (? & ? & Eb & ? & Ob).
  assert (length (pixels a) = length (pixels b)) as El by (rewrite H0, H1 in Ea; lia).
  split; [done|]. split; [done|]. cbn [pixels width height].
  rewrite length_zip_with, El, Nat.min_id. split; [done|]. split; [done|]. by apply opaque_zip.
Qed.

Lemma complete_ok r res m cap c p c' p' o :
  inv c p → 0 ≤ c → c + 1 < 2 ^ 64 → complete_decode r res m cap c p = (c', p', o) → ok_step c p c' p'.
Proof.
  intros Hi Hc Hlt H. unfold complete_decode, complete_decode_with_limit in H.
  assert (ok_step c p c p) as Hrefl by (by split_and!; auto using fresh_same).
  destruct (pending p) as [d|]; [|by injection H as <- <- <-].
  destruct (_ || _); [by injection H as <- <- <-|].
  assert (∀ q q', inv c q → pending q = None → ok_step c q c' q' → ok_step c p c' q') as Hvia.
  { intros q q' _ Eq (? & ? & Hf). split; [done|]. split; [done|]. intros d' Hd'. right.
    destruct (Hf d' Hd') as [(? & E & _)|?]; [congruence|done]. }
  assert (∀ q, inv c q → pending q = None → ok_step c p c q) as Hdone.
  { intros q Hq Eq. split; [done|]. split; [done|]. intros d' Hd'. congruence. }
  cbv zeta in H. destruct res as [f|].
  2:{ match type of H with (?x, _) = _ => destruct x as [c1 p1] eqn:E end. injection H as <- <- <-.
      eapply Hvia; [| |by eapply queue_primary_ok; [|done..|exact E]; auto]; auto. }
  destruct (valid_frame f) eqn:Hv; cbn [negb] in H.
  2:{ match type of H with (?x, _) = _ => destruct x as [c1 p1] eqn:E end. injection H as <- <- <-.
      eapply Hvia; [| |by eapply queue_primary_ok; [|done..|exact E]; auto]; auto. }
  apply valid_frame_wf in Hv. clear Hvia.
  set (q := if image r =? selected (set_pending None p) then set_retry None (set_pending None p)
            else set_pending None p) in H.
  assert (inv c q ∧ pending q = None) as [Hq Eq] by (unfold q; destruct (_ =? _); auto).
  clearbody q.
  assert (ok_step c p c (present_now f (image r) q)) as Hnow by (apply Hdone; auto).
  destruct (presented q) as [prev|] eqn:Ep; [|by injection H as <- <- <-].
  destruct (transition_started_at d) as [st|]; [|by injection H as <- <- <-].
  destruct (_ || _) eqn:Edim; [by injection H as <- <- <-|]. simp_bool.
  destruct (blend _ _ _ _ _) as [b|] eqn:Eb; [|by injection H as <- <- <-].
  injection H as <- <- <-.
  assert (wf_pixels prev) as Hprev by (by apply (i_presented _ _ Hq)).
  destruct (blend_wf _ _ _ _ Hprev Hv H1 Eb) as (Hb & Hbw & Hbh).
  unfold same_dimensions in H1. simp_bool.
  match goal with |- ok_step _ _ _ (fst (advance_transition m ?x)) =>
    assert (inv c x) as Hx; [|destruct (advance_ok c m x Hx) as (_ & Hadv & Hfr)] end.
  { apply set_shown_inv; [done|done|]. intros t' [= <-]. split; [done|]. split; [done|]. by constructor. }
  split; [done|]. split; [done|]. intros d' Hd'. destruct (Hfr d' Hd') as [(? & E & _)|?]; [|by right].
  cbn in E. congruence.
Qed.

(** One step of one playback; the others of the process move the counter. *)
Inductive step : Z * Playback → Z * Playback → Prop :=
| step_other c c' p : c ≤ c' → c' + 1 < 2 ^ 64 → step (c, p) (c', p)
| step_synchronize clock m force c p c' p' o : c' + 1 < 2 ^ 64 →
    synchronize_inner clock m force c p = Some (c', p', o) → step (c, p) (c', p')
| step_solar l clock m c p c' p' o : c' + 1 < 2 ^ 64 →
    set_solar_schedule l clock m c p = Some (c', p', o) → step (c, p) (c', p')
| step_take c p : step (c, p) (c, fst (take_decode_request p))
| step_complete r res m cap c p c' p' o : c' + 1 < 2 ^ 64 →
    complete_decode r res m cap c p = (c', p', o) → step (c, p) (c', p')
| step_advance m c p : step (c, p) (c, fst (advance_transition m p)).

Definition valid_state (x : Z * Playback) : Prop := 0 ≤ fst x ∧ fst x + 1 < 2 ^ 64 ∧ inv (fst x) (snd x).

Lemma step_ok x y : valid_state x → step x y → valid_state y ∧ ok_step (fst x) (snd x) (fst y) (snd y).
Proof.
  intros (Hc & Hlt & Hi) Hs. 
  assert (fst y + 1 < 2 ^ 64 → ok_step (fst x) (snd x) (fst y) (snd y) →
    valid_state y ∧ ok_step (fst x) (snd x) (fst y) (snd y)) as Hgo.
  { intros ? (? & ? & ?). unfold valid_state. split_and!; auto; try lia. by split_and!. }
  destruct Hs; cbn [fst snd] in *; apply Hgo; try done.
  - split; [done|]. split; [|by apply fresh_same]. destruct Hi. constructor; try done. lia.
  - by eapply synchronize_inner_ok.
  - unfold set_solar_schedule in *. eapply (synchronize_inner_ok _ _ _ _ (set_mode _ p)); eauto.
  - by apply take_ok.
  - by eapply complete_ok.
  - by apply advance_ok.
Qed.

Lemma with_solar_valid md pr ap clock m rm sol c c' p :
  0 ≤ c → c + 2 < 2 ^ 64 → with_solar md pr ap clock m rm sol c = Some (c', p) → valid_state (c', p).
Proof.
  intros Hc Hlt H. unfold with_solar in H. apply bind_Some in H as ([mo sel] & _ & H).
  unfold next_generation, wrapping_add in H. rewrite Z.mod_small in H by lia. injection H as <- <-.
  unfold valid_state. cbn. split; [lia|]. split; [lia|]. constructor; cbn; try done; [by intros d [= <-]|lia].
Qed.

Lemma steps_valid x y : valid_state x → rtc step x y → valid_state y.
Proof. intros Hx. induction 1 as [|x y z Hs _ IH]; [done|]. by apply IH, (step_ok _ _ Hx Hs). Qed.

(** The request [r] was issued and is no longer the pending one. *)
Definition superseded (r : DecodeRequest) (x : Z * Playback) : Prop :=
  generation r < fst x ∧ ∀ d, pending (snd x) = Some d → request d ≠ r.

Lemma superseded_steps r x y :
  valid_state x → superseded r x → rtc step x y → superseded r y.
Proof.
  intros Hx Hr Hs. revert Hx Hr. induction Hs as [|x y z Hs _ IH]; [done|].
  intros Hx [Hg Hp]. destruct (step_ok _ _ Hx Hs) as [Hy (Hc & _ & Hf)]. apply IH; [done|].
  split; [lia|]. intros d Hd. destruct (Hf d Hd) as [(d0 & Hd0 & <-)|?]; [by apply Hp|].
  intros E. rewrite E in H. lia.
Qed.

(** The decoded frames a playback retains. *)
Definition retained (p : Playback) : list RgbaFrame :=
  option_list (presented p)
  ++ match transition p with Some t => [from t; to t; blended t] | None => [] end.

(** ** Properties *)

(** The search for a point's boundary second ends, within the day, at a
    switch of the comparison it searches with: the point's time is not reached
    one second before and is reached at it (or the boundary is the start or the
    end of the day).  It holds for every [f64]: rounding of the division, NaN
    and infinities included. *)
Theorem boundary_second_switch time :
  boundary_search 18 time 0 SECONDS_PER_DAY = Some (effective_boundary_second time)
  ∧ let s := effective_boundary_second time in 0 ≤ s ≤ SECONDS_PER_DAY
  ∧ (s = 0 ∨ before_boundary time (s - 1) = false)
  ∧ (s = SECONDS_PER_DAY ∨ before_boundary time s = true).
Proof.
  split; [apply boundary_search_Some|apply boundary_second_spec].
Qed.

(** The delay until the next wake-up is at most a minute, and no boundary lies
    before it. *)
Lemma next_wake_bounds p l clock m w :
  mode p = Time l → wf_clock clock → next_wake clock m p = Some w →
  0 ≤ w ≤ RESYNCHRONIZE_AFTER ∧ (∀ q, q ∈ l → w ≤ until_boundary (time_of_day clock) (boundary_of q)).
Proof.
  intros Hm Hc Hw. unfold next_wake in Hw. rewrite Hm in Hw.
  pose proof (minimum_spec ((λ q, until_boundary (time_of_day clock) (boundary_of q)) <$> l)) as Hmin.
  set (bd := minimum _) in *.
  match type of Hw with context [option_list bd ++ option_list ?r] => set (rt := r) in * end.
  assert (∀ x, rt = Some x → 0 ≤ x) as Hrt.
  { subst rt. intros x. 
    match goal with |- (if ?b then _ else _) = _ → _ => destruct b end; [|done].
    destruct (retry_not_before p) as [d|]; cbn; [|done]. intros [= <-]. unfold saturating_sub. lia. }
  clearbody rt. destruct (_ && _); [done|]. injection Hw as <-.
  destruct (foldl_min_le (option_list bd ++ option_list rt) RESYNCHRONIZE_AFTER) as [Hle Hall].
  rewrite Forall_app in Hall. destruct Hall as [Hb _]. split.
  - split; [|done].
    destruct (foldl_min_in (option_list bd ++ option_list rt) RESYNCHRONIZE_AFTER) as [->|Hin]; [done|].
    apply elem_of_app in Hin as [Hin|Hin].
    + destruct bd as [b|]; [|by apply elem_of_nil in Hin]. apply list_elem_of_singleton in Hin as ->.
      destruct Hmin as [Hin _]. apply list_elem_of_fmap in Hin as (q & -> & _).
      apply Z.lt_le_incl, until_boundary_pos; [done|]. apply boundary_of_range.
    + destruct rt as [x|]; [|by apply elem_of_nil in Hin]. apply list_elem_of_singleton in Hin as ->. auto.
  - intros q Hq. destruct bd as [b|].
    + destruct Hmin as [_ Hmin]. rewrite Forall_fmap, Forall_forall in Hmin. specialize (Hmin q Hq).
      unfold compose in Hmin. cbv beta in Hmin. apply Forall_inv in Hb. lia.
    + apply fmap_nil_inv in Hmin. subst l. by apply elem_of_nil in Hq.
Qed.

(** The scheduler wakes in time: the wake-up is never later than a minute
    away and never in the past, and until it comes the selected point of a time
    schedule stays what it is, so no boundary is missed. *)
Theorem next_wake_in_time p l clock clock' m w :
  mode p = Time l → wf_clock clock → wf_clock clock' → next_wake clock m p = Some w →
  0 ≤ w ≤ RESYNCHRONIZE_AFTER
  ∧ (time_of_day clock ≤ time_of_day clock' < time_of_day clock + w →
     selected_point l clock' = selected_point l clock).
Proof.
  intros Hm Hc Hc' Hw. destruct (next_wake_bounds p l clock m w Hm Hc Hw) as [Hr Hb]. split; [done|].
  intros [H1 H2]. apply selected_point_until; try done. intros q Hq. specialize (Hb q Hq). lia.
Qed.

(** C40.  What is on screen is always sound, and memory is bounded: in every run
    of a playback, whatever frames the decoder returns, in whatever order, and
    whatever the clocks do, every retained frame has positive sides, four bytes
    per pixel, all opaque, and at most [MAX_FRAME_BYTES]; at most three are
    retained; what is shown is one of them; and the three of a dissolve have the
    same width and the same height. *)
Theorem playback_frames_sound md pr ap clock m rm sol c x y :
  0 ≤ c → c + 2 < 2 ^ 64 → with_solar md pr ap clock m rm sol c = Some x → rtc step x y →
  Forall wf_pixels (retained (snd y)) ∧ (length (retained (snd y)) ≤ 3)%nat
  ∧ (∀ f, frame (snd y) = Some f → f ∈ retained (snd y))
  ∧ (∀ t, transition (snd y) = Some t →
       retained (snd y) = [from t; to t; blended t]
       ∧ Forall (λ f, width f = width (to t) ∧ height f = height (to t)) (retained (snd y))).
Proof.
  intros Hc Hlt Hn Hs. destruct x as [c0 p0]. apply with_solar_valid in Hn; [|done..].
  destruct (steps_valid _ _ Hn Hs) as (_ & _ & Hi). clear Hs Hn. destruct y as [c1 p]. cbn [fst snd] in *.
  unfold retained, frame, or_else. destruct (transition p) as [t|] eqn:Et.
  - destruct (i_transition _ _ Hi t Et) as (-> & _ & [H1 H2 H3 H4 H5]). cbn.
    split; [by rewrite !Forall_cons; split_and!|]. split; [lia|]. split; [intros f [= <-]; set_solver|].
    intros t' [= <-]. split; [done|]. by repeat (apply Forall_cons_2 || apply Forall_nil_2).
  - destruct (presented p) as [f|] eqn:Ep; cbn.
    + split; [apply Forall_singleton; by eapply i_presented|]. split; [lia|]. split; [intros g [= <-]; set_solver|done].
    + by split_and!; [constructor|lia|..].
Qed.

(** A stale decode never reaches the screen: once a request was superseded
    (by a new selection, a discontinuity, its own completion or a fallback) its
    completion is ignored in every later state and changes nothing. *)
Theorem stale_decode_ignored r x y res m cap :
  valid_state x → superseded r x → rtc step x y →
  complete_decode r res m cap (fst y) (snd y) = (fst y, snd y, Ignored).
Proof.
  intros Hx Hr Hs. destruct (superseded_steps _ _ _ Hx Hr Hs) as [_ Hp].
  unfold complete_decode, complete_decode_with_limit. destruct (pending (snd y)) as [d|]; [|done].
  rewrite bool_decide_false by (by apply Hp). done.
Qed.

(** A dissolve interpolates and ends: in a well-formed transition a sample
    before two seconds have passed shows, in every channel, the rounded mix of
    the two frames for the elapsed time, which lies between them and does not
    overflow [u16]; from two seconds on the new frame alone is shown. *)
Theorem dissolve_samples c p t m :
  inv c p → transition p = Some t →
  let elapsed := saturating_sub m (started_at t) in
  let p' := fst (advance_transition m p) in
  (elapsed < DISSOLVE_DURATION →
   ∃ f w, frame p' = Some f ∧ 0 ≤ w ≤ 256 ∧ w = elapsed * 256 / DISSOLVE_DURATION
     ∧ pixels f = zip_with (mix w) (pixels (from t)) (pixels (to t))
     ∧ ∀ i a b, pixels (from t) !! i = Some a → pixels (to t) !! i = Some b →
         ∃ v, pixels f !! i = Some v ∧ Z.min (u8 a) (u8 b) ≤ u8 v ≤ Z.max (u8 a) (u8 b)
           ∧ 0 ≤ u8 a * (256 - w) + u8 b * w + 128 < 2 ^ 16)
  ∧ (DISSOLVE_DURATION ≤ elapsed → transition p' = None ∧ frame p' = Some (to t)).
Proof.
  intros Hi Et elapsed p'. subst p'. destruct (i_transition _ _ Hi t Et) as (_ & _ & Ht).
  unfold advance_transition. rewrite Et. cbv zeta. fold elapsed. split; intros He.
  - rewrite (proj2 (Z.leb_gt _ _)) by done.
    assert (0 ≤ elapsed) as H0 by (unfold elapsed, saturating_sub; lia).
    assert (0 ≤ elapsed * 256 / DISSOLVE_DURATION < 256) as Hw.
    { split; [apply Z.div_pos; [lia|done]|apply Z.div_lt_upper_bound; [done|lia]]. }
    rewrite Z.min_l by lia.
    destruct (blend_into_wf t (elapsed * 256 / DISSOLVE_DURATION) Ht ltac:(lia)) as [_ Ez].
    destruct (blend_into _ _ _ _) as [f ch]. cbn [fst] in *.
    exists f, (elapsed * 256 / DISSOLVE_DURATION). split; [done|]. split; [lia|]. split; [done|]. split; [done|].
    intros i a b Ha Hb. exists (mix (elapsed * 256 / DISSOLVE_DURATION) a b).
    rewrite Ez, lookup_zip_with, Ha, Hb.
    destruct (mix_bounds (elapsed * 256 / DISSOLVE_DURATION) a b ltac:(lia)) as (? & _ & ?). done.
  - by rewrite (proj2 (Z.leb_le _ _)) by done.
Qed.

(** *** Two points, at six and at eighteen o'clock *)

Definition quarter (n : Z) : f64 := f64_div (f64_of n) (f64_of 4).
Definition two_points : list TimePoint := [mkTimePoint 0 (quarter 1); mkTimePoint 1 (quarter 3)].
Definition at_time (h m s : Z) : ClockSnapshot := mkClock (mkDate 2026 9 9) (mkTime h m s) 0 0.
Definition pixel (v : Z) : RgbaFrame := mkFrame 1 1 [to_u8 v; to_u8 v; to_u8 v; to_u8 255] 4.
Definition started : option (Z * Playback) :=
  with_solar metadata_default 9 Automatic (at_time 17 59 59) (from_secs 100000) false (Some two_points) 1.

(** The first frame is decoded; a second later the boundary is passed and the
    new frame arrives half a second into the dissolve. *)
Definition played : option (Z * Playback * Playback) :=
  '(c, p) ← started;
  let p := fst (take_decode_request p) in
  let '(c, p, _) := complete_decode (mkRequest 1 0) (Some (pixel 10)) (from_secs 100000) (Some 4) c p in
  '(c, p, _) ← synchronize (at_time 18 0 0) (from_secs 100001) c p;
  let p := fst (take_decode_request p) in
  let '(c, q, _) := complete_decode (mkRequest 2 1) (Some (pixel 210)) (from_secs 100001 + 500000000) (Some 4) c p in
  Some (c, p, q).

Lemma next_wake_in_time_witness :
  match started with
  | Some (_, p) =>
    next_wake (at_time 17 59 59) (from_secs 100000) p = Some (from_secs 1)
    ∧ selected_point two_points (mkClock (mkDate 2026 9 9) (mkTime 17 59 59) 999999999 0)
      = selected_point two_points (at_time 17 59 59)
  | None => False
  end.
Proof.
  destruct started as [[c p]|] eqn:E; [|vm_compute in E; discriminate E].
  assert (next_wake (at_time 17 59 59) (from_secs 100000) p = Some (from_secs 1)
          ∧ mode p = Time two_points) as [Hw Hm]
    by (vm_compute in E; injection E as <- <-; split; vm_compute; reflexivity).
  split; [exact Hw|].
  refine (proj2 (next_wake_in_time p two_points _ _ _ _ Hm _ _ Hw) _);
    [unfold wf_clock, NANOS; cbn; lia..|vm_compute; split; [discriminate|reflexivity]].
Defined.

Lemma played_steps x c p q : started = Some x → played = Some (c, p, q) → ∃ c', rtc step x (c', q).
Proof.
  intros Ex Eq. unfold played in Eq. rewrite Ex in Eq. destruct x as [c0 p0]. cbn [mbind option_bind] in Eq.
  destruct (complete_decode (mkRequest 1 0) _ _ _ _ _) as [[c1 p1] o1] eqn:E1.
  destruct (synchronize _ _ _ _) as [[[c2 p2] o2]|] eqn:E2; [|discriminate]. cbn [mbind option_bind] in Eq.
  destruct (complete_decode (mkRequest 2 1) _ _ _ _ _) as [[c3 p3] o3] eqn:E3. injection Eq as <- <- <-. exists c3.
  assert (c1 + 1 < 2 ^ 64 ∧ c2 + 1 < 2 ^ 64 ∧ c3 + 1 < 2 ^ 64) as (H1 & H2 & H3).
  { vm_compute in Ex. injection Ex as <- <-. vm_compute in E1. injection E1 as <- <- <-.
    vm_compute in E2. injection E2 as <- <- <-. vm_compute in E3. injection E3 as <- <- <-. done. }
  eapply rtc_l; [apply step_take|]. eapply rtc_l; [by eapply step_complete, E1|].
  eapply rtc_l; [by eapply step_synchronize, E2|]. eapply rtc_l; [apply step_take|].
  by eapply rtc_once, step_complete, E3.
Qed.

(** A playback in the middle of a dissolve, which retains three frames. *)
Lemma playback_frames_sound_witness :
  match played with
  | Some (_, _, q) => length (retained q) = 3%nat ∧ Forall wf_pixels (retained q)
      ∧ ∃ t, transition q = Some t
        ∧ Forall (λ f, width f = width (to t) ∧ height f = height (to t)) (retained q)
  | None => False
  end.
Proof.
  destruct started as [[c0 p0]|] eqn:E0; [|vm_compute in E0; discriminate E0].
  destruct played as [[[c p] q]|] eqn:E; [|vm_compute in E; discriminate E].
  destruct (played_steps _ _ _ _ E0 E) as [c' Hsteps].
  destruct (playback_frames_sound metadata_default 9 Automatic (at_time 17 59 59) (from_secs 100000) false
              (Some two_points) 1 (c0, p0) (c', q)) as (Hwf & _ & _ & Hd); [done|done|exact E0|exact Hsteps|].
  cbn [snd] in Hwf, Hd.
  assert (is_Some (transition q)) as [t Et] by (vm_compute in E; injection E as _ _ <-; by eexists).
  destruct (Hd t Et) as [Hr Hs]. split; [by rewrite Hr|]. split; [exact Hwf|]. exists t. exact (conj Et Hs).
Defined.

(** The request for the first image, superseded by the second. *)
Lemma stale_decode_ignored_witness :
  match played with
  | Some (c, p, _) => complete_decode (mkRequest 1 0) (Some (pixel 77)) 0 None c p = (c, p, Ignored)
  | None => False
  end.
Proof.
  destruct played as [[[c p] q]|] eqn:E; [|vm_compute in E; discriminate E].
  vm_compute in E. injection E as <- <- _.
  match goal with |- complete_decode _ _ _ _ ?c ?p = _ =>
    apply (stale_decode_ignored (mkRequest 1 0) (c, p) (c, p)) end; [| |apply rtc_refl].
  - split; [done|]. split; [done|]. constructor; cbn [presented transition pending p_generation snd fst].
    + intros f [= <-]. vm_compute. repeat split; discriminate.
    + discriminate.
    + intros d [= <-]. reflexivity.
    + reflexivity.
  - split; [reflexivity|]. intros d [= <-]. discriminate.
Defined.

Lemma dissolve_samples_witness :
  match played with
  | Some (_, _, q) => ∃ t, transition q = Some t
      ∧ frame (fst (advance_transition (from_secs 100003) q)) = Some (to t)
  | None => False
  end.
Proof.
  destruct played as [[[c p] q]|] eqn:E; [|vm_compute in E; discriminate E].
  vm_compute in E. injection E as _ _ <-. eexists. split; [reflexivity|].
  match goal with |- frame (fst (advance_transition _ ?p)) = Some (to ?t) =>
    refine (proj2 (proj2 (dissolve_samples 10 p t _ _ eq_refl) _)) end; [|vm_compute; discriminate].
  constructor; cbn [presented transition pending p_generation presented_image].
  - discriminate.
  - intros t [= <-]. split; [reflexivity|]. split; [reflexivity|].
    constructor; vm_compute; repeat split; discriminate.
  - discriminate.
  - reflexivity.
Defined.
