(* ===== verification/HeicRelay.v ===== *)
(** * The HEIC relay: worker process and supervisor ([src/wallpaper.rs])

    The bytes that carry frames from the decoder process, and the three parties
    that share them as a step relation: the process that writes, the supervisor
    thread that spawns, reads, kills and reaps it, and the owner of the
    [HeicPlayer], which takes updates and may drop it at any moment.  A step of
    the supervisor is one of its operations on shared state, one read or one
    system call; a step that would block is not possible. *)

From S2P Require Import Prelude Utf8.
From S2P Require Playback.

(** ** Frames on the pipe *)

Definition HEIC_FRAME_TAG : Z := 70.
Definition HEIC_FAILED_TAG : Z := 69.
Definition HEIC_HEADER_BYTES : nat := 12.
Definition MAX_HEIC_FRAME_DIMENSION : Z := 16384.
Definition MAX_HEIC_FRAME_BYTES : Z := 256 * 1024 * 1024.

(** [to_le_bytes] and [from_le_bytes]. *)
Definition le_bytes (n : nat) (z : Z) : list byte := rev (be_bytes n z).
Definition le_value (bs : list byte) : Z := be_value (rev bs).

Record Frame := mkFrame { width : Z; height : Z; pixels : list byte; pts : option Z }.
#[export] Instance Frame_eq_dec : EqDecision Frame.
Proof. solve_decision. Defined.
Inductive Update := UFrame (f : Frame) | UFailed.

(** What [write_heic_frame] writes. *)
Definition write_heic_frame (f : Playback.RgbaFrame) : option (list byte) :=
  let length := Z.of_nat (length (Playback.pixels f)) in
  if length <? 2 ^ 32 then
    Some (to_u8 HEIC_FRAME_TAG :: le_bytes 4 (Playback.width f) ++ le_bytes 4 (Playback.height f)
          ++ le_bytes 4 length ++ Playback.pixels f)
  else None.

Definition expected_frame_bytes (width height : Z) : option Z :=
  if (width =? 0) || (height =? 0) then None
  else if (MAX_HEIC_FRAME_DIMENSION <? width) || (MAX_HEIC_FRAME_DIMENSION <? height) then None
  else
    n ← checked_mul 64 width height;
    bytes ← checked_mul 64 n 4;
    if bytes <=? MAX_HEIC_FRAME_BYTES then Some bytes else None.

(** The header's three numbers, when they agree. *)
Definition read_header (header : list byte) : option (Z * Z * Z) :=
  let width := le_value (slice 0 4 header) in
  let height := le_value (slice 4 8 header) in
  let length := le_value (slice 8 12 header) in
  expected ← expected_frame_bytes width height;
  if length =? expected then Some (width, height, length) else None.

(** ** The parties *)

Inductive Process := NotSpawned | Running | Exited | Reaped.
#[export] Instance Process_eq_dec : EqDecision Process.
Proof. solve_decision. Defined.

(** Where the supervisor is: before the operation its name says. *)
Inductive Supervisor :=
| Spawning
| Publishing
| Checking
| AtTag
| AtHeader
| AtPixels (width height length : Z)
| Received (f : Frame)
| Emitting (f : Frame)
| Notifying (next : Supervisor)
| Broken
| Failing
| StoringFailure (next : Supervisor)
| Leaving
| Killing (reported : bool)
| Taking (reported : bool)
| Waiting (reported : bool)
| Reporting (reported : bool)
| Done.

#[export] Instance Supervisor_eq_dec : EqDecision Supervisor.
Proof. solve_decision. Defined.

Inductive Owner := Watching | Dropping | Dropped.

Record World := mkWorld {
  pending : option Update;
  sequence : Z;
  signalled : Z;
  failed : bool;
  stopping : bool;
  slot : bool;
  process : Process;
  pipe : list byte;
  supervisor : Supervisor;
  owner : Owner;
  written : list byte;
  published : list Update;
  kills : list Process;
  diagnostics : nat;
}.
(** [slot]: a child is in the shared slot.  The last four fields are history:
    all the worker wrote, all that was ever stored in [pending], in what state
    each kill found the process, the messages on stderr. *)

Definition initial : World :=
  mkWorld None 0 0 false false false NotSpawned [] Spawning Watching [] [] [] 0.

Definition set_supervisor (s : Supervisor) (w : World) : World :=
  mkWorld (pending w) (sequence w) (signalled w) (failed w) (stopping w) (slot w) (process w) (pipe w)
    s (owner w) (written w) (published w) (kills w) (diagnostics w).
Definition set_failed (w : World) : World :=
  mkWorld (pending w) (sequence w) (signalled w) true (stopping w) (slot w) (process w) (pipe w)
    (supervisor w) (owner w) (written w) (published w) (kills w) (diagnostics w).
Definition set_process (p : Process) (w : World) : World :=
  mkWorld (pending w) (sequence w) (signalled w) (failed w) (stopping w) (slot w) p (pipe w)
    (supervisor w) (owner w) (written w) (published w) (kills w) (diagnostics w).
Definition set_slot (b : bool) (w : World) : World :=
  mkWorld (pending w) (sequence w) (signalled w) (failed w) (stopping w) b (process w) (pipe w)
    (supervisor w) (owner w) (written w) (published w) (kills w) (diagnostics w).
Definition set_pipe (bs : list byte) (w : World) : World :=
  mkWorld (pending w) (sequence w) (signalled w) (failed w) (stopping w) (slot w) (process w) bs
    (supervisor w) (owner w) (written w) (published w) (kills w) (diagnostics w).
Definition diagnostic (w : World) : World :=
  mkWorld (pending w) (sequence w) (signalled w) (failed w) (stopping w) (slot w) (process w) (pipe w)
    (supervisor w) (owner w) (written w) (published w) (kills w) (S (diagnostics w)).

(** [*lock(&shared.pending) = Some(u)]. *)
Definition store (u : Update) (w : World) : World :=
  mkWorld (Some u) (sequence w) (signalled w) (failed w) (stopping w) (slot w) (process w) (pipe w)
    (supervisor w) (owner w) (written w) (published w ++ [u]) (kills w) (diagnostics w).
(** [fetch_add] and [send_replace]. *)
Definition notify (w : World) : World :=
  let s := wrapping_add 64 (sequence w) 1 in
  mkWorld (pending w) s s (failed w) (stopping w) (slot w) (process w) (pipe w)
    (supervisor w) (owner w) (written w) (published w) (kills w) (diagnostics w).

(** [Child::kill] on whatever the process is by now. *)
Definition killed (p : Process) : Process := if decide (p = Running) then Exited else p.
Definition kill (w : World) : World :=
  mkWorld (pending w) (sequence w) (signalled w) (failed w) (stopping w) (slot w)
    (killed (process w)) (pipe w)
    (supervisor w) (owner w) (written w) (published w) (kills w ++ [process w]) (diagnostics w).
Definition signal_heic_child (w : World) : World := if slot w then kill w else w.

(** [read_exact]: [None] blocks, [Some None] is the end of the stream. *)
Definition read_exact (n : nat) (w : World) : option (option (list byte) * World) :=
  if decide (n ≤ length (pipe w))%nat then
    Some (Some (take n (pipe w)), set_pipe (drop n (pipe w)) w)
  else match process w with
       | Running => None
       | _ => Some (None, set_pipe [] w)
       end.

(** Go on with what was read, or leave the loop. *)
Definition reading (n : nat) (k : list byte → World → World) (w : World) : option World :=
  '(r, w) ← read_exact n w;
  Some (match r with Some bs => k bs w | None => set_supervisor Broken w end).

(** The swap of [fail_heic]; the rest of it is [StoringFailure] and
    [Notifying]. *)
Definition fail_heic (next : Supervisor) (w : World) : World :=
  if failed w then set_supervisor next w
  else set_supervisor (StoringFailure next) (set_failed w).

Inductive Spawned := SpawnError | NoStdout | WithStdout.

Section Supervisor.
(** The answers of the system: what [spawn] gives, and whether a buffer of a
    length can be had. *)
Context (spawned : Spawned) (reserve : Z → bool).

(** One step of [supervise_heic_worker] and the functions it calls. *)
Definition exec (w : World) : option World :=
  match supervisor w with
  | Spawning => Some
    match spawned with
    | SpawnError => fail_heic (Reporting true) w
    | NoStdout => fail_heic (Reporting true) (set_process Reaped (kill (set_process Running w)))
    | WithStdout => set_supervisor Publishing (set_process Running w)
    end
  | Publishing => Some (set_supervisor Checking (set_slot true w))
  | Checking => Some (set_supervisor (if stopping w then Leaving else AtTag) w)
  | AtTag => reading 1 (λ bs w,
      let tag := le_value bs in
      if tag =? HEIC_FAILED_TAG then set_supervisor Failing w
      else if negb (tag =? HEIC_FRAME_TAG) then set_supervisor Broken w
      else set_supervisor AtHeader w) w
  | AtHeader => reading HEIC_HEADER_BYTES (λ bs w,
      match read_header bs with
      | Some (width, height, length) => set_supervisor (AtPixels width height length) w
      | None => set_supervisor Broken w
      end) w
  | AtPixels width height length =>
    if reserve length then
      reading (Z.to_nat length) (λ bs w, set_supervisor (Received (mkFrame width height bs None)) w) w
    else Some (set_supervisor Broken w)
  | Received f => Some (set_supervisor (if stopping w then Broken else Emitting f) w)
  | Emitting f => Some
    (if failed w then set_supervisor AtTag w
     else set_supervisor (Notifying AtTag) (store (UFrame f) w))
  | Notifying next => Some (set_supervisor next (notify w))
  | Broken => Some (set_supervisor (if stopping w then Leaving else Failing) w)
  | Failing => Some (fail_heic Leaving w)
  | StoringFailure next => Some (set_supervisor (Notifying next) (store UFailed w))
  | Leaving => Some (set_supervisor (Killing (failed w)) w)
  | Killing reported => Some (set_supervisor (Taking reported) (signal_heic_child w))
  | Taking reported => Some
    (if slot w then set_supervisor (Waiting reported) (set_slot false w)
     else set_supervisor (Reporting reported) w)
  | Waiting reported =>
    match process w with
    | Running => None
    | _ => Some (set_supervisor (Reporting reported) (set_process Reaped w))
    end
  | Reporting reported => Some (set_supervisor Done (if reported then diagnostic w else w))
  | Done => None
  end.

(** The owner: [take_latest], and the two halves of [drop]. *)
Definition take_latest (w : World) : option Update * World :=
  (pending w,
   mkWorld None (sequence w) (signalled w) (failed w) (stopping w) (slot w) (process w) (pipe w)
     (supervisor w) (owner w) (written w) (published w) (kills w) (diagnostics w)).
Definition set_owner (o : Owner) (stop : bool) (w : World) : World :=
  mkWorld (pending w) (sequence w) (signalled w) (failed w) stop (slot w) (process w) (pipe w)
    (supervisor w) o (written w) (published w) (kills w) (diagnostics w).
Definition has_failed (w : World) : bool := failed w.
Definition begin_drop (w : World) : World := set_owner Dropping true w.
Definition end_drop (w : World) : World := set_owner Dropped (stopping w) (signal_heic_child w).

(** What the process puts into its end of the pipe. *)
Definition write_pipe (bs : list byte) (w : World) : World :=
  mkWorld (pending w) (sequence w) (signalled w) (failed w) (stopping w) (slot w) (process w)
    (pipe w ++ bs) (supervisor w) (owner w) (written w ++ bs) (published w) (kills w) (diagnostics w).

Inductive step (w : World) : World → Prop :=
| step_supervisor w' : exec w = Some w' → step w w'
| step_take : owner w = Watching → step w (snd (take_latest w))
| step_begin_drop : owner w = Watching → step w (begin_drop w)
| step_end_drop : owner w = Dropping → step w (end_drop w)
| step_write bs : process w = Running → step w (write_pipe bs w)
| step_exit : process w = Running → step w (set_process Exited w).

Inductive reachable : World → Prop :=
| reachable_initial : reachable initial
| reachable_step w w' : reachable w → step w w' → reachable w'.

(** The supervisor alone, until it is done or blocks. *)
Fixpoint supervise (n : nat) (w : World) : World :=
  match n with
  | O => w
  | S n => match exec w with Some w => supervise n w | None => w end
  end.
End Supervisor.
