(* ===== verification/HeicRelayProofs.v ===== *)
(** * The HEIC relay: proofs

    Invariants of every interleaving of the worker process, its supervisor and
    the owner: the frames that arrive, the failure that is told once, and the
    death of the process. *)

From S2P Require Import Prelude Utf8 HeicRelay.
From S2P Require Playback.

(** ** Little endian *)

Lemma length_le_bytes n z : length (le_bytes n z) = n.
Proof. unfold le_bytes. by rewrite length_rev, length_be_bytes. Qed.
Lemma le_value_bytes n z : 0 ≤ z < 256 ^ Z.of_nat n → le_value (le_bytes n z) = z.
Proof. intros. unfold le_value, le_bytes. by rewrite rev_involutive, be_value_bytes. Qed.
Lemma le_bytes_value bs : le_bytes (length bs) (le_value bs) = bs.
Proof.
  unfold le_value, le_bytes. rewrite <- (rev_involutive bs) at 3. f_equal.
  rewrite <- (length_rev bs). apply be_bytes_value.
Qed.
Lemma le_value_range bs : 0 ≤ le_value bs < 256 ^ Z.of_nat (length bs).
Proof. unfold le_value. rewrite <- (length_rev bs). apply be_value_range. Qed.

(** ** Frames *)

(** The header and the bytes of a frame. *)
Definition header_of (w h n : Z) : list byte := le_bytes 4 w ++ le_bytes 4 h ++ le_bytes 4 n.
Definition encode_frame (f : Frame) : list byte :=
  to_u8 HEIC_FRAME_TAG :: header_of (width f) (height f) (Z.of_nat (length (pixels f))) ++ pixels f.

Lemma encode_frame_app f r : encode_frame f ++ r =
  to_u8 HEIC_FRAME_TAG :: header_of (width f) (height f) (Z.of_nat (length (pixels f))) ++ pixels f ++ r.
Proof. unfold encode_frame. by rewrite <- app_comm_cons, <- app_assoc. Qed.

Definition well_sized (f : Frame) : Prop :=
  0 ≤ width f ∧ 0 ≤ height f ∧ pts f = None ∧
  expected_frame_bytes (width f) (height f) = Some (Z.of_nat (length (pixels f))).

Lemma expected_frame_bytes_Some w h n : 0 ≤ w → 0 ≤ h →
  expected_frame_bytes w h = Some n ↔
  0 < w ≤ MAX_HEIC_FRAME_DIMENSION ∧ 0 < h ≤ MAX_HEIC_FRAME_DIMENSION ∧
  n = w * h * 4 ∧ n ≤ MAX_HEIC_FRAME_BYTES.
Proof.
  intros Hw Hh. unfold expected_frame_bytes, MAX_HEIC_FRAME_DIMENSION, MAX_HEIC_FRAME_BYTES. split.
  - intros H. destruct (_ || _) eqn:E1 in H; [done|]. destruct (_ || _) eqn:E2 in H; [done|]. simp_bool.
    apply bind_Some in H as (a & [-> _]%checked_mul_Some & H).
    apply bind_Some in H as (b & [-> _]%checked_mul_Some & H).
    destruct (_ <=? _) eqn:E3 in H; [|done]. simp_bool. simplify_eq. lia.
  - intros ([H1 H2] & [H3 H4] & -> & H5).
    rewrite (proj2 (Z.eqb_neq _ _)), (proj2 (Z.eqb_neq _ _)), !(proj2 (Z.ltb_ge _ _)) by lia. cbn [orb].
    unfold checked_mul. rewrite (proj2 (Z.ltb_lt (w * h) _)) by nia. cbn [mbind option_bind].
    rewrite (proj2 (Z.ltb_lt _ _)) by nia. cbn [mbind option_bind]. by rewrite (proj2 (Z.leb_le _ _)) by lia.
Qed.

Lemma slice_header w h n :
  slice 0 4 (header_of w h n) = le_bytes 4 w ∧ slice 4 8 (header_of w h n) = le_bytes 4 h ∧
  slice 8 12 (header_of w h n) = le_bytes 4 n.
Proof.
  unfold slice, header_of. cbn [Nat.sub].
  rewrite drop_0, take_app_length' by (by rewrite length_le_bytes).
  rewrite drop_app_length', take_app_length' by (by rewrite length_le_bytes).
  rewrite (app_assoc (le_bytes 4 w)), drop_app_length' by (by rewrite length_app, !length_le_bytes).
  by rewrite take_ge by (by rewrite length_le_bytes).
Qed.

Lemma read_header_of w h n : 0 ≤ w < 2 ^ 32 → 0 ≤ h < 2 ^ 32 → 0 ≤ n < 2 ^ 32 →
  read_header (header_of w h n) =
    if bool_decide (expected_frame_bytes w h = Some n) then Some (w, h, n) else None.
Proof.
  intros Hw Hh Hn. unfold read_header. destruct (slice_header w h n) as (-> & -> & ->).
  rewrite !le_value_bytes by done. destruct (expected_frame_bytes w h) as [m|]; cbn.
  - destruct (Z.eqb_spec n m) as [->|]; [by rewrite bool_decide_true|].
    by rewrite bool_decide_false by congruence.
  - by rewrite bool_decide_false.
Qed.

(** Twelve bytes are the header of three numbers. *)
Lemma header_parts bs : length bs = HEIC_HEADER_BYTES → ∃ w h n,
  bs = header_of w h n ∧ 0 ≤ w < 2 ^ 32 ∧ 0 ≤ h < 2 ^ 32 ∧ 0 ≤ n < 2 ^ 32.
Proof.
  intros Hl. unfold HEIC_HEADER_BYTES in Hl.
  assert (∀ a, (a + 4 ≤ 12)%nat → length (slice a (a + 4) bs) = 4%nat ∧
    slice a (a + 4) bs = le_bytes 4 (le_value (slice a (a + 4) bs)) ∧
    0 ≤ le_value (slice a (a + 4) bs) < 2 ^ 32) as H.
  { intros a Ha. assert (length (slice a (a + 4) bs) = 4%nat) as E.
    { unfold slice. rewrite length_take, length_drop. lia. }
    split; [done|]. pose proof (le_value_range (slice a (a + 4) bs)) as Hr.
    pose proof (le_bytes_value (slice a (a + 4) bs)) as Hv. rewrite E in Hr, Hv. split; [done|]. exact Hr. }
  exists (le_value (slice 0 4 bs)), (le_value (slice 4 8 bs)), (le_value (slice 8 12 bs)).
  destruct (H 0%nat) as (_ & E0 & R0); [lia|]. destruct (H 4%nat) as (_ & E4 & R4); [lia|].
  destruct (H 8%nat) as (_ & E8 & R8); [lia|]. split; [|done]. unfold header_of.
  cbn [Nat.add] in E0, E4, E8. rewrite <- E0, <- E4, <- E8. unfold slice. cbn [Nat.sub].
  rewrite drop_0. rewrite <- (take_drop 4 bs) at 1. f_equal.
  rewrite <- (take_drop 4 (drop 4 bs)) at 1. rewrite drop_drop. f_equal.
  symmetry. apply take_ge. rewrite length_drop. lia.
Qed.

Lemma length_header_of w h n : length (header_of w h n) = 12%nat.
Proof. unfold header_of. by rewrite !length_app, !length_le_bytes. Qed.

Lemma well_sized_bounds f : well_sized f →
  0 ≤ width f < 2 ^ 32 ∧ 0 ≤ height f < 2 ^ 32 ∧ 0 ≤ Z.of_nat (length (pixels f)) < 2 ^ 32.
Proof.
  intros (H1 & H2 & _ & H). apply expected_frame_bytes_Some in H; [|done..].
  unfold MAX_HEIC_FRAME_DIMENSION, MAX_HEIC_FRAME_BYTES in H. lia.
Qed.

(** A stream of frames reads in one way only. *)
Lemma encode_frame_inj f g r s : well_sized f → well_sized g →
  encode_frame f ++ r = encode_frame g ++ s → f = g ∧ r = s.
Proof.
  intros Hf Hg E. pose proof (well_sized_bounds f Hf) as Bf. pose proof (well_sized_bounds g Hg) as Bg.
  rewrite !encode_frame_app in E. apply (f_equal tail) in E. cbn [tail] in E.
  apply app_inj_1 in E as [Eh E]; [|by rewrite !length_header_of].
  assert (∀ a b c x y z, header_of a b c = header_of x y z →
    0 ≤ a < 2 ^ 32 → 0 ≤ b < 2 ^ 32 → 0 ≤ c < 2 ^ 32 → 0 ≤ x < 2 ^ 32 → 0 ≤ y < 2 ^ 32 → 0 ≤ z < 2 ^ 32 →
    a = x ∧ b = y ∧ c = z) as Hinj.
  { intros a b c x y z Eq ? ? ? ? ? ?. destruct (slice_header a b c) as (A & B & C).
    destruct (slice_header x y z) as (X & Y & Z0). rewrite <- Eq in X, Y, Z0.
    rewrite A in X. rewrite B in Y. rewrite C in Z0.
    apply (f_equal le_value) in X, Y, Z0. rewrite !le_value_bytes in X, Y, Z0 by done. done. }
  apply Hinj in Eh as (Ew & Ehh & El); [|lia..].
  apply app_inj_1 in E as [Ep ->]; [|lia]. split; [|done].
  destruct f, g, Hf as (_ & _ & P1 & _), Hg as (_ & _ & P2 & _). cbn in *. by subst.
Qed.

(** ** The invariant *)

Definition frame_of (u : Update) : option Frame := match u with UFrame f => Some f | UFailed => None end.
Definition frames (us : list Update) : list Frame := omap frame_of us.
Definition encode_all (fs : list Frame) : list byte := fs ≫= encode_frame.

#[global] Arguments frames : simpl never.
#[global] Arguments encode_all : simpl never.

Lemma frames_app us vs : frames (us ++ vs) = frames us ++ frames vs.
Proof. apply omap_app. Qed.
Lemma encode_all_app fs gs : encode_all (fs ++ gs) = encode_all fs ++ encode_all gs.
Proof. apply bind_app. Qed.
Lemma encode_all_snoc fs f : encode_all (fs ++ [f]) = encode_all fs ++ encode_frame f.
Proof. rewrite encode_all_app. f_equal. apply app_nil_r. Qed.

(** The process and the slot, by the place of the supervisor. *)
Fixpoint lives (s : Supervisor) (sl : bool) (p : Process) : Prop :=
  match s with
  | Spawning => sl = false ∧ p = NotSpawned
  | Publishing => sl = false ∧ (p = Running ∨ p = Exited)
  | Notifying next | StoringFailure next => lives next sl p
  | Taking _ => sl = true ∧ p = Exited
  | Waiting _ => sl = false ∧ p = Exited
  | Reporting _ | Done => sl = false ∧ (p = NotSpawned ∨ p = Reaped)
  | _ => sl = true ∧ (p = Running ∨ p = Exited)
  end.

(** Past the check of [stopping], and not yet on the way out. *)
Fixpoint in_relay (s : Supervisor) : bool :=
  match s with
  | AtTag | AtHeader | AtPixels _ _ _ | Received _ | Emitting _ | Broken | Failing => true
  | Notifying next | StoringFailure next => in_relay next
  | _ => false
  end.

(** The bytes of the frame it is reading, as long as it reads. *)
Fixpoint in_hand (s : Supervisor) : option (list byte) :=
  match s with
  | Spawning | Publishing | Checking | AtTag => Some []
  | AtHeader => Some [to_u8 HEIC_FRAME_TAG]
  | AtPixels w h n => Some (to_u8 HEIC_FRAME_TAG :: header_of w h n)
  | Received f | Emitting f => Some (encode_frame f)
  | Notifying next => in_hand next
  | _ => None
  end.
(** It has told the failure, or was told to stop. *)
Fixpoint settled (s : Supervisor) : bool :=
  match s with
  | Leaving | Killing _ | Taking _ | Waiting _ | Reporting _ | Done | StoringFailure _ => true
  | Notifying next => settled next
  | _ => false
  end.
Definition storing (s : Supervisor) : bool := match s with StoringFailure _ => true | _ => false end.
Fixpoint reports (s : Supervisor) : option bool :=
  match s with
  | Killing r | Taking r | Waiting r | Reporting r => Some r
  | Notifying next | StoringFailure next => reports next
  | _ => None
  end.
(** What [Notifying] and [StoringFailure] go on with. *)
Definition resumes (s : Supervisor) : Prop :=
  match s with
  | Notifying next => next = AtTag ∨ next = Leaving ∨ next = Reporting true
  | StoringFailure next => next = Leaving ∨ next = Reporting true
  | _ => True
  end.

Section Invariant.
Context (spawned : Spawned) (reserve : Z → bool).

Definition relayable (f : Frame) : Prop :=
  well_sized f ∧ reserve (Z.of_nat (length (pixels f))) = true.
(** What the supervisor knows of the frame it is reading. *)
Fixpoint holds (s : Supervisor) : Prop :=
  match s with
  | AtPixels w h n => 0 ≤ w ∧ 0 ≤ h ∧ expected_frame_bytes w h = Some n
  | Received f | Emitting f => relayable f
  | Notifying next | StoringFailure next => holds next
  | _ => True
  end.
(** No frame can be read from the rest of the stream. *)
Definition closed (rest : list byte) : Prop := ∀ f r, relayable f → rest ≠ encode_frame f ++ r.

Record inv (w : World) : Prop := {
  inv_owner : match owner w with Watching => stopping w = false | _ => stopping w = true end;
  inv_kills : Forall (λ p, p = Running ∨ p = Exited) (kills w);
  inv_lives : lives (supervisor w) (slot w) (process w);
  inv_unspawned : supervisor w = Spawning → pipe w = [];
  inv_resumes : resumes (supervisor w);
  inv_dropped : owner w = Dropped → in_relay (supervisor w) = true → process w = Exited;
  inv_pending u : pending w = Some u → last (published w) = Some u;
  inv_sized : Forall relayable (frames (published w)) ∧ holds (supervisor w);
  inv_told : published w = (UFrame <$> frames (published w)) ++
    (if failed w && negb (storing (supervisor w)) then [UFailed] else []);
  inv_failed : (failed w = true → settled (supervisor w) = true) ∧
    (storing (supervisor w) = true → failed w = true) ∧
    (settled (supervisor w) = true → stopping w = false → failed w = true);
  inv_reports : (∀ r, reports (supervisor w) = Some r → r = failed w) ∧
    diagnostics w = (if bool_decide (supervisor w = Done) && failed w then 1 else 0)%nat;
  inv_stream : ∃ rest, written w = encode_all (frames (published w)) ++ rest ∧
    match in_hand (supervisor w) with
    | Some h => rest = h ++ pipe w
    | None => stopping w = false →
      closed rest ∧ (process w = Running → ∀ bs, closed (rest ++ bs))
    end;
}.

Lemma relay_inv_initial : inv initial.
Proof.
  split; cbn; try done; try (by split).
  exists []. done.
Qed.

(** The parts of a world the invariant reads, for a step that leaves the
    supervisor where it is. *)
Lemma relay_inv_take w : inv w → inv (snd (take_latest w)).
Proof. intros [] ; split; cbn; done. Qed.

Lemma lives_kill s p : lives s true p → killed p = Exited ∧ (p = Running ∨ p = Exited).
Proof.
  induction s; cbn; intros H; try (by apply IHs); destruct H as [H0 H]; try done; destruct_or?; subst; auto.
Qed.
Lemma lives_killed s p : lives s true p → lives s true Exited.
Proof. induction s; cbn; intros H; try (by apply IHs); destruct H as [H0 H]; try done; auto. Qed.

(** A process that has exited writes nothing more. *)
Lemma inv_kill w : inv w → slot w = true → inv (kill w).
Proof.
  intros [] Hs. rewrite Hs in *. destruct (lives_kill _ _ inv_lives0) as [E Hp].
  split; cbn; rewrite ?E; try done.
  - apply Forall_app. auto.
  - rewrite Hs. by eapply lives_killed.
  - destruct inv_stream0 as (rest & E1 & H). exists rest. split; [done|].
    destruct (in_hand _); [done|]. intros Hst. destruct (H Hst) as [Hc _]. done.
Qed.
Lemma inv_signal w : inv w → inv (signal_heic_child w).
Proof. unfold signal_heic_child. intros H. destruct (slot w) eqn:E; [by apply inv_kill|done]. Qed.

Lemma inv_begin_drop w : inv w → inv (begin_drop w).
Proof.
  intros []. split; cbn; try done.
  - split; [apply inv_failed0|]. split; [apply inv_failed0|done].
  - destruct inv_stream0 as (rest & E1 & H). exists rest. split; [done|]. by destruct (in_hand _).
Qed.

Lemma in_relay_slot s sl p : lives s sl p → in_relay s = true → sl = true.
Proof. induction s; cbn; naive_solver. Qed.

Lemma inv_end_drop w : owner w = Dropping → inv w → inv (end_drop w).
Proof.
  intros Ho Hw. pose proof (inv_signal w Hw) as H. pose proof (inv_lives w Hw) as Hl.
  pose proof (inv_owner w Hw) as Hst. rewrite Ho in Hst.
  assert (stopping (signal_heic_child w) = stopping w) as Es by (unfold signal_heic_child; by destruct (slot w)).
  destruct H. split; cbn; rewrite ?Es in *; try done.
  intros _ Hr. unfold signal_heic_child in *. destruct (slot w) eqn:E.
  - cbn. by eapply lives_kill.
  - exfalso. pose proof (in_relay_slot _ _ _ Hl Hr). congruence.
Qed.

Lemma inv_write w bs : process w = Running → inv w → inv (write_pipe bs w).
Proof.
  intros Hp []. split; cbn; try done.
  { intros Es. rewrite Es in inv_lives0. cbn in inv_lives0. destruct inv_lives0. congruence. }
  destruct inv_stream0 as (rest & E & H). exists (rest ++ bs). split; [by rewrite E, <- app_assoc|].
  destruct (in_hand _); [by rewrite H, <- app_assoc|]. intros Hst. destruct (H Hst) as [_ Hc].
  split; [by apply Hc|]. intros _ bs'. rewrite <- app_assoc. by apply Hc.
Qed.

Lemma inv_exit w : process w = Running → inv w → inv (set_process Exited w).
Proof.
  intros Hp []. split; cbn; try done.
  - rewrite Hp in inv_lives0. revert inv_lives0. generalize (supervisor w). intros s.
    induction s; cbn; naive_solver.
  - destruct inv_stream0 as (rest & E & H). exists rest. split; [done|].
    destruct (in_hand _); [done|]. intros Hst. by destruct (H Hst).
Qed.

(** The supervisor moves on and nothing else changes. *)
Lemma inv_goto s w : inv w →
  lives s (slot w) (process w) → resumes s → holds s → s ≠ Spawning →
  (owner w = Dropped → in_relay s = true → process w = Exited) →
  storing s = false → storing (supervisor w) = false →
  (failed w = true → settled s = true) → (settled s = true → stopping w = false → failed w = true) →
  (∀ r, reports s = Some r → r = failed w) → supervisor w ≠ Done → s ≠ Done →
  (∀ rest, written w = encode_all (frames (published w)) ++ rest →
    match in_hand (supervisor w) with
    | Some h => rest = h ++ pipe w
    | None => stopping w = false → closed rest ∧ (process w = Running → ∀ bs, closed (rest ++ bs))
    end →
    match in_hand s with
    | Some h => rest = h ++ pipe w
    | None => stopping w = false → closed rest ∧ (process w = Running → ∀ bs, closed (rest ++ bs))
    end) →
  inv (set_supervisor s w).
Proof.
  intros [] ? ? ? ? ? Hs Hs' ? ? ? Hd Hd' Hstream. rewrite Hs' in *. split; cbn; rewrite ?Hs; try done.
  - split; [apply inv_sized0|done].
  - rewrite bool_decide_false by done. rewrite bool_decide_false in inv_reports0 by done. by split; [|apply inv_reports0].
  - destruct inv_stream0 as (rest & E & H'). exists rest. split; [done|]. by apply Hstream.
Qed.

(** The failure is told, and the supervisor goes on with [next]. *)
Lemma inv_fail next w : inv w → failed w = false → lives next (slot w) (process w) →
  next = Leaving ∨ next = Reporting true →
  (stopping w = false → ∀ h, in_hand (supervisor w) = Some h →
    closed (h ++ pipe w) ∧ (process w = Running → ∀ bs, closed ((h ++ pipe w) ++ bs))) →
  supervisor w ≠ Done →
  inv (fail_heic next w).
Proof.
  intros [] E Hl Hn Hc Hd. unfold fail_heic. rewrite E in *. split; cbn; try done.
  - by destruct Hn as [->| ->].
  - split; [apply inv_sized0|]. by destruct Hn as [->| ->].
  - split; [by destruct Hn as [->| ->]; intros r; cbn; [|intros [= <-]]|].
    rewrite (proj2 inv_reports0), andb_false_r. by rewrite bool_decide_false.
  - destruct inv_stream0 as (rest & E1 & H). exists rest. split; [done|]. intros Hst.
    destruct (in_hand _) as [h|] eqn:Eh; [subst rest; by apply Hc|by apply H].
Qed.

(** What a place of the loop needs of the one before it. *)
Definition loop_place (s : Supervisor) : Prop :=
  (∀ sl p, lives s sl p ↔ sl = true ∧ (p = Running ∨ p = Exited)) ∧
  resumes s ∧ s ≠ Spawning ∧ in_relay s = true ∧ settled s = false ∧ storing s = false ∧ reports s = None ∧ s ≠ Done.

(** Bytes are taken from the pipe. *)
Lemma inv_read s n h w : inv w → loop_place (supervisor w) → loop_place s → holds s →
  in_hand (supervisor w) = Some h → (n ≤ length (pipe w))%nat →
  match in_hand s with
  | Some h' => h' = h ++ take n (pipe w)
  | None => ∀ bs, closed (h ++ take n (pipe w) ++ bs)
  end →
  inv (set_supervisor s (set_pipe (drop n (pipe w)) w)).
Proof.
  intros [] (L1 & R1 & N1 & I1 & S1 & T1 & P1 & D1) (L2 & R2 & N2 & I2 & S2 & T2 & P2 & D2) Hh Eh Hn Hnext.
  assert (failed w = false) as Ef. { destruct (failed w); [|done]. destruct inv_failed0 as [H _]. rewrite S1 in H. by specialize (H eq_refl). }
  rewrite Ef in *. split; cbn; rewrite ?T2, ?S2, ?P2, ?Ef; try done.
  - apply L2, L1. done.
  - auto.
  - by split; [apply inv_sized0|].
  - split; [done|]. rewrite (proj2 inv_reports0). by rewrite !andb_false_r.
  - destruct inv_stream0 as (rest & E1 & H). rewrite Eh in H. exists rest. split; [done|]. subst rest.
    destruct (in_hand s) as [h'|]; [by rewrite Hnext, <- app_assoc, take_drop|]. intros _. split.
    + pose proof (Hnext (drop n (pipe w))) as Hc. by rewrite take_drop in Hc.
    + intros _ bs. pose proof (Hnext (drop n (pipe w) ++ bs)) as Hc.
      by rewrite (app_assoc (take _ _)), take_drop, (app_assoc h) in Hc.
Qed.

(** The stream ends. *)
Lemma inv_eof h w : inv w → loop_place (supervisor w) → in_hand (supervisor w) = Some h →
  process w ≠ Running → closed (h ++ pipe w) →
  inv (set_supervisor Broken (set_pipe [] w)).
Proof.
  intros [] (L1 & R1 & N1 & I1 & S1 & T1 & P1 & D1) Eh Hp Hc.
  assert (failed w = false) as Ef. { destruct (failed w); [|done]. destruct inv_failed0 as [H _]. rewrite S1 in H. by specialize (H eq_refl). }
  rewrite Ef in *. split; cbn; rewrite ?Ef; try done.
  - by apply L1 in inv_lives0.
  - intros. by apply inv_dropped0.
  - by split; [apply inv_sized0|].
  - split; [done|]. rewrite (proj2 inv_reports0). by rewrite !andb_false_r.
  - destruct inv_stream0 as (rest & E1 & H). rewrite Eh in H. exists rest. split; [done|]. subst rest. done.
Qed.

Lemma inv_reading n k h w w' : inv w → loop_place (supervisor w) → in_hand (supervisor w) = Some h →
  reading n k w = Some w' →
  (process w ≠ Running → (length (pipe w) < n)%nat → closed (h ++ pipe w)) →
  ((n ≤ length (pipe w))%nat → inv (k (take n (pipe w)) (set_pipe (drop n (pipe w)) w))) →
  inv w'.
Proof.
  intros Hw Hl Eh E Heof Hread. unfold reading, read_exact in E. destruct (decide _) as [Hn|Hn]; cbn in E.
  - simplify_eq. by apply Hread.
  - destruct (process w) eqn:Ep; try discriminate; injection E as <-;
      (apply (inv_eof h); [done|done|done|congruence|apply Heof; [congruence|lia]]).
Qed.

Lemma closed_tag b r : b ≠ to_u8 HEIC_FRAME_TAG → closed (b :: r).
Proof. intros Hb f r' _. rewrite encode_frame_app. congruence. Qed.
Lemma closed_short r : (length r < 12)%nat → closed (to_u8 HEIC_FRAME_TAG :: r).
Proof.
  intros Hr f r' _ E. apply (f_equal length) in E. rewrite encode_frame_app in E. cbn in E.
  rewrite length_app, length_header_of in E. lia.
Qed.
Lemma closed_header w h n r :
  0 ≤ w < 2 ^ 32 → 0 ≤ h < 2 ^ 32 → 0 ≤ n < 2 ^ 32 →
  (expected_frame_bytes w h = Some n → reserve n = true → Z.of_nat (length r) < n) →
  closed ((to_u8 HEIC_FRAME_TAG :: header_of w h n) ++ r).
Proof.
  intros Hw Hh Hn Hno f r' [Hf Hr] E. pose proof (well_sized_bounds f Hf) as Bf.
  rewrite encode_frame_app in E. apply (f_equal tail) in E. cbn [tail app] in E.
  apply app_inj_1 in E as [Eh E]; [|by rewrite !length_header_of].
  apply (f_equal length) in E. rewrite length_app in E.
  apply (f_equal read_header) in Eh as Er. pose proof Hf as (_ & _ & _ & Hexp).
  rewrite !read_header_of, (bool_decide_true (_ = Some (Z.of_nat _))) in Er by (done || lia).
  destruct (bool_decide _) eqn:Eb in Er; [|done]. simp_bool. simplify_eq.
  specialize (Hno Eb Hr). lia.
Qed.

Ltac place := by repeat split; cbn; naive_solver.

Lemma inv_at_tag w w' : supervisor w = AtTag → exec spawned reserve w = Some w' → inv w → inv w'.
Proof.
  intros Es E Hw. unfold exec in E. rewrite Es in E.
  eapply (inv_reading 1 _ []); [done|rewrite Es; place|by rewrite Es|exact E| |].
  { intros _ Hl f r _. destruct (pipe w); [done|cbn in Hl; lia]. }
  intros Hl. destruct (pipe w) as [|b r] eqn:Ep; [cbn in Hl; lia|].
  change (take 1 (b :: r)) with [b]. change (drop 1 (b :: r)) with r. cbv zeta beta.
  assert (le_value [b] = u8 b) as -> by (unfold le_value; cbn; unfold be_value; cbn; lia).
  assert (drop 1 (pipe w) = r) as <- by by rewrite Ep.
  destruct (Z.eqb_spec (u8 b) HEIC_FAILED_TAG) as [Hb|Hb].
  - apply (inv_read _ _ []); [done|rewrite Es; place|place|done|by rewrite Es|rewrite Ep; cbn; lia|].
    cbn. intros bs. rewrite Ep. apply closed_tag. intros ->. rewrite u8_to_u8 in Hb. done.
  - destruct (Z.eqb_spec (u8 b) HEIC_FRAME_TAG) as [Hf|Hf]; cbn [negb];
      (apply (inv_read _ _ []); [done|rewrite Es; place|place|done|by rewrite Es|rewrite Ep; cbn; lia|]).
    + cbn. rewrite Ep. cbn. f_equal. apply u8_inj. by rewrite u8_to_u8, Hf.
    + cbn. intros bs. rewrite Ep. apply closed_tag. intros ->. by rewrite u8_to_u8 in Hf.
Qed.

Lemma inv_at_header w w' : supervisor w = AtHeader → exec spawned reserve w = Some w' → inv w → inv w'.
Proof.
  intros Es E Hw. unfold exec in E. rewrite Es in E.
  eapply (inv_reading HEIC_HEADER_BYTES _ [to_u8 HEIC_FRAME_TAG]); [done|rewrite Es; place|by rewrite Es|exact E| |].
  { intros _ Hl. by apply closed_short. }
  intros Hl. cbv beta.
  destruct (header_parts (take HEIC_HEADER_BYTES (pipe w))) as (x & y & n & Eh & Hx & Hy & Hn).
  { rewrite length_take. lia. }
  rewrite Eh, read_header_of by done.
  destruct (bool_decide _) eqn:Eb; simp_bool;
    (apply (inv_read _ _ [to_u8 HEIC_FRAME_TAG]); [done|rewrite Es; place|place| |by rewrite Es|done|]).
  - cbn. split; [lia|]. split; [lia|done].
  - cbn [in_hand app]. by rewrite Eh.
  - done.
  - cbn [in_hand]. intros bs. rewrite Eh. by apply (closed_header x y n bs).
Qed.

Lemma inv_at_pixels x y n w w' : supervisor w = AtPixels x y n → exec spawned reserve w = Some w' → inv w → inv w'.
Proof.
  intros Es E Hw. unfold exec in E. rewrite Es in E.
  pose proof (inv_sized w Hw) as [_ Hh]. rewrite Es in Hh. cbn in Hh. destruct Hh as (Hx & Hy & Hexp).
  pose proof (proj1 (expected_frame_bytes_Some x y n Hx Hy) Hexp) as B.
  unfold MAX_HEIC_FRAME_DIMENSION, MAX_HEIC_FRAME_BYTES in B.
  destruct (reserve n) eqn:Er.
  - eapply (inv_reading (Z.to_nat n) _ (to_u8 HEIC_FRAME_TAG :: header_of x y n));
      [done|rewrite Es; place|by rewrite Es|exact E| |].
    { intros _ Hl. apply closed_header; [lia..|]. intros _ _. lia. }
    intros Hl. cbv beta. assert (length (take (Z.to_nat n) (pipe w)) = Z.to_nat n) as El by (rewrite length_take; lia).
    apply (inv_read _ _ (to_u8 HEIC_FRAME_TAG :: header_of x y n)); [done|rewrite Es; place|place| |by rewrite Es|done|].
    + cbn. unfold relayable, well_sized. cbn [width height pixels pts]. rewrite El, Z2Nat.id by lia. done.
    + cbn [in_hand]. unfold encode_frame. cbn [width height pixels]. rewrite El, Z2Nat.id by lia. done.
  - injection E as <-.
    assert (set_supervisor Broken w = set_supervisor Broken (set_pipe (drop 0 (pipe w)) w)) as -> by by destruct w.
    apply (inv_read _ _ (to_u8 HEIC_FRAME_TAG :: header_of x y n)); [done|rewrite Es; place|place|done|by rewrite Es|lia|].
    cbn [in_hand take app]. intros bs. apply closed_header; [lia..|]. congruence.
Qed.

Lemma inv_spawning w w' : supervisor w = Spawning → exec spawned reserve w = Some w' → inv w → inv w'.
Proof.
  intros Es E Hw. unfold exec in E. rewrite Es in E. injection E as <-.
  pose proof (inv_unspawned w Hw Es) as Ep. pose proof (inv_lives w Hw) as Hl.
  pose proof (inv_failed w Hw) as [Hf _]. rewrite Es in Hf, Hl. cbn in Hf, Hl. destruct Hl as [Hsl Hpr].
  assert (failed w = false) as Ef by (destruct (failed w); [by specialize (Hf eq_refl)|done]).
  assert (closed (pipe w)) as Hc by (rewrite Ep; by intros f r _).
  destruct spawned.
  - apply inv_fail; [done|done|cbn; auto|auto| |by rewrite Es].
    intros _ h. rewrite Es. intros [= <-]. split; [by apply Hc|congruence].
  - unfold fail_heic. cbn. rewrite Ef. destruct Hw. rewrite Es, Ef in *. split; cbn; try done; auto.
    + rewrite Forall_app. auto.
    + split; [by intros r [= <-]|apply inv_reports0].
    + destruct inv_stream0 as (rest & E1 & H). exists rest. split; [done|]. intros _. cbn in H. by subst rest.
  - destruct Hw. rewrite Es, Ef in *. split; cbn; rewrite ?Ef; try done; auto.
Qed.

Lemma inv_publishing w w' : supervisor w = Publishing → exec spawned reserve w = Some w' → inv w → inv w'.
Proof.
  intros Es E []. unfold exec in E. rewrite Es in E. injection E as <-. rewrite Es in *.
  split; cbn; try done. split; [done|apply inv_lives0].
Qed.

Lemma not_failed w : inv w → settled (supervisor w) = false → failed w = false.
Proof. intros Hw Hs. destruct (inv_failed w Hw) as [H _]. rewrite Hs in H. destruct (failed w); [by specialize (H eq_refl)|done]. Qed.

Lemma inv_emitting f w w' : supervisor w = Emitting f → exec spawned reserve w = Some w' → inv w → inv w'.
Proof.
  intros Es E Hw. pose proof (not_failed w Hw) as Ef. rewrite Es in Ef. specialize (Ef eq_refl).
  unfold exec in E. rewrite Es, Ef in E. injection E as <-. destruct Hw. rewrite Es, Ef in *.
  assert (frames (published w ++ [UFrame f]) = frames (published w) ++ [f]) as Efr by apply frames_app.
  split; cbn; rewrite ?Ef, ?Efr; try done.
  - by left.
  - intros u [= <-]. by rewrite last_snoc.
  - split; [|done]. apply Forall_app. split; [apply inv_sized0|]. constructor; [|done]. apply inv_sized0.
  - rewrite inv_told0 at 1. by rewrite fmap_app, !app_nil_r.
  - destruct inv_stream0 as (rest & E1 & H). cbn [in_hand] in H. subst rest. exists (pipe w). split; [|done].
    by rewrite E1, encode_all_snoc, <- app_assoc.
Qed.

Lemma inv_notifying next w w' : supervisor w = Notifying next → exec spawned reserve w = Some w' → inv w → inv w'.
Proof.
  intros Es E []. unfold exec in E. rewrite Es in E. injection E as <-. rewrite Es in *.
  cbn in inv_resumes0. destruct inv_resumes0 as [->|[->| ->]]; split; cbn in *; try done; auto.
Qed.

Lemma inv_storing next w w' : supervisor w = StoringFailure next → exec spawned reserve w = Some w' → inv w → inv w'.
Proof.
  intros Es E []. unfold exec in E. rewrite Es in E. injection E as <-. rewrite Es in *.
  destruct inv_failed0 as (_ & Ef & _). specialize (Ef eq_refl).
  assert (frames (published w ++ [UFailed]) = frames (published w)) as Efr.
  { rewrite frames_app. apply app_nil_r. }
  rewrite Ef in *. cbn in inv_resumes0.
  split; cbn [published supervisor set_supervisor store failed pending slot process pipe owner kills diagnostics written stopping]; rewrite ?Ef, ?Efr; try done.
  - cbn. naive_solver.
  - intros u [= <-]. by rewrite last_snoc.
  - rewrite inv_told0 at 1. cbn. by rewrite app_nil_r.
  - split; [intros _; by destruct inv_resumes0 as [->| ->]|done].
  - destruct inv_stream0 as (rest & E1 & H). exists rest. split; [done|]. cbn in *.
    by destruct inv_resumes0 as [->| ->].
Qed.

Ltac goto := match goal with
  | Hw : inv ?w, Es : supervisor ?w = _ |- _ =>
    let Hl := fresh "Hl" in let Hr := fresh "Hr" in let Hf := fresh "Hf" in let Ho := fresh "Ho" in
    pose proof (inv_lives w Hw) as Hl; pose proof (inv_reports w Hw) as Hr;
    pose proof (inv_failed w Hw) as Hf; pose proof (inv_owner w Hw) as Ho;
    rewrite Es in Hl, Hr, Hf; cbn in Hl, Hr, Hf
  end.

Lemma inv_moves w w' :
  supervisor w = Checking ∨ (∃ f, supervisor w = Received f) ∨ supervisor w = Broken ∨ supervisor w = Leaving →
  exec spawned reserve w = Some w' → inv w → inv w'.
Proof.
  intros [Es|[[f Es]|[Es|Es]]] E Hw; unfold exec in E; rewrite Es in E; injection E as <-; goto;
    pose proof (not_failed w Hw) as Hnf; rewrite Es in Hnf; cbn in Hnf; try specialize (Hnf eq_refl);
    pose proof (inv_sized w Hw) as [_ Hh]; pose proof (inv_dropped w Hw) as Hdr; rewrite Es in Hh, Hdr; cbn in Hh, Hdr.
  - destruct (stopping w) eqn:Est; apply inv_goto; rewrite ?Es; cbn; try done; try (intros; congruence).
    + intros Eo. by rewrite Eo in *.
  - destruct (stopping w) eqn:Est; apply inv_goto; rewrite ?Es; cbn; try done; try (intros; congruence); auto.
  - destruct (stopping w) eqn:Est; apply inv_goto; rewrite ?Es; cbn; try done; try (intros; congruence); auto.
  - apply inv_goto; rewrite ?Es; cbn; try done; try (intros; congruence). apply Hf.
Qed.

Lemma inv_cleanup w w' :
  (∃ r, supervisor w = Killing r ∨ supervisor w = Taking r ∨ supervisor w = Waiting r ∨ supervisor w = Reporting r) →
  exec spawned reserve w = Some w' → inv w → inv w'.
Proof.
  intros (r & Es) E Hw.
  assert (failed w = r) as Er.
  { destruct (inv_reports w Hw) as [H _]. symmetry. by destruct Es as [Es|[Es|[Es|Es]]]; rewrite Es in H; apply H. }
  destruct Es as [Es|[Es|[Es|Es]]]; unfold exec in E; rewrite Es in E.
  - injection E as <-. pose proof (inv_signal w Hw) as Hs. goto. destruct Hl as [Hsl Hp].
    unfold signal_heic_child in *. rewrite Hsl in *.
    apply inv_goto; cbn; rewrite ?Es, ?Hsl; cbn; try done; try (intros; congruence).
    + split; [done|]. unfold killed. by destruct Hp as [-> | ->].
    + intros _ Hst. rewrite Hst in *. by apply Hf.
  - goto. destruct Hl as [Hsl Hp]. rewrite Hsl in E. injection E as <-.
    destruct Hw. rewrite Es in *. split; cbn; try done.
  - goto. destruct Hl as [Hsl Hp]. rewrite Hp in E. injection E as <-.
    destruct Hw. rewrite Es in *. split; cbn; try done; [auto|].
    destruct inv_stream0 as (rest & E1 & H). exists rest. split; [done|]. intros Hst. by destruct (H Hst).
  - injection E as <-. goto. destruct Hw. rewrite Es in *. destruct inv_reports0 as [_ Hd]. cbn in Hd.
    rewrite bool_decide_false in Hd by done. cbn in Hd.
    destruct r; (split; cbn; rewrite ?Er, ?Hd; try done; auto; by rewrite Er in *).
Qed.

Lemma relay_inv_exec w w' : exec spawned reserve w = Some w' → inv w → inv w'.
Proof.
  destruct (supervisor w) as [| | | | |x y n|f|f|next| | |next| |r|r|r|r|] eqn:Es; intros E Hw.
  - by eapply inv_spawning.
  - by eapply inv_publishing.
  - by eapply inv_moves; eauto.
  - by eapply inv_at_tag.
  - by eapply inv_at_header.
  - by eapply inv_at_pixels.
  - by eapply inv_moves; eauto.
  - by eapply inv_emitting.
  - by eapply inv_notifying.
  - by eapply inv_moves; eauto.
  - unfold exec in E. rewrite Es in E. injection E as <-. pose proof (not_failed w Hw) as Ef. rewrite Es in Ef.
    specialize (Ef eq_refl). goto. apply inv_fail; [done|done|done|auto| |by rewrite Es]. intros _ h. by rewrite Es.
  - by eapply inv_storing.
  - by eapply inv_moves; eauto.
  - eapply inv_cleanup; eauto.
  - eapply inv_cleanup; eauto.
  - eapply inv_cleanup; eauto 6.
  - eapply inv_cleanup; eauto 7.
  - unfold exec in E. by rewrite Es in E.
Qed.

Lemma relay_inv_step w w' : step spawned reserve w w' → inv w → inv w'.
Proof.
  intros [w1 E| | |Ho|bs Hp|Hp] Hw.
  - by eapply relay_inv_exec.
  - by apply relay_inv_take.
  - by apply inv_begin_drop.
  - by apply inv_end_drop.
  - by apply inv_write.
  - by apply inv_exit.
Qed.

Lemma relay_inv_reachable w : reachable spawned reserve w → inv w.
Proof. induction 1 as [|w w' _ IH Hs]; [apply relay_inv_initial|by eapply relay_inv_step]. Qed.
End Invariant.

(** ** What the relay delivers *)

Definition relayed (f : Playback.RgbaFrame) : Frame :=
  mkFrame (Playback.width f) (Playback.height f) (Playback.pixels f) None.

Lemma write_heic_frame_encode f bs : write_heic_frame f = Some bs → bs = encode_frame (relayed f).
Proof.
  unfold write_heic_frame. destruct (_ <? _); [|done]. intros [= <-].
  unfold encode_frame, header_of. by rewrite <- !app_assoc.
Qed.

Lemma write_all_encode ps chunks :
  mapM write_heic_frame ps = Some chunks → concat chunks = encode_all (relayed <$> ps).
Proof.
  revert chunks. induction ps as [|p ps IH]; intros chunks H; cbn in H; [by injection H as <-|].
  apply bind_Some in H as (bs & Hbs & H). apply bind_Some in H as (rest & Hrest & H). injection H as <-.
  cbn [concat fmap list_fmap]. rewrite (IH rest), (write_heic_frame_encode p bs) by done. done.
Qed.

Lemma encode_all_cons f fs : encode_all (f :: fs) = encode_frame f ++ encode_all fs.
Proof. done. Qed.

Section Relay.
Context (spawned : Spawned) (reserve : Z → bool).

(** Frames that were read from a stream are the first of those written. *)
Lemma frames_prefix shown fs rest tail :
  Forall (relayable reserve) shown → Forall (relayable reserve) fs → closed reserve tail →
  encode_all shown ++ rest = encode_all fs ++ tail →
  ∃ more, fs = shown ++ more ∧ rest = encode_all more ++ tail.
Proof using.
  intros Hs Hf Ht. revert fs Hf. induction Hs as [|f shown Hw Hs IH]; intros fs Hf E.
  { by exists fs. }
  rewrite encode_all_cons, <- app_assoc in E. destruct Hf as [|g fs Hg Hf].
  - exfalso. by apply (Ht f (encode_all shown ++ rest)).
  - rewrite encode_all_cons, <- app_assoc in E.
    apply encode_frame_inj in E as [-> E]; [|apply Hw|apply Hg].
    destruct (IH fs Hf E) as (more & -> & ->). by exists more.
Qed.

(** Everything the worker wrote, once the supervisor is done. *)
Lemma all_delivered w fs tail :
  reachable spawned reserve w → written w = encode_all fs ++ tail →
  Forall (relayable reserve) fs → closed reserve tail →
  supervisor w = Done → stopping w = false → published w = (UFrame <$> fs) ++ [UFailed].
Proof using.
  intros Hw%relay_inv_reachable Ewr Hall Htail Ed Hst.
  destruct (inv_stream _ _ Hw) as (rest & Er & Hrest). rewrite Er in Ewr.
  destruct (frames_prefix (frames (published w)) fs rest tail) as (more & Emore & ->); [apply Hw|done..|].
  rewrite Ed in Hrest. destruct (Hrest Hst) as [Hc _].
  destruct (inv_failed _ _ Hw) as (_ & _ & Hf). rewrite Ed in Hf. specialize (Hf eq_refl Hst).
  rewrite (inv_told _ _ Hw), Ed, Hf. cbn [storing andb negb]. f_equal.
  destruct more as [|f more]; [by rewrite Emore, app_nil_r|].
  exfalso. apply (Hc f (encode_all more ++ tail)); [|by rewrite encode_all_cons, <- app_assoc].
  rewrite Emore in Hall. apply Forall_app in Hall as [_ Hall]. by inversion Hall.
Qed.

(** Whatever the order in which the worker writes, the supervisor reads and the
    owner takes: the updates published are the frames that the worker wrote, in
    that order and pixel for pixel, and once the supervisor is done without
    having been cancelled they are all of them, and then one failure.  What may
    follow the frames in the pipe is anything that is not one more frame: the
    failure tag, a torn frame, garbage. *)
Theorem relay_delivers w ps chunks tail :
  reachable spawned reserve w →
  mapM write_heic_frame ps = Some chunks → written w = concat chunks ++ tail →
  Forall (λ p, relayable reserve (relayed p)) ps → closed reserve tail →
  (∃ more, frames (published w) ++ more = relayed <$> ps) ∧
  (supervisor w = Done → stopping w = false → published w = (UFrame ∘ relayed <$> ps) ++ [UFailed]).
Proof using.
  intros Hw Hps Ewr Hall Htail. rewrite (write_all_encode _ _ Hps) in Ewr.
  assert (Forall (relayable reserve) (relayed <$> ps)) as Hfs by (by apply Forall_fmap). split.
  - apply relay_inv_reachable in Hw. destruct (inv_stream _ _ Hw) as (rest & Er & _). rewrite Er in Ewr.
    apply frames_prefix in Ewr as (more & -> & _); [by exists more|apply Hw|done|done].
  - intros Hd Hst. rewrite list_fmap_compose. by apply (all_delivered w (relayed <$> ps) tail).
Qed.

(** C20.  In every interleaving: a kill only ever reaches the worker's own process,
    never one that was already reaped; every frame published has the size its
    header says, within 16384 pixels a side and 256 MiB; a failure is published
    at most once and nothing after it; the owner finds the last update or none.
    When the supervisor is done its process is reaped, and unless it was
    cancelled the failure was published and one diagnostic written. *)
Theorem relay_supervised w :
  reachable spawned reserve w →
  Forall (λ p, p = Running ∨ p = Exited) (kills w) ∧
  (∃ told, published w = (UFrame <$> frames (published w)) ++ told ∧ (told = [] ∨ told = [UFailed])) ∧
  Forall well_sized (frames (published w)) ∧
  (∀ u, pending w = Some u → last (published w) = Some u) ∧
  (supervisor w = Done →
    slot w = false ∧ (process w = NotSpawned ∨ process w = Reaped) ∧
    (stopping w = false → last (published w) = Some UFailed ∧ diagnostics w = 1%nat)).
Proof using.
  intros Hw%relay_inv_reachable. split; [apply Hw|]. split.
  { eexists. split; [apply (inv_told _ _ Hw)|]. destruct (_ && _); auto. }
  split. { eapply Forall_impl; [apply Hw|]. by intros f [Hf _]. }
  split; [apply Hw|]. intros Ed. pose proof (inv_lives _ _ Hw) as Hl. rewrite Ed in Hl. destruct Hl as [? ?].
  split; [done|]. split; [done|]. intros Hst.
  destruct (inv_failed _ _ Hw) as (_ & _ & Hf). rewrite Ed in Hf. specialize (Hf eq_refl Hst).
  rewrite (inv_told _ _ Hw), Ed, Hf. cbn [storing andb negb]. rewrite last_snoc. split; [done|].
  destruct (inv_reports _ _ Hw) as [_ ->]. by rewrite Ed, Hf, bool_decide_true.
Qed.

(** ** Cancellation *)

(** A bound on the steps left when the pipe is not written to. *)
Fixpoint rank (s : Supervisor) : nat :=
  match s with
  | Done => 0
  | Reporting _ => 1
  | Waiting _ => 2
  | Taking _ => 3
  | Killing _ => 4
  | Leaving => 5
  | Notifying next => S (rank next)
  | StoringFailure next => S (S (rank next))
  | Failing => 8
  | Broken => 9
  | AtTag | AtHeader | AtPixels _ _ _ => 10
  | Checking => 11
  | Publishing => 12
  | Emitting _ => 13
  | Spawning | Received _ => 14
  end.
Definition turns (w : World) : nat := 8 * length (pipe w) + rank (supervisor w).

Lemma reading_turns n k w :
  (0 < n)%nat → ((n ≤ length (pipe w))%nat ∨ process w ≠ Running) → rank (supervisor w) = 10%nat →
  (∀ bs w1, ∃ s, k bs w1 = set_supervisor s w1 ∧ (rank s ≤ 14)%nat) →
  ∃ w', reading n k w = Some w' ∧ (turns w' < turns w)%nat ∧ owner w' = owner w.
Proof using.
  intros Hn Hok Hr Hk. unfold reading, read_exact, turns. destruct (decide _) as [Hl|Hl]; cbn.
  - destruct (Hk (take n (pipe w)) (set_pipe (drop n (pipe w)) w)) as (s & -> & Hs).
    eexists. split; [done|]. cbn. rewrite length_drop. split; [lia|done].
  - assert (process w ≠ Running) as Hp by (destruct Hok; [lia|done]).
    destruct (process w) eqn:Ep; try done; (eexists; split; [done|]; cbn; split; [lia|done]).
Qed.

Lemma fail_turns next w : (turns (fail_heic next w) ≤ 8 * length (pipe w) + S (S (rank next)))%nat ∧ owner (fail_heic next w) = owner w.
Proof using. unfold fail_heic, turns. destruct (failed w); cbn; split; (lia || done). Qed.

Lemma goto_turns s w : (rank s < rank (supervisor w))%nat →
  (turns (set_supervisor s w) < turns w)%nat ∧ owner (set_supervisor s w) = owner w.
Proof using. unfold turns. cbn. split; [lia|done]. Qed.

Lemma cancelled_step w : inv reserve w → owner w = Dropped → supervisor w ≠ Done →
  ∃ w', exec spawned reserve w = Some w' ∧ (turns w' < turns w)%nat ∧ owner w' = owner w.
Proof using.
  intros Hw Ho Hd. pose proof (inv_dropped _ _ Hw Ho) as Hdr. pose proof (inv_lives _ _ Hw) as Hl.
  pose proof (inv_sized _ _ Hw) as [_ Hh]. pose proof (inv_unspawned _ _ Hw) as Hu.
  destruct (supervisor w) as [| | | | |x y n|f|f|next| | |next| |r|r|r|r|] eqn:Es; unfold exec; rewrite Es; try done.
  - eexists. split; [done|]. destruct spawned.
    + destruct (fail_turns (Reporting true) w) as [Ht ->]. split; [|done].
      unfold turns at 2. rewrite Es. cbn [rank] in *. lia.
    + destruct (fail_turns (Reporting true) (set_process Reaped (kill (set_process Running w)))) as [Ht ->].
      split; [|done]. unfold turns at 2. rewrite Es. cbn in *. lia.
    + unfold turns. cbn. rewrite Es. cbn. split; [lia|done].
  - eexists. split; [done|]. unfold turns. cbn. rewrite Es. cbn. split; [lia|done].
  - eexists. split; [done|]. apply goto_turns. rewrite Es. destruct (stopping w); cbn; lia.
  - apply reading_turns; [lia|right; by rewrite Hdr|by rewrite Es|]. intros bs w1. cbv zeta.
    repeat case_match; eexists; (split; [done|cbn; lia]).
  - apply reading_turns; [unfold HEIC_HEADER_BYTES; lia|right; by rewrite Hdr|by rewrite Es|]. intros bs w1.
    repeat case_match; eexists; (split; [done|cbn; lia]).
  - cbn in Hh. destruct Hh as (Hx & Hy & Hexp). apply expected_frame_bytes_Some in Hexp; [|done..].
    destruct (reserve n); [|eexists; split; [done|]; apply goto_turns; rewrite Es; cbn; lia].
    apply reading_turns; [nia|right; by rewrite Hdr|by rewrite Es|]. intros bs w1.
    eexists. split; [done|cbn; lia].
  - eexists. split; [done|]. apply goto_turns. rewrite Es. destruct (stopping w); cbn; lia.
  - eexists. split; [done|]. destruct (failed w); [apply goto_turns; rewrite Es; cbn; lia|].
    unfold turns. cbn. rewrite Es. cbn. split; [lia|done].
  - eexists. split; [done|]. unfold turns. cbn. rewrite Es. cbn. split; [lia|done].
  - eexists. split; [done|]. apply goto_turns. rewrite Es. destruct (stopping w); cbn; lia.
  - eexists. split; [done|]. destruct (fail_turns Leaving w) as [Ht ->]. split; [|done].
    unfold turns at 2. rewrite Es. cbn [rank] in *. lia.
  - eexists. split; [done|]. unfold turns. cbn. rewrite Es. cbn. split; [lia|done].
  - eexists. split; [done|]. apply goto_turns. rewrite Es. cbn. lia.
  - eexists. split; [done|]. unfold turns, signal_heic_child. rewrite Es.
    destruct (slot w); cbn; (split; [lia|done]).
  - eexists. split; [done|]. unfold turns. rewrite Es. destruct (slot w); cbn; (split; [lia|done]).
  - destruct Hl as [_ Hp]. rewrite Hp. eexists. split; [done|]. unfold turns. rewrite Es. cbn. split; [lia|done].
  - eexists. split; [done|]. unfold turns. rewrite Es. destruct r; cbn; (split; [lia|done]).
Qed.

Lemma supervise_done n w : supervisor w = Done → supervise spawned reserve n w = w.
Proof using. destruct n; [done|]. cbn. unfold exec. by intros ->. Qed.

(** Once the owner has dropped the player, however far the spawn, the reads and
    the kill had come at that moment, the supervisor never waits for the worker
    again: alone, in at most [turns] steps and whatever it is answered, it is
    done, and its process dead and reaped, or never spawned. *)
Theorem cancelled_worker_dies w :
  reachable spawned reserve w → owner w = Dropped →
  let w' := supervise spawned reserve (turns w) w in
  supervisor w' = Done ∧ (process w' = NotSpawned ∨ process w' = Reaped) ∧ slot w' = false.
Proof using.
  intros Hw%relay_inv_reachable Ho.
  assert (∀ n w, (turns w ≤ n)%nat → inv reserve w → owner w = Dropped →
    inv reserve (supervise spawned reserve n w) ∧ supervisor (supervise spawned reserve n w) = Done) as H.
  { induction n as [|n IH]; intros w1 Ht Hw1 Ho1.
    - cbn. split; [done|]. unfold turns in Ht. destruct (supervisor w1); cbn in Ht; (lia || done).
    - destruct (decide (supervisor w1 = Done)) as [Ed|Ed]; [by rewrite supervise_done|].
      destruct (cancelled_step w1 Hw1 Ho1 Ed) as (w2 & E & Ht2 & Ho2). cbn. rewrite E.
      apply IH; [lia|by eapply relay_inv_exec|congruence]. }
  cbv zeta. destruct (H (turns w) w) as [Hi Hd]; [done..|]. split; [done|].
  pose proof (inv_lives _ _ Hi) as Hl. rewrite Hd in Hl. by destruct Hl.
Qed.
End Relay.

(** ** A run *)

Lemma reachable_supervise spawned reserve n w :
  reachable spawned reserve w → reachable spawned reserve (supervise spawned reserve n w).
Proof.
  revert w. induction n as [|n IH]; intros w Hw; [done|]. cbn. destruct (exec spawned reserve w) as [w'|] eqn:E; [|done].
  apply IH. eapply reachable_step; [done|]. by constructor.
Qed.

Definition example_pixel : Playback.RgbaFrame := Playback.mkFrame 1 1 (to_u8 <$> [1; 2; 3; 255]) 4.
(** The worker writes one pixel and a torn header, and exits. *)
Definition example_bytes : list byte := default [] (write_heic_frame example_pixel) ++ [to_u8 HEIC_FRAME_TAG].
Definition example_started : World := supervise WithStdout (λ _, true) 3 initial.
Definition example_wrote : World := write_pipe example_bytes example_started.
Definition example_exited : World := set_process Exited example_wrote.
(** The owner drops the player while the supervisor waits for a tag. *)
Definition example_dropped : World := end_drop (begin_drop example_started).

Lemma example_wrote_reachable : reachable WithStdout (λ _, true) example_wrote.
Proof. eapply reachable_step; [by apply (reachable_supervise _ _ 3), reachable_initial|]. by constructor. Qed.
Lemma example_end_reachable : reachable WithStdout (λ _, true) (supervise WithStdout (λ _, true) 40 example_exited).
Proof.
  apply reachable_supervise. eapply reachable_step; [apply example_wrote_reachable|]. by constructor.
Qed.
Lemma example_dropped_reachable : reachable WithStdout (λ _, true) example_dropped.
Proof.
  eapply reachable_step; [|by constructor]. eapply reachable_step; [|by constructor].
  by apply (reachable_supervise _ _ 3), reachable_initial.
Qed.

Lemma relay_delivers_witness :
  published (supervise WithStdout (λ _, true) 40 example_exited) = [UFrame (relayed example_pixel); UFailed].
Proof.
  destruct (relay_delivers WithStdout (λ _, true) (supervise WithStdout (λ _, true) 40 example_exited) [example_pixel]
    [default [] (write_heic_frame example_pixel)] [to_u8 HEIC_FRAME_TAG]) as [_ H].
  - apply example_end_reachable.
  - vm_compute. reflexivity.
  - vm_compute. reflexivity.
  - repeat constructor; vm_compute; congruence.
  - apply closed_short. vm_compute. lia.
  - rewrite H by (vm_compute; reflexivity). reflexivity.
Defined.

Lemma relay_supervised_witness :
  diagnostics (supervise WithStdout (λ _, true) 40 example_exited) = 1%nat ∧
  process (supervise WithStdout (λ _, true) 40 example_exited) = Reaped.
Proof.
  destruct (relay_supervised WithStdout (λ _, true) _ example_end_reachable) as (_ & _ & _ & _ & H).
  destruct H as (_ & _ & H); [vm_compute; reflexivity|].
  split; [apply H|]; vm_compute; reflexivity.
Defined.

Lemma cancelled_worker_dies_witness :
  exec WithStdout (λ _, true) example_started = None ∧ owner example_dropped = Dropped ∧
  supervisor (supervise WithStdout (λ _, true) (turns example_dropped) example_dropped) = Done.
Proof.
  split; [vm_compute; reflexivity|]. split; [reflexivity|].
  exact (proj1 (cancelled_worker_dies WithStdout (λ _, true) example_dropped example_dropped_reachable eq_refl)).
Defined.
