(* ===== verification/Wallpaper.v ===== *)
(** * Wallpaper playback ([src/wallpaper.rs])

    The packaged videos and what plays them: settings and paths, the frames that
    the decode pipeline hands over, the dissolve at the loop, stalls, retries
    and the terminal failure.  GStreamer is a third-party library: its messages,
    samples and answers are arguments.  Durations and instants are numbers of
    nanoseconds. *)

From S2P Require Import Prelude Utf8 Text.
From S2P Require Export HeicRelay.
From S2P Require HeicFrame Playback DynamicModel.

Definition MAX_DIAGNOSTIC_CHARS : nat := 240.
Definition from_millis (n : Z) : Z := n * 1000000.
Definition from_micros (n : Z) : Z := n * 1000.
Definition from_secs (n : Z) : Z := n * 1000000000.
Definition LOOP_LEAD : Z := from_millis 50.
Definition AUTOMATIC_STARTUP_TIMEOUT : Z := from_secs 10.
Definition SOFTWARE_STARTUP_TIMEOUT : Z := from_secs 60.
Definition FRAME_STALL_TIMEOUT : Z := from_secs 10.
Definition SEEK_STALL_TIMEOUT : Z := from_secs 10.

(** ** The catalog *)

Record PlaybackSpec := mkSpec {
  install_name : string;
  poster_name : string;
  duration : Z;
  crossfade : Z;
}.

Definition WALLPAPERS : list PlaybackSpec :=
  [mkSpec "tahoe-beach.mov" "tahoe-beach-poster.jpg" (from_micros 120004167) (from_millis 2000);
   mkSpec "sequoia-sunrise.mov" "sequoia-sunrise-poster.jpg" (from_micros 120008333) (from_millis 1000);
   mkSpec "sequoia-morning.mov" "sequoia-morning-poster.jpg" (from_micros 243336667) (from_millis 1000);
   mkSpec "sequoia-night.mov" "sequoia-night-poster.jpg" (from_micros 291603333) (from_millis 2000);
   mkSpec "golden-gate.mov" "golden-gate-poster.jpg" (from_micros 60000000) (from_millis 2000)].

Inductive Catalog := TahoeBeach | SequoiaSunrise | SequoiaMorning | SequoiaNight | GoldenGate.

Definition index (c : Catalog) : nat :=
  match c with
  | TahoeBeach => 0 | SequoiaSunrise => 1 | SequoiaMorning => 2 | SequoiaNight => 3 | GoldenGate => 4
  end.
(** [None] would be the panic of the index. *)
Definition spec (c : Catalog) : option PlaybackSpec := WALLPAPERS !! index c.

(** ** Settings *)

(** A path is its bytes. *)
Record Settings := mkSettings {
  catalog : Catalog;
  override_path : option (list byte);
  animate : bool;
  reduced_motion : bool;
  appearance : DynamicModel.AppearancePreference;
}.

Definition slash : byte := to_u8 47.
Definition dot : byte := to_u8 46.

Fixpoint split_slash (word p : list byte) : list (list byte) :=
  match p with
  | [] => [word]
  | b :: p => if bool_decide (b = slash) then word :: split_slash [] p else split_slash (word ++ [b]) p
  end.
(** [Path::file_name]: the last component, when it is a name. *)
Definition file_name (p : list byte) : option (list byte) :=
  name ← last (List.filter (λ w, negb (bool_decide (w = [])) && negb (bool_decide (w = [dot]))) (split_slash [] p));
  if bool_decide (name = [dot; dot]) then None else Some name.
(** [Path::extension]: what follows the last dot, unless the name starts there. *)
Definition extension (p : list byte) : option (list byte) :=
  name ← file_name p;
  '(stem, ext) ← rsplit_once [dot] name;
  if bool_decide (stem = []) then None else Some ext.

(** [to_str] of the extension fails when it is not UTF-8. *)
Definition is_heic_path (p : list byte) : bool :=
  match (ext ← extension p; decode ext) with
  | Some ext => eq_ignore_ascii_case ext (str "heic") || eq_ignore_ascii_case ext (str "heif")
  | None => false
  end.

Definition heic_path (s : Settings) : option (list byte) :=
  p ← override_path s; if is_heic_path p then Some p else None.
Definition selects_dynamic_heic (s : Settings) : bool :=
  animate s && bool_decide (is_Some (heic_path s)).

Definition renderer_supports_dynamic_heic (backend : string) : bool :=
  if String.eqb backend "tiny-skia" || String.eqb backend "Null" then false
  else if String.eqb backend "" then false
  else true.

(** ** Diagnostics *)

Definition ellipsis : char := 8230.
Definition bounded_text (message : rstring) : rstring :=
  let bounded := take (MAX_DIAGNOSTIC_CHARS + 1) ((λ c, if is_control c then 32 else c) <$> message) in
  if decide (MAX_DIAGNOSTIC_CHARS < length bounded)%nat
  then take (MAX_DIAGNOSTIC_CHARS - 1) bounded ++ [ellipsis] else bounded.
Definition pipeline_error (reason : rstring) : rstring :=
  reason ++ str "; wallpaper playback stopped; retaining current background".

Definition open_wallpaper {A} (r : result HeicFrame.OpenError A) : result rstring A :=
  match r with
  | Ok file => Ok file
  | Err e => Err (pipeline_error (str match e with
      | HeicFrame.Unavailable => "wallpaper file is unavailable"
      | HeicFrame.MetadataError => "wallpaper file metadata is unavailable"
      | HeicFrame.NotRegular => "wallpaper path is not a regular file"
      | HeicFrame.Reopen => "wallpaper file could not be opened for playback"
      end))
  end.

(** ** Packing a sample *)

(** [usize] is 64 bits; the outer option is a panic of the slices. *)
Definition pack_rgba (source : list byte) (width height stride : Z) : option (option (list byte)) :=
  match (row ← checked_mul 64 width 4;
         if (stride <? 0) || (stride <? row) then None
         else
           required ← checked_mul 64 stride height;
           if Z.of_nat (length source) <? required then None
           else n ← checked_mul 64 row height; Some (row, n)) with
  | None => Some None
  | Some (row, n) =>
    if stride =? row then
      if n <=? Z.of_nat (length source) then Some (Some (take (Z.to_nat n) source)) else None
    else if stride =? 0 then None
    else Some (Some (take (Z.to_nat height) (HeicFrame.chunks (Z.to_nat stride) source) ≫= take (Z.to_nat row)))
  end.

(** ** Shared state *)

Record LoopTransition := mkLoop { held : Frame; started_at : Z; t_duration : Z }.

Record SharedState := mkState {
  pending : option Update;
  last_frame : option Frame;
  transition : option LoopTransition;
  last_frame_at : option Z;
  awaiting_opening_since : option Z;
}.
Record Shared := mkShared {
  state : SharedState;
  sequence : Z;
  signalled : Z;
  failed : bool;
  loop_requested : bool;
}.
Definition shared_default : Shared := mkShared (mkState None None None None None) 0 0 false false.

Definition set_state (st : SharedState) (s : Shared) : Shared :=
  mkShared st (sequence s) (signalled s) (failed s) (loop_requested s).
Definition set_failed (s : Shared) : Shared :=
  mkShared (state s) (sequence s) (signalled s) true (loop_requested s).
Definition set_loop_requested (b : bool) (s : Shared) : Shared :=
  mkShared (state s) (sequence s) (signalled s) (failed s) b.
Definition notify (s : Shared) : Shared :=
  let n := wrapping_add 64 (sequence s) 1 in
  mkShared (state s) n n (failed s) (loop_requested s).
Definition take_latest (s : Shared) : option Update * Shared :=
  (pending (state s),
   set_state (mkState None (last_frame (state s)) (transition (state s)) (last_frame_at (state s))
                (awaiting_opening_since (state s))) s).

(** ** The dissolve at the loop *)

(** [u128] arithmetic: no product of two durations reaches its end. *)
Definition transition_progress (t : LoopTransition) (pts : option Z) (elapsed_since_start : Z) : Z :=
  let elapsed := default elapsed_since_start pts in
  let denominator := Z.max 1 (t_duration t) in
  Z.min (Z.min (2 ^ 128 - 1) (elapsed * 256) / denominator) 256.

Definition same_dimensions (l r : Frame) : bool :=
  (width l =? width r) && (height l =? height r) && (length (pixels l) =? length (pixels r))%nat.

Definition mix (opening_weight : Z) (h o : byte) : byte :=
  to_u8 ((u8 h * (256 - opening_weight) + u8 o * opening_weight + 128) / 256).
Definition blend (h opening : Frame) (opening_weight : Z) : Frame :=
  mkFrame (width opening) (height opening) (zip_with (mix opening_weight) (pixels h) (pixels opening))
    (pts opening).

(** The first critical section of [publish_frame]: [None] is its early
    return. *)
Definition publish_begin (s : Shared) : option (option LoopTransition * Shared) :=
  if failed s then None
  else Some (transition (state s),
    set_state (mkState (pending (state s)) (last_frame (state s)) None (last_frame_at (state s))
                 (awaiting_opening_since (state s))) s).
(** Between them. *)
Definition publish_blend (t : option LoopTransition) (f : Frame) (elapsed : LoopTransition → Z) :
    Frame * option LoopTransition :=
  match t with
  | None => (f, None)
  | Some t =>
    let progress := transition_progress t (pts f) (elapsed t) in
    if (progress <? 256) && same_dimensions (held t) f then (blend (held t) f progress, Some t)
    else (f, None)
  end.
(** The second, and the notification. *)
Definition publish_end (f : Frame) (t : option LoopTransition) (now : Z) (s : Shared) : option Shared :=
  if failed s then None
  else
    let st := state s in
    Some (notify (set_state
      (mkState (Some (UFrame f)) (Some f)
         (match transition st with None => t | Some t' => Some t' end) (Some now) None) s)).

(** [publish_frame] with nothing in between. *)
Definition publish_frame (f : Frame) (elapsed : LoopTransition → Z) (now : Z) (s : Shared) : bool * Shared :=
  match publish_begin s with
  | None => (false, s)
  | Some (t, s) =>
    let '(f, t) := publish_blend t f elapsed in
    match publish_end f t now s with
    | None => (false, s)
    | Some s => (true, s)
    end
  end.

Inductive LoopFrameAction := Publish | Request | Drop.
#[export] Instance LoopFrameAction_eq_dec : EqDecision LoopFrameAction.
Proof. solve_decision. Defined.

Definition loop_frame_action (f : Frame) (duration : Z) (s : Shared) : LoopFrameAction * Shared :=
  match pts f with
  | None => (if loop_requested s then Drop else Publish, s)
  | Some t =>
    let loop_at := saturating_sub duration LOOP_LEAD in
    if t <? loop_at then (Publish, set_loop_requested false s)
    else (if loop_requested s then Drop else Request, set_loop_requested true s)
  end.

(** The sample callback: the frame of the sample if it could be decoded,
    whether the loop message could be posted; the new value of [faulted] and
    whether a message was posted. *)
Definition new_sample (sample : option Frame) (duration : Z) (elapsed : LoopTransition → Z) (now : Z)
    (posted : bool) (faulted : bool) (s : Shared) : Shared * bool * bool :=
  if failed s then (s, faulted, false)
  else match sample with
  | None => (s, true, false)
  | Some f =>
    let '(action, s) := loop_frame_action f duration s in
    match action with
    | Publish => let '(_, s) := publish_frame f elapsed now s in (s, faulted, false)
    | Request =>
      let '(published, s) := publish_frame f elapsed now s in
      if published then (s, faulted || negb posted, posted) else (s, faulted, false)
    | Drop => (s, faulted, false)
    end
  end.

Definition begin_loop_at (crossfade now : Z) (s : Shared) : Shared :=
  let st := state s in
  set_state (mkState (pending st) (last_frame st)
    ((λ h, mkLoop h now crossfade) <$> last_frame st) (last_frame_at st) (Some now)) s.

(** The two halves of [fail_once]: the swap, and what it does when it was the
    first. *)
Definition fail_clear (s : Shared) : Shared :=
  notify (set_state (mkState (Some UFailed) None None None None) s).
Definition fail_once (s : Shared) : Shared := if failed s then s else fail_clear (set_failed s).

(** ** Stalls *)

Inductive Stall := Startup | SFrame | Seek.

Definition playback_stall (st : SharedState) (started_at startup_timeout now : Z) : option Stall :=
  if match awaiting_opening_since st with
     | Some t => SEEK_STALL_TIMEOUT <=? saturating_sub now t | None => false end then Some Seek
  else if match last_frame_at st with
     | Some t => FRAME_STALL_TIMEOUT <=? saturating_sub now t | None => false end then Some SFrame
  else if negb (bool_decide (is_Some (last_frame_at st))) && (startup_timeout <=? saturating_sub now started_at)
  then Some Startup
  else None.

Inductive DecoderMode := AutomaticDecoder | SoftwareDecoder.
#[export] Instance DecoderMode_eq_dec : EqDecision DecoderMode.
Proof. solve_decision. Defined.
Definition startup_timeout (m : DecoderMode) : Z :=
  match m with AutomaticDecoder => AUTOMATIC_STARTUP_TIMEOUT | SoftwareDecoder => SOFTWARE_STARTUP_TIMEOUT end.

Inductive PlaybackOutcome := PStopped | PFailed (why : string).
#[export] Instance PlaybackOutcome_eq_dec : EqDecision PlaybackOutcome.
Proof. solve_decision. Defined.

(** A message of the pipeline's bus. *)
Inductive Message := MLoop | MEos | MError | MOther.

(** What one turn of the monitor reads: the flag that stops it, the state the
    sample thread left, the pipeline's fault flag, the time, a message, and
    whether pausing, seeking and resuming succeed. *)
Record Poll := mkPoll {
  stop : bool;
  seen : Shared → Shared;
  faulted : bool;
  now : Z;
  message : option Message;
  seeks : bool;
}.

(** [monitor_pipeline] over the turns that are met; [None] while it is still
    running. *)
Fixpoint monitor_pipeline (mode : DecoderMode) (started_at crossfade : Z) (polls : list Poll) (s : Shared) :
    option PlaybackOutcome * Shared :=
  match polls with
  | [] => (None, s)
  | p :: polls =>
    let s := seen p s in
    if stop p then (Some PStopped, s)
    else if failed s then (Some PStopped, s)
    else if faulted p then (Some (PFailed "wallpaper frame decoding failed"), s)
    else match playback_stall (state s) started_at (startup_timeout mode) (now p) with
    | Some stall => (Some (PFailed match stall with
        | Startup => "wallpaper did not produce its first frame in time"
        | SFrame => "wallpaper playback stopped producing frames"
        | Seek => "wallpaper loop did not resume after seeking"
        end), s)
    | None =>
      match message p with
      | None | Some MOther => monitor_pipeline mode started_at crossfade polls s
      | Some MLoop =>
        let s := begin_loop_at crossfade (now p) s in
        if seeks p then monitor_pipeline mode started_at crossfade polls s
        else (Some (PFailed "wallpaper loop seek failed"), s)
      | Some MEos => (Some (PFailed "wallpaper reached its end before looping"), s)
      | Some MError => (Some (PFailed "wallpaper stream failed"), s)
      end
    end
  end.

(** ** Attempts *)

Definition should_retry_with_software (mode : DecoderMode) (has_frame : bool) : bool :=
  bool_decide (mode = AutomaticDecoder) && negb has_frame.

(** What an attempt meets before its monitor, and in it. *)
Record Attempt := mkAttempt {
  stop_before : bool;
  rewound : bool;
  built : bool;
  playing : bool;
  begun_at : Z;
  polls : list Poll;
  stop_after : bool;
}.

Definition run_attempt (mode : DecoderMode) (crossfade : Z) (a : Attempt) (s : Shared) :
    option PlaybackOutcome * Shared :=
  if negb (rewound a) then (Some (PFailed "wallpaper file could not be rewound"), s)
  else if negb (built a) then (Some (PFailed "wallpaper decode pipeline could not be built"), s)
  else if negb (playing a) then (Some (PFailed "wallpaper decode pipeline did not start"), s)
  else monitor_pipeline mode (begun_at a) crossfade (polls a) s.

(** How [run_playback] leaves, or that it goes on. *)
Inductive Run := Running (s : Shared) | Quit (s : Shared) | GaveUp (why : string) (s : Shared).

(** The loop over the attempts that are met. *)
Fixpoint run_playback_loop (crossfade : Z) (mode : DecoderMode) (attempts : list Attempt) (s : Shared) : Run :=
  match attempts with
  | [] => Running s
  | a :: attempts =>
    if stop_before a then Quit s
    else
      let '(outcome, s) := run_attempt mode crossfade a (set_loop_requested false s) in
      match outcome with
      | None => Running s
      | Some PStopped => Quit s
      | Some (PFailed why) =>
        if stop_after a then Quit s
        else if should_retry_with_software mode (bool_decide (is_Some (last_frame (state s))))
        then run_playback_loop crossfade SoftwareDecoder attempts s
        else GaveUp why (fail_once s)
      end
  end.
Definition run_playback (crossfade : Z) (attempts : list Attempt) (s : Shared) : Run :=
  run_playback_loop crossfade AutomaticDecoder attempts s.

(** ** The two threads

    The sample callback and the monitor share the state with the consumer.  A
    step is one critical section or one atomic operation. *)

Inductive Sampler := Idle | Blended (f : Frame) (t : option LoopTransition).
Inductive Monitor := Monitoring | Swapped | Cleared.

Record World := mkWorld { shared : Shared; sampler : Sampler; monitor : Monitor }.

Inductive step : World → World → Prop :=
| step_begin s m f elapsed t s' :
    publish_begin s = Some (t, s') →
    step (mkWorld s Idle m) (mkWorld s' (Blended (publish_blend t f elapsed).1 (publish_blend t f elapsed).2) m)
| step_refused s m : publish_begin s = None → step (mkWorld s Idle m) (mkWorld s Idle m)
| step_end s m f t now :
    step (mkWorld s (Blended f t) m) (mkWorld (default s (publish_end f t now s)) Idle m)
| step_loop s sm crossfade now :
    step (mkWorld s sm Monitoring) (mkWorld (begin_loop_at crossfade now s) sm Monitoring)
| step_swap s sm :
    step (mkWorld s sm Monitoring) (mkWorld (set_failed s) sm (if failed s then Cleared else Swapped))
| step_clear s sm : step (mkWorld s sm Swapped) (mkWorld (fail_clear s) sm Cleared)
| step_take s sm m : step (mkWorld s sm m) (mkWorld (take_latest s).2 sm m)
| step_flag s sm m b : step (mkWorld s sm m) (mkWorld (set_loop_requested b s) sm m).
