(* ===== verification/WallpaperProofs.v ===== *)
(** * Wallpaper playback: proofs

    The packing of samples, the loop and its dissolve, the terminal failure in
    every interleaving of the threads, stalls and attempts. *)

From S2P Require Import Prelude Utf8 Text Wallpaper.
From S2P Require Heic HeicFrame HeicFrameProofs Playback PlaybackProofs.

(** ** Diagnostics *)

(** A diagnostic is one line: no control character, at most 240 characters. *)
Lemma bounded_text_line message :
  (length (bounded_text message) ≤ MAX_DIAGNOSTIC_CHARS)%nat ∧
  Forall (λ c, is_control c = false) (bounded_text message).
Proof.
  unfold bounded_text. set (b := take _ _).
  assert (Forall (λ c, is_control c = false) b) as Hb.
  { apply Forall_take, Forall_fmap, Forall_true. intros c. cbn. by destruct (is_control c) eqn:E. }
  destruct (decide _) as [Hl|Hl].
  - rewrite length_app, length_take. cbn [length]. unfold MAX_DIAGNOSTIC_CHARS in *. split; [lia|].
    apply Forall_app. split; [by apply Forall_take|by repeat constructor].
  - split; [lia|done].
Qed.

(** ** Packing *)

Lemma take_rows row stride h source : (0 < stride)%nat → (row ≤ stride)%nat → (h * stride ≤ length source)%nat →
  take h (HeicFrame.chunks stride source) ≫= take row =
  HeicFrameProofs.packed source (Z.of_nat stride) (Z.of_nat row) h.
Proof.
  intros Hs Hr Hl. unfold HeicFrame.chunks, HeicFrameProofs.packed.
  rewrite HeicFrameProofs.take_chunks by lia. rewrite list_fmap_bind. apply list_bind_ext; [|done].
  intros y. cbn. unfold Heic.range, slice. rewrite take_take. f_equal; [lia|]. f_equal. lia.
Qed.

(** The rows of a plane without padding are its bytes. *)
Lemma packed_tight source row h : 0 ≤ row → Z.of_nat h * row ≤ Z.of_nat (length source) →
  HeicFrameProofs.packed source row row h = take (Z.to_nat (row * Z.of_nat h)) source.
Proof.
  intros Hr. induction h as [|h IH]; intros Hl; [by rewrite Z.mul_0_r|].
  unfold HeicFrameProofs.packed in *. rewrite seq_S, bind_app, IH by lia. cbn. rewrite app_nil_r.
  unfold Heic.range, slice. replace (Z.to_nat (row * Z.of_nat (S h)))
    with (Z.to_nat (row * Z.of_nat h) + Z.to_nat row)%nat by nia.
  rewrite <- take_take_drop. f_equal. f_equal; [lia|]. f_equal. lia.
Qed.

(** A sample packs into the rows of its plane without their padding, whether it
    is copied at once or row by row; a stride that is negative or too short, or
    a plane that is truncated, is refused; and no slice is out of range. *)
Theorem pack_rgba_rows source width height stride :
  0 ≤ width < 2 ^ 32 → 0 ≤ height < 2 ^ 32 → - 2 ^ 31 ≤ stride < 2 ^ 31 → Z.of_nat (length source) < 2 ^ 62 →
  pack_rgba source width height stride =
    Some (if bool_decide (width * 4 ≤ stride ∧ stride * height ≤ Z.of_nat (length source))
          then Some (HeicFrameProofs.packed source stride (width * 4) (Z.to_nat height)) else None).
Proof.
  intros Hw Hh Hst Hl. unfold pack_rgba, checked_mul.
  rewrite (proj2 (Z.ltb_lt (width * 4) _)) by lia. cbn [mbind option_bind].
  destruct (Z.ltb_spec stride 0); cbn [orb]; [by rewrite bool_decide_false by lia|].
  destruct (Z.ltb_spec stride (width * 4)); [by rewrite bool_decide_false by lia|].
  rewrite (proj2 (Z.ltb_lt (stride * height) _)) by nia. cbn [mbind option_bind].
  destruct (Z.ltb_spec (Z.of_nat (length source)) (stride * height)); [by rewrite bool_decide_false by lia|].
  rewrite (proj2 (Z.ltb_lt (width * 4 * height) _)) by nia. cbn [mbind option_bind].
  rewrite bool_decide_true by lia.
  destruct (Z.eqb_spec stride (width * 4)) as [->|].
  - rewrite (proj2 (Z.leb_le _ _)) by lia. rewrite packed_tight by lia. do 3 f_equal. lia.
  - destruct (Z.eqb_spec stride 0); [lia|]. do 2 f_equal.
    assert (Z.to_nat height * Z.to_nat stride ≤ length source)%nat by nia.
    rewrite take_rows by lia. f_equal; lia.
Qed.

(** ** The dissolve *)

(** The frame [f] published after a loop began holding [h]. *)
Definition dissolved (crossfade elapsed : Z) (h f : Frame) : Frame :=
  blend h f (elapsed * 256 / crossfade).

Lemma mix_value w h o : 0 ≤ w ≤ 256 →
  u8 (mix w h o) = (u8 h * (256 - w) + u8 o * w + 128) / 256 ∧
  Z.min (u8 h) (u8 o) ≤ u8 (mix w h o) ≤ Z.max (u8 h) (u8 o).
Proof. intros Hw. apply (PlaybackProofs.mix_bounds w h o Hw). Qed.

Lemma mix_zero h o : mix 0 h o = h.
Proof.
  apply u8_inj. destruct (mix_value 0 h o) as [-> _]; [lia|]. pose proof (u8_range h).
  symmetry. apply (Z.div_unique _ _ _ 128); lia.
Qed.

Lemma zip_with_mix_zero h o : length h = length o → zip_with (mix 0) h o = h.
Proof.
  revert o. induction h as [|x h IH]; intros [|y o] Hl; try done. cbn. rewrite mix_zero, IH; [done|].
  cbn in Hl. lia.
Qed.

(** A frame of the new pass, at its time. *)
Definition of_pass (h : Frame) (crossfade : Z) (f : Frame) : Prop :=
  same_dimensions h f = true ∧ ∃ t, pts f = Some t ∧ 0 ≤ t.

Lemma progress_value h crossfade started t el : 0 < crossfade → 0 ≤ t < 2 ^ 96 →
  transition_progress (mkLoop h started crossfade) (Some t) el =
    if t <? crossfade then t * 256 / crossfade else 256.
Proof.
  intros Hc Ht. unfold transition_progress. cbn.
  rewrite (Z.max_r 1), (Z.min_r (2 ^ 128 - 1)) by lia. destruct (Z.ltb_spec t crossfade).
  - apply Z.min_l. apply Z.lt_le_incl, Z.div_lt_upper_bound; lia.
  - apply Z.min_r. apply Z.div_le_lower_bound; lia.
Qed.

Lemma progress_small crossfade t : 0 ≤ t < crossfade → 0 ≤ t * 256 / crossfade < 256.
Proof. intros. split; [apply Z.div_pos; lia|apply Z.div_lt_upper_bound; lia]. Qed.

(** What [publish_frame] leaves while a loop dissolves. *)
Lemma publish_dissolving h crossfade started f t el now s :
  failed s = false → transition (state s) = Some (mkLoop h started crossfade) →
  0 < crossfade → same_dimensions h f = true → pts f = Some t → 0 ≤ t < 2 ^ 96 →
  ∃ s', publish_frame f el now s = (true, s') ∧ failed s' = false ∧
    pending (state s') = Some (UFrame (if t <? crossfade then dissolved crossfade t h f else f)) ∧
    transition (state s') = (if t <? crossfade then Some (mkLoop h started crossfade) else None).
Proof.
  intros Hf Htr Hc Hs Hp Ht. unfold publish_frame, publish_begin. rewrite Hf, Htr.
  unfold publish_blend. cbn [held]. rewrite Hp, progress_value, Hs, andb_true_r by done.
  destruct (Z.ltb_spec t crossfade).
  - rewrite (proj2 (Z.ltb_lt _ _)) by (pose proof (progress_small crossfade t); lia).
    unfold publish_end. cbn [failed set_state]. rewrite Hf. eexists. split; [done|]. done.
  - rewrite Z.ltb_irrefl. unfold publish_end. cbn [failed set_state]. rewrite Hf. eexists. split; [done|]. done.
Qed.

Fixpoint publish_all (fs : list (Frame * Z)) (el : LoopTransition → Z) (s : Shared) : Shared :=
  match fs with [] => s | (f, now) :: fs => publish_all fs el (publish_frame f el now s).2 end.

(** The loop: whatever frames of the new pass were shown since it began, the
    next one is blended over the frame that was on screen at the loop (never
    over an earlier blend), with a weight that its own time gives: the held
    frame itself at the start of the pass, each channel between the two frames
    on the way, the plain frame from the end of the crossfade on. *)
Theorem loop_dissolves s h crossfade began fs el f t now :
  failed s = false → last_frame (state s) = Some h → 0 < crossfade →
  Forall (λ x, same_dimensions h x.1 = true ∧ ∃ t, pts x.1 = Some t ∧ 0 ≤ t < crossfade ∧ t < 2 ^ 96) fs →
  same_dimensions h f = true → pts f = Some t → 0 ≤ t < 2 ^ 96 →
  ∃ s', publish_frame f el now (publish_all fs el (begin_loop_at crossfade began s)) = (true, s') ∧
    pending (state s') = Some (UFrame (if t <? crossfade then dissolved crossfade t h f else f)) ∧
    (t = 0 → pixels (dissolved crossfade t h f) = pixels h) ∧
    (t < crossfade → ∀ i a b, pixels h !! i = Some a → pixels f !! i = Some b →
      ∃ c, pixels (dissolved crossfade t h f) !! i = Some c ∧ Z.min (u8 a) (u8 b) ≤ u8 c ≤ Z.max (u8 a) (u8 b)).
Proof.
  intros Hf Hh Hc Hfs Hsame Hp Ht.
  assert (∀ s0, failed s0 = false → transition (state s0) = Some (mkLoop h began crossfade) →
    failed (publish_all fs el s0) = false ∧ transition (state (publish_all fs el s0)) = Some (mkLoop h began crossfade)) as Hall.
  { induction Hfs as [|[g n] fs (Hg & tg & Hpg & Htg & Hbg) _ IH]; intros s0 H1 H2; [done|]. cbn in Hg, Hpg.
    destruct (publish_dissolving h crossfade began g tg el n s0) as (s1 & E & Hf1 & _ & Ht1); [done..|lia|].
    cbn. rewrite E. apply IH; [done|]. by rewrite (proj2 (Z.ltb_lt _ _)) in Ht1 by lia. }
  destruct (Hall (begin_loop_at crossfade began s)) as [H1 H2]; [done|cbn; by rewrite Hh|].
  destruct (publish_dissolving h crossfade began f t el now _ H1 H2) as (s' & E & _ & Hpend & _); try done.
  exists s'. split; [done|]. split; [done|].
  assert (length (pixels h) = length (pixels f)) as El.
  { unfold same_dimensions in Hsame. simp_bool. by apply Nat.eqb_eq. }
  split.
  - intros ->. unfold dissolved, blend. cbn [pixels]. rewrite Z.mul_0_l, Z.div_0_l by lia. by apply zip_with_mix_zero.
  - intros Hlt i a b Ha Hb. exists (mix (t * 256 / crossfade) a b). split.
    + unfold dissolved, blend. cbn [pixels]. by rewrite lookup_zip_with, Ha, Hb.
    + pose proof (progress_small crossfade t). apply mix_value. lia.
Qed.

(** ** Requests to loop *)

Fixpoint loop_actions (duration : Z) (fs : list Frame) (s : Shared) : list LoopFrameAction :=
  match fs with
  | [] => []
  | f :: fs => let '(a, s) := loop_frame_action f duration s in a :: loop_actions duration fs s
  end.

(** Before the last [LOOP_LEAD] of the video. *)
Definition early (duration : Z) (f : Frame) : Prop :=
  ∃ t, pts f = Some t ∧ t < saturating_sub duration LOOP_LEAD.

Lemma no_request_before duration fs s j :
  loop_requested s = true → loop_actions duration fs s !! j = Some Request →
  ∃ k f, (k < j)%nat ∧ fs !! k = Some f ∧ early duration f.
Proof.
  revert s j. induction fs as [|f fs IH]; intros s j Hs Hj; [done|].
  cbn [loop_actions] in Hj. unfold loop_frame_action in Hj. destruct (pts f) as [t|] eqn:Ep.
  - destruct (Z.ltb_spec t (saturating_sub duration LOOP_LEAD)).
    + destruct j as [|j]; [done|]. exists 0%nat, f. split; [lia|]. split; [done|]. by exists t.
    + rewrite Hs in Hj. destruct j as [|j]; [done|].
      destruct (IH _ j (eq_refl : loop_requested (set_loop_requested true s) = true) Hj) as (k & g & Hk & Hg & He).
      exists (S k), g. split; [lia|done].
  - rewrite Hs in Hj. destruct j as [|j]; [done|]. destruct (IH s j Hs Hj) as (k & g & Hk & Hg & He).
    exists (S k), g. split; [lia|done].
Qed.

(** One seek per pass: between two frames at which the loop is requested lies a
    frame of a new pass, so a slow seek is not requested again and again; and
    every frame of the body of the video is published. *)
Theorem one_request_per_pass duration fs s i j :
  (i < j)%nat → loop_actions duration fs s !! i = Some Request → loop_actions duration fs s !! j = Some Request →
  (∃ k f, (i < k < j)%nat ∧ fs !! k = Some f ∧ early duration f) ∧
  ∀ k f, fs !! k = Some f → early duration f → loop_actions duration fs s !! k = Some Publish.
Proof.
  intros Hij Hi Hj. split.
  - revert s i j Hij Hi Hj. induction fs as [|f fs IH]; intros s i j Hij Hi Hj; [done|].
    cbn [loop_actions] in Hi, Hj. destruct (loop_frame_action f duration s) as [a s'] eqn:E.
    destruct j as [|j]; [lia|]. destruct i as [|i]; cbn in Hi, Hj.
    + injection Hi as ->. assert (loop_requested s' = true) as Hs'.
      { unfold loop_frame_action in E. repeat case_match; simplify_eq; done. }
      destruct (no_request_before duration fs s' j Hs' Hj) as (k & g & Hk & Hg & He).
      exists (S k), g. split; [lia|done].
    + destruct (IH s' i j) as (k & g & Hk & Hg & He); [lia|done..|]. exists (S k), g. split; [lia|done].
  - clear. revert s. induction fs as [|f fs IH]; intros s k g Hk (t & Hp & Ht); [done|].
    cbn [loop_actions]. destruct (loop_frame_action f duration s) as [a s'] eqn:E.
    destruct k as [|k]; cbn in Hk |- *.
    + injection Hk as ->. unfold loop_frame_action in E. rewrite Hp in E.
      rewrite (proj2 (Z.ltb_lt _ _)) in E by done. by injection E as <- <-.
    + eapply IH; [done|]. by exists t.
Qed.

(** ** The terminal failure *)

Definition started : World := mkWorld shared_default Idle Monitoring.

(** Each field of what the monitor leaves. *)
Definition failure_ok (w : World) : Prop :=
  match monitor w with
  | Monitoring => failed (shared w) = false
  | Swapped => failed (shared w) = true
  | Cleared => failed (shared w) = true ∧ last_frame (state (shared w)) = None ∧
      transition (state (shared w)) = None ∧
      (pending (state (shared w)) = None ∨ pending (state (shared w)) = Some UFailed)
  end.

Lemma failure_step w w' : step w w' → failure_ok w → failure_ok w'.
Proof.
  unfold failure_ok. destruct 1 as [s m f el t s' E|s m E|s m f t now|s sm c now|s sm|s sm|s sm m|s sm m b]; cbn.
  - unfold publish_begin in E. destruct (failed s) eqn:Ef; [done|]. injection E as <- <-.
    destruct m; cbn; try done; rewrite Ef; naive_solver.
  - done.
  - unfold publish_end. destruct (failed s) eqn:Ef; cbn; destruct m; cbn; try done; naive_solver.
  - done.
  - intros ->. done.
  - intros Hf. split; [done|]. auto.
  - destruct m; cbn; try done. intros (? & ? & ? & _). auto.
  - by destruct m.
Qed.

(** When [fail_once] is through, whichever section of a publication it
    overtook: nothing is kept of the playback, the consumer finds the failure
    or has taken it, and no run of the threads ever shows a frame again. *)
Theorem terminal_failure_wins w w' :
  rtc step started w → monitor w = Cleared → rtc step w w' →
  monitor w' = Cleared ∧ last_frame (state (shared w')) = None ∧
  (pending (state (shared w')) = None ∨ pending (state (shared w')) = Some UFailed) ∧
  (pending (state (shared w)) = None → pending (state (shared w')) = None).
Proof.
  intros Hw Hm Hs. assert (failure_ok w) as Hok.
  { assert (failure_ok started) as H0 by done. revert H0 Hw. generalize started. intros w0 H0 Hw.
    clear Hm Hs. induction Hw as [|w0 w1 w2 H1 _ IH]; [done|]. by eapply IH, failure_step. }
  clear Hw. revert Hm Hok. induction Hs as [w|w w1 w2 Hs _ IH]; intros Hm Hok.
  { unfold failure_ok in Hok. rewrite Hm in Hok. naive_solver. }
  pose proof (failure_step _ _ Hs Hok) as Hok1.
  assert (monitor w1 = Cleared ∧ (pending (state (shared w)) = None → pending (state (shared w1)) = None)) as [Hm1 Hp].
  { unfold failure_ok in Hok. rewrite Hm in Hok. destruct Hok as (Hf & _).
    destruct Hs as [s m f el t s' E|s m E|s m f t now|s sm c now|s sm|s sm|s sm m|s sm m b]; cbn in *; try done.
    - split; [done|]. unfold publish_begin in E. destruct (failed s); [done|]. by injection E as <- <-.
    - split; [done|]. unfold publish_end. by rewrite Hf. }
  destruct (IH Hm1 Hok1) as (? & ? & ? & ?). split_and!; auto.
Qed.

(** ** Stalls *)

(** The states the monitor saw, turn by turn. *)
Fixpoint observed (crossfade : Z) (polls : list Poll) (s : Shared) : list (Poll * Shared) :=
  match polls with
  | [] => []
  | p :: polls =>
    let s := seen p s in
    (p, s) :: observed crossfade polls
      (match message p with Some MLoop => begin_loop_at crossfade (now p) s | _ => s end)
  end.

(** As long as the monitor runs, the wallpaper is alive: at every turn a frame
    came within the last ten seconds, or none has come yet and the decoder is
    within its startup time, and no seek waits for ten seconds. *)
Theorem monitor_lets_no_stall mode begun crossfade polls s p st :
  (monitor_pipeline mode begun crossfade polls s).1 = None →
  (p, st) ∈ observed crossfade polls s →
  faulted p = false ∧ failed st = false ∧
  match last_frame_at (state st) with
  | Some t => saturating_sub (now p) t < FRAME_STALL_TIMEOUT
  | None => saturating_sub (now p) begun < startup_timeout mode
  end ∧
  ∀ t, awaiting_opening_since (state st) = Some t → saturating_sub (now p) t < SEEK_STALL_TIMEOUT.
Proof.
  revert s. induction polls as [|q polls IH]; intros s Hrun Hin; cbn [observed] in Hin; [by apply elem_of_nil in Hin|].
  cbn [monitor_pipeline] in Hrun. destruct (stop q); [done|]. destruct (failed (seen q s)) eqn:Ef; [done|].
  destruct (faulted q) eqn:Ea; [done|]. destruct (playback_stall _ _ _ _) as [stall|] eqn:Es; [done|].
  apply elem_of_cons in Hin as [[= -> ->]|Hin].
  - split; [done|]. split; [done|]. unfold playback_stall in Es.
    destruct (awaiting_opening_since (state (seen q s))) as [a|]; destruct (last_frame_at (state (seen q s))) as [l|]; cbn in Es;
      repeat (destruct (_ <=? _) eqn:?; try discriminate; simp_bool); (split; [done|]); intros t Et; by simplify_eq.
  - destruct (message q) as [[]|]; try discriminate; try (by eapply IH).
    destruct (seeks q); [by eapply IH|done].
Qed.

(** ** Attempts *)

(** An attempt that comes to an end. *)
Definition ends (mode : DecoderMode) (crossfade : Z) (a : Attempt) (s : Shared) : Prop :=
  stop_before a = true ∨ is_Some (run_attempt mode crossfade a (set_loop_requested false s)).1.

(** Playback is tried twice at most: the second time in software, and only when
    the first attempt failed without ever having shown a frame.  Two attempts
    that end are an end of it, and an end that was not asked for leaves the
    failure for the consumer. *)
Theorem two_attempts crossfade a b more s :
  failed s = false → (∀ m s, ends m crossfade a s) → (∀ m s, ends m crossfade b s) →
  match run_playback crossfade (a :: b :: more) s with
  | Running _ => False
  | Quit _ => True
  | GaveUp why s' => failed s' = true ∧
      ((run_attempt AutomaticDecoder crossfade a (set_loop_requested false s)).1 = Some (PFailed why) ∧
         is_Some (last_frame (state (run_attempt AutomaticDecoder crossfade a (set_loop_requested false s)).2)) ∨
       (∃ s1, last_frame (state s1) = None ∧
         (run_attempt SoftwareDecoder crossfade b (set_loop_requested false s1)).1 = Some (PFailed why)))
  end.
Proof.
  intros Hf Ha Hb. unfold run_playback. cbn [run_playback_loop].
  destruct (stop_before a) eqn:Esa; [done|].
  destruct (Ha AutomaticDecoder s) as [H|[o Ho]]; [congruence|].
  destruct (run_attempt AutomaticDecoder crossfade a (set_loop_requested false s)) as [oa s1] eqn:Ea.
  cbn in Ho. subst oa. destruct o as [|why]; [done|]. destruct (stop_after a); [done|].
  assert (∀ x, failed (fail_once x) = true) as Hfail by (intros x; unfold fail_once; by destruct (failed x) eqn:E).
  unfold should_retry_with_software. rewrite bool_decide_true by done. cbn [andb].
  destruct (bool_decide (is_Some (last_frame (state s1)))) eqn:El; simp_bool; cbn [negb].
  { split; [apply Hfail|]. left. done. }
  destruct (stop_before b) eqn:Esb; [done|].
  destruct (Hb SoftwareDecoder s1) as [H|[o Ho]]; [congruence|].
  destruct (run_attempt SoftwareDecoder crossfade b (set_loop_requested false s1)) as [ob s2] eqn:Eb.
  cbn in Ho. subst ob. destruct o as [|why2]; [done|]. destruct (stop_after b); [done|].
  rewrite bool_decide_false by done. cbn [andb]. split; [apply Hfail|]. right.
  exists s1. rewrite Eb. split; [|done]. destruct (last_frame (state s1)); [by destruct El|done].
Qed.

(** ** Witnesses *)

Definition gray (v : Z) (t : Z) : Frame := mkFrame 1 1 (to_u8 <$> [v; v; v; 255]) (Some t).
Definition playing : Shared := (publish_frame (gray 200 59000000000) (λ _, 0) 1 shared_default).2.

Lemma pack_rgba_rows_witness :
  pack_rgba (to_u8 <$> [1; 2; 3; 4; 0; 5; 6; 7; 8]) 1 2 5 = Some None ∧
  pack_rgba (to_u8 <$> [1; 2; 3; 4; 0; 5; 6; 7; 8; 0]) 1 2 5 = Some (Some (to_u8 <$> [1; 2; 3; 4; 5; 6; 7; 8])).
Proof.
  split.
  - rewrite pack_rgba_rows by (cbn; lia). reflexivity.
  - rewrite pack_rgba_rows by (cbn; lia). reflexivity.
Defined.

Lemma loop_dissolves_witness :
  ∃ s', publish_frame (gray 0 1000000000) (λ _, 0) 9 (publish_all [(gray 50 0, 8)] (λ _, 0) (begin_loop_at 2000000000 7 playing)) = (true, s') ∧
    pending (state s') = Some (UFrame (mkFrame 1 1 (to_u8 <$> [100; 100; 100; 255]) (Some 1000000000))).
Proof.
  destruct (loop_dissolves playing (gray 200 59000000000) 2000000000 7 [(gray 50 0, 8)] (λ _, 0)
    (gray 0 1000000000) 1000000000 9) as (s' & E & Hp & _).
  - reflexivity.
  - vm_compute. reflexivity.
  - lia.
  - constructor; [|done]. split; [reflexivity|]. exists 0. split; [reflexivity|lia].
  - reflexivity.
  - reflexivity.
  - lia.
  - exists s'. split; [exact E|]. rewrite Hp. vm_compute. reflexivity.
Defined.

Definition two_passes : list Frame := [gray 1 0; gray 2 5950000000; gray 3 5990000000; gray 4 0; gray 5 5960000000].
Lemma one_request_per_pass_witness :
  loop_actions 6000000000 two_passes shared_default = [Publish; Request; Drop; Publish; Request] ∧
  ∃ k f, (1 < k < 4)%nat ∧ two_passes !! k = Some f ∧ early 6000000000 f.
Proof.
  split; [vm_compute; reflexivity|].
  refine (proj1 (one_request_per_pass 6000000000 two_passes shared_default 1 4 _ _ _)); [lia|vm_compute; reflexivity..].
Defined.

(** A failure between the two sections of a publication. *)
Definition overtaken : World :=
  mkWorld (fail_clear (set_failed shared_default)) Idle Cleared.
Lemma overtaken_reachable : rtc step started overtaken.
Proof.
  eapply rtc_l; [eapply (step_begin shared_default Monitoring (gray 9 0) (λ _, 0)); reflexivity|].
  eapply rtc_l; [apply step_swap|]. eapply rtc_l; [apply step_clear|].
  eapply rtc_l; [apply (step_end _ _ _ _ 1)|]. apply rtc_refl.
Qed.

Lemma terminal_failure_wins_witness :
  monitor overtaken = Cleared ∧ last_frame (state (shared overtaken)) = None.
Proof.
  destruct (terminal_failure_wins overtaken overtaken overtaken_reachable eq_refl) as (H1 & H2 & _); [apply rtc_refl|].
  split; [exact H1|exact H2].
Defined.

Definition quiet_poll (t : Z) : Poll := mkPoll false (λ s, s) false t None true.
Lemma monitor_lets_no_stall_witness :
  (monitor_pipeline AutomaticDecoder 0 0 [quiet_poll 5; quiet_poll 10000000002] playing).1 =
    Some (PFailed "wallpaper playback stopped producing frames") ∧
  saturating_sub 9000000000 1 < FRAME_STALL_TIMEOUT.
Proof.
  split; [vm_compute; reflexivity|].
  refine (proj1 (proj2 (proj2 (monitor_lets_no_stall AutomaticDecoder 0 0 [quiet_poll 9000000000] playing
    (quiet_poll 9000000000) playing _ _)))).
  - vm_compute. reflexivity.
  - cbn. left.
Defined.

Definition broken_attempt (p : bool) : Attempt := mkAttempt false true p false 0 [] false.
Lemma two_attempts_witness :
  ∃ s', run_playback 0 [broken_attempt true; broken_attempt false] shared_default =
    GaveUp "wallpaper decode pipeline could not be built" s' ∧ failed s' = true.
Proof.
  pose proof (two_attempts 0 (broken_attempt true) (broken_attempt false) [] shared_default eq_refl) as H.
  destruct (run_playback 0 [broken_attempt true; broken_attempt false] shared_default) as [s'|s'|why s'] eqn:E;
    [exfalso; vm_compute in E; discriminate..|].
  exists s'. destruct H as [Hf _]; [by right; eexists|by right; eexists|]. split; [|exact Hf].
  vm_compute in E. injection E as <- <-. vm_compute. reflexivity.
Defined.
