(* ===== verification/WallpaperState.v ===== *)
(** * The wallpaper of a frontend ([src/wallpaper.rs], [State])

    What the greeter and the locker show behind their widgets: a poster, and the
    frames of one of two sources, a packaged video or a dynamic HEIC.  How a
    source starts, and the allocation of images on the renderer, are answers of
    the outside; a source is what its consumer sees of it. *)

From S2P Require Import Prelude Utf8 Wallpaper.
From S2P Require SessionLock DynamicModel.

(** An [iced] image handle. *)
Inductive Handle := Rgba (width height : Z) (pixels : list byte) | OtherHandle.
#[export] Instance Handle_eq_dec : EqDecision Handle.
Proof. solve_decision. Defined.

(** A [Player] or a [HeicPlayer]: the pending update and the failure flag. *)
Record Source := mkSource { latest : option Update; has_failed : bool }.

Inductive Refresh := Unchanged | RFrame | RFailed.
#[export] Instance Refresh_eq_dec : EqDecision Refresh.
Proof. solve_decision. Defined.

Record State := mkState {
  player : option Source;
  heic : option Source;
  poster : option Handle;
  frame : option Handle;
  allocation : option Handle;
  allocation_pending : bool;
  heic_adopted : bool;
}.

Definition poster_only (poster : option Handle) : State :=
  mkState None None poster poster None false false.

(** ** Starting *)

Section Start.
(** How the sources start: from a path, with the video's times, or with the
    appearance and the reduced motion. *)
Context (load_poster : Catalog → result rstring Handle).
Context (packaged_wallpaper_path : string → result rstring (list byte)).
Context (start_player : list byte → Z → Z → result rstring Source).
Context (start_heic_player : list byte → DynamicModel.AppearancePreference → bool → result rstring Source).

Definition ok {A} (r : result rstring A) : option A := match r with Ok a => Some a | Err _ => None end.

Definition start_heic (s : Settings) (path : list byte) (poster : option Handle) : State :=
  if negb (animate s) then poster_only poster
  else match start_heic_player path (appearance s) (reduced_motion s) with
  | Ok heic => mkState None (Some heic) poster poster None false false
  | Err _ => poster_only poster
  end.

(** [None] is the panic of a catalog index. *)
Definition start (s : Settings) : option State :=
  let poster := ok (load_poster (catalog s)) in
  match heic_path s with
  | Some path => Some (start_heic s path poster)
  | None =>
    if negb (animate s) then Some (poster_only poster)
    else
      sp ← spec (catalog s);
      Some match (path ← match override_path s with
                         | None => packaged_wallpaper_path (install_name sp)
                         | Some p => Ok p
                         end;
                  start_player path (duration sp) (crossfade sp)) with
      | Ok player => mkState (Some player) None poster poster None false false
      | Err _ => poster_only poster
      end
  end.

Definition start_deferred (s : Settings) : option State :=
  if negb (selects_dynamic_heic s) then start s
  else Some (poster_only (ok (load_poster (catalog s)))).

Definition is_some {A} (o : option A) : bool := match o with Some _ => true | None => false end.

Definition start_heic_source (s : Settings) (w : State) : State :=
  if is_some (heic w) || is_some (player w) || negb (selects_dynamic_heic s) then w
  else match heic_path s with
  | None => w
  | Some path =>
    match start_heic_player path (appearance s) (reduced_motion s) with
    | Ok heic => mkState (player w) (Some heic) (poster w) (frame w) (allocation w) (allocation_pending w) (heic_adopted w)
    | Err _ => w
    end
  end.
End Start.

(** ** Updates *)

Definition drain (o : option Source) : option Source :=
  (λ s, mkSource None (has_failed s)) <$> o.
(** [take_latest]: the heic source is asked only when the player had nothing. *)
Definition take_latest (w : State) : option Update * State :=
  match (p ← player w; latest p) with
  | Some u => (Some u, mkState (drain (player w)) (heic w) (poster w) (frame w) (allocation w) (allocation_pending w) (heic_adopted w))
  | None => ((h ← heic w; latest h),
      mkState (player w) (drain (heic w)) (poster w) (frame w) (allocation w) (allocation_pending w) (heic_adopted w))
  end.

Definition note_heic_adoption (w : State) : State :=
  if negb (is_some (heic w)) || heic_adopted w then w
  else mkState (player w) (heic w) (poster w) (frame w) (allocation w) (allocation_pending w) true.

Definition stop_playback (w : State) : State :=
  mkState None None (poster w) (match frame w with None => poster w | Some f => Some f end)
    (allocation w) false (heic_adopted w).

Definition handle_of (f : Frame) : Handle := Rgba (width f) (height f) (pixels f).

Definition receive_latest (w : State) : Refresh * State :=
  let '(u, w) := take_latest w in
  match u with
  | None => (Unchanged, w)
  | Some (UFrame f) =>
    (RFrame, note_heic_adoption
       (mkState (player w) (heic w) (poster w) (Some (handle_of f)) None (allocation_pending w) (heic_adopted w)))
  | Some UFailed => (RFailed, stop_playback w)
  end.

Definition prepare_latest (w : State) : option Handle * State :=
  if allocation_pending w then (None, w)
  else
    let '(u, w) := take_latest w in
    match u with
    | None => (None, w)
    | Some (UFrame f) =>
      (Some (handle_of f),
       mkState (player w) (heic w) (poster w) (frame w) (allocation w) true (heic_adopted w))
    | Some UFailed => (None, stop_playback w)
    end.

Definition failed_source (o : option Source) : bool := match o with Some s => has_failed s | None => false end.
Definition stop_after_terminal_failure (w : State) : bool * State :=
  if failed_source (player w) || failed_source (heic w) then (true, stop_playback w) else (false, w).

Definition finish_allocation (r : result unit Handle) (w : State) : Refresh * State :=
  if negb (allocation_pending w) then (Unchanged, w)
  else
    let w := mkState (player w) (heic w) (poster w) (frame w) (allocation w) false (heic_adopted w) in
    let '(stopped, w) := stop_after_terminal_failure w in
    if stopped then (RFailed, w)
    else match r with
    | Ok a => (RFrame, note_heic_adoption
        (mkState (player w) (heic w) (poster w) (Some a) (Some a) (allocation_pending w) (heic_adopted w)))
    | Err _ => (RFailed, stop_playback w)
    end.

Definition rgba_frame (w : State) : option SessionLock.RgbaFrame :=
  match frame w with
  | Some (Rgba width height pixels) => SessionLock.rgba_new width height pixels
  | _ => None
  end.
Definition has_frame (w : State) : bool := is_some (frame w).

(** ** Runs

    What happens to a state: its operations, and updates that arrive in a
    source. *)
Inductive Op :=
| OReceive
| OPrepare
| OFinish (r : result unit Handle)
| OStartHeic (s : Settings) (r : result rstring Source)
| OArrive (u : Update) (failed : bool).

Definition arrive (u : Update) (failed : bool) (o : option Source) : option Source :=
  (λ s, mkSource (Some u) (has_failed s || failed)) <$> o.

Definition run_op (w : State) (o : Op) : State :=
  match o with
  | OReceive => (receive_latest w).2
  | OPrepare => (prepare_latest w).2
  | OFinish r => (finish_allocation r w).2
  | OStartHeic s r => start_heic_source (λ _ _ _, r) s w
  | OArrive u f => mkState (arrive u f (player w)) (arrive u f (heic w)) (poster w) (frame w) (allocation w)
                     (allocation_pending w) (heic_adopted w)
  end.
Definition run_ops (w : State) (os : list Op) : State := foldl run_op w os.

(** ** Properties *)

(** What holds of a state that was started with a poster or shows something:
    one source at most, a picture always, and the picture that the renderer
    holds is the one shown. *)
Record wf (w : State) : Prop := {
  wf_one_source : player w = None ∨ heic w = None;
  wf_frame : is_Some (frame w);
  wf_allocation a : allocation w = Some a → frame w = Some a;
}.

Lemma wf_poster_only p : wf (poster_only (Some p)).
Proof. by split; [left|eexists|]. Qed.

Lemma start_wf load packaged sp sh s w p :
  load (catalog s) = Ok p → start load packaged sp sh s = Some w → wf w.
Proof.
  intros Hp H. unfold start in H. rewrite Hp in H. cbn [ok] in H. destruct (heic_path s) as [path|].
  - injection H as <-. unfold start_heic. destruct (negb _); [apply wf_poster_only|].
    destruct (sh path _ _); [|apply wf_poster_only]. by split; [left|eexists|].
  - destruct (negb _); [injection H as <-; apply wf_poster_only|].
    apply bind_Some in H as (x & _ & [= <-]). destruct (mbind _ _); [|apply wf_poster_only].
    by split; [right|eexists|].
Qed.

Lemma take_wf w : wf w → wf (take_latest w).2.
Proof.
  intros [H1 H2 H3]. unfold take_latest. destruct (p ← player w; latest p); split; cbn; try done;
    destruct H1 as [-> | ->]; cbn; auto.
Qed.
Lemma stop_wf w : wf w → wf (stop_playback w).
Proof. intros [H1 [f Hf] H3]. split; cbn; rewrite ?Hf in *; [by left|by eexists|done]. Qed.
Lemma adopt_wf w : wf w → wf (note_heic_adoption w).
Proof. intros []. unfold note_heic_adoption. destruct (_ || _); by split. Qed.

Lemma run_op_wf w o : wf w → wf (run_op w o).
Proof.
  intros Hw. destruct o as [| |r|s r|u f]; cbn.
  - unfold receive_latest. pose proof (take_wf w Hw) as Ht. destruct (take_latest w) as [[[f|]|] w1]; cbn in *; [|by apply stop_wf|done].
    apply adopt_wf. destruct Ht. by split; [|eexists|].
  - unfold prepare_latest. destruct (allocation_pending w); [done|]. pose proof (take_wf w Hw) as Ht.
    destruct (take_latest w) as [[[f|]|] w1]; cbn in *; [|by apply stop_wf|done]. by destruct Ht.
  - unfold finish_allocation. destruct (negb _); [done|].
    assert (wf (mkState (player w) (heic w) (poster w) (frame w) (allocation w) false (heic_adopted w))) as H1 by by destruct Hw.
    unfold stop_after_terminal_failure. destruct (_ || _); [by apply stop_wf|].
    destruct r as [a|]; [|by apply stop_wf]. apply adopt_wf. destruct H1. by split; [|eexists|].
  - unfold start_heic_source. destruct (_ || _) eqn:E; [done|]. destruct (heic_path s); [|done]. destruct r; [|done].
    destruct Hw. simp_bool. split; cbn; [|done..]. left. by destruct (player w).
  - destruct Hw as [H1 H2 H3]. split; cbn; [|done..]. destruct H1 as [-> | ->]; auto.
Qed.

(** The background never goes away: from a start that had a poster, whatever
    arrives, fails or is refused by the renderer, in any order, there is a
    picture to show, there is one source at most, and the picture whose memory
    the renderer keeps is the one shown. *)
Theorem background_never_lost load packaged sp sh s w p os :
  load (catalog s) = Ok p → start load packaged sp sh s = Some w →
  wf (run_ops w os) ∧ has_frame (run_ops w os) = true.
Proof.
  intros Hp Hw%(start_wf _ _ _ _ _ _ p); [|done].
  assert (wf (run_ops w os)) as H.
  { revert w Hw. induction os as [|o os IH]; intros w Hw; [done|]. cbn. by apply IH, run_op_wf. }
  split; [done|]. destruct (wf_frame _ H) as [f Hf]. unfold has_frame. by rewrite Hf.
Qed.

(** The handshake with the renderer: while an image is being allocated no other
    is handed out, and an answer nobody waits for changes nothing.  A failure
    that arrived in between wins over the image: the sources stop and what was
    shown stays. *)
Theorem allocation_handshake w r u h w1 :
  prepare_latest w = (Some h, w1) →
  prepare_latest (run_op w1 (OArrive u false)) = (None, run_op w1 (OArrive u false)) ∧
  (finish_allocation r (finish_allocation r w1).2).1 = Unchanged ∧
  (failed_source (player w1) || failed_source (heic w1) = false →
    (finish_allocation (Ok h) w1).1 = RFrame ∧ frame (finish_allocation (Ok h) w1).2 = Some h) ∧
  (is_Some (player w1) ∨ is_Some (heic w1) → is_Some (frame w1) →
    let w2 := (finish_allocation r (run_op w1 (OArrive UFailed true))).2 in
    player w2 = None ∧ heic w2 = None ∧ frame w2 = frame w1 ∧ (receive_latest w2).1 = Unchanged).
Proof.
  intros H. unfold prepare_latest in H. destruct (allocation_pending w) eqn:Ea; [done|].
  destruct (take_latest w) as [[[f|]|] w0] eqn:Et; simplify_eq. split; [done|]. split.
  { unfold finish_allocation. cbn. unfold stop_after_terminal_failure. cbn. destruct (_ || _); [done|].
    destruct r; unfold note_heic_adoption; cbn; [|done]. by destruct (_ || _). }
  split.
  { intros Hno. cbn in Hno. unfold finish_allocation, stop_after_terminal_failure. cbn. rewrite Hno.
    unfold note_heic_adoption. cbn. by destruct (negb (is_some (heic w0)) || heic_adopted w0). }
  intros Hsrc [f0 Hf]. cbn in Hf, Hsrc.
  destruct (player w0) as [s1|] eqn:E1, (heic w0) as [s2|] eqn:E2;
    unfold finish_allocation, stop_after_terminal_failure, failed_source; cbn; rewrite ?E1, ?E2; cbn;
    rewrite ?orb_true_r; cbn; rewrite ?Hf; cbn; try done.
  by destruct Hsrc as [[? ?]|[? ?]].
Qed.

(** The renderer decides before a decoder runs: a greeter that starts on a
    dynamic HEIC shows its poster and starts no source until it is told to,
    and then at most one. *)
Theorem heic_waits_for_renderer load packaged sp sh s w os :
  selects_dynamic_heic s = true → start_deferred load packaged sp sh s = Some w →
  Forall (λ o, match o with OStartHeic _ _ => False | _ => True end) os →
  player (run_ops w os) = None ∧ heic (run_ops w os) = None ∧
  frame (run_ops w os) = ok (load (catalog s)).
Proof.
  intros Hs H Hos. unfold start_deferred in H. rewrite Hs in H. injection H as <-.
  assert (∀ w, player w = None → heic w = None → frame w = ok (load (catalog s)) → frame w = poster w →
    allocation_pending w = false →
    player (run_ops w os) = None ∧ heic (run_ops w os) = None ∧ frame (run_ops w os) = ok (load (catalog s))) as H;
    [|by apply H].
  induction Hos as [|o os Ho _ IH]; intros w H1 H2 H3 H4 H5; [done|]. cbn. apply IH; clear IH;
    destruct o as [| |r|s' r|u f]; try done; cbn;
    unfold receive_latest, prepare_latest, finish_allocation, take_latest; rewrite ?H1, ?H2, ?H5; cbn; rewrite ?H1, ?H2, ?H5; done.
Qed.

(** ** Witnesses *)

Definition black : Handle := Rgba 1 1 (to_u8 <$> [0; 0; 0; 255]).
Definition heic_settings : Settings :=
  mkSettings TahoeBeach (Some (bytes_of "/a.d/x.HEIC")) true false DynamicModel.Automatic.
Definition quiet : Source := mkSource None false.

Lemma background_never_lost_witness :
  ∃ w, start (λ _, Ok black) (λ _, Err []) (λ _ _ _, Err []) (λ _ _ _, Ok quiet) heic_settings = Some w ∧
    has_frame (run_ops w [OArrive UFailed true; OReceive]) = true.
Proof.
  eexists. split; [vm_compute; reflexivity|].
  apply (background_never_lost (λ _, Ok black) (λ _, Err []) (λ _ _ _, Err []) (λ _ _ _, Ok quiet) heic_settings _ black);
    [reflexivity|vm_compute; reflexivity].
Defined.

Definition with_frame : State :=
  mkState None (Some (mkSource (Some (UFrame (mkFrame 1 1 (to_u8 <$> [9; 9; 9; 255]) None))) false))
    (Some black) (Some black) None false false.
Lemma allocation_handshake_witness :
  ∃ h w1, prepare_latest with_frame = (Some h, w1) ∧
    frame (finish_allocation (Ok h) (run_op w1 (OArrive UFailed true))).2 = Some black.
Proof.
  destruct (prepare_latest with_frame) as [[h|] w1] eqn:E; [|exfalso; vm_compute in E; discriminate].
  exists h, w1. split; [done|].
  destruct (allocation_handshake with_frame (Ok h) UFailed h w1 E) as (_ & _ & _ & H).
  vm_compute in E. injection E as <- <-. destruct H as (_ & _ & H & _).
  - right. eexists. reflexivity.
  - eexists. reflexivity.
  - exact H.
Defined.

Lemma heic_waits_for_renderer_witness :
  ∃ w, start_deferred (λ _, Ok black) (λ _, Err []) (λ _ _ _, Err []) (λ _ _ _, Ok quiet) heic_settings = Some w ∧
    heic w = None ∧ heic (run_op w (OStartHeic heic_settings (Ok quiet))) = Some quiet.
Proof.
  eexists. split; [vm_compute; reflexivity|]. split; [|vm_compute; reflexivity].
  refine (proj1 (proj2 (heic_waits_for_renderer (λ _, Ok black) (λ _, Err []) (λ _ _ _, Err []) (λ _ _ _, Ok quiet)
    heic_settings _ [] _ _ _))); [vm_compute; reflexivity..|done].
Defined.
