(* ===== verification/HeicWorker.v ===== *)
(** * The HEIC worker ([src/wallpaper.rs])

    The loop of the decoder process: clocks, suspends, decode requests and what
    it writes to its pipe.  What the outside answers in one pass of the loop is
    a [Turn]: the clock samples, the decoder's result, the writes that the pipe
    accepts.  A [Duration] is its number of nanoseconds. *)

From S2P Require Import Prelude Utf8 DynamicModel Playback.
From S2P Require HeicRelay.

(** ** Clocks *)

Definition SUSPEND_DETECTION_THRESHOLD : Z := 10 * 1000000.

Record SuspendDetector := mkDetector { offset : option Z }.

Definition observe (o : Z) (d : SuspendDetector) : bool * SuspendDetector :=
  match offset d with
  | None => (false, mkDetector (Some o))
  | Some previous =>
    if o <=? previous then (false, d)
    else (SUSPEND_DETECTION_THRESHOLD <? o - previous, mkDetector (Some o))
  end.

(** [is_some_and(|offset| self.observe(offset))]. *)
Definition sample (o : option Z) (d : SuspendDetector) : bool * SuspendDetector :=
  match o with Some o => observe o d | None => (false, d) end.

(** [tv_sec] and [tv_nsec] as signed 64-bit numbers, the second cast to [u32]
    (the kernel keeps it below a second). *)
Definition timespec_duration (tv_sec tv_nsec : Z) : Z :=
  Z.max 0 tv_sec * NANOS + (Z.max 0 tv_nsec) mod 2 ^ 32.

(** The three attempts, each a monotonic, a boot-time and a monotonic clock. *)
Fixpoint suspend_clock_offset_loop (samples : list (Z * Z * Z)) : option Z :=
  match samples with
  | [] => None
  | (before, boottime, after) :: samples =>
    let sampling := saturating_sub after before in
    if sampling <=? SUSPEND_DETECTION_THRESHOLD then
      midpoint ← duration_checked_add before (sampling / 2);
      Some (saturating_sub boottime midpoint)
    else suspend_clock_offset_loop samples
  end.
Definition suspend_clock_offset (samples : list (Z * Z * Z)) : option Z :=
  suspend_clock_offset_loop (take 3 samples).

Definition ok {E A} (r : result E A) : option A := match r with Ok a => Some a | Err _ => None end.

(** The fields of [chrono::Local::now()]: date, time, nanosecond, and
    [offset().fix().local_minus_utc()]. *)
Record LocalNow := mkNow {
  n_year : Z; n_month : Z; n_day : Z; n_hour : Z; n_minute : Z; n_second : Z;
  n_nanosecond : Z; n_offset : Z;
}.
Definition current_clock (now : LocalNow) : option ClockSnapshot :=
  date ← ok (civil_date_new (n_year now) (n_month now mod 256) (n_day now mod 256));
  time ← ok (civil_time_new (n_hour now mod 256) (n_minute now mod 256) (n_second now mod 256));
  ok (new_with_nanosecond date time (n_nanosecond now) (n_offset now)).

(** ** The worker's state *)

(** [counter] is the process-wide generation counter; [out] and [frames] are
    what went into the pipe, as bytes and as whole frames; [reports] counts the
    diagnostics. *)
Record Worker := mkWorker {
  playback : Playback;
  counter : Z;
  suspend : SuspendDetector;
  decode_failure_reported : bool;
  reports : nat;
  out : list byte;
  frames : list RgbaFrame;
}.

Definition set_playback (c : Z) (p : Playback) (w : Worker) : Worker :=
  mkWorker p c (suspend w) (decode_failure_reported w) (reports w) (out w) (frames w).
Definition set_suspend (d : SuspendDetector) (w : Worker) : Worker :=
  mkWorker (playback w) (counter w) d (decode_failure_reported w) (reports w) (out w) (frames w).

(** [HeicDiagnostics]. *)
Definition decode_failure (w : Worker) : Worker :=
  if decode_failure_reported w then w
  else mkWorker (playback w) (counter w) (suspend w) true (S (reports w)) (out w) (frames w).
Definition decoded (w : Worker) : Worker :=
  mkWorker (playback w) (counter w) (suspend w) false (reports w) (out w) (frames w).

Inductive End :=
| Stopped
| SinkGone
| Panicked.

(** A pass either goes on or ends the loop, in the state it leaves. *)
Definition Pass : Type := result (End * Worker) Worker.

(** [write_heic_frame] into a pipe that accepts it all, or breaks after so many
    bytes. *)
Definition write_frame (breaks : option nat) (f : RgbaFrame) (w : Worker) : bool * Worker :=
  match HeicRelay.write_heic_frame f with
  | None => (false, w)
  | Some bs =>
    let write bs fs := mkWorker (playback w) (counter w) (suspend w) (decode_failure_reported w)
                         (reports w) (out w ++ bs) (frames w ++ fs) in
    match breaks with
    | None => (true, write bs [f])
    | Some k => (false, write (take k bs) [])
    end
  end.

(** [ProcessSink::publish], and the return of its caller when it fails. *)
Definition publish (breaks : option nat) (w : Worker) : Pass :=
  match frame (playback w) with
  | None => Ok w
  | Some f => let '(accepted, w) := write_frame breaks f w in
              if accepted then Ok w else Err (SinkGone, w)
  end.
Definition publish_if (b : bool) (breaks : option nat) (w : Worker) : Pass :=
  if b then publish breaks w else Ok w.

Definition apply_heic_schedule (clock : ClockSnapshot) (monotonic : Z) (discontinuity : bool) (w : Worker) :
    result (End * Worker) (bool * Worker) :=
  '(c, p, outcome) ← ok_or (Panicked, w)
    (if discontinuity then resynchronize_after_discontinuity clock monotonic (counter w) (playback w)
     else synchronize clock monotonic (counter w) (playback w));
  Ok (presentation_changed outcome, set_playback c p w).

Definition finish_heic_decode (request : DecodeRequest) (r : option RgbaFrame) (clock : ClockSnapshot)
    (monotonic : Z) (discontinuity : bool) (alloc : option Z) (w : Worker) :
    result (End * Worker) (bool * Worker) :=
  '(publish, w) ← apply_heic_schedule clock monotonic discontinuity w;
  let '(c, p, outcome) := complete_decode request r monotonic alloc (counter w) (playback w) in
  let w := set_playback c p w in
  Ok match outcome with
     | Presented | Transitioning => (true, decoded w)
     | Failed | Rejected => (publish, decode_failure w)
     | Ignored => (publish, w)
     end.

(** ** The loop *)

(** What one pass meets.  [breaks] are the writes of its three publications. *)
Record Turn := mkTurn {
  stop_at_head : bool;
  time_at_head : option ClockSnapshot * Z;
  offset_at_head : option Z;
  decode_result : ImageReference → option RgbaFrame;
  stop_after_decode : bool;
  time_after_decode : option ClockSnapshot * Z;
  offset_after_decode : option Z;
  blend_buffer : option Z;
  breaks : option nat * option nat * option nat;
}.

Definition HEIC_TRANSITION_INTERVAL : Z := 16 * 1000000.
Definition HEIC_POLL_INTERVAL : Z := 100 * 1000000.
Definition delay (p : Playback) : Z :=
  if is_transitioning p then HEIC_TRANSITION_INTERVAL else HEIC_POLL_INTERVAL.

Section Loop.
Context (initial_clock : ClockSnapshot).

Definition complete_request (t : Turn) (w : Worker) : Pass :=
  let '(p, request) := take_decode_request (playback w) in
  let w := set_playback (counter w) p w in
  match request with
  | None => Ok w
  | Some request =>
    let r := decode_result t (image request) in
    if stop_after_decode t then Err (Stopped, w)
    else
      let '(clock, monotonic) := time_after_decode t in
      let '(discontinuity, d) := sample (offset_after_decode t) (suspend w) in
      '(publish, w) ← finish_heic_decode request r (default initial_clock clock) monotonic discontinuity
                        (blend_buffer t) (set_suspend d w);
      publish_if publish (snd (breaks t)) w
  end.

(** One pass of the loop, up to its sleep. *)
Definition pass (t : Turn) (w : Worker) : Pass :=
  if stop_at_head t then Err (Stopped, w)
  else
    let '(clock, monotonic) := time_at_head t in
    let '(discontinuity, d) := sample (offset_at_head t) (suspend w) in
    '(changed, w) ← apply_heic_schedule (default initial_clock clock) monotonic discontinuity (set_suspend d w);
    w ← publish_if changed (fst (fst (breaks t))) w;
    let '(p, advanced) := advance_transition monotonic (playback w) in
    w ← publish_if advanced (snd (fst (breaks t))) (set_playback (counter w) p w);
    complete_request t w.

Fixpoint passes (ts : list Turn) (w : Worker) : Pass :=
  match ts with
  | [] => Ok w
  | t :: ts => w ← pass t w; passes ts w
  end.
End Loop.

(** [run_heic_with_sink] for a document that opened, from the first clock on;
    [None] is the panic of an empty schedule. *)
Definition start (metadata : Metadata) (primary : ImageReference) (appearance : AppearancePreference)
    (reduced_motion : bool) (first_offset : option Z) (clock : ClockSnapshot) (monotonic c : Z) : option Worker :=
  '(c, p) ← new metadata primary appearance clock monotonic reduced_motion c;
  Some (mkWorker p c (mkDetector first_offset) false 0 [] []).

(** What the process writes before its loop, and the loop: the file may not
    open and the clock may not read, and then the failure tag is all. *)
Definition run_heic_with_sink (document : option (Metadata * ImageReference)) (appearance : AppearancePreference)
    (reduced_motion : bool) (first_offset : option Z) (first_time : option ClockSnapshot * Z) (c : Z)
    (ts : list Turn) : list byte * option Pass :=
  match document, fst first_time with
  | Some (metadata, primary), Some clock =>
    ([], w ← start metadata primary appearance reduced_motion first_offset clock (snd first_time) c;
         Some (passes clock ts w))
  | _, _ => ([to_u8 HeicRelay.HEIC_FAILED_TAG], None)
  end.

(** [run_heic_worker]: nothing at all unless the process is bound to its
    parent, by the answers of [prctl] and [getppid]. *)
Definition bind_to_parent (expected_parent requested parent : Z) : bool :=
  (requested =? 0) && (parent =? expected_parent).
Definition run_heic_worker (expected_parent requested parent : Z) (run : list byte * option Pass) :
    list byte * option Pass :=
  if bind_to_parent expected_parent requested parent then run else ([], None).

(** The command line of the process. *)
Definition appearance_argument (a : AppearancePreference) : string :=
  match a with Automatic => "automatic" | Light => "light" | Dark => "dark" end.
Definition worker_command (path : list byte) (appearance : AppearancePreference) (reduced_motion : bool)
    (pid : rstring) : list (list byte) :=
  [bytes_of "heic-worker"; bytes_of "--file"; path; bytes_of "--appearance";
   bytes_of (appearance_argument appearance); bytes_of "--parent-pid"; encode pid]
  ++ (if reduced_motion then [bytes_of "--reduce-motion"] else []).
