(* ===== verification/HeicWorkerProofs.v ===== *)
(** * The HEIC worker: proofs

    What a worker writes is what the greeter's relay reads: every frame is one
    the reader accepts, so the greeter publishes what the worker wrote; and
    after every pass of its loop the last it wrote is what its playback shows. *)

From S2P Require Import Prelude Utf8 DynamicModel Playback PlaybackProofs HeicWorker.
From S2P Require HeicRelay HeicRelayProofs.

(** ** The sides of the frames a playback keeps *)

Section Sides.
Context (P : Z → Z → Prop).

Definition side_ok (f : RgbaFrame) : Prop := P (width f) (height f).
Definition sides (p : Playback) : Prop := Forall side_ok (retained p).

Lemma sides_shown p p' : presented p' = presented p → transition p' = transition p → sides p → sides p'.
Proof using. unfold sides, retained. by intros -> ->. Qed.

Lemma sides_queue i s c c' p p' : queue i s c p = (c', p') → sides p → sides p'.
Proof using. unfold queue, next_generation. intros [= _ <-]. by apply sides_shown. Qed.

(** One of the frames of an interrupted dissolve stays. *)
Lemma sides_interrupt p t f i : transition p = Some t → f = blended t ∨ f = to t → sides p →
  sides (set_shown (Some f) i None p).
Proof using.
  unfold sides, retained. intros Ht Hf H. rewrite Ht in H. cbn. apply Forall_app in H as [_ H].
  constructor; [|done]. rewrite !Forall_cons in H. naive_solver.
Qed.

Lemma synchronize_sides clock m force c p c' p' o :
  synchronize_inner clock m force c p = Some (c', p', o) → sides p →
  sides p' ∧ (c' = c ∨ c' = wrapping_add 64 c 1).
Proof using.
  intros H Hp. unfold synchronize_inner in H. apply bind_Some in H as (sel & _ & H). cbv zeta in H.
  match type of H with context [let '(_, _) := ?x in _] => destruct x as [[c1 p1] v] eqn:E end.
  injection H as <- <- <-.
  assert (∀ q, sides q → ∀ s i c2 q2, queue i s c q = (c2, q2) → sides q2 ∧ (c2 = c ∨ c2 = wrapping_add 64 c 1)) as Hq.
  { intros q Hs s i c2 q2 Eq. split; [by eapply sides_queue|]. unfold queue, next_generation in Eq.
    injection Eq as <- _. by right. }
  assert (sides p1 ∧ (c1 = c ∨ c1 = wrapping_add 64 c 1)) as [H1 H2]; [|split; [by eapply sides_shown, H1|done]].
  destruct (negb (sel =? selected p)).
  - destruct (queue _ _ _ _) as [c2 p2] eqn:Eq in E. injection E as <- <- _. eapply Hq; [|exact Eq].
    destruct (transition p) as [t|] eqn:Et; [|done].
    apply (sides_shown (set_shown (Some (blended t)) None None p)); [done..|].
    by apply (sides_interrupt p t); [|left|].
  - destruct (force || _).
    + set (q := match transition p with Some t => set_shown (Some (to t)) (Some (to_image t)) None p | None => p end).
      assert (sides q) as Hs.
      { unfold q. destruct (transition p) eqn:Et; [|done]. eapply sides_interrupt; eauto. }
      assert ((match transition p with
        | Some t => (set_shown (Some (to t)) (Some (to_image t)) None p,
             negb (bool_decide (pixels (blended t) = pixels (to t))))
        | None => (p, false) end) = (q, match transition p with
        | Some t => negb (bool_decide (pixels (blended t) = pixels (to t))) | None => false end)) as Eq
        by (unfold q; by destruct (transition p)).
      rewrite Eq in E. clear Eq. clearbody q.
      destruct (from_option _ false (pending q)); [|destruct (_ && _)].
      * destruct (queue _ _ _ _) as [c2 p2] eqn:Eq in E. injection E as <- <- _. by eapply Hq.
      * destruct (queue _ _ _ _) as [c2 p2] eqn:Eq in E. injection E as <- <- _.
        destruct (Hq q Hs _ _ _ _ Eq). split; [by eapply sides_shown|done].
      * injection E as <- <- _. auto.
    + destruct (_ && _).
      * destruct (queue _ _ _ _) as [c2 p2] eqn:Eq in E. injection E as <- <- _.
        destruct (Hq p Hp _ _ _ _ Eq). split; [by eapply sides_shown|done].
      * injection E as <- <- _. auto.
Qed.

Lemma advance_sides m p : sides p → sides (fst (advance_transition m p)).
Proof using.
  intros Hp. unfold advance_transition. destruct (transition p) as [t|] eqn:Et; [|done].
  destruct (_ <=? _); [eapply sides_interrupt; eauto|].
  unfold blend_into. destruct (blend_pixels _ _ _ _) as [px ch]. cbn. unfold sides, retained in *.
  rewrite Et in Hp. cbn. apply Forall_app in Hp as [H1 H2]. apply Forall_app. split; [done|].
  rewrite !Forall_cons in *. naive_solver.
Qed.

Lemma take_sides p : sides p → sides (fst (take_decode_request p)).
Proof using. unfold take_decode_request. intros. by repeat case_match. Qed.

Lemma complete_sides r res m cap c p c' p' o :
  complete_decode r res m cap c p = (c', p', o) → sides p → (∀ f, res = Some f → side_ok f) →
  sides p' ∧ (c' = c ∨ c' = wrapping_add 64 c 1).
Proof using.
  intros H Hp Hf. unfold complete_decode, complete_decode_with_limit in H.
  destruct (pending p) as [d|]; [|injection H as <- <- _; auto].
  destruct (_ || _); [injection H as <- <- _; auto|]. cbv zeta in H.
  assert (∀ q, sides q → ∀ i c2 q2, queue_primary_fallback i c q = (c2, q2) → sides q2 ∧ (c2 = c ∨ c2 = wrapping_add 64 c 1)) as Hq.
  { intros q Hs i c2 q2 Eq. unfold queue_primary_fallback in Eq. destruct (_ || _); [injection Eq as <- <-; auto|].
    split; [by eapply sides_queue|]. unfold queue, next_generation in Eq. injection Eq as <- _. by right. }
  destruct res as [f|].
  2:{ match type of H with (?x, _) = _ => destruct x as [c1 p1] eqn:E end. injection H as <- <- <-. by eapply Hq, E. }
  destruct (negb (valid_frame f)).
  { match type of H with (?x, _) = _ => destruct x as [c1 p1] eqn:E end. injection H as <- <- <-. by eapply Hq, E. }
  specialize (Hf f eq_refl).
  set (q := if image r =? selected (set_pending None p) then set_retry None (set_pending None p)
            else set_pending None p) in H.
  assert (sides q) as Hs by (unfold q; by destruct (_ =? _)). clearbody q.
  assert (sides (present_now f (image r) q)) as Hnow by (by repeat constructor).
  destruct (presented q) as [prev|] eqn:Ep; [|injection H as <- <- _; auto].
  destruct (transition_started_at d) as [st|]; [|injection H as <- <- _; auto].
  destruct (_ || _); [injection H as <- <- _; auto|].
  destruct (blend _ _ _ _ _) as [b|] eqn:Eb; [|injection H as <- <- _; auto].
  injection H as <- <- _. split; [|by left]. apply advance_sides.
  unfold blend in Eb. destruct (_ <? _); [done|]. apply bind_Some in Eb as (x & _ & [= <-]).
  unfold sides, retained in *. rewrite Ep in Hs. apply Forall_app in Hs as [Hprev _].
  cbn in Hprev |- *. rewrite Forall_cons in Hprev. repeat constructor; by try apply Hprev.
Qed.
End Sides.

(** ** What a playback shows, and which operations say that it changed *)

Definition picture (f : RgbaFrame) : Z * Z * list byte := (width f, height f, pixels f).

(** [changed]: there is something to show.  Otherwise the playback still shows
    [before]. *)
Definition shows (changed : bool) (before : option RgbaFrame) (p : Playback) : Prop :=
  if changed then is_Some (frame p) else picture <$> before = picture <$> frame p.

Definition wf_dissolve (p : Playback) : Prop := ∀ t, transition p = Some t → wf_transition t.

Lemma shows_finished t p : wf_transition t → frame p = Some (to t) →
  shows (negb (bool_decide (pixels (blended t) = pixels (to t)))) (Some (blended t)) p.
Proof.
  intros [_ _ _ _ [Ew Eh]] Ef. unfold shows. case_bool_decide as E; cbn; rewrite Ef; [|done].
  cbn. unfold picture. by rewrite Ew, Eh, E.
Qed.

Lemma blend_pixels_changed out a b w : snd (blend_pixels out a b w) = false → fst (blend_pixels out a b w) = out.
Proof.
  revert a b. induction out as [|o out IH]; intros [|x a] [|y b]; cbn; try done.
  specialize (IH a b). destruct (blend_pixels out a b w) as [rest ch]. cbn in *.
  case_bool_decide; cbn; [intros ?; f_equal; auto|done].
Qed.

Lemma advance_shows m p p' b : wf_dissolve p → advance_transition m p = (p', b) → shows b (frame p) p'.
Proof.
  unfold advance_transition, wf_dissolve. intros Hp H. destruct (transition p) as [t|] eqn:Et; [|by injection H as <- <-].
  assert (frame p = Some (blended t)) as -> by (unfold frame; by rewrite Et).
  destruct (_ <=? _); [injection H as <- <-; by apply shows_finished; [apply Hp|]|]. cbv zeta in H.
  pose proof (blend_pixels_changed (pixels (blended t)) (pixels (from t)) (pixels (to t))
    (Z.min (saturating_sub m (started_at t) * 256 / DISSOLVE_DURATION) 256)) as Hc.
  unfold blend_into in H. destruct (blend_pixels _ _ _ _) as [px ch]. injection H as <- <-. cbn in Hc.
  destruct ch; [by eexists|]. unfold shows, frame, picture. cbn. by rewrite Hc.
Qed.

Lemma synchronize_shows clock m force c p c' p' o : wf_dissolve p →
  synchronize_inner clock m force c p = Some (c', p', o) → shows (presentation_changed o) (frame p) p'.
Proof.
  intros Hp H. unfold synchronize_inner in H. apply bind_Some in H as (sel & _ & H). cbv zeta in H.
  match type of H with context [let '(_, _) := ?x in _] => destruct x as [[c1 p1] v] eqn:E end.
  injection H as <- <- <-. cbn [presentation_changed]. change (shows v (frame p) p1).
  destruct (negb (sel =? selected p)).
  { unfold shows, frame, queue in E |- *. destruct (transition p) as [t|] eqn:Et; injection E as _ <- <-; cbn; by rewrite ?Et. }
  destruct (force || _).
  2: { unfold queue in E. destruct (_ && _); injection E as _ <- <-; done. }
  destruct (transition p) as [t|] eqn:Et.
  - assert (frame p = Some (blended t)) as -> by (unfold frame; by rewrite Et).
    unfold queue, next_generation in E. repeat case_match; simplify_eq; (apply shows_finished; [by apply Hp|done]).
  - unfold queue, next_generation in E. by repeat case_match; simplify_eq.
Qed.

Lemma complete_shows r res m cap c p c' p' o : complete_decode r res m cap c p = (c', p', o) →
  match o with Presented | Transitioning => is_Some (frame p') | _ => frame p' = frame p end.
Proof.
  intros H. unfold complete_decode, complete_decode_with_limit in H.
  destruct (pending p) as [d|]; [|by injection H as _ <- <-].
  destruct (_ || _); [by injection H as _ <- <-|]. cbv zeta in H.
  assert (∀ i q, ∀ c' q', queue_primary_fallback i c q = (c', q') → frame q' = frame q) as Hq
    by (intros i q; unfold queue_primary_fallback; destruct (_ || _); by intros c2 q2 [= _ <-]).
  destruct res as [f|]; [|by injection H as E <-; apply Hq in E as ->].
  destruct (negb (valid_frame f)); [by injection H as E <-; apply Hq in E as ->|].
  destruct (presented _) as [prev|]; [|by injection H as _ <- <-].
  destruct (transition_started_at d) as [st|]; [|by injection H as _ <- <-].
  destruct (_ || _); [by injection H as _ <- <-|].
  destruct (blend _ _ _ _ _) as [b|]; [|by injection H as _ <- <-].
  assert (∀ q, is_Some (transition q) → is_Some (frame (fst (advance_transition m q)))) as Ha.
  { intros q [t Et]. unfold advance_transition. rewrite Et. destruct (_ <=? _); [done|]. by destruct (blend_into _ _ _ _). }
  injection H as _ <- <-. destruct (is_transitioning _); by apply Ha.
Qed.

(** ** A schedule that has a point at any time *)

Definition selects (p : Playback) : Prop := match mode p with Static => True | Time l => l ≠ [] end.

Lemma selected_point_some l c : l ≠ [] → is_Some (selected_point l c).
Proof.
  intros Hl. unfold selected_point, or_else. destruct (List.find _ _); [done|].
  destruct l as [|x l] using rev_ind; [done|]. by rewrite last_snoc.
Qed.

Lemma queue_mode i s c p : mode (snd (queue i s c p)) = mode p.
Proof. done. Qed.

Lemma synchronize_selects clock m force c p : selects p → ∃ c' p' o,
  synchronize_inner clock m force c p = Some (c', p', o) ∧ selects p'.
Proof.
  intros Hp. unfold synchronize_inner. match goal with |- context [mbind _ ?x] => destruct x as [sel|] eqn:Esel end.
  2: { exfalso. unfold selects in Hp. destruct (mode p) as [|l]; [done|].
       destruct (selected_point_some l clock Hp) as [x Ex]. by rewrite Ex in Esel. }
  cbn [mbind option_bind]. cbv zeta.
  match goal with |- context [let '(_, _) := ?x in _] => destruct x as [[c1 p1] v] eqn:E end.
  do 3 eexists. split; [done|]. unfold selects. cbn. assert (mode p1 = mode p) as ->; [|done].
  repeat first [ progress cbn in E | case_match | progress simplify_eq ]; done.
Qed.

Lemma selects_mode p p' : mode p' = mode p → selects p → selects p'.
Proof. unfold selects. by intros ->. Qed.
Lemma advance_mode m p : mode (fst (advance_transition m p)) = mode p.
Proof. unfold advance_transition. repeat case_match; try done. Qed.
Lemma take_mode p : mode (fst (take_decode_request p)) = mode p.
Proof. unfold take_decode_request. by repeat case_match. Qed.
Lemma take_frame p : frame (fst (take_decode_request p)) = frame p.
Proof. unfold take_decode_request. by repeat case_match. Qed.
Lemma complete_mode r res m cap c p : mode (snd (fst (complete_decode r res m cap c p))) = mode p.
Proof.
  unfold complete_decode, complete_decode_with_limit, queue_primary_fallback, present_now.
  destruct (pending p) as [d|]; [|done]. destruct (_ || _); [done|]. cbv zeta.
  assert (∀ i q, mode (snd (if negb (is_none (presented q)) || (i =? primary q) then (c, q) else queue (primary q) None c q)) = mode q)
    as Hq by (intros; by destruct (_ || _)).
  destruct res as [f|]; [|by cbn [fst]; rewrite Hq]. destruct (negb (valid_frame f)); [by cbn [fst]; rewrite Hq|].
  set (q := if image r =? selected (set_pending None p) then _ else _).
  assert (mode q = mode p) as <- by (unfold q; by destruct (_ =? _)). clearbody q.
  destruct (presented q); [|done]. destruct (transition_started_at d); [|done]. destruct (_ || _); [done|].
  destruct (blend _ _ _ _ _); [|done]. cbn [fst snd]. by rewrite advance_mode.
Qed.

(** ** The invariant of the loop *)

Definition relay_sides (x y : Z) : Prop :=
  x ≤ HeicRelay.MAX_HEIC_FRAME_DIMENSION ∧ y ≤ HeicRelay.MAX_HEIC_FRAME_DIMENSION.

(** A frame that the greeter's reader accepts. *)
Definition shown_ok (f : RgbaFrame) : Prop := wf_pixels f ∧ side_ok relay_sides f.

Lemma shown_ok_relayable f : shown_ok f →
  HeicRelayProofs.well_sized (HeicRelayProofs.relayed f) ∧
  HeicRelay.write_heic_frame f = Some (HeicRelayProofs.encode_frame (HeicRelayProofs.relayed f)).
Proof.
  intros [(Hw & Hh & El & Hmax & _) [Sw Sh]].
  unfold HeicRelay.MAX_HEIC_FRAME_DIMENSION, MAX_FRAME_BYTES in *. split.
  - unfold HeicRelayProofs.well_sized. cbn. split; [lia|]. split; [lia|]. split; [done|].
    apply HeicRelayProofs.expected_frame_bytes_Some; [lia..|].
    unfold HeicRelay.MAX_HEIC_FRAME_DIMENSION, HeicRelay.MAX_HEIC_FRAME_BYTES. lia.
  - unfold HeicRelay.write_heic_frame. rewrite (proj2 (Z.ltb_lt _ _)) by lia.
    unfold HeicRelayProofs.encode_frame, HeicRelayProofs.header_of. cbn [HeicRelayProofs.relayed HeicRelay.width HeicRelay.height HeicRelay.pixels]. by rewrite <- !app_assoc.
Qed.

Definition written (w : Worker) (torn : list byte) : Prop :=
  Forall shown_ok (frames w) ∧
  out w = HeicRelayProofs.encode_all (HeicRelayProofs.relayed <$> frames w) ++ torn.

(** What has been written last is what the playback shows now. *)
Definition up_to_date (w : Worker) : Prop := picture <$> last (frames w) = picture <$> frame (playback w).

(** [behind]: a frame is there to be published.  Otherwise the writer is up to date. *)
Definition caught (behind : bool) (w : Worker) : Prop := shows behind (last (frames w)) (playback w).

(** [room] generations may still be drawn. *)
Record winv (room : Z) (behind : bool) (w : Worker) : Prop := {
  w_valid : valid_state (counter w, playback w);
  w_room : counter w + room + 1 < 2 ^ 64;
  w_sides : sides relay_sides (playback w);
  w_selects : selects (playback w);
  w_written : written w [];
  w_caught : caught behind w;
}.

(** A pass that went well, or ended with at most one frame torn. *)
Definition passed (room : Z) (r : Pass) : Prop :=
  match r with
  | Ok w => winv room false w
  | Err (e, w) => e ≠ Panicked ∧ ∃ f k, written w (take k (HeicRelayProofs.encode_frame f)) ∧
      (e = Stopped → k = 0%nat ∧ up_to_date w)
  end.

Lemma passed_bind room room' (m : Pass) (f : Worker → Pass) :
  passed room m → (∀ w, winv room false w → passed room' (f w)) → passed room' (m ≫= f).
Proof. destruct m as [w|[e w]]; cbn; auto. Qed.

Lemma winv_less room room' b w : room' ≤ room → winv room b w → winv room' b w.
Proof. intros ? []. split; try done. lia. Qed.

Lemma winv_suspend room b d w : winv room b w → winv room b (set_suspend d w).
Proof. intros []. by split. Qed.
Lemma winv_stopped room w : winv room false w → passed room (Err (Stopped, w)).
Proof. intros []. split; [done|]. by exists (HeicRelay.mkFrame 0 0 [] None), 0%nat. Qed.

Lemma winv_dissolve room b w : winv room b w → wf_dissolve (playback w).
Proof. intros [(_ & _ & Hi) _ _ _ _ _] t Et. by apply (i_transition _ _ Hi t Et). Qed.

Lemma winv_decoded room b w : winv room b w → winv room b (decoded w).
Proof. intros []. by split. Qed.
Lemma winv_failure room b w : winv room b w → winv room b (decode_failure w).
Proof. intros []. unfold decode_failure. destruct (decode_failure_reported w); by split. Qed.

(** What shows the change of a playback that is up to date. *)
Lemma caught_shows b p c w : up_to_date w → shows b (frame (playback w)) p → caught b (set_playback c p w).
Proof. unfold caught, shows, up_to_date. destruct b; [done|]. by intros <-. Qed.
Lemma caught_same p c b w : caught b w → frame p = frame (playback w) → caught b (set_playback c p w).
Proof. unfold caught, shows. cbn [playback set_playback frames]. by destruct b; intros H ->. Qed.

(** A change of the playback. *)
Lemma winv_playback room room' b b' c p w :
  winv room b w → step (counter w, playback w) (c, p) → 0 ≤ room' → c + room' + 1 < 2 ^ 64 →
  sides relay_sides p → selects p → caught b' (set_playback c p w) → winv room' b' (set_playback c p w).
Proof.
  intros [] Hs ? ? ? ? ?. split; cbn; try done. by destruct (step_ok _ _ w_valid0 Hs).
Qed.

Lemma publish_passed room breaks w : winv room true w → passed room (publish breaks w).
Proof.
  intros Hw. unfold publish. destruct (frame (playback w)) as [f|] eqn:Ef.
  2: { destruct (w_caught _ _ _ Hw) as [g Eg]. by rewrite Ef in Eg. }
  assert (shown_ok f) as Hf.
  { destruct Hw as [(_ & _ & Hi) _ Hs _ _ _]. cbn in Hi. unfold frame, or_else in Ef.
    unfold sides, retained in Hs. apply Forall_app in Hs as [Hs1 Hs2].
    destruct (transition (playback w)) as [t|] eqn:Et; cbn in Ef.
    - injection Ef as <-. destruct (i_transition _ _ Hi t Et) as (_ & _ & []). split; [done|].
      rewrite !Forall_cons in Hs2. naive_solver.
    - split; [by apply (i_presented _ _ Hi)|]. rewrite Ef in Hs1. by apply Forall_cons in Hs1 as [? _]. }
  destruct (shown_ok_relayable f Hf) as [_ Ewr]. unfold write_frame. rewrite Ewr.
  destruct Hw as [Hv Hr Hs Hm [Hall Hout] _]. destruct breaks as [k|]; cbn.
  - split; [done|]. exists (HeicRelayProofs.relayed f), k. split; [|done].
    split; cbn [frames out]; rewrite app_nil_r; [done|]. by rewrite Hout, app_nil_r.
  - split; try done; [|by unfold caught, shows; cbn; rewrite last_snoc, Ef].
    split; cbn [frames out]; [by rewrite Forall_app, Forall_singleton|].
    rewrite Hout, fmap_app. change (HeicRelayProofs.relayed <$> [f]) with [HeicRelayProofs.relayed f].
    by rewrite HeicRelayProofs.encode_all_snoc, !app_nil_r.
Qed.
Lemma publish_if_passed room b breaks w : winv room b w → passed room (publish_if b breaks w).
Proof. destruct b; [apply publish_passed|done]. Qed.

Lemma counter_next c r : 0 ≤ c → 0 ≤ r → c + (1 + r) + 1 < 2 ^ 64 → ∀ c', c' = c ∨ c' = wrapping_add 64 c 1 →
  c' + r + 1 < 2 ^ 64.
Proof. intros ? ? ? c' [->| ->]; [lia|]. unfold wrapping_add. rewrite Z.mod_small; lia. Qed.

Lemma schedule_passed room clock m disc w : 0 ≤ room → winv (1 + room) false w →
  ∃ b w', apply_heic_schedule clock m disc w = Ok (b, w') ∧ winv room b w'.
Proof.
  intros Hroom Hw. destruct (synchronize_selects clock m disc (counter w) (playback w)) as (c' & p' & o & E & Hsel);
    [apply Hw|].
  destruct (synchronize_sides relay_sides _ _ _ _ _ _ _ _ E) as [Hs Hc]; [apply Hw|].
  assert (c' + room + 1 < 2 ^ 64) as Hlt.
  { pose proof (w_room _ _ _ Hw). destruct (w_valid _ _ _ Hw) as (? & _). by eapply counter_next. }
  exists (presentation_changed o), (set_playback c' p' w). split.
  - unfold apply_heic_schedule, synchronize, resynchronize_after_discontinuity. by destruct disc; rewrite E.
  - eapply winv_playback; [exact Hw|eapply step_synchronize; [lia|exact E]|done..|].
    apply caught_shows; [apply Hw|]. eapply synchronize_shows, E. by eapply winv_dissolve.
Qed.

Lemma finish_passed room request r clock m disc alloc w : 0 ≤ room → winv (2 + room) false w →
  (∀ f, r = Some f → side_ok relay_sides f) →
  ∃ b w', finish_heic_decode request r clock m disc alloc w = Ok (b, w') ∧ winv room b w'.
Proof.
  intros Hroom Hw Hr. destruct (schedule_passed (1 + room) clock m disc w) as (b & w1 & E1 & Hw1); [lia|by replace (1 + (1 + room)) with (2 + room) by lia|].
  unfold finish_heic_decode. rewrite E1. cbn [mbind result_bind].
  destruct (complete_decode request r m alloc (counter w1) (playback w1)) as [[c' p'] o] eqn:E.
  destruct (complete_sides relay_sides _ _ _ _ _ _ _ _ _ E) as [Hs Hc]; [apply Hw1|done|].
  assert (c' + room + 1 < 2 ^ 64) as Hlt.
  { pose proof (w_room _ _ _ Hw1). destruct (w_valid _ _ _ Hw1) as (? & _). by eapply counter_next. }
  pose proof (complete_shows _ _ _ _ _ _ _ _ _ E) as Hshown.
  assert (∀ b', caught b' (set_playback c' p' w1) → winv room b' (set_playback c' p' w1)) as Hw2.
  { intros b' Hb. eapply winv_playback; [exact Hw1|eapply step_complete; [lia|exact E]|done|done|done| |done].
    eapply selects_mode, Hw1. pose proof (complete_mode request r m alloc (counter w1) (playback w1)) as Hm.
    by rewrite E in Hm. }
  assert (frame p' = frame (playback w1) → winv room b (set_playback c' p' w1)) as Hsame.
  { intros Ef. apply Hw2. apply caught_same; [apply Hw1|done]. }
  destruct o; (do 2 eexists; split; [done|]);
    [by apply Hsame|by apply winv_failure, Hsame|by apply winv_failure, Hsame|by apply winv_decoded, Hw2..].
Qed.

Section Loop.
Context (initial_clock : ClockSnapshot).

(** What a decoder returns has the sides it checked. *)
Definition decodes (t : Turn) : Prop := ∀ i f, decode_result t i = Some f → side_ok relay_sides f.

Lemma complete_request_passed room t w : 0 ≤ room → decodes t → winv (2 + room) false w →
  passed room (complete_request initial_clock t w).
Proof using.
  intros Hroom Ht Hw. unfold complete_request.
  pose proof (step_take (counter w) (playback w)) as Hs. pose proof (take_sides relay_sides _ (w_sides _ _ _ Hw)) as Hsd.
  pose proof (take_mode (playback w)) as Hm. pose proof (take_frame (playback w)) as Hf.
  destruct (take_decode_request (playback w)) as [p request]; cbn [fst] in Hs, Hsd, Hm, Hf.
  assert (winv (2 + room) false (set_playback (counter w) p w)) as Hw1.
  { eapply winv_playback; [exact Hw|done|lia|pose proof (w_room _ _ _ Hw); lia|done| |].
    - eapply selects_mode, Hw. done.
    - apply caught_same; [apply Hw|done]. }
  destruct request as [request|]; [|by eapply winv_less, Hw1; lia].
  destruct (stop_after_decode t); [apply winv_stopped; by eapply winv_less, Hw1; lia|].
  destruct (time_after_decode t) as [clock m]. destruct (sample _ _) as [disc d].
  destruct (finish_passed room request (decode_result t (image request)) (default initial_clock clock) m disc
    (blend_buffer t) (set_suspend d (set_playback (counter w) p w))) as (b & w' & -> & Hw');
    [done|by apply winv_suspend|by apply Ht|]. cbn. by apply publish_if_passed.
Qed.

Lemma pass_passed room t w : 0 ≤ room → decodes t → winv (3 + room) false w → passed room (pass initial_clock t w).
Proof using.
  intros Hroom Ht Hw. unfold pass. destruct (stop_at_head t); [apply winv_stopped; by eapply winv_less, Hw; lia|].
  destruct (time_at_head t) as [clock m]. destruct (sample _ _) as [disc d].
  destruct (schedule_passed (2 + room) (default initial_clock clock) m disc (set_suspend d w)) as (b & w1 & -> & Hw1);
    [lia|by apply winv_suspend; replace (1 + (2 + room)) with (3 + room) by lia|]. cbn [mbind result_bind].
  eapply passed_bind; [by apply publish_if_passed|]. intros w2 Hw2.
  pose proof (step_advance m (counter w2) (playback w2)) as Hs.
  pose proof (advance_sides relay_sides m _ (w_sides _ _ _ Hw2)) as Hsd. pose proof (advance_mode m (playback w2)) as Hm.
  destruct (advance_transition m (playback w2)) as [p adv] eqn:Ea. cbn [fst] in Hs, Hsd, Hm.
  eapply (passed_bind (2 + room)); [apply publish_if_passed|intros; by apply complete_request_passed].
  eapply winv_playback; [exact Hw2|done|lia|pose proof (w_room _ _ _ Hw2); lia|done| |].
  - eapply selects_mode, Hw2. done.
  - apply caught_shows; [apply Hw2|]. eapply advance_shows, Ea. by eapply winv_dissolve.
Qed.

Lemma passes_passed ts w : Forall decodes ts → winv (3 * Z.of_nat (length ts)) false w →
  passed 0 (passes initial_clock ts w).
Proof using.
  intros Hts. revert w. induction Hts as [|t ts Ht _ IH]; intros w Hw; [done|]. cbn [passes].
  eapply passed_bind; [|exact IH]. apply pass_passed; [lia|done|].
  cbn [length] in Hw. by replace (3 + 3 * Z.of_nat (length ts)) with (3 * Z.of_nat (S (length ts))) by lia.
Qed.
End Loop.

Lemma start_winv md pr ap rm off clock m c w room :
  0 ≤ c → 0 ≤ room → c + room + 2 < 2 ^ 64 → start md pr ap rm off clock m c = Some w → winv room false w.
Proof.
  intros Hc Hr Hlt H. unfold start in H. apply bind_Some in H as ([c' p] & E & [= <-]).
  assert (valid_state (c', p)) as Hv by (apply (with_solar_valid md pr ap clock m rm None c); [lia|lia|exact E]).
  unfold new, with_solar in E. apply bind_Some in E as ([mo sel] & Em & E).
  unfold next_generation, wrapping_add in E. rewrite Z.mod_small in E by lia. injection E as <- <-.
  split; cbn; [done|lia|constructor| |done..].
  assert (∀ l, (s ← selected_point (sorted_time_points l) clock; Some (Time (sorted_time_points l), tp_image s)) = Some (mo, sel) →
    match mo with Static => True | Time l => l ≠ [] end) as Hof.
  { intros l E'. apply bind_Some in E' as (s & Es & [= <- _]). intros Hn. by rewrite Hn in Es. }
  unfold selects. cbn. destruct (select md ap false false); cbn in Em; try done.
  - by eapply Hof.
  - by injection Em as <- _.
  - by injection Em as <- _.
Qed.

Section Greeter.
Context (spawned : HeicRelay.Spawned) (reserve : Z → bool).
Context (reserves : ∀ n, n ≤ HeicRelay.MAX_HEIC_FRAME_BYTES → reserve n = true).

(** In every run of the supervisor that has had a part of the worker's output,
    the greeter published the first of the worker's frames, and in the end all
    of them and one failure. *)
Definition relays (w : Worker) : Prop := ∀ world lost,
  HeicRelay.reachable spawned reserve world → HeicRelay.written world ++ lost = out w →
  (∃ more, HeicRelayProofs.frames (HeicRelay.published world) ++ more = HeicRelayProofs.relayed <$> frames w) ∧
  (HeicRelay.supervisor world = HeicRelay.Done → HeicRelay.stopping world = false → lost = [] →
    HeicRelay.published world = (HeicRelay.UFrame ∘ HeicRelayProofs.relayed <$> frames w) ++ [HeicRelay.UFailed]).

Lemma written_relays w : written w [] → relays w.
Proof using reserves.
  intros [Hall Hout]. rewrite app_nil_r in Hout.
  assert (Forall (λ f, HeicRelayProofs.relayable reserve (HeicRelayProofs.relayed f)) (frames w)) as Hrel.
  { eapply Forall_impl; [exact Hall|]. intros f Hf. destruct (shown_ok_relayable f Hf) as [Hs _]. split; [done|].
    apply reserves. destruct Hf as [(_ & _ & El & Hm & _) _]. cbn. unfold MAX_FRAME_BYTES, HeicRelay.MAX_HEIC_FRAME_BYTES in *. lia. }
  assert (HeicRelayProofs.closed reserve []) as Hnil by (intros f r _; by rewrite HeicRelayProofs.encode_frame_app).
  intros world lost Hw Ewr. split.
  - destruct (HeicRelayProofs.inv_stream _ _ (HeicRelayProofs.relay_inv_reachable _ _ _ Hw)) as (rest & Er & _).
    rewrite Er, Hout, <- app_assoc in Ewr. rewrite <- (app_nil_r (HeicRelayProofs.encode_all (HeicRelayProofs.relayed <$> _))) in Ewr.
    apply (HeicRelayProofs.frames_prefix reserve) in Ewr as (more & E & _); [by exists more| |by apply Forall_fmap|done].
    apply (HeicRelayProofs.relay_inv_reachable _ _ _ Hw).
  - intros Hd Hst ->. rewrite app_nil_r in Ewr.
    apply (HeicRelayProofs.all_delivered spawned reserve world (HeicRelayProofs.relayed <$> frames w) []) in Hd;
      [by rewrite list_fmap_compose|done|by rewrite app_nil_r, Ewr|by apply Forall_fmap|done|done].
Qed.
End Greeter.

Lemma written_opaque w torn : written w torn → Forall (λ f, opaque (pixels f) = true) (frames w).
Proof. intros [Hall _]. eapply Forall_impl; [exact Hall|]. intros f [(_ & _ & _ & _ & Ho) _]. done. Qed.


(** ** A run *)

(** Two images, from six and from eighteen o'clock.  The worker starts a second
    before eighteen; the second image arrives a quarter of a second into the
    dissolve and the next pass comes a quarter of a second later. *)
Definition example_metadata : Metadata := mkMetadata (Valid (mkSchedule two_points None)) Missing Missing.
Definition example_decode (i : ImageReference) : option RgbaFrame := Some (pixel (10 + 200 * i)).
Definition turn_at (head after : ClockSnapshot * Z) : Turn :=
  mkTurn false (Some head.1, head.2) None example_decode false (Some after.1, after.2) None (Some 4) (None, None, None).
Definition at_nano (h m s n : Z) : ClockSnapshot := mkClock (mkDate 2026 9 9) (mkTime h m s) n 0.
Definition example_turns : list Turn :=
  [turn_at (at_time 17 59 59, from_secs 100000) (at_time 17 59 59, from_secs 100000);
   turn_at (at_time 18 0 0, from_secs 100001) (at_nano 18 0 0 250000000, from_secs 100001 + 250000000);
   turn_at (at_nano 18 0 0 500000000, from_secs 100001 + 500000000)
           (at_nano 18 0 0 500000000, from_secs 100001 + 500000000)].
Definition example_worker : option Worker :=
  start example_metadata 9 Automatic false None (at_time 17 59 59) (from_secs 100000) 0.
Definition example_out : list byte :=
  match w ← example_worker; Some (passes (at_time 17 59 59) example_turns w) with
  | Some (Ok w) => out w
  | _ => []
  end.
Definition relay_started : HeicRelay.World :=
  HeicRelay.supervise HeicRelay.WithStdout (λ _, true) 3 HeicRelay.initial.
Definition relay_ended : HeicRelay.World :=
  HeicRelay.supervise HeicRelay.WithStdout (λ _, true) 80
    (HeicRelay.set_process HeicRelay.Exited (HeicRelay.write_pipe example_out relay_started)).

Lemma relay_ended_reachable : HeicRelay.reachable HeicRelay.WithStdout (λ _, true) relay_ended.
Proof.
  apply HeicRelayProofs.reachable_supervise. eapply HeicRelay.reachable_step; [|by constructor].
  eapply HeicRelay.reachable_step; [|by constructor].
  apply (HeicRelayProofs.reachable_supervise _ _ 3), HeicRelay.reachable_initial.
Qed.

Lemma example_decodes : Forall decodes example_turns.
Proof. unfold example_turns. repeat (apply Forall_cons_2 || apply Forall_nil_2); intros i f [= <-]; vm_compute; split; discriminate. Qed.


(** ** Suspends *)

Definition highest (os : list Z) : option Z := match os with [] => None | o :: os => Some (foldl Z.max o os) end.
Definition observe_all (os : list Z) (d : SuspendDetector) : SuspendDetector := foldl (λ d o, (observe o d).2) d os.

(** The detector compares with the largest offset it ever saw: it fires exactly
    for a sample that exceeds it by more than ten milliseconds, so a resume is
    reported once, and a clock that is read late and early again never is. *)
Theorem suspend_detected_once os o :
  observe o (observe_all os (mkDetector None)) =
    (match highest os with Some h => SUSPEND_DETECTION_THRESHOLD <? o - h | None => false end,
     mkDetector (highest (os ++ [o]))).
Proof.
  assert (∀ os, observe_all os (mkDetector None) = mkDetector (highest os)) as H.
  { clear. intros [|x os]; [done|]. cbn. unfold observe_all. revert x. induction os as [|y os IH]; intros x; [done|].
    cbn [foldl]. rewrite <- IH. f_equal. unfold observe. cbn. destruct (Z.leb_spec y x); cbn; [by rewrite Z.max_l by lia|by rewrite Z.max_r by lia]. }
  rewrite H. destruct os as [|x os]; [done|]. cbn. unfold observe. cbn. rewrite foldl_app. cbn.
  unfold SUSPEND_DETECTION_THRESHOLD. destruct (Z.leb_spec o (foldl Z.max x os)).
  - rewrite Z.max_l, (proj2 (Z.ltb_ge _ _)) by lia. done.
  - by rewrite Z.max_r by lia.
Qed.
