(* ===== verification/Sessions.v ===== *)
(** * Wayland sessions ([src/sessions.rs])

    The strict checks on desktop entries, the expansion of [Exec], and the
    discovery over the session directories.  The desktop-entry parser is a
    third-party crate: what it returns is a record, and the parser itself, the
    file system and the environment are parameters of the section. *)

From S2P Require Import Prelude Utf8 Ordering.

(** ** Strict [Exec] values *)

(** A character and whether it was written with a backslash escape. *)
Abbreviation unit_ := (Z * bool)%type (only parsing).

Definition BACKSLASH : char := 92.
Definition QUOTE : char := 34.
Definition DOLLAR : char := 36.
Definition BACKTICK : char := 96.
Definition SPACE : char := 32.
Definition TAB : char := 9.
Definition NEWLINE : char := 10.
Definition RETURN : char := 13.

Definition is_exec_separator (c : char) : bool := existsb (Z.eqb c) [SPACE; TAB; NEWLINE; RETURN].
Definition is_unquoted_reserved (c : char) : bool :=
  existsb (Z.eqb c) ([39; BACKSLASH] ++ str "><~|&;$*?#()" ++ [BACKTICK]).

Definition escape (c : char) : option char :=
  if c =? 115 then Some SPACE
  else if c =? 110 then Some NEWLINE
  else if c =? 116 then Some TAB
  else if c =? 114 then Some RETURN
  else if c =? BACKSLASH then Some BACKSLASH
  else None.

(** The first loop of [strict_exec]. *)
Fixpoint unescape (raw : rstring) : option (list unit_) :=
  match raw with
  | [] => Some []
  | c :: rest =>
    if negb (c =? BACKSLASH) then cons (c, false) <$> unescape rest
    else match rest with
    | [] => None
    | e :: rest => x ← escape e; cons (x, true) <$> unescape rest
    end
  end.

(** The loop inside a quoted argument: what follows the closing quote. *)
Fixpoint quoted_rest (us : list unit_) : option (list unit_) :=
  match us with
  | [] => None
  | (c, escaped) :: us =>
    if (c =? QUOTE) && negb escaped then Some us
    else if (c =? BACKSLASH) && escaped then
      match us with
      | [] => None
      | (e, _) :: us =>
        if existsb (Z.eqb e) [QUOTE; BACKTICK; DOLLAR; BACKSLASH] then quoted_rest us else None
      end
    else if existsb (Z.eqb c) [BACKTICK; DOLLAR] then None
    else quoted_rest us
  end.

(** The loop over an unquoted argument: the rest from the next separator. *)
Fixpoint unquoted_rest (us : list unit_) : option (list unit_) :=
  match us with
  | [] => Some []
  | (c, e) :: rest =>
    if is_exec_separator c then Some us
    else if (c =? QUOTE) || is_unquoted_reserved c then None
    else unquoted_rest rest
  end.

Definition skip_separators (us : list unit_) : list unit_ :=
  drop_while (λ u, is_exec_separator (fst u)) us.

(** The outer loop; every turn consumes a unit. *)
Fixpoint strict_units (fuel : nat) (us : list unit_) : option unit :=
  match fuel with
  | O => None
  | S fuel =>
    match skip_separators us with
    | [] => Some tt
    | (c, e) :: rest =>
      if (c =? QUOTE) && negb e then
        rest ← quoted_rest rest;
        match rest with
        | (c, _) :: _ => if is_exec_separator c then strict_units fuel rest else None
        | [] => strict_units fuel rest
        end
      else rest ← unquoted_rest ((c, e) :: rest); strict_units fuel rest
    end
  end.

Definition is_ascii (s : rstring) : bool := forallb (λ c, c <? 128) s.
Definition is_ascii_control (c : char) : bool := (c <? 32) || (c =? 127).

Definition strict_exec (raw : rstring) : option unit :=
  if negb (is_ascii raw) || existsb is_ascii_control raw then None
  else us ← unescape raw; strict_units (S (length us)) us.

(** ** Strict desktop files *)

(** [str::lines]. *)
Definition strip_return (s : rstring) : rstring :=
  match last s with
  | Some c => if c =? RETURN then take (length s - 1) s else s
  | None => s
  end.
Fixpoint lines_from (acc : rstring) (s : rstring) : list rstring :=
  match s with
  | [] => if bool_decide (acc = []) then [] else [acc]
  | c :: s => if c =? NEWLINE then strip_return acc :: lines_from [] s else lines_from (acc ++ [c]) s
  end.
Definition lines (s : rstring) : list rstring := lines_from [] s.

Fixpoint split_once (sep : char) (s : rstring) : option (rstring * rstring) :=
  match s with
  | [] => None
  | c :: s => if c =? sep then Some ([], s) else '(a, b) ← split_once sep s; Some (c :: a, b)
  end.

(** [strip_prefix('[').and_then(strip_suffix(']'))]. *)
Definition group_header (line : rstring) : option rstring :=
  match line with
  | c :: rest =>
    if c =? 91 then
      match last rest with
      | Some d => if d =? 93 then Some (take (length rest - 1) rest) else None
      | None => None
      end
    else None
  | [] => None
  end.

Definition comment (line : rstring) : bool :=
  match line with [] => true | c :: _ => c =? 35 end.

Fixpoint strict_lines (groups keys : gset (list Z)) (ls : list rstring) : option unit :=
  match ls with
  | [] => Some tt
  | raw :: ls =>
    let line := trim raw in
    if comment line then strict_lines groups keys ls
    else match group_header line with
    | Some g => if bool_decide (g ∈ groups) then None else strict_lines ({[g]} ∪ groups) ∅ ls
    | None =>
      '(key, _) ← split_once 61 raw;
      let key := trim key in
      if bool_decide (key ∈ keys) then None else strict_lines groups ({[key]} ∪ keys) ls
    end
  end.

Definition BOM : char := 65279.
Definition strict_desktop_file (contents : list byte) : option unit :=
  source ← decode contents;
  let source := match source with c :: s => if c =? BOM then s else source | [] => source end in
  strict_lines ∅ ∅ (lines source).

(** ** What the parser returns *)

Inductive FieldCode :=
| TranslatedName | DesktopFileLocation | Deprecated (c : char)
| SingleFile | FileList | SingleUrl | UrlList | Icon.
Inductive ExecPiece := PChar (c : char) | PField (f : FieldCode) | POther.

Record Argument := mkArgument {
  quoted : bool;
  arg_raw : rstring;
  pieces : list (option ExecPiece);   (** [None]: an error *)
}.
Record Exec := mkExec {
  exec_raw : rstring;
  validate : bool;
  args : list (option Argument);
}.
Record Entry := mkEntry {
  boolean : rstring → option (option bool);     (** absent, malformed, value *)
  entry_value : rstring → option (option rstring);
  entry_list : rstring → list (option rstring);
}.
Record DesktopFile := mkFile {
  desktop_entry : option Entry;
  is_application : bool;
  df_name : option (option rstring);
  exec : option Exec;
}.

Record Session := mkSession {
  name : rstring;
  command : list rstring;
  session_id : rstring;
  desktop_names : list rstring;
}.

(** ** Expansion *)

Definition SLASH : byte := Byte.x2f.
Definition DOT : byte := Byte.x2e.

Section Discovery.
Context (parse : list byte → option DesktopFile).
(** [fs::read_dir]: the names of the entries that could be read. *)
Context (read_dir : list byte → option (list (list byte))).
Context (read_file : list byte → option (list byte)).
Context (is_executable : list byte → bool).
Context (path_env : option (list byte)).

Definition path_join (dir file : list byte) : list byte :=
  match last dir with
  | None => file
  | Some b => if bool_decide (b = SLASH) then dir ++ file else dir ++ SLASH :: file
  end.
Definition is_absolute (path : list byte) : bool := bool_decide (head path = Some SLASH).

(** [env::split_paths]: at every colon. *)
Fixpoint split_paths (s : list byte) : list (list byte) :=
  match s with
  | [] => [[]]
  | b :: s =>
    if bool_decide (b = Byte.x3a) then [] :: split_paths s
    else match split_paths s with p :: ps => (b :: p) :: ps | [] => [[b]] end
  end.

Definition executable_available (program : rstring) : bool :=
  let bytes := encode program in
  if bool_decide (SLASH ∈ bytes) then is_absolute bytes && is_executable bytes
  else match path_env with
       | Some path => existsb (λ d, is_executable (path_join d bytes)) (split_paths path)
       | None => false
       end.

(** One argument: its pieces, or [None] when one is refused. *)
Fixpoint expand_pieces (path : list byte) (name : rstring) (ps : list (option ExecPiece)) :
    option rstring :=
  match ps with
  | [] => Some []
  | p :: ps =>
    p ← p;
    s ← match p with
        | PChar c => Some [c]
        | PField TranslatedName => Some name
        | PField DesktopFileLocation => decode path
        | PField (Deprecated _) => Some []
        | PField _ | POther => None
        end;
    app s <$> expand_pieces path name ps
  end.

Fixpoint expand_args (path : list byte) (name : rstring) (l : list (option Argument)) :
    option (list rstring) :=
  match l with
  | [] => Some []
  | a :: l =>
    a ← a;
    expanded ← expand_pieces path name (pieces a);
    rest ← expand_args path name l;
    Some (if negb (bool_decide (expanded = [])) || (quoted a && bool_decide (arg_raw a = []))
          then expanded :: rest else rest)
  end.

Definition expand_exec (file : DesktopFile) (path : list byte) (name : rstring) :
    option (list rstring) :=
  x ← exec file;
  _ ← strict_exec (exec_raw x);
  if negb (validate x) then None
  else
    command ← expand_args path name (args x);
    match command with
    | program :: _ => if bool_decide (61 ∈ program) then None else Some command
    | [] => None
    end.

(** ** Entries *)

(** [Path::extension] and [Path::file_stem] of a file name. *)
Fixpoint split_last_dot (s : list byte) : option (list byte * list byte) :=
  match s with
  | [] => None
  | b :: s =>
    match split_last_dot s with
    | Some (a, e) => Some (b :: a, e)
    | None => if bool_decide (b = DOT) then Some ([], s) else None
    end
  end.
Definition extension (file : list byte) : option (list byte) :=
  if bool_decide (file = [DOT; DOT]) then None
  else match split_last_dot file with
       | Some (_ :: _, e) => Some e
       | _ => None
       end.
Definition file_stem (file : list byte) : list byte :=
  if bool_decide (file = [DOT; DOT]) then file
  else match split_last_dot file with
       | Some (b :: a, _) => b :: a
       | _ => file
       end.

Inductive ParsedEntry := Hidden | Visible (s : Session).

(** [entry.boolean(key).transpose().ok()?.unwrap_or(false)]. *)
Definition flag (e : Entry) (key : rstring) : option bool :=
  match boolean e key with
  | None => Some false
  | Some None => None
  | Some (Some b) => Some b
  end.

Definition collect {A} (l : list (option A)) : option (list A) :=
  foldr (λ o acc, x ← o; xs ← acc; Some (x :: xs)) (Some []) l.

Definition parse_desktop_entry (dir file : list byte) : option ParsedEntry :=
  let path := path_join dir file in
  contents ← read_file path;
  df ← parse contents;
  _ ← strict_desktop_file contents;
  entry ← desktop_entry df;
  hidden ← flag entry (str "Hidden");
  no_display ← flag entry (str "NoDisplay");
  if (hidden : bool) || no_display then Some Hidden
  else if negb (is_application df) then None
  else
    name ← df_name df;
    name ← name;
    _ ← match entry_value entry (str "TryExec") with
        | None => Some tt
        | Some try_exec => t ← try_exec; if executable_available t then Some tt else None
        end;
    command ← expand_exec df path name;
    if negb (from_option executable_available false (head command)) then None
    else
      desktop_names ← collect (entry_list entry (str "DesktopNames"));
      id ← decode (file_stem file);
      Some (Visible (mkSession name command id desktop_names)).

(** The loop over one directory's entries; [seen] holds file names. *)
Definition discover_entry (dir file : list byte) (st : gset (list Z) * list Session) :
    gset (list Z) * list Session :=
  let '(seen, sessions) := st in
  if negb (bool_decide ((extension file ≫= decode) = Some (str "desktop"))) then st
  else match decode file with
  | None => st
  | Some id =>
    if bool_decide (id ∈ seen) then st
    else
      ({[id]} ∪ seen,
       match parse_desktop_entry dir file with
       | Some (Visible s) => sessions ++ [s]
       | Some Hidden | None => sessions
       end)
  end.

Definition discover_directory (st : gset (list Z) * list Session) (dir : list byte) :
    gset (list Z) * list Session :=
  match read_dir dir with
  | None => st
  | Some files => foldl (λ st file, discover_entry dir file st) st files
  end.

(** [Session] order: by name, then by id; the sort is stable. *)
Definition session_lt : Session → Session → bool := key_lt name session_id.
Definition sort_sessions (l : list Session) : list Session := sort_by session_lt l.

Definition discover_in (directories : list (list byte)) : list Session :=
  sort_sessions (snd (foldl discover_directory (∅, []) directories)).

(** [discover] and [session_directories]: [XDG_DATA_DIRS] or its default. *)
Definition session_directories (data_dirs : list byte) : list (list byte) :=
  (λ p, path_join p (bytes_of "wayland-sessions")) <$> List.filter is_absolute (split_paths data_dirs).
Definition discover (data_dirs : option (list byte)) : list Session :=
  let dirs := match data_dirs with
              | Some (b :: d) => b :: d
              | _ => bytes_of "/usr/local/share:/usr/share"
              end in
  discover_in (session_directories dirs).

End Discovery.

Definition join_colon (l : list rstring) : rstring :=
  match l with [] => [] | x :: l => x ++ mjoin ((λ s, 58 :: s) <$> l) end.
Definition environment (s : Session) : list rstring :=
  [str "XDG_SESSION_TYPE=wayland"; str "XDG_SESSION_DESKTOP=" ++ session_id s]
  ++ (if bool_decide (desktop_names s = []) then []
      else [str "XDG_CURRENT_DESKTOP=" ++ join_colon (desktop_names s)]).

(** ** The grammar of strict [Exec] values *)

Definition sep (u : unit_) : Prop := is_exec_separator (fst u) = true.

(** What may stand between quotes. *)
Inductive quoted_body : list unit_ → Prop :=
| quoted_nil : quoted_body []
| quoted_char c e us :
    (c, e) ≠ (QUOTE, false) → (c, e) ≠ (BACKSLASH, true) → c ≠ BACKTICK → c ≠ DOLLAR →
    quoted_body us → quoted_body ((c, e) :: us)
| quoted_escape c e us :
    c ∈ [QUOTE; BACKTICK; DOLLAR; BACKSLASH] → quoted_body us →
    quoted_body ((BACKSLASH, true) :: (c, e) :: us).

Definition plain (u : unit_) : Prop :=
  ¬ sep u ∧ fst u ≠ QUOTE ∧ is_unquoted_reserved (fst u) = false.

Inductive argument : list unit_ → Prop :=
| argument_plain u us : plain u → Forall plain us → argument (u :: us)
| argument_quoted us : quoted_body us → argument ((QUOTE, false) :: us ++ [(QUOTE, false)]).

(** Arguments, each followed by a separator or the end. *)
Inductive exec_line : list unit_ → Prop :=
| exec_nil : exec_line []
| exec_sep u us : sep u → exec_line us → exec_line (u :: us)
| exec_argument a us : argument a → (us = [] ∨ ∃ u rest, us = u :: rest ∧ sep u) →
    exec_line us → exec_line (a ++ us).

(** ** Lemmas *)

#[local] Arguments is_exec_separator : simpl never.
#[local] Arguments is_unquoted_reserved : simpl never.

Lemma existsb_In l c : existsb (Z.eqb c) l = true ↔ c ∈ l.
Proof.
  rewrite existsb_exists. split.
  - intros (x & Hx & ->%Z.eqb_eq). by apply list_elem_of_In.
  - intros H. exists c. rewrite Z.eqb_refl. split; [by apply list_elem_of_In|done].
Qed.

Lemma quoted_rest_sound us rest :
  quoted_rest us = Some rest → ∃ body, quoted_body body ∧ us = body ++ (QUOTE, false) :: rest.
Proof.
  remember (length us) as n eqn:Hn. revert us Hn.
  induction n as [n IH] using lt_wf_ind. intros [|[c e] us] Hn; cbn; [done|].
  destruct ((c =? QUOTE) && negb e) eqn:E1.
  { simp_bool. subst. intros [= <-]. exists []. split; [constructor|done]. }
  destruct ((c =? BACKSLASH) && e) eqn:E2.
  { simp_bool. subst. destruct us as [|[c' e'] us]; [done|].
    destruct (existsb (Z.eqb c') [QUOTE; BACKTICK; DOLLAR; BACKSLASH]) eqn:E3;
      cbn [existsb] in E3; rewrite E3; [|done].
    intros Hr. destruct (IH (length us) ltac:(cbn; lia) us eq_refl Hr) as (body & Hb & ->).
    exists ((BACKSLASH, true) :: (c', e') :: body). split; [|done].
    apply quoted_escape; [by apply existsb_In|done]. }
  destruct (_ || _) eqn:E3; [done|]. intros Hr.
  destruct (IH (length us) ltac:(cbn in *; lia) us eq_refl Hr) as (body & Hb & ->).
  exists ((c, e) :: body). split; [|done]. simp_bool.
  constructor; try done; intros [= -> ->]; by rewrite ?Z.eqb_refl in *.
Qed.

Lemma quoted_rest_complete body rest :
  quoted_body body → quoted_rest (body ++ (QUOTE, false) :: rest) = Some rest.
Proof.
  induction 1 as [|c e us H1 H2 H3 H4 _ IH|c e us H _ IH]; [done|..].
  - cbn [app quoted_rest]. 
    destruct ((c =? QUOTE) && negb e) eqn:E1; [simp_bool; subst; done|].
    destruct ((c =? BACKSLASH) && e) eqn:E2; [simp_bool; subst; done|].
    destruct (existsb _ _) eqn:E3; [|done]. apply existsb_In in E3. set_solver.
  - cbn [app quoted_rest]. by rewrite (proj2 (existsb_In _ _) H).
Qed.

Lemma unquoted_rest_sound us rest :
  unquoted_rest us = Some rest → ∃ a, Forall plain a ∧ us = a ++ rest
    ∧ (rest = [] ∨ ∃ u r, rest = u :: r ∧ sep u).
Proof.
  induction us as [|[c e] us IH]; cbn [unquoted_rest].
  { intros [= <-]. exists []. auto. }
  destruct (is_exec_separator c) eqn:E1.
  { intros [= <-]. exists []. split; [done|]. split; [done|]. right. eauto. }
  destruct (_ || _) eqn:E2; [done|]. intros (a & Ha & -> & Hr)%IH. simp_bool.
  exists ((c, e) :: a). split; [|done]. constructor; [|done]. split; [|done]. change (is_exec_separator c ≠ true). by rewrite E1.
Qed.

Lemma unquoted_rest_complete a rest :
  Forall plain a → (rest = [] ∨ ∃ u r, rest = u :: r ∧ sep u) → unquoted_rest (a ++ rest) = Some rest.
Proof.
  intros Ha Hr. induction Ha as [|[c e] a (H1 & H2 & H3) _ IH]; cbn [app unquoted_rest].
  - destruct Hr as [->|([c e] & r & -> & Hs)]; [done|]. cbn. unfold sep in Hs. cbn in Hs. by rewrite Hs.
  - unfold sep in H1. cbn in H1, H2, H3. apply not_true_is_false in H1.
    by rewrite H1, H3, (proj2 (Z.eqb_neq _ _) H2).
Qed.

Lemma argument_head a us : argument a → ∃ u r, a ++ us = u :: r ∧ ¬ sep u.
Proof.
  intros [u r [H _] _|r _]; [by exists u, (r ++ us)|].
  exists (QUOTE, false), ((r ++ [(QUOTE, false)]) ++ us). done.
Qed.

Lemma exec_line_skip us : exec_line us ↔ exec_line (skip_separators us).
Proof.
  unfold skip_separators. induction us as [|u us IH]; cbn; [done|].
  destruct (is_exec_separator (fst u)) eqn:E; [|done]. rewrite <- IH. split.
  - intros H. inversion H as [|? ? _ H'|a us' Ha _ H' Heq]; [done|].
    destruct (argument_head a us' Ha) as (u' & r & E' & Hn). rewrite E' in Heq. by injection Heq as -> ->.
  - by apply exec_sep.
Qed.

Lemma skip_length us : (length (skip_separators us) ≤ length us)%nat.
Proof.
  unfold skip_separators.
  destruct (drop_while_suffix (λ u, is_exec_separator (fst u)) us) as [k E].
  apply (f_equal length) in E. rewrite length_app in E. lia.
Qed.

Lemma strict_units_spec fuel us :
  (length us < fuel)%nat → strict_units fuel us = Some tt ↔ exec_line us.
Proof.
  revert us. induction fuel as [|fuel IH]; intros us Hf; [lia|]. cbn [strict_units].
  rewrite exec_line_skip. pose proof (skip_length us) as Hsl.
  assert (∀ u r, skip_separators us = u :: r → ¬ sep u) as Hhd.
  { intros u r E%drop_while_head. unfold sep. congruence. }
  destruct (skip_separators us) as [|[c e] rest].
  { split; [intros _; constructor|done]. }
  specialize (Hhd _ _ eq_refl). cbn in Hsl.
  destruct ((c =? QUOTE) && negb e) eqn:Eq.
  - simp_bool. subst c e. split.
    + intros (r & (body & Hb & ->)%quoted_rest_sound & H)%bind_Some.
      rewrite length_app in Hsl. cbn in Hsl.
      change ((QUOTE, false) :: body ++ (QUOTE, false) :: r)
        with (((QUOTE, false) :: body) ++ (QUOTE, false) :: r).
      rewrite (cons_middle (QUOTE, false)), app_assoc. apply exec_argument; [by apply argument_quoted|..].
      * destruct r as [|[c e] r]; [by left|]. right. exists (c, e), r. split; [done|].
        unfold sep. cbn. by destruct (is_exec_separator c).
      * apply IH; [lia|]. destruct r as [|[c e] r]; [done|]. by destruct (is_exec_separator c).
    + intros H. inversion H as [|? ? Hs|a us' Ha Htail H' Heq]; [done|].
      destruct Ha as [u a (_ & Hq & _) _|body Hb].
      { cbn in Heq. injection Heq as -> _. done. }
      cbn in Heq. injection Heq as Heq. rewrite <- app_assoc in Heq. cbn in Heq. subst rest.
      rewrite quoted_rest_complete by done. cbn.
      assert (strict_units fuel us' = Some tt) as Hus by (apply IH; [rewrite length_app in Hsl; cbn in Hsl; lia|done]).
      destruct Htail as [->|([c e] & r & -> & Hs)]; [done|]. unfold sep in Hs. cbn in Hs. by rewrite Hs.
  - split.
    + intros (r & (a & Ha & E & Hr)%unquoted_rest_sound & H)%bind_Some.
      rewrite E. destruct a as [|u a].
      { cbn in E. subst r. destruct Hr as [?|(u & r & [= <- <-] & Hs)]; done. }
      apply Forall_cons in Ha as [Hu Ha]. apply exec_argument; [by constructor|done|].
      apply IH; [|done]. apply (f_equal length) in E. rewrite length_app in E. cbn in E. lia.
    + intros H. inversion H as [|? ? Hs|a us' Ha Htail H' Heq]; [done|].
      destruct Ha as [u a Hu Ha|body Hb]; [|cbn in Heq; injection Heq as <- <- _; done].
      rewrite (unquoted_rest_complete (u :: a) us'); [|by constructor|done]. cbn [mbind option_bind].
      apply IH; [|done]. apply (f_equal length) in Heq. rewrite length_app in Heq. cbn in Heq. lia.
Qed.

(** *** File names *)

Lemma split_last_dot_eq s a e : split_last_dot s = Some (a, e) → s = a ++ DOT :: e.
Proof.
  revert a e. induction s as [|b s IH]; intros a e; cbn; [done|].
  destruct (split_last_dot s) as [[a' e']|].
  - intros [= <- <-]. cbn. f_equal. by apply IH.
  - case_bool_decide; [|done]. intros [= <- <-]. by subst.
Qed.

(** A [.desktop] file is its stem and the extension. *)
Definition is_desktop (file : list byte) : Prop := (extension file ≫= decode) = Some (str "desktop").

Lemma desktop_file_eq file : is_desktop file → file = file_stem file ++ DOT :: bytes_of "desktop".
Proof.
  unfold is_desktop, extension, file_stem. case_bool_decide; [done|].
  destruct (split_last_dot file) as [[[|b a] e]|] eqn:E; try done.
  cbn [mbind option_bind]. intros [He _]%decode_sound. apply split_last_dot_eq in E.
  rewrite E at 1. cbn. do 2 f_equal. f_equal. rewrite <- He. by vm_compute.
Qed.

Lemma desktop_stem_inj f g id :
  is_desktop f → is_desktop g → decode (file_stem f) = Some id → decode (file_stem g) = Some id → f = g.
Proof.
  intros Hf Hg [Ef _]%decode_sound [Eg _]%decode_sound.
  rewrite (desktop_file_eq f Hf), (desktop_file_eq g Hg). congruence.
Qed.

(** *** Discovery *)

Section DiscoveryFacts.
Context (parse : list byte → option DesktopFile) (read_dir : list byte → option (list (list byte)))
  (read_file : list byte → option (list byte)) (is_executable : list byte → bool)
  (path_env : option (list byte)).
Local Notation parse_entry := (parse_desktop_entry parse read_file is_executable path_env).
Local Notation available := (executable_available is_executable path_env).

(** What a visible entry went through. *)
Record runnable (dir file : list byte) (s : Session) : Prop := mkRunnable {
  r_id : decode (file_stem file) = Some (session_id s);
  r_command : ∃ program arguments, command s = program :: arguments
    ∧ 61 ∉ program ∧ available program = true;
  r_exec : ∃ contents df x us, read_file (path_join dir file) = Some contents ∧ parse contents = Some df
    ∧ strict_desktop_file contents = Some tt ∧ exec df = Some x ∧ validate x = true
    ∧ unescape (exec_raw x) = Some us ∧ exec_line us;
}.

Lemma unescape_length raw us : unescape raw = Some us → (length us ≤ length raw)%nat.
Proof using.
  clear. remember (length raw) as n eqn:Hn. revert raw us Hn.
  induction n as [n IH] using lt_wf_ind. intros [|c raw] us Hn; cbn; [intros [= <-]; cbn; lia|].
  destruct (negb _).
  - intros (us' & E & ->)%fmap_Some. cbn in *. specialize (IH (length raw) ltac:(lia) raw us' eq_refl E). lia.
  - destruct raw as [|e raw]; [done|]. intros (x & _ & (us' & E & ->)%fmap_Some)%bind_Some.
    cbn in *. specialize (IH (length raw) ltac:(lia) raw us' eq_refl E). lia.
Qed.

Lemma strict_exec_grammar raw :
  strict_exec raw = Some tt ↔
  (is_ascii raw = true ∧ existsb is_ascii_control raw = false)
  ∧ ∃ us, unescape raw = Some us ∧ exec_line us.
Proof using.
  clear. unfold strict_exec. destruct (is_ascii raw), (existsb is_ascii_control raw); cbn [negb orb];
    try (split; [done|]; intros [[? ?] _]; done).
  rewrite bind_Some. split.
  - intros (us & Hu & Hs). split; [done|]. exists us. split; [done|].
    eapply strict_units_spec; [|exact Hs]. lia.
  - intros [_ (us & Hu & Hs)]. exists us. split; [done|]. apply strict_units_spec; [lia|done].
Qed.

Lemma parse_entry_runnable dir file s : parse_entry dir file = Some (Visible s) → runnable dir file s.
Proof using.
  intros H. unfold parse_desktop_entry in H.
  apply bind_Some in H as (contents & Hc & H). apply bind_Some in H as (df & Hdf & H).
  apply bind_Some in H as ([] & Hst & H). apply bind_Some in H as (entry & He & H).
  apply bind_Some in H as (hid & Hh & H). apply bind_Some in H as (nod & Hn & H).
  destruct (hid || nod); [done|]. destruct (is_application df); [|done].
  cbn [negb] in H. apply bind_Some in H as (n & Hna & H). apply bind_Some in H as (n' & -> & H).
  apply bind_Some in H as (u & _ & H). apply bind_Some in H as (cmd & Hcmd & H).
  destruct (from_option _ false (head cmd)) eqn:Hav; [|done]. cbn [negb] in H.
  apply bind_Some in H as (dn & _ & H). apply bind_Some in H as (id & Hid & [= <-]).
  unfold expand_exec in Hcmd. apply bind_Some in Hcmd as (x & Hx & Hcmd).
  apply bind_Some in Hcmd as ([] & Hstrict & Hcmd). destruct (validate x) eqn:Hv; [|done].
  cbn [negb] in Hcmd. apply bind_Some in Hcmd as (c & _ & Hcmd).
  destruct c as [|program arguments]; [done|]. case_bool_decide as Heq; [done|]. injection Hcmd as <-.
  apply strict_exec_grammar in Hstrict as [_ (us & Hus & Hl)].
  constructor; cbn; [done| |].
  - exists program, arguments. done.
  - by exists contents, df, x, us.
Qed.

(** Where a session comes from: the first directory that has its file. *)
Definition origin (dirs : list (list byte)) (seen : gset (list Z)) (s : Session) : Prop :=
  ∃ before dir after files file id,
    dirs = before ++ dir :: after ∧ read_dir dir = Some files ∧ file ∈ files ∧ is_desktop file
    ∧ (∀ d fs, d ∈ before → read_dir d = Some fs → file ∉ fs)
    ∧ decode file = Some id ∧ id ∈ seen ∧ parse_entry dir file = Some (Visible s).

Record discovered (dirs before : list (list byte)) (st : gset (list Z) * list Session) : Prop := mkDisc {
  d_origin : ∀ s, s ∈ snd st → origin dirs (fst st) s;
  d_nodup : NoDup (session_id <$> snd st);
  d_seen : ∀ d fs file id, d ∈ before → read_dir d = Some fs → file ∈ fs → is_desktop file →
    decode file = Some id → id ∈ fst st;
}.

Lemma origin_seen dirs seen seen' s : seen ⊆ seen' → origin dirs seen s → origin dirs seen' s.
Proof using. intros Hs (b & d & a & fs & f & id & ?). exists b, d, a, fs, f, id. naive_solver. Qed.

Lemma discover_entry_ok dirs before dir after files file st :
  dirs = before ++ dir :: after → read_dir dir = Some files → file ∈ files →
  discovered dirs before st →
  let st' := discover_entry parse read_file is_executable path_env dir file st in
  discovered dirs before st' ∧ fst st ⊆ fst st'
  ∧ (∀ id, is_desktop file → decode file = Some id → id ∈ fst st').
Proof using.
  intros Hdirs Hrd Hfile Hd. destruct st as [seen sessions]. cbn [discover_entry].
  case_bool_decide as Hext; cbn [negb fst].
  2:{ split; [done|]. split; [done|]. done. }
  destruct (decode file) as [id|] eqn:Hid; [|by split].
  case_bool_decide as Hseen; [split; [done|]; split; [done|]; by intros ? _ [= <-]|].
  destruct Hd as [Ho Hnd Hs]. cbn [fst snd] in *.
  assert (∀ s, s ∈ sessions → origin dirs ({[id]} ∪ seen) s) as Ho'.
  { intros s Hin. eapply origin_seen; [|by apply Ho]. set_solver. }
  assert (∀ d fs f i, d ∈ before → read_dir d = Some fs → f ∈ fs → is_desktop f → decode f = Some i →
    i ∈ {[id]} ∪ seen) as Hs' by (intros; apply elem_of_union_r; eauto).
  split; [|split; [set_solver|intros ? _ [= <-]; set_solver]].
  destruct (parse_entry dir file) as [[|s]|] eqn:Hp; [by constructor| |by constructor].
  constructor; cbn [fst snd]; [| |done].
  - intros s' [Hin| ->%list_elem_of_singleton]%elem_of_app; [by apply Ho'|].
    exists before, dir, after, files, file, id. split_and!; try done; [|set_solver].
    intros d fs Hdb Hfs Hin. apply Hseen. eauto.
  - rewrite fmap_app. apply NoDup_app. split; [done|]. split; [|by apply NoDup_singleton].
    intros i Hi ->%list_elem_of_singleton. apply list_elem_of_fmap in Hi as (s' & Ei & Hin').
    destruct (Ho s' Hin') as (b & d & a & fs & f & id' & _ & _ & _ & Hfd & _ & Hdf & Hi' & Hp').
    apply parse_entry_runnable in Hp, Hp'. destruct Hp as [Hr _ _], Hp' as [Hr' _ _].
    rewrite <- Ei in Hr'. assert (f = file) as -> by (by eapply desktop_stem_inj).
    apply Hseen. congruence.
Qed.

Lemma discover_directory_ok dirs before dir after st :
  dirs = before ++ dir :: after → discovered dirs before st →
  discovered dirs (before ++ [dir])
    (discover_directory parse read_dir read_file is_executable path_env st dir).
Proof using.
  intros Hdirs Hd. unfold discover_directory. destruct (read_dir dir) as [files|] eqn:Hrd.
  2:{ destruct Hd. constructor; try done. intros d fs f id [?| ->%list_elem_of_singleton]%elem_of_app; [eauto|congruence]. }
  assert (∀ fs st, (∀ f, f ∈ fs → f ∈ files) → discovered dirs before st →
    let st' := foldl (λ st file, discover_entry parse read_file is_executable path_env dir file st) st fs in
    discovered dirs before st' ∧ fst st ⊆ fst st'
    ∧ ∀ f id, f ∈ fs → is_desktop f → decode f = Some id → id ∈ fst st') as Hf.
  { clear Hd st. induction fs as [|f fs IH]; intros st Hin Hd; cbn [foldl].
    { split; [done|]. split; [done|]. by intros ?? ?%elem_of_nil. }
    destruct (discover_entry_ok dirs before dir after files f st) as (H1 & H2 & H3); try done; [apply Hin; by left|].
    destruct (IH _ (λ g Hg, Hin g (list_elem_of_further _ _ _ Hg)) H1) as (H4 & H5 & H6).
    split; [done|]. split; [set_solver|]. intros g id [->|Hg]%elem_of_cons Hdk Hdec; [|by eapply H6].
    apply H5. eauto. }
  destruct (Hf files st (λ _ H, H) Hd) as ([Ho Hnd Hs] & _ & Hall). constructor; [done|done|].
  intros d fs f id [Hb| ->%list_elem_of_singleton]%elem_of_app Hr; [by eapply Hs|].
  rewrite Hrd in Hr. injection Hr as <-. by apply Hall.
Qed.

Lemma discover_fold_ok dirs before after st :
  dirs = before ++ after → discovered dirs before st →
  discovered dirs dirs
    (foldl (discover_directory parse read_dir read_file is_executable path_env) st after).
Proof using.
  revert before st. induction after as [|dir after IH]; intros before st Hdirs Hd; cbn [foldl].
  { rewrite app_nil_r in Hdirs. by subst. }
  apply (IH (before ++ [dir])); [by rewrite <- app_assoc|]. by eapply discover_directory_ok.
Qed.

End DiscoveryFacts.

(** ** Properties *)

(** The strict check of [Exec] is a grammar: a value passes exactly when
    it is printable ASCII whose escapes resolve to a sequence of arguments set
    off by separators, each either free of quotes and reserved characters or
    quoted from end to end with dollars, backticks, quotes and backslashes
    escaped inside.  Nothing else reaches the expansion. *)
Theorem strict_exec_is_grammar raw :
  strict_exec raw = Some tt ↔
  (is_ascii raw = true ∧ existsb is_ascii_control raw = false)
  ∧ ∃ us, unescape raw = Some us ∧ exec_line us.
Proof. apply strict_exec_grammar. Qed.

(** Discovery offers each session once and in order: the result is sorted
    by name and then by id, no two sessions share an id, and each comes from
    the first session directory that has its file, so a file in an earlier
    directory (hidden, broken or visible) masks those of the same name after
    it. *)
Theorem discover_in_spec parse read_dir read_file is_executable path_env dirs :
  let l := discover_in parse read_dir read_file is_executable path_env dirs in
  StronglySorted (ordered session_lt) l ∧ NoDup (session_id <$> l)
  ∧ ∀ s, s ∈ l → ∃ before dir after files file,
      dirs = before ++ dir :: after ∧ read_dir dir = Some files ∧ file ∈ files
      ∧ (∀ d fs, d ∈ before → read_dir d = Some fs → file ∉ fs)
      ∧ parse_desktop_entry parse read_file is_executable path_env dir file = Some (Visible s).
Proof.
  cbn zeta. unfold discover_in, sort_sessions.
  match goal with |- context [sort_by session_lt ?x] => pose proof (sort_by_spec session_lt x) as [Hp Hs] end.
  destruct (discover_fold_ok parse read_dir read_file is_executable path_env dirs [] dirs (∅, []) eq_refl)
    as [Ho Hnd _].
  { constructor; cbn; [by intros s ?%elem_of_nil|apply NoDup_nil_2|by intros ???? ?%elem_of_nil]. }
  split; [done|]. split; [by rewrite Hp|]. intros s. rewrite Hp. intros Hin.
  destruct (Ho s Hin) as (b & d & a & fs & f & id & ? & ? & ? & _ & ? & _ & _ & ?).
  by exists b, d, a, fs, f.
Qed.

(** Every session that is offered can be started: its command is a program
    that was found executable (absolute, or on the path) and contains no [=]
    that a shell or [env] would take for an assignment, with its arguments,
    expanded from an [Exec] value the strict grammar accepts. *)
Theorem discovered_sessions_runnable parse read_dir read_file is_executable path_env dirs s :
  s ∈ discover_in parse read_dir read_file is_executable path_env dirs →
  ∃ program arguments, command s = program :: arguments ∧ 61 ∉ program
    ∧ executable_available is_executable path_env program = true
    ∧ ∃ contents df x us, parse contents = Some df ∧ exec df = Some x
        ∧ unescape (exec_raw x) = Some us ∧ exec_line us.
Proof.
  intros Hin. unfold discover_in, sort_sessions in Hin.
  match type of Hin with context [sort_by session_lt ?x] => pose proof (sort_by_spec session_lt x) as [Hp _] end.
  rewrite Hp in Hin.
  destruct (discover_fold_ok parse read_dir read_file is_executable path_env dirs [] dirs (∅, []) eq_refl)
    as [Ho _ _].
  { constructor; cbn; [by intros ? ?%elem_of_nil|apply NoDup_nil_2|by intros ???? ?%elem_of_nil]. }
  destruct (Ho s Hin) as (b & d & a & fs & f & id & _ & _ & _ & _ & _ & _ & _ & Hs).
  apply parse_entry_runnable in Hs as [_ (p & args & Hc & He & Ha) (c & df & x & us & _ & ? & _ & ? & _ & ? & ?)].
  exists p, args. split_and!; try done. by exists c, df, x, us.
Qed.

(** *** One directory with one session, [sway] *)

Definition sway_entry : Entry := mkEntry (λ _, None) (λ _, None) (λ _, []).
Definition sway_exec : Exec :=
  mkExec (str "sway --debug") true
    [Some (mkArgument false (str "sway") ((λ c, Some (PChar c)) <$> str "sway"));
     Some (mkArgument false (str "--debug") ((λ c, Some (PChar c)) <$> str "--debug"))].
Definition sway_sessions : list Session :=
  discover_in (λ _, Some (mkFile (Some sway_entry) true (Some (Some (str "Sway"))) (Some sway_exec)))
    (λ _, Some [bytes_of "sway.desktop"; bytes_of "README"])
    (λ _, Some (bytes_of "[Desktop Entry]")) (λ p, bool_decide (p = bytes_of "/bin/sway"))
    (Some (bytes_of "/usr/bin:/bin")) [bytes_of "/a"; bytes_of "/b"].

Lemma discovered_sessions_runnable_witness :
  sway_sessions = [mkSession (str "Sway") [str "sway"; str "--debug"] (str "sway") []]
  ∧ ∃ program arguments,
      [str "sway"; str "--debug"] = program :: arguments ∧ 61 ∉ program
      ∧ executable_available (λ p, bool_decide (p = bytes_of "/bin/sway"))
          (Some (bytes_of "/usr/bin:/bin")) program = true.
Proof.
  assert (sway_sessions = [mkSession (str "Sway") [str "sway"; str "--debug"] (str "sway") []]) as E
    by (vm_compute; reflexivity).
  split; [exact E|].
  assert (mkSession (str "Sway") [str "sway"; str "--debug"] (str "sway") [] ∈ sway_sessions) as Hin
    by (rewrite E; left).
  destruct (discovered_sessions_runnable _ _ _ _ _ _ _ Hin) as (p & args & Hc & He & Ha & _).
  exists p, args. split; [exact Hc|]. split; [exact He|exact Ha].
Defined.
