(* ===== verification/Accounts.v ===== *)
(** * Login accounts ([src/accounts.rs])

    The accounts the greeter offers, built from the properties that
    AccountsService reports.  Whether a character has the Unicode category
    [Format] is answered by a third-party table, a parameter here; the D-Bus
    calls of [load_properties] and [discover] are left out. *)

From S2P Require Import Prelude Utf8 Text Ordering.

Definition MAX_LABEL_CHARS : nat := 80.

Record Account := mkAccount {
  username : rstring;
  display_name : rstring;
  last_login : option Z;
}.
#[export] Instance Account_eq_dec : EqDecision Account.
Proof. solve_decision. Defined.

Record Properties := mkProperties {
  prop_username : rstring;
  prop_real_name : rstring;
  prop_system_account : bool;
  prop_locked : bool;
  prop_last_login : option Z;
}.

Section Accounts.
Context (is_format_control : char → bool).

Definition valid_username (username : rstring) : bool :=
  negb (bool_decide (username = []))
  && (Z.of_nat (length username) <=? 256)
  && negb (existsb (λ c, is_control c || is_whitespace c || is_format_control c) username).

Definition presentation_label (value : rstring) : option rstring :=
  let label :=
    take MAX_LABEL_CHARS
      (List.filter (λ c, negb (is_control c) && negb (is_format_control c))
         (split_whitespace value ≫= λ word, word ++ [32])) in
  let label := trim_end_matches is_whitespace label in
  if bool_decide (label = []) then None else Some label.

Definition override_account (username : rstring) (display_name : option rstring) : Account :=
  mkAccount username
    (default username (presentation_label (default username display_name)))
    None.

Definition from_properties (p : Properties) : option Account :=
  if prop_system_account p || prop_locked p || negb (valid_username (prop_username p)) then None
  else
    let display_name :=
      if bool_decide (prop_real_name p = []) then prop_username p
      else default (prop_username p) (presentation_label (prop_real_name p)) in
    Some (mkAccount (prop_username p) display_name
      (match prop_last_login p with
       | Some time => if 0 <? time then Some time else None
       | None => None
       end)).

(** The loop of [collect_accounts]. *)
Fixpoint collect_loop {E} (results : list (result E Properties)) (accounts : list Account)
    (first_error : option E) : list Account * option E :=
  match results with
  | [] => (accounts, first_error)
  | Ok properties :: results =>
    collect_loop results
      (accounts ++ match from_properties properties with Some a => [a] | None => [] end)
      first_error
  | Err error :: results =>
    collect_loop results accounts
      (match first_error with None => Some error | Some e => Some e end)
  end.

Definition collect_accounts {E} (results : list (result E Properties)) : result E (list Account) :=
  let '(accounts, first_error) := collect_loop results [] None in
  match accounts, first_error with
  | [], Some error => Err error
  | _, _ => Ok (sort_by (key_lt display_name username) accounts)
  end.

End Accounts.

(** [Iterator::max] over the logins. *)
Definition latest_login (accounts : list Account) : option Z :=
  match omap last_login accounts with [] => None | t :: ts => Some (foldl Z.max t ts) end.

Definition preferred_account (accounts : list Account) : option Account :=
  match accounts with
  | [account] => Some account
  | _ =>
    if existsb (λ a, bool_decide (last_login a = None)) accounts then None
    else
      latest ← latest_login accounts;
      match List.filter (λ a, bool_decide (last_login a = Some latest)) accounts with
      | [account] => Some account
      | _ => None
      end
  end.

(** ** Lemmas *)

(** Nothing a terminal or a text layout would interpret. *)
Definition plain (is_format_control : char → bool) (s : rstring) : Prop :=
  Forall (λ c, is_control c = false ∧ is_format_control c = false) s.

Lemma trim_end_prefix p s : trim_end_matches p s `prefix_of` s.
Proof.
  unfold trim_end_matches. destruct (drop_while_suffix p (reverse s)) as [k E].
  exists (reverse k). apply (f_equal reverse) in E. by rewrite reverse_involutive, reverse_app in E.
Qed.

Lemma presentation_label_plain f v l : presentation_label f v = Some l →
  plain f l ∧ (0 < length l ≤ MAX_LABEL_CHARS)%nat.
Proof.
  unfold presentation_label. case_bool_decide as E; [done|]. intros [= <-].
  match goal with |- context [trim_end_matches _ ?x] => set (s := x) in * end.
  destruct (trim_end_prefix is_whitespace s) as [k Hk]. split.
  - assert (plain f s) as Hs.
    { unfold s. apply Forall_take, List.Forall_forall. intros c [_ Hkeep]%filter_In.
      by simp_bool. }
    rewrite Hk in Hs. unfold plain in Hs. by apply Forall_app in Hs as [Hs _].
  - apply (f_equal length) in Hk. rewrite length_app in Hk.
    assert (length s ≤ MAX_LABEL_CHARS)%nat by (unfold s; rewrite length_take; lia).
    destruct (trim_end_matches is_whitespace s); [done|]. cbn [length] in *. lia.
Qed.

Lemma valid_username_spec f u : valid_username f u = true ↔
  u ≠ [] ∧ (length u ≤ 256)%nat ∧ plain f u ∧ Forall (λ c, is_whitespace c = false) u.
Proof.
  unfold valid_username, plain. rewrite !andb_true_iff, !negb_true_iff, bool_decide_eq_false, Z.leb_le.
  rewrite <- not_true_iff_false, existsb_exists, !Forall_forall.
  setoid_rewrite list_elem_of_In. split.
  - intros [[? ?] Hno]. split_and!; [done|lia| |]; intros c Hc;
      destruct (is_control c) eqn:?, (f c) eqn:?, (is_whitespace c) eqn:?; try done;
      exfalso; apply Hno; exists c; split; try done; repeat match goal with E : _ = true |- _ => rewrite E; clear E end; by rewrite ?orb_true_r.
  - intros (? & ? & Hp & Hw). split_and!; [done|lia|]. intros (c & Hc & Hbad).
    destruct (Hp c Hc) as [H1 H2]. by rewrite H1, H2, (Hw c Hc) in Hbad.
Qed.

(** What the greeter may offer. *)
Record presentable (f : char → bool) (a : Account) : Prop := mkPresentable {
  pres_username : valid_username f (username a) = true;
  pres_plain : plain f (display_name a);
  pres_length : (0 < length (display_name a) ≤ 256)%nat;
  pres_login : from_option (λ t, 0 < t) True (last_login a);
}.

Lemma from_properties_presentable f p a : from_properties f p = Some a → presentable f a.
Proof.
  unfold from_properties. destruct (_ || _) eqn:E; [done|]. intros [= <-].
  simp_bool. pose proof (proj1 (valid_username_spec f _) ltac:(eassumption)) as (Hu1 & Hu2 & Hu3 & _).
  assert (0 < length (prop_username p) ≤ 256)%nat by (destruct (prop_username p); [done|cbn in *; lia]).
  constructor; cbn [username display_name last_login]; [done| | |].
  - case_bool_decide; [done|]. destruct (presentation_label _ _) eqn:L; cbn [default from_option]; [|done].
    by apply presentation_label_plain in L as [? _].
  - case_bool_decide; [done|]. destruct (presentation_label _ _) eqn:L; cbn [default from_option]; [|done].
    apply presentation_label_plain in L as [_ ?]. unfold MAX_LABEL_CHARS in *. unfold id. lia.
  - destruct (prop_last_login p) as [t|]; cbn; [|done]. by destruct (Z.ltb_spec 0 t).
Qed.

(** The accounts and the first error a list of answers carries. *)
Definition answered {E} (r : result E Properties) : option Properties :=
  match r with Ok p => Some p | Err _ => None end.
Definition refused {E} (r : result E Properties) : option E :=
  match r with Ok _ => None | Err e => Some e end.

Lemma collect_loop_spec {E} f (rs : list (result E Properties)) : ∀ accounts err,
  collect_loop f rs accounts err
  = (accounts ++ omap (from_properties f) (omap answered rs),
     match err with Some e => Some e | None => head (omap refused rs) end).
Proof.
  induction rs as [|[p|e] rs IH]; intros accounts err; cbn [collect_loop].
  - cbn. rewrite app_nil_r. by destruct err.
  - rewrite IH. cbn. destruct (from_properties f p); cbn; by rewrite <- app_assoc.
  - rewrite IH. cbn. by destruct err.
Qed.

Lemma foldl_max_spec (l : list Z) : ∀ x, x ≤ foldl Z.max x l ∧ Forall (λ y, y ≤ foldl Z.max x l) l
  ∧ foldl Z.max x l ∈ x :: l.
Proof.
  induction l as [|y l IH]; intros x; cbn; [split_and!; [lia|done|left]|].
  destruct (IH (Z.max x y)) as (H1 & H2 & H3). split_and!; [lia|constructor; [lia|done]|].
  apply elem_of_cons in H3 as [->|H3]; [|by do 2 right].
  destruct (Z.max_spec x y) as [[_ ->]|[_ ->]]; [right; left|left].
Qed.

(** [t] bounds every login and is one of them. *)
Lemma latest_login_spec l t :
  Forall (λ a, last_login a ≠ None) l →
  latest_login l = Some t ↔
    (∃ a, a ∈ l ∧ last_login a = Some t) ∧ Forall (λ a, ∃ u, last_login a = Some u ∧ u ≤ t) l.
Proof.
  intros Hall. unfold latest_login.
  assert (∀ t, t ∈ omap last_login l ↔ ∃ a, a ∈ l ∧ last_login a = Some t) as Hin
    by (intros; by rewrite list_elem_of_omap).
  assert (∀ t, Forall (λ a, ∃ u, last_login a = Some u ∧ u ≤ t) l ↔ Forall (λ u, u ≤ t) (omap last_login l)) as Hle.
  { intros t'. rewrite !Forall_forall. rewrite Forall_forall in Hall. setoid_rewrite Hin. split.
    - intros H u (a & Ha & Hu). destruct (H a Ha) as (u' & ? & ?). by simplify_eq.
    - intros H a Ha. destruct (last_login a) as [u|] eqn:E; [|by destruct (Hall a Ha)].
      exists u. split; [done|]. apply H. by exists a. }
  rewrite <- Hin, Hle. destruct (omap last_login l) as [|x xs].
  { split; [done|]. intros [[]%elem_of_nil _]. }
  destruct (foldl_max_spec xs x) as (H1 & H2 & H3). split.
  - intros [= <-]. split; [done|]. by constructor.
  - intros [Ht [Hx Hxs]%Forall_cons]. f_equal. apply Z.le_antisymm.
    + apply elem_of_cons in H3 as [->|H3]; [done|]. rewrite Forall_forall in Hxs. auto.
    + apply elem_of_cons in Ht as [->|Ht]; [done|]. rewrite Forall_forall in H2. auto.
Qed.

Lemma all_known l :
  existsb (λ a, bool_decide (last_login a = None)) l = false ↔ Forall (λ a, last_login a ≠ None) l.
Proof.
  induction l as [|x l IH]; cbn; [done|].
  by rewrite orb_false_iff, IH, Forall_cons, bool_decide_eq_false.
Qed.

(** What the code computes, as a formula. *)
Lemma preferred_account_eq l a : preferred_account l = Some a ↔
  l = [a] ∨ Forall (λ a, last_login a ≠ None) l ∧
    ∃ t, latest_login l = Some t ∧ List.filter (λ a, bool_decide (last_login a = Some t)) l = [a].
Proof.
  unfold preferred_account. destruct l as [|x [|y l]].
  - cbn. split; [done|]. intros [?|(_ & ? & ? & ?)]; done.
  - split; [naive_solver|]. intros [[= <-]|(_ & t & _ & Hf)]; [done|].
    cbn in Hf. destruct (bool_decide _); by simplify_eq.
  - rewrite <- all_known. destruct (existsb _ _); [naive_solver|].
    destruct (latest_login _) as [t|]; cbn [mbind option_bind]; [|naive_solver].
    split; [|intros [?|(_ & t' & [= <-] & ->)]; done].
    intros Hm. right. split; [done|]. exists t. split; [done|].
    destruct (List.filter _ (_ :: _)) as [|z []]; [done|by injection Hm as ->|done].
Qed.

(** The only account with the latest login is the one all others are before. *)
Lemma strict_latest l a :
  (Forall (λ a, last_login a ≠ None) l ∧
    ∃ t, latest_login l = Some t ∧ List.filter (λ a, bool_decide (last_login a = Some t)) l = [a]) ↔
  ∃ pre post t, l = pre ++ a :: post ∧ last_login a = Some t
    ∧ Forall (λ b, ∃ u, last_login b = Some u ∧ u < t) (pre ++ post).
Proof.
  split.
  - intros (Hall & t & [_ Hle]%latest_login_spec & Hf); [|done].
    apply filter_singleton in Hf as (pre & post & -> & Ha%bool_decide_eq_true & Hne).
    exists pre, post, t. split_and!; [done|done|].
    rewrite Forall_forall in *. intros b Hb.
    destruct (Hle b) as (u & Hu & ?); [set_solver|]. exists u. split; [done|].
    specialize (Hne b Hb). simp_bool. assert (u ≠ t) by congruence. lia.
  - intros (pre & post & t & -> & Ha & Hlt).
    assert (Forall (λ b, ∃ u, last_login b = Some u ∧ u ≤ t ∧ (u = t → b = a)) (pre ++ a :: post)) as Hle.
    { apply Forall_app in Hlt as [H1 H2]. apply Forall_app. split; [|apply Forall_cons; split; [by exists t|]].
      all: eapply Forall_impl; [eassumption|]; intros b (u & ? & ?); exists u; split_and!; [done|lia|lia]. }
    assert (Forall (λ a, last_login a ≠ None) (pre ++ a :: post)) as Hall
      by (eapply Forall_impl; [exact Hle|]; intros b (u & ? & _); congruence).
    split; [done|]. exists t. split.
    + apply latest_login_spec; [done|]. split; [exists a; set_solver|].
      eapply Forall_impl; [exact Hle|]. intros b (u & ? & ? & _). by exists u.
    + apply filter_singleton. exists pre, post. split_and!; [done|by apply bool_decide_eq_true_2|].
      eapply Forall_impl; [exact Hlt|]. intros b (u & Hu & ?). apply bool_decide_eq_false_2.
      rewrite Hu. intros [= ->]. lia.
Qed.

(** ** Properties *)

(** The accounts offered are those of the unlocked, non-system users with
    a valid name, each once per answer, sorted by display name and then by
    user name, and every text that is shown is short, visible and free of
    control and format characters.  One readable user is enough: an error is
    reported, the first one, exactly when there is an error and no user. *)
Theorem collect_accounts_offers {E} f (rs : list (result E Properties)) :
  match collect_accounts f rs with
  | Ok l =>
    l ≡ₚ omap (from_properties f) (omap answered rs)
    ∧ StronglySorted (ordered (key_lt display_name username)) l
    ∧ Forall (presentable f) l
    ∧ (l = [] → omap refused rs = [])
  | Err e => omap (from_properties f) (omap answered rs) = [] ∧ head (omap refused rs) = Some e
  end.
Proof.
  unfold collect_accounts. rewrite collect_loop_spec. cbn [app].
  set (l := omap (from_properties f) (omap answered rs)).
  assert (Forall (presentable f) l) as Hl.
  { apply Forall_forall. intros a (p & _ & Hp)%list_elem_of_omap. by eapply from_properties_presentable. }
  destruct (sort_by_spec (key_lt display_name username) l) as [Hp Hs].
  assert (sort_by (key_lt display_name username) l = [] → l = []) as Hnil.
  { intros E0. rewrite E0 in Hp. by apply Permutation_nil in Hp. }
  assert (Forall (presentable f) (sort_by (key_lt display_name username) l)) as Hsl by (by rewrite Hp).
  destruct l as [|a l'], (omap refused rs); cbn [head]; naive_solver.
Qed.

(** The account the greeter selects without asking: the only one, or the
    one whose last login is known and later than every other account's, which
    must all be known. *)
Theorem preferred_account_spec l a :
  preferred_account l = Some a ↔
  l = [a] ∨ ∃ pre post t, l = pre ++ a :: post ∧ last_login a = Some t
    ∧ Forall (λ b, ∃ u, last_login b = Some u ∧ u < t) (pre ++ post).
Proof. by rewrite preferred_account_eq, strict_latest. Qed.
