(* ===== verification/Auth.v ===== *)
(** * The greetd client ([src/auth.rs])

    The requests the greeter sends to the session daemon and the ways it
    starts, restarts and cancels a session.  The daemon, its socket and the
    [greetd_ipc] codec are parameters: a world in which connections are opened
    and requests are answered, or fail.  What happened on the socket is kept in
    a log. *)

From S2P Require Import Prelude Utf8.

(** The messages of [greetd_ipc] the code builds and matches on. *)
Inductive Request :=
| CreateSession (username : rstring)
| PostAuthMessageResponse (response : option rstring)
| StartSession (cmd env : list rstring)
| CancelSession.
#[export] Instance Request_eq_dec : EqDecision Request.
Proof. solve_decision. Defined.

Inductive AuthMessageType := MessageVisible | MessageSecret | MessageInfo | MessageError.
Inductive ErrorType := OtherError | AuthenticationError.
#[export] Instance AuthMessageType_eq_dec : EqDecision AuthMessageType.
Proof. solve_decision. Defined.
#[export] Instance ErrorType_eq_dec : EqDecision ErrorType.
Proof. solve_decision. Defined.
Inductive greetd_response :=
| GSuccess
| GError (error_type : ErrorType) (description : rstring)
| GAuthMessage (auth_message_type : AuthMessageType) (auth_message : rstring).

(** [auth::Response]. *)
Inductive Response :=
| Success
| Error (authentication : bool) (description : rstring)
| Prompt (secret : bool) (message : rstring)
| Message (error : bool) (message : rstring).
#[export] Instance Response_eq_dec : EqDecision Response.
Proof. solve_decision. Defined.

(** [impl From<greetd_ipc::Response> for Response]. *)
Definition from_greetd (r : greetd_response) : Response :=
  match r with
  | GSuccess => Success
  | GError t description => Error (bool_decide (t = AuthenticationError)) description
  | GAuthMessage t message =>
    match t with
    | MessageVisible | MessageSecret => Prompt (bool_decide (t = MessageSecret)) message
    | MessageInfo | MessageError => Message (bool_decide (t = MessageError)) message
    end
  end.

(** A connection, [Client]. *)
Abbreviation Client := Z (only parsing).

Inductive AuthError :=
| MissingSocket
| Io
| CancellationRejected (description : rstring)
| UnexpectedCancellationResponse.

(** What happens on the socket; an exchange that fails has no answer. *)
Inductive event :=
| Refused
| Connected (c : Client)
| Sent (c : Client) (request : Request) (answer : option greetd_response).

Section Client.
Context {W : Type} (socket_connect : W → W * option Client)
  (socket_call : Client → Request → W → W * option greetd_response)
  (GREETD_SOCK : bool).

Abbreviation IO A := (W * list event → (W * list event) * A) (only parsing).

Definition connect_to : IO (result AuthError Client) := λ '(w, log),
  let '(w, c) := socket_connect w in
  match c with
  | Some c => ((w, log ++ [Connected c]), Ok c)
  | None => ((w, log ++ [Refused]), Err Io)
  end.

(** [Client::connect]. *)
Definition connect : IO (result AuthError Client) := λ s,
  if GREETD_SOCK then connect_to s else (s, Err MissingSocket).

Definition exchange (c : Client) (request : Request) : IO (result AuthError Response) := λ '(w, log),
  let '(w, answer) := socket_call c request w in
  ((w, log ++ [Sent c request answer]),
   match answer with Some r => Ok (from_greetd r) | None => Err Io end).

Definition begin_at (username : rstring) : IO (result AuthError (Client * Response)) := λ s,
  let '(s, client) := connect_to s in
  match client with
  | Err e => (s, Err e)
  | Ok client =>
    let '(s, response) := exchange client (CreateSession username) s in
    (s, pair client <$> response)
  end.

Definition begin (username : rstring) : IO (result AuthError (Client * Response)) := λ s,
  if GREETD_SOCK then begin_at username s else (s, Err MissingSocket).

Definition recover_and_begin_at (username : rstring) : IO (result AuthError (Client * Response)) := λ s,
  let '(s, client) := connect_to s in
  let s := match client with
           | Ok client => fst (exchange client CancelSession s)
           | Err _ => s
           end in
  begin_at username s.

Definition recover_and_begin (username : rstring) : IO (result AuthError (Client * Response)) := λ s,
  if GREETD_SOCK then recover_and_begin_at username s else (s, Err MissingSocket).

Definition cancel (client : option Client) : IO (result AuthError unit) := λ s,
  let '(s, client) := match client with Some c => (s, Ok c) | None => connect s end in
  match client with
  | Err e => (s, Err e)
  | Ok client =>
    let '(s, response) := exchange client CancelSession s in
    (s, match response with
        | Err e => Err e
        | Ok Success => Ok tt
        | Ok (Error _ description) => Err (CancellationRejected description)
        | Ok (Prompt _ _) | Ok (Message _ _) => Err UnexpectedCancellationResponse
        end)
  end.

Definition restart_at (client : option Client) (username : rstring) :
    IO (result AuthError (Client * Response)) := λ s,
  let '(s, cancelled) :=
    match client with
    | Some client => let '(s, r) := cancel (Some client) s in (s, is_ok r)
    | None => (s, false)
    end in
  if cancelled then begin_at username s else recover_and_begin_at username s.

Definition restart (client : option Client) (username : rstring) :
    IO (result AuthError (Client * Response)) := λ s,
  if GREETD_SOCK then restart_at client username s else (s, Err MissingSocket).

(** ** The exchanges a start and a restart may make *)

(** The creation of a session for [username], and what it reports. *)
Inductive creation (username : rstring) :
  list event → result AuthError (Client * Response) → Prop :=
| creation_refused : creation username [Refused] (Err Io)
| creation_lost c :
  creation username [Connected c; Sent c (CreateSession username) None] (Err Io)
| creation_answered c answer :
  creation username [Connected c; Sent c (CreateSession username) (Some answer)]
    (Ok (c, from_greetd answer)).

(** A cancellation over a new connection, whose answer does not matter. *)
Inductive recovery : list event → Prop :=
| recovery_refused : recovery [Refused]
| recovery_tried c answer : recovery [Connected c; Sent c CancelSession answer].

(** What precedes a restarted session: the old one was cancelled on its own
    connection, or that was not possible and a recovery was tried. *)
Inductive cancellation : option Client → list event → Prop :=
| cancellation_confirmed c : cancellation (Some c) [Sent c CancelSession (Some GSuccess)]
| cancellation_recovered c answer es :
  answer ≠ Some GSuccess → recovery es →
  cancellation (Some c) (Sent c CancelSession answer :: es)
| cancellation_unknown es : recovery es → cancellation None es.

Lemma begin_at_creation u w log :
  let '(s, r) := begin_at u (w, log) in
  ∃ es, snd s = log ++ es ∧ creation u es r.
Proof using.
  unfold begin_at, connect_to, exchange. destruct (socket_connect w) as [w1 [c|]]; cbn.
  - destruct (socket_call c (CreateSession u) w1) as [w2 [a|]]; cbn;
      rewrite <- app_assoc; eexists; split; try done; constructor.
  - eexists. split; [done|]. constructor.
Qed.

Lemma recover_creation u w log :
  let '(s, r) := recover_and_begin_at u (w, log) in
  ∃ es es', snd s = log ++ es ++ es' ∧ recovery es ∧ creation u es' r.
Proof using.
  unfold recover_and_begin_at, connect_to at 1, exchange. destruct (socket_connect w) as [w1 [c|]].
  - cbn. destruct (socket_call c CancelSession w1) as [w2 a]. cbn.
    pose proof (begin_at_creation u w2 ((log ++ [Connected c]) ++ [Sent c CancelSession a])) as H.
    destruct (begin_at u _) as [s r]. destruct H as (es & -> & H).
    exists [Connected c; Sent c CancelSession a], es. rewrite <- !app_assoc. by repeat constructor.
  - cbn. pose proof (begin_at_creation u w1 (log ++ [Refused])) as H.
    destruct (begin_at u _) as [s r]. destruct H as (es & -> & H).
    exists [Refused], es. rewrite <- !app_assoc. by repeat constructor.
Qed.

Lemma cancel_active c w log :
  let '(s, r) := cancel (Some c) (w, log) in
  ∃ answer, snd s = log ++ [Sent c CancelSession answer]
    ∧ (is_ok r = true ↔ answer = Some GSuccess).
Proof using.
  unfold cancel, exchange. destruct (socket_call c CancelSession w) as [w' [[]|]]; cbn;
    eexists; (split; [done|]); [done|naive_solver| |done].
  destruct auth_message_type; cbn; naive_solver.
Qed.

End Client.

(** ** Properties *)

(** Restarting authentication: whatever the daemon answers, the old
    session is first cancelled on its own connection or, when there is none or
    the cancellation is not confirmed, a recovery cancellation is tried on a
    new one; only then is one session created, for the given user and on a
    fresh connection, and what is reported is that connection with greetd's
    answer to the creation.  Without a socket nothing happens. *)
Theorem restart_trace {W} socket_connect socket_call sock client username (w : W) log :
  let '(s, r) := restart socket_connect socket_call sock client username (w, log) in
  if sock then
    ∃ before after, snd s = log ++ before ++ after
      ∧ cancellation client before ∧ creation username after r
  else s = (w, log) ∧ r = Err MissingSocket.
Proof.
  unfold restart, restart_at. destruct sock; [|done]. destruct client as [c|].
  - pose proof (cancel_active socket_connect socket_call true c w log) as Hc.
    destruct (cancel _ _ _ _ (w, log)) as [[w1 log1] rc]. destruct Hc as (answer & Hlog & Hok).
    cbn in Hlog. subst log1. destruct (is_ok rc).
    + pose proof (begin_at_creation socket_connect socket_call username w1 (log ++ [Sent c CancelSession answer])) as H.
      destruct (begin_at _ _ _ _) as [s r]. destruct H as (es & -> & H).
      exists [Sent c CancelSession answer], es. rewrite <- app_assoc.
      rewrite (proj1 Hok eq_refl). by repeat constructor.
    + pose proof (recover_creation socket_connect socket_call username w1 (log ++ [Sent c CancelSession answer])) as H.
      destruct (recover_and_begin_at _ _ _ _) as [s r]. destruct H as (es & es' & -> & Hr & H).
      exists (Sent c CancelSession answer :: es), es'. rewrite <- app_assoc. split_and!; [done| |done].
      constructor; [|done]. intros E. by apply Hok in E.
  - pose proof (recover_creation socket_connect socket_call username w log) as H.
    destruct (recover_and_begin_at _ _ _ _) as [s r]. destruct H as (es & es' & -> & Hr & H).
    exists es, es'. split_and!; [done|by constructor|done].
Qed.
