(* ===== verification/Greeter.v ===== *)
(** * The greeter application ([src/app/mod.rs], [src/app/auth_flow.rs],
    [src/app/focus.rs])

    The state of the greeter and its [update] function: the authentication
    flow, account and session selection, power actions, closing, keyboard focus
    and the tasks each message starts.  A task is what the toolkit runs in the
    background; its completion comes back as a message ([GreeterRuns]).

    Left out of the state: the wallpaper and the renderer information it waits
    for, the clock, the layout caches and the widget identifiers.  The messages
    that only concern them are kept and leave this state as it is. *)

From S2P Require Import Prelude Utf8 Conversation Ordering Sessions Accounts Auth.

#[local] Arguments str : simpl never.

(** ** Data *)

(** [power::Action]. *)
Inductive PowerAction := Suspend | Reboot | PowerOff.
#[export] Instance PowerAction_eq_dec : EqDecision PowerAction.
Proof. solve_decision. Defined.

Definition label (a : PowerAction) : rstring :=
  match a with
  | Suspend => str "Sleep"
  | Reboot => str "Restart"
  | PowerOff => str "Shut Down"
  end.

Abbreviation Window := Z (only parsing).
Abbreviation Attempt := Z (only parsing).

Inductive Closing :=
| WaitingForClient (w : Window)
| WaitingForUserSelectionCancellation (w : Window)
| Cancelling (w : Window)
| Dispatching (w : Window).

Definition is_cleaning (c : Closing) (window : Window) : bool :=
  match c with
  | WaitingForClient id | WaitingForUserSelectionCancellation id | Cancelling id => id =? window
  | Dispatching _ => false
  end.

Inductive PowerState := Idle | Confirming (a : PowerAction) | Executing (a : PowerAction).
#[export] Instance PowerState_eq_dec : EqDecision PowerState.
Proof. solve_decision. Defined.

Inductive PageNavigation := Up | Down | Start | End.

Inductive Phase :=
| Failed | DiscoveringUsers | CancellingForUserSelection | SelectingUser
| UserSelectionCancellationFailed | CreatingSession | WaitingForInput | Authenticating
| StartingSession.
#[export] Instance Phase_eq_dec : EqDecision Phase.
Proof. solve_decision. Defined.

(** [focus::Target] and [focus::Navigation]. *)
Inductive Target :=
| TAccount (index : nat) | RetryAccountSelection | AuthenticationInput | TSubmit
| RetryAuthentication | TChangeUser | TSession | TRetrySession | TPower (a : PowerAction)
| DialogCancel | DialogConfirm.
#[export] Instance Target_eq_dec : EqDecision Target.
Proof. solve_decision. Defined.

Inductive Navigation := Next | Previous | DirectionNext | DirectionPrevious | Activate.

(** The authentication input's widget, or another one. *)
Inductive WidgetId := InputId | OtherId (n : Z).

#[export] Instance Session_eq_dec : EqDecision Session.
Proof. solve_decision. Defined.

Inductive StartupMode := ConfiguredIdentity | DiscoverAccounts | MissingSession.

#[projections(primitive)]
Record App := mkApp {
  username : rstring;
  display_name : rstring;
  accounts : list Account;
  focus_target : option Target;
  focus_before_modal : option Target;
  conversation : Conversation.Conversation;
  session_message : option rstring;
  power_message : option rstring;
  power_message_is_error : bool;
  preview_message : option rstring;
  phase : Phase;
  client : option Client;
  sessions : list Session;
  selected_session : option Session;
  session_menu_open : bool;
  power_state : PowerState;
  selection_session_cancelled : bool;
  closing : option Closing;
  preview : bool;
}.

Definition set_username (x : rstring) (a : App) : App :=
  mkApp x (display_name a) (accounts a) (focus_target a) (focus_before_modal a) (conversation a)
    (session_message a) (power_message a) (power_message_is_error a) (preview_message a) (phase
    a) (client a) (sessions a) (selected_session a) (session_menu_open a) (power_state a)
    (selection_session_cancelled a) (closing a) (preview a).
Definition set_display_name (x : rstring) (a : App) : App :=
  mkApp (username a) x (accounts a) (focus_target a) (focus_before_modal a) (conversation a)
    (session_message a) (power_message a) (power_message_is_error a) (preview_message a) (phase
    a) (client a) (sessions a) (selected_session a) (session_menu_open a) (power_state a)
    (selection_session_cancelled a) (closing a) (preview a).
Definition set_accounts (x : list Account) (a : App) : App :=
  mkApp (username a) (display_name a) x (focus_target a) (focus_before_modal a) (conversation a)
    (session_message a) (power_message a) (power_message_is_error a) (preview_message a) (phase
    a) (client a) (sessions a) (selected_session a) (session_menu_open a) (power_state a)
    (selection_session_cancelled a) (closing a) (preview a).
Definition set_focus_target (x : option Target) (a : App) : App :=
  mkApp (username a) (display_name a) (accounts a) x (focus_before_modal a) (conversation a)
    (session_message a) (power_message a) (power_message_is_error a) (preview_message a) (phase
    a) (client a) (sessions a) (selected_session a) (session_menu_open a) (power_state a)
    (selection_session_cancelled a) (closing a) (preview a).
Definition set_focus_before_modal (x : option Target) (a : App) : App :=
  mkApp (username a) (display_name a) (accounts a) (focus_target a) x (conversation a)
    (session_message a) (power_message a) (power_message_is_error a) (preview_message a) (phase
    a) (client a) (sessions a) (selected_session a) (session_menu_open a) (power_state a)
    (selection_session_cancelled a) (closing a) (preview a).
Definition set_conversation (x : Conversation.Conversation) (a : App) : App :=
  mkApp (username a) (display_name a) (accounts a) (focus_target a) (focus_before_modal a) x
    (session_message a) (power_message a) (power_message_is_error a) (preview_message a) (phase
    a) (client a) (sessions a) (selected_session a) (session_menu_open a) (power_state a)
    (selection_session_cancelled a) (closing a) (preview a).
Definition set_session_message (x : option rstring) (a : App) : App :=
  mkApp (username a) (display_name a) (accounts a) (focus_target a) (focus_before_modal a)
    (conversation a) x (power_message a) (power_message_is_error a) (preview_message a) (phase
    a) (client a) (sessions a) (selected_session a) (session_menu_open a) (power_state a)
    (selection_session_cancelled a) (closing a) (preview a).
Definition set_power_message (x : option rstring) (a : App) : App :=
  mkApp (username a) (display_name a) (accounts a) (focus_target a) (focus_before_modal a)
    (conversation a) (session_message a) x (power_message_is_error a) (preview_message a) (phase
    a) (client a) (sessions a) (selected_session a) (session_menu_open a) (power_state a)
    (selection_session_cancelled a) (closing a) (preview a).
Definition set_power_message_is_error (x : bool) (a : App) : App :=
  mkApp (username a) (display_name a) (accounts a) (focus_target a) (focus_before_modal a)
    (conversation a) (session_message a) (power_message a) x (preview_message a) (phase a)
    (client a) (sessions a) (selected_session a) (session_menu_open a) (power_state a)
    (selection_session_cancelled a) (closing a) (preview a).
Definition set_preview_message (x : option rstring) (a : App) : App :=
  mkApp (username a) (display_name a) (accounts a) (focus_target a) (focus_before_modal a)
    (conversation a) (session_message a) (power_message a) (power_message_is_error a) x (phase
    a) (client a) (sessions a) (selected_session a) (session_menu_open a) (power_state a)
    (selection_session_cancelled a) (closing a) (preview a).
Definition set_phase (x : Phase) (a : App) : App :=
  mkApp (username a) (display_name a) (accounts a) (focus_target a) (focus_before_modal a)
    (conversation a) (session_message a) (power_message a) (power_message_is_error a)
    (preview_message a) x (client a) (sessions a) (selected_session a) (session_menu_open a)
    (power_state a) (selection_session_cancelled a) (closing a) (preview a).
Definition set_client (x : option Client) (a : App) : App :=
  mkApp (username a) (display_name a) (accounts a) (focus_target a) (focus_before_modal a)
    (conversation a) (session_message a) (power_message a) (power_message_is_error a)
    (preview_message a) (phase a) x (sessions a) (selected_session a) (session_menu_open a)
    (power_state a) (selection_session_cancelled a) (closing a) (preview a).
Definition set_sessions (x : list Session) (a : App) : App :=
  mkApp (username a) (display_name a) (accounts a) (focus_target a) (focus_before_modal a)
    (conversation a) (session_message a) (power_message a) (power_message_is_error a)
    (preview_message a) (phase a) (client a) x (selected_session a) (session_menu_open a)
    (power_state a) (selection_session_cancelled a) (closing a) (preview a).
Definition set_selected_session (x : option Session) (a : App) : App :=
  mkApp (username a) (display_name a) (accounts a) (focus_target a) (focus_before_modal a)
    (conversation a) (session_message a) (power_message a) (power_message_is_error a)
    (preview_message a) (phase a) (client a) (sessions a) x (session_menu_open a) (power_state
    a) (selection_session_cancelled a) (closing a) (preview a).
Definition set_session_menu_open (x : bool) (a : App) : App :=
  mkApp (username a) (display_name a) (accounts a) (focus_target a) (focus_before_modal a)
    (conversation a) (session_message a) (power_message a) (power_message_is_error a)
    (preview_message a) (phase a) (client a) (sessions a) (selected_session a) x (power_state a)
    (selection_session_cancelled a) (closing a) (preview a).
Definition set_power_state (x : PowerState) (a : App) : App :=
  mkApp (username a) (display_name a) (accounts a) (focus_target a) (focus_before_modal a)
    (conversation a) (session_message a) (power_message a) (power_message_is_error a)
    (preview_message a) (phase a) (client a) (sessions a) (selected_session a)
    (session_menu_open a) x (selection_session_cancelled a) (closing a) (preview a).
Definition set_selection_session_cancelled (x : bool) (a : App) : App :=
  mkApp (username a) (display_name a) (accounts a) (focus_target a) (focus_before_modal a)
    (conversation a) (session_message a) (power_message a) (power_message_is_error a)
    (preview_message a) (phase a) (client a) (sessions a) (selected_session a)
    (session_menu_open a) (power_state a) x (closing a) (preview a).
Definition set_closing (x : option Closing) (a : App) : App :=
  mkApp (username a) (display_name a) (accounts a) (focus_target a) (focus_before_modal a)
    (conversation a) (session_message a) (power_message a) (power_message_is_error a)
    (preview_message a) (phase a) (client a) (sessions a) (selected_session a)
    (session_menu_open a) (power_state a) (selection_session_cancelled a) x (preview a).

Inductive Message :=
| Tick | WallpaperFrameReady | WallpaperAllocated | RendererInformation
| InputChanged (value : rstring)
| Submit | Retry | RetrySession
| AuthResult (attempt : Attempt) (r : result rstring (option Client * Auth.Response))
| AccountsResult (r : result rstring (list Account))
| ChangeUser
| UserSelectionCancelled (attempt : Attempt) (r : result rstring unit)
| UserSelectionCancellationSlow (attempt : Attempt)
| RetryUserSelectionCancellation
| SelectAccount (account : Account)
| NavigateFocus (n : Navigation) | NavigateModal (n : Navigation)
| SyncWidgetFocus | WidgetFocused (focused : WidgetId)
| NavigatePage (n : PageNavigation)
| SelectSession (session : Session)
| SessionMenuOpened | SessionMenuClosed
| OutputLayoutChanged | WindowResized
| AskPower (a : PowerAction) | CancelPower | ConfirmPower (a : PowerAction)
| PowerResult (r : result rstring unit)
| Escape
| CloseRequested (w : Window) | SessionCancelled (w : Window) | CloseTimeout (w : Window).

(** What [update] hands to the toolkit. *)
Inductive Task :=
| Begin (username : rstring) (attempt : Attempt) (recover : bool)
| Restart (client : option Client) (username : rstring) (attempt : Attempt)
| Exchange (client : Client) (request : Request) (attempt : Attempt)
| CancelForClose (client : option Client) (w : Window)
| CancelForUserSelection (client : option Client) (attempt : Attempt)
| UserSelectionTimer (attempt : Attempt)
| CloseTimer (w : Window)
| CloseWindow (w : Window)
| Exit
| ListAccounts
| ExecutePower (a : PowerAction)
| FocusInput | RevealInput | ClearFocus | FindFocused
| RevealAccount (username : rstring)
| ScrollPages (n : PageNavigation).

(** ** [auth_flow.rs]: the authentication transition *)

Inductive AuthRequest := AuthStartSession (cmd env : list rstring).
Definition into_greetd (r : AuthRequest) : Request :=
  match r with AuthStartSession cmd env => StartSession cmd env end.

Inductive AuthEffect :=
| APrompt (secret : bool) (message : rstring)
| AAcknowledge (error : bool) (message : rstring)
| AStartSession (r : AuthRequest)
| AExit
| AFail (message : rstring).

Record AuthTransition := mkTransition { to_phase : Phase; effect : AuthEffect }.

(** How a greetd answer reads in the conversation. *)
Definition normalize (r : Auth.Response) : Conversation.Response :=
  match r with
  | Auth.Prompt secret message => Conversation.Prompt secret message
  | Auth.Message error message => Conversation.Notice error message
  | Auth.Success => Conversation.Success
  | Auth.Error true _ => Conversation.Failure (str "Authentication failed")
  | Auth.Error false description => Conversation.Failure description
  end.

Definition transition (c : Conversation.Conversation) (phase : Phase) (attempt : Attempt)
    (response : Auth.Response) (session : option Session) :
    Conversation.Conversation * option AuthTransition :=
  if negb (Conversation.accepts c attempt) then (c, None)
  else if bool_decide (phase = StartingSession) && bool_decide (response = Auth.Success) then
    (c, Some (mkTransition phase AExit))
  else
    let '(c, eff) := Conversation.receive attempt (normalize response) c in
    (c, match eff with
        | None => None
        | Some EPrompt =>
          Some (mkTransition WaitingForInput (APrompt (Conversation.secret c) (Conversation.prompt c)))
        | Some ENotice =>
          Some (mkTransition phase
            (AAcknowledge (Conversation.message_is_error c) (default [] (Conversation.message c))))
        | Some EAuthenticated =>
          Some (match session with
                | Some session =>
                  mkTransition StartingSession
                    (AStartSession (AuthStartSession (command session) (environment session)))
                | None => mkTransition Failed (AFail (str "No valid Wayland session is selected"))
                end)
        | Some EFailed =>
          Some (mkTransition Failed (AFail (default [] (Conversation.message c))))
        end).

Definition acknowledge_request : Request := PostAuthMessageResponse None.

(** ** [focus.rs] *)

Definition close_session_menu (a : App) : App := set_session_menu_open false a.

Definition power_idle (a : App) : bool := bool_decide (power_state a = Idle).
Definition confirming (a : App) : bool :=
  match power_state a with Confirming _ => true | _ => false end.
Definition not_closing (a : App) : bool :=
  match closing a with None => true | Some _ => false end.
Definition has_session (a : App) : bool :=
  match selected_session a with Some _ => true | None => false end.

Definition power_dialog_interactive (a : App) : bool := not_closing a && confirming a.

Definition can_request_power (a : App) : bool :=
  not_closing a && power_idle a
  && match phase a with
     | WaitingForInput | Failed | SelectingUser | UserSelectionCancellationFailed => true
     | _ => false
     end.

Definition can_change_user (a : App) : bool :=
  not_closing a && power_idle a && (1 <? Z.of_nat (length (accounts a)))
  && match phase a with WaitingForInput | Failed => true | _ => false end.

Definition can_select_session (a : App) : bool :=
  not_closing a && power_idle a && has_session a
  && match phase a with Authenticating | StartingSession => false | _ => true end.

Definition can_select_account (a : App) : bool :=
  not_closing a && power_idle a && bool_decide (phase a = SelectingUser).

Definition focus_order (a : App) : list Target :=
  match power_state a, closing a with
  | Confirming _, _ => [DialogCancel; DialogConfirm]
  | Executing _, _ | _, Some _ => []
  | Idle, None =>
    match phase a with
    | SelectingUser => if can_select_account a then TAccount <$> seq 0 (length (accounts a)) else []
    | UserSelectionCancellationFailed => [RetryAccountSelection]
    | WaitingForInput => [AuthenticationInput; TSubmit]
    | Failed =>
      if has_session a then
        if negb (bool_decide (username a = [])) then [RetryAuthentication]
        else [RetryAccountSelection]
      else []
    | _ => []
    end
    ++ (if can_change_user a then [TChangeUser] else [])
    ++ (if can_select_session a && has_session a then [TSession] else [])
    ++ (if bool_decide (phase a = Failed) && negb (has_session a) then [TRetrySession] else [])
    ++ (if can_request_power a then [TPower Suspend; TPower Reboot; TPower PowerOff] else [])
  end.

Definition reveal_account (index : nat) (a : App) : list Task :=
  match accounts a !! index with
  | Some account => [RevealAccount (Accounts.username account)]
  | None => []
  end.

Definition set_focus (target : Target) (a : App) : App * list Task :=
  let a := if bool_decide (target = TSession) then a else close_session_menu a in
  let a := set_focus_target (Some target) a in
  (a, match target with
      | AuthenticationInput => [FocusInput; RevealInput]
      | TAccount index => reveal_account index a
      | _ => [ClearFocus]
      end).

Definition focus_input (a : App) : App * list Task := set_focus AuthenticationInput a.

Definition no_focus (a : App) : App * list Task :=
  (set_focus_target None (close_session_menu a), [ClearFocus]).

Definition focus_first (a : App) : App * list Task :=
  match focus_order a with
  | target :: _ => set_focus target a
  | [] => no_focus a
  end.

Definition reveal_focused_input (a : App) : list Task :=
  if bool_decide (focus_target a = Some AuthenticationInput) then [RevealInput] else [].

Definition blur_input (a : App) : App * list Task :=
  let a := close_session_menu a in
  let a := if bool_decide (focus_target a = Some AuthenticationInput)
           then set_focus_target None a else a in
  (a, [ClearFocus]).

Definition sync_widget_focus (a : App) : App * list Task :=
  (if bool_decide (focus_target a = Some AuthenticationInput) then set_focus_target None a else a,
   [FindFocused]).

Definition apply_widget_focus (focused : WidgetId) (a : App) : App * list Task :=
  (match focused with
   | InputId =>
     if bool_decide (phase a = WaitingForInput)
     then set_focus_target (Some AuthenticationInput) a else a
   | OtherId _ => a
   end, []).

Definition enter_power_dialog (a : App) : App * list Task :=
  set_focus DialogCancel (set_focus_before_modal (focus_target a) a).

Definition leave_power_dialog (a : App) : App * list Task :=
  let order := focus_order a in
  let before := focus_before_modal a in
  let a := set_focus_before_modal None a in
  let target :=
    match before with
    | Some target => if bool_decide (target ∈ order) then Some target else head order
    | None => head order
    end in
  match target with
  | Some target => set_focus target a
  | None => no_focus a
  end.

(** [Iterator::position]. *)
Fixpoint position {A} `{EqDecision A} (x : A) (l : list A) : option nat :=
  match l with
  | [] => None
  | y :: l => if bool_decide (y = x) then Some O else S <$> position x l
  end.

(** [(index as isize + delta).rem_euclid(len)]. *)
Definition step_index (index : nat) (delta : Z) (len : nat) : nat :=
  Z.to_nat ((Z.of_nat index + delta) mod Z.of_nat len).

Definition move_focus (delta : Z) (a : App) : App * list Task :=
  let order := focus_order a in
  if bool_decide (order = []) then no_focus a
  else
    let index :=
      match focus_target a ≫= λ target, position target order with
      | Some index => step_index index delta (length order)
      | None => if delta <? 0 then (length order - 1)%nat else 0%nat
      end in
    match order !! index with
    | Some target => set_focus target a
    | None => (a, [])
    end.

Definition cycle_session (delta : Z) (a : App) : App * list Task :=
  if bool_decide (sessions a = []) then (a, [])
  else
    let current := default 0%nat (selected_session a ≫= λ s, position s (sessions a)) in
    let next := step_index current delta (length (sessions a)) in
    (match sessions a !! next with
     | Some s => set_selected_session (Some s) a
     | None => a
     end, []).

Definition move_directional (delta : Z) (a : App) : App * list Task :=
  match focus_target a with
  | Some (TAccount index) =>
    if can_select_account a && negb (bool_decide (accounts a = [])) then
      set_focus (TAccount (step_index index delta (length (accounts a)))) a
    else (a, [])
  | Some TSession => if can_select_session a then cycle_session delta a else (a, [])
  | Some DialogCancel | Some DialogConfirm => move_focus delta a
  | _ => (a, [])
  end.

(** ** [auth_flow.rs]: the handlers *)

Definition fail (message : rstring) (a : App) : App * list Task :=
  let a := set_phase Failed a in
  focus_first (set_conversation (Conversation.fail message (conversation a)) a).

Definition set_auth_notice (message : rstring) (error : bool) (a : App) : App :=
  set_conversation (Conversation.set_notice message error (conversation a)) a.

Definition lost_connection : rstring := str "Lost connection to greetd".

Definition handle_auth_response (response : Auth.Response) (a : App) : App * list Task :=
  let '(c, t) := transition (conversation a) (phase a) (Conversation.attempt (conversation a))
                   response (selected_session a) in
  let a := set_conversation c a in
  match t with
  | None => (a, [])
  | Some t =>
    let a := set_phase (to_phase t) a in
    match effect t with
    | APrompt _ _ => focus_input a
    | AAcknowledge error message =>
      let a := set_auth_notice message error a in
      match client a with
      | None => fail lost_connection a
      | Some client =>
        (a, [Exchange client acknowledge_request (Conversation.attempt (conversation a))])
      end
    | AExit => (a, [Exit])
    | AStartSession request =>
      match client a with
      | None => fail lost_connection a
      | Some client =>
        (a, [Exchange client (into_greetd request) (Conversation.attempt (conversation a))])
      end
    | AFail message => fail message a
    end
  end.

Definition cancel_for_close (client : option Client) (window : Window) : list Task :=
  [CancelForClose client window].
Definition close_timeout (window : Window) : list Task := [CloseTimer window].
Definition cancel_for_user_selection (client : option Client) (attempt : Attempt) : list Task :=
  [CancelForUserSelection client attempt; UserSelectionTimer attempt].

Definition handle_auth_result (attempt : Attempt)
    (r : result rstring (option Client * Auth.Response)) (a : App) : App * list Task :=
  if negb (Conversation.accepts (conversation a) attempt) then (a, [])
  else
    match closing a with
    | Some (WaitingForClient window) =>
      let client := match r with Ok (client, _) => client | Err _ => None end in
      let a := set_conversation (Conversation.invalidate_attempt (conversation a)) a in
      (set_closing (Some (Cancelling window)) a, cancel_for_close client window)
    | _ =>
      match r with
      | Ok (client, response) =>
        let a := match client with Some c => set_client (Some c) a | None => a end in
        handle_auth_response response a
      | Err error => fail error a
      end
    end.

(** ** [mod.rs]: the handlers *)

Definition begin_attempt (a : App) : App * Attempt :=
  let '(c, attempt) := Conversation.begin_attempt (conversation a) in (set_conversation c a, attempt).
Definition set_notice (message : rstring) (error : bool) (a : App) : App :=
  set_conversation (Conversation.set_notice message error (conversation a)) a.
Definition clear_notice (a : App) : App :=
  set_conversation (Conversation.clear_notice (conversation a)) a.
Definition invalidate_attempt (a : App) : App :=
  set_conversation (Conversation.invalidate_attempt (conversation a)) a.

Definition select_a_user : rstring := str "Select a user".
Definition changing_user : rstring := str "Changing user" ++ [ellipsis].
Definition still_changing_user : rstring := str "Still changing user" ++ [ellipsis].
Definition no_valid_sessions : rstring := str "No valid Wayland sessions are installed".

(** [&mut client.take()]. *)
Definition take_client (a : App) : App * option Client := (set_client None a, client a).

Definition select_account (account : Account) (a : App) : App * list Task :=
  let replacing_account := negb (bool_decide (username a = [])) in
  let a := set_username (Accounts.username account) a in
  let a := set_display_name (Accounts.display_name account) a in
  let a := set_focus_target None (close_session_menu a) in
  let a := set_phase CreatingSession a in
  let '(a, attempt) := begin_attempt a in
  let recover := negb (selection_session_cancelled a) in
  let a := set_selection_session_cancelled false a in
  if preview a then
    let c := fst (Conversation.receive attempt (Conversation.Prompt true (str "Password")) (conversation a)) in
    let a := set_phase WaitingForInput (set_conversation c a) in
    focus_input
      (set_preview_message (Some (str "Preview mode: credentials and power actions are simulated")) a)
  else if replacing_account then
    let '(a, client) := take_client a in
    (a, [Restart client (username a) attempt])
  else (a, [Begin (username a) attempt recover]).

Definition retry_authentication (a : App) : App * list Task :=
  let a := set_phase CreatingSession a in
  let '(a, client) := take_client a in
  let '(a, attempt) := begin_attempt a in
  (a, [Restart client (username a) attempt]).

Definition finish_preview_user_selection (a : App) : App * list Task :=
  set_focus (TAccount 0) (set_notice select_a_user false (set_phase SelectingUser a)).

Definition change_user (a : App) : App * list Task :=
  let '(a, client) := take_client a in
  let '(a, attempt) := begin_attempt a in
  let a := set_display_name select_a_user (set_username [] a) in
  let a := set_selection_session_cancelled false a in
  let a := set_phase CancellingForUserSelection a in
  let a := set_notice changing_user false a in
  let '(a, focus) := focus_first a in
  if preview a then finish_preview_user_selection a
  else (a, cancel_for_user_selection client attempt ++ focus).

(** [RetryUserSelectionCancellation] in its phase. *)
Definition retry_user_selection_cancellation (a : App) : App * list Task :=
  let '(a, attempt) := begin_attempt a in
  let a := set_phase CancellingForUserSelection a in
  let a := set_notice changing_user false a in
  let '(a, focus) := focus_first a in
  if preview a then finish_preview_user_selection a
  else (a, cancel_for_user_selection None attempt ++ focus).

Definition accounts_result (r : result rstring (list Account)) (a : App) : App * list Task :=
  match r with
  | Ok [] => fail (str "AccountsService found no unlocked non-system users") a
  | Ok found =>
    let a := set_accounts found a in
    match preferred_account (accounts a) with
    | Some account => select_account account a
    | None => set_focus (TAccount 0) (set_notice select_a_user false (set_phase SelectingUser a))
    end
  | Err error => fail error a
  end.

Definition user_selection_cancelled (attempt : Attempt) (r : result rstring unit) (a : App) :
    App * list Task :=
  if negb (Conversation.accepts (conversation a) attempt) then (a, [])
  else
    match closing a with
    | Some (WaitingForUserSelectionCancellation window) =>
      (set_closing (Some (Dispatching window)) a, [CloseWindow window])
    | _ =>
      if negb (bool_decide (phase a = CancellingForUserSelection)) then (a, [])
      else
        match r with
        | Ok tt =>
          let a := set_selection_session_cancelled true (set_phase SelectingUser a) in
          set_focus (TAccount 0) (set_notice select_a_user false a)
        | Err error =>
          let a := set_phase UserSelectionCancellationFailed a in
          set_focus RetryAccountSelection (set_notice error true a)
        end
    end.

Definition discover_accounts : list Task := [ListAccounts].

(** [RetrySession] in its phase; [found] is what session discovery returns. *)
Definition retry_session (found : list Session) (a : App) : App * list Task :=
  if preview a then
    (set_preview_message (Some (str "Preview mode: session discovery was not retried")) a, [])
  else
    let a := set_selected_session (head found) (set_sessions found a) in
    if negb (has_session a) then (set_session_message (Some no_valid_sessions) a, [])
    else
      let a := set_session_message None a in
      if bool_decide (username a = []) then
        (clear_notice (set_phase DiscoveringUsers a), discover_accounts)
      else retry_authentication a.

(** [Retry] in its phase. *)
Definition retry (a : App) : App * list Task :=
  if preview a then (set_notice (str "Preview: retry was not sent") false a, [])
  else if bool_decide (username a = []) then
    (clear_notice (set_phase DiscoveringUsers a), discover_accounts)
  else retry_authentication a.

(** [Submit] while the conversation waits. *)
Definition submit (a : App) : App * list Task :=
  if preview a then
    let a := set_conversation (Conversation.clear_response (conversation a)) a in
    focus_input (set_preview_message (Some (str "Preview mode: credentials were not sent")) a)
  else
    match client a with
    | None => fail lost_connection a
    | Some client =>
      let '(c, submitted) := Conversation.submit (conversation a) in
      let a := set_conversation c a in
      match submitted with
      | None => (a, [])
      | Some (attempt, response) =>
        (set_phase Authenticating a,
         [Exchange client (PostAuthMessageResponse (Some response)) attempt])
      end
    end.

Definition ask_power (action : PowerAction) (a : App) : App * list Task :=
  let a := set_focus_target (Some (TPower action)) a in
  enter_power_dialog (set_power_message None (set_power_state (Confirming action) a)).

Definition cancel_power (a : App) : App * list Task :=
  leave_power_dialog (set_power_state Idle a).

(** [str::to_lowercase] on the ASCII labels. *)
Definition to_lowercase (s : rstring) : rstring :=
  (λ c, if (65 <=? c) && (c <=? 90) then c + 32 else c) <$> s.

(** [ConfirmPower] for the action in the dialog. *)
Definition confirm_power (action : PowerAction) (a : App) : App * list Task :=
  if preview a then
    let a := set_power_state Idle a in
    let a := set_power_message
      (Some (str "Preview: " ++ to_lowercase (label action) ++ str " was not requested")) a in
    leave_power_dialog (set_power_message_is_error false a)
  else (set_focus_target None (set_power_state (Executing action) a), [ExecutePower action]).

Definition power_result (r : result rstring unit) (a : App) : App * list Task :=
  match r with
  | Ok tt =>
    if bool_decide (power_state a = Executing Suspend)
    then leave_power_dialog (set_power_message None (set_power_state Idle a))
    else (a, [])
  | Err error =>
    let a := set_power_message (Some (bounded_text error)) (set_power_state Idle a) in
    leave_power_dialog (set_power_message_is_error true a)
  end.

Definition close_requested (window : Window) (a : App) : App * list Task :=
  if preview a then (invalidate_attempt a, [CloseWindow window])
  else if selection_session_cancelled a then
    (set_closing (Some (Dispatching window)) a, [CloseWindow window])
  else if bool_decide (phase a = CancellingForUserSelection) then
    (set_closing (Some (WaitingForUserSelectionCancellation window)) a, close_timeout window)
  else
    match client a with
    | Some _ =>
      let a := set_closing (Some (Cancelling window)) (invalidate_attempt a) in
      let '(a, client) := take_client a in
      (a, cancel_for_close client window ++ close_timeout window)
    | None =>
      if bool_decide (phase a = CreatingSession) then
        (set_closing (Some (WaitingForClient window)) a, close_timeout window)
      else
        (set_closing (Some (Cancelling window)) (invalidate_attempt a),
         cancel_for_close None window ++ close_timeout window)
    end.

Definition cleaning (window : Window) (a : App) : bool :=
  match closing a with Some c => is_cleaning c window | None => false end.

Definition session_cancelled (window : Window) (a : App) : App * list Task :=
  if cleaning window a then (set_closing (Some (Dispatching window)) a, [CloseWindow window])
  else (a, []).

Definition close_timed_out (window : Window) (a : App) : App * list Task :=
  if cleaning window a then
    (set_closing (Some (Dispatching window)) (invalidate_attempt a), [CloseWindow window])
  else (a, []).

(** The two filters at the head of [update]. *)
Definition allowed_while_closing (c : Closing) (m : Message) : bool :=
  match c, m with
  | WaitingForClient _, (AuthResult _ _ | SessionCancelled _ | CloseTimeout _) => true
  | WaitingForUserSelectionCancellation _, (UserSelectionCancelled _ _ | CloseTimeout _) => true
  | Cancelling _, (SessionCancelled _ | CloseTimeout _) => true
  | _, _ => false
  end.

Definition allowed_with_power (p : PowerState) (m : Message) : bool :=
  match m with
  | Tick | WallpaperFrameReady | WallpaperAllocated | RendererInformation
  | OutputLayoutChanged | AuthResult _ _ | AccountsResult _
  | CloseRequested _ | SessionCancelled _ | CloseTimeout _ => true
  | CancelPower | NavigateModal _ | Escape =>
    match p with Confirming _ => true | _ => false end
  | ConfirmPower actual => bool_decide (p = Confirming actual)
  | PowerResult _ => match p with Executing _ => true | _ => false end
  | _ => false
  end.

Definition admitted (a : App) (m : Message) : bool :=
  match closing a with Some c => allowed_while_closing c m | None => true end
  && (power_idle a || allowed_with_power (power_state a) m).

(** [activate_focus]: what the focused target does, through [update]. *)
Definition activation (a : App) : option Message :=
  match focus_target a with
  | Some (TAccount index) =>
    if can_select_account a then SelectAccount <$> accounts a !! index else None
  | Some RetryAccountSelection =>
    Some (if bool_decide (phase a = UserSelectionCancellationFailed)
          then RetryUserSelectionCancellation else Retry)
  | Some AuthenticationInput => None
  | Some TSubmit => Some Submit
  | Some RetryAuthentication => Some Retry
  | Some TChangeUser => Some ChangeUser
  | Some TSession => None
  | Some TRetrySession => Some RetrySession
  | Some (TPower action) => Some (AskPower action)
  | Some DialogCancel => Some CancelPower
  | Some DialogConfirm =>
    match power_state a with Confirming action => Some (ConfirmPower action) | _ => None end
  | None => None
  end.

Section Update.
(** The recursive calls of [update], and what session discovery returns. *)
Context (rec : Message → App → App * list Task) (found : list Session).

Definition activate_focus (a : App) : App * list Task :=
  match focus_target a with
  | Some TSession => if can_select_session a then cycle_session 1 a else (a, [])
  | _ => match activation a with Some m => rec m a | None => (a, []) end
  end.

Definition navigate_focus (n : Navigation) (a : App) : App * list Task :=
  match n with
  | Next => move_focus 1 a
  | Previous => move_focus (-1) a
  | DirectionNext => move_directional 1 a
  | DirectionPrevious => move_directional (-1) a
  | Activate => activate_focus a
  end.

(** The match of [update], its guards in the order of the source. *)
Definition dispatch (m : Message) (a : App) : App * list Task :=
  match m with
  | WallpaperFrameReady | WallpaperAllocated | RendererInformation | Tick => (a, [])
  | InputChanged value =>
    let '(c, changed) := Conversation.update_input value (conversation a) in
    let a := set_conversation c a in
    (if changed then set_focus_target (Some AuthenticationInput) a else a, [])
  | AccountsResult r => accounts_result r a
  | ChangeUser => if can_change_user a then change_user a else (a, [])
  | UserSelectionCancelled attempt r => user_selection_cancelled attempt r a
  | UserSelectionCancellationSlow attempt =>
    if Conversation.accepts (conversation a) attempt
       && bool_decide (phase a = CancellingForUserSelection)
    then (set_notice still_changing_user false a, []) else (a, [])
  | RetryUserSelectionCancellation =>
    if bool_decide (phase a = UserSelectionCancellationFailed)
    then retry_user_selection_cancellation a else (a, [])
  | SelectAccount account =>
    if can_select_account a && negb (bool_decide (Accounts.username account = username a))
    then select_account account a else (a, [])
  | NavigateFocus n => navigate_focus n (close_session_menu a)
  | NavigateModal n => if confirming a then navigate_focus n a else (a, [])
  | SyncWidgetFocus => sync_widget_focus a
  | WidgetFocused focused => apply_widget_focus focused a
  | NavigatePage n => (a, [ScrollPages n])
  | SelectSession session =>
    if can_select_session a
    then set_focus TSession (set_selected_session (Some session) (close_session_menu a))
    else (a, [])
  | SessionMenuOpened =>
    if can_select_session a then set_focus TSession (set_session_menu_open true a) else (a, [])
  | SessionMenuClosed => (set_session_menu_open false a, [])
  | OutputLayoutChanged => let a := close_session_menu a in (a, reveal_focused_input a)
  | WindowResized => (a, reveal_focused_input a)
  | RetrySession =>
    if bool_decide (phase a = Failed) && negb (has_session a) then retry_session found a
    else (a, [])
  | Retry => if bool_decide (phase a = Failed) then retry a else (a, [])
  | Submit =>
    if bool_decide (Conversation.status (conversation a) = Waiting) then submit a else (a, [])
  | AuthResult attempt r => handle_auth_result attempt r a
  | AskPower action => if can_request_power a then ask_power action a else (a, [])
  | CancelPower => if confirming a then cancel_power a else (a, [])
  | ConfirmPower action =>
    if bool_decide (power_state a = Confirming action) then confirm_power action a else (a, [])
  | PowerResult r => power_result r a
  | Escape =>
    if confirming a then rec CancelPower a
    else if session_menu_open a then (close_session_menu a, [])
    else if bool_decide (phase a = WaitingForInput) then blur_input a
    else (a, [])
  | CloseRequested window => close_requested window a
  | SessionCancelled window => session_cancelled window a
  | CloseTimeout window => close_timed_out window a
  end.

Definition update_with (m : Message) (a : App) : App * list Task :=
  if admitted a m then dispatch m a else (a, []).

End Update.

(** [update] calls itself for the message a focused target or the escape key
    stands for; those messages do not call it again, so two levels are all
    there is ([update_depth_enough]). *)
Fixpoint update_depth (depth : nat) (found : list Session) (m : Message) (a : App) :
    App * list Task :=
  match depth with
  | O => (a, [])
  | S depth => update_with (update_depth depth found) found m a
  end.
Definition update : list Session → Message → App → App * list Task := update_depth 2.

(** ** Startup *)

Definition startup_mode (has_session has_configured_identity : bool) : StartupMode :=
  match has_session, has_configured_identity with
  | true, true => ConfiguredIdentity
  | true, false => DiscoverAccounts
  | false, _ => MissingSession
  end.

(** [App::new] outside the preview; [account] is the configured identity. *)
Definition new (account : option Account) (found : list Session) : App * list Task :=
  let selected := head found in
  let startup := startup_mode (bool_decide (is_Some selected)) (bool_decide (is_Some account)) in
  let c := Conversation.new in
  let a := mkApp
    (from_option Accounts.username [] account)
    (from_option Accounts.display_name select_a_user account)
    (match account with Some account => [account] | None => [] end)
    None None c
    (match selected with None => Some no_valid_sessions | Some _ => None end)
    None false None
    (match startup with
     | ConfiguredIdentity => CreatingSession
     | DiscoverAccounts => DiscoveringUsers
     | MissingSession => Failed
     end)
    None found selected false Idle false None false in
  match startup with
  | ConfiguredIdentity => (a, [Begin (username a) (Conversation.attempt c) true])
  | DiscoverAccounts => (a, discover_accounts)
  | MissingSession => focus_first a
  end.

(** ** The depth of [update] *)

(** The messages [update] calls itself with do not call it again. *)
Definition leaf (m : Message) : bool :=
  match m with NavigateFocus _ | NavigateModal _ | Escape => false | _ => true end.

Lemma dispatch_leaf_rec rec rec' found m a :
  leaf m = true → dispatch rec found m a = dispatch rec' found m a.
Proof. by destruct m. Qed.

Lemma activation_leaf a m : activation a = Some m → leaf m = true.
Proof.
  unfold activation. destruct (focus_target a) as [[]|]; try (intros [= <-]; done); try done.
  - destruct (can_select_account a); [|done]. destruct (accounts a !! index); [|done]. by intros [= <-].
  - case_bool_decide; by intros [= <-].
  - destruct (power_state a); try done. by intros [= <-].
Qed.

Lemma dispatch_ext rec rec' found m a :
  (∀ m a, leaf m = true → rec m a = rec' m a) → dispatch rec found m a = dispatch rec' found m a.
Proof.
  intros H.
  assert (∀ n b, navigate_focus rec n b = navigate_focus rec' n b) as Hn.
  { intros [] b; cbn [navigate_focus]; try done. unfold activate_focus.
    assert (match activation b with Some m => rec m b | None => (b, []) end
            = match activation b with Some m => rec' m b | None => (b, []) end) as E.
    { destruct (activation b) eqn:Ea; [|done]. apply H. by eapply activation_leaf. }
    by destruct (focus_target b) as [[]|]. }
  destruct m; cbn [dispatch]; try done; [by rewrite Hn|].
  destruct (confirming a); [by apply H|done].
Qed.

Lemma update_depth_enough n found m a : update_depth (S (S n)) found m a = update found m a.
Proof.
  unfold update. cbn [update_depth]. unfold update_with at 1 3.
  destruct (admitted a m); [|done]. apply dispatch_ext. intros m' b Hm.
  unfold update_with. destruct (admitted b m'); [|done]. by apply dispatch_leaf_rec.
Qed.
