(* ===== verification/GreeterRuns.v ===== *)
(** * Runs of the greeter: what is outstanding, and for whom

    The toolkit runs the tasks of [update] in the background and feeds their
    completions back, interleaved with the user's messages.  A run is a
    sequence of such steps from [App::new].  [live] states what is outstanding
    in each phase; the theorems show that it holds in every run, and with it
    that the greeter never waits for an answer that cannot come, answers
    prompts only on the connection of the user it shows, and starts sessions,
    powers off and closes only when it may. *)

From S2P Require Import Prelude Utf8 Conversation Ordering Sessions Accounts Auth Greeter.

#[local] Arguments str : simpl never.
#[local] Arguments environment : simpl never.
#[local] Arguments Conversation.receive : simpl never.
#[local] Arguments Conversation.clean_prompt : simpl never.
#[local] Arguments Conversation.bounded_text : simpl never.

(** ** Focus handlers only move the focus *)

Definition widget (t : Task) : bool :=
  match t with
  | FocusInput | RevealInput | ClearFocus | FindFocused | RevealAccount _ | ScrollPages _ => true
  | _ => false
  end.

Definition refocus (f b : option Target) (m : bool) (a : App) : App :=
  set_session_menu_open m (set_focus_before_modal b (set_focus_target f a)).

Definition focuses (a : App) (r : App * list Task) : Prop :=
  (∃ f b m, fst r = refocus f b m a) ∧ Forall (λ t, widget t = true) (snd r).

Lemma focuses_self a ts : Forall (λ t, widget t = true) ts → focuses a (a, ts).
Proof. split; [|done]. exists (focus_target a), (focus_before_modal a), (session_menu_open a). by destruct a. Qed.

Lemma focuses_refocus f b m a r : focuses (refocus f b m a) r → focuses a r.
Proof. intros [(f' & b' & m' & E) H]. split; [|done]. exists f', b', m'. by rewrite E. Qed.

Lemma set_focus_focuses t a : focuses a (set_focus t a).
Proof.
  split; [|unfold set_focus; destruct t; cbn; repeat constructor; unfold reveal_account;
    case_match; repeat constructor].
  unfold set_focus. case_bool_decide; cbn [fst].
  - exists (Some t), (focus_before_modal a), (session_menu_open a). by destruct a.
  - exists (Some t), (focus_before_modal a), false. by destruct a.
Qed.

Lemma no_focus_focuses a : focuses a (no_focus a).
Proof. split; [|repeat constructor]. exists None, (focus_before_modal a), false. by destruct a. Qed.
#[local] Hint Resolve set_focus_focuses no_focus_focuses : genkan.

Lemma focus_first_focuses a : focuses a (focus_first a).
Proof. unfold focus_first. destruct (focus_order a); auto with genkan. Qed.

Lemma before_modal_focuses b a r : focuses (set_focus_before_modal b a) r → focuses a r.
Proof.
  intros H. apply (focuses_refocus (focus_target a) b (session_menu_open a)).
  unfold refocus. by destruct a.
Qed.

Lemma enter_power_dialog_focuses a : focuses a (enter_power_dialog a).
Proof. unfold enter_power_dialog. eapply before_modal_focuses. auto with genkan. Qed.

Lemma leave_power_dialog_focuses a : focuses a (leave_power_dialog a).
Proof.
  unfold leave_power_dialog. destruct (match focus_before_modal a with Some _ => _ | None => _ end);
    eapply before_modal_focuses; auto with genkan.
Qed.

Lemma blur_input_focuses a : focuses a (blur_input a).
Proof.
  split; [|repeat constructor]. unfold blur_input. case_bool_decide; cbn [fst].
  - exists None, (focus_before_modal a), false. by destruct a.
  - exists (focus_target a), (focus_before_modal a), false. by destruct a.
Qed.

Lemma sync_widget_focus_focuses a : focuses a (sync_widget_focus a).
Proof.
  split; [|repeat constructor]. unfold sync_widget_focus. case_bool_decide; cbn [fst].
  - exists None, (focus_before_modal a), (session_menu_open a). by destruct a.
  - exists (focus_target a), (focus_before_modal a), (session_menu_open a). by destruct a.
Qed.

Lemma apply_widget_focus_focuses w a : focuses a (apply_widget_focus w a).
Proof.
  split; [|repeat constructor]. unfold apply_widget_focus. 
  destruct w; [case_bool_decide|]; cbn [fst];
    [exists (Some AuthenticationInput), (focus_before_modal a), (session_menu_open a)|..];
    try (exists (focus_target a), (focus_before_modal a), (session_menu_open a)); by destruct a.
Qed.

Lemma move_focus_focuses d a : focuses a (move_focus d a).
Proof.
  unfold move_focus. case_bool_decide; [auto with genkan|].
  case_match; [auto with genkan|by apply focuses_self].
Qed.

#[export] Hint Resolve set_focus_focuses no_focus_focuses focus_first_focuses
  enter_power_dialog_focuses leave_power_dialog_focuses blur_input_focuses
  sync_widget_focus_focuses apply_widget_focus_focuses move_focus_focuses : genkan.

(** ** What is outstanding *)

Definition is_auth (t : Task) : bool :=
  match t with Begin _ _ _ | Restart _ _ _ | Exchange _ _ _ => true | _ => false end.
Definition is_listing (t : Task) : bool := match t with ListAccounts => true | _ => false end.
Definition is_cancellation (t : Task) : bool :=
  match t with CancelForUserSelection _ _ => true | _ => false end.
Definition is_power (t : Task) : bool := match t with ExecutePower _ => true | _ => false end.

Abbreviation att a := (Conversation.attempt (conversation a)) (only parsing).
Abbreviation stat a := (Conversation.status (conversation a)) (only parsing).

Section Runs.
(** The user whose session was created on a connection. *)
Context (client_user : Client → rstring).

(** The connection in use is the shown user's. *)
Definition own (a : App) (c : Client) : Prop := client a = Some c ∧ client_user c = username a.

(** The one exchange with greetd each phase waits for. *)
Definition auth_demand (a : App) (l : list Task) : Prop :=
  match phase a with
  | CreatingSession =>
    (∃ r, l = [Begin (username a) (att a) r]) ∨ (∃ c, l = [Restart c (username a) (att a)])
    ∨ ∃ c, l = [Exchange c acknowledge_request (att a)] ∧ own a c
  | Authenticating => ∃ c r, l = [Exchange c (PostAuthMessageResponse r) (att a)] ∧ own a c
  | StartingSession =>
    ∃ c s, selected_session a = Some s ∧ own a c
      ∧ (l = [Exchange c (StartSession (command s) (environment s)) (att a)]
         ∨ l = [Exchange c acknowledge_request (att a)])
  | _ => l = []
  end.

(** The phases in which nothing is under way with greetd. *)
Definition resting (p : Phase) : bool :=
  match p with
  | Failed | WaitingForInput | SelectingUser | UserSelectionCancellationFailed => true
  | _ => false
  end.

(** The invariant of a greeter that is not closing, over the outstanding
    exchanges, account listings, cancellations and power requests. *)
Record live (a : App) (A L C P : list Task) : Prop := mkLive {
  l_preview : preview a = false;
  l_closing : closing a = None;
  l_auth : auth_demand a A;
  l_listing : L = match phase a with DiscoveringUsers => [ListAccounts] | _ => [] end;
  l_cancel : match phase a with
             | CancellingForUserSelection => ∃ c, C = [CancelForUserSelection c (att a)]
             | _ => C = []
             end;
  l_power : match power_state a with
            | Executing act => P = [ExecutePower act] ∨ (act ≠ Suspend ∧ P = [])
            | _ => P = []
            end;
  l_idle : power_state a = Idle ∨ resting (phase a) = true;
  l_waiting : stat a = Waiting ↔ phase a = WaitingForInput;
  l_own : phase a = WaitingForInput → ∃ c, own a c;
  l_cancelled : selection_session_cancelled a = true → phase a = SelectingUser ∧ client a = None;
  l_released : phase a = CancellingForUserSelection ∨ phase a = UserSelectionCancellationFailed →
               client a = None;
  l_accounts : phase a = SelectingUser ∨ phase a = CancellingForUserSelection
               ∨ phase a = UserSelectionCancellationFailed → accounts a ≠ [];
}.

(** The fields [live] reads. *)
Record same_core (a a' : App) : Prop := mkSame {
  s_preview : preview a' = preview a;
  s_closing : closing a' = closing a;
  s_phase : phase a' = phase a;
  s_username : username a' = username a;
  s_client : client a' = client a;
  s_accounts : accounts a' = accounts a;
  s_power : power_state a' = power_state a;
  s_cancelled : selection_session_cancelled a' = selection_session_cancelled a;
  s_status : stat a' = stat a;
  s_attempt : att a' = att a;
  s_selected : phase a = StartingSession → selected_session a' = selected_session a;
}.

Lemma same_core_live a a' A L C P : same_core a a' → live a A L C P → live a' A L C P.
Proof using.
  intros [Ep Ec Eph Eu Ecl Eac Epo Esc Es Ea Esel] [].
  constructor; unfold auth_demand, own in *; rewrite ?Ep, ?Ec, ?Eph, ?Eu, ?Ecl, ?Eac, ?Epo, ?Esc, ?Es, ?Ea; try done.
  destruct (phase a); try done. by rewrite Esel.
Qed.

Lemma refocus_same f b m a : same_core a (refocus f b m a).
Proof using. by constructor. Qed.

(** A handler's outcome keeps the invariant, or ends the program. *)
Definition lives (A L C P : list Task) (r : App * list Task) : Prop :=
  (Exit ∈ snd r ∧ closing (fst r) = None) ∨
  live (fst r) (A ++ List.filter is_auth (snd r)) (L ++ List.filter is_listing (snd r))
    (C ++ List.filter is_cancellation (snd r)) (P ++ List.filter is_power (snd r)).

Lemma widget_filter p ts :
  (∀ t, p t = true → widget t = false) → Forall (λ t, widget t = true) ts → List.filter p ts = [].
Proof using.
  intros Hp H. apply filter_nil_iff. eapply Forall_impl; [exact H|]. cbn.
  intros t Ht. destruct (p t) eqn:E; [|done]. apply Hp in E. congruence.
Qed.

Lemma focuses_lives a r ts A L C P :
  focuses a r →
  live a (A ++ List.filter is_auth ts) (L ++ List.filter is_listing ts)
    (C ++ List.filter is_cancellation ts) (P ++ List.filter is_power ts) →
  lives A L C P (fst r, ts ++ snd r).
Proof using.
  intros [(f & b & m & E) H] Hl. right. cbn [fst snd]. rewrite !List.filter_app.
  rewrite !(widget_filter _ (snd r)), !app_nil_r by (done || by intros []).
  rewrite E. eapply same_core_live; [apply refocus_same|done].
Qed.

Lemma focus_lives a r A L C P : focuses a r → live a A L C P → lives A L C P r.
Proof using.
  intros H Hl. rewrite (surjective_pairing r). apply (focuses_lives a r []); [done|]. 
  by rewrite !app_nil_r.
Qed.

Lemma stay_lives a A L C P : live a A L C P → lives A L C P (a, []).
Proof using. intros. apply (focus_lives a); [by apply focuses_self|done]. Qed.

(** *** Authentication *)

(** What every handler that talks to greetd starts from. *)
Record base (a : App) : Prop := mkBase {
  b_preview : preview a = false;
  b_closing : closing a = None;
  b_power : power_state a = Idle;
}.

Lemma live_base a A L C P : live a A L C P → power_state a = Idle → base a ∧ P = [].
Proof using. intros [] Hi. rewrite Hi in *. by constructor. Qed.

Lemma unrest_base a A L C P : live a A L C P → resting (phase a) = false → base a ∧ P = [].
Proof using. intros Hl Hr. eapply live_base; [exact Hl|]. destruct (l_idle _ _ _ _ _ Hl); congruence. Qed.

Lemma live_not_cancelled a A L C P :
  live a A L C P → phase a ≠ SelectingUser → selection_session_cancelled a = false.
Proof using.
  intros [] Hne. destruct (selection_session_cancelled a); [|done]. 
  by destruct (l_cancelled0 eq_refl).
Qed.

Lemma accepts_self c : Conversation.accepts c (Conversation.attempt c) = true.
Proof using. apply Z.eqb_refl. Qed.

Lemma receive_self r c :
  Conversation.attempt (fst (Conversation.receive (Conversation.attempt c) r c)) = Conversation.attempt c
  ∧ Conversation.status (fst (Conversation.receive (Conversation.attempt c) r c))
    = match r with
      | Conversation.Prompt _ _ => Waiting
      | Conversation.Notice _ _ => Conversation.status c
      | Conversation.Success => Succeeded
      | Conversation.Failure _ => Conversation.Failed
      end.
Proof using. unfold Conversation.receive. rewrite accepts_self. by destruct r. Qed.

(** Closes the fields of [live] for a state whose phase is known. *)
Ltac live_fields :=
  constructor; unfold auth_demand, own in *; cbn; rewrite ?app_nil_r; try done; eauto;
  try (intros; destruct_or?; done); try (split; intros; done);
  repeat match goal with E : power_state _ = Idle |- _ => rewrite E end; try done; auto.

Lemma fail_lives msg a :
  base a → selection_session_cancelled a = false → lives [] [] [] [] (fail msg a).
Proof using.
  intros [] Hs. unfold fail. apply (focus_lives (set_conversation (Conversation.fail msg (conversation a)) (set_phase Failed a)));
    [auto with genkan|].
  destruct (receive_self (Conversation.Failure msg) (conversation a)) as [Ha Hst].
  unfold Conversation.fail. live_fields.
  - cbn. rewrite Hst. done.
  - rewrite Hs. done.
Qed.

Definition busy (p : Phase) : Prop :=
  p = CreatingSession ∨ p = Authenticating ∨ p = StartingSession.

Lemma handle_auth_response_lives resp a c :
  base a → selection_session_cancelled a = false → busy (phase a) → stat a ≠ Waiting →
  own a c → (phase a = StartingSession → is_Some (selected_session a)) →
  lives [] [] [] [] (handle_auth_response resp a).
Proof using.
  intros Hb Hs Hbusy Hst [Hcl Hu] Hsel. unfold handle_auth_response, transition.
  rewrite accepts_self. cbn [negb].
  destruct (bool_decide (phase a = StartingSession) && bool_decide (resp = Auth.Success)).
  { left. split; [by left|by destruct Hb]. }
  unfold Conversation.receive. rewrite accepts_self. cbn [negb]. destruct Hb.
  destruct resp as [|[] desc|sec msg|err msg]; cbn.
  - destruct (selected_session a) as [s|] eqn:Es; cbn.
    + rewrite Hcl. right. cbn. live_fields. all: try (by rewrite Hs). by exists c, s; auto.
    + by apply fail_lives.
  - by apply fail_lives.
  - by apply fail_lives.
  - eapply (focus_lives (set_phase WaitingForInput _)); [apply set_focus_focuses|].
    live_fields. by rewrite Hs.
  - rewrite Hcl. right. cbn. assert (phase a ≠ WaitingForInput ∧ phase a ≠ SelectingUser) as [? ?].
    { split; intros E; rewrite E in Hbusy; by destruct Hbusy as [?|[?|?]]. }
    live_fields; try by rewrite ?Hs.
    { destruct Hbusy as [E|[E|E]]; rewrite E in *; [eauto 10|eauto 10|].
      destruct (Hsel eq_refl) as [s Hss]. exists c, s. auto. }
    all: destruct Hbusy as [->|[->| ->]]; try done; intros; destruct_or?; done.
Qed.

(** What greetd's answer may carry: a connection on which a session for the
    user was created. *)
Definition answers (user : rstring) (r : result rstring (option Client * Auth.Response)) : Prop :=
  match r with Ok (c, _) => ∃ c', c = Some c' ∧ client_user c' = user | Err _ => True end.

(** The messages the completion of a task can deliver. *)
Inductive completes : Task → Message → Prop :=
| done_begin u n recover r : answers u r → completes (Begin u n recover) (AuthResult n r)
| done_restart c u n r : answers u r → completes (Restart c u n) (AuthResult n r)
| done_exchange c request n (r : result rstring Auth.Response) :
  completes (Exchange c request n) (AuthResult n (pair None <$> r))
| done_close c w : completes (CancelForClose c w) (SessionCancelled w)
| done_selection c n r : completes (CancelForUserSelection c n) (UserSelectionCancelled n r)
| done_slow n : completes (UserSelectionTimer n) (UserSelectionCancellationSlow n)
| done_timer w : completes (CloseTimer w) (CloseTimeout w)
| done_listing r : completes ListAccounts (AccountsResult r)
| done_power act r : completes (ExecutePower act) (PowerResult r)
| done_find focused : completes FindFocused (WidgetFocused focused).

Lemma busy_demand a t A : auth_demand a (t :: A) → busy (phase a) ∧ A = [].
Proof using.
  unfold auth_demand, busy. destruct (phase a); try done; intros H; split; auto;
    by repeat match goal with H : _ ∨ _ |- _ => destruct H | H : ∃ _, _ |- _ => destruct H
                         | H : _ ∧ _ |- _ => destruct H end; simplify_eq.
Qed.

(** The awaited answer is for the current attempt and the current user. *)
Lemma awaited_answer a t n r : auth_demand a [t] → completes t (AuthResult n r) →
  n = att a ∧ match r with
              | Ok (Some c, _) => client_user c = username a
              | Ok (None, _) => ∃ c, own a c
              | Err _ => True
              end.
Proof using.
  unfold auth_demand. intros Hd Hc.
  destruct (phase a); try done;
    repeat match goal with H : _ ∨ _ |- _ => destruct H | H : ∃ _, _ |- _ => destruct H
                      | H : _ ∧ _ |- _ => destruct H end; simplify_eq;
    inversion Hc; subst; (split; [done|]);
    match goal with
    | H : answers _ ?r |- _ => destruct r as [[[] ?]|]; [|by destruct H as (? & ? & _)|done];
                               by destruct H as (? & [= ->] & ?)
    | r : result rstring Auth.Response |- _ => destruct r; cbn; eauto
    end.
Qed.

Lemma demand_selected a A : auth_demand a A → phase a = StartingSession → is_Some (selected_session a).
Proof using. unfold auth_demand. intros H E. rewrite E in H. destruct H as (c & s & -> & _). by exists s. Qed.

Lemma auth_result_lives a t A L C P n r :
  live a (t :: A) L C P → completes t (AuthResult n r) →
  A = [] ∧ lives [] L C P (handle_auth_result n r a).
Proof using.
  intros Hl Hc. destruct (busy_demand _ _ _ (l_auth _ _ _ _ _ Hl)) as [Hbusy ->]. split; [done|].
  destruct (unrest_base _ _ _ _ _ Hl) as [Hb ->]; [by destruct Hbusy as [->|[->| ->]]|].
  assert (phase a ≠ SelectingUser ∧ phase a ≠ WaitingForInput) as [Hne Hni].
  { split; intros E; rewrite E in Hbusy; by destruct Hbusy as [?|[?|?]]. }
  pose proof (live_not_cancelled _ _ _ _ _ Hl Hne) as Hs.
  assert (L = [] ∧ C = []) as [-> ->].
  { destruct Hl. destruct Hbusy as [E|[E|E]]; by rewrite E in *. }
  destruct Hl as [Hp Hcl Ha _ _ _ _ Hw _ _ _ _].
  destruct (awaited_answer _ _ _ _ Ha Hc) as [-> Hr]. pose proof (demand_selected _ _ Ha) as Hsel.
  unfold handle_auth_result. rewrite accepts_self, Hcl. cbn [negb].
  destruct r as [[[c|] resp]|e]; [| |by apply fail_lives].
  - destruct Hb. apply (handle_auth_response_lives resp (set_client (Some c) a) c);
      [by constructor|done|done| |done|done]. cbn. by rewrite Hw.
  - destruct Hr as [c Hown]. apply (handle_auth_response_lives resp a c); [done|done|done| |done|done].
    by rewrite Hw.
Qed.

(** *** Selection *)

Lemma begin_attempt_spec a : ∃ c,
  begin_attempt a = (set_conversation c a, Conversation.attempt c) ∧ Conversation.status c = Submitting.
Proof using. by eexists. Qed.

Lemma select_account_lives acc a :
  base a → lives [] [] [] [] (select_account acc a).
Proof using.
  intros []. unfold select_account.
  match goal with |- context [begin_attempt ?x] => destruct (begin_attempt_spec x) as (c & -> & Hc) end.
  cbn. rewrite b_preview0. destruct (bool_decide (username a = [])); cbn; right; cbn; live_fields; by rewrite Hc.
Qed.

Lemma retry_authentication_lives a :
  base a → selection_session_cancelled a = false → lives [] [] [] [] (retry_authentication a).
Proof using. 
  intros [] Hs. unfold retry_authentication, take_client.
  match goal with |- context [begin_attempt ?x] => destruct (begin_attempt_spec x) as (c & -> & Hc) end.
  right. cbn. live_fields; by rewrite ?Hs, ?Hc.
Qed.

(** Both ways to wait for the cancellation of a session. *)
Lemma focus_then_lives b ts :
  live b (List.filter is_auth ts) (List.filter is_listing ts) (List.filter is_cancellation ts)
    (List.filter is_power ts) →
  lives [] [] [] []
    (let '(a, focus) := focus_first b in
     if preview a then finish_preview_user_selection a else (a, ts ++ focus)).
Proof using.
  intros Hl. destruct (focus_first_focuses b) as [(f & bm & m & E) Hw].
  destruct (focus_first b) as [a focus] eqn:Ef. cbn [fst snd] in E, Hw. subst a.
  change (preview (refocus f bm m b)) with (preview b). rewrite (l_preview _ _ _ _ _ Hl).
  pose proof (focuses_lives b (focus_first b) ts [] [] [] [] (focus_first_focuses b) Hl) as H.
  by rewrite Ef in H.
Qed.

Lemma change_user_lives a :
  base a → accounts a ≠ [] → lives [] [] [] [] (change_user a).
Proof using.
  intros [] Hacc. unfold change_user, take_client.
  match goal with |- context [begin_attempt ?x] => destruct (begin_attempt_spec x) as (c & -> & Hc) end.
  apply focus_then_lives. live_fields. by rewrite Hc.
Qed.

Lemma retry_user_selection_lives a :
  base a → accounts a ≠ [] → selection_session_cancelled a = false → client a = None →
  lives [] [] [] [] (retry_user_selection_cancellation a).
Proof using.
  intros [] Hacc Hs Hcl. unfold retry_user_selection_cancellation.
  match goal with |- context [begin_attempt ?x] => destruct (begin_attempt_spec x) as (c & -> & Hc) end.
  apply focus_then_lives. live_fields; by rewrite ?Hc, ?Hs.
Qed.

Lemma accounts_result_lives a r P :
  live a [] [ListAccounts] [] P → P = [] ∧ lives [] [] [] [] (accounts_result r a).
Proof using.
  intros Hl. assert (phase a = DiscoveringUsers) as Hph by (destruct Hl; destruct (phase a); congruence).
  destruct (unrest_base _ _ _ _ _ Hl) as [Hb ->]; [by rewrite Hph|].
  pose proof (live_not_cancelled _ _ _ _ _ Hl ltac:(congruence)) as Hs.
  split; [done|]. destruct Hl. destruct Hb. unfold accounts_result.
  destruct r as [[|acc found]|e]; [by apply fail_lives| |by apply fail_lives].
  destruct (preferred_account _) as [chosen|]; [by apply select_account_lives|].
  eapply focus_lives; [apply set_focus_focuses|]. live_fields.
  - split; [|done]. intros E. apply l_waiting0 in E. congruence.
  - by rewrite Hs.
Qed.

Lemma user_selection_cancelled_lives a t A L C P n r :
  live a A L (t :: C) P → completes t (UserSelectionCancelled n r) →
  C = [] ∧ lives A L [] P (user_selection_cancelled n r a).
Proof using.
  intros Hl Hc. destruct Hl.
  assert (phase a = CancellingForUserSelection ∧ C = [] ∧ n = att a) as (Hph & -> & ->).
  { destruct (phase a); try done. destruct l_cancel0 as [c [= -> ->]]. by inversion Hc. }
  split; [done|]. unfold user_selection_cancelled. rewrite accepts_self, l_closing0, Hph. cbn.
  unfold auth_demand in l_auth0. rewrite Hph in *. subst A L.
  assert (stat a ≠ Waiting) as Hw by (intros E; by apply l_waiting0 in E).
  destruct r as [[]|e]; (eapply focus_lives; [apply set_focus_focuses|]); live_fields; auto.
  intros E. by destruct (l_cancelled0 E).
Qed.

(** *** Power *)

Definition power_ok (a : App) (P : list Task) : Prop :=
  match power_state a with
  | Executing act => P = [ExecutePower act] ∨ (act ≠ Suspend ∧ P = [])
  | _ => P = []
  end.

Lemma power_same a a' A L C P P' :
  same_core (set_power_state (power_state a') a) a' → 
  power_state a' = Idle ∨ resting (phase a) = true → power_ok a' P' →
  live a A L C P → live a' A L C P'.
Proof using.
  intros Hs Hi Hp []. eapply same_core_live; [exact Hs|].
  destruct a; cbn in *. by constructor.
Qed.

Lemma idle_no_power a A L C P : live a A L C P → power_idle a = true → P = [].
Proof using. intros [] Hi. unfold power_idle in Hi. simp_bool. by rewrite Hi in *. Qed.

Lemma ask_power_lives act a A L C P :
  live a A L C P → can_request_power a = true → lives A L C P (ask_power act a).
Proof using.
  intros Hl Hc. unfold can_request_power in Hc. simp_bool.
  pose proof (idle_no_power _ _ _ _ _ Hl ltac:(eassumption)) as ->.
  eapply focus_lives; [apply enter_power_dialog_focuses|].
  eapply (power_same a); [by constructor| |done|exact Hl].
  right. by destruct (phase a).
Qed.

Lemma cancel_power_lives a A L C P :
  live a A L C P → confirming a = true → lives A L C P (cancel_power a).
Proof using.
  intros Hl Hc. unfold confirming in Hc. assert (P = []) as ->.
  { destruct Hl. by destruct (power_state a). }
  eapply focus_lives; [apply leave_power_dialog_focuses|].
  eapply (power_same a); [by constructor|by left|done|exact Hl].
Qed.

Lemma confirm_power_lives act a A L C P :
  live a A L C P → power_state a = Confirming act → lives A L C P (confirm_power act a).
Proof using.
  intros Hl Hc. assert (P = []) as -> by (destruct Hl; by rewrite Hc in *).
  unfold confirm_power. rewrite (l_preview _ _ _ _ _ Hl). right.
  cbn [fst snd List.filter is_auth is_listing is_cancellation is_power app]. rewrite !app_nil_r.
  eapply (power_same a); [by constructor| |by left|exact Hl].
  right. destruct (l_idle _ _ _ _ _ Hl); congruence.
Qed.

Lemma power_result_lives t a A L C P r :
  live a A L C (t :: P) → completes t (PowerResult r) →
  (∃ act, power_state a = Executing act) ∧ P = [] ∧ lives A L C [] (power_result r a).
Proof using.
  intros Hl Hc.
  assert (∃ act, power_state a = Executing act ∧ P = []) as (act & Hp & ->).
  { destruct Hl. destruct (power_state a); try done. destruct l_power0 as [[= -> ->]|[_ ?]]; eauto; done. }
  split; [by exists act|]. split; [done|]. unfold power_result. destruct r as [[]|e].
  - case_bool_decide as E.
    + eapply focus_lives; [apply leave_power_dialog_focuses|].
      eapply (power_same a); [by constructor|by left|done|exact Hl].
    + apply stay_lives. eapply (power_same a a); [by constructor| | |exact Hl].
      * right. destruct (l_idle _ _ _ _ _ Hl); congruence.
      * unfold power_ok. rewrite Hp. right. split; [congruence|done].
  - eapply focus_lives; [apply leave_power_dialog_focuses|].
    eapply (power_same a); [by constructor|by left|done|exact Hl].
Qed.

(** *** The user's messages *)

Lemma retry_lives a P A L C :
  live a A L C P → phase a = Failed → power_state a = Idle → lives A L C P (retry a).
Proof using.
  intros Hl Hph Hi. pose proof (live_not_cancelled _ _ _ _ _ Hl ltac:(congruence)) as Hs.
  destruct (live_base _ _ _ _ _ Hl Hi) as [Hb ->]. destruct Hl. unfold auth_demand in *. rewrite Hph in *. subst.
  unfold retry. rewrite l_preview0. destruct (bool_decide (username a = [])).
  - right. cbn. live_fields; [|by rewrite Hs].
    split; [|done]. intros E. by apply l_waiting0 in E.
  - by apply retry_authentication_lives.
Qed.

Lemma retry_session_lives found a P A L C :
  live a A L C P → phase a = Failed → power_state a = Idle → lives A L C P (retry_session found a).
Proof using.
  intros Hl Hph Hi. unfold retry_session. rewrite (l_preview _ _ _ _ _ Hl).
  set (b := set_selected_session (head found) (set_sessions found a)).
  assert (∀ m, live (set_session_message m b) A L C P) as Hb.
  { intros m. eapply same_core_live; [|exact Hl]. constructor; cbn; congruence. }
  destruct (has_session b); cbn [negb]; [|by apply stay_lives].
  specialize (Hb None). pose proof (retry_lives _ _ _ _ _ Hb ltac:(done) ltac:(done)) as H. unfold retry in H.
  by rewrite (l_preview _ _ _ _ _ Hb) in H.
Qed.

Lemma submit_lives a A L C P :
  live a A L C P → stat a = Waiting → power_state a = Idle → lives A L C P (submit a).
Proof using.
  intros Hl Hw Hi. pose proof (proj1 (l_waiting _ _ _ _ _ Hl) Hw) as Hph.
  destruct (l_own _ _ _ _ _ Hl Hph) as (c & Hc & Hu).
  pose proof (live_not_cancelled _ _ _ _ _ Hl ltac:(congruence)) as Hs.
  destruct Hl. unfold submit. rewrite l_preview0, Hc. unfold Conversation.submit.
  rewrite (bool_decide_eq_true_2 _ Hw). cbn. right. cbn.
  unfold auth_demand in *. rewrite Hph in *. subst. cbn. live_fields; first [by rewrite Hs|by eauto 10].
Qed.

Lemma input_changed_lives v a A L C P :
  live a A L C P →
  lives A L C P (let '(c, changed) := Conversation.update_input v (conversation a) in
                 let a := set_conversation c a in
                 (if changed then set_focus_target (Some AuthenticationInput) a else a, [])).
Proof using.
  intros Hl. unfold Conversation.update_input. case_bool_decide as E; cbn [negb];
    apply stay_lives; (eapply same_core_live; [|exact Hl]); by constructor.
Qed.

Lemma cycle_session_lives d a A L C P :
  live a A L C P → can_select_session a = true → lives A L C P (cycle_session d a).
Proof using.
  intros Hl Hc. unfold cycle_session. case_bool_decide; apply stay_lives; [done|].
  case_match; [|done]. eapply same_core_live; [|exact Hl]. constructor; try done.
  intros E. unfold can_select_session in Hc. rewrite E in Hc. by rewrite andb_false_r in Hc.
Qed.

Lemma change_user_from_live a A L C P :
  live a A L C P → can_change_user a = true → lives A L C P (change_user a).
Proof using.
  intros Hl Hc. unfold can_change_user, power_idle in Hc. simp_bool.
  destruct (live_base _ _ _ _ _ Hl ltac:(done)) as [Hb ->].
  assert (accounts a ≠ []) by (destruct (accounts a); [cbn in *; lia|done]).
  destruct Hl. unfold auth_demand in *.
  destruct (phase a); try done; subst; by apply change_user_lives.
Qed.

Lemma retry_user_selection_from_live a A L C P :
  live a A L C P → phase a = UserSelectionCancellationFailed → power_state a = Idle →
  lives A L C P (retry_user_selection_cancellation a).
Proof using.
  intros Hl Hph Hi. pose proof (live_not_cancelled _ _ _ _ _ Hl ltac:(congruence)) as Hs.
  destruct (live_base _ _ _ _ _ Hl Hi) as [Hb ->]. destruct Hl. unfold auth_demand in *. rewrite Hph in *.
  subst. apply retry_user_selection_lives; auto.
Qed.

Lemma select_account_from_live acc a A L C P :
  live a A L C P → can_select_account a = true → lives A L C P (select_account acc a).
Proof using.
  intros Hl Hc. unfold can_select_account, power_idle in Hc. simp_bool.
  destruct (live_base _ _ _ _ _ Hl ltac:(done)) as [Hb ->]. destruct Hl. unfold auth_demand in *.
  replace (phase a) with SelectingUser in *. subst. by apply select_account_lives.
Qed.

(** The messages of the user and of the toolkit's own events. *)
Definition user_message (m : Message) : bool :=
  match m with
  | AuthResult _ _ | AccountsResult _ | UserSelectionCancelled _ _ | UserSelectionCancellationSlow _
  | PowerResult _ | SessionCancelled _ | CloseTimeout _ | WidgetFocused _ => false
  | _ => true
  end.
Definition closes (m : Message) : bool := match m with CloseRequested _ => true | _ => false end.

Lemma activation_user a m : activation a = Some m → user_message m = true ∧ closes m = false.
Proof using.
  unfold activation. destruct (focus_target a) as [[]|]; try (intros [= <-]; done); try done.
  - destruct (can_select_account a); [|done]. destruct (accounts a !! index); [|done]. by intros [= <-].
  - case_bool_decide; by intros [= <-].
  - destruct (power_state a); try done. by intros [= <-].
Qed.

Section Dispatch.
Context (rec : Message → App → App * list Task) (found : list Session).
Hypothesis rec_lives : ∀ m a A L C P, live a A L C P → user_message m = true → closes m = false →
  lives A L C P (rec m a).

Lemma activate_focus_lives a A L C P : live a A L C P → lives A L C P (activate_focus rec a).
Proof using rec_lives.
  intros Hl. unfold activate_focus.
  assert (lives A L C P match activation a with Some m => rec m a | None => (a, []) end) as H.
  { destruct (activation a) as [m|] eqn:Ea; [|by apply stay_lives].
    destruct (activation_user _ _ Ea). by apply rec_lives. }
  destruct (focus_target a) as [[]|]; try exact H.
  destruct (can_select_session a) eqn:E; [by apply cycle_session_lives|by apply stay_lives].
Qed.

Lemma navigate_focus_lives n a A L C P : live a A L C P → lives A L C P (navigate_focus rec n a).
Proof using rec_lives.
  intros Hl.
  assert (∀ d, lives A L C P (move_focus d a)) as Hm.
  { intros d. eapply focus_lives; [apply move_focus_focuses|done]. }
  assert (∀ d, lives A L C P (move_directional d a)) as Hd.
  { intros d. unfold move_directional. destruct (focus_target a) as [[]|]; try (by apply stay_lives); auto.
    - destruct (_ && _); [|by apply stay_lives]. eapply focus_lives; [apply set_focus_focuses|done].
    - destruct (can_select_session a) eqn:E; [by apply cycle_session_lives|by apply stay_lives]. }
  destruct n; cbn [navigate_focus]; auto. by apply activate_focus_lives.
Qed.

Lemma same_lives a a' A L C P ts : same_core a a' → Forall (λ t, widget t = true) ts →
  live a A L C P → lives A L C P (a', ts).
Proof using.
  intros Hs Hw Hl. eapply focus_lives; [by apply focuses_self|]. by eapply same_core_live.
Qed.

Lemma dispatch_lives m a A L C P :
  live a A L C P → admitted a m = true → user_message m = true → closes m = false →
  lives A L C P (dispatch rec found m a).
Proof using rec_lives.
  intros Hl Had Hu Hnc. pose proof (stay_lives _ _ _ _ _ Hl) as Hstay.
  assert (allowed_with_power (power_state a) m = false → power_state a = Idle) as Hi.
  { intros E. unfold admitted, power_idle in Had. rewrite (l_closing _ _ _ _ _ Hl), E, orb_false_r in Had. by simp_bool. }
  assert (∀ b, same_core a b → lives A L C P (b, [])) as Hsame
    by (intros b Hb; by eapply same_lives).
  destruct m; try discriminate Hu; try discriminate Hnc; cbn [dispatch]; try exact Hstay.
  - by apply input_changed_lives.
  - case_bool_decide; [by apply submit_lives; auto|done].
  - case_bool_decide; [by apply retry_lives; auto|done].
  - destruct (bool_decide _ && _) eqn:E; [|done]. simp_bool. by apply retry_session_lives; auto.
  - destruct (can_change_user a) eqn:E; [|done]. by apply (change_user_from_live a).
  - case_bool_decide; [|done]. apply (retry_user_selection_from_live a); auto.
  - destruct (_ && _) eqn:E; [|done]. simp_bool. by apply (select_account_from_live account a).
  - apply navigate_focus_lives. eapply same_core_live; [|done]. by constructor.
  - destruct (confirming a); [by apply navigate_focus_lives|done].
  - eapply focus_lives; [apply sync_widget_focus_focuses|done].
  - apply (same_lives a a); [by constructor|by repeat constructor|done].
  - destruct (can_select_session a) eqn:E; [|done]. eapply focus_lives; [apply set_focus_focuses|].
    eapply same_core_live; [|done]. constructor; try done.
    intros Es. unfold can_select_session in E. rewrite Es in E. by rewrite andb_false_r in E.
  - destruct (can_select_session a); [|done]. eapply focus_lives; [apply set_focus_focuses|].
    eapply same_core_live; [|done]. by constructor.
  - apply Hsame. by constructor.
  - apply (same_lives a); [by constructor| |done].
    unfold reveal_focused_input. case_bool_decide; by repeat constructor.
  - apply (same_lives a a); [by constructor| |done].
    unfold reveal_focused_input. case_bool_decide; by repeat constructor.
  - destruct (can_request_power a) eqn:E; [by apply ask_power_lives|done].
  - destruct (confirming a) eqn:E; [by apply cancel_power_lives|done].
  - case_bool_decide; [by apply confirm_power_lives|done].
  - destruct (confirming a); [by apply rec_lives|].
    destruct (session_menu_open a); [apply Hsame; by constructor|].
    case_bool_decide; [|done]. eapply focus_lives; [apply blur_input_focuses|done].
Qed.

End Dispatch.

Lemma update_depth_lives n found : ∀ m a A L C P,
  live a A L C P → user_message m = true → closes m = false →
  lives A L C P (update_depth n found m a).
Proof using.
  induction n as [|n IH]; intros m a A L C P Hl Hu Hc; cbn [update_depth]; [by apply stay_lives|].
  unfold update_with. destruct (admitted a m) eqn:E; [|by apply stay_lives]. by apply dispatch_lives.
Qed.

(** *** Completions while the greeter is open *)

Lemma live_short a A L C P : live a A L C P →
  (length A ≤ 1 ∧ length L ≤ 1 ∧ length C ≤ 1 ∧ length P ≤ 1)%nat.
Proof using.
  intros [_ _ Ha -> Hc Hp _ _ _ _ _ _]. unfold auth_demand in Ha. split_and!.
  - destruct A as [|t A]; [cbn; lia|]. destruct (busy_demand _ _ _ Ha) as [_ ->]. done.
  - destruct (phase a); cbn; lia.
  - destruct (phase a); try (subst; cbn; lia). destruct Hc as [c ->]. done.
  - destruct (power_state a); try (subst; cbn; lia). destruct Hp as [->|[_ ->]]; cbn; lia.
Qed.

Lemma app_single {A} (k l : list A) x : (length (k ++ x :: l) ≤ 1)%nat → k = [] ∧ l = [].
Proof using. rewrite length_app. cbn. destruct k, l; cbn; (done || lia). Qed.

Lemma update_admitted found m a : admitted a m = true →
  update found m a = dispatch (update_depth 1 found) found m a.
Proof using. intros H. unfold update. cbn [update_depth]. unfold update_with at 1. by rewrite H. Qed.

Lemma update_refused found m a : admitted a m = false → update found m a = (a, []).
Proof using. intros H. unfold update. cbn [update_depth]. unfold update_with at 1. by rewrite H. Qed.

Definition filters_live (a : App) (ts : list Task) : Prop :=
  live a (List.filter is_auth ts) (List.filter is_listing ts) (List.filter is_cancellation ts)
    (List.filter is_power ts).
Definition filters_lives (ts : list Task) (r : App * list Task) : Prop :=
  lives (List.filter is_auth ts) (List.filter is_listing ts) (List.filter is_cancellation ts)
    (List.filter is_power ts) r.

(** A completion that [live] does not count. *)
Lemma untracked_lives found m a A L C P t :
  live a A L C P → completes t m →
  is_auth t = false → is_listing t = false → is_cancellation t = false → is_power t = false →
  lives A L C P (update found m a).
Proof using.
  intros Hl Hc. destruct (admitted a m) eqn:E; [|rewrite update_refused by done; intros; by apply stay_lives].
  rewrite update_admitted by done.
  inversion Hc; subst; cbn; try done; intros _ _ _ _.
  - unfold session_cancelled, cleaning. rewrite (l_closing _ _ _ _ _ Hl). by apply stay_lives.
  - destruct (_ && _); [|by apply stay_lives]. apply stay_lives.
    eapply same_core_live; [|exact Hl]. by constructor.
  - unfold close_timed_out, cleaning. rewrite (l_closing _ _ _ _ _ Hl). by apply stay_lives.
  - eapply focus_lives; [apply apply_widget_focus_focuses|done].
Qed.

Lemma completion_lives found pre t post m a :
  filters_live a (pre ++ t :: post) → completes t m →
  filters_lives (pre ++ post) (update found m a).
Proof using.
  unfold filters_live, filters_lives. rewrite !List.filter_app. cbn [List.filter].
  intros Hl Hc. pose proof (live_short _ _ _ _ _ Hl) as (HA & HL & HC & HP).
  assert (∀ m, closing a = None → power_idle a = true ∨ allowed_with_power (power_state a) m = true →
    admitted a m = true) as Had.
  { intros m' Hcl Hor. unfold admitted. rewrite Hcl. by apply orb_true_iff. }
  destruct (is_auth t) eqn:EA; [|destruct (is_listing t) eqn:EL; [|destruct (is_cancellation t) eqn:EC;
    [|destruct (is_power t) eqn:EP]]].
  - destruct (app_single _ _ _ HA) as [E4 E5]. rewrite E4, E5 in *.
    assert (∃ n r, m = AuthResult n r) as (n & r & ->) by (inversion Hc; subst; try done; by do 2 eexists).
    assert (is_listing t = false ∧ is_cancellation t = false ∧ is_power t = false) as (E1 & E2 & E3) by by destruct t.
    rewrite E1, E2, E3 in Hl. rewrite update_admitted by (apply Had; [by destruct Hl|by right]).
    by destruct (auth_result_lives _ _ _ _ _ _ _ _ Hl Hc) as [_ ?].
  - destruct (app_single _ _ _ HL) as [E1 E2]. rewrite E1, E2 in *. destruct t; try discriminate EL. cbn in Hl.
    inversion Hc; subst. rewrite update_admitted by (apply Had; [by destruct Hl|by right]).
    assert (phase a = DiscoveringUsers) as Hph by (destruct Hl; by destruct (phase a)).
    assert (List.filter is_auth pre ++ List.filter is_auth post = []) as EA'.
    { destruct Hl as [_ _ Ha _ _ _ _ _ _ _ _ _]. unfold auth_demand in Ha. by rewrite Hph in Ha. }
    assert (List.filter is_cancellation pre ++ List.filter is_cancellation post = []) as EC'.
    { destruct Hl. by rewrite Hph in *. }
    rewrite EA', EC' in *. destruct (accounts_result_lives _ r _ Hl) as [EP' H]. by rewrite EP'.
  - destruct (app_single _ _ _ HC) as [E1 E2]. rewrite E1, E2 in *.
    assert (∃ n r, m = UserSelectionCancelled n r) as (n & r & ->) by (destruct t; try discriminate EC; inversion Hc; subst; by do 2 eexists).
    assert (is_power t = false) as E3 by by destruct t. rewrite E3 in Hl.
    rewrite update_admitted.
    + by destruct (user_selection_cancelled_lives _ _ _ _ _ _ _ _ Hl Hc) as [_ ?].
    + apply Had; [by destruct Hl|left]. unfold power_idle. apply bool_decide_eq_true_2.
      destruct Hl. cbn in *. destruct l_idle0; [done|]. by destruct (phase a).
  - destruct (app_single _ _ _ HP) as [E1 E2]. rewrite E1, E2 in *.
    assert (∃ r, m = PowerResult r) as (r & ->) by (destruct t; try discriminate EP; inversion Hc; subst; by eexists).
    destruct (power_result_lives _ _ _ _ _ _ _ Hl Hc) as ((act & Hp) & _ & H).
    rewrite update_admitted; [exact H|]. apply Had; [by destruct Hl|right]. by rewrite Hp.
  - by eapply untracked_lives.
Qed.

(** *** Closing *)

(** Every message a closing greeter still handles. *)
Inductive closing_step (a : App) (m : Message) (a' : App) : list Task → Prop :=
| closing_waits : a' = a → closing_step a m a' []
| closing_cancels w c n r :
  m = AuthResult n r → closing a = Some (WaitingForClient w) →
  c = match r with Ok (c, _) => c | Err _ => None end →
  closing a' = Some (Cancelling w) → preview a' = preview a →
  closing_step a m a' [CancelForClose c w]
| closing_dispatches c w :
  closing a = Some c → is_cleaning c w = true →
  closing a' = Some (Dispatching w) → preview a' = preview a →
  closing_step a m a' [CloseWindow w].

Lemma closing_update found m a c :
  closing a = Some c →
  closing_step a m (fst (update found m a)) (snd (update found m a)).
Proof using.
  intros Hc. destruct (admitted a m) eqn:E; [|rewrite update_refused by done; by constructor].
  rewrite update_admitted by done. unfold admitted in E. rewrite Hc in E. apply andb_true_iff in E as [E _].
  assert (∀ w, is_cleaning c w = true → ∀ b, closing b = Some (Dispatching w) → preview b = preview a →
    closing_step a m b [CloseWindow w]) as Hd by (intros; by eapply closing_dispatches).
  destruct c; cbn in E; try done; destruct m; try done; cbn [dispatch].
  - unfold handle_auth_result. destruct (Conversation.accepts _ _); cbn [negb]; [|by constructor].
    rewrite Hc. by eapply closing_cancels.
  - unfold session_cancelled, cleaning. rewrite Hc. destruct (is_cleaning _ _) eqn:Ew; [by apply Hd|by constructor].
  - unfold close_timed_out, cleaning. rewrite Hc. destruct (is_cleaning _ _) eqn:Ew; [by apply Hd|by constructor].
  - unfold user_selection_cancelled. destruct (Conversation.accepts _ _); cbn [negb]; [|by constructor].
    rewrite Hc. apply Hd; [cbn; apply Z.eqb_refl|done|done].
  - unfold close_timed_out, cleaning. rewrite Hc. destruct (is_cleaning _ _) eqn:Ew; [by apply Hd|by constructor].
  - unfold session_cancelled, cleaning. rewrite Hc. destruct (is_cleaning _ _) eqn:Ew; [by apply Hd|by constructor].
  - unfold close_timed_out, cleaning. rewrite Hc. destruct (is_cleaning _ _) eqn:Ew; [by apply Hd|by constructor].
Qed.

(** What ends a closing greeter whatever greetd does. *)
Definition closing_ok (c : Closing) (ts : list Task) : Prop :=
  match c with
  | Dispatching w => CloseWindow w ∈ ts
  | WaitingForClient w | WaitingForUserSelectionCancellation w | Cancelling w => CloseTimer w ∈ ts
  end.

Lemma close_requested_closing w a :
  preview a = false → ∃ c, closing (fst (close_requested w a)) = Some c
    ∧ closing_ok c (snd (close_requested w a)) ∧ preview (fst (close_requested w a)) = false.
Proof using.
  intros Hp. unfold close_requested. rewrite Hp.
  destruct (selection_session_cancelled a); [eexists; split_and!; [done|by left|done]|].
  case_bool_decide; [eexists; split_and!; [done|by left|done]|].
  destruct (client a); [eexists; split_and!; [done|by right; left|done]|].
  case_bool_decide; eexists; split_and!; try done; [by left|by right; left].
Qed.

(** *** Runs *)

(** One message handled: which one, and the tasks it starts.  [Exit] ends the
    program. *)
Inductive step : App * list Task → Message → list Task → App * list Task → Prop :=
| step_user found m a ts :
  user_message m = true → Exit ∉ ts →
  step (a, ts) m (snd (update found m a)) (fst (update found m a), ts ++ snd (update found m a))
| step_completion found pre t post m a :
  completes t m → Exit ∉ pre ++ t :: post →
  step (a, pre ++ t :: post) m (snd (update found m a))
    (fst (update found m a), (pre ++ post) ++ snd (update found m a)).

Inductive reachable : App * list Task → Prop :=
| reach_new account found : reachable (new account found)
| reach_step s m out s' : reachable s → step s m out s' → reachable s'.

Definition outstanding (s : App * list Task) : Prop :=
  Exit ∈ snd s ∨
  preview (fst s) = false
  ∧ match closing (fst s) with
    | None => filters_live (fst s) (snd s)
    | Some c => closing_ok c (snd s)
    end.

Lemma filters_lives_outstanding ts r : filters_lives ts r → outstanding (fst r, ts ++ snd r).
Proof using.
  unfold filters_lives, lives, outstanding, filters_live. cbn [fst snd]. intros [[H _]|H].
  - left. apply elem_of_app. by right.
  - right. rewrite !List.filter_app. split; [by destruct H|]. by rewrite (l_closing _ _ _ _ _ H).
Qed.

Lemma closing_step_outstanding c a m a' out ts :
  closing a = Some c → preview a = false → closing_step a m a' out →
  closing_ok c ts ∨ (∃ w, m = CloseTimeout w ∧ closing_ok c (CloseTimer w :: ts)
    ∧ (is_cleaning c w = true → out = [CloseWindow w])) →
  outstanding (a', ts ++ out).
Proof using.
  intros Hc Hp Hs Hok. right. cbn [fst snd]. destruct Hs as [->|w cl n r -> Hw _ Ha' Hp'|c' w Hc' Hw Ha' Hp'].
  - rewrite app_nil_r, Hc. split; [done|]. destruct Hok as [?|(w & -> & Hok & Hout)]; [done|].
    destruct c as [w'|w'|w'|w']; cbn in *; try (apply elem_of_cons in Hok as [[= ->]|Hok]; [|done];
      by discriminate (Hout (Z.eqb_refl _))).
    by apply elem_of_cons in Hok as [[=]|Hok].
  - rewrite Ha', Hp'. split; [done|]. simplify_eq.
    destruct Hok as [Hok|(w' & [=] & _)]. cbn in *. apply elem_of_app. by left.
  - rewrite Ha', Hp'. split; [done|]. apply elem_of_app. right. by left.
Qed.

Lemma closing_ok_remove c pre t post m :
  completes t m → closing_ok c (pre ++ t :: post) →
  closing_ok c (pre ++ post) ∨ ∃ w, m = CloseTimeout w ∧ closing_ok c (CloseTimer w :: pre ++ post).
Proof using.
  intros Hc Hok.
  assert (∀ x, x ∈ pre ++ t :: post → x = t ∨ x ∈ pre ++ post) as Hx by (intros x; set_solver).
  destruct c; cbn in *; apply Hx in Hok as [<-|Hok]; auto; inversion Hc; subst; right;
    eexists; (split; [done|by left]).
Qed.

Lemma timeout_update found w a c :
  closing a = Some c → is_cleaning c w = true → snd (update found (CloseTimeout w) a) = [CloseWindow w].
Proof using.
  intros Hc Hw. rewrite update_admitted.
  - cbn. unfold close_timed_out, cleaning. by rewrite Hc, Hw.
  - unfold admitted. rewrite Hc. cbn. rewrite orb_true_r. by destruct c.
Qed.

Lemma step_outstanding s m out s' : outstanding s → step s m out s' → outstanding s'.
Proof using.
  intros Ho Hs. destruct Hs as [found m a ts Hu He|found pre t post m a Hc He];
    (destruct Ho as [Ho|[Hp Ho]]; [done|]); cbn [fst snd] in *.
  - destruct (closing a) as [c|] eqn:Ecl.
    + eapply (closing_step_outstanding c a m); [done|done|by eapply closing_update|by left].
    + destruct (closes m) eqn:Em.
      * destruct m; try discriminate Em. rewrite update_admitted
          by (unfold admitted; rewrite Ecl; by apply orb_true_r).
        cbn [dispatch]. destruct (close_requested_closing w a Hp) as (c & Hc & Hok & Hp').
        right. cbn [fst snd]. rewrite Hc. split; [done|]. 
        destruct c; cbn in *; apply elem_of_app; by right.
      * apply filters_lives_outstanding. by apply update_depth_lives.
  - destruct (closing a) as [c|] eqn:Ecl.
    + eapply (closing_step_outstanding c a m); [done|done|by eapply closing_update|].
      destruct (closing_ok_remove _ _ _ _ _ Hc Ho) as [?|(w & -> & Hok)]; [by left|right].
      exists w. split_and!; [done|done|]. intros Hw. by apply (timeout_update found w a c).
    + apply filters_lives_outstanding. by eapply completion_lives.
Qed.

Lemma new_outstanding account found : outstanding (new account found).
Proof using.
  unfold new. destruct found as [|s found], account as [acc|]; cbn -[focus_first];
    try (right; cbn; split; [done|]; unfold filters_live; cbn; live_fields).
  all: try by (left; by eexists).
  all: rewrite (surjective_pairing (focus_first _));
    apply (filters_lives_outstanding []); eapply focus_lives; [apply focus_first_focuses|];
    cbn; live_fields.
Qed.

Lemma reachable_outstanding s : reachable s → outstanding s.
Proof using. induction 1; [apply new_outstanding|by eapply step_outstanding]. Qed.

End Runs.

#[export] Hint Resolve reachable_outstanding : genkan.
