(* ===== verification/GreeterSafety.v ===== *)
(** * What the greeter guarantees

    The properties of its runs ([GreeterRuns]): nothing it waits for is
    missing, responses reach the connection of the user they were typed for,
    sessions start only after greetd accepted the user, power requests only
    after a confirmation, and closing always ends. *)

From S2P Require Import Prelude Utf8 Conversation Ordering Sessions Accounts Auth Greeter GreeterRuns.

#[local] Arguments str : simpl never.
#[local] Arguments environment : simpl never.
#[local] Arguments Conversation.receive : simpl never.

(** ** What each message may start *)

(** The tasks that [update] on [m] may start from [a], ending in [a']. *)
Inductive emits (a a' : App) (m : Message) : Task → Prop :=
| emits_widget t : widget t = true → emits a a' m t
| emits_begin u n r : phase a' = CreatingSession → emits a a' m (Begin u n r)
| emits_restart c u n : phase a' = CreatingSession → emits a a' m (Restart c u n)
| emits_acknowledge c n r :
  m = AuthResult n r → client a' = Some c → emits a a' m (Exchange c acknowledge_request n)
| emits_response c r :
  stat a = Waiting → client a = Some c → r = text (input (conversation a)) →
  phase a' = Authenticating → emits a a' m (Exchange c (PostAuthMessageResponse (Some r)) (att a))
| emits_start c o s :
  m = AuthResult (att a) (Ok (o, Auth.Success)) → phase a ≠ StartingSession →
  client a' = Some c → selected_session a = Some s → phase a' = StartingSession →
  emits a a' m (Exchange c (StartSession (command s) (environment s)) (att a))
| emits_exit o :
  m = AuthResult (att a) (Ok (o, Auth.Success)) → phase a = StartingSession → emits a a' m Exit
| emits_power act :
  power_state a = Confirming act → power_state a' = Executing act → emits a a' m (ExecutePower act)
| emits_listing : emits a a' m ListAccounts
| emits_cancellation c n : emits a a' m (CancelForUserSelection c n)
| emits_slow n : emits a a' m (UserSelectionTimer n)
| emits_close c w : closing a' ≠ None → emits a a' m (CancelForClose c w)
| emits_timer w : closing a' ≠ None → emits a a' m (CloseTimer w)
| emits_window w : closing a' = Some (Dispatching w) ∨ preview a = true → emits a a' m (CloseWindow w).
#[local] Hint Constructors emits : genkan.
Ltac emit_each :=
  first [apply Forall_nil_2 | apply Forall_cons_2; [solve [eauto with genkan]|emit_each]].

(** A handler that starts only such tasks. *)
Definition emitting (a : App) (m : Message) (r : App * list Task) : Prop :=
  Forall (emits a (fst r) m) (snd r).

Lemma nothing_emitting a b m : emitting a m (b, []).
Proof. constructor. Qed.
#[local] Hint Resolve nothing_emitting : genkan.

Lemma focuses_emitting a b m r : focuses b r → emitting a m r.
Proof. intros [_ H]. eapply Forall_impl; [exact H|]. intros t. apply emits_widget. Qed.

Lemma fail_emitting a m msg b : emitting a m (fail msg b).
Proof. eapply focuses_emitting. apply focus_first_focuses. Qed.

Lemma select_account_emitting a m acc b : emitting a m (select_account acc b).
Proof.
  unfold select_account.
  match goal with |- context [begin_attempt ?x] => destruct (begin_attempt_spec x) as (c & -> & Hc) end.
  destruct (preview _); [eapply focuses_emitting, set_focus_focuses|].
  destruct (negb _); emit_each.
Qed.

Lemma retry_authentication_emitting a m b : emitting a m (retry_authentication b).
Proof. emit_each. Qed.

Lemma focus_then_emitting a m b ts :
  (∀ a', Forall (emits a a' m) ts) →
  emitting a m (let '(a, focus) := focus_first b in
                if preview a then finish_preview_user_selection a else (a, ts ++ focus)).
Proof.
  intros Ht. destruct (focus_first b) as [b' focus] eqn:E.
  pose proof (focuses_emitting a b m _ (focus_first_focuses b)) as H. rewrite E in H.
  destruct (preview b'); [eapply focuses_emitting, set_focus_focuses|]. apply Forall_app. by split.
Qed.

Lemma change_user_emitting a m b : emitting a m (change_user b).
Proof. apply focus_then_emitting. intros a'. emit_each. Qed.

Lemma retry_user_selection_emitting a m b : emitting a m (retry_user_selection_cancellation b).
Proof. apply focus_then_emitting. intros a'. emit_each. Qed.

Lemma retry_emitting a m b : emitting a m (retry b).
Proof.
  unfold retry. destruct (preview b); [constructor|].
  destruct (bool_decide _); [emit_each|apply retry_authentication_emitting].
Qed.

Lemma retry_session_emitting a m found b : emitting a m (retry_session found b).
Proof.
  unfold retry_session. destruct (preview b); [constructor|]. destruct (negb _); [constructor|].
  destruct (bool_decide _); [emit_each|apply retry_authentication_emitting].
Qed.

Lemma submit_emitting a m : stat a = Waiting → emitting a m (submit a).
Proof.
  intros Hw. unfold submit. destruct (preview a); [eapply focuses_emitting, set_focus_focuses|].
  destruct (client a) as [c|] eqn:Ec; [|apply fail_emitting].
  unfold Conversation.submit. rewrite (bool_decide_eq_true_2 _ Hw). cbn. emit_each.
Qed.

Lemma auth_response_emitting a b o resp :
  conversation b = conversation a → phase b = phase a → selected_session b = selected_session a →
  emitting a (AuthResult (att a) (Ok (o, resp))) (handle_auth_response resp b).
Proof.
  intros Ec Ep Es. unfold handle_auth_response, transition. rewrite accepts_self. cbn [negb].
  destruct (bool_decide (phase b = StartingSession)) eqn:E1.
  - destruct (bool_decide (resp = Auth.Success)) eqn:E2; cbn [andb]; simp_bool.
    { subst. constructor; [|constructor]. apply (emits_exit _ _ _ o); congruence. }
    unfold Conversation.receive. rewrite accepts_self. cbn [negb].
    destruct resp as [|[] desc|sec msg|err msg]; try done; cbn; try apply fail_emitting.
    + eapply focuses_emitting, set_focus_focuses.
    + destruct (client b) eqn:Ecl; [|apply fail_emitting]. 
      apply Forall_cons_2; [|done]. cbn. rewrite Ec. by eapply emits_acknowledge.
  - simp_bool. cbn [andb]. unfold Conversation.receive. rewrite accepts_self. cbn [negb].
    destruct resp as [|[] desc|sec msg|err msg]; cbn; try apply fail_emitting.
    + destruct (selected_session b) as [s|] eqn:Esel; cbn; [|apply fail_emitting].
      destruct (client b) eqn:Ecl; [|apply fail_emitting].
      apply Forall_cons_2; [|done]. cbn. rewrite Ec. eapply emits_start; [done|congruence|done|congruence|done].
    + eapply focuses_emitting, set_focus_focuses.
    + destruct (client b) eqn:Ecl; [|apply fail_emitting].
      apply Forall_cons_2; [|done]. cbn. rewrite Ec. by eapply emits_acknowledge.
Qed.

Lemma auth_result_emitting a n r : emitting a (AuthResult n r) (handle_auth_result n r a).
Proof.
  unfold handle_auth_result. destruct (Conversation.accepts _ _) eqn:E; cbn [negb]; [|constructor].
  apply Z.eqb_eq in E. subst n.
  assert (emitting a (AuthResult (att a) r)
    match r with
    | Ok (client, response) =>
      handle_auth_response response match client with Some c => set_client (Some c) a | None => a end
    | Err error => fail error a
    end) as H.
  { destruct r as [[[c|] resp]|e]; [by apply auth_response_emitting..|apply fail_emitting]. }
  destruct (closing a) as [[]|]; try exact H. apply Forall_cons_2; [by apply emits_close|done].
Qed.

Lemma close_requested_emitting a m w : emitting a m (close_requested w a).
Proof.
  assert (∀ b c, closing b = Some c → closing b ≠ None) as Hn by congruence.
  unfold close_requested. destruct (preview a) eqn:Ep; [emit_each|].
  destruct (selection_session_cancelled a); [emit_each|].
  destruct (bool_decide _); [emit_each|].
  destruct (client a); [emit_each|]. destruct (bool_decide _); emit_each.
Qed.

Lemma confirm_power_emitting act a m : power_state a = Confirming act → emitting a m (confirm_power act a).
Proof.
  intros Hc. unfold confirm_power. destruct (preview a); [eapply focuses_emitting, leave_power_dialog_focuses|]. emit_each.
Qed.

Lemma cycle_session_emitting d a m b : emitting a m (cycle_session d b).
Proof. unfold cycle_session. destruct (bool_decide _); constructor. Qed.

Lemma emits_user a a' m m' t : user_message m' = true → emits a a' m' t → emits a a' m t.
Proof. intros Hu H. inversion H; subst; try discriminate Hu; eauto with genkan. Qed.

Lemma emits_menu_closed a a' m t : emits (close_session_menu a) a' m t → emits a a' m t.
Proof.
  intros H. inversion H; subst; eauto with genkan;
    change (conversation (close_session_menu a)) with (conversation a) in *;
    [by eapply emits_response|by eapply emits_start].
Qed.

Section Dispatch.
Context (rec : Message → App → App * list Task) (found : list Session).
Hypothesis rec_emitting : ∀ m a, user_message m = true → emitting a m (rec m a).

Lemma rec_user_emitting m' m a : user_message m' = true → emitting a m (rec m' a).
Proof using rec_emitting.
  intros Hu. eapply Forall_impl; [by apply rec_emitting|]. intros t. by apply emits_user.
Qed.

Lemma navigate_focus_emitting n a m : emitting a m (navigate_focus rec n a).
Proof using rec_emitting.
  assert (∀ d, emitting a m (move_focus d a)) as Hm by (intros d; eapply focuses_emitting, move_focus_focuses).
  assert (∀ d, emitting a m (move_directional d a)) as Hd.
  { intros d. unfold move_directional.
    destruct (focus_target a) as [[]|]; auto with genkan.
    - destruct (_ && _); [|constructor]. eapply focuses_emitting, set_focus_focuses.
    - destruct (can_select_session a); [apply cycle_session_emitting|constructor]. }
  destruct n; cbn [navigate_focus]; auto. unfold activate_focus.
  assert (emitting a m match activation a with Some m => rec m a | None => (a, []) end) as H.
  { destruct (activation a) as [m'|] eqn:Ea; [|constructor]. apply rec_user_emitting.
    by destruct (activation_user _ _ Ea). }
  destruct (focus_target a) as [[]|]; try exact H.
  destruct (can_select_session a); [apply cycle_session_emitting|constructor].
Qed.

Lemma dispatch_emitting m a : emitting a m (dispatch rec found m a).
Proof using rec_emitting.
  destruct m; cbn [dispatch]; auto with genkan.
  - destruct (Conversation.update_input _ _). constructor.
  - case_bool_decide; [by apply submit_emitting|constructor].
  - case_bool_decide; [apply retry_emitting|constructor].
  - destruct (_ && _); [apply retry_session_emitting|constructor].
  - apply auth_result_emitting.
  - unfold accounts_result. destruct r as [[|acc accs]|e]; try apply fail_emitting.
    destruct (preferred_account _); [apply select_account_emitting|eapply focuses_emitting, set_focus_focuses].
  - destruct (can_change_user a); [apply change_user_emitting|constructor].
  - unfold user_selection_cancelled. destruct (negb _); [constructor|].
    assert (emitting a (UserSelectionCancelled attempt r)
      (if negb (bool_decide (phase a = CancellingForUserSelection)) then (a, [])
       else match r with
            | Ok tt => set_focus (TAccount 0) (set_notice select_a_user false
                (set_selection_session_cancelled true (set_phase SelectingUser a)))
            | Err error => set_focus RetryAccountSelection
                (set_notice error true (set_phase UserSelectionCancellationFailed a))
            end)) as H.
    { destruct (negb _); [constructor|]. destruct r as [[]|e]; eapply focuses_emitting, set_focus_focuses. }
    destruct (closing a) as [[]|]; try exact H. cbn. emit_each.
  - destruct (_ && _); constructor.
  - case_bool_decide; [apply retry_user_selection_emitting|constructor].
  - destruct (_ && _); [apply select_account_emitting|constructor].
  - eapply Forall_impl; [apply navigate_focus_emitting|]. intros t. apply emits_menu_closed.
  - destruct (confirming a); [apply navigate_focus_emitting|constructor].
  - eapply focuses_emitting, sync_widget_focus_focuses.
  - eapply focuses_emitting, apply_widget_focus_focuses.
  - emit_each.
  - destruct (can_select_session a); [eapply focuses_emitting, set_focus_focuses|constructor].
  - destruct (can_select_session a); [eapply focuses_emitting, set_focus_focuses|constructor].
  - unfold emitting, reveal_focused_input. case_bool_decide; emit_each.
  - unfold emitting, reveal_focused_input. case_bool_decide; emit_each.
  - destruct (can_request_power a); [eapply focuses_emitting, enter_power_dialog_focuses|constructor].
  - destruct (confirming a); [eapply focuses_emitting, leave_power_dialog_focuses|constructor].
  - case_bool_decide; [by apply confirm_power_emitting|constructor].
  - unfold power_result. destruct r as [[]|e]; [case_bool_decide; [|constructor]|];
      eapply focuses_emitting, leave_power_dialog_focuses.
  - destruct (confirming a); [by apply rec_user_emitting|].
    destruct (session_menu_open a); [constructor|]. case_bool_decide; [|constructor].
    eapply focuses_emitting, blur_input_focuses.
  - apply close_requested_emitting.
  - unfold session_cancelled. destruct (cleaning _ _); [|constructor]. cbn. emit_each.
  - unfold close_timed_out. destruct (cleaning _ _); [|constructor]. cbn. emit_each.
Qed.

End Dispatch.

Lemma update_depth_emitting found n : ∀ m a, emitting a m (update_depth n found m a).
Proof.
  induction n as [|n IH]; intros m a; cbn [update_depth]; [constructor|].
  unfold update_with. destruct (admitted a m); [|constructor]. by apply dispatch_emitting.
Qed.

(** Every task of a step, with what is known of it. *)
Lemma step_emits u a ts m out a' ts' t : step u (a, ts) m out (a', ts') → t ∈ out → emits a a' m t.
Proof.
  intros Hs Ht. inversion Hs; subst;
    pose proof (update_depth_emitting found 2 m a) as H; by eapply Forall_forall in H.
Qed.

(** ** Closing *)

Definition is_window (t : Task) : bool := match t with CloseWindow _ => true | _ => false end.

(** The window of a closing greeter is closed once. *)
Definition closed_once (s : App * list Task) : Prop :=
  List.filter is_window (snd s)
  = match closing (fst s) with Some (Dispatching w) => [CloseWindow w] | _ => [] end.

(** A step of a greeter that is not closing and is not asked to. *)
Lemma open_step user s m out s' :
  outstanding user s → step user s m out s' → closing (fst s) = None → closes m = false →
  closing (fst s') = None.
Proof.
  intros Ho Hs Hc Hm.
  destruct Hs as [found m a ts Hu He|found pre t post m a Ht He];
    (destruct Ho as [Ho|[_ Ho]]; [done|]); cbn [fst snd] in *; rewrite Hc in Ho.
  - destruct (update_depth_lives user 2 found m a _ _ _ _ Ho Hu Hm) as [[_ H]|[]]; done.
  - destruct (completion_lives user found pre t post m a Ho Ht) as [[_ H]|[]]; done.
Qed.

Lemma no_window_filter a a' m out :
  Forall (emits a a' m) out → closing a' = None → preview a = false → List.filter is_window out = [].
Proof.
  intros H Hc Hp. apply filter_nil_iff. eapply Forall_impl; [exact H|]. cbn.
  intros t Ht. destruct t; try done. inversion Ht as [? Hw| | | | | | | | | | | | |? Hw]; subst; [done|].
  destruct Hw; congruence.
Qed.

Lemma close_requested_once w a : preview a = false →
  List.filter is_window (snd (close_requested w a))
  = match closing (fst (close_requested w a)) with Some (Dispatching w) => [CloseWindow w] | _ => [] end.
Proof.
  intros Hp. unfold close_requested. rewrite Hp.
  destruct (selection_session_cancelled a); [done|]. destruct (bool_decide _); [done|].
  destruct (client a); [done|]. by destruct (bool_decide _).
Qed.

(** A step leaves the tasks of before, one completed task aside. *)
Lemma step_windows user s m out s' : step user s m out s' →
  List.filter is_window (snd s') = List.filter is_window (snd s) ++ List.filter is_window out.
Proof.
  intros [found m' a ts Hu He|found pre t post m' a Ht He]; cbn [snd]; rewrite !List.filter_app; [done|].
  cbn [List.filter]. by destruct Ht.
Qed.

Lemma step_out user s m out s' : step user s m out s' →
  ∃ found, s'.1 = fst (update found m (fst s)) ∧ out = snd (update found m (fst s)).
Proof. intros [found ????|found ??????]; by exists found. Qed.

Lemma step_closed_once user s m out s' :
  outstanding user s → closed_once s → step user s m out s' → Exit ∉ snd s → closed_once s'.
Proof.
  intros Ho Hw Hs He. unfold closed_once in *. rewrite (step_windows _ _ _ _ _ Hs), Hw.
  destruct (step_out _ _ _ _ _ Hs) as (found & Ea & Eo).
  assert (preview (fst s) = false) as Hp by by destruct Ho as [?|[? _]].
  destruct (closing (fst s)) as [c|] eqn:Ec.
  - pose proof (closing_update found m (fst s) c Ec) as Hcl. rewrite <- Ea, <- Eo in Hcl.
    destruct Hcl as [->|w cl n r _ Hc' _ Ha' _|c' w Hc' Hcw Ha' _]; [rewrite Ec, app_nil_r; done| |];
      rewrite Ha'; simplify_eq; [done|]. by destruct c.
  - destruct (closes m) eqn:Em.
    + destruct m; try discriminate Em. rewrite update_admitted in *
        by (unfold admitted; rewrite Ec; by apply orb_true_r).
      rewrite Ea, Eo. by apply close_requested_once.
    + pose proof (open_step _ _ _ _ _ Ho Hs Ec Em) as Hn. rewrite Hn. cbn.
      eapply (no_window_filter (fst s) (fst s') m); [|done|done]. apply Forall_forall. intros t Ht.
      destruct s, s'. by eapply step_emits.
Qed.

Lemma step_not_exited user s m out s' : step user s m out s' → Exit ∉ snd s.
Proof. by intros []. Qed.

Lemma step_exit user s m out s' : step user s m out s' → Exit ∈ snd s' → Exit ∈ out.
Proof. intros [found ? ? ? ? He|found pre t post ? ? ? He]; cbn [snd]; set_solver. Qed.

Lemma new_closed_once account found : closed_once (new account found).
Proof.
  unfold closed_once, new. destruct found as [|s found], account as [acc|]; cbn -[focus_first]; try done.
  all: match goal with |- context [focus_first ?b] =>
    destruct (focus_first_focuses b) as [(f & bm & mo & ->) Hw] end;
    cbn; apply filter_nil_iff; (eapply Forall_impl; [exact Hw|]); by intros [].
Qed.

Lemma reachable_closed_once user s : reachable user s → closed_once s.
Proof.
  induction 1 as [account found|s m out s' Hr IH Hs]; [apply new_closed_once|].
  eapply step_closed_once; [by apply reachable_outstanding|done|exact Hs|by eapply step_not_exited].
Qed.

(** ** Properties *)


(** The user whose accounts and sessions the witnesses use. *)
Definition example_session : Session := mkSession (str "Sway") [str "sway"] (str "sway") [].
Definition example_accounts : list Account :=
  [mkAccount (str "ada") (str "Ada") None; mkAccount (str "bob") (str "Bob") None].
Definition example_user (c : Client) : rstring := if c =? 7 then str "ada" else str "bob".


(** What the user is offered in a resting phase. *)
Definition way_out (p : Phase) (t : Target) : bool :=
  match p, t with
  | WaitingForInput, TSubmit | SelectingUser, TAccount _
  | UserSelectionCancellationFailed, RetryAccountSelection
  | Failed, (RetryAuthentication | RetryAccountSelection | TRetrySession) => true
  | _, _ => false
  end.

Lemma idle_admits a m : closing a = None → power_state a = Idle → admitted a m = true.
Proof. intros Hc Hp. unfold admitted, power_idle. by rewrite Hc, (bool_decide_eq_true_2 _ Hp). Qed.

Lemma filter_in (p : Task → bool) t l ts : List.filter p ts = t :: l → t ∈ ts.
Proof.
  intros E. assert (In t (List.filter p ts)) as H by (rewrite E; by left).
  apply filter_In in H as [H _]. by apply list_elem_of_In.
Qed.

(** A phase that waits has the task it waits for. *)
Lemma awaited_task user a ts : filters_live user a ts → resting (phase a) = false →
  ∃ t m, t ∈ ts ∧ completes user t m.
Proof.
  intros [_ _ Ha Hl Hc _ _ _ _ _ _ _] Hr. unfold auth_demand in Ha.
  destruct (phase a); try discriminate Hr.
  - exists ListAccounts, (AccountsResult (Err [])). split; [by eapply filter_in|constructor].
  - destruct Hc as [c Hc]. eexists _, (UserSelectionCancelled _ (Ok tt)). 
    split; [by eapply filter_in|constructor].
  - destruct Ha as [[r Ha]|[[c Ha]|(c & Ha & _)]]; eexists _, (AuthResult _ (Err []));
      (split; [by eapply filter_in|]); [by constructor|by constructor|exact (done_exchange _ _ _ _ (Err []))].
  - destruct Ha as (c & r & Ha & _). eexists _, (AuthResult _ (Err [])).
    split; [by eapply filter_in|exact (done_exchange _ _ _ _ (Err []))].
  - destruct Ha as (c & s & _ & _ & [Ha|Ha]); eexists _, (AuthResult _ (Err []));
      (split; [by eapply filter_in|exact (done_exchange _ _ _ _ (Err []))]).
Qed.

Lemma resting_way_out user a ts :
  filters_live user a ts → resting (phase a) = true → power_state a = Idle →
  ∃ t, t ∈ focus_order a ∧ way_out (phase a) t = true ∧ is_Some (activation (set_focus_target (Some t) a)).
Proof.
  intros Hl Hr Hp. unfold focus_order. rewrite Hp, (l_closing _ _ _ _ _ _ Hl).
  destruct (phase a) eqn:Eph; try discriminate Hr.
  - destruct (has_session a) eqn:Es.
    + destruct (negb _); [exists RetryAuthentication|exists RetryAccountSelection];
        (split; [by left|split; [done|by eexists]]).
    + exists TRetrySession. split; [|split; [done|by eexists]]. cbn [negb]. rewrite bool_decide_eq_true_2 by done.
      rewrite !elem_of_app. right. right. right. left. by left.
  - pose proof (l_accounts _ _ _ _ _ _ Hl ltac:(by left)) as Hne.
    assert (can_select_account a = true) as Hcan.
    { unfold can_select_account, not_closing, power_idle.
      by rewrite (l_closing _ _ _ _ _ _ Hl), Eph, (bool_decide_eq_true_2 _ Hp). }
    rewrite Hcan. destruct (accounts a) as [|acc l] eqn:Ea; [done|].
    exists (TAccount 0). split; [by left|]. split; [done|].
    change (is_Some (if can_select_account a then SelectAccount <$> accounts a !! 0%nat else None)).
    rewrite Hcan, Ea. by eexists.
  - exists RetryAccountSelection. split; [by left|split; [done|by eexists]].
  - exists TSubmit. split; [by right; left|split; [done|by eexists]].
Qed.



(** A greeter that is closing starts none of these. *)
Definition quiet (t : Task) : bool :=
  match t with CancelForClose _ _ | CloseWindow _ => true | _ => false end.

Lemma closing_quiet user a ts m out a' ts' t :
  step user (a, ts) m out (a', ts') → t ∈ out → quiet t = false → closing a = None.
Proof.
  intros Hs Ht Hq. destruct (closing a) as [c|] eqn:Ec; [exfalso|done].
  destruct (step_out _ _ _ _ _ Hs) as (found & _ & Eo). cbn [fst] in Eo.
  pose proof (closing_update found m a c Ec) as Hcl. rewrite <- Eo in Hcl.
  destruct Hcl; [by apply elem_of_nil in Ht|..]; apply list_elem_of_singleton in Ht; by subst.
Qed.

Lemma open_live user a ts : reachable user (a, ts) → Exit ∉ ts → closing a = None → filters_live user a ts.
Proof.
  intros Hr He Hc. destruct (reachable_outstanding _ _ Hr) as [?|[_ Ho]]; [done|].
  cbn in Ho. by rewrite Hc in Ho.
Qed.

(** C30.  A typed response leaves the greeter only when a prompt waits for it,
    as it was typed, under the current attempt, and on the connection on which
    a session was created for the user the greeter shows. *)
Theorem response_to_shown_user user a ts m out a' ts' c r n :
  reachable user (a, ts) → step user (a, ts) m out (a', ts') →
  Exchange c (PostAuthMessageResponse (Some r)) n ∈ out →
  closing a = None ∧ phase a = WaitingForInput ∧ user c = username a
  ∧ r = text (input (conversation a)) ∧ n = att a
  ∧ phase a' = Authenticating.
Proof.
  intros Hr Hs Ht. pose proof (closing_quiet _ _ _ _ _ _ _ _ Hs Ht eq_refl) as Hc.
  pose proof (open_live _ _ _ Hr (step_not_exited _ _ _ _ _ Hs) Hc) as Hl.
  pose proof (step_emits _ _ _ _ _ _ _ _ Hs Ht) as He.
  inversion He as [? Hw| | | |? ? Hw Hcl Hrt Hph| | | | | | | | |]; subst; [done|].
  pose proof (proj1 (l_waiting _ _ _ _ _ _ Hl) Hw) as Hph'.
  destruct (l_own _ _ _ _ _ _ Hl Hph') as (c' & Hc' & Hu). simplify_eq.
  by split_and!.
Qed.

(** A run to a prompt, and the answer typed into it. *)
Definition prompted : App * list Task :=
  let a := fst (new (Some (mkAccount (str "ada") (str "Ada") None)) [example_session]) in
  let r := update [] (AuthResult 1 (Ok (Some 7, Auth.Prompt true (str "Password:")))) a in
  (fst r, [] ++ snd r).
Definition typed : App * list Task :=
  let r := update [] (InputChanged (str "hunter2")) (fst prompted) in
  (fst r, snd prompted ++ snd r).

Lemma typed_reachable : reachable example_user typed.
Proof.
  eapply (reach_step _ prompted); [eapply reach_step; [exact (reach_new _ (Some (mkAccount (str "ada") (str "Ada") None)) [example_session])|]|].
  - refine (step_completion _ [] [] (Begin (str "ada") 1 true) [] _ _ _ _);
      [constructor; by exists 7|by intros ?%list_elem_of_singleton].
  - apply step_user; [done|]. change (snd prompted) with [FocusInput; RevealInput].
    by intros [|[|?%elem_of_nil]%elem_of_cons]%elem_of_cons.
Qed.

Lemma typed_not_exited : Exit ∉ snd typed.
Proof.
  change (snd typed) with [FocusInput; RevealInput].
  by intros [|[|?%elem_of_nil]%elem_of_cons]%elem_of_cons.
Qed.

Lemma response_to_shown_user_witness :
  let '(a, ts) := typed in
  let r := update [] Submit a in
  snd r = [Exchange 7 (PostAuthMessageResponse (Some (str "hunter2"))) 1]
  ∧ example_user 7 = username a.
Proof.
  split; [vm_compute; reflexivity|].
  destruct (response_to_shown_user example_user (fst typed) (snd typed) Submit
    (snd (update [] Submit (fst typed))) (fst (update [] Submit (fst typed)))
    (snd typed ++ snd (update [] Submit (fst typed))) 7 (str "hunter2") 1
    typed_reachable (step_user example_user [] Submit (fst typed) (snd typed) eq_refl typed_not_exited)) as (_ & _ & H & _);
    [vm_compute; left|exact H].
Defined.

(** C15.  A session is started only when greetd has just accepted the shown
    user in the current attempt, on that user's connection, and it is the
    selected one, with its command and its environment; and the greeter exits
    only when greetd has accepted the start of a session. *)
Theorem session_start_gate user a ts m out a' ts' :
  reachable user (a, ts) → step user (a, ts) m out (a', ts') →
  (∀ c cmd env n, Exchange c (StartSession cmd env) n ∈ out →
     closing a = None ∧ (∃ o, m = AuthResult (att a) (Ok (o, Auth.Success)))
     ∧ phase a ≠ StartingSession ∧ user c = username a'
     ∧ ∃ s, selected_session a = Some s ∧ cmd = command s ∧ env = environment s)
  ∧ (Exit ∈ out →
     closing a = None ∧ (∃ o, m = AuthResult (att a) (Ok (o, Auth.Success)))
     ∧ phase a = StartingSession).
Proof.
  intros Hr Hs. pose proof (reachable_outstanding _ _ (reach_step _ _ _ _ _ Hr Hs)) as Ho.
  split.
  - intros c cmd env n Ht. pose proof (closing_quiet _ _ _ _ _ _ _ _ Hs Ht eq_refl) as Hc.
    pose proof (step_emits _ _ _ _ _ _ _ _ Hs Ht) as He.
    inversion He as [? Hw| | | | |? o s Hm Hph Hcl Hsel Hph'| | | | | | | |]; subst; [done|].
    split_and!; [done|by exists o|done| |by exists s].
    destruct Ho as [Hx|[_ Ho]]; cbn [fst snd] in *.
    + pose proof (step_emits _ _ _ _ _ _ _ _ Hs (step_exit _ _ _ _ _ Hs Hx)) as Hex.
      by inversion Hex.
    + pose proof (open_step _ _ _ _ _ (reachable_outstanding _ _ Hr) Hs Hc eq_refl) as Hn.
      cbn [fst] in Hn. rewrite Hn in Ho.
      destruct Ho as [_ _ Ha _ _ _ _ _ _ _ _ _]. unfold auth_demand in Ha. rewrite Hph' in Ha.
      destruct Ha as (c' & s' & _ & [Hc' Hu] & _). congruence.
  - intros Ht. pose proof (closing_quiet _ _ _ _ _ _ _ _ Hs Ht eq_refl) as Hc.
    pose proof (step_emits _ _ _ _ _ _ _ _ Hs Ht) as He.
    inversion He as [? Hw| | | | | |o Hm Hph| | | | | | |]; subst; [done|].
    split_and!; [done|by exists o|done].
Qed.

Definition accepted : App * list Task :=
  let r := update [] (AuthResult 1 (Ok (Some 7, Auth.Success)))
             (fst (new (Some (mkAccount (str "ada") (str "Ada") None)) [example_session])) in
  (fst r, [] ++ snd r).

Lemma session_start_gate_witness :
  snd accepted = [Exchange 7 (StartSession [str "sway"] (environment example_session)) 1]
  ∧ example_user 7 = username (fst accepted).
Proof.
  split; [vm_compute; reflexivity|].
  destruct (session_start_gate example_user _ _ _ _ (fst accepted) (snd accepted)
    (reach_new _ (Some (mkAccount (str "ada") (str "Ada") None)) [example_session])
    (step_completion _ [] [] (Begin (str "ada") 1 true) [] _ _
      (done_begin example_user _ _ true (Ok (Some 7, Auth.Success)) (ex_intro _ 7 (conj eq_refl eq_refl)))
      ltac:(by intros ?%list_elem_of_singleton))) as [H _].
  destruct (H 7 [str "sway"] (environment example_session) 1) as (_ & _ & _ & Hu & _);
    [vm_compute; left|exact Hu].
Defined.

(** Closing is final and happens once: in every run the window's close
    request is issued exactly when the state says so, and at most once; a
    closing greeter stays closing, and from then on starts nothing but the
    cancellation of the session and the close of the window. *)
Theorem closing_once user a ts :
  reachable user (a, ts) →
  List.filter is_window ts
  = match closing a with Some (Dispatching w) => [CloseWindow w] | _ => [] end
  ∧ ∀ m out a' ts', step user (a, ts) m out (a', ts') → closing a ≠ None →
      closing a' ≠ None ∧ Forall (λ t, quiet t = true) out.
Proof.
  intros Hr. split; [exact (reachable_closed_once _ _ Hr)|].
  intros m out a' ts' Hs Hne. destruct (closing a) as [c|] eqn:Ec; [|done].
  destruct (step_out _ _ _ _ _ Hs) as (found & Ea & Eo). cbn [fst] in *.
  pose proof (closing_update found m a c Ec) as Hcl. rewrite <- Ea, <- Eo in Hcl.
  destruct Hcl as [->|w cl n r _ _ _ Ha' _|c' w _ _ Ha' _]; rewrite ?Ha', ?Ec; 
    split; try done; by repeat constructor.
Qed.

Lemma closing_once_witness :
  let '(a, ts) := typed in
  let s := (fst (update [] (CloseRequested 3) a), ts ++ snd (update [] (CloseRequested 3) a)) in
  closing (fst s) = Some (Cancelling 3) ∧ List.filter is_window (snd s) = [].
Proof.
  split; [vm_compute; reflexivity|].
  refine (proj1 (closing_once example_user _ _ (reach_step _ _ _ _ _ typed_reachable
    (step_user example_user [] (CloseRequested 3) (fst typed) (snd typed) eq_refl typed_not_exited)))).
Defined.

(** C31.  A power action is requested only for the action whose confirmation
    is on the screen, of a greeter that is not closing, and while nothing is
    under way with greetd: no power request interrupts an authentication. *)
Theorem power_confirmed user a ts m out a' ts' act :
  reachable user (a, ts) → step user (a, ts) m out (a', ts') → ExecutePower act ∈ out →
  closing a = None ∧ power_state a = Confirming act ∧ power_state a' = Executing act
  ∧ resting (phase a) = true ∧ List.filter is_auth ts = [].
Proof.
  intros Hr Hs Ht. pose proof (closing_quiet _ _ _ _ _ _ _ _ Hs Ht eq_refl) as Hc.
  pose proof (open_live _ _ _ Hr (step_not_exited _ _ _ _ _ Hs) Hc) as Hl.
  pose proof (step_emits _ _ _ _ _ _ _ _ Hs Ht) as He.
  inversion He as [? Hw| | | | | | |? Hp Hp'| | | | | |]; subst; [done|].
  assert (resting (phase a) = true) as Hrest by (destruct (l_idle _ _ _ _ _ _ Hl); congruence).
  split_and!; try done. destruct Hl as [_ _ Ha _ _ _ _ _ _ _ _ _]. unfold auth_demand in Ha.
  by destruct (phase a).
Qed.

Lemma power_confirmed_witness :
  let a := fst (update [] (AskPower Suspend) (fst typed)) in
  snd (update [] (ConfirmPower Suspend) a) = [ExecutePower Suspend]
  ∧ power_state a = Confirming Suspend ∧ resting (phase a) = true.
Proof.
  cbn zeta. split; [vm_compute; reflexivity|].
  pose (s1 := update [] (AskPower Suspend) (fst typed)).
  pose (s2 := update [] (ConfirmPower Suspend) (fst s1)).
  assert (Exit ∉ snd typed ++ snd s1) as He1.
  { change (snd typed ++ snd s1) with [FocusInput; RevealInput; ClearFocus].
    by intros [|[|[|?%elem_of_nil]%elem_of_cons]%elem_of_cons]%elem_of_cons. }
  destruct (power_confirmed example_user (fst s1) (snd typed ++ snd s1) (ConfirmPower Suspend) (snd s2) (fst s2)
    ((snd typed ++ snd s1) ++ snd s2) Suspend
    (reach_step _ _ _ _ _ typed_reachable
      (step_user example_user [] (AskPower Suspend) (fst typed) (snd typed) eq_refl typed_not_exited))
    (step_user example_user [] (ConfirmPower Suspend) (fst s1) (snd typed ++ snd s1) eq_refl He1))
    as (_ & H1 & _ & H2 & _); [vm_compute; left|]. exact (conj H1 H2).
Defined.

(** ** Keyboard focus *)

Lemma focus_order_refocus f b m a : focus_order (refocus f b m a) = focus_order a.
Proof. done. Qed.

Lemma focus_order_nodup a : NoDup (focus_order a).
Proof.
  unfold focus_order. destruct (power_state a) as [|act|act]; [|apply (bool_decide_unpack _); by vm_compute|].
  2: by destruct (closing a); apply NoDup_nil_2.
  destruct (closing a); [apply NoDup_nil_2|].
  destruct (phase a) eqn:Eph.
  4: { unfold can_change_user, can_request_power. rewrite Eph, andb_false_r.
    rewrite bool_decide_eq_false_2 by done. cbn [andb app].
    apply NoDup_app. split_and!.
    - destruct (can_select_account a); [|apply NoDup_nil_2].
      apply NoDup_fmap_2; [by intros ?? [= ->]|apply NoDup_seq].
    - intros t Ht. assert (∃ i, t = TAccount i) as [i ->].
      { destruct (can_select_account a); [|by apply elem_of_nil in Ht].
        apply list_elem_of_fmap in Ht as (i & -> & _). by exists i. }
      destruct (can_select_session a && has_session a), (not_closing a && power_idle a && true); cbn;
        rewrite ?elem_of_cons, elem_of_nil; intros H; by destruct_or?.
    - destruct (can_select_session a && has_session a), (not_closing a && power_idle a && true);
        apply (bool_decide_unpack _); by vm_compute. }
  all: destruct (has_session a), (negb (bool_decide (username a = []))), (can_change_user a), (can_select_session a),
    (can_request_power a); apply (bool_decide_unpack _); by vm_compute.
Qed.

Lemma position_lookup {A} `{EqDecision A} (l : list A) i x :
  NoDup l → l !! i = Some x → position x l = Some i.
Proof.
  revert i. induction l as [|y l IH]; intros i Hnd Hi; [done|].
  apply NoDup_cons in Hnd as [Hy Hnd]. destruct i as [|i]; cbn in *.
  - injection Hi as ->. by rewrite bool_decide_eq_true_2.
  - rewrite bool_decide_eq_false_2; [by rewrite (IH i)|].
    intros ->. apply Hy. by eapply list_elem_of_lookup_2.
Qed.

Lemma step_index_lt i d n : (0 < n)%nat → (step_index i d n < n)%nat.
Proof.
  intros Hn. unfold step_index. pose proof (Z.mod_pos_bound (Z.of_nat i + d) (Z.of_nat n)). lia.
Qed.

(** A move goes to the neighbouring target and changes nothing else. *)
Lemma move_focus_to a i t d :
  focus_order a !! i = Some t → focus_target a = Some t →
  let a' := fst (move_focus d a) in
  focus_order a' = focus_order a
  ∧ focus_target a' = focus_order a !! step_index i d (length (focus_order a)).
Proof.
  intros Hi Ht. cbn zeta. destruct (move_focus_focuses d a) as [(f & b & m & E) _].
  split; [by rewrite E, focus_order_refocus|].
  pose proof (lookup_lt_Some _ _ _ Hi) as Hlt.
  unfold move_focus. rewrite Ht. cbn [mbind option_bind].
  rewrite (position_lookup _ _ _ (focus_order_nodup a) Hi).
  rewrite bool_decide_eq_false_2 by (intros E0; by rewrite E0 in Hi).
  destruct (lookup_lt_is_Some_2 (focus_order a) (step_index i d (length (focus_order a)))) as [t' Ht'];
    [apply step_index_lt; lia|].
  rewrite Ht'. unfold set_focus. case_bool_decide; by cbn.
Qed.

Definition press (n : Z) (k : nat) (a : App) : App := Nat.iter k (λ a, fst (move_focus n a)) a.

Lemma press_to a i t d k :
  focus_order a !! i = Some t → focus_target a = Some t →
  focus_order (press d k a) = focus_order a
  ∧ focus_target (press d k a)
    = focus_order a !! Z.to_nat ((Z.of_nat i + Z.of_nat k * d) mod Z.of_nat (length (focus_order a))).
Proof.
  intros Hi Ht. pose proof (lookup_lt_Some _ _ _ Hi) as Hlt.
  set (n := Z.of_nat (length (focus_order a))).
  induction k as [|k [IHo IHt]].
  - cbn [press Nat.iter]. split; [done|]. rewrite Z.mul_0_l, Z.add_0_r, Z.mod_small by lia.
    by rewrite Nat2Z.id, Hi.
  - set (j := Z.to_nat ((Z.of_nat i + Z.of_nat k * d) mod n)) in *.
    pose proof (Z.mod_pos_bound (Z.of_nat i + Z.of_nat k * d) n ltac:(lia)) as Hj.
    destruct (lookup_lt_is_Some_2 (focus_order a) j) as [t' Ht']; [lia|].
    destruct (move_focus_to (press d k a) j t' d) as [Ho Hf]; [by rewrite IHo|by rewrite IHt|].
    change (press d (S k) a) with (fst (move_focus d (press d k a))).
    rewrite Ho, Hf, IHo. split; [done|]. unfold step_index. fold n. f_equal. f_equal.
    unfold j. rewrite Z2Nat.id, Z.add_mod_idemp_l by lia. f_equal. lia.
Qed.

(** Keyboard focus walks the targets of the screen in a circle: the
    targets are distinct, and from one of them [k] presses of Tab (or of
    Shift-Tab) reach the target [k] places further (or back), so that as many
    presses as there are targets visit each of them and return. *)
Theorem focus_walk a i t k :
  focus_order a !! i = Some t → focus_target a = Some t →
  NoDup (focus_order a)
  ∧ focus_order (press 1 k a) = focus_order a
  ∧ focus_target (press 1 k a) = focus_order a !! ((i + k) mod length (focus_order a))%nat
  ∧ focus_target (press (-1) k (press 1 k a)) = Some t
  ∧ focus_target (press 1 (length (focus_order a)) a) = Some t.
Proof.
  intros Hi Ht. pose proof (lookup_lt_Some _ _ _ Hi) as Hlt.
  set (n := length (focus_order a)) in *.
  assert (∀ k, focus_order (press 1 k a) = focus_order a
    ∧ focus_target (press 1 k a) = focus_order a !! ((i + k) mod n)%nat) as Hf.
  { intros k'. destruct (press_to a i t 1 k' Hi Ht) as [Ho ->]. split; [done|]. f_equal. fold n.
    rewrite Z.mul_1_r, <- Nat2Z.inj_add, <- Nat2Z.inj_mod. by rewrite Nat2Z.id. }
  destruct (Hf k) as [Ho Hk]. split_and!; [apply focus_order_nodup|done|done| |].
  - pose proof (Nat.mod_upper_bound (i + k) n ltac:(lia)) as Hb.
    destruct (lookup_lt_is_Some_2 (focus_order a) ((i + k) mod n)%nat) as [t' Ht']; [done|].
    destruct (press_to (press 1 k a) ((i + k) mod n)%nat t' (-1) k) as [_ ->]; [by rewrite Ho|by rewrite Hk|].
    rewrite Ho, <- Hi. f_equal. fold n. rewrite Nat2Z.inj_mod, Nat2Z.inj_add.
    rewrite Z.add_mod_idemp_l by lia.
    replace (Z.of_nat i + Z.of_nat k + Z.of_nat k * -1) with (Z.of_nat i) by lia.
    rewrite Z.mod_small by lia. lia.
  - destruct (Hf n) as [_ ->]. rewrite <- Hi. f_equal.
    replace (i + n)%nat with (i + 1 * n)%nat by lia. rewrite Nat.Div0.mod_add.
    apply Nat.mod_small. lia.
Qed.

Lemma focus_walk_witness :
  focus_order (fst typed) = [AuthenticationInput; TSubmit; TSession; TPower Suspend; TPower Reboot; TPower PowerOff]
  ∧ focus_target (press 1 4 (fst typed)) = Some (TPower Reboot)
  ∧ focus_target (press (-1) 4 (press 1 4 (fst typed))) = Some AuthenticationInput.
Proof.
  split_and!; [vm_compute; reflexivity|vm_compute; reflexivity|].
  refine (proj1 (proj2 (proj2 (proj2 (focus_walk (fst typed) 0 AuthenticationInput 4 _ _)))));
    vm_compute; reflexivity.
Defined.
