(* ===== verification/Solar.v ===== *)
(** * Solar schedules ([src/dynamic_wallpaper/solar.rs])

    The trajectory of the sun over a day and the mapping of authored solar
    points to times of day.  The arithmetic is that of IEEE 754 binary64, in
    the order the code writes it; the trigonometric functions are those of the
    platform's library and are a parameter, a [Libm]. *)

From S2P Require Import Prelude DynamicModel.

(** ** Arithmetic *)

Declare Scope f64_scope.
Delimit Scope f64_scope with f64.

Definition f64_add : f64 → f64 → f64 := SFadd 53 1024.
Definition f64_sub : f64 → f64 → f64 := SFsub 53 1024.
Definition f64_mul : f64 → f64 → f64 := SFmul 53 1024.
Definition f64_sqrt : f64 → f64 := SFsqrt 53 1024.
Definition f64_abs : f64 → f64 := SFabs.
Definition f64_gt (x y : f64) : bool := f64_lt y x.

(** The remainder of a truncated division, which is exact: both are multiples
    of the smaller power of two. *)
Definition f64_rem (x y : f64) : f64 :=
  match x, y with
  | S754_nan, _ | _, S754_nan | S754_infinity _, _ | _, S754_zero _ => S754_nan
  | S754_zero _, _ | _, S754_infinity _ => x
  | S754_finite s mx ex, S754_finite _ my ey =>
    let e := Z.min ex ey in
    let r := Z.shiftl (Z.pos mx) (ex - e) mod Z.shiftl (Z.pos my) (ey - e) in
    binary_normalize 53 1024 (if s then - r else r) e s
  end.
Definition rem_euclid (x y : f64) : f64 :=
  let r := f64_rem x y in if f64_lt r (f64_of 0) then f64_add r (f64_abs y) else r.
Definition clamp (lo hi x : f64) : f64 :=
  let x := if f64_lt x lo then lo else x in if f64_gt x hi then hi else x.

(** The literal [n / 10^k]: the nearest [f64], for both are exact. *)
Definition lit (n : Z) (k : Z) : f64 := f64_div (f64_of n) (f64_of (10 ^ k)).

Infix "+" := f64_add : f64_scope.
Infix "-" := f64_sub : f64_scope.
Infix "*" := f64_mul : f64_scope.
Infix "/" := f64_div : f64_scope.

(** [std::f64::consts::PI], and the conversions of the standard library. *)
Definition PI : f64 := f64_div (f64_of 884279719003555) (f64_of (2 ^ 48)).
Definition to_radians (x : f64) : f64 := (x * (PI / f64_of 180))%f64.
Definition to_degrees (x : f64) : f64 := (x * (f64_of 180 / PI))%f64.

Record Libm := mkLibm {
  sin : f64 → f64; cos : f64 → f64; tan : f64 → f64;
  asin : f64 → f64; acos : f64 → f64; atan2 : f64 → f64 → f64;
}.

(** ** The sun *)

Definition MINUTES_PER_DAY : Z := 1440.
Definition NANOSECONDS_PER_SECOND : Z := 1000000000.
Definition REFINEMENT_RADIUS_SECONDS : Z := 60.

Inductive SolarError := InvalidTrajectory.

Definition Vector : Type := f64 * f64 * f64.
Record Sample := mkSample { second : Z; vector : Vector }.

Definition i128_checked_sub (a b : Z) : option Z :=
  if (- 2 ^ 127 <=? a - b) && (a - b <? 2 ^ 127) then Some (a - b) else None.

Section Sun.
Context (m : Libm).

Definition normalize_degrees (value : f64) : f64 :=
  let value := rem_euclid value (f64_of 360) in
  if f64_le (f64_of 360) value then f64_of 0 else value.

Definition signed_hour_angle (true_solar_minutes : f64) : f64 :=
  let degrees := rem_euclid (true_solar_minutes / f64_of 4 - f64_of 180)%f64 (f64_of 360) in
  if f64_gt degrees (f64_of 180) then (degrees - f64_of 360)%f64 else degrees.

(** The NOAA equations. *)
Definition solar_altitude_azimuth (location : Location) (utc_seconds : f64) : f64 * f64 :=
  (let julian_day := utc_seconds / f64_of 86400 + lit 24405875 1 in
   let century := (julian_day - f64_of 2451545) / f64_of 36525 in
   let mean_longitude :=
     rem_euclid (lit 28046646 5 + century * (lit 3600076983 5 + century * lit 3032 7)) (f64_of 360) in
   let mean_anomaly := lit 35752911 5 + century * (lit 3599905029 5 - lit 1537 7 * century) in
   let eccentricity := lit 16708634 9 - century * (lit 42037 9 + lit 1267 10 * century) in
   let anomaly := to_radians mean_anomaly in
   let equation_of_center :=
     sin m anomaly * (lit 1914602 6 - century * (lit 4817 6 + lit 14 6 * century))
     + sin m (f64_of 2 * anomaly) * (lit 19993 6 - lit 101 6 * century)
     + sin m (f64_of 3 * anomaly) * lit 289 6 in
   let true_longitude := mean_longitude + equation_of_center in
   let omega := to_radians (lit 12504 2 - lit 1934136 3 * century) in
   let apparent_longitude := true_longitude - lit 569 5 - lit 478 5 * sin m omega in
   let mean_obliquity :=
     f64_of 23
     + (f64_of 26
        + (lit 21448 3 - century * (lit 46815 3 + century * (lit 59 5 - century * lit 1813 6)))
          / f64_of 60)
       / f64_of 60 in
   let obliquity := mean_obliquity + lit 256 5 * cos m omega in
   let declination :=
     to_degrees (asin m (sin m (to_radians obliquity) * sin m (to_radians apparent_longitude))) in
   let y := tan m (to_radians obliquity / f64_of 2) in
   let mean_longitude_rad := to_radians mean_longitude in
   let equation_of_time :=
     f64_of 4
     * to_degrees
         (y * y * sin m (f64_of 2 * mean_longitude_rad)
          - f64_of 2 * eccentricity * sin m anomaly
          + f64_of 4 * eccentricity * y * sin m anomaly * cos m (f64_of 2 * mean_longitude_rad)
          - lit 5 1 * y * y * sin m (f64_of 4 * mean_longitude_rad)
          - lit 125 2 * eccentricity * eccentricity * sin m (f64_of 2 * anomaly)) in
   let minutes := rem_euclid utc_seconds (f64_of 86400) / f64_of 60 in
   let true_solar_minutes := minutes + equation_of_time + f64_of 4 * longitude_degrees location in
   let hour_angle := signed_hour_angle true_solar_minutes in
   let latitude := to_radians (latitude_degrees location) in
   let declination_rad := to_radians declination in
   let hour_angle_rad := to_radians hour_angle in
   let sin_altitude :=
     sin m latitude * sin m declination_rad
     + cos m latitude * cos m declination_rad * cos m hour_angle_rad in
   let altitude := to_degrees (asin m (clamp (f64_of (-1)) (f64_of 1) sin_altitude)) in
   let azimuth :=
     to_degrees (atan2 m (sin m hour_angle_rad)
                   (cos m hour_angle_rad * sin m latitude - tan m declination_rad * cos m latitude))
     + f64_of 180 in
   (altitude, azimuth))%f64.

Definition solar_position (location : Location) (base_utc second : Z) : result SolarError SolarPosition :=
  let utc_seconds := f64_div (f64_of (base_utc + second * NANOSECONDS_PER_SECOND)) (f64_of NANOSECONDS_PER_SECOND) in
  let '(altitude, azimuth) := solar_altitude_azimuth location utc_seconds in
  match solar_position_new (clamp (f64_of (-90)) (f64_of 90) altitude) (normalize_degrees azimuth) with
  | Ok p => Ok p
  | Err _ => Err InvalidTrajectory
  end.

(** ** Distances *)

Definition unit_vector (p : SolarPosition) : Vector :=
  let altitude := to_radians (altitude_degrees p) in
  let azimuth := to_radians (azimuth_degrees p) in
  (cos m altitude * sin m azimuth, cos m altitude * cos m azimuth, sin m altitude)%f64.

Definition angular_distance (l r : Vector) : f64 :=
  let '(l0, l1, l2) := l in
  let '(r0, r1, r2) := r in
  acos m (clamp (f64_of (-1)) (f64_of 1) (l0 * r0 + l1 * r1 + l2 * r2)%f64).

Definition nearer (best : option Sample) (candidate : Sample) (target : Vector) : option Sample :=
  match best with
  | Some current =>
    if f64_lt (angular_distance (vector candidate) target) (angular_distance (vector current) target)
    then Some candidate else Some current
  | None => Some candidate
  end.

(** ** The mapping *)

(** [n] seconds from [second] on, [stride] apart. *)
Fixpoint positions (location : Location) (base_utc stride : Z) (n : nat) (second : Z) :
    result SolarError (list (Z * SolarPosition)) :=
  match n with
  | O => Ok []
  | S n =>
    p ← solar_position location base_utc second;
    ps ← positions location base_utc stride n (second + stride);
    Ok ((second, p) :: ps)
  end.

Definition base_utc (clock : ClockSnapshot) : result SolarError Z :=
  ok_or InvalidTrajectory
    (i128_checked_sub (utc_nanoseconds clock) (seconds_of_day clock * NANOSECONDS_PER_SECOND)).

Definition trajectory (location : Location) (clock : ClockSnapshot) :
    result SolarError (list (Z * SolarPosition)) :=
  base ← base_utc clock;
  positions location base 60 (Z.to_nat MINUTES_PER_DAY) 0.

Definition sample_of (x : Z * SolarPosition) : Sample := mkSample (fst x) (unit_vector (snd x)).
Definition nearest (target : Vector) (samples : list Sample) : option Sample :=
  foldl (λ best candidate, nearer best candidate target) None samples.

Definition window (coarse : Z) : Z * Z :=
  (saturating_sub coarse REFINEMENT_RADIUS_SECONDS,
   Z.min (coarse + REFINEMENT_RADIUS_SECONDS) (SECONDS_PER_DAY - 1)).

Definition nearest_second (samples : list Sample) (location : Location) (base_utc : Z) (target : Vector) :
    result SolarError Z :=
  coarse ← ok_or InvalidTrajectory (nearest target samples);
  let '(start, stop) := window (second coarse) in
  ps ← positions location base_utc 1 (Z.to_nat (stop - start + 1)) start;
  refined ← ok_or InvalidTrajectory (nearest target (sample_of <$> ps));
  Ok (second refined).

Definition time_of_second (second : Z) : f64 := f64_div (f64_of second) (f64_of SECONDS_PER_DAY).

Fixpoint map_points (samples : list Sample) (location : Location) (base_utc : Z) (l : list SolarPoint) :
    result SolarError (list TimePoint) :=
  match l with
  | [] => Ok []
  | p :: l =>
    second ← nearest_second samples location base_utc (unit_vector (sp_position p));
    time ← match normalized_time_new (time_of_second second) with
           | Ok t => Ok t
           | Err _ => Err InvalidTrajectory
           end;
    mapped ← map_points samples location base_utc l;
    Ok (mkTimePoint (sp_image p) time :: mapped)
  end.

Definition map_schedule (schedule : Schedule SolarPoint) (location : Location) (clock : ClockSnapshot) :
    result SolarError (list TimePoint) :=
  base ← base_utc clock;
  samples ← trajectory location clock;
  map_points (sample_of <$> samples) location base (points schedule).
End Sun.

(** ** Properties *)

(** The order of the [f64]s that are numbers, as a lexicographic order. *)
Definition rank (x : f64) : Z * Z * Z :=
  match x with
  | S754_nan => (3, 0, 0)
  | S754_infinity s => (if s then -2 else 2, 0, 0)
  | S754_zero _ => (0, 0, 0)
  | S754_finite true mx ex => (-1, - ex, Z.neg mx)
  | S754_finite false mx ex => (1, ex, Z.pos mx)
  end.
Definition is_nan (x : f64) : bool := match x with S754_nan => true | _ => false end.
Definition below (a b : Z * Z * Z) : Prop :=
  let '(a1, a2, a3) := a in
  let '(b1, b2, b3) := b in a1 < b1 ∨ a1 = b1 ∧ (a2 < b2 ∨ a2 = b2 ∧ a3 < b3).

Lemma f64_lt_rank x y : f64_lt x y = true ↔ is_nan x = false ∧ is_nan y = false ∧ below (rank x) (rank y).
Proof.
  unfold f64_lt, SFltb, SFcompare.
  destruct x as [s|s| |s m e], y as [t|t| |t n f]; cbn; try (destruct s); try (destruct t); cbn;
    try (split; [done|intros (?&?&?); lia]); try (split; [done|intros (?&?&?); done]);
    try (split; [intros _; split; [done|split; [done|lia]]|done]).
  all: change (Pos.compare_cont Eq m n) with (m ?= n)%positive;
    destruct (Z.compare_spec e f); try destruct (Pos.compare_spec m n); cbn;
    (split; [first [done|intros _; split; [done|split; [done|lia]]]|intros (_&_&?); first [done|exfalso; lia]]).
Qed.

Lemma f64_lt_irrefl x : f64_lt x x = false.
Proof.
  destruct (f64_lt x x) eqn:E; [|done]. apply f64_lt_rank in E as (_ & _ & H). unfold below in H.
  destruct (rank x) as [[??]?]. lia.
Qed.
Lemma f64_lt_trans x y z : f64_lt x y = true → f64_lt y z = true → f64_lt x z = true.
Proof.
  rewrite !f64_lt_rank. intros (? & ? & H1) (_ & ? & H2). split; [done|]. split; [done|]. unfold below in *.
  destruct (rank x) as [[??]?], (rank y) as [[??]?], (rank z) as [[??]?]. lia.
Qed.
(** What is not nearer than a farther one is farther, if it is a number. *)
Lemma f64_lt_cotrans x y z : f64_lt x y = true → f64_lt z y = false → is_nan z = true ∨ f64_lt x z = true.
Proof.
  intros H1 H2. destruct (is_nan z) eqn:E; [by left|]. right. rewrite f64_lt_rank in *.
  destruct H1 as (? & ? & H1). split; [done|]. split; [done|].
  assert (¬ below (rank z) (rank y)) as H3.
  { intros Hzy. assert (f64_lt z y = true) as H4 by (by apply f64_lt_rank). congruence. }
  unfold below in *. destruct (rank x) as [[??]?], (rank y) as [[??]?], (rank z) as [[??]?]. lia.
Qed.

(** [s] is the first of the nearest of [l]. *)
Definition nearest_of (d : Z → f64) (l : list Z) (s : Z) : Prop :=
  ∃ before after, l = before ++ s :: after
    ∧ (∀ c, c ∈ l → f64_lt (d c) (d s) = false)
    ∧ (∀ c, c ∈ before → is_nan (d c) = true ∨ f64_lt (d s) (d c) = true).

Section Properties.
Context (m : Libm) (location : Location).

(** How far from [target] the sun is at a second of the day. *)
Definition distance (base : Z) (target : Vector) (s : Z) : f64 :=
  match solar_position m location base s with
  | Ok p => angular_distance m (unit_vector m p) target
  | Err _ => S754_nan
  end.

Lemma nearest_fold (d : Z → f64) target l : ∀ before best,
  Forall (λ x, angular_distance m (vector x) target = d (second x)) l →
  angular_distance m (vector best) target = d (second best) →
  nearest_of d before (second best) →
  ∃ b, foldl (λ best c, nearer m best c target) (Some best) l = Some b
    ∧ nearest_of d (before ++ (second <$> l)) (second b).
Proof using.
  induction l as [|x l IH]; intros before best Hl Hb Hn.
  { exists best. cbn. by rewrite app_nil_r. }
  apply Forall_cons in Hl as [Hx Hl]. cbn [foldl nearer]. rewrite Hx, Hb.
  replace (before ++ (second <$> x :: l)) with ((before ++ [second x]) ++ (second <$> l))
    by (by rewrite <- app_assoc).
  destruct Hn as (pre & post & -> & Hmin & Hpre).
  destruct (f64_lt (d (second x)) (d (second best))) eqn:E; apply IH; try done.
  - eexists _, []. split; [done|]. split.
    + intros c [Hc| ->%list_elem_of_singleton]%elem_of_app; [|apply f64_lt_irrefl].
      destruct (f64_lt (d c) (d (second x))) eqn:Ec; [|done].
      pose proof (f64_lt_trans _ _ _ Ec E). rewrite (Hmin c Hc) in *. done.
    + intros c Hc. by apply (f64_lt_cotrans _ (d (second best))), Hmin.
  - exists pre, (post ++ [second x]). split; [by rewrite <- app_assoc|]. split; [|done].
    intros c [Hc| ->%list_elem_of_singleton]%elem_of_app; [by apply Hmin|done].
Qed.

Lemma nearest_Some (d : Z → f64) target l b :
  Forall (λ x, angular_distance m (vector x) target = d (second x)) l →
  nearest m target l = Some b → nearest_of d (second <$> l) (second b).
Proof using.
  intros Hl Hb. unfold nearest in Hb. destruct l as [|x l]; [done|]. apply Forall_cons in Hl as [Hx Hl].
  destruct (nearest_fold d target l [second x] x Hl Hx) as (b' & E & H).
  { exists [], []. split; [done|]. split; [|by intros c ?%elem_of_nil].
    intros c ->%list_elem_of_singleton. apply f64_lt_irrefl. }
  cbn in Hb. rewrite E in Hb. by injection Hb as <-.
Qed.

(** The seconds that [positions] visits. *)
Definition strided (stride start : Z) (n : nat) : list Z := (λ k, start + stride * Z.of_nat k) <$> seq 0 n.

Lemma strided_S stride start n : strided stride start (S n) = start :: strided stride (start + stride) n.
Proof using.
  unfold strided. cbn [seq fmap list_fmap]. rewrite Z.mul_0_r, Z.add_0_r. f_equal.
  rewrite <- seq_shift, <- list_fmap_compose. apply list_fmap_ext. intros _ k _. cbn. lia.
Qed.

Lemma positions_spec base stride n start :
  match positions m location base stride n start with
  | Ok ps => fst <$> ps = strided stride start n
             ∧ Forall (λ x, solar_position m location base (fst x) = Ok (snd x)) ps
  | Err _ => ∃ s, s ∈ strided stride start n ∧ ∃ e, solar_position m location base s = Err e
  end.
Proof using.
  revert start. induction n as [|n IH]; intros start; [by split|]. rewrite strided_S. cbn [positions].
  destruct (solar_position m location base start) as [p|e] eqn:Ep; cbn [mbind result_bind]; [|exists start; split; [apply list_elem_of_here|by eexists]].
  specialize (IH (start + stride)). destruct (positions _ _ _ _ _ _) as [ps|]; cbn [mbind result_bind].
  - destruct IH as [IH1 IH2]. split; [cbn [fmap list_fmap fst]; by f_equal|by constructor].
  - destruct IH as (s & Hs & He). exists s. split; [by apply list_elem_of_further|done].
Qed.

Lemma samples_distances base target ps :
  Forall (λ x, solar_position m location base (fst x) = Ok (snd x)) ps →
  Forall (λ x, angular_distance m (vector x) target = distance base target (second x)) (sample_of m <$> ps).
Proof using.
  intros H. apply Forall_fmap. eapply Forall_impl; [exact H|]. intros x Hx. unfold compose, sample_of, distance. cbn [vector second].
  by rewrite Hx.
Qed.

Lemma second_sample (ps : list (Z * SolarPosition)) : second <$> (sample_of m <$> ps) = fst <$> ps.
Proof using. by rewrite <- list_fmap_compose. Qed.

Lemma nearest_positions base target stride start n ps b :
  positions m location base stride n start = Ok ps → nearest m target (sample_of m <$> ps) = Some b →
  nearest_of (distance base target) (strided stride start n) (second b).
Proof using.
  intros Hp Hb. pose proof (positions_spec base stride n start) as H. rewrite Hp in H. destruct H as [<- H].
  rewrite <- second_sample. eapply nearest_Some; [by apply samples_distances|done].
Qed.

Lemma nearest_None target l : nearest m target l = None → l = [].
Proof using.
  destruct l as [|x l]; [done|]. unfold nearest. cbn [foldl nearer]. intros H. exfalso. revert x H.
  induction l as [|y l IH]; intros z; [done|]. cbn [foldl nearer]. destruct (f64_lt _ _); apply IH.
Qed.

Lemma strided_in stride start n s : s ∈ strided stride start n →
  ∃ k, s = start + stride * Z.of_nat k ∧ (k < n)%nat.
Proof using. intros (k & -> & Hk)%list_elem_of_fmap. apply elem_of_seq in Hk. exists k. split; [done|lia]. Qed.
Lemma nearest_of_in d l s : nearest_of d l s → s ∈ l.
Proof using. intros (b & a & -> & _). apply elem_of_app. right. apply list_elem_of_here. Qed.

(** Where an authored point lands: a minute of the day and a second around it. *)
Definition lands (base : Z) (p : SolarPoint) (t : TimePoint) : Prop :=
  let d := distance base (unit_vector m (sp_position p)) in
  tp_image t = sp_image p ∧ ∃ coarse s,
    nearest_of d (strided 60 0 1440) coarse
    ∧ nearest_of d (strided 1 (Z.max 0 (coarse - 60)) (Z.to_nat (Z.min (coarse + 60) 86399 - Z.max 0 (coarse - 60) + 1))) s
    ∧ 0 ≤ s < SECONDS_PER_DAY ∧ tp_time t = time_of_second s ∧ is_ok (normalized_time_new (tp_time t)) = true.

(** A second of the day at which the sun's position, or its time, is not a
    number in its range. *)
Definition unrepresentable (base : Z) : Prop :=
  ∃ s, 0 ≤ s < SECONDS_PER_DAY ∧
    (is_ok (solar_position m location base s) = false ∨ is_ok (normalized_time_new (time_of_second s)) = false).

Lemma window_range coarse : coarse ∈ strided 60 0 1440 →
  0 ≤ coarse < SECONDS_PER_DAY ∧ window coarse = (Z.max 0 (coarse - 60), Z.min (coarse + 60) 86399).
Proof using. intros (k & -> & Hk)%strided_in. split; [unfold SECONDS_PER_DAY; lia|done]. Qed.

Lemma window_in coarse s : 0 ≤ coarse < SECONDS_PER_DAY →
  s ∈ strided 1 (Z.max 0 (coarse - 60)) (Z.to_nat (Z.min (coarse + 60) 86399 - Z.max 0 (coarse - 60) + 1)) →
  0 ≤ s < SECONDS_PER_DAY.
Proof using. unfold SECONDS_PER_DAY. intros Hc (k & -> & Hk)%strided_in. lia. Qed.

Lemma strided_nil stride start n : strided stride start n = [] → n = 0%nat.
Proof using. by destruct n. Qed.

Lemma nearest_second_spec base target ps :
  positions m location base 60 1440 0 = Ok ps →
  match nearest_second m (sample_of m <$> ps) location base target with
  | Ok s => ∃ coarse, nearest_of (distance base target) (strided 60 0 1440) coarse
      ∧ nearest_of (distance base target)
          (strided 1 (Z.max 0 (coarse - 60)) (Z.to_nat (Z.min (coarse + 60) 86399 - Z.max 0 (coarse - 60) + 1))) s
      ∧ 0 ≤ s < SECONDS_PER_DAY
  | Err _ => unrepresentable base
  end.
Proof using.
  intros Hps. unfold nearest_second. destruct (nearest m target (sample_of m <$> ps)) as [b|] eqn:Eb; cbn [ok_or mbind result_bind].
  2:{ apply nearest_None, fmap_nil_inv in Eb as ->. pose proof (positions_spec base 60 1440 0) as H.
      rewrite Hps in H. destruct H as [H _]. symmetry in H. by apply strided_nil in H. }
  pose proof (nearest_positions _ _ _ _ _ _ _ Hps Eb) as Hc.
  destruct (window_range _ (nearest_of_in _ _ _ Hc)) as [Hr ->].
  match goal with |- context [positions m location base 1 ?n ?st] => pose proof (positions_spec base 1 n st) as Hs;
    destruct (positions m location base 1 n st) as [qs|] eqn:Eq end; cbn [mbind result_bind].
  2:{ destruct Hs as (s & Hs & e & He). exists s. split; [by eapply window_in|]. left. by rewrite He. }
  destruct (nearest m target (sample_of m <$> qs)) as [r|] eqn:Er; cbn [ok_or mbind result_bind].
  2:{ apply nearest_None, fmap_nil_inv in Er as ->. destruct Hs as [Hs _]. symmetry in Hs. apply strided_nil in Hs.
      unfold SECONDS_PER_DAY in Hr. lia. }
  exists (second b). split; [done|]. pose proof (nearest_positions _ _ _ _ _ _ _ Eq Er) as Hn. split; [done|].
  eapply window_in, nearest_of_in, Hn. done.
Qed.

Lemma map_points_spec base ps l :
  positions m location base 60 1440 0 = Ok ps →
  match map_points m (sample_of m <$> ps) location base l with
  | Ok mapped => Forall2 (lands base) l mapped
  | Err _ => unrepresentable base
  end.
Proof using.
  intros Hps. induction l as [|p l IH]; [constructor|]. cbn [map_points].
  pose proof (nearest_second_spec base (unit_vector m (sp_position p)) ps Hps) as Hn.
  destruct (nearest_second _ _ _ _ _) as [s|]; cbn [mbind result_bind]; [|done].
  destruct Hn as (coarse & H1 & H2 & Hs).
  destruct (normalized_time_new (time_of_second s)) as [t|] eqn:Et; cbn [mbind result_bind].
  2:{ exists s. split; [done|]. right. by rewrite Et. }
  destruct (map_points _ _ _ _ l) as [mapped|]; cbn [mbind result_bind]; [|done].
  assert (t = time_of_second s) as ->. { unfold normalized_time_new in Et. destruct (_ && _); [by injection Et|done]. }
  constructor; [|done]. split; [done|]. exists coarse, s. cbn [tp_time]. rewrite Et. done.
Qed.

(** Solar points land where the sun is nearest: every authored point becomes a
    time point with its image, in the authored order, at the second of the day
    whose sun is nearest to it (the first of equally near ones) among the
    seconds within a minute of the whole minute that is nearest to it.  No
    window leaves the day.  It fails only when the day has no UTC start or the
    sun's position at some second of it is not a number in its range. *)
Theorem solar_points_land schedule clock :
  match map_schedule m schedule location clock with
  | Ok mapped => ∃ base, base_utc clock = Ok base ∧ Forall2 (lands base) (points schedule) mapped
  | Err _ => is_ok (base_utc clock) = false ∨ ∃ base, base_utc clock = Ok base ∧ unrepresentable base
  end.
Proof using.
  unfold map_schedule, trajectory. destruct (base_utc clock) as [base|] eqn:Eb; cbn [mbind result_bind]; [|by left].
  change (Z.to_nat MINUTES_PER_DAY) with 1440%nat.
  destruct (positions m location base 60 1440 0) as [ps|] eqn:Eps; cbn [mbind result_bind].
  - pose proof (map_points_spec base ps (points schedule) Eps) as H.
    destruct (map_points _ _ _ _ _) as [mapped|]; [by exists base|]. right. by exists base.
  - right. exists base. split; [done|]. pose proof (positions_spec base 60 1440 0) as H. rewrite Eps in H.
    destruct H as (s & Hs & e' & He). exists s. split; [by apply window_range in Hs as [? _]|]. left. by rewrite He.
Qed.
End Properties.
