(* ===== verification/Geoclue.v ===== *)
(** * The location client ([src/geoclue.rs])

    One request for a city-level location on the system bus.  What the bus and
    the daemon answer is an argument, an [Answers]; what the client asks is the
    trace of its calls. *)

From S2P Require Import Prelude Utf8 DynamicModel.

Definition DESKTOP_ID : rstring := str "genkan-wallpaper".
Definition CITY_ACCURACY_LEVEL : Z := 2.
Definition MAX_CITY_ACCURACY_METERS : f64 := f64_of 25000.
Definition ACCESS_DENIED_NAME : rstring := str "org.freedesktop.DBus.Error.AccessDenied".
Definition EMPTY_PATH : rstring := str "/".

Inductive GeoClueError := Unavailable | Timeout | Denied | Invalid | Coarse.
#[export] Instance GeoClueError_eq_dec : EqDecision GeoClueError.
Proof. solve_decision. Defined.

Definition category (e : GeoClueError) : string :=
  match e with
  | Unavailable => "unavailable" | Timeout => "timeout" | Denied => "denied"
  | Invalid => "invalid" | Coarse => "coarse"
  end.
Definition is_retryable (e : GeoClueError) : bool :=
  match e with Unavailable | Timeout | Invalid => true | _ => false end.

(** ** A location *)

Record GeoLocation := mkGeo { geo_latitude : f64; geo_longitude : f64; accuracy_meters : f64 }.

Definition geo_new (latitude longitude accuracy : f64) : result GeoClueError GeoLocation :=
  if negb (is_finite latitude) || negb (in_range_incl (f64_of (-90)) (f64_of 90) latitude)
     || negb (is_finite longitude) || negb (in_range_incl (f64_of (-180)) (f64_of 180) longitude)
     || negb (is_finite accuracy) || f64_lt accuracy (f64_of 0)
  then Err Invalid
  else if f64_lt MAX_CITY_ACCURACY_METERS accuracy then Err Coarse
  else Ok (mkGeo latitude longitude accuracy).

(** ** Errors of the bus *)

Inductive FdoError := AccessDenied | OtherFdo.
Inductive BusError := MethodError (name : rstring) | FDO (e : FdoError) | OtherBus.

Definition is_access_denied_name (name : rstring) : bool := bool_decide (name = ACCESS_DENIED_NAME).
Definition is_access_denied (e : BusError) : bool :=
  match e with
  | MethodError name => is_access_denied_name name
  | FDO AccessDenied => true
  | _ => false
  end.
Definition classify_bus_error (e : BusError) : GeoClueError := if is_access_denied e then Denied else Unavailable.
Definition classify_fdo_error (e : FdoError) : GeoClueError :=
  match e with AccessDenied => Denied | OtherFdo => Unavailable end.

(** ** The request *)

(** What the client sends. *)
Inductive Call :=
| GetClient
| SetDesktopId (client id : rstring)
| SetAccuracy (client : rstring) (level : Z)
| Start (client : rstring)
| Subscribe (client : rstring)
| ReadLocation (client : rstring)
| ReadAt (location : rstring)
| Stop (client : rstring).

(** What it is answered; [None] is a failure that the code does not look at.
    [signals] is the stream of updates up to its end, an unreadable one being
    [None]. *)
Record Answers := mkAnswers {
  connection : option unit;
  manager : option unit;
  get_client : option rstring;
  client_proxy : option unit;
  set_desktop_id : result FdoError unit;
  set_accuracy : result FdoError unit;
  started : result BusError unit;
  subscribed : option unit;
  current : option rstring;
  signals : list (option rstring);
  at_path : rstring → option (f64 * f64 * f64);
}.

(** A computation that sends calls and may fail. *)
Definition Bus (A : Type) : Type := list Call * result GeoClueError A.
#[export] Instance bus_ret : MRet Bus := λ A x, ([], Ok x).
#[export] Instance bus_bind : MBind Bus := λ A B f x,
  match snd x with
  | Ok a => (fst x ++ fst (f a), snd (f a))
  | Err e => (fst x, Err e)
  end.
Definition call (c : Call) {A} (r : result GeoClueError A) : Bus A := ([c], r).
Definition lift {A} (r : result GeoClueError A) : Bus A := ([], r).
Definition map_err {E F A} (f : E → F) (r : result E A) : result F A :=
  match r with Ok a => Ok a | Err e => Err (f e) end.

Section Request.
Context (a : Answers).

Definition read_location_at (path : rstring) : Bus GeoLocation :=
  '(latitude, longitude, accuracy) ← call (ReadAt path) (ok_or Unavailable (at_path a path));
  lift (geo_new latitude longitude accuracy).

Definition read_location (client : rstring) : Bus (option GeoLocation) :=
  path ← call (ReadLocation client) (Ok (current a));
  match path with
  | Some path => if bool_decide (path = EMPTY_PATH) then mret None else l ← read_location_at path; mret (Some l)
  | None => mret None
  end.

Fixpoint await_updates (signals : list (option rstring)) : Bus GeoLocation :=
  match signals with
  | [] | None :: _ => lift (Err Unavailable)
  | Some updated :: signals =>
    if bool_decide (updated = EMPTY_PATH) then await_updates signals else read_location_at updated
  end.

Definition await_location (client : rstring) : Bus GeoLocation :=
  _ ← call (Subscribe client) (ok_or Unavailable (subscribed a));
  l ← read_location client;
  match l with
  | Some l => mret l
  | None => await_updates (signals a)
  end.

Definition resolve : Bus GeoLocation :=
  _ ← lift (ok_or Unavailable (connection a));
  _ ← lift (ok_or Unavailable (manager a));
  client ← call GetClient (ok_or Unavailable (get_client a));
  _ ← lift (ok_or Unavailable (client_proxy a));
  _ ← call (SetDesktopId client DESKTOP_ID) (map_err classify_fdo_error (set_desktop_id a));
  _ ← call (SetAccuracy client CITY_ACCURACY_LEVEL) (map_err classify_fdo_error (set_accuracy a));
  _ ← call (Start client) (map_err classify_bus_error (started a));
  let '(calls, r) := await_location client in
  (calls ++ [Stop client], r).
End Request.

(** [tokio::time::timeout]: the request is done after so many of its calls, or
    dropped after them. *)
Definition request_city_location (a : Answers) (elapsed : option nat) : Bus GeoLocation :=
  match elapsed with
  | None => resolve a
  | Some n => (take n (fst (resolve a)), Err Timeout)
  end.

(** ** Properties *)

(** What counts as a city-level location. *)
Definition city_level (l : GeoLocation) : Prop :=
  is_ok (location_new (geo_latitude l) (geo_longitude l)) = true
  ∧ f64_lt (accuracy_meters l) (f64_of 0) = false ∧ f64_lt MAX_CITY_ACCURACY_METERS (accuracy_meters l) = false.

Lemma geo_new_city lat long acc l : geo_new lat long acc = Ok l → city_level l.
Proof.
  unfold geo_new. destruct (_ || _) eqn:E; [done|]. destruct (f64_lt MAX_CITY_ACCURACY_METERS acc) eqn:E2; [done|].
  intros [= <-]. simp_bool. unfold city_level, location_new. cbn [geo_latitude geo_longitude accuracy_meters].
  repeat match goal with Hx : ?x = true |- _ => rewrite Hx; clear Hx end. done.
Qed.

(** The calls of a request that started: in order, and what is asked. *)
Definition opening (client : rstring) : list Call :=
  [GetClient; SetDesktopId client DESKTOP_ID; SetAccuracy client CITY_ACCURACY_LEVEL; Start client].
Definition reading (client : rstring) (c : Call) : Prop :=
  match c with Subscribe p | ReadLocation p => p = client | ReadAt _ => True | _ => False end.

Lemma read_at_spec a path :
  (read_location_at a path).1 = [ReadAt path]
  ∧ (∀ l, (read_location_at a path).2 = Ok l → city_level l).
Proof.
  unfold read_location_at, call, mbind, bus_bind. cbn [fst snd].
  destruct (at_path a path) as [[[lat long] acc]|]; cbn [ok_or fst snd lift app]; [|done].
  split; [done|]. intros l. apply geo_new_city.
Qed.

Lemma await_updates_spec a client l :
  Forall (reading client) (await_updates a l).1 ∧ (∀ g, (await_updates a l).2 = Ok g → city_level g).
Proof.
  induction l as [|[p|] l IH]; cbn [await_updates]; [by split| |by split].
  case_bool_decide; [done|]. destruct (read_at_spec a p) as [-> Hp]. split; [by constructor|done].
Qed.

Lemma await_location_spec a client :
  Forall (reading client) (await_location a client).1 ∧ (∀ g, (await_location a client).2 = Ok g → city_level g).
Proof.
  unfold await_location, read_location. unfold mbind at 1, bus_bind at 1. unfold call at 1. cbn [fst snd].
  destruct (subscribed a); cbn [ok_or fst snd]; [|split; [by repeat constructor|done]].
  unfold mbind, bus_bind. unfold call. cbn [fst snd].
  destruct (await_updates_spec a client (signals a)) as [H1 H2].
  destruct (current a) as [p|]; cbn [fst snd mret bus_ret].
  - case_bool_decide; cbn [fst snd app].
    + split; [by repeat constructor|done].
    + destruct (read_at_spec a p) as [Hc Hr]. rewrite Hc.
      destruct ((read_location_at a p).2) as [l|]; cbn [fst snd app]; (split; [by repeat constructor|]); [|done].
      intros g [= <-]. by apply Hr.
  - cbn [app]. split; [by repeat constructor|done].
Qed.

(** A request asks for no more than it may: whatever the bus answers and
    whenever the time is up, the calls are those of a client that identified
    itself and asked for city accuracy before it started, and then only reads
    and its own stop; a client that started is stopped, unless the time was up;
    and a location is returned only if it is one, and as fine as was asked. *)
Theorem location_request a elapsed :
  let calls := (request_city_location a elapsed).1 in
  let r := (request_city_location a elapsed).2 in
  (∃ client, calls `prefix_of` opening client ∧ is_ok r = false
   ∨ ∃ reads stop, calls = opening client ++ reads ++ stop ∧ Forall (reading client) reads
       ∧ started a = Ok tt ∧ set_desktop_id a = Ok tt ∧ set_accuracy a = Ok tt
       ∧ (stop = [Stop client] ∨ stop = [] ∧ r = Err Timeout))
  ∧ (∀ l, r = Ok l → city_level l).
Proof.
  cbv zeta. assert (
    (∃ client, (resolve a).1 `prefix_of` opening client ∧ is_ok (resolve a).2 = false
     ∨ ∃ reads, (resolve a).1 = opening client ++ reads ++ [Stop client] ∧ Forall (reading client) reads
         ∧ started a = Ok tt ∧ set_desktop_id a = Ok tt ∧ set_accuracy a = Ok tt)
    ∧ (∀ l, (resolve a).2 = Ok l → city_level l)) as [(client & H) Hl].
  { unfold resolve, lift, call, mbind, bus_bind. cbn [fst snd].
    destruct (connection a); cbn [ok_or fst snd app]; [|split; [exists []; left; split; [apply prefix_nil|done]|done]].
    destruct (manager a); cbn [ok_or fst snd app]; [|split; [exists []; left; split; [apply prefix_nil|done]|done]].
    destruct (get_client a) as [client|]; cbn [ok_or fst snd app];
      [|split; [exists []; left; split; [by eexists|done]|done]].
    destruct (client_proxy a); cbn [ok_or fst snd app];
      [|split; [exists client; left; split; [by eexists|done]|done]].
    destruct (set_desktop_id a) as [[]|]; cbn [map_err fst snd app];
      [|split; [exists client; left; split; [by eexists|done]|done]].
    destruct (set_accuracy a) as [[]|]; cbn [map_err fst snd app];
      [|split; [exists client; left; split; [by eexists|done]|done]].
    destruct (started a) as [[]|]; cbn [map_err fst snd app];
      [|split; [exists client; left; split; [by exists []|done]|done]].
    destruct (await_location_spec a client) as [H1 H2].
    destruct (await_location a client) as [calls r]. cbn [fst snd] in *. split; [|done].
    exists client. right. by exists calls. }
  destruct elapsed as [n|]; cbn [request_city_location fst snd].
  - split; [|done]. exists client. destruct H as [[H _]|(reads & -> & Hr & Hs)].
    + left. split; [|done]. etrans; [apply prefix_take|done].
    + destruct (decide (n ≤ length (opening client))%nat).
      { left. split; [|done]. rewrite take_app_le by done. apply prefix_take. }
      right. exists (take (n - length (opening client)) reads), (take (n - length (opening client) - length reads) [Stop client]).
      rewrite take_app_ge by lia. rewrite take_app. split; [done|]. split; [by apply Forall_take|].
      destruct Hs as (? & ? & ?). split; [done|]. split; [done|]. split; [done|].
      destruct (n - length (opening client) - length reads)%nat; cbn [take firstn]; [right; by split|left; by rewrite take_nil].
  - split; [|done]. exists client. destruct H as [H|(reads & -> & Hr & ? & ? & ?)]; [by left|].
    right. exists reads, [Stop client]. split; [done|]. split; [done|]. split; [done|]. split; [done|]. split; [done|by left].
Qed.
