(* ===== verification/DesktopSurface.v ===== *)
(** * Surfaces of the desktop wallpaper ([src/desktop_wallpaper.rs])

    When a surface draws and asks for a frame callback, the sizes of its
    buffers, which buffer it draws into, and the drawing itself. *)

From S2P Require Import Prelude Utf8.
From S2P Require Playback.

Definition BUFFER_COUNT : nat := 2.
Definition MAX_BUFFER_BYTES : Z := 256 * 1024 * 1024.
Definition MAX_SURFACE_DIMENSION : Z := 16384.
Definition FALLBACK_RGB : Z * Z * Z := (5, 9, 24).

(** ** Presentation *)

Inductive SurfaceAction := Render | Rearm | Idle.
#[export] Instance SurfaceAction_eq_dec : EqDecision SurfaceAction.
Proof. solve_decision. Defined.

Definition surface_action (redraw transitioning : bool) : SurfaceAction :=
  if redraw then Render else if transitioning then Rearm else Idle.
Definition eligible (redraw geometry_redraw frame_pending configured : bool) : bool :=
  redraw && (negb frame_pending || geometry_redraw) && configured.
Definition request_frame (transitioning frame_pending : bool) : bool := transitioning && negb frame_pending.

Record PresentationState := mkPres {
  redraw : bool;
  geometry_redraw : bool;
  frame_pending : bool;
  frame_ready : bool;
  disabled : bool;
}.
#[export] Instance PresentationState_eq_dec : EqDecision PresentationState.
Proof. solve_decision. Defined.

Definition pres_new : PresentationState := mkPres true false false false false.
Definition geometry_changed (p : PresentationState) : PresentationState :=
  mkPres true true (frame_pending p) (frame_ready p) false.
Definition playback_changed (p : PresentationState) : PresentationState :=
  if disabled p then p else mkPres true (geometry_redraw p) (frame_pending p) (frame_ready p) (disabled p).
Definition frame_arrived (p : PresentationState) : PresentationState :=
  mkPres (redraw p) (geometry_redraw p) false (negb (disabled p)) (disabled p).
Definition take_frame_action (transitioning : bool) (p : PresentationState) : SurfaceAction * PresentationState :=
  let p' := mkPres (redraw p) (geometry_redraw p) (frame_pending p) false (disabled p) in
  if negb (frame_ready p) || disabled p then (Idle, p') else (surface_action (redraw p) transitioning, p').
Definition render_eligible (configured : bool) (p : PresentationState) : bool :=
  negb (disabled p) && eligible (redraw p) (geometry_redraw p) (frame_pending p) configured.
Definition next_action (transitioning configured : bool) (p : PresentationState) : SurfaceAction * PresentationState :=
  let '(action, p) := take_frame_action transitioning p in
  (if decide (action = Rearm) then Rearm
   else if render_eligible configured p then Render else Idle, p).
Definition rearmed (p : PresentationState) : PresentationState :=
  mkPres (redraw p) (geometry_redraw p) true (frame_ready p) (disabled p).
Definition rendered (requested_frame : bool) (p : PresentationState) : PresentationState :=
  mkPres false false (frame_pending p || requested_frame) (frame_ready p) false.
Definition disable (p : PresentationState) : PresentationState :=
  mkPres false false (frame_pending p) false true.

(** ** Sizes *)

Definition or {A} (a b : option A) : option A := match a with Some _ => a | None => b end.

Definition resolve_configure_size (suggested : Z * Z) (previous output : option (Z * Z)) : option (Z * Z) :=
  let fallback := or output previous in
  width ← or (if negb (fst suggested =? 0) then Some (fst suggested) else None) (fst <$> fallback);
  height ← or (if negb (snd suggested =? 0) then Some (snd suggested) else None) (snd <$> fallback);
  Some (width, height).

Inductive Transform := Normal | R90 | R180 | R270 | Flipped | Flipped90 | Flipped180 | Flipped270.
Record OutputMode := mkMode { dimensions : Z * Z; is_current : bool }.
Record OutputInfo := mkInfo {
  logical_size : option (Z * Z);
  modes : list OutputMode;
  scale_factor : Z;
  transform : Transform;
}.

Definition mode_logical_size (dimensions : Z * Z) (scale : Z) (transform : Transform) : option (Z * Z) :=
  let '(width, height) :=
    match transform with
    | R90 | R270 | Flipped90 | Flipped270 => (snd dimensions, fst dimensions)
    | _ => dimensions
    end in
  let scale := Z.max 1 scale in
  if (0 <? width) && (0 <? height) then Some (Z.max 1 (Z.quot width scale), Z.max 1 (Z.quot height scale)) else None.

Definition output_logical_size (info : OutputInfo) : option (Z * Z) :=
  match logical_size info with
  | Some (width, height) =>
    if (0 <? width) && (0 <? height) then Some (width, height)
    else m ← List.find is_current (modes info);
         mode_logical_size (dimensions m) (scale_factor info) (transform info)
  | None => m ← List.find is_current (modes info);
            mode_logical_size (dimensions m) (scale_factor info) (transform info)
  end.

Record BufferGeometry := mkGeometry { g_width : Z; g_height : Z; g_bytes : Z }.

Definition buffer_geometry (size : Z * Z) (scale : Z) : result string BufferGeometry :=
  let scale := Z.max 1 scale in
  let side n e := ok_or e (x ← checked_mul 32 n scale; if x <=? MAX_SURFACE_DIMENSION then Some x else None) in
  width ← side (fst size) "unsafe wallpaper surface width";
  height ← side (snd size) "unsafe wallpaper surface height";
  bytes ← ok_or "wallpaper buffer exceeds resource limit"
    (pixels ← checked_mul 64 width height; bytes ← checked_mul 64 pixels 4;
     if bytes <=? MAX_BUFFER_BYTES then Some bytes else None);
  Ok (mkGeometry width height bytes).

(** ** Buffers *)

Inductive BufferDecision := Reuse (index : nat) | Allocate | Wait.

Fixpoint position (released : list bool) : option nat :=
  match released with
  | [] => None
  | r :: released => if r then Some O else S <$> position released
  end.
Definition buffer_decision (released : list bool) (count : nat) : BufferDecision :=
  match position released with
  | Some index => Reuse index
  | None => if decide (count < BUFFER_COUNT)%nat then Allocate else Wait
  end.

(** ** Drawing *)

(** [None] is a panic: a division by zero or an index out of range. *)
Definition write4 (target : list byte) (offset : nat) (px : list byte) : option (list byte) :=
  if decide (offset + 4 ≤ length target)%nat
  then Some (take offset target ++ px ++ drop (offset + 4) target) else None.

Definition fallback_pixel : list byte :=
  let '(r, g, b) := FALLBACK_RGB in [to_u8 b; to_u8 g; to_u8 r; to_u8 255].
Fixpoint fill (target : list byte) : list byte :=
  match target with
  | _ :: _ :: _ :: _ :: rest => fallback_pixel ++ fill rest
  | rest => rest
  end.

(** The frame's size when it covers the target, and what is cut off on each
    side. *)
Definition checked_div (a b : Z) : option Z := if b =? 0 then None else Some (a / b).
Definition cover (fw fh width height : Z) : option (Z * Z) :=
  if width * fh <? fw * height then w ← checked_div (fw * height) fh; Some (w, height)
  else h ← checked_div (fh * width) fw; Some (width, h).
Definition crop (scaled target : Z) : Z := saturating_sub scaled target / 2.
Definition source_at (fw scaled target x : Z) : option Z :=
  s ← checked_div ((x + crop scaled target) * fw) scaled;
  if fw =? 0 then None else Some (Z.min s (fw - 1)).

Definition source_pixel (f : Playback.RgbaFrame) (sx sy : Z) : option (list byte) :=
  let source := Z.to_nat ((sy * Playback.width f + sx) * 4) in
  b ← Playback.pixels f !! (source + 2)%nat;
  g ← Playback.pixels f !! (source + 1)%nat;
  r ← Playback.pixels f !! source;
  Some [b; g; r; to_u8 255].

Section Cover.
Context (width height : Z) (f : Playback.RgbaFrame) (scaled_width scaled_height : Z).

Fixpoint draw_row (source_y y : Z) (n : nat) (x : Z) (target : list byte) : option (list byte) :=
  match n with
  | O => Some target
  | S n =>
    source_x ← source_at (Playback.width f) scaled_width width x;
    px ← source_pixel f source_x source_y;
    target ← write4 target (Z.to_nat ((y * width + x) * 4)) px;
    draw_row source_y y n (x + 1) target
  end.
Fixpoint draw_rows (n : nat) (y : Z) (target : list byte) : option (list byte) :=
  match n with
  | O => Some target
  | S n =>
    source_y ← source_at (Playback.height f) scaled_height height y;
    target ← draw_row source_y y (Z.to_nat width) 0 target;
    draw_rows n (y + 1) target
  end.
End Cover.

Definition render_cover_argb (target : list byte) (width height : Z) (frame : option Playback.RgbaFrame) :
    option (list byte) :=
  match frame with
  | None => Some (fill target)
  | Some f =>
    '(scaled_width, scaled_height) ← cover (Playback.width f) (Playback.height f) width height;
    draw_rows width height f scaled_width scaled_height (Z.to_nat height) 0 target
  end.
