(* ===== verification/DesktopSurfaceProofs.v ===== *)
(** * Properties of the desktop wallpaper's surfaces *)

From S2P Require Import Prelude Utf8 DesktopSurface.
From S2P Require Playback PlaybackProofs.

(** ** Drawing *)

(** The pieces of a concatenation of equally long pieces. *)
Lemma take_drop_pieces {A B} (k : nat) (g : A → list B) (l : list A) i x :
  (∀ y, y ∈ l → length (g y) = k) → l !! i = Some x → take k (drop (k * i) (l ≫= g)) = g x.
Proof.
  revert i. induction l as [|y l IH]; intros i Hg Hi; [done|]. cbn [mbind list_bind].
  assert (length (g y) = k) as Hy by (apply Hg, list_elem_of_here).
  destruct i as [|i].
  - injection Hi as ->. rewrite Nat.mul_0_r, drop_0. by apply take_app_length'.
  - replace (k * S i)%nat with (k + k * i)%nat by lia. rewrite drop_app_add' by done.
    apply IH; [|done]. intros z Hz. by apply Hg, list_elem_of_further.
Qed.
Lemma length_pieces {A B} (k : nat) (g : A → list B) (l : list A) :
  (∀ y, y ∈ l → length (g y) = k) → length (l ≫= g) = (k * length l)%nat.
Proof.
  induction l as [|y l IH]; intros Hg; [cbn; lia|]. cbn [mbind list_bind length]. rewrite length_app, Hg by (apply list_elem_of_here).
  rewrite IH; [lia|]. intros z Hz. by apply Hg, list_elem_of_further.
Qed.

Section Cover.
Context (width height : Z) (f : Playback.RgbaFrame).
Notation fw := (Playback.width f).
Notation fh := (Playback.height f).
Hypothesis (Hw : 0 ≤ width) (Hh : 0 ≤ height) (Hf : PlaybackProofs.wf_pixels f).

Lemma cover_covers :
  ∃ sw sh, cover fw fh width height = Some (sw, sh) ∧ width ≤ sw ∧ height ≤ sh ∧ (sw = width ∨ sh = height)
    ∧ (fw = width → fh = height → sw = width ∧ sh = height).
Proof using All.
  destruct Hf as (? & ? & _). unfold cover, checked_div.
  rewrite !(proj2 (Z.eqb_neq _ _)) by lia. destruct (Z.ltb_spec (width * fh) (fw * height)) as [H1|H1]; cbn.
  - eexists _, _. split; [done|]. split; [apply Z.div_le_lower_bound; lia|]. split; [done|].
    split; [by right|]. intros E1 E2. rewrite E1, E2 in *. lia.
  - eexists _, _. split; [done|]. split; [done|]. split; [apply Z.div_le_lower_bound; lia|].
    split; [by left|]. intros E1 E2. rewrite E1, E2 in *. split; [done|]. apply Z.div_mul. lia.
Qed.

(** Where a target coordinate reads, on either axis. *)
Definition reads (side scaled target x : Z) : Z := (x + (scaled - target) / 2) * side / scaled.

Lemma source_at_reads side scaled target x : 0 < side → target ≤ scaled → 0 ≤ x < target →
  source_at side scaled target x = Some (reads side scaled target x) ∧ 0 ≤ reads side scaled target x < side.
Proof using.
  intros Hs Ht Hx. assert (0 ≤ reads side scaled target x < side) as Hr.
  { unfold reads. pose proof (Z.div_mod (scaled - target) 2). pose proof (Z.mod_pos_bound (scaled - target) 2).
    assert (0 ≤ x + (scaled - target) / 2 < scaled) as Hc by lia. set (c := x + _) in *.
    split; [apply Z.div_pos; nia|]. apply Z.div_lt_upper_bound; [lia|]. nia. }
  split; [|done]. unfold source_at, checked_div, crop, saturating_sub. rewrite Z.max_r by lia.
  rewrite !(proj2 (Z.eqb_neq _ _)) by lia. cbn. f_equal. fold (reads side scaled target x). lia.
Qed.

Lemma source_pixel_Some sx sy : 0 ≤ sx < fw → 0 ≤ sy < fh →
  ∃ px, source_pixel f sx sy = Some px ∧ length px = 4%nat.
Proof using Hf.
  intros Hx Hy. destruct Hf as (? & ? & Hl & _). unfold source_pixel.
  assert (0 ≤ (sy * fw + sx) * 4 ∧ (sy * fw + sx) * 4 + 4 ≤ Z.of_nat (length (Playback.pixels f))) as [Hlo Hhi] by nia.
  set (s := Z.to_nat ((sy * fw + sx) * 4)). assert (s + 4 ≤ length (Playback.pixels f))%nat by lia.
  destruct (lookup_lt_is_Some_2 (Playback.pixels f) (s + 2)) as [b ->]; [lia|].
  destruct (lookup_lt_is_Some_2 (Playback.pixels f) (s + 1)) as [g ->]; [lia|].
  destruct (lookup_lt_is_Some_2 (Playback.pixels f) s) as [r ->]; [lia|]. by eexists.
Qed.

Section Draw.
Context (sw sh : Z) (Hsw : width ≤ sw) (Hsh : height ≤ sh).

Definition pixel (y x : Z) : list byte := default [] (source_pixel f (reads fw sw width x) (reads fh sh height y)).

Lemma pixel_ok x y : 0 ≤ x < width → 0 ≤ y < height →
  source_pixel f (reads fw sw width x) (reads fh sh height y) = Some (pixel y x) ∧ length (pixel y x) = 4%nat.
Proof using All.
  intros Hx Hy. destruct Hf as (Hfw & Hfh & _). unfold pixel.
  destruct (source_pixel_Some (reads fw sw width x) (reads fh sh height y)) as (px & -> & Hp);
    [by apply source_at_reads|by apply source_at_reads|done].
Qed.

Lemma draw_row_spec y n : ∀ x pre rest,
  0 ≤ x → x + Z.of_nat n = width → 0 ≤ y < height →
  Z.of_nat (length pre) = (y * width + x) * 4 → (4 * n ≤ length rest)%nat →
  draw_row width f sw (reads fh sh height y) y n x (pre ++ rest)
  = Some (pre ++ (seqZ x (Z.of_nat n) ≫= pixel y) ++ drop (4 * n) rest).
Proof using All.
  induction n as [|n IH]; intros x pre rest Hx Hxn Hy Hpre Hrest.
  { cbn. by rewrite drop_0. }
  destruct Hf as (Hfw & Hfh & _). cbn [draw_row].
  destruct (source_at_reads fw sw width x) as [-> _]; [done|done|lia|]. cbn [mbind option_bind].
  destruct (pixel_ok x y) as [-> Hpx]; [lia|done|]. cbn [mbind option_bind].
  unfold write4. replace (Z.to_nat ((y * width + x) * 4)) with (length pre) by lia.
  rewrite decide_True by (rewrite length_app; lia). cbn [mbind option_bind].
  rewrite take_app_length, drop_app_ge by lia. replace (length pre + 4 - length pre)%nat with 4%nat by lia.
  rewrite (app_assoc pre). rewrite IH; [|lia|lia|done| |].
  - rewrite (seqZ_cons x) by lia. cbn [mbind list_bind]. rewrite <- !app_assoc. f_equal. f_equal. f_equal.
    replace (Z.succ x) with (x + 1) by lia. replace (Z.pred (Z.of_nat (S n))) with (Z.of_nat n) by lia.
    f_equal. rewrite drop_drop. f_equal. lia.
  - rewrite length_app, Hpx. lia.
  - rewrite length_drop. lia.
Qed.

Definition rows (y : Z) (n : nat) : list byte := seqZ y (Z.of_nat n) ≫= λ y, seqZ 0 width ≫= pixel y.

Lemma row_length y : 0 ≤ y < height → Z.of_nat (length (seqZ 0 width ≫= pixel y)) = width * 4.
Proof using All.
  intros Hy. rewrite (length_pieces 4); [rewrite length_seqZ; lia|]. intros x Hx%elem_of_seqZ. apply pixel_ok; lia.
Qed.

Lemma draw_rows_spec n : ∀ y pre rest,
  0 ≤ y → y + Z.of_nat n = height →
  Z.of_nat (length pre) = y * width * 4 → Z.of_nat (length rest) = Z.of_nat n * width * 4 →
  draw_rows width height f sw sh n y (pre ++ rest) = Some (pre ++ rows y n).
Proof using All.
  induction n as [|n IH]; intros y pre rest Hy Hyn Hpre Hrest.
  { destruct rest; [done|]. cbn [length] in Hrest. lia. }
  destruct Hf as (Hfw & Hfh & _). cbn [draw_rows].
  destruct (source_at_reads fh sh height y) as [-> _]; [done|done|lia|]. cbn [mbind option_bind].
  rewrite draw_row_spec; [|lia|lia|lia|lia|nia]. cbn [mbind option_bind].
  rewrite Z2Nat.id by done. rewrite app_assoc, IH; [|lia|lia| |].
  - unfold rows. rewrite (seqZ_cons y) by lia. cbn [mbind list_bind]. rewrite <- app_assoc. f_equal. f_equal. f_equal.
    replace (Z.pred (Z.of_nat (S n))) with (Z.of_nat n) by lia. replace (Z.succ y) with (y + 1) by lia. done.
  - rewrite length_app. pose proof (row_length y). lia.
  - rewrite length_drop. nia.
Qed.

Lemma rows_lookup n x y : Z.of_nat n = height → 0 ≤ x < width → 0 ≤ y < height →
  take 4 (drop (Z.to_nat ((y * width + x) * 4)) (rows 0 n)) = pixel y x.
Proof using All.
  intros Hn Hx Hy. set (row := λ y, seqZ 0 width ≫= pixel y).
  assert (take (Z.to_nat (width * 4)) (drop (Z.to_nat (width * 4) * Z.to_nat y) (rows 0 n)) = row y) as Hrow.
  { unfold rows. apply take_drop_pieces.
    - intros z Hz%elem_of_seqZ. pose proof (row_length z). subst row. cbn. lia.
    - apply lookup_seqZ. lia. }
  rewrite <- (take_drop_pieces 4 (pixel y) (seqZ 0 width) (Z.to_nat x) x);
    [|intros z Hz%elem_of_seqZ; apply pixel_ok; lia|apply lookup_seqZ; lia].
  fold (row y). rewrite <- Hrow, !take_drop_commute, take_take, drop_drop.
  replace (Z.to_nat ((y * width + x) * 4)) with (Z.to_nat (width * 4) * Z.to_nat y + 4 * Z.to_nat x)%nat by nia.
  do 2 f_equal. lia.
Qed.
End Draw.
End Cover.

Lemma cover_draws f width height target :
  PlaybackProofs.wf_pixels f → 0 ≤ width → 0 ≤ height →
  Z.of_nat (length target) = width * height * 4 →
  ∃ out sw sh, render_cover_argb target width height (Some f) = Some out
    ∧ length out = length target
    ∧ width ≤ sw ∧ height ≤ sh ∧ (sw = width ∨ sh = height)
    ∧ ∀ x y, 0 ≤ x < width → 0 ≤ y < height → ∃ sx sy,
        sx = (x + (sw - width) / 2) * Playback.width f / sw ∧ 0 ≤ sx < Playback.width f
        ∧ sy = (y + (sh - height) / 2) * Playback.height f / sh ∧ 0 ≤ sy < Playback.height f
        ∧ source_pixel f sx sy = Some (take 4 (drop (Z.to_nat ((y * width + x) * 4)) out))
        ∧ (Playback.width f = width → Playback.height f = height → sx = x ∧ sy = y).
Proof.
  intros Hv Hw Hh Ht.
  destruct (cover_covers width height f Hw Hh Hv) as (sw & sh & Ec & Hsw & Hsh & Hone & Hsame).
  exists (rows width height f sw sh 0 (Z.to_nat height)), sw, sh. unfold render_cover_argb. rewrite Ec.
  cbn [mbind option_bind]. pose proof Hv as (Hfw & Hfh & _).
  pose proof (draw_rows_spec width height f Hw Hh Hv sw sh Hsw Hsh (Z.to_nat height) 0 [] target) as E. cbn [app] in E.
  rewrite E; [|lia|lia|cbn; lia|lia]. split; [done|]. split.
  { pose proof (length_pieces (Z.to_nat (width * 4)) (λ y, seqZ 0 width ≫= pixel width height f sw sh y)
      (seqZ 0 (Z.of_nat (Z.to_nat height)))) as El. unfold rows. rewrite El, length_seqZ; [nia|].
    intros y Hy%elem_of_seqZ. pose proof (row_length width height f Hw Hh Hv sw sh Hsw Hsh y). cbn. lia. }
  split; [done|]. split; [done|]. split; [done|]. intros x y Hx Hy.
  exists (reads (Playback.width f) sw width x), (reads (Playback.height f) sh height y).
  split; [done|]. split; [by apply source_at_reads|]. split; [done|]. split; [by apply source_at_reads|].
  rewrite rows_lookup by (try done; lia). split; [by apply pixel_ok|].
  intros E1 E2. destruct (Hsame E1 E2) as [-> ->]. unfold reads. rewrite E1, E2, !Z.sub_diag. cbn.
  change (0 / 2) with 0. rewrite !Z.add_0_r, !Z.div_mul by lia. done.
Qed.

(** The wallpaper covers its surface: for a frame that the playback accepts and
    a canvas of the surface's size, drawing never reads or writes out of range,
    fills every pixel, opaque, with the frame's own pixel at the scaled
    position; the scaled frame is as large as the surface in one direction and
    no smaller in the other, where the same is cut off on both sides; and a
    frame of the surface's size is copied pixel for pixel. *)
Theorem cover_drawn f width height target :
  Playback.valid_frame f = true → 0 ≤ width → 0 ≤ height →
  Z.of_nat (length target) = width * height * 4 →
  ∃ out sw sh, render_cover_argb target width height (Some f) = Some out
    ∧ length out = length target
    ∧ width ≤ sw ∧ height ≤ sh ∧ (sw = width ∨ sh = height)
    ∧ ∀ x y, 0 ≤ x < width → 0 ≤ y < height → ∃ sx sy,
        sx = (x + (sw - width) / 2) * Playback.width f / sw ∧ 0 ≤ sx < Playback.width f
        ∧ sy = (y + (sh - height) / 2) * Playback.height f / sh ∧ 0 ≤ sy < Playback.height f
        ∧ source_pixel f sx sy = Some (take 4 (drop (Z.to_nat ((y * width + x) * 4)) out))
        ∧ (Playback.width f = width → Playback.height f = height → sx = x ∧ sy = y).
Proof. intros Hv%PlaybackProofs.valid_frame_wf. by apply cover_draws. Qed.

(** ** Witnesses *)

Definition two_pixels : Playback.RgbaFrame :=
  Playback.mkFrame 2 1 (to_u8 <$> [1; 2; 3; 255; 4; 5; 6; 255]) 8.
Lemma cover_drawn_witness :
  ∃ out, render_cover_argb (replicate 16 (to_u8 0)) 2 2 (Some two_pixels) = Some out
    ∧ take 4 (drop 12 out) = to_u8 <$> [6; 5; 4; 255].
Proof.
  destruct (cover_drawn two_pixels 2 2 (replicate 16 (to_u8 0))) as (out & sw & sh & E & _ & _ & _ & _ & H);
    [vm_compute; reflexivity|lia|lia|reflexivity|].
  exists out. split; [exact E|]. destruct (H 1 1) as (sx & sy & _ & _ & _ & _ & _ & _); [lia|lia|].
  vm_compute in E. injection E as <-. vm_compute. reflexivity.
Defined.
