(* ===== verification/Desktop.v ===== *)
(** * The desktop wallpaper ([src/desktop_wallpaper.rs])

    The client that draws the dynamic wallpaper behind a desktop: the scheduler
    over [Playback], the decoder thread and the location thread with their
    channels of one element, the surfaces of the outputs and the main loop.
    The compositor's events are values; what a pass of the loop is answered,
    clocks and buffers and how far the threads get in the meantime, is a
    [Turn].  Durations and instants are numbers of nanoseconds. *)

From S2P Require Import Prelude DynamicModel Playback.
From S2P Require Export DesktopSurface.
From S2P Require HeicWorker Solar Geoclue.
Import (notations) Solar.

Definition WORKER_POLL_INTERVAL : Z := 20 * 1000000.
Definition LOCATION_TIMEOUT : Z := from_secs 10.
Definition LOCATION_REFRESH : Z := from_secs (6 * 60 * 60).
Definition LOCATION_RETRY : Z := from_secs (10 * 60).
Definition SOLAR_CHECK_INTERVAL : Z := from_secs 60.
Definition MEANINGFUL_LOCATION_CHANGE_METERS : f64 := f64_of 5000.

Inductive Error := ERuntime (why : string).
(** How the program ends. *)
Inductive Stop := Failed (e : Error) | Panicked.

(** ** The scheduler *)

Record Scheduler := mkScheduler { playback : Playback; next_synchronize : option Z }.

Definition playback_deadline (p : Playback) (clock : ClockSnapshot) (monotonic : Z) : option Z :=
  delay ← next_wake clock monotonic p; duration_checked_add monotonic delay.
Definition earlier_deadline (l r : option Z) : option Z :=
  match l, r with
  | Some l, Some r => Some (Z.min l r)
  | Some l, None => Some l
  | None, r => r
  end.

Definition scheduler_new (p : Playback) (clock : ClockSnapshot) (monotonic : Z) : Scheduler :=
  mkScheduler p (playback_deadline p clock monotonic).

Definition due (deadline : option Z) (monotonic : Z) : bool :=
  match deadline with Some d => d <=? monotonic | None => false end.

(** The process-wide generation counter goes in and out; [None] is the panic of
    the playback on an empty schedule. *)
Definition synchronize_if_due (clock : ClockSnapshot) (monotonic counter : Z) (s : Scheduler) :
    option (Z * Scheduler * option SynchronizeOutcome) :=
  if negb (due (next_synchronize s) monotonic) then Some (counter, s, None)
  else
    '(counter, p, outcome) ← synchronize clock monotonic counter (playback s);
    Some (counter, mkScheduler p (playback_deadline p clock monotonic), Some outcome).

Definition synchronize_now (clock : ClockSnapshot) (monotonic : Z) (disc : bool) (counter : Z) (s : Scheduler) :
    option (Z * Scheduler * bool) :=
  '(counter, p, outcome) ←
    (if disc then resynchronize_after_discontinuity clock monotonic counter (playback s)
     else synchronize clock monotonic counter (playback s));
  let deadline :=
    if due (next_synchronize s) monotonic || disc || selection_changed outcome || discontinuity outcome
    then playback_deadline p clock monotonic else next_synchronize s in
  Some (counter, mkScheduler p deadline, presentation_changed outcome).

Definition prepare_presentation (clock : ClockSnapshot) (monotonic : Z) (disc : bool) (counter : Z) (s : Scheduler) :
    option (Z * Scheduler * bool) :=
  '(counter, s, presentation) ← synchronize_now clock monotonic disc counter s;
  let '(p, advanced) := advance_transition monotonic (playback s) in
  Some (counter, mkScheduler p (next_synchronize s), presentation || advanced).

Definition complete_decode (request : DecodeRequest) (result : option RgbaFrame) (clock : ClockSnapshot)
    (monotonic : Z) (alloc : option Z) (counter : Z) (s : Scheduler) : Z * Scheduler * DecodeOutcome :=
  let '(counter, p, outcome) := Playback.complete_decode request result monotonic alloc counter (playback s) in
  (counter, mkScheduler p (earlier_deadline (next_synchronize s) (playback_deadline p clock monotonic)), outcome).

Definition synchronize_and_complete_decode (request : DecodeRequest) (result : option RgbaFrame)
    (clock : ClockSnapshot) (monotonic : Z) (disc : bool) (alloc : option Z) (counter : Z) (s : Scheduler) :
    option (Z * Scheduler * DecodeOutcome * bool) :=
  '(counter, s, presentation) ← prepare_presentation clock monotonic disc counter s;
  let '(counter, s, outcome) := complete_decode request result clock monotonic alloc counter s in
  Some (counter, s, outcome, presentation).

Definition apply_solar_schedule (l : list TimePoint) (clock : ClockSnapshot) (monotonic counter : Z) (s : Scheduler) :
    option (Z * Scheduler * SynchronizeOutcome) :=
  '(counter, p, outcome) ← set_solar_schedule l clock monotonic counter (playback s);
  Some (counter, mkScheduler p (playback_deadline p clock monotonic), outcome).

(** ** The decoder thread *)

Inductive WorkerResult :=
| Initialized (metadata : Metadata) (primary : ImageReference)
| InitializationFailed
| Decoded (request : DecodeRequest) (frame : option RgbaFrame).

(** Where the thread is: before its next operation. *)
Inductive Worker :=
| Opening
| Sending (r : WorkerResult)
| Receiving
| Decoding (request : DecodeRequest)
| Gone.

(** The two channels of one element, and the owner's two flags. *)
Record Decoder := mkDecoder {
  requests : option DecodeRequest;
  results : option WorkerResult;
  worker : Worker;
  initializing : bool;
  in_flight : bool;
}.
Definition decoder_spawn : Decoder := mkDecoder None None Opening true false.

Section Document.
(** What opening the file and decoding its images give. *)
Context (document : option (Metadata * ImageReference)) (decode : ImageReference → option RgbaFrame).

Definition set_worker (w : Worker) (d : Decoder) : Decoder :=
  mkDecoder (requests d) (results d) w (initializing d) (in_flight d).

(** One operation of the thread, or [None] when it would block. *)
Definition worker_step (d : Decoder) : option Decoder :=
  match worker d with
  | Opening => Some (set_worker (Sending match document with
      | None => InitializationFailed
      | Some (metadata, primary) => Initialized metadata primary
      end) d)
  | Sending r =>
    match results d with
    | Some _ => None
    | None => Some (mkDecoder (requests d) (Some r)
        match r with InitializationFailed => Gone | _ => Receiving end (initializing d) (in_flight d))
    end
  | Receiving =>
    match requests d with
    | None => None
    | Some q => Some (mkDecoder None (results d) (Decoding q) (initializing d) (in_flight d))
    end
  | Decoding q => Some (set_worker (Sending (Decoded q (decode (image q)))) d)
  | Gone => None
  end.
Fixpoint advance (n : nat) (d : Decoder) : Decoder :=
  match n with
  | O => d
  | S n => match worker_step d with Some d => advance n d | None => d end
  end.
End Document.

Definition is_gone (w : Worker) : bool := match w with Gone => true | _ => false end.

Definition dispatch (request : DecodeRequest) (d : Decoder) : result Error Decoder :=
  if is_gone (worker d) then Err (ERuntime "HEIC decoder worker stopped")
  else match requests d with
  | Some _ => Err (ERuntime "bounded HEIC decode request queue is unexpectedly full")
  | None => Ok (mkDecoder (Some request) (results d) (worker d) (initializing d) true)
  end.

Definition receive (d : Decoder) : result Error (option WorkerResult * Decoder) :=
  match results d with
  | Some r => Ok (Some r, match r with
      | Decoded _ _ => mkDecoder (requests d) None (worker d) (initializing d) false
      | _ => mkDecoder (requests d) None (worker d) false (in_flight d)
      end)
  | None =>
    if is_gone (worker d) && (initializing d || in_flight d)
    then Err (ERuntime "HEIC decoder worker stopped") else Ok (None, d)
  end.

(** ** The location thread *)

Inductive SolarResult := Located (location : Geoclue.GeoLocation) | LocationFailed (e : Geoclue.GeoClueError).

Inductive Locator :=
| Building
| Commanded
| Requesting
| Answering (r : SolarResult) (last : bool)
| LocatorGone.

(** Two fields are not in the program: [asked] counts the requests that went to
    the location service, and [refused] says whether one of its answers was a
    [refusal]. *)
Definition refusal (e : Geoclue.GeoClueError) : bool :=
  match e with Geoclue.Denied | Geoclue.Coarse => true | _ => false end.
Record SolarResolver := mkResolver {
  commands : bool;
  located : option SolarResult;
  locator : Locator;
  locating : bool;
  asked : nat;
  refused : bool;
}.
Definition resolver_spawn : SolarResolver := mkResolver false None Building false 0 false.

(** What the thread is answered: whether its runtime can be built, and what
    [request_city_location] gives. *)
Record LocatorAnswer := mkLocatorAnswer {
  runtime_built : bool;
  city : result Geoclue.GeoClueError Geoclue.GeoLocation;
}.

Definition locator_step (a : LocatorAnswer) (r : SolarResolver) : option SolarResolver :=
  let at_ l := mkResolver (commands r) (located r) l (locating r) (asked r) (refused r) in
  match locator r with
  | Building => Some (at_ (if runtime_built a then Commanded else Answering (LocationFailed Geoclue.Unavailable) true))
  | Commanded =>
    if commands r then Some (mkResolver false (located r) Requesting (locating r) (S (asked r)) (refused r)) else None
  | Requesting =>
    Some match city a with
         | Ok l => at_ (Answering (Located l) false)
         | Err e => mkResolver (commands r) (located r) (Answering (LocationFailed e) false) (locating r) (asked r)
                      (refused r || refusal e)
         end
  | Answering x last =>
    match located r with
    | Some _ => None
    | None => Some (mkResolver (commands r) (Some x) (if last then LocatorGone else Commanded) (locating r)
                     (asked r) (refused r))
    end
  | LocatorGone => None
  end.
Fixpoint locator_advance (answers : list LocatorAnswer) (r : SolarResolver) : SolarResolver :=
  match answers with
  | [] => r
  | a :: answers => match locator_step a r with Some r => locator_advance answers r | None => r end
  end.

(** [false]: the thread stopped. *)
Definition resolver_dispatch (r : SolarResolver) : bool * SolarResolver :=
  match locator r with
  | LocatorGone => (false, r)
  | _ => if commands r then (true, r)
         else (true, mkResolver true (located r) (locator r) true (asked r) (refused r))
  end.
Definition resolver_receive (r : SolarResolver) : option SolarResult * SolarResolver :=
  match located r with
  | Some x => (Some x, mkResolver (commands r) None (locator r) false (asked r) (refused r))
  | None => (None, match locator r with
      | LocatorGone => mkResolver (commands r) None (locator r) false (asked r) (refused r)
      | _ => r
      end)
  end.

Definition solar_request_ready (appearance : AppearancePreference)
    (has_solar has_location frame_available requested : bool) : bool :=
  permits_solar appearance && has_solar && (has_location || (negb requested && frame_available)).

#[export] Instance CivilDate_eq_dec : EqDecision CivilDate.
Proof. solve_decision. Defined.
Definition solar_mapping_due (appearance : AppearancePreference) (has_solar has_location : bool)
    (mapped : option (CivilDate * Z)) (clock : ClockSnapshot) : bool :=
  permits_solar appearance && has_solar && has_location
  && negb (bool_decide (mapped = Some (date clock, utc_offset_seconds clock))).

(** ** Surfaces *)

(** [canvas] is what was drawn, [buffer_id] names the buffer for the answers of
    the outside. *)
Record SurfaceBuffer := mkBuffer { b_size : Z * Z; b_generation : Z; buffer_id : Z; canvas : list byte }.

(** An output and a layer surface are their names.  [committed] is the buffer
    last committed and [callbacks] the number of frame callbacks that the
    compositor has not answered. *)
Record Surface := mkSurface {
  output : Z;
  layer : Z;
  configure_hints : option (Z * Z);
  size : option (Z * Z);
  scale : Z;
  geometry_generation : Z;
  buffers : list SurfaceBuffer;
  presentation : PresentationState;
  frame_callback : bool;
  last_error : option string;
  committed : option SurfaceBuffer;
  callbacks : nat;
}.

Definition surface_new (output layer : Z) : Surface :=
  mkSurface output layer None None 1 0 [] pres_new false None None 0.

Definition set_presentation (p : PresentationState) (s : Surface) : Surface :=
  mkSurface (output s) (layer s) (configure_hints s) (size s) (scale s) (geometry_generation s) (buffers s) p
    (frame_callback s) (last_error s) (committed s) (callbacks s).
Definition set_geometry (size : option (Z * Z)) (scale generation : Z) (s : Surface) : Surface :=
  mkSurface (output s) (layer s) (configure_hints s) size scale generation (buffers s) (presentation s)
    (frame_callback s) (last_error s) (committed s) (callbacks s).
Definition set_hints (hints : option (Z * Z)) (s : Surface) : Surface :=
  mkSurface (output s) (layer s) hints (size s) (scale s) (geometry_generation s) (buffers s) (presentation s)
    (frame_callback s) (last_error s) (committed s) (callbacks s).
Definition set_buffers (b : list SurfaceBuffer) (s : Surface) : Surface :=
  mkSurface (output s) (layer s) (configure_hints s) (size s) (scale s) (geometry_generation s) b (presentation s)
    (frame_callback s) (last_error s) (committed s) (callbacks s).
Definition set_error (e : option string) (s : Surface) : Surface :=
  mkSurface (output s) (layer s) (configure_hints s) (size s) (scale s) (geometry_generation s) (buffers s)
    (presentation s) (frame_callback s) e (committed s) (callbacks s).
(** [wl_surface.frame]. *)
Definition request_callback (s : Surface) : Surface :=
  mkSurface (output s) (layer s) (configure_hints s) (size s) (scale s) (geometry_generation s) (buffers s)
    (presentation s) true (last_error s) (committed s) (S (callbacks s)).
(** Attaching and committing a buffer. *)
Definition commit (b : SurfaceBuffer) (s : Surface) : Surface :=
  mkSurface (output s) (layer s) (configure_hints s) (size s) (scale s) (geometry_generation s) (buffers s)
    (presentation s) (frame_callback s) (last_error s) (Some b) (callbacks s).

(** [geometry_changed] and the error it makes worth reporting again. *)
Definition new_geometry (s : Surface) : Surface :=
  set_error None (set_presentation (geometry_changed (presentation s)) s).

(** What the shared-memory library answers: whether a buffer was released, the
    name of a new one, and errors.  The memory of a new buffer is zeroed. *)
Record DrawAnswers := mkDraw {
  released : Z → bool;
  fresh : Z;
  pool_error : option string;
  create_error : option string;
  attach_error : option string;
}.

Definition failing (prefix : string) (e : option string) : result string unit :=
  match e with Some e => Err (prefix ++ e)%string | None => Ok tt end.

(** The buffer to draw in: its place among the surface's, and those drawn.  A
    drawing that fails keeps what was done to the buffers; the outer option is a
    panic. *)
Definition draw_buffer (frame : option RgbaFrame) (g : BufferGeometry) (generation : Z) (a : DrawAnswers)
    (bs : list SurfaceBuffer) : option (result string (option nat) * list SurfaceBuffer) :=
  let size := (g_width g, g_height g) in
  let bs := List.filter (λ b, bool_decide (b_size b = size) && (b_generation b =? generation)
                              || negb (released a (buffer_id b))) bs in
  match buffer_decision ((λ b, released a (buffer_id b)) <$> bs) (length bs) with
  | Reuse index =>
    b ← bs !! index;
    if released a (buffer_id b) then
      px ← render_cover_argb (canvas b) (g_width g) (g_height g) frame;
      Some (Ok (Some index), <[index := mkBuffer (b_size b) (b_generation b) (buffer_id b) px]> bs)
    else None
  | Wait => Some (Ok None, bs)
  | Allocate =>
    match (_ ← ok_or "wallpaper buffer capacity overflow" (checked_add 64 (g_bytes g) 63);
           _ ← failing "could not allocate wallpaper pool: " (pool_error a);
           failing "could not allocate wallpaper buffer: " (create_error a)) with
    | Err e => Some (Err e, bs)
    | Ok _ =>
      px ← render_cover_argb (replicate (Z.to_nat (g_bytes g)) (to_u8 0)) (g_width g) (g_height g) frame;
      Some (Ok (Some (length bs)), bs ++ [mkBuffer size generation (fresh a) px])
    end
  end.

Definition render (frame : option RgbaFrame) (transitioning : bool) (a : DrawAnswers) (s : Surface) :
    option (result string unit * Surface) :=
  match (size ← ok_or "attempted to render an unconfigured surface" (size s); buffer_geometry size (scale s)) with
  | Err e => Some (Err e, s)
  | Ok g =>
    '(r, bs) ← draw_buffer frame g (geometry_generation s) a (buffers s);
    let s := set_buffers bs s in
    match r with
    | Err e => Some (Err e, s)
    | Ok None => Some (Ok tt, s)
    | Ok (Some index) =>
      b ← bs !! index;
      match failing "could not attach wallpaper buffer: " (attach_error a) with
      | Err e => Some (Err e, s)
      | Ok _ =>
        let request_next_frame := request_frame transitioning (frame_pending (presentation s)) in
        let s := if request_next_frame then request_callback s else s in
        let s := commit b s in
        Some (Ok tt, set_error None (set_presentation (rendered request_next_frame (presentation s)) s))
      end
    end
  end.

(** The turn of one surface in a pass: its action, and what it does.  No action
    reads another surface, so the two loops of the code are one here. *)
Definition present (frame : option RgbaFrame) (transitioning : bool) (a : DrawAnswers) (s : Surface) : option Surface :=
  let '(action, p) := next_action transitioning (bool_decide (is_Some (size s))) (presentation s) in
  let s := set_presentation p s in
  match action with
  | Render =>
    '(r, s) ← render frame transitioning a s;
    Some match r with
    | Ok _ => s
    | Err e => let s := set_error (Some e) s in set_presentation (disable (presentation s)) s
    end
  | Rearm => let s := request_callback s in Some (set_presentation (rearmed (presentation s)) s)
  | Idle => Some s
  end.

(** ** The runtime *)

Record SolarState := mkSolar {
  solar_enabled : bool;
  solar_resolver : option SolarResolver;
  solar_requested : bool;
  solar_terminal : bool;
  location : option Geoclue.GeoLocation;
  next_location_refresh : option Z;
  next_solar_check : option Z;
  mapped : option (CivilDate * Z);
}.

(** The decoder is installed before any event is dispatched.  [generations] is
    the playback's process-wide counter, [next_layer] names the layer surfaces. *)
Record Runtime := mkRuntime {
  surfaces : list Surface;
  scheduler : option Scheduler;
  decoder : Decoder;
  appearance : AppearancePreference;
  r_reduced_motion : bool;
  suspend_detector : HeicWorker.SuspendDetector;
  check_clock : bool;
  failure : option Error;
  r_metadata : option Metadata;
  solar : SolarState;
  generations : Z;
  next_layer : Z;
}.

Definition runtime_new (appearance : AppearancePreference) (reduced_motion solar : bool) (offset : option Z)
    (generations : Z) : Runtime :=
  mkRuntime [] None decoder_spawn appearance reduced_motion (HeicWorker.mkDetector offset) false None None
    (mkSolar solar None false false None None None None) generations 0.

Definition set_surfaces (ss : list Surface) (r : Runtime) : Runtime :=
  mkRuntime ss (scheduler r) (decoder r) (appearance r) (r_reduced_motion r) (suspend_detector r) (check_clock r)
    (failure r) (r_metadata r) (solar r) (generations r) (next_layer r).
Definition set_scheduler (c : Z) (s : option Scheduler) (r : Runtime) : Runtime :=
  mkRuntime (surfaces r) s (decoder r) (appearance r) (r_reduced_motion r) (suspend_detector r) (check_clock r)
    (failure r) (r_metadata r) (solar r) c (next_layer r).
Definition set_decoder (d : Decoder) (r : Runtime) : Runtime :=
  mkRuntime (surfaces r) (scheduler r) d (appearance r) (r_reduced_motion r) (suspend_detector r) (check_clock r)
    (failure r) (r_metadata r) (solar r) (generations r) (next_layer r).
Definition set_detector (d : HeicWorker.SuspendDetector) (r : Runtime) : Runtime :=
  mkRuntime (surfaces r) (scheduler r) (decoder r) (appearance r) (r_reduced_motion r) d (check_clock r)
    (failure r) (r_metadata r) (solar r) (generations r) (next_layer r).
Definition set_check_clock (b : bool) (r : Runtime) : Runtime :=
  mkRuntime (surfaces r) (scheduler r) (decoder r) (appearance r) (r_reduced_motion r) (suspend_detector r) b
    (failure r) (r_metadata r) (solar r) (generations r) (next_layer r).
Definition set_failure (e : Error) (r : Runtime) : Runtime :=
  mkRuntime (surfaces r) (scheduler r) (decoder r) (appearance r) (r_reduced_motion r) (suspend_detector r)
    (check_clock r) (Some e) (r_metadata r) (solar r) (generations r) (next_layer r).
Definition set_metadata (m : Metadata) (r : Runtime) : Runtime :=
  mkRuntime (surfaces r) (scheduler r) (decoder r) (appearance r) (r_reduced_motion r) (suspend_detector r)
    (check_clock r) (failure r) (Some m) (solar r) (generations r) (next_layer r).
Definition set_solar (x : SolarState) (r : Runtime) : Runtime :=
  mkRuntime (surfaces r) (scheduler r) (decoder r) (appearance r) (r_reduced_motion r) (suspend_detector r)
    (check_clock r) (failure r) (r_metadata r) x (generations r) (next_layer r).

Definition redraw_all (r : Runtime) : Runtime :=
  set_surfaces ((λ s, set_presentation (playback_changed (presentation s)) s) <$> surfaces r) r.
Definition redraw_if (b : bool) (r : Runtime) : Runtime := if b then redraw_all r else r.

(** ** Events *)

Definition refresh_surface_geometry (info : option OutputInfo) (retry : bool) (s : Surface) : Surface :=
  match configure_hints s with
  | None => s
  | Some hints =>
    match resolve_configure_size hints (size s) (i ← info; output_logical_size i) with
    | None => s
    | Some new_size =>
      let s := if negb (bool_decide (size s = Some new_size))
               then set_geometry (Some new_size) (scale s) (wrapping_add 64 (geometry_generation s) 1) s else s in
      if retry then new_geometry s else s
    end
  end.

(** Change the first surface that satisfies a test. *)
Fixpoint update_first (p : Surface → bool) (f : Surface → Surface) (ss : list Surface) : option (list Surface) :=
  match ss with
  | [] => None
  | s :: ss => if p s then Some (f s :: ss) else ss ← update_first p f ss; Some (s :: ss)
  end.

Definition add_surface (o : Z) (info : option OutputInfo) (r : Runtime) : Runtime :=
  match update_first (λ s, output s =? o) (refresh_surface_geometry info true) (surfaces r) with
  | Some ss => set_surfaces ss r
  | None =>
    mkRuntime (surfaces r ++ [surface_new o (next_layer r)]) (scheduler r) (decoder r) (appearance r)
      (r_reduced_motion r) (suspend_detector r) (check_clock r) (failure r) (r_metadata r) (solar r)
      (generations r) (next_layer r + 1)
  end.

Definition configured (l : Z) (hints : Z * Z) (info : option OutputInfo) (r : Runtime) : Runtime :=
  match update_first (λ s, layer s =? l)
          (λ s, refresh_surface_geometry info true (set_hints (Some hints) s)) (surfaces r) with
  | Some ss => set_surfaces ss r
  | None => set_failure (ERuntime "configured an unknown wallpaper surface") r
  end.

Definition change_scale (new_scale : Z) (s : Surface) : Surface :=
  let new_scale := Z.max 1 new_scale in
  if scale s =? new_scale then s
  else new_geometry (set_geometry (size s) new_scale (wrapping_add 64 (geometry_generation s) 1) s).
Definition change_transform (s : Surface) : Surface :=
  new_geometry (set_geometry (size s) (scale s) (wrapping_add 64 (geometry_generation s) 1) s).
Definition arrive (s : Surface) : Surface :=
  mkSurface (output s) (layer s) (configure_hints s) (size s) (scale s) (geometry_generation s) (buffers s)
    (frame_arrived (presentation s)) false (last_error s) (committed s) (Nat.pred (callbacks s)).

(** The layer surface with a name, if there is one. *)
Definition on_layer (l : Z) (f : Surface → Surface) (r : Runtime) : Runtime :=
  match update_first (λ s, layer s =? l) f (surfaces r) with Some ss => set_surfaces ss r | None => r end.

(** What the outside tells; an output's information is the registry's at that
    moment. *)
Inductive Event :=
| EOutput (output : Z) (info : option OutputInfo)
| EOutputDestroyed (output : Z)
| EClosed (layer : Z)
| EConfigure (layer : Z) (hints : Z * Z) (info : option OutputInfo)
| EScale (layer : Z) (scale : Z)
| ETransform (layer : Z)
| EFrame (layer : Z)
| EResumeTimer.

(** The sizes a compositor suggests are unsigned. *)
Definition event_ok (e : Event) : Prop :=
  match e with EConfigure _ (width, height) _ => 0 ≤ width ∧ 0 ≤ height | _ => True end.

Definition handle (e : Event) (r : Runtime) : Runtime :=
  match e with
  | EOutput o info => add_surface o info r
  | EOutputDestroyed o => set_surfaces (List.filter (λ s, negb (output s =? o)) (surfaces r)) r
  | EClosed l => set_surfaces (List.filter (λ s, negb (layer s =? l)) (surfaces r)) r
  | EConfigure l hints info => configured l hints info r
  | EScale l scale => on_layer l (change_scale scale) r
  | ETransform l => on_layer l change_transform r
  | EFrame l => on_layer l arrive r
  | EResumeTimer => set_check_clock true r
  end.

(** ** The main loop *)

(** What one pass is answered.  [progress n] and [locator_progress n] are what
    the threads do before the [n]-th use of their channels in the pass; a time
    is the civil clock, if it can be read, and the monotonic one. *)
Record Turn := mkTurn {
  sync_time : option ClockSnapshot * Z;
  sync_offset : option Z;
  progress : nat → nat;
  result_time : option ClockSnapshot * Z;
  result_offset : option Z;
  blend_buffer : option Z;
  locator_progress : nat → list LocatorAnswer;
  instant : nat → Z;
  solar_time : nat → option ClockSnapshot * Z;
  spawned : bool;
  check_time : option ClockSnapshot;
  present_time : option ClockSnapshot * Z;
  present_offset : option Z;
  draws : Z → DrawAnswers;
}.

Abbreviation Main := (result Stop).
Definition panics {A} (o : option A) : Main A := ok_or Panicked o.
Definition fails {A} (r : result Error A) : Main A := match r with Ok a => Ok a | Err e => Err (Failed e) end.
Definition current_clock (c : option ClockSnapshot) : Main ClockSnapshot :=
  fails (ok_or (ERuntime "system clock is unavailable") c).

Section Program.
Context (libm : Solar.Libm).
Context (document : option (Metadata * ImageReference)) (decode : ImageReference → option RgbaFrame).

Definition sample (o : option Z) (r : Runtime) : bool * Runtime :=
  let '(disc, d) := HeicWorker.sample o (suspend_detector r) in (disc, set_detector d r).

Definition dispatch_decode (progress : nat) (r : Runtime) : Main Runtime :=
  let d := advance document decode progress (decoder r) in
  let r := set_decoder d r in
  if in_flight d then Ok r
  else match scheduler r with
  | None => Ok r
  | Some s =>
    let '(p, request) := take_decode_request (playback s) in
    let r := set_scheduler (generations r) (Some (mkScheduler p (next_synchronize s))) r in
    match request with
    | None => Ok r
    | Some q => d ← fails (dispatch q d); Ok (set_decoder d r)
    end
  end.

Definition synchronize_due (t : Turn) (r : Runtime) : Main Runtime :=
  let '(clock, monotonic) := sync_time t in
  match scheduler r with
  | Some s =>
    if due (next_synchronize s) monotonic then
      clock ← current_clock clock;
      '(c, s, outcome) ← panics (synchronize_if_due clock monotonic (generations r) s);
      let r := set_scheduler c (Some s) r in
      dispatch_decode (progress t 0)
        (redraw_if match outcome with Some o => presentation_changed o | None => false end r)
    else Ok r
  | None => Ok r
  end.

Definition synchronize_resumed (disc : bool) (t : Turn) (r : Runtime) : Main Runtime :=
  clock ← current_clock (sync_time t).1;
  r ← match scheduler r with
      | Some s =>
        '(c, s, changed) ← panics (synchronize_now clock (sync_time t).2 disc (generations r) s);
        Ok (redraw_if changed (set_scheduler c (Some s) r))
      | None => Ok r
      end;
  dispatch_decode (progress t 0) r.

Definition synchronize_pass (t : Turn) (r : Runtime) : Main Runtime :=
  if check_clock r then
    let '(disc, r) := sample (sync_offset t) (set_check_clock false r) in
    synchronize_resumed disc t r
  else synchronize_due t r.

Definition take_result (t : Turn) (result : WorkerResult) (r : Runtime) : Main Runtime :=
  match result with
  | Initialized metadata primary =>
    clock ← current_clock (result_time t).1;
    '(c, p) ← panics (new metadata primary (appearance r) clock (result_time t).2 (r_reduced_motion r) (generations r));
    dispatch_decode (progress t 2)
      (set_scheduler c (Some (scheduler_new p clock (result_time t).2)) (set_metadata metadata r))
  | InitializationFailed => Ok r
  | Decoded request frame =>
    clock ← current_clock (result_time t).1;
    let '(disc, r) := sample (result_offset t) r in
    s ← panics (scheduler r);
    '(c, s, outcome, changed) ← panics (synchronize_and_complete_decode request frame clock (result_time t).2 disc
                                          (blend_buffer t) (generations r) s);
    let r := redraw_if changed (set_scheduler c (Some s) r) in
    dispatch_decode (progress t 2)
      match outcome with Presented | Transitioning => redraw_all r | _ => r end
  end.

Definition receive_result (t : Turn) (r : Runtime) : Main Runtime :=
  '(result, d) ← fails (receive (advance document decode (progress t 1) (decoder r)));
  let r := set_decoder d r in
  match result with Some result => take_result t result r | None => Ok r end.

(** *** Location *)

Definition set_resolver (x : option SolarResolver) (s : SolarState) : SolarState :=
  mkSolar (solar_enabled s) x (solar_requested s) (solar_terminal s) (location s) (next_location_refresh s)
    (next_solar_check s) (mapped s).
Definition set_terminal (s : SolarState) : SolarState :=
  mkSolar (solar_enabled s) (solar_resolver s) (solar_requested s) true (location s) (next_location_refresh s)
    (next_solar_check s) (mapped s).
Definition set_requested (b : bool) (s : SolarState) : SolarState :=
  mkSolar (solar_enabled s) (solar_resolver s) b (solar_terminal s) (location s) (next_location_refresh s)
    (next_solar_check s) (mapped s).
Definition set_refresh (l : option Geoclue.GeoLocation) (at_ : Z) (s : SolarState) : SolarState :=
  mkSolar (solar_enabled s) (solar_resolver s) (solar_requested s) (solar_terminal s) l (Some at_)
    (next_solar_check s) (mapped s).
Definition set_check (at_ : Z) (s : SolarState) : SolarState :=
  mkSolar (solar_enabled s) (solar_resolver s) (solar_requested s) (solar_terminal s) (location s)
    (next_location_refresh s) (Some at_) (mapped s).
Definition set_mapped (m : CivilDate * Z) (s : SolarState) : SolarState :=
  mkSolar (solar_enabled s) (solar_resolver s) (solar_requested s) (solar_terminal s) (location s)
    (next_location_refresh s) (next_solar_check s) (Some m).
Definition on_solar (f : SolarState → SolarState) (r : Runtime) : Runtime := set_solar (f (solar r)) r.

Definition meaningful_location_change (previous next : Geoclue.GeoLocation) : bool :=
  (let d := Geoclue.geo_longitude next - Geoclue.geo_longitude previous in
   let delta_longitude :=
     if f64_lt (f64_of 180) d then d - f64_of 360
     else if f64_lt d (f64_of (-180)) then d + f64_of 360 else d in
   let mean_latitude :=
     Solar.to_radians ((Geoclue.geo_latitude previous + Geoclue.geo_latitude next) / f64_of 2) in
   let east := Solar.to_radians delta_longitude * Solar.cos libm mean_latitude in
   let north := Solar.to_radians (Geoclue.geo_latitude next - Geoclue.geo_latitude previous) in
   f64_lt MEANINGFUL_LOCATION_CHANGE_METERS
     (Solar.f64_sqrt (east * east + north * north) * f64_of 6371000))%f64.

Definition ok {E A} (r : result E A) : option A := match r with Ok a => Some a | Err _ => None end.

Definition map_solar (m : Metadata) (l : Geoclue.GeoLocation) (clock : ClockSnapshot) : option (list TimePoint) :=
  schedule ← value (m_solar m);
  l ← ok (location_new (Geoclue.geo_latitude l) (Geoclue.geo_longitude l));
  ok (Solar.map_schedule libm schedule l clock).

Definition has_solar_schedule (r : Runtime) : bool :=
  match r_metadata r with Some m => bool_decide (is_Some (const tt <$> value (m_solar m))) | None => false end.
Definition frame_available (r : Runtime) : bool :=
  match scheduler r with Some s => negb (is_none (frame (playback s))) | None => false end.
Definition has_location (r : Runtime) : bool := negb (is_none (location (solar r))).

(** [time] and [progress] are those of this call in the pass. *)
Definition install_solar_mapping (time : option ClockSnapshot * Z) (progress : nat) (r : Runtime) : Main Runtime :=
  if negb (permits_solar (appearance r)) then Ok r
  else match location (solar r), r_metadata r with
  | Some l, Some m =>
    clock ← current_clock time.1;
    let r := on_solar (set_mapped (date clock, utc_offset_seconds clock)) r in
    match map_solar m l clock with
    | None => Ok r
    | Some points =>
      r ← match scheduler r with
          | Some s =>
            '(c, s, outcome) ← panics (apply_solar_schedule points clock time.2 (generations r) s);
            Ok (redraw_if (selection_changed outcome || presentation_changed outcome) (set_scheduler c (Some s) r))
          | None => Ok r
          end;
      dispatch_decode progress r
    end
  | _, _ => Ok r
  end.

Definition take_solar_result (t : Turn) (n : nat) (x : SolarResult) (r : Runtime) : Main Runtime :=
  match x with
  | Located l =>
    let changed := match location (solar r) with None => true | Some p => meaningful_location_change p l end in
    let r := on_solar (set_refresh (Some l) (instant t n + LOCATION_REFRESH)) r in
    if changed then install_solar_mapping (solar_time t n) (progress t (3 + n)) r else Ok r
  | LocationFailed e =>
    Ok (on_solar (λ s, if Geoclue.is_retryable e
                       then set_refresh (location s) (instant t n + LOCATION_RETRY) (set_requested false s)
                       else set_terminal s) r)
  end.

(** The [n]-th turn of the loop over what was received; the thread answers once
    at most before it is asked again, so the fuel is more than enough. *)
Fixpoint receive_solar (fuel n : nat) (t : Turn) (r : Runtime) : Main Runtime :=
  match fuel with
  | O => Ok r
  | S fuel =>
    match solar_resolver (solar r) with
    | None => Ok r
    | Some x =>
      let '(result, x) := resolver_receive (locator_advance (locator_progress t n) x) in
      let r := on_solar (set_resolver (Some x)) r in
      match result with
      | None => Ok r
      | Some result => r ← take_solar_result t n result r; receive_solar fuel (S n) t r
      end
    end
  end.
Definition SOLAR_FUEL : nat := 4.

(** Starting the location thread, or giving up: the second component. *)
Definition spawn_resolver (t : Turn) (r : Runtime) : Runtime * bool :=
  if is_none (solar_resolver (solar r)) && has_solar_schedule r && frame_available r then
    if spawned t then (on_solar (set_resolver (Some resolver_spawn)) r, false)
    else (on_solar set_terminal r, true)
  else (r, false).

Definition dispatch_solar (t : Turn) (r : Runtime) : Runtime :=
  match solar_resolver (solar r) with
  | None => r
  | Some x =>
    let '(sent, x) := resolver_dispatch (locator_advance (locator_progress t SOLAR_FUEL) x) in
    on_solar (λ s, let s := set_resolver (Some x) s in if sent then s else set_terminal s) r
  end.

Definition reached (deadline : option Z) (now : Z) : bool :=
  match deadline with None => true | Some d => d <=? now end.

Definition request_location (t : Turn) (r : Runtime) : Runtime :=
  let idle := negb match solar_resolver (solar r) with Some x => locating x | None => false end in
  if idle && reached (next_location_refresh (solar r)) (instant t SOLAR_FUEL)
     && solar_request_ready (appearance r) (has_solar_schedule r) (has_location r) (frame_available r)
          (solar_requested (solar r))
  then dispatch_solar t (on_solar (set_requested true) r) else r.

Definition check_mapping (t : Turn) (r : Runtime) : Main Runtime :=
  if reached (next_solar_check (solar r)) (instant t (S SOLAR_FUEL)) then
    let r := on_solar (set_check (instant t (S (S SOLAR_FUEL)) + SOLAR_CHECK_INTERVAL)) r in
    clock ← current_clock (check_time t);
    if solar_mapping_due (appearance r) (has_solar_schedule r) (has_location r) (mapped (solar r)) clock
    then install_solar_mapping (solar_time t SOLAR_FUEL) (progress t (3 + SOLAR_FUEL)) r
    else Ok r
  else Ok r.

Definition maintain_solar (t : Turn) (r : Runtime) : Main Runtime :=
  if negb (solar_enabled (solar r)) then Ok r
  else
    r ← receive_solar SOLAR_FUEL 0 t r;
    if solar_terminal (solar r) || negb (permits_solar (appearance r)) then Ok r
    else
      let '(r, gave_up) := spawn_resolver t r in
      if gave_up then Ok r else check_mapping t (request_location t r).

(** *** Presentation *)

Definition has_work (r : Runtime) : bool :=
  existsb (λ s, frame_ready (presentation s)) (surfaces r)
  || existsb (λ s, render_eligible (bool_decide (is_Some (size s))) (presentation s)) (surfaces r).

Definition prepare_pass (t : Turn) (r : Runtime) : Main Runtime :=
  match scheduler r with
  | Some s =>
    if has_work r then
      clock ← current_clock (present_time t).1;
      let '(disc, r) := sample (present_offset t) r in
      '(c, s, changed) ← panics (prepare_presentation clock (present_time t).2 disc (generations r) s);
      dispatch_decode (progress t (4 + SOLAR_FUEL)) (redraw_if changed (set_scheduler c (Some s) r))
    else Ok r
  | None => Ok r
  end.

Definition transitioning (r : Runtime) : bool :=
  match scheduler r with Some s => is_transitioning (playback s) | None => false end.
Definition shown_frame (r : Runtime) : option RgbaFrame := s ← scheduler r; frame (playback s).

Fixpoint present_all (f : option RgbaFrame) (trans : bool) (draws : Z → DrawAnswers) (ss : list Surface) :
    option (list Surface) :=
  match ss with
  | [] => Some []
  | s :: ss => s ← present f trans (draws (layer s)) s; ss ← present_all f trans draws ss; Some (s :: ss)
  end.
Definition present_pass (t : Turn) (r : Runtime) : Main Runtime :=
  ss ← panics (present_all (shown_frame r) (transitioning r) (draws t) (surfaces r));
  Ok (set_surfaces ss r).

Definition maintain (t : Turn) (r : Runtime) : Main Runtime :=
  r ← synchronize_pass t r;
  r ← receive_result t r;
  r ← maintain_solar t r;
  r ← prepare_pass t r;
  present_pass t r.

(** How long the loop may wait for events. *)
Definition dispatch_timeout (elapsed : Z) (r : Runtime) : option Z :=
  let worker := if initializing (decoder r) || in_flight (decoder r) then Some WORKER_POLL_INTERVAL else None in
  let solar := match solar_resolver (solar r) with
               | Some x => if locating x then Some WORKER_POLL_INTERVAL else None | None => None end in
  let synchronization := d ← (s ← scheduler r; next_synchronize s); Some (saturating_sub d elapsed) in
  earlier_deadline (earlier_deadline worker solar) synchronization.

(** ** Runs

    Between two passes the threads go on and events arrive; a frame callback
    arrives only when one was asked for. *)
Inductive step : Runtime → Runtime → Prop :=
| step_event r e : event_ok e →
    (∀ l s, e = EFrame l → s ∈ surfaces r → layer s = l → (0 < callbacks s)%nat) → step r (handle e r)
| step_worker r n : step r (set_decoder (advance document decode n (decoder r)) r)
| step_locator r x answers : solar_resolver (solar r) = Some x →
    step r (on_solar (set_resolver (Some (locator_advance answers x))) r)
| step_maintain r r' t : maintain t r = Ok r' → step r r'.
End Program.
