(* ===== verification/DesktopProofs.v ===== *)
(** * The desktop wallpaper: proofs

    What the scheduler, the threads and the surfaces keep in every run. *)

From S2P Require Import Prelude DynamicModel Playback PlaybackProofs Desktop.
From S2P Require HeicWorkerProofs DesktopSurfaceProofs Solar Geoclue.

(** ** What the operations of a playback change *)

(** What is on screen stays, or a dissolve is cut short. *)
Definition kept (p p' : Playback) : Prop :=
  presented p' = presented p ∧ transition p' = transition p
  ∨ ∃ t, transition p = Some t ∧ transition p' = None
      ∧ (presented p' = Some (blended t) ∨ presented p' = Some (to t)).

Lemma kept_trans_eq p q p' : kept p q → presented p' = presented q → transition p' = transition q → kept p p'.
Proof. unfold kept. by intros H -> ->. Qed.

Lemma synchronize_spec clock m force c p c' p' o :
  synchronize_inner clock m force c p = Some (c', p', o) →
  mode p' = mode p ∧ kept p p' ∧ selection_changed o = negb (selected p' =? selected p)
  ∧ match mode p with
    | Static => selected p' = selected p
    | Time l => tp_image <$> selected_point l clock = Some (selected p')
    end.
Proof.
  intros H. unfold synchronize_inner in H. apply bind_Some in H as (sel & Hsel & H). cbv zeta in H.
  match type of H with context [let '(_, _) := ?x in _] => destruct x as [[c1 p1] v] eqn:E end.
  injection H as <- <- <-. cbn [selection_changed].
  assert (mode p1 = mode p ∧ kept p p1 ∧ selected p1 = sel) as (H1 & H2 & H3).
  2:{ change (mode (set_clock clock m p1)) with (mode p1). change (selected (set_clock clock m p1)) with (selected p1).
      rewrite H1, H3. split; [done|]. split; [exact H2|]. split; [done|].
      destruct (mode p) as [|l]; [by injection Hsel|done]. }
  destruct (sel =? selected p) eqn:Es; cbn [negb] in E.
  - apply Z.eqb_eq in Es. subst sel. clear Hsel.
    set (q := match transition p with Some t => set_shown (Some (to t)) (Some (to_image t)) None p | None => p end) in *.
    assert (mode q = mode p ∧ kept p q ∧ selected q = selected p) as (Q1 & Q2 & Q3).
    { unfold q. destruct (transition p) as [t|] eqn:Et; [|by split; [|split; [left|]]].
      split; [done|]. split; [|done]. right. exists t. split; [done|]. split; [done|by right]. }
    assert ((match transition p with
      | Some t => (set_shown (Some (to t)) (Some (to_image t)) None p,
           negb (bool_decide (pixels (blended t) = pixels (to t))))
      | None => (p, false) end) = (q, match transition p with
      | Some t => negb (bool_decide (pixels (blended t) = pixels (to t))) | None => false end)) as Eq
      by (unfold q; by destruct (transition p)).
    rewrite Eq in E. clear Eq. clearbody q. unfold queue, next_generation in E.
    assert (kept p p) as Q0 by by left.
    destruct (force || _); [destruct (from_option _ false (pending q)); [|destruct (_ && _)]|destruct (_ && _)];
      injection E as <- <- <-; (split; [done|]; split; [|done]);
      first [exact (kept_trans_eq p q _ Q2 eq_refl eq_refl)|exact (kept_trans_eq p p _ Q0 eq_refl eq_refl)].
  - unfold queue, next_generation in E. injection E as <- <- <-.
    destruct (transition p) as [t|] eqn:Et; (split; [done|]; split; [|done]).
    + right. exists t. split; [done|]. split; [done|by left].
    + by left.
Qed.

(** Frames on screen are well formed. *)
Record sound (p : Playback) : Prop := {
  s_presented f : presented p = Some f → wf_pixels f;
  s_transition t : transition p = Some t → wf_transition t;
}.

Lemma sound_kept p p' : kept p p' → sound p → sound p'.
Proof.
  intros [[E1 E2]|(t & Et & E2 & E1)] [H1 H2]; split; rewrite ?E1, ?E2; try done.
  destruct (H2 t Et) as [_ Ht Hb _ _]. intros f Hf. destruct E1 as [E1|E1]; rewrite E1 in Hf; by injection Hf as <-.
Qed.
Lemma sound_frame p f : sound p → frame p = Some f → wf_pixels f.
Proof.
  intros [H1 H2]. unfold frame, or_else. destruct (transition p) as [t|]; cbn; [|apply H1].
  intros [= <-]. by destruct (H2 t eq_refl).
Qed.
Lemma kept_transitioning p p' : kept p p' → is_transitioning p' = true → is_transitioning p = true.
Proof. unfold is_transitioning. intros [[_ ->]|(t & _ & -> & _)]; [done|discriminate]. Qed.

Lemma advance_sound m p : sound p → sound (fst (advance_transition m p)).
Proof.
  intros Hp. unfold advance_transition. destruct (transition p) as [t|] eqn:Et; [|done].
  pose proof (s_transition _ Hp t Et) as Ht.
  cbv zeta. destruct (Z.leb_spec DISSOLVE_DURATION (saturating_sub m (started_at t))) as [?|Hlt].
  - eapply sound_kept, Hp. right. exists t. split; [done|]. split; [done|by right].
  - destruct (blend_into_wf t _ Ht (weight_bounds _ _ Hlt)) as [Hw _].
    destruct (blend_into _ _ _ _) as [b ch]. cbn [fst] in *. destruct Hp. split; cbn; [done|]. by intros t' [= <-].
Qed.
Lemma advance_transitioning m p :
  is_transitioning (fst (advance_transition m p)) = true → is_transitioning p = true.
Proof. unfold advance_transition. destruct (transition p) as [t|] eqn:Et; [|done]. intros _. unfold is_transitioning. by rewrite Et. Qed.
Lemma advance_selected m p : selected (fst (advance_transition m p)) = selected p.
Proof. unfold advance_transition. repeat case_match; try done. Qed.

Lemma take_shown p : presented (fst (take_decode_request p)) = presented p
  ∧ transition (fst (take_decode_request p)) = transition p ∧ selected (fst (take_decode_request p)) = selected p.
Proof. unfold take_decode_request. by repeat case_match. Qed.

Lemma synchronize_discontinuity clock m force c p c' p' o :
  synchronize_inner clock m force c p = Some (c', p', o) →
  discontinuity o = force || clock_discontinuity (last_clock p) (last_monotonic p) clock m.
Proof.
  intros H. unfold synchronize_inner in H. apply bind_Some in H as (sel & Hsel & H). cbv zeta in H.
  match type of H with context [let '(_, _) := ?x in _] => destruct x as [[c1 p1] v] eqn:E end.
  by injection H as <- <- <-.
Qed.

Lemma complete_spec r res m cap c p c' p' o :
  Playback.complete_decode r res m cap c p = (c', p', o) →
  mode p' = mode p ∧ selected p' = selected p ∧ (sound p → sound p')
  ∧ (is_transitioning p' = true → is_transitioning p = true ∨ o = Transitioning).
Proof.
  intros H. split; [rewrite <- (HeicWorkerProofs.complete_mode r res m cap c p); by rewrite H|].
  unfold Playback.complete_decode, complete_decode_with_limit, queue_primary_fallback, queue, next_generation in H.
  destruct (pending p) as [d|]; [|injection H as <- <- <-; auto].
  destruct (_ || _); [injection H as <- <- <-; auto|]. cbv zeta in H.
  assert (∀ q, presented q = presented p → transition q = transition p → selected q = selected p →
    selected q = selected p ∧ (sound p → sound q) ∧ (is_transitioning q = true → is_transitioning p = true ∨ o = Transitioning))
    as Hsame.
  { intros q E1 E2 ->. split; [done|]. split; [apply sound_kept; by left|]. unfold is_transitioning. rewrite E2. by left. }
  destruct res as [f|]; [|destruct (_ || _) in H; injection H as <- <- <-; by apply Hsame].
  destruct (valid_frame f) eqn:Hv; [|destruct (_ || _) in H; injection H as <- <- <-; by apply Hsame].
  apply valid_frame_wf in Hv. cbn [negb] in H.
  set (q := if image r =? selected (set_pending None p) then set_retry None (set_pending None p)
            else set_pending None p) in H.
  assert (presented q = presented p ∧ transition q = transition p ∧ selected q = selected p) as (Q1 & Q2 & Q3)
    by (unfold q; by destruct (_ =? _)). clearbody q.
  assert (selected (present_now f (image r) q) = selected p ∧ (sound p → sound (present_now f (image r) q))
    ∧ (is_transitioning (present_now f (image r) q) = true → is_transitioning p = true ∨ o = Transitioning)) as Hnow.
  { split; [done|]. split; [|done]. intros _. split; cbn; [by intros g [= <-]|done]. }
  destruct (presented q) as [prev|] eqn:Ep; [|by injection H as <- <- <-].
  destruct (transition_started_at d) as [st|]; [|by injection H as <- <- <-].
  destruct (_ || _) eqn:Edim; [by injection H as <- <- <-|]. simp_bool.
  destruct (blend _ _ _ _ _) as [b|] eqn:Eb; [|by injection H as <- <- <-].
  injection H as <- <- <-. split; [by rewrite advance_selected|]. split.
  - intros Hp. apply advance_sound. assert (wf_pixels prev) as Hprev by (by apply (s_presented _ Hp)).
    destruct (blend_wf _ _ _ _ Hprev Hv ltac:(done) Eb) as (Hb & Hbw & Hbh). unfold same_dimensions in *. simp_bool.
    split; cbn; [done|]. intros t' [= <-]. by constructor.
  - intros Ht. right. by rewrite Ht.
Qed.

(** ** The scheduler is on time *)

Definition DAY : Z := from_secs SECONDS_PER_DAY.
#[local] Opaque effective_boundary_second.

(** Past midnight the last point of the day stays selected until the first
    boundary. *)
Lemma selected_point_midnight l c c' d :
  wf_clock c → wf_clock c' → 0 ≤ d → time_of_day c + d = time_of_day c' + DAY →
  (∀ p, p ∈ l → d < until_boundary (time_of_day c) (boundary_of p)) →
  selected_point l c' = selected_point l c.
Proof.
  intros Hc Hc' Hd Hday H. unfold selected_point.
  assert (∀ p, p ∈ l → boundary_of p ≤ seconds_of_day c ∧ seconds_of_day c' < boundary_of p) as Hb.
  { intros p Hp. specialize (H p Hp). pose proof (boundary_of_range p).
    pose proof (seconds_of_day_range c Hc). pose proof (seconds_of_day_range c' Hc').
    destruct Hc as (_ & _ & _ & ?), Hc' as (_ & _ & _ & ?).
    unfold until_boundary, DAY, time_of_day, from_secs, SECONDS_PER_DAY, NANOS in *.
    destruct (Z.ltb_spec (seconds_of_day c * 1000000000 + nanosecond c) (boundary_of p * 1000000000)) in H; lia. }
  assert (List.find (λ p, boundary_of p <=? seconds_of_day c') (rev l) = None) as ->.
  { destruct (List.find _ _) as [p|] eqn:E; [|done]. apply List.find_some in E as [Hp E].
    apply List.in_rev, list_elem_of_In, Hb in Hp. apply Z.leb_le in E. lia. }
  destruct l as [|x l] using rev_ind; [done|]. rewrite rev_unit. cbn [List.find].
  rewrite (proj2 (Z.leb_le _ _)); [by rewrite last_snoc|]. apply Hb, elem_of_app. right. apply list_elem_of_here.
Qed.

Section Clock.
(** A civil clock that runs in step with the monotonic one. *)
Context (at_ : Z → ClockSnapshot).
Hypothesis (Hwf : ∀ m, wf_clock (at_ m)).
Hypothesis (Hrun : ∀ m d, 0 ≤ d → time_of_day (at_ (m + d)) = (time_of_day (at_ m) + d) mod DAY).

Lemma time_of_day_range c : wf_clock c → 0 ≤ time_of_day c < DAY.
Proof using.
  intros Hc. pose proof (seconds_of_day_range c Hc). destruct Hc as (_ & _ & _ & ?).
  unfold time_of_day, DAY, from_secs, SECONDS_PER_DAY, NANOS in *. lia.
Qed.

Lemma next_wake_selected p l m w m' :
  mode p = Time l → next_wake (at_ m) m p = Some w → m ≤ m' < m + w →
  selected_point l (at_ m') = selected_point l (at_ m).
Proof using All.
  intros Hm Hw Hr. destruct (next_wake_bounds p l (at_ m) m w Hm (Hwf m) Hw) as [Hmin Hb].
  pose proof (Hrun m (m' - m) ltac:(lia)) as Ht. replace (m + (m' - m)) with m' in Ht by lia.
  pose proof (time_of_day_range _ (Hwf m)).
  destruct (Z.ltb_spec (time_of_day (at_ m) + (m' - m)) DAY) as [Hd|Hd].
  - rewrite Z.mod_small in Ht by lia. apply selected_point_until; [done|done|lia|].
    intros q Hq. specialize (Hb q Hq). lia.
  - apply (selected_point_midnight l _ _ (m' - m)); [done|done|lia| |].
    + rewrite Ht. pose proof (time_of_day_range _ (Hwf m)).
      unfold RESYNCHRONIZE_AFTER, DAY, from_secs, SECONDS_PER_DAY, NANOS in *.
      rewrite <- (Z.mod_add _ (-1)) by lia. rewrite Z.mod_small; lia.
    + intros q Hq. specialize (Hb q Hq). lia.
Qed.

(** Until the deadline, which is no further than a minute, the selected picture
    is the schedule's. *)
Definition on_time (m : Z) (s : Scheduler) : Prop :=
  ∀ l, mode (playback s) = Time l →
    l ≠ [] ∧ (∀ d, next_synchronize s = Some d → d ≤ m + RESYNCHRONIZE_AFTER)
    ∧ ∀ m', m ≤ m' < DURATION_END → (∀ d, next_synchronize s = Some d → m' < d) →
      tp_image <$> selected_point l (at_ m') = Some (selected (playback s)).

Lemma deadline_bound p l m d :
  mode p = Time l → playback_deadline p (at_ m) m = Some d → d ≤ m + RESYNCHRONIZE_AFTER.
Proof using Hwf.
  intros Hl H. unfold playback_deadline in H. apply bind_Some in H as (w & Ew & H).
  destruct (next_wake_bounds p l (at_ m) m w Hl (Hwf m) Ew) as [? _].
  unfold duration_checked_add in H. destruct (_ <? _); [injection H as <-; lia|done].
Qed.

Lemma on_time_reset p m :
  (∀ l, mode p = Time l → l ≠ [] ∧ tp_image <$> selected_point l (at_ m) = Some (selected p)) →
  on_time m (mkScheduler p (playback_deadline p (at_ m) m)).
Proof using All.
  intros H l Hl. cbn [playback next_synchronize] in *. destruct (H l Hl) as [Hne Hsel]. split; [done|].
  split; [intros d; by eapply deadline_bound|]. intros m' Hm' Hd. rewrite <- Hsel. f_equal. unfold playback_deadline in Hd.
  destruct (next_wake (at_ m) m p) as [w|] eqn:Ew.
  - cbn in Hd. unfold duration_checked_add in Hd. eapply next_wake_selected; [done|done|].
    destruct (Z.ltb_spec (m + w) DURATION_END); [|lia]. specialize (Hd _ eq_refl). lia.
  - exfalso. unfold next_wake in Ew. rewrite Hl in Ew. destruct l as [|q l]; [done|]. cbn [fmap list_fmap minimum is_none andb] in Ew. done.
Qed.

Lemma on_time_later m m' s : m ≤ m' → on_time m s → on_time m' s.
Proof using.
  intros Hm H l Hl. destruct (H l Hl) as (? & Hb & Hs). split; [done|]. split; [intros d Hd; specialize (Hb d Hd); lia|].
  intros x Hx. apply Hs. lia.
Qed.

(** The same selection with an earlier deadline. *)
Lemma on_time_earlier m s p d :
  on_time m s → mode p = mode (playback s) → selected p = selected (playback s) →
  (∀ e, next_synchronize s = Some e → ∃ e', d = Some e' ∧ e' ≤ e) →
  (∀ e', d = Some e' → (∃ e, next_synchronize s = Some e ∧ e' ≤ e) ∨ playback_deadline p (at_ m) m = Some e') →
  on_time m (mkScheduler p d).
Proof using Hwf.
  intros H Em Es Hd Hd' l Hl. cbn in Hl. rewrite Em in Hl. destruct (H l Hl) as (? & Hb & Hs). split; [done|].
  split.
  { intros e' He'. cbn in He'. destruct (Hd' e' He') as [(e & He & ?)|Hq]; [specialize (Hb e He); lia|].
    eapply deadline_bound, Hq. by rewrite Em. }
  intros x Hx Hx'. cbn. rewrite Es. apply Hs; [done|]. intros e He. destruct (Hd e He) as (e' & -> & Hle).
  specialize (Hx' e' eq_refl). lia.
Qed.

Lemma synchronized_reset m force c p c' p' o :
  synchronize_inner (at_ m) m force c p = Some (c', p', o) → (∀ l, mode p = Time l → l ≠ []) →
  on_time m (mkScheduler p' (playback_deadline p' (at_ m) m)).
Proof using All.
  intros H Hne. apply synchronize_spec in H as (Em & _ & _ & Hsel). apply on_time_reset. intros l Hl.
  rewrite Em in Hl. rewrite Hl in Hsel. split; [by apply Hne|done].
Qed.

Lemma synchronize_now_on_time m m' disc c s c' s' b :
  on_time m s → m ≤ m' → synchronize_now (at_ m') m' disc c s = Some (c', s', b) → on_time m' s'.
Proof using All.
  intros Hs Hm H. unfold synchronize_now in H. apply bind_Some in H as ([[c1 p1] o] & Hsync & H).
  assert (∃ force, synchronize_inner (at_ m') m' force c (playback s) = Some (c1, p1, o)) as [force E]
    by (by destruct disc; eexists). clear Hsync. injection H as _ <- _.
  destruct (_ || _) eqn:Ed.
  - eapply synchronized_reset; [done|]. intros l Hl. by destruct (Hs l Hl).
  - simp_bool. apply synchronize_spec in E as (Em & _ & Ec & _). rewrite Ec in *. simp_bool.
    eapply on_time_earlier; [by eapply on_time_later|done|done|..]; intros e He; [|left]; exists e; by split.
Qed.

(** What happens to a scheduler as time goes by. *)
Inductive scheduled : Z * Z * Scheduler → Z * Z * Scheduler → Prop :=
| s_wait c c' m m' s : m ≤ m' → scheduled (c, m, s) (c', m', s)
| s_due c m s c' s' o : synchronize_if_due (at_ m) m c s = Some (c', s', o) → scheduled (c, m, s) (c', m, s')
| s_now c m s disc c' s' b : synchronize_now (at_ m) m disc c s = Some (c', s', b) → scheduled (c, m, s) (c', m, s')
| s_prepare c m s disc c' s' b :
    prepare_presentation (at_ m) m disc c s = Some (c', s', b) → scheduled (c, m, s) (c', m, s')
| s_take c m s : scheduled (c, m, s) (c, m, mkScheduler (take_decode_request (playback s)).1 (next_synchronize s))
| s_decoded c m s r res disc cap c' s' o b :
    synchronize_and_complete_decode r res (at_ m) m disc cap c s = Some (c', s', o, b) →
    scheduled (c, m, s) (c', m, s')
| s_solar c m s l c' s' o : l ≠ [] → apply_solar_schedule l (at_ m) m c s = Some (c', s', o) →
    scheduled (c, m, s) (c', m, s').

Lemma prepare_on_time m disc c s c' s' b :
  on_time m s → prepare_presentation (at_ m) m disc c s = Some (c', s', b) → on_time m s'.
Proof using All.
  intros Hs H. unfold prepare_presentation in H. apply bind_Some in H as ([[c1 s1] b1] & E & H).
  apply (synchronize_now_on_time m) in E; [|done|done].
  pose proof (HeicWorkerProofs.advance_mode m (playback s1)). pose proof (advance_selected m (playback s1)).
  destruct (advance_transition m (playback s1)) as [p1 a]. injection H as _ <- _. cbn [fst] in *.
  eapply on_time_earlier; [done|done|done|..]; intros e He; [|left]; exists e; by split.
Qed.

Lemma sorted_time_points_nil l : sorted_time_points l = [] → l = [].
Proof using.
  destruct l as [|x l]; [done|]. unfold sorted_time_points. cbn [foldr].
  destruct (foldr insert_sorted [] l) as [|y l']; cbn [insert_sorted]; [done|]. by destruct (time_gt x y).
Qed.

Lemma solar_on_time l m c s c' s' o :
  l ≠ [] → apply_solar_schedule l (at_ m) m c s = Some (c', s', o) → on_time m s'.
Proof using All.
  intros Hl H. unfold apply_solar_schedule in H. apply bind_Some in H as ([[c1 p1] o1] & E & [= _ <- _]).
  eapply (synchronized_reset _ _ _ (set_mode _ _)); [exact E|]. cbn. intros l' [= <-] Hn. by apply Hl, sorted_time_points_nil.
Qed.

Lemma scheduled_on_time x y : scheduled x y → on_time x.1.2 x.2 → on_time y.1.2 y.2.
Proof using All.
  intros Hxy Hs. destruct Hxy as [c c' m m' s Hm|c m s c' s' o H|c m s disc c' s' b H|c m s disc c' s' b H|c m s
    |c m s r res disc cap c' s' o b H|c m s l c' s' o Hl H]; cbn [fst snd] in *.
  - by eapply on_time_later.
  - unfold synchronize_if_due in H. destruct (negb _); [by injection H as _ <- _|].
    apply bind_Some in H as ([[c1 p1] o1] & E & [= _ <- _]). eapply synchronized_reset; [exact E|].
    intros l Hl. by destruct (Hs l Hl).
  - by eapply synchronize_now_on_time.
  - by eapply prepare_on_time.
  - destruct (take_shown (playback s)) as (_ & _ & Et).
    eapply on_time_earlier; [done|apply HeicWorkerProofs.take_mode|done|..]; intros e He; [|left]; exists e; by split.
  - unfold synchronize_and_complete_decode in H. apply bind_Some in H as ([[c1 s1] b1] & E & H).
    apply prepare_on_time in E; [|done]. unfold complete_decode in H.
    destruct (Playback.complete_decode _ _ _ _ _ _) as [[c2 p2] o2] eqn:Ec. injection H as _ <- _ _.
    apply complete_spec in Ec as (Em & Es & _). apply (on_time_earlier m s1); [done|done|done|..]; intros e He.
    + rewrite He. destruct (playback_deadline p2 (at_ m) m) as [e2|]; cbn [earlier_deadline]; eexists; (split; [reflexivity|lia]).
    + destruct (next_synchronize s1) as [e1|], (playback_deadline p2 (at_ m) m) as [e2|]; cbn in He; simplify_eq;
        try (left; eexists; split; [reflexivity|lia]); by right.
  - by eapply solar_on_time.
Qed.

Lemma new_on_time md pr ap rm m c c' p :
  new md pr ap (at_ m) m rm c = Some (c', p) → on_time m (scheduler_new p (at_ m) m).
Proof using All.
  intros H. apply on_time_reset. intros l Hl. unfold new, with_solar in H.
  apply bind_Some in H as ([mo sel] & E & H). destruct (next_generation c) as [c1 g]. injection H as _ <-. cbn in Hl |- *. subst mo.
  assert (∀ l', (s ← selected_point (sorted_time_points l') (at_ m); Some (Time (sorted_time_points l'), tp_image s)) = Some (Time l, sel) →
    l ≠ [] ∧ tp_image <$> selected_point l (at_ m) = Some sel) as Hof.
  { intros l' E'. apply bind_Some in E' as (s & Es & [= <- <-]). rewrite Es. split; [|done]. intros Hn. by rewrite Hn in Es. }
  destruct (select md ap false false); cbn in E; try done. by eapply Hof.
Qed.

(** A scheduler that has just looked at the clock: it was made, its deadline had
    come, there was a solar schedule, or a jump of the clock was noticed, by the
    suspend detector or by the comparison with the monotonic clock.  What the
    clocks did before that is arbitrary. *)
Inductive synchronized : Z * Z * Scheduler → Prop :=
| sy_new md pr ap rm c m c' p : new md pr ap (at_ m) m rm c = Some (c', p) →
    synchronized (c', m, scheduler_new p (at_ m) m)
| sy_due c m s c' s' o : HeicWorkerProofs.selects (playback s) →
    synchronize_if_due (at_ m) m c s = Some (c', s', Some o) → synchronized (c', m, s')
| sy_solar c m s l c' s' o : l ≠ [] → apply_solar_schedule l (at_ m) m c s = Some (c', s', o) →
    synchronized (c', m, s')
| sy_jump c m s disc c' s' b : HeicWorkerProofs.selects (playback s) →
    disc || clock_discontinuity (last_clock (playback s)) (last_monotonic (playback s)) (at_ m) m = true →
    synchronize_now (at_ m) m disc c s = Some (c', s', b) → synchronized (c', m, s').

Lemma selects_nonempty p l : HeicWorkerProofs.selects p → mode p = Time l → l ≠ [].
Proof using. unfold HeicWorkerProofs.selects. intros H Hl. by rewrite Hl in H. Qed.

Lemma synchronized_on_time x : synchronized x → on_time x.1.2 x.2.
Proof using All.
  intros H. destruct H as [md pr ap rm c m c' p H|c m s c' s' o Hs H|c m s l c' s' o Hl H|c m s disc c' s' b Hs Hd H];
    cbn [fst snd].
  - by eapply new_on_time.
  - unfold synchronize_if_due in H. destruct (negb _); [discriminate|].
    apply bind_Some in H as ([[c1 p1] o1] & E & [= _ <- _]). eapply synchronized_reset; [exact E|].
    intros l. by apply selects_nonempty.
  - by eapply solar_on_time.
  - unfold synchronize_now in H. apply bind_Some in H as ([[c1 p1] o] & Hsync & H).
    assert (synchronize_inner (at_ m) m disc c (playback s) = Some (c1, p1, o)) as E by (by destruct disc).
    pose proof (synchronize_discontinuity _ _ _ _ _ _ _ _ E) as Ed. rewrite Hd in Ed.
    rewrite Ed, !orb_true_r in H. injection H as _ <- _. eapply synchronized_reset; [exact E|].
    intros l. by apply selects_nonempty.
Qed.

Lemma earlier_deadline_le l d : ∃ w, earlier_deadline l (Some d) = Some w ∧ w ≤ d.
Proof using. destruct l as [x|]; cbn [earlier_deadline]; eexists; (split; [reflexivity|lia]). Qed.

End Clock.

(** ** Witness: a clock that is set from noon to five past six *)

Definition running (m : Z) : ClockSnapshot :=
  let t := m mod DAY in
  let s := t / NANOS in
  mkClock (mkDate 2026 9 9) (mkTime (s / 3600) (s / 60 mod 60) (s mod 60)) (t mod NANOS) 0.

Lemma running_time m : wf_clock (running m) ∧ time_of_day (running m) = m mod DAY.
Proof.
  pose proof (Z.mod_pos_bound m DAY eq_refl) as Ht. unfold running. set (t := m mod DAY) in *. cbv zeta.
  unfold wf_clock, time_of_day, seconds_of_day, from_secs. cbn [time hour minute second nanosecond].
  unfold DAY, from_secs, SECONDS_PER_DAY, NANOS in Ht |- *.
  pose proof (Z.div_mod t 1000000000 ltac:(lia)). pose proof (Z.mod_pos_bound t 1000000000 eq_refl).
  set (s := t / 1000000000) in *. assert (0 ≤ s < 86400) by lia.
  pose proof (Z.div_mod s 3600 ltac:(lia)). pose proof (Z.mod_pos_bound s 3600 eq_refl).
  pose proof (Z.div_mod s 60 ltac:(lia)). pose proof (Z.mod_pos_bound s 60 eq_refl).
  pose proof (Z.div_mod (s / 60) 60 ltac:(lia)). pose proof (Z.mod_pos_bound (s / 60) 60 eq_refl).
  rewrite Z.div_div in * by lia. lia.
Qed.

Lemma running_wf m : wf_clock (running m).
Proof. apply running_time. Qed.
Lemma running_runs m d : 0 ≤ d → time_of_day (running (m + d)) = (time_of_day (running m) + d) mod DAY.
Proof. intros _. rewrite !(proj2 (running_time _)). by rewrite Zplus_mod_idemp_l. Qed.

Definition evening_metadata : Metadata := mkMetadata (Valid (mkSchedule two_points None)) Missing Missing.
Definition five_past_six : Z := from_secs (18 * 3600 + 5 * 60).

(** The scheduler made at noon, and what it does when it notices the jump. *)
Definition after_jump : option (Z * Scheduler) :=
  '(c, p) ← new evening_metadata 9 Automatic (at_time 12 0 0) (five_past_six - NANOS) false 1;
  '(c, s, _) ← synchronize_now (running five_past_six) five_past_six false c
                 (scheduler_new p (at_time 12 0 0) (five_past_six - NANOS));
  Some (c, s).

Lemma after_jump_ok :
  match after_jump with
  | Some (_, s) => mode (playback s) = Time two_points ∧ selected (playback s) = 1
      ∧ next_synchronize s = Some (five_past_six + RESYNCHRONIZE_AFTER)
  | None => False
  end.
Proof. vm_compute. auto. Qed.

