(* ===== verification/DesktopRuns.v ===== *)
(** * Runs of the desktop wallpaper: proofs

    The invariant of the main loop with its threads, in every interleaving. *)

From S2P Require Import Prelude DynamicModel Playback PlaybackProofs Desktop DesktopProofs.
From S2P Require HeicWorkerProofs DesktopSurfaceProofs Solar Geoclue.

(** ** Surfaces *)

Definition geometry_ok (w h : Z) : Prop :=
  0 ≤ w ≤ MAX_SURFACE_DIMENSION ∧ 0 ≤ h ≤ MAX_SURFACE_DIMENSION ∧ w * h * 4 ≤ MAX_BUFFER_BYTES.
Definition buffer_ok (b : SurfaceBuffer) : Prop :=
  geometry_ok (b_size b).1 (b_size b).2 ∧ Z.of_nat (length (canvas b)) = (b_size b).1 * (b_size b).2 * 4.

(** One frame callback at most is outstanding, and the state knows it; two
    buffers at most, of bounded size. *)
Record surface_ok (s : Surface) : Prop := {
  so_callback : frame_callback s = frame_pending (presentation s);
  so_callbacks : callbacks s = if frame_pending (presentation s) then 1%nat else 0%nat;
  so_ready : frame_ready (presentation s) = true → frame_pending (presentation s) = false;
  so_buffers : (length (buffers s) ≤ BUFFER_COUNT)%nat;
  so_sizes : Forall buffer_ok (buffers s);
  so_size : ∀ w h, size s = Some (w, h) → 0 ≤ w ∧ 0 ≤ h;
  so_hints : ∀ w h, configure_hints s = Some (w, h) → 0 ≤ w ∧ 0 ≤ h;
}.

(** A surface that shows a dissolve is told when to draw again. *)
Definition moving (s : Surface) : Prop :=
  is_Some (size s) → disabled (presentation s) = false →
  frame_pending (presentation s) || redraw (presentation s) || frame_ready (presentation s) = true.

Lemma buffer_geometry_Ok w h scale g : 0 ≤ w → 0 ≤ h → buffer_geometry (w, h) scale = Ok g →
  geometry_ok (g_width g) (g_height g) ∧ g_bytes g = g_width g * g_height g * 4.
Proof.
  intros Hw Hh H. unfold buffer_geometry in H. cbn [fst snd] in H. cbv zeta in H.
  apply bind_Ok in H as (gw & Hgw & H). apply bind_Ok in H as (gh & Hgh & H). apply bind_Ok in H as (gb & Hgb & [= <-]).
  apply ok_or_Ok, bind_Some in Hgw as (x & [-> _]%checked_mul_Some & Hgw).
  apply ok_or_Ok, bind_Some in Hgh as (y & [-> _]%checked_mul_Some & Hgh).
  apply ok_or_Ok, bind_Some in Hgb as (z & [-> _]%checked_mul_Some & Hgb).
  apply bind_Some in Hgb as (b & [-> _]%checked_mul_Some & Hgb).
  destruct (Z.leb_spec (w * Z.max 1 scale) MAX_SURFACE_DIMENSION); [|done].
  destruct (Z.leb_spec (h * Z.max 1 scale) MAX_SURFACE_DIMENSION); [|done].
  injection Hgw as <-. injection Hgh as <-.
  destruct (Z.leb_spec (w * Z.max 1 scale * (h * Z.max 1 scale) * 4) MAX_BUFFER_BYTES); [|done].
  injection Hgb as <-. cbn [g_width g_height g_bytes]. split; [|done]. split; [nia|]. split; [nia|done].
Qed.

Lemma length_fill l : length (fill l) = length l.
Proof.
  assert (∀ n l, (length l ≤ n)%nat → length (fill l) = length l) as H; [|by eapply H].
  induction n as [|n IH]; intros [|a [|b [|c [|d l']]]] Hl; try done; cbn [length] in Hl; [lia|].
  cbn [fill]. rewrite length_app, IH by lia. done.
Qed.

(** A canvas of the right size is drawn without a panic, and keeps its size. *)
Lemma render_canvas (px : list byte) w h f :
  (∀ g, f = Some g → wf_pixels g) → 0 ≤ w → 0 ≤ h → Z.of_nat (length px) = w * h * 4 →
  ∃ out, render_cover_argb px w h f = Some out ∧ length out = length px.
Proof.
  intros Hf Hw Hh Hpx. destruct f as [f|]; [|eexists; split; [done|apply length_fill]].
  destruct (DesktopSurfaceProofs.cover_draws f w h px (Hf f eq_refl) Hw Hh Hpx) as (out & sw & sh & E & El & _).
  by exists out.
Qed.

Lemma released_position l i : position l = Some i → l !! i = Some true.
Proof.
  revert i. induction l as [|r l IH]; intros i H; [done|]. cbn in H. destruct r; [by injection H as <-|].
  destruct (position l) as [j|]; [|done]. injection H as <-. cbn. by apply IH.
Qed.

Lemma draw_buffer_ok f g generation a bs :
  (∀ x, f = Some x → wf_pixels x) → geometry_ok (g_width g) (g_height g) → g_bytes g = g_width g * g_height g * 4 →
  Forall buffer_ok bs → (length bs ≤ BUFFER_COUNT)%nat →
  ∃ r bs', draw_buffer f g generation a bs = Some (r, bs')
    ∧ Forall buffer_ok bs' ∧ (length bs' ≤ BUFFER_COUNT)%nat
    ∧ (∀ i, r = Ok (Some i) → ∃ b, bs' !! i = Some b ∧ b_size b = (g_width g, g_height g) ∧ b_generation b = generation).
Proof.
  intros Hf Hg Hb Hbs Hlen. unfold draw_buffer.
  set (keep := λ b, bool_decide (b_size b = (g_width g, g_height g)) && (b_generation b =? generation)
                    || negb (released a (buffer_id b))).
  assert (Forall buffer_ok (List.filter keep bs) ∧ (length (List.filter keep bs) ≤ BUFFER_COUNT)%nat
    ∧ Forall (λ b, keep b = true) (List.filter keep bs)) as (H1 & H2 & H3).
  { split; [|split].
    - rewrite Forall_forall in *. intros b H%list_elem_of_In. apply filter_In in H as [H _]. by apply Hbs, list_elem_of_In.
    - pose proof (filter_length_le keep bs). lia.
    - apply Forall_forall. intros b H%list_elem_of_In. by apply filter_In in H as [_ H]. }
  cbv zeta. set (ks := List.filter keep bs) in *. unfold buffer_decision.
  destruct (position _) as [i|] eqn:Ep.
  - apply released_position in Ep. rewrite list_lookup_fmap in Ep. destruct (ks !! i) as [b|] eqn:Eb; [|done].
    injection Ep as Hr. cbn [mbind option_bind]. rewrite Hr.
    pose proof (Forall_lookup_1 _ _ _ _ H1 Eb) as [Hbg Hbl]. pose proof (Forall_lookup_1 _ _ _ _ H3 Eb) as Hk.
    subst keep. cbv beta in Hk. rewrite Hr, orb_false_r in Hk. simp_bool.
    rewrite H in *. cbn [fst snd] in *. destruct Hbg as (? & ? & ?).
    destruct (render_canvas (canvas b) (g_width g) (g_height g) f) as (px & -> & Hpx); [done|lia|lia|lia|].
    cbn [mbind option_bind]. eexists _, _. split; [done|]. split; [|split].
    + apply Forall_insert; [done|]. split; cbn; [done|]. lia.
    + rewrite length_insert. done.
    + intros j [= <-]. eexists. split; [apply list_lookup_insert_eq; by eapply lookup_lt_Some|done].
  - case_decide as Hc; [|eexists _, _; split; [done|split; [done|split; [done|done]]]].
    match goal with |- context [match ?x with Ok _ => _ | Err _ => _ end] => destruct x as [u|e] end;
      [|eexists _, _; split; [done|split; [done|split; [done|done]]]].
    pose proof Hg as (? & ? & ?).
    destruct (render_canvas (replicate (Z.to_nat (g_bytes g)) (to_u8 0)) (g_width g) (g_height g) f)
      as (px & -> & Hpx); [done|lia|lia|rewrite length_replicate; lia|].
    rewrite length_replicate in Hpx. cbn [mbind option_bind]. eexists _, _. split; [done|]. split; [|split].
    + apply Forall_app. split; [done|]. apply Forall_singleton. split; cbn; [done|lia].
    + rewrite length_app. cbn. lia.
    + intros j [= <-]. eexists. rewrite lookup_app_r, Nat.sub_diag by done. done.
Qed.

Lemma surface_ok_new o l : surface_ok (surface_new o l).
Proof. by split; cbn; try lia. Qed.

(** Changes of the presentation that leave the callback alone. *)
Lemma surface_ok_presentation p s :
  frame_pending p = frame_pending (presentation s) → (frame_ready p = true → frame_ready (presentation s) = true) →
  surface_ok s → surface_ok (set_presentation p s).
Proof. intros E H []. split; cbn; rewrite ?E; auto. Qed.

Lemma redraw_ok s : surface_ok s → surface_ok (set_presentation (playback_changed (presentation s)) s).
Proof. intros Hs. apply surface_ok_presentation; [..|done]; unfold playback_changed; by destruct (disabled _). Qed.

Lemma new_geometry_ok s : surface_ok s → surface_ok (new_geometry s).
Proof. intros []. by split. Qed.

(** Drawing: nothing panics, and a buffer that is committed has the surface's
    current size and generation. *)
Lemma render_ok f trans a s :
  (∀ x, f = Some x → wf_pixels x) → surface_ok s → frame_ready (presentation s) = false →
  ∃ r s', render f trans a s = Some (r, s') ∧ surface_ok s'
    ∧ layer s' = layer s ∧ output s' = output s
    ∧ (r = Ok tt → presentation s' = presentation s
        ∨ presentation s' = rendered (request_frame trans (frame_pending (presentation s))) (presentation s)).
Proof.
  intros Hf Hs Hready. unfold render.
  destruct (mbind _ _) as [g|e] eqn:Eg; [|eexists _, _; split; [done|split; [done|split; [done|split; [done|done]]]]].
  apply bind_Ok in Eg as ([w h] & Esize%ok_or_Ok & Eg).
  destruct (so_size _ Hs w h Esize) as [Hw Hh]. destruct (buffer_geometry_Ok w h _ g Hw Hh Eg) as [Hg Hb].
  destruct (draw_buffer_ok f g (geometry_generation s) a (buffers s) Hf Hg Hb (so_sizes _ Hs) (so_buffers _ Hs))
    as (r & bs & -> & H1 & H2 & H3). cbn [mbind option_bind].
  assert (surface_ok (set_buffers bs s)) as Hs' by (destruct Hs; by split).
  destruct r as [[i|]|e].
  - destruct (H3 i eq_refl) as (b & Eb & _). rewrite Eb. cbn [mbind option_bind].
    destruct (failing _ _) as [[]|e]; [|eexists _, _; split; [done|split; [done|split; [done|split; [done|done]]]]].
    eexists _, _. split; [done|]. unfold request_frame. change (presentation (set_buffers bs s)) with (presentation s).
    split; [|split; [by destruct (_ && _)|split; [by destruct (_ && _)|intros _; right; by destruct (_ && _)]]].
    destruct Hs as [C1 C2 C3 C4 C5 C6 C7], Hs'.
    destruct (trans && negb (frame_pending (presentation s))) eqn:Er; [simp_bool|];
      split; cbn; rewrite ?orb_false_r, ?orb_true_r, ?C1, ?C2, ?Hready; try done.
    match goal with H : frame_pending _ = false |- _ => by rewrite H end.
  - eexists _, _. split; [done|split; [done|split; [done|split; [done|by left]]]].
  - eexists _, _. split; [done|split; [done|split; [done|split; [done|done]]]].
Qed.

(** After its turn a surface in a dissolve waits for its callback, or is still
    to be drawn because the compositor holds all its buffers. *)
Definition settled (s : Surface) : Prop :=
  is_Some (size s) → disabled (presentation s) = false →
  frame_pending (presentation s) || redraw (presentation s) = true.

Lemma render_size f trans a s r s' : render f trans a s = Some (r, s') → size s' = size s.
Proof.
  unfold render. destruct (mbind _ _) as [g|e]; [|by intros [= _ <-]].
  intros ([x bs] & _ & H)%bind_Some. destruct x as [[i|]|e]; [|by injection H as _ <-|by injection H as _ <-].
  apply bind_Some in H as (b & _ & H). destruct (failing _ _); [|by injection H as _ <-].
  injection H as _ <-. by destruct (request_frame _ _).
Qed.

Lemma present_ok f trans a s :
  (∀ x, f = Some x → wf_pixels x) → surface_ok s →
  ∃ s', present f trans a s = Some s' ∧ surface_ok s' ∧ layer s' = layer s ∧ output s' = output s
    ∧ (moving s → trans = true → settled s') ∧ frame_ready (presentation s') = false.
Proof.
  intros Hf Hs. unfold present, next_action, take_frame_action.
  set (p := mkPres (redraw (presentation s)) (geometry_redraw (presentation s)) (frame_pending (presentation s))
              false (disabled (presentation s))).
  set (action := if negb (frame_ready (presentation s)) || disabled (presentation s) then Idle
                 else surface_action (redraw (presentation s)) trans).
  assert ((if negb (frame_ready (presentation s)) || disabled (presentation s) then (Idle, p)
           else (surface_action (redraw (presentation s)) trans, p)) = (action, p)) as ->
    by (unfold action; by destruct (_ || _)).
  assert (surface_ok (set_presentation p s)) as Hp by (by apply surface_ok_presentation).
  cbv zeta beta. destruct (decide (action = Rearm)) as [Ha|Ha].
  - assert (frame_ready (presentation s) = true) as Hr.
    { unfold action in Ha. destruct (frame_ready (presentation s)); [done|]. by cbn in Ha. }
    pose proof (so_ready _ Hs Hr) as Hpend. eexists. split; [done|]. split; [|done].
    destruct Hs. split; cbn; rewrite ?Hpend in *; try done. by f_equal.
  - destruct (render_eligible _ p) eqn:Ee.
    + destruct (render_ok f trans a (set_presentation p s) Hf Hp eq_refl) as (r & s' & Er & Hs' & El & Eo & Hr).
      rewrite Er. cbn [mbind option_bind]. pose proof (render_size _ _ _ _ _ _ Er) as Esz.
      unfold render_eligible, eligible in Ee. cbn [disabled redraw frame_pending geometry_redraw p] in Ee. simp_bool.
      destruct r as [[]|e].
      * exists s'. split; [done|]. split; [done|]. split; [done|]. split; [done|]. split.
        -- intros _ ->. intros _ _. destruct (Hr eq_refl) as [E|E]; rewrite E; cbn; [|by destruct (frame_pending (presentation s))].
           match goal with H : redraw _ = true |- _ => rewrite H end. by rewrite orb_true_r.
        -- by destruct (Hr eq_refl) as [E|E]; rewrite E.
      * eexists. split; [done|]. split; [|split; [done|split; [done|split; [by intros _ _ _|done]]]].
        destruct Hs'. by split.
    + eexists. split; [done|]. split; [done|]. split; [done|]. split; [done|]. split; [|done].
      intros Hm Ht Hsz Hd. cbn in Hsz, Hd |- *. specialize (Hm Hsz Hd). subst trans.
      destruct (frame_pending (presentation s)); [done|]. cbn in Hm |- *.
      destruct (redraw (presentation s)) eqn:Erd; [done|]. cbn in Hm.
      exfalso. apply Ha. unfold action. by rewrite Hm, Hd.
Qed.

Lemma present_all_ok f trans draws ss :
  (∀ x, f = Some x → wf_pixels x) → Forall surface_ok ss →
  ∃ ss', present_all f trans draws ss = Some ss' ∧ Forall surface_ok ss'
    ∧ output <$> ss' = output <$> ss ∧ layer <$> ss' = layer <$> ss
    ∧ (trans = true → Forall moving ss → Forall settled ss').
Proof.
  intros Hf. induction ss as [|s ss IH]; intros Hs; [by exists []|]. apply Forall_cons in Hs as [Hs Hss].
  destruct (present_ok f trans (draws (layer s)) s Hf Hs) as (s' & E & Hs' & El & Eo & Hm & _).
  destruct (IH Hss) as (ss' & E' & Hss' & Eos & Els & Hms). exists (s' :: ss'). cbn. rewrite E. cbn. rewrite E'. cbn.
  split; [done|]. split; [by constructor|]. split; [by rewrite Eo, Eos|]. split; [by rewrite El, Els|].
  intros Ht [Hm1 Hm2]%Forall_cons. constructor; auto.
Qed.

Lemma settled_moving s : settled s → moving s.
Proof. unfold settled, moving. intros H Hs Hd. by rewrite (H Hs Hd). Qed.

(** ** The decoder thread *)

Section Runs.
Context (libm : Solar.Libm).
Context (document : option (Metadata * ImageReference)) (decode : ImageReference → option RgbaFrame).

Definition first_result : WorkerResult :=
  match document with None => InitializationFailed | Some (metadata, primary) => Initialized metadata primary end.
Definition after_first : Worker := match document with None => Gone | Some _ => Receiving end.

(** Every state the thread and its owner are ever in; the flag says whether
    there is a scheduler.  One request at most is anywhere. *)
Inductive decoder_ok : bool → Decoder → Prop :=
| d_opening : decoder_ok false (mkDecoder None None Opening true false)
| d_opened : decoder_ok false (mkDecoder None None (Sending first_result) true false)
| d_first : decoder_ok false (mkDecoder None (Some first_result) after_first true false)
| d_gone : document = None → decoder_ok false (mkDecoder None None Gone false false)
| d_idle : decoder_ok true (mkDecoder None None Receiving false false)
| d_requested q : decoder_ok true (mkDecoder (Some q) None Receiving false true)
| d_decoding q : decoder_ok true (mkDecoder None None (Decoding q) false true)
| d_decoded q : decoder_ok true (mkDecoder None None (Sending (Decoded q (decode (image q)))) false true)
| d_answered q : decoder_ok true (mkDecoder None (Some (Decoded q (decode (image q)))) Receiving false true).
Hint Constructors decoder_ok : core.

Lemma worker_step_ok b d d' : decoder_ok b d → worker_step document decode d = Some d' → decoder_ok b d'.
Proof using.
  intros H E. pose proof d_opened as Ho. pose proof d_first as Hf. unfold first_result, after_first in *.
  destruct H; cbn in E; unfold set_worker in E; try done; try (injection E as <-; auto; done);
    unfold first_result, after_first in *; destruct document as [[? ?]|]; try done; by injection E as <-.
Qed.
Lemma decoder_advance_ok b n d : decoder_ok b d → decoder_ok b (advance document decode n d).
Proof using.
  revert d. induction n as [|n IH]; intros d Hd; [done|]. cbn.
  destruct (worker_step document decode d) as [d'|] eqn:E; [|done]. by eapply IH, worker_step_ok.
Qed.

Lemma dispatch_ok q d : decoder_ok true d → in_flight d = false → ∃ d', dispatch q d = Ok d' ∧ decoder_ok true d'.
Proof using. intros H E. inversion H; subst; try done. eexists. split; [done|auto]. Qed.

Lemma receive_ok b d : decoder_ok b d →
  ∃ r d', receive d = Ok (r, d') ∧
    match r with
    | None => d' = d
    | Some (Initialized m p) => document = Some (m, p) ∧ b = false ∧ decoder_ok true d'
    | Some InitializationFailed => b = false ∧ decoder_ok false d'
    | Some (Decoded q f) => f = decode (image q) ∧ b = true ∧ decoder_ok true d'
    end.
Proof using.
  intros H. inversion H; subst; cbn [receive results worker is_gone initializing in_flight andb orb]; try (by eexists _, _).
  eexists _, _. split; [done|]. unfold first_result, after_first. destruct document as [[m p]|] eqn:E; auto.
Qed.

(** ** What a scheduler keeps *)

Definition sched_ok (s : Scheduler) : Prop := sound (playback s) ∧ HeicWorkerProofs.selects (playback s).
(** A step of a scheduler that starts no dissolve. *)
Definition steady (s s' : Scheduler) : Prop :=
  sched_ok s' ∧ (is_transitioning (playback s') = true → is_transitioning (playback s) = true).

Lemma steady_trans s s' s'' : steady s s' → (sched_ok s' → steady s' s'') → steady s s''.
Proof using. intros [H1 H2] H. destruct (H H1) as [H3 H4]. split; auto. Qed.

Lemma synchronize_steady clock m force c p : sound p → HeicWorkerProofs.selects p →
  ∃ c' p' o, synchronize_inner clock m force c p = Some (c', p', o)
    ∧ sound p' ∧ HeicWorkerProofs.selects p' ∧ (is_transitioning p' = true → is_transitioning p = true).
Proof using.
  intros Hs Hp. destruct (HeicWorkerProofs.synchronize_selects clock m force c p Hp) as (c' & p' & o & E & Hp').
  exists c', p', o. split; [done|]. apply synchronize_spec in E as (_ & Hk & _).
  split; [by eapply sound_kept|]. split; [done|]. by apply kept_transitioning.
Qed.

Lemma synchronize_now_steady clock m disc c s : sched_ok s →
  ∃ c' s' b, synchronize_now clock m disc c s = Some (c', s', b) ∧ steady s s'.
Proof using.
  intros [H1 H2]. destruct (synchronize_steady clock m disc c (playback s) H1 H2) as (c' & p' & o & E & H3 & H4 & H5).
  unfold synchronize_now. assert ((if disc then resynchronize_after_discontinuity clock m c (playback s)
     else synchronize clock m c (playback s)) = Some (c', p', o)) as -> by by destruct disc.
  eexists _, _, _. split; [done|]. by split.
Qed.
Lemma synchronize_if_due_steady clock m c s : sched_ok s →
  ∃ c' s' o, synchronize_if_due clock m c s = Some (c', s', o) ∧ steady s s'.
Proof using.
  intros Hs. pose proof Hs as [H1 H2]. unfold synchronize_if_due. destruct (negb _); [by eexists _, _, _|].
  destruct (synchronize_steady clock m false c (playback s) H1 H2) as (c' & p' & o & E & H3 & H4 & H5).
  unfold synchronize. rewrite E. eexists _, _, _. split; [done|]. by split.
Qed.
Lemma advance_steady m s d : sched_ok s → steady s (mkScheduler (advance_transition m (playback s)).1 d).
Proof using.
  intros [H1 H2]. split; [split; cbn; [by apply advance_sound|]|apply advance_transitioning].
  eapply HeicWorkerProofs.selects_mode, H2. apply HeicWorkerProofs.advance_mode.
Qed.
Lemma prepare_presentation_steady clock m disc c s : sched_ok s →
  ∃ c' s' b, prepare_presentation clock m disc c s = Some (c', s', b) ∧ steady s s'.
Proof using.
  intros Hs. destruct (synchronize_now_steady clock m disc c s Hs) as (c' & s' & b & E & Hs').
  unfold prepare_presentation. rewrite E. cbn [mbind option_bind].
  pose proof (advance_steady m s' (next_synchronize s')) as Ha.
  destruct (advance_transition m (playback s')) as [p a]. eexists _, _, _. split; [done|]. by eapply steady_trans.
Qed.
Lemma apply_solar_schedule_steady l clock m c s : l ≠ [] → sched_ok s →
  ∃ c' s' o, apply_solar_schedule l clock m c s = Some (c', s', o) ∧ steady s s'.
Proof using.
  intros Hl [H1 H2]. unfold apply_solar_schedule, set_solar_schedule.
  destruct (synchronize_steady clock m false c (set_mode (Time (sorted_time_points l)) (playback s)))
    as (c' & p' & o & E & H3 & H4 & H5).
  - destruct H1. by split.
  - cbn. intros E. by apply Hl, sorted_time_points_nil.
  - rewrite E. eexists _, _, _. split; [done|]. by split.
Qed.
Lemma take_steady s d : sched_ok s → steady s (mkScheduler (take_decode_request (playback s)).1 d).
Proof using.
  intros [H1 H2]. destruct (take_shown (playback s)) as (E1 & E2 & _). split; [split|]; cbn [playback].
  - eapply sound_kept, H1. by left.
  - eapply HeicWorkerProofs.selects_mode, H2. apply HeicWorkerProofs.take_mode.
  - unfold is_transitioning. by rewrite E2.
Qed.
Lemma decode_completes q f clock m disc cap c s : sched_ok s →
  ∃ c' s' o b, synchronize_and_complete_decode q f clock m disc cap c s = Some (c', s', o, b) ∧ sched_ok s'
    ∧ (is_transitioning (playback s') = true → is_transitioning (playback s) = true ∨ o = Transitioning).
Proof using.
  intros Hs. destruct (prepare_presentation_steady clock m disc c s Hs) as (c' & s' & b & E & [H1 H2] & H3).
  unfold synchronize_and_complete_decode, complete_decode. rewrite E. cbn [mbind option_bind].
  destruct (Playback.complete_decode _ _ _ _ _ _) as [[c2 p2] o] eqn:Ec. apply complete_spec in Ec as (Em & _ & H4 & H5).
  eexists _, _, _, _. split; [done|]. split; [split; cbn; [by apply H4|by eapply HeicWorkerProofs.selects_mode]|].
  cbn. intros Ht. destruct (H5 Ht); auto.
Qed.

(** ** The invariant *)

(** What the schedules of an opened document have. *)
Definition scheduled_metadata (m : Metadata) : Prop :=
  (∀ s, value (m_time m) = Some s → points s ≠ []) ∧ (∀ s, value (m_solar m) = Some s → points s ≠ []).
Hypothesis (Hdoc : ∀ m p, document = Some (m, p) → scheduled_metadata m).

Definition scheduling (r : Runtime) : bool := negb (is_none (scheduler r)).

Record base (r : Runtime) : Prop := {
  b_decoder : decoder_ok (scheduling r) (decoder r);
  b_scheduler s : scheduler r = Some s → sched_ok s;
  b_metadata m : r_metadata r = Some m → scheduled_metadata m;
  b_surfaces : Forall surface_ok (surfaces r);
  b_outputs : NoDup (output <$> surfaces r);
  b_layers : NoDup (layer <$> surfaces r);
  b_next : Forall (λ l, l < next_layer r) (layer <$> surfaces r);
}.
Definition dissolving (r : Runtime) : Prop := transitioning r = true → Forall moving (surfaces r).
Definition rinv (r : Runtime) : Prop := base r ∧ dissolving r.

(** The only error of the loop is a clock that cannot be read. *)
Definition clock_error : Stop := Failed (ERuntime "system clock is unavailable").
Definition good (Q : Runtime → Prop) (m : Main Runtime) : Prop :=
  match m with Ok r => Q r | Err e => e = clock_error end.

Lemma good_bind Q Q' m f : good Q m → (∀ r, Q r → good Q' (f r)) → good Q' (m ≫= f).
Proof using. destruct m as [r|e]; cbn; auto. Qed.
Lemma good_clock Q o f : (∀ c, good Q (f c)) → good Q (current_clock o ≫= f).
Proof using. intros H. destruct o; cbn; auto. Qed.

Lemma redraw_moving r : Forall moving (surfaces (redraw_all r)).
Proof using.
  apply Forall_fmap, Forall_true. intros s _ Hd. cbn in *. unfold playback_changed in *.
  destruct (disabled (presentation s)) eqn:E; [congruence|]. cbn. by rewrite orb_true_r.
Qed.
Lemma redraw_fields r : output <$> surfaces (redraw_all r) = output <$> surfaces r
  ∧ layer <$> surfaces (redraw_all r) = layer <$> surfaces r.
Proof using. cbn. by rewrite <- !list_fmap_compose. Qed.
Lemma redraw_base r : base r → base (redraw_all r).
Proof using.
  intros []. destruct (redraw_fields r) as [Eo El]. split; rewrite ?Eo, ?El; try done.
  apply Forall_fmap. eapply Forall_impl; [done|]. intros s. apply redraw_ok.
Qed.
Lemma redraw_if_inv b r : rinv r → rinv (redraw_if b r).
Proof using. intros [H1 H2]. destruct b; [|done]. split; [by apply redraw_base|]. intros _. apply redraw_moving. Qed.

Lemma scheduler_base c s s' r : scheduler r = Some s → sched_ok s' → base r → base (set_scheduler c (Some s') r).
Proof using.
  intros E Hs' []. unfold scheduling in *. rewrite E in *. split; cbn; try done. by intros s'' [= <-].
Qed.
Lemma scheduler_inv c s s' r : scheduler r = Some s → steady s s' → rinv r → rinv (set_scheduler c (Some s') r).
Proof using.
  intros E [Hs' Ht] [H1 H2]. split; [by eapply scheduler_base|]. unfold dissolving, transitioning in *. cbn.
  rewrite E in H2. auto.
Qed.

(** Fields that the invariant does not read. *)
Definition same_core (r r' : Runtime) : Prop :=
  decoder r' = decoder r ∧ scheduler r' = scheduler r ∧ r_metadata r' = r_metadata r
  ∧ surfaces r' = surfaces r ∧ next_layer r' = next_layer r.
Lemma same_core_inv r r' : same_core r r' → rinv r → rinv r'.
Proof using.
  intros (E1 & E2 & E3 & E4 & E5) [[] H]. unfold rinv, dissolving, transitioning, scheduling in *. split; [split|];
    unfold scheduling; rewrite ?E1, ?E2, ?E3, ?E4, ?E5; done.
Qed.
Lemma decoder_inv d r : decoder_ok (scheduling r) d → rinv r → rinv (set_decoder d r).
Proof using. intros Hd [[] H]. by split; [split|]. Qed.

Lemma sample_core o r : same_core r (sample o r).2.
Proof using. unfold sample. by destruct (HeicWorker.sample _ _). Qed.

Lemma dispatch_decode_inv n r : rinv r → good rinv (dispatch_decode document decode n r).
Proof using.
  intros Hr. unfold dispatch_decode.
  assert (rinv (set_decoder (advance document decode n (decoder r)) r)) as H1
    by (apply decoder_inv; [apply decoder_advance_ok, Hr|done]).
  set (d := advance document decode n (decoder r)) in *. set (r1 := set_decoder d r) in *. cbv zeta.
  destruct (in_flight d) eqn:Ef; [done|]. destruct (scheduler r1) as [s|] eqn:Es; [|done].
  pose proof (take_steady s (next_synchronize s) (b_scheduler _ (proj1 H1) s Es)) as Hs.
  destruct (take_decode_request (playback s)) as [p request]. cbn [fst] in Hs.
  pose proof (scheduler_inv (generations r1) s _ r1 Es Hs H1) as H2. destruct request as [q|]; [|done].
  pose proof (b_decoder _ (proj1 H2)) as Hd. destruct (dispatch_ok q d Hd Ef) as (d' & -> & Hd').
  cbn. by apply decoder_inv.
Qed.

Lemma new_ok md pr ap clock m rm c : scheduled_metadata md →
  ∃ c' p, new md pr ap clock m rm c = Some (c', p) ∧ sched_ok (scheduler_new p clock m)
    ∧ is_transitioning p = false.
Proof using.
  intros [Hm _]. unfold new, with_solar.
  assert (∀ l, l ≠ [] → ∃ s, selected_point (sorted_time_points l) clock = Some s) as Hsel.
  { intros l Hl. apply HeicWorkerProofs.selected_point_some. intros E. by apply Hl, sorted_time_points_nil. }
  assert (∃ mo sel, match select md ap false false with
      | SelTime schedule => s ← selected_point (sorted_time_points (points schedule)) clock;
                            Some (Time (sorted_time_points (points schedule)), tp_image s)
      | SelStatic i => Some (Static, i)
      | SelPrimary => Some (Static, pr)
      | SelSolar _ => None
      end = Some (mo, sel) ∧ match mo with Static => True | Time l => l ≠ [] end) as (mo & sel & E & Hmo).
  { unfold select. destruct ap.
    - destruct (value (m_time md)) as [s|] eqn:Es.
      + destruct (Hsel (points s) (Hm s eq_refl)) as [x Ex].
        assert (sorted_time_points (points s) ≠ []) as Hne by (intros E; by apply (Hm s eq_refl), sorted_time_points_nil).
        destruct (value (m_solar md)); cbn; rewrite Ex; by eexists _, _.
      + destruct (value (m_solar md)), (fallback_appearance md); cbn; by eexists _, _.
    - destruct (fallback_appearance md); cbn; by eexists _, _.
    - destruct (fallback_appearance md); cbn; by eexists _, _. }
  cbn [mbind option_bind] in E |- *. 
  match goal with |- context [mbind _ ?x] => assert (x = Some (mo, sel)) as -> by exact E end.
  cbn [mbind option_bind]. destruct (next_generation c) as [c' g]. eexists _, _. split; [done|].
  split; [|done]. split; [by split|]. unfold HeicWorkerProofs.selects. cbn. by destruct mo.
Qed.

Lemma synchronize_pass_inv t r : rinv r → good rinv (synchronize_pass document decode t r).
Proof using.
  intros Hr. unfold synchronize_pass. destruct (check_clock r).
  - assert (rinv (set_check_clock false r)) as H1 by (by eapply same_core_inv, Hr).
    pose proof (sample_core (sync_offset t) (set_check_clock false r)) as H2.
    destruct (sample _ _) as [disc r1]. cbn in H2. apply (same_core_inv _ _ H2) in H1. clear Hr H2.
    unfold synchronize_resumed. apply good_clock. intros clock.
    apply (good_bind rinv); [|intros r2; apply dispatch_decode_inv].
    destruct (scheduler r1) as [s|] eqn:Es; [|done].
    destruct (synchronize_now_steady clock (sync_time t).2 disc (generations r1) s) as (c' & s' & b & -> & Hs);
      [by apply H1|]. cbn. apply redraw_if_inv. by eapply scheduler_inv.
  - unfold synchronize_due. destruct (sync_time t) as [clock monotonic].
    destruct (scheduler r) as [s|] eqn:Es; [|done]. destruct (due _ _); [|done]. apply good_clock. intros c.
    destruct (synchronize_if_due_steady c monotonic (generations r) s) as (c' & s' & o & -> & Hs); [by apply Hr|].
    cbn [panics ok_or mbind result_bind]. apply dispatch_decode_inv, redraw_if_inv. by eapply scheduler_inv.
Qed.

Lemma receive_result_inv t r : rinv r → good rinv (receive_result document decode t r).
Proof using Hdoc.
  intros Hr. unfold receive_result.
  destruct (receive_ok _ _ (decoder_advance_ok _ (progress t 1) _ (b_decoder _ (proj1 Hr)))) as (x & d & -> & Hx).
  cbn [fails mbind result_bind]. destruct x as [[md pr| |q f]|].
  - destruct Hx as (Ed & Esched & Hd). cbn [take_result]. apply good_clock. intros clock.
    destruct (new_ok md pr (appearance r) clock (result_time t).2 (r_reduced_motion r) (generations r) (Hdoc _ _ Ed))
      as (c & p & E & Hs & Htr). cbn [appearance set_decoder r_reduced_motion generations]. rewrite E.
    cbn [panics ok_or mbind result_bind]. apply dispatch_decode_inv. destruct Hr as [[] _]. split.
    + split; cbn; try done; [by intros s [= <-]|]. intros m [= <-]. by eapply Hdoc.
    + unfold dissolving, transitioning. cbn. by rewrite Htr.
  - destruct Hx as [Esched Hd]. cbn. apply decoder_inv; [by rewrite Esched|done].
  - destruct Hx as (-> & Esched & Hd). cbn [take_result]. apply good_clock. intros clock.
    assert (rinv (set_decoder d r)) as H1 by (apply decoder_inv; [by rewrite Esched|done]).
    pose proof (sample_core (result_offset t) (set_decoder d r)) as H2.
    destruct (sample _ _) as [disc r1]. cbn [snd] in H2.
    assert (scheduling r1 = true) as Esched1 by (destruct H2 as (_ & E & _); unfold scheduling; rewrite E; exact Esched).
    apply (same_core_inv _ _ H2) in H1. clear H2.
    unfold scheduling in Esched1. destruct (scheduler r1) as [s|] eqn:Es; [|done].
    cbn [panics ok_or mbind result_bind].
    destruct (decode_completes q (decode (image q)) clock (result_time t).2 disc (blend_buffer t) (generations r1) s)
      as (c & s' & o & b & -> & Hs & Ht); [by apply H1|].
    cbn [panics ok_or mbind result_bind]. apply dispatch_decode_inv.
    assert (base (redraw_if b (set_scheduler c (Some s') r1))) as Hb.
    { pose proof (scheduler_base c s s' r1 Es Hs (proj1 H1)) as H. destruct b; [by apply redraw_base|done]. }
    assert (o ≠ Transitioning → rinv (redraw_if b (set_scheduler c (Some s') r1))) as Hno.
    { intros Ho. apply redraw_if_inv. eapply scheduler_inv; [done| |done]. split; [done|].
      intros Htr. by destruct (Ht Htr). }
    assert (rinv (redraw_all (redraw_if b (set_scheduler c (Some s') r1)))) as Hyes.
    { split; [by apply redraw_base|]. intros _. apply redraw_moving. }
    destruct o; try exact Hyes; by apply Hno.
  - subst d. cbn. apply decoder_inv; [|done]. apply decoder_advance_ok, Hr.
Qed.

Lemma on_solar_core f r : same_core r (on_solar f r).
Proof using. done. Qed.
Lemma on_solar_inv f r : rinv r → rinv (on_solar f r).
Proof using. apply same_core_inv, on_solar_core. Qed.

Lemma map_solar_points m l clock ps : scheduled_metadata m → map_solar libm m l clock = Some ps → ps ≠ [].
Proof using.
  intros [_ Hm] H. unfold map_solar in H. apply bind_Some in H as (s & Es & H).
  apply bind_Some in H as (loc & _ & H). pose proof (Solar.solar_points_land libm loc s clock) as Hl.
  destruct (Solar.map_schedule libm s loc clock) as [mapped|]; [|done]. injection H as <-.
  destruct Hl as (b & _ & Hl%Forall2_length). intros ->. apply (Hm s Es). by apply nil_length_inv.
Qed.

Lemma install_solar_mapping_inv time n r : rinv r → good rinv (install_solar_mapping libm document decode time n r).
Proof using.
  intros Hr. unfold install_solar_mapping. destruct (negb _); [done|].
  destruct (location (solar r)) as [l|]; [|done]. destruct (r_metadata r) as [m|] eqn:Em; [|done].
  apply good_clock. intros clock. cbv zeta.
  set (r1 := on_solar _ r). assert (rinv r1) as H1 by by apply on_solar_inv.
  destruct (map_solar libm m l clock) as [ps|] eqn:Ep; [|done].
  apply map_solar_points in Ep; [|by eapply b_metadata; [apply Hr|]].
  apply (good_bind rinv); [|intros r2; apply dispatch_decode_inv].
  destruct (scheduler r1) as [s|] eqn:Es; [|done].
  destruct (apply_solar_schedule_steady ps clock time.2 (generations r1) s Ep) as (c & s' & o & -> & Hs); [by apply H1|].
  cbn. apply redraw_if_inv. by eapply scheduler_inv.
Qed.

Lemma receive_solar_inv fuel n t r : rinv r → good rinv (receive_solar libm document decode fuel n t r).
Proof using.
  revert n r. induction fuel as [|fuel IH]; intros n r Hr; [done|]. cbn [receive_solar].
  destruct (solar_resolver (solar r)) as [x|]; [|done]. destruct (resolver_receive _) as [res x'].
  assert (rinv (on_solar (set_resolver (Some x')) r)) as H1 by by apply on_solar_inv.
  destruct res as [res|]; [|done]. apply (good_bind rinv); [|intros r2; apply IH].
  destruct res as [l|e]; cbn [take_solar_result]; [|by apply on_solar_inv].
  destruct (match location _ with None => true | Some _ => _ end);
    [apply install_solar_mapping_inv|]; by apply on_solar_inv.
Qed.

Lemma maintain_solar_inv t r : rinv r → good rinv (maintain_solar libm document decode t r).
Proof using.
  intros Hr. unfold maintain_solar. destruct (negb _); [done|].
  apply (good_bind rinv); [by apply receive_solar_inv|]. clear r Hr. intros r Hr. destruct (_ || _); [done|].
  assert (rinv (spawn_resolver t r).1) as H1.
  { unfold spawn_resolver. destruct (_ && _); [|done]. destruct (spawned t); by apply on_solar_inv. }
  destruct (spawn_resolver t r) as [r1 gave_up]. cbn in H1. destruct gave_up; [done|].
  assert (rinv (request_location t r1)) as H2.
  { unfold request_location, dispatch_solar. destruct (_ && _); [|done].
    destruct (solar_resolver _); [|by apply on_solar_inv]. destruct (resolver_dispatch _). by repeat apply on_solar_inv. }
  unfold check_mapping. destruct (reached _ _); [|done]. apply good_clock. intros clock.
  destruct (solar_mapping_due _ _ _ _ _); [apply install_solar_mapping_inv|]; by apply on_solar_inv.
Qed.

Lemma prepare_pass_inv t r : rinv r → good rinv (prepare_pass document decode t r).
Proof using.
  intros Hr. unfold prepare_pass. destruct (scheduler r) as [s|] eqn:Es; [|done]. destruct (has_work r); [|done].
  apply good_clock. intros clock. pose proof (sample_core (present_offset t) r) as H2.
  destruct (sample _ _) as [disc r1]. cbn [snd] in H2.
  assert (scheduler r1 = Some s) as Es1 by (destruct H2 as (_ & -> & _); done).
  pose proof (same_core_inv _ _ H2 Hr) as H1.
  destruct (prepare_presentation_steady clock (present_time t).2 disc (generations r1) s) as (c & s' & b & -> & Hs); [by apply Hr|].
  cbn [panics ok_or mbind result_bind]. apply dispatch_decode_inv, redraw_if_inv. by eapply scheduler_inv.
Qed.

Lemma present_pass_inv t r : rinv r →
  good (λ r', rinv r' ∧ (transitioning r' = true → Forall settled (surfaces r'))) (present_pass t r).
Proof using.
  intros [[] Hd]. unfold present_pass.
  destruct (present_all_ok (shown_frame r) (transitioning r) (draws t) (surfaces r)) as (ss & -> & Hss & Eo & El & Hm).
  - intros x Hx. unfold shown_frame in Hx. apply bind_Some in Hx as (s & Es & Hx).
    eapply sound_frame; [|done]. by apply b_scheduler0.
  - done.
  - cbn. split; [split; [split; cbn; rewrite ?Eo, ?El; done|]|].
    + intros Ht. eapply Forall_impl; [apply Hm; [done|by apply Hd]|]. apply settled_moving.
    + intros Ht. by apply Hm; [|apply Hd].
Qed.

Lemma maintain_inv t r : rinv r →
  good (λ r', rinv r' ∧ (transitioning r' = true → Forall settled (surfaces r'))) (maintain libm document decode t r).
Proof using Hdoc.
  intros Hr. unfold maintain.
  apply (good_bind rinv); [by apply synchronize_pass_inv|]. clear r Hr. intros r Hr.
  apply (good_bind rinv); [by apply receive_result_inv|]. clear r Hr. intros r Hr.
  apply (good_bind rinv); [by apply maintain_solar_inv|]. clear r Hr. intros r Hr.
  apply (good_bind rinv); [by apply prepare_pass_inv|]. clear r Hr. intros r Hr. by apply present_pass_inv.
Qed.

(** *** Events *)

Lemma update_first_spec p f ss :
  match update_first p f ss with
  | None => Forall (λ s, p s = false) ss
  | Some ss' => ∃ l s r, ss = l ++ s :: r ∧ ss' = l ++ f s :: r ∧ p s = true
  end.
Proof using.
  induction ss as [|s ss IH]; cbn; [done|]. destruct (p s) eqn:E; [by exists [], s, ss|].
  destruct (update_first p f ss) as [ss'|]; cbn; [|by constructor].
  destruct IH as (l & x & r & -> & -> & Hx). by exists (s :: l), x, r.
Qed.

(** A change of one surface. *)
Definition tame_to (s s' : Surface) : Prop :=
  output s' = output s ∧ layer s' = layer s ∧ (surface_ok s → surface_ok s') ∧ (moving s → moving s').
Definition tame (f : Surface → Surface) : Prop := ∀ s, tame_to s (f s).

Lemma update_inv p f ss r : tame f → update_first p f (surfaces r) = Some ss → rinv r → rinv (set_surfaces ss r).
Proof using.
  intros Hf E [[] Hd]. pose proof (update_first_spec p f (surfaces r)) as H. rewrite E in H.
  destruct H as (l & s & rest & Er & -> & _). destruct (Hf s) as (Eo & El & Hok & Hmv).
  rewrite Er in *. apply Forall_app in b_surfaces0 as [S1 S2]. apply Forall_cons in S2 as [S2 S3].
  rewrite !fmap_app in *. cbn [fmap list_fmap] in *. split.
  - split; cbn; rewrite ?fmap_app; cbn; rewrite ?Eo, ?El; try done. apply Forall_app; auto.
  - intros Ht. specialize (Hd Ht). cbn. rewrite Er in Hd. apply Forall_app in Hd as [D1 D2].
    apply Forall_cons in D2 as [D2 D3]. apply Forall_app; auto.
Qed.

Lemma filter_inv p r : rinv r → rinv (set_surfaces (List.filter p (surfaces r)) r).
Proof using.
  intros [[] Hd].
  assert (∀ (P : Surface → Prop) ss, Forall P ss → Forall P (List.filter p ss)) as Hall.
  { intros P ss H. rewrite Forall_forall in *. intros s Hs%list_elem_of_In. apply filter_In in Hs as [Hs _].
    by apply H, list_elem_of_In. }
  assert (∀ (g : Surface → Z) ss, NoDup (g <$> ss) → NoDup (g <$> List.filter p ss)) as Hnd.
  { intros g ss. induction ss as [|s ss IH]; [done|]. cbn. intros [Hn Hr]%NoDup_cons. destruct (p s); cbn; [|auto].
    apply NoDup_cons. split; [|auto]. intros (x & Ex & Hx)%list_elem_of_fmap. apply Hn.
    apply list_elem_of_In, filter_In in Hx as [Hx _]. rewrite Ex. by apply list_elem_of_fmap_2, list_elem_of_In. }
  split; [split|]; cbn; auto.
  - apply Forall_fmap, Hall. by apply Forall_fmap in b_next0.
  - intros Ht. by apply Hall, Hd.
Qed.

Lemma new_geometry_tame s s' :
  output s' = output s → layer s' = layer s → (surface_ok s → surface_ok s') → tame_to s (new_geometry s').
Proof using.
  intros Eo El H. split; [done|]. split; [done|]. split; [intros; by apply new_geometry_ok; auto|].
  intros _ _ _. cbn. by rewrite orb_true_r.
Qed.

Lemma mode_size_nonneg d sc tr w h : mode_logical_size d sc tr = Some (w, h) → 0 ≤ w ∧ 0 ≤ h.
Proof using.
  unfold mode_logical_size. destruct (match tr with Normal => _ | _ => _ end) as [a b].
  destruct (_ && _); [|done]. intros [= <- <-]. lia.
Qed.
Lemma output_size_nonneg i w h : output_logical_size i = Some (w, h) → 0 ≤ w ∧ 0 ≤ h.
Proof using.
  unfold output_logical_size. intros H.
  destruct (logical_size i) as [[a b]|].
  - destruct (_ && _) eqn:E; [injection H as <- <-; simp_bool; lia|]. apply bind_Some in H as (m & _ & H).
    by eapply mode_size_nonneg.
  - apply bind_Some in H as (m & _ & H). by eapply mode_size_nonneg.
Qed.
Lemma configure_size_nonneg hints prev out w h :
  (∀ a b, Some hints = Some (a, b) → 0 ≤ a ∧ 0 ≤ b) → (∀ a b, prev = Some (a, b) → 0 ≤ a ∧ 0 ≤ b) →
  (∀ a b, out = Some (a, b) → 0 ≤ a ∧ 0 ≤ b) → resolve_configure_size hints prev out = Some (w, h) → 0 ≤ w ∧ 0 ≤ h.
Proof using.
  intros H1 H2 H3 H. unfold resolve_configure_size in H. destruct hints as [a b]. destruct (H1 a b eq_refl).
  apply bind_Some in H as (x & Hx & H). apply bind_Some in H as (y & Hy & [= <- <-]). cbn [fst snd] in *.
  assert (∀ c d, DesktopSurface.or out prev = Some (c, d) → 0 ≤ c ∧ 0 ≤ d) as Hf.
  { intros c d. unfold DesktopSurface.or. destruct out as [[? ?]|]; auto. }
  split.
  - destruct (negb (a =? 0)); [by injection Hx as <-|]. cbn [DesktopSurface.or] in Hx.
    apply fmap_Some in Hx as ([c d] & Hc & ->). by destruct (Hf c d Hc).
  - destruct (negb (b =? 0)); [by injection Hy as <-|]. cbn [DesktopSurface.or] in Hy.
    apply fmap_Some in Hy as ([c d] & Hc & ->). by destruct (Hf c d Hc).
Qed.

Lemma set_geometry_ok sz sc g s : (∀ w h, sz = Some (w, h) → 0 ≤ w ∧ 0 ≤ h) → surface_ok s → surface_ok (set_geometry sz sc g s).
Proof using. intros H []. by split. Qed.

Lemma refresh_tame info : tame (refresh_surface_geometry info true).
Proof using.
  intros s. unfold refresh_surface_geometry. destruct (configure_hints s) as [hints|] eqn:Eh; [|done].
  destruct (resolve_configure_size _ _ _) as [[w h]|] eqn:Er; [|done].
  set (s1 := if negb _ then _ else s).
  assert (output s1 = output s ∧ layer s1 = layer s ∧ (surface_ok s → surface_ok s1)) as (Eo & El & Hok).
  { unfold s1. destruct (negb _); [|done]. split; [done|]. split; [done|]. intros Hs. apply set_geometry_ok; [|done].
    intros a b [= <- <-]. eapply configure_size_nonneg; [| |  |exact Er].
    - rewrite <- Eh. apply Hs.
    - apply Hs.
    - intros a b Ho. apply bind_Some in Ho as (i & _ & Ho). by eapply output_size_nonneg. }
  by apply new_geometry_tame.
Qed.

Lemma handle_inv e r : event_ok e → rinv r → rinv (handle e r).
Proof using.
  intros He Hr.
  assert (∀ l f, tame f → rinv (on_layer l f r)) as Hon.
  { intros l f Hf. unfold on_layer. destruct (update_first _ _ _) eqn:E; [|done]. by eapply update_inv. }
  destruct e as [o info|o|l|l [w h] info|l sc|l|l|]; cbn [handle].
  - unfold add_surface. pose proof (update_first_spec (λ s, output s =? o) (refresh_surface_geometry info true) (surfaces r)) as Hu.
    destruct (update_first _ _ _) eqn:E; [eapply update_inv; [apply (refresh_tame info)|exact E|done]|].
    destruct Hr as [[] Hd]. split; [split|]; cbn; rewrite ?fmap_app; cbn; try done.
    + apply Forall_app. split; [done|]. apply Forall_singleton, surface_ok_new.
    + apply NoDup_app. split; [done|]. split; [|apply NoDup_singleton].
      intros x (s & -> & Hs)%list_elem_of_fmap Ex%list_elem_of_singleton.
      rewrite Forall_forall in Hu. specialize (Hu s Hs). cbv beta in Hu. apply Z.eqb_neq in Hu. done.
    + apply NoDup_app. split; [done|]. split; [|apply NoDup_singleton].
      intros x Hx ->%list_elem_of_singleton. rewrite Forall_forall in b_next0. specialize (b_next0 _ Hx). lia.
    + apply Forall_app. split; [|apply Forall_singleton; lia]. eapply Forall_impl; [done|]. cbn. lia.
    + intros Ht. apply Forall_app. split; [by apply Hd|]. apply Forall_singleton. by intros [? ?].
  - by apply filter_inv.
  - by apply filter_inv.
  - unfold configured. destruct (update_first _ _ _) eqn:E; [|by eapply same_core_inv, Hr].
    eapply update_inv; [|exact E|done]. intros s.
    destruct (refresh_tame info (set_hints (Some (w, h)) s)) as (Eo & El & Hok & Hm).
    assert (surface_ok s → surface_ok (set_hints (Some (w, h)) s)) as Hh.
    { intros []. split; cbn; try done. by intros a b [= <- <-]. }
    split; [done|]. split; [done|]. split; auto.
  - apply Hon. intros s. unfold change_scale. destruct (_ =? _); [done|].
    apply new_geometry_tame; [done..|]. intros Hs. apply set_geometry_ok; [apply Hs|done].
  - apply Hon. intros s. apply new_geometry_tame; [done..|]. intros Hs. apply set_geometry_ok; [apply Hs|done].
  - apply Hon. intros s. split; [done|]. split; [done|]. split.
    + intros []. split; cbn; try done. rewrite so_callbacks0. by destruct (frame_pending _).
    + intros _ _ Hdis. cbn in *. rewrite Hdis. cbn. by rewrite orb_true_r.
  - by eapply same_core_inv, Hr.
Qed.

Lemma step_inv r r' : rinv r → step libm document decode r r' → rinv r'.
Proof using Hdoc.
  intros Hr Hs. destruct Hs as [r e He _|r n|r x answers _|r r' t E].
  - by apply handle_inv.
  - apply decoder_inv; [apply decoder_advance_ok, Hr|done].
  - by apply on_solar_inv.
  - pose proof (maintain_inv t r Hr) as H. rewrite E in H. apply H.
Qed.

Lemma runtime_new_inv ap rm sol off gens : rinv (runtime_new ap rm sol off gens).
Proof using. split; [|by intros ?]. split; cbn; try done; constructor. Qed.

Lemma runs_inv ap rm sol off gens r :
  rtc (step libm document decode) (runtime_new ap rm sol off gens) r → rinv r.
Proof using Hdoc.
  intros H. pose proof (runtime_new_inv ap rm sol off gens) as H0. revert H0.
  induction H as [|x y z Hxy _ IH]; [done|]. intros Hx. by apply IH, (step_inv x).
Qed.
End Runs.

(** ** Properties *)

(** C22.  The desktop wallpaper keeps running: whatever the compositor tells and in
    whatever order the decoder and location threads run, however long they
    take, whatever the file holds and the renderer refuses, no pass of the loop
    panics or ends, unless the system clock cannot be read: the request
    channel is never full, the decoder thread is never missed, no schedule is
    empty, nothing is drawn out of range. *)
Theorem desktop_keeps_running libm document decode ap rm sol off gens r t e :
  (∀ m p, document = Some (m, p) → scheduled_metadata m) →
  rtc (step libm document decode) (runtime_new ap rm sol off gens) r →
  maintain libm document decode t r = Err e → e = clock_error.
Proof.
  intros Hdoc Hr%runs_inv E; [|done]. pose proof (maintain_inv libm document decode Hdoc t r Hr) as H.
  by rewrite E in H.
Qed.

(** In every run an output has one surface and a layer surface one owner; a
    surface has one frame callback outstanding at most, and its state says
    which; it keeps two buffers at most, of at most 16384 pixels a side and
    256 MiB. *)
Theorem desktop_surfaces_bounded libm document decode ap rm sol off gens r :
  (∀ m p, document = Some (m, p) → scheduled_metadata m) →
  rtc (step libm document decode) (runtime_new ap rm sol off gens) r →
  NoDup (output <$> surfaces r) ∧ NoDup (layer <$> surfaces r) ∧ Forall surface_ok (surfaces r).
Proof. intros Hdoc Hr%runs_inv; [|done]. destruct Hr as [[] _]. done. Qed.


(** ** Witnesses

    A wallpaper on one output over a boundary of its schedule. *)

Definition plain : Solar.Libm :=
  Solar.mkLibm (λ x, x) (λ x, x) (λ x, x) (λ x, x) (λ x, x) (λ x _, x).
Definition evening : Metadata := mkMetadata (Valid (mkSchedule two_points None)) Missing Missing.
Definition example_decode (i : ImageReference) : option RgbaFrame := Some (pixel (10 + i)).
Definition example_turn (clock : option ClockSnapshot) (m : Z) : Turn :=
  mkTurn (clock, m) None (λ _, 3%nat) (clock, m) None (Some 4) (λ _, []) (λ _, 0) (λ _, (clock, m)) false clock
    (clock, m) None (λ _, mkDraw (λ _, false) 1 None None None).
Definition noon : Z := from_secs 100000.
Definition example_turns : list Turn :=
  [example_turn (Some (at_time 17 59 59)) noon; example_turn (Some (at_time 17 59 59)) noon;
   example_turn (Some (at_time 18 0 0)) (noon + NANOS)].
Definition on_one_output : Runtime :=
  handle (EConfigure 0 (1, 1) None) (handle (EOutput 7 None) (runtime_new Automatic false false None 1)).

Fixpoint example_passes (ts : list Turn) (r : Runtime) : Main Runtime :=
  match ts with
  | [] => Ok r
  | t :: ts => r ← maintain plain (Some (evening, 9)) example_decode t r; example_passes ts r
  end.

Lemma evening_scheduled m p : Some (evening, 9) = Some (m, p) → scheduled_metadata m.
Proof. intros [= <- _]. by split; [intros s [= <-]|]. Qed.
Lemma example_passes_steps ts r r' : example_passes ts r = Ok r' →
  rtc (step plain (Some (evening, 9)) example_decode) r r'.
Proof.
  revert r. induction ts as [|t ts IH]; intros r H; [by injection H as <-|].
  cbn in H. apply bind_Ok in H as (r1 & E & H). eapply rtc_l; [by eapply step_maintain|by apply IH].
Qed.
Lemma on_one_output_steps :
  rtc (step plain (Some (evening, 9)) example_decode) (runtime_new Automatic false false None 1) on_one_output.
Proof.
  eapply rtc_l; [apply (step_event _ _ _ _ (EOutput 7 None)); [done|by intros]|].
  apply rtc_once, (step_event _ _ _ _ (EConfigure 0 (1, 1) None)); [done|by intros].
Qed.

Lemma desktop_keeps_running_witness :
  maintain plain (Some (evening, 9)) example_decode (example_turn None noon) on_one_output = Err clock_error.
Proof.
  destruct (maintain plain (Some (evening, 9)) example_decode (example_turn None noon) on_one_output) as [r|e] eqn:E;
    [exfalso; vm_compute in E; discriminate E|].
  f_equal. exact (desktop_keeps_running _ _ _ _ _ _ _ _ _ _ _ evening_scheduled on_one_output_steps E).
Defined.

Lemma desktop_surfaces_bounded_witness : ∃ s, surfaces on_one_output = [s] ∧ surface_ok s.
Proof.
  eexists. split; [vm_compute; reflexivity|].
  destruct (desktop_surfaces_bounded _ _ _ _ _ _ _ _ _ evening_scheduled on_one_output_steps) as (_ & _ & H).
  exact (Forall_inv H).
Defined.

