(* ===== verification/DesktopLocation.v ===== *)
(** * When the desktop wallpaper asks where it is

    The location thread and its owner, in every interleaving: what may be asked
    of the location service. *)

From S2P Require Import Prelude DynamicModel Playback Desktop.
From S2P Require Solar Geoclue.

(** What a run does with the location service depends on these four. *)
Record Core := mkCore {
  core_appearance : AppearancePreference;
  core_enabled : bool;
  core_resolver : option SolarResolver;
  core_terminal : bool;
}.
Definition core (r : Runtime) : Core :=
  mkCore (appearance r) (solar_enabled (solar r)) (solar_resolver (solar r)) (solar_terminal (solar r)).

Definition with_resolver (x : SolarResolver) (c : Core) : Core :=
  mkCore (core_appearance c) (core_enabled c) (Some x) (core_terminal c).
Definition terminal (c : Core) : Core :=
  mkCore (core_appearance c) (core_enabled c) (core_resolver c) true.
Definition permitted (c : Core) : Prop :=
  permits_solar (core_appearance c) = true ∧ core_enabled c = true ∧ core_terminal c = false.

(** An answer after which the service is not to be asked again. *)
Definition refuses (x : SolarResult) : bool := match x with LocationFailed e => refusal e | Located _ => false end.

(** The steps that change them. *)
Inductive core_step (c : Core) : Core → Prop :=
| c_locate x answers : core_resolver c = Some x → core_step c (with_resolver (locator_advance answers x) c)
| c_receive x : core_resolver c = Some x → (∀ res, (resolver_receive x).1 = Some res → refuses res = false) →
    core_step c (with_resolver (resolver_receive x).2 c)
| c_deny x : core_resolver c = Some x → is_Some (resolver_receive x).1 →
    core_step c (terminal (with_resolver (resolver_receive x).2 c))
| c_spawn : permitted c → core_resolver c = None → core_step c (with_resolver resolver_spawn c)
| c_give_up : core_resolver c = None → core_step c (terminal c)
| c_dispatch x : permitted c → core_resolver c = Some x → locating x = false →
    core_step c (let '(sent, x) := resolver_dispatch x in
                 if sent then with_resolver x c else terminal (with_resolver x c)).

(** Every state of the thread and its owner: one command or one answer at most
    is anywhere, unless the thread could not start. *)
Inductive resolver_ok (n : nat) (d : bool) : SolarResolver → Prop :=
| l_building c : resolver_ok n d (mkResolver c None Building c n d)
| l_commanded c : resolver_ok n d (mkResolver c None Commanded c n d)
| l_requesting : resolver_ok n d (mkResolver false None Requesting true n d)
| l_answering x : resolver_ok n d (mkResolver false None (Answering x false) true n d)
| l_answered x : resolver_ok n d (mkResolver false (Some x) Commanded true n d)
| l_failing x c : resolver_ok n d (mkResolver c None (Answering x true) c n d)
| l_failed x c : resolver_ok n d (mkResolver c (Some x) LocatorGone c n d)
| l_gone c l : resolver_ok n d (mkResolver c None LocatorGone l n d).
#[local] Hint Constructors resolver_ok : core.
Definition wf_resolver (x : SolarResolver) : Prop := resolver_ok (asked x) (refused x) x.

(** No request can be made any more unless a command is sent. *)
Definition quiet (x : SolarResolver) : Prop :=
  commands x = false ∨ match locator x with LocatorGone | Answering _ true => True | _ => False end.

(** A refusal is on its way to the owner, who waits for it. *)
Definition refusing (x : SolarResolver) : Prop :=
  locating x = true ∧ commands x = false ∧
  match located x, locator x with
  | Some res, (Commanded | LocatorGone) | None, Answering res _ => refuses res = true
  | _, _ => False
  end.

Lemma resolver_ok_asked n d x : resolver_ok n d x → asked x = n ∧ refused x = d.
Proof. by destruct 1. Qed.

(** What the thread does changes [asked] in no quiet state, and [refused] only
    when a refusal goes on its way. *)
Definition continues (x x' : SolarResolver) : Prop :=
  (quiet x → quiet x' ∧ asked x' = asked x)
  ∧ (refusing x → refusing x' ∧ asked x' = asked x)
  ∧ (refused x' = true → refused x = true ∨ refusing x').

Lemma locator_step_ok a n d x x' : resolver_ok n d x → locator_step a x = Some x' →
  (∃ n' d', resolver_ok n' d' x') ∧ continues x x'.
Proof.
  intros H E. unfold continues. destruct H as [[]|[]| |x|x|x []|x []|c l]; cbn in E; try discriminate E;
    try (destruct (runtime_built a)); try (destruct (city a) as [?|[]]); try (injection E as <-);
    (split; [by eauto|]); unfold quiet, refusing; cbn; rewrite ?orb_true_r, ?orb_false_r; naive_solver.
Qed.
Lemma locator_advance_ok answers n d x : resolver_ok n d x →
  (∃ n' d', resolver_ok n' d' (locator_advance answers x)) ∧ continues x (locator_advance answers x).
Proof.
  assert (∀ x, (∃ n' d', resolver_ok n' d' x) → (∃ n' d', resolver_ok n' d' x) ∧ continues x x) as Hsame.
  { intros y Hy. split; [done|]. unfold continues. naive_solver. }
  revert x n d. induction answers as [|a answers IH]; intros x n d Hx; [by apply Hsame; eauto|]. cbn.
  destruct (locator_step a x) as [x'|] eqn:E; [|by apply Hsame; eauto].
  destruct (locator_step_ok a _ _ x x' Hx E) as ((n1 & d1 & H1) & Q1 & R1 & S1).
  destruct (IH x' _ _ H1) as (H2 & Q2 & R2 & S2). split; [done|]. split_and!.
  - intros Hq. destruct (Q1 Hq) as [Hq1 <-]. by apply Q2.
  - intros Hq. destruct (R1 Hq) as [Hq1 <-]. by apply R2.
  - intros Hr. destruct (S2 Hr) as [Hr1|?]; [|by right]. destruct (S1 Hr1) as [?|Hr2]; [by left|]. right. by apply R2.
Qed.
Lemma answer_received n d x : resolver_ok n d x →
  resolver_ok n d (resolver_receive x).2 ∧ (quiet x → quiet (resolver_receive x).2)
  ∧ ((resolver_receive x).1 ≠ None → quiet (resolver_receive x).2)
  ∧ (refusing x → match (resolver_receive x).1 with
                  | Some res => refuses res = true | None => (resolver_receive x).2 = x end).
Proof.
  intros H. destruct H as [[]|[]| |x|x|x []|x []|c l]; cbn; (split; [by auto|]); unfold quiet, refusing; cbn; naive_solver.
Qed.
Lemma dispatch_quiet n d x : resolver_ok n d x → locating x = false →
  resolver_ok n d (resolver_dispatch x).2 ∧ ((resolver_dispatch x).1 = false → quiet (resolver_dispatch x).2).
Proof.
  intros H E. destruct H as [[]|[]| |x|x|x []|x []|c l]; try done; cbn; (split; [by auto|]); unfold quiet; cbn; try done; auto.
Qed.

(** How often the location service was asked, and whether it refused. *)
Definition core_asked (c : Core) : nat := match core_resolver c with Some x => asked x | None => 0 end.
Definition core_refused (c : Core) : bool := match core_resolver c with Some x => refused x | None => false end.

(** The service will not be asked any more. *)
Definition over (c : Core) : Prop := core_terminal c = true ∨ ∃ x, core_resolver c = Some x ∧ refusing x.

Record core_ok (c : Core) : Prop := {
  co_off : permits_solar (core_appearance c) = false ∨ core_enabled c = false → core_resolver c = None;
  co_resolver x : core_resolver c = Some x → ∃ n d, resolver_ok n d x;
  co_quiet x : core_terminal c = true → core_resolver c = Some x → quiet x;
  co_refused : core_refused c = true → over c;
}.

(** What every step keeps. *)
Definition carries_on (c c' : Core) : Prop :=
  core_ok c' ∧ core_appearance c' = core_appearance c ∧ core_enabled c' = core_enabled c
  ∧ (core_terminal c = true → core_terminal c' = true) ∧ (over c → over c' ∧ core_asked c' = core_asked c).

Lemma step_locate c x answers : core_ok c → core_resolver c = Some x →
  carries_on c (with_resolver (locator_advance answers x) c).
Proof.
  intros [Hoff Hok Hq Hr] E. destruct (Hok x E) as (n & d & Hx).
  destruct (locator_advance_ok answers n d x Hx) as (H1 & Q & R & S).
  set (y := locator_advance answers x) in *. unfold carries_on, over, core_asked. cbn. rewrite E.
  split; [|split; [done|split; [done|split; [done|]]]].
  - split; cbn; [intros H; by rewrite Hoff in E|by intros z [= <-]|intros z Ht [= <-]; by apply Q, Hq|].
    unfold core_refused, over in *. cbn. rewrite E in Hr. intros Hy. destruct (S Hy) as [Hx'|]; [|right; by eexists].
    destruct (Hr Hx') as [?|(z & [= <-] & Hz)]; [by left|]. right. eexists. split; [done|]. by apply R.
  - intros [Ht|(z & [= <-] & Hz)]; [split; [by left|by apply Q, Hq]|]. destruct (R Hz). split; [right; by eexists|done].
Qed.

Lemma step_receive c x : core_ok c → core_resolver c = Some x →
  (∀ res, (resolver_receive x).1 = Some res → refuses res = false) →
  carries_on c (with_resolver (resolver_receive x).2 c).
Proof.
  intros [Hoff Hok Hq Hr] E Hn. destruct (Hok x E) as (n & d & Hx). destruct (answer_received n d x Hx) as (H1 & Q & _ & R).
  destruct (resolver_ok_asked _ _ _ Hx) as [En Ed], (resolver_ok_asked _ _ _ H1) as [En1 Ed1].
  assert (refusing x → refusing (resolver_receive x).2) as R'.
  { intros Hf. specialize (R Hf). destruct (resolver_receive x) as [[res|] y]; cbn in *; [|by subst].
    by rewrite Hn in R. }
  set (y := (resolver_receive x).2) in *. unfold carries_on, over, core_asked. cbn. rewrite E.
  split; [|split; [done|split; [done|split; [done|]]]].
  - split; cbn; [intros H; by rewrite Hoff in E|intros z [= <-]; eauto|intros z Ht [= <-]; by apply Q, Hq|].
    unfold core_refused, over in *. cbn. rewrite E in Hr. rewrite Ed1, <- Ed. intros Hy.
    destruct (Hr Hy) as [?|(z & [= <-] & Hz)]; [by left|]. right. eexists. split; [done|]. by apply R'.
  - split; [|congruence]. destruct H as [Ht|(z & [= <-] & Hz)]; [by left|]. right. eexists. split; [done|]. by apply R'.
Qed.

Lemma step_deny c x : core_ok c → core_resolver c = Some x → is_Some (resolver_receive x).1 →
  carries_on c (terminal (with_resolver (resolver_receive x).2 c)).
Proof.
  intros [Hoff Hok Hq Hr] E [res Es]. destruct (Hok x E) as (n & d & Hx). destruct (answer_received n d x Hx) as (H1 & _ & Q & _).
  destruct (resolver_ok_asked _ _ _ Hx) as [En Ed], (resolver_ok_asked _ _ _ H1) as [En1 Ed1].
  rewrite Es in Q. specialize (Q ltac:(done)).
  unfold carries_on, over, core_asked. cbn. rewrite E. split; [|split; [done|split; [done|split; [done|]]]].
  - split; cbn; [intros H; by rewrite Hoff in E|intros z [= <-]; eauto|by intros z _ [= <-]|by left].
  - intros _. split; [by left|congruence].
Qed.

Lemma core_step_ok c c' : core_ok c → core_step c c' → carries_on c c'.
Proof.
  intros Hc Hs. destruct Hs as [x answers E|x E Hn|x E Hs|[Hp [He Ht]] E|E|x [Hp [He Ht]] E El].
  - by apply step_locate.
  - by apply step_receive.
  - by apply step_deny.
  - destruct Hc as [Hoff Hok Hq Hr]. unfold carries_on, over, core_asked. cbn. rewrite E.
    split; [|split; [done|split; [done|split; [done|]]]]; [|intros [?|(? & ? & _)]; congruence].
    split; cbn; [intros []; congruence|intros y [= <-]; exists 0%nat, false; apply l_building|congruence|done].
  - destruct Hc as [Hoff Hok Hq Hr]. unfold carries_on, over, core_asked. cbn. rewrite E.
    split; [|split; [done|split; [done|split; [done|]]]]; [|split; [by left|done]].
    split; cbn; [done|done|congruence|by left].
  - destruct Hc as [Hoff Hok Hq Hr]. destruct (Hok x E) as (n & d & Hx).
    destruct (dispatch_quiet n d x Hx El) as (H1 & H2). destruct (resolver_ok_asked _ _ _ Hx) as [En Ed].
    destruct (resolver_dispatch x) as [sent y]. cbn in H1, H2. destruct (resolver_ok_asked _ _ _ H1) as [En1 Ed1].
    assert (¬ over c) as Hnot by (intros [?|(z & Ez & [Hz _])]; congruence).
    assert (refused x = false) as Hf by (apply not_true_iff_false; intros Hf; apply Hnot, Hr; unfold core_refused; by rewrite E).
    assert (∀ c', core_appearance c' = core_appearance c → core_enabled c' = core_enabled c → core_resolver c' = Some y →
      (core_terminal c' = true → quiet y) → core_ok c') as Hgo.
    { intros c' E1 E2 E3 Hy. split; rewrite ?E1, ?E2, ?E3; [intros []; congruence|intros z [= <-]; eauto|intros z Hz [= <-]; auto|].
      unfold core_refused. rewrite E3, Ed1, <- Ed, Hf. done. }
    destruct sent; (split; [apply Hgo; cbn; try done; try congruence; auto|split; [done|split; [done|split; [done|by intros ?]]]]).
Qed.

Lemma core_steps_ok c c' : core_ok c → rtc core_step c c' → carries_on c c'.
Proof.
  intros Hc Hs. revert Hc. induction Hs as [|x y z Hxy _ IH]; [by intros ?; unfold carries_on; split_and!|]. intros Hx.
  destruct (core_step_ok x y Hx Hxy) as (Hy & E1 & E2 & T1 & H1). destruct (IH Hy) as (Hz & E3 & E4 & T2 & H2).
  split; [done|]. split; [congruence|]. split; [congruence|]. split; [auto|].
  intros Ho. destruct (H1 Ho) as [Ho' Ea]. destruct (H2 Ho') as [? Eb]. split; [done|congruence].
Qed.

(** ** The loop *)

Section Loop.
Context (libm : Solar.Libm).
Context (document : option (Metadata * ImageReference)) (decode : ImageReference → option RgbaFrame).

(** What a part of a pass does to the four: [R] relates them before and after. *)
Definition traces (R : relation Core) (r : Runtime) (m : Main Runtime) : Prop :=
  ∀ r', m = Ok r' → R (core r) (core r').

Notation stays := (traces eq).
Notation moves := (traces (rtc core_step)).

Lemma stays_Ok r r' : core r' = core r → stays r (Ok r').
Proof using. by intros E r'' [= <-]. Qed.
Lemma stays_core r r1 m : core r1 = core r → stays r1 m → stays r m.
Proof using. unfold traces. by intros ->. Qed.
Lemma stays_bind r m f : stays r m → (∀ r', stays r' (f r')) → stays r (m ≫= f).
Proof using. intros H Hf r'' (r' & E & E')%bind_Ok. etrans; [by apply H|by eapply Hf]. Qed.
Lemma moves_bind r m f : moves r m → (∀ r', moves r' (f r')) → moves r (m ≫= f).
Proof using. intros H Hf r'' (r' & E & E')%bind_Ok. etrans; [by apply H|by eapply Hf]. Qed.
Lemma traces_ok {A} R r (o : Main A) f : (∀ x, traces R r (f x)) → traces R r (o ≫= f).
Proof using. intros H. destruct o; [apply H|done]. Qed.
Lemma stays_moves r m : stays r m → moves r m.
Proof using. intros H r' E. by rewrite (H r' E). Qed.

Lemma redraw_if_core b r : core (redraw_if b r) = core r.
Proof using. by destruct b. Qed.
Lemma sample_same o r : core (sample o r).2 = core r.
Proof using. unfold sample. by destruct (HeicWorker.sample _ _). Qed.

Lemma dispatch_decode_traces n r : stays r (dispatch_decode document decode n r).
Proof using.
  unfold dispatch_decode. cbv zeta. destruct (in_flight _); [by apply stays_Ok|].
  destruct (scheduler _) as [s|]; [|by apply stays_Ok]. destruct (take_decode_request _) as [p [q|]]; [|by apply stays_Ok].
  apply traces_ok. intros d. by apply stays_Ok.
Qed.
Lemma redispatch b n r r1 : core r1 = core r → stays r (dispatch_decode document decode n (redraw_if b r1)).
Proof using. intros E. eapply stays_core, dispatch_decode_traces. by rewrite redraw_if_core. Qed.

Lemma synchronize_pass_traces t r : stays r (synchronize_pass document decode t r).
Proof using.
  unfold synchronize_pass. destruct (check_clock r).
  - pose proof (sample_same (sync_offset t) (set_check_clock false r)) as E.
    destruct (sample _ _) as [disc r1]. cbn in E. apply (stays_core _ r1); [by rewrite E|].
    unfold synchronize_resumed. apply traces_ok. intros c. apply stays_bind; [ |intros; apply dispatch_decode_traces].
    destruct (scheduler r1); [|by apply stays_Ok]. apply traces_ok. intros [[c' s'] b]. apply stays_Ok. by rewrite redraw_if_core.
  - unfold synchronize_due. destruct (sync_time t) as [clock m]. destruct (scheduler r); [|by apply stays_Ok].
    destruct (due _ _); [|by apply stays_Ok]. apply traces_ok. intros c. apply traces_ok. intros [[c' s'] b].
    by apply redispatch.
Qed.

Lemma receive_result_traces t r : stays r (receive_result document decode t r).
Proof using.
  unfold receive_result. apply traces_ok. intros [[res|] d]; [|by apply stays_Ok].
  destruct res as [md pr| |q f]; cbn [take_result]; [| by apply stays_Ok|].
  - apply traces_ok. intros c. apply traces_ok. intros [c' p]. by eapply stays_core, dispatch_decode_traces.
  - apply traces_ok. intros c. pose proof (sample_same (result_offset t) (set_decoder d r)) as E.
    destruct (sample _ _) as [disc r1]. cbn in E. apply traces_ok. intros s. apply traces_ok. intros [[[c' s'] o] b].
    eapply stays_core, dispatch_decode_traces.
    destruct o; cbn; change (core (redraw_all ?x)) with (core x); rewrite ?redraw_if_core; exact E.
Qed.

Lemma install_traces time n r : stays r (install_solar_mapping libm document decode time n r).
Proof using.
  unfold install_solar_mapping. destruct (negb _); [by apply stays_Ok|].
  destruct (location _); [|by apply stays_Ok]. destruct (r_metadata r); [|by apply stays_Ok].
  apply traces_ok. intros c. destruct (map_solar _ _ _ _); [|by apply stays_Ok].
  apply stays_bind; [ |intros; apply dispatch_decode_traces].
  destruct (scheduler _); [|by apply stays_Ok]. apply traces_ok. intros [[c' s'] o]. apply stays_Ok. by rewrite redraw_if_core.
Qed.

(** An answer is received and dealt with. *)
Lemma take_solar_traces t n res x r r' : solar_resolver (solar r) = Some x → (resolver_receive x).1 = Some res →
  take_solar_result libm document decode t n res (on_solar (set_resolver (Some (resolver_receive x).2)) r) = Ok r' →
  rtc core_step (core r) (core r').
Proof using.
  intros Ex Er Ht. set (r1 := on_solar _ r) in *.
  assert (refuses res = false → core_step (core r) (core r1)) as Hrecv.
  { intros Hn. apply (c_receive (core r) x Ex). intros res' E. rewrite Er in E. by injection E as <-. }
  destruct res as [l|e]; cbn [take_solar_result] in Ht.
  - apply (rtc_l _ _ _ _ (Hrecv eq_refl)).
    destruct (match location _ with None => true | Some _ => _ end); [|by injection Ht as <-].
    apply install_traces in Ht. by rewrite <- Ht.
  - apply rtc_once. destruct (Geoclue.is_retryable e) eqn:Ee; injection Ht as <-.
    + apply Hrecv. by destruct e.
    + apply (c_deny (core r) x Ex). by rewrite Er.
Qed.

Lemma receive_solar_traces fuel n t r : moves r (receive_solar libm document decode fuel n t r).
Proof using.
  revert n r. induction fuel as [|fuel IH]; intros n r; [by apply stays_moves, stays_Ok|]. cbn [receive_solar].
  destruct (solar_resolver (solar r)) as [x|] eqn:Ex; [|by apply stays_moves, stays_Ok].
  set (x1 := locator_advance _ x). pose proof (c_locate (core r) x (locator_progress t n) Ex) as H0.
  set (r0 := on_solar (set_resolver (Some x1)) r). change (core_step (core r) (core r0)) in H0.
  change (on_solar (set_resolver (Some ?y)) r) with (on_solar (set_resolver (Some y)) r0).
  pose proof (λ res r', take_solar_traces t n res x1 r0 r' eq_refl) as Htake.
  pose proof (c_receive (core r0) x1 eq_refl) as Hrecv.
  intros r' E. apply (rtc_l _ _ _ _ H0). revert r' E.
  destruct (resolver_receive x1) as [[res|] x2]; cbn [fst snd] in *.
  - intros r' (r1 & E1 & E2)%bind_Ok. etrans; [by eapply Htake|by eapply IH].
  - intros r' [= <-]. apply rtc_once, Hrecv. done.
Qed.

(** One answer at most comes out of the thread before it is told to ask again. *)
Definition exhausted (x : SolarResolver) : Prop :=
  located x = None ∧ (locator x = Commanded ∧ commands x = false ∨ locator x = LocatorGone).

Lemma exhausted_advance answers x : exhausted x → locator_advance answers x = x.
Proof using.
  intros [_ H]. destruct answers as [|a answers]; [done|]. cbn. unfold locator_step.
  by destruct H as [[-> ->]| ->].
Qed.
Lemma received_exhausted n d x : resolver_ok n d x → (resolver_receive x).1 ≠ None → exhausted (resolver_receive x).2.
Proof using. intros H Hn. destruct H as [[]|[]| |x|x|x []|x []|c l]; try done; split; cbn; auto. Qed.

Lemma take_solar_stays t n res r : ∀ r', take_solar_result libm document decode t n res r = Ok r' →
  solar_resolver (solar r') = solar_resolver (solar r).
Proof using.
  intros r' E. destruct res as [l|e]; cbn [take_solar_result] in E.
  - destruct (match location _ with None => true | Some _ => _ end); [|by injection E as <-].
    apply install_traces in E. exact (eq_sym (f_equal core_resolver E)).
  - injection E as <-. cbn. by destruct (Geoclue.is_retryable e).
Qed.

(** So two turns of the loop over the answers are as many as there ever are,
    and [SOLAR_FUEL] is enough. *)
Lemma receive_solar_enough fuel n t r :
  (∀ x, solar_resolver (solar r) = Some x → ∃ k d, resolver_ok k d x) →
  receive_solar libm document decode (2 + fuel) n t r = receive_solar libm document decode 2 n t r.
Proof using.
  intros Hok. cbn [receive_solar Nat.add]. destruct (solar_resolver (solar r)) as [x|] eqn:Ex; [|done].
  destruct (Hok x eq_refl) as (k0 & d0 & Hx).
  destruct (locator_advance_ok (locator_progress t n) _ _ x Hx) as ((k & d & Hk) & _).
  pose proof (received_exhausted k d _ Hk) as He.
  destruct (resolver_receive _) as [[res|] x1]; [|done]. cbn [fst snd] in He. specialize (He ltac:(done)).
  destruct (take_solar_result _ _ _ _ _ _ _) as [r1|e] eqn:Et; [|done]. cbn [mbind result_bind].
  apply take_solar_stays in Et. cbn in Et. rewrite Et, exhausted_advance by done.
  unfold resolver_receive. destruct He as [-> _]. done.
Qed.

Lemma maintain_solar_traces t r : moves r (maintain_solar libm document decode t r).
Proof using.
  unfold maintain_solar. destruct (solar_enabled (solar r)) eqn:Een; [|by apply stays_moves, stays_Ok]. cbn [negb].
  pose proof (receive_solar_traces SOLAR_FUEL 0 t r) as Hrecv.
  destruct (receive_solar libm document decode SOLAR_FUEL 0 t r) as [r1|e] eqn:Er; [|done].
  specialize (Hrecv r1 eq_refl). cbn [mbind result_bind].
  assert (solar_enabled (solar r1) = true) as Een1.
  { assert (∀ c c', rtc core_step c c' → core_enabled c' = core_enabled c) as Hen.
    { induction 1 as [|c1 c2 c3 H12 _ IH]; [done|]. rewrite IH. destruct H12; try done. by destruct (resolver_dispatch x) as [[] y]. }
    rewrite <- Een. exact (Hen _ _ Hrecv). }
  enough (moves r1 (if solar_terminal (solar r1) || negb (permits_solar (appearance r1)) then Ok r1
      else let '(r, gave_up) := spawn_resolver t r1 in
           if gave_up then Ok r else check_mapping libm document decode t (request_location t r))) as Hgo.
  { intros r' E. etrans; [exact Hrecv|by apply Hgo]. }
  clear Hrecv Er. destruct (_ || _) eqn:Et; [by apply stays_moves, stays_Ok|]. simp_bool.
  assert (permitted (core r1)) as Hp by done.
  assert (rtc core_step (core r1) (core (spawn_resolver t r1).1)
    ∧ ((spawn_resolver t r1).2 = false → permitted (core (spawn_resolver t r1).1))) as [H1 Hp2].
  { unfold spawn_resolver. destruct (_ && _) eqn:E; [|done]. simp_bool.
    assert (core_resolver (core r1) = None) as En by (cbn; by destruct (solar_resolver (solar r1))).
    destruct (spawned t); cbn [fst snd]; (split; [|done]); apply rtc_once; [by apply c_spawn|by apply c_give_up]. }
  destruct (spawn_resolver t r1) as [r2 gave_up]. cbn [fst snd] in *.
  destruct gave_up; [by intros r' [= <-]|]. specialize (Hp2 eq_refl).
  assert (rtc core_step (core r2) (core (request_location t r2))) as H2.
  { unfold request_location, dispatch_solar. destruct (_ && _) eqn:E; [|done]. simp_bool.
    change (solar_resolver (solar (on_solar (set_requested true) r2))) with (solar_resolver (solar r2)).
    destruct (solar_resolver (solar r2)) as [x|] eqn:Ex; [|done].
    assert (locating (locator_advance (locator_progress t SOLAR_FUEL) x) = false) as El.
    { assert (∀ as_ y, locating (locator_advance as_ y) = locating y) as Hl.
      { induction as_ as [|a as_ IH]; intros y; [done|]. cbn. destruct (locator_step a y) as [y'|] eqn:Ey; [|done].
        rewrite IH. unfold locator_step in Ey. destruct (locator y); repeat case_match; simplify_eq; done. }
      by rewrite Hl. }
    eapply rtc_l; [by apply (c_locate _ x (locator_progress t SOLAR_FUEL))|].
    set (y := locator_advance _ x) in *. pose proof (c_dispatch (with_resolver y (core r2)) y Hp2 eq_refl El) as Hd.
    apply rtc_once. destruct (resolver_dispatch y) as [[] z]; exact Hd. }
  intros r' E. etrans; [exact H1|]. etrans; [exact H2|]. revert r' E.
  change (moves (request_location t r2) (check_mapping libm document decode t (request_location t r2))).
  unfold check_mapping. destruct (reached _ _); [|by apply stays_moves, stays_Ok]. apply traces_ok. intros c.
  destruct (solar_mapping_due _ _ _ _ _); [|by apply stays_moves, stays_Ok]. by eapply stays_moves, stays_core, install_traces.
Qed.

Lemma maintain_traces t r : moves r (maintain libm document decode t r).
Proof using.
  unfold maintain. apply moves_bind; [by apply stays_moves, synchronize_pass_traces|]. clear r. intros r.
  apply moves_bind; [apply stays_moves, receive_result_traces|]. clear r. intros r.
  apply moves_bind; [exact (maintain_solar_traces t r)|]. clear r. intros r. apply moves_bind.
  - unfold prepare_pass. destruct (scheduler r) as [s|]; [|by apply stays_moves, stays_Ok]. destruct (has_work r); [|by apply stays_moves, stays_Ok].
    apply traces_ok. intros c. pose proof (sample_same (present_offset t) r) as E.
    destruct (sample _ _) as [disc r1]. cbn in E. apply traces_ok. intros [[c' s'] b]. by apply stays_moves, redispatch.
  - clear r. intros r. unfold present_pass. apply traces_ok. intros ss. by apply stays_moves, stays_Ok.
Qed.

Lemma handle_core e r : core (handle e r) = core r.
Proof using.
  destruct e; cbn; unfold add_surface, configured, on_layer; try done; by destruct (update_first _ _ _).
Qed.

Lemma step_traces r r' : step libm document decode r r' → rtc core_step (core r) (core r').
Proof using.
  intros [r0 e _ _|r0 n|r0 x answers Ex|r0 r1 t E].
  - by rewrite handle_core.
  - done.
  - apply rtc_once. exact (c_locate (core r0) x answers Ex).
  - by eapply maintain_traces.
Qed.
Lemma steps_trace r r' : rtc (step libm document decode) r r' → rtc core_step (core r) (core r').
Proof using. induction 1 as [|x y z Hxy _ IH]; [done|]. etrans; [by apply step_traces|done]. Qed.
End Loop.

(** ** Properties *)

Definition requests_made (r : Runtime) : nat := core_asked (core r).

Definition was_refused (r : Runtime) : Prop := core_refused (core r) = true.

(** C25.  Location privacy: in every run, with an explicit appearance or without the
    solar option, the location thread is never started, so the service is never
    asked; and from the moment the service answers that access is denied, or
    with a location that is too coarse, it is never asked again, whatever
    happens; nor once the owner gave the location up for another reason (the
    thread could not start or stopped). *)
Theorem location_privacy libm document decode ap rm enabled off gens r :
  rtc (step libm document decode) (runtime_new ap rm enabled off gens) r →
  (permits_solar ap = false ∨ enabled = false → solar_resolver (solar r) = None ∧ requests_made r = 0%nat)
  ∧ ∀ r', rtc (step libm document decode) r r' → was_refused r ∨ solar_terminal (solar r) = true →
      requests_made r' = requests_made r.
Proof.
  intros Hr%steps_trace. assert (core_ok (core (runtime_new ap rm enabled off gens))) as H0 by by split.
  destruct (core_steps_ok _ _ H0 Hr) as (Hok & Ea & Ee & _). split.
  - intros Hoff. assert (core_resolver (core r) = None) as E by (apply (co_off _ Hok); by rewrite Ea, Ee).
    split; [exact E|]. unfold requests_made, core_asked. by rewrite E.
  - intros r' Hr'%steps_trace Hover. destruct (core_steps_ok _ _ Hok Hr') as (_ & _ & _ & _ & H). apply H.
    destruct Hover as [Href|Ht]; [by apply (co_refused _ Hok)|by left].
Qed.

(** A wallpaper with a solar schedule: the first pass opens the file, the second
    has its frame and asks for the location; the service denies it; the last
    pass, an hour later, hears of that, and passes go on. *)
Definition plain : Solar.Libm :=
  Solar.mkLibm (λ x, x) (λ x, x) (λ x, x) (λ x, x) (λ x, x) (λ x _, x).
Definition sunny : Metadata :=
  mkMetadata Missing (Valid (mkSchedule [mkSolarPoint 0 (mkSolarPosition (f64_of 10) (f64_of 90))] None)) Missing.
Definition gray (i : ImageReference) : option RgbaFrame := Some (mkFrame 1 1 [to_u8 i; to_u8 i; to_u8 i; to_u8 255] 4).
Definition morning : ClockSnapshot := mkClock (mkDate 2026 9 9) (mkTime 9 0 0) 0 0.
Definition sunny_turn (now : Z) : Turn :=
  mkTurn (Some morning, now) None (λ _, 3%nat) (Some morning, now) None (Some 4) (λ _, []) (λ _, now)
    (λ _, (Some morning, now)) true (Some morning) (Some morning, now) None (λ _, mkDraw (λ _, false) 1 None None None).
Definition denied : LocatorAnswer := mkLocatorAnswer true (Err Geoclue.Denied).
Definition sunny_passes (nows : list Z) (r : Runtime) : Main Runtime :=
  foldl (λ m now, r ← m; maintain plain (Some (sunny, 9)) gray (sunny_turn now) r) (Ok r) nows.

Lemma sunny_steps nows r r' : sunny_passes nows r = Ok r' → rtc (step plain (Some (sunny, 9)) gray) r r'.
Proof.
  revert r'. induction nows as [|now nows IH] using rev_ind; intros r' H; [by injection H as <-|].
  unfold sunny_passes in H. rewrite foldl_app in H. apply bind_Ok in H as (r1 & E & H).
  eapply rtc_r; [by apply IH|by eapply step_maintain].
Qed.

Abbreviation asking := (sunny_passes [0; 1] (runtime_new Automatic false true None 1)).

Abbreviation told x := (locator_advance [denied; denied; denied; denied] x).
Abbreviation passes_on r x :=
  (sunny_passes [from_secs 3600; from_secs 7200] (on_solar (set_resolver (Some (told x))) r)).

Lemma asking_once :
  match asking with
  | Ok r => match solar_resolver (solar r) with
            | Some x => asked x = 0%nat ∧ asked (told x) = 1%nat ∧ refused (told x) = true ∧ is_ok (passes_on r x) = true
            | None => False
            end
  | Err _ => False
  end.
Proof. vm_compute. auto. Qed.

Lemma location_privacy_witness : ∃ r x r',
  asking = Ok r ∧ solar_resolver (solar r) = Some x ∧ asked (told x) = 1%nat ∧ passes_on r x = Ok r'
  ∧ requests_made r' = 1%nat.
Proof.
  pose proof asking_once as H. destruct asking as [r|e] eqn:E; [|destruct H].
  destruct (solar_resolver (solar r)) as [x|] eqn:Ex; [|destruct H].
  destruct H as (_ & E1 & E2 & H). destruct (passes_on r x) as [r'|e] eqn:E'; [|discriminate H].
  exists r, x, r'. split; [reflexivity|]. split; [exact Ex|]. split; [exact E1|]. split; [exact E'|].
  assert (rtc (step plain (Some (sunny, 9)) gray) (runtime_new Automatic false true None 1)
    (on_solar (set_resolver (Some (told x))) r)) as Hr.
  { eapply rtc_r; [exact (sunny_steps _ _ _ E)|]. exact (step_locator _ _ _ _ _ _ Ex). }
  etrans; [exact (proj2 (location_privacy _ _ _ _ _ _ _ _ _ Hr) r' (sunny_steps _ _ _ E') (or_introl E2))|exact E1].
Defined.
