(* ===== verification/LockerDraw.v ===== *)
(** * What the locker draws ([src/locker/mod.rs], the renderer)

    The pixels of the authentication overlay.  Shaping and rasterizing text is
    the work of a library and is a parameter, a [Typeface]: the lines that a
    text is laid out in and the pixels of their glyphs.  Its caches are not
    part of the model.  [None] is a panic of the code, or a loop that has not
    ended: an index out of range, or an unchecked operation on a [u32] or [i32]
    that leaves its range. *)

From Stdlib Require Export Floats.SpecFloat.
From S2P Require Import Prelude Utf8 Text.
From S2P Require Conversation.

#[local] Existing Instance Conversation.Status_eq_dec.

(** ** [f32] *)

Abbreviation f32 := spec_float.
Definition f32_of (z : Z) : f32 := binary_normalize 24 128 z 0 false.
Definition f32_sub : f32 → f32 → f32 := SFsub 24 128.
Definition f32_add : f32 → f32 → f32 := SFadd 24 128.
Definition f32_mul : f32 → f32 → f32 := SFmul 24 128.
Definition f32_div : f32 → f32 → f32 := SFdiv 24 128.
Definition f32_le (x y : f32) : bool := SFleb x y.
Definition f32_gt (x y : f32) : bool := SFltb y x.
Definition f32_max (x y : f32) : f32 :=
  match SFcompare x y with Some Lt => y | Some _ => x | None => if SFeqb x x then x else y end.
Definition f32_min (x y : f32) : f32 :=
  match SFcompare x y with Some Gt => y | Some _ => x | None => if SFeqb x x then x else y end.
(** A literal with one decimal. *)
Definition tenths (n : Z) : f32 := f32_div (f32_of n) (f32_of 10).

(** The magnitude of a finite number, rounded to an integer by [up], which is
    given the quotient and the remainder by a power of two. *)
Definition magnitude (up : Z → Z → Z → Z) (m : positive) (e : Z) : Z :=
  if 0 <=? e then Z.shiftl (Z.pos m) e
  else let d := 2 ^ (- e) in up (Z.pos m / d) (Z.pos m mod d) d.
Definition toward_zero (q r d : Z) : Z := q.
Definition away (q r d : Z) : Z := if r =? 0 then q else q + 1.
Definition half_away (q r d : Z) : Z := if 2 * r <? d then q else q + 1.

Definition integral (pos neg : Z → Z → Z → Z) (x : f32) : f32 :=
  match x with
  | S754_finite s m e =>
    if 0 <=? e then x
    else binary_normalize 24 128 (if s then - magnitude neg m e else magnitude pos m e) 0 s
  | _ => x
  end.
Definition f32_ceil : f32 → f32 := integral away toward_zero.
Definition f32_floor : f32 → f32 := integral toward_zero away.
Definition f32_round : f32 → f32 := integral half_away half_away.

(** [as] casts: towards zero, saturating, and zero when not a number. *)
Definition saturate (lo hi : Z) (x : f32) : Z :=
  match x with
  | S754_finite s m e =>
    let n := magnitude toward_zero m e in Z.max lo (Z.min hi (if s then - n else n))
  | S754_infinity s => if s then lo else hi
  | S754_zero _ | S754_nan => 0
  end.
Definition as_i32 : f32 → Z := saturate (- 2 ^ 31) (2 ^ 31 - 1).
Definition as_usize : f32 → Z := saturate 0 (2 ^ 64 - 1).

(** ** Integers *)

(** An [i32] or a [u32] operation that panics out of its range. *)
Definition i32 (z : Z) : option Z := if (- 2 ^ 31 <=? z) && (z <? 2 ^ 31) then Some z else None.
Definition u32 (z : Z) : option Z := if fits 32 z then Some z else None.
(** [as i32] of a [u32]. *)
Definition u32_as_i32 (z : Z) : Z := if z <? 2 ^ 31 then z else z - 2 ^ 32.
Definition saturating_add_u32 (a b : Z) : Z := Z.min (2 ^ 32 - 1) (a + b).
Definition div_ceil (a b : Z) : Z := if a mod b =? 0 then a / b else a / b + 1.
(** [a..b]. *)
Definition range (a b : Z) : list Z := seqZ a (b - a).

Fixpoint for_each {A B} (f : B → A → option A) (l : list B) (a : A) : option A :=
  match l with
  | [] => Some a
  | b :: l => a ← f b a; for_each f l a
  end.

(** ** Pixels *)

Record Color := rgba { red : byte; green : byte; blue : byte; alpha : byte }.
#[export] Instance Color_eq_dec : EqDecision Color.
Proof. solve_decision. Defined.
Definition color (r g b a : Z) : Color := rgba (to_u8 r) (to_u8 g) (to_u8 b) (to_u8 a).

Definition AUTHENTICATION_INPUT_BORDER : Color := color 255 255 255 120.
Definition AUTHENTICATION_INPUT_GLASS : Color := color 190 205 230 54.

(** One channel of the target; the products are [u32]s. *)
Definition blend_channel (source_alpha target_alpha output_alpha source target : Z) : Z :=
  (source * source_alpha * 255 + target * target_alpha * (255 - source_alpha)) / output_alpha.

Definition blend_target (source target : Color) : Color :=
  let source_alpha := u8 (alpha source) in
  let target_alpha := u8 (alpha target) in
  let output_alpha := source_alpha * 255 + target_alpha * (255 - source_alpha) in
  if output_alpha =? 0 then target
  else
    let mix s t := to_u8 (blend_channel source_alpha target_alpha output_alpha (u8 s) (u8 t)) in
    rgba (mix (red source) (red target)) (mix (green source) (green target))
      (mix (blue source) (blue target)) (to_u8 (output_alpha / 255)).

(** The four bytes at [index], if they are there, and their replacement. *)
Definition pixel_at (pixels : list byte) (index : nat) : option Color :=
  match take 4 (drop index pixels) with
  | [r; g; b; a] => Some (rgba r g b a)
  | _ => None
  end.
Definition set_pixel (pixels : list byte) (index : nat) (c : Color) : list byte :=
  take index pixels ++ [red c; green c; blue c; alpha c] ++ drop (index + 4) pixels.

Definition pixel_index (width x y : Z) : option Z :=
  row ← checked_mul 64 y width; pixel ← checked_add 64 row x; checked_mul 64 pixel 4.

Definition blend_pixel (width x y : Z) (source : Color) (pixels : list byte) : list byte :=
  if (x <? 0) || (y <? 0) || (u32_as_i32 width <=? x) then pixels
  else match pixel_index width x y with
  | None => pixels
  | Some index =>
    match pixel_at pixels (Z.to_nat index) with
    | None => pixels
    | Some target => set_pixel pixels (Z.to_nat index) (blend_target source target)
    end
  end.

Definition glyph_pixel (glyph requested : Color) (force_rgb : bool) : Color :=
  let rgb := if force_rgb then requested else glyph in
  rgba (red rgb) (green rgb) (blue rgb) (to_u8 (u8 (alpha glyph) * u8 (alpha requested) / 255)).

(** ** Shapes *)

Definition blend_circle (stride center_x center_y radius : Z) (c : Color) (pixels : list byte) :
    option (list byte) :=
  let radius_squared := radius ^ 2 in
  for_each (λ y, for_each (λ x pixels,
    let dx := x - center_x in
    let dy := y - center_y in
    Some (if dx * dx + dy * dy <=? radius_squared
          then blend_pixel stride (u32_as_i32 x) (u32_as_i32 y) c pixels else pixels))
    (range (saturating_sub center_x radius) (saturating_add_u32 center_x radius)))
    (range (saturating_sub center_y radius) (saturating_add_u32 center_y radius)) pixels.

Definition rounded_offset (local extent radius : Z) : option Z :=
  if local <? radius then u32 (radius - 1 - local)
  else edge ← u32 (extent - radius); Some (saturating_sub local edge).

Definition rounded_rect_contains (local_x local_y width height radius : Z) : option bool :=
  dx ← rounded_offset local_x width radius;
  dy ← rounded_offset local_y height radius;
  Some (dx ^ 2 + dy ^ 2 <=? radius ^ 2).

Definition blend_rounded_rect (stride x y width height radius : Z) (c : Color)
    (pixels : list byte) : option (list byte) :=
  let radius := Z.min (Z.min radius (width / 2)) (height / 2) in
  for_each (λ row, for_each (λ column pixels,
    inside ← rounded_rect_contains (column - x) (row - y) width height radius;
    Some (if inside : bool then blend_pixel stride (u32_as_i32 column) (u32_as_i32 row) c pixels
          else pixels))
    (range x (saturating_add_u32 x width))) (range y (saturating_add_u32 y height)) pixels.

(** [&&] evaluates the call only where the comparisons hold. *)
Definition inside_inner (local_x local_y width height radius thickness : Z) : option bool :=
  right ← u32 (local_x + thickness);
  bottom ← u32 (local_y + thickness);
  if (thickness <=? local_x) && (thickness <=? local_y) && (right <? width) && (bottom <? height)
  then
    inner_width ← u32 (width - thickness * 2);
    inner_height ← u32 (height - thickness * 2);
    rounded_rect_contains (local_x - thickness) (local_y - thickness) inner_width inner_height
      (saturating_sub radius thickness)
  else Some false.

Definition blend_rounded_rect_outline (stride x y width height radius thickness : Z) (c : Color)
    (pixels : list byte) : option (list byte) :=
  let radius := Z.min (Z.min radius (width / 2)) (height / 2) in
  let thickness := Z.min (Z.min thickness (width / 2)) (height / 2) in
  for_each (λ local_y, for_each (λ local_x pixels,
    outer ← rounded_rect_contains local_x local_y width height radius;
    inner ← inside_inner local_x local_y width height radius thickness;
    if (outer : bool) && negb inner then
      column ← u32 (x + local_x);
      row ← u32 (y + local_y);
      Some (blend_pixel stride (u32_as_i32 column) (u32_as_i32 row) c pixels)
    else Some pixels)
    (range 0 width)) (range 0 height) pixels.

(** ** Texts *)

Definition join_spaces (words : list rstring) : rstring :=
  match words with
  | [] => []
  | w :: ws => w ++ (ws ≫= λ w, 32 :: w)
  end.

Definition masked_response (characters : nat) : rstring := replicate (min characters 18) 8226.

Definition persistent_prompt (prompt : rstring) : option rstring :=
  if eq_ignore_ascii_case prompt (str "password") then None else Some prompt.

Definition reflow_instruction (text : rstring) : rstring := join_spaces (split_whitespace text).

(** The loop of [fit_single_line_by]: the range halves, and it has at most as
    many turns as characters. *)
Fixpoint fit_search (fuel : nat) (fits : nat → bool) (lower upper : nat) : nat :=
  match fuel with
  | O => lower
  | S fuel =>
    if (lower <? upper)%nat then
      let midpoint := Nat.div2 (lower + upper + 1) in
      if fits midpoint then fit_search fuel fits midpoint upper
      else fit_search fuel fits lower (midpoint - 1)
    else lower
  end.

Definition shortened (characters : rstring) (n : nat) : rstring :=
  take n characters ++ [Conversation.ellipsis].

Definition fit_single_line_by (text : rstring) (width : f32) (measure : rstring → f32) : rstring :=
  let normalized := join_spaces (split_whitespace text) in
  if f32_le (measure normalized) width then normalized
  else if f32_gt (measure [Conversation.ellipsis]) width then []
  else shortened normalized
         (fit_search (length normalized)
            (λ n, f32_le (measure (shortened normalized n)) width) 0 (length normalized)).

Definition next_font_size (size minimum step : f32) : f32 := f32_max (f32_sub size step) minimum.

Definition page_layout (line_count : Z) (text_height : Z) (line_height : f32) (page : Z) :
    Z * Z * Z :=
  let lines_per_page := Z.max (as_usize (f32_floor (f32_div (f32_of text_height) line_height))) 1 in
  let page_count := div_ceil (Z.max line_count 1) lines_per_page in
  let page := page mod page_count in
  let first_line := page * lines_per_page in
  (page_count, first_line, Z.min (saturating_sub line_count first_line) lines_per_page).

Inductive Wrap := WrapNone | WordOrGlyph.
Inductive Align := AlignLeft | AlignCenter.

(** A [Buffer] that was given its metrics, size, wrapping and text. *)
Record Layout := mkLayout {
  l_size : f32; l_line_height : f32;
  l_width : option f32; l_height : option f32;
  l_wrap : Wrap; l_text : rstring; l_align : Align;
}.

Record Glyph := mkGlyph {
  physical_x : Z; physical_y : Z;
  color_opt : option Color;
  with_pixels : Color → list (Z * Z * Color);
}.
Record Run := mkRun {
  line_top : f32; line_height : f32; line_y : f32; line_w : f32; glyphs : list Glyph;
}.
(** A rectangle of [Buffer::draw]. *)
Record Rect := mkRect { r_x : Z; r_y : Z; r_width : Z; r_height : Z; r_color : Color }.

Record Typeface := mkTypeface {
  layout_runs : Layout → list Run;
  draw : Layout → Color → list Rect;
  (** Unicode's uppercase mapping. *)
  to_uppercase : rstring → rstring;
}.

Section Draw.
Context (fonts : Typeface).

Definition initials (name : rstring) : rstring :=
  to_uppercase fonts (take 2 (omap head (split_whitespace name))).

Definition line_width (size : f32) (candidate : rstring) : f32 :=
  foldl f32_max (f32_of 0)
    (line_w <$> layout_runs fonts
       (mkLayout size (f32_mul size (tenths 13)) None (Some (f32_mul size (tenths 14)))
          WrapNone candidate AlignLeft)).
Definition fit_single_line (text : rstring) (size width : f32) : rstring :=
  fit_single_line_by text width (line_width size).

(** ** Drawing text *)

Definition draw_rect (width : Z) (c : Color) (force_rgb : bool) (y x text_width : Z)
    (text_height : f32) (g : Rect) (pixels : list byte) : option (list byte) :=
  if (r_x g <? 0) || (r_y g <? 0) then Some pixels
  else
    right ← i32 (r_x g + u32_as_i32 (r_width g));
    if u32_as_i32 text_width <? right then Some pixels
    else
      bottom ← i32 (r_y g + u32_as_i32 (r_height g));
      if as_i32 text_height <? bottom then Some pixels
      else
        column ← i32 (u32_as_i32 x + r_x g);
        row ← i32 (y + r_y g);
        Some (blend_pixel width column row (glyph_pixel (r_color g) c force_rgb) pixels).

Definition draw_text_in (width height : Z) (text : rstring) (size : f32) (y x text_width : Z)
    (c : Color) (force_rgb : bool) (pixels : list byte) : option (list byte) :=
  below ← i32 (u32_as_i32 height - y);
  let text_height := f32_min (f32_ceil (f32_mul size (tenths 14))) (f32_of (Z.max below 0)) in
  let buffer := mkLayout size (f32_mul size (tenths 13)) (Some (f32_of text_width))
                  (Some text_height) WrapNone text AlignCenter in
  for_each (draw_rect width c force_rgb y x text_width text_height) (draw fonts buffer c) pixels.

Definition draw_text (width height : Z) (text : rstring) (size : f32) (y : Z) (c : Color)
    (pixels : list byte) : option (list byte) :=
  draw_text_in width height text size y 0 width c false pixels.

Definition draw_shadowed_text (width height : Z) (text : rstring) (size : f32) (y : Z) (c : Color)
    (scale : Z) (pixels : list byte) : option (list byte) :=
  double ← i32 (2 * u32_as_i32 scale);
  lower ← i32 (y + double);
  pixels ← draw_text_in width height text size lower 0 width (color 0 0 0 190) true pixels;
  draw_text width height text size y c pixels.

Definition SEPARATOR : rstring := [32; 47; 32].
Definition page_hint (page page_count : Z) : rstring :=
  show_dec (page mod page_count + 1) ++ SEPARATOR ++ show_dec page_count
  ++ [32; 183] ++ str " Tab for more".

Definition draw_page_hint (width height page page_count y scale : Z) (pixels : list byte) :
    option (list byte) :=
  draw_text width height (page_hint page page_count) (f32_mul (f32_of 10) (f32_of scale)) y
    (color 230 232 238 255) pixels.

(** The size at which a text fits its box, or the smallest. *)
Fixpoint fit_size (fuel : nat) (text : rstring) (size minimum_size size_step : f32)
    (text_width text_height : Z) : option (f32 * list Run) :=
  match fuel with
  | O => None
  | S fuel =>
    let runs := layout_runs fonts
                  (mkLayout size (f32_mul size (tenths 13)) (Some (f32_of text_width)) None
                     WordOrGlyph text AlignCenter) in
    let content_height :=
      foldl f32_max (f32_of 0) ((λ r, f32_add (line_top r) (line_height r)) <$> runs) in
    if f32_le content_height (f32_of text_height) || f32_le size minimum_size
    then Some (size, runs)
    else fit_size fuel text (next_font_size size minimum_size size_step) minimum_size size_step
           text_width text_height
  end.
Definition FIT_FUEL : nat := 16.

Definition draw_glyph_pixel (width : Z) (c : Color) (y x text_width text_height page_top : Z)
    (r : Run) (g : Glyph) (p : Z * Z * Color) (pixels : list byte) : option (list byte) :=
  let '(offset_x, offset_y, glyph_color) := p in
  glyph_x ← i32 (physical_x g + offset_x);
  a ← i32 (as_i32 (line_y r) + physical_y g);
  b ← i32 (a + offset_y);
  glyph_y ← i32 (b - page_top);
  if (glyph_x <? 0) || (glyph_y <? 0) || (u32_as_i32 text_width <=? glyph_x)
     || (u32_as_i32 text_height <=? glyph_y)
  then Some pixels
  else
    column ← i32 (u32_as_i32 x + glyph_x);
    row ← i32 (y + glyph_y);
    Some (blend_pixel width column row (glyph_pixel glyph_color c false) pixels).

Definition draw_runs (width : Z) (c : Color) (y x text_width text_height : Z) (runs : list Run) :
    list byte → option (list byte) :=
  let page_top := as_i32 (f32_round (from_option line_top (f32_of 0) (head runs))) in
  for_each (λ r, for_each (λ g,
    for_each (draw_glyph_pixel width c y x text_width text_height page_top r g)
      (with_pixels g (default c (color_opt g)))) (glyphs r)) runs.

Definition draw_wrapped_text_in (width : Z) (text : rstring)
    (maximum_size minimum_size size_step : f32) (y x text_width text_height : Z) (c : Color)
    (page : Z) (pixels : list byte) : option (list byte * Z) :=
  '(size, all) ← fit_size FIT_FUEL (reflow_instruction text) maximum_size minimum_size size_step
                   text_width text_height;
  let line_height := f32_mul size (tenths 13) in
  let '(page_count, first_line, lines_on_page) :=
    page_layout (Z.of_nat (length all)) text_height line_height page in
  let runs := take (Z.to_nat lines_on_page) (drop (Z.to_nat first_line) all) in
  pixels ← draw_runs width c y x text_width text_height runs pixels;
  Some (pixels, page_count).

(** ** The overlay *)

Definition LOCK_CANVAS_WIDTH : Z := 1280.
Definition LOCK_CANVAS_HEIGHT : Z := 800.
Definition AUTHENTICATION_OVERLAY_WIDTH : Z := 500.
Definition AUTHENTICATION_OVERLAY_HEIGHT : Z := 400.
Definition AUTHENTICATION_RENDER_SCALE : Z := 3.
Definition AUTHENTICATION_FIELD_X : Z := 55.
Definition AUTHENTICATION_FIELD_Y : Z := 247.
Definition AUTHENTICATION_FIELD_WIDTH : Z := 390.
Definition AUTHENTICATION_FIELD_HEIGHT : Z := 52.

Definition authentication_overlay_dimensions : Z * Z :=
  (AUTHENTICATION_OVERLAY_WIDTH * AUTHENTICATION_RENDER_SCALE,
   AUTHENTICATION_OVERLAY_HEIGHT * AUTHENTICATION_RENDER_SCALE).
Definition authentication_canvas_dimensions : Z * Z :=
  (LOCK_CANVAS_WIDTH * AUTHENTICATION_RENDER_SCALE,
   LOCK_CANVAS_HEIGHT * AUTHENTICATION_RENDER_SCALE).

Definition draw_authentication_field (width scale : Z) (pixels : list byte) :
    option (list byte) :=
  pixels ← blend_rounded_rect width
             (AUTHENTICATION_FIELD_X * scale) (AUTHENTICATION_FIELD_Y * scale)
             (AUTHENTICATION_FIELD_WIDTH * scale) (AUTHENTICATION_FIELD_HEIGHT * scale)
             (AUTHENTICATION_FIELD_HEIGHT * scale / 2) AUTHENTICATION_INPUT_GLASS pixels;
  blend_rounded_rect_outline width
    (AUTHENTICATION_FIELD_X * scale) (AUTHENTICATION_FIELD_Y * scale)
    (AUTHENTICATION_FIELD_WIDTH * scale) (AUTHENTICATION_FIELD_HEIGHT * scale)
    (AUTHENTICATION_FIELD_HEIGHT * scale / 2) scale AUTHENTICATION_INPUT_BORDER pixels.

Definition draw_authentication_avatar (width scale : Z) (pixels : list byte) :
    option (list byte) :=
  let x := 194 * scale in
  let y := 10 * scale in
  let diameter := 112 * scale in
  let center_x := x + diameter / 2 in
  let center_y := y + diameter / 2 in
  pixels ← blend_circle width center_x center_y (diameter / 2) (color 255 255 255 90) pixels;
  inner ← u32 (diameter / 2 - 3 * scale);
  blend_circle width center_x center_y inner (color 24 31 46 220) pixels.

Definition white : Color := color 255 255 255 255.
(** [px] and [position]; [font_size]. *)
Definition px (value : Z) : Z := value * AUTHENTICATION_RENDER_SCALE.
Definition font_size (value : Z) : f32 := f32_mul (f32_of value) (f32_of AUTHENTICATION_RENDER_SCALE).

Definition SECURING : rstring := str "Securing session" ++ [Conversation.ellipsis].
Definition AUTHENTICATING : rstring := str "Authenticating" ++ [Conversation.ellipsis].
Definition RETURN_SIGN : rstring := [8629].

(** The upper part: a detailed prompt under the names, or the avatar. *)
Definition draw_prompt (width height : Z) (display_name username prompt : rstring)
    (instruction_page : Z) (pixels : list byte) : option (list byte) :=
  let scale := AUTHENTICATION_RENDER_SCALE in
  pixels ← draw_shadowed_text width height display_name (font_size 22) (px 8) white scale pixels;
  pixels ← draw_shadowed_text width height username (font_size 14) (px 38) white scale pixels;
  text_width ← u32 (width - px 30);
  '(pixels, prompt_pages) ← draw_wrapped_text_in width prompt (font_size 15) (font_size 8)
                              (font_size 1) (px 66) (px 15) text_width (px 155) white
                              instruction_page pixels;
  if 1 <? prompt_pages
  then draw_page_hint width height instruction_page prompt_pages (px 226) scale pixels
  else Some pixels.

Definition draw_identity (width height : Z) (name display_name username : rstring)
    (pixels : list byte) : option (list byte) :=
  let scale := AUTHENTICATION_RENDER_SCALE in
  pixels ← draw_authentication_avatar width scale pixels;
  pixels ← draw_shadowed_text width height (initials name) (font_size 34) (px 43) white scale pixels;
  pixels ← draw_shadowed_text width height display_name (font_size 27) (px 139) white scale pixels;
  draw_shadowed_text width height username (font_size 16) (px 177) white scale pixels.

(** The field: the response masked, the prompt, or the progress. *)
Definition draw_response (width height : Z) (conversation : Conversation.Conversation)
    (detailed : bool) (pixels : list byte) : option (list byte) :=
  let input := masked_response (length (Conversation.text (Conversation.input conversation))) in
  let empty := bool_decide (input = []) in
  let submitting := bool_decide (Conversation.status conversation = Conversation.Submitting) in
  let prompt := fit_single_line
                  (if detailed then str "Response" else Conversation.prompt conversation)
                  (font_size 16) (f32_of (px (AUTHENTICATION_FIELD_WIDTH - 82))) in
  let field_text := if submitting then AUTHENTICATING else if empty then prompt else input in
  pixels ← draw_text_in width height field_text (font_size (if empty then 16 else 21)) (px 261)
             (px (AUTHENTICATION_FIELD_X + 24)) (px (AUTHENTICATION_FIELD_WIDTH - 82))
             (if empty || submitting then color 245 246 250 255 else white) false pixels;
  draw_text_in width height (if submitting then [Conversation.ellipsis] else RETURN_SIGN)
    (font_size 20) (px 259) (px (AUTHENTICATION_FIELD_X + 346)) (px 36)
    (if submitting then color 180 184 194 255 else color 245 246 250 255) false pixels.

Definition draw_notice (width height : Z) (notice : rstring) (is_error : bool)
    (instruction_page : Z) (pixels : list byte) : option (list byte) :=
  text_width ← u32 (width - px 20);
  '(pixels, notice_pages) ← draw_wrapped_text_in width notice (font_size 15) (font_size 7)
                              (font_size 1) (px 315) (px 10) text_width (px 66)
                              (if is_error then color 255 215 215 255 else color 240 242 248 255)
                              instruction_page pixels;
  if 1 <? notice_pages
  then draw_page_hint width height instruction_page notice_pages (px 384)
         AUTHENTICATION_RENDER_SCALE pixels
  else Some pixels.

Definition render_authentication_overlay (width height : Z) (username name : rstring)
    (conversation : Conversation.Conversation) (confirmed : bool) (instruction_page : Z)
    (pixels : list byte) : option (list byte) :=
  let display_name := fit_single_line name (font_size 27) (f32_of width) in
  let at_username := fit_single_line (64 :: username) (font_size 16) (f32_of width) in
  let detailed_prompt :=
    if confirmed then persistent_prompt (Conversation.prompt conversation) else None in
  pixels ← match detailed_prompt with
           | Some prompt =>
             draw_prompt width height display_name at_username prompt instruction_page pixels
           | None => draw_identity width height name display_name at_username pixels
           end;
  if negb confirmed then
    draw_shadowed_text width height SECURING (font_size 17) (px 235) white
      AUTHENTICATION_RENDER_SCALE pixels
  else
    pixels ← draw_authentication_field width AUTHENTICATION_RENDER_SCALE pixels;
    pixels ← draw_response width height conversation (bool_decide (is_Some detailed_prompt)) pixels;
    match Conversation.message conversation with
    | Some notice =>
      draw_notice width height notice (Conversation.message_is_error conversation)
        instruction_page pixels
    | None => Some pixels
    end.

End Draw.
