(* ===== verification/LockerDrawProofs.v ===== *)
(** * The locker's renderer: proofs

    Whatever the typeface lays out, a text fits its width, its pages show every
    line once, drawing never leaves the overlay's pixels, and the overlay is
    always drawn to its end. *)

From S2P Require Import Prelude Utf8 Text LockerDraw.
From S2P Require Conversation.

(** ** Loops *)

Lemma for_each_inv {A B} (I : A → Prop) (f : B → A → option A) (l : list B) (a : A) :
  I a → (∀ b a, b ∈ l → I a → ∃ a', f b a = Some a' ∧ I a') →
  ∃ a', for_each f l a = Some a' ∧ I a'.
Proof.
  revert a. induction l as [|b l IH]; intros a Ha Hf; cbn [for_each]; [by eexists|].
  destruct (Hf b a (list_elem_of_here _ _) Ha) as (a' & -> & Ha'). cbn [mbind option_bind].
  apply IH; [done|]. intros b' a'' Hb. by apply Hf, list_elem_of_further.
Qed.

Lemma elem_of_range a b z : z ∈ range a b → a ≤ z < b.
Proof. unfold range. rewrite elem_of_seqZ. lia. Qed.

(** ** Pixels *)

Lemma length_set_pixel pixels i c t :
  pixel_at pixels i = Some t → length (set_pixel pixels i c) = length pixels.
Proof.
  unfold pixel_at, set_pixel. intros H. destruct (take 4 (drop i pixels)) as [|? [|? [|? [|? [|? ?]]]]] eqn:E; try done.
  apply (f_equal length) in E. rewrite length_take, length_drop in E. cbn [length] in E.
  rewrite !length_app, length_take, length_drop. cbn [length]. lia.
Qed.

Lemma length_blend_pixel width x y c pixels : length (blend_pixel width x y c pixels) = length pixels.
Proof.
  unfold blend_pixel. destruct (_ || _); [done|]. destruct (pixel_index _ _ _); [|done].
  destruct (pixel_at _ _) eqn:E; [|done]. by eapply length_set_pixel.
Qed.

(** A weighted mean lies between what it mixes. *)
Lemma mean_between p q s t : 0 ≤ p → 0 ≤ q → 0 < p + q →
  Z.min s t ≤ (s * p + t * q) / (p + q) ≤ Z.max s t.
Proof.
  intros Hp Hq Hpq. split.
  - apply Z.div_le_lower_bound; [done|]. nia.
  - apply Z.div_le_upper_bound; [done|]. nia.
Qed.

Lemma blend_channel_between sa ta s t :
  0 ≤ sa ≤ 255 → 0 ≤ ta ≤ 255 → 0 < sa * 255 + ta * (255 - sa) →
  Z.min s t ≤ blend_channel sa ta (sa * 255 + ta * (255 - sa)) s t ≤ Z.max s t.
Proof.
  intros Hs Ht Ho. unfold blend_channel.
  replace (s * sa * 255 + t * ta * (255 - sa)) with (s * (sa * 255) + t * (ta * (255 - sa))) by lia.
  apply mean_between; [lia|nia|done].
Qed.

(** Drawing a pixel changes it and nothing else: off the canvas, nothing; on
    it, each channel becomes a mean of what is there and what is drawn, the
    opacity never goes down, and an opaque picture stays opaque. *)
Theorem blended_pixel width x y source pixels target :
  0 ≤ x < width → width < 2 ^ 31 → 0 ≤ y < 2 ^ 31 →
  pixel_at pixels (Z.to_nat ((y * width + x) * 4)) = Some target →
  let mixed := blend_target source target in
  blend_pixel width x y source pixels = set_pixel pixels (Z.to_nat ((y * width + x) * 4)) mixed
  ∧ u8 (alpha target) ≤ u8 (alpha mixed)
  ∧ Forall (λ c : Color → byte, Z.min (u8 (c source)) (u8 (c target)) ≤ u8 (c mixed)
      ≤ Z.max (u8 (c source)) (u8 (c target))) [red; green; blue].
Proof.
  intros Hx Hw Hy Ht. cbn zeta. split.
  - unfold blend_pixel, u32_as_i32. rewrite (proj2 (Z.ltb_ge x 0)), (proj2 (Z.ltb_ge y 0)), (proj2 (Z.ltb_lt width _)) by lia.
    rewrite (proj2 (Z.leb_gt width x)) by lia. cbn [orb]. unfold pixel_index.
    rewrite (proj2 (checked_mul_Some 64 y width (y * width))) by nia. cbn [mbind option_bind].
    rewrite (proj2 (checked_add_Some 64 (y * width) x (y * width + x))) by nia. cbn [mbind option_bind].
    rewrite (proj2 (checked_mul_Some 64 (y * width + x) 4 ((y * width + x) * 4))) by nia. by rewrite Ht.
  - unfold blend_target. pose proof (u8_range (alpha source)) as Hs. pose proof (u8_range (alpha target)) as Htr.
    set (sa := u8 (alpha source)) in *. set (ta := u8 (alpha target)) in *.
    destruct (Z.eqb_spec (sa * 255 + ta * (255 - sa)) 0) as [E|E].
    + split; [done|]. repeat (apply Forall_cons; split; [lia|]). by apply Forall_nil.
    + cbn [alpha]. rewrite u8_to_u8.
      assert (ta ≤ (sa * 255 + ta * (255 - sa)) / 255 ≤ 255) as Ha.
      { split; [apply Z.div_le_lower_bound; nia|apply Z.div_le_upper_bound; nia]. }
      rewrite Z.mod_small by lia. split; [lia|].
      assert (∀ c : Color → byte, Z.min (u8 (c source)) (u8 (c target))
        ≤ u8 (to_u8 (blend_channel sa ta (sa * 255 + ta * (255 - sa)) (u8 (c source)) (u8 (c target))))
        ≤ Z.max (u8 (c source)) (u8 (c target))) as Hc.
      { intros c. pose proof (blend_channel_between sa ta (u8 (c source)) (u8 (c target)) ltac:(lia) ltac:(lia) ltac:(nia)).
        pose proof (u8_range (c source)). pose proof (u8_range (c target)). rewrite u8_to_u8, Z.mod_small by lia. done. }
      apply Forall_cons; split; [apply (Hc red)|]. apply Forall_cons; split; [apply (Hc green)|].
      apply Forall_cons; split; [apply (Hc blue)|]. by apply Forall_nil.
Qed.

Lemma blended_pixel_witness :
  blend_pixel 2 1 0 (color 200 0 0 127) (replicate 8 (to_u8 255))
  = set_pixel (replicate 8 (to_u8 255)) 4 (color 227 128 128 255).
Proof.
  assert (blend_target (color 200 0 0 127) (color 255 255 255 255) = color 227 128 128 255) as <- by by vm_compute.
  apply (blended_pixel 2 1 0 (color 200 0 0 127) (replicate 8 (to_u8 255)) (color 255 255 255 255)); by vm_compute.
Defined.

(** ** Fitting a line *)

Lemma fit_search_spec fits n fuel lower upper :
  (upper - lower ≤ fuel)%nat → (upper ≤ n)%nat → (lower ≤ upper)%nat →
  (lower = 0%nat ∨ fits lower = true) →
  let k := fit_search fuel fits lower upper in
  (lower ≤ k ≤ upper)%nat ∧ (k = 0%nat ∨ fits k = true) ∧
  ((∀ i j, (i ≤ j)%nat → fits j = true → fits i = true) →
   ∀ j, (k < j ≤ upper)%nat → fits j = false).
Proof.
  revert lower upper. induction fuel as [|fuel IH]; intros lower upper Hf Hu Hl H0; cbn [fit_search].
  { split; [lia|]. split; [done|]. lia. }
  destruct (Nat.ltb_spec lower upper) as [Hlt|Hge]; [|split; [lia|]; split; [done|lia]].
  assert (lower < Nat.div2 (lower + upper + 1) ≤ upper)%nat as Hm.
  { pose proof (Nat.div2_odd (lower + upper + 1)). destruct (Nat.odd _); cbn in *; lia. }
  destruct (fits (Nat.div2 (lower + upper + 1))) eqn:E.
  - destruct (IH (Nat.div2 (lower + upper + 1)) upper) as (Hk & Hfit & Hmax); [lia..|by right|].
    split; [lia|]. by split.
  - destruct (IH lower (Nat.div2 (lower + upper + 1) - 1)%nat) as (Hk & Hfit & Hmax); [lia..|done|].
    split; [lia|]. split; [done|]. intros Hmono j Hj.
    destruct (decide (j ≤ Nat.div2 (lower + upper + 1) - 1)%nat) as [Hle|Hgt]; [apply Hmax; [done|lia]|].
    destruct (fits j) eqn:Ej; [|done]. rewrite (Hmono _ j) in E; [done|lia|done].
Qed.

(** Comparisons of numbers, for which one of [≤] and [>] holds. *)
Lemma f32_le_total x y : SFcompare x y ≠ None → f32_gt x y = false → f32_le x y = true.
Proof.
  unfold f32_gt, f32_le, SFltb, SFleb.
  assert (SFcompare y x = CompOpp <$> SFcompare x y) as ->.
  { destruct x as [[]|[]| |[] m e], y as [[]|[]| |[] m' e']; cbn [SFcompare]; try done;
      rewrite (Z.compare_antisym e e'); destruct (e ?= e')%Z; cbn [CompOpp fmap option_fmap option_map];
      try done; change (Pos.compare_cont Eq ?a ?b) with (a ?= b)%positive;
      rewrite (Pos.compare_antisym m m'); by destruct (m ?= m')%positive. }
  destruct (SFcompare x y) as [[]|]; done.
Qed.

(** A text that is fitted to a width is the text with its white space
    normalized when that fits; otherwise its beginning with an ellipsis, which
    fits and, if longer texts are wider, is the longest that does; and nothing
    at all only where not even the ellipsis fits. *)
Theorem fitted_line text width measure :
  (∀ s, SFcompare (measure s) width ≠ None) →
  let normalized := join_spaces (split_whitespace text) in
  let line := fit_single_line_by text width measure in
  (f32_le (measure normalized) width = true ∧ line = normalized)
  ∨ (line = [] ∧ f32_gt (measure [Conversation.ellipsis]) width = true)
  ∨ ∃ n, (n ≤ length normalized)%nat ∧ line = shortened normalized n
      ∧ f32_le (measure line) width = true
      ∧ ((∀ i j, (i ≤ j)%nat → f32_le (measure (shortened normalized j)) width = true →
                 f32_le (measure (shortened normalized i)) width = true) →
         ∀ j, (n < j ≤ length normalized)%nat →
              f32_le (measure (shortened normalized j)) width = false).
Proof.
  intros Hnum normalized line. unfold line, fit_single_line_by. fold normalized.
  destruct (f32_le (measure normalized) width) eqn:E1; [by left|right].
  destruct (f32_gt (measure [Conversation.ellipsis]) width) eqn:E2; [by left|right].
  set (fits := λ n, f32_le (measure (shortened normalized n)) width).
  destruct (fit_search_spec fits (length normalized) (length normalized) 0 (length normalized))
    as (Hk & Hfit & Hmax); [lia..|by left|].
  exists (fit_search (length normalized) fits 0 (length normalized)).
  split; [lia|]. split; [done|]. split; [|done].
  destruct Hfit as [-> |H]; [|done]. apply f32_le_total; [apply Hnum|done].
Qed.

Lemma fitted_line_witness :
  let measure (s : rstring) := if (length s <=? 6)%nat then f32_of 5 else f32_of 7 in
  let line := fit_single_line_by (str "Ada  Lovelace") (f32_of 6) measure in
  line = shortened (str "Ada Lovelace") 5 ∧ f32_le (measure line) (f32_of 6) = true.
Proof.
  intros measure.
  destruct (fitted_line (str "Ada  Lovelace") (f32_of 6) measure) as [[H _]|[[_ H]|(n & Hn & E & Hf & _)]].
  - intros s. unfold measure. by destruct (length s <=? 6)%nat.
  - by vm_compute in H.
  - by vm_compute in H.
  - split; [by vm_compute|exact Hf].
Defined.

(** ** Pages *)

Lemma div_ceil_spec a b : 0 < a → 0 < b → (div_ceil a b - 1) * b < a ≤ div_ceil a b * b ∧ 0 < div_ceil a b.
Proof.
  intros Ha Hb. unfold div_ceil. pose proof (Z.div_mod a b ltac:(lia)) as E.
  pose proof (Z.mod_pos_bound a b Hb). destruct (Z.eqb_spec (a mod b) 0); nia.
Qed.

(** The lines of a page, as a range. *)
Definition page_lines (line_count text_height : Z) (line_height : f32) (page : Z) : list Z :=
  let '(_, first_line, lines_on_page) := page_layout line_count text_height line_height page in
  seqZ first_line lines_on_page.
Definition page_count (line_count text_height : Z) (line_height : f32) : Z :=
  (page_layout line_count text_height line_height 0).1.1.

Lemma pages_prefix n c k : 0 < k → 0 ≤ n → 
  concat ((λ p, seqZ (p * k) (Z.min (saturating_sub n (p * k)) k)) <$> seqZ 0 (Z.of_nat c))
  = seqZ 0 (Z.min n (Z.of_nat c * k)).
Proof.
  intros Hk Hn. induction c as [|c IH].
  { cbn [Z.of_nat]. rewrite Z.mul_0_l, Z.min_r by lia. done. }
  replace (Z.of_nat (S c)) with (Z.of_nat c + 1) by lia.
  rewrite seqZ_app, fmap_app, concat_app, IH by lia. cbn [seqZ fmap list_fmap]. 
  replace (seqZ (0 + Z.of_nat c) 1) with [Z.of_nat c] by (rewrite (seqZ_cons _ 1) by lia; f_equal; lia).
  cbn [fmap list_fmap concat]. rewrite app_nil_r. unfold saturating_sub.
  destruct (Z.le_ge_cases n (Z.of_nat c * k)).
  - rewrite (Z.min_l n) by lia. rewrite (Z.max_l 0), (Z.min_l 0) by lia.
    rewrite (Z.min_l n) by nia. by rewrite app_nil_r.
  - rewrite (Z.min_r n (Z.of_nat c * k)) by lia.
    replace (Z.min n ((Z.of_nat c + 1) * k)) with (Z.of_nat c * k + Z.min (Z.max 0 (n - Z.of_nat c * k)) k) by nia.
    by rewrite (seqZ_app 0 (Z.of_nat c * k)) by lia.
Qed.

(** Turning the pages of a long prompt or notice shows every line of it,
    each on one page and in order, whatever the size of the text; and turning
    goes round. *)
Theorem pages_show_every_line line_count text_height line_height :
  0 ≤ line_count →
  let n := page_count line_count text_height line_height in
  0 < n
  ∧ concat (page_lines line_count text_height line_height <$> seqZ 0 n) = seqZ 0 line_count
  ∧ ∀ page, page_lines line_count text_height line_height page
            = page_lines line_count text_height line_height (page mod n).
Proof.
  intros Hl n. unfold n, page_count, page_lines, page_layout. cbn [fst snd].
  set (k := Z.max (as_usize _) 1). assert (0 < k) as Hk by lia. clearbody k.
  set (c := div_ceil (Z.max line_count 1) k).
  destruct (div_ceil_spec (Z.max line_count 1) k) as (Hc & Hpos); [lia..|]. fold c in Hc, Hpos.
  split; [done|]. split.
  - pose proof (pages_prefix line_count (Z.to_nat c) k Hk Hl) as E.
    rewrite Z2Nat.id, Z.min_l in E by nia. rewrite <- E. f_equal.
    apply list_fmap_ext. intros i p Hp. apply list_elem_of_lookup_2, elem_of_seqZ in Hp.
    cbn beta iota. by rewrite (Z.mod_small p c) by lia.
  - intros page. cbn beta iota. by rewrite Z.mod_mod by lia.
Qed.

Lemma pages_show_every_line_witness :
  concat (page_lines 10 465 (f32_mul (f32_of 45) (tenths 13)) <$> seqZ 0 2) = seqZ 0 10.
Proof. exact (proj1 (proj2 (pages_show_every_line 10 465 (f32_mul (f32_of 45) (tenths 13)) ltac:(lia)))). Defined.

(** ** The overlay is always drawn *)

(** Coordinates in the range in which a library lays out and rasterizes text;
    sums of a few of them stay far from the ends of an [i32]. *)
Definition near (z : Z) : Prop := - 2 ^ 28 ≤ z ≤ 2 ^ 28.

Definition near_rect (g : Rect) : Prop :=
  near (r_x g) ∧ near (r_y g) ∧ 0 ≤ r_width g ≤ 2 ^ 28 ∧ 0 ≤ r_height g ≤ 2 ^ 28.
Definition near_glyph (g : Glyph) : Prop :=
  near (physical_x g) ∧ near (physical_y g)
  ∧ ∀ c p, p ∈ with_pixels g c → near p.1.1 ∧ near p.1.2.
Definition near_run (r : Run) : Prop :=
  near (as_i32 (line_y r)) ∧ near (as_i32 (f32_round (line_top r)))
  ∧ ∀ g, g ∈ glyphs r → near_glyph g.

(** What is relied on of the text library. *)
Record near_typeface (fonts : Typeface) : Prop := {
  near_draw l c g : g ∈ draw fonts l c → near_rect g;
  near_runs l r : r ∈ layout_runs fonts l → near_run r;
}.

Lemma i32_Some z : - 2 ^ 31 ≤ z < 2 ^ 31 → i32 z = Some z.
Proof.
  intros H. unfold i32. rewrite (proj2 (Z.leb_le _ _)), (proj2 (Z.ltb_lt _ _)) by lia. done.
Qed.
Lemma u32_Some z : 0 ≤ z < 2 ^ 32 → u32 z = Some z.
Proof. intros H. unfold u32. by rewrite (proj2 (fits_iff 32 z)). Qed.
Lemma u32_as_i32_small z : z < 2 ^ 31 → u32_as_i32 z = z.
Proof. intros H. unfold u32_as_i32. by rewrite (proj2 (Z.ltb_lt _ _)). Qed.

(** A drawing step that succeeds and keeps the size of the pixels. *)
Definition draws (f : list byte → option (list byte)) : Prop :=
  ∀ pixels, ∃ pixels', f pixels = Some pixels' ∧ length pixels' = length pixels.

Lemma draws_blend width x y c : draws (λ pixels, Some (blend_pixel width x y c pixels)).
Proof. intros pixels. eexists. split; [done|apply length_blend_pixel]. Qed.
Lemma draws_id : draws Some.
Proof. intros pixels. by eexists. Qed.
Lemma draws_bind f g : draws f → draws g → draws (λ pixels, f pixels ≫= g).
Proof.
  intros Hf Hg pixels. destruct (Hf pixels) as (p1 & -> & <-). apply (Hg p1).
Qed.
Lemma draws_for_each {B} (f : B → list byte → option (list byte)) l :
  (∀ b, b ∈ l → draws (f b)) → draws (for_each f l).
Proof.
  intros H pixels. apply (for_each_inv (λ p, length p = length pixels)); [done|].
  intros b a Hb <-. by apply H.
Qed.

Hint Resolve draws_blend draws_id draws_bind : draws.

(** *** Shapes *)

Lemma draws_circle stride cx cy r c : draws (blend_circle stride cx cy r c).
Proof.
  unfold blend_circle. apply draws_for_each. intros y _. apply draws_for_each. intros x _.
  destruct (_ <=? _); auto with draws.
Qed.

Lemma rounded_offset_Some local extent radius :
  0 ≤ local < extent → 0 ≤ radius ≤ extent → extent < 2 ^ 32 →
  ∃ d, rounded_offset local extent radius = Some d.
Proof.
  intros Hl Hr He. unfold rounded_offset. destruct (Z.ltb_spec local radius).
  - eexists. apply u32_Some. lia.
  - rewrite u32_Some by lia. by eexists.
Qed.

Lemma rounded_rect_Some x y width height radius :
  0 ≤ x < width → 0 ≤ y < height → 0 ≤ radius → radius ≤ width → radius ≤ height →
  width < 2 ^ 32 → height < 2 ^ 32 →
  ∃ b, rounded_rect_contains x y width height radius = Some b.
Proof.
  intros. unfold rounded_rect_contains.
  destruct (rounded_offset_Some x width radius) as [dx ->]; [lia..|].
  destruct (rounded_offset_Some y height radius) as [dy ->]; [lia..|]. by eexists.
Qed.

Lemma corner_radius radius width height : 0 ≤ radius → 0 ≤ width → 0 ≤ height →
  let r := Z.min (Z.min radius (width / 2)) (height / 2) in
  0 ≤ r ∧ r * 2 ≤ width ∧ r * 2 ≤ height.
Proof.
  intros. pose proof (Z.mul_div_le width 2). pose proof (Z.mul_div_le height 2).
  pose proof (Z.div_pos width 2). pose proof (Z.div_pos height 2). lia.
Qed.

Lemma draws_rounded_rect stride x y width height radius c :
  0 ≤ width < 2 ^ 32 → 0 ≤ height < 2 ^ 32 → 0 ≤ radius →
  draws (blend_rounded_rect stride x y width height radius c).
Proof.
  intros Hw Hh Hr. unfold blend_rounded_rect.
  destruct (corner_radius radius width height) as (H0 & H1 & H2); [lia..|].
  set (r := Z.min _ (height / 2)) in *. clearbody r.
  apply draws_for_each. intros row Hrow%elem_of_range. apply draws_for_each.
  intros column Hcol%elem_of_range. unfold saturating_add_u32 in *.
  destruct (rounded_rect_Some (column - x) (row - y) width height r) as [b E]; [lia..|].
  rewrite E. cbn [mbind option_bind]. destruct b; auto with draws.
Qed.

Lemma inside_inner_Some x y width height radius thickness :
  0 ≤ x < width → 0 ≤ y < height → width < 2 ^ 31 → height < 2 ^ 31 →
  0 ≤ radius → radius * 2 ≤ width → radius * 2 ≤ height →
  0 ≤ thickness → thickness * 2 ≤ width → thickness * 2 ≤ height →
  ∃ b, inside_inner x y width height radius thickness = Some b.
Proof.
  intros. unfold inside_inner. rewrite !u32_Some by lia. cbn [mbind option_bind].
  destruct (_ && _) eqn:E; [|by eexists]. simp_bool.
  apply rounded_rect_Some; unfold saturating_sub; lia.
Qed.

Lemma draws_outline stride x y width height radius thickness c :
  0 ≤ x → 0 ≤ y → x + width < 2 ^ 31 → y + height < 2 ^ 31 → 0 ≤ width → 0 ≤ height →
  0 ≤ radius → 0 ≤ thickness →
  draws (blend_rounded_rect_outline stride x y width height radius thickness c).
Proof.
  intros. unfold blend_rounded_rect_outline.
  destruct (corner_radius radius width height) as (H7 & H8 & H9); [lia..|].
  destruct (corner_radius thickness width height) as (H10 & H11 & H12); [lia..|].
  set (r := Z.min (Z.min radius _) (height / 2)) in *. clearbody r.
  set (t := Z.min (Z.min thickness _) (height / 2)) in *. clearbody t.
  apply draws_for_each. intros ly Hly%elem_of_range. apply draws_for_each.
  intros lx Hlx%elem_of_range.
  destruct (rounded_rect_Some lx ly width height r) as [b E]; [lia..|].
  destruct (inside_inner_Some lx ly width height r t) as [b' E']; [lia..|].
  rewrite E, E', !u32_Some by lia. cbn [mbind option_bind]. destruct (b && _); auto with draws.
Qed.

(** *** Text *)

Section Overlay.
Context (fonts : Typeface) (Hfonts : near_typeface fonts).

Lemma draws_text_in width height text size y x text_width c force_rgb :
  0 ≤ height < 2 ^ 28 → near y → 0 ≤ x < 2 ^ 28 →
  draws (draw_text_in fonts width height text size y x text_width c force_rgb).
Proof using Hfonts.
  unfold near. intros Hh Hy Hx. unfold draw_text_in. rewrite u32_as_i32_small, i32_Some by lia.
  cbn [mbind option_bind]. apply draws_for_each.
  intros g (Hgx & Hgy & Hgw & Hgh)%(near_draw _ Hfonts). unfold near in *. unfold draw_rect.
  rewrite !(u32_as_i32_small (r_width g)), !(u32_as_i32_small (r_height g)),
    (u32_as_i32_small x), !i32_Some by lia. cbn [mbind option_bind].
  destruct (_ || _); [auto with draws|]. destruct (_ <? _); [auto with draws|].
  destruct (_ <? _); auto with draws.
Qed.

Lemma draws_shadowed_text width height text size y c scale :
  0 ≤ height < 2 ^ 28 → 0 ≤ y ≤ 2 ^ 27 → 0 ≤ scale ≤ 2 ^ 20 →
  draws (draw_shadowed_text fonts width height text size y c scale).
Proof using Hfonts.
  intros. unfold draw_shadowed_text, draw_text. rewrite u32_as_i32_small by lia.
  do 2 (rewrite i32_Some by lia; cbn [mbind option_bind]). apply draws_bind; apply draws_text_in; unfold near; lia.
Qed.

(** The sizes that are tried get to the smallest. *)
Fixpoint shrinks (fuel : nat) (size minimum step : f32) : bool :=
  match fuel with
  | O => false
  | S fuel => f32_le size minimum || shrinks fuel (next_font_size size minimum step) minimum step
  end.

Lemma fit_size_Some fuel text size minimum step w h :
  shrinks fuel size minimum step = true →
  ∃ s l, fit_size fonts fuel text size minimum step w h = Some (s, layout_runs fonts l).
Proof.
  clear Hfonts. revert size. induction fuel as [|fuel IH]; intros size; cbn [shrinks fit_size]; [done|].
  destruct (f32_le size minimum) eqn:E; rewrite ?orb_true_r; [by eexists _, _|].
  rewrite orb_false_r. cbn [orb]. intros H.
  destruct (f32_le (foldl _ _ _) _); [by eexists _, _|]. by apply IH.
Qed.

Lemma draws_runs width c y x tw th runs :
  near y → 0 ≤ x < 2 ^ 28 → tw < 2 ^ 28 → th < 2 ^ 28 → Forall near_run runs →
  draws (draw_runs width c y x tw th runs).
Proof.
  unfold near. intros Hy Hx Htw Hth Hruns. unfold draw_runs.
  assert (near (as_i32 (f32_round (from_option line_top (f32_of 0) (head runs))))) as Htop.
  { destruct Hruns as [|r rs [_ [H _]] _]; [by vm_compute|done]. }
  set (top := as_i32 (f32_round _)) in *. clearbody top. unfold near in *.
  apply draws_for_each. intros r Hr. rewrite Forall_forall in Hruns.
  destruct (Hruns _ Hr) as (Hly & _ & Hg). unfold near in Hly. clear Hruns.
  apply draws_for_each. intros g (Hpx & Hpy & Hp)%Hg. unfold near in Hpx, Hpy.
  apply draws_for_each. intros [[ox oy] gc] [Hox Hoy]%Hp. cbn [fst snd] in *. unfold near in Hox, Hoy.
  unfold draw_glyph_pixel. rewrite !u32_as_i32_small by lia.
  repeat (rewrite i32_Some by lia; cbn [mbind option_bind]).
  destruct (_ || _); auto with draws.
Qed.

(** A wrapped text and the hint under it, as both callers draw them. *)
Lemma draws_wrapped width height text maximum minimum step y x tw th c page hint_y :
  shrinks FIT_FUEL maximum minimum step = true →
  0 ≤ height < 2 ^ 28 → near y → 0 ≤ x < 2 ^ 28 → tw < 2 ^ 28 → th < 2 ^ 28 → near hint_y →
  draws (λ pixels,
    '(pixels, pages) ← draw_wrapped_text_in fonts width text maximum minimum step y x tw th c page pixels;
    if 1 <? pages then draw_page_hint fonts width height page pages hint_y AUTHENTICATION_RENDER_SCALE pixels
    else Some pixels).
Proof using Hfonts.
  intros Hs Hh Hy Hx Htw Hth Hhy pixels. unfold draw_wrapped_text_in.
  destruct (fit_size_Some FIT_FUEL (reflow_instruction text) maximum minimum step tw th Hs) as (s & l & ->).
  cbn [mbind option_bind]. destruct (page_layout _ _ _ _) as [[n first] lines].
  assert (Forall near_run (take (Z.to_nat lines) (drop (Z.to_nat first) (layout_runs fonts l)))) as Hr.
  { apply Forall_take, Forall_drop, Forall_forall. intros r. apply (near_runs _ Hfonts). }
  destruct (draws_runs width c y x tw th _ Hy Hx Htw Hth Hr pixels) as (p & -> & <-).
  cbn [mbind option_bind]. destruct (1 <? n); [|by eexists].
  unfold draw_page_hint, draw_text. by apply draws_text_in.
Qed.

Ltac const := by vm_compute.

Lemma draws_response conversation detailed :
  draws (draw_response fonts 1500 1200 conversation detailed).
Proof using Hfonts.
  unfold draw_response. cbn zeta. apply draws_bind; apply draws_text_in; const.
Qed.

Lemma draws_avatar : draws (draw_authentication_avatar 1500 AUTHENTICATION_RENDER_SCALE).
Proof using Type.
  unfold draw_authentication_avatar. cbn zeta. apply draws_bind; [apply draws_circle|].
  rewrite u32_Some by const. cbn [mbind option_bind]. apply draws_circle.
Qed.

Lemma draws_field : draws (draw_authentication_field 1500 AUTHENTICATION_RENDER_SCALE).
Proof using Type.
  unfold draw_authentication_field. apply draws_bind.
  - apply draws_rounded_rect; const.
  - apply draws_outline; const.
Qed.

Lemma draws_prompt display_name username prompt page :
  draws (draw_prompt fonts 1500 1200 display_name username prompt page).
Proof using Hfonts.
  unfold draw_prompt. cbn zeta. apply draws_bind; [apply draws_shadowed_text; const|].
  apply draws_bind; [apply draws_shadowed_text; const|]. rewrite u32_Some by const.
  cbn [mbind option_bind]. apply draws_wrapped; const.
Qed.

Lemma draws_identity name display_name username :
  draws (draw_identity fonts 1500 1200 name display_name username).
Proof using Hfonts.
  unfold draw_identity. cbn zeta. apply draws_bind; [apply draws_avatar|].
  do 2 (apply draws_bind; [apply draws_shadowed_text; const|]). apply draws_shadowed_text; const.
Qed.

Lemma draws_notice notice error page : draws (draw_notice fonts 1500 1200 notice error page).
Proof using Hfonts.
  unfold draw_notice. rewrite u32_Some by const. cbn [mbind option_bind].
  apply draws_wrapped; const.
Qed.

Lemma draws_overlay username name conversation confirmed page :
  draws (render_authentication_overlay fonts 1500 1200 username name conversation confirmed page).
Proof using Hfonts.
  unfold render_authentication_overlay. cbn zeta. apply draws_bind.
  { destruct (if confirmed then _ else _); [apply draws_prompt|apply draws_identity]. }
  destruct (negb confirmed); [apply draws_shadowed_text; const|].
  apply draws_bind; [apply draws_field|]. apply draws_bind; [apply draws_response|].
  destruct (Conversation.message conversation); [apply draws_notice|auto with draws].
Qed.

End Overlay.
