(* ===== verification/Locker.v ===== *)
(** * The locker's presentation ([src/locker/mod.rs], [src/locker/auth.rs])

    The client of the PAM worker, from its start to its end, and the
    presentation that the lock runtime drives: an instance of
    [SessionLock.Presentation].  What the outside does is in the state: what
    each worker that will be started does, when its events are there to be
    polled, and when the wallpaper has a new frame.  [log] is what the
    presentation did with its workers; nothing reads it.  [None] is a panic. *)

From S2P Require Import Prelude Utf8 LockerDraw.
From S2P Require Conversation LockProtocol LockWorker SessionLock HeicRelay WallpaperState.

#[local] Existing Instance Conversation.Status_eq_dec.
#[local] Existing Instance Conversation.Effect_eq_dec.
#[local] Existing Instance LockProtocol.Message_eq_dec.
#[local] Existing Instance WallpaperState.Refresh_eq_dec.

Definition MAX_AUTH_EVENTS_PER_REFRESH : nat := 32.

(** ** The client of a worker *)

Record Identity := mkIdentity { uid : Z; username : rstring; display_name : rstring }.

Inductive Error :=
| WorkerNotFound
| Spawn
| UnexpectedWorker
| Protocol.
#[export] Instance Error_eq_dec : EqDecision Error.
Proof. solve_decision. Defined.

(** An absolute path, from the root. *)
Abbreviation path := (list (list byte)).
Definition parent (p : path) : option path :=
  match p with [] => None | _ => Some (take (length p - 1) p) end.
Definition WORKER_NAME : list byte := bytes_of "genkan-lock-auth".
Definition worker_path (executable : option path) (is_file : path → bool) : result Error path :=
  executable ← ok_or Spawn executable;
  directory ← ok_or WorkerNotFound (parent executable);
  let development := directory ++ [WORKER_NAME] in
  if is_file development then Ok development
  else
    prefix ← ok_or WorkerNotFound (parent directory);
    let installed := prefix ++ [bytes_of "libexec"; WORKER_NAME] in
    if is_file installed then Ok installed else Err WorkerNotFound.

(** What [spawn_worker] comes to: no process, a process that it killed because
    no pidfd could be opened, or a worker. *)
Inductive Spawned := NotSpawned | NoPidfd | Started.
#[export] Instance Spawned_eq_dec : EqDecision Spawned.
Proof. solve_decision. Defined.

(** What a start meets, and what the worker it starts does: [greeting] is what
    its socket delivers, [outcomes] whether each write to it works, [polls]
    what each poll of its events finds. *)
Record WorkerWorld := mkWorld {
  located : result Error path;
  socket_pair : bool;
  spawned : Spawned;
  cloned : bool;
  greeting : list (option LockProtocol.Message);
  read_timeout_cleared : bool;
  reader_spawned : bool;
  outcomes : list bool;
  polls : list (option LockWorker.Event);
}.

(** [Kills]: the worker is sent a signal through its pidfd; [Reaps]: its process
    has been waited for, here or by the reader that is joined. *)
Inductive Act :=
| Spawns
| Kills
| Reaps
| Sends (m : LockProtocol.Message)
| Hears (e : LockWorker.Event).
#[export] Instance Event_eq_dec : EqDecision LockWorker.Event.
Proof. solve_decision. Defined.
#[export] Instance Act_eq_dec : EqDecision Act.
Proof. solve_decision. Defined.

(** [reader] is [None] once the client was cancelled; [events] with it. *)
Record Client := mkClient {
  writer : LockWorker.Connection;
  events : option (list (option LockWorker.Event));
  reader : bool;
}.

(** [signal_pidfd] and [wait_child]. *)
Definition kill_and_reap : list Act := [Kills; Reaps].

(** [start_with_worker_timeout]; a greeting that is late, malformed or missing
    is [None] in the world. *)
Definition start (identity : Identity) (w : WorkerWorld) : result Error Client * list Act :=
  match located w with
  | Err e => (Err e, [])
  | Ok _ =>
    if negb (socket_pair w) then (Err Spawn, [])
    else match spawned w with
    | NotSpawned => (Err Spawn, [])
    | NoPidfd => (Err Spawn, Spawns :: kill_and_reap)
    | Started =>
      if negb (cloned w) then (Err Spawn, Spawns :: kill_and_reap)
      else
        let '(writer, ready) :=
          LockWorker.receive (LockWorker.mkConnection (greeting w) (outcomes w) []) in
        if bool_decide (ready = Some (LockProtocol.Ready (uid identity) (username identity))) then
          if negb (read_timeout_cleared w) then (Err Spawn, Spawns :: kill_and_reap)
          else if negb (reader_spawned w) then (Err Spawn, Spawns :: kill_and_reap)
          else (Ok (mkClient writer (Some (polls w)) true), [Spawns])
        else
          (Err (match ready with None => Protocol | Some _ => UnexpectedWorker end),
           Spawns :: kill_and_reap)
    end
  end.

(** [self.writer.send]: the client, whether it worked, and what was sent. *)
Definition send (m : LockProtocol.Message) (c : Client) : Client * bool * list Act :=
  let '(writer, sent) := LockWorker.send m (writer c) in
  (mkClient writer (events c) (reader c), sent, if sent then [Sends m] else []).
Definition begin : Client → Client * bool * list Act := send LockProtocol.Begin.
Definition retry_client : Client → Client * bool * list Act := send LockProtocol.Retry.
Definition respond (id : Z) (response : rstring) (c : Client) : Client * bool * list Act :=
  match LockProtocol.secret_new (encode response) with
  | Err _ => (c, false, [])
  | Ok response => send (LockProtocol.Response id response) c
  end.

Definition try_receive (c : Client) : Client * option LockWorker.Event :=
  match events c with
  | None => (c, None)
  | Some [] => (c, None)
  | Some (e :: es) => (mkClient (writer c) (Some es) (reader c), e)
  end.

(** The reader's thread is joined: it reaps the worker before it returns. *)
Definition cancel (c : Client) : Client * list Act :=
  if negb (reader c) then (c, [])
  else (mkClient (writer c) None false, kill_and_reap).

(** ** The presentation *)

(** The frame that arrives at the wallpaper's source before a poll, if one
    does, and whether the source has failed for good. *)
Abbreviation Arrival := (option (HeicRelay.Update * bool)).

Record Outside := mkOutside {
  workers : list WorkerWorld;
  arrivals : list Arrival;
  log : list Act;
}.

Record LockerPresentation := mkLocker {
  wallpaper : WallpaperState.State;
  identity : Identity;
  conversation : Conversation.Conversation;
  auth : option (Z * Client);
  prompt_id : option Z;
  confirmed : bool;
  authorized : bool;
  background : option SessionLock.RgbaFrame;
  overlay : option SessionLock.RgbaFrame;
  frame : option SessionLock.PresentationFrame;
  instruction_page : Z;
  outside : Outside;
}.

Definition set_conversation (c : Conversation.Conversation) (l : LockerPresentation) :=
  mkLocker (wallpaper l) (identity l) c (auth l) (prompt_id l) (confirmed l) (authorized l)
    (background l) (overlay l) (frame l) (instruction_page l) (outside l).
Definition set_auth (a : option (Z * Client)) (l : LockerPresentation) :=
  mkLocker (wallpaper l) (identity l) (conversation l) a (prompt_id l) (confirmed l) (authorized l)
    (background l) (overlay l) (frame l) (instruction_page l) (outside l).
Definition set_prompt_id (id : option Z) (l : LockerPresentation) :=
  mkLocker (wallpaper l) (identity l) (conversation l) (auth l) id (confirmed l) (authorized l)
    (background l) (overlay l) (frame l) (instruction_page l) (outside l).
Definition set_confirmed (b : bool) (l : LockerPresentation) :=
  mkLocker (wallpaper l) (identity l) (conversation l) (auth l) (prompt_id l) b (authorized l)
    (background l) (overlay l) (frame l) (instruction_page l) (outside l).
Definition set_authorized (b : bool) (l : LockerPresentation) :=
  mkLocker (wallpaper l) (identity l) (conversation l) (auth l) (prompt_id l) (confirmed l) b
    (background l) (overlay l) (frame l) (instruction_page l) (outside l).
Definition set_wallpaper (w : WallpaperState.State) (l : LockerPresentation) :=
  mkLocker w (identity l) (conversation l) (auth l) (prompt_id l) (confirmed l) (authorized l)
    (background l) (overlay l) (frame l) (instruction_page l) (outside l).
Definition set_frames (bg ov : option SessionLock.RgbaFrame)
    (f : option SessionLock.PresentationFrame) (l : LockerPresentation) :=
  mkLocker (wallpaper l) (identity l) (conversation l) (auth l) (prompt_id l) (confirmed l)
    (authorized l) bg ov f (instruction_page l) (outside l).
Definition set_instruction_page (n : Z) (l : LockerPresentation) :=
  mkLocker (wallpaper l) (identity l) (conversation l) (auth l) (prompt_id l) (confirmed l)
    (authorized l) (background l) (overlay l) (frame l) n (outside l).
Definition set_outside (o : Outside) (l : LockerPresentation) :=
  mkLocker (wallpaper l) (identity l) (conversation l) (auth l) (prompt_id l) (confirmed l)
    (authorized l) (background l) (overlay l) (frame l) (instruction_page l) o.

Definition record (acts : list Act) (l : LockerPresentation) : LockerPresentation :=
  set_outside (mkOutside (workers (outside l)) (arrivals (outside l)) (log (outside l) ++ acts)) l.

(** [auth::Client::start], in the world that is next; when the list ends no
    process can be started any more. *)
Definition start_client (l : LockerPresentation) : result Error Client * LockerPresentation :=
  match workers (outside l) with
  | [] => (Err Spawn, l)
  | w :: ws =>
    let '(r, acts) := start (identity l) w in
    (r, record acts (set_outside (mkOutside ws (arrivals (outside l)) (log (outside l))) l))
  end.

Definition UNAVAILABLE : rstring := str "Authentication worker unavailable".
Definition FAILED : rstring := str "Authentication failed".

Definition fail_authentication (l : LockerPresentation) : LockerPresentation :=
  set_conversation (Conversation.fail UNAVAILABLE (conversation l)) l.

Definition cancel_client (l : LockerPresentation) : LockerPresentation :=
  match auth l with
  | None => l
  | Some (_, client) => let '(_, acts) := cancel client in record acts (set_auth None l)
  end.

Definition replace_worker (attempt : Z) (l : LockerPresentation) : LockerPresentation :=
  let l := cancel_client l in
  match start_client l with
  | (Ok replacement, l) =>
    let '(replacement, ok, acts) := begin replacement in
    let l := record acts l in
    if ok : bool then set_auth (Some (attempt, replacement)) l
    else
      let '(_, acts) := cancel replacement in
      fail_authentication (record acts l)
  | (Err _, l) => fail_authentication l
  end.

Definition retry (l : LockerPresentation) : LockerPresentation * bool :=
  let l := set_instruction_page 0 l in
  let '(c, next) := Conversation.begin_attempt (conversation l) in
  let l := set_conversation c l in
  match auth l with
  | Some (attempt, client) =>
    let '(client, ok, acts) := retry_client client in
    let l := record acts l in
    if ok : bool then (set_prompt_id None (set_auth (Some (next, client)) l), true)
    else (set_prompt_id None (replace_worker next (set_auth (Some (attempt, client)) l)), true)
  | None => (set_prompt_id None (replace_worker next l), true)
  end.

(** The client is taken, and cancelled before it is replaced. *)
Definition cancel_attempt (l : LockerPresentation) : LockerPresentation * bool :=
  match auth l with
  | None => (l, false)
  | Some (_, client) =>
    let l := set_auth None l in
    let '(c, next) := Conversation.begin_attempt (conversation l) in
    let l := set_instruction_page 0 (set_conversation c l) in
    let '(_, acts) := cancel client in
    let l := record acts l in
    (set_prompt_id None (replace_worker next l), true)
  end.

(** ** Events *)

Definition receive_event (attempt : Z) (event : LockWorker.Event) (l : LockerPresentation) :
    LockerPresentation :=
  let tell r := Conversation.receive attempt r (conversation l) in
  match event with
  | LockWorker.EventPrompt id secret text =>
    set_conversation (fst (tell (Conversation.Prompt secret text))) (set_prompt_id (Some id) l)
  | LockWorker.EventNotice error text =>
    set_conversation (fst (tell (Conversation.Notice error text))) l
  | LockWorker.EventSuccess =>
    let '(c, effect) := tell Conversation.Success in
    let l := set_conversation c (set_prompt_id None l) in
    if bool_decide (effect = Some Conversation.EAuthenticated) then set_authorized true l else l
  | LockWorker.EventFailure =>
    set_conversation (fst (tell (Conversation.Failure FAILED))) (set_prompt_id None l)
  end.

(** The loop of [receive_auth], with what is left of its turns. *)
Fixpoint receive_events (turns : nat) (l : LockerPresentation) (changed : bool) :
    LockerPresentation * bool :=
  match turns with
  | O => (l, changed)
  | S turns =>
    match auth l with
    | None => (l, changed)
    | Some (attempt, client) =>
      let '(client, event) := try_receive client in
      let l := set_auth (Some (attempt, client)) l in
      match event with
      | None => (l, changed)
      | Some event =>
        let l := record [Hears event] l in
        if negb (Conversation.accepts (conversation l) attempt) then receive_events turns l true
        else receive_events turns (receive_event attempt event l) true
      end
    end
  end.

Definition receive_auth (l : LockerPresentation) : LockerPresentation * bool :=
  if negb (confirmed l) then (l, false)
  else
    let '(l, changed) := receive_events MAX_AUTH_EVENTS_PER_REFRESH l false in
    ((if changed then set_instruction_page 0 l else l), changed).

(** ** Frames *)

Section Presentation.
Context (fonts : Typeface).

Definition rebuild_frame (l : LockerPresentation) : option LockerPresentation :=
  match overlay l with
  | None => Some (set_frames (background l) None None l)
  | Some ov =>
    let '(canvas_width, canvas_height) := authentication_canvas_dimensions in
    horizontal ← u32 (canvas_width - SessionLock.fwidth ov);
    vertical ← u32 (canvas_height - SessionLock.fheight ov);
    Some (set_frames (background l) (Some ov)
            (SessionLock.frame_new canvas_width canvas_height (background l) ov
               (horizontal / 2) (vertical / 2)) l)
  end.

Definition blank (width height : Z) : list byte := replicate (Z.to_nat (width * height * 4)) Byte.x00.

Definition rebuild_overlay (l : LockerPresentation) : option LockerPresentation :=
  let '(width, height) := authentication_overlay_dimensions in
  pixels ← render_authentication_overlay fonts width height (username (identity l))
             (display_name (identity l)) (conversation l) (confirmed l) (instruction_page l)
             (blank width height);
  ov ← SessionLock.rgba_new width height pixels;
  rebuild_frame (set_frames (background l) (Some ov) (frame l) l).

Definition rebuild (l : LockerPresentation) : option LockerPresentation :=
  rebuild_overlay
    (set_frames (WallpaperState.rgba_frame (wallpaper l)) (overlay l) (frame l) l).

Definition new (identity : Identity) (client : Client) (wallpaper : WallpaperState.State)
    (outside : Outside) : option LockerPresentation :=
  let conversation := Conversation.new in
  rebuild (mkLocker wallpaper identity conversation
             (Some (Conversation.attempt conversation, client)) None false false None None None 0
             outside).

(** ** The trait *)

Definition receive_latest (l : LockerPresentation) :
    option LockerPresentation * SessionLock.Refresh :=
  let '(l, changed) := receive_auth l in
  if changed then (rebuild_overlay l, SessionLock.ROverlay) else (Some l, SessionLock.Unchanged).

(** What arrives at the wallpaper before it is polled. *)
Definition arrive (l : LockerPresentation) : LockerPresentation :=
  match arrivals (outside l) with
  | [] => l
  | a :: rest =>
    let l := set_outside (mkOutside (workers (outside l)) rest (log (outside l))) l in
    match a with
    | None => l
    | Some (u, failed) =>
      set_wallpaper (WallpaperState.run_op (wallpaper l) (WallpaperState.OArrive u failed)) l
    end
  end.

Definition receive_deferred (l : LockerPresentation) :
    option LockerPresentation * SessionLock.Refresh :=
  let l := arrive l in
  let '(refresh, w) := WallpaperState.receive_latest (wallpaper l) in
  let l := set_wallpaper w l in
  let l :=
    if bool_decide (refresh = WallpaperState.Unchanged) then Some l
    else rebuild_frame
           (set_frames (WallpaperState.rgba_frame (wallpaper l)) (overlay l) (frame l) l) in
  (l, match refresh with
      | WallpaperState.RFailed => SessionLock.RFailed
      | WallpaperState.RFrame => SessionLock.RFrame
      | WallpaperState.Unchanged => SessionLock.Unchanged
      end).

Definition lock_confirmed (l : LockerPresentation) : option LockerPresentation :=
  let l := set_confirmed true l in
  let l :=
    match auth l with
    | None => fail_authentication l
    | Some (attempt, client) =>
      let '(client, ok, acts) := begin client in
      let l := record acts (set_auth (Some (attempt, client)) l) in
      if ok : bool then l else fail_authentication l
    end in
  rebuild_overlay l.

Definition authentication_input_enabled (confirmed : bool) : bool := confirmed.

(** [Submit] while an answer is awaited; the early returns leave [changed]
    false, and nothing is rebuilt. *)
Definition submit (l : LockerPresentation) : LockerPresentation * bool :=
  let id := prompt_id l in
  let l := set_prompt_id None l in
  match id with
  | None => (l, false)
  | Some id =>
    let '(c, submitted) := Conversation.submit (conversation l) in
    let l := set_conversation c l in
    match submitted with
    | None => (l, false)
    | Some (attempt, response) =>
      match auth l with
      | None => (l, false)
      | Some (active_attempt, client) =>
        if negb (active_attempt =? attempt) then (fail_authentication l, true)
        else
          let '(client, ok, acts) := respond id response client in
          let l := record acts (set_auth (Some (active_attempt, client)) l) in
          ((if ok : bool then l else fail_authentication l), true)
      end
    end
  end.

Definition next_page (l : LockerPresentation) : LockerPresentation * bool :=
  if bool_decide (persistent_prompt (Conversation.prompt (conversation l)) = None)
     && bool_decide (Conversation.message (conversation l) = None)
  then (l, false)
  else (set_instruction_page (wrapping_add 64 (instruction_page l) 1) l, true).

Definition handle_input (i : SessionLock.Input) (l : LockerPresentation) :
    LockerPresentation * bool :=
  match i with
  | SessionLock.Text text =>
    let '(c, changed) := Conversation.push_input text (conversation l) in
    (set_conversation c l, changed)
  | SessionLock.Backspace =>
    let '(c, changed) := Conversation.pop_input (conversation l) in
    (set_conversation c l, changed)
  | SessionLock.Submit =>
    if bool_decide (Conversation.status (conversation l) = Conversation.Failed) then retry l
    else submit l
  | SessionLock.Cancel => cancel_attempt l
  | SessionLock.NextPage => next_page l
  end.

Definition input (i : SessionLock.Input) (l : LockerPresentation) :
    option LockerPresentation * bool :=
  if negb (authentication_input_enabled (confirmed l)) then (Some l, false)
  else
    let '(l, changed) := handle_input i l in
    if changed then (rebuild_overlay l, true) else (Some l, false).

Definition take_authorization (l : LockerPresentation) : LockerPresentation * bool :=
  (set_authorized false l, authorized l).

(** The runtime drives a presentation until a panic ends the process. *)
#[export] Instance locker_presentation :
    SessionLock.Presentation (option LockerPresentation) := {
  SessionLock.receive_latest p :=
    match p with Some l => receive_latest l | None => (None, SessionLock.Unchanged) end;
  SessionLock.receive_deferred p :=
    match p with Some l => receive_deferred l | None => (None, SessionLock.Unchanged) end;
  SessionLock.frame p := p ≫= frame;
  SessionLock.lock_confirmed p := p ≫= lock_confirmed;
  SessionLock.give_input i p :=
    match p with Some l => input i l | None => (None, false) end;
  SessionLock.take_authorization p :=
    match p with
    | Some l => let '(l, granted) := take_authorization l in (Some l, granted)
    | None => (None, false)
    end;
}.

End Presentation.

(** The presentation as [run] makes it, once the worker has greeted. *)
Definition launched (fonts : Typeface) (i : Identity) (wallpaper : WallpaperState.State)
    (w : WorkerWorld) (ws : list WorkerWorld) (arrivals : list Arrival) : option LockerPresentation :=
  match start i w with
  | (Ok client, acts) => new fonts i client wallpaper (mkOutside ws arrivals acts)
  | (Err _, _) => None
  end.
