(* ===== verification/LockerProofs.v ===== *)
(** * The locker's presentation: proofs

    What holds of the presentation in every run, whatever the runtime, the user
    and the workers do: its workers one at a time and its answers to the worker
    that asked, an authorization only from a worker that greeted with the
    locker's identity, something to draw at any time, a way on for the user. *)

From S2P Require Import Prelude Utf8 LockerDraw Locker LockerDrawProofs.
From S2P Require Conversation LockProtocol LockWorker SessionLock WallpaperState.

#[local] Existing Instance Conversation.Status_eq_dec.
#[local] Existing Instance Conversation.Effect_eq_dec.
#[local] Existing Instance LockProtocol.Message_eq_dec.
#[local] Existing Instance WallpaperState.Refresh_eq_dec.
#[local] Arguments Conversation.fail : simpl never.
#[local] Arguments Conversation.receive : simpl never.
#[local] Arguments Conversation.begin_attempt : simpl never.
#[local] Arguments UNAVAILABLE : simpl never.
#[local] Arguments FAILED : simpl never.

(** ** The workers' log *)

(** Where the locker is with its workers: none, one with the prompt it waits
    to be answered, or one that was signalled. *)
Inductive Phase := NoWorker | Asked (id : option Z) | Killed.
#[export] Instance Phase_eq_dec : EqDecision Phase.
Proof. solve_decision. Defined.

(** What may happen in a phase.  A response needs the prompt that was heard
    last, and uses it up. *)
Definition next_phase (p : Phase) (a : Act) : option Phase :=
  match p, a with
  | NoWorker, Spawns => Some (Asked None)
  | Asked _, Kills => Some Killed
  | Killed, Reaps => Some NoWorker
  | Asked id, Sends (LockProtocol.Response id' _) =>
    if bool_decide (id = Some id') then Some (Asked None) else None
  | Asked id, Sends LockProtocol.Begin => Some (Asked id)
  | Asked _, Sends LockProtocol.Retry => Some (Asked None)
  | Asked _, Hears (LockWorker.EventPrompt id _ _) => Some (Asked (Some id))
  | Asked id, Hears (LockWorker.EventNotice _ _) => Some (Asked id)
  | Asked _, Hears _ => Some (Asked None)
  | _, _ => None
  end.
Fixpoint phase_after (p : Phase) (acts : list Act) : option Phase :=
  match acts with
  | [] => Some p
  | a :: acts => p ← next_phase p a; phase_after p acts
  end.
Definition phase_of (acts : list Act) : option Phase := phase_after NoWorker acts.

Lemma phase_after_app p acts acts' : phase_after p (acts ++ acts') = (p ← phase_after p acts; phase_after p acts').
Proof.
  revert p. induction acts as [|a acts IH]; intros p; cbn [phase_after app]; [done|].
  destruct (next_phase p a); [apply IH|done].
Qed.

(** ** A worker's world *)

(** The worker greets with the locker's identity. *)
Definition greets (i : Identity) (w : WorkerWorld) : Prop :=
  head (greeting w) = Some (Some (LockProtocol.Ready (uid i) (username i))).

Lemma start_spec i w :
  let '(r, acts) := start i w in
  match r with
  | Ok c => acts = [Spawns] ∧ greets i w ∧ events c = Some (polls w) ∧ reader c = true
  | Err _ => acts = [] ∨ acts = Spawns :: kill_and_reap
  end.
Proof.
  unfold start. destruct (located w); [|by left]. destruct (socket_pair w); [|by left].
  cbn [negb]. destruct (spawned w); [by left|by right|]. destruct (cloned w); [|by right].
  cbn [negb]. unfold LockWorker.receive, greets. cbn [LockWorker.inbox].
  destruct (greeting w) as [|[m|] g]; try (by right). case_bool_decide as E; [|by right].
  destruct (read_timeout_cleared w), (reader_spawned w); try (by right). injection E as ->. by cbn.
Qed.

Lemma send_spec m c : let '(c', ok, acts) := send m c in
  events c' = events c ∧ reader c' = reader c ∧ acts = (if ok then [Sends m] else []).
Proof. unfold send. by destruct (LockWorker.send _ _) as [? []]. Qed.

(** ** The invariant *)

(** The worlds the presentation may meet, and what a live client hears. *)
Section Session.
Context (i : Identity) (ws : list WorkerWorld).

(** Worker number [k] has been started, when the worlds in [left] are still to
    come. *)
Definition was_started (left : list WorkerWorld) (k : nat) (w : WorkerWorld) : Prop :=
  ws !! k = Some w ∧ (k + length left < length ws)%nat.

Definition from_worker (left : list WorkerWorld) (c : Client) : Prop :=
  reader c = true ∧ ∃ k w es, was_started left k w ∧ greets i w ∧ events c = Some es ∧ es `suffix_of` polls w.

(** A worker that was started and greeted with the locker's identity reported
    success, and the locker heard it. *)
Definition reports_success (left : list WorkerWorld) : Prop :=
  ∃ k w, was_started left k w ∧ greets i w ∧ Some LockWorker.EventSuccess ∈ polls w.
Definition proven (o : Outside) : Prop :=
  Hears LockWorker.EventSuccess ∈ log o ∧ reports_success (workers o).

Definition session_auth (l : LockerPresentation) : Prop :=
  match auth l with
  | None => Conversation.status (conversation l) = Conversation.Failed
            ∧ phase_of (log (outside l)) = Some NoWorker
  | Some (a, c) =>
    a = Conversation.attempt (conversation l) ∧ from_worker (workers (outside l)) c
    ∧ ∃ p, phase_of (log (outside l)) = Some (Asked p)
           ∧ ∀ id, prompt_id l = Some id → p = Some id
  end.

Record session_wf (l : LockerPresentation) : Prop := {
  sw_identity : identity l = i;
  sw_conversation : Conversation.wf (conversation l);
  sw_auth : session_auth l;
  sw_waiting : Conversation.status (conversation l) = Conversation.Waiting → is_Some (prompt_id l);
  sw_authorized : authorized l = true → confirmed l = true ∧ proven (outside l);
  sw_worlds : workers (outside l) `suffix_of` ws;
}.

(** Later, at least as many workers have been started, and as much was heard. *)
Lemma was_started_later left left' k w : left' `suffix_of` left → was_started left k w → was_started left' k w.
Proof using Type. intros H%suffix_length [Hk Hl]. split; [done|lia]. Qed.
Lemma proven_later left arr acts o : left `suffix_of` workers o → proven o → proven (mkOutside left arr (log o ++ acts)).
Proof using Type.
  intros H [Hh (k & w & Hs & Hg)]. split; [cbn; apply elem_of_app; by left|].
  exists k, w. split; [by eapply was_started_later|done].
Qed.
Lemma proven_logged (b c : bool) arr acts o : (b = true → c = true ∧ proven o) →
  b = true → c = true ∧ proven (mkOutside (workers o) arr (log o ++ acts)).
Proof using Type. intros H Hb. destruct (H Hb). split; [done|by apply proven_later]. Qed.
Ltac keeps_proof := constructor; cbn; try done; try (by apply proven_logged).

(** What [session_wf] looks at; drawing and the wallpaper leave it. *)
Definition session (l : LockerPresentation) :=
  (identity l, conversation l, auth l, prompt_id l, confirmed l, authorized l,
   workers (outside l), log (outside l)).

Lemma session_wf_eq l l' : session l' = session l → session_wf l → session_wf l'.
Proof using Type.
  intros [= E1 E2 E3 E4 E5 E6 E7 E8] [].
  constructor; unfold session_auth, proven in *; rewrite ?E1, ?E2, ?E3, ?E4, ?E5, ?E6, ?E7, ?E8; done.
Qed.

(** *** Replacing the worker *)

(** A presentation between two workers: the conversation has moved on, and
    nothing is asked. *)
Record idle (l : LockerPresentation) : Prop := {
  id_identity : identity l = i;
  id_conversation : Conversation.wf (conversation l);
  id_auth : auth l = None;
  id_phase : phase_of (log (outside l)) = Some NoWorker;
  id_status : Conversation.status (conversation l) ≠ Conversation.Waiting;
  id_authorized : authorized l = true → confirmed l = true ∧ proven (outside l);
  id_worlds : workers (outside l) `suffix_of` ws;
}.

Lemma fail_status m c : Conversation.status (Conversation.fail m c) = Conversation.Failed
  ∧ Conversation.attempt (Conversation.fail m c) = Conversation.attempt c.
Proof. unfold Conversation.fail, Conversation.receive, Conversation.accepts. by rewrite Z.eqb_refl. Qed.
Lemma fail_wf m c : Conversation.wf c → Conversation.wf (Conversation.fail m c).
Proof. apply Conversation.wf_receive. Qed.

Lemma idle_fail l : idle l → session_wf (set_prompt_id None (fail_authentication l)).
Proof using Type.
  intros []. destruct (fail_status UNAVAILABLE (conversation l)) as [Hs Ha]. constructor; cbn; try done.
  - by apply fail_wf.
  - unfold session_auth. cbn. by rewrite id_auth0.
  - intros E. by rewrite E in Hs.
Qed.

(** The start of the next client: no process is left if it fails. *)
Lemma start_client_spec l : idle l →
  match start_client l with
  | (Ok c, l') => from_worker (workers (outside l')) c
      ∧ idle (set_outside (mkOutside (workers (outside l')) (arrivals (outside l')) (log (outside l))) l')
      ∧ log (outside l') = log (outside l) ++ [Spawns]
      ∧ conversation l' = conversation l ∧ prompt_id l' = prompt_id l
  | (Err _, l') => idle l' ∧ conversation l' = conversation l ∧ prompt_id l' = prompt_id l
  end.
Proof using Type.
  intros H. unfold start_client. destruct (workers (outside l)) as [|w rest] eqn:Ew; [done|].
  pose proof (start_spec (identity l) w) as Hs. destruct (start (identity l) w) as [[c|e] acts].
  - destruct Hs as (-> & Hg & He & Hr). split_and!; try done.
    + split; [done|]. destruct H. destruct id_worlds0 as [used E].
      exists (length used), w, (polls w). rewrite id_identity0 in Hg. split_and!; try done.
      split; [by rewrite E, Ew, list_lookup_middle|]. rewrite E, Ew, length_app. cbn. lia.
    + destruct H. rewrite Ew in *. constructor; cbn; try done; [|by eapply suffix_cons_l].
      intros Ha. destruct (id_authorized0 Ha) as [Hc Hp]. split; [done|].
      rewrite <- (app_nil_r (log _)). apply proven_later; [|done]. rewrite Ew. by apply suffix_cons_r.
  - cbn beta iota.
    split_and!; [|done..]. destruct H. constructor; cbn; try done.
    + rewrite <- id_phase0. unfold phase_of. rewrite phase_after_app. fold (phase_of (log (outside l))).
      rewrite id_phase0. cbn [mbind option_bind]. by destruct Hs as [-> | ->].
    + intros Ha. destruct (id_authorized0 Ha) as [Hc Hp]. split; [done|].
      apply proven_later; [|done]. rewrite Ew. by apply suffix_cons_r.
    + rewrite Ew in id_worlds0. by eapply suffix_cons_l.
Qed.

Lemma phase_record acts l p : phase_of (log (outside l)) = Some p →
  phase_of (log (outside (record acts l))) = phase_after p acts.
Proof using Type. intros H. unfold phase_of in *. cbn. by rewrite phase_after_app, H. Qed.

Lemma cancel_live c : reader c = true → cancel c = (mkClient (writer c) None false, kill_and_reap).
Proof using Type. intros E. unfold cancel. by rewrite E. Qed.

Lemma idle_replace attempt l :
  idle l → attempt = Conversation.attempt (conversation l) →
  Conversation.status (conversation l) = Conversation.Submitting →
  session_wf (set_prompt_id None (replace_worker attempt l)).
Proof using Type.
  intros H -> Hs. unfold replace_worker, cancel_client. rewrite (id_auth _ H).
  pose proof (start_client_spec l H) as Hstart. destruct (start_client l) as [[c|e] l'];
    [|destruct Hstart as (H' & _); by apply idle_fail].
  destruct Hstart as ([Hr (k & w & es & Hw & Hg & He & Hes)] & H' & Elog & Ec & _).
  unfold begin. pose proof (send_spec LockProtocol.Begin c) as Hsend.
  destruct (send LockProtocol.Begin c) as [[c' ok] acts]. destruct Hsend as (Ee & Er & ->).
  pose proof (id_phase _ H) as Hp. destruct ok.
  - destruct H'. constructor; cbn; try done.
    + unfold session_auth. cbn. split_and!; [by rewrite Ec| |].
      * split; [by rewrite Er|]. exists k, w, es. by rewrite Ee.
      * exists None. split; [|done]. unfold phase_of. rewrite Elog, <- app_assoc, phase_after_app.
        fold (phase_of (log (outside l))). by rewrite Hp.
    + rewrite Elog, <- app_assoc. exact (proven_logged _ _ _ _ _ id_authorized0).
  - rewrite cancel_live by (by rewrite Er). apply idle_fail. destruct H'. constructor; try done.
    + cbn. rewrite app_nil_r, Elog, <- app_assoc. unfold phase_of. rewrite phase_after_app.
      fold (phase_of (log (outside l))). by rewrite Hp.
    + cbn. rewrite app_nil_r, Elog, <- app_assoc. exact (proven_logged _ _ _ _ _ id_authorized0).
Qed.

(** A new attempt: what it leaves of the conversation. *)
Lemma next_attempt_spec c : Conversation.wf c →
  let '(c', next) := Conversation.begin_attempt c in
  Conversation.wf c' ∧ next = Conversation.attempt c' ∧ Conversation.status c' = Conversation.Submitting.
Proof using Type.
  intros H. pose proof (Conversation.wf_apply_op Conversation.OBegin c H) as Hwf.
  cbn [Conversation.apply_op] in Hwf. by destruct (Conversation.begin_attempt c) as [c' next] eqn:E; injection E as <- <-.
Qed.

(** A session whose client has been taken and cancelled. *)
Lemma idle_cancelled a c l conv :
  session_wf l → auth l = Some (a, c) → Conversation.wf conv →
  Conversation.status conv = Conversation.Submitting →
  idle (record kill_and_reap (set_auth None (set_conversation conv l))).
Proof using Type.
  intros [] Ea Hc Hs. unfold session_auth in sw_auth0. rewrite Ea in sw_auth0.
  destruct sw_auth0 as (_ & _ & p & Hp & _). constructor; try done.
  - by rewrite (phase_record _ _ (Asked p)).
  - cbn. by rewrite Hs.
  - by apply proven_logged.
Qed.

Lemma from_worker_eq left c c' :
  events c' = events c → reader c' = reader c → from_worker left c → from_worker left c'.
Proof using Type. unfold from_worker. by intros -> ->. Qed.

(** *** The operations *)

Lemma retry_wf l : session_wf l → session_wf (fst (retry l)).
Proof using Type.
  intros H. unfold retry. cbn [conversation set_instruction_page].
  pose proof (next_attempt_spec _ (sw_conversation _ H)) as Hb.
  destruct (Conversation.begin_attempt (conversation l)) as [conv next]. destruct Hb as (Hc & En & Hs).
  cbn [auth set_conversation set_instruction_page]. destruct (auth l) as [[a c]|] eqn:Ea.
  - unfold retry_client. pose proof (send_spec LockProtocol.Retry c) as Hsend.
    destruct (send LockProtocol.Retry c) as [[c' ok] acts]. destruct Hsend as (Ee & Er & ->).
    pose proof (sw_auth _ H) as Hauth. unfold session_auth in Hauth. rewrite Ea in Hauth.
    destruct Hauth as (_ & Hw & p & Hp & _). destruct ok; cbn [fst].
    + destruct H. keeps_proof; [|by rewrite Hs].
      unfold session_auth. cbn. split_and!; [done|by eapply from_worker_eq|].
      exists None. split; [|done]. unfold phase_of in *. by rewrite phase_after_app, Hp.
    + unfold replace_worker at 1. cbn [cancel_client auth set_auth].
      rewrite cancel_live by (rewrite Er; apply Hw).
      match goal with |- session_wf (set_prompt_id None ?t) =>
        change t with (replace_worker next
          (record kill_and_reap (set_auth None (set_conversation conv (record [] (set_instruction_page 0 l)))))) end.
      apply idle_replace; [|done..]. eapply (idle_cancelled a c); [|done..].
      eapply session_wf_eq, H. unfold session. cbn. by rewrite app_nil_r.
  - cbn [fst]. apply idle_replace; [|done..].
    pose proof (sw_auth _ H) as Hauth. unfold session_auth in Hauth. rewrite Ea in Hauth.
    destruct H, Hauth. keeps_proof. cbn. by rewrite Hs.
Qed.

Lemma cancel_attempt_wf l : session_wf l → session_wf (fst (cancel_attempt l)).
Proof using Type.
  intros H. unfold cancel_attempt. destruct (auth l) as [[a c]|] eqn:Ea; [|done].
  cbn [conversation set_auth].
  pose proof (next_attempt_spec _ (sw_conversation _ H)) as Hb.
  destruct (Conversation.begin_attempt (conversation l)) as [conv next]. destruct Hb as (Hc & En & Hs).
  pose proof (sw_auth _ H) as Hauth. unfold session_auth in Hauth. rewrite Ea in Hauth.
  rewrite cancel_live by apply Hauth. cbn [fst]. apply idle_replace; [|done..].
  change (idle (record kill_and_reap (set_auth None (set_conversation conv (set_instruction_page 0 l))))).
  by eapply (idle_cancelled a c); [eapply session_wf_eq, H|..].
Qed.

Lemma fail_authentication_wf l : session_wf l → session_wf (fail_authentication l).
Proof using Type.
  intros []. destruct (fail_status UNAVAILABLE (conversation l)) as [Hs Ha].
  keeps_proof; [by apply fail_wf| |by rewrite Hs].
  unfold session_auth in *. cbn. destruct (auth l) as [[a c]|]; [by rewrite Ha|].
  by split; [|apply sw_auth0].
Qed.

Lemma take_prompt_wf l :
  session_wf l → (Conversation.status (conversation l) = Conversation.Waiting → prompt_id l = None) →
  session_wf (set_prompt_id None l).
Proof using Type.
  intros [] Hno. keeps_proof.
  - unfold session_auth in *. cbn. destruct (auth l) as [[a c]|]; [|done].
    destruct sw_auth0 as (? & ? & p & ? & _). split_and!; [done..|]. by exists p.
  - intros E. specialize (sw_waiting0 E). rewrite (Hno E) in sw_waiting0. by destruct sw_waiting0.
Qed.

Lemma submit_wf l : session_wf l → session_wf (fst (submit l)).
Proof using Type.
  intros H. unfold submit. destruct (prompt_id l) as [id|] eqn:Eid.
  2: { cbn [fst]. by apply take_prompt_wf. }
  pose proof (Conversation.wf_apply_op Conversation.OSubmit _ (sw_conversation _ H)) as Hwf.
  cbn [Conversation.apply_op] in Hwf. cbn [conversation set_prompt_id].
  unfold Conversation.submit in *. case_bool_decide as Ew; cbn [negb] in *.
  2: { change (session_wf (set_prompt_id None l)). by apply take_prompt_wf. }
  cbn [fst snd auth set_conversation set_prompt_id]. cbn [fst] in Hwf.
  pose proof (sw_auth _ H) as Hauth. unfold session_auth in Hauth.
  destruct (auth l) as [[a c]|] eqn:Ea; [|by rewrite Ew in Hauth; destruct Hauth].
  destruct Hauth as (-> & Hw & p & Hp & Hpid). rewrite Eid in Hpid. specialize (Hpid id eq_refl). subst p.
  change (Conversation.attempt (Conversation.set_status _ ?x)) with (Conversation.attempt x).
  rewrite Z.eqb_refl. cbn [negb]. unfold respond.
  assert (∀ c' acts, events c' = events c → reader c' = reader c →
    (∃ p, phase_after (Asked (Some id)) acts = Some (Asked p)) →
    session_wf (record acts (set_auth (Some (Conversation.attempt (conversation l), c'))
      (set_conversation (Conversation.set_input (Conversation.Buffer [] Conversation.MAX_INPUT_BYTES
         (Conversation.moves (Conversation.input (Conversation.set_status Conversation.Submitting (conversation l)))))
         (Conversation.set_status Conversation.Submitting (conversation l))) (set_prompt_id None l))))) as Hgo.
  { intros c' acts Ee Er [p Hphase]. destruct H. keeps_proof.
    unfold session_auth. cbn. split_and!; [done|by eapply from_worker_eq|]. exists p. split; [|done].
    unfold phase_of in *. by rewrite phase_after_app, Hp. }
  destruct (LockProtocol.secret_new _) as [v|e].
  - pose proof (send_spec (LockProtocol.Response id v) c) as Hs.
    destruct (send _ c) as [[c' ok] acts]. destruct Hs as (Ee & Er & ->). destruct ok; cbn [fst].
    + apply Hgo; [done..|]. exists None. cbn. by rewrite bool_decide_eq_true_2.
    + apply fail_authentication_wf, Hgo; [done..|]. by eexists.
  - cbn [fst]. apply fail_authentication_wf, Hgo; [done..|]. by eexists.
Qed.

Lemma receive_accepted r c : Conversation.wf c →
  let c' := fst (Conversation.receive (Conversation.attempt c) r c) in
  Conversation.wf c' ∧ Conversation.attempt c' = Conversation.attempt c ∧
  Conversation.status c' =
    match r with
    | Conversation.Prompt _ _ => Conversation.Waiting
    | Conversation.Notice _ _ => Conversation.status c
    | Conversation.Success => Conversation.Succeeded
    | Conversation.Failure _ => Conversation.Failed
    end.
Proof using Type.
  intros H. split; [by apply Conversation.wf_receive|].
  unfold Conversation.receive, Conversation.accepts. rewrite Z.eqb_refl. by destruct r.
Qed.

(** A live client's event is one of its worker's. *)
Lemma try_receive_spec left c : from_worker left c →
  let '(c', e) := try_receive c in
  from_worker left c' ∧ (e = Some LockWorker.EventSuccess → reports_success left).
Proof using Type.
  intros [Hr (k & w & es & Hw & Hg & He & [pre Hes])]. unfold try_receive. rewrite He.
  destruct es as [|e es].
  { split; [|done]. split; [done|]. exists k, w, []. split_and!; try done. by exists pre. }
  split.
  - split; [done|]. exists k, w, es. split_and!; try done. exists (pre ++ [e]). by rewrite Hes, <- app_assoc.
  - intros ->. exists k, w. split_and!; [done..|]. rewrite Hes. apply elem_of_app. right. by left.
Qed.

Lemma receive_event_wf a c e l :
  session_wf l → confirmed l = true → auth l = Some (a, c) →
  (e = LockWorker.EventSuccess → reports_success (workers (outside l))) →
  session_wf (receive_event a e (record [Hears e] l)) ∧
  confirmed (receive_event a e (record [Hears e] l)) = true.
Proof using Type.
  intros H Hconf Ea He. pose proof (sw_auth _ H) as Hauth. unfold session_auth in Hauth.
  rewrite Ea in Hauth. destruct Hauth as (-> & Hw & p & Hp & Hpid).
  assert (∀ r, let conv := fst (Conversation.receive (Conversation.attempt (conversation l)) r (conversation l)) in
    ∀ id b, (Conversation.status conv = Conversation.Waiting → is_Some id) →
    (∃ q, next_phase (Asked p) (Hears e) = Some (Asked q) ∧ ∀ n, id = Some n → q = Some n) →
    (b = true → proven (outside (record [Hears e] l))) →
    session_wf (set_authorized b (set_conversation conv (set_prompt_id id (record [Hears e] l))))) as Hgo.
  { intros r conv id b Hwait (q & Hq & Hid) Hb.
    destruct (receive_accepted r _ (sw_conversation _ H)) as (Hc & Hat & _). fold conv in Hc, Hat.
    destruct H. keeps_proof.
    - unfold session_auth. cbn. rewrite Ea. split_and!; [done..|]. exists q. split; [|done].
      unfold phase_of in *. rewrite phase_after_app, Hp. cbn [mbind option_bind phase_after].
      by rewrite Hq.
    - intros E. by split; [|apply Hb]. }
  pose proof (λ Ha, proj2 (proven_logged _ _ (arrivals (outside l)) [Hears e] _ (sw_authorized _ H) Ha)) as Hproven.
  destruct (receive_accepted Conversation.Success _ (sw_conversation _ H)) as (_ & _ & Hsucc).
  destruct e as [id secret text|error text| |]; cbn [receive_event]; (split; [|try done]).
  - refine (Hgo (Conversation.Prompt secret text) (Some id) (authorized l) _ _ Hproven); [by eexists|].
    exists (Some id). split; [done|]. by intros n [= ->].
  - refine (Hgo (Conversation.Notice error text) (prompt_id l) (authorized l) _ _ Hproven).
    + destruct (receive_accepted (Conversation.Notice error text) _ (sw_conversation _ H)) as (_ & _ & ->).
      apply (sw_waiting _ H).
    + by exists p.
  - cbn [conversation record set_outside].
    destruct (Conversation.receive _ Conversation.Success _) as [conv eff] eqn:E.
    specialize (Hgo Conversation.Success). rewrite E in Hgo. cbn [fst] in Hgo, Hsucc.
    case_bool_decide.
    + refine (Hgo None true _ _ (λ _, conj _ (He eq_refl))); [by rewrite Hsucc|by exists None|].
      cbn. apply elem_of_app. right. by left.
    + refine (Hgo None (authorized l) _ _ Hproven); [by rewrite Hsucc|by exists None].
  - cbn [conversation record set_outside].
    destruct (Conversation.receive _ Conversation.Success _) as [conv eff]. by case_bool_decide.
  - refine (Hgo (Conversation.Failure FAILED) None (authorized l) _ _ Hproven); [|by exists None].
    by destruct (receive_accepted (Conversation.Failure FAILED) _ (sw_conversation _ H)) as (_ & _ & ->).
Qed.

Lemma receive_events_wf turns l changed :
  session_wf l → confirmed l = true → session_wf (fst (receive_events turns l changed)).
Proof using Type.
  revert l changed. induction turns as [|turns IH]; intros l changed H Hconf; cbn [receive_events]; [done|].
  destruct (auth l) as [[a c]|] eqn:Ea; [|done].
  pose proof (sw_auth _ H) as Hauth. unfold session_auth in Hauth. rewrite Ea in Hauth.
  destruct Hauth as (-> & Hw & p & Hp & Hpid).
  pose proof (try_receive_spec _ c Hw) as Ht. destruct (try_receive c) as [c' e]. destruct Ht as [Hw' He].
  assert (session_wf (set_auth (Some (Conversation.attempt (conversation l), c')) l)) as H'.
  { destruct H. keeps_proof. unfold session_auth. cbn. split_and!; [done..|]. by exists p. }
  destruct e as [e|]; [|done]. cbn [conversation record set_auth set_outside].
  unfold Conversation.accepts. rewrite Z.eqb_refl. cbn [negb].
  destruct (receive_event_wf _ c' e _ H' Hconf eq_refl) as [H1 H2]; [by intros ->; apply He|].
  by apply IH.
Qed.

Lemma receive_auth_wf l : session_wf l → session_wf (fst (receive_auth l)).
Proof using Type.
  intros H. unfold receive_auth. destruct (confirmed l) eqn:Ec; [|done]. cbn [negb].
  pose proof (receive_events_wf MAX_AUTH_EVENTS_PER_REFRESH l false H Ec) as Hr.
  destruct (receive_events _ l false) as [l' changed]. cbn [fst] in *.
  destruct changed; [by eapply session_wf_eq, Hr|done].
Qed.

Lemma handle_input_wf input l : session_wf l → session_wf (fst (handle_input input l)).
Proof using Type.
  intros H. destruct input as [text| | | |]; cbn [handle_input].
  - pose proof (Conversation.wf_apply_op (Conversation.OPush text) _ (sw_conversation _ H)) as Hwf.
    cbn [Conversation.apply_op] in Hwf. unfold Conversation.push_input in *.
    case_bool_decide; cbn [negb fst] in *; (destruct H; keeps_proof).
  - pose proof (Conversation.wf_apply_op Conversation.OPop _ (sw_conversation _ H)) as Hwf.
    cbn [Conversation.apply_op] in Hwf. unfold Conversation.pop_input in *.
    case_bool_decide; cbn [negb fst] in *; [destruct (Conversation.text _)|];
      (destruct H; keeps_proof).
  - case_bool_decide; [by apply retry_wf|by apply submit_wf].
  - by apply cancel_attempt_wf.
  - unfold next_page. destruct (_ && _); [done|]. by eapply session_wf_eq, H.
Qed.

Lemma take_authorization_wf l : session_wf l → session_wf (fst (take_authorization l)).
Proof using Type. intros []. by constructor. Qed.

(** *** Drawing leaves the session *)

Section Drawing.
Context (fonts : Typeface).

Lemma rebuild_frame_session l l' : rebuild_frame l = Some l' → session l' = session l.
Proof using Type.
  unfold rebuild_frame. destruct (overlay l); [|by intros [= <-]].
  destruct authentication_canvas_dimensions as [w h].
  intros (h' & _ & (v & _ & [= <-])%bind_Some)%bind_Some. done.
Qed.

Lemma rebuild_overlay_session l l' : rebuild_overlay fonts l = Some l' → session l' = session l.
Proof using Type.
  unfold rebuild_overlay. destruct authentication_overlay_dimensions as [w h].
  intros (px & _ & (ov & _ & H)%bind_Some)%bind_Some. by apply rebuild_frame_session in H.
Qed.

Lemma rebuild_overlay_wf l : session_wf l → from_option session_wf True (rebuild_overlay fonts l).
Proof using Type.
  intros H. destruct (rebuild_overlay fonts l) as [l'|] eqn:E; [|done].
  by eapply session_wf_eq, H; apply rebuild_overlay_session.
Qed.

Lemma receive_deferred_wf l : session_wf l → from_option session_wf True (fst (receive_deferred l)).
Proof using Type.
  intros H. unfold receive_deferred.
  assert (session (arrive l) = session l) as Ea.
  { unfold arrive. destruct (arrivals _) as [|[[u f]|] ?]; done. }
  destruct (WallpaperState.receive_latest _) as [refresh w]. cbn [fst].
  case_bool_decide; [by eapply session_wf_eq, H|].
  destruct (rebuild_frame _) as [l'|] eqn:E; [|done]. apply rebuild_frame_session in E.
  eapply session_wf_eq, H. by rewrite E.
Qed.

Lemma lock_confirmed_wf l : session_wf l → from_option session_wf True (lock_confirmed fonts l).
Proof using Type.
  intros H. unfold lock_confirmed. apply rebuild_overlay_wf. cbn [auth set_confirmed].
  assert (session_wf (set_confirmed true l)) as Hc.
  { destruct H. keeps_proof. cbn. intros Ha. by destruct (sw_authorized0 Ha). }
  destruct (auth l) as [[a c]|] eqn:Ea; [|by apply fail_authentication_wf].
  unfold begin. pose proof (send_spec LockProtocol.Begin c) as Hs.
  destruct (send LockProtocol.Begin c) as [[c' ok] acts]. destruct Hs as (Ee & Er & ->).
  assert (session_wf (record (if ok then [Sends LockProtocol.Begin] else [])
    (set_auth (Some (a, c')) (set_confirmed true l)))) as H'.
  { pose proof (sw_auth _ H) as Hauth. unfold session_auth in Hauth. rewrite Ea in Hauth.
    destruct Hauth as (-> & Hw & p & Hp & Hpid). destruct Hc. keeps_proof.
    unfold session_auth. cbn. split_and!; [done|by eapply from_worker_eq|]. exists p. split; [|done].
    unfold phase_of in *. rewrite phase_after_app, Hp. by destruct ok. }
  destruct ok; [done|]. by apply fail_authentication_wf.
Qed.

(** ** Runs *)

(** What the runtime asks of the presentation, in any order. *)
Inductive Op :=
| OLatest
| ODeferred
| OConfirm
| OInput (input : SessionLock.Input)
| OTake.

#[local] Existing Instance locker_presentation.

Definition run_op (p : option LockerPresentation) (o : Op) : option LockerPresentation :=
  match o with
  | OLatest => fst (SessionLock.receive_latest (Presentation := locker_presentation fonts) p)
  | ODeferred => fst (SessionLock.receive_deferred (Presentation := locker_presentation fonts) p)
  | OConfirm => SessionLock.lock_confirmed (Presentation := locker_presentation fonts) p
  | OInput input => fst (SessionLock.give_input (Presentation := locker_presentation fonts) input p)
  | OTake => fst (SessionLock.take_authorization (Presentation := locker_presentation fonts) p)
  end.
Definition run_ops (p : option LockerPresentation) (os : list Op) : option LockerPresentation :=
  foldl run_op p os.

Abbreviation good := (from_option session_wf True).

Lemma session_op_wf p o : good p → good (run_op p o).
Proof using Type.
  destruct p as [l|]; [|by destruct o]. intros H. cbn in H.
  destruct o; cbn [run_op SessionLock.receive_latest SessionLock.receive_deferred SessionLock.lock_confirmed
    SessionLock.give_input SessionLock.take_authorization locker_presentation].
  - unfold receive_latest. pose proof (receive_auth_wf l H) as Hr.
    destruct (receive_auth l) as [l' []]; cbn [fst] in *; [by apply rebuild_overlay_wf|done].
  - by apply receive_deferred_wf.
  - by apply lock_confirmed_wf.
  - unfold Locker.input. destruct (negb _); [done|]. pose proof (handle_input_wf input l H) as Hi.
    destruct (handle_input input l) as [l' []]; cbn [fst] in *; [by apply rebuild_overlay_wf|done].
  - by apply (take_authorization_wf l).
Qed.

Lemma run_ops_wf p os : good p → good (run_ops p os).
Proof using Type.
  revert p. induction os as [|o os IH]; intros p H; cbn; [done|]. by apply IH, session_op_wf.
Qed.

End Drawing.

End Session.

#[export] Hint Resolve draws_overlay : draws.

Lemma launched_wf fonts i wallpaper w ws arrivals :
  from_option (session_wf i (w :: ws)) True (launched fonts i wallpaper w ws arrivals).
Proof.
  unfold launched. pose proof (start_spec i w) as Hs. destruct (start i w) as [[c|e] acts]; [|done].
  destruct Hs as (-> & Hg & He & Hr). unfold new, rebuild. cbn zeta.
  apply rebuild_overlay_wf. constructor; cbn; try done.
  - apply Conversation.wf_new.
  - unfold session_auth. cbn. split_and!; [done| |by exists None].
    split; [done|]. exists 0%nat, w, (polls w). split_and!; try done. split; [done|cbn; lia].
  - by apply suffix_cons_r.
Qed.

Lemma reached_wf fonts i wallpaper w ws arrivals os l :
  run_ops fonts (launched fonts i wallpaper w ws arrivals) os = Some l → session_wf i (w :: ws) l.
Proof.
  intros E. pose proof (run_ops_wf i (w :: ws) fonts _ os (launched_wf fonts i wallpaper w ws arrivals)) as H.
  by rewrite E in H.
Qed.

(** ** What is shown *)

(** All that the overlay shows of a conversation: not what was typed, only how
    many characters. *)
Definition visible (c : Conversation.Conversation) :=
  (Conversation.prompt c, length (Conversation.text (Conversation.input c)), Conversation.status c,
   Conversation.message c, Conversation.message_is_error c).

Lemma render_visible fonts width height username name c c' confirmed page pixels :
  visible c = visible c' →
  render_authentication_overlay fonts width height username name c confirmed page pixels
  = render_authentication_overlay fonts width height username name c' confirmed page pixels.
Proof.
  intros [= E1 E2 E3 E4 E5]. unfold render_authentication_overlay, draw_response.
  by rewrite E1, E2, E3, E4, E5.
Qed.

Section Shown.
Context (fonts : Typeface).

Definition drawing (l : LockerPresentation) : option (list byte) :=
  render_authentication_overlay fonts 1500 1200 (username (identity l)) (display_name (identity l))
    (conversation l) (confirmed l) (instruction_page l) (blank 1500 1200).

(** The frame is the drawing of the present state in the middle of the canvas,
    over the wallpaper's present picture. *)
Definition shows (l : LockerPresentation) : Prop :=
  ∃ pixels, drawing l = Some pixels
  ∧ let ov := SessionLock.mkRgba 1500 1200 pixels in
    SessionLock.wf_rgba ov
    ∧ overlay l = Some ov
    ∧ background l = WallpaperState.rgba_frame (wallpaper l)
    ∧ frame l = Some (SessionLock.mkFrame 3840 2400 (background l) ov 1170 600).

Lemma shows_wf l : shows l → ∃ f, frame l = Some f ∧ SessionLock.wf_frame f.
Proof.
  intros (px & _ & Hov & _ & _ & Hf). eexists. split; [done|].
  unfold SessionLock.wf_frame. cbn. split_and!; done || lia.
Qed.

Lemma rebuild_frame_shows ov l : SessionLock.wf_rgba ov → SessionLock.fwidth ov = 1500 →
  SessionLock.fheight ov = 1200 → overlay l = Some ov →
  rebuild_frame l = Some (set_frames (background l) (Some ov)
    (Some (SessionLock.mkFrame 3840 2400 (background l) ov 1170 600)) l).
Proof.
  intros Hov Hw Hh E. unfold rebuild_frame. rewrite E.
  change authentication_canvas_dimensions with (3840, 2400). cbn beta iota. rewrite Hw, Hh.
  change (u32 (3840 - 1500)) with (Some 2340). change (u32 (2400 - 1200)) with (Some 1200).
  cbn [mbind option_bind]. change (2340 / 2) with 1170. change (1200 / 2) with 600.
  do 2 f_equal. apply SessionLock.frame_new_Some; try lia; [done|]. split; [done|].
  unfold SessionLock.wf_frame. cbn. rewrite Hw, Hh. split_and!; done || lia.
Qed.

Lemma length_blank : length (blank 1500 1200) = Z.to_nat 7200000.
Proof. unfold blank. by rewrite length_replicate. Qed.

(** Drawing again shows the present state, if the wallpaper's picture is. *)
Lemma rebuild_overlay_shows l :
  background l = WallpaperState.rgba_frame (wallpaper l) →
  match rebuild_overlay fonts l with
  | Some l' => shows l' ∧ session l' = session l ∧ wallpaper l' = wallpaper l
  | None => ¬ near_typeface fonts
  end.
Proof.
  intros Hbg. unfold rebuild_overlay. change authentication_overlay_dimensions with (1500, 1200).
  cbn beta iota. change (render_authentication_overlay _ _ _ _ _ _ _ _ _) with (drawing l).
  assert (near_typeface fonts → ∃ px, drawing l = Some px ∧ length px = Z.to_nat 7200000) as Hnear.
  { intros Hn. rewrite <- length_blank. by apply draws_overlay. }
  destruct (drawing l) as [px|] eqn:Ed; cbn [mbind option_bind].
  2: { intros Hn. by destruct (Hnear Hn) as (? & ? & _). }
  destruct (SessionLock.rgba_new 1500 1200 px) as [ov|] eqn:Eov; cbn [mbind option_bind].
  2: { intros Hn. destruct (Hnear Hn) as (? & [= <-] & Hl).
       assert (SessionLock.rgba_new 1500 1200 px = Some (SessionLock.mkRgba 1500 1200 px)); [|congruence].
       apply SessionLock.rgba_new_Some; [lia..|]. split; [done|]. unfold SessionLock.wf_rgba. cbn.
       rewrite Hl. lia. }
  apply SessionLock.rgba_new_Some in Eov as [-> Hov]; [|lia..].
  erewrite rebuild_frame_shows; [|exact Hov|done..]. split; [|done].
  exists px. by split_and!.
Qed.

(** *** What the operations on the session leave *)

Definition screen (l : LockerPresentation) :=
  (identity l, wallpaper l, background l, overlay l, frame l).
Definition drawn (l : LockerPresentation) :=
  (visible (conversation l), confirmed l, instruction_page l).

Lemma shows_eq l l' : screen l' = screen l → drawn l' = drawn l → shows l → shows l'.
Proof.
  intros [= E1 E2 E3 E4 E5] [= H1 H2 H3 H4 H5 H6 H7] (px & Hd & H). exists px. split.
  - rewrite <- Hd. unfold drawing. rewrite E1, H6, H7. apply render_visible. unfold visible. congruence.
  - by rewrite E2, E3, E4, E5.
Qed.

Lemma screen_replace attempt l : screen (replace_worker attempt l) = screen l.
Proof.
  unfold replace_worker, cancel_client, start_client, begin.
  destruct (auth l) as [[a c]|]; [destruct (cancel c)|];
    cbn [outside set_auth record set_outside workers];
    (destruct (workers (outside l)); [done|]);
    destruct (start _ _) as [[c'|e] acts]; try done;
    destruct (send _ _) as [[? []] ?]; try done; by destruct (cancel _).
Qed.

Lemma screen_retry l : screen (fst (retry l)) = screen l.
Proof.
  unfold retry. destruct (Conversation.begin_attempt _) as [conv next].
  cbn [auth set_conversation set_instruction_page]. destruct (auth l) as [[a c]|].
  - destruct (retry_client c) as [[c' []] acts]; [done|]. cbn [fst].
    etrans; [apply (screen_replace next)|]. done.
  - etrans; [apply (screen_replace next)|]. done.
Qed.

Lemma screen_cancel l : screen (fst (cancel_attempt l)) = screen l.
Proof.
  unfold cancel_attempt. destruct (auth l) as [[a c]|]; [|done].
  destruct (Conversation.begin_attempt _) as [conv next]. destruct (cancel c) as [c' acts].
  etrans; [apply (screen_replace next)|]. done.
Qed.

Lemma screen_submit l : screen (fst (submit l)) = screen l.
Proof.
  unfold submit. destruct (prompt_id l); [|done].
  destruct (Conversation.submit _) as [conv [[a r]|]]; [|done].
  cbn [auth set_conversation set_prompt_id]. destruct (auth l) as [[a' c]|]; [|done].
  destruct (negb _); [done|]. by destruct (respond _ _ _) as [[? []] ?].
Qed.

Lemma screen_handle_input i l : screen (fst (handle_input i l)) = screen l.
Proof.
  destruct i; cbn [handle_input].
  - by destruct (Conversation.push_input _ _).
  - by destruct (Conversation.pop_input _).
  - case_bool_decide; [apply screen_retry|apply screen_submit].
  - apply screen_cancel.
  - unfold next_page. by destruct (_ && _).
Qed.

Lemma screen_receive_event a e l : screen (receive_event a e l) = screen l.
Proof.
  destruct e; try done. unfold receive_event.
  destruct (Conversation.receive _ Conversation.Success _). by case_bool_decide.
Qed.

Lemma receive_events_screen turns l changed :
  screen (fst (receive_events turns l changed)) = screen l
  ∧ (snd (receive_events turns l changed) = false →
     drawn (fst (receive_events turns l changed)) = drawn l).
Proof.
  revert l changed. induction turns as [|turns IH]; intros l changed; cbn [receive_events]; [done|].
  destruct (auth l) as [[a c]|]; [|done]. destruct (try_receive c) as [c' [e|]]; [|done].
  assert (∀ l', snd (receive_events turns l' true) = false → False) as Htrue.
  { clear. induction turns as [|turns IH]; intros l'; cbn [receive_events]; [done|].
    destruct (auth l') as [[a c]|]; [|done]. destruct (try_receive c) as [c' [e|]]; [|done].
    destruct (negb _); apply IH. }
  destruct (negb _); (split; [|intros H; by apply Htrue in H]); rewrite (proj1 (IH _ _));
    [done|by rewrite screen_receive_event].
Qed.

Lemma receive_auth_screen l :
  screen (fst (receive_auth l)) = screen l
  ∧ (snd (receive_auth l) = false → drawn (fst (receive_auth l)) = drawn l).
Proof.
  unfold receive_auth. destruct (negb _); [done|].
  pose proof (receive_events_screen MAX_AUTH_EVENTS_PER_REFRESH l false) as [H1 H2].
  by destruct (receive_events _ _ _) as [l' []].
Qed.

Lemma str_len_nil_inv s : str_len s = 0 → s = [].
Proof.
  destruct s as [|c s]; [done|]. rewrite str_len_cons. pose proof (len_utf8_range c).
  pose proof (str_len_bounds s). lia.
Qed.

Lemma push_unchanged text c : Conversation.wf c →
  snd (Conversation.push_input text c) = false → visible (fst (Conversation.push_input text c)) = visible c.
Proof.
  intros []. unfold Conversation.push_input. case_bool_decide; cbn [negb fst snd]; [|done].
  rewrite Conversation.append_bounded_wf_spec by done. cbn [Conversation.text Conversation.input Conversation.set_input].
  rewrite str_len_app, negb_false_iff, Z.eqb_eq. intros E.
  rewrite (str_len_nil_inv (take _ _)) by lia. rewrite app_nil_r. by destruct c as [[] ? ? ? ? ? ?].
Qed.

Lemma handle_input_unchanged ws i inp l : session_wf i ws l →
  snd (handle_input inp l) = false → drawn (fst (handle_input inp l)) = drawn l.
Proof.
  intros H. destruct inp as [text| | | |]; cbn [handle_input].
  - pose proof (push_unchanged text _ (sw_conversation _ _ _ H)) as Hp.
    destruct (Conversation.push_input _ _) as [c b]. cbn [fst snd] in *. intros E.
    unfold drawn. cbn [conversation set_conversation confirmed instruction_page]. by rewrite (Hp E).
  - unfold Conversation.pop_input. case_bool_decide; [|done]. cbn [negb]. by destruct (Conversation.text _).
  - case_bool_decide.
    + unfold retry. destruct (Conversation.begin_attempt _) as [conv next].
      cbn [auth set_conversation set_instruction_page]. destruct (auth l) as [[a c]|]; [|done].
      by destruct (retry_client c) as [[c' []] acts].
    + unfold submit. destruct (prompt_id l); [|done].
      unfold Conversation.submit. cbn [conversation set_prompt_id].
      case_bool_decide as Ew; [|done]. cbn [negb auth set_conversation set_prompt_id].
      pose proof (sw_auth _ _ _ H) as Ha. unfold session_auth in Ha.
      destruct (auth l) as [[a' c]|]; [|by rewrite Ew in Ha; destruct Ha].
      destruct (negb _); [done|]. by destruct (respond _ _ _) as [[? []] ?].
  - unfold cancel_attempt. destruct (auth l) as [[a c]|]; [|done].
    destruct (Conversation.begin_attempt _) as [conv next]. by destruct (cancel c).
  - unfold next_page. by destruct (_ && _).
Qed.

Lemma pictures_arrive l :
  WallpaperState.rgba_frame (wallpaper (arrive l)) = WallpaperState.rgba_frame (wallpaper l)
  ∧ background (arrive l) = background l ∧ overlay (arrive l) = overlay l ∧ frame (arrive l) = frame l
  ∧ identity (arrive l) = identity l ∧ drawn (arrive l) = drawn l.
Proof. unfold arrive. by destruct (arrivals _) as [|[[u f]|] ?]. Qed.

Lemma receive_latest_unchanged w :
  fst (WallpaperState.receive_latest w) = WallpaperState.Unchanged →
  WallpaperState.rgba_frame (snd (WallpaperState.receive_latest w)) = WallpaperState.rgba_frame w.
Proof.
  unfold WallpaperState.receive_latest, WallpaperState.take_latest.
  destruct (p ← WallpaperState.player w; WallpaperState.latest p) as [[]|]; try done.
  by destruct (h ← WallpaperState.heic w; WallpaperState.latest h) as [[]|].
Qed.

Lemma receive_deferred_shows l : shows l → ∃ l', fst (receive_deferred l) = Some l' ∧ shows l'.
Proof.
  intros H. unfold receive_deferred. destruct (pictures_arrive l) as (E1 & E2 & E3 & E4 & E5 & E6).
  pose proof (receive_latest_unchanged (wallpaper (arrive l))) as Hun.
  destruct (WallpaperState.receive_latest _) as [refresh w]. cbn [fst snd] in *.
  assert (drawing (set_wallpaper w (arrive l)) = drawing l) as Ed.
  { unfold drawing. cbn. rewrite E5. injection E6 as V1 V2 V3 V4 V5 V6 V7. rewrite V6, V7.
    apply render_visible. unfold visible. congruence. }
  destruct H as (px & Hd & Hov & H1 & H2 & H3). case_bool_decide as Er.
  - eexists. split; [done|]. exists px. rewrite Ed. split; [done|]. cbn. rewrite E2, E3, E4.
    split_and!; try done. by rewrite Hun, E1.
  - erewrite rebuild_frame_shows; [|exact Hov|done|done|cbn; by rewrite E3].
    eexists. split; [done|]. exists px. by split; [rewrite <- Hd, <- Ed|].
Qed.

(** One operation: it shows what it has come to. *)
Lemma run_op_shows i ws o l : session_wf i ws l → shows l →
  match run_op fonts (Some l) o with
  | Some l' => shows l'
  | None => ¬ near_typeface fonts
  end.
Proof.
  intros Hwf Hs.
  assert (∀ l', screen l' = screen l → match rebuild_overlay fonts l' with Some l2 => shows l2 | None => ¬ near_typeface fonts end) as Hgo.
  { intros l' [= E1 E2 E3 E4 E5]. pose proof (rebuild_overlay_shows l') as Hr.
    destruct Hs as (px & _ & _ & _ & Hb & _). rewrite E2, E3 in Hr. specialize (Hr Hb).
    destruct (rebuild_overlay fonts l'); [apply Hr|done]. }
  destruct o as [| | |inp|]; cbn [run_op SessionLock.receive_latest SessionLock.receive_deferred SessionLock.lock_confirmed
    SessionLock.give_input SessionLock.take_authorization locker_presentation mbind option_bind].
  - unfold receive_latest. pose proof (receive_auth_screen l) as [E1 E2].
    destruct (receive_auth l) as [l' []]; cbn [fst snd] in *; [by apply Hgo|]. by eapply shows_eq; [| |exact Hs]; auto.
  - by destruct (receive_deferred_shows l Hs) as (l' & -> & ?).
  - unfold lock_confirmed. apply Hgo. cbn [auth set_confirmed]. destruct (auth l) as [[a c]|]; [|done].
    by destruct (begin c) as [[? []] ?].
  - unfold Locker.input. destruct (negb _); [done|]. pose proof (screen_handle_input inp l) as E1.
    pose proof (handle_input_unchanged _ _ inp l Hwf) as E2.
    destruct (handle_input inp l) as [l' []]; cbn [fst snd] in *; [by apply Hgo|]. by eapply shows_eq; [| |exact Hs]; auto.
  - by eapply shows_eq; [| |exact Hs].
Qed.

Lemma run_ops_shows i ws os l : session_wf i ws l → shows l →
  match run_ops fonts (Some l) os with
  | Some l' => shows l'
  | None => ¬ near_typeface fonts
  end.
Proof.
  revert l. induction os as [|o os IH]; intros l Hwf Hs; cbn [run_ops foldl]; [done|].
  pose proof (run_op_shows _ _ o l Hwf Hs) as H. pose proof (session_op_wf _ _ fonts (Some l) o Hwf) as Hw.
  fold (run_ops fonts (run_op fonts (Some l) o) os). destruct (run_op fonts (Some l) o) as [l'|]; [by apply IH|].
  assert (∀ os, run_ops fonts None os = None) as ->; [|done].
  clear. intros os. by induction os as [|[] os IH]; cbn.
Qed.

End Shown.

(** ** Progress *)

Lemma replace_outcome attempt l :
  auth l = None → Conversation.status (conversation l) = Conversation.Submitting →
  let l' := replace_worker attempt l in
  ∃ acts, log (outside l') = log (outside l) ++ acts
  ∧ ((Conversation.status (conversation l') = Conversation.Submitting
      ∧ last acts = Some (Sends LockProtocol.Begin))
     ∨ (Conversation.status (conversation l') = Conversation.Failed ∧ auth l' = None)).
Proof.
  intros Ea Es. unfold replace_worker, cancel_client. rewrite Ea. unfold start_client.
  pose proof (λ c, proj1 (fail_status UNAVAILABLE c)) as Hfail.
  destruct (workers (outside l)) as [|w ws].
  { exists []. rewrite app_nil_r. split; [done|]. right. by split; [apply Hfail|]. }
  pose proof (start_spec (identity l) w) as Hs. destruct (start (identity l) w) as [[c|e] acts].
  - unfold begin. pose proof (send_spec LockProtocol.Begin c) as Hb.
    destruct (send LockProtocol.Begin c) as [[c' []] acts']; destruct Hb as (_ & _ & ->).
    + exists (acts ++ [Sends LockProtocol.Begin]). cbn. rewrite <- app_assoc. split; [done|]. left.
      split; [done|]. by rewrite last_snoc.
    + destruct (cancel c') as [c'' acts''].
      exists (acts ++ acts''). cbn. rewrite app_nil_r, <- app_assoc. split; [done|]. right.
      by split; [apply Hfail|].
  - exists acts. split; [done|]. right. by split; [apply Hfail|].
Qed.

(** A new attempt was begun, or none can be at the moment. *)
Definition restarted (acts : list Act) (l : LockerPresentation) : Prop :=
  (Conversation.status (conversation l) = Conversation.Submitting
   ∧ ∃ m, last acts = Some (Sends m) ∧ (m = LockProtocol.Begin ∨ m = LockProtocol.Retry))
  ∨ (Conversation.status (conversation l) = Conversation.Failed ∧ auth l = None).

Lemma retry_outcome i ws l : session_wf i ws l →
  snd (retry l) = true
  ∧ ∃ acts, log (outside (fst (retry l))) = log (outside l) ++ acts ∧ restarted acts (fst (retry l)).
Proof.
  intros H. unfold retry. pose proof (next_attempt_spec _ (sw_conversation _ _ _ H)) as Hb.
  cbn [conversation set_instruction_page].
  destruct (Conversation.begin_attempt (conversation l)) as [conv next]. destruct Hb as (_ & _ & Hs).
  cbn [auth set_conversation set_instruction_page]. destruct (auth l) as [[a c]|] eqn:Ea.
  - unfold retry_client. pose proof (send_spec LockProtocol.Retry c) as Hsend.
    destruct (send LockProtocol.Retry c) as [[c' []] acts]; destruct Hsend as (_ & _ & ->); cbn [fst snd].
    + split; [done|]. exists [Sends LockProtocol.Retry]. split; [done|]. left. split; [done|]. eauto.
    + split; [done|]. unfold replace_worker at 1 2. cbn [cancel_client auth set_auth].
      destruct (cancel c') as [c'' acts'].
      destruct (replace_outcome next (record acts' (set_auth None (set_conversation conv (record [] (set_instruction_page 0 l))))))
        as (acts & El & Ho); [done..|].
      exists (acts' ++ acts). split.
      * etrans; [exact El|]. cbn. by rewrite app_nil_r, <- app_assoc.
      * destruct Ho as [[H1 H2]|Ho]; [left|by right]. split; [exact H1|].
        exists LockProtocol.Begin. split; [|by left]. by rewrite last_app, H2.
  - cbn [fst snd]. split; [done|].
    destruct (replace_outcome next (set_conversation conv (set_instruction_page 0 l))) as (acts & El & Ho); [done..|].
    exists acts. split; [exact El|]. destruct Ho as [[H1 H2]|Ho]; [left|by right]. split; [exact H1|]. eauto.
Qed.

Lemma cancel_outcome i ws l : session_wf i ws l → is_Some (auth l) →
  snd (cancel_attempt l) = true
  ∧ ∃ acts, log (outside (fst (cancel_attempt l))) = log (outside l) ++ kill_and_reap ++ acts
            ∧ restarted acts (fst (cancel_attempt l)).
Proof.
  intros H [[a c] Ea]. unfold cancel_attempt. rewrite Ea. cbn [conversation set_auth].
  pose proof (next_attempt_spec _ (sw_conversation _ _ _ H)) as Hb.
  destruct (Conversation.begin_attempt (conversation l)) as [conv next]. destruct Hb as (_ & _ & Hs).
  pose proof (sw_auth _ _ _ H) as Hauth. unfold session_auth in Hauth. rewrite Ea in Hauth.
  rewrite cancel_live by apply Hauth. cbn [fst snd]. split; [done|].
  destruct (replace_outcome next (record kill_and_reap (set_auth None (set_conversation conv (set_instruction_page 0 l)))))
    as (acts & El & Ho); [done..|].
  exists acts. split; [etrans; [exact El|]; cbn; by rewrite <- app_assoc|].
  destruct Ho as [[H1 H2]|Ho]; [left|by right]. split; [exact H1|]. eauto.
Qed.

Lemma submit_outcome i ws l : session_wf i ws l →
  Conversation.status (conversation l) = Conversation.Waiting →
  let typed := Conversation.text (Conversation.input (conversation l)) in
  let l' := fst (submit l) in
  ∃ id, prompt_id l = Some id ∧ snd (submit l) = true
  ∧ prompt_id l' = None ∧ Conversation.text (Conversation.input (conversation l')) = []
  ∧ ((Conversation.status (conversation l') = Conversation.Submitting
      ∧ log (outside l') = log (outside l) ++ [Sends (LockProtocol.Response id (encode typed))])
     ∨ (Conversation.status (conversation l') = Conversation.Failed ∧ log (outside l') = log (outside l))).
Proof.
  intros H Ew. cbn zeta. destruct (sw_waiting _ _ _ H Ew) as [id Eid]. exists id. split; [done|].
  unfold submit. rewrite Eid. cbn [conversation set_prompt_id]. unfold Conversation.submit.
  rewrite bool_decide_eq_true_2 by done. cbn [negb auth set_conversation set_prompt_id].
  pose proof (sw_auth _ _ _ H) as Ha. unfold session_auth in Ha.
  destruct (auth l) as [[a c]|]; [|by rewrite Ew in Ha; destruct Ha]. destruct Ha as (-> & _).
  change (Conversation.attempt (Conversation.set_status _ ?x)) with (Conversation.attempt x).
  rewrite Z.eqb_refl. cbn [negb]. unfold respond.
  match goal with |- context [set_conversation ?c ?l0] => set (l1 := set_conversation c l0) end.
  assert (∀ c', let l' := fail_authentication (record [] (set_auth (Some (Conversation.attempt (conversation l), c')) l1)) in
    prompt_id l' = None ∧ Conversation.text (Conversation.input (conversation l')) = []
    ∧ Conversation.status (conversation l') = Conversation.Failed ∧ log (outside l') = log (outside l)) as Hf.
  { intros c'. unfold fail_authentication. cbn. rewrite app_nil_r. unfold Conversation.fail, Conversation.receive, Conversation.accepts.
    by rewrite Z.eqb_refl. }
  destruct (LockProtocol.secret_new _) as [v|e] eqn:Ev.
  - unfold LockProtocol.secret_new in Ev. destruct (_ || _); [done|]. injection Ev as <-.
    match goal with |- context [send ?m ?c] => pose proof (send_spec m c) as Hs; destruct (send m c) as [[c' []] acts] end;
      destruct Hs as (_ & _ & ->); cbn [fst snd].
    + split_and!; try done. left. by split.
    + destruct (Hf c') as (H1 & H2 & H3 & H4). by split_and!; [..|right].
  - destruct (Hf c) as (H1 & H2 & H3 & H4). by split_and!; [..|right].
Qed.

(** ** Properties *)

(** The state that [new] draws first. *)
Definition undrawn (i : Identity) (client : Client) (wallpaper : WallpaperState.State)
    (outside : Outside) : LockerPresentation :=
  mkLocker wallpaper i Conversation.new (Some (Conversation.attempt Conversation.new, client)) None
    false false (WallpaperState.rgba_frame wallpaper) None None 0 outside.

#[local] Opaque blank.

Lemma launched_undrawn fonts i wallpaper w ws arrivals c acts : start i w = (Ok c, acts) →
  launched fonts i wallpaper w ws arrivals
  = rebuild_overlay fonts (undrawn i c wallpaper (mkOutside ws arrivals acts)).
Proof. intros E. unfold launched. rewrite E. reflexivity. Qed.

Lemma launched_shows fonts i wallpaper w ws arrivals os c acts :
  near_typeface fonts → start i w = (Ok c, acts) →
  ∃ l, run_ops fonts (launched fonts i wallpaper w ws arrivals) os = Some l ∧ shows fonts l.
Proof.
  intros Hn Es. pose proof (launched_wf fonts i wallpaper w ws arrivals) as Hwf.
  rewrite (launched_undrawn _ _ _ _ _ _ _ _ Es) in *.
  set (l1 := undrawn _ _ _ _) in *.
  assert (background l1 = WallpaperState.rgba_frame (Locker.wallpaper l1)) as Hb by reflexivity. clearbody l1.
  pose proof (rebuild_overlay_shows fonts l1 Hb) as Hl.
  destruct (rebuild_overlay fonts l1) as [l0|]; [|done].
  pose proof (run_ops_shows fonts i (w :: ws) os l0 Hwf (proj1 Hl)) as H.
  destruct (run_ops fonts (Some l0) os) as [l|]; [by exists l|done].
Qed.

(** A typeface without glyphs, and a worker that prompts and accepts. *)
Definition empty_typeface : Typeface := mkTypeface (λ _, []) (λ _ _, []) (λ s, s).
Lemma empty_near : near_typeface empty_typeface.
Proof. by split; intros *; intros H%elem_of_nil. Qed.

Definition ada : Identity := mkIdentity 1000 (str "ada") (str "Ada Lovelace").
Definition accepting : WorkerWorld :=
  mkWorld (Ok []) true Started true [Some (LockProtocol.Ready 1000 (str "ada"))] true true []
    [Some (LockWorker.EventPrompt 1 true (str "Password: ")); None; Some LockWorker.EventSuccess].
Definition no_wallpaper : WallpaperState.State := WallpaperState.poster_only None.
Definition unlocking : list Op :=
  [OConfirm; OLatest; OInput (SessionLock.Text (str "secret")); OInput SessionLock.Submit; OLatest].

(** C9.  The locker always has something true to show.  Whatever the runtime, the
    user, the workers and the wallpaper do, no operation panics, and after each
    the frame is there and is the drawing of the present conversation in the
    middle of the canvas over the present picture of the wallpaper. *)
Theorem never_blank_nor_stale fonts i wallpaper w ws arrivals os c acts :
  near_typeface fonts → start i w = (Ok c, acts) →
  ∃ l f, run_ops fonts (launched fonts i wallpaper w ws arrivals) os = Some l
    ∧ shows fonts l ∧ frame l = Some f ∧ SessionLock.wf_frame f.
Proof.
  intros Hn Es. destruct (launched_shows fonts i wallpaper w ws arrivals os c acts Hn Es) as (l & E & Hs).
  destruct (shows_wf fonts l Hs) as (f & Hf & Hwf). by exists l, f.
Qed.

Lemma never_blank_nor_stale_witness :
  ∃ l f, run_ops empty_typeface (launched empty_typeface ada no_wallpaper accepting [] []) unlocking = Some l
    ∧ shows empty_typeface l ∧ frame l = Some f ∧ SessionLock.wf_frame f.
Proof. exact (never_blank_nor_stale _ ada _ accepting [] [] _ _ _ empty_near eq_refl). Defined.

(** C7.  The locker's workers.  What a run does with them is a word of the automaton
    [next_phase]: a worker is signalled and reaped before the next is started,
    so there is one at a time and none is left behind; a response goes to the
    worker that asked, for the prompt it asked last, once.  Without a worker
    the conversation says that authentication failed. *)
Theorem one_worker_one_answer fonts i wallpaper w ws arrivals os l :
  run_ops fonts (launched fonts i wallpaper w ws arrivals) os = Some l →
  match auth l with
  | Some (attempt, client) => attempt = Conversation.attempt (conversation l) ∧ reader client = true
      ∧ ∃ p, phase_of (log (outside l)) = Some (Asked p)
             ∧ ∀ id, prompt_id l = Some id → p = Some id
  | None => phase_of (log (outside l)) = Some NoWorker
      ∧ Conversation.status (conversation l) = Conversation.Failed
  end.
Proof.
  intros H%reached_wf%sw_auth. unfold session_auth in H. destruct (auth l) as [[a c]|]; [|by destruct H].
  by destruct H as (? & [? _] & ?).
Qed.

Lemma one_worker_one_answer_witness :
  ∃ l, run_ops empty_typeface (launched empty_typeface ada no_wallpaper accepting [] [])
         [OConfirm; OInput SessionLock.Cancel] = Some l
  ∧ match auth l with
    | Some (attempt, client) => attempt = Conversation.attempt (conversation l) ∧ reader client = true
        ∧ ∃ p, phase_of (log (outside l)) = Some (Asked p)
               ∧ ∀ id, prompt_id l = Some id → p = Some id
    | None => phase_of (log (outside l)) = Some NoWorker
        ∧ Conversation.status (conversation l) = Conversation.Failed
    end.
Proof.
  destruct (launched_shows empty_typeface ada no_wallpaper accepting [] []
    [OConfirm; OInput SessionLock.Cancel] _ _ empty_near eq_refl) as (l & E & _).
  exists l. split; [exact E|]. exact (one_worker_one_answer _ _ _ _ _ _ _ _ E).
Defined.

Lemma lock_confirmed_confirmed fonts l l' : lock_confirmed fonts l = Some l' → confirmed l' = true.
Proof.
  unfold lock_confirmed. intros E. apply rebuild_overlay_session in E. injection E as _ _ _ _ -> _ _ _.
  cbn [auth set_confirmed]. destruct (auth l) as [[a c]|]; [|done]. by destruct (begin c) as [[c' []] acts].
Qed.

(** What [input] makes of a key that changes something: the overlay is drawn again. *)
Lemma input_shown fonts inp l l1 : near_typeface fonts → shows fonts l → confirmed l = true →
  handle_input inp l = (l1, true) →
  ∃ l', input fonts inp l = (Some l', true) ∧ session l' = session l1 ∧ shows fonts l'.
Proof.
  intros Hn Hs Hc E. unfold Locker.input, authentication_input_enabled. rewrite Hc, E. cbn [negb].
  pose proof (screen_handle_input inp l) as Es. rewrite E in Es. cbn [fst] in Es. injection Es as _ Ew Eb _ _.
  destruct Hs as (px & _ & _ & _ & Hb & _). pose proof (rebuild_overlay_shows fonts l1) as H.
  rewrite Ew, Eb in H. specialize (H Hb). destruct (rebuild_overlay fonts l1) as [l'|]; [|done].
  exists l'. by split_and!; try apply H.
Qed.

(** A state in which the locker shows what it has come to, [acts] further on. *)
Definition shown_after (fonts : Typeface) (acts : list Act) (l l' : LockerPresentation) : Prop :=
  shows fonts l' ∧ log (outside l') = log (outside l) ++ acts.

Lemma cancel_leads_on fonts i ws l : session_wf i ws l → is_Some (auth l) →
  (∀ inp l1, handle_input inp l = (l1, true) →
    ∃ l', input fonts inp l = (Some l', true) ∧ session l' = session l1 ∧ shows fonts l') →
  ∃ l' acts, input fonts SessionLock.Cancel l = (Some l', true)
  ∧ shown_after fonts (kill_and_reap ++ acts) l l' ∧ restarted acts l'.
Proof.
  intros H Ha Hgo. destruct (cancel_outcome _ _ l H Ha) as (Ech & acts & El & Hr).
  destruct (Hgo SessionLock.Cancel (fst (cancel_attempt l))) as (l' & E & Ses & Hsh).
  { cbn [handle_input]. rewrite (surjective_pairing (cancel_attempt l)). by f_equal. }
  injection Ses as _ E2 E3 _ _ _ _ E8. exists l', acts. unfold shown_after, restarted in *. by rewrite E2, E3, E8.
Qed.


Lemma confirmed_submitting l :
  run_ops empty_typeface (launched empty_typeface ada no_wallpaper accepting [] []) [OConfirm] = Some l →
  Conversation.status (conversation l) = Conversation.Submitting ∧ confirmed l = true.
Proof.
  erewrite (launched_undrawn _ ada _ accepting) by reflexivity.
  change (run_ops empty_typeface ?p [OConfirm]) with (p ≫= lock_confirmed empty_typeface).
  set (l1 := undrawn _ _ _ _). assert (Conversation.status (conversation l1) = Conversation.Submitting) as E1 by reflexivity.
  assert (∃ c acts, auth l1 = Some (1, c) ∧ send LockProtocol.Begin c = (mkClient (writer (fst (fst (send LockProtocol.Begin c)))) (events c) (reader c), true, acts)) as (c & acts & Ea & Eb)
    by (do 2 eexists; split; reflexivity).
  clearbody l1. intros (l0 & [= _ Ec El _ _ _ _ _]%rebuild_overlay_session & E)%bind_Some.
  unfold lock_confirmed, begin in E. cbn [auth set_confirmed] in E. rewrite El, Ea, Eb in E.
  apply rebuild_overlay_session in E. injection E as _ E _ _ E' _ _ _. rewrite E, E'.
  cbn [conversation confirmed record set_outside set_auth set_confirmed]. by rewrite Ec.
Qed.

