(* ===== verification/LockerSecrecy.v ===== *)
(** * The locker never shows what is typed

    Two runs in which the user types different responses of the same lengths
    cannot be told apart by anything that the presentation gives to the runtime:
    the frames, down to their pixels, and the results of every operation.  The
    proof erases from a state what was typed, and shows that every operation
    commutes with the erasure. *)

From S2P Require Import Prelude Utf8 LockerDraw Locker LockerProofs.
From S2P Require Conversation LockProtocol LockWorker SessionLock WallpaperState.

#[local] Existing Instance Conversation.Status_eq_dec.
#[local] Existing Instance LockProtocol.Message_eq_dec.

(** ** Erasure *)

Definition mask (s : rstring) : rstring := replicate (length s) 120.

Definition erase_conversation (c : Conversation.Conversation) : Conversation.Conversation :=
  Conversation.set_input
    (Conversation.Buffer (mask (Conversation.text (Conversation.input c)))
       (Conversation.capacity (Conversation.input c)) (Conversation.moves (Conversation.input c))) c.
Definition erase_client (c : Client) : Client :=
  mkClient (LockWorker.mkConnection (LockWorker.inbox (writer c)) (LockWorker.outcomes (writer c)) [])
    (events c) (reader c).
Definition erase_outside (o : Outside) : Outside := mkOutside (workers o) (arrivals o) [].
Definition erase (l : LockerPresentation) : LockerPresentation :=
  mkLocker (wallpaper l) (identity l) (erase_conversation (conversation l))
    ((λ ac, (ac.1, erase_client ac.2)) <$> auth l) (prompt_id l) (confirmed l) (authorized l)
    (background l) (overlay l) (frame l) (instruction_page l) (erase_outside (outside l)).

Definition erase_op (o : Op) : Op :=
  match o with OInput (SessionLock.Text v) => OInput (SessionLock.Text (mask v)) | _ => o end.

#[local] Arguments mask : simpl never.

(** Text that a keyboard gives: its encoding has no NUL. *)
Definition typed (s : rstring) : Prop := Forall (λ c, LockProtocol.contains_nul (encode_char c) = false) s.
Definition typed_op (o : Op) : Prop :=
  match o with OInput (SessionLock.Text v) => typed v | _ => True end.
Definition clean (l : LockerPresentation) : Prop :=
  typed (Conversation.text (Conversation.input (conversation l))).

Lemma length_mask s : length (mask s) = length s.
Proof. apply length_replicate. Qed.
Lemma mask_mask s : mask (mask s) = mask s.
Proof. unfold mask. by rewrite length_replicate. Qed.
Lemma mask_eq s t : length s = length t → mask s = mask t.
Proof. unfold mask. by intros ->. Qed.
Lemma typed_mask s : typed (mask s).
Proof. unfold typed, mask. apply Forall_replicate. by vm_compute. Qed.

Lemma erase_erase_conversation c : erase_conversation (erase_conversation c) = erase_conversation c.
Proof. unfold erase_conversation. cbn. by rewrite mask_mask. Qed.
Lemma erase_erase l : erase (erase l) = erase l.
Proof.
  unfold erase. cbn. rewrite erase_erase_conversation. f_equal. by destruct (auth l) as [[a c]|].
Qed.
Lemma erase_op_typed o : typed_op (erase_op o).
Proof. destruct o as [| | |[]|]; cbn; try done. apply typed_mask. Qed.
Lemma clean_erase l : clean (erase l).
Proof. apply typed_mask. Qed.

(** ** The response on the wire *)

Lemma typed_secret s : typed s → (length s ≤ Conversation.MAX_TEXT_CHARS)%nat →
  LockProtocol.secret_new (encode s) = Ok (encode s).
Proof.
  intros Ht Hl. apply LockProtocol.secret_new_Ok. split; [done|]. split.
  - induction Ht as [|c s Hc _ IH]; [done|]. cbn [length] in Hl.
    change (encode (c :: s)) with (encode_char c ++ encode s).
    rewrite LockWorker.contains_nul_suffix, Hc, IH by lia. done.
  - unfold LockProtocol.blen. rewrite length_encode. pose proof (str_len_bounds s).
    unfold Conversation.MAX_TEXT_CHARS, LockProtocol.MAX_RESPONSE_BYTES in *. lia.
Qed.

Lemma response_sendable id v : LockProtocol.blen v ≤ LockProtocol.MAX_RESPONSE_BYTES →
  LockWorker.sendable (LockProtocol.Response id v) = true.
Proof.
  intros H. unfold LockWorker.sendable. cbn [LockProtocol.encode_message]. apply Z.leb_le.
  unfold LockProtocol.blen in *. rewrite length_app, length_be_bytes.
  unfold LockProtocol.MAX_PAYLOAD_BYTES, LockProtocol.MAX_RESPONSE_BYTES in *. lia.
Qed.

(** Whether a write works does not depend on what is written, for messages
    that can be sent. *)
Lemma send_erase m m' c c' :
  LockWorker.sendable m = LockWorker.sendable m' → erase_client c = erase_client c' →
  let r := send m c in let r' := send m' c' in
  snd (fst r) = snd (fst r') ∧ erase_client (fst (fst r)) = erase_client (fst (fst r')).
Proof.
  intros Hs [= E1 E2 E3 E4]. unfold send, LockWorker.send. rewrite Hs, E2.
  destruct (LockWorker.sendable m'); cbn [negb]; [|by unfold erase_client; cbn; rewrite E1, E2, E3, E4].
  by destruct (LockWorker.outcomes (writer c')) as [|[] os]; unfold erase_client; cbn; rewrite ?E1, ?E3, ?E4.
Qed.

Lemma respond_erase id s s' c c' :
  typed s → typed s' → (length s ≤ Conversation.MAX_TEXT_CHARS)%nat → length s = length s' →
  erase_client c = erase_client c' →
  let r := respond id s c in let r' := respond id s' c' in
  snd (fst r) = snd (fst r') ∧ erase_client (fst (fst r)) = erase_client (fst (fst r')).
Proof.
  intros Hs Hs' Hl Hll Hc. unfold respond. rewrite !typed_secret by (done || lia).
  apply send_erase; [|done].
  pose proof (typed_secret s Hs Hl) as [_ [_ H1]]%LockProtocol.secret_new_Ok.
  pose proof (typed_secret s' Hs' ltac:(lia)) as [_ [_ H2]]%LockProtocol.secret_new_Ok.
  by rewrite !response_sendable.
Qed.

(** ** The conversation *)

Lemma erase_conversation_inv c c' : erase_conversation c = erase_conversation c' ↔
  length (Conversation.text (Conversation.input c)) = length (Conversation.text (Conversation.input c'))
  ∧ Conversation.capacity (Conversation.input c) = Conversation.capacity (Conversation.input c')
  ∧ Conversation.moves (Conversation.input c) = Conversation.moves (Conversation.input c')
  ∧ Conversation.prompt c = Conversation.prompt c' ∧ Conversation.message c = Conversation.message c'
  ∧ Conversation.message_is_error c = Conversation.message_is_error c'
  ∧ Conversation.secret c = Conversation.secret c' ∧ Conversation.status c = Conversation.status c'
  ∧ Conversation.attempt c = Conversation.attempt c'.
Proof.
  split.
  - intros E. unfold erase_conversation in E. injection E as E1 E2 E3 E4 E5 E6 E7 E8 E9.
    apply (f_equal length) in E1. rewrite !length_mask in E1. done.
  - intros (E1 & E2 & E3 & E4 & E5 & E6 & E7 & E8 & E9). unfold erase_conversation, Conversation.set_input.
    rewrite (mask_eq _ _ E1). congruence.
Qed.

(** Two conversations that differ in what was typed at most. *)
Definition alike (c c' : Conversation.Conversation) : Prop := erase_conversation c = erase_conversation c'.

Ltac alike_cases H :=
  let H1 := fresh "Elen" in let H2 := fresh "Ecap" in let H3 := fresh "Emov" in let H4 := fresh "Epr" in
  let H5 := fresh "Emsg" in let H6 := fresh "Eerr" in let H7 := fresh "Esec" in let H8 := fresh "Est" in
  let H9 := fresh "Eatt" in
  apply erase_conversation_inv in H as (H1 & H2 & H3 & H4 & H5 & H6 & H7 & H8 & H9).

Lemma begin_attempt_alike c c' : alike c c' → Conversation.begin_attempt c = Conversation.begin_attempt c'.
Proof.
  intros H. alike_cases H. unfold Conversation.begin_attempt, Conversation.clear_response, Conversation.clear_notice.
  cbn -[Conversation.next_attempt Conversation.MAX_INPUT_BYTES].
  by rewrite Ecap, Emov, Epr, Esec, Eatt.
Qed.

Lemma receive_alike a r c c' : alike c c' →
  snd (Conversation.receive a r c) = snd (Conversation.receive a r c')
  ∧ alike (fst (Conversation.receive a r c)) (fst (Conversation.receive a r c')).
Proof.
  intros H. pose proof H as H'. alike_cases H. unfold Conversation.receive, Conversation.accepts. rewrite Eatt.
  destruct (a =? _); cbn [negb]; [|done].
  destruct r; (split; [done|]); apply erase_conversation_inv;
    cbn -[Conversation.MAX_INPUT_BYTES Conversation.bounded_text Conversation.clean_prompt str];
    rewrite ?Ecap, ?Emov; by split_and!.
Qed.

Lemma fail_alike m c c' : alike c c' → alike (Conversation.fail m c) (Conversation.fail m c').
Proof.
  intros H. unfold Conversation.fail. assert (Conversation.attempt c = Conversation.attempt c') as ->.
  { pose proof H as H'. by alike_cases H'. }
  by apply receive_alike.
Qed.

Lemma push_alike v v' c c' : alike c c' → Conversation.wf c → Conversation.wf c' → length v = length v' →
  snd (Conversation.push_input v c) = snd (Conversation.push_input v' c')
  ∧ alike (fst (Conversation.push_input v c)) (fst (Conversation.push_input v' c')).
Proof.
  intros H [] [] Hv. pose proof H as H'. alike_cases H. unfold Conversation.push_input. rewrite Est.
  case_bool_decide; cbn [negb]; [|done].
  rewrite !Conversation.append_bounded_wf_spec by done. cbn [fst snd Conversation.text Conversation.input Conversation.set_input].
  rewrite !str_len_app, Elen. set (n := (Conversation.MAX_TEXT_CHARS - _)%nat).
  assert (∀ s t, (str_len s + str_len t =? str_len s) = bool_decide (t = [])) as Hnil.
  { intros s t. case_bool_decide as Et; [subst; apply Z.eqb_eq; cbn; lia|]. apply Z.eqb_neq.
    intros E. apply Et, str_len_nil_inv. lia. }
  assert (length (take n v) = length (take n v')) as Htake by (rewrite !length_take; lia).
  rewrite !Hnil. split.
  - f_equal. apply bool_decide_ext. by rewrite <- !length_zero_iff_nil, Htake.
  - clearbody n. apply erase_conversation_inv. cbn. rewrite !length_app, Htake. by split_and!; [lia|..].
Qed.

Lemma pop_alike c c' : alike c c' →
  snd (Conversation.pop_input c) = snd (Conversation.pop_input c')
  ∧ alike (fst (Conversation.pop_input c)) (fst (Conversation.pop_input c')).
Proof.
  intros H. pose proof H as H'. alike_cases H. unfold Conversation.pop_input. rewrite Est.
  case_bool_decide; cbn [negb]; [|done].
  destruct (Conversation.text (Conversation.input c)) as [|x t], (Conversation.text (Conversation.input c')) as [|x' t'];
    try done. split; [done|]. apply erase_conversation_inv. cbn [fst Conversation.input Conversation.set_input Conversation.text
    Conversation.capacity Conversation.moves Conversation.prompt Conversation.message Conversation.message_is_error
    Conversation.secret Conversation.status Conversation.attempt].
  rewrite !length_take, Elen. by split_and!.
Qed.

(** *** What was typed stays clean *)

Definition ctyped (c : Conversation.Conversation) : Prop := typed (Conversation.text (Conversation.input c)).

Lemma ctyped_nil : typed [].
Proof. constructor. Qed.
Lemma ctyped_begin c : ctyped (fst (Conversation.begin_attempt c)).
Proof. apply ctyped_nil. Qed.
Lemma ctyped_receive a r c : ctyped c → ctyped (fst (Conversation.receive a r c)).
Proof. intros H. unfold Conversation.receive. destruct (negb _); [done|]. destruct r; done || apply ctyped_nil. Qed.
Lemma ctyped_fail m c : ctyped c → ctyped (Conversation.fail m c).
Proof. apply ctyped_receive. Qed.
Lemma ctyped_push v c : Conversation.wf c → typed v → ctyped c → ctyped (fst (Conversation.push_input v c)).
Proof.
  intros [] Hv Hc. unfold Conversation.push_input. case_bool_decide; [|done]. cbn [negb fst].
  unfold ctyped. rewrite Conversation.append_bounded_wf_spec by done. cbn. apply Forall_app.
  by split; [|apply Forall_take].
Qed.
Lemma ctyped_pop c : ctyped c → ctyped (fst (Conversation.pop_input c)).
Proof.
  intros Hc. unfold Conversation.pop_input. case_bool_decide; [|done]. cbn [negb].
  destruct (Conversation.text (Conversation.input c)) eqn:E; [done|]. unfold ctyped in *. rewrite E in Hc. by apply Forall_take.
Qed.
Lemma ctyped_submit c : ctyped c → ctyped (fst (Conversation.submit c)).
Proof. intros Hc. unfold Conversation.submit. case_bool_decide; [apply ctyped_nil|done]. Qed.

Hint Resolve ctyped_begin ctyped_receive ctyped_fail ctyped_push ctyped_pop ctyped_submit : typed.

Lemma clean_replace attempt l : clean l → clean (replace_worker attempt l).
Proof.
  intros H. unfold clean in *. unfold replace_worker, cancel_client, start_client, begin.
  assert (ctyped (Conversation.fail UNAVAILABLE (conversation l))) by (by apply ctyped_fail).
  destruct (auth l) as [[a c]|]; [destruct (cancel c)|];
    cbn [outside set_auth record set_outside workers];
    (destruct (workers (outside l)); [done|]);
    destruct (start _ _) as [[c'|e] acts]; try done;
    destruct (send _ _) as [[? []] ?]; try done; by destruct (cancel _).
Qed.

Lemma clean_retry l : clean (fst (retry l)).
Proof.
  unfold retry. pose proof (ctyped_begin (conversation l)) as Hb. cbn [conversation set_instruction_page].
  destruct (Conversation.begin_attempt _) as [conv next]. cbn [auth set_conversation set_instruction_page].
  destruct (auth l) as [[a c]|]; [destruct (retry_client c) as [[c' []] acts]; [done|]|];
    by apply (clean_replace next).
Qed.
Lemma clean_cancel l : clean l → clean (fst (cancel_attempt l)).
Proof.
  intros H. unfold cancel_attempt. destruct (auth l) as [[a c]|]; [|done].
  pose proof (ctyped_begin (conversation l)) as Hb. cbn [conversation set_auth].
  destruct (Conversation.begin_attempt _) as [conv next]. destruct (cancel c) as [c' acts].
  by apply (clean_replace next).
Qed.
Lemma clean_submit l : clean l → clean (fst (submit l)).
Proof.
  intros H. unfold submit. destruct (prompt_id l); [|done].
  pose proof (ctyped_submit (conversation l) H) as Hs. cbn [conversation set_prompt_id].
  destruct (Conversation.submit _) as [conv [[a r]|]]; [|done]. cbn [auth set_conversation set_prompt_id].
  destruct (auth l) as [[a' c]|]; [|done]. destruct (negb _); [by apply (ctyped_fail UNAVAILABLE conv)|].
  destruct (respond _ _ _) as [[? []] ?]; [done|]. by apply (ctyped_fail UNAVAILABLE conv).
Qed.

Lemma clean_handle_input i l : Conversation.wf (conversation l) → typed_op (OInput i) → clean l →
  clean (fst (handle_input i l)).
Proof.
  intros Hwf Hi H. destruct i as [v| | | |]; cbn [handle_input].
  - pose proof (ctyped_push v _ Hwf Hi H). by destruct (Conversation.push_input _ _).
  - pose proof (ctyped_pop _ H). by destruct (Conversation.pop_input _).
  - case_bool_decide; [apply clean_retry|by apply clean_submit].
  - by apply clean_cancel.
  - unfold next_page. by destruct (_ && _).
Qed.

Lemma clean_receive_event a e l : clean l → clean (receive_event a e l).
Proof.
  intros H. destruct e as [id s text|err text| |]; cbn [receive_event]; try by apply ctyped_receive.
  pose proof (ctyped_receive a Conversation.Success _ H).
  destruct (Conversation.receive _ Conversation.Success _). by case_bool_decide.
Qed.

Lemma clean_receive_auth l : clean l → clean (fst (receive_auth l)).
Proof.
  intros H. unfold receive_auth. destruct (negb _); [done|].
  assert (∀ turns l changed, clean l → clean (fst (receive_events turns l changed))) as Hev.
  { clear. intros turns. induction turns as [|turns IH]; intros l changed H; cbn [receive_events]; [done|].
    destruct (auth l) as [[a c]|]; [|done]. destruct (try_receive c) as [c' [e|]]; [|done].
    destruct (negb _); apply IH; [done|by apply clean_receive_event]. }
  specialize (Hev MAX_AUTH_EVENTS_PER_REFRESH l false H).
  destruct (receive_events _ l false) as [l' changed]. by destruct changed.
Qed.

(** ** The presentation *)

Definition peer (l l' : LockerPresentation) : Prop := erase l = erase l'.

Lemma peer_inv l l' : peer l l' ↔
  ∃ conv a log', alike (conversation l) conv
  ∧ ((λ ac, (ac.1, erase_client ac.2)) <$> auth l) = ((λ ac, (ac.1, erase_client ac.2)) <$> a)
  ∧ l' = set_outside (mkOutside (workers (outside l)) (arrivals (outside l)) log')
           (set_auth a (set_conversation conv l)).
Proof.
  split.
  - intros E. exists (conversation l'), (auth l'), (log (outside l')). destruct l as [? ? ? ? ? ? ? ? ? ? ? [? ? ?]], l' as [? ? ? ? ? ? ? ? ? ? ? [? ? ?]].
    unfold peer, erase, erase_outside in E.
    cbn -[erase_conversation] in *. injection E. clear E. intros.
    split_and!; [|done|by subst]. apply erase_conversation_inv. split_and!; try done.
    match goal with H : mask _ = mask _ |- _ => apply (f_equal length) in H; by rewrite !length_mask in H end.
  - intros (conv & a & log' & H1 & H2 & ->). unfold peer, erase. cbn. by rewrite H1, H2.
Qed.

(** Builds a pair of peers from their parts. *)
Lemma peer_of l conv conv' a a' log log' : alike conv conv' →
  ((λ ac, (ac.1, erase_client ac.2)) <$> a) = ((λ ac, (ac.1, erase_client ac.2)) <$> a') →
  peer (set_outside (mkOutside (workers (outside l)) (arrivals (outside l)) log)
          (set_auth a (set_conversation conv l)))
       (set_outside (mkOutside (workers (outside l)) (arrivals (outside l)) log')
          (set_auth a' (set_conversation conv' l))).
Proof. intros H1 H2. unfold peer, erase. cbn. by rewrite H1, H2. Qed.

Lemma cancel_client_peer l l' : peer l l' → peer (cancel_client l) (cancel_client l').
Proof.
  intros (conv & a & lg & H1 & H2 & ->)%peer_inv. unfold cancel_client. cbn [auth set_outside].
  destruct (auth l) as [[x c]|] eqn:Ea, a as [[x' c']|]; try done; cbn [auth set_auth].
  - destruct (cancel c) as [? acts], (cancel c') as [? acts']. unfold peer, erase. cbn. by rewrite H1.
  - unfold peer, erase. cbn. by rewrite H1, Ea.
Qed.

Lemma record_peer acts acts' l l' : peer l l' → peer (record acts l) (record acts' l').
Proof.
  intros (conv & a & lg & H1 & H2 & ->)%peer_inv. unfold peer, erase. cbn. by rewrite H1, H2.
Qed.
Lemma set_prompt_peer id l l' : peer l l' → peer (set_prompt_id id l) (set_prompt_id id l').
Proof.
  intros (conv & a & lg & H1 & H2 & ->)%peer_inv. unfold peer, erase. cbn. by rewrite H1, H2.
Qed.
Lemma set_page_peer n l l' : peer l l' → peer (set_instruction_page n l) (set_instruction_page n l').
Proof.
  intros (conv & a & lg & H1 & H2 & ->)%peer_inv. unfold peer, erase. cbn. by rewrite H1, H2.
Qed.
Lemma set_conversation_peer c c' l l' : alike c c' → peer l l' → peer (set_conversation c l) (set_conversation c' l').
Proof.
  intros Hc (conv & a & lg & H1 & H2 & ->)%peer_inv. unfold peer, erase. cbn. by rewrite Hc, H2.
Qed.
Lemma set_auth_peer a c c' l l' : erase_client c = erase_client c' → peer l l' →
  peer (set_auth (Some (a, c)) l) (set_auth (Some (a, c')) l').
Proof.
  intros Hc (conv & x & lg & H1 & H2 & ->)%peer_inv. unfold peer, erase. cbn. by rewrite H1, Hc.
Qed.
Lemma set_auth_none_peer l l' : peer l l' → peer (set_auth None l) (set_auth None l').
Proof.
  intros (conv & x & lg & H1 & H2 & ->)%peer_inv. unfold peer, erase. cbn. by rewrite H1.
Qed.
Lemma set_authorized_peer b l l' : peer l l' → peer (set_authorized b l) (set_authorized b l').
Proof.
  intros (conv & a & lg & H1 & H2 & ->)%peer_inv. unfold peer, erase. cbn. by rewrite H1, H2.
Qed.
Lemma set_confirmed_peer b l l' : peer l l' → peer (set_confirmed b l) (set_confirmed b l').
Proof.
  intros (conv & a & lg & H1 & H2 & ->)%peer_inv. unfold peer, erase. cbn. by rewrite H1, H2.
Qed.

Lemma fail_authentication_peer l l' : peer l l' → peer (fail_authentication l) (fail_authentication l').
Proof.
  intros H. apply set_conversation_peer; [|done]. apply fail_alike.
  by destruct (proj1 (peer_inv _ _) H) as (conv & a & lg & H1 & H2 & ->).
Qed.

Hint Resolve cancel_client_peer fail_authentication_peer record_peer set_prompt_peer set_page_peer
  set_conversation_peer set_auth_peer set_auth_none_peer set_authorized_peer set_confirmed_peer : peer.

(** Equal results and peers. *)
Ltac peers := split; [done|cbn [fst snd]; auto with peer].

(** What the code reads of a state that does not depend on what was typed. *)
Lemma peer_reads l l' : peer l l' →
  identity l = identity l' ∧ workers (outside l) = workers (outside l') ∧ prompt_id l = prompt_id l'
  ∧ alike (conversation l) (conversation l') ∧ confirmed l = confirmed l' ∧ authorized l = authorized l'
  ∧ instruction_page l = instruction_page l' ∧ frame l = frame l' ∧ background l = background l'
  ∧ overlay l = overlay l' ∧ wallpaper l = wallpaper l' ∧ arrivals (outside l) = arrivals (outside l').
Proof. by intros (conv & a & lg & H1 & H2 & ->)%peer_inv. Qed.

Lemma peer_auth l l' : peer l l' →
  match auth l, auth l' with
  | None, None => True
  | Some (a, c), Some (a', c') => a = a' ∧ erase_client c = erase_client c'
  | _, _ => False
  end.
Proof.
  intros (conv & a & lg & H1 & H2 & ->)%peer_inv. cbn. destruct (auth l) as [[x c]|], a as [[x' c']|]; try done.
  change (Some (x, erase_client c) = Some (x', erase_client c')) in H2. apply (inj Some) in H2.
  split; [exact (f_equal fst H2)|exact (f_equal snd H2)].
Qed.

Lemma start_client_peer l l' : peer l l' →
  fst (start_client l) = fst (start_client l') ∧ peer (snd (start_client l)) (snd (start_client l')).
Proof.
  intros (conv & a & lg & H1 & H2 & ->)%peer_inv. unfold start_client. cbn [workers outside set_outside].
  destruct (workers (outside l)) as [|w ws] eqn:Ew.
  - split; [done|]. unfold peer, erase, erase_outside. cbn. by rewrite Ew, H1, H2.
  - cbn [identity set_outside set_auth set_conversation]. destruct (start (identity l) w) as [r acts].
    split; [done|]. unfold peer, erase. cbn. by rewrite H1, H2.
Qed.

Lemma replace_peer attempt l l' : peer l l' → peer (replace_worker attempt l) (replace_worker attempt l').
Proof.
  intros H%cancel_client_peer. unfold replace_worker.
  destruct (start_client_peer _ _ H) as [Er Hp]. destruct (start_client (cancel_client l)) as [r l1],
    (start_client (cancel_client l')) as [r' l1']. cbn [fst snd] in *. subst r'.
  destruct r as [c|e]; [|by apply fail_authentication_peer].
  destruct (begin c) as [[c' []] acts]; [auto with peer|]. destruct (cancel c'). auto with peer.
Qed.
Hint Resolve replace_peer : peer.

Lemma retry_peer l l' : peer l l' → snd (retry l) = snd (retry l') ∧ peer (fst (retry l)) (fst (retry l')).
Proof.
  intros H. unfold retry. cbn [conversation set_instruction_page].
  destruct (peer_reads _ _ H) as (_ & _ & _ & Hc & _). rewrite <- (begin_attempt_alike _ _ Hc).
  destruct (Conversation.begin_attempt _) as [conv next].
  assert (peer (set_conversation conv (set_instruction_page 0 l)) (set_conversation conv (set_instruction_page 0 l'))) as Hp
    by (apply set_conversation_peer; [done|auto with peer]).
  cbn [auth set_conversation set_instruction_page]. pose proof (peer_auth _ _ H) as Ha.
  destruct (auth l) as [[a c]|], (auth l') as [[a' c']|]; try done; [|by peers].
  destruct Ha as [-> Hcl]. unfold retry_client.
  destruct (send_erase LockProtocol.Retry LockProtocol.Retry c c' eq_refl Hcl) as [Eok Ec].
  destruct (send LockProtocol.Retry c) as [[c1 ok] acts], (send LockProtocol.Retry c') as [[c1' ok'] acts'].
  cbn [fst snd] in *. subst ok'. destruct ok; peers.
Qed.

Lemma cancel_attempt_peer l l' : peer l l' →
  snd (cancel_attempt l) = snd (cancel_attempt l') ∧ peer (fst (cancel_attempt l)) (fst (cancel_attempt l')).
Proof.
  intros H. unfold cancel_attempt. pose proof (peer_auth _ _ H) as Ha.
  destruct (peer_reads _ _ H) as (_ & _ & _ & Hc & _).
  destruct (auth l) as [[a c]|], (auth l') as [[a' c']|]; try done.
  cbn [conversation set_auth]. rewrite <- (begin_attempt_alike _ _ Hc).
  destruct (Conversation.begin_attempt _) as [conv next], (cancel c), (cancel c').
  split; [done|]. apply set_prompt_peer, replace_peer, record_peer, set_page_peer, set_conversation_peer; [done|].
  by apply set_auth_none_peer.
Qed.

Lemma submit_peer i ws l l' : session_wf i ws l → session_wf i ws l' → clean l → clean l' → peer l l' →
  snd (submit l) = snd (submit l') ∧ peer (fst (submit l)) (fst (submit l')).
Proof.
  intros Hw Hw' Hcl Hcl' H. unfold submit. destruct (peer_reads _ _ H) as (_ & _ & Eid & Hc & _).
  rewrite <- Eid. destruct (prompt_id l) as [id|]; [|by peers].
  cbn [conversation set_prompt_id]. unfold Conversation.submit.
  pose proof Hc as Hc'. alike_cases Hc'. rewrite Est. case_bool_decide; cbn [negb].
  2: { peers. }
  cbn [auth set_conversation set_prompt_id].
  match goal with |- context [set_conversation ?c (set_prompt_id None l)] => set (k := c) end.
  match goal with |- context [set_conversation ?c (set_prompt_id None l')] => set (k' := c) end.
  assert (alike k k') as Hk.
  { apply erase_conversation_inv. subst k k'. cbn. by split_and!. }
  assert (peer (set_conversation k (set_prompt_id None l)) (set_conversation k' (set_prompt_id None l'))) as Hp
    by auto with peer.
  clearbody k k'. pose proof (peer_auth _ _ H) as Ha.
  destruct (auth l) as [[a c]|], (auth l') as [[a' c']|]; try done. destruct Ha as [-> Hcc].
  change (Conversation.attempt (Conversation.set_status _ ?x)) with (Conversation.attempt x).
  rewrite Eatt. destruct (negb _); [by peers|].
  change (Conversation.input (Conversation.set_status _ ?x)) with (Conversation.input x).
  destruct (respond_erase id (Conversation.text (Conversation.input (conversation l)))
    (Conversation.text (Conversation.input (conversation l'))) c c') as [Eok Ec]; try done.
  { apply (sw_conversation _ _ _ Hw). }
  destruct (respond id _ c) as [[c1 ok] acts], (respond id _ c') as [[c1' ok'] acts']. cbn [fst snd] in *. subst ok'.
  destruct ok; peers.
Qed.

Lemma handle_input_peer i ws inp inp' l l' :
  session_wf i ws l → session_wf i ws l' → clean l → clean l' → peer l l' →
  erase_op (OInput inp) = erase_op (OInput inp') →
  snd (handle_input inp l) = snd (handle_input inp' l')
  ∧ peer (fst (handle_input inp l)) (fst (handle_input inp' l')).
Proof.
  intros Hw Hw' Hcl Hcl' H Ei. destruct (peer_reads _ _ H) as (_ & _ & _ & Hc & _ & _ & Epage & _).
  destruct inp as [v| | | |], inp' as [v'| | | |]; try done; cbn [handle_input].
  - injection Ei as Ev. apply (f_equal length) in Ev. rewrite !length_mask in Ev.
    destruct (push_alike v v' _ _ Hc (sw_conversation _ _ _ Hw) (sw_conversation _ _ _ Hw') Ev) as [E1 E2].
    destruct (Conversation.push_input v _), (Conversation.push_input v' _). cbn [fst snd] in *. subst. peers.
  - destruct (pop_alike _ _ Hc) as [E1 E2].
    destruct (Conversation.pop_input _), (Conversation.pop_input (conversation l')). cbn [fst snd] in *. subst. peers.
  - pose proof Hc as Hc'. alike_cases Hc'. rewrite Est. case_bool_decide; [by apply retry_peer|].
    by eapply submit_peer.
  - by apply cancel_attempt_peer.
  - pose proof Hc as Hc'. alike_cases Hc'. unfold next_page. rewrite Epr, Emsg, Epage.
    destruct (_ && _); peers.
Qed.

Lemma receive_event_peer a e l l' : peer l l' → peer (receive_event a e l) (receive_event a e l').
Proof.
  intros H. destruct (peer_reads _ _ H) as (_ & _ & _ & Hc & _).
  destruct e as [id s text|err text| |]; cbn [receive_event];
    try (apply set_conversation_peer; [by apply receive_alike|auto with peer]).
  destruct (receive_alike a Conversation.Success _ _ Hc) as [E1 E2].
  destruct (Conversation.receive a Conversation.Success _), (Conversation.receive a Conversation.Success (conversation l')).
  cbn [fst snd] in *. subst. case_bool_decide; auto with peer.
Qed.

Lemma receive_auth_peer l l' : peer l l' →
  snd (receive_auth l) = snd (receive_auth l') ∧ peer (fst (receive_auth l)) (fst (receive_auth l')).
Proof.
  intros H. unfold receive_auth. destruct (peer_reads _ _ H) as (_ & _ & _ & _ & <- & _).
  destruct (negb _); [done|].
  assert (∀ turns l l' changed, peer l l' →
    snd (receive_events turns l changed) = snd (receive_events turns l' changed)
    ∧ peer (fst (receive_events turns l changed)) (fst (receive_events turns l' changed))) as Hev.
  { clear. intros turns. induction turns as [|turns IH]; intros l l' changed H; cbn [receive_events]; [done|].
    pose proof (peer_auth _ _ H) as Ha.
    destruct (auth l) as [[a c]|], (auth l') as [[a' c']|]; try done. destruct Ha as [<- Ec].
    assert (snd (try_receive c) = snd (try_receive c')
      ∧ erase_client (fst (try_receive c)) = erase_client (fst (try_receive c'))) as [E1 E2].
    { injection Ec as F1 F2 F3 F4. unfold try_receive. rewrite F3.
      destruct (events c') as [[|x es]|] eqn:Ev; (split; [done|]); unfold erase_client; cbn;
        by rewrite F1, F2, ?F3, ?Ev, F4. }
    destruct (try_receive c) as [c1 [e|]], (try_receive c') as [c1' [e'|]]; try done; [|peers].
    cbn [fst snd] in *. injection E1 as <-.
    assert (peer (record [Hears e] (set_auth (Some (a, c1)) l)) (record [Hears e] (set_auth (Some (a, c1')) l'))) as Hp
      by auto with peer.
    cbn [conversation record set_outside set_auth].
    destruct (peer_reads _ _ H) as (_ & _ & _ & Hc & _). unfold Conversation.accepts.
    alike_cases Hc. rewrite Eatt. destruct (negb _); apply IH; [done|by apply receive_event_peer]. }
  destruct (Hev MAX_AUTH_EVENTS_PER_REFRESH l l' false H) as [E1 E2].
  destruct (receive_events _ l false) as [l1 ch], (receive_events _ l' false) as [l1' ch']. cbn [fst snd] in *.
  subst ch'. destruct ch; peers.
Qed.

(** ** What the runtime sees *)

Section Observed.
Context (fonts : Typeface).

(** Results of operations that may panic. *)
Definition peers_of (p p' : option LockerPresentation) : Prop := option_Forall2 peer p p'.

Lemma set_frames_peer bg ov f l l' : peer l l' → peer (set_frames bg ov f l) (set_frames bg ov f l').
Proof.
  intros (conv & a & lg & H1 & H2 & ->)%peer_inv. unfold peer, erase. cbn. by rewrite H1, H2.
Qed.

Lemma rebuild_frame_peer l l' : peer l l' → peers_of (rebuild_frame l) (rebuild_frame l').
Proof.
  intros H. unfold rebuild_frame. destruct (peer_reads _ _ H) as (_ & _ & _ & _ & _ & _ & _ & _ & <- & <- & _).
  destruct (overlay l); [|constructor; by apply set_frames_peer].
  destruct authentication_canvas_dimensions as [w h].
  destruct (u32 (w - _)); [|constructor]. destruct (u32 (h - _)); [|constructor].
  constructor. by apply set_frames_peer.
Qed.

Lemma rebuild_overlay_peer l l' : peer l l' → peers_of (rebuild_overlay fonts l) (rebuild_overlay fonts l').
Proof.
  intros H. destruct (peer_reads _ _ H) as (Ei & _ & _ & Hc & Ecf & _ & Epage & Ef & Eb & _).
  unfold rebuild_overlay. destruct authentication_overlay_dimensions as [w h].
  rewrite Ei, Ecf, Epage, Ef, Eb.
  rewrite (render_visible fonts w h _ _ (conversation l) (conversation l')).
  2: { alike_cases Hc. unfold visible. congruence. }
  destruct (render_authentication_overlay _ _ _ _ _ _ _ _ _) as [px|]; [|constructor]. cbn [mbind option_bind].
  destruct (SessionLock.rgba_new w h px) as [ov|]; [|constructor]. cbn [mbind option_bind].
  by apply rebuild_frame_peer, set_frames_peer.
Qed.

(** An operation's result: the refresh or whether something changed or was
    granted, and then the frame there is to show. *)
Definition result_of (p : option LockerPresentation) (o : Op) : option SessionLock.Refresh * bool :=
  match o with
  | OLatest => (Some (snd (SessionLock.receive_latest (Presentation := locker_presentation fonts) p)), false)
  | ODeferred => (Some (snd (SessionLock.receive_deferred (Presentation := locker_presentation fonts) p)), false)
  | OConfirm => (None, false)
  | OInput i => (None, snd (SessionLock.give_input (Presentation := locker_presentation fonts) i p))
  | OTake => (None, snd (SessionLock.take_authorization (Presentation := locker_presentation fonts) p))
  end.
Definition shown (p : option LockerPresentation) : option SessionLock.PresentationFrame :=
  SessionLock.frame (Presentation := locker_presentation fonts) p.

Fixpoint observe (p : option LockerPresentation) (os : list Op) :
    list (option SessionLock.Refresh * bool * option SessionLock.PresentationFrame) :=
  match os with
  | [] => []
  | o :: os => (result_of p o, shown (run_op fonts p o)) :: observe (run_op fonts p o) os
  end.

Lemma lock_confirmed_peer l l' : peer l l' → peers_of (lock_confirmed fonts l) (lock_confirmed fonts l').
Proof.
  intros H. unfold lock_confirmed. apply rebuild_overlay_peer. cbn [auth set_confirmed].
  pose proof (peer_auth _ _ H) as Ha. destruct (auth l) as [[a c]|], (auth l') as [[a' c']|]; try done;
    [|auto with peer]. destruct Ha as [<- Hc]. unfold begin.
  destruct (send_erase LockProtocol.Begin LockProtocol.Begin c c' eq_refl Hc) as [E1 E2].
  destruct (send _ c) as [[c1 ok] acts], (send _ c') as [[c1' ok'] acts']. cbn [fst snd] in *. subst ok'.
  destruct ok; auto 6 with peer.
Qed.

Lemma receive_deferred_peer l l' : peer l l' →
  snd (receive_deferred l) = snd (receive_deferred l') ∧ peers_of (fst (receive_deferred l)) (fst (receive_deferred l')).
Proof.
  intros H. unfold receive_deferred.
  assert (peer (arrive l) (arrive l')) as Ha.
  { apply peer_inv in H as (conv & a & lg & H1 & H2 & ->). unfold arrive. cbn [arrivals outside set_outside].
    destruct (arrivals (outside l)) as [|[[u f]|] rest] eqn:E; unfold peer, erase, erase_outside; cbn;
      by rewrite ?E, H1, H2. }
  destruct (peer_reads _ _ Ha) as (_ & _ & _ & _ & _ & _ & _ & Ef & Eb & Eo & Ew & _). rewrite <- Ew.
  destruct (WallpaperState.receive_latest _) as [refresh w]. cbn [fst snd]. split; [done|].
  assert (peer (set_wallpaper w (arrive l)) (set_wallpaper w (arrive l'))) as Hw.
  { apply peer_inv in Ha as (conv & a & lg & H1 & H2 & ->). unfold peer, erase. cbn. by rewrite H1, H2. }
  case_bool_decide; [by constructor|]. apply rebuild_frame_peer. cbn [overlay frame set_wallpaper].
  rewrite <- Ef, <- Eo. by apply set_frames_peer.
Qed.

(** One step of the two runs. *)
Lemma step_peer i ws o o' l l' :
  session_wf i ws l → session_wf i ws l' → clean l → clean l' → peer l l' →
  typed_op o → typed_op o' → erase_op o = erase_op o' →
  result_of (Some l) o = result_of (Some l') o' ∧ peers_of (run_op fonts (Some l) o) (run_op fonts (Some l') o').
Proof.
  intros Hw Hw' Hcl Hcl' H Ho Ho' Eo.
  destruct o as [| | |inp|], o' as [| | |inp'|]; try done; try (by destruct inp); try (by destruct inp');
    cbn [result_of run_op SessionLock.receive_latest SessionLock.receive_deferred SessionLock.lock_confirmed
      SessionLock.give_input SessionLock.take_authorization locker_presentation mbind option_bind].
  - unfold receive_latest. destruct (receive_auth_peer _ _ H) as [E1 E2].
    destruct (receive_auth l) as [l1 ch], (receive_auth l') as [l1' ch']. cbn [fst snd] in *. subst ch'.
    destruct ch; (split; [done|]); [by apply rebuild_overlay_peer|by constructor].
  - destruct (receive_deferred_peer _ _ H) as [-> ?]. done.
  - split; [done|]. by apply lock_confirmed_peer.
  - unfold Locker.input. destruct (peer_reads _ _ H) as (_ & _ & _ & _ & <- & _).
    destruct (negb _); [by split; [|constructor]|].
    destruct (handle_input_peer i ws inp inp' l l' Hw Hw' Hcl Hcl' H Eo) as [E1 E2].
    destruct (handle_input inp l) as [l1 ch], (handle_input inp' l') as [l1' ch']. cbn [fst snd] in *. subst ch'.
    destruct ch; (split; [done|]); [by apply rebuild_overlay_peer|by constructor].
  - cbn [take_authorization fst snd]. destruct (peer_reads _ _ H) as (_ & _ & _ & _ & _ & -> & _).
    split; [done|]. constructor. auto with peer.
Qed.

(** What was typed is clean after an operation too. *)
Lemma step_clean o l : Conversation.wf (conversation l) → typed_op o → clean l →
  from_option clean True (run_op fonts (Some l) o).
Proof.
  intros Hwf Ho H.
  assert (∀ l1 l2, session l2 = session l1 → clean l1 → clean l2) as Hses.
  { intros l1 l2 [= _ E _ _ _ _ _ _]. unfold clean. by rewrite E. }
  assert (∀ l1, clean l1 → from_option clean True (rebuild_overlay fonts l1)) as Hre.
  { intros l1 H1. destruct (rebuild_overlay fonts l1) eqn:E; [|done]. by eapply Hses; [eapply rebuild_overlay_session|]. }
  destruct o as [| | |inp|];
    cbn [run_op SessionLock.receive_latest SessionLock.receive_deferred SessionLock.lock_confirmed
      SessionLock.give_input SessionLock.take_authorization locker_presentation mbind option_bind].
  - unfold receive_latest. pose proof (clean_receive_auth l H) as Hr.
    destruct (receive_auth l) as [l1 []]; [by apply Hre|done].
  - unfold receive_deferred. assert (clean (arrive l)) as Ha.
    { unfold arrive. by destruct (arrivals _) as [|[[u f]|] rest]. }
    destruct (WallpaperState.receive_latest _) as [refresh w]. cbn [fst]. case_bool_decide; [done|].
    destruct (rebuild_frame _) eqn:E; [|done]. by eapply Hses; [by eapply rebuild_frame_session|].
  - unfold lock_confirmed. apply Hre. cbn [auth set_confirmed]. destruct (auth l) as [[a c]|].
    + destruct (begin c) as [[c1 []] acts]; [done|]. by apply (ctyped_fail UNAVAILABLE).
    + by apply (ctyped_fail UNAVAILABLE).
  - unfold Locker.input. destruct (negb _); [done|]. pose proof (clean_handle_input inp l Hwf Ho H) as Hi.
    destruct (handle_input inp l) as [l1 []]; [by apply Hre|done].
  - done.
Qed.

Lemma observe_none os os' : erase_op <$> os = erase_op <$> os' → observe None os = observe None os'.
Proof.
  revert os'. induction os as [|o os IH]; intros [|o' os']; try done. cbn [fmap list_fmap]. intros E.
  assert (erase_op o = erase_op o') as Eo by (by injection E).
  assert (erase_op <$> os = erase_op <$> os') as Es by (by injection E).
  cbn [observe].
  assert (∀ o, run_op fonts None o = None) as Hn by (by intros []). rewrite !Hn. f_equal; [|by apply IH].
  by destruct o as [| | |[]|], o' as [| | |[]|].
Qed.

Lemma observe_peer i ws os : ∀ os' p p',
  from_option (session_wf i ws) True p → from_option (session_wf i ws) True p' →
  from_option clean True p → from_option clean True p' → peers_of p p' →
  Forall typed_op os → Forall typed_op os' → erase_op <$> os = erase_op <$> os' →
  observe p os = observe p' os'.
Proof.
  induction os as [|o os IH]; intros [|o' os'] p p' Hw Hw' Hc Hc' Hp Ht Ht' E; try done.
  destruct Hp as [l l' H|]; [|by apply observe_none]. cbn [from_option] in *.
  apply Forall_cons in Ht as [Ho Ht]. apply Forall_cons in Ht' as [Ho' Ht'].
  assert (erase_op o = erase_op o') as Eo by (by injection E).
  assert (erase_op <$> os = erase_op <$> os') as Es by (by injection E).
  destruct (step_peer i ws o o' l l' Hw Hw' Hc Hc' H Ho Ho' Eo) as [Er Hs].
  cbn [observe]. f_equal; [f_equal; [done|]|].
  - destruct Hs as [l1 l1' H1|]; [|done]. by destruct (peer_reads _ _ H1) as (_ & _ & _ & _ & _ & _ & _ & ? & _).
  - apply IH; try done.
    + by apply session_op_wf.
    + by apply session_op_wf.
    + apply step_clean; [apply (sw_conversation _ _ _ Hw)|done|done].
    + apply step_clean; [apply (sw_conversation _ _ _ Hw')|done|done].
Qed.

End Observed.

Lemma launched_clean fonts i wallpaper w ws arrivals :
  from_option clean True (launched fonts i wallpaper w ws arrivals).
Proof.
  unfold launched. destruct (start i w) as [[c|e] acts]; [|done]. unfold new, rebuild.
  destruct (rebuild_overlay fonts _) as [l|] eqn:El; [|done]. apply rebuild_overlay_session in El.
  injection El as _ El _ _ _ _ _. cbn [from_option]. unfold clean. rewrite El. apply ctyped_nil.
Qed.

(** ** Property *)

(** C4.  What is typed cannot be seen, but for its length.  In two runs of the
    locker in which the user types, each time, texts with the same number of
    characters, none of them NUL (which no keyboard gives), and everything else
    is the same, the runtime gets the same results and the same frames, pixel for
    pixel: of a response, secret or not, only the number of characters ever
    reaches the text renderer. *)
Theorem typed_text_unseen fonts i wallpaper w ws arrivals os os' :
  Forall typed_op os → Forall typed_op os' → erase_op <$> os = erase_op <$> os' →
  observe fonts (launched fonts i wallpaper w ws arrivals) os
  = observe fonts (launched fonts i wallpaper w ws arrivals) os'.
Proof.
  intros Ht Ht' E. pose proof (launched_wf fonts i wallpaper w ws arrivals) as Hw.
  apply (observe_peer fonts i (w :: ws)); try done.
  - apply launched_clean.
  - apply launched_clean.
  - destruct (launched fonts i wallpaper w ws arrivals); by constructor.
Qed.

Lemma typed_text_unseen_witness :
  let types v := [OConfirm; OLatest; OInput (SessionLock.Text (str v)); OInput SessionLock.Submit; OLatest; OTake] in
  observe empty_typeface (launched empty_typeface ada no_wallpaper accepting [] []) (types "secret"%string)
  = observe empty_typeface (launched empty_typeface ada no_wallpaper accepting [] []) (types "hunter"%string).
Proof.
  intros types. apply typed_text_unseen; [repeat constructor|repeat constructor|reflexivity].
Defined.
