(* ===== verification/LockerEndToEnd.v ===== *)
(** * From PAM to the unlock

    The lock runtime of [LockRuntime], driving the presentation of [Locker],
    whose workers are those of [LockWorker]: the session is unlocked only after
    PAM accepted the user that the locker belongs to. *)

From S2P Require Import Prelude Utf8 LockerDraw Locker LockerDrawProofs LockerProofs.
From S2P Require Conversation LockProtocol LockWorker SessionLock WallpaperState LockRuntime LockExit.

(** ** The presentation's invariant under the runtime *)

Lemma session_preserved fonts i ws :
  LockExit.preserved (Presentation0 := locker_presentation fonts) (from_option (session_wf i ws) True).
Proof.
  split; intros *; intros H.
  - exact (session_op_wf i ws fonts p OLatest H).
  - exact (session_op_wf i ws fonts p ODeferred H).
  - exact (session_op_wf i ws fonts p OConfirm H).
  - exact (session_op_wf i ws fonts p (OInput i0) H).
  - exact (session_op_wf i ws fonts p OTake H).
Qed.

(** Who unlocks was authorized, and its last state is still there to tell. *)
Lemma granted_proven fonts i ws q : LockExit.granted_last (Presentation0 := locker_presentation fonts)
    (from_option (session_wf i ws) True) q → ∃ l, q = Some l ∧ session_wf i ws l ∧ proven i ws (outside l).
Proof.
  intros ([l|] & H & Hg & <-); [|done]. exists (set_authorized false l). split; [done|].
  split; [by apply take_authorization_wf|]. by destruct (sw_authorized _ _ _ H Hg).
Qed.

(** ** Workers that run the worker's program *)

Section Workers.
Context (getpwnam : list byte → Z → Z * option Z) (getpwuid : Z → Z → Z * option (list byte)).

(** The life of one worker process: what PAM does in each attempt, whether the
    process was set up as it must be, the user id it was started with, what it
    receives and which of its writes work, and how long the locker listens. *)
Record Life := mkLife {
  attempts : nat → LockWorker.PamAttempt;
  prepared : bool;
  user : Z;
  inbox : list (option LockProtocol.Message);
  writes : list bool;
  accepted : list bool;
}.
Definition life_start (f : Life) : LockWorker.Connection := LockWorker.mkConnection (inbox f) (writes f) [].
Definition life_end (f : Life) : LockWorker.Connection * bool :=
  LockWorker.run getpwnam getpwuid (attempts f) (prepared f) (user f) (life_start f).

(** What the locker reads from a worker is what the worker's program sent in
    its life: its greeting, and then the events that its reader makes of the
    rest. *)
Definition runs_worker (w : WorkerWorld) (f : Life) : Prop :=
  greeting w = Some <$> take 1 (LockWorker.sent_messages (LockWorker.trace (fst (life_end f))))
  ∧ omap id (polls w) `prefix_of` LockWorker.heard (life_end f) (accepted f).

(** The locker started worker number [k] and heard it report success, and in
    its life, whose user id is the locker's own, PAM accepted attempt [n]. *)
Definition proved_by_pam (i : Identity) (ws : list WorkerWorld) (lives : list Life) (l : LockerPresentation) : Prop :=
  Hears LockWorker.EventSuccess ∈ log (outside l)
  ∧ ∃ k w f n, was_started ws (workers (outside l)) k w ∧ lives !! k = Some f
      ∧ Some LockWorker.EventSuccess ∈ polls w ∧ user f = uid i
      ∧ LockWorker.accepted_attempt getpwnam getpwuid (attempts f) (uid i) (life_start f) n (fst (life_end f)).

(** A worker that greets is the user's. *)
Lemma worker_user i w f : runs_worker w f → greets i w → user f = uid i.
Proof using.
  intros [Eg _] Hg. unfold greets in Hg. rewrite Eg in Hg. unfold life_end in Hg.
  pose proof (LockWorker.run_trace getpwnam getpwuid (attempts f) (user f) (prepared f) (life_start f) eq_refl) as Ht.
  destruct (LockWorker.run _ _ _ _ _ _) as [c ok]. cbn [fst snd] in *.
  inversion Ht as [E|name reply Hu Hne E|name es ok' Hu Ha E]; rewrite <- E in Hg; cbn in Hg; congruence.
Qed.

Lemma proven_accepted i ws lives l : Forall2 runs_worker ws lives → proven i ws (outside l) →
  proved_by_pam i ws lives l.
Proof using.
  intros Hws [Hh (k & w & [Hk Hl] & Hg & Hin)]. split; [done|].
  destruct (Forall2_lookup_l _ _ _ _ _ Hws Hk) as (f & Hf & Hr).
  pose proof (worker_user _ _ _ Hr Hg) as Hu.
  destruct (LockWorker.unlock_needs_pam getpwnam getpwuid (attempts f) (user f) (prepared f) (inbox f) (writes f)
    (life_end f) (accepted f) eq_refl) as [n Hn].
  - destruct (proj2 Hr) as [rest Ek]. rewrite Ek. apply elem_of_app. left.
    apply list_elem_of_omap. by exists (Some LockWorker.EventSuccess).
  - rewrite <- Hu. by exists k, w, f, n.
Qed.

End Workers.

(** ** A run that unlocks *)

(** The lock is confirmed, and in the same turn the authorization is there. *)
Definition unlocking_turn : LockRuntime.IterEnv :=
  LockRuntime.mkIterEnv [(LockRuntime.EvLocked, 1)] true [] 0 (LockRuntime.mkApplyEnv (λ _, true) true)
    (λ _, LockRuntime.mkRenderEnv true None true) (λ _, LockRuntime.mkRenderEnv true None true).

Section Turn.
Context {P : Type} `{!SessionLock.Presentation P}.
Implicit Types rt : LockRuntime.Runtime P.

Lemma confirm_core rt p b :
  LockExit.core rt = (SessionLock.Requesting, [3], true, None, b, [], p) → b = false →
  LockExit.core (LockRuntime.dispatch unlocking_turn rt)
  = (SessionLock.Locked, [], true, None, false, [LockRuntime.EReady 3], SessionLock.lock_confirmed p).
Proof.
  intros E ->. destruct rt as [surfaces [l f] pr geo n req a b c rdy sl fl tm tr]. cbn in E.
  injection E as -> -> -> -> -> E ->. unfold LockRuntime.dispatch.
  cbn [unlocking_turn LockRuntime.events foldl LockRuntime.handle_event].
  unfold LockRuntime.on_locked, LockRuntime.lock_confirmation_action. cbn.
  rewrite (bool_decide_eq_true_2 (SessionLock.Requesting = SessionLock.Requesting)) by done. cbn.
  unfold LockExit.core, LockExit.reports in *. cbn in *. rewrite List.filter_app, E. done.
Qed.

Lemma authorize_core rt p p' :
  LockExit.core rt = (SessionLock.Locked, [], true, None, false, [LockRuntime.EReady 3], p) →
  SessionLock.take_authorization p = (p', true) →
  LockRuntime.terminate (LockRuntime.authorize unlocking_turn rt) = true
  ∧ LockRuntime.failure (LockRuntime.authorize unlocking_turn rt) = None
  ∧ LockRuntime.EUnlock ∈ LockRuntime.trace (LockRuntime.authorize unlocking_turn rt).
Proof.
  intros E Hg. destruct rt as [surfaces [l f] pr geo n req a b c rdy sl fl tm tr]. cbn in E.
  injection E as -> -> -> -> -> E ->. unfold LockRuntime.authorize. cbn [LockRuntime.presentation].
  rewrite Hg. cbn. split; [done|]. split; [done|]. apply elem_of_app. right. by left.
Qed.

Lemma unlocking_run (p p1 p2 p3 : P) r :
  SessionLock.lock_confirmed p = p1 → SessionLock.receive_latest p1 = (p2, r) →
  SessionLock.take_authorization p2 = (p3, true) →
  ∃ rt, LockRuntime.locker_run [3] None p [(1, None, 10)] 0 [unlocking_turn] = Ok rt
    ∧ LockRuntime.terminate rt = true ∧ LockRuntime.failure rt = None ∧ LockRuntime.EUnlock ∈ LockRuntime.trace rt.
Proof.
  intros E1 E2 E3. unfold LockRuntime.locker_run.
  pose proof (LockExit.core_add_surfaces [(1, None, 10)] 0 (LockRuntime.initial [3] None p)) as E0.
  assert (snd (LockRuntime.add_surfaces [(1, None, 10)] 0 (LockRuntime.initial [3] None p)) = Ok tt) as Eok by done.
  destruct (LockRuntime.add_surfaces _ _ _) as [rt0 [u|e]]; [|done]. cbn [fst snd] in *. eexists. split; [done|].
  cbn [LockRuntime.run]. assert (LockRuntime.terminate rt0 = false) as -> by (by injection E0).
  unfold LockRuntime.iterate. pose proof (confirm_core rt0 p false E0 eq_refl) as Ec. rewrite E1 in Ec.
  generalize dependent (LockRuntime.dispatch unlocking_turn rt0). clear E0. intros rt1 Ec.
  change (LockRuntime.dispatch_ok unlocking_turn) with true. cbn [negb].
  assert (LockRuntime.terminate rt1 = false) as Et by (by injection Ec). rewrite Et.
  unfold LockRuntime.reconcile_outputs. rewrite Et.
  change (LockRuntime.outputs unlocking_turn) with (@nil (Z * option rstring * Z)). cbn [LockRuntime.add_surfaces].
  rewrite <- (LockExit.core_expire (LockRuntime.now unlocking_turn)) in Ec.
  generalize dependent (LockRuntime.expire_authentication_retirement (LockRuntime.now unlocking_turn) rt1).
  clear Et. intros rt2 Ec. unfold LockRuntime.refresh_priority.
  assert (LockRuntime.presentation rt2 = p1) as -> by (by injection Ec). rewrite E2.
  match goal with |- context [LockRuntime.authorize unlocking_turn ?t] => destruct (authorize_core t p2 p3) as (Ht & Hf & Hu) end.
  - destruct rt2. cbn in *. injection Ec as E4 E5 E6 E7 E8 E9 E10. unfold LockExit.core, LockRuntime.record_presentation_failure.
    cbn. by case_bool_decide; cbn; rewrite ?E4, ?E5, ?E6, ?E7, ?E8; unfold LockExit.reports in *; cbn in *; rewrite E9.
  - done.
  - by rewrite Ht.
Qed.

End Turn.

(** ** Property *)

(** C1.  From PAM to the unlock.  However the compositor, the user, the
    wallpaper and the workers interleave, if the locker ever asks the compositor
    to unlock the session, then it ends in a state in which one of the workers
    it has started until then, and heard report success, proved the user: that
    worker ran for the user id of the locker's own identity, and in one of its
    attempts, after the very conversation it held up to there, the PAM stack
    returned success, the user PAM authenticated has that user id, PAM ended
    without an error, nobody had cancelled the attempt, and the report was the
    last thing it did.  The workers' PAM stacks, sockets and set-up are
    arbitrary, a life of the worker's program for each worker. *)
Theorem unlock_proves_identity getpwnam getpwuid fonts i wallpaper w ws lives arrivals fds requested outs now envs rt :
  Forall2 (runs_worker getpwnam getpwuid) (w :: ws) lives →
  LockRuntime.locker_run (Presentation0 := locker_presentation fonts) fds requested
    (launched fonts i wallpaper w ws arrivals) outs now envs = Ok rt →
  LockRuntime.EUnlock ∈ LockRuntime.trace rt →
  ∃ l, LockRuntime.presentation rt = Some l ∧ proved_by_pam getpwnam getpwuid i (w :: ws) lives l.
Proof.
  intros Hws Hrun Hin.
  destruct (granted_proven fonts i (w :: ws) _ (LockExit.unlock_granted _ (session_preserved fonts i (w :: ws))
    fds requested _ outs now envs rt (launched_wf fonts i wallpaper w ws arrivals) Hrun Hin)) as (l & E & _ & Hp).
  exists l. split; [exact E|]. by apply proven_accepted.
Qed.

(** The worker of the example, asked once and answered well. *)
Definition example_life : Life :=
  mkLife (λ _, LockWorker.example_attempt) true 1000
    [Some LockProtocol.Begin; Some (LockProtocol.Response 1 (bytes_of "sesame"))] [] [].
Definition example_world : WorkerWorld :=
  mkWorld (Ok []) true Started true [Some (LockProtocol.Ready 1000 (str "ada"))] true true []
    [Some (LockWorker.EventPrompt 1 true (str "Password: ")); Some LockWorker.EventSuccess].

Lemma example_world_runs : runs_worker LockWorker.example_getpwnam LockWorker.example_getpwuid example_world example_life.
Proof. split; [by vm_compute|]. exists []. by vm_compute. Qed.

#[local] Opaque blank.

Lemma drawn_again l : background l = WallpaperState.rgba_frame (wallpaper l) →
  ∃ l', rebuild_overlay empty_typeface l = Some l' ∧ session l' = session l
    ∧ background l' = WallpaperState.rgba_frame (wallpaper l').
Proof.
  intros Hb. pose proof (rebuild_overlay_shows empty_typeface l Hb) as H.
  destruct (rebuild_overlay empty_typeface l) as [l'|]; [|by destruct (H empty_near)].
  destruct H as ((px & _ & _ & _ & Hb' & _) & Hs & _). by exists l'.
Qed.

Lemma example_unlocks :
  ∃ rt, LockRuntime.locker_run (Presentation0 := locker_presentation empty_typeface) [3] None
    (launched empty_typeface ada no_wallpaper example_world [] []) [(1, None, 10)] 0 [unlocking_turn] = Ok rt
    ∧ LockRuntime.terminate rt = true ∧ LockRuntime.failure rt = None ∧ LockRuntime.EUnlock ∈ LockRuntime.trace rt.
Proof.
  erewrite (launched_undrawn _ ada _ example_world) by reflexivity.
  match goal with |- context [undrawn ?a ?b ?c ?d] => destruct (drawn_again (undrawn a b c d) eq_refl) as (l0 & -> & E0 & B0) end.
  destruct l0 as [w0 i0 c0 a0 id0 cf0 au0 bg0 ov0 f0 n0 [ws0 ar0 lg0]]. unfold session, undrawn in E0.
  cbn in E0, B0. injection E0 as -> -> -> -> -> -> -> ->.
  match goal with |- context [LockRuntime.locker_run _ _ (Some ?l)] => set (l0 := l) end.
  assert (∃ l c acts, lock_confirmed empty_typeface l0 = rebuild_overlay empty_typeface l
    ∧ background l = WallpaperState.rgba_frame (wallpaper l)
    ∧ session l = (ada, Conversation.new, Some (1, c), None, true, false, [], acts)
    ∧ events c = Some (polls example_world)) as (l0' & c & acts & E1 & B1 & S1 & Ec).
  { do 3 eexists. split; [unfold lock_confirmed, l0; cbn -[rebuild_overlay]; reflexivity|].
    split; [exact B0|]. split; reflexivity. }
  clearbody l0. destruct (drawn_again l0' B1) as (l1 & E1' & S1' & B1'). rewrite S1 in S1'. rewrite E1' in E1.
  assert (∃ l, receive_auth l1 = (l, true) ∧ background l = WallpaperState.rgba_frame (wallpaper l)
    ∧ authorized l = true) as (l1' & E2 & B2 & A2).
  { destruct l1 as [w1 i1 c1 a1 id1 cf1 au1 bg1 ov1 f1 n1 [ws1 ar1 lg1]]. unfold session in S1'. cbn in S1', B1'.
    injection S1' as -> -> -> -> -> -> -> ->. destruct c as [wr ev rd]. cbn in Ec. subst ev.
    eexists. split; [vm_compute; reflexivity|]. by split. }
  destruct (drawn_again l1' B2) as (l2 & E2' & S2 & _). injection S2 as _ _ _ _ _ S2 _ _. rewrite A2 in S2.
  apply (unlocking_run (H := locker_presentation empty_typeface) (Some l0) (Some l1) (Some l2)
    (Some (set_authorized false l2)) SessionLock.ROverlay).
  - exact E1.
  - cbn [SessionLock.receive_latest locker_presentation]. unfold receive_latest. by rewrite E2, E2'.
  - cbn [SessionLock.take_authorization locker_presentation]. unfold take_authorization. by rewrite S2.
Qed.

Lemma unlock_proves_identity_witness :
  ∃ rt l, LockRuntime.locker_run (Presentation0 := locker_presentation empty_typeface) [3] None
    (launched empty_typeface ada no_wallpaper example_world [] []) [(1, None, 10)] 0 [unlocking_turn] = Ok rt
    ∧ LockRuntime.presentation rt = Some l
    ∧ proved_by_pam LockWorker.example_getpwnam LockWorker.example_getpwuid ada [example_world] [example_life] l.
Proof.
  destruct example_unlocks as (rt & E & _ & _ & H).
  assert (Forall2 (runs_worker LockWorker.example_getpwnam LockWorker.example_getpwuid) [example_world] [example_life])
    as Hws by (repeat constructor; apply example_world_runs).
  destruct (unlock_proves_identity LockWorker.example_getpwnam LockWorker.example_getpwuid empty_typeface ada
    no_wallpaper example_world [] [example_life] [] _ _ _ _ _ rt Hws E H)
    as (l & El & Hl).
  exists rt, l. split; [exact E|]. split; [exact El|exact Hl].
Defined.
