(* ===== verification/Launcher.v ===== *)
(** * Processes, descriptors and identities of the locker
    ([src/locker/launcher.rs], [src/locker/identity.rs], [src/locker/auth.rs],
    [src/locker/mod.rs])

    Who the locker is for, how it starts its processes and what they inherit,
    how it adopts the readiness descriptor, and the order in which [run] puts
    the locker together.  A process's descriptors are a table; which free number
    the kernel gives to a new one is an answer of the outside, and so is what
    the spawn file actions do, with their documented laws in [spawn_laws]. *)

From S2P Require Import Prelude Utf8 Text.
From S2P Require Accounts LockProtocol LockWorker SessionLock WallpaperState LockRuntime LockerDraw Locker Coordination.

(** ** The identity *)

Definition INITIAL_BUFFER_SIZE : Z := 1024.
Definition MAX_BUFFER_SIZE : Z := 1024 * 1024.

Inductive IdentityError := NotFound | Invalid | System (code : Z).
#[export] Instance IdentityError_eq_dec : EqDecision IdentityError.
Proof. solve_decision. Defined.

(** A [passwd] entry; a null pointer is [None]. *)
Record Passwd := mkPasswd { pw_name : option (list byte); pw_gecos : option (list byte) }.

Definition copy_string (value : option (list byte)) : result IdentityError rstring :=
  bytes ← ok_or Invalid value;
  ok_or Invalid (decode (LockWorker.c_string bytes)).

Definition COMMA : char := 44.
(** [str::split], its first piece. *)
Fixpoint before (c : char) (s : rstring) : rstring :=
  match s with [] => [] | x :: s => if x =? c then [] else x :: before c s end.

Section Resolve.
Context (is_format_control : char → bool).
(** [getpwuid_r] for a buffer of a size. *)
Context (getpwuid_r : Z → Z * option Passwd).

Definition identity_of (uid : Z) (entry : Passwd) : result IdentityError Locker.Identity :=
  username ← copy_string (pw_name entry);
  _ ← ensure (Accounts.valid_username is_format_control username) Invalid;
  let gecos := match copy_string (pw_gecos entry) with Ok s => s | Err _ => [] end in
  let display_name :=
    default username (Accounts.presentation_label is_format_control (before COMMA gecos)) in
  Ok (Locker.mkIdentity uid username display_name).

Fixpoint resolve_loop (fuel : nat) (uid size : Z) : option (result IdentityError Locker.Identity) :=
  match fuel with
  | O => None
  | S fuel =>
    let '(status, entry) := getpwuid_r size in
    if (status =? LockWorker.ERANGE) && (size <? MAX_BUFFER_SIZE)
    then resolve_loop fuel uid (Z.min (size * 2) MAX_BUFFER_SIZE)
    else Some (if negb (status =? 0) then Err (System status)
               else entry ← ok_or NotFound entry; identity_of uid entry)
  end.
(** The buffer doubles ten times from its first to its last size. *)
Definition RESOLVE_FUEL : nat := 11.
Definition resolve (uid : Z) : option (result IdentityError Locker.Identity) :=
  resolve_loop RESOLVE_FUEL uid INITIAL_BUFFER_SIZE.
End Resolve.

(** ** Descriptors *)

Inductive Access := ReadOnly | WriteOnly | ReadWrite | PathOnly.
#[export] Instance Access_eq_dec : EqDecision Access.
Proof. solve_decision. Defined.

(** What an open descriptor refers to: a name for the open file. *)
Record Descriptor := mkDescriptor { file : Z; access : Access; cloexec : bool }.
#[export] Instance Descriptor_eq_dec : EqDecision Descriptor.
Proof. solve_decision. Defined.
Abbreviation Table := (gmap Z Descriptor).

Definition inherit (d : Descriptor) : Descriptor := mkDescriptor (file d) (access d) false.
Definition keep (d : Descriptor) : Descriptor := mkDescriptor (file d) (access d) true.

(** [F_DUPFD_CLOEXEC]; [fresh] is the number that the kernel picks. *)
Definition dup_cloexec (fd fresh : Z) (t : Table) : option Table :=
  d ← t !! fd; Some (<[fresh := keep d]> t).
Definition close (fd : Z) (t : Table) : Table := delete fd t.

Inductive FdError := FdIo | FdInvalidInput.

Definition writable (a : Access) : bool :=
  match a with WriteOnly | ReadWrite => true | ReadOnly | PathOnly => false end.

(** [adopt_ready_fd]; [closes] whether closing the inherited number reports
    success.  The table, and the new descriptor. *)
Definition adopt_ready_fd (fd duplicate : Z) (closes : bool) (t : Table) : Table * result FdError Z :=
  match dup_cloexec fd duplicate t with
  | None => (t, Err FdIo)
  | Some t =>
    if negb (from_option (λ d, writable (access d)) false (t !! duplicate))
    then (close duplicate (close fd t), Err FdInvalidInput)
    else
      let t := close fd t in
      if negb closes then (close duplicate t, Err FdIo) else (t, Ok duplicate)
  end.

(** ** Spawning *)

Inductive FileAction :=
| AddDup2 (source target : Z)
| AddClose (fd : Z)
| AddOpen (fd : Z) (d : Descriptor)
| AddCloseFrom (low : Z).

(** What a file action makes of the table; [None] when the spawn fails. *)
Record spawn_laws (perform : FileAction → Table → option Table) : Prop := {
  law_dup2 source target t d : t !! source = Some d → source ≠ target →
    perform (AddDup2 source target) t = Some (<[target := inherit d]> t);
  (** The same number: the flag is cleared. *)
  law_dup2_same fd t d : t !! fd = Some d → perform (AddDup2 fd fd) t = Some (<[fd := inherit d]> t);
  law_close fd t : perform (AddClose fd) t = Some (delete fd t);
  law_open fd d t : perform (AddOpen fd d) t = Some (<[fd := inherit d]> t);
  law_close_from low t : perform (AddCloseFrom low) t = Some (filter (λ e, e.1 < low) t);
}.

Section Spawn.
Context (perform : FileAction → Table → option Table).

Fixpoint perform_all (actions : list FileAction) (t : Table) : option Table :=
  match actions with
  | [] => Some t
  | a :: actions => t ← perform a t; perform_all actions t
  end.

(** The table of the child once it executes its program. *)
Definition child_table (actions : list FileAction) (t : Table) : option Table :=
  filter (λ e, cloexec e.2 = false) <$> perform_all actions t.

(** *** The foreground locker *)

Definition CHILD_READY_FD : Z := 3.
Definition CHILD_WAYLAND_FD : Z := 4.

Definition spawn_actions (reader writer : Z) (wayland : option Z) : list FileAction :=
  let reserves_wayland_fd := bool_decide (is_Some wayland) in
  let other fd := negb (fd =? CHILD_READY_FD) && (negb reserves_wayland_fd || negb (fd =? CHILD_WAYLAND_FD)) in
  [AddDup2 writer CHILD_READY_FD]
  ++ match wayland with Some wayland => [AddDup2 wayland CHILD_WAYLAND_FD] | None => [] end
  ++ (if other reader then [AddClose reader] else [])
  ++ (if other writer then [AddClose writer] else [])
  ++ [AddCloseFrom (if reserves_wayland_fd then 5 else 4)].

Inductive LaunchError :=
| LaunchSpawn
| ChildFailed (status : rstring)
| InvalidReady.
#[export] Instance LaunchError_eq_dec : EqDecision LaunchError.
Proof. solve_decision. Defined.

Definition WAYLAND_SOCKET : list byte := bytes_of "WAYLAND_SOCKET".
Definition EQUALS : byte := to_u8 61.

(** The variables without a socket of the parent, and with the child's. *)
Definition child_environment (vars : list (list byte * list byte)) (has_wayland_socket : bool) :
    result LaunchError (list (list byte)) :=
  let entries := (λ kv, kv.1 ++ EQUALS :: kv.2) <$>
    List.filter (λ kv, negb (bool_decide (kv.1 = WAYLAND_SOCKET))) vars in
  _ ← ensure (negb (existsb LockProtocol.contains_nul entries)) LaunchSpawn;
  Ok (entries ++ if has_wayland_socket then [bytes_of "WAYLAND_SOCKET=4"] else []).

(** What a launch meets: the variable, the numbers of the duplicates and of the
    pipe, the environment, and the child: whether it is spawned, what it writes
    before it closes its end, and how it exits. *)
Record LaunchWorld := mkLaunch {
  socket_variable : option rstring;
  wayland_duplicate : Z;
  pipe : option (Z * Z);
  pipe_file : Z;
  writer_duplicate : option Z;
  variables : list (list byte * list byte);
  spawns : bool;
  output : list byte;
  read_fails : bool;
  exit_status : option rstring;
}.

Definition preserve_wayland_socket (w : LaunchWorld) (t : Table) :
    Table * result LaunchError (option Z) :=
  match socket_variable w with
  | None => (t, Ok None)
  | Some value =>
    match parse_signed 32 value with
    | None => (t, Err LaunchSpawn)
    | Some raw_fd =>
      if raw_fd <? 0 then (t, Err LaunchSpawn)
      else match dup_cloexec raw_fd (wayland_duplicate w) t with
      | None => (t, Err LaunchSpawn)
      | Some t => (t, Ok (Some (wayland_duplicate w)))
      end
    end
  end.

Definition pipe_end (w : LaunchWorld) (a : Access) : Descriptor := mkDescriptor (pipe_file w) a true.

Definition ensure_not_child_ready_fd (w : LaunchWorld) (fd : Z) (t : Table) :
    Table * result LaunchError Z :=
  if negb (fd =? CHILD_READY_FD) then (t, Ok fd)
  else match writer_duplicate w with
  | None => (close fd t, Err LaunchSpawn)
  | Some fresh =>
    match dup_cloexec fd fresh t with
    | None => (close fd t, Err LaunchSpawn)
    | Some t => (close fd t, Ok fresh)
    end
  end.

Definition READY_MESSAGE : list byte := bytes_of "READY" ++ [to_u8 10].

(** What is made of the message: at most one byte more than it is long. *)
Definition read_ready (w : LaunchWorld) : result LaunchError unit :=
  let message := take (length READY_MESSAGE + 1) (output w) in
  if read_fails w then Err LaunchSpawn
  else if bool_decide (message = READY_MESSAGE) then Ok tt
  else if negb (bool_decide (message = [])) then Err InvalidReady
  else match exit_status w with
  | Some status => Err (ChildFailed status)
  | None => Err LaunchSpawn
  end.

(** The table that the child executes with, where one was spawned, and the
    result.  The descriptors are dropped when [launch] returns. *)
Definition launch (executable : list byte) (w : LaunchWorld) (t : Table) :
    option Table * result LaunchError unit :=
  match preserve_wayland_socket w t with
  | (_, Err e) => (None, Err e)
  | (t, Ok wayland) =>
    match pipe w with
    | None => (None, Err LaunchSpawn)
    | Some (reader, writer) =>
      let t := <[writer := pipe_end w WriteOnly]> (<[reader := pipe_end w ReadOnly]> t) in
      match ensure_not_child_ready_fd w writer t with
      | (_, Err e) => (None, Err e)
      | (t, Ok writer) =>
        if LockProtocol.contains_nul executable then (None, Err LaunchSpawn)
        else match child_environment (variables w) (bool_decide (is_Some wayland)) with
        | Err e => (None, Err e)
        | Ok _ =>
          if negb (spawns w) then (None, Err LaunchSpawn)
          else match child_table (spawn_actions reader writer wayland) t with
          | None => (None, Err LaunchSpawn)
          | Some child => (Some child, read_ready w)
          end
        end
      end
    end
  end.

Definition daemonize := launch.

(** *** The authentication worker *)

Definition CHILD_SOCKET_FD : Z := 3.

(** [null] is an open file of [/dev/null]. *)
Definition worker_actions (child_socket null : Z) : list FileAction :=
  [AddDup2 child_socket CHILD_SOCKET_FD]
  ++ (if negb (child_socket =? CHILD_SOCKET_FD) then [AddClose child_socket] else [])
  ++ [AddOpen 0 (mkDescriptor null ReadOnly false); AddOpen 1 (mkDescriptor null WriteOnly false);
      AddOpen 2 (mkDescriptor null WriteOnly false); AddCloseFrom 4].

Definition ETXTBSY : Z := 26.

(** The loop around [posix_spawn]: its result, and the calls made; [results]
    is what each call answers. *)
Fixpoint spawn_loop (turns : nat) (results : nat → Z) (attempts : nat) : Z * nat :=
  let result := results attempts in
  match turns with
  | O => (result, S attempts)
  | S turns =>
    if negb (result =? ETXTBSY) || Nat.eqb attempts 9 then (result, S attempts)
    else spawn_loop turns results (S attempts)
  end.

Definition spawn_worker (path : list byte) (child_socket null : Z) (results : nat → Z) (pidfd : Z)
    (t : Table) : Locker.Spawned * option Table :=
  if LockProtocol.contains_nul path then (Locker.NotSpawned, None)
  else match child_table (worker_actions child_socket null) t with
  | None => (Locker.NotSpawned, None)
  | Some child =>
    if negb ((spawn_loop 9 results 0).1 =? 0) then (Locker.NotSpawned, None)
    else if pidfd <? 0 then (Locker.NoPidfd, Some child)
    else (Locker.Started, Some child)
  end.
End Spawn.

(** ** The foreground locker, put together *)

Inductive Entry := EntryOwner | EntryJoined.
(** What [coordination::enter] has come to, in a process of [Coordination];
    nothing while it has not returned, and for an error. *)
Definition entered (c : Coordination.Control) : option Entry :=
  match c with
  | Coordination.Owning _ => Some EntryOwner
  | Coordination.Joined _ => Some EntryJoined
  | _ => None
  end.

Inductive RunError :=
| RunReadyFd
| RunCoordination
| RunIdentity (e : IdentityError)
| RunAuthentication (e : Locker.Error)
| RunRuntime (e : LockRuntime.RuntimeError).

(** What [run] meets: the configuration's descriptor and its adoption, the entry
    into the compositor's coordination, the identity, the workers and the
    wallpaper, the activation with the descriptor that it is told through, and
    what the runtime meets. *)
Record RunWorld := mkRun {
  ready_fd : option Z;
  ready_duplicate : Z;
  ready_closes : bool;
  entry : option Entry;
  ready_written : bool;
  identity : result IdentityError Locker.Identity;
  worker : Locker.WorkerWorld;
  replacements : list Locker.WorkerWorld;
  wallpaper : option WallpaperState.State;
  arrivals : list Locker.Arrival;
  activated : option Z;
  authentication_output : option rstring;
  outputs : list (Z * option rstring * Z);
  now : Z;
  turns : list LockRuntime.IterEnv;
}.

(** The locker has ended, is still running after the turns it was given, or a
    panic has ended it. *)
Inductive Outcome := Finished (r : result RunError unit) | StillRunning | Panicked.

Definition adopt (w : RunWorld) (t : Table) : result RunError (option Z) :=
  match ready_fd w with
  | None => Ok None
  | Some fd =>
    match (adopt_ready_fd fd (ready_duplicate w) (ready_closes w) t).2 with
    | Ok fd => Ok (Some fd)
    | Err _ => Err RunReadyFd
    end
  end.

(** What is written to the descriptor that was given, and the result. *)
Definition report_joined_ready (w : RunWorld) (ready : option Z) :
    list LockRuntime.Effect * result RunError unit :=
  match ready with
  | None => ([], Ok tt)
  | Some fd => if ready_written w then ([LockRuntime.EReady fd], Ok tt) else ([], Err RunReadyFd)
  end.

Section Run.
Context (fonts : LockerDraw.Typeface).

Definition run_runtime (w : RunWorld) (p : option Locker.LockerPresentation) (fds : list Z) :
    list LockRuntime.Effect * Outcome :=
  match LockRuntime.locker_run (Presentation0 := Locker.locker_presentation fonts)
          fds (authentication_output w) p (outputs w) (now w) (turns w) with
  | Err e => ([], Finished (Err (RunRuntime e)))
  | Ok rt =>
    (LockRuntime.trace rt,
     if LockRuntime.terminate rt then
       match LockRuntime.failure rt with
       | None => Finished (Ok tt)
       | Some e => Finished (Err (RunRuntime e))
       end
     else StillRunning)
  end.

(** The worker is started before anything can create a thread, and before the
    activation; the presentation only after it. *)
Definition run_owner (w : RunWorld) (ready : option Z) : list LockRuntime.Effect * Outcome :=
  match identity w with
  | Err e => ([], Finished (Err (RunIdentity e)))
  | Ok identity =>
    match Locker.start identity (worker w) with
    | (Err e, _) => ([], Finished (Err (RunAuthentication e)))
    | (Ok _, _) =>
      match activated w with
      | None => ([], Finished (Err RunCoordination))
      | Some coordination_ready =>
        match wallpaper w with
        | None => ([], Panicked)
        | Some wallpaper =>
          match Locker.launched fonts identity wallpaper (worker w) (replacements w) (arrivals w) with
          | None => ([], Panicked)
          | Some l => run_runtime w (Some l) (option_list ready ++ [coordination_ready])
          end
        end
      end
    end
  end.

Definition run (w : RunWorld) (t : Table) : list LockRuntime.Effect * Outcome :=
  match adopt w t with
  | Err e => ([], Finished (Err e))
  | Ok ready =>
    match entry w with
    | None => ([], Finished (Err RunCoordination))
    | Some EntryJoined =>
      let '(reports, r) := report_joined_ready w ready in (reports, Finished r)
    | Some EntryOwner => run_owner w ready
    end
  end.
End Run.
