(* ===== verification/LauncherProofs.v ===== *)
(** * Processes, descriptors and identities: proofs

    What a child of the locker has of its parent's descriptors, whatever the
    parent has open and whichever numbers the kernel picks; that a descriptor
    that is not adopted is not leaked; who the locker is for; and what it means
    that the locker exits well. *)

From S2P Require Import Prelude Utf8 Text Launcher.
From S2P Require Accounts LockProtocol LockWorker SessionLock WallpaperState LockRuntime LockExit.
From S2P Require LockerDraw LockerDrawProofs Locker LockerProofs LockerEndToEnd.
From S2P Require Coordination CoordinationProofs.

(** ** Tables *)

Section Children.
Context (perform : FileAction → Table → option Table) (Hlaws : spawn_laws perform).

Definition nonnegative (t : Table) : Prop := ∀ fd, is_Some (t !! fd) → 0 ≤ fd.

Lemma perform_dup2 source target t d : t !! source = Some d →
  perform (AddDup2 source target) t = Some (<[target := inherit d]> t).
Proof using Hlaws.
  intros H. destruct (decide (source = target)) as [<-|Hne];
    [by apply (law_dup2_same _ Hlaws)|by apply (law_dup2 _ Hlaws)].
Qed.

(** What a closed range and the flags leave at a number. *)
Lemma lookup_child low (t : Table) fd :
  filter (λ e, cloexec e.2 = false) (filter (λ e : Z * Descriptor, e.1 < low) t) !! fd
  = (d ← t !! fd; if bool_decide (fd < low) && bool_decide (cloexec d = false) then Some d else None).
Proof using Type.
  apply option_eq. intros d. rewrite !map_lookup_filter_Some, bind_Some. cbn. split.
  - intros [[H1 H2] H3]. exists d. split; [done|]. by rewrite !bool_decide_eq_true_2.
  - intros (d' & H & E). do 2 case_bool_decide; try done. by injection E as ->.
Qed.

Lemma perform_app a b t :
  perform_all perform (a ++ b) t = (t ← perform_all perform a t; perform_all perform b t).
Proof using Type.
  revert t. induction a as [|x a IH]; intros t; cbn [perform_all app]; [done|].
  destruct (perform x t); [apply IH|done].
Qed.

(** *** The worker *)

(** The worker's descriptors are its socket and three of [/dev/null]: nothing
    that the locker has open is inherited, the readiness descriptor and the
    Wayland connection least of all, and that also when the socket was created
    in the place of a closed standard stream. *)
Theorem worker_descriptors child_socket null t socket :
  nonnegative t → t !! child_socket = Some socket →
  child_table perform (worker_actions child_socket null) t
  = Some (<[0 := mkDescriptor null ReadOnly false]> (<[1 := mkDescriptor null WriteOnly false]>
      (<[2 := mkDescriptor null WriteOnly false]> {[3 := inherit socket]}))).
Proof using Hlaws.
  intros Hnn Hs. unfold child_table, worker_actions, CHILD_SOCKET_FD.
  assert (∃ t1, perform_all perform ([AddDup2 child_socket 3]
      ++ (if negb (child_socket =? 3) then [AddClose child_socket] else [])) t = Some t1
    ∧ t1 !! 3 = Some (inherit socket) ∧ nonnegative t1) as (t1 & E & H3 & Hnn1).
  { cbn [perform_all app]. rewrite (perform_dup2 _ _ _ _ Hs). cbn [mbind option_bind].
    assert (nonnegative (<[3 := inherit socket]> t)) as Hnn'.
    { intros fd. rewrite lookup_insert_is_Some. intros [<-|[_ H]]; [done|by apply Hnn]. }
    destruct (Z.eqb_spec child_socket 3) as [->|Hne]; cbn [negb perform_all].
    - eexists. split; [done|]. split; [by rewrite lookup_insert_eq|done].
    - rewrite (law_close _ Hlaws). cbn [mbind option_bind]. eexists. split; [done|]. split.
      + by rewrite lookup_delete_ne, lookup_insert_eq by done.
      + intros fd H. apply Hnn'. destruct H as [d H]. apply lookup_delete_Some in H as [_ H]. by eexists. }
  rewrite app_assoc.
  rewrite perform_app, E. cbn [mbind option_bind perform_all].
  do 3 (rewrite (law_open _ Hlaws); cbn [mbind option_bind]).
  rewrite (law_close_from _ Hlaws). cbn [mbind option_bind fmap option_fmap option_map].
  f_equal. apply map_eq. intros fd. rewrite lookup_child.
  destruct (decide (fd = 0)) as [->|]; [by simplify_map_eq|].
  destruct (decide (fd = 1)) as [->|]; [by simplify_map_eq|].
  destruct (decide (fd = 2)) as [->|]; [by simplify_map_eq|].
  rewrite !lookup_insert_ne by done.
  destruct (decide (fd = 3)) as [->|]; [by rewrite H3, lookup_singleton_eq|].
  rewrite lookup_singleton_ne by done. destruct (t1 !! fd) as [d|] eqn:Ed; [|done]. cbn [mbind option_bind].
  specialize (Hnn1 fd ltac:(by eexists)). by rewrite bool_decide_eq_false_2 by lia.
Qed.

(** *** The foreground locker *)

(** The kernel's numbers for new descriptors are free and as high as asked. *)
Record fresh_numbers (w : LaunchWorld) (t : Table) : Prop := {
  fresh_wayland : 64 ≤ wayland_duplicate w ∧ t !! wayland_duplicate w = None;
  fresh_pipe r wr : pipe w = Some (r, wr) → 0 ≤ r ∧ 0 ≤ wr ∧ r ≠ wr ∧ t !! r = None ∧ t !! wr = None
    ∧ r ≠ wayland_duplicate w ∧ wr ≠ wayland_duplicate w;
  fresh_writer r wr n : pipe w = Some (r, wr) → writer_duplicate w = Some n →
    4 ≤ n ∧ t !! n = None ∧ n ≠ r ∧ n ≠ wr ∧ n ≠ wayland_duplicate w;
}.

(** Closing one of the pipe's ends, unless it is in the place of a descriptor
    for the child. *)
Lemma perform_close (b : bool) fd rest t :
  perform_all perform ((if b then [AddClose fd] else []) ++ rest) t
  = perform_all perform rest (if b then delete fd t else t).
Proof using Hlaws. destruct b; [|done]. cbn [app perform_all]. by rewrite (law_close _ Hlaws). Qed.

Lemma lookup_close (b : bool) fd fd' (t : Table) :
  (if b then delete fd t else t) !! fd' = if b && bool_decide (fd' = fd) then None else t !! fd'.
Proof using Type.
  destruct b; [|done]. cbn [andb]. case_bool_decide as E; [subst; by rewrite lookup_delete_eq|].
  by rewrite lookup_delete_ne.
Qed.

(** The descriptors for the child in their places. *)
Lemma perform_dups writer wayland t dw :
  t !! writer = Some dw → (∀ wl, wayland = Some wl → 64 ≤ wl ∧ is_Some (t !! wl)) →
  ∃ t1, perform_all perform
          ([AddDup2 writer 3] ++ match wayland with Some wl => [AddDup2 wl 4] | None => [] end) t = Some t1
  ∧ ∀ fd, t1 !! fd = if fd =? 3 then Some (inherit dw)
                     else if (fd =? 4) && bool_decide (is_Some wayland) then inherit <$> (wayland ≫= (t !!.))
                     else t !! fd.
Proof using Hlaws.
  intros Hdw Hwl. cbn [app perform_all]. rewrite (perform_dup2 _ _ _ _ Hdw). cbn [mbind option_bind].
  destruct wayland as [wl|]; cbn [perform_all].
  - destruct (Hwl wl eq_refl) as [Hge [dl Hdl]].
    rewrite (perform_dup2 wl 4 _ dl) by (rewrite lookup_insert_ne by lia; done). cbn [mbind option_bind].
    eexists. split; [done|]. intros fd. rewrite bool_decide_eq_true_2, andb_true_r by done.
    destruct (Z.eqb_spec fd 3) as [->|]; [by simplify_map_eq|].
    destruct (Z.eqb_spec fd 4) as [->|]; [by rewrite Hdl; simplify_map_eq|]. by rewrite !lookup_insert_ne by done.
  - eexists. split; [done|]. intros fd. rewrite bool_decide_eq_false_2, andb_false_r by (by intros []).
    destruct (Z.eqb_spec fd 3) as [->|]; [by simplify_map_eq|]. by rewrite lookup_insert_ne.
Qed.

(** The child of the spawn, from the table of its parent at that moment. *)
Lemma spawn_child reader writer wayland t dw :
  reader ≠ writer → writer ≠ 3 → t !! writer = Some dw → nonnegative t →
  (∀ wl, wayland = Some wl → 64 ≤ wl ∧ is_Some (t !! wl)) →
  ∃ child, child_table perform (spawn_actions reader writer wayland) t = Some child
  ∧ ∀ fd, child !! fd =
      if fd <? 3 then
        if bool_decide (fd = reader) || bool_decide (fd = writer) then None
        else d ← t !! fd; if cloexec d then None else Some d
      else if fd =? 3 then Some (inherit dw)
      else if fd =? 4 then inherit <$> (wayland ≫= (t !!.))
      else None.
Proof using Hlaws.
  intros Hne Hw3 Hdw Hnn Hwl. unfold child_table, spawn_actions, CHILD_READY_FD, CHILD_WAYLAND_FD.
  set (low := if bool_decide (is_Some wayland) then 5 else 4).
  set (other := λ fd, negb (fd =? 3) && (negb (bool_decide (is_Some wayland)) || negb (fd =? 4))). cbn zeta.
  change (negb (reader =? 3) && _) with (other reader). change (negb (writer =? 3) && _) with (other writer).
  assert (∀ x, x < 3 → other x = true) as Hlow3.
  { intros x Hx. unfold other. rewrite (proj2 (Z.eqb_neq x 3)), (proj2 (Z.eqb_neq x 4)) by lia. by rewrite orb_true_r. }
  assert (∀ x, other x && bool_decide (3 = x) = false) as Hthree.
  { intros x. case_bool_decide as E; [by subst x|by rewrite andb_false_r]. }
  assert (is_Some wayland → ∀ x, other x && bool_decide (4 = x) = false) as Hfour.
  { intros Hs x. case_bool_decide as E; [subst x; unfold other; by rewrite bool_decide_eq_true_2|by rewrite andb_false_r]. }
  clearbody other.
  destruct (perform_dups writer wayland t dw Hdw) as (t1 & E1 & H1); [done|].
  rewrite app_assoc, perform_app, E1. cbn [mbind option_bind]. rewrite !perform_close. cbn [perform_all].
  rewrite (law_close_from _ Hlaws). cbn [mbind option_bind fmap option_fmap option_map].
  eexists. split; [done|]. intros fd. rewrite lookup_child, !lookup_close, H1.
  destruct (Z.ltb_spec fd 3) as [Hlt|Hge].
  - rewrite (proj2 (Z.eqb_neq fd 3)), (proj2 (Z.eqb_neq fd 4)) by lia. cbn [andb].
    assert (fd < low) as Hlow by (unfold low; destruct (bool_decide _); lia).
    destruct (bool_decide_reflect (fd = writer)) as [<-|Ew]; [by rewrite Hlow3, orb_true_r by done|].
    rewrite andb_false_r, orb_false_r.
    destruct (bool_decide_reflect (fd = reader)) as [<-|Er]; [by rewrite Hlow3 by done|]. rewrite andb_false_r.
    destruct (t !! fd) as [d|]; [|done]. cbn [mbind option_bind]. rewrite (bool_decide_eq_true_2 (fd < low)) by done.
    by destruct (cloexec d).
  - destruct (Z.eqb_spec fd 3) as [->|Hn3].
    + rewrite !Hthree. cbn [mbind option_bind]. rewrite (bool_decide_eq_true_2 (3 < low)); [done|].
      unfold low. by destruct (bool_decide _).
    + destruct (Z.eqb_spec fd 4) as [->|Hn4]; cbn [andb].
      * unfold low. destruct wayland as [wl|]; cbn [mbind option_bind fmap option_fmap option_map].
        -- rewrite bool_decide_eq_true_2, !Hfour by done.
           destruct (Hwl wl eq_refl) as [Hge' [dl Hdl]]. by rewrite Hdl.
        -- rewrite (bool_decide_eq_false_2 (is_Some None)) by (by intros []).
           destruct (_ && bool_decide (4 = writer)); [done|].
           destruct (_ && bool_decide (4 = reader)); [done|]. by destruct (t !! 4).
      * assert (∀ o : option Descriptor, (d ← o; if bool_decide (fd < low) && bool_decide (cloexec d = false) then Some d else None) = None) as Hhigh.
        { intros [d|]; [|done]. cbn [mbind option_bind]. rewrite bool_decide_eq_false_2; [done|].
          unfold low. destruct (bool_decide _); lia. }
        destruct (other writer && _); [done|]. destruct (other reader && _); [done|]. apply Hhigh.
Qed.

Lemma preserve_spec w t t1 wayland :
  t !! wayland_duplicate w = None → nonnegative t → 64 ≤ wayland_duplicate w →
  preserve_wayland_socket w t = (t1, Ok wayland) →
  nonnegative t1
  ∧ (∀ wl, wayland = Some wl → wl = wayland_duplicate w ∧ is_Some (t1 !! wl))
  ∧ (∀ fd, fd ≠ wayland_duplicate w → t1 !! fd = t !! fd)
  ∧ inherit <$> (wayland ≫= (t1 !!.))
    = (v ← socket_variable w; raw ← parse_signed 32 v; d ← t !! raw; Some (inherit d)).
Proof using Type.
  intros Hf Hnn Hge. unfold preserve_wayland_socket. destruct (socket_variable w) as [v|]; [|by intros [= <- <-]].
  cbn [mbind option_bind]. destruct (parse_signed 32 v) as [raw|]; [|done]. cbn [mbind option_bind].
  destruct (raw <? 0); [done|]. unfold dup_cloexec. destruct (t !! raw) as [d|]; [|done].
  cbn [mbind option_bind]. intros [= <- <-]. split_and!.
  - intros fd. rewrite lookup_insert_is_Some. intros [<-|[_ H]]; [lia|by apply Hnn].
  - intros wl [= <-]. by rewrite lookup_insert_eq.
  - intros fd Hne. by rewrite lookup_insert_ne.
  - cbn [mbind option_bind]. by rewrite lookup_insert_eq.
Qed.

(** The pipe's end for the child is moved away from the number that it gets
    there. *)
Lemma ensure_spec w t t' rd wr writer :
  nonnegative t → 0 ≤ rd → 0 ≤ wr → rd ≠ wr →
  (∀ n, writer_duplicate w = Some n → 4 ≤ n ∧ n ≠ rd ∧ n ≠ wr ∧ t !! n = None) →
  ensure_not_child_ready_fd w wr
    (<[wr := pipe_end w WriteOnly]> (<[rd := pipe_end w ReadOnly]> t)) = (t', Ok writer) →
  writer ≠ 3 ∧ rd ≠ writer ∧ nonnegative t'
  ∧ (∃ dw, t' !! writer = Some dw ∧ inherit dw = mkDescriptor (pipe_file w) WriteOnly false)
  ∧ (∀ fd, fd ≠ rd → fd ≠ wr → fd ≠ writer → t' !! fd = t !! fd)
  ∧ (writer = wr ∨ wr = 3 ∧ writer_duplicate w = Some writer).
Proof using Type.
  intros Hnn Hrd Hwr Hne Hdup. set (t2 := <[wr := _]> _).
  assert (nonnegative t2) as Hnn2.
  { intros fd. unfold t2. rewrite !lookup_insert_is_Some. intros [<-|[_ [<-|[_ H]]]]; [done|done|by apply Hnn]. }
  unfold ensure_not_child_ready_fd, CHILD_READY_FD. destruct (Z.eqb_spec wr 3) as [->|H3]; cbn [negb].
  - destruct (writer_duplicate w) as [n|]; [|done]. destruct (Hdup n eq_refl) as (Hn & Hn1 & Hn2 & Hfn).
    assert (t2 !! 3 = Some (pipe_end w WriteOnly)) as E3 by (unfold t2; by rewrite lookup_insert_eq).
    unfold dup_cloexec. rewrite E3. cbn [mbind option_bind]. intros [= <- <-].
    split_and!; [lia|done| | | |by right].
    + intros fd [d H]. unfold close in H. apply lookup_delete_Some in H as [_ H].
      apply lookup_insert_Some in H as [[<- _]|[_ H]]; [lia|]. by apply Hnn2; eexists.
    + exists (keep (pipe_end w WriteOnly)). split; [|done]. unfold close.
      by rewrite lookup_delete_ne, lookup_insert_eq by done.
    + intros fd Hnr Hnw Hnn'. unfold close, t2. by rewrite lookup_delete_ne, !lookup_insert_ne by done.
  - intros [= <- <-]. split_and!; try done; [| |by left].
    + exists (pipe_end w WriteOnly). unfold t2. by rewrite lookup_insert_eq.
    + intros fd Hnr Hnw _. unfold t2. by rewrite !lookup_insert_ne by done.
Qed.

(** C26.  The foreground locker's descriptors are the standard streams that its
    parent lets it inherit, the pipe's end as 3, where it reports readiness, and
    as 4 the Wayland connection if the parent was given one: all of that and
    nothing else, whatever the parent has open and whichever numbers the pipe
    and the duplicates got, 3 and 4 included. *)
Theorem locker_descriptors executable w t child r :
  nonnegative t → fresh_numbers w t → launch perform executable w t = (Some child, r) →
  ∀ fd, child !! fd =
    if fd <? 3 then d ← t !! fd; if cloexec d then None else Some d
    else if fd =? 3 then Some (mkDescriptor (pipe_file w) WriteOnly false)
    else if fd =? 4 then
      v ← socket_variable w; raw ← parse_signed 32 v; d ← t !! raw; Some (inherit d)
    else None.
Proof using Hlaws.
  intros Hnn [[Hge Hfw] Hpipe Hwr] Hl. unfold launch in Hl.
  destruct (preserve_wayland_socket w t) as [t1 [wayland|e]] eqn:Ep; [|done].
  destruct (preserve_spec w t t1 wayland Hfw Hnn Hge Ep) as (Hnn1 & Hwl1 & Hsame & Hwl).
  destruct (pipe w) as [[rd wr]|] eqn:Epipe; [|done].
  destruct (Hpipe rd wr eq_refl) as (Hrd & Hwr0 & Hne & Hfr & Hfwr & Hne1 & Hne2).
  destruct (ensure_not_child_ready_fd w wr _) as [t3 [writer|e]] eqn:Ee; [|done].
  destruct (ensure_spec w t1 t3 rd wr writer) as (H3 & Hrw & Hnn3 & (dw & Hdw & Edw) & Hsame3 & Hw3); try done.
  { intros n En. destruct (Hwr rd wr n eq_refl En) as (? & Hn & ? & ? & ?). split_and!; try done.
    by rewrite Hsame. }
  assert (∀ wl, wayland = Some wl → t3 !! wl = t1 !! wl) as Hwl3.
  { intros wl E. destruct (Hwl1 wl E) as [-> [d Hd]]. apply Hsame3; [by auto..|]. intros Ew. destruct Hw3 as [->|[_ Hn]].
    - done.
    - destruct (Hwr rd wr writer eq_refl Hn) as (? & ? & ? & ? & ?). congruence. }
  destruct (LockProtocol.contains_nul executable); [done|].
  destruct (child_environment _ _); [|done]. destruct (spawns w); [|done]. cbn [negb] in Hl.
  destruct (spawn_child rd writer wayland t3 dw Hrw H3 Hdw Hnn3) as (child' & E & Hch).
  { intros wl Ewl. rewrite (Hwl3 wl Ewl). destruct (Hwl1 wl Ewl) as [-> ?]. done. }
  rewrite E in Hl. injection Hl as <- _. intros fd. rewrite Hch, Edw.
  assert (inherit <$> (wayland ≫= (t3 !!.)) = inherit <$> (wayland ≫= (t1 !!.))) as ->.
  { destruct wayland as [wl|]; [|done]. cbn [mbind option_bind]. by rewrite Hwl3. }
  rewrite Hwl. destruct (Z.ltb_spec fd 3) as [Hlt|]; [|done].
  destruct (bool_decide_reflect (fd = rd)) as [->|Hnr]; [by rewrite Hfr|].
  destruct (bool_decide_reflect (fd = writer)) as [->|Hnw]; cbn [orb].
  - destruct Hw3 as [->|[_ Hn]]; [by rewrite Hfwr|]. by destruct (Hwr rd wr writer eq_refl Hn) as (_ & -> & _).
  - destruct (decide (fd = wr)) as [->|Hnwr].
    + destruct Hw3 as [->|[-> _]]; [done|lia].
    + rewrite Hsame3, Hsame by (done || lia). done.
Qed.

End Children.

(** The documented behaviour, as a function. *)
Definition posix_spawn_action (a : FileAction) (t : Table) : option Table :=
  match a with
  | AddDup2 source target => d ← t !! source; Some (<[target := inherit d]> t)
  | AddClose fd => Some (delete fd t)
  | AddOpen fd d => Some (<[fd := inherit d]> t)
  | AddCloseFrom low => Some (filter (λ e, e.1 < low) t)
  end.
Lemma posix_spawn_laws : spawn_laws posix_spawn_action.
Proof.
  split; try done.
  - intros source target t d H _. cbn. by rewrite H.
  - intros fd t d H. cbn. by rewrite H.
Qed.

Lemma insert_nonnegative fd d (t : Table) : 0 ≤ fd → nonnegative t → nonnegative (<[fd := d]> t).
Proof. intros Hfd Hnn fd'. rewrite lookup_insert_is_Some. intros [<-|[_ H]]; [done|by apply Hnn]. Qed.
Lemma empty_nonnegative : nonnegative ∅.
Proof. intros fd [d H]. by rewrite lookup_empty in H. Qed.

(** A locker without a standard input, whose socket takes its place. *)
Definition example_table : Table :=
  <[0 := mkDescriptor 50 ReadWrite true]> (<[1 := mkDescriptor 11 WriteOnly false]>
    (<[2 := mkDescriptor 12 WriteOnly false]> (<[5 := mkDescriptor 60 ReadWrite false]>
      (<[7 := mkDescriptor 61 ReadWrite true]> ∅)))).
Lemma example_nonnegative : nonnegative example_table.
Proof. unfold example_table. repeat (apply insert_nonnegative; [done|]). apply empty_nonnegative. Qed.

Lemma worker_descriptors_witness :
  child_table posix_spawn_action (worker_actions 0 9) example_table
  = Some (<[0 := mkDescriptor 9 ReadOnly false]> (<[1 := mkDescriptor 9 WriteOnly false]>
      (<[2 := mkDescriptor 9 WriteOnly false]> {[3 := mkDescriptor 50 ReadWrite false]}))).
Proof. exact (worker_descriptors _ posix_spawn_laws 0 9 example_table _ example_nonnegative eq_refl). Defined.

(** The pipe gets 3 and 4, in the wrong order for the child. *)
Definition example_launch : LaunchWorld :=
  mkLaunch (Some (str "5")) 64 (Some (4, 3)) 70 (Some 6) [(bytes_of "HOME", bytes_of "/root")] true
    READY_MESSAGE false None.

Lemma locker_descriptors_witness :
  match launch posix_spawn_action (bytes_of "genkan") example_launch example_table with
  | (Some child, r) => r = Ok tt ∧ child !! 3 = Some (mkDescriptor 70 WriteOnly false)
      ∧ child !! 4 = Some (mkDescriptor 60 ReadWrite false) ∧ child !! 5 = None ∧ child !! 0 = None
      ∧ child !! 1 = Some (mkDescriptor 11 WriteOnly false)
  | _ => False
  end.
Proof.
  destruct (launch posix_spawn_action (bytes_of "genkan") example_launch example_table) as [[child|] r] eqn:E;
    [|vm_compute in E; discriminate E].
  split; [by vm_compute in E; injection E as _ <-|].
  assert (fresh_numbers example_launch example_table) as Hf.
  { split; [done| |].
    - intros r0 wr [= <- <-]. by split_and!.
    - intros r0 wr n [= <- <-] [= <-]. by split_and!. }
  pose proof (locker_descriptors _ posix_spawn_laws _ _ _ _ _ example_nonnegative Hf E) as H.
  split_and!; [rewrite (H 3)|rewrite (H 4)|rewrite (H 5)|rewrite (H 0)|rewrite (H 1)]; by vm_compute.
Defined.

(** ** Readiness *)

(** [launch] succeeds only for a child that wrote the message and nothing
    else; silence means that the child has failed, and anything else is
    refused. *)
Theorem launch_result perform executable w t child r :
  launch perform executable w t = (Some child, r) → read_fails w = false →
  r = if bool_decide (output w = READY_MESSAGE) then Ok tt
      else if bool_decide (output w = []) then
        match exit_status w with Some status => Err (ChildFailed status) | None => Err LaunchSpawn end
      else Err InvalidReady.
Proof.
  intros Hl Hr. unfold launch in Hl.
  destruct (preserve_wayland_socket w t) as [t1 [wayland|e]]; [|done].
  destruct (pipe w) as [[rd wr]|]; [|done].
  destruct (ensure_not_child_ready_fd _ _ _) as [t3 [writer|e]]; [|done].
  destruct (LockProtocol.contains_nul executable); [done|].
  destruct (child_environment _ _); [|done]. destruct (negb (spawns w)); [done|].
  destruct (child_table _ _ _); [|done]. injection Hl as _ <-. unfold read_ready. rewrite Hr.
  assert (bool_decide (take (length READY_MESSAGE + 1) (output w) = READY_MESSAGE)
    = bool_decide (output w = READY_MESSAGE)) as ->.
  { apply bool_decide_ext. split; [|by intros ->]. intros E. pose proof (f_equal length E) as El.
    rewrite length_take in El. change (length READY_MESSAGE) with 6%nat in *.
    rewrite take_ge in E by lia. done. }
  case_bool_decide; [done|].
  assert (bool_decide (take (length READY_MESSAGE + 1) (output w) = []) = bool_decide (output w = [])) as ->.
  { apply bool_decide_ext. by destruct (output w). }
  by case_bool_decide.
Qed.

Lemma launch_result_witness :
  snd (launch posix_spawn_action (bytes_of "genkan")
    (mkLaunch None 64 (Some (3, 4)) 70 None [] true (READY_MESSAGE ++ [to_u8 33]) false None) ∅) = Err InvalidReady.
Proof.
  destruct (launch posix_spawn_action (bytes_of "genkan")
    (mkLaunch None 64 (Some (3, 4)) 70 None [] true (READY_MESSAGE ++ [to_u8 33]) false None) ∅) as [[child|] r] eqn:E;
    [|vm_compute in E; discriminate E].
  exact (launch_result _ _ _ _ _ _ E eq_refl).
Defined.

(** The readiness descriptor is adopted or closed: on success the locker has
    one copy of it, writable, above the standard streams and not inherited by
    anything it starts; on an error it has none. *)
Theorem adopted_or_closed fd duplicate closes t :
  t !! duplicate = None → is_Some (t !! fd) →
  match adopt_ready_fd fd duplicate closes t with
  | (t', Ok d) => d = duplicate ∧ ∃ e, t !! fd = Some e ∧ writable (access e) = true
                  ∧ t' = <[duplicate := keep e]> (delete fd t)
  | (t', Err _) => t' = delete fd t
  end.
Proof.
  intros Hf [e He]. assert (fd ≠ duplicate) as Hne by (intros ->; congruence).
  unfold adopt_ready_fd, dup_cloexec. rewrite He. cbn [mbind option_bind].
  rewrite lookup_insert_eq. cbn [from_option keep access].
  assert (close duplicate (close fd (<[duplicate := keep e]> t)) = delete fd t) as Hcl.
  { unfold close. rewrite delete_insert_ne by done. rewrite delete_insert_id; [done|].
    by rewrite lookup_delete_ne. }
  destruct (writable (access e)) eqn:Ew; cbn [negb]; [|done].
  destruct closes; cbn [negb]; [|done]. split; [done|]. exists e. split_and!; [done..|].
  unfold close. by rewrite delete_insert_ne.
Qed.

Lemma adopted_or_closed_witness :
  adopt_ready_fd 5 9 true example_table = (<[9 := mkDescriptor 60 ReadWrite true]> (delete 5 example_table), Ok 9).
Proof.
  pose proof (adopted_or_closed 5 9 true example_table eq_refl ltac:(by eexists)) as H.
  destruct (adopt_ready_fd 5 9 true example_table) as [t' [d|e]] eqn:E; [|vm_compute in E; discriminate E].
  destruct H as (-> & e & He & _ & ->). vm_compute in He. by injection He as <-.
Defined.

(** ** The identity *)

Lemma resolve_loop_Some is_format_control getpwuid_r uid fuel size :
  0 < size ≤ MAX_BUFFER_SIZE → MAX_BUFFER_SIZE ≤ size * 2 ^ Z.of_nat fuel →
  ∃ s r, resolve_loop is_format_control getpwuid_r (S fuel) uid size = Some r
    ∧ r = (let '(status, entry) := getpwuid_r s in
           if negb (status =? 0) then Err (System status)
           else entry ← ok_or NotFound entry; identity_of is_format_control uid entry).
Proof.
  revert size. induction fuel as [|fuel IH]; intros size Hs Hf.
  - cbn [resolve_loop]. exists size. destruct (getpwuid_r size) as [status entry].
    rewrite (proj2 (Z.ltb_ge _ _)), andb_false_r by lia. by eexists.
  - change (∃ s r, (let '(status, entry) := getpwuid_r size in
      if (status =? LockWorker.ERANGE) && (size <? MAX_BUFFER_SIZE)
      then resolve_loop is_format_control getpwuid_r (S fuel) uid (Z.min (size * 2) MAX_BUFFER_SIZE)
      else Some (if negb (status =? 0) then Err (System status)
                 else entry ← ok_or NotFound entry; identity_of is_format_control uid entry)) = Some r
      ∧ r = (let '(status, entry) := getpwuid_r s in
           if negb (status =? 0) then Err (System status)
           else entry ← ok_or NotFound entry; identity_of is_format_control uid entry)).
    destruct (getpwuid_r size) as [status entry] eqn:E. destruct (_ && _).
    + apply IH; [lia|]. rewrite Nat2Z.inj_succ, Z.pow_succ_r in Hf by lia.
      destruct (Z.min_spec (size * 2) MAX_BUFFER_SIZE) as [[_ ->]|[_ ->]]; [lia|].
      pose proof (Z.pow_pos_nonneg 2 (Z.of_nat fuel) ltac:(lia) ltac:(lia)). nia.
    + exists size. rewrite E. by eexists.
Qed.

(** Who the locker is for.  The lookup ends, whatever the name service answers
    for each size of the buffer, and an identity that it gives has the user id
    that was asked for, a user name that can be a login name, and a name to show
    that has no control or format characters and at most eighty characters, or
    is the user name. *)
Theorem resolved_identity is_format_control getpwuid_r uid :
  ∃ r, resolve is_format_control getpwuid_r uid = Some r
  ∧ ∀ i, r = Ok i →
      Locker.uid i = uid ∧ Accounts.valid_username is_format_control (Locker.username i) = true
      ∧ (Locker.display_name i = Locker.username i
         ∨ Accounts.plain is_format_control (Locker.display_name i)
           ∧ (0 < length (Locker.display_name i) ≤ Accounts.MAX_LABEL_CHARS)%nat).
Proof.
  destruct (resolve_loop_Some is_format_control getpwuid_r uid 10 INITIAL_BUFFER_SIZE) as (s & r & E & Er);
    [by vm_compute|by vm_compute|].
  exists r. split; [exact E|]. intros i ->. destruct (getpwuid_r s) as [status entry].
  destruct (negb _); [done|]. symmetry in Er. apply bind_Ok in Er as (en & _ & Er).
  unfold identity_of in Er. apply bind_Ok in Er as (name & _ & Er). apply bind_Ok in Er as (u & Hv & Er).
  apply ensure_Ok in Hv. injection Er as <-. cbn. split; [done|]. split; [done|].
  destruct (Accounts.presentation_label _ _) as [label|] eqn:El; [right|by left].
  by apply Accounts.presentation_label_plain in El.
Qed.

(** ** What it means that the locker exits well *)

Lemma run_runtime_ok getpwnam getpwuid fonts i w lives l fds reports :
  Forall2 (LockerEndToEnd.runs_worker getpwnam getpwuid) (worker w :: replacements w) lives →
  LockerProofs.session_wf i (worker w :: replacements w) l →
  run_runtime fonts w (Some l) fds = (reports, Finished (Ok tt)) →
  List.filter LockExit.reported reports = (LockRuntime.EReady <$> fds) ++ [LockRuntime.EUnlock]
  ∧ ∃ rt l', LockRuntime.locker_run (Presentation0 := Locker.locker_presentation fonts)
        fds (authentication_output w) (Some l) (outputs w) (now w) (turns w) = Ok rt
      ∧ reports = LockRuntime.trace rt ∧ LockRuntime.presentation rt = Some l'
      ∧ LockerEndToEnd.proved_by_pam getpwnam getpwuid i (worker w :: replacements w) lives l'.
Proof.
  intros Hws Hwf. unfold run_runtime. destruct (LockRuntime.locker_run _ _ _ _ _ _) as [rt|e] eqn:E; [|done].
  destruct (LockRuntime.terminate rt) eqn:Et; [|done]. destruct (LockRuntime.failure rt) eqn:Ef; [done|].
  intros [= <-].
  pose proof (LockerEndToEnd.session_preserved fonts i (worker w :: replacements w)) as Hpres.
  pose proof (LockExit.exit_locker_run _ Hpres fds _ (Some l) _ _ _ rt Hwf E) as H.
  destruct (proj2 (LockExit.exit_reports _ fds rt H) Et Ef) as [Hr _]. split; [exact Hr|].
  assert (LockRuntime.EUnlock ∈ LockRuntime.trace rt) as Hin.
  { assert (LockRuntime.EUnlock ∈ LockExit.reports rt) as Hin by (rewrite Hr; apply elem_of_app; right; by left).
    unfold LockExit.reports in Hin. by apply list_elem_of_In, List.filter_In in Hin as [?%list_elem_of_In _]. }
  destruct (LockerEndToEnd.granted_proven fonts i (worker w :: replacements w) _
    (LockExit.unlock_granted _ Hpres fds _ (Some l) _ _ _ rt Hwf E Hin)) as (l' & El & _ & Hp).
  exists rt, l'. split_and!; [done..|]. by apply LockerEndToEnd.proven_accepted.
Qed.

(** C3.  The locker exits without an error, which its callers take for a session
    that is or was locked, in two cases only.  It joined: then in the
    interleaving of the processes that enter the coordination of this
    compositor, another process, the very owner whose socket it waited at, had
    before written the whole of [READY] to its own coordinator, and readiness
    was passed on and nothing else done.  Or it was the owner and held the
    lease: then it reported readiness on every descriptor and asked for the
    unlock, in this order and nothing else, and a worker that it started, in
    the life of that worker, had PAM accept the identity of the process's real
    user ([unlock_proves_identity] says what that means). *)
Theorem successful_exit getpwnam getpwuid fonts me es f cw q w t lives reports :
  (∀ o, f ≠ Some (Coordination.Bound o)) →
  Coordination.run me es (Coordination.initial f) = Some cw →
  entry w = Coordination.procs cw !! q ≫= entered →
  Forall2 (LockerEndToEnd.runs_worker getpwnam getpwuid) (worker w :: replacements w) lives →
  run fonts w t = (reports, Finished (Ok tt)) →
  ∃ ready, adopt w t = Ok ready ∧
  ((entry w = Some EntryJoined ∧ reports = LockRuntime.EReady <$> option_list ready
    ∧ ∃ p pre e post w1, p ≠ q ∧ Coordination.procs cw !! q = Some (Coordination.Joined p)
      ∧ es = pre ++ e :: post ∧ Coordination.run me pre (Coordination.initial f) = Some w1
      ∧ CoordinationProofs.announces p e w1)
   ∨ ∃ i coordination wp l rt l', entry w = Some EntryOwner ∧ Coordination.lease cw = Some q
     ∧ identity w = Ok i ∧ activated w = Some coordination ∧ wallpaper w = Some wp
     ∧ Locker.launched fonts i wp (worker w) (replacements w) (arrivals w) = Some l
     ∧ List.filter LockExit.reported reports
       = (LockRuntime.EReady <$> (option_list ready ++ [coordination])) ++ [LockRuntime.EUnlock]
     ∧ LockRuntime.locker_run (Presentation0 := Locker.locker_presentation fonts) (option_list ready ++ [coordination])
         (authentication_output w) (Some l) (outputs w) (now w) (turns w) = Ok rt
     ∧ reports = LockRuntime.trace rt ∧ LockRuntime.presentation rt = Some l'
     ∧ LockerEndToEnd.proved_by_pam getpwnam getpwuid i (worker w :: replacements w) lives l').
Proof.
  intros Hf Hcw He Hws H. unfold run in H. destruct (adopt w t) as [ready|e]; [|done].
  exists ready. split; [done|]. destruct (entry w) as [[]|] eqn:Ee; [right|left|done]; symmetry in He;
    apply bind_Some in He as (c & Hc & Ec); destruct c; try discriminate Ec.
  - unfold run_owner in H. destruct (identity w) as [i|e]; [|done].
    destruct (Locker.start i (worker w)) as [[c|e] acts] eqn:Es; [|done].
    destruct (activated w) as [coordination|]; [|done]. destruct (wallpaper w) as [wp|]; [|done].
    pose proof (LockerProofs.launched_wf fonts i wp (worker w) (replacements w) (arrivals w)) as Hwf.
    destruct (Locker.launched _ _ _ _ _ _) as [l|] eqn:El; [|done].
    destruct (run_runtime_ok getpwnam getpwuid fonts i w lives l _ reports Hws Hwf H) as (Hr & rt & l' & Hrt).
    exists i, coordination, wp, l, rt, l'. split_and!; try done; try apply Hrt.
    by eapply CoordinationProofs.owning_lease.
  - split; [done|]. destruct (CoordinationProofs.joined_announced me es f cw server q Hf Hcw Hc)
      as (Hne & pre & e & post & w1 & Hes & Hpre & Ha).
    split; [|by exists server, pre, e, post, w1]. unfold report_joined_ready in H.
    destruct ready as [fd|]; cbn; [destruct (ready_written w); [|done]|]; by injection H as <-.
Qed.

(** The process 2 that joined the lock of 1, and the process 1 that owns it. *)
Definition joined_run : RunWorld :=
  mkRun (Some 5) 9 true (Some EntryJoined) true (Err NotFound) LockerEndToEnd.example_world [] None [] None None [] 0 [].
Definition owner_run : RunWorld :=
  mkRun None 9 true (Some EntryOwner) true (Ok LockerProofs.ada) LockerEndToEnd.example_world []
    (Some LockerProofs.no_wallpaper) [] (Some 3) None [(1, None, 10)] 0 [LockerEndToEnd.unlocking_turn].
Definition owning_run : list Coordination.Event :=
  CoordinationProofs.enters 1 ++ take 4 (CoordinationProofs.activates 1).

Lemma run_owner_ok fonts w t i c acts coordination wp l rt :
  adopt w t = Ok None → entry w = Some EntryOwner → identity w = Ok i → Locker.start i (worker w) = (Ok c, acts) →
  activated w = Some coordination → wallpaper w = Some wp →
  Locker.launched fonts i wp (worker w) (replacements w) (arrivals w) = Some l →
  LockRuntime.locker_run (Presentation0 := Locker.locker_presentation fonts) [coordination]
    (authentication_output w) (Some l) (outputs w) (now w) (turns w) = Ok rt →
  LockRuntime.terminate rt = true → LockRuntime.failure rt = None →
  run fonts w t = (LockRuntime.trace rt, Finished (Ok tt)).
Proof.
  intros E1 E2 E3 E4 E5 E6 E7 E8 Ht Hf. unfold run. rewrite E1, E2. unfold run_owner. rewrite E3, E4, E5, E6, E7.
  unfold run_runtime. change (option_list None ++ [coordination]) with [coordination]. by rewrite E8, Ht, Hf.
Qed.

Lemma launched_some fonts i wp w ws arrivals c acts : LockerDrawProofs.near_typeface fonts →
  Locker.start i w = (Ok c, acts) → ∃ l, Locker.launched fonts i wp w ws arrivals = Some l.
Proof.
  intros Hn Es. destruct (LockerProofs.launched_shows fonts i wp w ws arrivals [] c acts Hn Es) as (l & E & _).
  by exists l.
Qed.

Lemma owner_exits :
  ∃ reports, run LockerProofs.empty_typeface owner_run ∅ = (reports, Finished (Ok tt)).
Proof.
  destruct LockerEndToEnd.example_unlocks as (rt & E & Ht & Hf & _). exists (LockRuntime.trace rt).
  destruct (Locker.start LockerProofs.ada LockerEndToEnd.example_world) as [[c|e] acts] eqn:Es;
    [|vm_compute in Es; discriminate Es].
  destruct (launched_some LockerProofs.empty_typeface LockerProofs.ada LockerProofs.no_wallpaper
    LockerEndToEnd.example_world [] [] c acts LockerProofs.empty_near Es) as (l & El). rewrite El in E.
  exact (run_owner_ok _ owner_run ∅ _ c acts 3 _ l rt eq_refl eq_refl eq_refl Es eq_refl eq_refl El E Ht Hf).
Qed.

Lemma successful_exit_witness :
  (∃ ready, adopt joined_run example_table = Ok ready ∧ [LockRuntime.EReady 9] = LockRuntime.EReady <$> option_list ready
     ∧ ∃ p pre e w1, Coordination.run 1000 pre (Coordination.initial None) = Some w1
       ∧ CoordinationProofs.announces p e w1)
  ∧ ∃ rt l, LockRuntime.EUnlock ∈ LockRuntime.trace rt ∧ LockRuntime.presentation rt = Some l
     ∧ LockerEndToEnd.proved_by_pam LockWorker.example_getpwnam LockWorker.example_getpwuid LockerProofs.ada
         [LockerEndToEnd.example_world] [LockerEndToEnd.example_life] l.
Proof.
  assert (Forall2 (LockerEndToEnd.runs_worker LockWorker.example_getpwnam LockWorker.example_getpwuid)
    [LockerEndToEnd.example_world] [LockerEndToEnd.example_life]) as Hws
    by (repeat constructor; apply LockerEndToEnd.example_world_runs).
  split.
  - destruct (successful_exit LockWorker.example_getpwnam LockWorker.example_getpwuid LockerProofs.empty_typeface 1000
      CoordinationProofs.joining_run None (CoordinationProofs.after CoordinationProofs.joining_run) 2%nat joined_run
      example_table [LockerEndToEnd.example_life] [LockRuntime.EReady 9]) as (ready & Ha & [H|H]).
    + done.
    + vm_compute. reflexivity.
    + vm_compute. reflexivity.
    + exact Hws.
    + reflexivity.
    + destruct H as (_ & Hr & p & pre & e & post & w1 & _ & _ & _ & Hpre & Han).
      exists ready. split; [exact Ha|]. split; [exact Hr|]. exists p, pre, e, w1. split; [exact Hpre|exact Han].
    + destruct H as (i & c & wp & l & rt & l' & He & _). discriminate He.
  - destruct owner_exits as [reports Hrun].
    destruct (successful_exit LockWorker.example_getpwnam LockWorker.example_getpwuid LockerProofs.empty_typeface 1000
      owning_run None (CoordinationProofs.after owning_run) 1%nat owner_run ∅ [LockerEndToEnd.example_life] reports)
      as (ready & Ha & [H|H]).
    + done.
    + vm_compute. reflexivity.
    + vm_compute. reflexivity.
    + exact Hws.
    + exact Hrun.
    + destruct H as [He _]. discriminate He.
    + destruct H as (i & c & wp & l & rt & l' & _ & _ & Hi & _ & _ & _ & Hrep & _ & Er & El & Hp).
      exists rt, l'. injection Hi as <-. split; [|split; [exact El|exact Hp]]. rewrite Er in Hrep.
      assert (LockRuntime.EUnlock ∈ List.filter LockExit.reported (LockRuntime.trace rt)) as Hin
        by (rewrite Hrep; apply elem_of_app; right; by left).
      by apply list_elem_of_In, List.filter_In in Hin as [?%list_elem_of_In _].
Defined.
