(* ===== verification/LockDraw.v ===== *)
(** * The pixels of the lock ([crates/session-lock/src/runtime.rs])

    What [LockRuntime] draws into a buffer: the background scaled to cover it
    and dimmed, the authentication overlay filtered to its rectangle and blended
    over it, all of it opaque; and the drawing calls that the runtime makes on
    one buffer after the other.

    A canvas is the list of its bytes, and [None] is a panic: an index out of
    range or a division by zero.  The filter's [u64] arithmetic is written on
    [Z]; [LockDrawProofs.axis_fits] and [sums_fit] show that it does not
    overflow for the frames and the buffers there can be. *)

From S2P Require Import Prelude Utf8 LockerDraw SessionLock LockRuntime.
From S2P Require DesktopSurface.

Definition FALLBACK_RGB : list Z := [5; 9; 24].
Definition DIM_NUMERATOR : Z := 4.
Definition DIM_DENOMINATOR : Z := 5.

Definition dim (value : byte) : byte := to_u8 (u8 value * DIM_NUMERATOR / DIM_DENOMINATOR).

(** A pixel without its alpha: red, green, blue. *)
Record Rgb := mkRgb { rgb_red : byte; rgb_green : byte; rgb_blue : byte }.

Definition fallback : Rgb :=
  match FALLBACK_RGB with
  | [r; g; b] => mkRgb (to_u8 r) (to_u8 g) (to_u8 b)
  | _ => mkRgb (to_u8 0) (to_u8 0) (to_u8 0)
  end.

Definition blend_rgb (background : Rgb) (foreground : Color) : Rgb :=
  let alpha := u8 (alpha foreground) in
  let channel f b := to_u8 ((u8 f * alpha + u8 b * (255 - alpha)) / 255) in
  mkRgb (channel (red foreground) (rgb_red background))
    (channel (green foreground) (rgb_green background))
    (channel (blue foreground) (rgb_blue background)).

(** ** The background *)

Definition cover_geometry (source_width source_height width height : Z) : option (Z * Z * Z * Z) :=
  if (source_width =? 0) || (source_height =? 0) || (width =? 0) || (height =? 0) then None
  else
    let source_wider := width * source_height <? source_width * height in
    let '(scaled_width, scaled_height) :=
      if source_wider then (source_width * height / source_height, height)
      else (width, source_height * width / source_width) in
    Some (saturating_sub scaled_width width / 2, saturating_sub scaled_height height / 2,
          scaled_width, scaled_height).

Definition source_coordinate (position crop scaled source : Z) : option Z :=
  if scaled =? 0 then None
  else Some (Z.min ((position + crop) * source / scaled) (source - 1)).

Record BackgroundSampler := mkSampler {
  sampled : option RgbaFrame;
  columns : list Z;
  crop_y : Z;
  scaled_height : Z;
}.
Definition plain_sampler : BackgroundSampler := mkSampler None [] 0 1.

(** [BackgroundSampler::new]. *)
Definition sampler (frame : option RgbaFrame) (width height : Z) : option BackgroundSampler :=
  match frame with
  | None => Some plain_sampler
  | Some f =>
    match cover_geometry (fwidth f) (fheight f) width height with
    | None => Some plain_sampler
    | Some (crop_x, crop_y, scaled_width, scaled_height) =>
      columns ← mapM (λ x, c ← source_coordinate x crop_x scaled_width (fwidth f); Some (c * 4))
                  (range 0 width);
      Some (mkSampler (Some f) columns crop_y scaled_height)
    end
  end.

(** The outer [option] is the panic. *)
Definition source_row (s : BackgroundSampler) (y : Z) : option (option Z) :=
  match sampled s with
  | None => Some None
  | Some f =>
    c ← source_coordinate y (crop_y s) (scaled_height s) (fheight f);
    Some (Some (c * fwidth f * 4))
  end.

Definition sample (s : BackgroundSampler) (row : option Z) (x : Z) : option Rgb :=
  match sampled s, row with
  | Some f, Some row =>
    column ← columns s !! Z.to_nat x;
    let offset := Z.to_nat (row + column) in
    r ← pixels f !! offset; g ← pixels f !! (offset + 1)%nat; b ← pixels f !! (offset + 2)%nat;
    Some (mkRgb r g b)
  | _, _ => Some fallback
  end.

(** ** The filter *)

Definition FILTER_SCALE : Z := 65536.

Record WeightedSample := mkSample { index : Z; weight : Z }.
Record FilteredAxis := mkAxis { offsets : list nat; samples : list WeightedSample }.

Definition saturating_mul_u64 (a b : Z) : Z := Z.min (2 ^ 64 - 1) (a * b).

(** The samples of one position: two neighbours when the overlay grows... *)
Definition enlarged (source target position : Z) : list WeightedSample :=
  let denominator := target * 2 in
  let centered := saturating_sub (saturating_mul_u64 (position * 2 + 1) source) target in
  let lower := Z.min (centered / denominator) (source - 1) in
  let upper := Z.min (saturating_add_u32 lower 1) (source - 1) in
  let upper_weight :=
    if lower =? upper then 0 else (centered mod denominator) * FILTER_SCALE / denominator in
  mkSample lower (FILTER_SCALE - upper_weight) ::
  if negb (upper =? lower) && negb (upper_weight =? 0) then [mkSample upper upper_weight] else [].

(** ... and all that it covers when it shrinks, by the part that is covered. *)
Definition share (start end_ index : Z) : Z :=
  let span := end_ - start in
  let sample_start := index * FILTER_SCALE in
  let overlap_start := Z.max start sample_start in
  let overlap_end := Z.min end_ (sample_start + FILTER_SCALE) in
  let normalized_start := ((overlap_start - start) * FILTER_SCALE + span / 2) / span in
  let normalized_end := ((overlap_end - start) * FILTER_SCALE + span / 2) / span in
  normalized_end - normalized_start.
Definition reduced (source target position : Z) : list WeightedSample :=
  let start := position * source * FILTER_SCALE / target in
  let end_ := (position + 1) * source * FILTER_SCALE / target in
  let first := start / FILTER_SCALE in
  let last := (end_ - 1) / FILTER_SCALE in
  range first (last + 1) ≫= λ index,
    let weight := share start end_ index in
    if negb (weight =? 0) then [mkSample index weight] else [].

Definition axis_samples (source target position : Z) : list WeightedSample :=
  if source <=? target then enlarged source target position else reduced source target position.

Definition filtered_axis (source target : Z) : FilteredAxis :=
  let '(offsets, samples) :=
    foldl (λ '(offsets, samples) position,
             (offsets ++ [length samples], samples ++ axis_samples source target position))
      ([], []) (range 0 target) in
  mkAxis (offsets ++ [length samples]) samples.

(** [&self.samples[start..end]]. *)
Definition coordinate (a : FilteredAxis) (position : nat) : option (list WeightedSample) :=
  start ← offsets a !! position;
  end_ ← offsets a !! S position;
  if decide (start ≤ end_ ∧ end_ ≤ length (samples a))%nat
  then Some (take (end_ - start) (drop start (samples a))) else None.

(** [alpha_weight] and the three [channels]. *)
Record Sums := mkSums { sum_alpha : Z; sum_red : Z; sum_green : Z; sum_blue : Z }.

Definition accumulate (f : RgbaFrame) (y x : WeightedSample) (s : Sums) : option Sums :=
  p ← pixel_at (pixels f) (Z.to_nat ((index y * fwidth f + index x) * 4));
  let weight := weight x * weight y in
  let a := u8 (alpha p) in
  Some (mkSums (sum_alpha s + a * weight) (sum_red s + u8 (red p) * a * weight)
          (sum_green s + u8 (green p) * a * weight) (sum_blue s + u8 (blue p) * a * weight)).

Definition filtered_pixel (f : RgbaFrame) (horizontal vertical : list WeightedSample) : option Color :=
  s ← for_each (λ y, for_each (accumulate f y) horizontal) vertical (mkSums 0 0 0 0);
  if sum_alpha s =? 0 then Some (color 0 0 0 0)
  else
    let total_weight := FILTER_SCALE * FILTER_SCALE in
    Some (color (sum_red s / sum_alpha s) (sum_green s / sum_alpha s)
            (sum_blue s / sum_alpha s) ((sum_alpha s + total_weight / 2) / total_weight)).

Definition bytes_of_color (c : Color) : list byte := [red c; green c; blue c; alpha c].

Definition filtered_at (f : RgbaFrame) (horizontal vertical : FilteredAxis) (x y : Z) : option Color :=
  horizontal ← coordinate horizontal (Z.to_nat x);
  vertical ← coordinate vertical (Z.to_nat y);
  filtered_pixel f horizontal vertical.

Definition scale_overlay (f : RgbaFrame) (width height : Z) : option RgbaFrame :=
  if (fwidth f =? width) && (fheight f =? height) then Some f
  else
    let horizontal := filtered_axis (fwidth f) width in
    let vertical := filtered_axis (fheight f) height in
    rows ← mapM (λ y, mapM (λ x, filtered_at f horizontal vertical x y) (range 0 width)) (range 0 height);
    rgba_new width height (concat rows ≫= bytes_of_color).

(** ** The cache of the scaled overlay *)

Record CachedOverlay := mkCached { cached_source : RgbaFrame; cached_size : Z * Z; cached : RgbaFrame }.

Section Cache.
(** Whether two frames share their pixels: the comparison of the pointers. *)
Context (shared : RgbaFrame → RgbaFrame → bool).

Definition cache_matches (c : CachedOverlay) (source : RgbaFrame) (size : Z * Z) : bool :=
  bool_decide (cached_size c = size)
  && bool_decide ((fwidth (cached_source c), fheight (cached_source c)) = (fwidth source, fheight source))
  && bool_decide (length (pixels (cached_source c)) = length (pixels source))
  && shared (cached_source c) source.

(** [scaled_overlay]: the cache of the surface, and what is drawn. *)
Definition scaled_overlay (authentication : bool) (cache : option CachedOverlay)
    (frame : option PresentationFrame) (width height : Z) :
    option (option CachedOverlay * option RgbaFrame) :=
  if negb authentication then Some (None, None)
  else match frame with
  | None => Some (cache, None)
  | Some f =>
    match overlay_geometry f width height with
    | None => Some (cache, None)
    | Some target =>
      let size := (rwidth target, rheight target) in
      cache ← (if match cache with None => true | Some c => negb (cache_matches c (overlay f) size) end
               then scaled ← scale_overlay (overlay f) (rwidth target) (rheight target);
                    Some (mkCached (overlay f) size scaled)
               else cache);
      Some (Some cache, Some (cached cache))
    end
  end.
End Cache.

(** ** Drawing *)

Definition opaque (c : Rgb) : list byte := [rgb_blue c; rgb_green c; rgb_red c; to_u8 255].
Definition dimmed (c : Rgb) : list byte :=
  [dim (rgb_blue c); dim (rgb_green c); dim (rgb_red c); to_u8 255].

(** The loops over a rectangle of the canvas: what [color] makes of a point is
    written there, and a point without color is skipped. *)
Definition put (width : Z) (color : Z → Z → option (option (list byte))) (y x : Z)
    (target : list byte) : option (list byte) :=
  c ← color y x;
  match c with
  | None => Some target
  | Some px => DesktopSurface.write4 target (Z.to_nat ((y * width + x) * 4)) px
  end.
Definition paint (width x0 x1 y0 y1 : Z) (color : Z → Z → option (option (list byte)))
    (target : list byte) : option (list byte) :=
  for_each (λ y, for_each (put width color y) (range x0 x1)) (range y0 y1) target.

Definition background_color (background : BackgroundSampler) (authentication : bool) (y x : Z) :
    option (option (list byte)) :=
  row ← source_row background y;
  c ← sample background row x;
  Some (Some (if authentication then dimmed c else opaque c)).

(** A point of the overlay, over the background. *)
Definition overlay_color (background : BackgroundSampler) (foreground : option Color) (y x : Z) :
    option (option (list byte)) :=
  row ← source_row background y;
  foreground ← foreground;
  if u8 (alpha foreground) =? 0 then Some None
  else
    c ← sample background row x;
    Some (Some (dimmed (blend_rgb c foreground))).

Definition draw_overlay (width : Z) (background : BackgroundSampler) (f : PresentationFrame)
    (target_region : Region) (scaled : option RgbaFrame) (r : Region) (target : list byte) :
    option (list byte) :=
  let at_point foreground := paint width (rx r) (rx r + rwidth r) (ry r) (ry r + rheight r)
    (λ y x, overlay_color background (foreground (x - rx target_region) (y - ry target_region)) y x)
    target in
  match scaled with
  | Some overlay =>
    at_point (λ x y, pixel_at (pixels overlay) (Z.to_nat ((y * fwidth overlay + x) * 4)))
  | None =>
    let horizontal := filtered_axis (fwidth (overlay f)) (rwidth target_region) in
    let vertical := filtered_axis (fheight (overlay f)) (rheight target_region) in
    at_point (filtered_at (overlay f) horizontal vertical)
  end.

Definition draw_opaque_region_cached (width height : Z) (frame : option PresentationFrame)
    (scaled : option RgbaFrame) (authentication : bool) (region : Region) (target : list byte) :
    option (list byte) :=
  let geometry := f ← frame; overlay_geometry f width height in
  background ← sampler (frame ≫= background) width height;
  let end_x := Z.min (saturating_add_u32 (rx region) (rwidth region)) width in
  let end_y := Z.min (saturating_add_u32 (ry region) (rheight region)) height in
  target ← paint width (rx region) end_x (ry region) end_y
             (background_color background authentication) target;
  match (if authentication then frame else None), geometry with
  | Some f, Some target_region =>
    match intersect region target_region with
    | None => Some target
    | Some overlay_region => draw_overlay width background f target_region scaled overlay_region target
    end
  | _, _ => Some target
  end.

Definition draw_opaque_cached (width height : Z) (frame : option PresentationFrame)
    (scaled : option RgbaFrame) (authentication : bool) : list byte → option (list byte) :=
  draw_opaque_region_cached width height frame scaled authentication (region_full width height).

Definition draw_opaque (width height : Z) (frame : option PresentationFrame) :
    list byte → option (list byte) :=
  draw_opaque_cached width height frame None true.

(** [pixel.swap(0, 2)] on every pixel of the canvas. *)
Fixpoint swap_channels (px : list byte) : list byte :=
  match px with
  | b :: g :: r :: a :: rest => r :: g :: b :: a :: swap_channels rest
  | rest => rest
  end.

(** [reserved] is whether the memory for the pixels is there. *)
Definition render_preview (frame : PresentationFrame) (width height : Z) (reserved : bool) :
    option (option RgbaFrame) :=
  if (width =? 0) || (height =? 0) || (MAX_SURFACE_DIMENSION <? width) || (MAX_SURFACE_DIMENSION <? height)
  then Some None
  else match (pixels ← checked_mul 32 width height; checked_mul 32 pixels 4) with
  | None => Some None
  | Some bytes =>
    if MAX_BUFFER_BYTES <? bytes then Some None
    else if negb reserved then Some None
    else
      pixels ← draw_opaque width height (Some frame) (replicate (Z.to_nat bytes) (to_u8 0));
      Some (rgba_new width height (swap_channels pixels))
  end.
