(* ===== verification/LockDrawProofs.v ===== *)
(** * The pixels of the lock: proofs

    The filter's weights, what a drawing puts on the canvas, and that neither
    the cache of the scaled overlay nor the redrawing of a part changes it. *)

From S2P Require Import Prelude Utf8 LockerDraw SessionLock LockRuntime LockDraw.
From S2P Require LockerDrawProofs DesktopSurface DesktopSurfaceProofs.

(** ** The filter *)

Fixpoint total (l : list WeightedSample) : Z :=
  match l with [] => 0 | s :: l => weight s + total l end.

Lemma total_weight_app l k : total (l ++ k) = total l + total k.
Proof. induction l as [|s l IH]; cbn [app total]; lia. Qed.

(** Samples that are there, and whose weights make up one. *)
Definition sample_ok (source : Z) (s : WeightedSample) : Prop :=
  0 ≤ index s < source ∧ 0 < weight s.
Definition weighs (source : Z) (l : list WeightedSample) : Prop :=
  Forall (sample_ok source) l ∧ total l = FILTER_SCALE.

Lemma enlarged_weighs source target p : 0 < source → source ≤ target → 0 ≤ p < target →
  weighs source (enlarged source target p).
Proof.
  intros Hs Ht Hp. unfold enlarged, saturating_add_u32, saturating_sub, FILTER_SCALE.
  set (c := Z.max 0 _). set (lower := Z.min (c / (target * 2)) (source - 1)).
  assert (0 ≤ c) as Hc by lia. assert (0 ≤ c / (target * 2)) as Hq by (apply Z.div_pos; lia).
  set (upper := Z.min (Z.min _ _) _). set (uw := if lower =? upper then 0 else _).
  assert (0 ≤ uw < 65536 ∧ (upper = lower → uw = 0)) as [Hu Hsame].
  { unfold uw. destruct (Z.eqb_spec lower upper) as [E|E]; [lia|]. pose proof (Z.mod_pos_bound c (target * 2)).
    split; [|intros E'; by destruct E]. split; [apply Z.div_pos; lia|apply Z.div_lt_upper_bound; lia]. }
  assert (0 ≤ lower < source ∧ 0 ≤ upper < source) as [Hl Hup] by lia. clearbody lower upper uw c.
  split.
  - constructor; [split; cbn; lia|]. destruct (negb (upper =? lower) && _) eqn:E; [|done]. simp_bool.
    constructor; [split; cbn; lia|done].
  - unfold FILTER_SCALE. cbn. destruct (Z.eqb_spec upper lower) as [E|H]; cbn; [specialize (Hsame E); lia|].
    destruct (Z.eqb_spec uw 0); cbn; lia.
Qed.

(** *** Where an overlay shrinks *)

Section Reduced.
Context (start end_ : Z) (Hspan : start < end_).
Notation span := (end_ - start).

(** The normalized place of a point of the span. *)
Definition place (t : Z) : Z := ((t - start) * FILTER_SCALE + span / 2) / span.

Lemma place_start : place start = 0.
Proof using Hspan.
  unfold place. rewrite Z.sub_diag. pose proof (Z.mul_div_le span 2). apply Z.div_small.
  split; [apply Z.div_pos; lia|]. cbn. apply Z.div_lt_upper_bound; lia.
Qed.
Lemma place_end : place end_ = FILTER_SCALE.
Proof using Hspan.
  unfold place. rewrite Z.mul_comm, Z.div_add_l by lia. rewrite Z.div_small; [lia|].
  split; [apply Z.div_pos; lia|]. apply Z.div_lt_upper_bound; lia.
Qed.
Lemma place_mono t t' : t ≤ t' → place t ≤ place t'.
Proof using Hspan. intros H. unfold place, FILTER_SCALE. apply Z.div_le_mono; lia. Qed.

Lemma share_place i : share start end_ i
  = place (Z.min end_ ((i + 1) * FILTER_SCALE)) - place (Z.max start (i * FILTER_SCALE)).
Proof using Type. unfold share, place. do 3 f_equal; unfold FILTER_SCALE; lia. Qed.

(** The samples of the span from the [i]-th on, of [n] in all. *)
Definition shares (i : Z) (n : nat) : list WeightedSample :=
  seqZ i (Z.of_nat n) ≫= λ index,
    let weight := share start end_ index in if negb (weight =? 0) then [mkSample index weight] else [].

Lemma shares_cons i n : shares i (S n)
  = (let weight := share start end_ i in if negb (weight =? 0) then [mkSample i weight] else [])
    ++ shares (i + 1) n.
Proof using Type.
  unfold shares. rewrite seqZ_cons by lia. cbn [mbind list_bind].
  by replace (Z.pred (Z.of_nat (S n))) with (Z.of_nat n) by lia.
Qed.

Lemma shares_total n : ∀ i, 0 ≤ start → start < (i + 1) * FILTER_SCALE →
  (i + Z.of_nat n) * FILTER_SCALE < end_ → end_ ≤ (i + Z.of_nat n + 1) * FILTER_SCALE →
  total (shares i (S n)) = FILTER_SCALE - place (Z.max start (i * FILTER_SCALE)).
Proof using Hspan.
  induction n as [|n IH]; intros i H0 Hs Hl He; rewrite shares_cons, total_weight_app;
    assert (total (let weight := share start end_ i in if negb (weight =? 0) then [mkSample i weight] else [])
      = share start end_ i) as -> by (cbn zeta; destruct (Z.eqb_spec (share start end_ i) 0) as [E|]; cbn; lia);
    rewrite share_place.
  - change (total (shares (i + 1) 0)) with 0.
    replace (Z.min end_ ((i + 1) * FILTER_SCALE)) with end_ by (unfold FILTER_SCALE in *; lia).
    rewrite place_end. lia.
  - rewrite IH by (unfold FILTER_SCALE in *; lia).
    replace (Z.min end_ ((i + 1) * FILTER_SCALE)) with ((i + 1) * FILTER_SCALE) by (unfold FILTER_SCALE in *; lia).
    replace (Z.max start ((i + 1) * FILTER_SCALE)) with ((i + 1) * FILTER_SCALE) by (unfold FILTER_SCALE in *; lia).
    lia.
Qed.

Lemma share_nonneg i : start < (i + 1) * FILTER_SCALE → i * FILTER_SCALE < end_ → 0 ≤ share start end_ i.
Proof using Hspan.
  intros H1 H2. rewrite share_place. apply Zle_minus_le_0, place_mono. unfold FILTER_SCALE in *. lia.
Qed.
End Reduced.

Lemma reduced_weighs source target p : 0 < target < source → 0 ≤ p < target →
  weighs source (reduced source target p).
Proof.
  intros Ht Hp. unfold reduced. set (start := _ / target). set (end_ := _ / target).
  assert (0 ≤ start) as H0 by (apply Z.div_pos; unfold FILTER_SCALE; nia).
  assert (start < end_) as Hlt.
  { unfold start, end_. replace ((p + 1) * source * FILTER_SCALE) with (p * source * FILTER_SCALE + source * FILTER_SCALE) by lia.
    assert (target * 1 ≤ source * FILTER_SCALE) as Hge by (unfold FILTER_SCALE; lia).
    apply Z.lt_le_trans with ((p * source * FILTER_SCALE + 1 * target) / target); [rewrite Z.div_add by lia; lia|].
    apply Z.div_le_mono; lia. }
  assert (end_ ≤ source * FILTER_SCALE) as Hle.
  { apply Z.div_le_upper_bound; [lia|]. unfold FILTER_SCALE. nia. }
  clearbody start end_. set (first := start / FILTER_SCALE). set (last := (end_ - 1) / FILTER_SCALE).
  pose proof (Z.div_mod start FILTER_SCALE) as D1. pose proof (Z.mod_pos_bound start FILTER_SCALE) as M1.
  pose proof (Z.div_mod (end_ - 1) FILTER_SCALE) as D2. pose proof (Z.mod_pos_bound (end_ - 1) FILTER_SCALE) as M2.
  fold first in D1. fold last in D2. change FILTER_SCALE with 65536 in D1, M1, D2, M2, Hle.
  assert (0 ≤ first ≤ last ∧ last < source) as [Hf Hl] by lia.
  unfold range. replace (last + 1 - first) with (Z.of_nat (S (Z.to_nat (last - first)))) by lia.
  fold (shares start end_ first (S (Z.to_nat (last - first)))). split.
  - apply Forall_forall. intros s (i & Hs & Hi%elem_of_seqZ)%list_elem_of_bind.
    cbn zeta in Hs. pose proof (share_nonneg start end_ Hlt i) as Hn. change FILTER_SCALE with 65536 in Hn.
    destruct (Z.eqb_spec (share start end_ i) 0); cbn [negb] in Hs; [by apply elem_of_nil in Hs|].
    apply list_elem_of_singleton in Hs as ->. split; cbn; lia.
  - rewrite shares_total; [|done|change FILTER_SCALE with 65536; lia..].
    replace (Z.max start (first * FILTER_SCALE)) with start by (change FILTER_SCALE with 65536; lia).
    rewrite place_start by done. lia.
Qed.

Lemma axis_weighs source target p : 0 < source → 0 < target → 0 ≤ p < target →
  weighs source (axis_samples source target p).
Proof.
  intros Hs Ht Hp. unfold axis_samples. destruct (Z.leb_spec source target).
  - by apply enlarged_weighs.
  - apply reduced_weighs; lia.
Qed.

(** The products of the filter stay below what a [u64] holds, for the widest
    frame and the largest buffer there can be, so no multiplication overflows
    and the saturating one does not saturate. *)
Lemma axis_fits source target p : 0 < source < 2 ^ 30 → 0 < target ≤ MAX_SURFACE_DIMENSION → 0 ≤ p < target →
  let start := p * source * FILTER_SCALE / target in
  let end_ := (p + 1) * source * FILTER_SCALE / target in
  (p * 2 + 1) * source < 2 ^ 64 ∧ target * 2 * FILTER_SCALE < 2 ^ 64
  ∧ (p + 1) * source * FILTER_SCALE < 2 ^ 64 ∧ 0 ≤ start ≤ end_
  ∧ (end_ - start) * FILTER_SCALE + (end_ - start) / 2 < 2 ^ 64.
Proof.
  intros Hs Ht Hp start end_. unfold MAX_SURFACE_DIMENSION, FILTER_SCALE in *.
  assert ((p + 1) * source <= 2 ^ 14 * 2 ^ 30) as Hm by nia.
  assert (0 ≤ start) by (apply Z.div_pos; nia). assert (start ≤ end_) by (apply Z.div_le_mono; nia).
  assert (end_ ≤ start + source * 65536 / target + 1) as He.
  { unfold end_, start. replace ((p + 1) * source * 65536) with (p * source * 65536 + source * 65536) by lia.
    pose proof (Z.div_mod (p * source * 65536) target). pose proof (Z.mod_pos_bound (p * source * 65536) target).
    pose proof (Z.div_mod (source * 65536) target). pose proof (Z.mod_pos_bound (source * 65536) target).
    apply Z.lt_succ_r, Z.div_lt_upper_bound; [lia|]. nia. }
  assert (source * 65536 / target ≤ source * 65536) by (apply Z.div_le_upper_bound; nia).
  pose proof (Z.mul_div_le (end_ - start) 2). split_and!; [nia|lia|lia|done|done|lia].
Qed.

(** *** The axis is the list of its positions' samples *)

Section Axis.
Context (source target : Z).
Notation at_position := (axis_samples source target).

Definition axis_step : list nat * list WeightedSample → Z → list nat * list WeightedSample :=
  λ '(offsets, samples) position, (offsets ++ [length samples], samples ++ at_position position).

(** The samples of the positions before [n], and where each begins. *)
Definition before (n : nat) : list WeightedSample := seqZ 0 (Z.of_nat n) ≫= at_position.

Lemma before_S n : before (S n) = before n ++ at_position (Z.of_nat n).
Proof using Type. unfold before. rewrite seqZ_S, bind_app. cbn [mbind list_bind]. by rewrite app_nil_r. Qed.

Lemma axis_run n :
  foldl axis_step ([], []) (seqZ 0 (Z.of_nat n))
  = ((λ p, length (before p)) <$> seq 0 n, before n).
Proof using Type.
  induction n as [|n IH]; [done|]. rewrite seqZ_S, foldl_app, IH. cbn [foldl axis_step].
  rewrite before_S, seq_S, fmap_app. done.
Qed.

Lemma before_prefix p n : (p ≤ n)%nat → ∃ rest, before n = before p ++ rest.
Proof using Type.
  induction 1 as [|n Hle [rest E]]; [exists []; by rewrite app_nil_r|].
  exists (rest ++ at_position (Z.of_nat n)). by rewrite before_S, E, app_assoc.
Qed.

Lemma coordinate_axis p : 0 ≤ p < target →
  coordinate (filtered_axis source target) (Z.to_nat p) = Some (at_position p).
Proof using Type.
  intros Hp. unfold filtered_axis. change (λ '(offsets, samples) position, _) with axis_step.
  unfold range. rewrite Z.sub_0_r. replace target with (Z.of_nat (Z.to_nat target)) at 1 by lia.
  rewrite axis_run. set (n := Z.to_nat target). set (k := Z.to_nat p). unfold coordinate. cbn [offsets samples].
  assert (∀ i, (i ≤ n)%nat →
    (((λ p, length (before p)) <$> seq 0 n) ++ [length (before n)]) !! i = Some (length (before i))) as Hat.
  { intros i Hi. replace ([length (before n)]) with ((λ p, length (before p)) <$> seq n 1) by done.
    rewrite <- fmap_app, <- seq_app, list_lookup_fmap, lookup_seq_lt by lia. done. }
  rewrite !Hat by lia. cbn [mbind option_bind]. destruct (before_prefix (S k) n) as [rest ->]; [lia|].
  rewrite before_S. replace (Z.of_nat k) with p by lia. rewrite !length_app.
  rewrite decide_True by lia. f_equal. rewrite <- app_assoc, drop_app_length, take_app_length' by lia. done.
Qed.
End Axis.

(** *** A filtered pixel *)

Lemma pixel_at_Some (px : list byte) (i : nat) : (i + 4 ≤ length px)%nat → ∃ c, pixel_at px i = Some c.
Proof.
  intros H. unfold pixel_at. assert (length (take 4 (drop i px)) = 4%nat) as E by (rewrite length_take, length_drop; lia).
  destruct (take 4 (drop i px)) as [|? [|? [|? [|? [|? ?]]]]]; try done. by eexists.
Qed.
Lemma pixel_at_frame f x y : wf_rgba f → 0 ≤ x < fwidth f → 0 ≤ y < fheight f →
  ∃ c, pixel_at (pixels f) (Z.to_nat ((y * fwidth f + x) * 4)) = Some c.
Proof. intros (Hw & Hh & Hl & _) Hx Hy. apply pixel_at_Some. nia. Qed.

(** What a sum of samples may come to. *)
Definition sums_ok (w : Z) (s : Sums) : Prop :=
  0 ≤ sum_alpha s ≤ 255 * w ∧ 0 ≤ sum_red s ≤ 255 * sum_alpha s
  ∧ 0 ≤ sum_green s ≤ 255 * sum_alpha s ∧ 0 ≤ sum_blue s ≤ 255 * sum_alpha s.

Section Pixel.
Context (f : RgbaFrame) (Hf : wf_rgba f).

Lemma accumulate_ok y x w s : sample_ok (fwidth f) x → sample_ok (fheight f) y → sums_ok w s →
  ∃ s', accumulate f y x s = Some s' ∧ sums_ok (w + weight x * weight y) s'.
Proof using Hf.
  intros [Hx Hwx] [Hy Hwy] (Ha & Hr & Hg & Hb). unfold accumulate.
  destruct (pixel_at_frame f (index x) (index y) Hf Hx Hy) as [c ->]. cbn [mbind option_bind].
  eexists. split; [done|]. unfold sums_ok. cbn.
  pose proof (u8_range (red c)). pose proof (u8_range (green c)). pose proof (u8_range (blue c)).
  pose proof (u8_range (alpha c)). set (k := weight x * weight y) in *. assert (0 < k) by nia. clearbody k.
  set (a := u8 (alpha c)) in *. assert (0 ≤ a * k ≤ 255 * k) by nia.
  assert (∀ v, 0 ≤ v < 256 → 0 ≤ v * a * k ≤ 255 * (a * k)) as Hv by (intros v Hv; nia).
  pose proof (Hv _ H). pose proof (Hv _ H0). pose proof (Hv _ H1). lia.
Qed.

Lemma accumulate_row y l w s : Forall (sample_ok (fwidth f)) l → sample_ok (fheight f) y → sums_ok w s →
  ∃ s', for_each (accumulate f y) l s = Some s' ∧ sums_ok (w + total l * weight y) s'.
Proof using Hf.
  intros Hl Hy. revert w s. induction Hl as [|x l Hx Hl IH]; intros w s Hs; cbn [for_each total].
  - exists s. split; [done|]. by replace (w + 0 * weight y) with w by lia.
  - destruct (accumulate_ok y x w s Hx Hy Hs) as (s1 & -> & Hs1). cbn [mbind option_bind].
    destruct (IH _ _ Hs1) as (s2 & -> & Hs2). exists s2. split; [done|].
    by replace (w + (weight x + total l) * weight y) with (w + weight x * weight y + total l * weight y) by lia.
Qed.

Lemma accumulate_rows h v w s : weighs (fwidth f) h → Forall (sample_ok (fheight f)) v → sums_ok w s →
  ∃ s', for_each (λ y, for_each (accumulate f y) h) v s = Some s' ∧ sums_ok (w + FILTER_SCALE * total v) s'.
Proof using Hf.
  intros [Hh Ht] Hv. revert w s. induction Hv as [|y v Hy Hv IH]; intros w s Hs; cbn [for_each total].
  - exists s. split; [done|]. by replace (w + FILTER_SCALE * 0) with w by lia.
  - destruct (accumulate_row y h w s Hh Hy Hs) as (s1 & -> & Hs1). cbn [mbind option_bind].
    destruct (IH _ _ Hs1) as (s2 & -> & Hs2). exists s2. split; [done|]. rewrite Ht in Hs2.
    by replace (w + FILTER_SCALE * (weight y + total v))
      with (w + FILTER_SCALE * weight y + FILTER_SCALE * total v) by lia.
Qed.

(** The sums stay below what a [u64] holds. *)
Lemma sums_fit h v : weighs (fwidth f) h → weighs (fheight f) v →
  ∃ s, for_each (λ y, for_each (accumulate f y) h) v (mkSums 0 0 0 0) = Some s
  ∧ sums_ok (FILTER_SCALE * FILTER_SCALE) s ∧ 255 * (255 * (FILTER_SCALE * FILTER_SCALE)) < 2 ^ 64.
Proof using Hf.
  intros Hh [Hv Ht]. destruct (accumulate_rows h v 0 (mkSums 0 0 0 0)) as (s & -> & Hs); [done|done| |].
  { unfold sums_ok. cbn. lia. }
  exists s. split; [done|]. rewrite Ht in Hs. done.
Qed.

Lemma filtered_pixel_Some h v : weighs (fwidth f) h → weighs (fheight f) v →
  ∃ c, filtered_pixel f h v = Some c.
Proof using Hf.
  intros Hh Hv. unfold filtered_pixel. destruct (sums_fit h v Hh Hv) as (s & -> & _).
  cbn [mbind option_bind]. destruct (_ =? _); by eexists.
Qed.

(** Through samples of one pixel each, a pixel that can be seen is itself. *)
Lemma filtered_pixel_same x y c : pixel_at (pixels f) (Z.to_nat ((y * fwidth f + x) * 4)) = Some c →
  filtered_pixel f [mkSample x FILTER_SCALE] [mkSample y FILTER_SCALE]
  = Some (if u8 (alpha c) =? 0 then color 0 0 0 0 else c).
Proof using Type.
  intros E. unfold filtered_pixel. cbn [for_each mbind option_bind]. unfold accumulate. cbn [index weight]. rewrite E.
  cbn [mbind option_bind sum_alpha sum_red sum_green sum_blue].
  pose proof (u8_range (alpha c)). destruct (Z.eqb_spec (u8 (alpha c)) 0) as [Ez|Ez].
  - by rewrite Ez.
  - rewrite (proj2 (Z.eqb_neq _ 0)) by (unfold FILTER_SCALE; lia). unfold color. f_equal.
    rewrite !Z.add_0_l. set (w := FILTER_SCALE * FILTER_SCALE). assert (0 < w) as Hw by done.
    assert (∀ v, v * u8 (alpha c) * w / (u8 (alpha c) * w) = v) as Hv.
    { intros v. rewrite <- Z.mul_assoc. apply Z.div_mul. nia. }
    rewrite !Hv, Z.div_add_l, (Z.div_small (w / 2)), Z.add_0_r by lia || done.
    rewrite !to_u8_u8. by destruct c.
Qed.
End Pixel.

(** *** Scaling *)

Lemma mapM_total {A B} (f : A → option B) (g : A → B) l :
  (∀ x, x ∈ l → f x = Some (g x)) → mapM f l = Some (g <$> l).
Proof.
  induction l as [|x l IH]; intros H; [done|]. cbn [mapM].
  rewrite (H x) by apply list_elem_of_here. cbn [mbind option_bind].
  rewrite IH; [done|]. intros y Hy. by apply H, list_elem_of_further.
Qed.

Lemma concat_lookup {A} (w : nat) (rows : list (list A)) (y x : nat) :
  Forall (λ r, length r = w) rows → (x < w)%nat →
  concat rows !! (w * y + x)%nat = rows !! y ≫= λ r, r !! x.
Proof.
  intros H Hx. revert y. induction H as [|r rows Hr _ IH]; intros y; [by destruct y|]. cbn [concat].
  destruct y as [|y].
  - rewrite lookup_app_l by lia. cbn. by replace (w * 0 + x)%nat with x by lia.
  - rewrite lookup_app_r by lia. replace (w * S y + x - length r)%nat with (w * y + x)%nat by lia. apply IH.
Qed.

Lemma pixel_at_bytes cs i c : cs !! i = Some c → pixel_at (cs ≫= bytes_of_color) (4 * i) = Some c.
Proof.
  intros H. unfold pixel_at. rewrite (DesktopSurfaceProofs.take_drop_pieces 4 bytes_of_color cs i c); [|done|done].
  by destruct c.
Qed.

(** The axis that does not scale. *)
Lemma axis_same n p : 0 ≤ p < n → n ≤ 2 ^ 30 → axis_samples n n p = [mkSample p FILTER_SCALE].
Proof.
  intros Hp Hn. unfold axis_samples. rewrite Z.leb_refl. unfold enlarged, saturating_mul_u64, saturating_sub.
  assert ((p * 2 + 1) * n ≤ 2 ^ 31 * 2 ^ 30) as Hle by (apply Z.mul_le_mono_nonneg; lia).
  rewrite (Z.min_r (2 ^ 64 - 1)) by (change (2 ^ 64 - 1) with 18446744073709551615; change (2 ^ 31 * 2 ^ 30) with 2305843009213693952 in Hle; lia).
  rewrite Z.max_r by nia. replace ((p * 2 + 1) * n - n) with (p * (n * 2)) by lia.
  rewrite Z.div_mul, Z.mod_mul, Z.min_l by lia. cbn [Z.mul]. rewrite Z.div_0_l by lia.
  assert (∀ b : bool, (if b then 0 else 0) = 0) as -> by by intros [].
  rewrite andb_false_r. by rewrite Z.sub_0_r.
Qed.

Section Scale.
Context (f : RgbaFrame) (Hf : wf_rgba f) (width height : Z) (Hw : 0 < width) (Hh : 0 < height).
Context (Hsize : width * height * 4 < 2 ^ 32).
Notation horizontal := (filtered_axis (fwidth f) width).
Notation vertical := (filtered_axis (fheight f) height).

Lemma filtered_at_Some x y : 0 ≤ x < width → 0 ≤ y < height →
  ∃ c, filtered_at f horizontal vertical x y = Some c.
Proof using Hf Hw Hh.
  intros Hx Hy. destruct Hf as (? & ? & _). unfold filtered_at. rewrite !coordinate_axis by done.
  cbn [mbind option_bind]. apply filtered_pixel_Some; [done|apply axis_weighs; lia..].
Qed.

(** What of a color is drawn. *)
Definition seen (c : Color) : option Color := if u8 (alpha c) =? 0 then None else Some c.

Lemma scale_overlay_spec : ∃ g, scale_overlay f width height = Some g
  ∧ fwidth g = width
  ∧ ∀ x y, 0 ≤ x < width → 0 ≤ y < height →
      ∃ c, pixel_at (pixels g) (Z.to_nat ((y * fwidth g + x) * 4)) = Some c
      ∧ seen <$> filtered_at f horizontal vertical x y = Some (seen c).
Proof using All.
  unfold scale_overlay. destruct (_ && _) eqn:E.
  - simp_bool. subst width height. exists f. split; [done|]. split; [done|]. intros x y Hx Hy.
    destruct (pixel_at_frame f x y Hf Hx Hy) as [c Ec]. exists c. split; [done|].
    destruct Hf as (? & ? & _ & ?). unfold filtered_at. rewrite !coordinate_axis by done. cbn [mbind option_bind].
    rewrite !axis_same by nia. rewrite (filtered_pixel_same f x y c) by done. cbn [fmap option_fmap option_map].
    unfold seen at 2. destruct (u8 (alpha c) =? 0) eqn:Ez; [done|]. unfold seen. by rewrite Ez.
  - clear E. set (g := λ y x, default (color 0 0 0 0) (filtered_at f horizontal vertical x y)).
    assert (∀ x y, 0 ≤ x < width → 0 ≤ y < height → filtered_at f horizontal vertical x y = Some (g y x)) as Hg.
    { intros x y Hx Hy. unfold g. by destruct (filtered_at_Some x y Hx Hy) as [c ->]. }
    rewrite (mapM_total _ (λ y, g y <$> range 0 width)).
    2:{ intros y Hy%LockerDrawProofs.elem_of_range. apply mapM_total. intros x Hx%LockerDrawProofs.elem_of_range. by apply Hg. }
    cbn [mbind option_bind]. set (cs := concat _).
    assert (Forall (λ r, length r = Z.to_nat width) ((λ y, g y <$> range 0 width) <$> range 0 height)) as Hrows.
    { apply Forall_fmap, Forall_forall. intros y _. cbn. rewrite length_fmap. unfold range. rewrite length_seqZ. lia. }
    assert (length cs = Z.to_nat width * Z.to_nat height)%nat as Hcs.
    { unfold cs. clear -Hrows. transitivity (Z.to_nat width * length ((λ y, g y <$> range 0 width) <$> range 0 height))%nat.
      - induction Hrows as [|r l Hr _ IH]; cbn [concat length]; [lia|]. rewrite length_app, Hr, IH. lia.
      - rewrite length_fmap. unfold range. rewrite length_seqZ. f_equal. lia. }
    set (f' := mkRgba width height (cs ≫= bytes_of_color)).
    exists f'. rewrite (proj2 (rgba_new_Some width height _ f' ltac:(lia) ltac:(lia))).
    2:{ split; [done|]. unfold wf_rgba. cbn. rewrite (DesktopSurfaceProofs.length_pieces 4) by done. rewrite Hcs. nia. }
    split; [done|]. split; [done|]. intros x y Hx Hy. exists (g y x). split; [|by rewrite Hg].
    unfold f'. cbn [pixels fwidth]. 
    replace (Z.to_nat ((y * width + x) * 4)) with (4 * (Z.to_nat width * Z.to_nat y + Z.to_nat x))%nat by nia.
    apply pixel_at_bytes. unfold cs. rewrite concat_lookup by (done || lia).
    rewrite list_lookup_fmap. unfold range at 2. rewrite lookup_seqZ_lt by lia. cbn [fmap option_fmap option_map mbind option_bind].
    rewrite list_lookup_fmap. unfold range. rewrite lookup_seqZ_lt by lia. cbn. do 2 f_equal; lia.
Qed.
End Scale.

(** ** The canvas *)

Definition canvas_ok (width height : Z) (target : list byte) : Prop :=
  Z.of_nat (length target) = width * height * 4.
Definition view (width : Z) (target : list byte) (x y : Z) : list byte :=
  take 4 (drop (Z.to_nat ((y * width + x) * 4)) target).

Section Canvas.
Context (width height : Z) (Hw : 0 < width) (Hh : 0 < height).
Notation at_ x y := (Z.to_nat ((y * width + x) * 4)).

(** Distinct points are distinct places. *)
Lemma point_inj x y x' y' : 0 ≤ x < width → 0 ≤ x' < width → 0 ≤ y → 0 ≤ y' →
  y * width + x = y' * width + x' → x = x' ∧ y = y'.
Proof using All. intros. assert (y = y') as -> by nia. lia. Qed.

Lemma write4_view target x y px : canvas_ok width height target → 0 ≤ x < width → 0 ≤ y < height → length px = 4%nat →
  ∃ out, DesktopSurface.write4 target (at_ x y) px = Some out ∧ canvas_ok width height out
  ∧ ∀ x' y', 0 ≤ x' < width → 0 ≤ y' < height →
      view width out x' y' = if decide (x' = x ∧ y' = y) then px else view width target x' y'.
Proof using All.
  unfold canvas_ok. intros Ht Hx Hy Hp. unfold DesktopSurface.write4.
  assert (at_ x y + 4 ≤ length target)%nat as Hin by nia. rewrite decide_True by done.
  eexists. split; [done|]. split.
  { rewrite !length_app, length_take, length_drop, Hp. lia. }
  intros x' y' Hx' Hy'. unfold view. case_decide as Hd.
  - destruct Hd as [-> ->]. rewrite drop_app_length' by (rewrite length_take; lia). by apply take_app_length'.
  - assert (y * width + x ≠ y' * width + x') as Hne.
    { intros E. destruct (point_inj x y x' y'); lia. }
    destruct (Z.lt_ge_cases (y' * width + x') (y * width + x)) as [Hlt|Hge].
    + rewrite drop_app_le by (rewrite length_take; lia).
      rewrite take_app_le by (rewrite length_drop, length_take; lia).
      rewrite !take_drop_commute, take_take. do 2 f_equal. lia.
    + rewrite drop_app_ge by (rewrite length_take; lia). rewrite length_take, Nat.min_l by lia.
      rewrite drop_app_ge by lia. rewrite Hp, drop_drop. do 2 f_equal. lia.
Qed.

(** A canvas is what it shows. *)
Lemma canvas_ext t t' : canvas_ok width height t → canvas_ok width height t' →
  (∀ x y, 0 ≤ x < width → 0 ≤ y < height → view width t x y = view width t' x y) → t = t'.
Proof using All.
  unfold canvas_ok. intros Ht Ht' H. apply list_eq. intros i.
  destruct (Nat.lt_ge_cases i (length t)) as [Hi|Hi].
  2:{ rewrite !lookup_ge_None_2 by lia. done. }
  set (p := Z.of_nat i / 4). pose proof (Z.div_mod (Z.of_nat i) 4) as D. pose proof (Z.mod_pos_bound (Z.of_nat i) 4) as M.
  fold p in D. pose proof (Z.div_mod p width) as D'. pose proof (Z.mod_pos_bound p width Hw) as M'.
  assert (0 ≤ p < width * height) as Hp by lia.
  specialize (H (p mod width) (p / width) M').
  assert (0 ≤ p / width < height) as Hy by (split; [apply Z.div_pos; lia|apply Z.div_lt_upper_bound; lia]).
  specialize (H Hy). unfold view in H.
  replace (at_ (p mod width) (p / width)) with (4 * Z.to_nat p)%nat in H by lia.
  apply (f_equal (.!! Z.to_nat (Z.of_nat i mod 4))) in H.
  rewrite !lookup_take_lt, !lookup_drop in H by lia.
  by replace (4 * Z.to_nat p + Z.to_nat (Z.of_nat i mod 4))%nat with i in H by lia.
Qed.

(** *** Painting a rectangle *)

Definition inside (x0 x1 y0 y1 x y : Z) : bool :=
  (x0 <=? x) && (x <? x1) && (y0 <=? y) && (y <? y1).

(** What a color leaves at a point. *)
Definition over (color : Z → Z → option (option (list byte))) (y x : Z) (old : list byte) : list byte :=
  match color y x with Some (Some px) => px | _ => old end.

Definition colors (color : Z → Z → option (option (list byte))) (y x : Z) : Prop :=
  ∃ o, color y x = Some o ∧ ∀ px, o = Some px → length px = 4%nat.

Lemma put_view color y x target : canvas_ok width height target → 0 ≤ x < width → 0 ≤ y < height → colors color y x →
  ∃ out, put width color y x target = Some out ∧ canvas_ok width height out
  ∧ ∀ x' y', 0 ≤ x' < width → 0 ≤ y' < height →
      view width out x' y' = if decide (x' = x ∧ y' = y) then over color y x (view width target x y) else view width target x' y'.
Proof using All.
  intros Ht Hx Hy (o & Eo & Hlen). unfold put, over. rewrite Eo. cbn [mbind option_bind].
  destruct o as [px|]; [by apply write4_view; auto|].
  exists target. split; [done|]. split; [done|]. intros x' y' _ _. case_decide as Hd; [|done]. by destruct Hd as [-> ->].
Qed.

Lemma put_row color y l target : canvas_ok width height target → 0 ≤ y < height →
  (∀ x, x ∈ l → 0 ≤ x < width ∧ colors color y x) →
  ∃ out, for_each (put width color y) l target = Some out ∧ canvas_ok width height out
  ∧ ∀ x' y', 0 ≤ x' < width → 0 ≤ y' < height →
      view width out x' y' = if decide (x' ∈ l ∧ y' = y) then over color y x' (view width target x' y) else view width target x' y'.
Proof using All.
  intros Ht Hy. revert target Ht. induction l as [|x l IH]; intros target Ht Hl; cbn [for_each].
  { exists target. split; [done|]. split; [done|]. intros x' y' _ _. rewrite decide_False; [done|].
    intros [H _]. by apply elem_of_nil in H. }
  destruct (Hl x) as [Hx Hc]; [apply list_elem_of_here|].
  destruct (put_view color y x target Ht Hx Hy Hc) as (t1 & -> & Ht1 & Hv1). cbn [mbind option_bind].
  destruct (IH t1 Ht1) as (t2 & -> & Ht2 & Hv2).
  { intros z Hz. by apply Hl, list_elem_of_further. }
  exists t2. split; [done|]. split; [done|]. intros x' y' Hx' Hy'. rewrite Hv2 by done.
  case_decide as H1.
  - destruct H1 as [H1 ->]. rewrite Hv1, (decide_True (P := x' ∈ x :: l ∧ y = y)) by first [done|split; [by apply list_elem_of_further|done]].
    case_decide as H2; [|done]. destruct H2 as [-> _]. unfold over. by destruct (color y x) as [[]|].
  - rewrite Hv1 by done. case_decide as H2.
    + destruct H2 as [-> ->]. rewrite decide_True; [done|]. split; [apply list_elem_of_here|done].
    + rewrite decide_False; [done|]. intros [[->|?]%elem_of_cons ->]; tauto.
Qed.

Lemma put_rows color lx ly target : canvas_ok width height target → (∀ y, y ∈ ly → 0 ≤ y < height) →
  (∀ x y, x ∈ lx → y ∈ ly → 0 ≤ x < width ∧ colors color y x) →
  ∃ out, for_each (λ y, for_each (put width color y) lx) ly target = Some out ∧ canvas_ok width height out
  ∧ ∀ x' y', 0 ≤ x' < width → 0 ≤ y' < height →
      view width out x' y' = if decide (x' ∈ lx ∧ y' ∈ ly) then over color y' x' (view width target x' y') else view width target x' y'.
Proof using All.
  revert target. induction ly as [|y ly IH]; intros target Ht Hy Hl; cbn [for_each].
  { exists target. split; [done|]. split; [done|]. intros x' y' _ _. rewrite decide_False; [done|].
    intros [_ H]. by apply elem_of_nil in H. }
  destruct (put_row color y lx target Ht) as (t1 & -> & Ht1 & Hv1).
  { apply Hy, list_elem_of_here. }
  { intros x Hx. apply Hl; [done|apply list_elem_of_here]. }
  cbn [mbind option_bind]. destruct (IH t1 Ht1) as (t2 & -> & Ht2 & Hv2).
  { intros z Hz. by apply Hy, list_elem_of_further. }
  { intros x z Hx Hz. apply Hl; [done|by apply list_elem_of_further]. }
  exists t2. split; [done|]. split; [done|]. intros x' y' Hx' Hy'. rewrite Hv2 by done.
  case_decide as H1.
  - destruct H1 as [H1 H2]. rewrite Hv1, (decide_True (P := x' ∈ lx ∧ y' ∈ y :: ly)) by first [done|split; [done|by apply list_elem_of_further]].
    case_decide as H3; [|done]. destruct H3 as [_ ->]. unfold over. by destruct (color y x') as [[]|].
  - rewrite Hv1 by done. case_decide as H2.
    + destruct H2 as [H2 ->]. rewrite decide_True; [done|]. split; [done|apply list_elem_of_here].
    + rewrite decide_False; [done|]. intros [? [->|?]%elem_of_cons]; tauto.
Qed.

Lemma paint_view color x0 x1 y0 y1 target : canvas_ok width height target →
  0 ≤ x0 → x1 ≤ width → 0 ≤ y0 → y1 ≤ height →
  (∀ x y, x0 ≤ x < x1 → y0 ≤ y < y1 → colors color y x) →
  ∃ out, paint width x0 x1 y0 y1 color target = Some out ∧ canvas_ok width height out
  ∧ ∀ x y, 0 ≤ x < width → 0 ≤ y < height →
      view width out x y = if inside x0 x1 y0 y1 x y then over color y x (view width target x y) else view width target x y.
Proof using All.
  intros Ht Hx0 Hx1 Hy0 Hy1 Hc. unfold paint.
  destruct (put_rows color (range x0 x1) (range y0 y1) target Ht) as (out & E & Hout & Hv).
  { intros y Hy%LockerDrawProofs.elem_of_range. lia. }
  { intros x y Hx%LockerDrawProofs.elem_of_range Hy%LockerDrawProofs.elem_of_range. split; [lia|by apply Hc]. }
  exists out. split; [done|]. split; [done|]. intros x y Hx Hy. rewrite Hv by done.
  assert (∀ a b z, z ∈ range a b ↔ a ≤ z < b) as Hr.
  { intros a b z. unfold range. rewrite elem_of_seqZ. lia. }
  case_decide as Hd; rewrite !Hr in Hd.
  - assert (inside x0 x1 y0 y1 x y = true) as ->; [|done]. unfold inside. rewrite !andb_true_iff, !Z.leb_le, !Z.ltb_lt. lia.
  - assert (inside x0 x1 y0 y1 x y = false) as ->; [|done]. apply not_true_iff_false. unfold inside.
    rewrite !andb_true_iff, !Z.leb_le, !Z.ltb_lt. tauto.
Qed.
End Canvas.

(** ** The background *)

Definition wf_picture (f : option RgbaFrame) : Prop := from_option wf_rgba True f.

(** The color of the background at a point. *)
Definition backdrop (f : option RgbaFrame) (width height x y : Z) : option Rgb :=
  s ← sampler f width height; row ← source_row s y; sample s row x.

Lemma source_coordinate_Some p crop scaled source : 0 ≤ p → 0 ≤ crop → 0 < scaled → 0 < source →
  ∃ c, source_coordinate p crop scaled source = Some c ∧ 0 ≤ c < source.
Proof.
  intros Hp Hc Hs Hr. unfold source_coordinate. rewrite (proj2 (Z.eqb_neq _ _)) by lia.
  eexists. split; [done|]. assert (0 ≤ (p + crop) * source / scaled) by (apply Z.div_pos; nia). lia.
Qed.

Lemma cover_geometry_Some sw sh w h : 0 < sw → 0 < sh → 0 < w → 0 < h →
  ∃ cx cy w' h', cover_geometry sw sh w h = Some (cx, cy, w', h') ∧ 0 ≤ cx ∧ 0 ≤ cy ∧ 0 < w' ∧ 0 < h'.
Proof.
  intros. unfold cover_geometry. rewrite !(proj2 (Z.eqb_neq _ 0)) by lia. cbn [orb].
  assert (∀ a b, 0 ≤ saturating_sub a b / 2) as Hs by (intros; apply Z.div_pos; unfold saturating_sub; lia).
  destruct (Z.ltb_spec (w * sh) (sw * h)).
  - eexists _, _, _, _. split; [done|]. split_and!; [apply Hs..| |done].
    apply Z.div_str_pos. nia.
  - eexists _, _, _, _. split; [done|]. split_and!; [apply Hs..|done|].
    apply Z.div_str_pos. nia.
Qed.

Lemma backdrop_Some f width height : wf_picture f → 0 < width → 0 < height →
  ∃ s, sampler f width height = Some s ∧ ∀ x y, 0 ≤ x < width → 0 ≤ y < height →
  ∃ row c, source_row s y = Some row ∧ sample s row x = Some c ∧ backdrop f width height x y = Some c.
Proof.
  intros Hf Hw Hh. unfold backdrop. destruct f as [f|].
  2:{ eexists. split; [done|]. intros x y _ _. eexists _, _. done. }
  cbn in Hf. destruct Hf as (Hfw & Hfh & Hl & _). unfold sampler.
  destruct (cover_geometry_Some (fwidth f) (fheight f) width height) as (cx & cy & w' & h' & -> & Hcx & Hcy & Hw' & Hh'); [lia..|].
  set (g := λ x, default 0 (source_coordinate x cx w' (fwidth f)) * 4).
  assert (∀ x, 0 ≤ x → ∃ c, source_coordinate x cx w' (fwidth f) = Some c ∧ 0 ≤ c < fwidth f ∧ g x = c * 4) as Hg.
  { intros x Hx. destruct (source_coordinate_Some x cx w' (fwidth f)) as (c & E & Hc); [lia..|].
    exists c. unfold g. by rewrite E. }
  rewrite (mapM_total _ g).
  2:{ intros x Hx%LockerDrawProofs.elem_of_range. destruct (Hg x) as (c & E & _ & Eg); [lia|]. cbn beta. by rewrite E, Eg. }
  cbn [mbind option_bind]. eexists. split; [done|]. intros x y Hx Hy. unfold source_row. cbn [sampled crop_y scaled_height].
  destruct (source_coordinate_Some y cy h' (fheight f)) as (c & -> & Hc); [lia..|]. cbn [mbind option_bind].
  destruct (Hg x) as (cx' & _ & Hcx' & E); [lia|].
  set (i := Z.to_nat (c * fwidth f * 4 + cx' * 4)). assert (i + 4 ≤ length (pixels f))%nat as Hi by (unfold i; nia).
  destruct (lookup_lt_is_Some_2 (pixels f) i) as [r Er]; [lia|].
  destruct (lookup_lt_is_Some_2 (pixels f) (i + 1)) as [gr Egr]; [lia|].
  destruct (lookup_lt_is_Some_2 (pixels f) (i + 2)) as [b Eb]; [lia|].
  assert (sample (mkSampler (Some f) (g <$> range 0 width) cy h') (Some (c * fwidth f * 4)) x = Some (mkRgb r gr b)) as Es.
  { unfold sample. cbn [sampled columns]. rewrite list_lookup_fmap. unfold range. rewrite lookup_seqZ_lt by lia.
    replace (0 + Z.of_nat (Z.to_nat x)) with x by lia. cbn [fmap option_fmap option_map mbind option_bind].
    rewrite E. fold i. by rewrite Er, Egr, Eb. }
  eexists _, _. split; [done|]. by rewrite Es.
Qed.

(** ** A drawing, point by point *)

(** A frame that the presentation may show, and a scaled overlay for it. *)
Definition wf_shown (f : option PresentationFrame) : Prop :=
  from_option (λ f, wf_frame f ∧ wf_picture (background f)) True f.
Definition scaled_for (f : option PresentationFrame) (width height : Z) (scaled : option RgbaFrame) : Prop :=
  match scaled with
  | None => True
  | Some g => ∃ f' target, f = Some f' ∧ overlay_geometry f' width height = Some target
      ∧ scale_overlay (overlay f') (rwidth target) (rheight target) = Some g
  end.

(** The overlay at a point of its rectangle. *)
Definition foreground (f : PresentationFrame) (target : Region) (x y : Z) : option Color :=
  filtered_at (overlay f) (filtered_axis (fwidth (overlay f)) (rwidth target))
    (filtered_axis (fheight (overlay f)) (rheight target)) (x - rx target) (y - ry target) ≫= seen.

Definition covers (r : Region) (x y : Z) : bool :=
  inside (rx r) (rx r + rwidth r) (ry r) (ry r + rheight r) x y.

(** What a drawing of a frame shows at a point. *)
Definition point (f : option PresentationFrame) (authentication : bool) (width height x y : Z) : list byte :=
  match backdrop (f ≫= background) width height x y with
  | None => []
  | Some c =>
    if negb authentication then opaque c
    else match f, f ≫= (λ f, overlay_geometry f width height) with
    | Some f, Some target =>
      if covers target x y then
        match foreground f target x y with Some o => dimmed (blend_rgb c o) | None => dimmed c end
      else dimmed c
    | _, _ => dimmed c
    end
  end.

Section Drawing.
Context (width height : Z) (Hw : 0 < width) (Hh : 0 < height) (Hsize : width * height * 4 < 2 ^ 32).
Context (f : option PresentationFrame) (Hf : wf_shown f).

Lemma shown_picture : wf_picture (f ≫= background).
Proof using Hf. destruct f as [f'|]; [|done]. by destruct Hf. Qed.

Lemma geometry_inside f' target : f = Some f' → overlay_geometry f' width height = Some target →
  0 ≤ rx target ∧ 0 ≤ ry target ∧ 0 ≤ rwidth target ∧ 0 ≤ rheight target
  ∧ rx target + rwidth target ≤ width ∧ ry target + rheight target ≤ height.
Proof using Hw Hh Hf. intros -> E. destruct Hf. apply (overlay_geometry_inside f' width height); (done || lia). Qed.

(** The cache or the filter: the same overlay, where it is seen. *)
Lemma sampled_foreground f' target scaled x y :
  f = Some f' → overlay_geometry f' width height = Some target → scaled_for f width height scaled →
  covers target x y = true →
  ∃ o, match scaled with
       | Some g => pixel_at (pixels g)
                     (Z.to_nat (((y - ry target) * fwidth g + (x - rx target)) * 4))
       | None => filtered_at (overlay f') (filtered_axis (fwidth (overlay f')) (rwidth target))
                   (filtered_axis (fheight (overlay f')) (rheight target)) (x - rx target) (y - ry target)
       end = Some o ∧ foreground f' target x y = seen o.
Proof using All.
  intros E Eg Hs Hin. pose proof (geometry_inside f' target E Eg) as (? & ? & ? & ? & ? & ?).
  unfold covers, inside in Hin. rewrite !andb_true_iff, !Z.leb_le, !Z.ltb_lt in Hin.
  assert (wf_rgba (overlay f')) as Ho.
  { pose proof Hf as Hf'. rewrite E in Hf'. destruct Hf' as [Hwf _]. apply Hwf. }
  unfold foreground. destruct scaled as [g|].
  - destruct Hs as (f'' & target' & E' & Eg' & Es). rewrite E in E'. injection E' as <-.
    rewrite Eg in Eg'. injection Eg' as <-.
    destruct (scale_overlay_spec (overlay f') Ho (rwidth target) (rheight target)) as (g' & Es' & Ew & Hg);
      [lia|lia|nia|]. rewrite Es in Es'. injection Es' as <-.
    destruct (Hg (x - rx target) (y - ry target)) as (c & Ec & Eseen); [lia..|].
    exists c. split; [done|]. destruct (filtered_at _ _ _ _ _) as [c'|]; [|done]. by injection Eseen.
  - destruct (filtered_at_Some (overlay f') Ho (rwidth target) (rheight target) ltac:(lia) ltac:(lia)
      (x - rx target) (y - ry target)) as [c ->]; [lia..|]. by exists c.
Qed.

Lemma overlay_color_over s x y o c row old :
  source_row s y = Some row → sample s row x = Some c →
  colors (overlay_color s (Some o)) y x
  ∧ over (overlay_color s (Some o)) y x old
    = match seen o with Some o => dimmed (blend_rgb c o) | None => old end.
Proof using Type.
  intros Er Es. unfold colors, over, overlay_color, seen. rewrite Er. cbn [mbind option_bind].
  destruct (u8 (alpha o) =? 0).
  - split; [|done]. eexists. split; [done|]. done.
  - rewrite Es. cbn [mbind option_bind]. split; [|done]. eexists. split; [done|]. by intros px [= <-].
Qed.

Lemma intersect_inside (r target ov : Region) x y :
  0 ≤ rx r → 0 ≤ rwidth r → rx r + rwidth r < 2 ^ 32 → 0 ≤ ry r → 0 ≤ rheight r → ry r + rheight r < 2 ^ 32 →
  0 ≤ rx target → 0 ≤ rwidth target → rx target + rwidth target < 2 ^ 32 →
  0 ≤ ry target → 0 ≤ rheight target → ry target + rheight target < 2 ^ 32 →
  (intersect r target = Some ov → covers ov x y = covers r x y && covers target x y)
  ∧ (intersect r target = None → covers r x y && covers target x y = false).
Proof using Type.
  intros. unfold intersect, saturating_add_u32. rewrite !(Z.min_r (2 ^ 32 - 1)) by lia.
  destruct (_ && _) eqn:E; rewrite ?andb_true_iff, ?andb_false_iff, ?Z.ltb_lt, ?Z.ltb_ge in E.
  - split; [|done]. intros [= <-]. apply eq_bool_prop_intro. unfold covers, inside. cbn.
    rewrite !Is_true_true, !andb_true_iff, !Z.leb_le, !Z.ltb_lt. lia.
  - split; [done|]. intros _. apply not_true_iff_false. unfold covers, inside.
    rewrite !andb_true_iff, !Z.leb_le, !Z.ltb_lt. lia.
Qed.

Definition region_in (r : Region) : Prop :=
  0 ≤ rx r ∧ 0 ≤ rwidth r ∧ rx r + rwidth r ≤ width ∧ 0 ≤ ry r ∧ 0 ≤ rheight r ∧ ry r + rheight r ≤ height.

Lemma intersect_in r target ov : region_in r → 0 ≤ rx target → 0 ≤ ry target →
  intersect r target = Some ov → region_in ov.
Proof using Type.
  unfold region_in, intersect, saturating_add_u32. intros (? & ? & ? & ? & ? & ?) ? ?.
  destruct (_ && _) eqn:E; [|done]. rewrite andb_true_iff, !Z.ltb_lt in E. intros [= <-]. cbn. lia.
Qed.

(** The overlay on a painted background. *)
Lemma draw_overlay_view s f' target scaled ov old :
  sampler (f ≫= background) width height = Some s → f = Some f' → overlay_geometry f' width height = Some target →
  scaled_for f width height scaled → (∀ x y, covers ov x y = true → covers target x y = true) → region_in ov →
  canvas_ok width height old →
  ∃ out, draw_overlay width s f' target scaled ov old = Some out ∧ canvas_ok width height out
  ∧ ∀ x y, 0 ≤ x < width → 0 ≤ y < height → view width out x y =
      if covers ov x y then
        match foreground f' target x y, backdrop (f ≫= background) width height x y with
        | Some o, Some c => dimmed (blend_rgb c o)
        | _, _ => view width old x y
        end
      else view width old x y.
Proof using All.
  intros Es E Eg Hs Hsub (Hx0 & Hxw & Hx1 & Hy0 & Hyh & Hy1) Hold.
  destruct (backdrop_Some (f ≫= background) width height shown_picture Hw Hh) as (s' & Es' & Hback).
  rewrite Es in Es'. injection Es' as <-.
  set (fg := match scaled with
    | Some g => λ x y, pixel_at (pixels g) (Z.to_nat ((y * fwidth g + x) * 4))
    | None => filtered_at (overlay f') (filtered_axis (fwidth (overlay f')) (rwidth target))
                (filtered_axis (fheight (overlay f')) (rheight target))
    end).
  assert (draw_overlay width s f' target scaled ov old = paint width (rx ov) (rx ov + rwidth ov) (ry ov) (ry ov + rheight ov)
    (λ y x, overlay_color s (fg (x - rx target) (y - ry target)) y x) old) as ->.
  { unfold draw_overlay, fg. by destruct scaled. }
  assert (∀ x y, covers ov x y = true → ∃ o, fg (x - rx target) (y - ry target) = Some o ∧ foreground f' target x y = seen o) as Hfg.
  { intros x y Hin. destruct (sampled_foreground f' target scaled x y E Eg Hs) as (o & Eo & Ho); [by apply Hsub|].
    exists o. split; [|done]. unfold fg. by destruct scaled. }
  assert (∀ x y, rx ov ≤ x < rx ov + rwidth ov → ry ov ≤ y < ry ov + rheight ov → covers ov x y = true) as Hin.
  { intros x y Hx Hy. unfold covers, inside. rewrite !andb_true_iff, !Z.leb_le, !Z.ltb_lt. lia. }
  destruct (paint_view width height Hw Hh (λ y x, overlay_color s (fg (x - rx target) (y - ry target)) y x)
    (rx ov) (rx ov + rwidth ov) (ry ov) (ry ov + rheight ov) old Hold) as (out & -> & Hout & Hv); [lia..| |].
  { intros x y Hx Hy. destruct (Hfg x y (Hin x y Hx Hy)) as (o & Eo & _).
    destruct (Hback x y) as (row & c & Er & Ec & _); [lia..|].
    pose proof (proj1 (overlay_color_over s x y o c row [] Er Ec)) as H. unfold colors. by rewrite Eo. }
  exists out. split; [done|]. split; [done|]. intros x y Hx Hy. rewrite Hv by done.
  change (inside _ _ _ _ x y) with (covers ov x y). destruct (covers ov x y) eqn:Eov; [|done].
  destruct (Hfg x y Eov) as (o & Eo & ->). destruct (Hback x y Hx Hy) as (row & c & Er & Ec & ->).
  unfold over. rewrite Eo. pose proof (proj2 (overlay_color_over s x y o c row (view width old x y) Er Ec)) as H.
  unfold over in H. rewrite H. by destruct (seen o).
Qed.

Lemma draw_region_view scaled authentication r old :
  scaled_for f width height scaled → region_in r → canvas_ok width height old →
  ∃ out, draw_opaque_region_cached width height f scaled authentication r old = Some out
  ∧ canvas_ok width height out
  ∧ ∀ x y, 0 ≤ x < width → 0 ≤ y < height → view width out x y =
      if covers r x y then point f authentication width height x y else view width old x y.
Proof using All.
  intros Hs Hr Hold. pose proof Hr as (Hx0 & Hxw & Hx1 & Hy0 & Hyh & Hy1). unfold draw_opaque_region_cached.
  destruct (backdrop_Some (f ≫= background) width height shown_picture Hw Hh) as (s & Es & Hback).
  rewrite Es. cbn [mbind option_bind]. assert (width < 2 ^ 32 ∧ height < 2 ^ 32) as [Hw32 Hh32] by nia.
  replace (Z.min (saturating_add_u32 (rx r) (rwidth r)) width) with (rx r + rwidth r) by (unfold saturating_add_u32; lia).
  replace (Z.min (saturating_add_u32 (ry r) (rheight r)) height) with (ry r + rheight r) by (unfold saturating_add_u32; lia).
  assert (∀ x y, 0 ≤ x < width → 0 ≤ y < height → ∃ c, backdrop (f ≫= background) width height x y = Some c
    ∧ background_color s authentication y x = Some (Some (if authentication then dimmed c else opaque c))) as Hbg.
  { intros x y Hx Hy. destruct (Hback x y Hx Hy) as (row & c & Er & Ec & Eb). exists c. split; [done|].
    unfold background_color. rewrite Er. cbn [mbind option_bind]. by rewrite Ec. }
  destruct (paint_view width height Hw Hh (background_color s authentication)
    (rx r) (rx r + rwidth r) (ry r) (ry r + rheight r) old Hold) as (t1 & -> & Ht1 & Hv1); [lia..| |].
  { intros x y Hx Hy. destruct (Hbg x y) as (c & _ & E); [lia..|]. eexists. split; [exact E|].
    intros px [= <-]. by destruct authentication. }
  cbn [mbind option_bind].
  assert (∀ x y, 0 ≤ x < width → 0 ≤ y < height → ∃ c, backdrop (f ≫= background) width height x y = Some c
    ∧ view width t1 x y = if covers r x y then (if authentication then dimmed c else opaque c) else view width old x y) as Hv.
  { intros x y Hx Hy. destruct (Hbg x y Hx Hy) as (c & Eb & E). exists c. split; [done|].
    rewrite Hv1 by done. change (inside _ _ _ _ x y) with (covers r x y). unfold over. by rewrite E. }
  clear Hv1 Hbg. unfold point. destruct authentication; cbn [negb].
  2:{ exists t1. split; [done|]. split; [done|]. intros x y Hx Hy. by destruct (Hv x y Hx Hy) as (c & -> & ->). }
  set (picture := f ≫= background) in *.
  assert (f = None ∨ ∃ f', f = Some f') as [Ef|[f' Ef]] by (destruct f; eauto); rewrite Ef.
  { exists t1. split; [done|]. split; [done|]. intros x y Hx Hy. by destruct (Hv x y Hx Hy) as (c & -> & ->). }
  change (Some f' ≫= λ f, overlay_geometry f width height) with (overlay_geometry f' width height).
  destruct (overlay_geometry f' width height) as [target|] eqn:Eg.
  2:{ exists t1. split; [done|]. split; [done|]. intros x y Hx Hy. by destruct (Hv x y Hx Hy) as (c & -> & ->). }
  destruct (geometry_inside f' target Ef Eg) as (? & ? & ? & ? & ? & ?).
  pose proof (λ ov x y, intersect_inside r target ov x y ltac:(lia) ltac:(lia) ltac:(lia) ltac:(lia) ltac:(lia)
    ltac:(lia) ltac:(lia) ltac:(lia) ltac:(lia) ltac:(lia) ltac:(lia) ltac:(lia)) as Hint.
  destruct (intersect r target) as [ov|] eqn:Ei.
  - assert (∀ x y, covers ov x y = covers r x y && covers target x y) as Hov by (intros; by apply Hint).
    destruct (draw_overlay_view s f' target scaled ov t1) as (t2 & -> & Ht2 & Hv2); try done.
    { intros x y. rewrite Hov. by intros [_ ?]%andb_true_iff. }
    { by eapply intersect_in. }
    exists t2. split; [done|]. split; [done|]. intros x y Hx Hy. rewrite Hv2, Hov by done.
    fold picture. destruct (Hv x y Hx Hy) as (c & -> & ->).
    destruct (covers r x y), (covers target x y); done.
  - exists t1. split; [done|]. split; [done|]. intros x y Hx Hy. destruct (Hv x y Hx Hy) as (c & -> & ->).
    pose proof (proj2 (Hint r x y) eq_refl) as Hno. by destruct (covers r x y), (covers target x y).
Qed.

End Drawing.

(** ** Properties *)

Definition blank (width height : Z) : list byte := replicate (Z.to_nat (width * height * 4)) (to_u8 0).
Lemma blank_ok width height : 0 ≤ width → 0 ≤ height → canvas_ok width height (blank width height).
Proof. intros. unfold canvas_ok, blank. rewrite length_replicate. nia. Qed.

(** The whole drawing of a frame. *)
Definition picture (width height : Z) (f : option PresentationFrame) (authentication : bool) : list byte :=
  default [] (draw_opaque_cached width height f None authentication (blank width height)).

Section Properties.
Context (width height : Z) (Hw : 0 < width) (Hh : 0 < height) (Hsize : width * height * 4 < 2 ^ 32).

Lemma covers_full x y : 0 ≤ x < width → 0 ≤ y < height → covers (region_full width height) x y = true.
Proof using Type.
  intros. unfold covers, inside. cbn. rewrite !andb_true_iff, !Z.leb_le, !Z.ltb_lt. lia.
Qed.
Lemma full_in : region_in width height (region_full width height).
Proof using All. unfold region_in. cbn. lia. Qed.

Lemma draw_full f scaled a old : wf_shown f → scaled_for f width height scaled → canvas_ok width height old →
  ∃ out, draw_opaque_cached width height f scaled a old = Some out ∧ canvas_ok width height out
  ∧ ∀ x y, 0 ≤ x < width → 0 ≤ y < height → view width out x y = point f a width height x y.
Proof using All.
  intros Hf Hs Hold.
  destruct (draw_region_view width height Hw Hh Hsize f Hf scaled a (region_full width height) old) as (out & E & Hout & Hv);
    [done|apply full_in|done|].
  exists out. split; [done|]. split; [done|]. intros x y Hx Hy. by rewrite Hv, covers_full by done.
Qed.

Lemma picture_spec f a : wf_shown f →
  canvas_ok width height (picture width height f a)
  ∧ ∀ x y, 0 ≤ x < width → 0 ≤ y < height → view width (picture width height f a) x y = point f a width height x y.
Proof using All.
  intros Hf. destruct (draw_full f None a (blank width height) Hf I) as (out & E & ? & ?); [apply blank_ok; lia|].
  unfold picture. by rewrite E.
Qed.

(** Whatever was on the canvas, and with the overlay scaled before or not. *)
Lemma draw_picture f scaled a old : wf_shown f → scaled_for f width height scaled → canvas_ok width height old →
  draw_opaque_cached width height f scaled a old = Some (picture width height f a).
Proof using All.
  intros Hf Hs Hold. destruct (draw_full f scaled a old Hf Hs Hold) as (out & -> & Hout & Hv).
  destruct (picture_spec f a Hf) as [Hp Hpv]. f_equal. apply (canvas_ext width height); [done..|].
  intros x y Hx Hy. by rewrite Hv, Hpv.
Qed.

(** The same background and the same place for the overlay. *)
Definition alike (f f' : option PresentationFrame) : Prop :=
  background <$> f = background <$> f' ∧ frame_geometry f = frame_geometry f'.

Lemma alike_region f f' : alike f f' → overlay_region f width height = overlay_region f' width height.
Proof using Type.
  intros [_ E]. unfold overlay_region. destruct f as [f|], f' as [f'|]; try done. cbn in *.
  injection E as E1 E2 E3 E4 E5 E6. unfold overlay_geometry. by rewrite E1, E2, E3, E4, E5, E6.
Qed.

(** Off the overlay's place, alike frames are drawn alike. *)
Lemma point_alike f f' a x y : alike f f' →
  (∀ target, overlay_region f width height = Some target → covers target x y = false) →
  point f a width height x y = point f' a width height x y.
Proof using Type.
  intros Hl Hout. pose proof (alike_region f f' Hl) as Er. destruct Hl as [Eb _]. unfold point.
  assert (f ≫= background = f' ≫= background) as ->.
  { destruct f, f'; try done. cbn in *. by injection Eb. }
  destruct (backdrop _ _ _ _ _) as [c|]; [|done]. destruct a; [|done]. cbn [negb].
  destruct f as [f|], f' as [f'|]; try done. cbn [mbind option_bind].
  change (overlay_geometry f width height) with (overlay_region (Some f) width height).
  change (overlay_geometry f' width height) with (overlay_region (Some f') width height). rewrite <- Er.
  destruct (overlay_region (Some f) width height) as [target|]; [|done]. by rewrite (Hout target eq_refl).
Qed.

Lemma region_in_overlay f target : wf_shown f → overlay_region f width height = Some target → region_in width height target.
Proof using All.
  intros Hf E. destruct f as [f|]; [|done].
  destruct (geometry_inside width height Hw Hh (Some f) Hf f target eq_refl E) as (? & ? & ? & ? & ? & ?).
  unfold region_in. lia.
Qed.

(** Drawing an overlay's place over the drawing of a frame that is alike. *)
Lemma redraw_picture kind rendered current f f' scaled a :
  wf_shown f → wf_shown f' → scaled_for f' width height scaled → alike f f' →
  draw_opaque_region_cached width height f' scaled a (redraw_region kind rendered current f' width height)
    (picture width height f a)
  = Some (picture width height f' a).
Proof using All.
  intros Hf Hf' Hs Hl. destruct (picture_spec f a Hf) as [Hp Hpv]. destruct (picture_spec f' a Hf') as [Hp' Hpv'].
  set (r := redraw_region kind rendered current f' width height).
  assert (region_in width height r) as Hr.
  { unfold r, redraw_region. destruct (_ && _); [|apply full_in].
    destruct (overlay_region f' width height) eqn:E; [by eapply region_in_overlay|apply full_in]. }
  destruct (draw_region_view width height Hw Hh Hsize f' Hf' scaled a r (picture width height f a) Hs Hr Hp)
    as (out & -> & Hout & Hv).
  f_equal. apply (canvas_ext width height); [done..|]. intros x y Hx Hy. rewrite Hv, Hpv' by done.
  destruct (covers r x y) eqn:Ec; [done|]. rewrite Hpv by done. apply point_alike; [done|].
  intros target Et. rewrite (alike_region f f' Hl) in Et. unfold r, redraw_region in Ec. rewrite Et in Ec.
  destruct (_ && _); [done|]. by rewrite covers_full in Ec by done.
Qed.
End Properties.

(** C10.  The lock covers the screen.  Drawing a frame never panics, and every pixel
    of the canvas becomes opaque and depends on the frame alone: nothing of what
    was there before, of the session or of an earlier frame, is left.  Without
    the authentication role it depends on the background alone, so another
    output shows nothing of the conversation. *)
Theorem lock_covers width height f scaled authentication old :
  0 < width → 0 < height → width * height * 4 < 2 ^ 32 →
  wf_shown f → scaled_for f width height scaled → canvas_ok width height old →
  ∃ out, draw_opaque_cached width height f scaled authentication old = Some out
  ∧ canvas_ok width height out
  ∧ (∀ x y, 0 ≤ x < width → 0 ≤ y < height → ∃ b g r, view width out x y = [b; g; r; to_u8 255])
  ∧ (∀ old', canvas_ok width height old' →
       draw_opaque_cached width height f scaled authentication old' = Some out)
  ∧ (authentication = false → ∀ f', wf_shown f' → background <$> f' = background <$> f →
       draw_opaque_cached width height f' None false old = Some out).
Proof.
  intros Hw Hh Hsize Hf Hs Hold. exists (picture width height f authentication).
  destruct (picture_spec width height Hw Hh Hsize f authentication Hf) as [Hp Hv].
  split; [by apply draw_picture|]. split; [done|]. split; [|split].
  - intros x y Hx Hy. rewrite Hv by done. unfold point.
    destruct (backdrop_Some (f ≫= background) width height (shown_picture f Hf) Hw Hh) as (s & _ & Hb).
    destruct (Hb x y Hx Hy) as (_ & c & _ & _ & ->). unfold opaque, dimmed.
    destruct authentication, f as [f|]; cbn [negb mbind option_bind]; try by repeat eexists.
    destruct (overlay_geometry f width height) as [t|]; [|by repeat eexists].
    destruct (covers t x y); [|by repeat eexists]. destruct (foreground f t x y); by repeat eexists.
  - intros old' Hold'. by apply draw_picture.
  - intros -> f' Hf' Eb. rewrite draw_picture by done. f_equal.
    destruct (picture_spec width height Hw Hh Hsize f' false Hf') as [Hp' Hv'].
    apply (canvas_ext width height); [done..|]. intros x y Hx Hy. rewrite Hv, Hv' by done. unfold point. cbn [negb].
    assert (f' ≫= background = f ≫= background) as ->; [|done].
    destruct f, f'; try done. cbn in *. by injection Eb.
Qed.

(** A frame with a half transparent overlay of two pixels. *)
Definition small_frame (value : byte) : option PresentationFrame :=
  Some (mkFrame 4 2 None (mkRgba 2 1 (replicate 8 value)) 1 1).
Lemma small_shown value : wf_shown (small_frame value).
Proof. unfold wf_shown, wf_frame, wf_rgba. cbn. lia. Qed.

Lemma lock_covers_witness :
  ∃ out, draw_opaque_cached 8 4 (small_frame Byte.x80) None false (replicate 128 Byte.x55) = Some out
  ∧ draw_opaque_cached 8 4 (small_frame Byte.x80) None false (replicate 128 Byte.xaa) = Some out
  ∧ draw_opaque_cached 8 4 (small_frame Byte.x20) None false (replicate 128 Byte.x55) = Some out
  ∧ view 8 out 0 0 = [Byte.x18; Byte.x09; Byte.x05; Byte.xff].
Proof.
  destruct (lock_covers 8 4 (small_frame Byte.x80) None false (replicate 128 Byte.x55)) as (out & E & _ & _ & Hall & Hbg);
    [lia|lia|lia|apply small_shown|exact I|reflexivity|].
  exists out. split; [exact E|]. split; [apply Hall; reflexivity|]. split; [apply Hbg; [reflexivity|apply small_shown|reflexivity]|].
  vm_compute in E. injection E as <-. reflexivity.
Defined.

(** C12.  Drawing the overlay's place is enough: over the drawing of a frame with the
    same background and geometry, however the buffer was chosen, the drawing of
    the part makes exactly the drawing of the whole new frame. *)
Theorem partial_redraw width height kind rendered current f f' scaled authentication old :
  0 < width → 0 < height → width * height * 4 < 2 ^ 32 →
  wf_shown f → wf_shown f' → scaled_for f' width height scaled → alike f f' → canvas_ok width height old →
  (draw_opaque_cached width height f None authentication old ≫=
     draw_opaque_region_cached width height f' scaled authentication
       (redraw_region kind rendered current f' width height))
  = draw_opaque_cached width height f' None authentication old.
Proof.
  intros Hw Hh Hsize Hf Hf' Hs Hl Hold. rewrite !(draw_picture width height) by done.
  by apply redraw_picture.
Qed.

Lemma partial_redraw_witness :
  (draw_opaque_cached 8 4 (small_frame Byte.x80) None true (replicate 128 Byte.x55) ≫=
     draw_opaque_region_cached 8 4 (small_frame Byte.x20) None true
       (redraw_region KOverlay 7 7 (small_frame Byte.x20) 8 4))
  = draw_opaque_cached 8 4 (small_frame Byte.x20) None true (replicate 128 Byte.x55)
  ∧ redraw_region KOverlay 7 7 (small_frame Byte.x20) 8 4 = mkRegion 2 2 4 2
  ∧ draw_opaque_cached 8 4 (small_frame Byte.x80) None true (replicate 128 Byte.x55)
    ≠ draw_opaque_cached 8 4 (small_frame Byte.x20) None true (replicate 128 Byte.x55).
Proof.
  split; [|split; [reflexivity|vm_compute; discriminate]].
  apply (partial_redraw 8 4 KOverlay 7 7 (small_frame Byte.x80) (small_frame Byte.x20) None true (replicate 128 Byte.x55));
    [lia|lia|lia|apply small_shown|apply small_shown|exact I|split; reflexivity|reflexivity].
Defined.

(** The overlay's rectangle is never empty. *)
Lemma scaled_span_positive x len total fitted l r :
  0 ≤ x → 0 < len → 0 < total → 0 < fitted →
  try_u32 (x * fitted / total) = Some l → div_ceil_u128 ((x + len) * fitted) total = Some r → l < r.
Proof.
  intros Hx Hl Ht Hf Hl' Hr. unfold try_u32 in Hl'. destruct (_ <? _); [|done].
  injection Hl' as <-. apply div_ceil_u128_Some in Hr as (H0 & H1 & _); [|nia|done].
  apply Z.div_lt_upper_bound; [done|]. nia.
Qed.
Lemma overlay_geometry_positive f width height r : wf_frame f → 0 ≤ width → 0 ≤ height →
  overlay_geometry f width height = Some r → 0 < rwidth r ∧ 0 < rheight r.
Proof.
  intros (Hx & Hy & (Hfw & Hfh & _) & Hwf) Hw Hh H. unfold overlay_geometry in H.
  destruct (_ || _) eqn:E in H; [done|]. simp_bool. apply bind_Some in H as ([cw ch] & Hfit & H).
  assert (0 ≤ cw ∧ 0 ≤ ch) as [Hcw Hch].
  { unfold try_u32 in Hfit. destruct (_ <=? _); destruct (_ <? _); try done; cbn in Hfit; injection Hfit as <- <-;
      (split; [try lia|try lia]); apply Z.div_pos; nia. }
  clear Hfit. destruct (_ || _) eqn:E' in H; [done|]. simp_bool.
  apply bind_Some in H as (l & Hl & H). apply bind_Some in H as (t & Ht & H).
  apply bind_Some in H as (r' & Hr & H). apply bind_Some in H as (b & Hb & H). injection H as <-. cbn.
  eapply scaled_span_positive in Hl; [|..|exact Hr]; [|lia..].
  eapply scaled_span_positive in Ht; [|..|exact Hb]; [|lia..]. unfold saturating_sub. lia.
Qed.

(** The cache of a surface: what it holds was scaled from what it says. *)
Definition cache_ok (c : CachedOverlay) : Prop :=
  scale_overlay (cached_source c) (fst (cached_size c)) (snd (cached_size c)) = Some (cached c).

Lemma scaled_overlay_scales shared width height a cache f :
  0 < width → 0 < height → width * height * 4 < 2 ^ 32 → wf_shown f →
  (∀ g g', shared g g' = true → pixels g = pixels g') → from_option cache_ok True cache →
  ∃ cache' scaled, scaled_overlay shared a cache f width height = Some (cache', scaled)
  ∧ from_option cache_ok True cache' ∧ scaled_for f width height scaled.
Proof.
  intros Hw Hh Hsize Hf Hsh Hc. unfold scaled_overlay. destruct a; cbn [negb]; [|by eexists _, _].
  destruct f as [f|]; [|by eexists _, _]. destruct (overlay_geometry f width height) as [t|] eqn:Eg; [|by eexists _, _].
  set (size := (rwidth t, rheight t)).
  assert (∃ g, scale_overlay (overlay f) (rwidth t) (rheight t) = Some g) as [g Eg'].
  { destruct Hf as [Hwf _]. destruct (overlay_geometry_inside f width height t Hwf) as (? & ? & ? & ? & ? & ?); [lia..|done|].
    destruct (overlay_geometry_positive f width height t Hwf) as [? ?]; [lia..|done|].
    destruct (scale_overlay_spec (overlay f) (proj1 (proj2 (proj2 Hwf))) (rwidth t) (rheight t)) as (g & ? & _);
      [lia|lia|nia|by exists g]. }
  destruct cache as [c|].
  - destruct (cache_matches shared c (overlay f) size) eqn:Em; cbn [negb].
    + cbn [mbind option_bind]. eexists _, _. split; [done|]. split; [done|]. exists f, t. split; [done|]. split; [done|].
      unfold cache_matches in Em. rewrite !andb_true_iff, !bool_decide_eq_true in Em. destruct Em as [[[E1 E2] _] E3%Hsh].
      cbn in Hc. unfold cache_ok in Hc. rewrite E1 in Hc. cbn in Hc. rewrite <- Hc. f_equal.
      destruct (overlay f), (cached_source c). cbn in *. by simplify_eq.
    + rewrite Eg'. cbn [mbind option_bind]. eexists _, _. split; [done|]. split; [done|]. by exists f, t.
  - rewrite Eg'. cbn [mbind option_bind]. eexists _, _. split; [done|]. split; [done|]. by exists f, t.
Qed.

(** C13.  The cache of the scaled overlay is transparent.  From a cache that holds
    what it says, whatever frame it was filled for, the drawing of any part of
    the canvas finds a scaled overlay without a panic, leaves such a cache, and
    draws exactly what a drawing without a cache does. *)
Theorem cache_transparent shared width height a cache f r old :
  0 < width → 0 < height → width * height * 4 < 2 ^ 32 → wf_shown f →
  (∀ g g', shared g g' = true → pixels g = pixels g') → from_option cache_ok True cache →
  region_in width height r → canvas_ok width height old →
  ∃ cache' scaled, scaled_overlay shared a cache f width height = Some (cache', scaled)
  ∧ from_option cache_ok True cache'
  ∧ draw_opaque_region_cached width height f scaled a r old
    = draw_opaque_region_cached width height f None a r old.
Proof.
  intros Hw Hh Hsize Hf Hsh Hc Hr Hold.
  destruct (scaled_overlay_scales shared width height a cache f) as (cache' & scaled & E & Hc' & Hs); [done..|].
  exists cache', scaled. split; [done|]. split; [done|].
  destruct (draw_region_view width height Hw Hh Hsize f Hf scaled a r old Hs Hr Hold) as (out & -> & Hout & Hv).
  destruct (draw_region_view width height Hw Hh Hsize f Hf None a r old I Hr Hold) as (out' & -> & Hout' & Hv').
  f_equal. apply (canvas_ext width height); [done..|]. intros x y Hx Hy. by rewrite Hv, Hv'.
Qed.

Lemma cache_transparent_witness :
  let shared (g g' : RgbaFrame) := bool_decide (pixels g = pixels g') in
  ∃ cache scaled, scaled_overlay shared true None (small_frame Byte.x80) 8 4 = Some (cache, scaled)
  ∧ (fwidth <$> scaled) = Some 4 ∧ from_option cache_ok True cache
  ∧ draw_opaque_region_cached 8 4 (small_frame Byte.x80) scaled true (mkRegion 1 1 4 3) (replicate 128 Byte.x55)
    = draw_opaque_region_cached 8 4 (small_frame Byte.x80) None true (mkRegion 1 1 4 3) (replicate 128 Byte.x55).
Proof.
  intros shared.
  destruct (cache_transparent shared 8 4 true None (small_frame Byte.x80) (mkRegion 1 1 4 3) (replicate 128 Byte.x55))
    as (cache & scaled & E & Hc & Hd);
    [lia|lia|lia|apply small_shown|intros g g' H; exact (bool_decide_eq_true_1 _ H)|exact I|unfold region_in; cbn; lia|reflexivity|].
  exists cache, scaled. split; [exact E|]. split; [|split; [exact Hc|exact Hd]].
  vm_compute in E. injection E as <- <-. reflexivity.
Defined.
