(* ===== verification/LockPixels.v ===== *)
(** * What the lock shows

    Proofs about [LockRuntime] with the pixels of [LockDraw]: in every run, a
    buffer that is committed to the compositor holds exactly the drawing of the
    frame that the presentation has at that moment, for the role that the surface
    has, however its earlier contents were reused. *)

From S2P Require Import Prelude Utf8 LockerDraw SessionLock LockRuntime LockDraw LockDrawProofs LockExit.
From S2P Require LockHandover.
Import LockHandover (role_changes, is_role, role_changes_emit).

(** The presentation says what has changed: nothing, or not the background. *)
Definition same_background (f f' : option PresentationFrame) : Prop := background <$> f = background <$> f'.
Definition tells (r : Refresh) (f f' : option PresentationFrame) : Prop :=
  match r with
  | Unchanged => f' = f
  | ROverlay => same_background f f'
  | RFrame | RFailed => True
  end.

Record truthful {P} `{!Presentation P} (I : P → Prop) : Prop := {
  tells_wf p : I p → wf_shown (frame p);
  tells_latest p : I p → tells (snd (receive_latest p)) (frame p) (frame (fst (receive_latest p)));
  tells_deferred p : I p → tells (snd (receive_deferred p)) (frame p) (frame (fst (receive_deferred p)));
  tells_input i p : I p →
    tells (if snd (give_input i p) then ROverlay else Unchanged) (frame p) (frame (fst (give_input i p)));
  tells_authorization p : I p → frame (fst (take_authorization p)) = frame p;
}.

Definition size_ok (size : Z * Z) : Prop :=
  0 < fst size ∧ 0 < snd size ∧ fst size * snd size * 4 < 2 ^ 32.

Section Calls.
(** The scaled overlay that a drawing finds in the cache of its surface. *)
Context (scaled : Z * Z → DrawCall → option RgbaFrame).
Hypothesis Hscaled : ∀ size c, scaled_for (d_frame c) (fst size) (snd size) (scaled size c).

Definition run_call (size : Z * Z) (c : DrawCall) : list byte → option (list byte) :=
  draw_opaque_region_cached (fst size) (snd size) (d_frame c) (scaled size c) (d_authentication c) (d_region c).
Definition run_calls (size : Z * Z) (calls : list DrawCall) : list byte → option (list byte) :=
  for_each (run_call size) calls.

(** Whatever memory the buffer was allocated in. *)
Definition shows (size : Z * Z) (calls : list DrawCall) (f : option PresentationFrame) (a : bool) : Prop :=
  ∀ old, canvas_ok (fst size) (snd size) old →
    run_calls size calls old = Some (picture (fst size) (snd size) f a).

Definition commit_ok (c : Commit) : Prop :=
  size_ok (c_size c) ∧ shows (c_size c) (c_calls c) (c_frame c) (c_authentication c).

Lemma run_calls_snoc size calls c old :
  run_calls size (calls ++ [c]) old = run_calls size calls old ≫= run_call size c.
Proof using Type.
  unfold run_calls. revert old. induction calls as [|c' calls IH]; intros old; cbn [for_each app].
  - cbn. by destruct (run_call size c old).
  - destruct (run_call size c' old) as [t|]; cbn [mbind option_bind]; [apply IH|done].
Qed.

(** A drawing of everything replaces what was there... *)
Lemma shows_full size calls f f' a a' : size_ok size → wf_shown f → wf_shown f' → shows size calls f a →
  shows size (calls ++ [mkDraw f' a' (region_full (fst size) (snd size))]) f' a'.
Proof using Hscaled.
  intros (Hw & Hh & Hs) Hf Hf' H old Hold. rewrite run_calls_snoc, H by done. cbn [mbind option_bind].
  apply (draw_picture (fst size) (snd size) Hw Hh Hs f'); [done|apply Hscaled|].
  by destruct (picture_spec (fst size) (snd size) Hw Hh Hs f a Hf).
Qed.
Lemma shows_new size f a : size_ok size → wf_shown f →
  shows size [mkDraw f a (region_full (fst size) (snd size))] f a.
Proof using Hscaled.
  intros (Hw & Hh & Hs) Hf old Hold. unfold run_calls. cbn [for_each].
  assert (run_call size (mkDraw f a (region_full (fst size) (snd size))) old
    = Some (picture (fst size) (snd size) f a)) as ->; [|done].
  apply (draw_picture (fst size) (snd size) Hw Hh Hs f); [done|apply Hscaled|done].
Qed.
(** ... and a drawing of the overlay's place is enough over one that is alike. *)
Lemma shows_partial size calls f f' a kind rendered current : size_ok size → wf_shown f → wf_shown f' →
  alike f f' → shows size calls f a →
  shows size (calls ++ [mkDraw f' a (redraw_region kind rendered current f' (fst size) (snd size))]) f' a.
Proof using Hscaled.
  intros (Hw & Hh & Hs) Hf Hf' Hl H old Hold. rewrite run_calls_snoc, H by done. cbn [mbind option_bind].
  apply (redraw_picture (fst size) (snd size) Hw Hh Hs kind rendered current f f'); [done..|apply Hscaled|done].
Qed.

(** ** The invariant *)

Section Runs.
Context {P : Type} `{!Presentation P} (I : P → Prop) (HI : preserved I) (Htell : truthful I).
Implicit Types rt : Runtime P.

Definition is_commit (e : Effect) : bool := match e with ECommit _ _ _ => true | _ => false end.
Definition commits rt : list Effect := List.filter is_commit (trace rt).
(** It shows the frame of a presentation that there can be. *)
Definition commit_good (c : Commit) : Prop := commit_ok c ∧ ∃ p, I p ∧ c_frame c = frame p.
Definition commits_ok rt : Prop :=
  Forall (λ e, match e with ECommit _ _ c => commit_good c | _ => True end) (commits rt).

(** What a buffer holds: a frame, drawn for the surface's role if it is of its
    role's generation, and alike the present one if it is of its background's. *)
Definition buffer_ok (background : Z) (now : option PresentationFrame) (s : Surface) (b : SurfaceBuffer) : Prop :=
  size_ok (b_size b) ∧ b_role_generation b ≤ s_role_generation s ∧ b_background_generation b ≤ background
  ∧ ∃ f a, wf_shown f ∧ shows (b_size b) (b_calls b) f a
    ∧ (b_role_generation b = s_role_generation s → a = s_authentication s)
    ∧ (b_background_generation b = background → alike f now).

Definition role_ok rt (s : Surface) : Prop := 0 ≤ s_role_generation s ≤ role_changes rt.

(** [k] bounds how often the background has changed. *)
Record stable (k : Z) rt : Prop := {
  st_keeps : I (presentation rt);
  st_geometry : presentation_geometry rt = frame_geometry (frame (presentation rt));
  st_background : 0 ≤ background_generation rt ≤ k;
  st_roles : Forall (role_ok rt) (surfaces rt);
  st_buffers : Forall (λ s, Forall (buffer_ok (background_generation rt) (frame (presentation rt)) s) (s_buffers s))
    (surfaces rt);
}.

(** ** Steps that leave the pictures alone *)

Definition same_contents (b b' : SurfaceBuffer) : Prop :=
  b_size b' = b_size b ∧ b_role_generation b' = b_role_generation b
  ∧ b_background_generation b' = b_background_generation b ∧ b_calls b' = b_calls b.

(** Where a surface comes from: it is new, or has the buffers of an old one, in
    the same role or one that began after they were drawn. *)
Definition from_surface (s s' : Surface) : Prop :=
  (∀ b', b' ∈ s_buffers s' → ∃ b, b ∈ s_buffers s ∧ same_contents b b')
  ∧ ((s_role_generation s' = s_role_generation s ∧ s_authentication s' = s_authentication s)
     ∨ s_role_generation s < s_role_generation s').
Definition origin (l : list Surface) (s' : Surface) : Prop :=
  s_buffers s' = [] ∨ ∃ s, s ∈ l ∧ from_surface s s'.

Record calm rt rt' : Prop := {
  calm_presentation : presentation rt' = presentation rt;
  calm_geometry : presentation_geometry rt' = presentation_geometry rt;
  calm_background : background_generation rt' = background_generation rt;
  calm_terminate : terminate rt = true → terminate rt' = true;
  calm_commits : commits rt' = commits rt;
  calm_roles : role_changes rt ≤ role_changes rt';
  calm_surfaces : role_changes rt' < 2 ^ 64 → Forall (role_ok rt) (surfaces rt) →
    Forall (λ s', role_ok rt' s' ∧ origin (surfaces rt) s') (surfaces rt');
}.

Lemma same_contents_refl b : same_contents b b.
Proof using Type. done. Qed.
Lemma from_surface_refl s : from_surface s s.
Proof using Type. split; [|by left]. intros b Hb. by exists b. Qed.
Lemma from_surface_trans s1 s2 s3 : from_surface s1 s2 → from_surface s2 s3 → from_surface s1 s3.
Proof using Type.
  intros [Hb1 Hr1] [Hb2 Hr2]. split.
  - intros b (b2 & (b1 & H1 & E1)%Hb1 & E2)%Hb2. exists b1. split; [done|]. unfold same_contents in *.
    destruct E1 as (E1 & E2' & E3 & E4), E2 as (E5 & E6 & E7 & E8). split_and!; congruence.
  - destruct Hr1 as [[E1 E2]|?], Hr2 as [[E3 E4]|?]; [left; split; congruence|right; lia..].
Qed.

#[local] Instance calm_preorder : PreOrder calm.
Proof using Type.
  split.
  - intros rt. constructor; try done. intros _ H. eapply Forall_impl; [|intros s Hs; exact Hs].
    rewrite Forall_forall in *. intros s Hs. split; [by apply H|]. right. exists s. split; [done|apply from_surface_refl].
  - intros rt1 rt2 rt3 [] []. constructor; try congruence; try lia; [auto|].
    intros Hlt Hr. assert (role_changes rt2 < 2 ^ 64) as Hlt2 by lia.
    specialize (calm_surfaces0 Hlt2 Hr). rewrite Forall_forall in calm_surfaces0.
    assert (Forall (role_ok rt2) (surfaces rt2)) as Hr2 by (apply Forall_forall; intros s Hs; by apply calm_surfaces0).
    specialize (calm_surfaces1 Hlt Hr2). eapply Forall_impl; [exact calm_surfaces1|]. intros s3 [H3 [E|(s2 & Hs2 & H23)]].
    { split; [done|by left]. }
    split; [done|]. destruct (calm_surfaces0 s2 Hs2) as [_ [E|(s1 & Hs1 & H12)]].
    + left. destruct (s_buffers s3) as [|b l] eqn:Eb; [done|]. destruct H23 as [H23 _].
      destruct (H23 b) as (b2 & Hb2 & _); [rewrite Eb; apply list_elem_of_here|]. rewrite E in Hb2. by apply elem_of_nil in Hb2.
    + right. exists s1. split; [done|]. by eapply from_surface_trans.
Qed.

Lemma stable_calm k rt rt' : stable k rt → calm rt rt' → role_changes rt' < 2 ^ 64 → stable k rt'.
Proof using Type.
  intros [] [] Hlt. specialize (calm_surfaces0 Hlt st_roles0).
  constructor; rewrite ?calm_presentation0, ?calm_geometry0, ?calm_background0; try done.
  - eapply Forall_impl; [exact calm_surfaces0|]. by intros s [H _].
  - rewrite Forall_forall in *. intros s' Hs'. apply Forall_forall. intros b' Hb'.
    destruct (calm_surfaces0 s' Hs') as [_ [E|(s & Hs & [Hb Hr])]]; [rewrite E in Hb'; by apply elem_of_nil in Hb'|].
    destruct (Hb b' Hb') as (b & Hin & E1 & E2 & E3 & E4). specialize (st_buffers0 s Hs). rewrite Forall_forall in st_buffers0.
    destruct (st_buffers0 b Hin) as (H1 & H2 & H3 & f & a & H4 & H5 & H6 & H7).
    unfold buffer_ok. rewrite E1, E2, E3, E4. split; [done|]. split; [destruct Hr as [[-> _]|?]; lia|]. split; [done|].
    exists f, a. split; [done|]. split; [done|]. split; [|done]. intros Er.
    destruct Hr as [[Er' Ea]|?]; [|lia]. rewrite Ea. apply H6. lia.
Qed.

(** *** Calm steps *)

(** The surfaces keep their roles, and nothing else that matters changes. *)
Lemma calm_same rt rt' :
  presentation rt' = presentation rt → presentation_geometry rt' = presentation_geometry rt →
  background_generation rt' = background_generation rt → (terminate rt = true → terminate rt' = true) →
  commits rt' = commits rt → role_changes rt' = role_changes rt →
  (∀ s', s' ∈ surfaces rt' → (s_role_generation s' = 0 ∧ s_buffers s' = [])
     ∨ ∃ s, s ∈ surfaces rt ∧ s_role_generation s' = s_role_generation s ∧ s_authentication s' = s_authentication s
         ∧ ∀ b', b' ∈ s_buffers s' → ∃ b, b ∈ s_buffers s ∧ same_contents b b') →
  calm rt rt'.
Proof using Type.
  intros ? ? ? ? ? Er H. constructor; try done; [lia|]. intros _ Hr. rewrite Forall_forall in *.
  intros s' Hs'. unfold role_ok. rewrite Er. destruct (H s' Hs') as [[E0 E]|(s & Hs & E1 & E2 & Hb)].
  - split; [|by left]. rewrite E0. split; [done|]. apply Zle_0_nat.
  - rewrite E1. split; [by apply Hr|]. right. exists s. split; [done|]. split; [done|]. by left.
Qed.

Definition keeps (s s' : Surface) : Prop :=
  s_role_generation s' = s_role_generation s ∧ s_authentication s' = s_authentication s
  ∧ ∀ b', b' ∈ s_buffers s' → ∃ b, b ∈ s_buffers s ∧ same_contents b b'.
Lemma keeps_buffers s s' : s_role_generation s' = s_role_generation s → s_authentication s' = s_authentication s →
  s_buffers s' = s_buffers s → keeps s s'.
Proof using Type. intros E1 E2 E3. split; [done|]. split; [done|]. rewrite E3. intros b Hb. by exists b. Qed.
Lemma keeps_refl s : keeps s s.
Proof using Type. by apply keeps_buffers. Qed.

Lemma calm_set_surfaces l rt :
  (∀ s', s' ∈ l → (s_role_generation s' = 0 ∧ s_buffers s' = []) ∨ ∃ s, s ∈ surfaces rt ∧ keeps s s') →
  calm rt (set_surfaces l rt).
Proof using Type. intros H. by apply calm_same. Qed.

Lemma calm_upd i f rt : (∀ s, keeps s (f s)) → calm rt (upd_surface i f rt).
Proof using Type.
  intros H. apply calm_set_surfaces. intros s' [Hs|(s & Hs & ->)]%LockHandover.elem_of_alter; right.
  - exists s'. split; [done|apply keeps_refl].
  - by exists s.
Qed.
Lemma calm_map f rt : (∀ s, keeps s (f s)) → calm rt (set_surfaces (f <$> surfaces rt) rt).
Proof using Type.
  intros H. apply calm_set_surfaces. intros s' (s & -> & Hs)%list_elem_of_fmap. right. by exists s.
Qed.
Lemma calm_filter p rt : calm rt (set_surfaces (List.filter p (surfaces rt)) rt).
Proof using Type.
  apply calm_set_surfaces. intros s' [Hs _]%list_elem_of_In%List.filter_In. right. exists s'.
  split; [by apply list_elem_of_In|apply keeps_refl].
Qed.

(** Only what the pictures do not depend on is different. *)
Lemma calm_rest rt rt' :
  surfaces rt' = surfaces rt → presentation rt' = presentation rt →
  presentation_geometry rt' = presentation_geometry rt → background_generation rt' = background_generation rt →
  (terminate rt = true → terminate rt' = true) → commits rt' = commits rt → role_changes rt' = role_changes rt →
  calm rt rt'.
Proof using Type.
  intros Es ? ? ? ? ? ?. apply calm_same; try done. intros s Hs. right. exists s. rewrite Es in Hs.
  split; [done|]. split; [done|]. split; [done|]. intros b Hb. by exists b.
Qed.

Lemma commits_emit e rt : commits (emit e rt) = commits rt ++ (if is_commit e then [e] else []).
Proof using Type. unfold commits. cbn. rewrite List.filter_app. cbn. by destruct (is_commit e). Qed.

Lemma calm_emit e rt : is_commit e = false → is_role e = false → calm rt (emit e rt).
Proof using Type.
  intros Hc Hr. apply calm_rest; try done.
  - by rewrite commits_emit, Hc, app_nil_r.
  - rewrite role_changes_emit, Hr. lia.
Qed.

Lemma calm_fail e rt : calm rt (fail e rt).
Proof using Type. by apply calm_rest. Qed.
Lemma calm_fail_on rt r : calm rt (fst r) → calm rt (fail_on r).
Proof using Type. destruct r as [rt' [u|e]]; cbn; intros H; [done|]. etrans; [exact H|apply calm_fail]. Qed.

(** A change of role. *)
Lemma calm_role i a f rt : (∀ s, s_role_generation (f s) = wrapping_add 64 (s_role_generation s) 1) →
  (∀ s, s_buffers (f s) = s_buffers s) →
  ∀ o, calm rt (emit (ERole o a) (upd_surface i f rt)).
Proof using Type.
  intros Hf Hb o. assert (role_changes (emit (ERole o a) (upd_surface i f rt)) = role_changes rt + 1) as Er.
  { rewrite role_changes_emit. done. }
  constructor; try done.
  - by rewrite commits_emit, app_nil_r.
  - lia.
  - intros Hlt Hok. unfold role_ok. rewrite Er in Hlt |- *. rewrite Forall_forall in *.
    intros s' [Hs|(s & Hs & ->)]%LockHandover.elem_of_alter.
    + destruct (Hok s' Hs). split; [lia|]. right. exists s'. split; [done|apply from_surface_refl].
    + destruct (Hok s Hs) as [H0 Hle]. assert (s_role_generation (f s) = s_role_generation s + 1) as E.
      { rewrite Hf. apply Z.mod_small. lia. }
      rewrite E. split; [lia|]. right. exists s. split; [done|]. split; [|right; lia].
      rewrite Hb. intros b Hin. by exists b.
Qed.

Lemma calm_set_authentication i a rt : calm rt (set_authentication i a rt).
Proof using Type.
  unfold set_authentication. destruct (surfaces rt !! i) as [s|]; [|done]. case_bool_decide; [done|].
  apply calm_role; intros t; by case_bool_decide.
Qed.

Lemma calm_retirement o r fb rt : calm rt (set_retirement o r fb rt).
Proof using Type. by apply calm_rest. Qed.

Lemma calm_refresh_output now rt : calm rt (refresh_authentication_output now rt).
Proof using Type.
  unfold refresh_authentication_output. case_bool_decide; [done|]. case_bool_decide; [done|].
  destruct (position _ _); [etrans; [apply calm_retirement|apply calm_set_authentication]|].
  destruct (select_authentication_index _ _); [apply calm_set_authentication|done].
Qed.

Lemma calm_expire now rt : calm rt (expire_authentication_retirement now rt).
Proof using Type.
  unfold expire_authentication_retirement. destruct (authentication_retirement rt); [|done].
  destruct (expired _ _); [|done]. etrans; [apply (calm_retirement None None None)|].
  destruct (_ ≫= _); [apply calm_set_authentication|apply calm_refresh_output].
Qed.

Lemma keeps_redraw f s : keeps s (with_redraw f s).
Proof using Type. by apply keeps_buffers. Qed.

Lemma calm_redraw_media rt : calm rt (redraw_media rt).
Proof using Type.
  unfold redraw_media. destruct (terminate rt); [done|]. apply calm_map. intros s.
  destruct (configured s); [apply keeps_redraw|apply keeps_refl].
Qed.
Lemma calm_redraw_all kind rt : calm rt (redraw_all_surfaces kind rt).
Proof using Type. apply calm_map. intros s. destruct (_ && _); [apply keeps_redraw|apply keeps_refl]. Qed.

Lemma calm_drain_ready ok fds rt : calm rt (fst (drain_ready ok fds rt)).
Proof using Type.
  revert rt. induction fds as [|fd fds IH]; intros rt; cbn [drain_ready]; [by apply calm_rest|].
  destruct (ok fd); [|by apply calm_rest]. etrans; [by apply (calm_emit (EReady fd))|apply IH].
Qed.

Lemma calm_add_surface o n wl now rt : calm rt (fst (add_surface o n wl now rt)).
Proof using Type.
  unfold add_surface. destruct (existsb _ _); [done|]. destruct (session_lock rt); [|done]. cbn [negb fst].
  etrans; [|apply calm_refresh_output]. apply calm_set_surfaces.
  intros s' [Hs| ->%list_elem_of_singleton]%elem_of_app; [right|by left].
  exists s'. split; [done|apply keeps_refl].
Qed.
Lemma calm_add_surfaces l now rt : calm rt (fst (add_surfaces l now rt)).
Proof using Type.
  revert rt. induction l as [|[[o n] wl] l IH]; intros rt; cbn [add_surfaces]; [done|].
  pose proof (calm_add_surface o n wl now rt) as H.
  destruct (add_surface o n wl now rt) as [rt' [u|e]]; [|done]. etrans; [exact H|apply IH].
Qed.
Lemma calm_reconcile env rt : calm rt (fst (reconcile_outputs env rt)).
Proof using Type. unfold reconcile_outputs. destruct (terminate rt); [done|apply calm_add_surfaces]. Qed.

Lemma calm_rename o n rt : calm rt (set_surfaces (rename_output o n (surfaces rt)) rt).
Proof using Type.
  unfold rename_output. destruct (position _ _) as [i|].
  - apply (calm_upd i (with_name n)). intros s. by apply keeps_buffers.
  - apply calm_set_surfaces. intros s Hs. right. exists s. split; [done|apply keeps_refl].
Qed.

Lemma keeps_geometry size scale s : keeps s (with_geometry size scale s).
Proof using Type. by apply keeps_buffers. Qed.

Lemma keeps_retain size s : keeps s (retain_buffers size s).
Proof using Type.
  split; [done|]. split; [done|]. intros b [Hb _]%list_elem_of_In%List.filter_In.
  exists b. by rewrite list_elem_of_In.
Qed.

Lemma calm_scan {A} (f : Surface → A) rt : calm rt (set_surfaces (fst (scan_surfaces f (surfaces rt))) rt).
Proof using Type.
  apply calm_set_surfaces. generalize (surfaces rt). intros l.
  assert (Forall2 keeps l (fst (scan_surfaces f l))) as H.
  { assert (∀ k, Forall2 keeps k k) as Hrefl by (induction k; constructor; [apply keeps_refl|done]).
    induction l as [|s l IH]; cbn [scan_surfaces]; [constructor|].
    destruct (configured_size s) as [[size|e]|]; [|by constructor; [apply keeps_refl|]|];
      destruct (scan_surfaces f l) as [l' r]; cbn in *; constructor; (done || apply keeps_retain || apply keeps_refl). }
  intros s' Hs'. right. destruct (LockHandover.Forall2_elem_r _ _ _ s' H Hs') as (s & ? & ?). by exists s.
Qed.

(** ** Rendering *)

(** A step that keeps the invariant as it is. *)
Definition renders (k : Z) rt rt' : Prop :=
  role_changes rt ≤ role_changes rt' ∧ (terminate rt = true → terminate rt' = true)
  ∧ (role_changes rt' < 2 ^ 64 → stable k rt → commits_ok rt → stable k rt' ∧ commits_ok rt').
#[local] Instance renders_preorder k : PreOrder (renders k).
Proof using Type.
  split; [by intros rt|]. intros rt1 rt2 rt3 (A1 & A2 & A3) (B1 & B2 & B3). split; [lia|]. split; [auto|].
  intros Hlt H1 H2. destruct A3; [lia|done|done|]. by apply B3.
Qed.
Lemma calm_renders k rt rt' : calm rt rt' → renders k rt rt'.
Proof using Type.
  intros H. split; [apply H|]. split; [apply H|]. intros Hlt Hs Hc. split; [by eapply stable_calm|].
  unfold commits_ok. by rewrite (calm_commits _ _ H).
Qed.

Lemma buffer_sizes w h scale bw bh bytes :
  ('(bw, bh) ← buffer_size w h scale; bytes ← surface_bytes bw bh; Ok (bw, bh, bytes)) = Ok (bw, bh, bytes) →
  size_ok (bw, bh).
Proof using Type.
  intros ([w' h'] & Hb & H)%bind_Ok. apply bind_Ok in H as (bytes' & Hs & H). injection H as -> -> ->.
  unfold buffer_size in Hb. destruct (checked_mul 32 w scale) as [w1|] eqn:Ew; [|done].
  destruct (checked_mul 32 h scale) as [h1|] eqn:Eh; [|done].
  destruct (_ || _) eqn:E in Hb; [done|]. destruct (_ || _) in Hb; [done|]. injection Hb as -> ->. simp_bool.
  apply checked_mul_Some in Ew, Eh. unfold surface_bytes in Hs.
  destruct (checked_mul 32 bw bh) as [px|] eqn:Ep; [|done]. apply checked_mul_Some in Ep as [-> ?].
  destruct (_ <=? _); [|done]. destruct (checked_mul 64 _ 4) as [by_|] eqn:Eb; [|done].
  apply checked_mul_Some in Eb as [-> ?]. destruct (Z.ltb_spec MAX_BUFFER_BYTES (bw * bh * 4)) as [|Hle]; [done|].
  unfold size_ok, MAX_BUFFER_BYTES in *. cbn. lia.
Qed.

Lemma released_lookup s i g : (i, g) ∈ released_buffers s → is_Some (s_buffers s !! i).
Proof using Type.
  unfold released_buffers. intros (x & Hx & ->)%list_elem_of_omap.
  apply elem_of_lookup_imap in Hx as (j & b & E & Hb). destruct (b_released b); [|done]. injection E as -> _. by exists b.
Qed.
Lemma selected_lookup requested bg s i :
  select_reusable_buffer requested bg (released_buffers s) = Some i → is_Some (s_buffers s !! i).
Proof using Type.
  assert (∀ o, (o : option (nat * Z)) = head (released_buffers s) → fst <$> o = Some i → is_Some (s_buffers s !! i)) as Hhead.
  { intros o -> H. destruct (released_buffers s) as [|[j g] l] eqn:E; [done|]. injection H as ->.
    eapply released_lookup. rewrite E. apply list_elem_of_here. }
  unfold select_reusable_buffer. case_bool_decide; [|by apply Hhead]. unfold OutputSelection.or_else.
  destruct (List.find _ _) as [[j g]|] eqn:E; [|by apply Hhead]. intros [= ->].
  apply List.find_some in E as [E _]. eapply released_lookup. by apply list_elem_of_In.
Qed.

(** The drawn buffer shows the present frame for the present role. *)
Definition drawn (f : option PresentationFrame) (s : Surface) (bi : nat) : Prop :=
  ∃ b, s_buffers s !! bi = Some b ∧ size_ok (b_size b) ∧ shows (b_size b) (b_calls b) f (s_authentication s).

Lemma redraw_buffer_ok size requested bg now s b : wf_shown now → b_size b = size →
  b_role_generation b = s_role_generation s → buffer_ok bg now s b →
  let b' := redraw_buffer size requested bg now (s_authentication s) b in
  buffer_ok bg now s b' ∧ shows (b_size b') (b_calls b') now (s_authentication s).
Proof using Hscaled.
  intros Hwf <- Hr (Hsz & _ & Hbg & f & a & Hf & Hsh & Ha & Hl). specialize (Ha Hr). subst a.
  destruct (b_size b) as [w h] eqn:Es. unfold redraw_buffer. destruct (_ || _) eqn:E.
  - assert (shows (w, h) (b_calls b ++ [mkDraw now (s_authentication s) (region_full w h)]) now (s_authentication s)) as Hdrawn
      by (by eapply (shows_full (w, h) _ f now)).
    cbn zeta. unfold buffer_ok. cbn. rewrite Es. split; [|done]. split; [done|]. split; [lia|]. split; [lia|].
    by exists now, (s_authentication s).
  - simp_bool. specialize (Hl ltac:(done)).
    assert (shows (w, h) (b_calls b ++ [mkDraw now (s_authentication s)
      (redraw_region requested (b_background_generation b) bg now w h)]) now (s_authentication s)) as Hdrawn
      by (by apply (shows_partial (w, h) (b_calls b) f now)).
    cbn zeta. unfold buffer_ok. cbn. rewrite Es. split; [|done]. split; [done|]. split; [lia|]. split; [lia|].
    by exists now, (s_authentication s).
Qed.

Lemma draw_ok size bytes bg now ok s s' bi : wf_shown now → size_ok size →
  Forall (λ b, b_size b = size ∧ b_role_generation b = s_role_generation s ∧ buffer_ok bg now s b) (s_buffers s) →
  draw size bytes bg now ok s = Ok (Some (s', bi)) →
  s_role_generation s' = s_role_generation s ∧ s_authentication s' = s_authentication s
  ∧ Forall (buffer_ok bg now s') (s_buffers s') ∧ drawn now s' bi.
Proof using Hscaled.
  intros Hwf Hsz Hok H. unfold draw in H. destruct (select_reusable_buffer _ _ _) as [i|] eqn:Es.
  - injection H as <- <-. apply selected_lookup in Es as [b Eb]. split; [done|]. split; [done|].
    rewrite Forall_forall in Hok. destruct (Hok b) as (E1 & E2 & E3); [by eapply list_elem_of_lookup_2|].
    destruct (redraw_buffer_ok size (default KFull (redraw_pending (s_redraw s))) bg now s b Hwf E1 E2 E3) as [Hb Hsh].
    split.
    + apply Forall_forall. cbn. intros b' Hb'. apply list_elem_of_lookup in Hb' as [j Hj].
      rewrite list_lookup_alter in Hj. case_decide as Ej.
      * subst j. rewrite Eb in Hj. injection Hj as <-. exact Hb.
      * apply (Hok b'). by eapply list_elem_of_lookup_2.
    + eexists. cbn. rewrite list_lookup_alter, decide_True, Eb by done. cbn. split; [done|]. split; [apply Hb|exact Hsh].
  - destruct (_ <=? _)%nat; [done|]. inv_ok. destruct ok; [|done]. cbn in H0. injection H0 as <- <-.
    split; [done|]. split; [done|]. cbn.
    assert (shows size [mkDraw now (s_authentication s) (region_full (fst size) (snd size))] now (s_authentication s)) as Hsh
      by by apply shows_new.
    split.
    + apply Forall_app. split; [eapply Forall_impl; [exact Hok|]; by intros b (_ & _ & ?)|].
      constructor; [|done]. unfold buffer_ok. cbn. split; [done|]. split; [lia|]. split; [lia|].
      exists now, (s_authentication s). split; [done|]. split; [done|]. split; [done|]. by intros _.
    + eexists. cbn. rewrite lookup_app_r, Nat.sub_diag by lia. split; [done|]. by split.
Qed.

Lemma calm_put i s0 s rt : surfaces rt !! i = Some s0 → keeps s0 s → calm rt (upd_surface i (λ _, s) rt).
Proof using Type.
  intros H0 Hk. apply calm_set_surfaces. intros s' [Hs|(s1 & _ & ->)]%LockHandover.elem_of_alter; right.
  - exists s'. split; [done|apply keeps_refl].
  - exists s0. split; [by eapply list_elem_of_lookup_2|done].
Qed.
Lemma stable_put k i s0 s rt : surfaces rt !! i = Some s0 → s_role_generation s = s_role_generation s0 →
  Forall (buffer_ok (background_generation rt) (frame (presentation rt)) s) (s_buffers s) →
  stable k rt → stable k (upd_surface i (λ _, s) rt).
Proof using Type.
  intros H0 Er Hb []. constructor; try done; cbn.
  - rewrite Forall_forall in *. intros s' [Hs|(s1 & _ & ->)]%LockHandover.elem_of_alter; [by apply st_roles0|].
    unfold role_ok. rewrite Er. apply st_roles0. by eapply list_elem_of_lookup_2.
  - rewrite Forall_forall in st_buffers0 |- *. intros s' [Hs|(s1 & _ & ->)]%LockHandover.elem_of_alter; [by apply st_buffers0|done].
Qed.

Lemma commit_renders k o painted c rt : commit_good c → renders k rt (emit (ECommit o painted c) rt).
Proof using Type.
  intros Hc. assert (role_changes (emit (ECommit o painted c) rt) = role_changes rt) as E
    by (rewrite role_changes_emit; cbn; lia).
  split; [lia|]. split; [done|]. intros _ [] Hcs. split.
  - constructor; try done. unfold role_ok. by rewrite E.
  - unfold commits_ok. rewrite commits_emit. apply Forall_app. split; [done|by constructor].
Qed.

Lemma keeps_commit bi painted s : keeps s (commit_surface bi painted s).
Proof using Type.
  split; [done|]. split; [done|]. cbn. intros b' [Hb|(b & Hb & ->)]%LockHandover.elem_of_alter.
  - by exists b'.
  - by exists b.
Qed.

Lemma commit_of_ok s bi rt : I (presentation rt) → drawn (frame (presentation rt)) s bi →
  commit_good (commit_of s bi rt).
Proof using Type.
  intros Hp (b & Eb & Hs & Hsh). unfold commit_of. rewrite Eb. split; [by split|]. by exists (presentation rt).
Qed.

(** The commit, once the drawn surface is in its place. *)
Lemma present_renders k i s bi env rt : I (presentation rt) → drawn (frame (presentation rt)) s bi →
  renders k (upd_surface i (λ _, s) rt) (fst (present i s bi env rt)).
Proof using Type.
  intros HIp Hd. unfold present. set (rt0 := upd_surface i (λ _, s) rt).
  assert (∀ rt', presentation rt' = presentation rt →
    renders k rt' (emit (ECommit (s_output s) (from_option b_painted false (s_buffers s !! bi)) (commit_of s bi rt'))
      (upd_surface i (commit_surface bi (from_option b_painted false (s_buffers s !! bi))) rt'))) as Hc.
  { intros rt' E. etrans; [apply calm_renders, calm_upd; intros; apply keeps_commit|].
    apply commit_renders, commit_of_ok; by rewrite E. }
  destruct (is_retiring s rt); [destruct (feedback env)|].
  - destruct (attach_ok env); cbn [negb]; [|apply calm_renders, calm_retirement].
    cbn [fst]. etrans; [apply calm_renders; apply calm_retirement|]. etrans; [by apply Hc|].
    apply calm_renders, calm_retirement.
  - cbn [fst]. apply calm_renders. etrans; [|apply calm_retirement].
    by apply (calm_role i true (λ s, with_redraw request_role_change (with_role true s))).
  - destruct (attach_ok env); cbn [negb]; [|done]. by apply (Hc rt0).
Qed.

Lemma term_core rt rt' : LockExit.core rt' = LockExit.core rt → terminate rt' = terminate rt.
Proof using Type. unfold LockExit.core. by intros [=]. Qed.

Lemma retained_ok size s bg now : Forall (buffer_ok bg now s) (s_buffers s) →
  Forall (λ b, b_size b = size ∧ b_role_generation b = s_role_generation (retain_buffers size s)
    ∧ buffer_ok bg now (retain_buffers size s) b) (s_buffers (retain_buffers size s)).
Proof using Type.
  rewrite !Forall_forall. intros H b [Hb E]%list_elem_of_In%List.filter_In. unfold keep_buffer in E.
  simp_bool. split; [done|]. split; [done|]. apply H. by apply list_elem_of_In.
Qed.

Lemma render_renders k i env rt : renders k rt (fst (render i env rt)).
Proof using All.
  split; [apply LockHandover.render_safe|]. split; [by rewrite (term_core _ _ (core_render i env rt))|].
  unfold render. destruct (surfaces rt !! i) as [s|] eqn:Es; [|done].
  destruct (s_size s) as [[w h]|]; [|done]. destruct (_ ≫= _) as [[[bw bh] bytes]|e] eqn:Eb; [|done].
  assert (size_ok (bw, bh)) as Hsz.
  { apply bind_Ok in Eb as ([w' h'] & E1 & E2). pose proof E2 as E3. apply bind_Ok in E3 as (y & _ & [= -> -> ->]).
    eapply (buffer_sizes w h (Z.max 1 (s_scale s)) bw bh bytes). by rewrite E1. }
  set (s1 := retain_buffers (bw, bh) s). destruct (draw _ _ _ _ _ _) as [[[s' bi]|]|e] eqn:Ed;
    try (apply calm_renders, (calm_put i s); [done|apply keeps_retain]).
  intros Hlt Hst Hcs. pose proof (st_buffers _ _ Hst) as Hb. rewrite Forall_forall in Hb.
  specialize (Hb s (list_elem_of_lookup_2 _ _ _ Es)). apply (retained_ok (bw, bh)) in Hb.
  pose proof (tells_wf I Htell _ (st_keeps _ _ Hst)) as Hwf.
  apply draw_ok in Ed as (E1 & E2 & Hb' & Hd); [|done..].
  destruct (present_renders k i s' bi env rt (st_keeps _ _ Hst) Hd) as (_ & _ & Hp).
  apply Hp; [done| |done]. by eapply stable_put.
Qed.

Lemma render_all_renders k env l rt : renders k rt (fst (render_all l env rt)).
Proof using All.
  revert rt. induction l as [|i l IH]; intros rt; cbn [render_all]; [done|].
  pose proof (render_renders k i (env i) rt) as Hr. destruct (render i (env i) rt) as [rt' [u|e]]; [|done].
  etrans; [exact Hr|apply IH].
Qed.

Lemma scan_renders {A} k (f : Surface → A) l r rt : scan_surfaces f (surfaces rt) = (l, r) →
  renders k rt (set_surfaces l rt).
Proof using Type. intros E. apply calm_renders. change l with (fst (l, r)). rewrite <- E. apply calm_scan. Qed.

Lemma maintain_renders k allow env rt : renders k rt (fst (maintain_surfaces allow env rt)).
Proof using All.
  unfold maintain_surfaces. destruct (scan_surfaces _ _) as [l [fl|e]] eqn:E; apply (scan_renders k) in E; [|done].
  etrans; [exact E|apply render_all_renders].
Qed.
Lemma partial_renders k env rt : renders k rt (fst (commit_partial_overlays env rt)).
Proof using All.
  unfold commit_partial_overlays. destruct (scan_surfaces _ _) as [l [ps|e]] eqn:E; apply (scan_renders k) in E; [|done].
  match goal with |- context [render_all ?il ?ev ?r] =>
    pose proof (render_all_renders k ev il r) as Hr; destruct (render_all il ev r) as [rt' [u|er]] end; by etrans.
Qed.

(** ** Changes of the presentation *)

(** The presentation has answered [r], and the runtime has not yet acted on it. *)
Definition pending (k : Z) (r : Refresh) rt : Prop :=
  ∃ p, stable k (set_presentation p rt) ∧ I (presentation rt) ∧ tells r (frame p) (frame (presentation rt)).

Lemma stable_weaken k k' rt : k ≤ k' → stable k rt → stable k' rt.
Proof using Type. intros Hk []. constructor; try done. lia. Qed.

Lemma stable_alike k p rt : stable k (set_presentation p rt) → I (presentation rt) →
  presentation_geometry rt = frame_geometry (frame (presentation rt)) →
  same_background (frame p) (frame (presentation rt)) → stable k rt.
Proof using Type.
  intros [] Hp Eg Eb. cbn in *. constructor; try done. eapply Forall_impl; [exact st_buffers0|]. intros s Hs.
  eapply Forall_impl; [exact Hs|]. intros b (H1 & H2 & H3 & f & a & H4 & H5 & H6 & H7).
  split; [done|]. split; [done|]. split; [done|]. exists f, a. split; [done|]. split; [done|]. split; [done|].
  intros [E1 E2]%H7. split; [by rewrite E1|by rewrite E2, <- st_geometry0, Eg].
Qed.

(** A new generation makes every buffer one to draw in full. *)
Lemma stable_frame k p rt : stable k (set_presentation p rt) → I (presentation rt) → k + 1 < 2 ^ 64 →
  stable (k + 1) (record_full_frame rt).
Proof using Type.
  intros [] Hp Hk. cbn in *.
  assert (wrapping_add 64 (background_generation rt) 1 = background_generation rt + 1) as Eb
    by (apply Z.mod_small; lia).
  constructor; cbn; rewrite ?Eb; try done; [lia|]. eapply Forall_impl; [exact st_buffers0|]. intros s Hs.
  eapply Forall_impl; [exact Hs|]. intros b (H1 & H2 & H3 & f & a & H4 & H5 & H6 & _).
  split; [done|]. split; [done|]. split; [lia|]. exists f, a. split; [done|]. split; [done|]. split; [done|]. lia.
Qed.

Lemma refresh_stable k r rt : pending k r rt → role_changes rt < 2 ^ 64 → k + 1 < 2 ^ 64 →
  stable (k + 1) (apply_refresh r rt).
Proof using Type.
  intros (p & Hst & Hp & Ht) Hlt Hk. destruct r; cbn [apply_refresh].
  - apply (stable_weaken k); [lia|]. apply (stable_alike k p); [done|done| |unfold same_background; by rewrite Ht].
    rewrite Ht. apply Hst.
  - eapply stable_calm; [by apply (stable_frame k p)|apply calm_redraw_media|]. unfold redraw_media.
    by destruct (terminate _).
  - unfold classify_overlay_redraw. unfold overlay_redraw_kind. case_bool_decide as Eg.
    + rewrite bool_decide_eq_false_2 by done. eapply stable_calm; [|apply calm_redraw_all|done].
      apply (stable_weaken k); [lia|]. by apply (stable_alike k p).
    + rewrite bool_decide_eq_true_2 by done. eapply stable_calm; [|apply calm_redraw_all|done].
      by apply (stable_frame k p).
  - eapply stable_calm; [by apply (stable_frame k p)|apply calm_redraw_media|]. unfold redraw_media.
    by destruct (terminate _).
Qed.

(** A step that commits nothing and may change the background [n] times. *)
Definition costs (n : Z) rt rt' : Prop :=
  role_changes rt ≤ role_changes rt' ∧ commits rt' = commits rt
  ∧ ∀ k, role_changes rt' < 2 ^ 64 → k + n < 2 ^ 64 → stable k rt → stable (k + n) rt'.

Lemma costs_calm rt rt' : calm rt rt' → costs 1 rt rt'.
Proof using Type.
  intros H. split; [apply H|]. split; [apply H|]. intros k ? ? Hst.
  apply (stable_weaken k); [lia|]. by eapply stable_calm.
Qed.
Lemma costs_after n rt1 rt2 rt3 : calm rt1 rt2 → costs n rt2 rt3 → costs n rt1 rt3.
Proof using Type.
  intros Hc (A1 & A2 & A3). pose proof (calm_roles _ _ Hc). split; [lia|].
  split; [by rewrite A2; apply Hc|]. intros k ? ? Hst. apply A3; [done|done|]. eapply stable_calm; [done|done|]. lia.
Qed.
Lemma costs_add n m rt1 rt2 rt3 : 0 ≤ m → costs n rt1 rt2 → costs m rt2 rt3 → costs (n + m) rt1 rt3.
Proof using Type.
  intros Hm (A1 & A2 & A3) (B1 & B2 & B3). split; [lia|]. split; [congruence|]. intros k ? ? Hst.
  rewrite Z.add_assoc. apply B3; [lia..|]. apply A3; [lia..|done].
Qed.

Lemma commits_redraw_media rt : commits (redraw_media rt) = commits rt.
Proof using Type. unfold redraw_media. by destruct (terminate rt). Qed.
Lemma roles_redraw_media rt : role_changes (redraw_media rt) = role_changes rt.
Proof using Type. unfold redraw_media. by destruct (terminate rt). Qed.
Lemma refresh_rest r rt : commits (apply_refresh r rt) = commits rt ∧ role_changes (apply_refresh r rt) = role_changes rt.
Proof using Type.
  destruct r; cbn [apply_refresh]; rewrite ?commits_redraw_media, ?roles_redraw_media; try done.
  unfold classify_overlay_redraw. by case_bool_decide.
Qed.

Lemma refresh_costs r p rt :
  (I (presentation rt) → I p ∧ tells r (frame (presentation rt)) (frame p)) →
  costs 1 rt (apply_refresh r (set_presentation p rt)).
Proof using Type.
  intros H. destruct (refresh_rest r (set_presentation p rt)) as [E1 E2].
  split; [rewrite E2; unfold role_changes; cbn; lia|]. split; [by rewrite E1|]. intros k Hlt Hk Hst. rewrite E2 in Hlt.
  apply refresh_stable; [|done..]. exists (presentation rt). destruct (H (st_keeps _ _ Hst)). split; [|done].
  by destruct Hst.
Qed.

Lemma calm_state st rt : calm rt (set_state st rt).
Proof using Type. by apply calm_rest. Qed.

Lemma costs_confirmed rt :
  costs 1 rt (redraw_all_surfaces KFull (record_full_frame (set_presentation (lock_confirmed (presentation rt)) rt))).
Proof using HI.
  split; [unfold role_changes; cbn; lia|]. split; [done|]. intros k Hlt Hk Hst.
  eapply stable_calm; [|apply calm_redraw_all|done]. apply (stable_frame k (presentation rt)); [|apply HI, Hst|done].
  by destruct Hst.
Qed.

Lemma apply_costs a env rt : costs 1 rt (apply a env rt).
Proof using HI.
  destruct a; cbn [apply].
  - by apply costs_calm.
  - pose proof (calm_drain_ready (write_ok env) (ready rt) rt) as Hd.
    destruct (drain_ready _ _ _) as [rt1 ok]. cbn [fst] in Hd. eapply costs_after; [exact Hd|].
    destruct ok; [|apply costs_calm, calm_fail].
    destruct (terminate _); [by apply costs_calm|apply costs_confirmed].
  - apply costs_calm, calm_fail.
  - apply costs_calm. match goal with |- calm _ (set_exit (session_lock ?r) _ _ _) => assert (calm rt r) as Hu end.
    { destruct (session_lock rt); [|done].
      assert (calm rt (emit EUnlock (set_exit false (failure rt) (terminate rt) rt))) as Hu
        by (etrans; [|by apply calm_emit]; by apply calm_rest).
      destruct (roundtrip_ok env); [done|]. etrans; [exact Hu|apply calm_fail]. }
    etrans; [exact Hu|by apply calm_rest].
Qed.

Lemma calm_on_new_output o n wl now rt : calm rt (on_new_output o n wl now rt).
Proof using Type.
  unfold on_new_output. destruct (_ && _); [|done]. destruct (existsb _ _).
  - etrans; [apply calm_rename|apply calm_refresh_output].
  - apply calm_fail_on, calm_add_surface.
Qed.
Lemma calm_on_destroyed o now rt : calm rt (on_output_destroyed o now rt).
Proof using Type.
  unfold on_output_destroyed. etrans; [|apply calm_refresh_output].
  match goal with |- calm _ (set_surfaces _ ?r) => assert (calm rt r) as Hr end.
  { case_bool_decide; [apply calm_retirement|done]. }
  etrans; [exact Hr|apply calm_filter].
Qed.
Lemma calm_on_discarded fb wl rt : calm rt (on_discarded fb wl rt).
Proof using Type.
  unfold on_discarded. case_bool_decide; [|done]. etrans; [apply calm_retirement|].
  destruct (by_wl _ _); [|done]. apply calm_upd. intros s. apply keeps_redraw.
Qed.
Lemma calm_on_release wl b rt : calm rt (on_release wl b rt).
Proof using Type.
  unfold on_release. destruct (by_wl _ _); [|done]. apply calm_upd. intros s. split; [done|]. split; [done|].
  cbn. intros b' [Hb|(b0 & Hb & ->)]%LockHandover.elem_of_alter; [by exists b'|by exists b0].
Qed.

Lemma handle_key_costs i rt : costs 1 rt (handle_key i rt).
Proof using HI Htell.
  destruct i as [i|]; [|by apply costs_calm]. cbn [handle_key].
  pose proof (λ Hp, conj (keeps_input _ HI i (presentation rt) Hp) (tells_input _ Htell i _ Hp)) as Hi.
  destruct (give_input i (presentation rt)) as [p changed]. cbn [fst snd] in Hi.
  destruct changed; [apply (refresh_costs ROverlay)|apply (refresh_costs Unchanged)]; exact Hi.
Qed.

Lemma handle_event_costs ev now env rt : costs 1 rt (handle_event ev now env rt).
Proof using HI Htell.
  destruct ev; cbn [handle_event];
    [..|apply costs_calm, calm_on_new_output| |apply costs_calm, calm_on_destroyed|
     |apply costs_calm, calm_on_discarded|apply costs_calm, calm_on_release|apply handle_key_costs].
  - unfold on_locked. destruct (lock_confirmation_action _ _) as [st a].
    eapply costs_after; [apply calm_state|apply apply_costs].
  - unfold on_finished. destruct (update _ _) as [st a]. eapply costs_after; [apply calm_state|apply apply_costs].
  - apply costs_calm. unfold on_configure. destruct (by_wl _ _); [|apply calm_fail].
    etrans; [|apply calm_refresh_output]. apply calm_upd. intros s. case_bool_decide; [apply keeps_refl|apply keeps_geometry].
  - apply costs_calm. unfold on_scale. destruct (by_wl _ _); [|done]. apply calm_upd. intros s.
    destruct (_ =? _); [apply keeps_refl|apply keeps_geometry].
  - apply costs_calm. unfold on_frame. destruct (terminate rt); [done|]. destruct (by_wl _ _); [|done].
    apply calm_upd. intros s. apply keeps_redraw.
  - apply costs_calm. unfold on_update_output. etrans; [apply calm_rename|apply calm_refresh_output].
  - apply costs_calm. unfold on_presented. destruct (_ && _); [|done].
    etrans; [apply (calm_retirement None None None)|apply calm_refresh_output].
Qed.

Lemma dispatch_costs env rt : costs (Z.of_nat (length (events env))) rt (dispatch env rt).
Proof using HI Htell.
  unfold dispatch. generalize (events env). intros l. revert rt. induction l as [|[ev t] l IH]; intros rt; cbn [foldl length].
  - split; [lia|]. split; [done|]. intros k _ _. apply stable_weaken. lia.
  - rewrite Nat2Z.inj_succ, <- Z.add_1_l. eapply costs_add; [lia|apply handle_event_costs|apply IH].
Qed.

(** ** The loop *)

(** Between iterations: what was committed is right, and the loop is over or
    the buffers are. *)
Definition sound (k : Z) rt : Prop := commits_ok rt ∧ (terminate rt = true ∨ stable k rt).

Lemma authorize_pending k r env rt : pending k r rt → commits_ok rt →
  commits_ok (authorize env rt) ∧ (terminate (authorize env rt) = true ∨ pending k r (authorize env rt)).
Proof using HI Htell.
  intros (p0 & Hst & Hp & Ht) Hc. unfold authorize.
  pose proof (keeps_authorization _ HI _ Hp) as Hp'. pose proof (tells_authorization _ Htell _ Hp) as Hf.
  destruct (take_authorization _) as [p granted]. cbn [fst] in Hp', Hf.
  assert (∀ st, pending k r (set_state st (set_presentation p rt))) as Hpend.
  { intros st. exists p0. split; [by destruct Hst|]. cbn. by rewrite Hf. }
  destruct granted; [|split; [done|right; exact (Hpend (state rt))]].
  destruct (authorize_unlock _) as [st a] eqn:Ea. split.
  - unfold commits_ok. by rewrite (proj1 (proj2 (apply_costs a (apply_env env) (set_state st (set_presentation p rt))))).
  - unfold authorize_unlock in Ea. destruct (negb _); injection Ea as <- <-; [right; apply Hpend|by left].
Qed.

Lemma redraw_phase_sound k env r rt : pending k r rt → commits_ok rt →
  role_changes (redraw_phase env r rt) < 2 ^ 64 → k + 2 < 2 ^ 64 → sound (k + 2) (redraw_phase env r rt).
Proof using All.
  intros Hp Hc Hlt Hk. pose proof (refresh_rest r rt) as [Ec Er]. unfold redraw_phase in *.
  pose proof (partial_renders (k + 1) (overlay_env env) (apply_refresh r rt)) as (Pm & _ & Pr).
  destruct (commit_partial_overlays _ _) as [rt1 [pr|e]]; cbn [fst] in Pm, Pr.
  - set (rt2 := if should_poll_deferred r pr then _ else _) in *.
    assert (costs 1 rt1 rt2) as (Cm & Cc & Cs).
    { unfold rt2. destruct (should_poll_deferred r pr); [|by apply costs_calm]. unfold refresh_presentation.
      pose proof (λ Hp, conj (keeps_deferred _ HI (presentation rt1) Hp) (tells_deferred _ Htell _ Hp)) as Hd.
      destruct (receive_deferred _) as [p q]. cbn [fst snd] in Hd.
      apply (costs_after 1 _ (set_state (record_presentation_failure q (state rt1)) rt1)); [apply calm_state|].
      by apply (refresh_costs q p). }
    pose proof (maintain_renders (k + 2) (should_allow_overlay_full (should_poll_deferred r pr) pr) (surface_env env) rt2)
      as (Mm & _ & Mr).
    match type of Hlt with role_changes (fail_on ?m) < _ => pose proof (calm_fail_on (fst m) (fst m, snd m) ltac:(done)) as Hf;
      destruct m as [rt3 res]; cbn [fst snd] in Hf, Mm, Mr end.
    pose proof (calm_roles _ _ Hf).
    assert (stable (k + 1) (apply_refresh r rt)) as S1 by (apply refresh_stable; [done|lia..]).
    assert (commits_ok (apply_refresh r rt)) as C1 by (unfold commits_ok; by rewrite Ec).
    destruct Pr as [S2 C2]; [lia|done|done|].
    destruct Mr as [S3 C3]; [lia|replace (k + 2) with (k + 1 + 1) by lia; apply Cs; [lia|lia|done]|unfold commits_ok; by rewrite Cc|].
    split; [unfold commits_ok; by rewrite (calm_commits _ _ Hf)|right]. by eapply stable_calm.
  - split; [|by left]. unfold commits_ok. rewrite (calm_commits _ _ (calm_fail e rt1)).
    apply Pr; [|apply refresh_stable; [done|..]|unfold commits_ok; by rewrite Ec];
      pose proof (calm_roles _ _ (calm_fail e rt1)); lia.
Qed.

Lemma iterate_sound k env rt : stable k rt → commits_ok rt → role_changes (iterate env rt) < 2 ^ 64 →
  k + Z.of_nat (length (events env)) + 2 < 2 ^ 64 →
  sound (k + Z.of_nat (length (events env)) + 2) (iterate env rt).
Proof using All.
  intros Hst Hc. pose proof (dispatch_costs env rt) as (Dm & Dc & Ds). unfold iterate.
  set (k1 := k + Z.of_nat (length (events env))) in *. generalize dependent (dispatch env rt). intros rt1 Dm Dc Ds Hlt Hk.
  assert (role_changes rt1 < 2 ^ 64 → stable k1 rt1) as S1 by (intros; apply Ds; [done|unfold k1 in *; lia|done]).
  assert (commits_ok rt1) as C1 by (unfold commits_ok; by rewrite Dc). clear Hst Hc Dm Dc Ds.
  assert (∀ rt', calm rt1 rt' → commits_ok rt') as Hcalm by (intros rt' H'; unfold commits_ok; by rewrite (calm_commits _ _ H')).
  destruct (dispatch_ok env); cbn [negb] in *; [|split; [apply Hcalm, calm_fail|by left]].
  destruct (terminate rt1) eqn:Et; [split; [done|by left]|].
  pose proof (calm_reconcile env rt1) as Hr. destruct (reconcile_outputs env rt1) as [rt2 [u|e]]; cbn [fst] in Hr;
    [|split; [apply Hcalm; etrans; [exact Hr|apply calm_fail]|by left]].
  pose proof (calm_expire (now env) rt2) as He. set (rt3 := expire_authentication_retirement (now env) rt2) in *.
  assert (calm rt1 rt3) as H13 by by etrans.
  unfold refresh_priority in *. pose proof (λ Hp, conj (keeps_latest _ HI (presentation rt3) Hp) (tells_latest _ Htell _ Hp)) as Hl.
  destruct (receive_latest _) as [p r]. cbn [fst snd] in Hl.
  set (rt4 := set_state _ _) in *. pose proof (LockHandover.authorize_safe env rt4) as [Am _].
  pose proof (LockHandover.redraw_phase_safe env r (authorize env rt4)) as [Rm _].
  assert (role_changes rt3 < 2 ^ 64 → pending k1 r rt4) as Hp.
  { intros Hlt3. assert (stable k1 rt3) as S3 by (eapply stable_calm; [apply S1; pose proof (calm_roles _ _ H13); lia|done|done]).
    exists (presentation rt3). destruct (Hl (st_keeps _ _ S3)). split; [by destruct S3|]. by split. }
  assert (role_changes rt4 = role_changes rt3) as E34 by done. pose proof (Hcalm rt3 H13 : commits_ok rt4) as C4.
  assert (role_changes (authorize env rt4) < 2 ^ 64) as Hlt' by (destruct (terminate (authorize env rt4)); lia).
  assert (pending k1 r rt4) as P4 by (apply Hp; lia).
  destruct (authorize_pending k1 r env rt4 P4 C4) as [C5 [T5|P5]].
  - rewrite T5 in *. split; [done|by left].
  - destruct (terminate (authorize env rt4)) eqn:T5; [split; [done|by left]|]. by apply redraw_phase_sound.
Qed.

(** How often a run may change the background. *)
Fixpoint changes (envs : list IterEnv) : Z :=
  match envs with [] => 0 | env :: envs => Z.of_nat (length (events env)) + 2 + changes envs end.
Lemma changes_nonneg envs : 0 ≤ changes envs.
Proof using Type. induction envs; cbn [changes]; lia. Qed.

Lemma run_commits k envs rt : sound k rt → role_changes (run envs rt) < 2 ^ 64 → k + changes envs < 2 ^ 64 →
  commits_ok (run envs rt).
Proof using All.
  revert k rt. induction envs as [|env envs IH]; intros k rt [Hc Hs] Hlt Hk; cbn [run] in *; [done|].
  cbn [changes] in Hk. pose proof (changes_nonneg envs). destruct (terminate rt) eqn:Et; [done|].
  destruct Hs as [[=]|Hs]. pose proof (LockHandover.run_safe envs (iterate env rt)) as [Rm _].
  eapply IH; [apply (iterate_sound k); [done|done|lia|lia]|done|lia].
Qed.

Lemma stable_initial fds requested (p : P) : I p → stable 1 (initial fds requested p).
Proof using Type. intros Hp. by constructor. Qed.

Lemma locker_commits fds requested (p : P) outs now envs rt : I p →
  locker_run fds requested p outs now envs = Ok rt → role_changes rt < 2 ^ 64 → 1 + changes envs < 2 ^ 64 →
  Forall (λ e, match e with ECommit _ _ c => commit_good c | _ => True end) (trace rt).
Proof using All.
  intros Hp H Hlt Hk. assert (commits_ok rt) as Hc.
  { unfold locker_run in H. pose proof (calm_add_surfaces outs now (initial fds requested p)) as Ha.
    destruct outs as [|o outs]; [done|]. destruct (add_surfaces _ _ _) as [rt1 [u|e]]; [|done]. cbn [fst] in Ha.
    injection H as <-. pose proof (LockHandover.run_safe envs rt1) as [Rm _].
    apply (run_commits 1); [|done|done]. split; [unfold commits_ok; by rewrite (calm_commits _ _ Ha)|right].
    eapply stable_calm; [by apply stable_initial|exact Ha|lia]. }
  unfold commits_ok, commits in Hc. rewrite Forall_forall in Hc |- *. intros [| | |o painted c] He; try done.
  apply (Hc (ECommit o painted c)). apply list_elem_of_In, List.filter_In. split; [by apply list_elem_of_In|done].
Qed.

(** ** Which frame a turn commits *)

(** It commits only buffers for the frame that the presentation has. *)
Definition present_frame (p : P) (e : Effect) : Prop :=
  match e with ECommit _ _ c => c_frame c = frame p | _ => True end.
Definition adds rt rt' : Prop :=
  presentation rt' = presentation rt
  ∧ ∃ new, commits rt' = commits rt ++ new ∧ Forall (present_frame (presentation rt)) new.

#[local] Instance adds_preorder : PreOrder adds.
Proof using Type.
  split; [intros rt; split; [done|]; exists []; by rewrite app_nil_r|].
  intros rt1 rt2 rt3 (E1 & new & C1 & H1) (E2 & new' & C2 & H2). split; [congruence|]. exists (new ++ new').
  rewrite C2, C1, app_assoc. split; [done|]. rewrite E1 in H2. by apply Forall_app.
Qed.
Lemma adds_calm rt rt' : calm rt rt' → adds rt rt'.
Proof using Type. intros H. split; [apply H|]. exists []. rewrite app_nil_r. split; [apply H|done]. Qed.

Lemma adds_present i s bi env rt : adds (upd_surface i (λ _, s) rt) (fst (present i s bi env rt)).
Proof using Type.
  unfold present. set (rt0 := upd_surface i (λ _, s) rt).
  assert (∀ rt' n f, presentation rt' = presentation rt0 → commits rt' = commits rt0 →
    adds rt0 (emit (ECommit n f (commit_of s bi rt')) rt')) as Hc.
  { intros rt' n f E1 E2. split; [done|]. exists [ECommit n f (commit_of s bi rt')].
    rewrite commits_emit, E2. split; [done|]. constructor; [|done]. cbn. unfold commit_of.
    destruct (s_buffers s !! bi); cbn; by rewrite E1. }
  destruct (is_retiring s rt); [destruct (feedback env)|]; cbn [fst].
  - destruct (attach_ok env); cbn [negb fst]; [|by apply adds_calm, calm_retirement].
    etrans; [|apply adds_calm, calm_retirement]. by apply (Hc (upd_surface _ _ (set_retirement _ _ _ rt0))).
  - apply adds_calm. etrans; [|apply calm_retirement].
    by apply (calm_role i true (λ s, with_redraw request_role_change (with_role true s))).
  - destruct (attach_ok env); cbn [negb fst]; [|done]. by apply (Hc (upd_surface _ _ rt0)).
Qed.

Lemma adds_surfaces l rt : adds rt (set_surfaces l rt).
Proof using Type. split; [done|]. exists []. by rewrite app_nil_r. Qed.

Lemma adds_render i env rt : adds rt (fst (render i env rt)).
Proof using Type.
  unfold render. destruct (surfaces rt !! i) as [s|]; [|done]. destruct (s_size s) as [[w h]|]; [|done].
  destruct (_ ≫= _) as [[[bw bh] bytes]|e]; [|done].
  destruct (draw _ _ _ _ _ _) as [[[s' bi]|]|e]; try apply adds_surfaces.
  etrans; [apply adds_surfaces|apply adds_present].
Qed.

Lemma adds_render_all env l rt : adds rt (fst (render_all l env rt)).
Proof using Type.
  revert rt. induction l as [|i l IH]; intros rt; cbn [render_all]; [done|].
  pose proof (adds_render i (env i) rt) as Hr. destruct (render i (env i) rt) as [rt' [u|e]]; [|done].
  etrans; [exact Hr|apply IH].
Qed.

Lemma adds_maintain allow env rt : adds rt (fst (maintain_surfaces allow env rt)).
Proof using Type.
  unfold maintain_surfaces. destruct (scan_surfaces _ _) as [l [fl|e]]; [|apply adds_surfaces].
  etrans; [apply adds_surfaces|apply adds_render_all].
Qed.
Lemma adds_partial env rt : adds rt (fst (commit_partial_overlays env rt)).
Proof using Type.
  unfold commit_partial_overlays. destruct (scan_surfaces _ _) as [l [ps|e]]; [|apply adds_surfaces].
  match goal with |- context [render_all ?il ?ev ?r] =>
    pose proof (adds_render_all ev il r) as Hr; destruct (render_all il ev r) as [rt' [u|er]] end;
    (etrans; [apply adds_surfaces|exact Hr]).
Qed.

(** The state whose frame a turn's commits have: the one at its end, or the one
    before the wallpaper was polled in that turn. *)
Definition state_of_turn (last p : P) : Prop := I p ∧ (last = p ∨ last = fst (receive_deferred p)).
Definition turn_commits rt rt' : Prop :=
  ∃ new, commits rt' = commits rt ++ new
  ∧ Forall (λ e, ∃ p, state_of_turn (presentation rt') p ∧ present_frame p e) new.

Lemma turn_none rt rt' : commits rt' = commits rt → turn_commits rt rt'.
Proof using Type. intros E. exists []. by rewrite E, app_nil_r. Qed.

Lemma redraw_phase_turn env r rt : I (presentation rt) → turn_commits rt (redraw_phase env r rt).
Proof using HI scaled.
  intros Hp. unfold redraw_phase. pose proof (refresh_rest r rt) as [Ec _].
  assert (presentation (apply_refresh r rt) = presentation rt) as Ep by
    (pose proof (core_apply_refresh r rt) as H; unfold core in H; congruence).
  pose proof (adds_partial (overlay_env env) (apply_refresh r rt)) as (P1 & new1 & C1 & H1).
  destruct (commit_partial_overlays _ _) as [rt1 [pr|e]]; cbn [fst] in *; rewrite Ep in *; rewrite Ec in C1.
  2: { exists new1. split; [done|]. eapply Forall_impl; [exact H1|]. intros ef He. exists (presentation rt).
       split; [|done]. split; [done|]. by left. }
  set (rt2 := if should_poll_deferred r pr then _ else _).
  assert (commits rt2 = commits rt1 ∧ I (presentation rt2)
    ∧ (presentation rt2 = presentation rt ∨ presentation rt2 = fst (receive_deferred (presentation rt)))) as (C2 & I2 & P2).
  { unfold rt2. destruct (should_poll_deferred r pr); [|rewrite P1; auto]. unfold refresh_presentation. rewrite P1.
    pose proof (keeps_deferred _ HI _ Hp) as Hd. destruct (receive_deferred _) as [p q]. cbn [fst] in *.
    split; [by rewrite (proj1 (refresh_rest q _))|].
    match goal with |- I (presentation ?t) ∧ _ => assert (presentation t = p) as ->; [|auto] end.
    match goal with |- presentation (apply_refresh q ?t) = _ => pose proof (core_apply_refresh q t) as H end.
    unfold core in H. cbn in H. congruence. }
  clearbody rt2. pose proof (adds_maintain (should_allow_overlay_full (should_poll_deferred r pr) pr) (surface_env env) rt2)
    as (P3 & new2 & C3 & H3).
  exists (new1 ++ new2).
  match goal with |- context [fail_on ?m] =>
    assert (presentation (fail_on m) = presentation (fst m)) as -> by (by destruct m as [? []]);
    assert (commits (fail_on m) = commits (fst m)) as -> by (by destruct m as [? []]) end.
  rewrite C3, C2, C1, app_assoc, P3. split; [done|]. apply Forall_app. split.
  - eapply Forall_impl; [exact H1|]. intros ef He. exists (presentation rt). split; [|done]. by split.
  - eapply Forall_impl; [exact H3|]. intros ef He. exists (presentation rt2). split; [|done]. split; [done|by left].
Qed.

Lemma iterate_turn fds env rt : exit_inv I fds rt → turn_commits rt (iterate env rt).
Proof using HI Htell scaled.
  intros H. pose proof (proj1 (proj2 (dispatch_costs env rt))) as Dc. apply (dispatch_exit _ HI _ env) in H. unfold iterate.
  generalize dependent (dispatch env rt). intros rt1 H Dc.
  destruct (dispatch_ok env); cbn [negb]; [|by apply turn_none].
  destruct (terminate rt1); [by apply turn_none|].
  pose proof (calm_reconcile env rt1) as Hr. pose proof (core_add_surfaces (outputs env) (now env) rt1) as E.
  assert (core (fst (reconcile_outputs env rt1)) = core rt1) as Er by (unfold reconcile_outputs; by destruct (terminate rt1)).
  clear E. destruct (reconcile_outputs env rt1) as [rt2 [u|e]]; cbn [fst] in *;
    [|apply turn_none; change (commits rt2 = commits rt); by rewrite (calm_commits _ _ Hr)].
  pose proof (calm_expire (now env) rt2) as He. rewrite <- (core_expire (now env) rt2) in Er.
  apply (exit_core _ _ _ _ Er) in H. assert (commits (expire_authentication_retirement (now env) rt2) = commits rt) as Ec
    by (by rewrite (calm_commits _ _ He), (calm_commits _ _ Hr)).
  clear He Er Hr. generalize dependent (expire_authentication_retirement (now env) rt2). intros rt3 H Ec.
  unfold refresh_priority. pose proof (keeps_latest _ HI _ (exit_keeps _ _ _ H)) as Hp.
  apply (exit_presentation _ _ (fst (receive_latest (presentation rt3)))) in H; [|done].
  destruct (receive_latest _) as [p r]. cbn [fst] in *. set (rt4 := set_state _ _).
  assert (exit_inv I fds (authorize env rt4)) as H5.
  { apply authorize_exit; [done|]. eapply exit_core, H. unfold rt4, record_presentation_failure. by case_bool_decide. }
  assert (commits (authorize env rt4) = commits rt) as C5.
  { rewrite <- Ec. change (commits rt3) with (commits rt4). unfold authorize. destruct (take_authorization _) as [p' []]; [|done].
    destruct (authorize_unlock _) as [st a]. by rewrite (proj1 (proj2 (apply_costs a (apply_env env) _))). }
  destruct (terminate (authorize env rt4)); [by apply turn_none|].
  destruct (redraw_phase_turn env r (authorize env rt4) (exit_keeps _ _ _ H5)) as (new & C6 & H6).
  exists new. by rewrite C6, C5.
Qed.

Lemma run_snoc envs env rt : run (envs ++ [env]) rt
  = if terminate (run envs rt) then run envs rt else iterate env (run envs rt).
Proof using Type.
  revert rt. induction envs as [|e envs IH]; intros rt; cbn [run app]; [by destruct (terminate rt)|].
  destruct (terminate rt) eqn:E; [by rewrite E|apply IH].
Qed.

(** One more turn of a run commits buffers only for the frame of a state that
    the presentation has in that turn. *)
Lemma locker_turn fds requested (p : P) outs now envs env rt rt' : I p →
  locker_run fds requested p outs now envs = Ok rt → locker_run fds requested p outs now (envs ++ [env]) = Ok rt' →
  turn_commits rt rt'.
Proof using HI Htell scaled.
  intros Hp H H'. pose proof (exit_locker_run _ HI _ _ _ _ _ _ _ Hp H) as Hx. unfold locker_run in *.
  destruct outs as [|o outs]; [done|]. destruct (add_surfaces _ _ _) as [rt1 [u|e]]; [|done].
  injection H as <-. injection H' as <-. rewrite run_snoc.
  destruct (terminate _); [by apply turn_none|by eapply iterate_turn].
Qed.

Lemma first_commits fds requested (p : P) outs now rt :
  locker_run fds requested p outs now [] = Ok rt → commits rt = [].
Proof using Type.
  unfold locker_run. pose proof (calm_add_surfaces outs now (initial fds requested p)) as Ha.
  destruct outs as [|o outs]; [done|]. destruct (add_surfaces _ _ _) as [rt1 [u|e]]; [|done]. cbn [fst] in Ha.
  intros [= <-]. by rewrite (calm_commits _ _ Ha).
Qed.

End Runs.
End Calls.

(** C11.  What the compositor is given is what the presentation shows: in every run,
    whatever the events, the allocations and the order in which buffers are
    released, every buffer at its commit holds, byte for byte, the drawing of
    the frame that the presentation has then for the role of its surface, in
    whatever memory it was allocated and however many earlier drawings it was
    reused from.  The presentation must say truthfully what has changed. *)
Theorem commits_show_the_frame {P} `{!Presentation P} scaled (I : P → Prop) fds requested (p : P) outs now envs rt :
  (∀ size c, scaled_for (d_frame c) (fst size) (snd size) (scaled size c)) →
  preserved I → truthful I → I p → locker_run fds requested p outs now envs = Ok rt →
  role_changes rt < 2 ^ 64 → 1 + changes envs < 2 ^ 64 →
  Forall (λ e, match e with
               | ECommit _ _ c => ∀ memory, canvas_ok (fst (c_size c)) (snd (c_size c)) memory →
                   run_calls scaled (c_size c) (c_calls c) memory
                   = Some (picture (fst (c_size c)) (snd (c_size c)) (c_frame c) (c_authentication c))
               | _ => True
               end) (trace rt).
Proof.
  intros Hs HI Ht Hp H Hlt Hk.
  eapply Forall_impl; [by eapply (locker_commits scaled Hs I HI Ht)|]. by intros [| | |o painted c] He; [..|apply He].
Qed.

(** A presentation whose overlay each key changes. *)
Definition blinking (b : bool) : option PresentationFrame :=
  Some (mkFrame 4 2 None (mkRgba 2 1 (replicate 8 (if b then Byte.xff else Byte.x40))) 1 1).
#[local] Instance blinking_presentation : Presentation bool := {
  receive_latest p := (p, Unchanged);
  receive_deferred p := (p, Unchanged);
  frame := blinking;
  lock_confirmed p := p;
  give_input i p := (negb p, true);
  take_authorization p := (p, false);
}.
Lemma blinking_truthful : truthful (λ _ : bool, True).
Proof.
  constructor; [|done..]. intros b _. unfold wf_shown, wf_frame, wf_rgba. by destruct b.
Qed.
Lemma always_preserved : preserved (λ _ : bool, True).
Proof. by constructor. Qed.
Definition typing : list IterEnv :=
  (λ evs, mkIterEnv ((λ ev, (ev, 0)) <$> evs) true [] 0 (mkApplyEnv (λ _, true) true)
    (λ _, mkRenderEnv true None true) (λ _, mkRenderEnv true None true)) <$>
  [[EvConfigure 10 (4, 2)]; [EvLocked; EvFrame 10]; [EvFrame 10; EvRelease 10 0; EvKey (Some Submit)];
   [EvFrame 10; EvRelease 10 1; EvKey (Some Submit)]; [EvFrame 10; EvRelease 10 0; EvKey (Some Submit)]].

Lemma commits_show_the_frame_witness :
  match locker_run [3] None false [(1, None, 10)] 0 typing with
  | Ok rt => length (List.filter is_commit (trace rt)) = 5%nat
    ∧ Forall (λ e, match e with
               | ECommit _ _ c => ∀ memory, canvas_ok (fst (c_size c)) (snd (c_size c)) memory →
                   run_calls (λ _ _, None) (c_size c) (c_calls c) memory
                   = Some (picture (fst (c_size c)) (snd (c_size c)) (c_frame c) (c_authentication c))
               | _ => True
               end) (trace rt)
  | Err _ => False
  end.
Proof.
  destruct (locker_run _ _ _ _ _ _) as [rt|e] eqn:E; [|vm_compute in E; discriminate E].
  assert (role_changes rt < 2 ^ 64 ∧ length (List.filter is_commit (trace rt)) = 5%nat) as [Hr Hn].
  { pose proof E as E'. vm_compute in E'. injection E' as E'. rewrite <- E'. split; reflexivity. }
  split; [exact Hn|].
  refine (commits_show_the_frame (λ _ _, None) (λ _, True) _ _ _ _ _ _ _ _ _ _ _ E Hr _);
    [intros size c; exact I|apply always_preserved|apply blinking_truthful|exact I|].
  vm_compute. reflexivity.
Defined.
