(* ===== verification/LockScreen.v ===== *)
(** * The screen of the locked session

    The lock runtime with its pixels, driving the presentation of [Locker]: what
    every output is given, from the conversation with the worker and the wallpaper
    down to the bytes of the committed buffer. *)

From S2P Require Import Prelude Utf8 LockerDraw Locker LockerDrawProofs LockerProofs.
From S2P Require Conversation SessionLock WallpaperState LockRuntime LockExit LockDraw LockDrawProofs LockHandover.
From S2P Require LockPixels LockerEndToEnd.
Import LockDrawProofs (wf_shown, wf_picture, canvas_ok, picture, scaled_for).

Section Screen.
Context (fonts : Typeface) (Hfonts : near_typeface fonts) (i : Identity) (ws : list WorkerWorld).
#[local] Instance screen_presentation : SessionLock.Presentation (option LockerPresentation) :=
  locker_presentation fonts.

(** The locker runs, and shows what it has come to. *)
Definition on_screen (p : option LockerPresentation) : Prop :=
  ∃ l, p = Some l ∧ session_wf i ws l ∧ shows fonts l.

Lemma wallpaper_wf w : wf_picture (WallpaperState.rgba_frame w).
Proof using Type.
  unfold WallpaperState.rgba_frame. destruct (WallpaperState.frame w) as [[width height px|]|]; try done.
  destruct (SessionLock.rgba_new width height px) as [g|] eqn:E; [|done].
  assert (0 ≤ width ∧ 0 ≤ height) as [Hw Hh].
  { unfold SessionLock.rgba_new in E. apply bind_Some in E as (a & _ & E). apply bind_Some in E as (n & _ & E).
    destruct (_ && _) eqn:Eb in E; [|done]. simp_bool. lia. }
  by apply SessionLock.rgba_new_Some in E as [-> ?].
Qed.

Lemma shows_background l : shows fonts l → wf_shown (frame l).
Proof using Type.
  intros H. destruct (shows_wf fonts l H) as (f & Ef & Hf). destruct H as (px & _ & _ & _ & Hb & E).
  rewrite Ef in E |- *. injection E as ->. split; [done|]. cbn. rewrite Hb. apply wallpaper_wf.
Qed.

Lemma op_on_screen p o : on_screen p → on_screen (run_op fonts p o).
Proof using Hfonts.
  intros (l & -> & Hwf & Hs). pose proof (run_op_shows fonts i ws o l Hwf Hs) as Hr.
  pose proof (session_op_wf i ws fonts (Some l) o Hwf) as Hw.
  destruct (run_op fonts (Some l) o) as [l'|]; [by exists l'|done].
Qed.

Lemma screen_preserved : LockExit.preserved on_screen.
Proof using Hfonts.
  split; intros *; intros H.
  - exact (op_on_screen p OLatest H).
  - exact (op_on_screen p ODeferred H).
  - exact (op_on_screen p OConfirm H).
  - exact (op_on_screen p (OInput i0) H).
  - exact (op_on_screen p OTake H).
Qed.

(** Drawing the overlay again keeps the background. *)
Lemma redrawn_background l l' : shows fonts l → screen l' = screen l →
  LockPixels.same_background (frame l) (rebuild_overlay fonts l' ≫= frame).
Proof using Hfonts.
  intros (px & _ & _ & _ & Hb & Ef) [= E1 E2 E3 E4 E5].
  pose proof (rebuild_overlay_shows fonts l') as H. rewrite E2, E3 in H. specialize (H Hb).
  destruct (rebuild_overlay fonts l') as [l2|]; [|done]. destruct H as ((px' & _ & _ & _ & Hb' & Ef') & _ & Ew).
  unfold LockPixels.same_background. cbn. rewrite Ef, Ef'. cbn. by rewrite Hb, Hb', Ew.
Qed.

Lemma screen_frame l l' : screen l' = screen l → frame l' = frame l.
Proof using Type. by intros [=]. Qed.

(** What the locker says has changed is what has. *)
Lemma screen_truthful : LockPixels.truthful on_screen.
Proof using Hfonts.
  constructor; [intros p (l & -> & Hwf & Hs)|intros p (l & -> & Hwf & Hs)|intros p (l & -> & Hwf & Hs)
               |intros inp p (l & -> & Hwf & Hs)|intros p (l & -> & Hwf & Hs)];
    cbn [SessionLock.frame SessionLock.receive_latest SessionLock.receive_deferred SessionLock.give_input
         SessionLock.take_authorization screen_presentation locker_presentation mbind option_bind].
  - by apply shows_background.
  - unfold receive_latest. destruct (receive_auth_screen l) as [E _]. destruct (receive_auth l) as [l' []]; cbn [fst snd] in *.
    + by apply redrawn_background.
    + by apply screen_frame.
  - unfold receive_deferred. destruct (pictures_arrive l) as (_ & _ & _ & E & _).
    destruct (WallpaperState.receive_latest _) as [[] w]; done.
  - unfold Locker.input. destruct (negb _); [done|]. pose proof (screen_handle_input inp l) as E.
    destruct (handle_input inp l) as [l' []]; cbn [fst snd] in *; [by apply redrawn_background|by apply screen_frame].
  - done.
Qed.

End Screen.

Lemma launched_on_screen fonts i wallpaper w ws arrivals c acts : near_typeface fonts → start i w = (Ok c, acts) →
  on_screen fonts i (w :: ws) (launched fonts i wallpaper w ws arrivals).
Proof.
  intros Hn Es. destruct (launched_shows fonts i wallpaper w ws arrivals [] c acts Hn Es) as (l & E & Hs).
  change (run_ops fonts ?p []) with p in E. pose proof (launched_wf fonts i wallpaper w ws arrivals) as Hwf.
  rewrite E in *. by exists l.
Qed.

(** What a committed buffer is to hold after a turn that left the locker in
    [last]: byte for byte, the drawing of state [l], which shows its present
    conversation over its present wallpaper, for the role of the surface; and
    [l] is the state at the end of that turn, or the one in that turn to which
    only the poll of the wallpaper was still to come. *)
Definition commit_shows fonts i ws scaled (last : option LockerPresentation) (e : LockRuntime.Effect) : Prop :=
  match e with
  | LockRuntime.ECommit _ _ c =>
    let '(width, height) := LockRuntime.c_size c in
    ∃ l, (last = Some l ∨ last = fst (receive_deferred l))
    ∧ session_wf i ws l ∧ shows fonts l
    ∧ ∀ memory, canvas_ok width height memory →
        LockPixels.run_calls scaled (width, height) (LockRuntime.c_calls c) memory
        = Some (picture width height (frame l) (LockRuntime.c_authentication c))
  | _ => True
  end.


#[local] Opaque blank.

(** The compositor gives the surface a size, and the locker draws. *)
Definition first_turn : LockRuntime.IterEnv :=
  LockRuntime.mkIterEnv [(LockRuntime.EvConfigure 10 (64, 40), 1)] true [] 0 (LockRuntime.mkApplyEnv (λ _, true) true)
    (λ _, LockRuntime.mkRenderEnv true None true) (λ _, LockRuntime.mkRenderEnv true None true).

Lemma rebuild_overlay_outside fonts l l' : rebuild_overlay fonts l = Some l' → outside l' = outside l.
Proof.
  unfold rebuild_overlay. destruct authentication_overlay_dimensions as [w h].
  intros (px & _ & H)%bind_Some. apply bind_Some in H as (ov & _ & H). unfold rebuild_frame in H. cbn [overlay set_frames] in H.
  destruct authentication_canvas_dimensions as [cw ch]. apply bind_Some in H as (hz & _ & H).
  apply bind_Some in H as (vt & _ & H). by injection H as <-.
Qed.

(** Whatever is drawn on it, the overlay is 1500 by 1200. *)
Lemma first_run client acts bg ov px page :
  ∃ rt, LockRuntime.locker_run (Presentation0 := locker_presentation empty_typeface) [3] None
    (Some (mkLocker no_wallpaper ada Conversation.new (Some (1, client)) None false false bg ov
       (Some (SessionLock.mkFrame 3840 2400 None (SessionLock.mkRgba 1500 1200 px) 1170 600)) page (mkOutside [] [] acts)))
    [(1, None, 10)] 0 [first_turn] = Ok rt
  ∧ length (List.filter LockPixels.is_commit (LockRuntime.trace rt)) = 1%nat
  ∧ LockHandover.role_changes rt < 2 ^ 64.
Proof. eexists. split; [vm_compute; reflexivity|]. split; reflexivity. Qed.

Lemma first_commit :
  ∃ rt, LockRuntime.locker_run (Presentation0 := locker_presentation empty_typeface) [3] None
    (launched empty_typeface ada no_wallpaper accepting [] []) [(1, None, 10)] 0 [first_turn] = Ok rt
  ∧ length (List.filter LockPixels.is_commit (LockRuntime.trace rt)) = 1%nat
  ∧ LockHandover.role_changes rt < 2 ^ 64.
Proof.
  destruct (launched_on_screen empty_typeface ada no_wallpaper accepting [] [] _ _ empty_near eq_refl)
    as (l & E & _ & px & _ & Hov & Eo & Eb & Ef). rewrite E.
  erewrite (launched_undrawn _ ada _ accepting) in E by reflexivity.
  match type of E with rebuild_overlay _ ?u = _ => pose proof (rebuild_overlay_shows empty_typeface u eq_refl) as Hs end.
  pose proof (rebuild_overlay_outside _ _ _ E) as Eout. rewrite E in Hs. destruct Hs as (_ & Es & Ew). clear E.
  destruct l as [w0 i0 c0 a0 id0 cf0 au0 bg0 ov0 f0 n0 o0]. unfold session, undrawn in Es.
  cbn in Es, Ew, Eb, Ef, Eout. subst o0 w0. injection Es as -> -> -> -> -> ->. subst f0. rewrite Eb. apply first_run.
Qed.

