(* ===== verification/CommandLine.v ===== *)
(** * The command line ([src/main.rs])

    The options of the subcommands, the parsers of their values, and what each
    subcommand is run with.  The grammar of the command line is clap's, a
    third-party library: [Clap] is what the program asks of it, over the options
    that the source declares, and [ClapLaws] is what its documentation promises.
    An argument is its bytes, as the system passes it.  The options that only the
    [lock-test] feature compiles are left out. *)

From S2P Require Import Prelude Utf8 Text.
From S2P Require Wallpaper Accounts DynamicModel HeicFrame Greeter.
Import Wallpaper (Catalog, TahoeBeach, SequoiaSunrise, SequoiaMorning, SequoiaNight, GoldenGate,
  Settings, mkSettings, extension, is_heic_path, slash).

(** ** The parsers of values *)

(** The message of a parser that refuses. *)
Abbreviation Refusal := string (only parsing).

Section Parsers.
(** The Unicode category table, and what the file system says of a path. *)
Context (is_format_control : char → bool) (is_file : list byte → bool).

Definition parse_username (value : rstring) : result Refusal rstring :=
  if negb (Accounts.valid_username is_format_control value)
  then Err "username must be 1–256 characters without whitespace or control characters"
  else Ok value.

Definition parse_display_name (value : rstring) : result Refusal rstring :=
  ok_or "display name must contain visible characters" (Accounts.presentation_label is_format_control value).

Definition parse_dimension (value : rstring) : result Refusal Z :=
  dimension ← ok_or "window dimensions must be whole numbers" (parse_unsigned 32 value);
  if negb ((320 <=? dimension) && (dimension <=? 16384))
  then Err "window dimensions must be between 320 and 16384 pixels"
  else Ok dimension.

Definition parse_ready_fd (value : rstring) : result Refusal Z :=
  fd ← ok_or "ready descriptor must be a non-negative integer" (parse_signed 32 value);
  if fd <=? 2 then Err "ready descriptor must not replace stdin, stdout, or stderr" else Ok fd.

Definition parse_output_name (value : rstring) : result Refusal rstring :=
  if bool_decide (value = []) || (256 <? str_len value) || existsb is_control value
  then Err "output name must contain 1–256 non-control characters"
  else Ok value.

(** [Path::is_absolute]. *)
Definition is_absolute (path : list byte) : bool :=
  match path with b :: _ => bool_decide (b = slash) | [] => false end.
Definition is_movie (path : list byte) : bool :=
  match (ext ← extension path; decode ext) with
  | Some ext => eq_ignore_ascii_case ext (str "mov")
  | None => false
  end.

Definition parse_wallpaper_file (value : rstring) : result Refusal (list byte) :=
  let path := encode value in
  if negb (is_absolute path)
  then Err "wallpaper file must be an absolute local path, not a URI or pipeline"
  else if negb (is_movie path) && negb (is_heic_path path)
  then Err "wallpaper file must be a MOV, HEIC, or HEIF file"
  else if is_movie path && negb (is_file path)
  then Err "wallpaper file must name an existing regular file"
  else Ok path.

Definition parse_heic_wallpaper_file (value : rstring) : result Refusal (list byte) :=
  let path := encode value in
  if negb (is_absolute path)
  then Err "wallpaper file must be an absolute local path, not a URI or pipeline"
  else if negb (is_heic_path path) then Err "desktop wallpaper file must be HEIC or HEIF"
  else if negb (is_file path) then Err "wallpaper file must name an existing regular file"
  else Ok path.

End Parsers.

(** ** The enumerations and their names *)

Inductive WallpaperAppearance := Automatic | Light | Dark.
#[export] Instance WallpaperAppearance_eq_dec : EqDecision WallpaperAppearance.
Proof. solve_decision. Defined.

(** [value_variants] with the names [to_possible_value] gives them. *)
Definition WallpaperAppearances : list (rstring * WallpaperAppearance) :=
  [(str "automatic", Automatic); (str "light", Light); (str "dark", Dark)].
Definition Catalogs : list (rstring * Catalog) :=
  [(str "tahoe-beach", TahoeBeach); (str "sequoia-sunrise", SequoiaSunrise);
   (str "sequoia-morning", SequoiaMorning); (str "sequoia-night", SequoiaNight);
   (str "golden-gate", GoldenGate)].

(** [locker::PreviewFixture]. *)
Inductive LockFixture := Securing | Prompt | Challenge | Submitting | Failure.
Definition LockFixtures : list (rstring * LockFixture) :=
  [(str "securing", Securing); (str "prompt", Prompt); (str "challenge", Challenge);
   (str "submitting", Submitting); (str "failure", Failure)].

(** [app::PreviewFixture]. *)
Inductive PreviewFixture :=
| Selected | SessionMenu | SecretPrompt | Users | DuplicateNames | LargeAccountSet
| LongAccounts | LongAuthentication | VisiblePrompt | InformationalMessage
| ConsecutiveMessages | CancellationProgress | CancellationFailure | AuthenticationFailure
| DiscoveryFailure | SessionFailure | PowerFailure | PowerConfirmation.
Definition PreviewFixtures : list (rstring * PreviewFixture) :=
  [(str "selected", Selected); (str "session-menu", SessionMenu); (str "secret-prompt", SecretPrompt);
   (str "users", Users); (str "duplicate-names", DuplicateNames); (str "large-account-set", LargeAccountSet);
   (str "long-accounts", LongAccounts); (str "long-authentication", LongAuthentication);
   (str "visible-prompt", VisiblePrompt); (str "informational-message", InformationalMessage);
   (str "consecutive-messages", ConsecutiveMessages); (str "cancellation-progress", CancellationProgress);
   (str "cancellation-failure", CancellationFailure); (str "authentication-failure", AuthenticationFailure);
   (str "discovery-failure", DiscoveryFailure); (str "session-failure", SessionFailure);
   (str "power-failure", PowerFailure); (str "power-confirmation", PowerConfirmation)].

(** [ValueEnum::from_str], and the name of a value. *)
Definition from_name {A} (names : list (rstring * A)) (name : rstring) : option A :=
  snd <$> List.find (λ v, bool_decide (fst v = name)) names.
Definition appearance_name (a : WallpaperAppearance) : rstring :=
  match a with Automatic => str "automatic" | Light => str "light" | Dark => str "dark" end.
Definition catalog_name (c : Catalog) : rstring :=
  match c with
  | TahoeBeach => str "tahoe-beach" | SequoiaSunrise => str "sequoia-sunrise"
  | SequoiaMorning => str "sequoia-morning" | SequoiaNight => str "sequoia-night"
  | GoldenGate => str "golden-gate"
  end.

(** ** The options, and what reads them *)

Inductive Takes :=
| Flag
| OneValue
| OptionalValue.   (** [num_args = 0..=1] *)
#[export] Instance Takes_eq_dec : EqDecision Takes.
Proof. solve_decision. Defined.

Record Opt := mkOpt {
  long : rstring;
  aliases : list rstring;
  takes : Takes;
  accepts : list byte → bool;   (** the value parser *)
  requires : list rstring;
  conflicts : list rstring;
  exclusive : bool;
  required : bool;
}.

(** The options that were given, in the order of the arguments. *)
Abbreviation Matches := (list (rstring * option (list byte))) (only parsing).

Class Clap := clap : list Opt → list (list byte) → option Matches.

Definition given (m : Matches) (name : rstring) : bool := existsb (λ o, bool_decide (fst o = name)) m.
Definition value_of (m : Matches) (name : rstring) : option (list byte) :=
  List.find (λ o, bool_decide (fst o = name)) m ≫= snd.

(** *** What clap promises *)

Definition declared (opts : list Opt) (name : rstring) : option Opt :=
  List.find (λ o, bool_decide (long o = name)) opts.

(** Whether an option may be given with a value, or without one. *)
Definition takes_value (o : Opt) (value : option (list byte)) : bool :=
  match takes o, value with
  | Flag, None | OptionalValue, None => true
  | Flag, Some _ | OneValue, None => false
  | _, Some v => accepts o v
  end.

Definition valid_option (opts : list Opt) (m : Matches) (e : rstring * option (list byte)) : bool :=
  match declared opts (fst e) with
  | Some o =>
    takes_value o (snd e) && forallb (given m) (requires o)
    && forallb (λ c, negb (given m c)) (conflicts o)
    && (negb (exclusive o) || bool_decide (length m = 1%nat))
  | None => false
  end.

(** The constraints of the declarations: no option twice, each with a value that
    it takes, with those it requires and without those it conflicts with. *)
Definition valid (opts : list Opt) (m : Matches) : bool :=
  bool_decide (NoDup (fst <$> m)) && forallb (valid_option opts m) m
  && forallb (λ o, negb (required o) || given m (long o)) opts.

Definition HYPHEN : byte := Byte.x2d.
Definition EQUALS : byte := Byte.x3d.

(** What is read as an option where a value is expected; a hyphen alone is a value. *)
Definition hyphened (v : list byte) : bool :=
  match v with b :: _ :: _ => bool_decide (b = HYPHEN) | _ => false end.

Definition dashed (name : rstring) : list byte := HYPHEN :: HYPHEN :: encode name.

(** An option as it is written, [--name value] or [--name=value]. *)
Definition spelled (joined : bool) (e : rstring * option (list byte)) : list (list byte) :=
  match snd e with
  | Some v => if joined then [dashed (fst e) ++ EQUALS :: v] else [dashed (fst e); v]
  | None => [dashed (fst e)]
  end.
Definition spelling (l : list (bool * (rstring * option (list byte)))) : list (list byte) :=
  l ≫= λ e, spelled (fst e) (snd e).

(** A spelling is read back when a value on its own is not read as an option. *)
Definition readable (e : bool * (rstring * option (list byte))) : bool :=
  match snd (snd e) with
  | Some v => if fst e then bool_decide (v ≠ []) else negb (hyphened v)
  | None => true
  end.

(** A name that clap's documentation allows for a long option. *)
Definition plain_name (o : Opt) : bool :=
  bool_decide (long o ≠ []) && forallb is_scalar (long o) && negb (bool_decide (EQUALS ∈ encode (long o))).

(** What the documentation of clap promises of options declared so: a spelling of
    options that meet the constraints is read as them; what is read meets the
    constraints, its values being parts of arguments; and an option that takes a
    value does not take one with a leading hyphen ([allow_hyphen_values] is off). *)
Class ClapLaws `{Clap} : Prop := {
  clap_reads (opts : list Opt) (l : list (bool * (rstring * option (list byte)))) :
    forallb plain_name opts = true → valid opts (snd <$> l) = true →
    forallb readable l = true → clap opts (spelling l) = Some (snd <$> l);
  clap_sound (opts : list Opt) (args : list (list byte)) (m : Matches) :
    clap opts args = Some m →
    valid opts m = true ∧
    Forall (λ e, ∀ v, snd e = Some v → ∃ a, a ∈ args ∧ v `suffix_of` a) m;
  clap_hyphen (opts : list Opt) (pre post : list (list byte)) (o : Opt) (v : list byte) :
    declared opts (long o) = Some o → plain_name o = true → takes o = OneValue → hyphened v = true →
    clap opts (pre ++ dashed (long o) :: v :: post) = None;
}.

(** A parser of text does not take an argument that is not UTF-8. *)
Definition on_text {A} (parse : rstring → option A) (value : list byte) : option A := decode value ≫= parse.
Definition accepted {A} (parse : list byte → option A) (value : list byte) : bool :=
  bool_decide (is_Some (parse value)).
(** What clap keeps of a path: any bytes but none. *)
Definition path_value (value : list byte) : option (list byte) :=
  if bool_decide (value = []) then None else Some value.
Definition ok {E A} (r : result E A) : option A := match r with Ok a => Some a | Err _ => None end.

Definition parse_pid (value : rstring) : option Z :=
  pid ← parse_signed 32 value; if 2 <=? pid then Some pid else None.

Section Options.
Context (is_format_control : char → bool) (is_file : list byte → bool).

Definition flag (name : string) (conflicts : list rstring) (requires : list rstring) : Opt :=
  mkOpt (str name) [] Flag (λ _, true) requires conflicts false false.
Definition option_of {A} (name : string) (parse : list byte → option A) (requires conflicts : list rstring) : Opt :=
  mkOpt (str name) [] OneValue (accepted parse) requires conflicts false false.
Definition required_option {A} (name : string) (parse : list byte → option A) : Opt :=
  mkOpt (str name) [] OneValue (accepted parse) [] [] false true.
Definition preview_option {A} (names : list (rstring * A)) (requires conflicts : list rstring) : Opt :=
  mkOpt (str "preview") [] OptionalValue (accepted (on_text (from_name names))) requires conflicts false false.

Definition file_parser : list byte → option (list byte) := on_text (λ v, ok (parse_wallpaper_file is_file v)).
Definition output_parser : list byte → option rstring := on_text (λ v, ok (parse_output_name v)).
Definition dimension_parser : list byte → option Z := on_text (λ v, ok (parse_dimension v)).
Definition fd_parser : list byte → option Z := on_text (λ v, ok (parse_ready_fd v)).
Definition appearance_parser : list byte → option WallpaperAppearance := on_text (from_name WallpaperAppearances).
Definition catalog_parser : list byte → option Catalog := on_text (from_name Catalogs).

Definition reduce_motion_option : Opt :=
  mkOpt (str "reduce-motion") [str "static-wallpaper"] Flag (λ _, true) [] [] false false.

(** [LoginArguments], [LockArguments], [WallpaperArguments], [HeicWorkerArguments]
    and [VerifyWallpapersArguments]. *)
Definition LoginOptions : list Opt :=
  [mkOpt (str "list-preview-fixtures") [] Flag (λ _, true) [] [] true false;
   option_of "username" (on_text (λ v, ok (parse_username is_format_control v))) [] [];
   option_of "display-name" (on_text (λ v, ok (parse_display_name is_format_control v))) [str "username"] [];
   flag "windowed" [] [];
   preview_option PreviewFixtures [str "windowed"] [];
   option_of "width" dimension_parser [str "windowed"; str "height"] [];
   option_of "height" dimension_parser [str "windowed"; str "width"] [];
   option_of "wallpaper" catalog_parser [] [];
   option_of "wallpaper-file" file_parser [] [];
   reduce_motion_option;
   flag "animated-preview" [] [str "preview"];
   option_of "appearance" appearance_parser [] [];
   option_of "authentication-output" output_parser [] [str "windowed"]].

Definition LockOptions : list Opt :=
  [preview_option LockFixtures [] [str "daemonize"; str "ready-fd"];
   option_of "width" dimension_parser [str "preview"; str "height"] [];
   option_of "height" dimension_parser [str "preview"; str "width"] [];
   flag "daemonize" [str "ready-fd"] [];
   option_of "ready-fd" fd_parser [] [];
   option_of "wallpaper" catalog_parser [] [];
   option_of "wallpaper-file" file_parser [] [];
   reduce_motion_option;
   option_of "appearance" appearance_parser [] [];
   option_of "authentication-output" output_parser [] [str "preview"]].

Definition WallpaperOptions : list Opt :=
  [required_option "file" (on_text (λ v, ok (parse_heic_wallpaper_file is_file v)));
   flag "reduce-motion" [] [];
   option_of "appearance" appearance_parser [] [];
   flag "solar" [] []].

Definition HeicWorkerOptions : list Opt :=
  [required_option "file" path_value;
   option_of "appearance" appearance_parser [] [];
   flag "reduce-motion" [] [];
   required_option "parent-pid" (on_text parse_pid)].

Definition VerifyWallpapersOptions : list Opt :=
  [required_option "file" path_value; required_option "expect-frames" (on_text (parse_unsigned 64))].

(** *** What the parsed options are *)

Record LoginArguments := mkLogin {
  list_preview_fixtures : bool;
  username : option rstring;
  display_name : option rstring;
  windowed : bool;
  preview : option PreviewFixture;
  width : option Z;
  height : option Z;
  wallpaper : Catalog;
  wallpaper_file : option (list byte);
  reduce_motion : bool;
  animated_preview : bool;
  appearance : WallpaperAppearance;
  authentication_output : option rstring;
}.

Record LockArguments := mkLock {
  lock_preview : option LockFixture;
  lock_width : option Z;
  lock_height : option Z;
  daemonize : bool;
  ready_fd : option Z;
  lock_wallpaper : Catalog;
  lock_wallpaper_file : option (list byte);
  lock_reduce_motion : bool;
  lock_appearance : WallpaperAppearance;
  lock_authentication_output : option rstring;
}.

Record WallpaperArguments := mkWallpaper {
  file : list byte;
  wallpaper_reduce_motion : bool;
  wallpaper_appearance : WallpaperAppearance;
  solar : bool;
}.

Record HeicWorkerArguments := mkHeicWorker {
  heic_file : list byte;
  heic_appearance : WallpaperAppearance;
  heic_reduce_motion : bool;
  parent_pid : Z;
}.

Record VerifyWallpapersArguments := mkVerify { verify_file : list byte; expect_frames : Z }.

(** The value of an option, by its own parser; [--preview] alone stands for the
    missing value that it declares. *)
Definition parsed {A} (m : Matches) (name : string) (parse : list byte → option A) : option A :=
  value_of m (str name) ≫= parse.
Definition parsed_preview {A} (m : Matches) (names : list (rstring * A)) (missing : A) : option A :=
  if given m (str "preview") then
    match value_of m (str "preview") with
    | Some v => on_text (from_name names) v
    | None => Some missing
    end
  else None.

Definition login_arguments (m : Matches) : LoginArguments :=
  mkLogin (given m (str "list-preview-fixtures"))
    (parsed m "username" (on_text (λ v, ok (parse_username is_format_control v))))
    (parsed m "display-name" (on_text (λ v, ok (parse_display_name is_format_control v))))
    (given m (str "windowed")) (parsed_preview m PreviewFixtures Selected)
    (parsed m "width" dimension_parser) (parsed m "height" dimension_parser)
    (default TahoeBeach (parsed m "wallpaper" catalog_parser)) (parsed m "wallpaper-file" file_parser)
    (given m (str "reduce-motion")) (given m (str "animated-preview"))
    (default Automatic (parsed m "appearance" appearance_parser))
    (parsed m "authentication-output" output_parser).

Definition lock_arguments (m : Matches) : LockArguments :=
  mkLock (parsed_preview m LockFixtures Prompt)
    (parsed m "width" dimension_parser) (parsed m "height" dimension_parser)
    (given m (str "daemonize")) (parsed m "ready-fd" fd_parser)
    (default TahoeBeach (parsed m "wallpaper" catalog_parser)) (parsed m "wallpaper-file" file_parser)
    (given m (str "reduce-motion")) (default Automatic (parsed m "appearance" appearance_parser))
    (parsed m "authentication-output" output_parser).

Definition wallpaper_arguments (m : Matches) : option WallpaperArguments :=
  file ← parsed m "file" (on_text (λ v, ok (parse_heic_wallpaper_file is_file v)));
  Some (mkWallpaper file (given m (str "reduce-motion"))
          (default Automatic (parsed m "appearance" appearance_parser)) (given m (str "solar"))).

Definition heic_worker_arguments (m : Matches) : option HeicWorkerArguments :=
  file ← parsed m "file" path_value;
  pid ← parsed m "parent-pid" (on_text parse_pid);
  Some (mkHeicWorker file (default Automatic (parsed m "appearance" appearance_parser))
          (given m (str "reduce-motion")) pid).

Definition verify_wallpapers_arguments (m : Matches) : option VerifyWallpapersArguments :=
  file ← parsed m "file" path_value;
  frames ← parsed m "expect-frames" (on_text (parse_unsigned 64));
  Some (mkVerify file frames).

Inductive Command :=
| Login (a : LoginArguments)
| Lock (a : LockArguments)
| WallpaperCommand (a : WallpaperArguments)
| HeicWorker (a : HeicWorkerArguments)
| VerifyWallpapers (a : VerifyWallpapersArguments).

(** [Arguments::parse]: the name of the subcommand, and its options. *)
Definition parse_command `{Clap} (arguments : list (list byte)) : option Command :=
  match arguments with
  | [] => None
  | name :: rest =>
    if bool_decide (name = bytes_of "login") then Login ∘ login_arguments <$> clap LoginOptions rest
    else if bool_decide (name = bytes_of "lock") then Lock ∘ lock_arguments <$> clap LockOptions rest
    else if bool_decide (name = bytes_of "wallpaper")
    then m ← clap WallpaperOptions rest; WallpaperCommand <$> wallpaper_arguments m
    else if bool_decide (name = bytes_of "heic-worker")
    then m ← clap HeicWorkerOptions rest; HeicWorker <$> heic_worker_arguments m
    else if bool_decide (name = bytes_of "verify-wallpapers")
    then m ← clap VerifyWallpapersOptions rest; VerifyWallpapers <$> verify_wallpapers_arguments m
    else None
  end.
End Options.

(** ** What the subcommands run *)

Definition DEFAULT_WINDOW_WIDTH : Z := 1280.
Definition DEFAULT_WINDOW_HEIGHT : Z := 800.

Definition animate_wallpaper (preview reduce_motion animated_preview : bool) : bool :=
  negb reduce_motion && (negb preview || animated_preview).
Definition login_wallpaper_animate (is_heic preview reduce_motion animated_preview : bool) : bool :=
  if is_heic then negb preview || animated_preview
  else animate_wallpaper preview reduce_motion animated_preview.
Definition lock_wallpaper_animate (is_heic reduce_motion : bool) : bool := is_heic || negb reduce_motion.

Definition appearance_preference (a : WallpaperAppearance) : DynamicModel.AppearancePreference :=
  match a with
  | Automatic => DynamicModel.Automatic
  | Light => DynamicModel.Light
  | Dark => DynamicModel.Dark
  end.

Definition is_heic (path : option (list byte)) : bool := from_option is_heic_path false path.

(** [app::Config], with the monitor by the output that is asked for. *)
Record LoginConfig := mkLoginConfig {
  config_username : option rstring;
  config_display_name : option rstring;
  config_preview : option PreviewFixture;
  monitor : option (option rstring);
  config_wallpaper : Settings;
}.

Inductive Run :=
| ListFixtures (names : list rstring)
| RunLogin (config : LoginConfig) (size : Z * Z) (decorations : bool).

(** [connected] is whether the monitor of the outputs could connect. *)
Definition run_login (connected : bool) (a : LoginArguments) : Run :=
  if list_preview_fixtures a then ListFixtures (fst <$> PreviewFixtures)
  else
    let output_monitor :=
      if windowed a then None else if connected then Some (authentication_output a) else None in
    let preview_mode := bool_decide (is_Some (preview a)) in
    let animate :=
      login_wallpaper_animate (is_heic (wallpaper_file a)) preview_mode (reduce_motion a) (animated_preview a) in
    RunLogin
      (mkLoginConfig (username a) (display_name a) (preview a) output_monitor
         (mkSettings (wallpaper a) (wallpaper_file a) animate (reduce_motion a)
            (appearance_preference (appearance a))))
      (default DEFAULT_WINDOW_WIDTH (width a), default DEFAULT_WINDOW_HEIGHT (height a))
      (windowed a).

(** [locker::Config]. *)
Record LockConfig := mkLockConfig {
  config_authentication_output : option rstring;
  config_lock_wallpaper : Settings;
  config_ready_fd : option Z;
}.

Definition lock_config (a : LockArguments) : LockConfig :=
  mkLockConfig (lock_authentication_output a)
    (mkSettings (lock_wallpaper a) (lock_wallpaper_file a)
       (lock_wallpaper_animate (is_heic (lock_wallpaper_file a)) (lock_reduce_motion a))
       (lock_reduce_motion a) (appearance_preference (lock_appearance a)))
    (ready_fd a).

(** [CString::new]: [None] is a byte that is zero. *)
Definition c_string (s : list byte) : option (list byte) :=
  if existsb (λ b, bool_decide (b = Byte.x00)) s then None else Some s.

(** What ends [daemon_child_arguments]: an error, or the panic of [expect]. *)
Inductive ArgumentError := InvalidInput | ArgumentPanic.

Definition daemon_child_arguments (a : LockArguments) : result ArgumentError (list (list byte)) :=
  path ← match lock_wallpaper_file a with
         | Some path => p ← ok_or InvalidInput (c_string path); Ok [bytes_of "--wallpaper-file"; p]
         | None => Ok []
         end;
  let motion := if lock_reduce_motion a then [bytes_of "--reduce-motion"] else [] in
  let appearance :=
    if bool_decide (lock_appearance a = Automatic) then []
    else [bytes_of "--appearance"; encode (appearance_name (lock_appearance a))] in
  output ← match lock_authentication_output a with
           | Some output =>
             o ← ok_or ArgumentPanic (c_string (encode output)); Ok [bytes_of "--authentication-output"; o]
           | None => Ok []
           end;
  Ok ([bytes_of "lock"; bytes_of "--ready-fd"; bytes_of "3"; bytes_of "--wallpaper";
       encode (catalog_name (lock_wallpaper a))] ++ path ++ motion ++ appearance ++ output).

Inductive LockRun :=
| LockPreview (settings : Settings) (fixture : LockFixture) (width height : Z)
| LockDaemon (child_arguments : list (list byte))
| LockForeground (config : LockConfig)
| LockFails (e : ArgumentError).

Definition run_lock (a : LockArguments) : LockRun :=
  match lock_preview a with
  | Some fixture =>
    LockPreview (mkSettings (lock_wallpaper a) (lock_wallpaper_file a) false false
                   (appearance_preference (lock_appearance a))) fixture
      (default DEFAULT_WINDOW_WIDTH (lock_width a)) (default DEFAULT_WINDOW_HEIGHT (lock_height a))
  | None =>
    if daemonize a then
      match daemon_child_arguments a with
      | Ok child => LockDaemon child
      | Err e => LockFails e
      end
    else LockForeground (lock_config a)
  end.

(** [run_verify_wallpapers], over what the document gives: the number of its
    images and each of them, decoded. *)
Inductive VerifyError := VOpen | VCount (found : nat) | VDecode (position : nat) | VEmpty (position : nat).

Fixpoint verify_frames {E} (decode : nat → result E HeicFrame.RgbaFrame) (position remaining : nat) :
    result VerifyError unit :=
  match remaining with
  | O => Ok tt
  | S remaining =>
    match decode position with
    | Err _ => Err (VDecode position)
    | Ok f =>
      if (HeicFrame.width f =? 0) || (HeicFrame.height f =? 0) || bool_decide (HeicFrame.pixels f = [])
      then Err (VEmpty position)
      else verify_frames decode (S position) remaining
    end
  end.
Definition run_verify_wallpapers {E} (opened : result E (nat * (nat → result E HeicFrame.RgbaFrame)))
    (a : VerifyWallpapersArguments) : result VerifyError unit :=
  match opened with
  | Err _ => Err VOpen
  | Ok (count, decode) =>
    if negb (Z.of_nat count =? expect_frames a) then Err (VCount count) else verify_frames decode 0 count
  end.

(** [desktop_wallpaper::Config]. *)
Record WallpaperConfig := mkWallpaperConfig {
  config_file : list byte;
  config_appearance : DynamicModel.AppearancePreference;
  config_reduced_motion : bool;
  config_solar : bool;
}.
Definition run_wallpaper (a : WallpaperArguments) : WallpaperConfig :=
  mkWallpaperConfig (file a) (appearance_preference (wallpaper_appearance a)) (wallpaper_reduce_motion a) (solar a).

(** [main], after the arguments are parsed: what is run. *)
Inductive Program :=
| LoginProgram (r : Run)
| LockProgram (r : LockRun)
| WallpaperProgram (c : WallpaperConfig)
| HeicWorkerProgram (file : list byte) (appearance : DynamicModel.AppearancePreference) (reduce_motion : bool)
    (parent_pid : Z)
| VerifyProgram (a : VerifyWallpapersArguments).

Definition main (connected : bool) (c : Command) : Program :=
  match c with
  | Login a => LoginProgram (run_login connected a)
  | Lock a => LockProgram (run_lock a)
  | WallpaperCommand a => WallpaperProgram (run_wallpaper a)
  | HeicWorker a =>
    HeicWorkerProgram (heic_file a) (appearance_preference (heic_appearance a)) (heic_reduce_motion a) (parent_pid a)
  | VerifyWallpapers a => VerifyProgram a
  end.
