(* ===== verification/CommandLineProofs.v ===== *)
(** * Command lines that the program writes for itself

    A grammar of options that keeps what [CommandLine.ClapLaws] asks, what an
    accepted command line amounts to, and the command lines of the processes that
    the program starts: the child of a daemonized lock and the workers of HEIC
    wallpapers read back the configuration that their parent wrote. *)

From S2P Require Import Prelude Utf8 Text CommandLine.
From S2P Require Wallpaper Accounts DynamicModel HeicWorker.

(** ** A grammar of options *)

Definition find_option (opts : list Opt) (name : rstring) : option Opt :=
  match declared opts name with
  | Some o => Some o
  | None => List.find (λ o, bool_decide (name ∈ aliases o)) opts
  end.

(** The option an argument names, and the value that is joined to it. *)
Definition option_at (opts : list Opt) (arg : list byte) : option (Opt * option (list byte)) :=
  body ← strip_prefix [HYPHEN; HYPHEN] arg;
  let '(name, value) :=
    match split_once_str [EQUALS] body with Some (n, v) => (n, Some v) | None => (body, None) end in
  name ← decode name; o ← find_option opts name; Some (o, value).

Fixpoint scan (opts : list Opt) (args : list (list byte)) : option (list (rstring * option (list byte))) :=
  match args with
  | [] => Some []
  | a :: rest =>
    '(o, value) ← option_at opts a;
    match takes o, value, rest with
    | Flag, None, _ => cons (long o, None) <$> scan opts rest
    | Flag, Some _, _ => None
    | _, Some v, _ => if bool_decide (v = []) then None else cons (long o, Some v) <$> scan opts rest
    | OneValue, None, v :: rest =>
      if hyphened v then None else cons (long o, Some v) <$> scan opts rest
    | OneValue, None, [] => None
    | OptionalValue, None, v :: rest' =>
      if hyphened v then cons (long o, None) <$> scan opts rest else cons (long o, Some v) <$> scan opts rest'
    | OptionalValue, None, [] => Some [(long o, None)]
    end
  end.

#[local] Instance simple_clap : Clap := λ opts args,
  m ← scan opts args; if valid opts m then Some m else None.

(** *** It keeps the laws *)

Lemma forallb_iff {A} (p : A → bool) l : forallb p l = true ↔ Forall (λ x, p x = true) l.
Proof.
  induction l as [|x l IH]; cbn; [by split|]. by rewrite andb_true_iff, IH, Forall_cons.
Qed.
Lemma split_once_at (b : byte) (p v : list byte) : b ∉ p → split_once_str [b] (p ++ b :: v) = Some (p, v).
Proof.
  induction p as [|c p IH]; intros Hb; cbn; [by rewrite bool_decide_true|].
  apply not_elem_of_cons in Hb as [Hc Hb]. rewrite bool_decide_false by done. by rewrite IH.
Qed.
Lemma split_once_none (b : byte) (p : list byte) : b ∉ p → split_once_str [b] p = None.
Proof.
  induction p as [|c p IH]; intros Hb; cbn; [done|].
  apply not_elem_of_cons in Hb as [Hc Hb]. rewrite bool_decide_false by done. by rewrite IH.
Qed.

Lemma declared_Some opts name o : declared opts name = Some o → o ∈ opts ∧ long o = name.
Proof.
  unfold declared. intros [Hin Hb]%find_some. simp_bool. split; [by apply list_elem_of_In | done].
Qed.

Lemma plain_name_iff o :
  plain_name o = true ↔ long o ≠ [] ∧ wf_string (long o) ∧ EQUALS ∉ encode (long o).
Proof.
  unfold plain_name. rewrite !andb_true_iff, negb_true_iff, bool_decide_eq_true, bool_decide_eq_false.
  rewrite forallb_iff. tauto.
Qed.

Lemma option_at_dashed opts o :
  plain_name o = true → declared opts (long o) = Some o → option_at opts (dashed (long o)) = Some (o, None).
Proof.
  intros (_ & Hwf & Heq)%plain_name_iff Ho. unfold option_at, find_option.
  change (strip_prefix _ _) with (Some (encode (long o))). cbn [mbind option_bind].
  rewrite split_once_none, decode_encode by done. cbn. by rewrite Ho.
Qed.
Lemma option_at_joined opts o v :
  plain_name o = true → declared opts (long o) = Some o →
  option_at opts (dashed (long o) ++ EQUALS :: v) = Some (o, Some v).
Proof.
  intros (_ & Hwf & Heq)%plain_name_iff Ho. unfold option_at, find_option.
  change (strip_prefix _ _) with (Some (encode (long o) ++ EQUALS :: v)). cbn [mbind option_bind].
  rewrite split_once_at, decode_encode by done. cbn. by rewrite Ho.
Qed.

Lemma hyphened_dashed name : hyphened (dashed name) = true.
Proof. done. Qed.
Lemma hyphened_spelling j e l : ∃ a r, spelled j e ++ l = a :: r ∧ hyphened a = true.
Proof. unfold spelled. destruct (snd e), j; cbn; eauto. Qed.

(** What [valid] says of each option that is given. *)
Lemma valid_inv opts m :
  valid opts m = true →
  NoDup (fst <$> m) ∧
  Forall (λ e, ∃ o, declared opts (fst e) = Some o ∧ takes_value o (snd e) = true ∧
                    (∀ r, r ∈ requires o → given m r = true) ∧
                    (∀ c, c ∈ conflicts o → given m c = false) ∧
                    (exclusive o = true → length m = 1%nat)) m ∧
  (∀ o, o ∈ opts → required o = true → given m (long o) = true).
Proof.
  unfold valid. intros [[Hnd Hv]%andb_true_iff Hq]%andb_true_iff. simp_bool. split_and!; [done| |].
  - apply forallb_iff in Hv. eapply Forall_impl; [exact Hv|]. intros [n v] He. unfold valid_option in He.
    cbn [fst snd] in *. destruct (declared opts n) as [o|]; [|done].
    apply andb_true_iff in He as [[[Ht Hr]%andb_true_iff Hc]%andb_true_iff Hx]. exists o.
    rewrite forallb_iff, Forall_forall in Hr, Hc. split_and!; [done..| |].
    + intros c Hin. specialize (Hc _ Hin). by simp_bool.
    + intros E. rewrite E in Hx. by apply bool_decide_eq_true in Hx.
  - intros o Ho Hr. rewrite forallb_iff, Forall_forall in Hq. specialize (Hq _ Ho). by rewrite Hr in Hq.
Qed.

Lemma scan_spelling opts l :
  forallb plain_name opts = true →
  Forall (λ e, ∃ o, declared opts (fst (snd e)) = Some o ∧ takes_value o (snd (snd e)) = true) l →
  forallb readable l = true → scan opts (spelling l) = Some (snd <$> l).
Proof.
  intros Hp. rewrite forallb_iff, Forall_forall in Hp.
  induction l as [|[j [n v]] l IH]; [done|]. intros [(o & Ho & Ht) Hl]%Forall_cons Hr.
  cbn [forallb] in Hr. simp_bool. specialize (IH Hl ltac:(done)). cbn [fst snd] in *.
  destruct (declared_Some _ _ _ Ho) as [Hin <-]. specialize (Hp _ Hin).
  change (spelling ((j, (long o, v)) :: l)) with (spelled j (long o, v) ++ spelling l).
  unfold spelled, readable in *. cbn [fst snd] in *. destruct v as [v|]; [destruct j|].
  - cbn [app scan]. rewrite option_at_joined by done. cbn. simp_bool. unfold takes_value in Ht.
    rewrite bool_decide_false by done. rewrite IH. by destruct (takes o).
  - cbn [app scan]. rewrite option_at_dashed by done. cbn. simp_bool. unfold takes_value in Ht.
    rewrite H, IH. by destruct (takes o).
  - cbn [app scan]. rewrite option_at_dashed by done. cbn. unfold takes_value in Ht.
    destruct (takes o) eqn:E; [by rewrite IH|done|].
    destruct l as [|[j' e] l]; [done|].
    change (spelling ((j', e) :: l)) with (spelled j' e ++ spelling l) in *.
    destruct (hyphened_spelling j' e (spelling l)) as (a & r & Ha & Hh). rewrite Ha in *.
    by rewrite Hh, IH.
Qed.

Lemma split_once_app (b : byte) (s p v : list byte) : split_once_str [b] s = Some (p, v) → s = p ++ b :: v.
Proof.
  revert p. induction s as [|c s IH]; intros p; cbn; [done|]. case_bool_decide; [by intros [= <- <-]; subst|].
  destruct (split_once_str [b] s) as [[p' v']|]; cbn; [|done]. intros [= <- ->]. cbn. f_equal. by apply IH.
Qed.

Lemma option_at_suffix opts a o v : option_at opts a = Some (o, Some v) → v `suffix_of` a.
Proof.
  unfold option_at. destruct (strip_prefix _ a) as [body|] eqn:E; cbn [mbind option_bind]; [|done].
  apply strip_prefix_Some in E as ->. destruct (split_once_str _ body) as [[n w]|] eqn:E.
  - apply split_once_app in E as ->. destruct (decode n); cbn; [|done].
    destruct (find_option _ _); cbn; [|done]. intros [= _ ->]. exists ([HYPHEN; HYPHEN] ++ n ++ [EQUALS]).
    by rewrite <- !(assoc_L (++)).
  - destruct (decode body); cbn; [|done]. by destruct (find_option _ _).
Qed.

(** What is read of the first arguments, and what is left to read. *)
Lemma scan_inv opts a rest m :
  scan opts (a :: rest) = Some m →
  ∃ e m' rest', m = e :: m' ∧ scan opts rest' = Some m' ∧ rest' `suffix_of` rest ∧
                ∀ v, snd e = Some v → ∃ b, b ∈ a :: rest ∧ v `suffix_of` b.
Proof.
  cbn [scan]. destruct (option_at opts a) as [[o value]|] eqn:Ha; cbn [mbind option_bind]; [|done].
  assert (∀ v r, (cons (long o, v) <$> scan opts r) = Some m → r `suffix_of` rest →
    (∀ w, v = Some w → ∃ b, b ∈ a :: rest ∧ w `suffix_of` b) →
    ∃ e m' rest', m = e :: m' ∧ scan opts rest' = Some m' ∧ rest' `suffix_of` rest ∧
                ∀ v, snd e = Some v → ∃ b, b ∈ a :: rest ∧ v `suffix_of` b) as step.
  { intros v r (m' & ? & ->)%fmap_Some Hs Hv. by exists (long o, v), m', r. }
  assert (∀ v, value = Some v → ∃ b, b ∈ a :: rest ∧ v `suffix_of` b) as Hown.
  { intros v ->. exists a. split; [apply list_elem_of_here | by eapply option_at_suffix]. }
  assert (∀ v r, rest = v :: r → ∀ w, Some v = Some w → ∃ b, b ∈ a :: rest ∧ w `suffix_of` b) as Hnext.
  { intros v r -> w [= <-]. exists v. split; [apply list_elem_of_further, list_elem_of_here | done]. }
  destruct (takes o), value as [v|]; try case_bool_decide; try done.
  all: try (intros H'; by eapply step).
  all: destruct rest as [|v rest]; try done.
  - destruct (hyphened v); [done|]. intros H'. eapply step; [done..|by apply suffix_cons_r|by eapply Hnext].
  - intros [= <-]. by exists (long o, None), [], [].
  - destruct (hyphened v); intros H'; eapply step; try done; [by apply suffix_cons_r|by eapply Hnext].
Qed.

Lemma scan_suffix opts args m :
  scan opts args = Some m → Forall (λ e, ∀ v, snd e = Some v → ∃ a, a ∈ args ∧ v `suffix_of` a) m.
Proof.
  remember (length args) as n eqn:Hn. revert args m Hn.
  induction n as [n IH] using lt_wf_ind; intros [|a rest] m ->; [by intros [= <-]; constructor|].
  intros (e & m' & rest' & -> & Hs & [k ->] & He)%scan_inv. constructor; [done|].
  eapply Forall_impl; [apply (IH (length rest')); [rewrite length_cons, length_app; lia|done|done]|].
  cbn. intros e' H v (b & Hb & Hv)%H. exists b. split; [|done].
  by apply list_elem_of_further, elem_of_app; right.
Qed.

(** An option that wants a value finds an option there: nothing is read. *)
Lemma scan_hyphen opts pre post o v :
  declared opts (long o) = Some o → plain_name o = true → takes o = OneValue → hyphened v = true →
  scan opts (pre ++ dashed (long o) :: v :: post) = None.
Proof.
  intros Ho Hp Ht Hv. remember (length pre) as n eqn:Hn. revert pre Hn.
  induction n as [n IH] using lt_wf_ind; intros [|a pre] ->.
  - cbn [app scan]. rewrite option_at_dashed by done. cbn. by rewrite Ht, Hv.
  - cbn [app scan]. destruct (option_at opts a) as [[o' value]|]; cbn [mbind option_bind]; [|done].
    assert (∀ pre', (length pre' < length (a :: pre))%nat →
      scan opts (pre' ++ dashed (long o) :: v :: post) = None) as IH' by (intros; by eapply IH).
    destruct (takes o'), value as [w|]; try case_bool_decide; try done.
    all: try (rewrite (IH' pre) by (cbn; lia); done).
    all: destruct pre as [|b pre]; cbn [app]; [rewrite hyphened_dashed|destruct (hyphened b)]; try done.
    all: try (rewrite (IH' pre) by (cbn; lia); done).
    + pose proof (IH' [] ltac:(cbn; lia)) as E. cbn [app] in E. by rewrite E.
    + pose proof (IH' (b :: pre) ltac:(cbn; lia)) as E. cbn [app] in E. by rewrite E.
Qed.

#[local] Instance simple_laws : ClapLaws.
Proof.
  split; unfold clap, simple_clap.
  - intros opts l Hp Hv Hr. rewrite scan_spelling; [cbn; by rewrite Hv|done| |done].
    apply valid_inv in Hv as (_ & Hv & _). apply Forall_forall. intros e He.
    rewrite Forall_forall in Hv. destruct (Hv (snd e)) as (o & ? & ? & _); [by apply list_elem_of_fmap_2|].
    by exists o.
  - intros opts args m. destruct (scan opts args) as [m'|] eqn:E; cbn; [|done].
    destruct (valid opts m') eqn:Hv; intros [= <-]. split; [done|by eapply scan_suffix].
  - intros opts pre post o v Ho Hp Ht Hv. by rewrite scan_hyphen.
Qed.

(** ** The child of a daemonized lock *)

Section Children.
Context `{ClapLaws}.
Context (is_format_control : char → bool) (is_file : list byte → bool).

(** What the child is told, as the options that it should read. *)
Definition child_options (a : LockArguments) : list (rstring * option (list byte)) :=
  [(str "ready-fd", Some (bytes_of "3")); (str "wallpaper", Some (encode (catalog_name (lock_wallpaper a))))]
  ++ from_option (λ path, [(str "wallpaper-file", Some path)]) [] (lock_wallpaper_file a)
  ++ (if lock_reduce_motion a then [(str "reduce-motion", None)] else [])
  ++ (if bool_decide (lock_appearance a = Automatic) then []
      else [(str "appearance", Some (encode (appearance_name (lock_appearance a))))])
  ++ from_option (λ o, [(str "authentication-output", Some (encode o))]) [] (lock_authentication_output a).

Lemma accepted_Some {A} (parse : list byte → option A) v x : parse v = Some x → accepted parse v = true.
Proof. unfold accepted. by intros ->. Qed.

Definition no_zero (s : list byte) : Prop := Byte.x00 ∉ s.

Lemma c_string_Some s : no_zero s → c_string s = Some s.
Proof.
  unfold no_zero, c_string. intros Hs. destruct (existsb _ s) eqn:E; [|done].
  apply existsb_exists in E as (b & Hb & E). simp_bool. subst. by apply list_elem_of_In in Hb.
Qed.

Lemma daemon_child_written a :
  (∀ path, lock_wallpaper_file a = Some path → no_zero path) →
  (∀ o, lock_authentication_output a = Some o → no_zero (encode o)) →
  daemon_child_arguments a = Ok (bytes_of "lock" :: spelling (pair false <$> child_options a)).
Proof.
  intros Hp Ho. unfold daemon_child_arguments, child_options.
  destruct (lock_wallpaper_file a) as [path|]; [rewrite (c_string_Some _ (Hp _ eq_refl))|]; cbn -[encode bytes_of].
  all: destruct (lock_authentication_output a) as [o|]; [rewrite (c_string_Some _ (Ho _ eq_refl))|].
  all: destruct (lock_reduce_motion a), (lock_appearance a), (lock_wallpaper a); reflexivity.
Qed.

Lemma child_options_valid a :
  (∀ path, lock_wallpaper_file a = Some path → file_parser is_file path = Some path) →
  (∀ o, lock_authentication_output a = Some o → output_parser (encode o) = Some o) →
  valid (LockOptions is_file) (child_options a) = true.
Proof.
  intros Hf Ho. unfold LockOptions, child_options, option_of.
  assert (∀ path, lock_wallpaper_file a = Some path → accepted (file_parser is_file) path = true) as Hf'.
  { intros path E. by eapply accepted_Some, Hf. }
  assert (∀ o, lock_authentication_output a = Some o → accepted output_parser (encode o) = true) as Ho'.
  { intros o E. by eapply accepted_Some, Ho. }
  clear Hf Ho. revert Hf' Ho'. generalize (accepted (file_parser is_file)), (accepted output_parser).
  intros fp op Hf Ho. destruct (lock_wallpaper_file a) as [path|]; [specialize (Hf _ eq_refl)|].
  all: destruct (lock_authentication_output a) as [o|]; [specialize (Ho _ eq_refl); revert Ho; cbn [from_option]; generalize (encode o)|].
  all: destruct (lock_reduce_motion a), (lock_appearance a), (lock_wallpaper a); intros.
  all: vm_compute; rewrite ?Hf, ?Ho; reflexivity.
Qed.

(** What the child reads of it. *)
Lemma child_options_read a :
  (∀ path, lock_wallpaper_file a = Some path → file_parser is_file path = Some path) →
  (∀ o, lock_authentication_output a = Some o → output_parser (encode o) = Some o) →
  lock_arguments is_file (child_options a) =
    mkLock None None None false (Some 3) (lock_wallpaper a) (lock_wallpaper_file a)
      (lock_reduce_motion a) (lock_appearance a) (lock_authentication_output a).
Proof.
  unfold lock_arguments, child_options. generalize (file_parser is_file), output_parser.
  intros fp op Hf Ho. destruct (lock_wallpaper_file a) as [path|]; [specialize (Hf _ eq_refl)|].
  all: destruct (lock_authentication_output a) as [o|]; [specialize (Ho _ eq_refl); revert Ho; cbn [from_option]; generalize (encode o)|].
  all: destruct (lock_reduce_motion a), (lock_appearance a), (lock_wallpaper a); intros.
  all: vm_compute; rewrite ?Hf, ?Ho; reflexivity.
Qed.

Lemma child_options_readable a :
  (∀ path, lock_wallpaper_file a = Some path → hyphened path = false) →
  (∀ o, lock_authentication_output a = Some o → hyphened (encode o) = false) →
  forallb readable (pair false <$> child_options a) = true.
Proof.
  intros Hf Ho. unfold child_options. rewrite !fmap_app, !forallb_app, !andb_true_iff. split_and!.
  - by destruct (lock_wallpaper a).
  - destruct (lock_wallpaper_file a) as [path|]; [|done]. cbn. by rewrite Hf.
  - by destruct (lock_reduce_motion a).
  - by destruct (lock_appearance a).
  - destruct (lock_authentication_output a) as [o|]; [|done]. cbn -[hyphened]. by rewrite Ho.
Qed.

Lemma LockOptions_plain : forallb plain_name (LockOptions is_file) = true.
Proof. reflexivity. Qed.

(** *** What the parent has accepted *)

Lemma file_parser_Some v path :
  file_parser is_file v = Some path →
  v = path ∧ is_absolute path = true ∧ (is_movie path || Wallpaper.is_heic_path path) = true ∧
  (is_movie path = true → is_file path = true).
Proof.
  unfold file_parser, on_text. destruct (decode v) as [s|] eqn:E; cbn [mbind option_bind]; [|done].
  apply decode_sound in E as [<- _]. unfold parse_wallpaper_file.
  destruct (is_absolute (encode s)) eqn:Ea; cbn [negb ok]; [|done].
  destruct (is_movie (encode s)) eqn:Em, (Wallpaper.is_heic_path (encode s)) eqn:Eh,
    (is_file (encode s)) eqn:Ef; intros [=]; subst; rewrite ?Ea, ?Em, ?Eh, ?Ef; auto.
Qed.
Lemma absolute_unhyphened path : is_absolute path = true → hyphened path = false.
Proof. destruct path as [|b [|c path]]; [done..|]. cbn. intros E. simp_bool. by subst. Qed.

Lemma output_parser_Some v o :
  output_parser v = Some o →
  v = encode o ∧ o ≠ [] ∧ str_len o ≤ 256 ∧ Forall (λ c, is_control c = false) o.
Proof.
  unfold output_parser, on_text. destruct (decode v) as [s|] eqn:E; cbn [mbind option_bind]; [|done].
  apply decode_sound in E as [<- _]. unfold parse_output_name.
  destruct (bool_decide (s = [])) eqn:E0; [done|]. destruct (256 <? str_len s) eqn:E1; [done|].
  destruct (existsb is_control s) eqn:E2; [done|]. cbn. intros [= <-]. simp_bool. split_and!; try done.
  apply Forall_forall. intros c Hc. destruct (is_control c) eqn:E; [|done].
  assert (existsb is_control s = true); [|congruence].
  apply existsb_exists. exists c. by rewrite <- list_elem_of_In.
Qed.

Lemma value_of_in m name v : value_of m name = Some v → (name, Some v) ∈ m.
Proof.
  unfold value_of. destruct (List.find _ m) as [[n w]|] eqn:E; cbn; [|done]. intros ->.
  apply find_some in E as [Hin Hb]. simp_bool. cbn in Hb. subst. by apply list_elem_of_In.
Qed.

(** The values of accepted options are parts of the arguments: they hold no zero. *)
Lemma value_no_zero opts args m name v :
  clap opts args = Some m → Forall no_zero args → value_of m name = Some v → no_zero v.
Proof.
  intros [_ Hs]%clap_sound Hz Hv%value_of_in. rewrite Forall_forall in Hs. rewrite Forall_forall in Hz.
  destruct (Hs _ Hv _ eq_refl) as (a & Ha & k & ->). specialize (Hz _ Ha).
  unfold no_zero in *. intros Hin. apply Hz, elem_of_app. by right.
Qed.

(** *** The round trip *)

Lemma parsed_value {A} m name (parse : list byte → option A) x :
  parsed m name parse = Some x → ∃ v, value_of m (str name) = Some v ∧ parse v = Some x.
Proof. unfold parsed. destruct (value_of _ _) as [v|]; cbn; [|done]. by exists v. Qed.

Lemma lock_file_value m path :
  lock_wallpaper_file (lock_arguments is_file m) = Some path →
  value_of m (str "wallpaper-file") = Some path ∧ file_parser is_file path = Some path ∧
  hyphened path = false.
Proof.
  intros (v & Hv & Hp)%parsed_value. pose proof (file_parser_Some _ _ Hp) as (-> & Ha & _).
  split_and!; [done..|by apply absolute_unhyphened].
Qed.
Lemma lock_output_value m o :
  lock_authentication_output (lock_arguments is_file m) = Some o →
  value_of m (str "authentication-output") = Some (encode o) ∧ output_parser (encode o) = Some o.
Proof.
  intros (v & Hv & Hp)%parsed_value. by pose proof (output_parser_Some _ _ Hp) as (-> & _).
Qed.

(** What the constraints say of an option that is given. *)
Lemma given_option opts m name o :
  valid opts m = true → given m name = true → declared opts name = Some o →
  (∃ v, (name, v) ∈ m ∧ takes_value o v = true) ∧
  (∀ r, r ∈ requires o → given m r = true) ∧ (∀ c, c ∈ conflicts o → given m c = false) ∧
  (exclusive o = true → length m = 1%nat).
Proof.
  intros (_ & Hv & _)%valid_inv Hg Ho. unfold given in Hg.
  apply existsb_exists in Hg as ([n v] & Hin & Hn). simp_bool. cbn in Hn. subst n.
  apply list_elem_of_In in Hin. rewrite Forall_forall in Hv.
  destruct (Hv _ Hin) as (o' & Ho' & Ht & Hr & Hc & Hx). cbn [fst snd] in *.
  rewrite Ho in Ho'. injection Ho' as <-. split_and!; [by exists v|done..].
Qed.
Lemma value_given m name v : value_of m name = Some v → given m name = true.
Proof.
  intros Hv%value_of_in. apply existsb_exists. exists (name, Some v).
  split; [by apply list_elem_of_In|by apply bool_decide_eq_true].
Qed.
Lemma parsed_given {A} m name (parse : list byte → option A) x :
  parsed m name parse = Some x → given m (str name) = true.
Proof. intros (v & Hv & _)%parsed_value. by eapply value_given. Qed.

(** A daemonized lock runs no preview. *)
Lemma daemonize_no_preview m :
  valid (LockOptions is_file) m = true → daemonize (lock_arguments is_file m) = true →
  lock_preview (lock_arguments is_file m) = None.
Proof.
  intros Hv Hd. change (given m (str "daemonize") = true) in Hd.
  change (parsed_preview m LockFixtures Prompt = None). unfold parsed_preview.
  destruct (given m (str "preview")) eqn:Hg; [|done].
  destruct (given_option _ _ _ _ Hv Hg eq_refl) as (_ & _ & Hc & _).
  specialize (Hc (str "daemonize") (list_elem_of_here _ _)). congruence.
Qed.

Lemma command_child a :
  (∀ path, lock_wallpaper_file a = Some path → file_parser is_file path = Some path ∧ hyphened path = false) →
  (∀ o, lock_authentication_output a = Some o →
    output_parser (encode o) = Some o ∧ hyphened (encode o) = false) →
  parse_command is_format_control is_file (bytes_of "lock" :: spelling (pair false <$> child_options a)) =
    Some (Lock (mkLock None None None false (Some 3) (lock_wallpaper a) (lock_wallpaper_file a)
                  (lock_reduce_motion a) (lock_appearance a) (lock_authentication_output a))).
Proof.
  intros Hf Ho. cbn [parse_command]. rewrite bool_decide_false, bool_decide_true by done.
  assert (snd <$> (pair false <$> child_options a) = child_options a) as Hs.
  { rewrite <- list_fmap_compose. by apply list_fmap_id. }
  rewrite clap_reads; [|apply LockOptions_plain|rewrite Hs; apply child_options_valid|apply child_options_readable].
  2-5: naive_solver. rewrite Hs. cbn. do 2 f_equal. apply child_options_read; naive_solver.
Qed.

Lemma daemon_output_valid v :
  accepted output_parser v = true →
  valid (LockOptions is_file) [(str "daemonize", None); (str "authentication-output", Some v)] = true.
Proof.
  unfold LockOptions, option_of. generalize (accepted output_parser). intros op Hv.
  vm_compute. by rewrite Hv.
Qed.

(** C32.  The child of a daemonized lock locks as its parent was told to: when the
    arguments of [genkan lock] hold no NUL byte (as no argument of a process
    does) and are accepted with [--daemonize], and the name of the output, if
    one is given, does not start with a hyphen, the parent starts a child whose
    command line is accepted in turn; the child locks in the foreground, with the
    wallpaper and the output that the parent was given, and reports that it is
    ready on descriptor 3.  (With a leading hyphen the child's command line is
    refused, see [daemon_child_refuses].) *)
Theorem daemon_child_reads_back args m (a := lock_arguments is_file m) :
  clap (LockOptions is_file) args = Some m → daemonize a = true → Forall no_zero args →
  (∀ o, lock_authentication_output a = Some o → hyphened (encode o) = false) →
  ∃ child b,
    run_lock a = LockDaemon child ∧ parse_command is_format_control is_file child = Some (Lock b) ∧
    run_lock b = LockForeground (mkLockConfig (config_authentication_output (lock_config a))
                                   (config_lock_wallpaper (lock_config a)) (Some 3)).
Proof.
  intros Hm Hd Hz Ho. pose proof (proj1 (clap_sound _ _ _ Hm)) as Hv. unfold a, run_lock in *.
  rewrite (daemonize_no_preview m Hv Hd), Hd, daemon_child_written.
  - eexists _, _. split; [done|]. rewrite command_child; [done|..].
    + by intros path (_ & ? & ?)%lock_file_value.
    + intros o Hout. split; [by eapply lock_output_value|by apply Ho].
  - intros path (Hp & _)%lock_file_value. by eapply value_no_zero.
  - intros o (Hp & _)%lock_output_value. by eapply value_no_zero.
Qed.

(** An output whose name starts with a hyphen is accepted, and the child of the
    daemonized lock refuses its command line. *)
Theorem daemon_child_refuses o :
  wf_string o → parse_output_name o = Ok o → hyphened (encode o) = true → no_zero (encode o) →
  ∃ a child,
    parse_command is_format_control is_file
      [bytes_of "lock"; bytes_of "--daemonize"; bytes_of "--authentication-output=" ++ encode o] =
      Some (Lock a) ∧
    lock_authentication_output a = Some o ∧
    run_lock a = LockDaemon child ∧ parse_command is_format_control is_file child = None.
Proof.
  intros Hwf Ho Hh Hz.
  set (m := [(str "daemonize", None); (str "authentication-output", Some (encode o))]).
  assert (output_parser (encode o) = Some o) as Hp.
  { unfold output_parser, on_text. rewrite decode_encode by done. cbn. by rewrite Ho. }
  assert (parse_command is_format_control is_file
    [bytes_of "lock"; bytes_of "--daemonize"; bytes_of "--authentication-output=" ++ encode o] =
    Some (Lock (lock_arguments is_file m))) as Hparse.
  { cbn [parse_command]. rewrite bool_decide_false, bool_decide_true by done.
    change [bytes_of "--daemonize"; bytes_of "--authentication-output=" ++ encode o]
      with (spelling [(false, (str "daemonize", None)); (true, (str "authentication-output", Some (encode o)))]).
    rewrite clap_reads; [done|apply LockOptions_plain| |].
    - cbn [fmap list_fmap snd]. by eapply daemon_output_valid, accepted_Some.
    - cbn -[encode]. rewrite bool_decide_true; [done|by destruct (encode o)]. }
  assert (lock_arguments is_file m =
    mkLock None None None true None Wallpaper.TahoeBeach None false Automatic (Some o)) as Ha.
  { unfold m, lock_arguments. revert Hp. generalize output_parser, (encode o). intros op v Hp.
    vm_compute. by rewrite Hp. }
  rewrite Ha in Hparse. eexists _, _. split_and!; [exact Hparse|done|..].
  - unfold run_lock. cbn [lock_preview daemonize]. rewrite daemon_child_written; [done|done|].
    by intros ? [= <-].
  - cbn [parse_command]. rewrite bool_decide_false, bool_decide_true by done.
    apply fmap_None.
    apply (clap_hyphen (LockOptions is_file)
             [bytes_of "--ready-fd"; bytes_of "3"; bytes_of "--wallpaper"; bytes_of "tahoe-beach"] []
             (option_of "authentication-output" output_parser [] [str "preview"])); done.
Qed.

(** *** The worker of a HEIC wallpaper *)

Lemma parse_signed_show w n : 0 ≤ n < 2 ^ (w - 1) → parse_signed w (show_dec n) = Some n.
Proof.
  intros Hn. unfold parse_signed. pose proof (show_dec_digits n) as Hd.
  pose proof (digits_show_dec n) as Hs. destruct (show_dec n) as [|c r]; [by specialize (Hs ltac:(lia))|].
  apply Forall_cons in Hd as [Hc _].
  rewrite (proj2 (Z.eqb_neq c MINUS)), (proj2 (Z.eqb_neq c PLUS)) by (unfold MINUS, PLUS; lia).
  rewrite Hs by lia. cbn [mbind option_bind].
  rewrite (proj2 (Z.leb_le _ _)), (proj2 (Z.ltb_lt _ _)) by lia. done.
Qed.

Lemma show_dec_wf n : wf_string (show_dec n).
Proof.
  eapply Forall_impl; [apply show_dec_digits|]. cbn. intros c Hc. unfold is_scalar.
  rewrite (proj2 (Z.leb_le 0 c)), (proj2 (Z.ltb_lt c 55296)) by lia. done.
Qed.
Lemma show_dec_unhyphened n : hyphened (encode (show_dec n)) = false.
Proof.
  pose proof (show_dec_digits n) as Hd. destruct (show_dec n) as [|c r]; [done|].
  apply Forall_cons in Hd as [Hc _]. change (encode (c :: r)) with (encode_char c ++ encode r).
  unfold encode_char. rewrite (proj2 (Z.ltb_lt c 128)) by lia. cbn. destruct (encode r); [done|].
  apply bool_decide_eq_false. intros E. apply (f_equal u8) in E. rewrite u8_to_u8 in E.
  change (u8 HYPHEN) with 45 in E. rewrite Z.mod_small in E by lia. lia.
Qed.

Definition worker_options (path : list byte) (appearance : rstring) (motion : bool) (pid : list byte) :
    list (rstring * option (list byte)) :=
  [(str "file", Some path); (str "appearance", Some (encode appearance)); (str "parent-pid", Some pid)]
  ++ (if motion then [(str "reduce-motion", None)] else []).

Lemma worker_options_valid path a motion pid :
  path ≠ [] → accepted (on_text parse_pid) pid = true →
  valid HeicWorkerOptions (worker_options path (appearance_name a) motion pid) = true.
Proof.
  intros Hp Hpid. assert (accepted path_value path = true) as Hf.
  { apply (accepted_Some _ _ path). unfold path_value. by rewrite bool_decide_false. }
  unfold HeicWorkerOptions, required_option. revert Hpid Hf.
  generalize (accepted (on_text parse_pid)), (accepted path_value). intros op fp Hpid Hf.
  destruct a, motion; vm_compute; by rewrite Hpid, Hf.
Qed.

Lemma worker_options_read path a motion pid n :
  path_value path = Some path → on_text parse_pid pid = Some n →
  heic_worker_arguments (worker_options path (appearance_name a) motion pid) =
    Some (mkHeicWorker path a motion n).
Proof.
  unfold heic_worker_arguments. generalize path_value, (on_text parse_pid). intros fp op Hf Hp.
  destruct a, motion; vm_compute; by rewrite Hf, Hp.
Qed.

(** A HEIC worker does what its parent asked: the command line that the parent
    writes for an absolute path and its own process id is accepted, and names
    that path, that appearance, that motion and that process. *)
Theorem worker_command_reads_back path appearance motion pid :
  is_absolute path = true → 2 ≤ pid < 2 ^ 31 →
  ∃ w,
    parse_command is_format_control is_file
      (HeicWorker.worker_command path appearance motion (show_dec pid)) = Some (HeicWorker w) ∧
    heic_file w = path ∧ appearance_preference (heic_appearance w) = appearance ∧
    heic_reduce_motion w = motion ∧ parent_pid w = pid.
Proof.
  intros Hp Hpid.
  set (a := match appearance with
            | DynamicModel.Automatic => Automatic | DynamicModel.Light => Light | DynamicModel.Dark => Dark
            end).
  set (v := encode (show_dec pid)). set (m := worker_options path (appearance_name a) motion v).
  exists (mkHeicWorker path a motion pid). split; [|by destruct appearance].
  assert (on_text parse_pid v = Some pid) as Hv.
  { unfold on_text, v. rewrite decode_encode by apply show_dec_wf. cbn [mbind option_bind]. unfold parse_pid. rewrite parse_signed_show by lia. cbn. by rewrite (proj2 (Z.leb_le _ _)) by lia. }
  assert (HeicWorker.worker_command path appearance motion (show_dec pid) =
    bytes_of "heic-worker" :: spelling (pair false <$> m)) as ->.
  { unfold m. by destruct appearance, motion. }
  assert (path ≠ []) as Hne by (by intros ->).
  cbn [parse_command]. rewrite !bool_decide_false, bool_decide_true by done.
  assert (snd <$> (pair false <$> m) = m) as Hs.
  { rewrite <- list_fmap_compose. by apply list_fmap_id. }
  rewrite clap_reads; rewrite ?Hs; [|done|by eapply worker_options_valid, accepted_Some|].
  - unfold m. cbn [mbind option_bind]. rewrite worker_options_read with (n := pid); [done| |done].
    unfold path_value. by rewrite bool_decide_false.
  - unfold m, worker_options. rewrite fmap_app, forallb_app, andb_true_iff.
    split; [cbn -[hyphened v]|by destruct motion].
    rewrite absolute_unhyphened by done. unfold v. rewrite show_dec_unhyphened. by destruct a.
Qed.

(** *** What an accepted [genkan login] runs *)

Lemma dimension_parser_Some v d : dimension_parser v = Some d → 320 ≤ d ≤ 16384.
Proof.
  unfold dimension_parser, on_text. destruct (decode v) as [s|]; cbn [mbind option_bind]; [|done].
  unfold parse_dimension. destruct (parse_unsigned 32 s) as [x|]; cbn [ok_or mbind result_bind]; [|done].
  destruct (_ && _) eqn:E; cbn; [|done]. intros [= <-]. simp_bool. lia.
Qed.
Lemma dimension_default m name n d :
  320 ≤ d ≤ 16384 → 320 ≤ default d (parsed m name dimension_parser) ≤ 16384 ∧
  (parsed m name dimension_parser = Some n → 320 ≤ n ≤ 16384).
Proof.
  intros Hd. destruct (parsed m name dimension_parser) as [x|] eqn:E; cbn; [|done].
  apply parsed_value in E as (v & _ & Hx%dimension_parser_Some). split; [done|by intros [= <-]].
Qed.

(** An option that is not given has no value; one that requires it is not given either. *)
Lemma parsed_requires {A} opts m name (parse : list byte → option A) o r :
  valid opts m = true → declared opts (str name) = Some o → r ∈ requires o →
  given m r = false → parsed m name parse = None.
Proof.
  intros Hv Ho Hr Hg. destruct (parsed m name parse) as [x|] eqn:E; [|done].
  apply parsed_given in E. destruct (given_option _ _ _ _ Hv E Ho) as (_ & Hreq & _).
  specialize (Hreq _ Hr). congruence.
Qed.

Lemma in_second {A} (x y : A) : y ∈ [x; y].
Proof. by right; left. Qed.

Lemma parsed_is_given {A} opts m name (parse : list byte → option A) o :
  valid opts m = true → declared opts (str name) = Some o → takes o = OneValue → accepts o = accepted parse →
  given m (str name) = true → is_Some (parsed m name parse).
Proof.
  intros (_ & Hv & _)%valid_inv Ho Ht Ha Hg. unfold parsed, value_of.
  destruct (List.find _ m) as [[n v]|] eqn:E.
  - apply find_some in E as [Hin Hn]. simp_bool. cbn in Hn. subst n.
    apply list_elem_of_In in Hin. rewrite Forall_forall in Hv.
    destruct (Hv _ Hin) as (o' & Ho' & Hval & _). cbn [fst snd] in *.
    rewrite Ho in Ho'. injection Ho' as <-. unfold takes_value in Hval. rewrite Ht in Hval.
    destruct v as [v|]; [|done]. rewrite Ha in Hval. unfold accepted in Hval. by simp_bool.
  - unfold given in Hg. apply existsb_exists in Hg as (e & Hin & He).
    pose proof (find_none _ _ E _ Hin). congruence.
Qed.

Lemma parse_login args a :
  parse_command is_format_control is_file args = Some (Login a) →
  ∃ rest m, clap (LoginOptions is_format_control is_file) rest = Some m ∧
            a = login_arguments is_format_control is_file m.
Proof.
  unfold parse_command. destruct args as [|name args]; [done|].
  case_bool_decide. { intros (m & Hm & [= ->])%fmap_Some. by exists args, m. }
  case_bool_decide. { by intros (m & _ & [=])%fmap_Some. }
  repeat (case_bool_decide; [destruct (clap _ args); [|done]; cbn [mbind option_bind];
                             by intros (? & _ & [=])%fmap_Some|]).
  done.
Qed.

(** What [genkan login] runs, when its arguments are accepted: the window has
    a size within the bounds; unless it is a window, it has the default size, no
    preview and the monitor of the outputs, when that connects; a window has no monitor; a
    display name comes with a user name; a wallpaper file is absolute and is
    either HEIC or a movie that is there; and a preview animates its wallpaper
    only if that is asked for. *)
Theorem login_runs args a connected :
  parse_command is_format_control is_file args = Some (Login a) →
  match run_login connected a with
  | ListFixtures names => names = fst <$> PreviewFixtures
  | RunLogin c (w, h) decorations =>
    320 ≤ w ≤ 16384 ∧ 320 ≤ h ≤ 16384 ∧
    (decorations = false →
       w = 1280 ∧ h = 800 ∧ config_preview c = None ∧
       monitor c = if connected then Some (authentication_output a) else None) ∧
    (decorations = true → monitor c = None) ∧
    (is_Some (config_display_name c) → is_Some (config_username c)) ∧
    (∀ path, Wallpaper.override_path (config_wallpaper c) = Some path →
       is_absolute path = true ∧ (is_movie path || Wallpaper.is_heic_path path) = true ∧
       (is_movie path = true → is_file path = true)) ∧
    (is_Some (config_preview c) → Wallpaper.animate (config_wallpaper c) = true → animated_preview a = true)
  end.
Proof.
  intros (rest & m & Hm & ->)%parse_login. apply clap_sound in Hm as [Hv _].
  unfold run_login. destruct (list_preview_fixtures _); [done|].
  cbn [config_preview config_display_name config_username config_wallpaper monitor
       Wallpaper.override_path Wallpaper.animate].
  change (windowed (login_arguments is_format_control is_file m)) with (given m (str "windowed")).
  split_and!.
  - by apply (dimension_default m "width" 0).
  - by apply (dimension_default m "width" 0).
  - by apply (dimension_default m "height" 0).
  - by apply (dimension_default m "height" 0).
  - intros Hw. cbn [width height preview login_arguments].
    rewrite (parsed_requires _ _ "width" _ _ _ Hv eq_refl (list_elem_of_here _ _) Hw).
    rewrite (parsed_requires _ _ "height" _ _ _ Hv eq_refl (list_elem_of_here _ _) Hw).
    rewrite Hw. split_and!; [done..| |done]. unfold parsed_preview.
    destruct (given m (str "preview")) eqn:Hg; [|done].
    destruct (given_option _ _ _ _ Hv Hg eq_refl) as (_ & Hr & _).
    specialize (Hr _ (list_elem_of_here _ _)). congruence.
  - by intros ->.
  - cbn [display_name username login_arguments]. intros [x Hd%parsed_given].
    destruct (given_option _ _ _ _ Hv Hd eq_refl) as (_ & Hr & _).
    by eapply parsed_is_given; [exact Hv|reflexivity..|apply Hr, list_elem_of_here].
  - intros path Hpath. apply parsed_value in Hpath as (v & _ & Hp).
    by apply file_parser_Some in Hp as (-> & ? & ? & ?).
  - intros [x Hx]. rewrite Hx. cbn [is_Some]. unfold login_wallpaper_animate, animate_wallpaper.
    rewrite bool_decide_true by eauto. intros Ha.
    destruct (is_heic _); [exact Ha|]. destruct (reduce_motion _); [discriminate Ha|exact Ha].
Qed.

End Children.

(** ** Witnesses *)

(** A path with an extension that is a movie's and that is there, and one that is not. *)
Definition lock_arguments_given : list (list byte) :=
  [bytes_of "--daemonize"; bytes_of "--wallpaper-file=/run/w.heic"; bytes_of "--static-wallpaper";
   bytes_of "--appearance"; bytes_of "dark"; bytes_of "--authentication-output"; bytes_of "DP-1"].

Lemma daemon_child_reads_back_witness :
  ∃ m, clap (LockOptions (λ _, false)) lock_arguments_given = Some m ∧
  ∃ child b,
    run_lock (lock_arguments (λ _, false) m) = LockDaemon child ∧
    parse_command (λ _, false) (λ _, false) child = Some (Lock b) ∧
    run_lock b = LockForeground
      (mkLockConfig (Some (str "DP-1"))
         (Wallpaper.mkSettings Wallpaper.TahoeBeach (Some (bytes_of "/run/w.heic")) true true DynamicModel.Dark)
         (Some 3)).
Proof.
  eexists. split; [vm_compute; reflexivity|].
  apply (daemon_child_reads_back (λ _, false) (λ _, false) lock_arguments_given).
  - vm_compute. reflexivity.
  - reflexivity.
  - apply (bool_decide_unpack _). vm_compute. exact I.
  - intros o Ho. vm_compute in Ho. injection Ho as <-. reflexivity.
Defined.

Lemma worker_command_reads_back_witness :
  ∃ w,
    parse_command (λ _, false) (λ _, false)
      (HeicWorker.worker_command (bytes_of "/a b.heic") DynamicModel.Light true (show_dec 4242)) =
      Some (HeicWorker w) ∧
    heic_file w = bytes_of "/a b.heic" ∧ appearance_preference (heic_appearance w) = DynamicModel.Light ∧
    heic_reduce_motion w = true ∧ parent_pid w = 4242.
Proof. apply (worker_command_reads_back (λ _, false) (λ _, false)); [reflexivity | lia]. Defined.

Definition login_arguments_given : list (list byte) :=
  [bytes_of "login"; bytes_of "--windowed"; bytes_of "--preview"; bytes_of "--width=800"; bytes_of "--height";
   bytes_of "600"; bytes_of "--wallpaper-file"; bytes_of "/w.MOV"].

Definition login_given : LoginArguments :=
  mkLogin false None None true (Some Selected) (Some 800) (Some 600) Wallpaper.TahoeBeach
    (Some (bytes_of "/w.MOV")) false false Automatic None.

Lemma login_runs_witness :
  parse_command (λ _, false) (λ _, true) login_arguments_given = Some (Login login_given) ∧
  match run_login true login_given with
  | ListFixtures _ => False
  | RunLogin c (w, h) decorations => 320 ≤ w ≤ 16384 ∧ decorations = true ∧ monitor c = None
  end.
Proof.
  assert (parse_command (λ _, false) (λ _, true) login_arguments_given = Some (Login login_given)) as E
    by (vm_compute; reflexivity).
  split; [exact E|]. destruct (login_runs (λ _, false) (λ _, true) _ _ true E) as (Hw & _ & _ & Hm & _).
  split; [exact Hw|]. split; [reflexivity|by apply Hm].
Defined.
