(* ===== verification/GreeterView.v ===== *)
(** * What the greeter shows ([src/app/view.rs], [src/app/account_tile.rs],
    [src/app/modal.rs])

    The widgets of the greeter as a tree: what each shows, the message that it
    sends when it is pressed, and the focus target whose highlight it draws.
    [Greeter.App] leaves out the clock, the wallpaper and the layout the view was
    given; here they are parameters.  Sizes that only arrange widgets, colours and
    fonts are left out; those that the code computes with are [f32]. *)

From S2P Require Import Prelude Utf8 Text.
From S2P Require OutputSelection HeicFrame.
From S2P Require Import Conversation Sessions Accounts Auth Greeter LockerDraw.

#[local] Arguments str : simpl never.

(** ** Sizes and regions *)

Record Size := mkSize { size_width : f32; size_height : f32 }.

Definition f32_lt (x y : f32) : bool := SFltb x y.

(** [outputs::Region] as the application holds it: the integers of the outputs, in [f32]. *)
Record Region := mkRegion {
  x : f32; y : f32; width : f32; height : f32; layout_width : f32; layout_height : f32;
}.
Definition region_of (r : OutputSelection.Region) : Region :=
  mkRegion (f32_of (OutputSelection.x r)) (f32_of (OutputSelection.y r))
    (f32_of (OutputSelection.width r)) (f32_of (OutputSelection.height r))
    (f32_of (OutputSelection.layout_width r)) (f32_of (OutputSelection.layout_height r)).

Definition scale_to (r : Region) (w h : f32) : Region :=
  let scale_x := f32_div w (layout_width r) in
  let scale_y := f32_div h (layout_height r) in
  mkRegion (f32_mul (x r) scale_x) (f32_mul (y r) scale_y)
    (f32_mul (width r) scale_x) (f32_mul (height r) scale_y) w h.

Definition authentication_region_or_full (region : option Region) (size : Size) : Region :=
  default (mkRegion (f32_of 0) (f32_of 0) (size_width size) (size_height size)
             (f32_max (size_width size) (f32_of 1)) (f32_max (size_height size) (f32_of 1))) region.

Inductive ScreenLayout := Wide | Flow.
#[export] Instance ScreenLayout_eq_dec : EqDecision ScreenLayout.
Proof. solve_decision. Defined.

Definition WIDE_MIN_WIDTH : f32 := f32_of 1280.
Definition WIDE_MIN_HEIGHT : f32 := f32_of 700.
Definition screen_layout (size : Size) : ScreenLayout :=
  if f32_le WIDE_MIN_WIDTH (size_width size) && f32_le WIDE_MIN_HEIGHT (size_height size) then Wide else Flow.

Definition effective_screen_layout (requires_flow : bool) (phase : Phase)
    (authentication_layout : option ScreenLayout) (size : Size) : ScreenLayout :=
  if requires_flow then Flow
  else match authentication_layout with
       | Some layout => if bool_decide (phase = WaitingForInput) then layout else screen_layout size
       | None => screen_layout size
       end.

(** ** Widgets *)

Inductive Element :=
| Text (content : rstring)
| Space
| Picture
| Button (content : list Element) (on_press : option Message) (mark : option Target)
| TextInput (value : rstring) (on_input : bool) (on_submit : option Message) (secure : bool)
| Tile (content : list Element) (on_press : option Message) (index : nat) (id : rstring)
| Group (children : list Element)
| Placed (r : Region) (children : list Element)
| Scroll (children : list Element)
| Stack (layers : list Element)
| Barrier (content : list Element).

(** ** The view *)

Inductive AccountSelectorState := Interactive | Disabled | Hidden.
Inductive FlowControl := Identity | SessionControl | PowerControl.
Definition FLOW_CONTROL_ORDER : list FlowControl := [Identity; SessionControl; PowerControl].

Inductive AuthenticationControls :=
| PromptControls | RetryControls | Progress (label : rstring) | Unavailable.

Definition authentication_controls (phase : Phase) (has_session : bool) : AuthenticationControls :=
  match phase with
  | WaitingForInput => PromptControls
  | Failed => if has_session then RetryControls else Unavailable
  | CreatingSession => Progress (str "Preparing authentication" ++ [ellipsis])
  | Authenticating => Progress (str "Continuing authentication" ++ [ellipsis])
  | StartingSession => Progress (str "Starting session" ++ [ellipsis])
  | DiscoveringUsers | CancellingForUserSelection | SelectingUser | UserSelectionCancellationFailed =>
    Unavailable
  end.

Definition account_selector_state (phase : Phase) (interactive has_identity : bool) : AccountSelectorState :=
  match phase with
  | SelectingUser => if interactive then Interactive else Disabled
  | CancellingForUserSelection | UserSelectionCancellationFailed => Disabled
  | Failed => if negb has_identity then Disabled else Hidden
  | _ => Hidden
  end.

Definition is_ascii (s : rstring) : bool := forallb (λ c, c <? 128) s.
Definition dynamic_text_requires_flow (value : rstring) : bool :=
  existsb (λ c, (c =? 10) || (c =? 13)) value || negb (is_ascii value) || (80 <? Z.of_nat (length value)).

Definition requires_flow_layout (a : App) : bool :=
  dynamic_text_requires_flow (Conversation.prompt (conversation a))
  || from_option dynamic_text_requires_flow false (Conversation.message (conversation a))
  || dynamic_text_requires_flow (Greeter.display_name a)
  || dynamic_text_requires_flow (Greeter.username a)
  || existsb (λ account, dynamic_text_requires_flow (Accounts.display_name account)
                         || dynamic_text_requires_flow (Accounts.username account)) (accounts a)
  || from_option dynamic_text_requires_flow false (session_message a)
  || from_option dynamic_text_requires_flow false (power_message a)
  || from_option dynamic_text_requires_flow false (preview_message a).

Definition ACCOUNT_TILE_WIDTH : f32 := f32_of 148.
Definition ACCOUNT_GRID_GAP : f32 := f32_of 18.
Definition MAX_ACCOUNT_COLUMNS : Z := 4.
Definition account_grid_columns (width : f32) : nat :=
  Z.to_nat (Z.max 1 (Z.min MAX_ACCOUNT_COLUMNS
    (as_usize (f32_div (f32_add width ACCOUNT_GRID_GAP) (f32_add ACCOUNT_TILE_WIDTH ACCOUNT_GRID_GAP))))).

Section View.
(** [str::to_uppercase] (a Unicode table), the two lines of the clock, the
    background, the layout kept from before a prompt, and the width that the
    account grid is given in the wide layout. *)
Context (to_uppercase : rstring → rstring) (hour date : rstring).
Context (authentication_layout : option ScreenLayout) (grid_size : f32).

Definition initials (name : rstring) : rstring :=
  to_uppercase (take 2 (omap head (split_whitespace name))).

Definition avatar (name : rstring) : Element := Group [Text (initials name)].
Definition AT : char := 64.

Definition notice (message : option rstring) : Element := from_option Text Space message.

Definition account_tile (account : Account) (interactive : bool) (index : nat) : Element :=
  Tile [avatar (Accounts.display_name account); Text (Accounts.display_name account);
        Text (AT :: Accounts.username account)]
    (if interactive then Some (SelectAccount account) else None) index
    (str "account-" ++ Accounts.username account).

Definition account_rows (accounts : list Account) (interactive : bool) (columns : nat) : Element :=
  Group (imap (λ row_index row,
           Group (imap (λ column_index account,
                    account_tile account interactive (row_index * columns + column_index)) row))
         (HeicFrame.chunks columns accounts)).

Definition account_grid (accounts : list Account) (interactive : bool) (height : bool) (width : option f32) :
    Element :=
  if height then Group [Scroll [account_rows accounts interactive (account_grid_columns grid_size)]]
  else account_rows accounts interactive (account_grid_columns (default ACCOUNT_TILE_WIDTH width)).

Definition power_button (action : PowerAction) (interactive : bool) : Element :=
  Button [Text (label action)] (if interactive then Some (AskPower action) else None) (Some (TPower action)).

Definition modal (main_content dialog : Element) : Element :=
  Stack [main_content; Barrier [Stack [Picture; Group [dialog]]]].

(** The methods of [App]. *)

Definition clock : Element := Group [Text hour; Text date].

Definition power_controls (a : App) : Element :=
  let power_interactive := can_request_power a in
  Group [Group [power_button Suspend power_interactive; power_button Reboot power_interactive;
                power_button PowerOff power_interactive];
         notice (power_message a)].

Definition preview_indicator (a : App) : Element :=
  match preview_message a with Some message => Group [Text message] | None => Space end.

Definition status_for (message : option rstring) : Element := Text (default (str " ") message).

Definition idle_controls (a : App) : bool := not_closing a && power_idle a.

Definition account_selection (interactive : bool) (grid_height : bool) (grid_width : option f32) (a : App) :
    Element :=
  let status := status_for
    (match Conversation.message (conversation a) with
     | Some message => if bool_decide (message = select_a_user) then None else Some message
     | None => None
     end) in
  let cancellation_failed := bool_decide (phase a = UserSelectionCancellationFailed) in
  let retry :=
    if cancellation_failed
       || (bool_decide (phase a = Failed) && bool_decide (Greeter.username a = []) && has_session a)
    then
      let '(label, message) :=
        if cancellation_failed then (str "Retry changing user", RetryUserSelectionCancellation)
        else (str "Retry account discovery", Retry) in
      Button [Text label] (if idle_controls a then Some message else None) (Some RetryAccountSelection)
    else Space in
  Group [Text select_a_user; account_grid (accounts a) interactive grid_height grid_width; status; retry].

Definition authentication (a : App) : Element :=
  let interactive := idle_controls a in
  let selected_account :=
    List.find (λ account, bool_decide (Accounts.username account = Greeter.username a)) (accounts a) in
  let username := AT :: from_option Accounts.username (Greeter.username a) selected_account in
  let controls :=
    match authentication_controls (phase a) (has_session a) with
    | PromptControls =>
      let submit := Button [Picture] (if interactive then Some Submit else None) (Some TSubmit) in
      let input :=
        Stack [TextInput (Conversation.text (Conversation.input (conversation a))) interactive
                 (if interactive then Some Submit else None) (Conversation.secret (conversation a));
               Group [submit]] in
      Group [Text (Conversation.prompt (conversation a)); Group [input]]
    | RetryControls =>
      Button [Text (str "Retry")] (if interactive then Some Retry else None) (Some RetryAuthentication)
    | Progress label => Text label
    | Unavailable => Space
    end in
  let change_user :=
    if can_change_user a then Button [Text (str "Change User")] (Some ChangeUser) (Some TChangeUser)
    else Space in
  Group [avatar (Greeter.display_name a); Group [Text (Greeter.display_name a); Text username];
         Group [controls; status_for (Conversation.message (conversation a))]; change_user].

Definition identity (grid_height : bool) (grid_width : option f32) (a : App) : Element :=
  match account_selector_state (phase a) (can_select_account a) (negb (bool_decide (Greeter.username a = []))) with
  | Interactive => account_selection true grid_height grid_width a
  | Disabled => account_selection false grid_height grid_width a
  | Hidden => authentication a
  end.

Definition CHEVRON : char := 8964.
Definition DASH : char := 8212.

Definition session_selector (a : App) : Element :=
  let selector :=
    if can_select_session a then
      let label := from_option Sessions.name (str "Select a session") (selected_session a) in
      Button [Group [Text label; Text [CHEVRON]]]
        (Some (if session_menu_open a then SessionMenuClosed else SessionMenuOpened)) (Some TSession)
    else Group [Text (from_option Sessions.name (str "No session available") (selected_session a))] in
  let retry :=
    if bool_decide (phase a = Failed) && negb (has_session a) then
      Button [Text (str "Retry session discovery")]
        (if idle_controls a then Some RetrySession else None) (Some TRetrySession)
    else Space in
  let menu :=
    if session_menu_open a && can_select_session a then
      let option session :=
        Button [Text (Sessions.session_id session ++ str " " ++ [DASH] ++ str " " ++ Sessions.name session)]
          (Some (SelectSession session)) None in
      Group [Scroll [Group (option <$> sessions a)]]
    else Space in
  Group [Text (str "Session"); selector; menu; notice (session_message a); retry].

Definition main_content (size : Size) (a : App) : Element :=
  match effective_screen_layout (requires_flow_layout a) (phase a) authentication_layout size with
  | Wide =>
    let center := Group [Group [clock; Space; identity true None a]] in
    let utilities := Group [power_controls a] in
    let session := Group [session_selector a] in
    let preview := Group [preview_indicator a] in
    Stack [center; utilities; session; preview]
  | Flow =>
    let control c :=
      match c with
      | Identity => identity false (Some (f32_max (f32_sub (size_width size) (f32_of 32)) (f32_of 0))) a
      | SessionControl => session_selector a
      | PowerControl => power_controls a
      end in
    Scroll [Group [Group ([clock; preview_indicator a] ++ (control <$> FLOW_CONTROL_ORDER))]]
  end.

Definition QUESTION : rstring := str " this computer?".

Definition content (size : Size) (a : App) : Element :=
  let main := main_content size a in
  match power_state a with
  | Confirming action =>
    let dialog_interactive := power_dialog_interactive a in
    modal main
      (Group [Group [Text (label action ++ QUESTION);
        Group [Button [Text (str "Cancel")] (if dialog_interactive then Some CancelPower else None) (Some DialogCancel);
               Button [Text (label action)] (if dialog_interactive then Some (ConfirmPower action) else None)
                 (Some DialogConfirm)]]])
  | Executing action =>
    modal main (Group [Text (str "Requesting " ++ to_lowercase (label action) ++ [ellipsis])])
  | Idle => main
  end.

Definition positioned_foreground (region : option Region) (size : Size) (a : App) : Element :=
  let region := scale_to (authentication_region_or_full region size) (size_width size) (size_height size) in
  Placed region [Stack [Picture; content (mkSize (width region) (height region)) a]].

Definition view (region : option Region) (size : Size) (a : App) : Element :=
  Stack [Picture; positioned_foreground region size a].

End View.
