(* ===== verification/GreeterViewProofs.v ===== *)
(** * The screen of the greeter, and the keyboard

    What of the widgets of [GreeterView] can be used, and the theorems that relate
    it to [Greeter]: the keyboard reaches the controls that the screen shows, in
    their order, and activates what a press sends; a dialog and a closing greeter
    leave nothing else to press; and what is typed is shown in the input only. *)

From S2P Require Import Prelude Utf8 Text.
From S2P Require HeicFrame.
From S2P Require Import Conversation Sessions Accounts Auth Greeter LockerDraw GreeterView.

#[local] Arguments str : simpl never.

(** ** What can be used *)

(** A button or a tile with a message, or an input that takes text; disabled
    widgets are none. *)
Inductive Control :=
| Press (mark : option Target) (m : Message)
| Typing (m : option Message).

Definition is_barrier (e : Element) : bool := match e with Barrier _ => true | _ => false end.

(** Of a stack, events reach the layers above the last barrier and the barrier itself. *)
Fixpoint controls (e : Element) : list Control :=
  match e with
  | Text _ | Space | Picture => []
  | Button _ on_press mark => match on_press with Some m => [Press mark m] | None => [] end
  | TextInput _ on_input on_submit _ => if on_input then [Typing on_submit] else []
  | Tile _ on_press index _ =>
    match on_press with Some m => [Press (Some (TAccount index)) m] | None => [] end
  | Group l | Placed _ l | Scroll l | Barrier l => l ≫= controls
  | Stack l =>
    (fix reached l :=
       match l with
       | [] => []
       | e :: r => if existsb is_barrier r then reached r else controls e ++ reached r
       end) l
  end.

(** The focus target a control is highlighted for. *)
Definition target (c : Control) : option Target :=
  match c with Press mark _ => mark | Typing _ => Some AuthenticationInput end.

Lemma controls_group l : controls (Group l) = l ≫= controls.
Proof. done. Qed.

Lemma imap_bind_ext {A B C} (f g : nat → A → B) (h : B → list C) l :
  (∀ i a, f i a = g i a) → imap f l ≫= h = imap g l ≫= h.
Proof. intros H. rewrite (imap_ext f g l) by auto. done. Qed.

Lemma imap_singles {A B C} (f : nat → A → B) (h : B → list C) (g : nat → A → C) l :
  (∀ i x, h (f i x) = [g i x]) → imap f l ≫= h = imap g l.
Proof.
  revert f g. induction l as [|x l IH]; intros f g H; [done|]. rewrite !imap_cons, bind_cons, H.
  cbn [app]. f_equal. apply IH. intros i y. apply H.
Qed.
Lemma imap_nothing {A B C} (f : nat → A → B) (h : B → list C) l :
  (∀ i x, h (f i x) = []) → imap f l ≫= h = [].
Proof.
  revert f. induction l as [|x l IH]; intros f H; [done|]. rewrite imap_cons, bind_cons, H. apply IH. intros i y. apply H.
Qed.

(** ** The tiles of the accounts *)

Section View.
Context (to_uppercase : rstring → rstring) (hour date : rstring).
Context (authentication_layout : option ScreenLayout) (grid_size : f32).

Abbreviation tile_at := (λ interactive i account, account_tile to_uppercase account interactive i).

(** The index of a tile is that of its account, whatever the number of columns. *)
Lemma rows_controls interactive columns fuel l k :
  (0 < columns)%nat → (length l ≤ fuel)%nat →
  imap (λ r row, Group (imap (λ c account, tile_at interactive ((k + r) * columns + c)%nat account) row))
       (HeicFrame.chunks_fuel fuel columns l) ≫= controls
  = imap (λ i account, tile_at interactive (k * columns + i)%nat account) l ≫= controls.
Proof using.
  intros Hc. revert k l. induction fuel as [|fuel IH]; intros k l Hl; [by destruct l; [|cbn in Hl; lia]|].
  destruct l as [|x l']; [done|]. cbn [HeicFrame.chunks_fuel]. remember (x :: l') as l.
  rewrite imap_cons, bind_cons, controls_group.
  rewrite <- (take_drop columns l) at 3. rewrite imap_app, bind_app. f_equal.
  - apply imap_bind_ext. intros i a. do 2 f_equal. lia.
  - destruct (decide (length l ≤ columns)%nat) as [Hle|Hgt].
    { by rewrite drop_ge by done; destruct fuel. }
    rewrite length_take, Nat.min_l by lia. etrans; [|etrans; [apply (IH (S k))|]].
    + apply imap_bind_ext. intros i a. cbn. f_equal. apply imap_ext. intros j b _. f_equal. lia.
    + rewrite length_drop. subst l. cbn in *. lia.
    + apply imap_bind_ext. intros i a. cbn. f_equal. lia.
Qed.

Definition tiles (interactive : bool) (accounts : list Account) : list Control :=
  if interactive then imap (λ i account, Press (Some (TAccount i)) (SelectAccount account)) accounts else [].

Lemma columns_positive width : (0 < account_grid_columns width)%nat.
Proof using. unfold account_grid_columns. lia. Qed.

Lemma grid_controls accounts interactive height width :
  controls (account_grid to_uppercase grid_size accounts interactive height width) = tiles interactive accounts.
Proof using.
  assert (∀ columns, (0 < columns)%nat →
    controls (account_rows to_uppercase accounts interactive columns) = tiles interactive accounts) as Hrows.
  { intros columns Hc. unfold account_rows, HeicFrame.chunks, tiles. rewrite controls_group.
    etrans; [apply (rows_controls interactive columns _ accounts 0 Hc (le_n _))|]. cbn [Nat.mul Nat.add].
    destruct interactive; [by apply imap_singles|by apply imap_nothing]. }
  unfold account_grid. destruct height; rewrite ?controls_group; cbn [mbind list_bind controls];
    rewrite ?app_nil_r; apply Hrows, columns_positive.
Qed.

(** *** The parts of the screen *)

Lemma select_session_has a : can_select_session a = true → has_session a = true.
Proof using. unfold can_select_session. destruct (has_session a); by rewrite ?andb_false_r. Qed.

Definition powers (a : App) : list Control :=
  if can_request_power a
  then (λ action, Press (Some (TPower action)) (AskPower action)) <$> [Suspend; Reboot; PowerOff] else [].
Lemma power_controls_spec a : controls (power_controls a) = powers a.
Proof using.
  unfold power_controls, powers, notice. cbn. by destruct (can_request_power a), (power_message a).
Qed.

(** The options of the open menu; they have no place in the order of the focus. *)
Definition session_options (a : App) : list Control :=
  if session_menu_open a && can_select_session a
  then (λ session, Press None (SelectSession session)) <$> sessions a else [].
Definition session_toggle (a : App) : list Control :=
  if can_select_session a
  then [Press (Some TSession) (if session_menu_open a then SessionMenuClosed else SessionMenuOpened)] else [].
Definition session_retry (a : App) : list Control :=
  if idle_controls a && (bool_decide (phase a = Failed) && negb (has_session a))
  then [Press (Some TRetrySession) RetrySession] else [].
Lemma session_selector_spec a :
  controls (session_selector a) = session_toggle a ++ session_options a ++ session_retry a.
Proof using.
  unfold session_selector, session_options, session_toggle, session_retry, notice.
  rewrite controls_group. cbn [mbind list_bind]. rewrite !app_nil_r.
  change (controls (Text (str "Session"))) with (@nil Control). rewrite app_nil_l. f_equal.
  { by destruct (can_select_session a). }
  assert (∀ o, controls (from_option Text Space o) = []) as -> by (by intros []).
  f_equal.
  - destruct (session_menu_open a && can_select_session a); [|done].
    rewrite controls_group. cbn [mbind list_bind controls]. rewrite !app_nil_r.
    induction (sessions a) as [|s l IH]; [done|]. cbn in *. by rewrite IH.
  - destruct (bool_decide (phase a = Failed)), (has_session a), (idle_controls a); done.
Qed.

Definition account_retry (a : App) : list Control :=
  if negb (idle_controls a) then []
  else if bool_decide (phase a = UserSelectionCancellationFailed)
  then [Press (Some RetryAccountSelection) RetryUserSelectionCancellation]
  else if bool_decide (phase a = Failed) && bool_decide (Greeter.username a = []) && has_session a
  then [Press (Some RetryAccountSelection) Retry] else [].
Lemma account_selection_spec interactive height width a :
  controls (account_selection to_uppercase grid_size interactive height width a) =
    tiles interactive (accounts a) ++ account_retry a.
Proof using.
  unfold account_selection, account_retry. rewrite controls_group. cbn [mbind list_bind controls app].
  rewrite grid_controls. f_equal. rewrite app_nil_r.
  destruct (bool_decide (phase a = UserSelectionCancellationFailed)); cbn [orb];
    [|destruct (_ && _)]; by destruct (idle_controls a).
Qed.

Definition login_controls (a : App) : list Control :=
  if negb (idle_controls a) then []
  else match authentication_controls (phase a) (has_session a) with
       | PromptControls => [Typing (Some Submit); Press (Some TSubmit) Submit]
       | RetryControls => [Press (Some RetryAuthentication) Retry]
       | _ => []
       end.
Definition user_changes (a : App) : list Control :=
  if can_change_user a then [Press (Some TChangeUser) ChangeUser] else [].
Lemma authentication_spec a :
  controls (authentication to_uppercase a) = login_controls a ++ user_changes a.
Proof using.
  unfold authentication, login_controls, user_changes. rewrite controls_group.
  cbn [mbind list_bind avatar controls app]. rewrite !app_nil_r. f_equal; [|by destruct (can_change_user a)].
  destruct (authentication_controls _ _), (idle_controls a); done.
Qed.

Definition identity_controls (a : App) : list Control :=
  match account_selector_state (phase a) (can_select_account a) (negb (bool_decide (Greeter.username a = []))) with
  | Interactive => tiles true (accounts a) ++ account_retry a
  | Disabled => account_retry a
  | Hidden => login_controls a ++ user_changes a
  end.
Definition session_controls (a : App) : list Control :=
  session_toggle a ++ session_options a ++ session_retry a.

Lemma identity_spec height width a :
  controls (identity to_uppercase grid_size height width a) = identity_controls a.
Proof using.
  unfold identity, identity_controls. destruct (account_selector_state _ _ _);
    [apply account_selection_spec|apply account_selection_spec|apply authentication_spec].
Qed.

Definition layout (size : Size) (a : App) : ScreenLayout :=
  effective_screen_layout (requires_flow_layout a) (phase a) authentication_layout size.

Abbreviation main size a := (main_content to_uppercase hour date authentication_layout grid_size size a).
Abbreviation screen size a := (content to_uppercase hour date authentication_layout grid_size size a).

Lemma main_spec size a :
  controls (main size a) =
    match layout size a with
    | Wide => identity_controls a ++ powers a ++ session_controls a
    | Flow => identity_controls a ++ session_controls a ++ powers a
    end.
Proof using.
  unfold main_content, layout. destruct (effective_screen_layout _ _ _ _).
  - cbn [controls existsb is_barrier orb mbind list_bind app clock].
    rewrite !app_nil_r, identity_spec, power_controls_spec, session_selector_spec.
    assert (controls (preview_indicator a) = []) as -> by (unfold preview_indicator; by destruct (preview_message a)).
    by rewrite app_nil_r.
  - cbn [controls mbind list_bind app clock FLOW_CONTROL_ORDER fmap list_fmap].
    rewrite !app_nil_r, identity_spec, power_controls_spec, session_selector_spec.
    assert (controls (preview_indicator a) = []) as -> by (unfold preview_indicator; by destruct (preview_message a)).
    done.
Qed.

Lemma modal_controls below dialog : controls (modal below dialog) = controls dialog.
Proof using. cbn. by rewrite !app_nil_r. Qed.

(** What can be used of the screen. *)
Lemma screen_spec size a :
  controls (screen size a) =
    match power_state a with
    | Idle => controls (main size a)
    | Confirming action =>
      if power_dialog_interactive a
      then [Press (Some DialogCancel) CancelPower; Press (Some DialogConfirm) (ConfirmPower action)] else []
    | Executing _ => []
    end.
Proof using.
  unfold content. destruct (power_state a) as [|action|action]; [done|..]; rewrite modal_controls; cbn;
    [by destruct (power_dialog_interactive a)|done].
Qed.

(** ** The theorems *)

Lemma not_idle a : idle_controls a = false →
  identity_controls a = [] ∧ powers a = [] ∧ session_controls a = [].
Proof using.
  unfold idle_controls, identity_controls, powers, session_controls, session_toggle, session_options,
    session_retry, account_retry, login_controls, user_changes, can_request_power, can_select_session,
    can_change_user, can_select_account, idle_controls.
  intros ->. rewrite !andb_false_r. cbn. split; [|done]. by destruct (phase a), (bool_decide _).
Qed.

Lemma targets_tiles accounts : omap target (tiles true accounts) = TAccount <$> seq 0 (length accounts).
Proof using.
  unfold tiles. induction accounts as [|x l IH] using rev_ind; [done|].
  rewrite imap_app, omap_app, IH, length_app, seq_app, fmap_app. cbn. do 3 f_equal. lia.
Qed.

(** A failed discovery shows no way to change the user, which the keyboard keeps. *)
Definition hides_change_user (a : App) : bool :=
  bool_decide (phase a = Failed) && bool_decide (Greeter.username a = []).
Definition shown_order (a : App) : list Target :=
  List.filter (λ t, negb (hides_change_user a && bool_decide (t = TChangeUser))) (focus_order a).

Lemma filter_all {A} (p : A → bool) l : Forall (λ x, p x = true) l → List.filter p l = l.
Proof using. induction 1 as [|x l Hx _ IH]; [done|]. cbn. by rewrite Hx, IH. Qed.

Definition change_target (a : App) : list Target := if can_change_user a then [TChangeUser] else [].
Definition phase_targets (a : App) : list Target :=
  match phase a with
  | SelectingUser => TAccount <$> seq 0 (length (accounts a))
  | UserSelectionCancellationFailed => [RetryAccountSelection]
  | WaitingForInput => [AuthenticationInput; TSubmit]
  | Failed =>
    if has_session a then
      if negb (bool_decide (Greeter.username a = [])) then [RetryAuthentication] else [RetryAccountSelection]
    else []
  | _ => []
  end.

(** Decides the equations between phases that are known. *)
Ltac decide_phases :=
  repeat match goal with
  | |- context [bool_decide (?p = ?q :> Phase)] =>
    first [rewrite (bool_decide_true (p = q)) by done | rewrite (bool_decide_false (p = q)) by done]
  end; cbn [andb orb negb].

Section Open.
Context (a : App) (Hc : closing a = None) (Hi : power_state a = Idle).

Lemma open_idle : idle_controls a = true.
Proof using Hc Hi. unfold idle_controls, not_closing, power_idle. by rewrite Hc, Hi. Qed.

Lemma identity_targets :
  omap target (identity_controls a) =
    phase_targets a ++ (if hides_change_user a then [] else change_target a).
Proof using Hc Hi.
  unfold identity_controls, account_retry, login_controls, user_changes, phase_targets, change_target,
    hides_change_user.
  rewrite open_idle. cbn [negb].
  assert (can_select_account a = bool_decide (phase a = SelectingUser)) as ->.
  { unfold can_select_account. fold (idle_controls a). by rewrite open_idle. }
  assert (∀ p, phase a = p → p ≠ WaitingForInput → p ≠ Failed → can_change_user a = false) as Hno.
  { intros p Hp ? ?. unfold can_change_user. rewrite Hp. by destruct p; rewrite ?andb_false_r. }
  destruct (phase a) eqn:Hp; cbn [account_selector_state authentication_controls];
    rewrite ?(Hno _ eq_refl) by done; decide_phases; try done.
  - case_bool_decide; cbn [negb andb bool_decide];
      destruct (has_session a); cbn; by destruct (can_change_user a).
  - cbn. rewrite !app_nil_r. apply targets_tiles.
  - cbn. by destruct (can_change_user a).
Qed.

Lemma session_targets :
  omap target (session_controls a) =
    (if can_select_session a && has_session a then [TSession] else [])
    ++ (if bool_decide (phase a = Failed) && negb (has_session a) then [TRetrySession] else []).
Proof using Hc Hi.
  unfold session_controls, session_toggle, session_options, session_retry. rewrite open_idle.
  rewrite !omap_app. f_equal; [|].
  - destruct (can_select_session a) eqn:E; [|done]. by rewrite (select_session_has _ E).
  - assert (∀ b (l : list Session),
      omap target (if b : bool then (λ session, Press None (SelectSession session)) <$> l else []) = []) as ->.
    { intros [] l; [|done]. by induction l. }
    by destruct (bool_decide (phase a = Failed)), (has_session a).
Qed.

Lemma power_targets :
  omap target (powers a) = if can_request_power a then [TPower Suspend; TPower Reboot; TPower PowerOff] else [].
Proof using. unfold powers. by destruct (can_request_power a). Qed.

Lemma shown_order_spec :
  shown_order a = omap target (identity_controls a) ++ omap target (session_controls a) ++ omap target (powers a).
Proof using Hc Hi.
  clear to_uppercase hour date authentication_layout grid_size.
  rewrite identity_targets, session_targets, power_targets. unfold shown_order, focus_order. rewrite Hc, Hi.
  assert (can_select_account a = bool_decide (phase a = SelectingUser)) as ->.
  { unfold can_select_account. fold (idle_controls a). by rewrite open_idle. }
  fold (change_target a). set (p := λ t, negb (hides_change_user a && bool_decide (t = TChangeUser))).
  assert (∀ l, TChangeUser ∉ l → List.filter p l = l) as Hp.
  { intros l Hl. apply filter_all, Forall_forall. intros t Ht. unfold p.
    rewrite bool_decide_false by congruence. by rewrite andb_false_r. }
  rewrite !List.filter_app.
  rewrite (Hp (if can_select_session a && has_session a then [TSession] else [])) by (case_match; set_solver).
  rewrite (Hp (if bool_decide (phase a = Failed) && negb (has_session a) then [TRetrySession] else []))
    by (case_match; set_solver).
  rewrite (Hp (if can_request_power a then _ else _)) by (case_match; set_solver).
  assert (List.filter p (change_target a) = if hides_change_user a then [] else change_target a) as ->.
  { unfold p, change_target. destruct (can_change_user a); [|by destruct (hides_change_user a)].
    cbn. by destruct (hides_change_user a). }
  rewrite Hp; [|destruct (phase a); decide_phases; repeat case_match; set_solver].
  rewrite <- !(assoc_L (++)). f_equal. unfold phase_targets. by destruct (phase a).
Qed.
End Open.

Lemma screen_shown size a : closing a = None → omap target (controls (screen size a)) ≡ₚ shown_order a.
Proof using.
  intros Hc. rewrite screen_spec. destruct (power_state a) as [|action|action] eqn:Hi.
  - rewrite (shown_order_spec a Hc Hi), main_spec. destruct (layout size a); rewrite !omap_app; [|done].
    by rewrite (Permutation_app_comm (omap target (powers a))).
  - unfold shown_order, focus_order, power_dialog_interactive, not_closing, confirming. rewrite Hc, Hi.
    by destruct (hides_change_user a).
  - unfold shown_order, focus_order. by rewrite Hi.
Qed.

(** A control that can be used means that the greeter is not closing. *)
Lemma control_open size a c : c ∈ controls (screen size a) → closing a = None.
Proof using.
  rewrite screen_spec. unfold power_dialog_interactive.
  destruct (closing a) as [w|] eqn:Hc; [|done]. intros H. exfalso. revert H.
  assert (not_closing a = false) as E by (unfold not_closing; by rewrite Hc). rewrite E.
  destruct (power_state a); [|by intros ?%elem_of_nil..]. rewrite main_spec.
  destruct (not_idle a) as (-> & -> & ->); [unfold idle_controls; by rewrite E|].
  destruct (layout size a); by intros ?%elem_of_nil.
Qed.

(** What a control does, as the keyboard would. *)
Definition acts (a : App) (c : Control) : Prop :=
  match c with
  | Press (Some TSession) m => m = if session_menu_open a then SessionMenuClosed else SessionMenuOpened
  | Press (Some t) m => activation (set_focus_target (Some t) a) = Some m
  | Press None m => ∃ session, session ∈ sessions a ∧ m = SelectSession session ∧ session_menu_open a = true
  | Typing m => m = Some Submit ∧ phase a = WaitingForInput
  end.

Lemma tiles_act a : can_select_account a = true → Forall (acts a) (tiles true (accounts a)).
Proof using.
  intros Ha. apply Forall_forall. intros c (i & account & -> & Hi)%elem_of_lookup_imap_1.
  unfold acts, activation. cbn. change (can_select_account (set_focus_target _ a)) with (can_select_account a).
  by rewrite Ha, Hi.
Qed.

Lemma identity_acts a : Forall (acts a) (identity_controls a).
Proof using.
  unfold identity_controls, account_retry, login_controls, user_changes.
  assert (phase a = SelectingUser → can_select_account a = true → Forall (acts a) (tiles true (accounts a)))
    as Ht by (intros _; apply tiles_act).
  destruct (phase a) eqn:Hp; cbn [account_selector_state authentication_controls]; decide_phases.
  all: repeat case_match; repeat apply Forall_app_2; auto.
  all: repeat constructor; try done; unfold acts, activation; cbn.
  all: rewrite ?Hp; by decide_phases.
Qed.

Lemma rest_acts a : Forall (acts a) (session_controls a) ∧ Forall (acts a) (powers a).
Proof using.
  unfold session_controls, session_toggle, session_options, session_retry, powers. split.
  - apply Forall_app_2; [|apply Forall_app_2].
    + destruct (can_select_session a); repeat constructor.
    + destruct (session_menu_open a) eqn:Hm; cbn; [|done]. destruct (can_select_session a); [|done].
      apply Forall_fmap, Forall_forall. intros session Hs. by exists session.
    + destruct (_ && _); repeat constructor.
  - destruct (can_request_power a); repeat constructor.
Qed.

(** A greeter that is closing has nothing to press. *)
Lemma closing_blocked size a : closing a ≠ None → controls (screen size a) = [].
Proof using.
  intros Hc. rewrite screen_spec. unfold power_dialog_interactive.
  assert (not_closing a = false) as E by (unfold not_closing; by destruct (closing a)).
  rewrite E. destruct (power_state a); [|done..]. rewrite main_spec.
  destruct (not_idle a) as (-> & -> & ->); [unfold idle_controls; by rewrite E|].
  by destruct (layout size a).
Qed.

(** C34.  The keyboard goes where the screen leads: while the greeter is not
    closing, the focus targets of the controls that can be used are those of the
    focus order, with a dialog open those of its buttons alone, and in the flowing
    layout they are in that order; but for the change of the user after a failed
    discovery, which the focus order keeps and the screen does not show.  Once
    the greeter is closing no control can be used. *)
Theorem screen_focus_order size a :
  match closing a with
  | None => omap target (controls (screen size a)) ≡ₚ shown_order a
      ∧ (layout size a = Flow → omap target (controls (screen size a)) = shown_order a)
  | Some _ => controls (screen size a) = []
  end.
Proof using.
  destruct (closing a) eqn:Hc; [apply closing_blocked; by rewrite Hc|].
  split; [by apply screen_shown|]. intros Hl. pose proof (screen_shown size a Hc) as H.
  rewrite screen_spec in *. destruct (power_state a) eqn:Hi.
  - by rewrite (shown_order_spec a Hc Hi), main_spec, Hl, !omap_app.
  - unfold power_dialog_interactive, not_closing, confirming. rewrite Hc, Hi.
    unfold shown_order, focus_order. rewrite Hi. by destruct (hides_change_user a).
  - unfold shown_order, focus_order. by rewrite Hi.
Qed.

(** The messages that a control sends: its own, and for the input every text and
    the message of a submission. *)
Definition sends (c : Control) (m : Message) : Prop :=
  match c with
  | Press _ own => m = own
  | Typing submission => submission = Some m ∨ ∃ text, m = InputChanged text
  end.

(** C33.  A press does what the keyboard does: every message that a usable control
    sends passes the filters of [update]; the target of the control, where it
    has one, is in the focus order, and a press sends the message that
    activating that target by key gives.  There are three exceptions to the
    last: the selector of the session opens its menu, or closes it when it is
    open; the options of that menu have no target, and each selects one of the
    sessions found, while the menu is open; and the input, which is there while
    an answer is awaited, is typed into and submits. *)
Theorem press_activates size a c :
  c ∈ controls (screen size a) →
  acts a c ∧ (∀ t, target c = Some t → t ∈ focus_order a) ∧ (∀ m, sends c m → admitted a m = true).
Proof using.
  intros Hin. pose proof (control_open _ _ _ Hin) as Hc. split_and!.
  - rewrite screen_spec in Hin. destruct (power_state a) as [|action|action] eqn:Hi.
    + pose proof (identity_acts a) as H1. destruct (rest_acts a) as [H2 H3].
      rewrite Forall_forall in H1. rewrite Forall_forall in H2. rewrite Forall_forall in H3.
      rewrite main_spec in Hin. destruct (layout size a); rewrite !elem_of_app in Hin; naive_solver.
    + destruct (power_dialog_interactive a); [|by apply elem_of_nil in Hin].
      apply elem_of_cons in Hin as [->|E%list_elem_of_singleton]; [done|]. subst c.
      cbn. unfold activation. cbn. by rewrite Hi.
    + by apply elem_of_nil in Hin.
  - intros t Ht. assert (t ∈ shown_order a) as Hs.
    { rewrite <- (screen_shown size a Hc). apply list_elem_of_omap. by exists c. }
    unfold shown_order in Hs. by apply list_elem_of_In, List.filter_In, proj1, list_elem_of_In in Hs.
  - intros m Hm. unfold admitted. rewrite Hc. cbn. rewrite screen_spec in Hin.
    destruct (power_state a) as [|action|action] eqn:Hi; unfold power_idle; rewrite Hi; [done| |by apply elem_of_nil in Hin].
    destruct (power_dialog_interactive a); [|by apply elem_of_nil in Hin].
    apply elem_of_cons in Hin as [->|E%list_elem_of_singleton]; [|subst c]; cbn in Hm; subst m; cbn; [done|].
    by apply bool_decide_eq_true.
Qed.

(** A greeter that is closing, or that carries out a power action, has
    nothing to press; the dialog leaves its own two buttons only. *)
Lemma screen_blocked size a :
  (closing a ≠ None → controls (screen size a) = []) ∧
  (∀ action, power_state a = Executing action → controls (screen size a) = []) ∧
  (∀ action c, power_state a = Confirming action → c ∈ controls (screen size a) →
     c = Press (Some DialogCancel) CancelPower ∨ c = Press (Some DialogConfirm) (ConfirmPower action)).
Proof using.
  rewrite screen_spec. split_and!.
  - intros Hc. rewrite <- screen_spec. by apply closing_blocked.
  - by intros action ->.
  - intros action c ->. destruct (power_dialog_interactive a); set_solver.
Qed.

(** *** What is typed *)

(** The texts on the screen, and the inputs with what they hold and whether they hide it. *)
Fixpoint texts (e : Element) : list rstring :=
  match e with
  | Text content => [content]
  | Space | Picture | TextInput _ _ _ _ => []
  | Button l _ _ | Tile l _ _ _ | Group l | Placed _ l | Scroll l | Stack l | Barrier l => l ≫= texts
  end.
Fixpoint inputs (e : Element) : list (rstring * bool) :=
  match e with
  | TextInput value _ _ secure => [(value, secure)]
  | Text _ | Space | Picture => []
  | Button l _ _ | Tile l _ _ _ | Group l | Placed _ l | Scroll l | Stack l | Barrier l => l ≫= inputs
  end.

Definition typed (b : buffer) (a : App) : App := set_conversation (Conversation.set_input b (conversation a)) a.

(** An element of the view that shows what is typed in an input only. *)
Definition discreet (b : buffer) (a : App) (f : App → Element) : Prop :=
  texts (f (typed b a)) = texts (f a) ∧
  Forall (λ i, i = (text b, secret (conversation a))) (inputs (f (typed b a))).

Definition blind (e : Element) : Prop := inputs e = [].
Lemma discreet_same b a (f : App → Element) : f (typed b a) = f a → blind (f a) → discreet b a f.
Proof using. unfold discreet, blind. by intros -> ->. Qed.

Lemma discreet_bind b a (fs : list (App → Element)) :
  Forall (discreet b a) fs →
  (((λ f, f (typed b a)) <$> fs) ≫= texts) = (((λ f, f a) <$> fs) ≫= texts) ∧
  Forall (λ i, i = (text b, secret (conversation a))) (((λ f, f (typed b a)) <$> fs) ≫= inputs).
Proof using.
  induction 1 as [|f fs [Ht Hi] _ [IHt IHi]]; [done|]. cbn. split; [by rewrite Ht, <- IHt|].
  by apply Forall_app_2.
Qed.

Lemma imap_blind {A} (f : nat → A → Element) l : (∀ i x, blind (f i x)) → imap f l ≫= inputs = [].
Proof using. apply imap_nothing. Qed.

Lemma rows_blind accounts interactive columns : blind (account_rows to_uppercase accounts interactive columns).
Proof using.
  unfold account_rows, blind. cbn [inputs]. apply imap_blind. intros i row. unfold blind. cbn [inputs].
  by apply imap_blind.
Qed.

Lemma account_selection_blind interactive height width a :
  blind (account_selection to_uppercase grid_size interactive height width a).
Proof using.
  unfold account_selection, blind. cbn [inputs mbind list_bind app status_for].
  assert (blind (account_grid to_uppercase grid_size (accounts a) interactive height width)) as ->.
  { unfold account_grid. destruct height; [|apply rows_blind]. unfold blind. cbn [inputs mbind list_bind].
    by rewrite rows_blind. }
  destruct (_ || _); [|done]. destruct (bool_decide _); done.
Qed.
Lemma session_selector_blind a : blind (session_selector a).
Proof using.
  unfold session_selector, blind, notice. cbn [inputs mbind list_bind app].
  assert (∀ l : list Session, ((λ s, Button [Text (session_id s ++ str " " ++ [DASH] ++ str " " ++ name s)]
    (Some (SelectSession s)) None) <$> l) ≫= inputs = []) as Hl by (induction l; done).
  destruct (can_select_session a), (session_menu_open a), (session_message a), (_ && negb _); cbn [andb from_option inputs mbind list_bind app]; rewrite ?Hl; done.
Qed.

Lemma identity_discreet b a height width : discreet b a (identity to_uppercase grid_size height width).
Proof using.
  unfold discreet, identity.
  change (phase (typed b a)) with (phase a). change (can_select_account (typed b a)) with (can_select_account a).
  change (Greeter.username (typed b a)) with (Greeter.username a).
  destruct (account_selector_state _ _ _).
  1-2: by apply (discreet_same b a (account_selection to_uppercase grid_size _ height width));
         [|apply account_selection_blind].
  unfold authentication. cbn [texts inputs mbind list_bind app].
  change (idle_controls (typed b a)) with (idle_controls a).
  change (can_change_user (typed b a)) with (can_change_user a).
  change (has_session (typed b a)) with (has_session a). change (phase (typed b a)) with (phase a).
  split; [f_equal|].
  - destruct (authentication_controls _ _); done.
  - destruct (authentication_controls _ _), (can_change_user a); cbn; repeat constructor.
Qed.

Lemma power_controls_blind a : blind (power_controls a).
Proof using. unfold power_controls, blind, notice. by destruct (power_message a). Qed.
Lemma preview_indicator_blind a : blind (preview_indicator a).
Proof using. unfold preview_indicator, blind. by destruct (preview_message a). Qed.

Lemma main_discreet b a size :
  discreet b a (main_content to_uppercase hour date authentication_layout grid_size size).
Proof using.
  unfold discreet, main_content.
  change (requires_flow_layout (typed b a)) with (requires_flow_layout a).
  change (phase (typed b a)) with (phase a).
  destruct (effective_screen_layout _ _ _ _); cbn [texts inputs mbind list_bind app clock FLOW_CONTROL_ORDER fmap list_fmap].
  all: match goal with |- context [identity _ _ ?h ?w _] => destruct (identity_discreet b a h w) as [Ht Hi] end.
  all: rewrite Ht; split; [done|].
  all: rewrite power_controls_blind, session_selector_blind, preview_indicator_blind; cbn [app].
  all: by rewrite !app_nil_r.
Qed.

Lemma content_discreet b a size :
  discreet b a (content to_uppercase hour date authentication_layout grid_size size).
Proof using.
  destruct (main_discreet b a size) as [Ht Hi]. unfold discreet, content.
  change (power_state (typed b a)) with (power_state a).
  destruct (power_state a); [done|..]; unfold modal; cbn [texts inputs mbind list_bind app];
    rewrite Ht; split; try done; by rewrite app_nil_r.
Qed.

(** C35.  What is typed is nowhere but in the input: whatever the input holds, the
    texts of the screen are the same, and every input there is holds it and hides it
    exactly when the prompt asks for a secret. *)
Theorem typed_only_in_input b a region size :
  discreet b a (view to_uppercase hour date authentication_layout grid_size region size).
Proof using.
  unfold discreet, view, positioned_foreground. cbn [texts inputs mbind list_bind app].
  match goal with |- context [content _ _ _ _ _ ?s _] => destruct (content_discreet b a s) as [Ht Hi] end.
  by rewrite ?app_nil_r, Ht.
Qed.

End View.

(** ** Witnesses *)

Definition two_accounts : list Account :=
  [mkAccount (str "alice") (str "Alice") None; mkAccount (str "bob") (str "Bob") None].
Definition a_session : Session := mkSession (str "Sway") [str "sway"] (str "sway") [str "sway"].

(** A greeter that asks [alice] for a password, and one that offers the accounts. *)
Definition prompted (p : Phase) (user : rstring) : App :=
  mkApp user (str "Alice") two_accounts None None
    (fst (Conversation.receive 1 (Conversation.Prompt true (str "Password")) Conversation.new))
    None None false None p None [a_session] (Some a_session) false Idle false None false.

Abbreviation at_size := (mkSize (f32_of 1280) (f32_of 800)).

Lemma screen_focus_order_witness :
  let a := prompted WaitingForInput (str "alice") in
  shown_order a = [AuthenticationInput; TSubmit; TChangeUser; TSession; TPower Suspend; TPower Reboot; TPower PowerOff] ∧
  omap target (controls (content id [] [] (Some Flow) (f32_of 600) at_size a)) = shown_order a.
Proof.
  cbn zeta. split; [vm_compute; reflexivity|].
  refine (proj2 (screen_focus_order id [] [] (Some Flow) (f32_of 600) at_size (prompted WaitingForInput (str "alice"))) _).
  vm_compute. reflexivity.
Defined.

Lemma press_activates_witness :
  let a := prompted SelectingUser [] in
  acts a (Press (Some (TAccount 1)) (SelectAccount (mkAccount (str "bob") (str "Bob") None))) ∧
  admitted a (SelectAccount (mkAccount (str "bob") (str "Bob") None)) = true.
Proof.
  cbn zeta.
  destruct (press_activates id [] [] None (f32_of 600) at_size (prompted SelectingUser [])
    (Press (Some (TAccount 1)) (SelectAccount (mkAccount (str "bob") (str "Bob") None)))) as (H & _ & Ha).
  - apply (list_elem_of_lookup_2 _ 1). vm_compute. reflexivity.
  - split; [exact H|by apply Ha].
Defined.
