(* ===== verification/GreeterTile.v ===== *)
(** * Presses of an account tile ([src/app/account_tile.rs], [src/app/modal.rs])

    The gesture of the tile as a state machine over the toolkit's events: a click
    is pressed and released over the tile, a tap starts on the tile and moves no
    further than the threshold.  [publishes_gesture] states that nothing else makes
    the tile send its message.  What the content of a tile does with an event is a
    flag of the event: the content of the greeter's tiles captures none. *)

From S2P Require Import Prelude LockerDraw.

Record Point := mkPoint { px : f32; py : f32 }.
Abbreviation Finger := Z (only parsing).

Definition DRAG_THRESHOLD : f32 := f32_of 6.
Definition REVEAL_MARGIN : f32 := f32_of 16.

(** ** Revealing a tile *)

Record Rectangle := mkRectangle { rx : f32; ry : f32; rwidth : f32; rheight : f32 }.

(** How far to scroll for the target to be seen; [translation] is how far it is
    scrolled, and [None] leaves it there. *)
Definition reveal_offset (viewport content : Rectangle) (translation : Point) (target : Rectangle) :
    option Point :=
  let visible_top := f32_add (ry viewport) (py translation) in
  let visible_bottom := f32_add visible_top (rheight viewport) in
  let padded_top := f32_sub (ry target) REVEAL_MARGIN in
  let padded_bottom := f32_add (f32_add (ry target) (rheight target)) REVEAL_MARGIN in
  let to y := Some (mkPoint (px translation) (f32_max y (f32_of 0))) in
  if f32_gt (f32_add (rheight target) (f32_mul (f32_of 2) REVEAL_MARGIN)) (rheight viewport)
  then to (f32_sub (ry target) (ry content))
  else if f32_gt visible_top padded_top then to (f32_sub padded_top (ry content))
  else if f32_gt padded_bottom visible_bottom
  then to (f32_sub (f32_sub padded_bottom (ry content)) (rheight viewport))
  else None.

(** ** The state *)

Record State := mkState {
  mouse_pressed : bool;
  touch_finger : option Finger;
  touch_start : option Point;
  touch_dragged : bool;
}.
Definition default_state : State := mkState false None None false.

Definition press_mouse (s : State) : State := mkState true (touch_finger s) (touch_start s) (touch_dragged s).
Definition release_mouse (over_tile : bool) (s : State) : State * bool :=
  (mkState false (touch_finger s) (touch_start s) (touch_dragged s), mouse_pressed s && over_tile).
Definition start_touch (finger : Finger) (position : Point) (s : State) : State :=
  mkState (mouse_pressed s) (Some finger) (Some position) false.

(** Whether a finger that started at one point has been dragged at another. *)
Definition dragged (start position : Point) : bool :=
  let dx := f32_sub (px position) (px start) in
  let dy := f32_sub (py position) (py start) in
  f32_gt (f32_add (f32_mul dx dx) (f32_mul dy dy)) (f32_mul DRAG_THRESHOLD DRAG_THRESHOLD).
Definition move_touch (finger : Finger) (position : Point) (s : State) : State :=
  if negb (bool_decide (touch_finger s = Some finger)) then s
  else match touch_start s with
       | Some start =>
         mkState (mouse_pressed s) (touch_finger s) (touch_start s) (touch_dragged s || dragged start position)
       | None => s
       end.
Definition finish_touch (finger : Finger) (s : State) : State * bool :=
  if negb (bool_decide (touch_finger s = Some finger)) then (s, false)
  else (mkState (mouse_pressed s) None None false, bool_decide (is_Some (touch_start s)) && negb (touch_dragged s)).

(** ** Events *)

Inductive Event :=
| LeftPressed | LeftReleased
| FingerPressed (id : Finger) (position : Point)
| FingerMoved (id : Finger) (position : Point)
| FingerLifted (id : Finger) | FingerLost (id : Finger)
| Keyboard | OtherMouse | OtherEvent.

(** [modal::blocks_background]. *)
Definition blocks_background (e : Event) : bool :=
  match e with
  | Keyboard | LeftPressed | LeftReleased | OtherMouse
  | FingerPressed _ _ | FingerMoved _ _ | FingerLifted _ | FingerLost _ => true
  | OtherEvent => false
  end.

Section Tile.
Context {Message : Type}.

(** An event, whether the tile's content captured it, whether the cursor is
    over the tile, and the message that the tile has then. *)
Record Input := mkInput {
  event : Event; captured : bool; is_over : bool; on_press : option Message;
}.

(** [Widget::update] of the tile: its state, what it publishes, and whether it captures the event. *)
Definition update (i : Input) (s : State) : State * option Message * bool :=
  if captured i then (s, None, true)
  else
    let enabled := bool_decide (is_Some (on_press i)) in
    match event i with
    | LeftPressed => if enabled && is_over i then (press_mouse s, None, true) else (s, None, false)
    | LeftReleased =>
      if mouse_pressed s then
        let '(s, activate) := release_mouse (is_over i) s in (s, if activate then on_press i else None, true)
      else (s, None, false)
    | FingerPressed id position =>
      if enabled && is_over i then (start_touch id position s, None, false) else (s, None, false)
    | FingerMoved id position => (move_touch id position s, None, false)
    | FingerLifted id =>
      if bool_decide (touch_finger s = Some id) then
        let '(s, activate) := finish_touch id s in
        (s, if activate && is_over i then on_press i else None, false)
      else (s, None, false)
    | FingerLost id =>
      if bool_decide (touch_finger s = Some id) then (mkState false None None false, None, false)
      else (s, None, false)
    | Keyboard | OtherMouse | OtherEvent => (s, None, false)
    end.

Definition run (inputs : list Input) (s : State) : State := foldl (λ s i, fst (fst (update i s))) s inputs.

(** ** What a press is made of *)

(** The tile sees the event, with a message and under the cursor. *)
Definition on_tile (i : Input) : Prop := captured i = false ∧ is_over i = true ∧ is_Some (on_press i).

Definition clicked (before : list Input) : Prop :=
  ∃ l p r, before = l ++ p :: r ∧ event p = LeftPressed ∧ on_tile p ∧
    Forall (λ i, captured i = false → event i ≠ LeftReleased) r.

(** A finger on the tile that nothing dragged, lifted or lost. *)
Definition keeps (id : Finger) (start : Point) (i : Input) : Prop :=
  captured i = false →
  (∀ q, event i = FingerMoved id q → dragged start q = false) ∧
  event i ≠ FingerLifted id ∧ event i ≠ FingerLost id ∧ (∀ f q, event i = FingerPressed f q → ¬ on_tile i).
Definition tapped (id : Finger) (before : list Input) : Prop :=
  ∃ l p r start, before = l ++ p :: r ∧ event p = FingerPressed id start ∧ on_tile p ∧ Forall (keeps id start) r.

Definition touching (s : State) (before : list Input) (f : Finger) (start : Point) : Prop :=
  ∃ l p r, before = l ++ p :: r ∧ event p = FingerPressed f start ∧ on_tile p ∧
    (touch_dragged s = false → Forall (keeps f start) r).

(** What the state remembers of the events so far. *)
Record remembers (before : list Input) (s : State) : Prop := mkRemembers {
  r_mouse : mouse_pressed s = true → clicked before;
  r_start : is_Some (touch_finger s) ↔ is_Some (touch_start s);
  r_touch f start : touch_finger s = Some f → touch_start s = Some start → touching s before f start;
}.

Lemma clicked_snoc before i :
  clicked before → (captured i = false → event i ≠ LeftReleased) → clicked (before ++ [i]).
Proof.
  intros (l & p & r & -> & He & Ht & Hr) Hi. exists l, p, (r ++ [i]). rewrite <- (assoc_L (++)).
  split_and!; [done..|]. apply Forall_app_2; [done|by constructor].
Qed.
Lemma clicked_here before i : event i = LeftPressed → on_tile i → clicked (before ++ [i]).
Proof. intros. by exists before, i, []. Qed.

Lemma touching_snoc s s' before i f start :
  touching s before f start → (touch_dragged s' = false → touch_dragged s = false ∧ keeps f start i) →
  touching s' (before ++ [i]) f start.
Proof.
  intros (l & p & r & -> & He & Ht & Hr) Hi. exists l, p, (r ++ [i]). rewrite <- (assoc_L (++)).
  split_and!; [done..|]. intros [Hs Hk]%Hi. apply Forall_app_2; [by apply Hr|by constructor].
Qed.

(** An event that leaves the gesture as it is. *)
Lemma remembers_ignored before i s :
  remembers before s → (captured i = false → event i ≠ LeftReleased ∨ mouse_pressed s = false) →
  (∀ f start, touch_finger s = Some f → touch_start s = Some start → touch_dragged s = false → keeps f start i) →
  remembers (before ++ [i]) s.
Proof.
  intros [Hm Hs Ht] Hi Hk. constructor; [|done|].
  - intros Hp. apply clicked_snoc; [by apply Hm|]. intros Hc. destruct (Hi Hc); [done|congruence].
  - intros f start Hf Hst. eapply touching_snoc; [by apply Ht|]. intros Hd. split; [done|by apply Hk].
Qed.

Lemma enabled_over i : captured i = false →
  bool_decide (is_Some (on_press i)) && is_over i = true ↔ on_tile i.
Proof. intros Hc. rewrite andb_true_iff, bool_decide_eq_true. unfold on_tile. naive_solver. Qed.

(** An event that touches neither a finger nor the button is ignored. *)
Lemma quiet before i s :
  remembers before s → event i ≠ LeftReleased →
  (∀ f, event i ≠ FingerLifted f ∧ event i ≠ FingerLost f ∧ (∀ q, event i ≠ FingerMoved f q)) →
  (∀ f q, event i = FingerPressed f q → ¬ on_tile i) → remembers (before ++ [i]) s.
Proof.
  intros Hr Hm Hf Hp. apply remembers_ignored; [done|by left|]. intros f start _ _ _ _.
  destruct (Hf f) as (? & ? & Hmv). split_and!; try done. intros q Hq. by destruct (Hmv q).
Qed.

Lemma update_pressed before i s :
  remembers before s → captured i = false →
  event i = LeftPressed → remembers (before ++ [i]) (fst (fst (update i s))).
Proof.
  intros Hr Hc He. pose proof Hr as [Hm Hs Ht]. pose proof (enabled_over i Hc) as Hon.
  unfold update. rewrite Hc, He. destruct (_ && _) eqn:E; cbn; [|by apply quiet; rewrite ?He].
  constructor; cbn; [|done|].
  - intros _. apply clicked_here; [done|by apply Hon].
  - intros f start Hf Hst. eapply touching_snoc; [by apply Ht|]. intros Hd. split; [done|]. intros _. by rewrite He.
Qed.

Lemma update_released before i s :
  remembers before s → captured i = false →
  event i = LeftReleased → remembers (before ++ [i]) (fst (fst (update i s))).
Proof.
  intros Hr Hc He. pose proof Hr as [Hm Hs Ht]. unfold update. rewrite Hc, He.
  destruct (mouse_pressed s) eqn:E; cbn.
  - constructor; cbn; [done..|]. intros f start Hf Hst. eapply touching_snoc; [by apply Ht|].
    intros Hd. split; [done|]. intros _. by rewrite He.
  - apply remembers_ignored; [done|by right|]. intros f start _ _ _ _. by rewrite He.
Qed.

Lemma update_touched before i s id position :
  remembers before s → captured i = false →
  event i = FingerPressed id position → remembers (before ++ [i]) (fst (fst (update i s))).
Proof.
  intros Hr Hc He. pose proof Hr as [Hm Hs Ht]. pose proof (enabled_over i Hc) as Hon.
  unfold update. rewrite Hc, He. destruct (_ && _) eqn:E; cbn.
  - constructor; cbn; [|done|].
    + intros Hp. apply clicked_snoc; [by apply Hm|]. by rewrite He.
    + intros f start [= <-] [= <-]. exists before, i, []. split_and!; [done..|by apply Hon|by constructor].
  - apply quiet; rewrite ?He; try done. intros f q _ Ht'. apply Hon in Ht'. congruence.
Qed.

Lemma update_moved before i s id position :
  remembers before s → captured i = false →
  event i = FingerMoved id position → remembers (before ++ [i]) (fst (fst (update i s))).
Proof.
  intros Hr Hc He. pose proof Hr as [Hm Hs Ht]. unfold update, move_touch. rewrite Hc, He. cbn.
  case_bool_decide as Hid; cbn.
  - destruct (touch_start s) as [start|] eqn:E; cbn; [|exfalso; rewrite Hid in Hs; destruct Hs as [Hs _];
      by destruct (Hs ltac:(by eexists))].
    constructor; cbn; [|by rewrite Hid|].
    + intros Hp. apply clicked_snoc; [by apply Hm|]. by rewrite He.
    + intros f start' Hf [= <-]. rewrite Hid in Hf. injection Hf as <-.
      eapply touching_snoc; [by apply Ht|]. cbn. intros [Hd Hn]%orb_false_iff. split; [done|]. intros _. rewrite He.
      split_and!; try done. by intros q [= <-].
  - apply remembers_ignored; [done|by left; rewrite He|]. intros f start Hf _ _ _. rewrite He.
    split_and!; try done. intros q [= -> _]. congruence.
Qed.

Lemma update_lifted before i s id :
  remembers before s → captured i = false →
  event i = FingerLifted id → remembers (before ++ [i]) (fst (fst (update i s))).
Proof.
  intros Hr Hc He. pose proof Hr as [Hm Hs Ht]. unfold update, finish_touch. rewrite Hc, He. cbn.
  case_bool_decide as Hid; cbn.
  - constructor; cbn; [|by split; intros []|done].
    intros Hp. apply clicked_snoc; [by apply Hm|]. by rewrite He.
  - apply remembers_ignored; [done|by left; rewrite He|]. intros f start Hf _ _ _. rewrite He.
    split_and!; try done. intros [= ->]. congruence.
Qed.

Lemma update_lost before i s id :
  remembers before s → captured i = false →
  event i = FingerLost id → remembers (before ++ [i]) (fst (fst (update i s))).
Proof.
  intros Hr Hc He. unfold update. rewrite Hc, He. cbn. case_bool_decide as Hid; cbn.
  - constructor; cbn; [done|by split; intros []|done].
  - apply remembers_ignored; [done|by left; rewrite He|]. intros f start Hf _ _ _. rewrite He.
    split_and!; try done. intros [= ->]. congruence.
Qed.

Lemma update_remembers before i s :
  remembers before s → remembers (before ++ [i]) (fst (fst (update i s))).
Proof.
  intros Hr. destruct (captured i) eqn:Hc.
  { unfold update. rewrite Hc. apply remembers_ignored; [done|congruence|].
    intros f start _ _ _ Hc'. congruence. }
  destruct (event i) eqn:He; eauto using update_pressed, update_released, update_touched, update_moved,
    update_lifted, update_lost.
  all: unfold update; rewrite Hc, He; cbn; by apply quiet; rewrite ?He.
Qed.

Lemma run_remembers inputs : remembers inputs (run inputs default_state).
Proof.
  induction inputs as [|i inputs IH] using rev_ind.
  - constructor; [done|by split; intros []|done].
  - unfold run. rewrite foldl_app. cbn. by apply update_remembers.
Qed.

(** C37.  A tile sends its message for a click or a tap only: what it publishes is
    the message it has, under the cursor, when the button is released that was
    pressed on it and not released since, or when a finger is lifted that was put
    on it and, since then, was neither lifted nor lost, nor further from where it
    began than the threshold. *)
Theorem publishes_gesture inputs i s m c :
  update i (run inputs default_state) = (s, Some m, c) →
  on_press i = Some m ∧ captured i = false ∧ is_over i = true ∧
  ((event i = LeftReleased ∧ clicked inputs) ∨ ∃ f, event i = FingerLifted f ∧ tapped f inputs).
Proof.
  destruct (run_remembers inputs) as [Hm Hs Ht]. unfold update.
  destruct (captured i) eqn:Hc; [done|].
  destruct (event i) as [| |? ?|? ?|f|f| | |] eqn:He; try (by repeat case_match).
  - destruct (mouse_pressed (run inputs default_state)) eqn:Hp; [|done]. cbn. rewrite Hp.
    destruct (is_over i); cbn; intros [= <- Ho <-]. split_and!; [done..|]. left. auto.
  - unfold finish_touch. case_bool_decide as Hf; [|done]. cbn.
    case_bool_decide as Hst; [|done]. destruct (touch_dragged (run inputs default_state)) eqn:Hd; [done|].
    destruct (is_over i); cbn; intros [= <- Ho <-]. split_and!; [done..|]. right. exists f.
    split; [done|]. destruct Hst as [start Hstart].
    destruct (Ht f start Hf Hstart) as (l & p & r & -> & Hep & Hon & Hk). exists l, p, r, start. auto.
Qed.

End Tile.

(** ** Examples *)

Abbreviation rectangle x y w h := (mkRectangle (f32_of x) (f32_of y) (f32_of w) (f32_of h)).

(** The offsets that the source's own test names, on a viewport of 400 by 200. *)
Example reveal_offset_below :
  reveal_offset (rectangle 0 0 400 200) (rectangle 0 0 400 800) (mkPoint (f32_of 0) (f32_of 100))
    (rectangle 0 350 100 80) = Some (mkPoint (f32_of 0) (f32_of 246)).
Proof. vm_compute. reflexivity. Qed.
Example reveal_offset_above :
  reveal_offset (rectangle 0 0 400 200) (rectangle 0 0 400 800) (mkPoint (f32_of 0) (f32_of 300))
    (rectangle 0 120 100 80) = Some (mkPoint (f32_of 0) (f32_of 104)).
Proof. vm_compute. reflexivity. Qed.
Example reveal_offset_tall :
  reveal_offset (rectangle 0 0 400 200) (rectangle 0 0 400 800) (mkPoint (f32_of 0) (f32_of 100))
    (rectangle 0 350 100 300) = Some (mkPoint (f32_of 0) (f32_of 350)).
Proof. vm_compute. reflexivity. Qed.

(** ** Witness *)

Definition tile_input (e : Event) (over : bool) : Input (Message := nat) := mkInput e false over (Some 7%nat).
Abbreviation at_point a b := (mkPoint (f32_of a) (f32_of b)).

(** A tap that moves by three pixels is one; by twenty, it is not. *)
Lemma publishes_gesture_witness :
  tapped 1 [tile_input (FingerPressed 1 (at_point 10 10)) true; tile_input (FingerMoved 1 (at_point 13 13)) true] ∧
  snd (fst (update (tile_input (FingerLifted 1) true)
              (run [tile_input (FingerPressed 1 (at_point 10 10)) true;
                    tile_input (FingerMoved 1 (at_point 10 30)) true] default_state))) = None.
Proof.
  split; [|vm_compute; reflexivity].
  destruct (publishes_gesture
    [tile_input (FingerPressed 1 (at_point 10 10)) true; tile_input (FingerMoved 1 (at_point 13 13)) true]
    (tile_input (FingerLifted 1) true) default_state 7%nat false) as (_ & _ & _ & [[E _]|(f & E & H)]).
  - vm_compute. reflexivity.
  - discriminate E.
  - injection E as <-. exact H.
Defined.
