(* ===== verification/GreeterPreview.v ===== *)
(** * The preview of the greeter ([src/app/preview.rs])

    The fixtures that [genkan login --preview] shows, as states of
    [Greeter.App], and the theorem that a preview only simulates: whatever the user
    does, it starts nothing but the toolkit's own tasks. *)

From S2P Require Import Prelude Utf8 Text Conversation Sessions Accounts Auth Greeter GreeterRuns.
From S2P Require CommandLine.
Import CommandLine (PreviewFixture, Selected, SessionMenu, SecretPrompt, Users, DuplicateNames, LargeAccountSet,
  LongAccounts, LongAuthentication, VisiblePrompt, InformationalMessage, ConsecutiveMessages,
  CancellationProgress, CancellationFailure, AuthenticationFailure, DiscoveryFailure, SessionFailure,
  PowerFailure, PowerConfirmation).

#[local] Arguments str : simpl never.

Record State := mkState {
  st_accounts : list Account;
  st_selected : option Account;
  st_input : rstring;
  st_prompt : rstring;
  st_message : option rstring;
  st_message_is_error : bool;
  st_session_message : option rstring;
  st_power_message : option rstring;
  st_power_message_is_error : bool;
  st_preview_message : option rstring;
  st_secret : bool;
  st_phase : Phase;
  st_session : option Session;
  st_power_state : PowerState;
}.

Definition preview_session : Session :=
  mkSession (str "Preview Wayland") [str "preview-session"] (str "preview") [str "Preview"].

(** [str::repeat]. *)
Definition repeated (n : nat) (s : string) : rstring := concat (repeat (str s) n).

Definition two_digits (n : Z) : rstring := (if n <? 10 then str "0" else []) ++ show_dec n.

Section Preview.
Context (is_format_control : char → bool).

Abbreviation override_account := (Accounts.override_account is_format_control).

Definition accounts_of (values : list (string * string)) : list Account :=
  (λ v, override_account (str (fst v)) (Some (str (snd v)))) <$> values.

Definition select_accounts (accounts : list Account) (s : State) : State :=
  mkState accounts None (st_input s) (st_prompt s) (Some select_a_user) (st_message_is_error s)
    (st_session_message s) (st_power_message s) (st_power_message_is_error s) (st_preview_message s)
    (st_secret s) SelectingUser (st_session s) (st_power_state s).
Definition with_message (message : rstring) (error : bool) (s : State) : State :=
  mkState (st_accounts s) (st_selected s) (st_input s) (st_prompt s) (Some message) error
    (st_session_message s) (st_power_message s) (st_power_message_is_error s) (st_preview_message s)
    (st_secret s) (st_phase s) (st_session s) (st_power_state s).
Definition with_phase (phase : Phase) (s : State) : State :=
  mkState (st_accounts s) (st_selected s) (st_input s) (st_prompt s) (st_message s) (st_message_is_error s)
    (st_session_message s) (st_power_message s) (st_power_message_is_error s) (st_preview_message s)
    (st_secret s) phase (st_session s) (st_power_state s).

(** [State::new]. *)
Definition new_state (fixture : PreviewFixture) (username display_name : option rstring) : State :=
  let synthetic_identity := bool_decide (username = None) in
  let selected :=
    override_account (default (str "preview") username)
      (match display_name with
       | Some name => Some name
       | None => if synthetic_identity then Some (str "Preview User") else None
       end) in
  let state :=
    mkState [selected] (Some selected) [] (str "Password") None false None None false
      (Some (str "Preview mode: credentials and power actions are simulated")) true WaitingForInput
      (Some preview_session) Idle in
  match fixture with
  | Selected | SessionMenu | SecretPrompt => state
  | Users => select_accounts (accounts_of [("alice", "Alice"); ("bob", "Bob")]%string) state
  | DuplicateNames =>
    select_accounts (accounts_of [("alex", "Alex Morgan"); ("amorgan", "Alex Morgan")]%string) state
  | LargeAccountSet =>
    select_accounts
      ((λ n, let number := two_digits (Z.of_nat n) in
             override_account (str "user" ++ number) (Some (str "Preview User " ++ number)))
       <$> seq 1 24) state
  | LongAccounts =>
    let prefix := repeated 34 "account" in
    let long := Some (repeated 4 "Long duplicate account name ") in
    select_accounts [override_account (prefix ++ str "01") long; override_account (prefix ++ str "02") long] state
  | LongAuthentication =>
    let account :=
      override_account (repeated 16 "selected-account") (Some (repeated 4 "Long selected account name ")) in
    mkState [account] (Some account) (st_input state)
      (str "Enter the complete authentication challenge: " ++ repeated 52 "challenge ")
      (Some (str "Authentication details: " ++ repeated 70 "detail ")) (st_message_is_error state)
      None None false (st_preview_message state) (st_secret state) (st_phase state) (st_session state) Idle
  | VisiblePrompt =>
    mkState (st_accounts state) (st_selected state) (str "123456") (str "Verification code") None false
      None None false (st_preview_message state) false (st_phase state) (st_session state) Idle
  | InformationalMessage => with_message (str "Touch the security key, then enter your password") false state
  | ConsecutiveMessages => with_message (str "Security key accepted; enter your password") false state
  | CancellationProgress =>
    with_message still_changing_user false (with_phase CancellingForUserSelection
      (select_accounts (accounts_of [("alice", "Alice"); ("bob", "Bob")]%string) state))
  | CancellationFailure =>
    with_message (str "Could not cancel the previous login attempt") true
      (with_phase UserSelectionCancellationFailed
         (select_accounts (accounts_of [("alice", "Alice"); ("bob", "Bob")]%string) state))
  | AuthenticationFailure => with_message (str "Authentication failed") true (with_phase Failed state)
  | DiscoveryFailure =>
    with_message (str "AccountsService found no unlocked non-system users") true
      (with_phase Failed (select_accounts [] state))
  | SessionFailure =>
    mkState (st_accounts state) (st_selected state) [] (st_prompt state) None false
      (Some no_valid_sessions) None false (st_preview_message state) true Failed None Idle
  | PowerFailure =>
    mkState (st_accounts state) (st_selected state) [] (st_prompt state) None false None
      (Some (str "Power action was not authorized")) true (st_preview_message state) true (st_phase state)
      (st_session state) Idle
  | PowerConfirmation =>
    mkState (st_accounts state) (st_selected state) [] (st_prompt state) None false None None false
      (st_preview_message state) true (st_phase state) (st_session state) (Confirming PowerOff)
  end.

Definition is_session_menu (fixture : PreviewFixture) : bool :=
  match fixture with SessionMenu => true | _ => false end.

(** The sessions of the menu, and the one that is selected. *)
Definition fixture_sessions (fixture : PreviewFixture) (session : option Session) :
    list Session * option Session :=
  match fixture, session with
  | SessionMenu, Some s =>
    let shared_prefix := repeated 12 "SessionWithACommonUnbrokenPrefix" in
    let first := mkSession (shared_prefix ++ str "Selected") (command s)
                   (shared_prefix ++ str "preview") (desktop_names s) in
    ([first; mkSession (shared_prefix ++ str "Alternate") [str "alternate-session"]
               (shared_prefix ++ str "alternate") [str "Alternate"]], Some first)
  | _, _ => (match session with Some s => [s] | None => [] end, session)
  end.

(** [preview::build]. *)
Definition build (fixture : PreviewFixture) (username display_name : option rstring) : App * list Task :=
  let state := new_state fixture username display_name in
  let '(sessions, selected_session) := fixture_sessions fixture (st_session state) in
  let conversation :=
    Conversation.for_preview (st_input state) (st_prompt state) (st_message state) (st_message_is_error state)
      (st_secret state)
      (match st_phase state with
       | WaitingForInput => Waiting | Failed => Conversation.Failed | _ => Submitting
       end) in
  let app :=
    mkApp (from_option Accounts.username [] (st_selected state))
      (from_option Accounts.display_name select_a_user (st_selected state))
      (st_accounts state) None None conversation (st_session_message state) (st_power_message state)
      (st_power_message_is_error state) (st_preview_message state) (st_phase state) None sessions
      selected_session (is_session_menu fixture) Idle false None true in
  let base_focus := head (focus_order app) in
  let app := set_power_state (st_power_state state) app in
  if is_session_menu fixture then set_focus TSession app
  else if confirming app then set_focus DialogCancel (set_focus_before_modal base_focus app)
  else if bool_decide (phase app = WaitingForInput) then blur_input app
  else focus_first app.

(** ** A preview only simulates *)

(** What a preview is at all times. *)
Record simulated (a : App) : Prop := mkSimulated {
  sim_preview : preview a = true;
  sim_client : client a = None;
  sim_closing : closing a = None;
  sim_power : ∀ action, power_state a ≠ Executing action;
}.

(** The toolkit's own tasks, and the end of the window. *)
Definition harmless (t : Task) : bool := widget t || match t with CloseWindow _ => true | _ => false end.

Definition simulates (r : App * list Task) : Prop := simulated (fst r) ∧ Forall (λ t, harmless t = true) (snd r).

(** A field that a preview may change. *)
Ltac simulated_by H := destruct H; constructor; cbn; try done.

Lemma sim_focus a r : simulated a → focuses a r → simulates r.
Proof using.
  intros H [(f & b & m & E) Hw]. split; [rewrite E; simulated_by H|].
  eapply Forall_impl; [exact Hw|]. cbn. intros t Ht. unfold harmless. by rewrite Ht.
Qed.
Lemma sim_stay a : simulated a → simulates (a, []).
Proof using. by split. Qed.

Lemma sim_conversation c a : simulated a → simulated (set_conversation c a).
Proof using. intros H. simulated_by H. Qed.
Lemma sim_message m a : simulated a → simulated (set_preview_message m a).
Proof using. intros H. simulated_by H. Qed.
Lemma sim_phase p a : simulated a → simulated (set_phase p a).
Proof using. intros H. simulated_by H. Qed.
#[local] Hint Resolve sim_focus sim_stay sim_conversation sim_message sim_phase : genkan.

Lemma select_account_simulates account a : simulated a → simulates (select_account account a).
Proof using.
  intros H. unfold select_account. destruct (begin_attempt _) as [b attempt] eqn:Eb.
  assert (simulated b) as Hb.
  { unfold begin_attempt in Eb. destruct (Conversation.begin_attempt _). injection Eb as <- _. simulated_by H. }
  cbn [preview set_selection_session_cancelled]. rewrite (sim_preview _ Hb).
  eapply sim_focus; [|apply set_focus_focuses]. simulated_by Hb.
Qed.

Lemma finish_simulates a : simulated a → simulates (finish_preview_user_selection a).
Proof using. intros H. eapply sim_focus; [|apply set_focus_focuses]. simulated_by H. Qed.

Lemma focus_first_same a : ∃ f b m, fst (focus_first a) = refocus f b m a.
Proof using. apply focus_first_focuses. Qed.

Lemma change_user_simulates a : simulated a → simulates (change_user a).
Proof using.
  intros H. unfold change_user, take_client, begin_attempt. destruct (Conversation.begin_attempt _) as [c n].
  match goal with |- context [focus_first ?x] =>
    destruct (focus_first_same x) as (f & b & m & E); destruct (focus_first x) as [a' ts] end.
  cbn [fst] in E. subst a'. cbn [preview refocus]. change (preview (refocus _ _ _ _)) with (preview a).
  rewrite (sim_preview _ H). apply finish_simulates. simulated_by H.
Qed.
Lemma retry_user_selection_simulates a : simulated a → simulates (retry_user_selection_cancellation a).
Proof using.
  intros H. unfold retry_user_selection_cancellation, begin_attempt.
  destruct (Conversation.begin_attempt _) as [c n].
  match goal with |- context [focus_first ?x] =>
    destruct (focus_first_same x) as (f & b & m & E); destruct (focus_first x) as [a' ts] end.
  cbn [fst] in E. subst a'. change (preview (refocus _ _ _ _)) with (preview a).
  rewrite (sim_preview _ H). apply finish_simulates. simulated_by H.
Qed.

Lemma confirm_power_simulates action a : simulated a → simulates (confirm_power action a).
Proof using.
  intros H. unfold confirm_power. rewrite (sim_preview _ H).
  eapply sim_focus; [|apply leave_power_dialog_focuses]. simulated_by H.
Qed.
Lemma cycle_session_simulates d a : simulated a → simulates (cycle_session d a).
Proof using.
  intros H. unfold cycle_session. case_bool_decide; [by apply sim_stay|]. cbn.
  destruct (sessions a !! _); apply sim_stay; [simulated_by H|done].
Qed.

(** The messages of the user and of the toolkit's own tasks. *)
Definition from_user (m : Message) : bool :=
  user_message m || match m with WidgetFocused _ => true | _ => false end.

Section Dispatch.
Context (rec : Message → App → App * list Task) (found : list Session).
Hypothesis rec_simulates : ∀ m a, simulated a → from_user m = true → simulates (rec m a).

Lemma activate_simulates a : simulated a → simulates (activate_focus rec a).
Proof using rec_simulates.
  intros H. unfold activate_focus.
  assert (simulates match activation a with Some m => rec m a | None => (a, []) end) as Hact.
  { destruct (activation a) eqn:E; [|by apply sim_stay]. apply rec_simulates; [done|].
    unfold from_user. by rewrite (proj1 (activation_user _ _ E)). }
  destruct (focus_target a) as [[]|]; try done.
  destruct (can_select_session a); [by apply cycle_session_simulates|by apply sim_stay].
Qed.

Lemma navigate_simulates n a : simulated a → simulates (navigate_focus rec n a).
Proof using rec_simulates.
  intros H. destruct n; cbn; [by eapply sim_focus; auto with genkan|by eapply sim_focus; auto with genkan|..].
  3: by apply activate_simulates.
  all: unfold move_directional; destruct (focus_target a) as [[]|]; try (by apply sim_stay).
  all: try (by eapply sim_focus; auto with genkan).
  all: case_match; [|by apply sim_stay]; try (by apply cycle_session_simulates);
    by eapply sim_focus; [|apply set_focus_focuses].
Qed.

Lemma dispatch_simulates m a : simulated a → from_user m = true → simulates (dispatch rec found m a).
Proof using rec_simulates.
  intros H Hm. destruct m; try discriminate Hm; cbn [dispatch]; try (by apply sim_stay).
  all: try (by eapply sim_focus; auto with genkan).
  - destruct (Conversation.update_input value (conversation a)) as [c []]; apply sim_stay; simulated_by H.
  - case_bool_decide; [|by apply sim_stay]. unfold submit. rewrite (sim_preview _ H).
    eapply sim_focus; [|apply set_focus_focuses]. simulated_by H.
  - case_bool_decide; [|by apply sim_stay]. unfold retry. rewrite (sim_preview _ H). apply sim_stay. simulated_by H.
  - case_match; [|by apply sim_stay]. unfold retry_session. rewrite (sim_preview _ H). apply sim_stay. simulated_by H.
  - case_match; [by apply change_user_simulates|by apply sim_stay].
  - case_bool_decide; [by apply retry_user_selection_simulates|by apply sim_stay].
  - case_match; [by apply select_account_simulates|by apply sim_stay].
  - apply navigate_simulates. simulated_by H.
  - case_match; [by apply navigate_simulates|by apply sim_stay].
  - split; [done|by repeat constructor].
  - case_match; [|by apply sim_stay]. eapply sim_focus; [|apply set_focus_focuses]. simulated_by H.
  - case_match; [|by apply sim_stay]. eapply sim_focus; [|apply set_focus_focuses]. simulated_by H.
  - apply sim_stay. simulated_by H.
  - split; [simulated_by H|]. unfold reveal_focused_input. cbn. case_bool_decide; by repeat constructor.
  - split; [done|]. unfold reveal_focused_input. cbn. case_bool_decide; by repeat constructor.
  - case_match; [|by apply sim_stay]. eapply sim_focus; [|apply enter_power_dialog_focuses]. simulated_by H.
  - case_match; [|by apply sim_stay]. eapply sim_focus; [|apply leave_power_dialog_focuses]. simulated_by H.
  - case_bool_decide; [by apply confirm_power_simulates|by apply sim_stay].
  - case_match; [by apply rec_simulates|]. case_match; [apply sim_stay; simulated_by H|].
    case_bool_decide; [|by apply sim_stay]. eapply sim_focus; [|apply blur_input_focuses]. done.
  - unfold close_requested. rewrite (sim_preview _ H). split; [simulated_by H|by repeat constructor].
Qed.
End Dispatch.

Lemma update_simulates found n : ∀ m a,
  simulated a → from_user m = true → simulates (update_depth n found m a).
Proof using.
  induction n as [|n IH]; intros m a H Hm; [by apply sim_stay|]. cbn [update_depth]. unfold update_with.
  destruct (admitted a m); [|by apply sim_stay]. by apply dispatch_simulates.
Qed.

Lemma build_simulates fixture username display_name : simulates (build fixture username display_name).
Proof using.
  unfold build. destruct (fixture_sessions fixture _) as [sessions selected].
  match goal with |- context [set_power_state ?p ?x] => set (app := set_power_state p x) end.
  assert (simulated app) as H.
  { constructor; [done..|]. cbn. by destruct fixture. }
  destruct (is_session_menu fixture); [by eapply sim_focus; auto with genkan|].
  destruct (confirming app).
  { eapply sim_focus; [|apply set_focus_focuses]. destruct H. by constructor. }
  case_bool_decide; by eapply sim_focus; auto with genkan.
Qed.

(** What the answers for a client say of its user. *)
Context (client_user : Client → rstring).

(** A preview among its messages: what its user and the window do at any time,
    and the completions of its outstanding tasks, as for the greeter itself. *)
Definition moves (s s' : App * list Task) : Prop := ∃ m out, GreeterRuns.step client_user s m out s'.

(** The only messages that arrive are the user's and the toolkit's. *)
Lemma harmless_completes t m : harmless t = true → completes client_user t m → from_user m = true.
Proof using. intros Ht Hc. by destruct Hc. Qed.

Lemma simulates_step s m out s' : simulates s → GreeterRuns.step client_user s m out s' → from_user m = true ∧ simulates s'.
Proof using.
  intros [Hs Ht] Hstep. destruct Hstep as [found m a ts Hu _|found pre t post m a Hc _]; cbn [fst snd] in *.
  - assert (from_user m = true) as Hm by (unfold from_user; by rewrite Hu). split; [done|].
    destruct (update_simulates found 2 m a Hs Hm) as [H1 H2]. split; [exact H1|]. cbn. by apply Forall_app_2.
  - apply Forall_app in Ht as [Hpre [Ht Hpost]%Forall_cons].
    assert (from_user m = true) as Hm by by eapply harmless_completes. split; [done|].
    destruct (update_simulates found 2 m a Hs Hm) as [H1 H2]. split; [exact H1|]. cbn.
    apply Forall_app_2; [by apply Forall_app_2|exact H2].
Qed.

(** What its user does, one thing after another. *)
Definition after (s : App * list Task) (m : Message) : App * list Task :=
  (fst (update [] m (fst s)), snd s ++ snd (update [] m (fst s))).
Lemma after_moves ms s : simulates s → forallb user_message ms = true → rtc moves s (foldl after s ms).
Proof using.
  revert s. induction ms as [|m ms IH]; intros s Hs Hms; [apply rtc_refl|]. cbn in Hms |- *. simp_bool.
  assert (GreeterRuns.step client_user s m (snd (update [] m (fst s))) (after s m)) as Hstep.
  { destruct s as [a ts]. apply step_user; [done|]. intros He. destruct Hs as [_ Ht].
    rewrite Forall_forall in Ht. by specialize (Ht _ He). }
  eapply rtc_l; [by eexists _, _|]. apply IH; [by eapply simulates_step|done].
Qed.

(** C36.  A preview only simulates: from any fixture, whatever its user and its
    window do and in whatever order its tasks complete, every outstanding task
    moves or reads the focus, scrolls, or closes the window, and none asks
    greetd, AccountsService or the system for anything; so none of their answers
    ever arrives.  The preview has no connection, is not closing and carries out
    no power action.  (The wallpaper, which a preview shows like the greeter, is
    not part of the state.) *)
Theorem preview_is_simulated fixture username display_name s :
  rtc moves (build fixture username display_name) s →
  simulated (fst s) ∧ Forall (λ t, harmless t = true) (snd s)
  ∧ ∀ m out s', GreeterRuns.step client_user s m out s' → from_user m = true.
Proof using.
  intros Hs. pose proof (build_simulates fixture username display_name) as H.
  assert (simulates s) as Hsim.
  { revert H. induction Hs as [|x y z (m & out & Hxy) _ IH]; [done|]. intros Hx. apply IH. by eapply simulates_step. }
  split; [apply Hsim|]. split; [apply Hsim|]. intros m out s' Hstep. by eapply simulates_step.
Qed.

End Preview.

(** A power action is confirmed, a secret is typed and submitted, the user is
    changed and the window closed. *)
Definition preview_after : App * list Task :=
  foldl after (build (λ _, false) PowerConfirmation None None)
    [ConfirmPower PowerOff; SyncWidgetFocus; InputChanged (str "secret"); Submit; ChangeUser; CloseRequested 1].

Lemma preview_is_simulated_witness : simulated (fst preview_after) ∧ CloseWindow 1 ∈ snd preview_after.
Proof.
  split; [|apply (list_elem_of_lookup_2 _ (length (snd preview_after) - 1)); vm_compute; reflexivity].
  refine (proj1 (preview_is_simulated (λ _, false) (λ _, []) PowerConfirmation None None preview_after _)).
  apply after_moves; [apply build_simulates|reflexivity].
Defined.
