(* ===== verification/LockPreview.v ===== *)
(** * The preview of the lock ([src/locker/preview.rs])

    The window of [genkan lock --preview]: the conversation of each fixture, the
    frame that it is drawn from, the size of the picture for the size and the scale
    of the window, and how the preview ends.  It has no lock and no worker.  The
    toolkit delivers the window's events and shows the picture; whether there is
    memory for the pixels is a flag of each drawing.  [None] is a panic. *)

From S2P Require Import Prelude Utf8.
From S2P Require Import Conversation LockerDraw LockDraw.
From S2P Require SessionLock CommandLine Locker.
Import SessionLock (RgbaFrame, PresentationFrame, rgba_new, frame_new).
Import CommandLine (LockFixture, Securing, Prompt, Challenge, Submitting, Failure).

#[local] Arguments str : simpl never.

Definition MAX_PREVIEW_PIXELS : Z := 4096 * 4096.

Inductive Error := Dimensions | Render | Iced | BackendTerminated.
#[export] Instance Error_eq_dec : EqDecision Error.
Proof. solve_decision. Defined.

(** [Fixture::conversation], and whether the lock is confirmed. *)
Definition fixture_conversation (fixture : LockFixture) : Conversation.Conversation * bool :=
  match fixture with
  | Securing => (Conversation.new, false)
  | Prompt =>
    (Conversation.for_preview (str "preview") (str "Password") None false true Conversation.Waiting, true)
  | Challenge =>
    (Conversation.for_preview (str "7")
       (concat (repeat (str "Step" ++ [10]) 16) ++ [10]
        ++ str "Enter the following challenge response: 793146")
       None false false Conversation.Waiting, true)
  | Submitting => (Conversation.for_preview [] (str "Password") None false true Conversation.Submitting, true)
  | Failure =>
    (Conversation.for_preview [] (str "Password") (Some (str "Authentication failed")) true true
       Conversation.Failed, true)
  end.

(** [presentation], over the wallpaper's frame. *)
Definition presentation (fonts : Typeface) (wallpaper : option RgbaFrame) (fixture : LockFixture) :
    option PresentationFrame :=
  let '(overlay_width, overlay_height) := authentication_overlay_dimensions in
  let '(conversation, confirmed) := fixture_conversation fixture in
  pixels ← render_authentication_overlay fonts overlay_width overlay_height (str "preview")
             (str "Preview User") conversation confirmed 0 (Locker.blank overlay_width overlay_height);
  overlay ← rgba_new overlay_width overlay_height pixels;
  let '(canvas_width, canvas_height) := authentication_canvas_dimensions in
  frame_new canvas_width canvas_height wallpaper overlay
    ((canvas_width - overlay_width) / 2) ((canvas_height - overlay_height) / 2).

Definition valid_dimensions (width height : Z) : bool :=
  (0 <? width) && (0 <? height)
  && match checked_mul 32 width height with
     | Some pixels => pixels <=? MAX_PREVIEW_PIXELS
     | None => false
     end.

Definition render_frame (presentation : PresentationFrame) (width height : Z) (reserved : bool) :
    option (result Error RgbaFrame) :=
  if negb (valid_dimensions width height) then Some (Err Dimensions)
  else
    frame ← render_preview presentation width height reserved;
    Some (ok_or Render frame).

Record Size := mkSize { size_width : f32; size_height : f32 }.

Definition is_finite (x : f32) : bool :=
  match x with S754_zero _ | S754_finite _ _ _ => true | S754_infinity _ | S754_nan => false end.
Definition as_u32 : f32 → Z := saturate 0 (2 ^ 32 - 1).

Definition physical_dimensions (size : Size) (scale : f32) : option (Z * Z) :=
  if negb (is_finite scale) || f32_le scale (f32_of 0) then None
  else
    let width := f32_round (f32_mul (size_width size) scale) in
    let height := f32_round (f32_mul (size_height size) scale) in
    let u32_max := f32_of (2 ^ 32 - 1) in
    if f32_gt (f32_of 1) width || f32_gt (f32_of 1) height || f32_gt width u32_max || f32_gt height u32_max
    then None
    else
      let dimensions := (as_u32 width, as_u32 height) in
      if valid_dimensions (fst dimensions) (snd dimensions) then Some dimensions else None.

(** ** The window *)

Record ExitState := mkExit { failure : option Error; close_requested : bool }.

Record Preview := mkPreview {
  shown : PresentationFrame;
  logical_size : Size;
  scale : f32;
  image : RgbaFrame;
  exit_status : ExitState;
}.

Inductive WindowEvent :=
| CloseRequested | Opened (size : Size) | Resized (size : Size) | Rescaled (scale : f32) | OtherEvent.

Definition record_failure (error : Error) (s : ExitState) : ExitState :=
  match failure s with None => mkExit (Some error) (close_requested s) | Some _ => s end.
Definition record_close (s : ExitState) : ExitState := mkExit (failure s) true.
Definition finish (s : ExitState) : result Error unit :=
  match failure s with
  | Some error => Err error
  | None => if close_requested s then Ok tt else Err BackendTerminated
  end.

(** [apply_window_geometry]: whether the picture has to be drawn again. *)
Definition apply_window_geometry (event : WindowEvent) (logical_size : Size) (scale : f32) :
    Size * f32 * bool :=
  match event with
  | Opened size | Resized size => (size, scale, true)
  | Rescaled new_scale => (logical_size, new_scale, false)
  | CloseRequested | OtherEvent => (logical_size, scale, false)
  end.

Definition with_exit (f : ExitState → ExitState) (p : Preview) : Preview :=
  mkPreview (shown p) (logical_size p) (scale p) (image p) (f (exit_status p)).
Definition with_image (i : RgbaFrame) (p : Preview) : Preview :=
  mkPreview (shown p) (logical_size p) (scale p) i (exit_status p).

(** [update]: the preview, and whether the toolkit is told to exit. *)
Definition update (event : WindowEvent) (reserved : bool) (p : Preview) : option (Preview * bool) :=
  match event with
  | CloseRequested => Some (with_exit record_close p, true)
  | _ =>
    let '(size, scale, redraw) := apply_window_geometry event (logical_size p) (scale p) in
    let p := mkPreview (shown p) size scale (image p) (exit_status p) in
    if negb redraw then Some (p, false)
    else
      match physical_dimensions size scale with
      | None => Some (with_exit (record_failure Dimensions) p, true)
      | Some (width, height) =>
        drawn ← render_frame (shown p) width height reserved;
        Some (match drawn with
              | Ok frame => (with_image frame p, false)
              | Err error => (with_exit (record_failure error) p, true)
              end)
      end
  end.

(** The events up to the one that ends the preview. *)
Fixpoint events (es : list (WindowEvent * bool)) (p : Preview) : option (Preview * option WindowEvent) :=
  match es with
  | [] => Some (p, None)
  | (event, reserved) :: es =>
    '(p, exits) ← update event reserved p;
    if exits : bool then Some (p, Some event) else events es p
  end.

(** [run] up to the toolkit: the first picture. *)
Definition start (fonts : Typeface) (wallpaper : option RgbaFrame) (fixture : LockFixture) (width height : Z)
    (reserved : bool) : option (result Error Preview) :=
  if negb (valid_dimensions width height) then Some (Err Dimensions)
  else
    match presentation fonts wallpaper fixture with
    | None => None
    | Some frame =>
      drawn ← render_frame frame width height reserved;
      Some (match drawn with
            | Ok image =>
              Ok (mkPreview frame (mkSize (f32_of width) (f32_of height)) (f32_of 1) image (mkExit None false))
            | Err error => Err error
            end)
    end.

(** [run]: the toolkit delivers the events, and [iced] is its own error. *)
Definition run (fonts : Typeface) (wallpaper : option RgbaFrame) (fixture : LockFixture) (width height : Z)
    (reserved : bool) (es : list (WindowEvent * bool)) (iced : bool) : option (result Error unit) :=
  started ← start fonts wallpaper fixture width height reserved;
  match started with
  | Err e => Some (Err e)
  | Ok p =>
    '(p, _) ← events es p;
    Some (if iced then Err Iced else finish (exit_status p))
  end.
