(* ===== verification/LockPreviewProofs.v ===== *)
(** * The preview of the lock shows its picture, and ends as it is told

    What holds of the window of [LockPreview] under any events. *)

From S2P Require Import Prelude Utf8.
From S2P Require Import LockerDraw LockDraw LockDrawProofs LockPreview.
From S2P Require SessionLock LockRuntime CommandLine.
Import SessionLock (RgbaFrame, PresentationFrame).

Lemma valid_dimensions_iff w h :
  valid_dimensions w h = true ↔ 0 < w ∧ 0 < h ∧ w * h ≤ MAX_PREVIEW_PIXELS.
Proof.
  unfold valid_dimensions, checked_mul, MAX_PREVIEW_PIXELS. rewrite !andb_true_iff, !Z.ltb_lt.
  destruct (Z.ltb_spec (w * h) (2 ^ 32)); rewrite ?Z.leb_le; split; intros; destruct_and?; try done; lia.
Qed.

(** A drawing never panics, and what is drawn is within the budget. *)
Lemma render_frame_total f w h reserved :
  wf_shown (Some f) → ∃ r, render_frame f w h reserved = Some r ∧
    (∀ i, r = Ok i → SessionLock.fwidth i = w ∧ SessionLock.fheight i = h ∧ valid_dimensions w h = true).
Proof.
  intros Hf. unfold render_frame. destruct (valid_dimensions w h) eqn:Hv; cbn [negb]; [|by eexists].
  apply valid_dimensions_iff in Hv as Hd. unfold render_preview, MAX_PREVIEW_PIXELS in *.
  destruct (_ || _); [by eexists|]. unfold checked_mul.
  rewrite (proj2 (Z.ltb_lt (w * h) _)) by lia. cbn [mbind option_bind].
  rewrite (proj2 (Z.ltb_lt (w * h * 4) _)) by lia.
  destruct (_ <? _); [by eexists|]. destruct reserved; [|by eexists]. cbn [negb].
  destruct (draw_full w h ltac:(lia) ltac:(lia) ltac:(lia) (Some f) None true
    (replicate (Z.to_nat (w * h * 4)) (to_u8 0))) as (out & E & _); [done|done| |].
  { unfold canvas_ok. rewrite length_replicate. lia. }
  unfold draw_opaque. rewrite E. cbn [mbind option_bind]. eexists. split; [done|]. intros i.
  destruct (SessionLock.rgba_new w h _) as [g|] eqn:Eg; [|done]. intros [= <-].
  unfold SessionLock.rgba_new in Eg. destruct (checked_mul 32 w h); [|done]. cbn [mbind option_bind] in Eg.
  destruct (checked_mul 32 _ 4); [|done]. cbn [mbind option_bind] in Eg.
  destruct (_ && _); [|done]. by injection Eg as <-.
Qed.

(** The picture is a drawing of the frame, for dimensions within the budget. *)
Definition pictured (p : Preview) : Prop :=
  ∃ reserved, render_frame (shown p) (SessionLock.fwidth (image p)) (SessionLock.fheight (image p)) reserved
              = Some (Ok (image p)).

(** A preview that has not ended. *)
Record running (p : Preview) : Prop := mkRunning {
  run_frame : wf_shown (Some (shown p));
  run_picture : pictured p;
  run_status : exit_status p = mkExit None false;
}.

Lemma rendered_pictured f w h reserved i :
  wf_shown (Some f) → render_frame f w h reserved = Some (Ok i) →
  render_frame f (SessionLock.fwidth i) (SessionLock.fheight i) reserved = Some (Ok i).
Proof.
  intros Hf E. destruct (render_frame_total f w h reserved Hf) as (r & E' & Hr).
  rewrite E in E'. injection E' as <-. by destruct (Hr _ eq_refl) as (-> & -> & _).
Qed.

(** One event: the preview goes on, or it ends well for a close request and in failure otherwise. *)
Lemma update_running event reserved p :
  running p →
  ∃ p' exits, update event reserved p = Some (p', exits) ∧ pictured p' ∧
    (exits = false → running p') ∧
    (exits = true → if event is CloseRequested then finish (exit_status p') = Ok tt
                    else ∃ e, finish (exit_status p') = Err e).
Proof.
  intros [Hf Hp Hs]. unfold update.
  assert (∀ size, ∃ p' exits,
    match physical_dimensions size (scale p) with
    | Some (w, h) =>
      drawn ← render_frame (shown p) w h reserved;
      Some (match drawn with
            | Ok frame => (with_image frame (mkPreview (shown p) size (scale p) (image p) (exit_status p)), false)
            | Err error =>
              (with_exit (record_failure error) (mkPreview (shown p) size (scale p) (image p) (exit_status p)), true)
            end)
    | None =>
      Some (with_exit (record_failure Dimensions) (mkPreview (shown p) size (scale p) (image p) (exit_status p)), true)
    end = Some (p', exits) ∧ pictured p' ∧ (exits = false → running p') ∧
    (exits = true → ∃ e, finish (exit_status p') = Err e)) as Hredraw.
  { intros size. destruct (physical_dimensions size (scale p)) as [[w h]|].
    - destruct (render_frame_total (shown p) w h reserved Hf) as ([i|e] & E & Hr); rewrite E; cbn.
      + eexists _, _. split; [done|]. assert (pictured (with_image i (mkPreview (shown p) size (scale p) (image p)
          (exit_status p)))) as Hi by (exists reserved; by eapply rendered_pictured).
        split_and!; [done| |done]. by constructor.
      + eexists _, _. split; [done|]. split_and!; [exact Hp|done|]. intros _. exists e. cbn. by rewrite Hs.
    - eexists _, _. split; [done|]. split_and!; [exact Hp|done|]. intros _. exists Dimensions. cbn. by rewrite Hs. }
  destruct event as [|size|size|s|]; cbn [apply_window_geometry negb].
  - eexists _, _. split; [done|]. split_and!; [exact Hp|done|]. intros _. cbn. by rewrite Hs.
  - apply Hredraw.
  - apply Hredraw.
  - eexists _, _. split; [done|]. split_and!; [exact Hp| |done]. intros _. by constructor.
  - eexists _, _. split; [done|]. split_and!; [exact Hp| |done]. intros _. by constructor.
Qed.

(** The preview of the lock never panics and always shows its frame: under any
    events of the window, and however much memory there is, the picture that it
    shows is the drawing of its frame for its own size, within the budget; and it
    ends well exactly when it was asked to close, not when a drawing failed or
    when the toolkit ended without either. *)
Theorem lock_preview_ends es p :
  running p →
  ∃ p' last, events es p = Some (p', last) ∧ pictured p' ∧
    (finish (exit_status p') = Ok tt ↔ last = Some CloseRequested).
Proof.
  revert p. induction es as [|[event reserved] es IH]; intros p Hp.
  - eexists _, _. split; [done|]. destruct Hp as [_ Hpic ->]. split; [done|]. by split.
  - destruct (update_running event reserved p Hp) as (p' & exits & E & Hpic & Hgo & Hend).
    cbn [events]. rewrite E. cbn [mbind option_bind]. destruct exits; [|by apply IH, Hgo].
    eexists _, _. split; [done|]. split; [done|]. specialize (Hend eq_refl).
    destruct event; split; intros H; try done; destruct Hend as [e He]; congruence.
Qed.

(** The window starts like that, for a wallpaper that is well formed. *)
Lemma start_running fonts wallpaper fixture w h reserved p f :
  presentation fonts wallpaper fixture = Some f → wf_shown (Some f) →
  start fonts wallpaper fixture w h reserved = Some (Ok p) → running p.
Proof.
  intros Hf Hwf. unfold start. destruct (valid_dimensions w h) eqn:Hv; cbn [negb]; [|done].
  rewrite Hf. destruct (render_frame f w h reserved) as [[i|e]|] eqn:E; cbn; [|done..].
  intros [= <-]. constructor; [done| |done]. exists reserved. by eapply rendered_pictured.
Qed.

(** ** Witness *)

Definition preview_frame : PresentationFrame :=
  SessionLock.mkFrame 4 2 None (SessionLock.mkRgba 2 1 (replicate 8 Byte.x80)) 1 1.
Definition preview_image : RgbaFrame :=
  match render_frame preview_frame 8 4 true with
  | Some (Ok i) => i
  | _ => SessionLock.mkRgba 1 1 []
  end.
Definition preview_window : Preview :=
  mkPreview preview_frame (mkSize (f32_of 8) (f32_of 4)) (f32_of 1) preview_image (mkExit None false).

Lemma lock_preview_ends_witness :
  ∃ p' last,
    events [(Rescaled (f32_of 2), true); (Resized (mkSize (f32_of 4) (f32_of 2)), true); (CloseRequested, true)]
      preview_window = Some (p', last) ∧
    pictured p' ∧ (finish (exit_status p') = Ok tt ↔ last = Some CloseRequested).
Proof.
  apply lock_preview_ends. constructor.
  - exact (small_shown Byte.x80).
  - exists true. vm_compute. reflexivity.
  - reflexivity.
Defined.
