(* ===== verification/Keys.v ===== *)
(** * What keys mean ([src/app/focus.rs], [src/app/mod.rs], [crates/session-lock/src/runtime.rs])

    The events of the toolkit that the greeter listens to, as the messages that
    they become, and the key symbols of the locker, as the input that they are.
    A key that a widget has used is captured: it moves the focus of a dialog at
    most. *)

From S2P Require Import Prelude Utf8 Text Greeter.
From S2P Require SessionLock.

(** ** The greeter *)

Inductive Named :=
| Tab | Enter | SpaceKey | KeyEscape | ArrowRight | ArrowDown | ArrowLeft | ArrowUp
| PageUp | PageDown | Home | KeyEnd | OtherNamed.
Inductive Key := NamedKey (n : Named) | Character (s : rstring) | Unidentified.
Inductive Status := Captured | Ignored.
#[export] Instance Status_eq_dec : EqDecision Status.
Proof. solve_decision. Defined.

(** [iced::Event], as far as the listeners tell it apart; a key comes with whether shift is held. *)
Inductive Event := KeyPressed (key : Key) (shift : bool) | ButtonPressed | FingerPressed | OtherEvent.

Definition navigation_key (key : Key) (shift : bool) (status : Status) : option Navigation :=
  if bool_decide (status = Captured) then None
  else
    match key with
    | NamedKey Tab => Some (if shift then Previous else Next)
    | NamedKey (ArrowRight | ArrowDown) => Some DirectionNext
    | NamedKey (ArrowLeft | ArrowUp) => Some DirectionPrevious
    | NamedKey (Enter | SpaceKey) => Some Activate
    | _ => None
    end.

Definition keyboard_navigation (event : Event) (status : Status) : option Message :=
  match event with
  | KeyPressed key shift =>
    navigation ← navigation_key key shift Ignored;
    Some (if bool_decide (status = Captured) then NavigateModal navigation else NavigateFocus navigation)
  | _ => None
  end.

Definition pointer_focus_sync (event : Event) (status : Status) : option Message :=
  match event with ButtonPressed | FingerPressed => Some SyncWidgetFocus | _ => None end.

Definition page_navigation_key (key : Key) (status : Status) : option Message :=
  match key with
  | NamedKey PageUp => Some (NavigatePage Up)
  | NamedKey PageDown => Some (NavigatePage Down)
  | NamedKey Home => if bool_decide (status = Ignored) then Some (NavigatePage Start) else None
  | NamedKey KeyEnd => if bool_decide (status = Ignored) then Some (NavigatePage End) else None
  | _ => None
  end.
Definition page_navigation (event : Event) (status : Status) : option Message :=
  match event with KeyPressed key _ => page_navigation_key key status | _ => None end.

Definition cancel_shortcut_key (key : Key) : option Message :=
  match key with NamedKey KeyEscape => Some Escape | _ => None end.
Definition cancel_shortcut (event : Event) (status : Status) : option Message :=
  match event with KeyPressed key _ => cancel_shortcut_key key | _ => None end.

(** The listeners of [App::subscription], in its order. *)
Definition listened (event : Event) (status : Status) : list Message :=
  omap (λ listener : Event → Status → option Message, listener event status)
    [keyboard_navigation; pointer_focus_sync; page_navigation; cancel_shortcut].

(** The application's [update] for what was heard of an event. *)
Definition hear (found : list Sessions.Session) (event : Event) (status : Status) (a : App) : App * list Task :=
  foldl (λ r m, let '(a, ts) := update found m (fst r) in (a, snd r ++ ts)) (a, []) (listened event status).

(** ** The locker *)

Inductive Keysym := BackSpace | Return | KP_Enter | SymEscape | SymTab | OtherKeysym (code : Z).

(** [handle_key], up to the presentation's input; [utf8] is the text of the key. *)
Definition key_input (keysym : Keysym) (utf8 : option rstring) : option SessionLock.Input :=
  match keysym with
  | BackSpace => Some SessionLock.Backspace
  | Return | KP_Enter => Some SessionLock.Submit
  | SymEscape => Some SessionLock.Cancel
  | SymTab => Some SessionLock.NextPage
  | OtherKeysym _ =>
    match utf8 with
    | Some text => if negb (existsb is_control text) then Some (SessionLock.Text text) else None
    | None => None
    end
  end.

(** ** Theorems *)

(** No event is heard as two messages. *)
Lemma heard_once event status : (length (listened event status) ≤ 1)%nat.
Proof.
  destruct event as [[[]| |] shift| | |], status; vm_compute; lia.
Qed.

(** A key that the input has used, but for the keys that scroll by pages and
    escape, does nothing else while no dialog is open: what is typed neither moves the focus
    nor presses what is focused, not by a space or by enter either. *)
Theorem captured_keys_are_inert found key shift a :
  confirming a = false →
  match key with NamedKey (PageUp | PageDown | KeyEscape) => True
  | _ => hear found (KeyPressed key shift) Captured a = (a, [])
  end.
Proof.
  intros Hc.
  assert (∀ n, update found (NavigateModal n) a = (a, [])) as Hn.
  { intros n. unfold update. cbn [update_depth]. unfold update_with. destruct (admitted a _); [|done].
    cbn [dispatch]. by rewrite Hc. }
  assert (∀ m, listened (KeyPressed key shift) Captured = [NavigateModal m] →
    hear found (KeyPressed key shift) Captured a = (a, [])) as Hmodal.
  { intros m E. unfold hear. rewrite E. cbn [foldl fst snd]. by rewrite Hn. }
  destruct key as [[]| |]; try done; by eapply Hmodal.
Qed.

(** With a dialog open it moves within the dialog, whatever captured it: the
    modal message reaches the handler of the focus. *)
Lemma captured_keys_in_dialog found n a :
  closing a = None → confirming a = true →
  update found (NavigateModal n) a = navigate_focus (update_depth 1 found) n a.
Proof.
  intros Hcl Hc. unfold update. cbn [update_depth]. unfold update_with at 1, admitted. rewrite Hcl. cbn [andb].
  assert (allowed_with_power (power_state a) (NavigateModal n) = true) as ->.
  { unfold confirming in Hc. cbn. by destruct (power_state a). }
  rewrite orb_true_r. cbn [dispatch]. by rewrite Hc.
Qed.

(** What a key types into the locker holds no control character. *)
Lemma typed_no_control keysym utf8 text :
  key_input keysym utf8 = Some (SessionLock.Text text) →
  utf8 = Some text ∧ Forall (λ c, is_control c = false) text.
Proof.
  destruct keysym; cbn; try done. destruct utf8 as [t|]; [|done].
  destruct (existsb is_control t) eqn:E; cbn; [done|]. intros [= <-]. split; [done|].
  apply Forall_forall. intros c Hc. destruct (is_control c) eqn:Ec; [|done].
  assert (existsb is_control t = true); [|congruence].
  apply existsb_exists. exists c. by rewrite <- list_elem_of_In.
Qed.

Lemma captured_keys_are_inert_witness :
  let a := fst (new None []) in
  confirming a = false ∧ hear [] (KeyPressed (NamedKey SpaceKey) false) Captured a = (a, []).
Proof.
  cbn zeta. split; [reflexivity|].
  exact (captured_keys_are_inert [] (NamedKey SpaceKey) false (fst (new None [])) eq_refl).
Defined.
